(* ===== verification/_CoqProject ===== *)
-Q . S2P
Prelude.v
Values.v
Limits.v
Models.v
ModelFacts.v
Store.v
StoreFacts.v
StoreInv.v
StoreMove.v
StoreModels.v
Transaction.v
TransactionFacts.v
Wire.v
WireFacts.v
SnapshotFraming.v
SnapshotFramingFacts.v
Snapshot.v
SnapshotItems.v
SnapshotNodes.v
SnapshotFacts.v
Journal.v
Dedupe.v
DedupeFacts.v
Event.v
TextTracker.v
Resources.v
Outbound.v
Session.v
SessionFacts.v
Replication.v
OutboundFacts.v
Terminal.v
TerminalFacts.v
Capability.v
Extensions.v
ExtensionsFacts.v
Handshake.v
HandshakeFacts.v
SessionEvents.v
HandshakeRuns.v
TerminalNode.v
Demo.v
StoreTheorems.v
SessionTheorems.v
DeliveryTheorems.v
SnapshotTheorems.v
ServerTheorems.v
HandshakeTheorems.v
Findings.v
ModelRange.v
ModelRangeFacts.v
ModelRangeInbox.v
RangeTheorems.v
Codec.v
SrtopData.v
SrtopText.v
SrtopMetric.v
SrtopCatalogue.v
SrtopSort.v
SrtopProcfs.v
SrtopProcfsFacts.v
SrtopOnDemand.v
SrtopOnDemandFacts.v
SrtopTheorems.v
SrtopRefresh.v
SrtopCommit.v
SrtopViewOps.v
SrtopFilter.v
SrtopRows.v
SrtopDiffFacts.v
SrtopMoveFacts.v
SrtopPlan.v
SrtopView.v
SrtopCommitFacts.v
SrtopInvariant.v
SrtopOpsFacts.v
SrtopIds.v
SrtopDemo.v
SrtopRefreshTheorems.v
SrtopViewTheorems.v
