(* ===== verification/Prelude.v ===== *)
(** * SRUI: a verification of the semantic remote UI server and of srtop

    SRUI serves a user interface as a tree of semantic nodes.  A server process
    owns the tree and the collections (models) its tables show; clients hold
    replicas, which they obtain by a handshake and keep by applying the
    transactions the server publishes, and send back events.  srtop is the
    application of the repository: it publishes a host's processes as one model.
    This development models the core of the Rust server ([src/server-rust]) and
    of srtop ([src/apps/srtop]) as executable definitions, translated function by
    function, and proves what makes them correct.  Paths below are relative to
    [src/server-rust], or to [src/apps/srtop/src] for the files named Srtop*.

    ** Conventions

    A fallible function returns a [result E A] of this file: the two values of
    Rust's [Result], and [Panic] and [Diverge], so that theorems can exclude an
    [expect] that fails and a loop that does not end.  A method on [&mut self] maps the
    state to the state it leaves and its outcome.  Integers of 32 and 64 bits are
    [N] or [Z] with the code's checked, saturating or wrapping arithmetic written
    out (release build).  A [HashMap] or [BTreeMap] is a [gmap]; where the code
    depends on a hash map's order, the order is a parameter.  One critical section
    of a mutex is one function; interleavings are sequences of steps, and where a
    section uses a second mutex that others may take meanwhile (the outbound hub,
    while a handshake resumes) what they do to it is an argument.  Recursion
    that is not structural takes fuel, one more than the size of what shrinks (the
    nodes of the tree, the entries of a queue, the bytes left, the operations of a
    plan), and running out is [Diverge] or the state reached; the theorems on
    termination, and the lemmas on each loop, show that it does not run out.

    ** The parts, and the files that model them

    Data and the store:
    - Values ([semantic-tree/src/ids], [value/]), Limits ([store/error.rs],
      [store/limits.rs]): identifiers, the recursive value type, limits, errors.
    - Models ([model.rs]), with ModelFacts: the sparse cache of a collection.
    - Store ([store/mod.rs], [store/node.rs]): the graph of nodes and the models.
      Proofs: StoreFacts (parent maps, the graph), StoreInv, StoreMove, StoreModels.
    - Transaction ([transaction/]), with TransactionFacts; Wire ([value/wire.rs],
      [transaction/wire.rs], [wire.rs], the messages of [protocol/srui.proto]),
      with WireFacts.

    The session, which owns a store, a journal, the receive windows, the tracker
    of text edits and the subscribers:
    - Journal ([journal/src/lib.rs]), Dedupe ([event-dedupe/src/lib.rs]) with
      DedupeFacts, Event ([semantic-tree/src/event.rs]), TextTracker
      ([sessiond/src/session/text_edit.rs]), Resources ([resources/src],
      [outbound/resource.rs]).
    - Session ([sessiond/src/session.rs], the commit half of [text_edit.rs],
      [sdk/src/session.rs]): lifecycle, commits, events, text edits.  Proofs:
      SessionFacts, SessionEvents; Replication states the session as a step
      relation with its replicas.
    - ModelRange ([session/model_range.rs]): windows of collections on demand and
      the inbox that coalesces the requests.  Proofs: ModelRangeFacts,
      ModelRangeInbox.

    Delivery:
    - Outbound ([outbound/scheduler.rs] with its generated policy,
      [outbound/coalesce.rs], [outbound/mod.rs], [outbound/receiver.rs]): the
      round robin of the channels, coalescing, subscriber lanes and the registry
      of stale clients.  Proofs: OutboundFacts.
    - Snapshot ([session/snapshot.rs]), with SnapshotItems, SnapshotNodes and
      SnapshotFacts; SnapshotFraming ([protocol/src/snapshot_framing.rs]), with
      SnapshotFramingFacts; Codec ([protocol/src/codec.rs], [framing.rs]).
    - Capability ([semantic-tree/src/capability.rs]), Extensions
      ([session/extensions.rs]) with ExtensionsFacts, Handshake
      ([session/handshake.rs]) with HandshakeFacts and HandshakeRuns.
    - Terminal ([pty/src/ring.rs], [stream.rs], [manager.rs]) with TerminalFacts;
      TerminalNode ([session/terminal.rs]).

    srtop, whose view publishes through the session above:
    - SrtopData ([source.rs]): observations, process keys, records, and what a scan
      says about rows it lacks.  SrtopText ([source.rs]): names and command lines
      made safe to show.  SrtopMetric ([metric.rs]): the text of a number.
      SrtopCatalogue ([catalogue.rs], the buttons of [lib.rs]): columns and layouts.
      SrtopSort ([sort.rs]): the order of rows.
    - SrtopProcfs ([procfs.rs]): the parsers of the kernel's files, the sampling of
      CPU usage, and the scan that lists, reads and accounts for every process; what
      the operating system answers and the clocks say is data ([ProcFs], [Entry]).
      Proofs: SrtopProcfsFacts, which also defines the runs of one collector.
    - SrtopFilter ([filter.rs]): the queries of the filter, an instance of
      [FilterQueries].
    - SrtopOnDemand ([on_demand.rs], the metric catalogue of [catalogue.rs]): the
      collector of fields on demand.  Proofs: SrtopOnDemandFacts, which runs it in a
      world with its workers.
    - SrtopRefresh (the planning half of [refresh.rs]), SrtopCommit (its publishing
      half), SrtopViewOps (layouts, staged filters, summaries).  Proofs: SrtopRows,
      SrtopDiffFacts, SrtopMoveFacts, SrtopPlan, SrtopView, SrtopCommitFacts, SrtopInvariant, SrtopOpsFacts.
    - SrtopIds ([projection.rs]): the allocator of item ids, and
      [ProcessView::apply] from a scan to the published rows.

    Demo and SrtopDemo hold the concrete states the witnesses evaluate on.

    ** What the theorems show

    - StoreTheorems: every operation keeps the store's invariant and returns; what
      creation, deletion, moves, reordering and the model operations do, exactly;
      transactions are atomic and survive the wire.
    - SessionTheorems: the session's invariant over all runs, whatever closures do;
      replicas that apply what a careful application publishes stay in step, and no
      replica is led astray; events take effect once; text edits.
    - DeliveryTheorems: coalescing cannot be observed; a lane delivers every
      change; resources arrive whole; no ready channel starves.
    - SnapshotTheorems: a snapshot, framed, delivered and assembled, reproduces the
      store; its frames are as few as possible; the replica follows from there.
    - HandshakeTheorems: fresh and returning clients of an exportable store start
      without a gap whatever runs between the locks; when resumption replays and
      when it resynchronises, also if the client's stale marker is cleared meanwhile;
      handshakes return, and refused ones change nothing; edits that had not arrived
      when they were cancelled never run.
    - RangeTheorems: a window is committed as requested or not at all; the inbox is
      bounded, current and served.
    - ServerTheorems: a terminal's subscriber reads the terminal's history with
      every loss announced; the table of extension namespaces is stable, and
      handshakes accept it exactly as long as the advertised profiles are
      presentable; creation of terminals.
    - Codec: frames survive any division of the stream into reads.
    - SrtopTheorems: the order of rows is total and sorting stable; cells; the
      catalogue; on-demand reads are bounded, what they show is honest, and every
      demanded field has its turn; a scan accounts for every process it lists, CPU
      usage is measured between two samples of one process, the kernel's lines are
      read exactly, names are safe to show (by the sets of the Unicode Character
      Database, written down apart from the code's table), and two trees are never
      confused.
    - SrtopFilter: a filter is what was typed, bounded, and matches its terms.
    - SrtopRefreshTheorems: after every step of a run the view's rows are the items
      of the session's model and the ids it remembers are theirs; a refresh
      publishes its target; no revision on the way lacks a row that stays; moves are
      as few as possible.
    - SrtopViewTheorems: uncertain rows survive within the ceiling; what is
      published fits a snapshot; layouts, filters and summaries; item ids are never
      reused, and losing sight of the host changes none.
    - Findings: runs of the model that do what a comment, a document or a sibling
      check says the code does not.

    ** What the application is held to

    The closures an application commits are arbitrary code, and what replicas see
    depends on them.  The step relation of Replication takes a [conduct]:
    [AnyConduct] admits every closure that reaches its transaction through its
    methods, as Rust's privacy enforces; [InRange] also asks that no text edit is
    decided at revision [u64::MAX], which the code would wrap around
    ([Findings.edits_wrap_the_revision]); [WireSafe] that closures record only
    operations that the wire carries unchanged ([Findings.parent_zero_is_lost]); and
    [Careful] that a closure returns [Ok] only where every call it made did, as
    with [?] ([Findings.ignored_errors_are_published] shows one that does not).
    Invariants, events, decisions and the termination of handshakes are proved for
    [InRange] runs, that is for [AnyConduct] as long as the publications stay below
    the last revision ([session_run_in_range]); that a replica never diverges
    silently for [WireSafe] ones; that it follows, for [Careful] ones.  The operations
    of ModelRange and of srtop are careful.  An exportable store
    ([SnapshotFacts.exportable]) is what snapshots need: deleting items that are not
    cached can leave it ([Findings.uncached_deletes_break_snapshots]).

    ** Interfaces to code that is not here

    Code outside the repository, and values the build generates, are type classes;
    Demo gives instances of each.  [Registry], [EventRegistry], [CollectionRegistry]
    and [SdkProperties] are generated constants.  [Prost], [Encoding], [Framing] and
    [ItemEncoding] are prost's encoder and the lengths it computes, with the laws its
    documentation states.  [Digest] is sha2.  [PropertyIter] and [HashOrder] are the
    orders in which hash maps iterate.  [Diagnostics] are the texts of errors.
    [LowercaseTable] is the standard library's table of lowercase letters.
    [FilterQueries] is what a view asks of a query language: its theorems hold for
    each one, and SrtopFilter gives srtop's own.
    Application code (event handlers, the policy of text edits, providers of
    windows, sources of processes and of fields) is an argument: what it answers.

    ** Bounds

    Limits are fields of the modelled configuration, as in the code.  Sums of
    lengths of values in memory are not wrapped at [usize].  Revisions, item ids and
    generations are bounded by [u64_max], and theorems that need a next one say so.

    ** Not modelled

    - Sockets, framing over them, wakers, channels and tasks ([connection.rs],
      [connection/writer.rs], [main.rs], [ssh-bridge], [unix-security]): operating
      system I/O; the theorems on delivery start and end at the lanes and at the
      bytes of the codec.
    - The processes, threads and file descriptors of terminals ([pty/src/manager.rs]
      apart from its subscriptions).
    - Lock poisoning; panics of application code inside a critical section.
    - The widget builders of [sdk/src/widgets], generated by macros over the
      operations modelled here; the clients in Swift and Python; fuzzers, benchmarks
      and examples.
    - srtop's clocks and the operating system below [procfs.rs], whose answers are
      arguments of the scan; the text of its status line and the computation of its
      summary, which are arguments of
      the view's operations ([SrtopIds.apply_scan] takes the change they plan),
      [ProcessView::start], and the polling loop [poll].  An operation of a view runs
      its transactions without another commit in between: its mutex keeps other
      operations of the view out, but not other users of the session. *)

From stdpp Require Export base tactics numbers list gmap sets strings pretty sorting.

#[global] Set Default Goal Selector "!".

(** ** Fallible code

    The outcome of running a Rust function that returns [Result<A, E>]: besides
    its two values, it may panic ([expect] on [None], a slice out of range) or
    loop for ever.  Both are outcomes of the model so that theorems can exclude
    them.  The error type comes first so that [result E] is a monad and
    [x ← c; k] is the [?] operator. *)

Inductive result (E A : Type) : Type :=
| Ok (a : A)
| Err (e : E)
| Panic
| Diverge.
Arguments Ok {E A} a.
Arguments Err {E A} e.
Arguments Panic {E A}.
Arguments Diverge {E A}.

#[export] Instance result_ret E : MRet (result E) := λ A a, Ok a.
#[export] Instance result_bind E : MBind (result E) := λ A B k c,
  match c with Ok a => k a | Err e => Err e | Panic => Panic | Diverge => Diverge end.
#[export] Instance result_fmap E : FMap (result E) := λ A B f c,
  match c with Ok a => Ok (f a) | Err e => Err e | Panic => Panic | Diverge => Diverge end.

Definition is_ok {E A} (r : result E A) : bool :=
  match r with Ok _ => true | _ => false end.

(** The call comes back to its caller with a value of [Result]. *)
Definition returns {E A} (r : result E A) : Prop :=
  match r with Ok _ | Err _ => True | _ => False end.

(** [opt.ok_or(e)] *)
Definition ok_or {E A} (e : E) (o : option A) : result E A :=
  match o with Some a => Ok a | None => Err e end.

(** [opt.expect(msg)] *)
Definition expect {E A} (o : option A) : result E A :=
  match o with Some a => Ok a | None => Panic end.

(** [result.map_err(f)] *)
Definition map_err {E E' A} (f : E → E') (r : result E A) : result E' A :=
  match r with Ok a => Ok a | Err e => Err (f e) | Panic => Panic | Diverge => Diverge end.

(** A guard of the form [if b { return Err(e) }]. *)
Definition err_if {E} (b : bool) (e : E) : result E unit :=
  if b then Err e else Ok tt.

(** A method on [&mut self] whose early returns all precede its first write:
    on any outcome but [Ok] the receiver is unchanged. *)
Definition all_or_nothing {E S} (s : S) (r : result E S) : S * result E unit :=
  match r with
  | Ok s' => (s', Ok tt)
  | Err e => (s, Err e)
  | Panic => (s, Panic)
  | Diverge => (s, Diverge)
  end.

(** Loops whose body may return early; the body is a section variable so that
    recursive functions over nested data can use them. *)
Section loops.
Context {E S A : Type}.

(** [for x in xs { f(x)?; }] *)
Definition for_each (f : A → result E unit) : list A → result E unit :=
  fix go xs :=
    match xs with
    | [] => Ok tt
    | x :: xs => f x ≫= λ _, go xs
    end.

(** [for x in xs { f(&mut s, x)?; }] *)
Definition try_fold (f : S → A → result E S) : S → list A → result E S :=
  fix go s xs :=
    match xs with
    | [] => Ok s
    | x :: xs => f s x ≫= λ s', go s' xs
    end.

(** [xs.into_iter().map(f).collect::<Result<Vec<_>, _>>()] *)
Definition try_map (f : A → result E S) : list A → result E (list S) :=
  fix go xs :=
    match xs with
    | [] => Ok []
    | x :: xs => f x ≫= λ y, go xs ≫= λ ys, Ok (y :: ys)
    end.

(** [for x in xs { s.f(x)?; }] where a failing iteration may already have
    written to [s]. *)
Definition run_loop (f : S → A → S * result E unit) : S → list A → S * result E unit :=
  fix go s xs :=
    match xs with
    | [] => (s, Ok tt)
    | x :: xs =>
        match f s x with
        | (s', Ok _) => go s' xs
        | stop => stop
        end
    end.
End loops.

Lemma Ok_inj {E A} (a b : A) : Ok (E:=E) a = Ok b → a = b.
Proof. by injection 1. Qed.

Section result_lemmas.
Context {E : Type}.

Lemma bind_Ok {A B} (c : result E A) (k : A → result E B) b :
  (c ≫= k) = Ok b ↔ ∃ a, c = Ok a ∧ k a = Ok b.
Proof.
  split.
  - destruct c as [a|e| |]; simpl; intros H; [by exists a|discriminate H..].
  - by intros (a & -> & ?).
Qed.

Lemma bind_Err {A B} (c : result E A) (k : A → result E B) e :
  (c ≫= k) = Err e ↔ c = Err e ∨ ∃ a, c = Ok a ∧ k a = Err e.
Proof.
  split.
  - destruct c as [a|e'| |]; simpl; intros H;
      [by right; exists a|left; congruence|discriminate H..].
  - by intros [->|(a & -> & ?)].
Qed.

Lemma err_if_Ok (b : bool) (e : E) u : err_if b e = Ok u ↔ b = false.
Proof. by destruct b, u. Qed.

Lemma ok_or_Ok {A} (e : E) (o : option A) a : ok_or e o = Ok a ↔ o = Some a.
Proof. destruct o; simpl; split; congruence. Qed.

Lemma expect_Ok {A} (o : option A) a : expect (E:=E) o = Ok a ↔ o = Some a.
Proof. destruct o; simpl; split; congruence. Qed.

Lemma returns_bind {A B} (c : result E A) (k : A → result E B) :
  returns c → (∀ a, c = Ok a → returns (k a)) → returns (c ≫= k).
Proof. destruct c; simpl; auto. Qed.

Lemma returns_err_if (b : bool) (e : E) : returns (err_if b e).
Proof. by destruct b. Qed.

Lemma returns_ok_or {A} (e : E) (o : option A) : returns (ok_or e o).
Proof. by destruct o. Qed.

Lemma returns_for_each {A} (f : A → result E unit) xs :
  (∀ x, x ∈ xs → returns (f x)) → returns (for_each f xs).
Proof.
  induction xs as [|x xs IH]; intros Hf; [done|]. cbn. apply returns_bind.
  - apply Hf. by left.
  - intros _ _. apply IH. intros. apply Hf. by right.
Qed.

Lemma returns_try_map {A B} (f : A → result E B) xs :
  (∀ x, x ∈ xs → returns (f x)) → returns (try_map f xs).
Proof.
  induction xs as [|x xs IH]; intros Hf; [done|]. cbn. apply returns_bind.
  - apply Hf. by left.
  - intros y _. apply returns_bind; [|done]. apply IH. intros. apply Hf. by right.
Qed.

Lemma for_each_Ok {A} (f : A → result E unit) xs u :
  for_each f xs = Ok u ↔ Forall (λ x, f x = Ok tt) xs.
Proof.
  destruct u. induction xs as [|x xs IH]; [by split|].
  cbn. rewrite Forall_cons, bind_Ok.
  setoid_rewrite IH.
  split; [intros ([] & ? & ?); eauto|intros [??]; eauto].
Qed.

Lemma try_fold_app {S A} (f : S → A → result E S) s xs ys :
  try_fold f s (xs ++ ys) = try_fold f s xs ≫= λ s', try_fold f s' ys.
Proof.
  revert s. induction xs as [|x xs IH]; intros s; simpl; [done|].
  destruct (f s x); simpl; auto.
Qed.

Lemma returns_try_fold {S A} (f : S → A → result E S) s xs :
  (∀ s x, returns (f s x)) → returns (try_fold f s xs).
Proof.
  intros Hf. revert s. induction xs as [|x xs IH]; intros s; [done|]. cbn. by apply returns_bind.
Qed.

(** The loop rule: an invariant kept by every iteration holds at the end. *)
Lemma try_fold_inv {S A} (P : S → Prop) (f : S → A → result E S) xs s s' :
  (∀ s x s', x ∈ xs → P s → f s x = Ok s' → P s') →
  P s → try_fold f s xs = Ok s' → P s'.
Proof.
  revert s. induction xs as [|x xs IH]; cbn; intros s Hf Hs Heq.
  { by injection Heq as <-. }
  apply bind_Ok in Heq as (s1 & H1 & H2).
  eapply IH; [|by eapply Hf; [left| |]|done]. intros; eapply Hf; eauto. by right.
Qed.
End result_lemmas.

(** Splits hypotheses that say a chain of [?]s returned [Ok]. *)
Ltac inv_ok :=
  repeat match goal with
  | H : (_ ≫= _) = Ok _ |- _ =>
      let x := fresh "r" in let H1 := fresh H in
      apply bind_Ok in H as (x & H1 & H)
  | H : err_if _ _ = Ok _ |- _ => apply err_if_Ok in H
  | H : ok_or _ _ = Ok _ |- _ => apply ok_or_Ok in H
  | H : expect _ = Ok _ |- _ => apply expect_Ok in H
  | H : Ok _ = Ok _ |- _ => apply Ok_inj in H
  | H : Err _ = Ok _ |- _ => discriminate H
  | H : Ok _ = Err _ |- _ => discriminate H
  | u : unit |- _ => destruct u
  end.

(** ** Machine integers

    [u64] and [usize] are [N] below [2^64]; the release profile of the
    workspace leaves overflow checks off, so unchecked [+] and [-] wrap. *)

Definition u64_max : N := 2 ^ 64 - 1.
Definition wrap64 (x : N) : N := x mod 2 ^ 64.
Definition add64 (a b : N) : N := wrap64 (a + b).
(** [a - b] modulo [2^64]. *)
Definition sub64 (a b : N) : N := wrap64 (a + 2 ^ 64 - wrap64 b).
Definition saturating_add64 (a b : N) : N := N.min (a + b) u64_max.
Definition checked_add64 (a b : N) : option N :=
  if decide (a + b ≤ u64_max)%N then Some (a + b)%N else None.

Lemma u64_max_val : u64_max = (18446744073709551615)%N.
Proof. reflexivity. Qed.

Lemma wrap64_small x : (x ≤ u64_max)%N → wrap64 x = x.
Proof. rewrite u64_max_val. intros. apply N.mod_small. lia. Qed.

Lemma wrap64_bound x : (wrap64 x ≤ u64_max)%N.
Proof. unfold wrap64. pose proof (N.mod_lt x (2 ^ 64)). rewrite u64_max_val. lia. Qed.

Lemma add64_small a b : (a + b ≤ u64_max)%N → add64 a b = (a + b)%N.
Proof. apply wrap64_small. Qed.

Lemma sub64_small a b : (b ≤ a)%N → (a ≤ u64_max)%N → sub64 a b = (a - b)%N.
Proof.
  intros Hb Ha. unfold sub64. rewrite (wrap64_small b) by lia.
  rewrite u64_max_val in Ha. unfold wrap64.
  replace (a + 2 ^ 64 - b)%N with ((a - b) + 1 * 2 ^ 64)%N by lia.
  rewrite N.Div0.mod_add. apply N.mod_small. lia.
Qed.

Lemma checked_add64_Some a b c :
  checked_add64 a b = Some c ↔ c = (a + b)%N ∧ (a + b ≤ u64_max)%N.
Proof. unfold checked_add64. case_decide; naive_solver. Qed.

Lemma checked_add64_small a b : (a + b ≤ u64_max)%N → checked_add64 a b = Some (a + b)%N.
Proof. intros. by apply checked_add64_Some. Qed.

Lemma checked_add64_None a b : checked_add64 a b = None ↔ (u64_max < a + b)%N.
Proof. unfold checked_add64. case_decide; [split; [done|lia]|split; [lia|done]]. Qed.

(** [v.len()] *)
Definition len {A} (l : list A) : N := N.of_nat (length l).

Lemma len_app {A} (l k : list A) : len (l ++ k) = (len l + len k)%N.
Proof. unfold len. rewrite length_app. lia. Qed.

Lemma len_cons {A} (x : A) l : len (x :: l) = (1 + len l)%N.
Proof. unfold len. simpl. lia. Qed.

(** ** Rust collections *)

(** [v.into_iter().enumerate()] *)
Fixpoint enumerate_from {A} (i : N) (l : list A) : list (N * A) :=
  match l with
  | [] => []
  | x :: l => (i, x) :: enumerate_from (i + 1)%N l
  end.
Definition enumerate {A} (l : list A) : list (N * A) := enumerate_from 0 l.

Lemma elem_of_enumerate_from {A} s (l : list A) j x :
  (j, x) ∈ enumerate_from s l ↔ (s ≤ j)%N ∧ l !! N.to_nat (j - s) = Some x.
Proof.
  revert s. induction l as [|y l IH]; intros s; cbn.
  { rewrite elem_of_nil, lookup_nil. naive_solver. }
  rewrite elem_of_cons, IH. destruct (decide (j = s)) as [->|Hne].
  - rewrite N.sub_diag. cbn. split.
    + intros [[= ->]|[? _]]; [done|lia].
    + intros [_ [= ->]]. by left.
  - split.
    + intros [?|[? Hl]]; [congruence|]. split; [lia|].
      by replace (N.to_nat (j - s)) with (S (N.to_nat (j - (s + 1)))) by lia.
    + intros [? Hl]. right. split; [lia|].
      by replace (N.to_nat (j - s)) with (S (N.to_nat (j - (s + 1)))) in Hl by lia.
Qed.

Lemma NoDup_enumerate_from {A} s (l : list A) : NoDup (enumerate_from s l).*1.
Proof.
  revert s. induction l as [|y l IH]; intros s; cbn; [constructor|].
  apply NoDup_cons. split; [|apply IH]. intros ([j x] & Heq & Hj)%list_elem_of_fmap.
  apply elem_of_enumerate_from in Hj as [? _]. cbn in Heq. lia.
Qed.

Lemma snd_enumerate_from {A} s (l : list A) : (enumerate_from s l).*2 = l.
Proof. revert s. induction l as [|y l IH]; intros s; cbn; [done|]. by rewrite IH. Qed.

Lemma length_enumerate_from {A} s (l : list A) : length (enumerate_from s l) = length l.
Proof. revert s. induction l as [|y l IH]; intros s; cbn; [done|]. by rewrite IH. Qed.

(** The indices [start..start + n] of a loop. *)
Definition seqN (start n : N) : list N :=
  (λ i, start + N.of_nat i)%N <$> seq 0 (N.to_nat n).

Lemma elem_of_seqN start n i : i ∈ seqN start n ↔ (start ≤ i ∧ i < start + n)%N.
Proof.
  unfold seqN. rewrite list_elem_of_fmap. split.
  - intros (k & -> & ?%elem_of_seq). lia.
  - intros []. exists (N.to_nat (i - start)). rewrite elem_of_seq. lia.
Qed.

(** [v.insert(index, x)], for an index the caller has bounded. *)
Definition vec_insert {A} (index : N) (x : A) (l : list A) : list A :=
  take (N.to_nat index) l ++ x :: drop (N.to_nat index) l.

(** [v.retain(|y| y != x)] *)
Definition retain_ne {A} `{EqDecision A} (x : A) (l : list A) : list A :=
  filter (λ y, y ≠ x) l.

Lemma vec_insert_perm {A} i (x : A) l : vec_insert i x l ≡ₚ x :: l.
Proof. unfold vec_insert. by rewrite <- Permutation_middle, take_drop. Qed.

Lemma elem_of_vec_insert {A} i (x y : A) l : y ∈ vec_insert i x l ↔ y = x ∨ y ∈ l.
Proof. rewrite vec_insert_perm. apply elem_of_cons. Qed.

Lemma NoDup_fmap_inj {A B} (f : A → B) l x y : NoDup (f <$> l) → x ∈ l → y ∈ l → f x = f y → x = y.
Proof.
  induction l as [|z l IH]; [by intros _ ?%elem_of_nil|]. rewrite fmap_cons.
  intros [Hz Hl]%NoDup_cons [->|Hx]%elem_of_cons [->|Hy]%elem_of_cons Heq; [done| | |by apply IH];
    destruct Hz; [rewrite Heq|rewrite <- Heq]; by apply list_elem_of_fmap_2.
Qed.

Lemma NoDup_vec_insert {A} i (x : A) l : NoDup (vec_insert i x l) ↔ (x ∉ l) ∧ NoDup l.
Proof. rewrite vec_insert_perm. apply NoDup_cons. Qed.

Lemma elem_of_retain_ne {A} `{EqDecision A} (x y : A) l :
  y ∈ retain_ne x l ↔ y ∈ l ∧ y ≠ x.
Proof. unfold retain_ne. rewrite list_elem_of_filter. tauto. Qed.

Lemma NoDup_retain_ne {A} `{EqDecision A} (x : A) l : NoDup l → NoDup (retain_ne x l).
Proof. apply NoDup_filter. Qed.

Lemma filter_all {A} (P : A → Prop) `{!∀ x, Decision (P x)} (l : list A) : (∀ x, x ∈ l → P x) → filter P l = l.
Proof.
  induction l as [|x l IH]; intros Hl; [done|]. rewrite filter_cons_True by (apply Hl; left).
  f_equal. apply IH. intros y Hy. apply Hl. by right.
Qed.

Lemma retain_ne_id {A} `{EqDecision A} (x : A) l : x ∉ l → retain_ne x l = l.
Proof.
  unfold retain_ne. induction l as [|y l IH]; intros Hx; [done|].
  apply not_elem_of_cons in Hx as [??].
  rewrite filter_cons_True by done. by rewrite IH.
Qed.

(** The entries of a [BTreeMap] keyed by [u64], in ascending key order. *)
Definition key_le {V} (x y : N * V) : Prop := (x.1 ≤ y.1)%N.
#[export] Instance key_le_dec {V} : RelDecision (@key_le V).
Proof. intros x y. unfold key_le. apply _. Defined.
#[export] Instance key_le_total {V} : Total (@key_le V).
Proof. intros x y. unfold key_le. lia. Qed.
#[export] Instance key_le_trans {V} : Transitive (@key_le V).
Proof. intros x y z. unfold key_le. lia. Qed.

Definition btree_entries {V} (m : gmap N V) : list (N * V) :=
  merge_sort key_le (map_to_list m).

Lemma btree_entries_perm {V} (m : gmap N V) : btree_entries m ≡ₚ map_to_list m.
Proof. apply merge_sort_Permutation. Qed.

Lemma elem_of_btree_entries {V} (m : gmap N V) k v :
  (k, v) ∈ btree_entries m ↔ m !! k = Some v.
Proof. rewrite btree_entries_perm. apply elem_of_map_to_list. Qed.

Lemma NoDup_fst_btree_entries {V} (m : gmap N V) : NoDup (btree_entries m).*1.
Proof. rewrite btree_entries_perm. apply NoDup_fst_map_to_list. Qed.

Lemma btree_entries_sorted {V} (m : gmap N V) : StronglySorted key_le (btree_entries m).
Proof. apply StronglySorted_merge_sort; apply _. Qed.

Lemma elem_of_fst {A B} (l : list (A * B)) a b : (a, b) ∈ l → a ∈ l.*1.
Proof. intros H. by apply (list_elem_of_fmap_2 fst) in H. Qed.

Lemma elem_of_fst_inv {A B} (l : list (A * B)) a : a ∈ l.*1 → ∃ b, (a, b) ∈ l.
Proof. intros ([a' b] & -> & H)%list_elem_of_fmap. by exists b. Qed.

(** [map.len()] *)
Definition map_len {K V} `{Countable K} (m : gmap K V) : N := N.of_nat (size m).

(** [self.map.split_off(&from)]: what stays below [from], what moves out. *)
Definition split_below {V} (from : N) (m : gmap N V) : gmap N V :=
  filter (λ kv, (kv.1 < from)%N) m.
Definition split_from {V} (from : N) (m : gmap N V) : gmap N V :=
  filter (λ kv, (from ≤ kv.1)%N) m.

Lemma split_size {V} (from : N) (m : gmap N V) :
  size (split_below from m) + size (split_from from m) = size m.
Proof.
  unfold split_below, split_from. induction m as [|k v m Hk IH] using map_ind.
  { by rewrite !map_filter_empty. }
  destruct (decide (k < from)%N).
  - rewrite map_filter_insert_True, map_filter_insert_not by (cbn; done || lia).
    rewrite !map_size_insert_None; [lia|done|].
    apply map_lookup_filter_None. by left.
  - rewrite map_filter_insert_not, map_filter_insert_True by (cbn; done || lia).
    rewrite !map_size_insert_None; [lia|done|].
    apply map_lookup_filter_None. by left.
Qed.

(** [l] with the window [i..r] replaced by [k]. *)
Definition splice {A} (i r : nat) (k l : list A) : list A := take i l ++ k ++ drop r l.

Lemma lookup_splice {A} i r (k l : list A) j : i ≤ length l →
  splice i r k l !! j =
    if decide (j < i) then l !! j
    else if decide (j < i + length k) then k !! (j - i)
    else l !! (r + (j - i - length k)).
Proof.
  intros Hi. unfold splice. case_decide.
  - rewrite lookup_app_l by (rewrite length_take; lia). by apply lookup_take_lt.
  - rewrite lookup_app_r by (rewrite length_take; lia). rewrite length_take_le by done.
    case_decide.
    + apply lookup_app_l. lia.
    + rewrite lookup_app_r by lia. by rewrite lookup_drop.
Qed.

Lemma length_splice {A} i r (k l : list A) : i ≤ r ≤ length l →
  length (splice i r k l) + (r - i) = length l + length k.
Proof. intros. unfold splice. rewrite !length_app, length_take, length_drop. lia. Qed.

Lemma NoDup_splice_insert {A} i (k l : list A) :
  NoDup k → NoDup l → (∀ x, x ∈ k → x ∉ l) → NoDup (splice i i k l).
Proof.
  intros Hk Hl Hd. unfold splice.
  rewrite Permutation_app_swap_app, take_drop. apply NoDup_app. auto.
Qed.

Lemma NoDup_splice_delete {A} i r (l : list A) : i ≤ r → NoDup l → NoDup (splice i r [] l).
Proof.
  intros Hir Hl. unfold splice. cbn. rewrite <- (take_drop i l) in Hl.
  replace r with (i + (r - i)) by lia. rewrite <- drop_drop.
  apply NoDup_app in Hl as (? & Hd & Hnd). apply NoDup_app. split_and!; [done| |].
  - intros x Hx Hx'. apply (Hd x Hx). rewrite <- (take_drop (r - i) (drop i l)).
    apply elem_of_app. by right.
  - rewrite <- (take_drop (r - i) (drop i l)) in Hnd. by apply NoDup_app in Hnd as (_ & _ & ?).
Qed.

(** ** Sums over maps *)

Lemma map_len_alter {K A} `{Countable K} (f : A → A) (k : K) (m : gmap K A) : map_len (alter f k m) = map_len m.
Proof.
  unfold map_len. destruct (m !! k) as [x|] eqn:Hk; [|by rewrite alter_id by (intros; congruence)].
  by rewrite (alter_alt_Some _ _ _ x Hk), map_size_insert, Hk.
Qed.

Lemma map_len_delete_Some {K A} `{Countable K} (k : K) (m : gmap K A) : is_Some (m !! k) →
  map_len (delete k m) = (map_len m - 1)%N.
Proof. intros [x Hk]. unfold map_len. rewrite map_size_delete, Hk. cbn. lia. Qed.

(** What a count or a byte total kept beside a map should be. *)
Definition map_sum {K A} `{Countable K} (f : A → N) (m : gmap K A) : N :=
  map_fold (λ _ x n, n + f x)%N 0%N m.

Section map_sum.
Context {K A} `{Countable K} (f : A → N).
Implicit Types m : gmap K A.

Lemma map_sum_empty : map_sum f (∅ : gmap K A) = 0%N.
Proof using Type. apply map_fold_empty. Qed.

Lemma map_sum_insert k x m : m !! k = None → map_sum f (<[k := x]> m) = (map_sum f m + f x)%N.
Proof using Type. intros Hk. unfold map_sum. rewrite map_fold_insert_L; [done|lia|done]. Qed.

Lemma map_sum_delete k x m : m !! k = Some x → map_sum f m = (map_sum f (delete k m) + f x)%N.
Proof using Type.
  intros Hk. rewrite <- (map_sum_insert k) by apply lookup_delete_eq. by rewrite insert_delete_id.
Qed.

Lemma map_sum_replace k x y m : m !! k = Some x →
  (map_sum f (<[k := y]> m) + f x = map_sum f m + f y)%N.
Proof using Type.
  intros Hk. rewrite (map_sum_delete k x m Hk), <- insert_delete_eq, map_sum_insert by apply lookup_delete_eq.
  lia.
Qed.
End map_sum.
