(* ===== verification/Values.v ===== *)
(** * Identifiers and dynamic values

    Models [server-rust/semantic-tree/src/ids] and [src/value]: the newtype
    identifiers of the semantic graph, namespace-qualified references, and the
    seventeen-variant dynamic [Value] with its accessors and the collection of
    the resource hashes it mentions.  An [f64] is its 64-bit pattern: the code
    stores and forwards floats and never computes with them here. *)

From S2P Require Import Prelude.

(** ** Identifiers *)

(** [pub struct NodeId(pub u64)] and its siblings. *)
Record NodeId := mkNodeId { NodeId_get : N }.
Record ItemId := mkItemId { ItemId_get : N }.
Record ModelId := mkModelId { ModelId_get : N }.

(** [pub struct ResourceHash(pub [u8; 32])]: the digest bytes, as integers. *)
Record ResourceHash := mkResourceHash { hash_bytes : list N }.

#[export] Instance NodeId_eq_dec : EqDecision NodeId.
Proof. solve_decision. Defined.
#[export] Instance NodeId_countable : Countable NodeId.
Proof. by apply (inj_countable' NodeId_get mkNodeId); intros []. Defined.
#[export] Instance ItemId_eq_dec : EqDecision ItemId.
Proof. solve_decision. Defined.
#[export] Instance ItemId_countable : Countable ItemId.
Proof. by apply (inj_countable' ItemId_get mkItemId); intros []. Defined.
#[export] Instance ModelId_eq_dec : EqDecision ModelId.
Proof. solve_decision. Defined.
#[export] Instance ModelId_countable : Countable ModelId.
Proof. by apply (inj_countable' ModelId_get mkModelId); intros []. Defined.
#[export] Instance ResourceHash_eq_dec : EqDecision ResourceHash.
Proof. solve_decision. Defined.
#[export] Instance ResourceHash_countable : Countable ResourceHash.
Proof. by apply (inj_countable' hash_bytes mkResourceHash); intros []. Defined.

(** [impl fmt::Display for NodeId] *)
Definition NodeId_display (id : NodeId) : string :=
  "NodeId(" +:+ pretty (NodeId_get id) +:+ ")".

Record PropertyRef := mkPropertyRef { prop_namespace_id : N; prop_local_id : N }.
Record TypeRef := mkTypeRef { type_namespace_id : N; type_local_id : N }.

#[export] Instance PropertyRef_eq_dec : EqDecision PropertyRef.
Proof. solve_decision. Defined.
#[export] Instance PropertyRef_countable : Countable PropertyRef.
Proof.
  by apply (inj_countable'
    (λ p, (prop_namespace_id p, prop_local_id p)) (λ '(n, l), mkPropertyRef n l));
    intros [].
Defined.
#[export] Instance TypeRef_eq_dec : EqDecision TypeRef.
Proof. solve_decision. Defined.

(** [PropertyRef::standard] and [TypeRef::standard]: namespace 0. *)
Definition PropertyRef_standard (local_id : N) : PropertyRef := mkPropertyRef 0 local_id.
Definition TypeRef_standard (local_id : N) : TypeRef := mkTypeRef 0 local_id.
Definition PropertyRef_is_standard (p : PropertyRef) : bool := (prop_namespace_id p =? 0)%N.

(** The constants the build generates from [protocol/registry.yaml]; the store
    relies on one of them only. *)
Class Registry := { MODEL_REF : PropertyRef }.

(** The registry of this revision of the repository: property 17 is [model_ref]. *)
Definition standard_registry : Registry := {| MODEL_REF := PropertyRef_standard 17 |}.

(** ** Values *)

Record f64 := mkF64 { f64_bits : N }.
Record EnumToken := mkEnumToken { enum_id : N; value_id : N }.
Record Size := mkSize { size_width : f64; size_height : f64 }.
Record Point := mkPoint { point_x : f64; point_y : f64 }.
Record Range := mkRange { range_start : N; range_length : N }.
Record Rect := mkRect { rect_x : f64; rect_y : f64; rect_width : f64; rect_height : f64 }.
Record EdgeInsets :=
  mkEdgeInsets { top : f64; leading : f64; bottom : f64; trailing : f64 }.

#[export] Instance Range_eq_dec : EqDecision Range.
Proof. solve_decision. Defined.

Inductive Value : Type :=
| VNull
| VBool (b : bool)
| VSignedInt (i : Z)
| VUnsignedInt (u : N)
| VFloat64 (f : f64)
| VString (s : string)
| VNodeId (id : NodeId)
| VItemId (id : ItemId)
| VResourceHash (h : ResourceHash)
| VEnumToken (e : EnumToken)
| VSize (s : Size)
| VPoint (p : Point)
| VRange (r : Range)
| VRect (r : Rect)
| VEdgeInsets (i : EdgeInsets)
| VList (items : list Value)
| VRecord (rec : SmallRecord)
with SmallRecord : Type :=
| mkSmallRecord (type_ref : TypeRef) (properties : list Property)
with Property : Type :=
| mkProperty (property : PropertyRef) (value : Value).

Definition record_type (r : SmallRecord) : TypeRef :=
  match r with mkSmallRecord t _ => t end.
Definition record_properties (r : SmallRecord) : list Property :=
  match r with mkSmallRecord _ ps => ps end.
Definition property_ref (p : Property) : PropertyRef :=
  match p with mkProperty r _ => r end.
Definition property_value (p : Property) : Value :=
  match p with mkProperty _ v => v end.

(** [Value::is_scalar] *)
Definition is_scalar (v : Value) : bool :=
  match v with VList _ | VRecord _ => false | _ => true end.

(** Induction with hypotheses for the elements of lists and records. *)
Lemma Value_nested_ind (P : Value → Prop)
    (Hlist : ∀ items, Forall P items → P (VList items))
    (Hrec : ∀ t ps, Forall (λ p, P (property_value p)) ps →
      P (VRecord (mkSmallRecord t ps)))
    (Hleaf : ∀ v, is_scalar v = true → P v) v : P v.
Proof.
  revert v. fix IH 1. intros [| | | | | | | | | | | | | | |items|[t ps]];
    try (apply Hleaf; reflexivity).
  - apply Hlist. induction items as [|x items IHi]; constructor; [apply IH|exact IHi].
  - apply Hrec. induction ps as [|[r x] ps IHp]; constructor; [apply IH|exact IHp].
Qed.

(** [Value::is_null] *)
Definition is_null (v : Value) : bool :=
  match v with VNull => true | _ => false end.

Definition as_bool (v : Value) : option bool :=
  match v with VBool b => Some b | _ => None end.
Definition as_signed_int (v : Value) : option Z :=
  match v with VSignedInt i => Some i | _ => None end.
Definition as_unsigned_int (v : Value) : option N :=
  match v with VUnsignedInt u => Some u | _ => None end.
Definition as_string (v : Value) : option string :=
  match v with VString s => Some s | _ => None end.
Definition as_node_id (v : Value) : option NodeId :=
  match v with VNodeId i => Some i | _ => None end.
Definition as_item_id (v : Value) : option ItemId :=
  match v with VItemId i => Some i | _ => None end.
Definition as_resource_hash (v : Value) : option ResourceHash :=
  match v with VResourceHash h => Some h | _ => None end.
Definition as_list (v : Value) : option (list Value) :=
  match v with VList l => Some l | _ => None end.
Definition as_record (v : Value) : option SmallRecord :=
  match v with VRecord r => Some r | _ => None end.

(** [Value::collect_resource_hashes]: adds to [out] every hash inside [v]. *)
Fixpoint collect_resource_hashes (v : Value) (out : gset ResourceHash) : gset ResourceHash :=
  match v with
  | VResourceHash h => {[h]} ∪ out
  | VList items => foldl (λ out x, collect_resource_hashes x out) out items
  | VRecord (mkSmallRecord _ ps) =>
      foldl (λ out '(mkProperty _ x), collect_resource_hashes x out) out ps
  | _ => out
  end.

(** Specification: [h] occurs somewhere inside [v]. *)
Inductive mentions (h : ResourceHash) : Value → Prop :=
| mentions_here : mentions h (VResourceHash h)
| mentions_list items v : v ∈ items → mentions h v → mentions h (VList items)
| mentions_record t ps r v :
    mkProperty r v ∈ ps → mentions h v → mentions h (VRecord (mkSmallRecord t ps)).

Lemma collect_resource_hashes_elem h v out :
  h ∈ collect_resource_hashes v out ↔ h ∈ out ∨ mentions h v.
Proof.
  revert out. induction v as [items IH|t ps IH|v Hv] using Value_nested_ind; intros out.
  - cbn. transitivity (h ∈ out ∨ ∃ v, v ∈ items ∧ mentions h v).
    + revert out. induction IH as [|v l Hv _ IHl]; intros out; cbn; [set_solver|].
      rewrite IHl, Hv. set_solver.
    + split; [|intros [?|Hm]; [by left|]; inversion Hm; eauto].
      intros [?|(v & ? & ?)]; [by left|right; by econstructor].
  - cbn. transitivity (h ∈ out ∨ ∃ p, p ∈ ps ∧ mentions h (property_value p)).
    + revert out. induction IH as [|[r v] l Hv _ IHl]; intros out; cbn; [set_solver|].
      rewrite IHl, Hv. set_solver.
    + split; [|intros [?|Hm]; [by left|]; inversion Hm; right; by eexists (mkProperty _ _)].
      intros [?|([r v] & ? & ?)]; [by left|right; by econstructor].
  - destruct v; try done; cbn;
      try (split; [by left|intros [?|Hm]; [done|by inversion Hm]]).
    rewrite elem_of_union, elem_of_singleton. split.
    + intros [->|?]; [right; constructor|by left].
    + intros [?|Hm]; [by right|inversion Hm; by left].
Qed.

(** ** Equality of values

    The [PartialEq] that [Value] and the types in it derive: structural, and on
    floats the comparison of IEEE 754, for which NaN is not equal to itself and the
    two zeros are. *)

Definition f64_is_nan (f : f64) : bool :=
  let magnitude := (f64_bits f mod 2 ^ 63)%N in (2047 * 2 ^ 52 <? magnitude)%N.
Definition f64_is_zero (f : f64) : bool := (f64_bits f mod 2 ^ 63 =? 0)%N.
Definition f64_eqb (a b : f64) : bool :=
  negb (f64_is_nan a) && negb (f64_is_nan b) &&
  ((f64_bits a =? f64_bits b)%N || f64_is_zero a && f64_is_zero b).

Fixpoint value_eqb (a b : Value) {struct a} : bool :=
  match a, b with
  | VNull, VNull => true
  | VBool x, VBool y => Bool.eqb x y
  | VSignedInt x, VSignedInt y => (x =? y)%Z
  | VUnsignedInt x, VUnsignedInt y => (x =? y)%N
  | VFloat64 x, VFloat64 y => f64_eqb x y
  | VString x, VString y => String.eqb x y
  | VNodeId x, VNodeId y => bool_decide (x = y)
  | VItemId x, VItemId y => bool_decide (x = y)
  | VResourceHash x, VResourceHash y => bool_decide (x = y)
  | VEnumToken x, VEnumToken y => (enum_id x =? enum_id y)%N && (value_id x =? value_id y)%N
  | VSize x, VSize y => f64_eqb (size_width x) (size_width y) && f64_eqb (size_height x) (size_height y)
  | VPoint x, VPoint y => f64_eqb (point_x x) (point_x y) && f64_eqb (point_y x) (point_y y)
  | VRange x, VRange y => bool_decide (x = y)
  | VRect x, VRect y =>
      f64_eqb (rect_x x) (rect_x y) && f64_eqb (rect_y x) (rect_y y) &&
      f64_eqb (rect_width x) (rect_width y) && f64_eqb (rect_height x) (rect_height y)
  | VEdgeInsets x, VEdgeInsets y =>
      f64_eqb (top x) (top y) && f64_eqb (leading x) (leading y) &&
      f64_eqb (bottom x) (bottom y) && f64_eqb (trailing x) (trailing y)
  | VList xs, VList ys =>
      (fix go (xs ys : list Value) {struct xs} : bool :=
         match xs, ys with
         | [], [] => true
         | x :: xs, y :: ys => value_eqb x y && go xs ys
         | _, _ => false
         end) xs ys
  | VRecord (mkSmallRecord t ps), VRecord (mkSmallRecord t' ps') =>
      bool_decide (t = t') &&
      (fix go (ps ps' : list Property) {struct ps} : bool :=
         match ps, ps' with
         | [], [] => true
         | mkProperty p x :: ps, mkProperty p' x' :: ps' => bool_decide (p = p') && value_eqb x x' && go ps ps'
         | _, _ => false
         end) ps ps'
  | _, _ => false
  end.

(** A value a cell can have: a number or a text. *)
Definition cell_value (v : Value) : Prop := match v with VUnsignedInt _ | VString _ => True | _ => False end.
Definition cell_list (v : Value) : Prop := match v with VList vs => Forall cell_value vs | _ => False end.

Lemma value_eqb_cell a b : cell_value a → cell_value b → value_eqb a b = true ↔ a = b.
Proof.
  destruct a, b; cbn; try done; intros _ _; [rewrite N.eqb_eq|rewrite String.eqb_eq]; naive_solver.
Qed.

Lemma value_eqb_cells a b : cell_list a → cell_list b → value_eqb a b = true ↔ a = b.
Proof.
  destruct a as [| | | | | | | | | | | | | | |xs|], b as [| | | | | | | | | | | | | | |ys|]; try done. cbn [cell_list].
  intros Hx. revert ys. induction Hx as [|x xs Hx Hxs IH]; intros ys Hy; destruct ys as [|y ys]; try done.
  apply Forall_cons in Hy as [Hy Hys]. specialize (IH ys Hys). cbn [value_eqb] in IH |- *.
  rewrite andb_true_iff, IH, value_eqb_cell by done. naive_solver.
Qed.
