(* ===== verification/Limits.v ===== *)
(** * Store errors and safety limits

    Models [semantic-tree/src/store/error.rs] and [store/limits.rs]: the error
    type of the mutation operations, the ten configurable limits, and the
    validation of values against string, depth, list and record bounds. *)

From S2P Require Import Prelude.
From S2P Require Import Values.

(** [pub enum StoreError] *)
Inductive StoreError : Type :=
| NodeIdAlreadyUsed (id : NodeId)
| NodeNotFound (id : NodeId)
| ParentNotFound (id : NodeId)
| InvalidChildrenReorder (parent_id : NodeId) (reason : string)
| CycleDetected (id : NodeId) (target_parent : NodeId)
| MaxTreeDepthExceeded (limit actual : N)
| MaxNodeCountExceeded (limit current : N)
| MaxStringLengthExceeded (limit actual : N)
| MaxValueDepthExceeded (limit actual : N)
| MaxListLengthExceeded (limit actual : N)
| MaxRecordPropertiesExceeded (limit actual : N)
| MaxModelCountExceeded (limit current : N)
| MaxCachedItemsPerModelExceeded (limit current attempted : N)
| MaxItemsPerModelOperationExceeded (limit actual : N)
| InvalidModelDelete (reason : string)
| ChildIndexOutOfBounds (index count : N)
| ModelIdAlreadyUsed (id : ModelId)
| ModelNotFound (id : ModelId)
| ItemNotFound (id : ItemId)
| ModelIndexOutOfBounds (index count : N)
| DuplicateItemId (mid : ModelId) (iid : ItemId)
| OperationError (msg : string).

(** [StoreError::conformance_code] *)
Definition conformance_code (e : StoreError) : string :=
  match e with
  | NodeIdAlreadyUsed _ => "node_id_already_used"
  | NodeNotFound _ => "node_not_found"
  | ParentNotFound _ => "parent_not_found"
  | InvalidChildrenReorder _ _ => "invalid_children_reorder"
  | CycleDetected _ _ => "cycle_detected"
  | MaxTreeDepthExceeded _ _ => "max_tree_depth_exceeded"
  | MaxNodeCountExceeded _ _ => "max_node_count_exceeded"
  | MaxStringLengthExceeded _ _ => "max_string_length_exceeded"
  | MaxValueDepthExceeded _ _ => "max_value_depth_exceeded"
  | MaxListLengthExceeded _ _ => "max_list_length_exceeded"
  | MaxRecordPropertiesExceeded _ _ => "max_record_properties_exceeded"
  | MaxModelCountExceeded _ _ => "max_model_count_exceeded"
  | MaxCachedItemsPerModelExceeded _ _ _ => "max_cached_items_per_model_exceeded"
  | MaxItemsPerModelOperationExceeded _ _ => "max_items_per_model_operation_exceeded"
  | InvalidModelDelete _ => "invalid_model_delete"
  | ChildIndexOutOfBounds _ _ => "child_index_out_of_bounds"
  | ModelIdAlreadyUsed _ => "model_id_already_used"
  | ModelNotFound _ => "model_not_found"
  | ItemNotFound _ => "item_not_found"
  | ModelIndexOutOfBounds _ _ => "model_index_out_of_bounds"
  | DuplicateItemId _ _ => "duplicate_item_id"
  | OperationError _ => "operation_error"
  end.

(** [pub struct StoreLimits] *)
Record StoreLimits := mkStoreLimits {
  max_tree_depth : N;
  max_node_count : N;
  max_string_length : N;
  max_value_depth : N;
  max_list_elements : N;
  max_record_properties : N;
  max_transaction_operations : N;
  max_model_count : N;
  max_cached_items_per_model : N;
  max_items_per_model_operation : N;
}.

Definition DEFAULT_MAX_TRANSACTION_OPERATIONS : N := 10000.
Definition DEFAULT_MAX_MODEL_COUNT : N := 1000.
Definition DEFAULT_MAX_CACHED_ITEMS_PER_MODEL : N := 100000.
Definition DEFAULT_MAX_ITEMS_PER_MODEL_OPERATION : N := 10000.

(** [impl Default for StoreLimits] *)
Definition StoreLimits_default : StoreLimits := {|
  max_tree_depth := 64;
  max_node_count := 100000;
  max_string_length := 1024 * 1024;
  max_value_depth := 16;
  max_list_elements := 10000;
  max_record_properties := 1000;
  max_transaction_operations := DEFAULT_MAX_TRANSACTION_OPERATIONS;
  max_model_count := DEFAULT_MAX_MODEL_COUNT;
  max_cached_items_per_model := DEFAULT_MAX_CACHED_ITEMS_PER_MODEL;
  max_items_per_model_operation := DEFAULT_MAX_ITEMS_PER_MODEL_OPERATION;
|}.

(** [StoreLimits::validate_model_items_batch] *)
Definition validate_model_items_batch (l : StoreLimits) (count : N) : result StoreError unit :=
  err_if (max_items_per_model_operation l <? count)%N
    (MaxItemsPerModelOperationExceeded (max_items_per_model_operation l) count).

(** [StoreLimits::validate_value_inner]; [s.len()] counts bytes. *)
Fixpoint validate_value_inner (l : StoreLimits) (val : Value) (depth : N) : result StoreError unit :=
  err_if (max_value_depth l <? depth)%N (MaxValueDepthExceeded (max_value_depth l) depth) ≫= λ _,
  match val with
  | VString s =>
      err_if (max_string_length l <? N.of_nat (String.length s))%N
        (MaxStringLengthExceeded (max_string_length l) (N.of_nat (String.length s)))
  | VList items =>
      err_if (max_list_elements l <? len items)%N
        (MaxListLengthExceeded (max_list_elements l) (len items)) ≫= λ _,
      for_each (λ item, validate_value_inner l item (depth + 1)) items
  | VRecord (mkSmallRecord _ properties) =>
      err_if (max_record_properties l <? len properties)%N
        (MaxRecordPropertiesExceeded (max_record_properties l) (len properties)) ≫= λ _,
      for_each (λ '(mkProperty _ v), validate_value_inner l v (depth + 1)) properties
  | _ => Ok tt
  end.

(** [StoreLimits::validate_value] *)
Definition validate_value (l : StoreLimits) (val : Value) : result StoreError unit :=
  validate_value_inner l val 1.

(** ** What validation promises

    [within_limits l d v]: at nesting level [d], every string, list and record
    of [v] is inside its bound and no node of [v] lies below the depth bound. *)
Inductive within_limits (l : StoreLimits) : N → Value → Prop :=
| within_leaf d v : (d ≤ max_value_depth l)%N →
    match v with VString _ | VList _ | VRecord _ => False | _ => True end →
    within_limits l d v
| within_string d s : (d ≤ max_value_depth l)%N →
    (N.of_nat (String.length s) ≤ max_string_length l)%N →
    within_limits l d (VString s)
| within_list d items : (d ≤ max_value_depth l)%N →
    (len items ≤ max_list_elements l)%N →
    (∀ v, v ∈ items → within_limits l (d + 1) v) →
    within_limits l d (VList items)
| within_record d t ps : (d ≤ max_value_depth l)%N →
    (len ps ≤ max_record_properties l)%N →
    (∀ r v, mkProperty r v ∈ ps → within_limits l (d + 1) v) →
    within_limits l d (VRecord (mkSmallRecord t ps)).

(** Number of nested constructors of a value, a leaf counting one. *)
Fixpoint nesting (v : Value) : nat :=
  match v with
  | VList items => S (max_list (map nesting items))
  | VRecord (mkSmallRecord _ ps) => S (max_list (map (λ '(mkProperty _ v), nesting v) ps))
  | _ => 1
  end.

Lemma within_limits_unfold l d v :
  within_limits l d v ↔ (d ≤ max_value_depth l)%N ∧
  match v with
  | VString s => (N.of_nat (String.length s) ≤ max_string_length l)%N
  | VList items => (len items ≤ max_list_elements l)%N ∧
      ∀ v, v ∈ items → within_limits l (d + 1) v
  | VRecord (mkSmallRecord _ ps) => (len ps ≤ max_record_properties l)%N ∧
      ∀ p, p ∈ ps → within_limits l (d + 1) (property_value p)
  | _ => True
  end.
Proof.
  split.
  - destruct 1 as [d v ? Hv|d s|d items ? ? Hi|d t ps ? ? Hp]; (split; [done|]); [by destruct v|done..|].
    split; [done|]. intros [r v] Hin. exact (Hp r v Hin).
  - destruct v as [| | | | | | | | | | | | | | |items|[t ps]]; intros [Hd Hv]; try by constructor.
    + destruct Hv. by apply within_list.
    + destruct Hv as [? Hp]. apply within_record; [done..|]. intros r v Hin. exact (Hp _ Hin).
Qed.

Lemma err_if_ltb_Ok {E} a b (e : E) u : err_if (a <? b)%N e = Ok u ↔ (b ≤ a)%N.
Proof. by rewrite err_if_Ok, N.ltb_ge. Qed.

Lemma guard_Ok {E A} a b (e : E) (k : unit → result E A) r :
  (err_if (a <? b)%N e ≫= k) = Ok r ↔ (b ≤ a)%N ∧ k tt = Ok r.
Proof.
  rewrite bind_Ok. setoid_rewrite err_if_ltb_Ok. split.
  - by intros ([] & ? & ?).
  - intros [??]. by exists tt.
Qed.

Lemma validate_value_inner_Ok l v d u :
  validate_value_inner l v d = Ok u ↔ within_limits l d v.
Proof.
  destruct u. revert d.
  induction v as [items IH|t ps IH|v Hv] using Value_nested_ind; intros d;
    rewrite within_limits_unfold.
  - cbn [validate_value_inner]. rewrite !guard_Ok, for_each_Ok, Forall_forall.
    rewrite Forall_forall in IH. split; intros (? & ? & Hall); repeat split; try done;
      intros v Hv; by apply IH, Hall.
  - cbn [validate_value_inner]. rewrite !guard_Ok, for_each_Ok, Forall_forall.
    rewrite Forall_forall in IH. split; intros (? & ? & Hall); repeat split; try done.
    + intros [r v] Hv. apply (IH _ Hv), (Hall _ Hv).
    + intros [r v] Hv. apply (IH _ Hv), (Hall _ Hv).
  - destruct v; try done; cbn [validate_value_inner]; rewrite guard_Ok;
      try (split; intros []; done).
    by rewrite err_if_ltb_Ok.
Qed.

Lemma validate_value_Ok l v u : validate_value l v = Ok u ↔ within_limits l 1 v.
Proof. apply validate_value_inner_Ok. Qed.

Lemma max_list_bound (ns : list nat) k : (∀ n, n ∈ ns → n ≤ k) → max_list ns ≤ k.
Proof.
  induction ns as [|n ns IH]; cbn; intros Hn; [lia|].
  apply Nat.max_lub; [|apply IH]; intros; apply Hn; by constructor.
Qed.

(** The recursion of [validate_value_inner] is bounded by the limit: an accepted
    value is nested at most [max_value_depth] deep. *)
Lemma within_limits_nesting l d v :
  within_limits l d v → (d + N.of_nat (nesting v) ≤ max_value_depth l + 1)%N.
Proof.
  revert d. induction v as [items IH|t ps IH|v Hv] using Value_nested_ind; intros d.
  - intros (? & ? & Hall)%within_limits_unfold. rewrite Forall_forall in IH. cbn.
    enough (max_list (map nesting items) ≤ N.to_nat (max_value_depth l - d)) by lia.
    apply max_list_bound. intros n (v & -> & Hv)%list_elem_of_fmap.
    pose proof (IH v Hv _ (Hall v Hv)). lia.
  - intros (? & ? & Hall)%within_limits_unfold. rewrite Forall_forall in IH. cbn.
    enough (max_list (map (λ '(mkProperty _ v), nesting v) ps) ≤ N.to_nat (max_value_depth l - d)) by lia.
    apply max_list_bound. intros n ([r v] & -> & Hv)%list_elem_of_fmap.
    pose proof (IH _ Hv _ (Hall _ Hv)). cbn in *. lia.
  - intros [? _]%within_limits_unfold. destruct v; try done; cbn; lia.
Qed.
