(* ===== verification/Models.v ===== *)
(** * Collection models

    Models [semantic-tree/src/model.rs]: the sparse cache of a virtualised
    collection.  [items] is the [BTreeMap] from position to item, [id_to_index]
    the reverse index, [item_count] the length of the remote collection. *)

From S2P Require Import Prelude.
From S2P Require Import Values.
From S2P Require Import Limits.

(** [pub struct ModelItem] *)
Record ModelItem := mkModelItem {
  item_id : ItemId;
  item_value : Value;
  item_properties : gmap PropertyRef Value;
}.

(** [pub struct Model] *)
Record Model := mkModel {
  model_id : ModelId;
  model_type : TypeRef;
  item_count : N;
  items : gmap N ModelItem;
  id_to_index : gmap ItemId N;
}.

Definition with_cache (m : Model) (its : gmap N ModelItem) (idx : gmap ItemId N) : Model :=
  mkModel (model_id m) (model_type m) (item_count m) its idx.

(** [Model::set_item_count] *)
Definition set_item_count (m : Model) (count : N) : Model :=
  mkModel (model_id m) (model_type m) count (items m) (id_to_index m).

(** [Model::new] *)
Definition Model_new (id : ModelId) (t : TypeRef) (count : N) : Model :=
  mkModel id t count ∅ ∅.

(** [Model::cached_item_count], [contains_item], [index_of], [get_item_by_id] *)
Definition cached_item_count (m : Model) : N := map_len (items m).
Definition contains_item (m : Model) (id : ItemId) : bool := bool_decide (is_Some (id_to_index m !! id)).
Definition index_of (m : Model) (id : ItemId) : option N := id_to_index m !! id.
Definition get_item_by_id (m : Model) (id : ItemId) : option ModelItem :=
  id_to_index m !! id ≫= λ idx, items m !! idx.
Definition get_item_by_index (m : Model) (idx : N) : option ModelItem := items m !! idx.

(** [a.abs_diff(b)] *)
Definition abs_diff (a b : N) : N := if (a <? b)%N then (b - a)%N else (a - b)%N.

(** The comparison closure of [Model::evict_farthest_outside]: farther from
    [mid] first, the lower index first at equal distance. *)
Definition farther_first (mid a b : N) : Prop :=
  (abs_diff b mid < abs_diff a mid)%N ∨ (abs_diff a mid = abs_diff b mid ∧ (a ≤ b)%N).
#[export] Instance farther_first_dec mid : RelDecision (farther_first mid).
Proof. intros a b. unfold farther_first. apply _. Defined.

(** The indices [evict_farthest_outside] considers, in its order. *)
Definition eviction_candidates (m : Model) (keep_start keep_end : N) : list N :=
  let keep_end := N.max keep_end keep_start in
  let mid := saturating_add64 keep_start ((keep_end - keep_start) / 2) in
  merge_sort (farther_first mid)
    (filter (λ index, (index < keep_start)%N ∨ (keep_end ≤ index)%N) (btree_entries (items m)).*1).

(** One removal of a cached slot with its reverse entry:
    [if let Some(item) = items.remove(&i) { id_to_index.remove(&item.item_id) }]. *)
Definition remove_slot (m : Model) (index : N) : Model :=
  match items m !! index with
  | Some item => with_cache m (delete index (items m)) (delete (item_id item) (id_to_index m))
  | None => m
  end.

(** [Model::evict_farthest_outside] *)
Definition evict_farthest_outside (m : Model) (keep_start keep_end count : N) : Model :=
  if (count =? 0)%N then m
  else foldl remove_slot m (take (N.to_nat count) (eviction_candidates m keep_start keep_end)).

(** [Model::cached_ranges]: one pass over the keys in ascending order. *)
Definition cached_ranges_step (st : list Range * option Range) (idx : N) : list Range * option Range :=
  match st with
  | (ranges, Some r) =>
      if (add64 (range_start r) (range_length r) =? idx)%N
      then (ranges, Some (mkRange (range_start r) (add64 (range_length r) 1)))
      else (ranges ++ [r], Some (mkRange idx 1))
  | (ranges, None) => (ranges, Some (mkRange idx 1))
  end.
Definition cached_ranges (m : Model) : list Range :=
  match foldl cached_ranges_step ([], None) (btree_entries (items m)).*1 with
  | (ranges, Some r) => ranges ++ [r]
  | (ranges, None) => ranges
  end.

(** [n as i64] and [z as u64] *)
Definition as_i64 (n : N) : Z :=
  if (n <? 2 ^ 63)%N then Z.of_N n else (Z.of_N n - 2 ^ 64)%Z.
Definition as_u64 (z : Z) : N := Z.to_N (z mod 2 ^ 64).
(** [-z] on [i64], wrapping. *)
Definition neg_i64 (z : Z) : Z := as_i64 (as_u64 (- z)).

(** The index [shift_cached_indices] moves [old_idx] to. *)
Definition shifted_index (delta : Z) (old_idx : N) : N :=
  if (0 <? delta)%Z then add64 old_idx (as_u64 delta)
  else sub64 old_idx (as_u64 (neg_i64 delta)).

(** [Model::shift_cached_indices] *)
Definition shift_cached_indices (m : Model) (from_index : N) (delta : Z) : Model :=
  if (delta =? 0)%Z then m
  else
    foldl (λ m '(old_idx, item),
             let new_idx := shifted_index delta old_idx in
             with_cache m (<[new_idx := item]> (items m))
                          (<[item_id item := new_idx]> (id_to_index m)))
      (with_cache m (split_below from_index (items m)) (id_to_index m))
      (btree_entries (split_from from_index (items m))).

(** The write of item [i] of a batch at [start + i]. *)
Definition put_items (m : Model) (start : N) (batch : list ModelItem) : Model :=
  foldl (λ m '(i, item),
           let idx := add64 start i in
           with_cache m (<[idx := item]> (items m)) (<[item_id item := idx]> (id_to_index m)))
    m (enumerate batch).

(** The validation loop of [insert_items]: no id is cached or repeated. *)
Fixpoint insert_ids_fresh (m : Model) (incoming : gset ItemId) (batch : list ModelItem)
    : result StoreError unit :=
  match batch with
  | [] => Ok tt
  | item :: batch =>
      if contains_item m (item_id item) || bool_decide (item_id item ∈ incoming)
      then Err (DuplicateItemId (model_id m) (item_id item))
      else insert_ids_fresh m ({[item_id item]} ∪ incoming) batch
  end.

(** [Model::insert_items] *)
Definition insert_items (m : Model) (index : N) (batch : list ModelItem) : result StoreError Model :=
  err_if (item_count m <? index)%N (ModelIndexOutOfBounds index (item_count m)) ≫= λ _,
  insert_ids_fresh m ∅ batch ≫= λ _,
  let n := len batch in
  if (0 <? n)%N then
    let m1 := shift_cached_indices m index (as_i64 n) in
    let m2 := put_items m1 index batch in
    Ok (set_item_count m2 (add64 (item_count m2) n))
  else Ok m.

(** The body of the [item_ids] loop of [delete_items]. *)
Definition delete_one (m : Model) (id : ItemId) : Model :=
  match id_to_index m !! id with
  | Some idx =>
      let m1 := with_cache m (delete idx (items m)) (delete id (id_to_index m)) in
      let m2 := set_item_count m1 (item_count m1 - 1) in
      shift_cached_indices m2 (add64 idx 1) (-1)
  | None => set_item_count m (item_count m - 1)
  end.

(** The range branch of [delete_items].  [BTreeMap::range] panics on an
    inverted range, which the wrapped sum [idx + cnt] can produce. *)
Definition delete_range (m : Model) (idx cnt : N) : result StoreError Model :=
  err_if ((item_count m <? idx)%N || (item_count m <? saturating_add64 idx cnt)%N)
    (ModelIndexOutOfBounds (saturating_add64 idx cnt) (item_count m)) ≫= λ _,
  let stop := add64 idx cnt in
  if (stop <? idx)%N then Panic
  else
    let keys := filter (λ k, (idx ≤ k)%N ∧ (k < stop)%N) (btree_entries (items m)).*1 in
    let m1 := foldl remove_slot m keys in
    let m2 := shift_cached_indices m1 stop (neg_i64 (as_i64 cnt)) in
    Ok (set_item_count m2 (item_count m2 - cnt)).

(** [Model::delete_items] *)
Definition delete_items (m : Model) (index count : option N) (ids : list ItemId)
    : result StoreError Model :=
  let has_range := match count with Some c => (0 <? c)%N | None => false end in
  let has_ids := bool_decide (ids ≠ []) in
  err_if (has_range && has_ids)
    (InvalidModelDelete "cannot combine item_ids and range deletion in ModelDelete (§8, §13)") ≫= λ _,
  if has_ids then Ok (foldl delete_one m ids)
  else if has_range then delete_range m (default 0%N index) (default 0%N count)
  else Ok m.

(** One iteration of [update_items]; [i] is the position in the batch. *)
Definition update_one (index : option N) (m : Model) (i_item : N * ModelItem)
    : Model * result StoreError unit :=
  let '(i, item) := i_item in
  match index with
  | Some base_idx =>
      let target_idx := add64 base_idx i in
      if (item_count m <=? target_idx)%N
      then (m, Err (ModelIndexOutOfBounds target_idx (item_count m)))
      else
        let m1 := match id_to_index m !! item_id item with
                  | Some old_pos =>
                      with_cache m
                        (if (old_pos =? target_idx)%N then items m else delete old_pos (items m))
                        (delete (item_id item) (id_to_index m))
                  | None => m
                  end in
        let m2 := remove_slot m1 target_idx in
        (with_cache m2 (<[target_idx := item]> (items m2))
           (<[item_id item := target_idx]> (id_to_index m2)), Ok tt)
  | None =>
      match id_to_index m !! item_id item with
      | Some idx => (with_cache m (<[idx := item]> (items m)) (id_to_index m), Ok tt)
      | None => (m, Err (ItemNotFound (item_id item)))
      end
  end.

(** [Model::update_items]: a failing item leaves the earlier ones written. *)
Definition update_items (m : Model) (index : option N) (batch : list ModelItem)
    : Model * result StoreError unit :=
  run_loop (update_one index) m (enumerate batch).

(** The validation loop of [reset_range]. *)
Fixpoint reset_ids_ok (m : Model) (start_index end_index : N) (incoming : gset ItemId)
    (batch : list ModelItem) : result StoreError unit :=
  match batch with
  | [] => Ok tt
  | item :: batch =>
      if bool_decide (item_id item ∈ incoming)
      then Err (DuplicateItemId (model_id m) (item_id item))
      else
        err_if (match id_to_index m !! item_id item with
                | Some existing => (existing <? start_index)%N || (end_index <=? existing)%N
                | None => false
                end) (DuplicateItemId (model_id m) (item_id item)) ≫= λ _,
        reset_ids_ok m start_index end_index ({[item_id item]} ∪ incoming) batch
  end.

(** The part of [reset_range] after the item count is settled. *)
Definition reset_window (m : Model) (start_index : N) (batch : list ModelItem)
    : result StoreError Model :=
  err_if (item_count m <? start_index)%N (ModelIndexOutOfBounds start_index (item_count m)) ≫= λ _,
  let end_index := add64 start_index (len batch) in
  err_if (item_count m <? end_index)%N (ModelIndexOutOfBounds end_index (item_count m)) ≫= λ _,
  reset_ids_ok m start_index end_index ∅ batch ≫= λ _,
  let m1 := foldl remove_slot m (seqN start_index (end_index - start_index)) in
  Ok (put_items m1 start_index batch).

(** The first statement of [reset_range]: a positive total replaces the count. *)
Definition settle_count (m : Model) (total_count : option N) : Model :=
  match total_count with
  | Some tc => if (0 <? tc)%N then set_item_count m tc else m
  | None => m
  end.

(** [Model::reset_range]: a failing call may already have written the count. *)
Definition reset_range (m : Model) (start_index : N) (batch : list ModelItem) (total_count : option N)
    : Model * result StoreError unit :=
  let m' := settle_count m total_count in
  all_or_nothing m' (reset_window m' start_index batch).

(** [Model::with_items] *)
Definition with_items (id : ModelId) (t : TypeRef) (count start_index : N) (batch : list ModelItem)
    : result StoreError Model :=
  match reset_range (Model_new id t count) start_index batch None with
  | (m, Ok _) => Ok m
  | (_, Err e) => Err e
  | (_, Panic) => Panic
  | (_, Diverge) => Diverge
  end.
