(* ===== verification/ModelFacts.v ===== *)
(** * Collection models: invariants and refinement

    The reverse index agrees with the cache ([cache_wf]) after every operation,
    each operation has the effect of its list counterpart on the collection the
    model is a window of ([represents]), and batches whose indices would leave
    [u64] are where that stops being true. *)

From S2P Require Import Prelude.
From S2P Require Import Values.
From S2P Require Import Limits.
From S2P Require Import Models.

(** ** The cache invariant *)

(** [id_to_index] is exactly the inverse of [items]. *)
Definition cache_wf (m : Model) : Prop :=
  ∀ x i, id_to_index m !! x = Some i ↔ ∃ it, items m !! i = Some it ∧ item_id it = x.

Lemma cache_wf_slot m i it :
  cache_wf m → items m !! i = Some it → id_to_index m !! item_id it = Some i.
Proof. intros Hwf Hi. apply Hwf. eauto. Qed.

Lemma cache_wf_inj m i j it it' :
  cache_wf m → items m !! i = Some it → items m !! j = Some it' →
  item_id it = item_id it' → i = j.
Proof.
  intros Hwf Hi Hj Heq. apply (cache_wf_slot _ _ _ Hwf) in Hi, Hj.
  rewrite Heq in Hi. congruence.
Qed.

Lemma contains_item_false m x : contains_item m x = false ↔ id_to_index m !! x = None.
Proof.
  unfold contains_item. rewrite bool_decide_eq_false, eq_None_not_Some. done.
Qed.

Lemma cache_wf_new id t n : cache_wf (Model_new id t n).
Proof.
  intros x i. cbn. rewrite lookup_empty. split; [done|].
  intros (it & Hi & _). by rewrite lookup_empty in Hi.
Qed.

Lemma cache_wf_set_item_count m n : cache_wf (set_item_count m n) ↔ cache_wf m.
Proof. done. Qed.

(** ** Removing slots *)

Lemma remove_slot_items m i : items (remove_slot m i) = delete i (items m).
Proof.
  unfold remove_slot. destruct (items m !! i) eqn:Hi; [done|].
  by rewrite delete_id.
Qed.

Lemma remove_slot_count m i : item_count (remove_slot m i) = item_count m.
Proof. unfold remove_slot. by destruct (items m !! i). Qed.

Lemma remove_slot_wf m i : cache_wf m → cache_wf (remove_slot m i).
Proof.
  intros Hwf. unfold remove_slot. destruct (items m !! i) as [it|] eqn:Hi; [|done].
  intros x j. cbn. destruct (decide (item_id it = x)) as [<-|Hx].
  - rewrite lookup_delete_eq. split; [done|]. intros (it' & Hj & Hid).
    apply lookup_delete_Some in Hj as [Hne Hj]. destruct Hne. by eapply cache_wf_inj.
  - rewrite lookup_delete_ne, (Hwf x j) by done.
    setoid_rewrite lookup_delete_Some. split.
    + intros (it' & Hj & <-). exists it'. repeat split; [|done]. intros ->.
      by rewrite Hi in Hj; injection Hj as <-.
    + naive_solver.
Qed.

(** Removing a list of slots. *)
Lemma remove_slots_lookup m ks j :
  items (foldl remove_slot m ks) !! j = if decide (j ∈ ks) then None else items m !! j.
Proof.
  revert m. induction ks as [|k ks IH]; intros m; cbn.
  { by rewrite decide_False by apply not_elem_of_nil. }
  rewrite IH, remove_slot_items. destruct (decide (j ∈ ks)) as [Hj|Hj].
  - by rewrite decide_True by by right.
  - destruct (decide (k = j)) as [->|Hne].
    + by rewrite lookup_delete_eq, decide_True by left.
    + rewrite lookup_delete_ne, decide_False; [done| |done].
      rewrite elem_of_cons. naive_solver.
Qed.

Lemma remove_slots_count m ks : item_count (foldl remove_slot m ks) = item_count m.
Proof. revert m. induction ks; intros m; cbn; [done|]. by rewrite IHks, remove_slot_count. Qed.

Lemma remove_slots_wf m ks : cache_wf m → cache_wf (foldl remove_slot m ks).
Proof. revert m. induction ks; intros m Hm; cbn; [done|]. by apply IHks, remove_slot_wf. Qed.

(** ** Writing entries

    [shift_cached_indices] and the insertion loops all write a list of
    [(index, item)] entries into the cache and its reverse index. *)
Definition put_entry (m : Model) (e : N * ModelItem) : Model :=
  with_cache m (<[e.1 := e.2]> (items m)) (<[item_id e.2 := e.1]> (id_to_index m)).

Definition entry_ids (l : list (N * ModelItem)) : list ItemId := (λ e, item_id e.2) <$> l.

Lemma put_entries_count m l : item_count (foldl put_entry m l) = item_count m.
Proof. revert m. induction l; intros m; cbn; [done|]. by rewrite IHl. Qed.

Lemma put_entries_items m l j it : NoDup l.*1 →
  items (foldl put_entry m l) !! j = Some it ↔
  (j, it) ∈ l ∨ (j ∉ l.*1) ∧ items m !! j = Some it.
Proof.
  revert m. induction l as [|[k x] l IH]; intros m; cbn.
  { intros _. rewrite elem_of_nil. split; [right|]; [|naive_solver].
    split; [apply not_elem_of_nil|done]. }
  intros [Hk Hnd]%NoDup_cons. rewrite IH by done. cbn. rewrite elem_of_cons, not_elem_of_cons.
  destruct (decide (k = j)) as [->|Hne].
  - rewrite lookup_insert_eq. split.
    + intros [?|[_ ?]]; [by left; right|left; left; congruence].
    + intros [[?|?]|[[? _] _]]; [right; split; congruence|by left|done].
  - rewrite lookup_insert_ne by done. split.
    + intros [?|[? ?]]; [by left; right|by right].
    + intros [[?|?]|[[_ ?] ?]]; [congruence|by left|by right].
Qed.

Lemma put_entries_ids m l x j : NoDup (entry_ids l) →
  id_to_index (foldl put_entry m l) !! x = Some j ↔
  (∃ it, (j, it) ∈ l ∧ item_id it = x) ∨ (x ∉ entry_ids l) ∧ id_to_index m !! x = Some j.
Proof.
  unfold entry_ids. revert m. induction l as [|[k y] l IH]; intros m; cbn.
  { intros _. split.
    - intros ?. right. split; [apply not_elem_of_nil|done].
    - intros [(it & []%elem_of_nil & _)|[_ ?]]; done. }
  intros [Hk Hnd]%NoDup_cons. rewrite IH by done. cbn. rewrite not_elem_of_cons.
  setoid_rewrite elem_of_cons. destruct (decide (item_id y = x)) as [<-|Hne].
  - rewrite lookup_insert_eq. split.
    + intros [(it & ? & ?)|[_ [= ->]]]; left; eauto.
    + intros [(it & [[= -> ->]|?] & ?)|[[? _] _]]; [by right|left; eauto|done].
  - rewrite lookup_insert_ne by done. split.
    + intros [(it & ? & ?)|[??]]; [left; eauto|right; auto].
    + intros [(it & [[= -> ->]|?] & ?)|[[_ ?] ?]]; [done|left; eauto|by right].
Qed.

(** Writing fresh entries into free slots keeps the reverse index exact; the
    ids being written may still be indexed at slots that were just vacated. *)
Lemma put_entries_wf m l :
  (∀ x i, x ∉ entry_ids l → id_to_index m !! x = Some i ↔
     ∃ it, items m !! i = Some it ∧ item_id it = x) →
  NoDup l.*1 → NoDup (entry_ids l) →
  (∀ j, j ∈ l.*1 → items m !! j = None) →
  (∀ j it, items m !! j = Some it → item_id it ∉ entry_ids l) →
  cache_wf (foldl put_entry m l).
Proof.
  intros Hwf Hnd1 Hnd2 Hfree Hids x i. rewrite put_entries_ids by done.
  setoid_rewrite put_entries_items; [|done]. split.
  - intros [(it & ? & ?)|[Hx Hi]]; [eauto|].
    apply Hwf in Hi as (it & Hi & <-); [|done]. exists it. split; [|done]. right.
    split; [|done]. intros Hl. by rewrite (Hfree _ Hl) in Hi.
  - intros (it & [?|[Hl Hi]] & <-); [left; eauto|right].
    pose proof (Hids _ _ Hi). split; [done|]. apply Hwf; eauto.
Qed.

(** ** Shifting

    [shift_cached_indices] mixes [i64] and [u64] arithmetic; modulo [2^64] it is
    plain addition, also for deltas that do not fit [i64]. *)

Lemma as_u64_Z z : Z.of_N (as_u64 z) = (z mod 2 ^ 64)%Z.
Proof. unfold as_u64. pose proof (Z.mod_pos_bound z (2 ^ 64)). lia. Qed.

Lemma as_i64_mod n : (as_i64 n mod 2 ^ 64 = Z.of_N n mod 2 ^ 64)%Z.
Proof.
  unfold as_i64. case_match; [done|].
  rewrite <- (Z.mod_add (Z.of_N n - 2 ^ 64) 1) by lia. f_equal. lia.
Qed.

Lemma neg_i64_mod z : (neg_i64 z mod 2 ^ 64 = (- z) mod 2 ^ 64)%Z.
Proof. unfold neg_i64. by rewrite as_i64_mod, as_u64_Z, Z.mod_mod by lia. Qed.

Lemma add64_Z a b : Z.of_N (add64 a b) = ((Z.of_N a + Z.of_N b) mod 2 ^ 64)%Z.
Proof. unfold add64, wrap64. by rewrite N2Z.inj_mod, N2Z.inj_add. Qed.

Lemma sub64_Z a b : Z.of_N (sub64 a b) = ((Z.of_N a - Z.of_N b) mod 2 ^ 64)%Z.
Proof.
  unfold sub64, wrap64. assert (b mod 2 ^ 64 < 2 ^ 64)%N by (apply N.mod_lt; lia).
  rewrite N2Z.inj_mod, N2Z.inj_sub, N2Z.inj_add, N2Z.inj_mod by lia.
  change (Z.of_N (2 ^ 64)) with (2 ^ 64)%Z. rewrite Zminus_mod_idemp_r.
  replace (Z.of_N a + 2 ^ 64 - Z.of_N b)%Z with (Z.of_N a - Z.of_N b + 1 * 2 ^ 64)%Z by lia.
  by rewrite Z.mod_add by lia.
Qed.

Lemma shifted_index_Z delta k :
  Z.of_N (shifted_index delta k) = ((Z.of_N k + delta) mod 2 ^ 64)%Z.
Proof.
  unfold shifted_index. case_match.
  - rewrite add64_Z, as_u64_Z. by rewrite Zplus_mod_idemp_r.
  - rewrite sub64_Z, as_u64_Z, neg_i64_mod, Zminus_mod_idemp_r.
    f_equal. lia.
Qed.

Lemma shifted_up n k : (k + n ≤ u64_max)%N → shifted_index (as_i64 n) k = (k + n)%N.
Proof.
  rewrite u64_max_val. intros Hk. apply N2Z.inj. rewrite shifted_index_Z.
  rewrite <- Zplus_mod_idemp_r, as_i64_mod, Zplus_mod_idemp_r, Z.mod_small; lia.
Qed.

Lemma shifted_down n k : (n ≤ k ≤ u64_max)%N →
  shifted_index (neg_i64 (as_i64 n)) k = (k - n)%N.
Proof.
  rewrite u64_max_val. intros Hk. apply N2Z.inj. rewrite shifted_index_Z.
  rewrite <- Zplus_mod_idemp_r, neg_i64_mod, Zplus_mod_idemp_r, Z.add_opp_r.
  rewrite <- Zminus_mod_idemp_r, as_i64_mod, Zminus_mod_idemp_r, Z.mod_small; lia.
Qed.

Definition moved_entries (m : Model) (from : N) (delta : Z) : list (N * ModelItem) :=
  (λ e, (shifted_index delta e.1, e.2)) <$> btree_entries (split_from from (items m)).

Lemma shift_put m from delta : (delta ≠ 0)%Z →
  shift_cached_indices m from delta =
  foldl put_entry (with_cache m (split_below from (items m)) (id_to_index m))
    (moved_entries m from delta).
Proof.
  intros Hd. unfold shift_cached_indices, moved_entries.
  rewrite (proj2 (Z.eqb_neq _ _)) by done.
  generalize (with_cache m (split_below from (items m)) (id_to_index m)).
  induction (btree_entries _) as [|[k it] l IH]; intros m0; cbn; [done|]. by rewrite <- IH.
Qed.

Definition cached (m : Model) (k : N) : Prop := is_Some (items m !! k).

Section shift.
Context (m : Model) (from : N) (delta : Z).
#[local] Abbreviation f := (shifted_index delta).
Context (Hinj : ∀ k k', (from ≤ k)%N → (from ≤ k')%N → cached m k → cached m k' →
  f k = f k' → k = k').
Context (Hfree : ∀ k, (from ≤ k)%N → cached m k → (f k < from)%N → items m !! f k = None).
Context (Hnz : delta ≠ 0%Z).

Lemma elem_of_moved j it :
  (j, it) ∈ moved_entries m from delta ↔
  ∃ k, (from ≤ k)%N ∧ items m !! k = Some it ∧ j = f k.
Proof.
  unfold moved_entries. rewrite list_elem_of_fmap. split.
  - intros ([k x] & [= -> ->] & Hk%elem_of_btree_entries). cbn in *.
    apply map_lookup_filter_Some in Hk as [??]. eauto.
  - intros (k & ? & ? & ->). exists (k, it). split; [done|].
    apply elem_of_btree_entries, map_lookup_filter_Some. done.
Qed.

Lemma moved_NoDup : NoDup (moved_entries m from delta).*1.
Proof.
  unfold moved_entries. rewrite <- list_fmap_compose. cbn.
  pose proof (NoDup_fst_btree_entries (split_from from (items m))) as Hnd.
  assert (∀ e, e ∈ btree_entries (split_from from (items m)) → (from ≤ e.1)%N ∧ cached m e.1) as Hin.
  { intros [k x] Hk%elem_of_btree_entries. apply map_lookup_filter_Some in Hk as [? ?].
    split; [done|]. by exists x. }
  induction (btree_entries _) as [|[k x] l IH]; cbn; [constructor|].
  cbn in Hnd. apply NoDup_cons in Hnd as [Hk Hnd]. apply NoDup_cons. split.
  - intros ([k' x'] & Heq & Hk')%list_elem_of_fmap. cbn in Heq.
    destruct (Hin (k, x)) as [??]; [by left|]. destruct (Hin (k', x')) as [??]; [by right|].
    cbn in *. apply Hinj in Heq; [subst|done..]. destruct Hk. by eapply elem_of_fst.
  - apply IH; [done|]. intros e He. apply Hin. by right.
Qed.

Lemma shift_items j it :
  items (shift_cached_indices m from delta) !! j = Some it ↔
  (∃ k, (from ≤ k)%N ∧ items m !! k = Some it ∧ j = f k) ∨
  (j < from)%N ∧ items m !! j = Some it.
Proof.
  rewrite shift_put, put_entries_items, elem_of_moved by (apply moved_NoDup || done).
  cbn. unfold split_below. rewrite map_lookup_filter_Some. cbn. split.
  - naive_solver.
  - intros [?|[Hlt Hj]]; [by left|]. right. split; [|done].
    intros (x & (k & ? & Hk & ->)%elem_of_moved)%elem_of_fst_inv.
    rewrite Hfree in Hj; [done..|by exists x|done].
Qed.

Lemma shift_count : item_count (shift_cached_indices m from delta) = item_count m.
Proof. by rewrite shift_put, put_entries_count. Qed.

Lemma shift_wf : cache_wf m → cache_wf (shift_cached_indices m from delta).
Proof.
  intros Hwf. rewrite shift_put by done.
  assert (∀ x, x ∈ entry_ids (moved_entries m from delta) ↔
    ∃ k it, (from ≤ k)%N ∧ items m !! k = Some it ∧ item_id it = x) as Hids.
  { intros x. unfold entry_ids. rewrite list_elem_of_fmap. split.
    - intros ([j it] & -> & (k & ? & ? & ->)%elem_of_moved). eauto.
    - intros (k & it & ? & ? & <-). exists (f k, it). split; [done|].
      apply elem_of_moved. eauto. }
  apply put_entries_wf; [| |unfold entry_ids, moved_entries| |]; cbn; unfold split_below.
  - intros x i Hx. rewrite (Hwf x i). setoid_rewrite map_lookup_filter_Some. cbn.
    split; [|naive_solver]. intros (it & Hi & <-). exists it. split; [|done]. split; [done|].
    destruct (decide (i < from)%N) as [|Hge]; [done|]. destruct Hx. apply Hids.
    exists i, it. split; [lia|done].
  - apply moved_NoDup.
  - rewrite <- list_fmap_compose.
    apply NoDup_fmap_2_strong; [|by eapply NoDup_fmap_1, NoDup_fst_btree_entries].
    intros [k it] [k' it'] Hk%elem_of_btree_entries Hk'%elem_of_btree_entries Heq.
    apply map_lookup_filter_Some in Hk as [Hk _], Hk' as [Hk' _]. cbn in *.
    pose proof (cache_wf_inj m k k' it it' Hwf Hk Hk' Heq). congruence.
  - intros j (it & (k & ? & ? & ->)%elem_of_moved)%elem_of_fst_inv.
    apply map_lookup_filter_None. destruct (decide (f k < from)%N); [left|right; cbn; naive_solver].
    apply Hfree; [done|by exists it|done].
  - intros j it [Hj Hlt]%map_lookup_filter_Some Hin. cbn in *.
    apply Hids in Hin as (k & it' & ? & Hk & Heq).
    pose proof (cache_wf_inj _ _ _ _ _ Hwf Hk Hj Heq). lia.
Qed.
End shift.

Lemma as_i64_nz n : (0 < n ≤ u64_max)%N → as_i64 n ≠ 0%Z.
Proof.
  rewrite u64_max_val. intros Hn Hz. pose proof (as_i64_mod n) as Hm.
  rewrite Hz, (Z.mod_small (Z.of_N n)) in Hm by lia. change (0 mod 2 ^ 64)%Z with 0%Z in Hm. lia.
Qed.

Lemma neg_as_i64_nz n : (0 < n ≤ u64_max)%N → neg_i64 (as_i64 n) ≠ 0%Z.
Proof.
  rewrite u64_max_val. intros Hn Hz. pose proof (shifted_down n n) as Hs.
  rewrite Hz, u64_max_val in Hs. pose proof (shifted_index_Z 0 n) as H0.
  rewrite Z.add_0_r, Z.mod_small in H0 by lia. lia.
Qed.

(** All cached indices stay inside [u64] when [n] is added to them. *)
Definition fits (m : Model) (n : N) : Prop :=
  (n ≤ u64_max)%N ∧ ∀ k, cached m k → (k + n ≤ u64_max)%N.

Section shift_up.
Context (m : Model) (from n : N) (Hn : (0 < n)%N) (Hfit : fits m n).

Lemma shift_up_items j it :
  items (shift_cached_indices m from (as_i64 n)) !! j = Some it ↔
  (from + n ≤ j)%N ∧ items m !! (j - n)%N = Some it ∨ (j < from)%N ∧ items m !! j = Some it.
Proof using All.
  destruct Hfit as [? Hk]. rewrite shift_items.
  - split; (intros [(k & Hj)|?]; [left|by right]).
    + destruct Hj as (? & Hj & ->). rewrite shifted_up by (apply Hk; by exists it).
      split; [lia|]. by replace (k + n - n)%N with k by lia.
    + exists (j - n)%N. split; [lia|]. split; [done|].
      rewrite shifted_up; [lia|]. apply Hk. by exists it.
  - intros k k' _ _ ??. rewrite !shifted_up by auto. lia.
  - intros k ??. rewrite shifted_up by auto. lia.
  - by apply as_i64_nz.
Qed.

Lemma shift_up_wf : cache_wf m → cache_wf (shift_cached_indices m from (as_i64 n)).
Proof using All.
  destruct Hfit as [? Hk]. apply shift_wf.
  - intros k k' _ _ ??. rewrite !shifted_up by auto. lia.
  - intros k ??. rewrite shifted_up by auto. lia.
  - by apply as_i64_nz.
Qed.
End shift_up.

Section shift_down.
Context (m : Model) (from n : N) (Hn : (0 < n ≤ from)%N) (Hfrom : (from ≤ u64_max)%N).
Context (Hfit : ∀ k, cached m k → (k ≤ u64_max)%N).
Context (Hgap : ∀ k, (from - n ≤ k < from)%N → items m !! k = None).

Lemma shift_down_conditions :
  (∀ k k', (from ≤ k)%N → (from ≤ k')%N → cached m k → cached m k' →
    shifted_index (neg_i64 (as_i64 n)) k = shifted_index (neg_i64 (as_i64 n)) k' → k = k') ∧
  (∀ k, (from ≤ k)%N → cached m k → (shifted_index (neg_i64 (as_i64 n)) k < from)%N →
    items m !! shifted_index (neg_i64 (as_i64 n)) k = None) ∧
  neg_i64 (as_i64 n) ≠ 0%Z.
Proof using All.
  split_and!.
  - intros k k' ?? Hk Hk'. apply Hfit in Hk, Hk'. rewrite !shifted_down by lia. lia.
  - intros k ? Hk. apply Hfit in Hk. rewrite shifted_down by lia. intros. apply Hgap. lia.
  - apply neg_as_i64_nz. lia.
Qed.

Lemma shift_down_items j it :
  items (shift_cached_indices m from (neg_i64 (as_i64 n))) !! j = Some it ↔
  (from ≤ j + n)%N ∧ items m !! (j + n)%N = Some it ∨ (j < from)%N ∧ items m !! j = Some it.
Proof using All.
  destruct shift_down_conditions as (? & ? & ?). rewrite shift_items by done.
  split; (intros [(k & Hj)|?]; [left|by right]).
  - destruct Hj as (? & Hj & ->). assert (k ≤ u64_max)%N by (apply Hfit; by exists it).
    rewrite shifted_down by lia. split; [lia|]. by replace (k - n + n)%N with k by lia.
  - exists (j + n)%N. split; [lia|]. split; [done|].
    assert (j + n ≤ u64_max)%N by (apply Hfit; by exists it). rewrite shifted_down; lia.
Qed.

Lemma shift_down_wf : cache_wf m → cache_wf (shift_cached_indices m from (neg_i64 (as_i64 n))).
Proof using All. destruct shift_down_conditions as (? & ? & ?). by apply shift_wf. Qed.
End shift_down.

(** ** Batches *)

Lemma put_items_put m start batch : (start + len batch ≤ u64_max + 1)%N →
  put_items m start batch = foldl put_entry m (enumerate_from start batch).
Proof.
  intros Hfit. unfold put_items, enumerate.
  enough (∀ i, (start + i + len batch ≤ u64_max + 1)%N →
    foldl (λ m '(i, item),
             let idx := add64 start i in
             with_cache m (<[idx := item]> (items m)) (<[item_id item := idx]> (id_to_index m)))
      m (enumerate_from i batch) = foldl put_entry m (enumerate_from (start + i) batch)) as Hi.
  { specialize (Hi 0%N). rewrite N.add_0_r in Hi. by apply Hi. }
  clear Hfit. revert m. induction batch as [|it batch IH]; intros m i; cbn; [done|].
  rewrite len_cons. intros Hi. rewrite add64_small by lia.
  rewrite IH by lia. by rewrite N.add_assoc.
Qed.

Lemma put_items_count m start batch : item_count (put_items m start batch) = item_count m.
Proof.
  unfold put_items. generalize (enumerate batch). intros l. revert m.
  induction l as [|[i it] l IH]; intros m; cbn; [done|]. by rewrite IH.
Qed.

Lemma entry_ids_enumerate s batch : entry_ids (enumerate_from s batch) = item_id <$> batch.
Proof.
  unfold entry_ids. rewrite <- (snd_enumerate_from s batch) at 2.
  by rewrite <- list_fmap_compose.
Qed.

Lemma insert_ids_fresh_Ok m inc batch u :
  insert_ids_fresh m inc batch = Ok u ↔
  NoDup (item_id <$> batch) ∧
  ∀ it, it ∈ batch → (item_id it ∉ inc) ∧ id_to_index m !! item_id it = None.
Proof.
  destruct u. revert inc. induction batch as [|it batch IH]; intros inc; cbn.
  { split; [intros _; split; [constructor|by intros ? ?%elem_of_nil]|done]. }
  destruct (contains_item m (item_id it)) eqn:Hc; cbn.
  { split; [done|]. intros [_ Hall]. destruct (Hall it) as [_ Hn]; [by left|].
    by apply contains_item_false in Hn; rewrite Hc in Hn. }
  apply contains_item_false in Hc. case_bool_decide as Hin.
  { split; [done|]. intros [_ Hall]. by destruct (Hall it) as [? _]; [left|]. }
  rewrite IH, NoDup_cons. split.
  - intros [Hnd Hall]. split_and!; [|done|].
    + intros (it' & Heq & Hit')%list_elem_of_fmap. destruct (Hall it' Hit') as [Hn _].
      rewrite <- Heq in Hn. set_solver.
    + intros it' [->|Hit']%elem_of_cons; [done|]. destruct (Hall it' Hit'). set_solver.
  - intros [[Hn Hnd] Hall]. split; [done|]. intros it' Hit'.
    destruct (Hall it') as [? ?]; [by right|]. split; [|done].
    apply not_elem_of_union. split; [|done]. apply not_elem_of_singleton. intros Heq.
    destruct Hn. rewrite <- Heq. by apply list_elem_of_fmap_2.
Qed.

Lemma reset_ids_ok_Ok m s e inc batch u :
  reset_ids_ok m s e inc batch = Ok u ↔
  NoDup (item_id <$> batch) ∧
  ∀ it, it ∈ batch → (item_id it ∉ inc) ∧
    ∀ i, id_to_index m !! item_id it = Some i → (s ≤ i < e)%N.
Proof.
  destruct u. revert inc. induction batch as [|it batch IH]; intros inc; cbn [reset_ids_ok].
  { split; [intros _; split; [constructor|by intros ? ?%elem_of_nil]|done]. }
  case_bool_decide as Hin.
  { split; [done|]. intros [_ Hall]. by destruct (Hall it) as [? _]; [left|]. }
  rewrite bind_Ok. setoid_rewrite IH. setoid_rewrite err_if_Ok. rewrite fmap_cons, NoDup_cons.
  split.
  - intros (_ & Hr & Hnd & Hall). split_and!; [|done|].
    + intros (it' & Heq & Hit')%list_elem_of_fmap. destruct (Hall it' Hit') as [Hn _].
      rewrite <- Heq in Hn. set_solver.
    + intros it' [->|Hit']%elem_of_cons.
      * split; [done|]. intros i Hi. rewrite Hi, orb_false_iff, N.ltb_ge, N.leb_gt in Hr. lia.
      * destruct (Hall it' Hit'). set_solver.
  - intros [[Hn Hnd] Hall]. exists tt. split_and!; [|done|].
    + destruct (Hall it) as [_ Hi]; [by left|].
      destruct (id_to_index m !! item_id it) as [i|]; [|done]. specialize (Hi i eq_refl).
      rewrite orb_false_iff, N.ltb_ge, N.leb_gt. lia.
    + intros it' Hit'. destruct (Hall it') as [? ?]; [by right|]. split; [|done].
      apply not_elem_of_union. split; [|done]. apply not_elem_of_singleton. intros Heq.
      destruct Hn. rewrite <- Heq. by apply list_elem_of_fmap_2.
Qed.

Section put_batch.
Context (m : Model) (start : N) (batch : list ModelItem).
Context (Hfit : (start + len batch ≤ u64_max + 1)%N).
Context (Hnd : NoDup (item_id <$> batch)).
Context (Hfree : ∀ j, (start ≤ j < start + len batch)%N → items m !! j = None).

Lemma put_batch_items j it :
  items (put_items m start batch) !! j = Some it ↔
  (start ≤ j)%N ∧ batch !! N.to_nat (j - start) = Some it ∨ items m !! j = Some it.
Proof using All.
  rewrite put_items_put, put_entries_items, elem_of_enumerate_from
    by (apply NoDup_enumerate_from || done).
  split; [naive_solver|]. intros [?|Hj]; [by left|right; split; [|done]].
  intros (x & [? Hl%lookup_lt_Some]%elem_of_enumerate_from)%elem_of_fst_inv.
  unfold len in Hfree. rewrite Hfree in Hj by lia. done.
Qed.

Lemma put_batch_wf :
  (∀ it, it ∈ batch → id_to_index m !! item_id it = None) →
  cache_wf m → cache_wf (put_items m start batch).
Proof using All.
  intros Hids Hwf. rewrite put_items_put by done.
  apply put_entries_wf; rewrite ?entry_ids_enumerate; [|apply NoDup_enumerate_from|done|..].
  - intros x i _. apply Hwf.
  - intros j (x & [? Hl%lookup_lt_Some]%elem_of_enumerate_from)%elem_of_fst_inv.
    apply Hfree. unfold len. lia.
  - intros j it Hj (it' & Heq & Hit')%list_elem_of_fmap.
    apply (cache_wf_slot _ _ _ Hwf) in Hj. apply Hids in Hit'. congruence.
Qed.
End put_batch.

(** The window [start..start + n] of the cache is replaced by [batch]. *)
Definition window_of (batch : list ModelItem) (start j : N) (it : ModelItem) : Prop :=
  (start ≤ j)%N ∧ batch !! N.to_nat (j - start) = Some it.

Lemma window_of_lt batch start j it :
  window_of batch start j it → (start ≤ j < start + len batch)%N.
Proof. intros [? Hl%lookup_lt_Some]. unfold len. lia. Qed.

(** *** [insert_items] *)
Lemma insert_items_effect m index batch m' :
  cache_wf m → fits m (len batch) → (item_count m + len batch ≤ u64_max)%N →
  insert_items m index batch = Ok m' →
  (index ≤ item_count m)%N ∧ NoDup (item_id <$> batch) ∧
  (∀ it, it ∈ batch → id_to_index m !! item_id it = None) ∧
  cache_wf m' ∧ item_count m' = (item_count m + len batch)%N ∧
  ∀ j it, items m' !! j = Some it ↔
    window_of batch index j it ∨
    (j < index)%N ∧ items m !! j = Some it ∨
    (index + len batch ≤ j)%N ∧ items m !! (j - len batch)%N = Some it.
Proof.
  intros Hwf Hfit Hcount Heq. unfold insert_items in Heq. inv_ok.
  apply N.ltb_ge in Heq0. apply insert_ids_fresh_Ok in Heq1 as [Hnd Hids].
  case_match eqn:Hn; inv_ok; subst m'.
  - apply N.ltb_lt in Hn.
    assert (∀ it, it ∈ batch → id_to_index m !! item_id it = None) as Hids' by (intros; by apply Hids).
    assert (∀ j, (index ≤ j < index + len batch)%N →
      items (shift_cached_indices m index (as_i64 (len batch))) !! j = None) as Hfree.
    { intros j Hj. apply eq_None_not_Some. intros [it Hit].
      apply shift_up_items in Hit; [|done..]. lia. }
    split_and!; [done..| | |].
    + rewrite cache_wf_set_item_count. apply put_batch_wf; [lia|done..| |by apply shift_up_wf].
      intros it Hit. apply eq_None_not_Some. intros [i Hi].
      apply shift_up_wf in Hi as (it' & Hj & Hid); [|done..].
      apply shift_up_items in Hj; [|done..]. destruct Hj as [[_ Hj]|[_ Hj]];
        apply (cache_wf_slot _ _ _ Hwf) in Hj; rewrite Hid, Hids' in Hj by done; done.
    + cbn. rewrite put_items_count, shift_count; [apply add64_small; lia|..].
      apply as_i64_nz. destruct Hfit. lia.
    + intros j it. cbn. rewrite put_batch_items by (lia || done).
      rewrite shift_up_items by done. unfold window_of. tauto.
  - apply N.ltb_ge in Hn. assert (batch = []) as ->.
    { destruct batch; [done|]. rewrite len_cons in Hn. lia. }
    split_and!; [done|done|by intros ? ?%elem_of_nil|done|unfold len; cbn; lia|].
    intros j it. unfold window_of, len. cbn. rewrite lookup_nil.
    split; [|intros [[_ ?]|[[_ ?]|[_ ?]]]]; [|done|done|by rewrite N.sub_0_r in *].
    intros. right. destruct (decide (j < index)%N); [left; done|right].
    rewrite N.sub_0_r. split; [lia|done].
Qed.

(** *** [delete_items] *)

(** Every cached index is a [u64]. *)
Definition indices_u64 (m : Model) : Prop := ∀ k, cached m k → (k ≤ u64_max)%N.

Lemma saturating_add64_le a b c : (c ≤ u64_max)%N →
  (saturating_add64 a b ≤ c)%N → (a + b ≤ c)%N ∨ c = u64_max ∧ (u64_max < a + b)%N.
Proof. unfold saturating_add64. lia. Qed.

Lemma add64_overflow a b : (a ≤ u64_max)%N → (b ≤ u64_max)%N → (u64_max < a + b)%N →
  (add64 a b < a)%N.
Proof.
  rewrite u64_max_val. intros. unfold add64, wrap64.
  replace (a + b)%N with ((a + b - 2 ^ 64) + 1 * 2 ^ 64)%N by lia.
  rewrite N.Div0.mod_add, N.mod_small; lia.
Qed.

Lemma elem_of_range_keys m idx stop k :
  k ∈ filter (λ k, (idx ≤ k)%N ∧ (k < stop)%N) (btree_entries (items m)).*1 ↔
  (idx ≤ k < stop)%N ∧ cached m k.
Proof.
  rewrite list_elem_of_filter. split.
  - intros [? (it & Hk%elem_of_btree_entries)%elem_of_fst_inv]. split; [lia|by exists it].
  - intros [? [it Hk]]. split; [lia|]. eapply elem_of_fst. by apply elem_of_btree_entries.
Qed.

Lemma delete_range_effect m idx cnt m' :
  cache_wf m → indices_u64 m → (item_count m ≤ u64_max)%N → (0 < cnt ≤ u64_max)%N →
  delete_range m idx cnt = Ok m' →
  (idx + cnt ≤ item_count m)%N ∧ cache_wf m' ∧ item_count m' = (item_count m - cnt)%N ∧
  ∀ j it, items m' !! j = Some it ↔
    (j < idx)%N ∧ items m !! j = Some it ∨ (idx ≤ j)%N ∧ items m !! (j + cnt)%N = Some it.
Proof.
  intros Hwf Hu Hcount Hcnt Heq. unfold delete_range in Heq. inv_ok.
  apply orb_false_iff in Heq0 as [H1%N.ltb_ge H2%N.ltb_ge].
  case_match eqn:Hstop; [done|]. inv_ok. subst m'. apply N.ltb_ge in Hstop.
  assert (idx + cnt ≤ item_count m)%N as Hle.
  { apply saturating_add64_le in H2 as [?|[? Hov]]; [done| |done].
    apply add64_overflow in Hov; lia. }
  rewrite add64_small in * by lia.
  set (keys := filter _ _). set (m1 := foldl remove_slot m keys).
  assert (∀ j, items m1 !! j = if decide (idx ≤ j < idx + cnt)%N then None else items m !! j) as Hm1.
  { intros j. unfold m1. rewrite remove_slots_lookup. unfold keys.
    destruct (decide (j ∈ _)) as [Hj|Hj]; rewrite elem_of_range_keys in Hj.
    - by rewrite decide_True by apply Hj.
    - case_decide; [|done]. destruct (items m !! j) eqn:Hj'; [|done].
      destruct Hj. split; [done|]. by exists m0. }
  assert (indices_u64 m1) as Hu1.
  { intros k [it Hk]. apply Hu. rewrite Hm1 in Hk. case_decide; [done|by exists it]. }
  assert (∀ k, (idx + cnt - cnt ≤ k < idx + cnt)%N → items m1 !! k = None) as Hgap.
  { intros k Hk. rewrite Hm1, decide_True; [done|lia]. }
  split_and!; [done| | |].
  - rewrite cache_wf_set_item_count. apply shift_down_wf; [lia|lia|done|done|].
    by apply remove_slots_wf.
  - cbn. rewrite shift_count; [by unfold m1; rewrite remove_slots_count|].
    apply neg_as_i64_nz. lia.
  - intros j it. cbn. rewrite shift_down_items by (lia || done). rewrite !Hm1. split.
    + intros [[? Hj]|[? Hj]]; case_decide; try done; [right|left]; (split; [lia|done]).
    + intros [[? Hj]|[? Hj]]; [right|left]; (split; [lia|]); rewrite decide_False by lia; done.
Qed.

(** Overflow is where a range deletion may panic: [idx + cnt] must leave [u64]
    on a collection that declares [u64::MAX] items. *)
Lemma delete_range_returns m idx cnt :
  (idx ≤ u64_max)%N → (cnt ≤ u64_max)%N → (item_count m < u64_max)%N →
  returns (delete_range m idx cnt).
Proof.
  intros Hi Hc Hcount. unfold delete_range. apply returns_bind; [apply returns_err_if|].
  intros [] Hg. apply err_if_Ok, orb_false_iff in Hg as [H1%N.ltb_ge H2%N.ltb_ge].
  apply saturating_add64_le in H2 as [?|[? ?]]; [|lia|lia].
  rewrite add64_small by lia. rewrite (proj2 (N.ltb_ge _ _)) by lia. done.
Qed.

Lemma delete_one_effect m id idx :
  cache_wf m → indices_u64 m → id_to_index m !! id = Some idx → (idx < u64_max)%N →
  cache_wf (delete_one m id) ∧ item_count (delete_one m id) = (item_count m - 1)%N ∧
  ∀ j it, items (delete_one m id) !! j = Some it ↔
    (j < idx)%N ∧ items m !! j = Some it ∨ (idx ≤ j)%N ∧ items m !! (j + 1)%N = Some it.
Proof.
  intros Hwf Hu Hid Hlt. unfold delete_one. rewrite Hid.
  assert (remove_slot m idx = with_cache m (delete idx (items m)) (delete id (id_to_index m))) as Hr.
  { unfold remove_slot. apply Hwf in Hid as (it & -> & <-). done. }
  rewrite <- Hr. rewrite add64_small by lia.
  change (-1)%Z with (neg_i64 (as_i64 1)).
  set (m2 := set_item_count _ _).
  assert (items m2 = delete idx (items m)) as Hit by apply remove_slot_items.
  assert (indices_u64 m2) as Hu2.
  { intros k [it Hk]. apply Hu. rewrite Hit in Hk. apply lookup_delete_Some in Hk as [_ Hk]. by exists it. }
  assert (∀ k, (idx + 1 - 1 ≤ k < idx + 1)%N → items m2 !! k = None) as Hgap.
  { intros k Hk. replace k with idx by lia. rewrite Hit. apply lookup_delete_eq. }
  split_and!.
  - apply shift_down_wf; [lia|lia|done|done|]. by apply cache_wf_set_item_count, remove_slot_wf.
  - rewrite shift_count by (apply neg_as_i64_nz; rewrite u64_max_val; lia). cbn.
    by rewrite remove_slot_count.
  - intros j it. rewrite shift_down_items by (lia || done). rewrite Hit. split.
    + intros [[? Hj]|[? Hj]]; apply lookup_delete_Some in Hj as [? ?].
      * right. split; [lia|done].
      * destruct (decide (j = idx)); [done|left]. split; [lia|done].
    + intros [[? Hj]|[? Hj]]; [right|left]; (split; [lia|]); apply lookup_delete_Some; (split; [lia|done]).
Qed.

(** *** [reset_range] *)

Lemma cleared_window_lookup m s n j :
  items (foldl remove_slot m (seqN s n)) !! j =
  if decide (s ≤ j < s + n)%N then None else items m !! j.
Proof.
  rewrite remove_slots_lookup.
  destruct (decide (j ∈ seqN s n)) as [Hj|Hj]; rewrite elem_of_seqN in Hj;
    case_decide; done || lia.
Qed.

Lemma reset_window_effect m start batch m' :
  cache_wf m → (start + len batch ≤ u64_max)%N →
  reset_window m start batch = Ok m' →
  (start + len batch ≤ item_count m)%N ∧ NoDup (item_id <$> batch) ∧
  cache_wf m' ∧ item_count m' = item_count m ∧
  ∀ j it, items m' !! j = Some it ↔
    window_of batch start j it ∨
    ¬ (start ≤ j < start + len batch)%N ∧ items m !! j = Some it.
Proof.
  intros Hwf Hfit Heq. unfold reset_window in Heq. inv_ok. subst m'.
  rewrite add64_small in * by lia. apply N.ltb_ge in Heq1.
  apply reset_ids_ok_Ok in Heq2 as [Hnd Hids].
  replace (start + len batch - start)%N with (len batch) by lia.
  set (m1 := foldl remove_slot _ _).
  assert (cache_wf m1) as Hwf1 by by apply remove_slots_wf.
  assert (∀ j, (start ≤ j < start + len batch)%N → items m1 !! j = None) as Hfree.
  { intros j Hj. unfold m1. by rewrite cleared_window_lookup, decide_True. }
  split_and!; [done|done| | |].
  - apply put_batch_wf; [lia|done..| |done].
    intros it Hit. apply eq_None_not_Some. intros [i Hi].
    apply Hwf1 in Hi as (it' & Hi & Hid). unfold m1 in Hi. rewrite cleared_window_lookup in Hi.
    case_decide as Hout; [done|]. destruct Hout. destruct (Hids it Hit) as [_ Hin].
    apply Hin. rewrite <- Hid. by apply cache_wf_slot.
  - rewrite put_items_count. apply remove_slots_count.
  - intros j it. rewrite put_batch_items by (lia || done). unfold m1, window_of.
    rewrite cleared_window_lookup. case_decide as Hin; split.
    + intros [?|?]; [by left|done].
    + intros [?|[? _]]; [by left|done].
    + intros [?|?]; [by left|by right].
    + intros [?|[_ ?]]; [by left|by right].
Qed.

Lemma settle_count_cache m total :
  items (settle_count m total) = items m ∧ id_to_index (settle_count m total) = id_to_index m.
Proof. destruct total as [tc|]; [|done]. cbn. by destruct (0 <? tc)%N. Qed.

Lemma settle_count_wf m total : cache_wf m → cache_wf (settle_count m total).
Proof. destruct total as [tc|]; [|done]. cbn. by destruct (0 <? tc)%N. Qed.

Lemma reset_range_effect m start batch total m' :
  cache_wf m → (start + len batch ≤ u64_max)%N →
  reset_range m start batch total = (m', Ok tt) →
  (start + len batch ≤ item_count m')%N ∧ NoDup (item_id <$> batch) ∧ cache_wf m' ∧
  item_count m' = item_count (settle_count m total) ∧
  ∀ j it, items m' !! j = Some it ↔
    window_of batch start j it ∨
    ¬ (start ≤ j < start + len batch)%N ∧ items m !! j = Some it.
Proof.
  intros Hwf Hfit Heq. unfold reset_range in Heq.
  apply (settle_count_wf _ total) in Hwf. destruct (settle_count_cache m total) as [Hit _].
  set (m0 := settle_count m total) in *.
  destruct (reset_window m0 start batch) as [m1| | |] eqn:Hw; [|done..].
  injection Heq as ->. apply reset_window_effect in Hw as (? & ? & ? & Hc & Hi); [|done..].
  rewrite Hc. rewrite Hit in Hi. done.
Qed.

(** On failure the cache itself is untouched, only the count may have moved. *)
Lemma reset_range_err m start batch total m' r :
  reset_range m start batch total = (m', r) → is_ok r = false → m' = settle_count m total.
Proof.
  unfold reset_range. destruct (reset_window _ start batch); cbn; by intros [= <- <-].
Qed.

(** *** [update_items] *)

Definition forget_id (m : Model) (id : ItemId) : Model :=
  match id_to_index m !! id with Some old => remove_slot m old | None => m end.

Lemma forget_id_lookup m id j it : cache_wf m →
  items (forget_id m id) !! j = Some it ↔ items m !! j = Some it ∧ item_id it ≠ id.
Proof.
  intros Hwf. unfold forget_id. destruct (id_to_index m !! id) as [old|] eqn:Hold.
  - rewrite remove_slot_items, lookup_delete_Some. split.
    + intros [Hne Hj]. split; [done|]. intros <-.
      apply (cache_wf_slot _ _ _ Hwf) in Hj. congruence.
    + intros [Hj Hne]. split; [|done]. intros <-. apply Hwf in Hold as (it' & ? & ?). congruence.
  - split; [|naive_solver]. intros Hj. split; [done|]. intros <-.
    apply (cache_wf_slot _ _ _ Hwf) in Hj. congruence.
Qed.

Lemma forget_id_wf m id : cache_wf m → cache_wf (forget_id m id).
Proof. intros. unfold forget_id. case_match; [by apply remove_slot_wf|done]. Qed.

Lemma forget_id_index m id : cache_wf m → id_to_index (forget_id m id) !! id = None.
Proof.
  intros Hwf. apply eq_None_not_Some. intros [i Hi].
  apply (forget_id_wf _ _ Hwf) in Hi as (it & Hi & Heq).
  by apply forget_id_lookup in Hi as [_ ?].
Qed.

(** The two removals of a positional update, in terms of slots. *)
Lemma update_removals m id target : cache_wf m →
  remove_slot
    (match id_to_index m !! id with
     | Some old_pos =>
         with_cache m (if (old_pos =? target)%N then items m else delete old_pos (items m))
           (delete id (id_to_index m))
     | None => m
     end) target = remove_slot (forget_id m id) target.
Proof.
  intros Hwf. unfold forget_id. destruct (id_to_index m !! id) as [old|] eqn:Hold; [|done].
  apply Hwf in Hold as (it & Hit & <-). unfold remove_slot at 3. rewrite Hit.
  destruct (N.eqb_spec old target) as [->|]; [|done].
  unfold remove_slot. cbn. rewrite Hit, lookup_delete_eq. unfold with_cache. cbn.
  by rewrite delete_delete_eq.
Qed.

(** A positional write drops the previous holder of the id and of the slot. *)
Lemma update_one_at_effect base m i item m' :
  cache_wf m → update_one (Some base) m (i, item) = (m', Ok tt) →
  (add64 base i < item_count m)%N ∧ cache_wf m' ∧ item_count m' = item_count m ∧
  ∀ j it, items m' !! j = Some it ↔
    j = add64 base i ∧ it = item ∨
    j ≠ add64 base i ∧ items m !! j = Some it ∧ item_id it ≠ item_id item.
Proof.
  intros Hwf Heq. unfold update_one in Heq. set (target := add64 base i) in *.
  case_match eqn:Hlt; [done|]. injection Heq as <-. apply N.leb_gt in Hlt.
  rewrite update_removals by done.
  pose proof (forget_id_wf m (item_id item) Hwf) as Hwf1.
  set (m1 := forget_id m (item_id item)) in *.
  pose proof (remove_slot_wf m1 target Hwf1) as Hwf2.
  assert (item_count (remove_slot m1 target) = item_count m) as Hc.
  { rewrite remove_slot_count. unfold m1, forget_id. case_match; [apply remove_slot_count|done]. }
  change (with_cache _ _ _) with (foldl put_entry (remove_slot m1 target) [(target, item)]).
  split_and!; [done| |by rewrite put_entries_count|].
  - apply put_entries_wf; cbn; [intros x j _; apply Hwf2|apply NoDup_singleton..| |].
    + intros j ->%list_elem_of_singleton. rewrite remove_slot_items. apply lookup_delete_eq.
    + intros j it Hj. rewrite list_elem_of_singleton. rewrite remove_slot_items in Hj.
      apply lookup_delete_Some in Hj as [_ Hj]. by apply forget_id_lookup in Hj as [_ ?].
  - intros j it. rewrite put_entries_items by apply NoDup_singleton. cbn.
    rewrite !list_elem_of_singleton, remove_slot_items, lookup_delete_Some.
    unfold m1. rewrite forget_id_lookup by done. naive_solver.
Qed.

Lemma update_one_by_id_effect m i item m' :
  cache_wf m → update_one None m (i, item) = (m', Ok tt) →
  ∃ idx, id_to_index m !! item_id item = Some idx ∧ cache_wf m' ∧
    item_count m' = item_count m ∧ items m' = <[idx := item]> (items m) ∧
    id_to_index m' = id_to_index m.
Proof.
  intros Hwf Heq. cbn in Heq.
  destruct (id_to_index m !! item_id item) as [idx|] eqn:Hidx; [|done].
  injection Heq as <-. exists idx. split_and!; try done.
  intros x j. cbn. rewrite (Hwf x j). destruct (decide (j = idx)) as [->|Hne].
  - rewrite lookup_insert_eq. apply Hwf in Hidx as (it & Hit & Heq).
    rewrite Hit. split; intros (? & [= <-] & ?); eexists; (split; [done|]); congruence.
  - by rewrite lookup_insert_ne.
Qed.

Lemma run_loop_Ok_inv {S A E} (P : S → Prop) (f : S → A → S * result E unit) xs s s' :
  (∀ s x s', x ∈ xs → P s → f s x = (s', Ok tt) → P s') →
  P s → run_loop f s xs = (s', Ok tt) → P s'.
Proof.
  revert s. induction xs as [|x xs IH]; cbn; intros s Hf Hs Heq.
  { by injection Heq as <-. }
  destruct (f s x) as [s1 [[]| | |]] eqn:Hx; [|done..].
  eapply (IH s1); [|by eapply Hf; [left| |]|done]. intros; eapply Hf; eauto. by right.
Qed.

Lemma update_items_wf m index batch m' :
  cache_wf m → update_items m index batch = (m', Ok tt) →
  cache_wf m' ∧ item_count m' = item_count m.
Proof.
  intros Hwf Heq.
  apply (run_loop_Ok_inv (λ m', cache_wf m' ∧ item_count m' = item_count m)) in Heq; [done| |done].
  intros m1 [i it] m2 _ [Hwf1 <-] H12. destruct index as [base|].
  - by apply update_one_at_effect in H12 as (? & ? & ? & ?).
  - by apply update_one_by_id_effect in H12 as (? & ? & ? & ? & ?).
Qed.

(** *** [evict_farthest_outside] *)

Lemma elem_of_candidates m s e k :
  k ∈ eviction_candidates m s e ↔ cached m k ∧ ((k < s)%N ∨ (N.max e s ≤ k)%N).
Proof.
  unfold eviction_candidates. rewrite merge_sort_Permutation, list_elem_of_filter. split.
  - intros [? (it & Hk%elem_of_btree_entries)%elem_of_fst_inv]. split; [by exists it|done].
  - intros [[it Hk] ?]. split; [done|]. eapply elem_of_fst. by apply elem_of_btree_entries.
Qed.

Lemma evict_wf m s e n : cache_wf m → cache_wf (evict_farthest_outside m s e n).
Proof. intros. unfold evict_farthest_outside. case_match; [done|by apply remove_slots_wf]. Qed.

Lemma evict_count m s e n : item_count (evict_farthest_outside m s e n) = item_count m.
Proof. unfold evict_farthest_outside. case_match; [done|apply remove_slots_count]. Qed.

(** ** Refinement: a model is a window of a remote collection

    [represents m l]: the remote collection is the duplicate-free sequence of
    ids [l]; the count is its length and every cached slot holds its item. *)
Record represents (m : Model) (l : list ItemId) : Prop := {
  rep_wf : cache_wf m;
  rep_count : item_count m = len l;
  rep_nodup : NoDup l;
  rep_slots : ∀ i it, items m !! i = Some it → l !! N.to_nat i = Some (item_id it);
}.

Lemma represents_bound m l k : represents m l → cached m k → (k < item_count m)%N.
Proof.
  intros Hrep [it Hk]. apply (rep_slots _ _ Hrep), lookup_lt_Some in Hk.
  rewrite (rep_count _ _ Hrep). unfold len. lia.
Qed.

Lemma insert_items_represents m l index batch m' :
  represents m l → (item_count m + len batch ≤ u64_max)%N →
  (∀ it, it ∈ batch → item_id it ∉ l) →
  insert_items m index batch = Ok m' →
  represents m' (splice (N.to_nat index) (N.to_nat index) (item_id <$> batch) l).
Proof.
  intros Hrep Hcount Hfresh Heq. pose proof (rep_count _ _ Hrep) as Hlen.
  apply insert_items_effect in Heq as (Hi & Hnd & _ & Hwf & Hc & Hslots);
    [|apply Hrep| |done].
  2: { split; [lia|]. intros k Hk%(represents_bound _ _ _ Hrep). lia. }
  unfold len in *. split; [done| | |].
  - rewrite Hc, Hlen. unfold len.
    pose proof (length_splice (N.to_nat index) (N.to_nat index) (item_id <$> batch) l) as Hl.
    rewrite length_fmap in Hl. lia.
  - apply NoDup_splice_insert; [done|apply Hrep|].
    intros x (it & -> & Hit)%list_elem_of_fmap. by apply Hfresh.
  - intros j it Hj. apply Hslots in Hj. rewrite lookup_splice, length_fmap by lia.
    destruct Hj as [[? Hj]|[[? Hj]|[? Hj]]].
    + apply lookup_lt_Some in Hj as Hlt.
      rewrite decide_False, decide_True, list_lookup_fmap by lia.
      replace (N.to_nat j - N.to_nat index) with (N.to_nat (j - index)) by lia. by rewrite Hj.
    + rewrite decide_True by lia. by apply Hrep.
    + rewrite !decide_False by lia. apply Hrep in Hj. rewrite <- Hj. f_equal. lia.
Qed.

Lemma delete_range_represents m l idx cnt m' :
  represents m l → (item_count m ≤ u64_max)%N → (0 < cnt ≤ u64_max)%N →
  delete_range m idx cnt = Ok m' →
  represents m' (splice (N.to_nat idx) (N.to_nat (idx + cnt)) [] l).
Proof.
  intros Hrep Hcount Hcnt Heq. pose proof (rep_count _ _ Hrep) as Hlen.
  apply delete_range_effect in Heq as (Hi & Hwf & Hc & Hslots); [|apply Hrep| |done..].
  2: { intros k Hk%(represents_bound _ _ _ Hrep). lia. }
  unfold len in *. split; [done| | |].
  - rewrite Hc, Hlen. unfold len.
    pose proof (length_splice (N.to_nat idx) (N.to_nat (idx + cnt)) [] l) as Hl.
    cbn [length] in Hl. lia.
  - apply NoDup_splice_delete; [lia|apply Hrep].
  - intros j it Hj. apply Hslots in Hj. rewrite lookup_splice by lia. cbn [length].
    destruct Hj as [[? Hj]|[? Hj]].
    + rewrite decide_True by lia. by apply Hrep.
    + rewrite !decide_False by lia. apply Hrep in Hj. rewrite <- Hj. f_equal. lia.
Qed.

Lemma delete_one_represents m l id :
  represents m l → (item_count m ≤ u64_max)%N → contains_item m id = true →
  represents (delete_one m id) (filter (λ x, x ≠ id) l).
Proof.
  intros Hrep Hcount Hc. unfold contains_item in Hc. apply bool_decide_eq_true in Hc as [idx Hidx].
  pose proof (rep_count _ _ Hrep) as Hlen.
  apply (rep_wf _ _ Hrep) in Hidx as Hit. destruct Hit as (it0 & Hit0 & Hid0).
  assert (idx < item_count m)%N as Hlt by (apply (represents_bound _ l); [done|by exists it0]).
  apply Hrep in Hit0 as Hl0. rewrite Hid0 in Hl0.
  destruct (delete_one_effect m id idx) as (Hwf & Hcnt & Hslots); [apply Hrep| |done|lia|].
  { intros k Hk%(represents_bound _ _ _ Hrep). lia. }
  assert (filter (λ x, x ≠ id) l = splice (N.to_nat idx) (S (N.to_nat idx)) [] l) as ->.
  { pose proof (rep_nodup _ _ Hrep) as Hnd. unfold splice. cbn.
    rewrite <- (take_drop_middle _ _ _ Hl0) in Hnd |- * at 1.
    apply NoDup_app in Hnd as (_ & Hd & [Hn _]%NoDup_cons).
    rewrite filter_app, filter_cons_False by auto.
    fold (retain_ne id (take (N.to_nat idx) l)). fold (retain_ne id (drop (S (N.to_nat idx)) l)).
    rewrite !retain_ne_id; [done|done|]. intros Hin. apply (Hd _ Hin). by left. }
  unfold len in *. apply lookup_lt_Some in Hl0. split; [done| | |].
  - rewrite Hcnt, Hlen.
    pose proof (length_splice (N.to_nat idx) (S (N.to_nat idx)) [] l) as Hs.
    cbn [length] in Hs. unfold len. lia.
  - apply NoDup_splice_delete; [lia|apply Hrep].
  - intros j it Hj. apply Hslots in Hj. rewrite lookup_splice by lia. cbn [length].
    destruct Hj as [[? Hj]|[? Hj]].
    + rewrite decide_True by lia. by apply Hrep.
    + rewrite !decide_False by lia. apply Hrep in Hj. rewrite <- Hj. f_equal. lia.
Qed.

Lemma contains_item_wf m x : cache_wf m →
  contains_item m x = true ↔ ∃ i it, items m !! i = Some it ∧ item_id it = x.
Proof.
  intros Hwf. unfold contains_item. rewrite bool_decide_eq_true. split.
  - intros [i Hi]. exists i. by apply Hwf.
  - intros (i & it & ? & ?). exists i. apply Hwf. eauto.
Qed.

Lemma delete_one_contains m l id x :
  represents m l → (item_count m ≤ u64_max)%N → contains_item m id = true → x ≠ id →
  contains_item m x = true → contains_item (delete_one m id) x = true.
Proof.
  intros Hrep Hcount Hid Hne Hx. pose proof (rep_wf _ _ Hrep) as Hwf.
  assert (Hwf' : cache_wf (delete_one m id)) by (by eapply rep_wf, delete_one_represents).
  unfold contains_item in Hid. apply bool_decide_eq_true in Hid as [idx Hidx].
  apply contains_item_wf in Hx as (i & it & Hi & <-); [|done].
  apply Hwf in Hidx as Hit. destruct Hit as (it0 & Hit0 & Hid0).
  assert (idx < item_count m)%N by (apply (represents_bound _ l); [done|by exists it0]).
  destruct (delete_one_effect m id idx) as (_ & _ & Hslots); [done| |done|lia|].
  { intros k Hk%(represents_bound _ _ _ Hrep). lia. }
  apply contains_item_wf; [done|]. destruct (decide (i < idx)%N) as [|Hge].
  - exists i, it. split; [|done]. apply Hslots. by left.
  - assert (i ≠ idx) by (intros ->; congruence).
    exists (i - 1)%N, it. split; [|done]. apply Hslots. right. split; [lia|].
    by replace (i - 1 + 1)%N with i by lia.
Qed.

Lemma delete_ids_represents m l ids :
  represents m l → (item_count m ≤ u64_max)%N → NoDup ids →
  (∀ id, id ∈ ids → contains_item m id = true) →
  represents (foldl delete_one m ids) (filter (λ x, x ∉ ids) l).
Proof.
  revert m l. induction ids as [|id ids IH]; intros m l Hrep Hcount Hnd Hin; cbn [foldl].
  { erewrite list_filter_iff; [|intros x; instantiate (1 := λ _, True); set_solver].
    enough (filter (λ _ : ItemId, True) l = l) as -> by done.
    clear. induction l; cbn; [done|]. by f_equal. }
  apply NoDup_cons in Hnd as [Hn Hnd].
  assert (contains_item m id = true) as Hid by (apply Hin; by left).
  pose proof (delete_one_represents _ _ _ Hrep Hcount Hid) as Hrep1.
  replace (filter (λ x, x ∉ id :: ids) l) with (filter (λ x, x ∉ ids) (filter (λ x, x ≠ id) l)).
  2: { rewrite list_filter_filter. apply list_filter_iff. intros x. rewrite not_elem_of_cons. tauto. }
  apply IH; [done| |done|].
  - rewrite (rep_count _ _ Hrep1). pose proof (length_filter (λ x, x ≠ id) l).
    rewrite (rep_count _ _ Hrep) in Hcount. unfold len in *. lia.
  - intros x Hx. eapply delete_one_contains; [done..| |apply Hin; by right].
    intros ->. done.
Qed.

Lemma reset_window_represents m l start batch m' :
  represents m l → (item_count m ≤ u64_max)%N → (start + len batch ≤ u64_max)%N →
  NoDup (splice (N.to_nat start) (N.to_nat (start + len batch)) (item_id <$> batch) l) →
  reset_range m start batch None = (m', Ok tt) →
  represents m' (splice (N.to_nat start) (N.to_nat (start + len batch)) (item_id <$> batch) l).
Proof.
  intros Hrep Hcount Hfit Hnd Heq. pose proof (rep_count _ _ Hrep) as Hlen.
  apply reset_range_effect in Heq as (Hi & _ & Hwf & Hc & Hslots); [|apply Hrep|done].
  cbn in Hc. unfold len in *. split; [done| |done|].
  - rewrite Hc, Hlen. unfold len.
    pose proof (length_splice (N.to_nat start) (N.to_nat (start + N.of_nat (length batch)))
      (item_id <$> batch) l) as Hl.
    rewrite length_fmap in *. lia.
  - intros j it Hj. apply Hslots in Hj. rewrite lookup_splice, length_fmap by lia.
    destruct Hj as [[? Hj]|[? Hj]].
    + apply lookup_lt_Some in Hj as Hlt.
      rewrite decide_False, decide_True, list_lookup_fmap by lia.
      replace (N.to_nat j - N.to_nat start) with (N.to_nat (j - start)) by lia. by rewrite Hj.
    + apply Hrep in Hj. case_decide; [done|]. rewrite decide_False by lia.
      rewrite <- Hj. f_equal. lia.
Qed.

Lemma update_by_id_represents m l batch m' :
  represents m l → update_items m None batch = (m', Ok tt) → represents m' l.
Proof.
  intros Hrep Heq. eapply (run_loop_Ok_inv (λ m, represents m l)) in Heq; [done| |done].
  intros m1 [i it] m2 _ Hrep1 H12.
  apply update_one_by_id_effect in H12 as (idx & Hidx & Hwf & Hc & Hi & _); [|apply Hrep1].
  split; [done|by rewrite Hc; apply Hrep1|apply Hrep1|].
  intros j it' Hj. rewrite Hi in Hj. apply lookup_insert_Some in Hj as [[<- <-]|[_ Hj]].
  - apply (rep_wf _ _ Hrep1) in Hidx as (it0 & Hit0 & <-). by apply Hrep1.
  - by apply Hrep1.
Qed.

(** ** Eviction

    The evicted slots are the [count] candidates that are farthest from the
    middle of the window; the window itself and the collection are untouched. *)
Lemma eviction_candidates_NoDup m s e : NoDup (eviction_candidates m s e).
Proof.
  unfold eviction_candidates. rewrite merge_sort_Permutation.
  apply NoDup_filter, NoDup_fst_btree_entries.
Qed.

#[export] Instance farther_first_total mid : Total (farther_first mid).
Proof. intros a b. unfold farther_first. lia. Qed.
#[export] Instance farther_first_trans mid : Transitive (farther_first mid).
Proof. intros a b c. unfold farther_first. lia. Qed.

Lemma evict_lookup m s e n j :
  items (evict_farthest_outside m s e n) !! j =
  if decide (j ∈ take (N.to_nat n) (eviction_candidates m s e)) then None else items m !! j.
Proof.
  unfold evict_farthest_outside. case_match eqn:Hn; [|apply remove_slots_lookup].
  apply N.eqb_eq in Hn as ->. cbn. rewrite decide_False; [done|apply not_elem_of_nil].
Qed.

Lemma evict_represents m l s e n :
  represents m l → represents (evict_farthest_outside m s e n) l.
Proof.
  intros Hrep. split; [by apply evict_wf, Hrep|by rewrite evict_count; apply Hrep|apply Hrep|].
  intros j it. rewrite evict_lookup. case_decide; [done|]. apply Hrep.
Qed.

Lemma remove_slots_size m ks : NoDup ks → (∀ k, k ∈ ks → cached m k) →
  size (items (foldl remove_slot m ks)) + length ks = size (items m).
Proof.
  revert m. induction ks as [|k ks IH]; intros m Hnd Hin; cbn; [lia|].
  apply NoDup_cons in Hnd as [Hk Hnd].
  assert (cached m k) as [it Hit] by (apply Hin; by left).
  assert (∀ k', k' ∈ ks → cached (remove_slot m k) k') as Hin'.
  { intros k' Hk'. unfold cached. rewrite remove_slot_items, lookup_delete_ne by (intros ->; done).
    apply Hin. by right. }
  pose proof (IH _ Hnd Hin') as Hs. rewrite remove_slot_items in Hs.
  rewrite map_size_delete, Hit in Hs. cbn in Hs.
  assert (size (items m) ≠ 0) by (apply map_size_ne_0_lookup_2 with k; by exists it). lia.
Qed.

Lemma evict_size m s e n :
  size (items (evict_farthest_outside m s e n)) +
    Nat.min (N.to_nat n) (length (eviction_candidates m s e)) = size (items m).
Proof.
  unfold evict_farthest_outside. case_match eqn:Hn.
  { apply N.eqb_eq in Hn as ->. cbn. lia. }
  rewrite <- length_take. apply remove_slots_size.
  - pose proof (eviction_candidates_NoDup m s e) as Hnd.
    rewrite <- (take_drop (N.to_nat n) (eviction_candidates m s e)) in Hnd.
    by apply NoDup_app in Hnd as [? _].
  - intros k Hk. apply (elem_of_candidates m s e). by apply (subseteq_take (N.to_nat n)).
Qed.

Lemma evict_farthest m s e n j k :
  cached m j → ¬ cached (evict_farthest_outside m s e n) j →
  cached (evict_farthest_outside m s e n) k → ((k < s)%N ∨ (N.max e s ≤ k)%N) →
  ((j < s)%N ∨ (N.max e s ≤ j)%N) ∧
  farther_first (saturating_add64 s ((N.max e s - s) / 2)) j k.
Proof.
  unfold cached at 2 3. rewrite !evict_lookup. intros Hj Hjn Hk Hout.
  destruct (decide (j ∈ _)) as [Htake|]; [|done]. clear Hjn.
  destruct (decide (k ∈ _)) as [|Hnt]; [by destruct Hk|].
  split.
  { by apply (subseteq_take (N.to_nat n)), elem_of_candidates in Htake as [_ ?]. }
  assert (k ∈ eviction_candidates m s e) as Hin by by apply elem_of_candidates.
  rewrite <- (take_drop (N.to_nat n) (eviction_candidates m s e)) in Hin.
  apply elem_of_app in Hin as [?|Hdrop]; [by destruct Hnt|].
  eapply (StronglySorted_app_1_elem_of (farther_first _)); [|exact Htake|exact Hdrop].
  rewrite take_drop. apply StronglySorted_merge_sort; apply _.
Qed.
