(* ===== verification/Store.v ===== *)
(** * The semantic store

    Models [semantic-tree/src/store/node.rs] and [store/mod.rs]: the node graph
    (a forest kept as a map from id to node with ordered children), the roots,
    the ids ever used, the collection models, the limits and the committed
    revision, with every mutation operation.  Walks over the graph take fuel
    [S (size nodes)]; running out is [Diverge], which [StoreFacts] excludes. *)

From S2P Require Import Prelude.
From S2P Require Import Values.
From S2P Require Import Limits.
From S2P Require Import Models.

(** [pub struct Node] *)
Record Node := mkNode {
  node_id : NodeId;
  node_type : TypeRef;
  parent_id : option NodeId;
  ordered_children : list NodeId;
  properties : gmap PropertyRef Value;
}.

Definition with_children (n : Node) (cs : list NodeId) : Node :=
  mkNode (node_id n) (node_type n) (parent_id n) cs (properties n).
Definition with_parent (n : Node) (p : option NodeId) : Node :=
  mkNode (node_id n) (node_type n) p (ordered_children n) (properties n).
Definition with_properties (n : Node) (ps : gmap PropertyRef Value) : Node :=
  mkNode (node_id n) (node_type n) (parent_id n) (ordered_children n) ps.

(** Collecting pairs into a [HashMap]: a later pair wins. *)
Definition insert_all (m : gmap PropertyRef Value) (ps : list (PropertyRef * Value)) :
    gmap PropertyRef Value :=
  foldl (λ m '(p, v), <[p := v]> m) m ps.

(** [Node::new] *)
Definition Node_new (id : NodeId) (t : TypeRef) (p : option NodeId)
    (ps : list (PropertyRef * Value)) : Node :=
  mkNode id t p [] (insert_all ∅ ps).

Definition get_property (n : Node) (p : PropertyRef) : option Value := properties n !! p.

(** The model a [model_ref] value names, if it is a non-negative integer. *)
Definition value_model_id (v : Value) : option ModelId :=
  match v with
  | VUnsignedInt u => Some (mkModelId u)
  | VSignedInt i => if (0 <=? i)%Z then Some (mkModelId (Z.to_N i)) else None
  | _ => None
  end.

(** [Node::model_ref] *)
Definition model_ref `{Registry} (n : Node) : option ModelId :=
  get_property n MODEL_REF ≫= value_model_id.

(** [pub struct SemanticStore] *)
Record SemanticStore := mkStore {
  nodes : gmap NodeId Node;
  roots : list NodeId;
  used_ids : gset NodeId;
  models : gmap ModelId Model;
  used_model_ids : gset ModelId;
  limits : StoreLimits;
  revision : N;
}.

Definition with_nodes (s : SemanticStore) (ns : gmap NodeId Node) : SemanticStore :=
  mkStore ns (roots s) (used_ids s) (models s) (used_model_ids s) (limits s) (revision s).
Definition with_roots (s : SemanticStore) (rs : list NodeId) : SemanticStore :=
  mkStore (nodes s) rs (used_ids s) (models s) (used_model_ids s) (limits s) (revision s).
Definition with_models (s : SemanticStore) (ms : gmap ModelId Model) : SemanticStore :=
  mkStore (nodes s) (roots s) (used_ids s) ms (used_model_ids s) (limits s) (revision s).

(** [SemanticStore::with_limits_and_revision], [with_limits] *)
Definition with_limits_and_revision (l : StoreLimits) (rev : N) : SemanticStore :=
  mkStore ∅ [] ∅ ∅ ∅ l rev.
Definition with_limits (l : StoreLimits) : SemanticStore := with_limits_and_revision l 0.

(** [SemanticStore::clone_staging] and [commit_staging] *)
Definition clone_staging (s : SemanticStore) : SemanticStore :=
  mkStore (nodes s) (roots s) (used_ids s) (models s) (used_model_ids s) (limits s) (revision s).
Definition commit_staging (s staged : SemanticStore) (new_revision : N) : SemanticStore :=
  mkStore (nodes staged) (roots staged) (used_ids staged) (models staged)
    (used_model_ids staged) (limits s) new_revision.

(** Read accessors. *)
Definition node_count (s : SemanticStore) : N := map_len (nodes s).
Definition contains_node (s : SemanticStore) (id : NodeId) : bool :=
  bool_decide (is_Some (nodes s !! id)).
Definition is_id_used (s : SemanticStore) (id : NodeId) : bool := bool_decide (id ∈ used_ids s).
Definition children_of (s : SemanticStore) (id : NodeId) : option (list NodeId) :=
  ordered_children <$> nodes s !! id.
Definition parent_of (s : SemanticStore) (id : NodeId) : option (option NodeId) :=
  parent_id <$> nodes s !! id.
Definition get_model_for_node `{Registry} (s : SemanticStore) (id : NodeId) : option Model :=
  nodes s !! id ≫= λ n, model_ref n ≫= λ mid, models s !! mid.

(** The hashes in the values of a property map, added to [out]. *)
Definition collect_map (m : gmap PropertyRef Value) (out : gset ResourceHash) : gset ResourceHash :=
  map_fold (λ _ v out, collect_resource_hashes v out) out m.

(** [SemanticStore::referenced_resource_hashes] *)
Definition referenced_resource_hashes (s : SemanticStore) : gset ResourceHash :=
  let hashes := map_fold (λ _ n out, collect_map (properties n) out) ∅ (nodes s) in
  map_fold (λ _ m out,
    map_fold (λ _ it out, collect_map (item_properties it) (collect_resource_hashes (item_value it) out))
      out (items m)) hashes (models s).

(** [SemanticStore::node_depth] *)
Fixpoint node_depth_loop (fuel : nat) (ns : gmap NodeId Node) (current_id : NodeId) (depth : N)
    : result StoreError (option N) :=
  match fuel with
  | O => Diverge
  | S fuel =>
      match ns !! current_id with
      | None => Ok None
      | Some node =>
          let depth := (depth + 1)%N in
          match parent_id node with
          | Some parent => node_depth_loop fuel ns parent depth
          | None => Ok (Some depth)
          end
      end
  end.
Definition node_depth (s : SemanticStore) (id : NodeId) : result StoreError (option N) :=
  node_depth_loop (S (size (nodes s))) (nodes s) id 0.

(** [SemanticStore::subtree_depth] *)
Fixpoint subtree_depth_rec (fuel : nat) (ns : gmap NodeId Node) (id : NodeId) : result StoreError N :=
  match fuel with
  | O => Diverge
  | S fuel =>
      max_child_depth ←
        match ns !! id with
        | Some node =>
            try_fold (λ best child_id,
              child_depth ← subtree_depth_rec fuel ns child_id;
              Ok (if (best <? child_depth)%N then child_depth else best)) 0%N (ordered_children node)
        | None => Ok 0%N
        end;
      Ok (1 + max_child_depth)%N
  end.
Definition subtree_depth (s : SemanticStore) (id : NodeId) : result StoreError N :=
  subtree_depth_rec (S (size (nodes s))) (nodes s) id.

(** [SemanticStore::validate_property_references] *)
Definition validate_property_references `{Registry} (s : SemanticStore) (prop : PropertyRef) (val : Value)
    : result StoreError unit :=
  if bool_decide (prop = MODEL_REF) then
    mid ← match value_model_id val with
          | Some mid => Ok mid
          | None => Err (OperationError "model_ref property must be a non-negative integer")
          end;
    err_if (negb (bool_decide (is_Some (models s !! mid)))) (ModelNotFound mid)
  else Ok tt.

(** The loop that validates a property list before any write. *)
Definition validate_properties `{Registry} (s : SemanticStore) (ps : list (PropertyRef * Value))
    : result StoreError unit :=
  for_each (λ '(prop, val),
    validate_value (limits s) val ≫= λ _, validate_property_references s prop val) ps.

(** [SemanticStore::create_node] *)
Definition create_node `{Registry} (s : SemanticStore) (id : NodeId) (t : TypeRef)
    (parent : option NodeId) (child_index : option N) (ps : list (PropertyRef * Value))
    : result StoreError SemanticStore :=
  err_if (bool_decide (id ∈ used_ids s)) (NodeIdAlreadyUsed id) ≫= λ _,
  err_if (max_node_count (limits s) <=? map_len (nodes s))%N
    (MaxNodeCountExceeded (max_node_count (limits s)) (map_len (nodes s))) ≫= λ _,
  depth ← match parent with
          | Some pid =>
              found ← node_depth s pid;
              parent_depth ← ok_or (ParentNotFound pid) found;
              let target_depth := (parent_depth + 1)%N in
              err_if (max_tree_depth (limits s) <? target_depth)%N
                (MaxTreeDepthExceeded (max_tree_depth (limits s)) target_depth) ≫= λ _,
              Ok target_depth
          | None => Ok 1%N
          end;
  err_if (max_tree_depth (limits s) <? depth)%N
    (MaxTreeDepthExceeded (max_tree_depth (limits s)) depth) ≫= λ _,
  validate_properties s ps ≫= λ _,
  match parent with
  | Some pid =>
      parent_node ← expect (nodes s !! pid);
      match child_index with
      | Some idx => err_if (len (ordered_children parent_node) <? idx)%N
          (ChildIndexOutOfBounds idx (len (ordered_children parent_node)))
      | None => Ok tt
      end
  | None => Ok tt
  end ≫= λ _,
  s1 ← match parent with
       | Some pid =>
           parent_node ← expect (nodes s !! pid);
           let cs := match child_index with
                     | Some idx => vec_insert idx id (ordered_children parent_node)
                     | None => ordered_children parent_node ++ [id]
                     end in
           Ok (with_nodes s (<[pid := with_children parent_node cs]> (nodes s)))
       | None =>
           match child_index with
           | Some idx =>
               err_if (len (roots s) <? idx)%N (ChildIndexOutOfBounds idx (len (roots s))) ≫= λ _,
               Ok (with_roots s (vec_insert idx id (roots s)))
           | None => Ok (with_roots s (roots s ++ [id]))
           end
       end;
  Ok (mkStore (<[id := Node_new id t parent ps]> (nodes s1)) (roots s1) ({[id]} ∪ used_ids s1)
        (models s1) (used_model_ids s1) (limits s1) (revision s1)).

(** [SemanticStore::delete_subtree_recursive], over the node map and [deleted]. *)
Fixpoint delete_subtree_recursive (fuel : nat) (st : gmap NodeId Node * list NodeId) (id : NodeId)
    : result StoreError (gmap NodeId Node * list NodeId) :=
  match fuel with
  | O => Diverge
  | S fuel =>
      let '(ns, deleted) := st in
      match ns !! id with
      | Some node =>
          try_fold (delete_subtree_recursive fuel) (delete id ns, deleted ++ [id])
            (ordered_children node)
      | None => Ok (ns, deleted)
      end
  end.

(** Taking [id] out of its parent's children, or out of the roots; shared by
    [delete_node] and [move_node]. *)
Definition detach (s : SemanticStore) (old_parent : option NodeId) (id : NodeId) : SemanticStore :=
  match old_parent with
  | Some pid =>
      match nodes s !! pid with
      | Some parent_node => with_nodes s
          (<[pid := with_children parent_node (retain_ne id (ordered_children parent_node))]> (nodes s))
      | None => s
      end
  | None => with_roots s (retain_ne id (roots s))
  end.

(** [SemanticStore::delete_node]: the new store and the deleted ids. *)
Definition delete_node (s : SemanticStore) (id : NodeId)
    : result StoreError (SemanticStore * list NodeId) :=
  node ← ok_or (NodeNotFound id) (nodes s !! id);
  let s1 := detach s (parent_id node) id in
  '(ns, deleted) ← delete_subtree_recursive (S (size (nodes s1))) (nodes s1, []) id;
  Ok (with_nodes s1 ns, deleted).

(** [SemanticStore::set_property]: the new store and the previous value. *)
Definition set_property `{Registry} (s : SemanticStore) (id : NodeId) (prop : PropertyRef) (val : Value)
    : result StoreError (SemanticStore * option Value) :=
  validate_value (limits s) val ≫= λ _,
  validate_property_references s prop val ≫= λ _,
  node ← ok_or (NodeNotFound id) (nodes s !! id);
  Ok (with_nodes s (<[id := with_properties node (<[prop := val]> (properties node))]> (nodes s)),
      properties node !! prop).

(** [SemanticStore::clear_property] *)
Definition clear_property (s : SemanticStore) (id : NodeId) (prop : PropertyRef)
    : result StoreError (SemanticStore * option Value) :=
  node ← ok_or (NodeNotFound id) (nodes s !! id);
  Ok (with_nodes s (<[id := with_properties node (delete prop (properties node))]> (nodes s)),
      properties node !! prop).

(** [SemanticStore::batch_property_set] *)
Definition batch_property_set `{Registry} (s : SemanticStore) (id : NodeId) (ps : list (PropertyRef * Value))
    : result StoreError SemanticStore :=
  validate_properties s ps ≫= λ _,
  node ← ok_or (NodeNotFound id) (nodes s !! id);
  Ok (with_nodes s (<[id := with_properties node (insert_all (properties node) ps)]> (nodes s))).

(** The ancestor walk of [move_node]: does it meet [id] above [curr]? *)
Fixpoint meets_ancestor (fuel : nat) (ns : gmap NodeId Node) (id curr : NodeId) : result StoreError bool :=
  match fuel with
  | O => Diverge
  | S fuel =>
      match ns !! curr with
      | Some parent_node =>
          match parent_id parent_node with
          | Some pid => if bool_decide (pid = id) then Ok true else meets_ancestor fuel ns id pid
          | None => Ok false
          end
      | None => Ok false
      end
  end.

(** Step 1 of [move_node]. *)
Definition check_cycle (s : SemanticStore) (id : NodeId) (new_parent : option NodeId)
    : result StoreError unit :=
  match new_parent with
  | Some target_parent =>
      err_if (bool_decide (target_parent = id)) (CycleDetected id target_parent) ≫= λ _,
      hit ← meets_ancestor (S (size (nodes s))) (nodes s) id target_parent;
      err_if hit (CycleDetected id target_parent)
  | None => Ok tt
  end.

(** Steps 4 to 6 of [move_node]. *)
Definition relocate (s : SemanticStore) (id : NodeId) (old_parent new_parent : option NodeId)
    (new_child_index : option N) : result StoreError SemanticStore :=
  let s1 := detach s old_parent id in
  let place (l : list NodeId) :=
    match new_child_index with
    | Some idx => vec_insert (N.min idx (len l)) id l
    | None => l ++ [id]
    end in
  s2 ← match new_parent with
       | Some pid =>
           parent_node ← expect (nodes s1 !! pid);
           Ok (with_nodes s1
             (<[pid := with_children parent_node (place (ordered_children parent_node))]> (nodes s1)))
       | None => Ok (with_roots s1 (place (roots s1)))
       end;
  node ← expect (nodes s2 !! id);
  Ok (with_nodes s2 (<[id := with_parent node new_parent]> (nodes s2))).

(** [SemanticStore::move_node] *)
Definition move_node (s : SemanticStore) (id : NodeId) (new_parent : option NodeId)
    (new_child_index : option N) : result StoreError SemanticStore :=
  err_if (negb (contains_node s id)) (NodeNotFound id) ≫= λ _,
  check_cycle s id new_parent ≫= λ _,
  sub_depth ← subtree_depth s id;
  new_parent_depth ← match new_parent with
                     | Some pid => found ← node_depth s pid; ok_or (ParentNotFound pid) found
                     | None => Ok 0%N
                     end;
  let new_total_depth := (new_parent_depth + sub_depth)%N in
  err_if (max_tree_depth (limits s) <? new_total_depth)%N
    (MaxTreeDepthExceeded (max_tree_depth (limits s)) new_total_depth) ≫= λ _,
  node ← expect (nodes s !! id);
  current_dest_len ← match new_parent with
                     | Some pid => parent_node ← expect (nodes s !! pid);
                         Ok (len (ordered_children parent_node))
                     | None => Ok (len (roots s))
                     end;
  match new_child_index with
  | Some idx => err_if (current_dest_len <? idx)%N (ChildIndexOutOfBounds idx current_dest_len)
  | None => Ok tt
  end ≫= λ _,
  relocate s id (parent_id node) new_parent new_child_index.

(** The membership and duplicate loop of [reorder_children]. *)
Fixpoint check_permutation (parent : NodeId) (curr new_set : gset NodeId) (new_order : list NodeId)
    : result StoreError unit :=
  match new_order with
  | [] => Ok tt
  | child :: rest =>
      err_if (negb (bool_decide (child ∈ curr)))
        (InvalidChildrenReorder parent ("child " +:+ NodeId_display child +:+
           " is not a child of parent " +:+ NodeId_display parent)) ≫= λ _,
      err_if (bool_decide (child ∈ new_set))
        (InvalidChildrenReorder parent ("duplicate child " +:+ NodeId_display child +:+
           " in permutation list")) ≫= λ _,
      check_permutation parent curr ({[child]} ∪ new_set) rest
  end.

(** [SemanticStore::reorder_children] *)
Definition reorder_children (s : SemanticStore) (parent : NodeId) (new_order : list NodeId)
    : result StoreError SemanticStore :=
  parent_node ← ok_or (ParentNotFound parent) (nodes s !! parent);
  let current := ordered_children parent_node in
  err_if (negb (len new_order =? len current)%N)
    (InvalidChildrenReorder parent ("expected " +:+ pretty (len current) +:+ " children, got " +:+
       pretty (len new_order))) ≫= λ _,
  check_permutation parent (list_to_set current) ∅ new_order ≫= λ _,
  Ok (with_nodes s (<[parent := with_children parent_node new_order]> (nodes s))).

(** [SemanticStore::create_model] *)
Definition create_model (s : SemanticStore) (id : ModelId) (t : TypeRef) (count : N)
    : result StoreError SemanticStore :=
  err_if (bool_decide (id ∈ used_model_ids s)) (ModelIdAlreadyUsed id) ≫= λ _,
  err_if (max_model_count (limits s) <=? map_len (models s))%N
    (MaxModelCountExceeded (max_model_count (limits s)) (map_len (models s))) ≫= λ _,
  Ok (mkStore (nodes s) (roots s) (used_ids s) (<[id := Model_new id t count]> (models s))
        ({[id]} ∪ used_model_ids s) (limits s) (revision s)).

(** [SemanticStore::delete_model] *)
Definition delete_model (s : SemanticStore) (id : ModelId)
    : result StoreError (SemanticStore * option Model) :=
  err_if (negb (bool_decide (is_Some (models s !! id)))) (ModelNotFound id) ≫= λ _,
  Ok (with_models s (delete id (models s)), models s !! id).

(** The properties of an item are in a [HashMap], which is iterated in an order the
    standard library leaves open. *)
Class PropertyIter := {
  iter_properties : gmap PropertyRef Value → list (PropertyRef * Value);
  iter_properties_perm m : iter_properties m ≡ₚ map_to_list m;
}.

(** The value checks shared by the three item operations. *)
Definition validate_items `{PropertyIter} (l : StoreLimits) (batch : list ModelItem) : result StoreError unit :=
  for_each (λ item,
    validate_value l (item_value item) ≫= λ _,
    for_each (validate_value l) (iter_properties (item_properties item)).*2) batch.

(** [SemanticStore::model_insert] *)
Definition model_insert `{PropertyIter} (s : SemanticStore) (id : ModelId) (index : N) (batch : list ModelItem)
    : result StoreError SemanticStore :=
  validate_model_items_batch (limits s) (len batch) ≫= λ _,
  validate_items (limits s) batch ≫= λ _,
  m ← ok_or (ModelNotFound id) (models s !! id);
  let projected_cached := (cached_item_count m + len batch)%N in
  err_if (max_cached_items_per_model (limits s) <? projected_cached)%N
    (MaxCachedItemsPerModelExceeded (max_cached_items_per_model (limits s))
       (cached_item_count m) projected_cached) ≫= λ _,
  m' ← insert_items m index batch;
  Ok (with_models s (<[id := m']> (models s))).

(** [SemanticStore::model_delete] *)
Definition model_delete (s : SemanticStore) (id : ModelId) (index count : option N) (ids : list ItemId)
    : result StoreError SemanticStore :=
  validate_model_items_batch (limits s) (len ids) ≫= λ _,
  m ← ok_or (ModelNotFound id) (models s !! id);
  m' ← delete_items m index count ids;
  Ok (with_models s (<[id := m']> (models s))).

(** A call [model.f(..)] on the model [id] of the store, whose partial effects
    stay in the store whatever it returns. *)
Definition on_model (s : SemanticStore) (id : ModelId) (out : Model * result StoreError unit)
    : SemanticStore * result StoreError unit :=
  (with_models s (<[id := out.1]> (models s)), out.2).

(** [SemanticStore::model_update] *)
Definition model_update `{PropertyIter} (s : SemanticStore) (id : ModelId) (index : option N) (batch : list ModelItem)
    : SemanticStore * result StoreError unit :=
  match (validate_model_items_batch (limits s) (len batch) ≫= λ _,
         validate_items (limits s) batch ≫= λ _,
         ok_or (ModelNotFound id) (models s !! id)) with
  | Ok m => on_model s id (update_items m index batch)
  | Err e => (s, Err e)
  | Panic => (s, Panic)
  | Diverge => (s, Diverge)
  end.

(** The cached items [model_reset_range] would hold: [projected]. *)
Definition projected_cached (m : Model) (start_index end_index n : N) : N :=
  let overlap :=
    len (filter (λ k, (start_index ≤ k)%N ∧ (k < end_index)%N) (btree_entries (items m)).*1) in
  (cached_item_count m - overlap + n)%N.

(** The body of [model_reset_range] once the model is found: evict if the cache
    would overflow, give up if that is not enough, then replace the window. *)
Definition reset_with_eviction (l : StoreLimits) (m : Model) (start_index : N) (batch : list ModelItem)
    (total_count : option N) : Model * result StoreError unit :=
  let end_index := saturating_add64 start_index (len batch) in
  let projected m := projected_cached m start_index end_index (len batch) in
  let limit := max_cached_items_per_model l in
  let m1 := if (limit <? projected m)%N
            then evict_farthest_outside m start_index end_index (projected m - limit)
            else m in
  if (limit <? projected m1)%N
  then (m1, Err (MaxCachedItemsPerModelExceeded limit (cached_item_count m1) (projected m1)))
  else reset_range m1 start_index batch total_count.

(** [SemanticStore::model_reset_range] *)
Definition model_reset_range `{PropertyIter} (s : SemanticStore) (id : ModelId) (start_index : N) (batch : list ModelItem)
    (total_count : option N) : SemanticStore * result StoreError unit :=
  match (validate_model_items_batch (limits s) (len batch) ≫= λ _,
         validate_items (limits s) batch ≫= λ _,
         ok_or (ModelNotFound id) (models s !! id)) with
  | Ok m => on_model s id (reset_with_eviction (limits s) m start_index batch total_count)
  | Err e => (s, Err e)
  | Panic => (s, Panic)
  | Diverge => (s, Diverge)
  end.
