(* ===== verification/StoreFacts.v ===== *)
(** * The node graph: invariant, walks and termination

    The shape of the graph seen through parent pointers alone: depth, descendants,
    and what cutting, adding or re-hanging a subtree does to them.  [forest] says
    that the node map, its child lists and the roots describe one forest; under it
    every walk of the store ends within its fuel and computes what its name says.
    Then hooking a node into the forest and unhooking it again, stated once over
    child lists and parent maps and used for [create_node], [delete_node] and
    [move_node]. *)

From S2P Require Import Prelude.
From S2P Require Import Values.
From S2P Require Import Limits.
From S2P Require Import Models.
From S2P Require Import Store.

Abbreviation pmap := (gmap NodeId (option NodeId)).

(** [depth pm i d]: the chain of parents from [i] reaches a root after [d] nodes. *)
Inductive depth (pm : pmap) : NodeId → nat → Prop :=
| depth_root i : pm !! i = Some None → depth pm i 1
| depth_step i p d : pm !! i = Some (Some p) → depth pm p d → depth pm i (S d).

(** [under pm a i]: following parents from [i] meets [a]; [i] is in [a]'s subtree. *)
Inductive under (pm : pmap) (a : NodeId) : NodeId → Prop :=
| under_refl : under pm a a
| under_step i p : pm !! i = Some (Some p) → under pm a p → under pm a i.

(** Every node has a depth: no dangling parent, no cycle. *)
Definition rooted (pm : pmap) : Prop := ∀ i, is_Some (pm !! i) → ∃ d, depth pm i d.

Create HintDb forest.
#[export] Hint Constructors depth under : forest.

Section parent_map.
Context (pm : pmap).

Lemma depth_fun i d d' : depth pm i d → depth pm i d' → d = d'.
Proof.
  intros H. revert d'. induction H as [i Hi|i p d Hi _ IH]; intros d'; inversion 1; subst;
    simplify_eq; auto.
Qed.

Lemma depth_pos i d : depth pm i d → 0 < d.
Proof. destruct 1; lia. Qed.

Lemma depth_lookup i d : depth pm i d → is_Some (pm !! i).
Proof. destruct 1; eauto. Qed.

Lemma depth_parent i p d : pm !! i = Some (Some p) → depth pm i d →
  ∃ d', d = S d' ∧ depth pm p d'.
Proof. intros Hi. destruct 1; simplify_eq. eauto. Qed.

Lemma under_trans a b i : under pm a b → under pm b i → under pm a i.
Proof. intros Hab. induction 1; eauto with forest. Qed.

Lemma under_lookup a i : is_Some (pm !! a) → under pm a i → is_Some (pm !! i).
Proof. intros Ha. destruct 1; eauto. Qed.

(** Inside a subtree the depth grows with the distance to its top. *)
Lemma under_depth a i da di :
  under pm a i → depth pm a da → depth pm i di → da ≤ di ∧ (da = di → a = i).
Proof.
  intros Hu Ha. revert di. induction Hu as [|i p Hi _ IH]; intros di Hdi.
  - rewrite (depth_fun _ _ _ Ha Hdi). done.
  - apply (depth_parent _ _ _ Hi) in Hdi as (d' & -> & Hp). destruct (IH _ Hp). split; lia.
Qed.

Lemma under_top_depth a i d : under pm a i → depth pm i d → ∃ da, depth pm a da.
Proof.
  intros Hu. revert d. induction Hu as [|i p Hi _ IH]; intros d Hd; [eauto|].
  apply (depth_parent _ _ _ Hi) in Hd as (d' & _ & Hd). eauto.
Qed.

Lemma under_antisym a i da : depth pm a da → under pm a i → under pm i a → a = i.
Proof.
  intros Ha Hai Hia. destruct (under_top_depth _ _ _ Hia Ha) as [di Hi].
  destruct (under_depth _ _ _ _ Hai Ha Hi) as [? Heq].
  destruct (under_depth _ _ _ _ Hia Hi Ha). apply Heq. lia.
Qed.

(** A child is never above its own parent. *)
Lemma under_parent_absurd i p d : depth pm i d → pm !! i = Some (Some p) → ¬ under pm i p.
Proof.
  intros Hi Hp Hu. apply (depth_parent _ _ _ Hp) in Hi as Hd. destruct Hd as (d' & -> & Hd').
  destruct (under_depth _ _ _ _ Hu Hi Hd'). lia.
Qed.

(** Two ancestors of one node are comparable. *)
Lemma under_linear a b i : under pm a i → under pm b i → under pm a b ∨ under pm b a.
Proof.
  intros Ha. revert b. induction Ha as [|i p Hi Hp IH]; intros b Hb.
  - by right.
  - inversion Hb; subst; simplify_eq; [left; eauto with forest|by apply IH].
Qed.

(** The subtrees of two siblings share no node. *)
Lemma under_siblings a b p i d :
  pm !! a = Some (Some p) → pm !! b = Some (Some p) → depth pm p d →
  under pm a i → under pm b i → a = b.
Proof.
  intros Ha Hb Hd Hai Hbi.
  assert (depth pm a (S d)) as Hda by eauto with forest.
  assert (depth pm b (S d)) as Hdb by eauto with forest.
  destruct (under_linear _ _ _ Hai Hbi) as [Hu|Hu].
  - destruct (under_depth _ _ _ _ Hu Hda Hdb). auto.
  - destruct (under_depth _ _ _ _ Hu Hdb Hda). symmetry. auto.
Qed.

(** A subtree is its top and the subtrees of the top's children. *)
Lemma under_child a i : under pm a i ↔ i = a ∨ ∃ c, pm !! c = Some (Some a) ∧ under pm c i.
Proof.
  split.
  - induction 1 as [|i p Hi _ [->|(c & Hc & Hu)]]; [by left| |].
    + right. exists i. auto with forest.
    + right. exists c. eauto with forest.
  - intros [->|(c & Hc & Hu)]; [constructor|]. apply under_trans with c; eauto with forest.
Qed.

(** Chains of parents have no repetition, so they are no longer than the map. *)
Lemma depth_path i d : depth pm i d →
  ∃ l, length l = d ∧ NoDup l ∧ ∀ j, j ∈ l → is_Some (pm !! j) ∧ ∃ d', depth pm j d' ∧ d' ≤ d.
Proof.
  induction 1 as [i Hi|i p d Hi Hd (l & Hl & Hnd & Hall)].
  - exists [i]. split_and!; [done|apply NoDup_singleton|].
    intros j ->%list_elem_of_singleton. eauto with forest.
  - exists (i :: l). cbn. split_and!; [lia| |].
    + apply NoDup_cons. split; [|done]. intros Hin. destruct (Hall _ Hin) as (_ & d' & Hd' & ?).
      pose proof (depth_fun i d' (S d) Hd' ltac:(eauto with forest)). lia.
    + intros j [->|Hj]%elem_of_cons; [split; eauto with forest|].
      destruct (Hall _ Hj) as (? & d' & ? & ?). split; [done|]. exists d'. split; [done|lia].
Qed.

Lemma depth_size i d : depth pm i d → d ≤ size pm.
Proof.
  intros (l & <- & Hnd & Hall)%depth_path.
  rewrite <- size_dom, <- (size_list_to_set (C:=gset NodeId)) by done.
  apply subseteq_size. intros j Hj%elem_of_list_to_set. apply elem_of_dom, Hall, Hj.
Qed.

End parent_map.

(** ** Adding a leaf *)
Section add_leaf.
Context (pm : pmap) (i : NodeId) (parent : option NodeId).
Context (Hfresh : pm !! i = None).

Lemma depth_add_other j d : depth pm j d → depth (<[i := parent]> pm) j d.
Proof using All.
  induction 1 as [j Hj|j p d Hj _ IH].
  - apply depth_root. rewrite lookup_insert_ne; [done|]. intros ->. congruence.
  - apply depth_step with p; [|done]. rewrite lookup_insert_ne; [done|]. intros ->. congruence.
Qed.

End add_leaf.

Lemma rooted_add_leaf pm i parent :
  pm !! i = None → (∀ p, parent = Some p → is_Some (pm !! p)) →
  rooted pm → rooted (<[i := parent]> pm).
Proof.
  intros Hfresh Hp Hr j [v Hv]. destruct (decide (i = j)) as [<-|Hne].
  - destruct parent as [p|].
    + destruct (Hr p) as [d Hd]; [by apply Hp|]. exists (S d).
      apply depth_step with p; [apply lookup_insert_eq|by apply depth_add_other].
    + exists 1. apply depth_root, lookup_insert_eq.
  - rewrite lookup_insert_ne in Hv by done. destruct (Hr j) as [d Hd]; [eauto|].
    exists d. by apply depth_add_other.
Qed.

(** ** Cutting a subtree *)
Section cut.
Context (pm pm' : pmap) (a : NodeId).
Context (Hcut : ∀ j, ¬ under pm a j → pm' !! j = pm !! j).
Context (Hgone : ∀ j, under pm a j → pm' !! j = None).

Lemma depth_cut j d : ¬ under pm a j → depth pm j d → depth pm' j d.
Proof using Hcut.
  intros Hj. induction 1 as [j H|j p d H _ IH].
  - apply depth_root. by rewrite Hcut.
  - apply depth_step with p; [by rewrite Hcut|]. apply IH. intros Hp. apply Hj. eauto with forest.
Qed.

Lemma depth_cut_inv j d : depth pm' j d → depth pm j d.
Proof using All.
  assert (∀ k, is_Some (pm' !! k) → pm' !! k = pm !! k) as Hk.
  { intros k [v Hv]. apply Hcut. intros Hu%Hgone. congruence. }
  induction 1 as [j H|j p d H _ IH].
  - apply depth_root. rewrite <- Hk; eauto.
  - apply depth_step with p; [|done]. rewrite <- Hk; eauto.
Qed.

Lemma rooted_cut : rooted pm → rooted pm'.
Proof using All.
  intros Hr j [v Hv]. assert (¬ under pm a j) as Hu by (intros Hu%Hgone; congruence).
  rewrite Hcut in Hv by done. destruct (Hr j) as [d Hd]; [eauto|].
  exists d. by apply depth_cut.
Qed.
End cut.

(** ** Re-hanging a subtree under another parent *)
Section move.
Context (pm : pmap) (i : NodeId) (new_parent : option NodeId).

Lemma depth_move_outside j d : ¬ under pm i j → depth pm j d →
  depth (<[i := new_parent]> pm) j d.
Proof using Type.
  intros Hj. induction 1 as [j H|j p d H _ IH].
  - apply depth_root. rewrite lookup_insert_ne; [done|]. intros ->. apply Hj. constructor.
  - apply depth_step with p.
    + rewrite lookup_insert_ne; [done|]. intros ->. apply Hj. constructor.
    + apply IH. intros Hp. apply Hj. eauto with forest.
Qed.

Lemma depth_move_inside j di dj d' : under pm i j → depth pm i di → depth pm j dj →
  depth (<[i := new_parent]> pm) i d' → depth (<[i := new_parent]> pm) j (d' + (dj - di)).
Proof using Type.
  intros Hu Hi Hj Hd'. revert dj Hj. induction Hu as [|j p Hj' Hu IH]; intros dj Hj.
  - rewrite (depth_fun _ _ _ _ Hj Hi). by replace (d' + (di - di)) with d' by lia.
  - apply (depth_parent _ _ _ _ Hj') in Hj as (d & -> & Hp).
    destruct (under_depth _ _ _ _ _ Hu Hi Hp) as [? _].
    destruct (decide (j = i)) as [->|Hne].
    { destruct (under_depth pm i p di d); [done..|].
      assert (depth pm i (S d)) as Hi' by eauto with forest.
      pose proof (depth_fun _ _ _ _ Hi Hi'). lia. }
    replace (d' + (S d - di)) with (S (d' + (d - di))) by lia.
    apply depth_step with p; [by rewrite lookup_insert_ne|by apply IH].
Qed.
End move.

Lemma depth_move_self pm i new_parent dp :
  (∀ p, new_parent = Some p → ¬ under pm i p) →
  match new_parent with Some p => depth pm p dp | None => dp = 0 end →
  depth (<[i := new_parent]> pm) i (S dp).
Proof.
  intros Hnew Hd. destruct new_parent as [p|].
  - apply depth_step with p; [apply lookup_insert_eq|].
    apply depth_move_outside; [|done]. by apply Hnew.
  - subst. apply depth_root, lookup_insert_eq.
Qed.

Lemma under_dec_depth pm i j d : depth pm j d → under pm i j ∨ ¬ under pm i j.
Proof.
  induction 1 as [j H|j p d H _ [IH|IH]].
  - destruct (decide (i = j)) as [->|]; [left; constructor|right]. inversion 1; congruence.
  - left. eauto with forest.
  - destruct (decide (i = j)) as [->|]; [left; constructor|right]. inversion 1; simplify_eq; done.
Qed.

Lemma rooted_move pm i new_parent :
  (∀ p, new_parent = Some p → ¬ under pm i p) → is_Some (pm !! i) →
  (∀ p, new_parent = Some p → is_Some (pm !! p)) →
  rooted pm → rooted (<[i := new_parent]> pm).
Proof.
  intros Hnew Hi Hex Hr. destruct (Hr i Hi) as [di Hdi].
  assert (∃ dp, match new_parent with Some p => depth pm p dp | None => dp = 0 end) as [dp Hdp].
  { destruct new_parent as [p|]; [|eauto]. by apply Hr, Hex. }
  intros j [v Hv].
  assert (is_Some (pm !! j)) as Hjs.
  { apply lookup_insert_Some in Hv as [[<- _]|[_ ?]]; eauto. }
  destruct (Hr j Hjs) as [dj Hdj].
  destruct (under_dec_depth pm i j dj Hdj) as [Hu|Hu].
  - eexists. eapply depth_move_inside; [done..|]. by apply depth_move_self.
  - eexists. by apply depth_move_outside.
Qed.

(** ** The node graph: invariant, walks and termination

    [forest] says that the node map, its child lists and the roots describe one
    forest.  Under it every walk of the store ends within its fuel and computes
    what its name says. *)

(** The parent pointers of a node map. *)
Definition parents (ns : gmap NodeId Node) : pmap := parent_id <$> ns.
#[global] Arguments parents : simpl never.

Lemma parents_lookup ns i : parents ns !! i = parent_id <$> ns !! i.
Proof. apply lookup_fmap. Qed.

Lemma parents_Some ns i p :
  parents ns !! i = Some p ↔ ∃ n, ns !! i = Some n ∧ parent_id n = p.
Proof. rewrite parents_lookup, fmap_Some. naive_solver. Qed.

Lemma parents_is_Some ns i : is_Some (parents ns !! i) ↔ is_Some (ns !! i).
Proof. rewrite parents_lookup. apply fmap_is_Some. Qed.

Lemma parents_None ns i : parents ns !! i = None ↔ ns !! i = None.
Proof. rewrite parents_lookup. apply fmap_None. Qed.

Lemma parents_size ns : size (parents ns) = size ns.
Proof. apply map_size_fmap. Qed.

Lemma parents_insert ns i n : parents (<[i := n]> ns) = <[i := parent_id n]> (parents ns).
Proof. apply fmap_insert. Qed.

Lemma parents_delete ns i : parents (delete i ns) = delete i (parents ns).
Proof. apply fmap_delete. Qed.

(** Rewriting a node without touching its parent keeps the parent map. *)
Lemma parents_update ns i n n' : ns !! i = Some n → parent_id n' = parent_id n →
  parents (<[i := n']> ns) = parents ns.
Proof.
  intros Hi Hp. rewrite parents_insert, Hp. apply insert_id, parents_Some. eauto.
Qed.

(** Children and parents agree at [p]: its child list is exactly the nodes whose
    parent it is, each once. *)
Definition kids_ok (ns : gmap NodeId Node) (p : NodeId) : Prop :=
  ∀ n, ns !! p = Some n → NoDup (ordered_children n) ∧
    ∀ c, c ∈ ordered_children n ↔ parents ns !! c = Some (Some p).

Record forest (ns : gmap NodeId Node) (rs : list NodeId) : Prop := {
  forest_key : ∀ i n, ns !! i = Some n → node_id n = i;
  forest_roots_nodup : NoDup rs;
  forest_roots : ∀ r, r ∈ rs ↔ parents ns !! r = Some None;
  forest_kids : ∀ p, kids_ok ns p;
  forest_rooted : rooted (parents ns);
}.

Lemma forest_empty : forest ∅ [].
Proof.
  split; try (intros; by rewrite lookup_empty in *).
  - constructor.
  - intros r. rewrite parents_lookup, lookup_empty, elem_of_nil. done.
  - intros p n. by rewrite lookup_empty.
  - intros i [v Hv]. by rewrite parents_lookup, lookup_empty in Hv.
Qed.

(** ** [node_depth] and the ancestor walk *)

Lemma node_depth_loop_depth ns i d fuel acc :
  depth (parents ns) i d → d ≤ fuel →
  node_depth_loop fuel ns i acc = Ok (Some (acc + N.of_nat d)%N).
Proof.
  intros Hd. revert fuel acc. induction Hd as [i Hi|i p d Hi _ IH]; intros fuel acc Hf;
    (destruct fuel as [|fuel]; [lia|]); cbn;
    apply parents_Some in Hi as (n & -> & ->).
  - done.
  - rewrite IH by lia. do 2 f_equal. lia.
Qed.

Lemma node_depth_Some s i d : depth (parents (nodes s)) i d →
  node_depth s i = Ok (Some (N.of_nat d)).
Proof.
  intros Hd. unfold node_depth. erewrite node_depth_loop_depth; [done|done|].
  apply depth_size in Hd. rewrite parents_size in Hd. lia.
Qed.

Lemma node_depth_None s i : nodes s !! i = None → node_depth s i = Ok None.
Proof. intros Hi. unfold node_depth. cbn. by rewrite Hi. Qed.

Lemma node_depth_cases s i : rooted (parents (nodes s)) →
  nodes s !! i = None ∧ node_depth s i = Ok None ∨
  ∃ d, depth (parents (nodes s)) i d ∧ node_depth s i = Ok (Some (N.of_nat d)).
Proof.
  intros Hr. destruct (nodes s !! i) as [n|] eqn:Hi.
  - right. destruct (Hr i) as [d Hd]; [apply parents_is_Some; eauto|].
    exists d. split; [done|by apply node_depth_Some].
  - left. split; [done|by apply node_depth_None].
Qed.

(** The walk of [move_node] meets [i] above [curr] exactly when [curr] lies
    strictly inside the subtree of [i]. *)
Lemma meets_ancestor_spec ns i curr d fuel :
  depth (parents ns) curr d → d ≤ fuel → curr ≠ i →
  ∃ b, meets_ancestor fuel ns i curr = Ok b ∧ (b = true ↔ under (parents ns) i curr).
Proof.
  intros Hd. revert fuel. induction Hd as [c Hc|c p d Hc _ IH]; intros fuel Hf Hne;
    (destruct fuel as [|fuel]; [lia|]); cbn;
    pose proof Hc as (n & Hn & Hp)%parents_Some; rewrite Hn, Hp.
  - exists false. split; [done|]. split; [done|]. inversion 1; simplify_eq.
  - case_bool_decide as Hpi.
    + subst p. exists true. split; [done|]. split; [|done]. intros _. eauto with forest.
    + destruct (IH fuel) as (b & -> & Hb); [lia|done|]. exists b. split; [done|].
      rewrite Hb. split; [eauto with forest|]. inversion 1; by simplify_eq.
Qed.

Lemma check_cycle_spec s i new_parent :
  rooted (parents (nodes s)) →
  returns (check_cycle s i new_parent) ∧
  (check_cycle s i new_parent = Ok tt ↔
    ∀ p, new_parent = Some p → ¬ under (parents (nodes s)) i p).
Proof.
  intros Hr. unfold check_cycle. destruct new_parent as [p|]; [|by split].
  remember (meets_ancestor _ _ _ _) as walk eqn:Hwalk.
  case_bool_decide as Hpi; cbn.
  { subst. split; [done|]. split; [done|]. intros H. destruct (H i eq_refl). constructor. }
  assert (∃ b, walk = Ok b ∧ (b = true ↔ under (parents (nodes s)) i p)) as (b & -> & Hb).
  { subst walk. destruct (nodes s !! p) as [n|] eqn:Hp.
    - destruct (Hr p) as [d Hd]; [apply parents_is_Some; eauto|].
      pose proof (depth_size _ _ _ Hd) as Hsz. rewrite parents_size in Hsz.
      eapply meets_ancestor_spec; [done|lia|done].
    - exists false. cbn. rewrite Hp. split; [done|]. split; [done|]. intros Hu.
      inversion Hu; subst; [done|]. apply parents_None in Hp. congruence. }
  cbn. split; [by destruct b|]. rewrite err_if_Ok. split.
  - intros -> ? [= <-] Hu. by apply Hb in Hu.
  - intros H. destruct b; [|done]. destruct (H p eq_refl). by apply Hb.
Qed.

(** ** [subtree_depth] *)

Lemma try_fold_max {E} (f : NodeId → result E N) (h : NodeId → N) cs best :
  (∀ c, c ∈ cs → f c = Ok (h c)) →
  try_fold (λ best c, d ← f c; Ok (if (best <? d)%N then d else best)) best cs =
  Ok (foldr N.max best (h <$> cs)).
Proof.
  revert best. induction cs as [|c cs IH]; intros best Hf; [done|]. cbn.
  rewrite Hf by left. cbn. rewrite IH by (intros; apply Hf; by right). f_equal. clear.
  induction (h <$> cs) as [|x l IH]; cbn; [destruct (N.ltb_spec best (h c)); lia|].
  rewrite IH. lia.
Qed.

(** The height of a subtree: every node in it is at most [h - 1] levels below
    its top, and some node is exactly that far. *)
Definition height (pm : pmap) (i : NodeId) (h : nat) : Prop :=
  ∀ d, depth pm i d →
    (∀ j dj, under pm i j → depth pm j dj → dj < d + h) ∧
    ∃ j, under pm i j ∧ depth pm j (d + h - 1).

Lemma foldr_max_spec (l : list N) :
  (∀ x, x ∈ l → (x ≤ foldr N.max 0 l)%N) ∧ (foldr N.max 0%N l ∈ l ∨ foldr N.max 0%N l = 0%N).
Proof.
  induction l as [|x l [Hub Hex]]; cbn.
  { split; [by intros ? ?%elem_of_nil|by right]. }
  split.
  - intros y [->|Hy]%elem_of_cons; [lia|]. specialize (Hub y Hy). lia.
  - left. destruct (N.max_spec x (foldr N.max 0%N l)) as [[? ->]|[? ->]]; [|by left].
    right. destruct Hex as [?|Hz]; [done|lia].
Qed.

Lemma subtree_depth_rec_spec ns :
  (∀ p, kids_ok ns p) →
  ∀ fuel i d, depth (parents ns) i d → size ns < fuel + d →
  ∃ h, 0 < h ∧ subtree_depth_rec fuel ns i = Ok (N.of_nat h) ∧ height (parents ns) i h.
Proof.
  intros Hkids. induction fuel as [|fuel IH]; intros i d Hd Hf.
  { apply depth_size in Hd. rewrite parents_size in Hd. lia. }
  pose proof (depth_lookup _ _ _ Hd) as [n Hi]%parents_is_Some.
  destruct (Hkids i n Hi) as [Hnd Hin].
  set (h := λ c, match subtree_depth_rec fuel ns c with Ok x => x | _ => 0%N end).
  assert (∀ c, c ∈ ordered_children n → (0 < h c)%N ∧
    subtree_depth_rec fuel ns c = Ok (h c) ∧ height (parents ns) c (N.to_nat (h c))) as Hc.
  { intros c Hc%Hin. destruct (IH c (S d)) as (hc & Hpos & Heq & Hh); [eauto with forest|lia|].
    unfold h. rewrite Heq, Nat2N.id. split_and!; [lia|done|done]. }
  pose proof (foldr_max_spec (h <$> ordered_children n)) as [Hub Hex].
  set (M := foldr N.max 0%N (h <$> ordered_children n)) in *.
  exists (S (N.to_nat M)). split; [lia|]. split.
  { cbn. rewrite Hi, (try_fold_max _ h) by (intros c ?; by apply Hc). cbn. f_equal. lia. }
  intros d' Hd'. rewrite (depth_fun _ _ _ _ Hd' Hd) in *. clear d' Hd'. split.
  - intros j dj [->|(c & Hcp & Hu)]%under_child Hdj.
    { rewrite (depth_fun _ _ _ _ Hdj Hd). lia. }
    apply Hin in Hcp as Hci. destruct (Hc c Hci) as (_ & _ & Hh).
    destruct (Hh (S d)) as [Hlt _]; [eauto with forest|].
    specialize (Hlt j dj Hu Hdj). specialize (Hub (h c) (list_elem_of_fmap_2 h _ _ Hci)). lia.
  - destruct Hex as [(c & Heq & Hci)%list_elem_of_fmap|Hz].
    + destruct (Hc c Hci) as (? & _ & Hh). apply Hin in Hci as Hcp.
      destruct (Hh (S d)) as [_ (j & Hu & Hdj)]; [eauto with forest|].
      exists j. split; [apply under_child; eauto|].
      by replace (d + S (N.to_nat M) - 1) with (S d + N.to_nat (h c) - 1) by lia.
    + exists i. split; [constructor|]. by replace (d + S (N.to_nat M) - 1) with d by lia.
Qed.

Lemma subtree_depth_spec s i d :
  (∀ p, kids_ok (nodes s) p) → depth (parents (nodes s)) i d →
  ∃ h, 0 < h ∧ subtree_depth s i = Ok (N.of_nat h) ∧ height (parents (nodes s)) i h.
Proof. intros Hk Hd. eapply subtree_depth_rec_spec; [done..|lia]. Qed.

(** ** [delete_subtree_recursive] *)

(** It always ends: each call that recurses has removed a node first. *)
Lemma delete_subtree_total fuel st i : size st.1 < fuel →
  ∃ st', delete_subtree_recursive fuel st i = Ok st' ∧ st'.1 ⊆ st.1.
Proof.
  revert st i. induction fuel as [|fuel IH]; intros [ns del] i Hf; [lia|]. cbn.
  destruct (ns !! i) as [n|] eqn:Hi; [|by eexists]. cbn in Hf.
  assert (∀ cs st, st.1 ⊆ delete i ns →
    ∃ st', try_fold (delete_subtree_recursive fuel) st cs = Ok st' ∧ st'.1 ⊆ delete i ns) as Hcs.
  { induction cs as [|c cs IHcs]; intros st Hst; cbn; [by eexists|].
    destruct (IH st c) as (st1 & -> & Hst1); cbn.
    - apply map_subseteq_size in Hst. rewrite map_size_delete, Hi in Hst. cbn in Hst.
      assert (size ns ≠ 0) by (apply map_size_ne_0_lookup_2 with i; eauto). lia.
    - apply IHcs. by etrans. }
  destruct (Hcs (ordered_children n) (delete i ns, del ++ [i])) as (st' & -> & Hst'); [done|].
  exists st'. split; [done|]. etrans; [done|]. apply delete_subseteq.
Qed.

(** [removed ns L]: the map [ns] without the nodes listed in [L]. *)
Definition removed (ns : gmap NodeId Node) (L : list NodeId) : gmap NodeId Node :=
  filter (λ kv, kv.1 ∉ L) ns.

Lemma removed_lookup ns L j :
  removed ns L !! j = if decide (j ∈ L) then None else ns !! j.
Proof.
  unfold removed. rewrite map_lookup_filter. case_decide.
  - destruct (ns !! j); [|done]. cbn. by rewrite option_guard_False by auto.
  - destruct (ns !! j); [|done]. cbn. by rewrite option_guard_True.
Qed.

Lemma removed_nil ns : removed ns [] = ns.
Proof.
  apply map_eq. intros j. rewrite removed_lookup, decide_False; [done|apply not_elem_of_nil].
Qed.

Lemma removed_app ns L1 L2 : removed (removed ns L1) L2 = removed ns (L1 ++ L2).
Proof.
  apply map_eq. intros j. rewrite !removed_lookup.
  repeat case_decide; set_solver.
Qed.

Section delete_spec.
Context (ns0 : gmap NodeId Node).
#[local] Abbreviation pm := (parents ns0).

(** What one call does to a map that still holds the whole subtree. *)
Definition deletes (fuel : nat) (ns : gmap NodeId Node) (i : NodeId) : Prop :=
  (∀ j, under pm i j → ns !! j = ns0 !! j) →
  ∀ del, ∃ L, delete_subtree_recursive fuel (ns, del) i = Ok (removed ns L, del ++ L) ∧
    NoDup L ∧ (∀ j, j ∈ L ↔ under pm i j).

Lemma delete_children fuel i d cs ns del :
  depth pm i d → NoDup cs → (∀ c, c ∈ cs → pm !! c = Some (Some i)) →
  (∀ c ns', c ∈ cs → ns' ⊆ ns → deletes fuel ns' c) →
  (∀ c j, c ∈ cs → under pm c j → ns !! j = ns0 !! j) →
  ∃ L, try_fold (delete_subtree_recursive fuel) (ns, del) cs = Ok (removed ns L, del ++ L) ∧
    NoDup L ∧ (∀ j, j ∈ L ↔ ∃ c, c ∈ cs ∧ under pm c j).
Proof using Type.
  intros Hd. revert ns del. induction cs as [|c cs IH]; intros ns del Hnd Hp Hdel Hag.
  { exists []. rewrite removed_nil, app_nil_r. split_and!; [done|constructor|]. set_solver. }
  apply NoDup_cons in Hnd as [Hc Hnd].
  destruct (Hdel c ns ltac:(by left) ltac:(done) ltac:(intros; apply (Hag c); [by left|done]) del)
    as (L1 & Heq1 & Hnd1 & HL1).
  assert (∀ c' j, c' ∈ cs → under pm c' j → j ∉ L1) as Hdisj.
  { intros c' j Hc' Hu Hj%HL1. destruct Hc.
    replace c with c'; [done|].
    eapply (under_siblings pm c' c i j d); [apply Hp; by right|apply Hp; by left|done..]. }
  destruct (IH (removed ns L1) (del ++ L1) Hnd) as (L2 & Heq2 & Hnd2 & HL2).
  - intros c' ?. apply Hp. by right.
  - intros c' ns' ? Hns'. apply Hdel; [by right|]. etrans; [done|]. apply map_filter_subseteq.
  - intros c' j Hc' Hu. rewrite removed_lookup, decide_False by eauto.
    apply (Hag c'); [by right|done].
  - exists (L1 ++ L2). cbn. rewrite Heq1. cbn. rewrite Heq2, removed_app, <- app_assoc.
    split; [done|]. split.
    + apply NoDup_app. split_and!; [done| |done].
      intros j Hj1 (c' & Hc' & Hu)%HL2. by apply (Hdisj c' j).
    + intros j. rewrite elem_of_app, HL1, HL2. set_solver.
Qed.

Lemma delete_subtree_deletes fuel ns i d :
  depth pm i d → (∀ j, under pm i j → kids_ok ns0 j) → size ns < fuel → deletes fuel ns i.
Proof using Type.
  revert ns i d. induction fuel as [|fuel IH]; intros ns i d Hd Hk Hf Hag del; [lia|].
  pose proof (depth_lookup _ _ _ Hd) as [n Hi]%parents_is_Some.
  destruct (Hk i (under_refl _ _) n Hi) as [Hnd Hin]. cbn.
  rewrite (Hag i) by constructor. rewrite Hi.
  assert (size (delete i ns) < fuel) as Hsz.
  { rewrite map_size_delete, (Hag i), Hi by constructor. cbn.
    assert (size ns ≠ 0).
    { apply map_size_ne_0_lookup_2 with i. rewrite (Hag i) by constructor. eauto. }
    lia. }
  destruct (delete_children fuel i d (ordered_children n) (delete i ns) (del ++ [i]))
    as (L & -> & HndL & HL); [done|done|intros c ?; by apply Hin| | |].
  - intros c ns' Hc%Hin Hns'. apply (IH ns' c (S d)); [eauto with forest| |].
    + intros j Hu. apply Hk. apply under_trans with c; eauto with forest.
    + apply map_subseteq_size in Hns'. lia.
  - intros c j Hc%Hin Hu. rewrite lookup_delete_ne.
    + apply Hag. apply under_trans with c; eauto with forest.
    + intros ->. by eapply (under_parent_absurd pm c j (S d)); eauto with forest.
  - exists (i :: L). rewrite <- app_assoc. split; [|split].
    + f_equal. f_equal. apply map_eq. intros j. rewrite !removed_lookup.
      destruct (decide (i = j)) as [->|Hne].
      * rewrite lookup_delete_eq. rewrite (decide_True _ _ (P:=j ∈ j :: L)) by left.
        by case_decide.
      * rewrite lookup_delete_ne by done. repeat case_decide; set_solver.
    + apply NoDup_cons. split; [|done]. intros (c & Hc%Hin & Hu)%HL.
      by eapply (under_parent_absurd pm c i (S d)); eauto with forest.
    + intros j. rewrite elem_of_cons, HL, under_child. setoid_rewrite Hin. done.
Qed.
End delete_spec.

(** ** The node graph under creation, deletion and moves

    Hooking a node into the forest and unhooking it again, stated once over
    child lists and parent maps and used for [create_node], [delete_node] and
    [move_node]. *)

(** A forest in which [id] is mentioned by no child list and no root: what
    [detach] leaves, and what a forest without [id] already is.  [pm] are the
    parent pointers before. *)
Record unhooked (pm : pmap) (id : NodeId) (ns : gmap NodeId Node) (rs : list NodeId) : Prop := {
  unh_parents : ∀ j, j ≠ id → parents ns !! j = pm !! j;
  unh_key : ∀ i n, ns !! i = Some n → node_id n = i;
  unh_roots_nodup : NoDup rs;
  unh_roots : ∀ r, r ∈ rs ↔ pm !! r = Some None ∧ r ≠ id;
  unh_kids : ∀ p n, ns !! p = Some n → NoDup (ordered_children n) ∧
    ∀ c, c ∈ ordered_children n ↔ pm !! c = Some (Some p) ∧ c ≠ id;
}.

Lemma unhooked_fresh ns rs id : forest ns rs → ns !! id = None → unhooked (parents ns) id ns rs.
Proof.
  intros Hf Hid. apply parents_None in Hid. split; try apply Hf; [done| |].
  - intros r. rewrite (forest_roots _ _ Hf). split; [|naive_solver]. intros Hr.
    split; [done|]. congruence.
  - intros p n Hn. destruct (forest_kids _ _ Hf p n Hn) as [? Hc]. split; [done|].
    intros c. rewrite Hc. split; [|naive_solver]. intros. split; [done|]. congruence.
Qed.

Lemma detach_nodes s op id j :
  nodes (detach s op id) !! j =
    if decide (op = Some j)
    then (λ n, with_children n (retain_ne id (ordered_children n))) <$> nodes s !! j
    else nodes s !! j.
Proof.
  unfold detach. destruct op as [p|]; [|done].
  destruct (nodes s !! p) as [np|] eqn:Hp; cbn; case_decide as Hj; simplify_eq.
  - by rewrite lookup_insert_eq, Hp.
  - rewrite lookup_insert_ne; [done|]. congruence.
  - by rewrite Hp.
  - done.
Qed.

Lemma detach_roots s op id :
  roots (detach s op id) = match op with Some _ => roots s | None => retain_ne id (roots s) end.
Proof. unfold detach. destruct op as [p|]; [|done]. by destruct (nodes s !! p). Qed.

Lemma detach_parents s op id : parents (nodes (detach s op id)) = parents (nodes s).
Proof.
  apply map_eq. intros j. rewrite !parents_lookup, detach_nodes. case_decide; [|done].
  by destruct (nodes s !! j).
Qed.

Lemma detach_frame s op id :
  used_ids (detach s op id) = used_ids s ∧ models (detach s op id) = models s ∧
  used_model_ids (detach s op id) = used_model_ids s ∧ limits (detach s op id) = limits s ∧
  revision (detach s op id) = revision s.
Proof. unfold detach. destruct op as [p|]; [|done]. by destruct (nodes s !! p). Qed.

Lemma detach_unhooked s id n :
  forest (nodes s) (roots s) → nodes s !! id = Some n →
  unhooked (parents (nodes s)) id (nodes (detach s (parent_id n) id))
    (roots (detach s (parent_id n) id)).
Proof.
  intros Hf Hid. assert (parents (nodes s) !! id = Some (parent_id n)) as Hpid.
  { apply parents_Some. eauto. }
  split.
  - intros j _. by rewrite detach_parents.
  - intros i n' Hi. rewrite detach_nodes in Hi. case_decide; [|by eapply forest_key].
    apply fmap_Some in Hi as (n0 & Hi & ->). by eapply forest_key in Hi.
  - rewrite detach_roots. destruct (parent_id n); [apply Hf|].
    apply NoDup_retain_ne, Hf.
  - intros r. rewrite detach_roots. destruct (parent_id n) as [p|] eqn:Hp.
    + rewrite (forest_roots _ _ Hf). split; [|naive_solver]. intros; split; [done|congruence].
    + by rewrite elem_of_retain_ne, (forest_roots _ _ Hf).
  - intros p np Hn. rewrite detach_nodes in Hn. case_decide as Hp.
    + apply fmap_Some in Hn as (n0 & Hn & ->). destruct (forest_kids _ _ Hf p n0 Hn) as [Hnd Hc].
      cbn. split; [by apply NoDup_retain_ne|]. intros c. by rewrite elem_of_retain_ne, Hc.
    + destruct (forest_kids _ _ Hf p np Hn) as [Hnd Hc]. split; [done|]. intros c. rewrite Hc.
      split; [|naive_solver]. intros; split; [done|congruence].
Qed.

(** Hooking [id] back in, as a child of [new_parent] or as a root. *)
Section attach.
Context (pm : pmap) (id : NodeId) (ns : gmap NodeId Node) (rs : list NodeId).
Context (nid : Node) (Hu : unhooked pm id ns rs).
Context (Hkey : node_id nid = id) (Hroot : rooted (<[id := parent_id nid]> pm)).
Context (Hnd : NoDup (ordered_children nid)).
Context (Hkids : ∀ c, c ∈ ordered_children nid ↔ pm !! c = Some (Some id) ∧ c ≠ id).

Lemma parents_attach ns2 : (∀ j, j ≠ id → parents ns2 !! j = pm !! j) →
  parents (<[id := nid]> ns2) = <[id := parent_id nid]> pm.
Proof using Type.
  intros Hj. rewrite parents_insert. apply map_eq. intros j.
  destruct (decide (id = j)) as [<-|]; [by rewrite !lookup_insert_eq|].
  rewrite !lookup_insert_ne by done. by apply Hj.
Qed.

Lemma attach_root rs' : parent_id nid = None → rs' ≡ₚ id :: rs →
  forest (<[id := nid]> ns) rs'.
Proof using All.
  intros Hp Hrs. assert (parents (<[id := nid]> ns) = <[id := None]> pm) as Hpm.
  { rewrite <- Hp. apply parents_attach, Hu. }
  split.
  - intros i n [[<- <-]|[_ Hi]]%lookup_insert_Some; [done|]. by eapply unh_key.
  - rewrite Hrs. apply NoDup_cons. split; [|apply Hu]. by intros [_ ?]%(unh_roots _ _ _ _ Hu).
  - intros r. rewrite Hrs, elem_of_cons, Hpm, lookup_insert_Some, (unh_roots _ _ _ _ Hu). naive_solver.
  - intros p n Hn. rewrite Hpm. apply lookup_insert_Some in Hn as [[<- <-]|[Hne Hn]].
    + split; [done|]. intros c. rewrite Hkids, lookup_insert_Some. naive_solver.
    + destruct (unh_kids _ _ _ _ Hu p n Hn) as [? Hc]. split; [done|]. intros c.
      rewrite Hc, lookup_insert_Some. naive_solver.
  - rewrite Hpm, <- Hp. done.
Qed.

Lemma attach_child p np cs : parent_id nid = Some p → p ≠ id → ns !! p = Some np →
  cs ≡ₚ id :: ordered_children np →
  forest (<[id := nid]> (<[p := with_children np cs]> ns)) rs.
Proof using All.
  intros Hp Hne Hnp Hcs.
  assert (parents (<[p := with_children np cs]> ns) = parents ns) as Hpar.
  { by apply (parents_update _ _ np). }
  assert (parents (<[id := nid]> (<[p := with_children np cs]> ns)) = <[id := Some p]> pm) as Hpm.
  { rewrite <- Hp. apply parents_attach. rewrite Hpar. apply Hu. }
  destruct (unh_kids _ _ _ _ Hu p np Hnp) as [Hndp Hcp].
  split.
  - intros i n [[<- <-]|[_ Hi]]%lookup_insert_Some; [done|].
    apply lookup_insert_Some in Hi as [[<- <-]|[_ Hi]]; [cbn|]; by apply (unh_key _ _ _ _ Hu).
  - apply Hu.
  - intros r. rewrite Hpm, lookup_insert_Some, (unh_roots _ _ _ _ Hu). naive_solver.
  - intros q n Hn. rewrite Hpm. apply lookup_insert_Some in Hn as [[<- <-]|[Hneq Hn]].
    + split; [done|]. intros c. rewrite Hkids, lookup_insert_Some. naive_solver.
    + apply lookup_insert_Some in Hn as [[<- <-]|[Hpq Hn]].
      * cbn. split.
        { rewrite Hcs. apply NoDup_cons. split; [|done]. by intros [_ ?]%Hcp. }
        intros c. rewrite Hcs, elem_of_cons, Hcp, lookup_insert_Some. naive_solver.
      * destruct (unh_kids _ _ _ _ Hu q n Hn) as [? Hc]. split; [done|]. intros c.
        rewrite Hc, lookup_insert_Some. naive_solver.
  - rewrite Hpm, <- Hp. done.
Qed.
End attach.

(** Rewriting the properties of a node, or permuting its children, keeps the forest. *)
Lemma forest_update ns rs i n n' :
  forest ns rs → ns !! i = Some n → node_id n' = node_id n → parent_id n' = parent_id n →
  ordered_children n' ≡ₚ ordered_children n → forest (<[i := n']> ns) rs.
Proof.
  intros Hf Hi Hid Hp Hc. assert (parents (<[i := n']> ns) = parents ns) as Hpm.
  { by apply (parents_update _ _ n). }
  split; rewrite ?Hpm; try apply Hf.
  - intros j m [[<- <-]|[_ Hj]]%lookup_insert_Some; [rewrite Hid|]; by eapply forest_key.
  - intros p m Hm. rewrite Hpm. apply lookup_insert_Some in Hm as [[<- <-]|[_ Hm]].
    + rewrite Hc. setoid_rewrite Hc. by apply (forest_kids _ _ Hf).
    + by apply (forest_kids _ _ Hf).
Qed.

(** Removing a whole subtree after unhooking its top. *)
Lemma forest_removed pm id ns rs L :
  unhooked pm id ns rs → parents ns = pm → rooted pm → (∀ j, j ∈ L ↔ under pm id j) →
  forest (removed ns L) rs.
Proof.
  intros Hu Hpm Hr HL.
  assert (∀ j, parents (removed ns L) !! j = if decide (j ∈ L) then None else pm !! j) as Hpr.
  { intros j. rewrite parents_lookup, removed_lookup. case_decide; [done|].
    by rewrite <- Hpm, parents_lookup. }
  assert (∀ j p, pm !! j = Some (Some p) → j ∈ L → j ≠ id → p ∈ L) as Hup.
  { intros j p Hj Hin Hne. apply HL. apply HL in Hin. by inversion Hin; simplify_eq. }
  split.
  - intros i n. rewrite removed_lookup. case_decide; [done|]. apply Hu.
  - apply Hu.
  - intros r. rewrite (unh_roots _ _ _ _ Hu), Hpr. split.
    + intros [Hp Hne]. rewrite decide_False; [done|]. rewrite HL. inversion 1; simplify_eq.
    + case_decide as Hin; [done|]. intros Hp. split; [done|]. intros ->. apply Hin, HL. constructor.
  - intros p n. rewrite removed_lookup. case_decide as Hp; [done|]. intros Hn.
    destruct (unh_kids _ _ _ _ Hu p n Hn) as [Hnd Hc]. split; [done|]. intros c.
    rewrite Hc, Hpr. split.
    + intros [Hcp Hne]. rewrite decide_False; [done|]. intros Hin. apply Hp. by eapply Hup.
    + case_decide as Hin; [done|]. intros Hcp. split; [done|]. intros ->. apply Hin, HL. constructor.
  - apply (rooted_cut pm _ id); [..|done].
    + intros j Hj. rewrite Hpr, decide_False; [done|]. by rewrite HL.
    + intros j Hj. rewrite Hpr, decide_True; [done|]. by rewrite HL.
Qed.
