(* ===== verification/StoreInv.v ===== *)
(** * The store invariant

    [store_wf] collects what the store promises after every successful
    operation: the node map is a forest within the depth and count limits, used
    ids cover live ids, stored values are within limits, model references
    resolve.  Each operation preserves it, never panics and always returns. *)

From S2P Require Import Prelude.
From S2P Require Import Values.
From S2P Require Import Limits.
From S2P Require Import Models.
From S2P Require Import ModelFacts.
From S2P Require Import Store.
From S2P Require Import StoreFacts.

Record graph_wf (s : SemanticStore) : Prop := {
  gw_forest : forest (nodes s) (roots s);
  gw_used : ∀ i, is_Some (nodes s !! i) → i ∈ used_ids s;
  gw_count : (map_len (nodes s) ≤ max_node_count (limits s))%N;
  gw_depth : ∀ i d, depth (parents (nodes s)) i d → (N.of_nat d ≤ max_tree_depth (limits s))%N;
}.

Section props.
Context `{Registry, PropertyIter}.

(** What [validate_property_references] demands of a stored value. *)
Definition reference_ok (s : SemanticStore) (p : PropertyRef) (v : Value) : Prop :=
  p = MODEL_REF → ∃ mid, value_model_id v = Some mid ∧ is_Some (models s !! mid).

Definition property_ok (s : SemanticStore) (p : PropertyRef) (v : Value) : Prop :=
  within_limits (limits s) 1 v ∧ reference_ok s p v.

(** What stays true of it: the model may have been deleted since, but its id
    is never given to another model. *)
Definition stored_ok (s : SemanticStore) (p : PropertyRef) (v : Value) : Prop :=
  within_limits (limits s) 1 v ∧
  (p = MODEL_REF → ∃ mid, value_model_id v = Some mid ∧ mid ∈ used_model_ids s).

Definition props_wf (s : SemanticStore) : Prop :=
  ∀ i n p v, nodes s !! i = Some n → properties n !! p = Some v → stored_ok s p v.

Record models_wf (s : SemanticStore) : Prop := {
  mw_used : ∀ i, is_Some (models s !! i) → i ∈ used_model_ids s;
  mw_count : (map_len (models s) ≤ max_model_count (limits s))%N;
  mw_id : ∀ i m, models s !! i = Some m → model_id m = i;
}.

Record store_wf (s : SemanticStore) : Prop := {
  sw_graph : graph_wf s;
  sw_props : props_wf s;
  sw_models : models_wf s;
}.

Lemma property_ok_stored s p v : store_wf s → property_ok s p v → stored_ok s p v.
Proof.
  intros Hwf [? Hr]. split; [done|]. intros (mid & ? & ?)%Hr. exists mid. split; [done|].
  by apply (mw_used _ (sw_models _ Hwf)).
Qed.

Lemma store_wf_empty l rev : store_wf (with_limits_and_revision l rev).
Proof.
  split.
  - split; cbn.
    + apply forest_empty.
    + intros i. rewrite lookup_empty. by intros [].
    + unfold map_len. rewrite map_size_empty. lia.
    + intros i d Hd%depth_lookup. rewrite parents_lookup, lookup_empty in Hd. by destruct Hd.
  - intros i n p v. cbn. by rewrite lookup_empty.
  - split; cbn.
    + intros i. rewrite lookup_empty. by intros [].
    + unfold map_len. rewrite map_size_empty. lia.
    + intros i m. by rewrite lookup_empty.
Qed.

(** ** Property validation *)
Lemma validate_property_references_Ok s p v u :
  validate_property_references s p v = Ok u ↔ reference_ok s p v.
Proof.
  destruct u. unfold validate_property_references, reference_ok. case_bool_decide as Hp.
  - destruct (value_model_id v) as [mid|]; cbn.
    + rewrite err_if_Ok, negb_false_iff, bool_decide_eq_true. split; [eauto|].
      intros Hr. by destruct (Hr Hp) as (? & [= <-] & ?).
    + split; [done|]. intros Hr. by destruct (Hr Hp) as (? & ? & ?).
  - split; [by intros _ ?|done].
Qed.

Lemma validate_properties_Ok s ps u :
  validate_properties s ps = Ok u ↔ ∀ p v, (p, v) ∈ ps → property_ok s p v.
Proof.
  unfold validate_properties. rewrite for_each_Ok, Forall_forall. split.
  - intros Hall p v Hin. specialize (Hall _ Hin). cbn in Hall.
    apply bind_Ok in Hall as ([] & ?%validate_value_Ok & ?%validate_property_references_Ok). done.
  - intros Hall [p v] Hin. destruct (Hall p v Hin) as [? ?]. apply bind_Ok. exists tt.
    by rewrite validate_value_Ok, validate_property_references_Ok.
Qed.

Lemma validate_value_returns l v d : returns (validate_value_inner l v d).
Proof.
  revert d. induction v as [items IH|t ps IH|v Hv] using Value_nested_ind; intros d;
    cbn [validate_value_inner].
  - apply returns_bind; [apply returns_err_if|intros _ _].
    apply returns_bind; [apply returns_err_if|intros _ _].
    apply returns_for_each. intros v Hin. rewrite Forall_forall in IH. by apply IH.
  - apply returns_bind; [apply returns_err_if|intros _ _].
    apply returns_bind; [apply returns_err_if|intros _ _].
    apply returns_for_each. intros [r v] Hin. rewrite Forall_forall in IH. by apply (IH _ Hin).
  - destruct v; try done; cbn [validate_value_inner]; (apply returns_bind; [apply returns_err_if|]);
      intros _ _; try done; apply returns_err_if.
Qed.

Lemma validate_properties_returns s ps : returns (validate_properties s ps).
Proof.
  apply returns_for_each. intros [p v] _. apply returns_bind; [apply validate_value_returns|].
  intros _ _. unfold validate_property_references. case_bool_decide; [|done].
  destruct (value_model_id v); [apply returns_err_if|done].
Qed.

Lemma insert_all_lookup m ps p v :
  insert_all m ps !! p = Some v → (p, v) ∈ ps ∨ m !! p = Some v.
Proof.
  unfold insert_all. revert m. induction ps as [|[q w] ps IH]; intros m; cbn; [by right|].
  intros [?|[[-> ->]|[_ ?]]%lookup_insert_Some]%IH; [left; by right|left; left|by right].
Qed.

(** Rewriting the properties of one node with valid values. *)
Lemma set_props_wf s id n ps :
  store_wf s → nodes s !! id = Some n →
  (∀ p v, ps !! p = Some v → stored_ok s p v) →
  store_wf (with_nodes s (<[id := with_properties n ps]> (nodes s))).
Proof.
  intros [Hg Hp Hm] Hn Hps. split; [|intros i m p v|by split; apply Hm].
  - split; cbn.
    + by apply (forest_update _ _ _ n); [apply Hg|..].
    + intros i [m Hi]. apply Hg. apply lookup_insert_Some in Hi as [[<- _]|[_ ?]]; eauto.
    + unfold map_len. rewrite map_size_insert_Some by eauto. apply Hg.
    + rewrite (parents_update _ _ n) by done. apply Hg.
  - cbn. intros [[<- <-]|[_ Hi]]%lookup_insert_Some; [apply Hps|by apply (Hp i m)].
Qed.

(** ** Property operations *)

Lemma set_property_effect s id p v s' old :
  set_property s id p v = Ok (s', old) ↔
  ∃ n, property_ok s p v ∧ nodes s !! id = Some n ∧ old = properties n !! p ∧
    s' = with_nodes s (<[id := with_properties n (<[p := v]> (properties n))]> (nodes s)).
Proof.
  unfold set_property, property_ok. rewrite bind_Ok. setoid_rewrite bind_Ok. setoid_rewrite bind_Ok.
  setoid_rewrite validate_value_Ok. setoid_rewrite validate_property_references_Ok.
  setoid_rewrite ok_or_Ok. split.
  - intros ([] & ? & [] & ? & n & ? & [= <- <-]). eauto 10.
  - intros (n & [? ?] & ? & -> & ->). exists tt. split; [done|]. exists tt. split; [done|].
    exists n. done.
Qed.

Lemma set_property_wf s id p v s' old :
  store_wf s → set_property s id p v = Ok (s', old) → store_wf s'.
Proof.
  intros Hwf (n & Hok & Hn & -> & ->)%set_property_effect. apply set_props_wf; [done..|].
  intros q w [[<- <-]|[_ Hq]]%lookup_insert_Some; [by apply property_ok_stored|].
  by apply (sw_props _ Hwf id n).
Qed.

Lemma clear_property_wf s id p s' old :
  store_wf s → clear_property s id p = Ok (s', old) → store_wf s'.
Proof.
  intros Hwf Heq. unfold clear_property in Heq. inv_ok. subst.
  injection Heq as <- <-. apply set_props_wf; [done..|].
  intros q w [_ Hq]%lookup_delete_Some. by apply (sw_props _ Hwf id r).
Qed.

Lemma batch_property_set_wf s id ps s' :
  store_wf s → batch_property_set s id ps = Ok s' → store_wf s'.
Proof.
  intros Hwf Heq. unfold batch_property_set in Heq. inv_ok. subst.
  rewrite validate_properties_Ok in Heq0. apply set_props_wf; [done..|].
  intros q w [Hin|Hq]%insert_all_lookup; [by apply property_ok_stored, Heq0|]. by apply (sw_props _ Hwf id r0).
Qed.

(** ** [reorder_children] *)

Lemma check_permutation_Ok parent curr seen order u :
  check_permutation parent curr seen order = Ok u ↔
  NoDup order ∧ ∀ c, c ∈ order → c ∈ curr ∧ c ∉ seen.
Proof.
  destruct u. revert seen. induction order as [|c order IH]; intros seen; cbn [check_permutation].
  { split; [|done]. intros _. split; [constructor|]. by intros c ?%elem_of_nil. }
  rewrite bind_Ok. setoid_rewrite bind_Ok. setoid_rewrite err_if_Ok. setoid_rewrite IH.
  setoid_rewrite negb_false_iff. setoid_rewrite bool_decide_eq_true.
  setoid_rewrite bool_decide_eq_false. rewrite NoDup_cons. split.
  - intros (_ & ? & _ & ? & Hnd & Hall). split_and!; [|done|].
    + intros Hc. destruct (Hall c Hc). set_solver.
    + intros x [->|Hx]%elem_of_cons; [done|]. destruct (Hall x Hx). set_solver.
  - intros [[Hc Hnd] Hall]. destruct (Hall c) as [? ?]; [by left|]. exists tt. split; [done|].
    exists tt. split_and!; [done..|]. intros x Hx. destruct (Hall x) as [? ?]; [by right|].
    split; [done|]. apply not_elem_of_union. split; [|done]. apply not_elem_of_singleton.
    by intros ->.
Qed.

Lemma check_permutation_returns parent curr seen order :
  returns (check_permutation parent curr seen order).
Proof.
  revert seen. induction order as [|c order IH]; intros seen; [done|].
  cbn [check_permutation]. repeat (apply returns_bind; [apply returns_err_if|intros _ _]). apply IH.
Qed.

Lemma NoDup_incl_length_perm {A} `{EqDecision A} (l k : list A) :
  NoDup l → (∀ x, x ∈ l → x ∈ k) → length l = length k → l ≡ₚ k.
Proof.
  intros Hnd Hin Hlen. apply submseteq_length_Permutation; [|lia].
  by apply NoDup_submseteq.
Qed.

Lemma reorder_children_effect s parent order s' :
  forest (nodes s) (roots s) →
  reorder_children s parent order = Ok s' ↔
  ∃ n, nodes s !! parent = Some n ∧ order ≡ₚ ordered_children n ∧
    s' = with_nodes s (<[parent := with_children n order]> (nodes s)).
Proof.
  intros Hf. unfold reorder_children. rewrite bind_Ok. setoid_rewrite ok_or_Ok.
  setoid_rewrite bind_Ok. setoid_rewrite bind_Ok. setoid_rewrite err_if_Ok.
  setoid_rewrite check_permutation_Ok. setoid_rewrite negb_false_iff. setoid_rewrite N.eqb_eq.
  split.
  - intros (n & Hn & _ & Hlen & _ & [Hnd Hin] & [= <-]). exists n. split_and!; [done| |done].
    apply NoDup_incl_length_perm; [done| |unfold len in Hlen; lia].
    intros x Hx. destruct (Hin x Hx) as [Hc _]. by apply elem_of_list_to_set in Hc.
  - intros (n & Hn & Hperm & ->). exists n. split; [done|]. exists tt.
    split; [unfold len; by rewrite Hperm|]. exists tt. split; [|done].
    destruct (forest_kids _ _ Hf parent n Hn) as [Hnd _]. split; [by rewrite Hperm|].
    intros c Hc. rewrite elem_of_list_to_set, <- Hperm. split; [done|]. apply not_elem_of_empty.
Qed.

Lemma with_nodes_forest_wf s ns' :
  store_wf s → forest ns' (roots s) → parents ns' = parents (nodes s) →
  (∀ i n, ns' !! i = Some n → ∃ n0, nodes s !! i = Some n0 ∧ properties n = properties n0) →
  store_wf (with_nodes s ns').
Proof.
  intros [Hg Hp Hm] Hf Hpar Hprops. split; [split; cbn|intros i n p v Hi Hv|by split; apply Hm].
  - done.
  - intros i [n Hi]. apply Hg. destruct (Hprops i n Hi) as (? & ? & _). eauto.
  - unfold map_len. rewrite <- (parents_size ns'), Hpar, parents_size. apply Hg.
  - rewrite Hpar. apply Hg.
  - cbn in Hi. destruct (Hprops i n Hi) as (n0 & Hi0 & Heq). rewrite Heq in Hv. by apply (Hp i n0).
Qed.

Lemma reorder_children_wf s parent order s' :
  store_wf s → reorder_children s parent order = Ok s' → store_wf s'.
Proof.
  intros Hwf Heq. pose proof (gw_forest _ (sw_graph _ Hwf)) as Hf.
  apply reorder_children_effect in Heq as (n & Hn & Hperm & ->); [|done].
  apply with_nodes_forest_wf; [done|by apply (forest_update _ _ _ n)|by apply (parents_update _ _ n)|].
  intros i m [[<- <-]|[_ Hi]]%lookup_insert_Some; eauto.
Qed.

(** ** [create_node] *)

(** Where a new child goes in a list of siblings. *)
Definition place (index : option N) (id : NodeId) (l : list NodeId) : list NodeId :=
  match index with Some i => vec_insert i id l | None => l ++ [id] end.
Definition index_ok (index : option N) (l : list NodeId) : Prop :=
  ∀ i, index = Some i → (i ≤ len l)%N.

Lemma place_perm index id l : place index id l ≡ₚ id :: l.
Proof.
  destruct index; [apply vec_insert_perm|]. cbn. by rewrite (comm (++) l [id]).
Qed.

(** When [create_node] succeeds, and the store it then leaves. *)
Definition can_create (s : SemanticStore) (id : NodeId) (parent : option NodeId) (index : option N)
    (ps : list (PropertyRef * Value)) : Prop :=
  (id ∉ used_ids s) ∧ (map_len (nodes s) < max_node_count (limits s))%N ∧
  match parent with
  | Some p => ∃ np d, nodes s !! p = Some np ∧ depth (parents (nodes s)) p d ∧
      (N.of_nat d + 1 ≤ max_tree_depth (limits s))%N ∧ index_ok index (ordered_children np)
  | None => (1 ≤ max_tree_depth (limits s))%N ∧ index_ok index (roots s)
  end ∧
  ∀ p v, (p, v) ∈ ps → property_ok s p v.

Definition created (s : SemanticStore) (id : NodeId) (t : TypeRef) (parent : option NodeId)
    (index : option N) (ps : list (PropertyRef * Value)) : SemanticStore :=
  mkStore
    (<[id := Node_new id t parent ps]>
      match parent with
      | Some p => alter (λ n, with_children n (place index id (ordered_children n))) p (nodes s)
      | None => nodes s
      end)
    match parent with Some _ => roots s | None => place index id (roots s) end
    ({[id]} ∪ used_ids s) (models s) (used_model_ids s) (limits s) (revision s).

Lemma index_ok_guard (index : option N) (l : list NodeId) u :
  match index with
  | Some i => err_if (len l <? i)%N (ChildIndexOutOfBounds i (len l))
  | None => Ok tt
  end = Ok u ↔
  index_ok index l.
Proof.
  destruct index as [i|].
  - rewrite err_if_ltb_Ok. split; [by intros ? ? [= <-]|intros Hi; by apply Hi].
  - destruct u. by split.
Qed.

Lemma bind_unit_Ok {E A} (c : result E unit) (k : unit → result E A) r :
  (c ≫= k) = Ok r ↔ c = Ok tt ∧ k tt = Ok r.
Proof.
  rewrite bind_Ok. split; [by intros ([] & ? & ?)|]. intros []. by exists tt.
Qed.

Lemma create_node_effect s id t parent index ps s' :
  graph_wf s →
  create_node s id t parent index ps = Ok s' ↔
  can_create s id parent index ps ∧ s' = created s id t parent index ps.
Proof.
  intros Hwf. pose proof (forest_rooted _ _ (gw_forest _ Hwf)) as Hr.
  unfold create_node, can_create. rewrite !bind_unit_Ok, err_if_Ok, bool_decide_eq_false.
  rewrite (err_if_Ok (_ <=? _)%N), N.leb_gt. destruct parent as [p|].
  - destruct (node_depth_cases s p Hr) as [[Hp ->]|(d & Hd & ->)]; cbn [mbind result_bind ok_or].
    { split; [by intros (_ & _ & ?)|]. intros [(_ & _ & (np & ? & ? & _) & _) _]. congruence. }
    pose proof (depth_lookup _ _ _ Hd) as [np Hp]%parents_is_Some.
    rewrite Hp, bind_Ok. cbn [expect mbind result_bind].
    do 3 setoid_rewrite bind_unit_Ok. setoid_rewrite err_if_ltb_Ok.
    setoid_rewrite validate_properties_Ok. setoid_rewrite index_ok_guard. unfold created. split.
    + intros (? & ? & r & [Hle [= <-]] & _ & Hps & Hi & [= <-]). split_and!; [done..|eauto 10|done|].
      cbn. f_equal. f_equal. apply map_eq. intros j. rewrite lookup_alter.
      case_decide; subst; [by rewrite lookup_insert_eq, Hp|by rewrite lookup_insert_ne].
    + intros [(? & ? & (np' & d' & Hp' & Hd' & Hle & Hi) & Hps) ->].
      rewrite (depth_fun _ _ _ _ Hd' Hd) in Hle. simplify_eq.
      split_and!; [done..|]. eexists. split_and!; [done..|]. cbn. do 2 f_equal.
      f_equal. apply map_eq. intros j. rewrite lookup_alter.
      case_decide; subst; [by rewrite lookup_insert_eq, Hp|by rewrite lookup_insert_ne].
  - cbn [mbind result_bind]. rewrite !bind_unit_Ok, err_if_ltb_Ok, validate_properties_Ok.
    unfold created. destruct index as [i|]; cbn [mbind result_bind].
    + rewrite bind_Ok. setoid_rewrite bind_unit_Ok. setoid_rewrite err_if_ltb_Ok. split.
      * intros (? & ? & ? & ? & r & [? [= <-]] & [= <-]). split_and!; try done.
        by intros ? [= <-].
      * intros [(? & ? & [? Hi] & Hps) ->]. split_and!; [done..|].
        exists (with_roots s (vec_insert i id (roots s))). split; [|done].
        split; [by apply Hi|done].
    + split.
      * intros (? & ? & ? & ? & [= <-]). by split_and!.
      * intros [(? & ? & [? Hi] & Hps) ->]. by split_and!.
Qed.

Lemma no_parent_absent pm c id : rooted pm → pm !! id = None → pm !! c ≠ Some (Some id).
Proof.
  intros Hr Hid Hc. destruct (Hr c) as [d Hd]; [eauto|].
  apply (depth_parent _ _ _ _ Hc) in Hd as (d' & _ & [v Hv]%depth_lookup). congruence.
Qed.

Lemma created_parents s id t parent index ps :
  parents (nodes (created s id t parent index ps)) = <[id := parent]> (parents (nodes s)).
Proof.
  cbn. rewrite parents_insert. f_equal. destruct parent as [p|]; [|done].
  apply map_eq. intros j. rewrite !parents_lookup, lookup_alter. case_decide; subst; [|done].
  by destruct (nodes s !! j).
Qed.

Lemma created_forest s id t parent index ps :
  graph_wf s → can_create s id parent index ps →
  forest (nodes (created s id t parent index ps)) (roots (created s id t parent index ps)).
Proof.
  intros Hwf (Hid & _ & Hpar & _). pose proof (gw_forest _ Hwf) as Hf.
  assert (nodes s !! id = None) as Hnone.
  { apply eq_None_not_Some. intros Hs. by apply Hid, gw_used. }
  pose proof (forest_rooted _ _ Hf) as Hr.
  assert (∀ c, c ∈ [] ↔ parents (nodes s) !! c = Some (Some id) ∧ c ≠ id) as Hkids.
  { intros c. split; [by intros ?%elem_of_nil|]. intros [Hc _].
    apply no_parent_absent in Hc; [done..|by apply parents_None]. }
  destruct parent as [p|]; cbn.
  - destruct Hpar as (np & d & Hnp & Hd & _ & _).
    assert (alter (λ n, with_children n (place index id (ordered_children n))) p (nodes s) =
      <[p := with_children np (place index id (ordered_children np))]> (nodes s)) as ->.
    { apply map_eq. intros j. rewrite lookup_alter.
      case_decide; subst; [by rewrite lookup_insert_eq, Hnp|by rewrite lookup_insert_ne]. }
    apply (attach_child (parents (nodes s)) id (nodes s)).
    + by apply unhooked_fresh.
    + done.
    + apply rooted_add_leaf; [by apply parents_None| |done]. cbn. intros ? [= <-].
      apply parents_is_Some. eauto.
    + constructor.
    + done.
    + done.
    + intros ->. congruence.
    + done.
    + apply place_perm.
  - apply (attach_root (parents (nodes s)) id (nodes s) (roots s)).
    + by apply unhooked_fresh.
    + done.
    + by apply rooted_add_leaf; [by apply parents_None|..].
    + constructor.
    + done.
    + done.
    + apply place_perm.
Qed.

Lemma created_wf s id t parent index ps :
  store_wf s → can_create s id parent index ps → store_wf (created s id t parent index ps).
Proof.
  intros Hwf Hcan. pose proof Hwf as [Hg Hp Hm]. pose proof (created_forest s id t parent index ps Hg Hcan) as Hf.
  destruct Hcan as (Hid & Hcount & Hpar & Hps).
  assert (nodes s !! id = None) as Hnone.
  { apply eq_None_not_Some. intros Hs. by apply Hid, gw_used. }
  split; [split|intros i n q v Hi Hv|by split; apply Hm].
  - done.
  - intros i. rewrite <- parents_is_Some, created_parents. cbn. rewrite elem_of_union, elem_of_singleton.
    intros [v Hv]. apply lookup_insert_Some in Hv as [[<- _]|[_ Hi]]; [by left|right].
    apply gw_used; [done|]. apply parents_is_Some. eauto.
  - unfold map_len. rewrite <- parents_size, created_parents.
    rewrite map_size_insert_None by (by apply parents_None). rewrite parents_size.
    cbn. unfold map_len in Hcount. lia.
  - intros i d. rewrite created_parents. cbn. intros Hd.
    assert (is_Some (parents (nodes s) !! i) ∨ i = id) as [Hi| ->].
    { apply depth_lookup in Hd as [v Hv].
      apply lookup_insert_Some in Hv as [[<- _]|[_ ?]]; [by right|left; eauto]. }
    + destruct (forest_rooted _ _ (gw_forest _ Hg) i Hi) as [d' Hd'].
      pose proof (gw_depth _ Hg i d' Hd').
      apply (depth_add_other _ id parent) in Hd'; [|by apply parents_None].
      by rewrite (depth_fun _ _ _ _ Hd Hd').
    + destruct parent as [p|].
      * destruct Hpar as (np & dp & Hnp & Hdp & Hle & _).
        apply (depth_parent _ _ p) in Hd as (d' & -> & Hd'); [|apply lookup_insert_eq].
        apply (depth_add_other _ id (Some p)) in Hdp; [|by apply parents_None].
        rewrite (depth_fun _ _ _ _ Hd' Hdp). lia.
      * destruct Hpar as [? _]. inversion Hd; subst; [lia|].
        match goal with H : <[_ := _]> _ !! _ = _ |- _ => by rewrite lookup_insert_eq in H end.
  - cbn in Hi. apply lookup_insert_Some in Hi as [[<- <-]|[_ Hi]].
    + cbn in Hv. apply insert_all_lookup in Hv as [Hv|Hv]; [apply (property_ok_stored s); [done|by apply Hps]|].
      by rewrite lookup_empty in Hv.
    + assert (∃ n0, nodes s !! i = Some n0 ∧ properties n = properties n0) as (n0 & Hi0 & Heq).
      { destruct parent as [p|]; [|by exists n]. rewrite lookup_alter in Hi.
        destruct (decide (p = i)) as [->|]; [|by exists n].
        destruct (nodes s !! i) as [n0|]; [|done]. injection Hi as <-. by exists n0. }
      rewrite Heq in Hv. by apply (Hp i n0).
Qed.

Lemma create_node_wf s id t parent index ps s' :
  store_wf s → create_node s id t parent index ps = Ok s' → store_wf s'.
Proof.
  intros Hwf [Hcan ->]%create_node_effect; [|apply Hwf]. by apply created_wf.
Qed.

Lemma create_node_returns s id t parent index ps :
  graph_wf s → returns (create_node s id t parent index ps).
Proof.
  intros Hwf. pose proof (forest_rooted _ _ (gw_forest _ Hwf)) as Hr. unfold create_node.
  do 2 (apply returns_bind; [apply returns_err_if|intros _ _]).
  apply returns_bind.
  { destruct parent as [p|]; [|done].
    destruct (node_depth_cases s p Hr) as [[_ ->]|(d & _ & ->)]; cbn; [done|].
    apply returns_bind; [apply returns_err_if|done]. }
  intros dep Hdep. apply returns_bind; [apply returns_err_if|intros _ _].
  apply returns_bind; [apply validate_properties_returns|intros _ _].
  destruct parent as [p|].
  - destruct (node_depth_cases s p Hr) as [[_ Hn]|(d & Hd & _)].
    { rewrite Hn in Hdep. done. }
    apply depth_lookup, parents_is_Some in Hd as [np Hp]. rewrite Hp. cbn. destruct index; cbn; [|done].
    apply returns_bind; [apply returns_err_if|done].
  - cbn. destruct index; cbn; [|done].
    destruct (len (roots s) <? n)%N; done.
Qed.
End props.
