(* ===== verification/StoreMove.v ===== *)
(** * Deleting and moving subtrees

    What [delete_node] and [move_node] do to the forest, exactly, and that both
    keep the store invariant, return and do not panic. *)

From S2P Require Import Prelude.
From S2P Require Import Values.
From S2P Require Import Limits.
From S2P Require Import Models.
From S2P Require Import ModelFacts.
From S2P Require Import Store.
From S2P Require Import StoreFacts.
From S2P Require Import StoreInv.

(** [s] with another graph in which every node was there before, with the same
    properties. *)
Record regraphed (s s' : SemanticStore) : Prop := {
  rg_nodes : ∀ i n, nodes s' !! i = Some n →
    ∃ n0, nodes s !! i = Some n0 ∧ properties n = properties n0 ∧ node_type n = node_type n0;
  rg_used : used_ids s' = used_ids s;
  rg_models : models s' = models s;
  rg_used_models : used_model_ids s' = used_model_ids s;
  rg_limits : limits s' = limits s;
  rg_revision : revision s' = revision s;
}.

Section moves.
Context `{Registry, PropertyIter}.

Lemma regraphed_wf s s' :
  store_wf s → regraphed s s' → forest (nodes s') (roots s') →
  (∀ i d, depth (parents (nodes s')) i d → (N.of_nat d ≤ max_tree_depth (limits s))%N) →
  store_wf s'.
Proof.
  intros [Hg Hp Hm] [Hn Hu Hmod Hum Hl _] Hf Hd. split; [split|intros i n p v Hi Hv|split].
  - done.
  - intros i [n Hi]. rewrite Hu. destruct (Hn i n Hi) as (? & ? & _). apply Hg. eauto.
  - rewrite Hl. etrans; [|apply Hg]. unfold map_len.
    enough (size (nodes s') ≤ size (nodes s)) by lia. rewrite <- !size_dom. apply subseteq_size. intros i [n Hi]%elem_of_dom.
    destruct (Hn i n Hi) as (? & ? & _). apply elem_of_dom. eauto.
  - by rewrite Hl.
  - destruct (Hn i n Hi) as (n0 & Hi0 & Hps & _). rewrite Hps in Hv.
    destruct (Hp i n0 p v Hi0 Hv) as [Hlim Href]. split; [by rewrite Hl|].
    by rewrite Hum.
  - rewrite Hmod, Hum. apply Hm.
  - rewrite Hmod, Hl. apply Hm.
  - rewrite Hmod. apply Hm.
Qed.

Lemma detach_node_inv s op id i n : nodes (detach s op id) !! i = Some n →
  ∃ n0, nodes s !! i = Some n0 ∧ properties n = properties n0 ∧ node_type n = node_type n0 ∧
    ordered_children n = (if decide (op = Some i) then retain_ne id (ordered_children n0)
                          else ordered_children n0).
Proof.
  rewrite detach_nodes. case_decide; [|by eauto 10].
  intros (n0 & ? & ->)%fmap_Some. eauto 10.
Qed.

(** ** [delete_node] *)

Lemma removed_parents ns L j :
  parents (removed ns L) !! j = if decide (j ∈ L) then None else parents ns !! j.
Proof. rewrite !parents_lookup, removed_lookup. by case_decide. Qed.

Lemma delete_node_spec s id n :
  store_wf s → nodes s !! id = Some n →
  ∃ L, delete_node s id =
      Ok (with_nodes (detach s (parent_id n) id)
            (removed (nodes (detach s (parent_id n) id)) L), L) ∧
    NoDup L ∧ (∀ j, j ∈ L ↔ under (parents (nodes s)) id j).
Proof.
  intros Hwf Hn. pose proof (gw_forest _ (sw_graph _ Hwf)) as Hf.
  unfold delete_node. rewrite Hn. cbn [ok_or mbind result_bind]. set (s1 := detach s (parent_id n) id).
  pose proof (forest_rooted _ _ Hf) as Hr.
  destruct (Hr id) as [d Hd]; [by apply parents_is_Some; eauto|].
  assert (parents (nodes s1) = parents (nodes s)) as Hpar by apply detach_parents.
  edestruct (delete_subtree_deletes (nodes s1) (S (size (nodes s1))) (nodes s1) id d)
    as (L & -> & HL); [by rewrite Hpar| |lia|done|].
  - intros j Hu nj Hj. rewrite Hpar. rewrite Hpar in Hu.
    destruct (unh_kids _ _ _ _ (detach_unhooked s id n Hf Hn) j nj Hj) as [Hnd Hin].
    split; [done|]. intros c. rewrite Hin. split; [naive_solver|]. intros Hc.
    split; [done|]. intros ->. by eapply under_parent_absurd.
  - exists L. rewrite app_nil_l, <- Hpar. done.
Qed.

Lemma delete_node_regraphed s id n L :
  nodes s !! id = Some n →
  regraphed s (with_nodes (detach s (parent_id n) id)
    (removed (nodes (detach s (parent_id n) id)) L)).
Proof.
  intros Hn. destruct (detach_frame s (parent_id n) id) as (?&?&?&?&?). split; cbn; try done.
  intros i m. rewrite removed_lookup. case_decide; [done|]. intros Hm%detach_node_inv. naive_solver.
Qed.

Lemma delete_node_wf s id s' L : store_wf s → delete_node s id = Ok (s', L) → store_wf s'.
Proof.
  intros Hwf Heq. pose proof (gw_forest _ (sw_graph _ Hwf)) as Hf.
  destruct (nodes s !! id) as [n|] eqn:Hn; [|unfold delete_node in Heq; by rewrite Hn in Heq].
  destruct (delete_node_spec s id n Hwf Hn) as (L' & Heq' & Hnd & HL).
  rewrite Heq' in Heq. injection Heq as <- <-.
  pose proof (detach_unhooked s id n Hf Hn) as Hu.
  apply (regraphed_wf s); [done|by apply delete_node_regraphed| |]; cbn.
  - eapply (forest_removed _ id); [done|apply detach_parents|apply Hf|done].
  - intros i d Hd. apply (gw_depth _ (sw_graph _ Hwf) i).
    eapply (depth_cut_inv (parents (nodes s)) _ id); [| |done]; intros j Hj;
      rewrite removed_parents, detach_parents; [by rewrite decide_False by (by rewrite HL)|].
    by rewrite decide_True by (by rewrite HL).
Qed.

Lemma delete_node_returns s id : store_wf s → returns (delete_node s id).
Proof.
  intros Hwf. destruct (nodes s !! id) as [n|] eqn:Hn.
  - by destruct (delete_node_spec s id n Hwf Hn) as (L & -> & _).
  - unfold delete_node. by rewrite Hn.
Qed.

(** ** [move_node] *)

(** The list [id] is inserted into. *)
Definition siblings (s : SemanticStore) (parent : option NodeId) : option (list NodeId) :=
  match parent with Some p => ordered_children <$> nodes s !! p | None => Some (roots s) end.

Definition parent_depth (s : SemanticStore) (parent : option NodeId) (d : nat) : Prop :=
  match parent with Some p => depth (parents (nodes s)) p d | None => d = 0 end.

Definition can_move (s : SemanticStore) (id : NodeId) (parent : option NodeId) (index : option N)
    : Prop :=
  is_Some (nodes s !! id) ∧
  (∀ p, parent = Some p → ¬ under (parents (nodes s)) id p) ∧
  (∃ d h, parent_depth s parent d ∧ height (parents (nodes s)) id h ∧
    (N.of_nat (d + h) ≤ max_tree_depth (limits s))%N) ∧
  ∃ l, siblings s parent = Some l ∧ index_ok index l.

(** The new sibling list: [id] taken out, then put back at the index. *)
Definition replace_in (index : option N) (id : NodeId) (l : list NodeId) : list NodeId :=
  place ((λ i, N.min i (len (retain_ne id l))) <$> index) id (retain_ne id l).

Lemma height_fun pm i h h' d : depth pm i d → height pm i h → height pm i h' → 0 < h → 0 < h' → h = h'.
Proof.
  intros Hd Hh Hh' ? ?. destruct (Hh d Hd) as [Hall (j & Hu & Hj)].
  destruct (Hh' d Hd) as [Hall' (j' & Hu' & Hj')].
  apply (Hall _ _ Hu') in Hj'. apply (Hall' _ _ Hu) in Hj. lia.
Qed.

Lemma height_pos pm i h d : depth pm i d → height pm i h → 0 < h.
Proof.
  intros Hd Hh. destruct (Hh d Hd) as [Hall _]. specialize (Hall i d (under_refl _ _) Hd). lia.
Qed.

Lemma siblings_detach s id n q :
  forest (nodes s) (roots s) → nodes s !! id = Some n →
  siblings (detach s (parent_id n) id) q = retain_ne id <$> siblings s q.
Proof.
  intros Hf Hn.
  assert (parents (nodes s) !! id = Some (parent_id n)) as Hpid by (apply parents_Some; eauto).
  destruct q as [p|]; cbn.
  - rewrite detach_nodes. destruct (nodes s !! p) as [np|] eqn:Hp; case_decide as Hop; cbn; [done| |done..].
    rewrite retain_ne_id; [done|]. intros Hin%(forest_kids _ _ Hf p np Hp). congruence.
  - rewrite detach_roots. destruct (parent_id n) eqn:Hop; [|done].
    rewrite retain_ne_id; [done|]. intros Hin%(forest_roots _ _ Hf). congruence.
Qed.

(** What [relocate] leaves: every node's parent pointer but [id]'s, every
    child list but the two that lose and gain [id]. *)
Record moved (s : SemanticStore) (id : NodeId) (parent : option NodeId) (index : option N)
    (s' : SemanticStore) : Prop := {
  mv_graph : regraphed s s';
  mv_parents : parents (nodes s') = <[id := parent]> (parents (nodes s));
  mv_siblings : siblings s' parent = replace_in index id <$> siblings s parent;
  mv_others : ∀ q, q ≠ parent → siblings s' q = retain_ne id <$> siblings s q;
  mv_forest : forest (nodes s') (roots s');
}.

Lemma relocate_moved s s1 id n m parent l l' s' :
  forest (nodes s) (roots s) → nodes s !! id = Some n → s1 = detach s (parent_id n) id →
  (∀ p, parent = Some p → ¬ under (parents (nodes s)) id p) →
  nodes s1 !! id = Some m → siblings s1 parent = Some l → l' ≡ₚ id :: l →
  s' = match parent with
       | Some p => with_nodes s1 (<[id := with_parent m parent]>
           (alter (λ np, with_children np l') p (nodes s1)))
       | None => with_roots (with_nodes s1 (<[id := with_parent m parent]> (nodes s1))) l'
       end →
  regraphed s s' ∧ parents (nodes s') = <[id := parent]> (parents (nodes s)) ∧
  siblings s' parent = Some l' ∧ (∀ q, q ≠ parent → siblings s' q = siblings s1 q) ∧
  forest (nodes s') (roots s').
Proof.
  intros Hf Hn Hs1 Hcyc Hm Hl Hperm ->.
  pose proof (detach_unhooked s id n Hf Hn) as Hu. rewrite <- Hs1 in Hu.
  pose proof (detach_parents s (parent_id n) id) as Hpar. rewrite <- Hs1 in Hpar.
  destruct (detach_frame s (parent_id n) id) as (Hused & Hmod & Hum & Hlim & Hrev).
  assert (∀ i k, nodes (detach s (parent_id n) id) !! i = Some k →
    ∃ n0, nodes s !! i = Some n0 ∧ properties k = properties n0 ∧ node_type k = node_type n0) as Hinv.
  { intros i k (n0 & ? & ? & ? & _)%detach_node_inv. eauto. }
  rewrite <- Hs1 in Hused, Hmod, Hum, Hlim, Hrev, Hinv. clear Hs1.
  destruct (unh_kids _ _ _ _ Hu id m Hm) as [Hnd Hkids].
  pose proof (unh_key _ _ _ _ Hu id m Hm) as Hkey.
  destruct parent as [p|]; cbn in Hl |- *.
  - apply fmap_Some in Hl as (np & Hp & ->).
    assert (p ≠ id) as Hne by (intros ->; apply (Hcyc id eq_refl); constructor).
    rewrite (alter_alt_Some _ _ _ _ Hp). split_and!.
    + split; cbn; try done. intros i k [[<- <-]|[_ Hk]]%lookup_insert_Some; [by apply (Hinv id m)|].
      apply lookup_insert_Some in Hk as [[<- <-]|[_ Hk]]; [by apply (Hinv p np)|by apply Hinv].
    + by rewrite parents_insert, (parents_update _ _ np), Hpar.
    + by rewrite lookup_insert_ne, lookup_insert_eq.
    + intros [q|] Hq; [|done]. cbn. destruct (decide (q = id)) as [->|].
      { by rewrite lookup_insert_eq, Hm. }
      rewrite !lookup_insert_ne; [done|congruence..].
    + apply (attach_child (parents (nodes s))); try done. cbn.
      apply rooted_move; [done|apply parents_is_Some; eauto| |apply Hf].
      intros ? [= <-]. rewrite <- Hpar. apply parents_is_Some. eauto.
  - injection Hl as <-. split_and!; [|by rewrite parents_insert, Hpar|done| |].
    + split; cbn; try done. intros i k [[<- <-]|[_ Hk]]%lookup_insert_Some; [by apply (Hinv id m)|by apply Hinv].
    + intros [q|] Hq; [|done]. cbn. destruct (decide (q = id)) as [->|].
      { by rewrite lookup_insert_eq, Hm. }
      by rewrite lookup_insert_ne.
    + apply (attach_root (parents (nodes s)) id (nodes s1) (roots s1)); try done. cbn.
      by apply rooted_move; [|apply parents_is_Some; eauto| |apply Hf].
Qed.

Lemma relocate_spec s id n parent index l :
  forest (nodes s) (roots s) → nodes s !! id = Some n →
  (∀ p, parent = Some p → ¬ under (parents (nodes s)) id p) →
  siblings s parent = Some l →
  ∃ s', relocate s id (parent_id n) parent index = Ok s' ∧ moved s id parent index s'.
Proof.
  intros Hf Hn Hcyc Hl. pose proof (λ q, siblings_detach s id n q Hf Hn) as Hsib.
  pose proof (Hsib parent) as Hl1. rewrite Hl in Hl1. cbn in Hl1.
  assert (∃ m, nodes (detach s (parent_id n) id) !! id = Some m) as [m Hm].
  { apply parents_is_Some. rewrite detach_parents. apply parents_is_Some. eauto. }
  pose proof (place_perm ((λ i, N.min i (len (retain_ne id l))) <$> index) id (retain_ne id l)) as Hperm.
  destruct (relocate_moved s _ id n m parent _ _ _ Hf Hn eq_refl Hcyc Hm Hl1 Hperm eq_refl)
    as (Hg & Hpar & Hs & Ho & Hf').

  eexists. split; [|split; [apply Hg|apply Hpar|by rewrite Hs, Hl|
    intros q Hq; by rewrite Ho, Hsib|apply Hf']].
  unfold relocate. destruct parent as [p|]; cbn in Hl1.
  - assert (p ≠ id) as Hne by (intros ->; apply (Hcyc id eq_refl); constructor).
    apply fmap_Some in Hl1 as (np & Hp & Heq). rewrite Hp. cbn.
    rewrite lookup_insert_ne, Hm by done. cbn. rewrite (alter_alt_Some _ _ _ _ Hp), <- Heq.
    by destruct index.
  - injection Hl1 as Heq. cbn. rewrite Hm. cbn. rewrite Heq. by destruct index.
Qed.

Lemma parent_depth_cases s parent : rooted (parents (nodes s)) →
  let found := match parent with
               | Some pid => found ← node_depth s pid; ok_or (ParentNotFound pid) found
               | None => Ok 0%N
               end in
  returns found ∧ ∀ d, found = Ok d ↔ ∃ k, d = N.of_nat k ∧ parent_depth s parent k.
Proof.
  intros Hr found. subst found. destruct parent as [p|]; cbn [parent_depth].
  - destruct (node_depth_cases s p Hr) as [[Hn ->]|(k & Hk & ->)]; cbn.
    + split; [done|]. intros d. split; [done|]. intros (k & _ & Hk%depth_lookup).
      apply parents_None in Hn. rewrite Hn in Hk. by destruct Hk.
    + split; [done|]. intros d. split; [intros [= <-]; eauto|].
      intros (k' & -> & Hk'). by rewrite (depth_fun _ _ _ _ Hk Hk').
  - split; [done|]. intros d. split; [intros [= <-]; by exists 0|]. by intros (k & -> & ->).
Qed.

Lemma siblings_len s parent :
  match parent with
  | Some pid => parent_node ← expect (nodes s !! pid); Ok (len (ordered_children parent_node))
  | None => Ok (len (roots s))
  end = expect (E:=StoreError) (len <$> siblings s parent).
Proof. destruct parent as [p|]; [|done]. cbn. by destruct (nodes s !! p). Qed.

(** [move_node] succeeds exactly when [can_move] says, and then moves. *)
Lemma move_node_cases s id parent index :
  store_wf s →
  (∃ s', move_node s id parent index = Ok s' ∧ can_move s id parent index ∧
     moved s id parent index s') ∨
  (∃ e, move_node s id parent index = Err e ∧ ¬ can_move s id parent index).
Proof.
  intros Hwf. pose proof (gw_forest _ (sw_graph _ Hwf)) as Hf.
  pose proof (forest_rooted _ _ Hf) as Hr. unfold move_node, contains_node.
  destruct (nodes s !! id) as [n|] eqn:Hn; cycle 1.
  { right. eexists. rewrite bool_decide_eq_false_2 by (by rewrite <- eq_None_not_Some).
    split; [done|]. intros [[? ?] _]. congruence. }
  rewrite bool_decide_eq_true_2 by done. cbn [negb err_if mbind result_bind].
  destruct (check_cycle_spec s id parent Hr) as [Hret Hcyc].
  destruct (check_cycle s id parent) as [[]|e| |] eqn:Hc; [|right|done..]; cbn [mbind result_bind];
    cycle 1.
  { exists e. split; [done|]. intros (_ & Hu & _). by apply Hcyc in Hu. }
  pose proof (proj1 Hcyc eq_refl) as Hu. clear Hcyc Hret.
  destruct (Hr id) as [di Hdi]; [apply parents_is_Some; eauto|].
  destruct (subtree_depth_spec s id di) as (h & Hpos & -> & Hh); [apply Hf|done|].
  cbn [mbind result_bind].
  destruct (parent_depth_cases s parent Hr) as [Hret Hcases].
  destruct (match parent with Some _ => _ | None => _ end) as [d|e| |]; [|right|done..]; cycle 1.
  { exists e. split; [done|]. intros (_ & _ & (d & h' & Hd & _) & _).
    assert (Err e = Ok (N.of_nat d)) by (apply Hcases; eauto). done. }
  destruct (Hcases d) as [(k & -> & Hk) _]; [done|]. clear Hcases Hret. cbn [mbind result_bind].
  destruct (max_tree_depth (limits s) <? N.of_nat k + N.of_nat h)%N eqn:Hlt; cbn [err_if mbind result_bind].
  { right. eexists. split; [done|]. intros (_ & _ & (k' & h' & Hk' & Hh' & Hle) & _).
    apply N.ltb_lt in Hlt. pose proof (height_pos _ _ _ _ Hdi Hh').
    rewrite (height_fun _ _ _ _ _ Hdi Hh' Hh) in Hle by done.
    assert (k' = k) by (destruct parent; cbn in Hk, Hk'; [by eapply depth_fun|congruence]). lia. }
  apply N.ltb_ge in Hlt. rewrite siblings_len.
  assert (∃ l, siblings s parent = Some l) as [l Hl].
  { destruct parent as [p|]; [|by eexists]. cbn. apply depth_lookup, parents_is_Some in Hk as [np ->].
    by eexists. }
  rewrite Hl. cbn [fmap option_fmap option_map expect mbind result_bind].
  remember (match index with Some _ => _ | None => _ end) as guard eqn:Hg.
  pose proof (index_ok_guard index l tt) as Hgi. rewrite <- Hg in Hgi.
  destruct guard as [[]|e| |]; cbn [mbind result_bind].
  - left. destruct (relocate_spec s id n parent index l Hf Hn Hu Hl) as (s' & -> & Hmv).
    exists s'. split; [done|]. split; [|done]. split_and!; [eauto|done| |exists l].
    + exists k, h. split_and!; [done..|lia].
    + split; [done|]. by apply Hgi.
  - right. exists e. split; [done|]. intros (_ & _ & _ & l' & Hl' & Hi). simplify_eq.
    by apply Hgi in Hi.
  - destruct index; [|done]. by destruct (_ <? _)%N.
  - destruct index; [|done]. by destruct (_ <? _)%N.
Qed.

Lemma moved_depth s id parent index s' i d :
  store_wf s → can_move s id parent index → moved s id parent index s' →
  depth (parents (nodes s')) i d → (N.of_nat d ≤ max_tree_depth (limits s))%N.
Proof.
  intros Hwf ([n Hn] & Hu & (k & h & Hk & Hh & Hle) & _) [_ -> _ _ _] Hd.
  pose proof (gw_forest _ (sw_graph _ Hwf)) as Hf. pose proof (forest_rooted _ _ Hf) as Hr.
  assert (is_Some (parents (nodes s) !! id)) as Hid by (apply parents_is_Some; eauto).
  assert (is_Some (parents (nodes s) !! i)) as Hi.
  { apply depth_lookup in Hd as [v [[<- _]|[_ ?]]%lookup_insert_Some]; eauto. }
  destruct (Hr i Hi) as [di Hdi]. destruct (Hr id Hid) as [d0 Hd0].
  destruct (under_dec_depth _ id i di Hdi) as [Hui|Hui].
  - pose proof (depth_move_self _ id parent k Hu Hk) as Hself.
    pose proof (depth_move_inside _ id parent i d0 di _ Hui Hd0 Hdi Hself) as Hd'.
    rewrite (depth_fun _ _ _ _ Hd Hd'). destruct (Hh d0 Hd0) as [Hall _].
    specialize (Hall i di Hui Hdi). pose proof (height_pos _ _ _ _ Hd0 Hh). lia.
  - rewrite (depth_fun _ _ _ _ Hd (depth_move_outside _ id parent i di Hui Hdi)).
    by apply (gw_depth _ (sw_graph _ Hwf) i).
Qed.

Lemma move_node_wf s id parent index s' :
  store_wf s → move_node s id parent index = Ok s' → store_wf s'.
Proof.
  intros Hwf Heq. destruct (move_node_cases s id parent index Hwf) as [(s1 & Heq1 & Hcan & Hmv)|(e & Heq1 & _)];
    rewrite Heq1 in Heq; [|done]. injection Heq as <-.
  eapply regraphed_wf; [done|apply Hmv..|]. intros i d. by eapply moved_depth.
Qed.

Lemma move_node_returns s id parent index : store_wf s → returns (move_node s id parent index).
Proof.
  intros Hwf. by destruct (move_node_cases s id parent index Hwf) as [(? & -> & _)|(? & -> & _)].
Qed.
End moves.
