(* ===== verification/StoreModels.v ===== *)
(** * The store's model operations

    Models keep their identity under every operation, the store invariant
    survives each of them, and the cache stays within
    [max_cached_items_per_model] under insertion and window replacement. *)

From S2P Require Import Prelude.
From S2P Require Import Values.
From S2P Require Import Limits.
From S2P Require Import Models.
From S2P Require Import ModelFacts.
From S2P Require Import Store.
From S2P Require Import StoreFacts.
From S2P Require Import StoreInv.

(** ** Identity *)
Definition same_ident (m m' : Model) : Prop :=
  model_id m' = model_id m ∧ model_type m' = model_type m.

#[export] Instance same_ident_preorder : PreOrder same_ident.
Proof.
  split; [done|]. intros m1 m2 m3 [? ?] [? ?]. split; congruence.
Qed.

Lemma foldl_ident {A} (f : Model → A → Model) l m :
  (∀ m x, same_ident m (f m x)) → same_ident m (foldl f m l).
Proof.
  intros Hf. revert m. induction l as [|x l IH]; intros m; cbn; [done|].
  etrans; [apply Hf|apply IH].
Qed.

Lemma remove_slot_ident m i : same_ident m (remove_slot m i).
Proof. unfold remove_slot. by destruct (items m !! i). Qed.

Lemma shift_ident m from delta : same_ident m (shift_cached_indices m from delta).
Proof.
  unfold shift_cached_indices. case_match; [done|]. etrans; [|apply foldl_ident]; [done|].
  by intros ? [? ?].
Qed.

Lemma put_items_ident m start batch : same_ident m (put_items m start batch).
Proof. apply foldl_ident. by intros ? [? ?]. Qed.

Lemma insert_items_ident m index batch m' : insert_items m index batch = Ok m' → same_ident m m'.
Proof.
  unfold insert_items. intros Heq. inv_ok. case_match; inv_ok; subst; [|done].
  etrans; [apply shift_ident|]. etrans; [apply put_items_ident|]. done.
Qed.

Lemma delete_one_ident m id : same_ident m (delete_one m id).
Proof.
  unfold delete_one. case_match; [|done]. etrans; [|apply shift_ident]. done.
Qed.

Lemma delete_items_ident m index count ids m' :
  delete_items m index count ids = Ok m' → same_ident m m'.
Proof.
  unfold delete_items. intros Heq. inv_ok. case_match; inv_ok.
  { subst. apply foldl_ident, delete_one_ident. }
  case_match; inv_ok; subst; [|done]. unfold delete_range in Heq. inv_ok. case_match; [done|]. inv_ok.
  subst. etrans; [|etrans; [apply shift_ident|done]]. apply foldl_ident, remove_slot_ident.
Qed.

Lemma update_one_ident index m x : same_ident m (update_one index m x).1.
Proof.
  destruct x as [i it]. unfold update_one. destruct index as [base|]; case_match; try done.
  cbn. etrans; [|etrans; [apply remove_slot_ident|done]]. by case_match.
Qed.

Lemma run_loop_rel {S A E} (R : S → S → Prop) `{!PreOrder R} (f : S → A → S * result E unit) xs s :
  (∀ s x, R s (f s x).1) → R s (run_loop f s xs).1.
Proof.
  intros Hf. revert s. induction xs as [|x xs IH]; intros s; cbn; [done|].
  specialize (Hf s x). destruct (f s x) as [s1 [[]| | |]]; cbn in *; try done.
  etrans; [done|apply IH].
Qed.

Lemma update_items_ident m index batch : same_ident m (update_items m index batch).1.
Proof. apply (run_loop_rel same_ident), update_one_ident. Qed.

Lemma settle_count_ident m total : same_ident m (settle_count m total).
Proof. unfold settle_count. case_match; [|done]. by case_match. Qed.

Lemma reset_range_ident m start batch total : same_ident m (reset_range m start batch total).1.
Proof.
  unfold reset_range. pose proof (settle_count_ident m total) as Hs.
  destruct (reset_window _ _ _) as [m'| | |] eqn:Heq; cbn; try done.
  unfold reset_window in Heq. inv_ok. subst. etrans; [done|]. etrans; [|apply put_items_ident].
  apply foldl_ident, remove_slot_ident.
Qed.

Lemma evict_ident m s e n : same_ident m (evict_farthest_outside m s e n).
Proof.
  unfold evict_farthest_outside. case_match; [done|]. apply foldl_ident, remove_slot_ident.
Qed.

Lemma reset_with_eviction_ident l m start batch total :
  same_ident m (reset_with_eviction l m start batch total).1.
Proof.
  unfold reset_with_eviction.
  repeat case_match; cbn; try done; try apply evict_ident; try apply reset_range_ident.
  etrans; [apply evict_ident|apply reset_range_ident].
Qed.

(** ** The store invariant *)
Section models.
Context `{Registry, PropertyIter}.

(** Rewriting one live model in place. *)
Lemma with_model_wf s id m m' :
  store_wf s → models s !! id = Some m → same_ident m m' →
  store_wf (with_models s (<[id := m']> (models s))).
Proof.
  intros [Hg Hp [Hu Hc Hid]] Hm [Hident _]. split; [by split; apply Hg|done|]. split; cbn.
  - intros i [k Hi]. apply Hu. apply lookup_insert_Some in Hi as [[<- _]|[_ ?]]; eauto.
  - unfold map_len. rewrite map_size_insert_Some by eauto. apply Hc.
  - intros i k [[<- <-]|[_ Hi]]%lookup_insert_Some; [rewrite Hident|]; by apply Hid.
Qed.

Lemma create_model_wf s id t count s' :
  store_wf s → create_model s id t count = Ok s' → store_wf s'.
Proof.
  intros [Hg Hp [Hu Hc Hid]] Heq. unfold create_model in Heq. inv_ok. subst.
  apply bool_decide_eq_false in Heq0. apply N.leb_gt in Heq1.
  assert (models s !! id = None) as Hnone.
  { apply eq_None_not_Some. intros ?%Hu. done. }
  split; [by split; apply Hg| |split; cbn].
  - intros i n p v Hi Hv. destruct (Hp i n p v Hi Hv) as [? Hr]. split; [done|].
    intros (mid & ? & ?)%Hr. exists mid. split; [done|]. cbn. set_solver.
  - intros i [k Hi]. apply lookup_insert_Some in Hi as [[<- _]|[_ Hi]]; [set_solver|].
    apply elem_of_union_r, Hu. eauto.
  - unfold map_len in *. rewrite map_size_insert_None by done. lia.
  - intros i k [[<- <-]|[_ Hi]]%lookup_insert_Some; [done|by apply Hid].
Qed.

Lemma delete_model_wf s id s' old :
  store_wf s → delete_model s id = Ok (s', old) → store_wf s'.
Proof.
  intros [Hg Hp [Hu Hc Hid]] Heq. unfold delete_model in Heq. inv_ok. injection Heq as <- <-.
  apply negb_false_iff, bool_decide_eq_true in Heq0.
  split; [by split; apply Hg|done|split; cbn].
  - intros i [k [_ Hi]%lookup_delete_Some]. apply Hu. eauto.
  - unfold map_len in *. etrans; [|apply Hc]. rewrite map_size_delete.
    destruct Heq0 as [? ->]. lia.
  - intros i k [_ Hi]%lookup_delete_Some. by apply Hid.
Qed.

Lemma model_insert_wf s id index batch s' :
  store_wf s → model_insert s id index batch = Ok s' → store_wf s'.
Proof.
  intros Hwf Heq. unfold model_insert in Heq. inv_ok. subst.
  eapply with_model_wf; [done..|]. by eapply insert_items_ident.
Qed.

Lemma model_delete_wf s id index count ids s' :
  store_wf s → model_delete s id index count ids = Ok s' → store_wf s'.
Proof.
  intros Hwf Heq. unfold model_delete in Heq. inv_ok. subst.
  eapply with_model_wf; [done..|]. by eapply delete_items_ident.
Qed.

Lemma model_update_wf s id index batch : store_wf s → store_wf (model_update s id index batch).1.
Proof.
  intros Hwf. unfold model_update. destruct (_ ≫= _) as [m| | |] eqn:Heq; [|done..].
  inv_ok. eapply with_model_wf; [done..|]. apply update_items_ident.
Qed.

Lemma model_reset_range_wf s id start batch total :
  store_wf s → store_wf (model_reset_range s id start batch total).1.
Proof.
  intros Hwf. unfold model_reset_range. destruct (_ ≫= _) as [m| | |] eqn:Heq; [|done..].
  inv_ok. eapply with_model_wf; [done..|]. apply reset_with_eviction_ident.
Qed.

(** ** These calls return *)

Lemma returns_validate_items l batch : returns (validate_items l batch).
Proof.
  apply returns_for_each. intros it _. apply returns_bind; [apply validate_value_returns|].
  intros _ _. apply returns_for_each. intros v _. apply validate_value_returns.
Qed.

Lemma insert_ids_fresh_returns m inc batch : returns (insert_ids_fresh m inc batch).
Proof.
  revert inc. induction batch as [|it batch IH]; intros inc; cbn; [done|]. by case_match.
Qed.

Lemma reset_ids_ok_returns m s e inc batch : returns (reset_ids_ok m s e inc batch).
Proof.
  revert inc. induction batch as [|it batch IH]; intros inc; cbn [reset_ids_ok]; [done|].
  case_match; [done|]. apply returns_bind; [apply returns_err_if|done].
Qed.

Lemma insert_items_returns m index batch : returns (insert_items m index batch).
Proof.
  unfold insert_items. apply returns_bind; [apply returns_err_if|intros _ _].
  apply returns_bind; [apply insert_ids_fresh_returns|intros _ _]. by case_match.
Qed.

Lemma reset_range_returns m start batch total : returns (reset_range m start batch total).2.
Proof.
  unfold reset_range. enough (returns (reset_window (settle_count m total) start batch)) as Hr.
  { by destruct (reset_window _ _ _). }
  unfold reset_window. do 2 (apply returns_bind; [apply returns_err_if|intros _ _]).
  apply returns_bind; [apply reset_ids_ok_returns|done].
Qed.

Lemma run_loop_returns {S A E} (f : S → A → S * result E unit) xs s :
  (∀ s x, returns (f s x).2) → returns (run_loop f s xs).2.
Proof.
  intros Hf. revert s. induction xs as [|x xs IH]; intros s; cbn; [done|].
  specialize (Hf s x). destruct (f s x) as [s1 [[]| | |]]; done || apply IH.
Qed.

Lemma update_items_returns m index batch : returns (update_items m index batch).2.
Proof.
  apply run_loop_returns. intros m1 [i it]. unfold update_one.
  destruct index; case_match; done.
Qed.

Lemma model_insert_returns s id index batch : returns (model_insert s id index batch).
Proof.
  unfold model_insert. apply returns_bind; [apply returns_err_if|intros _ _].
  apply returns_bind; [apply returns_validate_items|intros _ _].
  apply returns_bind; [apply returns_ok_or|intros m _].
  apply returns_bind; [apply returns_err_if|intros _ _].
  apply returns_bind; [apply insert_items_returns|done].
Qed.

Lemma model_check_returns (s : SemanticStore) (id : ModelId) (batch : list ModelItem) :
  returns (validate_model_items_batch (limits s) (len batch) ≫= λ _,
           validate_items (limits s) batch ≫= λ _, ok_or (ModelNotFound id) (models s !! id)).
Proof.
  apply returns_bind; [apply returns_err_if|intros _ _].
  apply returns_bind; [apply returns_validate_items|intros _ _]. apply returns_ok_or.
Qed.

Lemma model_update_returns s id index batch : returns (model_update s id index batch).2.
Proof.
  unfold model_update. pose proof (model_check_returns s id batch).
  destruct (_ ≫= _); [|done..]. apply update_items_returns.
Qed.

Lemma model_reset_range_returns s id start batch total :
  returns (model_reset_range s id start batch total).2.
Proof.
  unfold model_reset_range. pose proof (model_check_returns s id batch).
  destruct (_ ≫= _); [|done..]. unfold on_model, reset_with_eviction. cbn.
  repeat case_match; try done; apply reset_range_returns.
Qed.

(** The one operation that can panic: its range, unless the end overflows. *)
Lemma model_delete_returns s id index count ids :
  (default 0 index + default 0 count ≤ u64_max)%N → returns (model_delete s id index count ids).
Proof.
  intros Hfit. unfold model_delete. apply returns_bind; [apply returns_err_if|intros _ _].
  apply returns_bind; [apply returns_ok_or|intros m _].
  apply returns_bind; [|done]. unfold delete_items.
  apply returns_bind; [apply returns_err_if|intros _ _].
  case_match; [done|]. case_match; [|done]. unfold delete_range.
  apply returns_bind; [apply returns_err_if|intros _ _]. rewrite add64_small by done.
  by rewrite (proj2 (N.ltb_ge _ _)) by lia.
Qed.
End models.

(** ** The cache bound *)

Lemma put_entries_size m l :
  size (items (foldl put_entry m l)) ≤ size (items m) + length l.
Proof.
  revert m. induction l as [|e l IH]; intros m; cbn; [lia|].
  etrans; [apply IH|]. cbn. rewrite map_size_insert. destruct (items m !! e.1); cbn; lia.
Qed.

Lemma put_items_size m start batch :
  size (items (put_items m start batch)) ≤ size (items m) + length batch.
Proof.
  unfold put_items. rewrite <- (length_enumerate_from 0 batch). unfold enumerate.
  generalize (enumerate_from 0 batch). intros l. revert m.
  induction l as [|[i it] l IH]; intros m; cbn; [lia|].
  etrans; [apply IH|]. cbn. rewrite map_size_insert. destruct (items m !! _); cbn; lia.
Qed.

Lemma shift_size m from delta : size (items (shift_cached_indices m from delta)) ≤ size (items m).
Proof.
  destruct (decide (delta = 0%Z)) as [->|Hd].
  { unfold shift_cached_indices. by rewrite Z.eqb_refl. }
  rewrite shift_put by done. etrans; [apply put_entries_size|]. cbn.
  unfold moved_entries. rewrite length_fmap, btree_entries_perm, length_map_to_list.
  by rewrite split_size.
Qed.

Lemma insert_items_size m index batch m' :
  insert_items m index batch = Ok m' → (cached_item_count m' ≤ cached_item_count m + len batch)%N.
Proof.
  unfold insert_items, cached_item_count, map_len, len. intros Heq. inv_ok. case_match; inv_ok; subst; [|lia].
  cbn. pose proof (put_items_size (shift_cached_indices m index (as_i64 (N.of_nat (length batch)))) index batch).
  pose proof (shift_size m index (as_i64 (N.of_nat (length batch)))). lia.
Qed.

(** Clearing a window removes exactly the keys [projected_cached] discounts. *)
Lemma projected_cleared m start n :
  projected_cached m start (start + n) n = (map_len (items (foldl remove_slot m (seqN start n))) + n)%N.
Proof.
  unfold projected_cached, cached_item_count, map_len. set (ov := filter _ _).
  assert (items (foldl remove_slot m (seqN start n)) = items (foldl remove_slot m ov)) as ->.
  { apply map_eq. intros j. rewrite cleared_window_lookup, remove_slots_lookup.
    destruct (decide (j ∈ ov)) as [Hj|Hj]; unfold ov in Hj;
      rewrite elem_of_range_keys in Hj; case_decide; try done; [lia|].
    symmetry. apply eq_None_not_Some. intros ?. apply Hj. split; [lia|done]. }
  assert (size (items (foldl remove_slot m ov)) + length ov = size (items m)) as Hrem.
  { apply remove_slots_size; [apply NoDup_filter, NoDup_fst_btree_entries|].
    intros k. unfold ov. by intros [_ ?]%elem_of_range_keys. }
  unfold len. lia.
Qed.

Lemma reset_range_size m start batch total m' :
  (start + len batch ≤ u64_max)%N → reset_range m start batch total = (m', Ok tt) →
  (cached_item_count m' ≤ projected_cached m start (start + len batch) (len batch))%N.
Proof.
  intros Hfit Heq. unfold reset_range in Heq.
  destruct (settle_count_cache m total) as [Hits _]. revert Heq Hits.
  generalize (settle_count m total). intros m0 Heq Hits.
  destruct (reset_window m0 start batch) as [m1| | |] eqn:Hw; cbn in Heq; [|done..].
  injection Heq as <-. unfold reset_window in Hw. inv_ok. subst m1.
  rewrite add64_small by done. replace (start + len batch - start)%N with (len batch) by lia.
  assert (projected_cached m start (start + len batch) (len batch) =
    projected_cached m0 start (start + len batch) (len batch)) as ->.
  { unfold projected_cached, cached_item_count. by rewrite Hits. }
  rewrite projected_cleared. unfold cached_item_count, map_len.
  pose proof (put_items_size (foldl remove_slot m0 (seqN start (len batch))) start batch). unfold len in *. lia.
Qed.

Definition caches_bounded (s : SemanticStore) : Prop :=
  ∀ i m, models s !! i = Some m → (cached_item_count m ≤ max_cached_items_per_model (limits s))%N.

Lemma model_insert_bounded `{PropertyIter} s id index batch s' :
  caches_bounded s → model_insert s id index batch = Ok s' → caches_bounded s'.
Proof.
  intros Hb Heq. unfold model_insert in Heq. inv_ok. subst.
  intros i m. cbn. intros [[<- <-]|[_ Hi]]%lookup_insert_Some; [|by apply (Hb i)].
  apply insert_items_size in Heq4. apply N.ltb_ge in Heq3. lia.
Qed.

(** After a successful window replacement the model fits its cache, whatever
    was cached before. *)
Lemma reset_with_eviction_bounded l m start batch total m' :
  (start + len batch ≤ u64_max)%N → reset_with_eviction l m start batch total = (m', Ok tt) →
  (cached_item_count m' ≤ max_cached_items_per_model l)%N.
Proof.
  intros Hfit. unfold reset_with_eviction. set (m1 := if (_ <? _)%N then _ else m).
  destruct (_ <? projected_cached m1 _ _ _)%N eqn:Hlt; [done|]. intros Hr.
  apply reset_range_size in Hr; [|done]. apply N.ltb_ge in Hlt.
  unfold saturating_add64 in Hlt. rewrite N.min_l in Hlt by done. lia.
Qed.

Lemma model_reset_range_bounded `{PropertyIter} s id start batch total s' :
  caches_bounded s → (start + len batch ≤ u64_max)%N →
  model_reset_range s id start batch total = (s', Ok tt) → caches_bounded s'.
Proof.
  intros Hb Hfit. unfold model_reset_range. destruct (_ ≫= _) as [m| | |] eqn:Hm; [|done..].
  unfold on_model. destruct (reset_with_eviction _ _ _ _ _) as [m' r] eqn:Hr. cbn.
  intros [= <- ->]. apply reset_with_eviction_bounded in Hr; [|done].
  intros i k. cbn. intros [[<- <-]|[_ Hi]]%lookup_insert_Some; [done|by apply (Hb i)].
Qed.
