(* ===== verification/Transaction.v ===== *)
(** * Transactions

    Models [semantic-tree/src/transaction/]: the operations, the transaction
    record, its three validated delivery forms, and the staged application that
    makes a transaction atomic. *)

From S2P Require Import Prelude.
From S2P Require Import Values.
From S2P Require Import Limits.
From S2P Require Import Models.
From S2P Require Import Store.

(** ** Revisions ([operation.rs])

    [pub struct Revision(pub u64)]; the store keeps its number. *)
Definition Revision := N.
Definition INITIAL : Revision := 0%N.
(** [Revision::next], unchecked, and [Revision::checked_next]. *)
Definition next (r : Revision) : Revision := add64 r 1.
Definition checked_next (r : Revision) : option Revision := checked_add64 r 1.

(** [pub enum Operation] *)
Inductive Operation :=
| CreateNode (id : NodeId) (node_type : TypeRef) (parent_id : option NodeId) (child_index : option N)
    (properties : list (PropertyRef * Value))
| DeleteNode (id : NodeId)
| SetProperty (id : NodeId) (property : PropertyRef) (value : Value)
| ClearProperty (id : NodeId) (property : PropertyRef)
| MoveNode (id : NodeId) (new_parent_id : option NodeId) (new_child_index : option N)
| ReorderChildren (parent_id : NodeId) (new_order : list NodeId)
| BatchPropertySet (id : NodeId) (properties : list (PropertyRef * Value))
| CreateModel (id : ModelId) (model_type : TypeRef) (item_count : N)
| ModelInsert (id : ModelId) (index : N) (items : list ModelItem)
| ModelDelete (id : ModelId) (index count : option N) (item_ids : list ItemId)
| ModelUpdate (id : ModelId) (index : option N) (items : list ModelItem)
| ModelResetRange (id : ModelId) (start_index : N) (items : list ModelItem) (total_count : option N).

(** [Operation::model_delete_items] and [model_delete_range] *)
Definition model_delete_items (id : ModelId) (item_ids : list ItemId) : Operation :=
  ModelDelete id None None item_ids.
Definition model_delete_range (id : ModelId) (index count : N) : Operation :=
  ModelDelete id (Some index) (Some count) [].

(** [self.map(|_| ())] on the calls that also return a value. *)
Definition drop_value {S A} (r : result StoreError (S * A)) : result StoreError S := fst <$> r.

(** [Operation::apply]; the two calls that may leave a failed write behind keep
    the store they leave. *)
Definition apply `{Registry, PropertyIter} (store : SemanticStore) (op : Operation)
    : SemanticStore * result StoreError unit :=
  match op with
  | CreateNode id t parent index ps => all_or_nothing store (create_node store id t parent index ps)
  | DeleteNode id => all_or_nothing store (drop_value (delete_node store id))
  | SetProperty id p v => all_or_nothing store (drop_value (set_property store id p v))
  | ClearProperty id p => all_or_nothing store (drop_value (clear_property store id p))
  | MoveNode id parent index => all_or_nothing store (move_node store id parent index)
  | ReorderChildren parent order => all_or_nothing store (reorder_children store parent order)
  | BatchPropertySet id ps => all_or_nothing store (batch_property_set store id ps)
  | CreateModel id t count => all_or_nothing store (create_model store id t count)
  | ModelInsert id index its => all_or_nothing store (model_insert store id index its)
  | ModelDelete id index count ids => all_or_nothing store (model_delete store id index count ids)
  | ModelUpdate id index its => model_update store id index its
  | ModelResetRange id start its total => model_reset_range store id start its total
  end.

(** ** The transaction record ([record.rs]) *)
Record Transaction := mkTransaction {
  base_revision : Revision;
  new_revision : Revision;
  operations : list Operation;
  priority : N;
}.

(** [Transaction::new], [with_revisions] *)
Definition Transaction_new (base : Revision) (ops : list Operation) : Transaction :=
  mkTransaction base (next base) ops 0.
Definition with_revisions (base new : Revision) (ops : list Operation) (prio : N) : Transaction :=
  mkTransaction base new ops prio.

Definition is_scalar_set (op : Operation) : bool :=
  match op with SetProperty _ _ v => is_scalar v | _ => false end.

(** [Transaction::is_coalesceable] *)
Definition is_coalesceable (txn : Transaction) : bool :=
  bool_decide (operations txn ≠ []) && forallb is_scalar_set (operations txn).

(** ** Errors ([error.rs]) *)
Inductive TxnError :=
| StaleBaseRevision (expected actual : Revision)
| InvalidNewRevision (expected actual : Revision)
| RevisionExhausted (base : Revision)
| MaxOperationsExceeded (limit actual : N)
| OpFailed (op_index : N) (source : StoreError)
| WireError (msg : string).

(** [TxnError::conformance_code] *)
Definition txn_conformance_code (e : TxnError) : option string :=
  match e with
  | StaleBaseRevision _ _ => Some "stale_base_revision"
  | InvalidNewRevision _ _ => Some "invalid_new_revision"
  | RevisionExhausted _ => Some "revision_exhausted"
  | MaxOperationsExceeded _ _ => Some "max_operations_exceeded"
  | OpFailed _ source => Some (conformance_code source)
  | WireError _ => None
  end%string.

(** ** Delivery forms ([kinds.rs])

    Each newtype is the transaction together with the proof its only
    constructors leave: [AuthoritativeCommit] etc. wrap a validated record. *)

(** [AuthoritativeCommit::validate] *)
Definition validate_commit (txn : Transaction) : result TxnError unit :=
  match checked_next (base_revision txn) with
  | None => Err (RevisionExhausted (base_revision txn))
  | Some expected =>
      err_if (negb (new_revision txn =? expected)%N) (InvalidNewRevision expected (new_revision txn))
  end.

(** [CoalescedScalarDelta::validate] *)
Definition validate_delta (txn : Transaction) : result TxnError unit :=
  match checked_next (base_revision txn) with
  | None => Err (RevisionExhausted (base_revision txn))
  | Some expected =>
      err_if ((new_revision txn <=? base_revision txn)%N || negb (is_coalesceable txn))
        (InvalidNewRevision expected (new_revision txn))
  end.

(** [ResyncSnapshot::try_from] *)
Definition validate_snapshot (txn : Transaction) : result TxnError unit :=
  err_if (negb (base_revision txn =? INITIAL)%N) (StaleBaseRevision INITIAL (base_revision txn)).

Inductive AuthoritativeCommit := Commit_ (txn : Transaction).
Inductive CoalescedScalarDelta := Delta_ (txn : Transaction).
Inductive ResyncSnapshot := Snapshot_ (txn : Transaction).

Definition commit_txn (c : AuthoritativeCommit) : Transaction := let 'Commit_ t := c in t.
Definition delta_txn (d : CoalescedScalarDelta) : Transaction := let 'Delta_ t := d in t.
Definition snapshot_txn (s : ResyncSnapshot) : Transaction := let 'Snapshot_ t := s in t.

(** [AuthoritativeCommit::new] and the [TryFrom<Transaction>] instances. *)
Definition AuthoritativeCommit_new (base : Revision) (ops : list Operation) : AuthoritativeCommit :=
  Commit_ (Transaction_new base ops).
Definition commit_try_from (txn : Transaction) : result TxnError AuthoritativeCommit :=
  validate_commit txn ≫= λ _, Ok (Commit_ txn).
Definition delta_try_from (txn : Transaction) : result TxnError CoalescedScalarDelta :=
  validate_delta txn ≫= λ _, Ok (Delta_ txn).
Definition snapshot_try_from (txn : Transaction) : result TxnError ResyncSnapshot :=
  validate_snapshot txn ≫= λ _, Ok (Snapshot_ txn).

(** [pub enum DeliveredTransaction] *)
Inductive DeliveredTransaction :=
| DCommit (commit : AuthoritativeCommit)
| DDelta (delta : CoalescedScalarDelta).

(** [DeliveredTransaction::try_from] *)
Definition delivered_try_from (txn : Transaction) : result TxnError DeliveredTransaction :=
  match checked_next (base_revision txn) with
  | None => Err (RevisionExhausted (base_revision txn))
  | Some next =>
      if (new_revision txn =? next)%N then Ok (DCommit (Commit_ txn))
      else DDelta <$> delta_try_from txn
  end.

(** ** Application ([apply.rs]) *)
Section apply.
Context `{Registry, PropertyIter}.

(** The loop over [ops.iter().enumerate()]; the staging copy it works on is
    dropped on an error. *)
Fixpoint apply_ops (idx : N) (staged : SemanticStore) (ops : list Operation)
    : result TxnError SemanticStore :=
  match ops with
  | [] => Ok staged
  | op :: ops =>
      match apply staged op with
      | (staged', Ok _) => apply_ops (idx + 1)%N staged' ops
      | (_, Err source) => Err (OpFailed idx source)
      | (_, Panic) => Panic
      | (_, Diverge) => Diverge
      end
  end.

Definition check_max_ops (s : SemanticStore) (ops : list Operation) : result TxnError unit :=
  err_if (max_transaction_operations (limits s) <? len ops)%N
    (MaxOperationsExceeded (max_transaction_operations (limits s)) (len ops)).

(** A method on [&mut self] that returns [Ok(new_revision)] and writes last. *)
Definition committing (s : SemanticStore) (r : result TxnError (SemanticStore * Revision))
    : SemanticStore * result TxnError Revision :=
  match r with
  | Ok (s', rev) => (s', Ok rev)
  | Err e => (s, Err e)
  | Panic => (s, Panic)
  | Diverge => (s, Diverge)
  end.

(** [SemanticStore::apply_staged], [apply_staged_owned] (which moves the
    operations instead of borrowing them). *)
Definition apply_staged (s : SemanticStore) (ops : list Operation) (new_rev : Revision)
    : result TxnError (SemanticStore * Revision) :=
  check_max_ops s ops ≫= λ _,
  staged ← apply_ops 0 (clone_staging s) ops;
  Ok (commit_staging s staged new_rev, new_rev).

(** [SemanticStore::check_base_revision] *)
Definition check_base_revision (s : SemanticStore) (base : Revision) : result TxnError unit :=
  err_if (negb (base =? revision s)%N) (StaleBaseRevision (revision s) base).

(** [SemanticStore::apply_transaction] *)
Definition apply_transaction (s : SemanticStore) (base : Revision) (ops : list Operation)
    : SemanticStore * result TxnError Revision :=
  committing s (
    check_base_revision s base ≫= λ _,
    new_rev ← ok_or (RevisionExhausted base) (checked_next base);
    apply_staged s ops new_rev).

(** [SemanticStore::apply_transaction_record] *)
Definition apply_transaction_record (s : SemanticStore) (txn : Transaction)
    : SemanticStore * result TxnError Revision :=
  committing s (
    validate_commit txn ≫= λ _,
    check_base_revision s (base_revision txn) ≫= λ _,
    apply_staged s (operations txn) (new_revision txn)).

(** [SemanticStore::apply_authoritative], [apply_coalesced_delta] *)
Definition apply_authoritative (s : SemanticStore) (commit : AuthoritativeCommit)
    : SemanticStore * result TxnError Revision :=
  let txn := commit_txn commit in
  committing s (
    check_base_revision s (base_revision txn) ≫= λ _,
    apply_staged s (operations txn) (new_revision txn)).
Definition apply_coalesced_delta (s : SemanticStore) (delta : CoalescedScalarDelta)
    : SemanticStore * result TxnError Revision :=
  let txn := delta_txn delta in
  committing s (
    check_base_revision s (base_revision txn) ≫= λ _,
    apply_staged s (operations txn) (new_revision txn)).

(** [SemanticStore::apply_delivered_transaction], on the decoded record. *)
Definition apply_delivered (s : SemanticStore) (txn : Transaction)
    : SemanticStore * result TxnError Revision :=
  match delivered_try_from txn with
  | Ok (DCommit commit) => apply_authoritative s commit
  | Ok (DDelta delta) => apply_coalesced_delta s delta
  | Err e => (s, Err e)
  | Panic => (s, Panic)
  | Diverge => (s, Diverge)
  end.

(** [SemanticStore::replace_from_snapshot] *)
Definition replace_from_snapshot (s : SemanticStore) (snapshot : ResyncSnapshot)
    : SemanticStore * result TxnError Revision :=
  let txn := snapshot_txn snapshot in
  committing s (
    err_if (new_revision txn <? revision s)%N
      (InvalidNewRevision (revision s) (new_revision txn)) ≫= λ _,
    check_max_ops s (operations txn) ≫= λ _,
    staged ← apply_ops 0 (with_limits_and_revision (limits s) INITIAL) (operations txn);
    Ok (commit_staging (with_limits_and_revision (limits s) INITIAL) staged (new_revision txn),
        new_revision txn)).

(** [pub struct StagedCommit], [SemanticStore::prepare_commit], [commit_prepared] *)
Record StagedCommit := mkStagedCommit {
  sc_staged : SemanticStore;
  sc_base_revision : Revision;
  sc_new_revision : Revision;
}.

Definition prepare_commit (s : SemanticStore) (commit : AuthoritativeCommit)
    : result TxnError StagedCommit :=
  let txn := commit_txn commit in
  check_base_revision s (base_revision txn) ≫= λ _,
  check_max_ops s (operations txn) ≫= λ _,
  staged ← apply_ops 0 (clone_staging s) (operations txn);
  Ok (mkStagedCommit staged (base_revision txn) (new_revision txn)).

Definition commit_prepared (s : SemanticStore) (staged : StagedCommit) : SemanticStore :=
  commit_staging s (sc_staged staged) (sc_new_revision staged).
End apply.
