(* ===== verification/TransactionFacts.v ===== *)
(** * What one operation and one transaction preserve

    Every operation keeps the store invariant, returns, leaves revision and
    limits alone and never forgets a used identifier; so does a transaction. *)

From S2P Require Import Prelude.
From S2P Require Import Values.
From S2P Require Import Limits.
From S2P Require Import Models.
From S2P Require Import ModelFacts.
From S2P Require Import Store.
From S2P Require Import StoreFacts.
From S2P Require Import StoreInv.
From S2P Require Import StoreMove.
From S2P Require Import StoreModels.
From S2P Require Import Transaction.

(** What every operation leaves of the store around it. *)
Record framed (s s' : SemanticStore) : Prop := {
  fr_used : used_ids s ⊆ used_ids s';
  fr_used_models : used_model_ids s ⊆ used_model_ids s';
  fr_limits : limits s' = limits s;
  fr_revision : revision s' = revision s;
}.

#[export] Instance framed_preorder : PreOrder framed.
Proof.
  split; [by split|]. intros s1 s2 s3 [? ? ? ?] [? ? ? ?]. split; [set_solver..|congruence|congruence].
Qed.

Lemma framed_eq s s' : used_ids s' = used_ids s → used_model_ids s' = used_model_ids s →
  limits s' = limits s → revision s' = revision s → framed s s'.
Proof. intros Hu Hm ? ?. split; [by rewrite Hu|by rewrite Hm|done..]. Qed.

Lemma regraphed_framed s s' : regraphed s s' → framed s s'.
Proof. intros []. by apply framed_eq. Qed.

(** The operations whose result cannot depend on a wrapped sum. *)
Definition op_bounded (op : Operation) : Prop :=
  match op with
  | ModelDelete _ index count _ => (default 0 index + default 0 count ≤ u64_max)%N
  | _ => True
  end.

Lemma all_or_nothing_returns {S E} (s : S) (r : result E S) :
  returns (all_or_nothing s r).2 ↔ returns r.
Proof. by destruct r. Qed.

Lemma all_or_nothing_inv {S E} (P : S → Prop) (s : S) (r : result E S) :
  P s → (∀ s', r = Ok s' → P s') → P (all_or_nothing s r).1.
Proof. intros Hs Hr. destruct r; cbn; auto. Qed.

Lemma drop_value_Ok {S A} (r : result StoreError (S * A)) s' :
  drop_value r = Ok s' → ∃ a, r = Ok (s', a).
Proof. destruct r as [[s1 a]| | |]; [|done..]. intros [= <-]. eauto. Qed.

Lemma drop_value_returns {S A} (r : result StoreError (S * A)) : returns (drop_value r) ↔ returns r.
Proof. by destruct r as [[]| | |]. Qed.

Section facts.
Context `{Registry, PropertyIter}.

Lemma apply_wf s op : store_wf s → store_wf (apply s op).1.
Proof.
  intros Hwf. destruct op; cbn [apply];
    try (apply all_or_nothing_inv; [done|]; intros s' Heq);
    try (apply drop_value_Ok in Heq as [? Heq]).
  - by eapply create_node_wf.
  - by eapply delete_node_wf.
  - by eapply set_property_wf.
  - by eapply clear_property_wf.
  - by eapply move_node_wf.
  - by eapply reorder_children_wf.
  - by eapply batch_property_set_wf.
  - by eapply create_model_wf.
  - by eapply model_insert_wf.
  - by eapply model_delete_wf.
  - by apply model_update_wf.
  - by apply model_reset_range_wf.
Qed.

Lemma apply_returns s op : store_wf s → op_bounded op → returns (apply s op).2.
Proof.
  intros Hwf Hop. destruct op; cbn [apply];
    try (apply all_or_nothing_returns); try (apply drop_value_returns).
  - apply create_node_returns, Hwf.
  - by apply delete_node_returns.
  - unfold set_property. apply returns_bind; [apply validate_value_returns|intros _ _].
    apply returns_bind; [|intros _ _; by destruct (nodes s !! id)].
    unfold validate_property_references. case_bool_decide; [|done].
    destruct (value_model_id value); [apply returns_err_if|done].
  - unfold clear_property. by destruct (nodes s !! id).
  - by apply move_node_returns.
  - unfold reorder_children. apply returns_bind; [apply returns_ok_or|intros n _].
    apply returns_bind; [apply returns_err_if|intros _ _].
    apply returns_bind; [apply check_permutation_returns|done].
  - unfold batch_property_set. apply returns_bind; [apply validate_properties_returns|intros _ _].
    by destruct (nodes s !! id).
  - unfold create_model. do 2 (apply returns_bind; [apply returns_err_if|intros _ _]). done.
  - apply model_insert_returns.
  - by apply model_delete_returns.
  - apply model_update_returns.
  - apply model_reset_range_returns.
Qed.

Lemma apply_framed s op : store_wf s → framed s (apply s op).1.
Proof.
  intros Hwf. destruct op; cbn [apply];
    try (apply all_or_nothing_inv; [done|]; intros s' Heq);
    try (apply drop_value_Ok in Heq as [? Heq]).
  - apply create_node_effect in Heq as [_ ->]; [|apply Hwf]. split; cbn; [set_solver|done..].
  - apply regraphed_framed. destruct (nodes s !! id) as [n|] eqn:Hn;
      [|unfold delete_node in Heq; by rewrite Hn in Heq].
    destruct (delete_node_spec s id n Hwf Hn) as (L & Heq' & _). rewrite Heq' in Heq.
    injection Heq as <- <-. by apply delete_node_regraphed.
  - unfold set_property in Heq. inv_ok. by injection Heq as <- _.
  - unfold clear_property in Heq. inv_ok. by injection Heq as <- _.
  - apply regraphed_framed.
    destruct (move_node_cases s id new_parent_id new_child_index Hwf) as [(s1 & Heq1 & _ & Hmv)|(e & Heq1 & _)];
      rewrite Heq1 in Heq; [|done]. injection Heq as <-. apply Hmv.
  - unfold reorder_children in Heq. inv_ok. by subst.
  - unfold batch_property_set in Heq. inv_ok. by subst.
  - unfold create_model in Heq. inv_ok. subst. split; cbn; [done|set_solver|done..].
  - unfold model_insert in Heq. inv_ok. by subst.
  - unfold model_delete in Heq. inv_ok. by subst.
  - unfold model_update. by destruct (_ ≫= _).
  - unfold model_reset_range. by destruct (_ ≫= _).
Qed.

Lemma apply_ops_inv (P : SemanticStore → Prop) idx s ops s' :
  (∀ s op, P s → P (apply s op).1) → P s → apply_ops idx s ops = Ok s' → P s'.
Proof.
  intros Hstep. revert idx s. induction ops as [|op ops IH]; intros idx s Hs; cbn.
  { by intros [= <-]. }
  specialize (Hstep s op Hs). destruct (apply s op) as [s1 [[]| | |]]; [|done..]. by apply IH.
Qed.

Lemma apply_ops_wf idx s ops s' :
  store_wf s → apply_ops idx s ops = Ok s' → store_wf s' ∧ framed s s'.
Proof.
  intros Hwf Heq. apply (apply_ops_inv (λ s', store_wf s' ∧ framed s s')) in Heq; [done| |done].
  intros s1 op [? ?]. split; [by apply apply_wf|]. etrans; [done|by apply apply_framed].
Qed.

Lemma apply_ops_returns idx s ops :
  store_wf s → Forall op_bounded ops → returns (apply_ops idx s ops).
Proof.
  intros Hwf Hops. revert idx s Hwf. induction Hops as [|op ops Hop _ IH]; intros idx s Hwf; [done|].
  cbn. pose proof (apply_returns s op Hwf Hop) as Hr. pose proof (apply_wf s op Hwf) as Hwf'.
  destruct (apply s op) as [s1 [[]| | |]]; try done. by apply IH.
Qed.

Lemma apply_ops_app idx s ops1 ops2 :
  apply_ops idx s (ops1 ++ ops2) =
    apply_ops idx s ops1 ≫= λ s1, apply_ops (idx + len ops1)%N s1 ops2.
Proof.
  revert idx s. induction ops1 as [|op ops1 IH]; intros idx s; cbn.
  { unfold len. cbn. by rewrite N.add_0_r. }
  destruct (apply s op) as [s1 [[]| | |]]; cbn; try done. rewrite IH.
  destruct (apply_ops _ s1 ops1); cbn; try done. f_equal. rewrite len_cons. lia.
Qed.

(** ** Staging *)

Lemma clone_staging_id s : clone_staging s = s.
Proof. by destruct s. Qed.

Lemma commit_staging_wf s staged rev : limits staged = limits s →
  store_wf staged → store_wf (commit_staging s staged rev).
Proof.
  intros Hl [[Hf Hu Hc Hd] Hp [Hmu Hmc Hmi]]. rewrite Hl in Hc, Hd, Hmc.
  split; [by split| |by split]. intros i n p v Hi Hv. destruct (Hp i n p v Hi Hv) as [? ?].
  split; [by cbn; rewrite <- Hl|done].
Qed.

Lemma apply_staged_Ok s ops rev s' rev' : store_wf s →
  apply_staged s ops rev = Ok (s', rev') ↔
  (len ops ≤ max_transaction_operations (limits s))%N ∧ rev' = rev ∧
  ∃ staged, apply_ops 0 s ops = Ok staged ∧ s' = commit_staging s staged rev.
Proof.
  intros _. unfold apply_staged, check_max_ops.
  rewrite bind_unit_Ok, err_if_ltb_Ok, bind_Ok, clone_staging_id. split.
  - intros (? & staged & ? & [= <- <-]). eauto.
  - intros (? & -> & staged & ? & ->). eauto.
Qed.

Lemma apply_staged_wf s ops rev s' rev' :
  store_wf s → apply_staged s ops rev = Ok (s', rev') →
  store_wf s' ∧ revision s' = rev ∧ limits s' = limits s ∧
  used_ids s ⊆ used_ids s' ∧ used_model_ids s ⊆ used_model_ids s'.
Proof.
  intros Hwf (_ & _ & staged & Heq & ->)%apply_staged_Ok; [|done].
  apply apply_ops_wf in Heq as [? [? ? ? ?]]; [|done].
  split; [by apply commit_staging_wf|done].
Qed.

Lemma apply_staged_returns s ops rev :
  store_wf s → Forall op_bounded ops → returns (apply_staged s ops rev).
Proof.
  intros Hwf Hops. unfold apply_staged. apply returns_bind; [apply returns_err_if|intros _ _].
  rewrite clone_staging_id. apply returns_bind; [by apply apply_ops_returns|done].
Qed.

Lemma committing_Ok s r s' rev : committing s r = (s', Ok rev) ↔ r = Ok (s', rev).
Proof. destruct r as [[s1 r1]| | |]; cbn; split; congruence. Qed.

Lemma committing_fail s r s' o : committing s r = (s', o) → is_ok o = false → s' = s.
Proof. destruct r as [[s1 r1]| | |]; cbn; by intros [= <- <-]. Qed.

Lemma committing_returns s r : returns (committing s r).2 ↔ returns r.
Proof. by destruct r as [[]| | |]. Qed.
End facts.
