(* ===== verification/Wire.v ===== *)
(** * Wire conversions

    Models [semantic-tree/src/value/wire.rs], [src/transaction/wire.rs], the
    item conversions of [src/model.rs] and the node records of [src/wire.rs]:
    the translation between the domain types and the messages of
    [protocol/srui.proto].  A message is a record of its fields, a message field
    an [option], a [oneof] an inductive type; [TypeRef] and [PropertyRef] have
    the same two fields on both sides and are shared. *)

From S2P Require Import Prelude.
From S2P Require Import Values.
From S2P Require Import Limits.
From S2P Require Import Models.
From S2P Require Import Store.
From S2P Require Import Transaction.

(** ** Messages ([protocol/srui.proto]) *)
Module Msg.
Inductive Value : Type :=
| mkValue (value : option ValueKind)
with ValueKind : Type :=
| NullValue (null : Z)
| BoolValue (b : bool)
| IntValue (i : Z)
| UintValue (u : N)
| FloatValue (f : f64)
| StringValue (s : string)
| NodeIdValue (id : N)
| ItemIdValue (id : N)
| ResourceHashValue (bytes : list N)
| EnumValue (enum_id value_id : N)
| SizeValue (width height : f64)
| PointValue (x y : f64)
| RangeValue (location length : N)
| RectValue (x y width height : f64)
| InsetsValue (top leading bottom trailing : f64)
| ListValue (values : list Value)
| RecordValue (type : option TypeRef) (properties : list Property)
with Property : Type :=
| mkProperty (property : option PropertyRef) (value : option Value).

Record ModelItem := mkModelItem {
  mi_item_id : N;
  mi_value : option Value;
  mi_properties : list Property;
}.

Record NodeRecord := mkNodeRecord {
  nr_node_id : N;
  nr_type : option TypeRef;
  nr_parent_id : N;
  nr_child_index : N;
  nr_properties : list Property;
}.

(** The [oneof op] of [message Operation]. *)
Inductive Op :=
| CreateNodeOp (node : option NodeRecord)
| DeleteNodeOp (node_id : N)
| SetPropertyOp (node_id : N) (property : option PropertyRef) (value : option Value)
| ClearPropertyOp (node_id : N) (property : option PropertyRef)
| CommitOp (revision : N)
| CreateModelOp (model_id : N) (model_type : option TypeRef) (item_count : N)
| ModelInsertOp (model_id index : N) (items : list ModelItem)
| ModelDeleteOp (model_id index count : N) (item_ids : list N)
| ModelUpdateOp (model_id index : N) (items : list ModelItem)
| ModelResetRangeOp (model_id start_index : N) (items : list ModelItem) (total_count : N)
| MoveNodeOp (node_id new_parent_id new_child_index : N)
| ReorderChildrenOp (parent_id : N) (child_node_ids : list N)
| BatchPropertySetOp (node_id : N) (properties : list Property).

Record Operation := mkOperation { op : option Op }.

Record Transaction := mkTransaction {
  base_revision : N;
  new_revision : N;
  operations : list Operation;
  priority : N;
}.
End Msg.

(** ** Values ([value/wire.rs]) *)

Inductive ValueConversionError :=
| MissingField (field : string)
| InvalidResourceHashLength (len : N)
| InvalidNestedStructure (msg : string).

(** [impl Display for ValueConversionError] *)
Definition vce_display (e : ValueConversionError) : string :=
  match e with
  | MissingField field => "missing expected protobuf wire field: " +:+ field
  | InvalidResourceHashLength n =>
      "expected 32-byte resource hash, got " +:+ pretty n +:+ " bytes"
  | InvalidNestedStructure msg => "invalid nested structure: " +:+ msg
  end.

(** [From<&Value>] and [From<&Property>] *)
Fixpoint value_to_wire (v : Value) : Msg.Value :=
  Msg.mkValue (Some
    match v with
    | VNull => Msg.NullValue 0
    | VBool b => Msg.BoolValue b
    | VSignedInt i => Msg.IntValue i
    | VUnsignedInt u => Msg.UintValue u
    | VFloat64 f => Msg.FloatValue f
    | VString s => Msg.StringValue s
    | VNodeId id => Msg.NodeIdValue (NodeId_get id)
    | VItemId id => Msg.ItemIdValue (ItemId_get id)
    | VResourceHash h => Msg.ResourceHashValue (hash_bytes h)
    | VEnumToken e => Msg.EnumValue (enum_id e) (value_id e)
    | VSize s => Msg.SizeValue (size_width s) (size_height s)
    | VPoint p => Msg.PointValue (point_x p) (point_y p)
    | VRange r => Msg.RangeValue (range_start r) (range_length r)
    | VRect r => Msg.RectValue (rect_x r) (rect_y r) (rect_width r) (rect_height r)
    | VEdgeInsets i => Msg.InsetsValue (top i) (leading i) (bottom i) (trailing i)
    | VList items => Msg.ListValue (map value_to_wire items)
    | VRecord (mkSmallRecord t ps) =>
        Msg.RecordValue (Some t)
          (map (λ '(mkProperty p v), Msg.mkProperty (Some p) (Some (value_to_wire v))) ps)
    end).

Definition property_to_wire (p : Property) : Msg.Property :=
  Msg.mkProperty (Some (property_ref p)) (Some (value_to_wire (property_value p))).

(** [TryFrom<Value>] and [TryFrom<Property>] *)
Fixpoint value_from_wire (w : Msg.Value) : result ValueConversionError Value :=
  let '(Msg.mkValue kind) := w in
  match kind with
  | None => Err (MissingField "value")
  | Some inner =>
      match inner with
      | Msg.NullValue _ => Ok VNull
      | Msg.BoolValue b => Ok (VBool b)
      | Msg.IntValue i => Ok (VSignedInt i)
      | Msg.UintValue u => Ok (VUnsignedInt u)
      | Msg.FloatValue f => Ok (VFloat64 f)
      | Msg.StringValue s => Ok (VString s)
      | Msg.NodeIdValue id => Ok (VNodeId (mkNodeId id))
      | Msg.ItemIdValue id => Ok (VItemId (mkItemId id))
      | Msg.ResourceHashValue bytes =>
          if (len bytes =? 32)%N then Ok (VResourceHash (mkResourceHash bytes))
          else Err (InvalidResourceHashLength (len bytes))
      | Msg.EnumValue e v => Ok (VEnumToken (mkEnumToken e v))
      | Msg.SizeValue w h => Ok (VSize (mkSize w h))
      | Msg.PointValue x y => Ok (VPoint (mkPoint x y))
      | Msg.RangeValue l n => Ok (VRange (mkRange l n))
      | Msg.RectValue x y w h => Ok (VRect (mkRect x y w h))
      | Msg.InsetsValue t l b tr => Ok (VEdgeInsets (mkEdgeInsets t l b tr))
      | Msg.ListValue values => VList <$> try_map value_from_wire values
      | Msg.RecordValue type ps =>
          t ← ok_or (MissingField "record.type") type;
          props ← try_map (λ '(Msg.mkProperty p v),
            p ← ok_or (MissingField "property") p;
            v ← match v with Some v => value_from_wire v | None => Ok VNull end;
            Ok (mkProperty p v)) ps;
          Ok (VRecord (mkSmallRecord t props))
      end
  end.

Definition property_from_wire (w : Msg.Property) : result ValueConversionError Property :=
  let '(Msg.mkProperty p v) := w in
  p ← ok_or (MissingField "property") p;
  v ← match v with Some v => value_from_wire v | None => Ok VNull end;
  Ok (mkProperty p v).

(** ** Items ([model.rs]) *)

(** One [(property, value)] pair as a wire property. *)
Definition pair_to_wire (pv : PropertyRef * Value) : Msg.Property :=
  Msg.mkProperty (Some pv.1) (Some (value_to_wire pv.2)).
Definition pair_from_wire (w : Msg.Property) : result ValueConversionError (PropertyRef * Value) :=
  prop ← property_from_wire w; Ok (property_ref prop, property_value prop).

(** [From<&ModelItem>] and [TryFrom<ModelItem>] *)
Definition item_to_wire `{PropertyIter} (item : ModelItem) : Msg.ModelItem :=
  Msg.mkModelItem (ItemId_get (item_id item)) (Some (value_to_wire (item_value item)))
    (map pair_to_wire (iter_properties (item_properties item))).
Definition item_from_wire (w : Msg.ModelItem) : result ValueConversionError ModelItem :=
  value ← match Msg.mi_value w with Some v => value_from_wire v | None => Ok VNull end;
  props ← try_map pair_from_wire (Msg.mi_properties w);
  Ok (mkModelItem (mkItemId (Msg.mi_item_id w)) value (insert_all ∅ props)).

(** ** Operations ([transaction/wire.rs]) *)

Definition u32_max : N := 2 ^ 32 - 1.
(** [idx as u32] *)
Definition as_u32 (n : N) : N := n mod 2 ^ 32.

(** The sentinels of [srui.proto]: parent 0, child index and item index all
    ones, a zero count. *)
Definition parent_to_wire (p : option NodeId) : N := default 0%N (NodeId_get <$> p).
Definition parent_from_wire (p : N) : option NodeId :=
  if (p =? 0)%N then None else Some (mkNodeId p).
Definition child_index_to_wire (i : option N) : N := default u32_max (as_u32 <$> i).
Definition child_index_from_wire (i : N) : option N := if (i =? u32_max)%N then None else Some i.

(** [map_err(|e| TxnError::WireError(e.to_string()))] *)
Definition wire_err {A} (r : result ValueConversionError A) : result TxnError A :=
  map_err (λ e, WireError (vce_display e)) r.

(** [TryFrom<srui_protocol::Operation> for Operation] *)
Definition op_from_wire (w : Msg.Operation) : result TxnError Operation :=
  op_kind ← ok_or (WireError "empty operation payload in wire Operation") (Msg.op w);
  match op_kind with
  | Msg.CreateNodeOp node =>
      rec ← ok_or (WireError "missing NodeRecord in CreateNodeOp") node;
      t ← ok_or (WireError "missing TypeRef in CreateNodeOp") (Msg.nr_type rec);
      properties ← wire_err (try_map pair_from_wire (Msg.nr_properties rec));
      Ok (CreateNode (mkNodeId (Msg.nr_node_id rec)) t (parent_from_wire (Msg.nr_parent_id rec))
            (child_index_from_wire (Msg.nr_child_index rec)) properties)
  | Msg.DeleteNodeOp id => Ok (DeleteNode (mkNodeId id))
  | Msg.SetPropertyOp id property value =>
      p ← ok_or (WireError "missing PropertyRef in SetPropertyOp") property;
      v ← match value with Some v => wire_err (value_from_wire v) | None => Ok VNull end;
      Ok (SetProperty (mkNodeId id) p v)
  | Msg.ClearPropertyOp id property =>
      p ← ok_or (WireError "missing PropertyRef in ClearPropertyOp") property;
      Ok (ClearProperty (mkNodeId id) p)
  | Msg.MoveNodeOp id parent index =>
      Ok (MoveNode (mkNodeId id) (parent_from_wire parent) (child_index_from_wire index))
  | Msg.ReorderChildrenOp parent ids => Ok (ReorderChildren (mkNodeId parent) (map mkNodeId ids))
  | Msg.BatchPropertySetOp id ps =>
      properties ← wire_err (try_map pair_from_wire ps);
      Ok (BatchPropertySet (mkNodeId id) properties)
  | Msg.CreateModelOp id t count =>
      t ← ok_or (WireError "missing TypeRef in CreateModelOp") t;
      Ok (CreateModel (mkModelId id) t count)
  | Msg.ModelInsertOp id index its =>
      its ← wire_err (try_map item_from_wire its);
      Ok (ModelInsert (mkModelId id) index its)
  | Msg.ModelDeleteOp id index count ids =>
      Ok (ModelDelete (mkModelId id)
            (if (0 <? count)%N then Some index else None)
            (if (0 <? count)%N then Some count else None) (map mkItemId ids))
  | Msg.ModelUpdateOp id index its =>
      its ← wire_err (try_map item_from_wire its);
      Ok (ModelUpdate (mkModelId id) (if (index =? u64_max)%N then None else Some index) its)
  | Msg.ModelResetRangeOp id start its total =>
      its ← wire_err (try_map item_from_wire its);
      Ok (ModelResetRange (mkModelId id) start its (if (0 <? total)%N then Some total else None))
  | Msg.CommitOp _ => Err (WireError "unsupported operation variant for tree mutation")
  end.

(** [From<&Operation> for srui_protocol::Operation] *)
Definition op_to_wire `{PropertyIter} (op : Operation) : Msg.Operation :=
  Msg.mkOperation (Some
    match op with
    | CreateNode id t parent index ps =>
        Msg.CreateNodeOp (Some (Msg.mkNodeRecord (NodeId_get id) (Some t) (parent_to_wire parent)
          (child_index_to_wire index) (map pair_to_wire ps)))
    | DeleteNode id => Msg.DeleteNodeOp (NodeId_get id)
    | SetProperty id p v => Msg.SetPropertyOp (NodeId_get id) (Some p) (Some (value_to_wire v))
    | ClearProperty id p => Msg.ClearPropertyOp (NodeId_get id) (Some p)
    | MoveNode id parent index =>
        Msg.MoveNodeOp (NodeId_get id) (parent_to_wire parent) (child_index_to_wire index)
    | ReorderChildren parent order => Msg.ReorderChildrenOp (NodeId_get parent) (map NodeId_get order)
    | BatchPropertySet id ps => Msg.BatchPropertySetOp (NodeId_get id) (map pair_to_wire ps)
    | CreateModel id t count => Msg.CreateModelOp (ModelId_get id) (Some t) count
    | ModelInsert id index its => Msg.ModelInsertOp (ModelId_get id) index (map item_to_wire its)
    | ModelDelete id index count ids =>
        Msg.ModelDeleteOp (ModelId_get id) (default 0%N index) (default 0%N count) (map ItemId_get ids)
    | ModelUpdate id index its =>
        Msg.ModelUpdateOp (ModelId_get id) (default u64_max index) (map item_to_wire its)
    | ModelResetRange id start its total =>
        Msg.ModelResetRangeOp (ModelId_get id) start (map item_to_wire its) (default 0%N total)
    end).

(** [TryFrom<srui_protocol::Transaction> for Transaction] and back. *)
Definition txn_from_wire (w : Msg.Transaction) : result TxnError Transaction :=
  ops ← try_map op_from_wire (Msg.operations w);
  Ok (mkTransaction (Msg.base_revision w) (Msg.new_revision w) ops (Msg.priority w)).
Definition txn_to_wire `{PropertyIter} (txn : Transaction) : Msg.Transaction :=
  Msg.mkTransaction (base_revision txn) (new_revision txn) (map op_to_wire (operations txn)) (priority txn).

(** ** The wire entry points of the store ([apply.rs]) *)

(** [SemanticStore::apply_wire_transaction] *)
Definition apply_wire_transaction `{Registry, PropertyIter} (s : SemanticStore) (w : Msg.Transaction)
    : SemanticStore * result TxnError Revision :=
  committing s (
    txn ← txn_from_wire w;
    validate_commit txn ≫= λ _,
    check_base_revision s (base_revision txn) ≫= λ _,
    apply_staged s (operations txn) (new_revision txn)).

(** [SemanticStore::apply_delivered_transaction] *)
Definition apply_delivered_transaction `{Registry, PropertyIter} (s : SemanticStore) (w : Msg.Transaction)
    : SemanticStore * result TxnError Revision :=
  match txn_from_wire w with
  | Ok txn => apply_delivered s txn
  | Err e => (s, Err e)
  | Panic => (s, Panic)
  | Diverge => (s, Diverge)
  end.

(** ** Node records ([wire.rs]) *)
Record NodeRecord := mkNodeRecord {
  nrec_id : NodeId;
  nrec_type : TypeRef;
  nrec_parent_id : option NodeId;
  nrec_child_index : option N;
  nrec_properties : list Property;
}.

(** [NodeRecord::from_node] *)
Definition record_from_node `{PropertyIter} (node : Node) (child_index : option N) : NodeRecord :=
  mkNodeRecord (node_id node) (node_type node) (parent_id node) child_index
    (map (λ '(p, v), mkProperty p v) (iter_properties (properties node))).

(** [From<&NodeRecord>] and [TryFrom<srui_protocol::NodeRecord>] *)
Definition record_to_wire (rec : NodeRecord) : Msg.NodeRecord :=
  Msg.mkNodeRecord (NodeId_get (nrec_id rec)) (Some (nrec_type rec))
    (parent_to_wire (nrec_parent_id rec)) (child_index_to_wire (nrec_child_index rec))
    (map property_to_wire (nrec_properties rec)).
Definition record_from_wire (w : Msg.NodeRecord) : result ValueConversionError NodeRecord :=
  t ← ok_or (MissingField "NodeRecord.type") (Msg.nr_type w);
  ps ← try_map property_from_wire (Msg.nr_properties w);
  Ok (mkNodeRecord (mkNodeId (Msg.nr_node_id w)) t (parent_from_wire (Msg.nr_parent_id w))
        (child_index_from_wire (Msg.nr_child_index w)) ps).

(** [From<NodeRecord> for Operation] *)
Definition record_to_op (rec : NodeRecord) : Operation :=
  CreateNode (nrec_id rec) (nrec_type rec) (nrec_parent_id rec) (nrec_child_index rec)
    (map (λ p, (property_ref p, property_value p)) (nrec_properties rec)).
