(* ===== verification/WireFacts.v ===== *)
(** * Round trips of the wire conversions

    Encoding a domain object and decoding the message gives the object back:
    unconditionally for values (whose hashes have their 32 bytes), and for every
    operation that avoids the sentinels the wire format reserves. *)

From S2P Require Import Prelude.
From S2P Require Import Values.
From S2P Require Import Limits.
From S2P Require Import Models.
From S2P Require Import Store.
From S2P Require Import Transaction.
From S2P Require Import TransactionFacts.
From S2P Require Import Wire.

Lemma try_map_ok {E A B} (f : B → result E A) (g : A → B) l :
  (∀ x, x ∈ l → f (g x) = Ok x) → try_map f (map g l) = Ok l.
Proof.
  induction l as [|x l IH]; intros Hf; cbn; [done|].
  rewrite Hf by left. cbn. rewrite IH; [done|]. intros y Hy. apply Hf. by right.
Qed.

(** The Rust type [[u8; 32]] of the digest. *)
Definition sized (v : Value) : Prop := ∀ h, mentions h v → len (hash_bytes h) = 32%N.

Lemma sized_list items v : sized (VList items) → v ∈ items → sized v.
Proof. intros Hs Hv h Hm. apply Hs. by econstructor. Qed.

Lemma sized_record t ps p : sized (VRecord (mkSmallRecord t ps)) → p ∈ ps → sized (property_value p).
Proof. intros Hs Hp h Hm. apply Hs. destruct p. by econstructor. Qed.

Lemma value_round_trip v : sized v → value_from_wire (value_to_wire v) = Ok v.
Proof.
  induction v as [items IH|t ps IH|v Hv] using Value_nested_ind; intros Hs.
  - cbn. rewrite Forall_forall in IH. rewrite try_map_ok; [done|].
    intros v Hin. apply IH; [done|]. by eapply sized_list.
  - cbn. rewrite Forall_forall in IH. rewrite try_map_ok; [done|].
    intros [r v] Hin. cbn. specialize (IH _ Hin). cbn in IH. rewrite IH; [done|]. by apply (sized_record _ _ _ Hs Hin).
  - destruct v as [| | | | | | | | h | | | | | | | |]; try done; cbn;
      try (by match goal with |- _ = Ok (_ ?x) => destruct x end).
    rewrite Hs by constructor. rewrite N.eqb_refl. by destruct h.
Qed.

Lemma property_round_trip p : sized (property_value p) → property_from_wire (property_to_wire p) = Ok p.
Proof. intros Hs. destruct p as [r v]. cbn in *. by rewrite value_round_trip. Qed.

Definition sized_pairs (ps : list (PropertyRef * Value)) : Prop := ∀ p v, (p, v) ∈ ps → sized v.

Lemma pairs_round_trip ps : sized_pairs ps → try_map pair_from_wire (map pair_to_wire ps) = Ok ps.
Proof.
  intros Hs. apply try_map_ok. intros [p v] Hin. cbn. rewrite value_round_trip; [done|]. by eapply Hs.
Qed.

Lemma insert_all_not m l p : (p ∉ l.*1) → insert_all m l !! p = m !! p.
Proof.
  unfold insert_all. revert m. induction l as [|[q w] l IH]; intros m Hp; cbn in *; [done|].
  apply not_elem_of_cons in Hp as [? ?]. rewrite IH by done. by rewrite lookup_insert_ne.
Qed.

Lemma insert_all_nodup l p v : NoDup l.*1 → (p, v) ∈ l → ∀ m, insert_all m l !! p = Some v.
Proof.
  induction l as [|[q w] l IH]; intros Hnd Hin m; [by apply elem_of_nil in Hin|].
  cbn in Hnd. apply NoDup_cons in Hnd as [Hq Hnd].
  apply elem_of_cons in Hin as [[= -> ->]|Hin]; cbn; [|by apply IH].
  change (insert_all (<[q:=w]> m) l !! q = Some w). rewrite insert_all_not by done.
  apply lookup_insert_eq.
Qed.

Section iter.
Context `{PropertyIter}.

Lemma insert_all_iter m : insert_all ∅ (iter_properties m) = m.
Proof.
  assert (NoDup (iter_properties m).*1) as Hnd.
  { rewrite iter_properties_perm. apply NoDup_fst_map_to_list. }
  apply map_eq. intros p. destruct (m !! p) as [v|] eqn:Hp.
  - apply insert_all_nodup; [done|]. rewrite iter_properties_perm. by apply elem_of_map_to_list.
  - rewrite insert_all_not; [apply lookup_empty|]. rewrite iter_properties_perm.
    intros (v & Hv%elem_of_map_to_list)%elem_of_fst_inv. congruence.
Qed.

Definition sized_item (it : ModelItem) : Prop :=
  sized (item_value it) ∧ ∀ p v, item_properties it !! p = Some v → sized v.

Lemma item_round_trip it : sized_item it → item_from_wire (item_to_wire it) = Ok it.
Proof.
  intros [Hv Hp]. unfold item_from_wire, item_to_wire. cbn.
  rewrite value_round_trip by done. cbn. rewrite pairs_round_trip.
  - cbn. rewrite insert_all_iter. by destruct it as [[id] v ps].
  - intros p v. rewrite iter_properties_perm. intros ?%elem_of_map_to_list. eauto.
Qed.

(** The operations the wire format can tell apart. *)
Definition parent_canonical (p : option NodeId) : Prop := p ≠ Some (mkNodeId 0).
Definition index_canonical (i : option N) : Prop := ∀ n, i = Some n → (n < u32_max)%N.

Definition op_canonical (op : Operation) : Prop :=
  match op with
  | CreateNode _ _ parent index ps =>
      parent_canonical parent ∧ index_canonical index ∧ sized_pairs ps
  | SetProperty _ _ v => sized v
  | MoveNode _ parent index => parent_canonical parent ∧ index_canonical index
  | BatchPropertySet _ ps => sized_pairs ps
  | ModelInsert _ _ its => Forall sized_item its
  | ModelDelete _ index count _ =>
      match count with Some c => (0 < c)%N ∧ is_Some index | None => index = None end
  | ModelUpdate _ index its => index ≠ Some u64_max ∧ Forall sized_item its
  | ModelResetRange _ _ its total => total ≠ Some 0%N ∧ Forall sized_item its
  | _ => True
  end.

Lemma parent_round_trip p : parent_canonical p → parent_from_wire (parent_to_wire p) = p.
Proof.
  destruct p as [[n]|]; [|done]. intros Hp. unfold parent_from_wire, parent_to_wire. cbn.
  destruct (N.eqb_spec n 0) as [->|]; [by destruct Hp|done].
Qed.

Lemma child_index_round_trip i : index_canonical i → child_index_from_wire (child_index_to_wire i) = i.
Proof.
  intros Hi. destruct i as [n|]; [|by unfold child_index_from_wire, child_index_to_wire; cbn].
  specialize (Hi n eq_refl). unfold child_index_from_wire, child_index_to_wire, as_u32. cbn.
  unfold u32_max in *. rewrite N.mod_small by lia. by rewrite (proj2 (N.eqb_neq _ _)) by lia.
Qed.

Lemma map_newtype {A B} (f : A → B) (g : B → A) (l : list A) : (∀ x, g (f x) = x) → map g (map f l) = l.
Proof. intros Hfg. induction l as [|x l IH]; cbn; [done|]. by rewrite Hfg, IH. Qed.

Lemma items_round_trip its : Forall sized_item its →
  try_map item_from_wire (map item_to_wire its) = Ok its.
Proof.
  intros Hs. apply try_map_ok. intros it Hin. apply item_round_trip.
  rewrite Forall_forall in Hs. by apply Hs.
Qed.

Lemma op_round_trip op : op_canonical op → op_from_wire (op_to_wire op) = Ok op.
Proof.
  intros Hc. destruct op as [[id] t parent index ps|[id]|[id] p v|[id] p|[id] parent index|[parent] order
    |[id] ps|[id] t count|[id] index its|[id] index count ids|[id] index its|[id] start its total];
    unfold op_from_wire, op_to_wire; cbn in *.
  - destruct Hc as (? & ? & ?). rewrite pairs_round_trip by done. cbn.
    by rewrite parent_round_trip, child_index_round_trip.
  - done.
  - by rewrite value_round_trip.
  - done.
  - destruct Hc. by rewrite parent_round_trip, child_index_round_trip.
  - by rewrite map_newtype by by intros [].
  - by rewrite pairs_round_trip.
  - done.
  - by rewrite items_round_trip.
  - rewrite map_newtype by by intros []. destruct count as [c|]; cbn.
    + destruct Hc as [Hpos [i ->]]. rewrite (proj2 (N.ltb_lt _ _)) by done. done.
    + by subst index.
  - destruct Hc as [Hi Hs]. rewrite items_round_trip by done. cbn.
    destruct index as [i|]; cbn; [|done].
    destruct (N.eqb_spec i u64_max) as [->|]; [by destruct Hi|done].
  - destruct Hc as [Ht Hs]. rewrite items_round_trip by done. cbn.
    destruct total as [n|]; cbn; [|done]. destruct (N.ltb_spec 0 n) as [|]; [done|].
    by replace n with 0%N in Ht by lia.
Qed.

Lemma txn_round_trip txn : Forall op_canonical (operations txn) → txn_from_wire (txn_to_wire txn) = Ok txn.
Proof.
  intros Hc. unfold txn_from_wire, txn_to_wire. cbn. rewrite try_map_ok; [by destruct txn|].
  intros op Hin. apply op_round_trip. rewrite Forall_forall in Hc. by apply Hc.
Qed.

(** ** Decoding yields canonical operations: nothing decoded can carry a sentinel. *)
Lemma parent_from_wire_canonical p : parent_canonical (parent_from_wire p).
Proof. unfold parent_from_wire, parent_canonical. case_match eqn:Hp; [done|]. by intros [= ->]. Qed.

Lemma child_index_from_wire_canonical i : (i ≤ u32_max)%N → index_canonical (child_index_from_wire i).
Proof.
  unfold child_index_from_wire, index_canonical. destruct (N.eqb_spec i u32_max); [done|].
  intros ? n' [= <-]. lia.
Qed.
End iter.

(** ** Node records *)
Lemma record_round_trip rec :
  parent_canonical (nrec_parent_id rec) → index_canonical (nrec_child_index rec) →
  (∀ p, p ∈ nrec_properties rec → sized (property_value p)) →
  record_from_wire (record_to_wire rec) = Ok rec.
Proof.
  intros Hp Hi Hs. unfold record_from_wire, record_to_wire. cbn.
  rewrite try_map_ok.
  - cbn. rewrite parent_round_trip, child_index_round_trip by done. by destruct rec as [[id] t p i ps].
  - intros p Hin. apply property_round_trip. by apply Hs.
Qed.

(** ** What decoding produces *)

Lemma try_map_Forall2 {E A B} (f : A → result E B) l k :
  try_map f l = Ok k ↔ Forall2 (λ x y, f x = Ok y) l k.
Proof.
  revert k. induction l as [|x l IH]; intros k; cbn.
  - split; [intros [= <-]; constructor|]. by inversion 1.
  - rewrite bind_Ok. split.
    + intros (y & Hy & Heq). apply bind_Ok in Heq as (ys & Hys & [= <-]). constructor; [done|by apply IH].
    + inversion 1; subst. eexists. split; [done|]. apply bind_Ok. eexists. by rewrite IH.
Qed.

Lemma try_map_elem {E A B} (f : A → result E B) l k y :
  try_map f l = Ok k → y ∈ k → ∃ x, x ∈ l ∧ f x = Ok y.
Proof.
  intros Hall%try_map_Forall2 Hy. apply list_elem_of_lookup in Hy as [i Hi].
  destruct (Forall2_lookup_r _ _ _ _ _ Hall Hi) as (x & Hx & ?). exists x.
  split; [by eapply list_elem_of_lookup_2|done].
Qed.

Lemma value_from_wire_sized w v : value_from_wire w = Ok v → sized v.
Proof.
  revert w. induction v as [items IH|t ps IH|v Hv] using Value_nested_ind; intros [[k|]] Heq; try done;
    cbn in Heq.
  - destruct k as [n|b|i|u|f|s|id|id|bytes|e x|w h|x y|l n|x y w h|t' l b r|values|ty props]; try done.
    + by destruct (len bytes =? 32)%N.
    + destruct (try_map value_from_wire values) as [l| | |] eqn:Hl; try done. injection Heq as ->.
      intros h Hm. inversion Hm as [|? v Hv Hmv|]; subst. rewrite Forall_forall in IH.
      destruct (try_map_elem _ _ _ _ Hl Hv) as (w & _ & Hw). by apply (IH _ Hv w).
    + inv_ok. done.
  - destruct k as [n|b|i|u|f|s|id|id|bytes|e x|w h|x y|l n|x y w h|t' l b r|values|ty props]; try done.
    + by destruct (len bytes =? 32)%N.
    + by destruct (try_map _ _).
    + inv_ok. injection Heq as -> ->. intros h Hm. inversion Hm as [| |? ? p v Hv Hmv]; subst.
      rewrite Forall_forall in IH.
      destruct (try_map_elem _ _ _ _ Heq1 Hv) as ([q w] & _ & Hw). inv_ok. injection Hw as -> ->.
      destruct w as [w|]; inv_ok; [by eapply (IH _ Hv w)|subst; by inversion Hmv].
  - destruct v as [| | | | | | | |hh| | | | | | | |]; try done; try (intros h' Hm; by inversion Hm).
    destruct k as [n|b|i|u|f|s|id|id|bytes|e x|w h|x y|l n|x y w h|t' l b r|values|ty props]; try done.
    + destruct (N.eqb_spec (len bytes) 32); [|done]. injection Heq as <-. intros h' Hm. by inversion Hm; subst.
    + by destruct (try_map _ _).
    + inv_ok. done.
Qed.

Lemma pairs_from_wire_sized ws ps : try_map pair_from_wire ws = Ok ps → sized_pairs ps.
Proof.
  intros Heq p v Hin. destruct (try_map_elem _ _ _ _ Heq Hin) as ([q w] & _ & Hw).
  unfold pair_from_wire, property_from_wire in Hw. inv_ok. subst. injection Hw as -> ->. cbn.
  destruct w as [w|]; inv_ok; [by eapply value_from_wire_sized|]. subst. intros h Hm. by inversion Hm.
Qed.

Lemma opt_value_from_wire_sized (w : option Msg.Value) v :
  match w with Some v => value_from_wire v | None => Ok VNull end = Ok v → sized v.
Proof.
  destruct w as [w|]; [apply value_from_wire_sized|]. intros [= <-] h Hm. by inversion Hm.
Qed.

Lemma insert_all_inv m l p v : insert_all m l !! p = Some v → (p, v) ∈ l ∨ m !! p = Some v.
Proof.
  unfold insert_all. revert m. induction l as [|[q w] l IH]; intros m; cbn; [by right|].
  intros [?|[[-> ->]|[_ ?]]%lookup_insert_Some]%IH; [left; by right|left; left|by right].
Qed.

Lemma items_from_wire_sized ws its : try_map item_from_wire ws = Ok its → Forall sized_item its.
Proof.
  intros Heq. apply Forall_forall. intros it Hin.
  destruct (try_map_elem _ _ _ _ Heq Hin) as (w & _ & Hw).
  unfold item_from_wire in Hw. inv_ok. subst. split; cbn.
  - by eapply opt_value_from_wire_sized.
  - intros p v [Hp|Hp]%insert_all_inv; [by eapply pairs_from_wire_sized|]. by rewrite lookup_empty in Hp.
Qed.

(** The widths of the message fields: [child_index] is a [uint32]. *)
Definition op_typed (w : Msg.Operation) : Prop :=
  match Msg.op w with
  | Some (Msg.CreateNodeOp (Some rec)) => (Msg.nr_child_index rec ≤ u32_max)%N
  | Some (Msg.MoveNodeOp _ _ index) => (index ≤ u32_max)%N
  | _ => True
  end.
Definition txn_typed (w : Msg.Transaction) : Prop := Forall op_typed (Msg.operations w).

Lemma wire_err_Ok {A} (r : result ValueConversionError A) a : wire_err r = Ok a ↔ r = Ok a.
Proof. destruct r; cbn; split; congruence. Qed.

(** Nothing that was decoded carries a sentinel: decoding an operation and
    encoding it again loses nothing. *)
Lemma op_from_wire_canonical w op : op_typed w → op_from_wire w = Ok op → op_canonical op.
Proof.
  intros Ht Heq. unfold op_from_wire in Heq. inv_ok.
  destruct w as [k]. cbn in *. subst k. unfold op_typed in Ht. cbn in Ht.
  destruct r; inv_ok; subst; cbn in *; try done.
  - subst. split_and!; [apply parent_from_wire_canonical|by apply child_index_from_wire_canonical|].
    apply wire_err_Ok in Heq2. by eapply pairs_from_wire_sized.
  - destruct value as [w|]; inv_ok; [apply wire_err_Ok in Heq1; by eapply value_from_wire_sized|].
    subst. intros h Hm. by inversion Hm.
  - apply wire_err_Ok in Heq0. by eapply items_from_wire_sized.
  - destruct (N.ltb_spec 0 count); cbn; [|done]. eauto.
  - apply wire_err_Ok in Heq0. split; [|by eapply items_from_wire_sized].
    destruct (N.eqb_spec index u64_max); [done|]. congruence.
  - apply wire_err_Ok in Heq0. split; [|by eapply items_from_wire_sized].
    destruct (N.ltb_spec 0 total_count); [|done]. intros [= ->]. lia.
  - split; [apply parent_from_wire_canonical|by apply child_index_from_wire_canonical].
  - apply wire_err_Ok in Heq0. by eapply pairs_from_wire_sized.
Qed.

Lemma txn_from_wire_canonical w txn : txn_typed w → txn_from_wire w = Ok txn →
  Forall op_canonical (operations txn).
Proof.
  intros Ht Heq. unfold txn_from_wire in Heq. inv_ok. subst. cbn. apply Forall_forall. intros op Hop.
  destruct (try_map_elem _ _ _ _ Heq0 Hop) as (wo & Hw & Ho). unfold txn_typed in Ht.
  rewrite Forall_forall in Ht. by eapply op_from_wire_canonical; [apply Ht|].
Qed.

(** ** Decoding returns, whatever was sent *)

Fixpoint value_from_wire_returns (w : Msg.Value) : returns (value_from_wire w).
Proof.
  destruct w as [[k|]]; [|exact I].
  destruct k as [n|b|i|u|f|s|id|id|bytes|e x|w h|x y|l n|x y w h|t' l b r|values|ty props]; try exact I; cbn.
  - by destruct (len bytes =? 32)%N.
  - assert (returns (try_map value_from_wire values)) as Hr; [|by destruct (try_map value_from_wire values)].
    induction values as [|w values IH]; [exact I|]. cbn. apply returns_bind; [apply value_from_wire_returns|].
    intros v _. by apply returns_bind.
  - apply returns_bind; [apply returns_ok_or|intros t _]. apply returns_bind; [|done].
    induction props as [|[p v] props IH]; [exact I|]. cbn. apply returns_bind.
    + apply returns_bind; [apply returns_ok_or|intros q _]. apply returns_bind; [|done].
      destruct v as [v|]; [apply value_from_wire_returns|exact I].
    + intros y _. by apply returns_bind.
Qed.

Lemma opt_value_from_wire_returns (w : option Msg.Value) :
  returns (E:=ValueConversionError) match w with Some v => value_from_wire v | None => Ok VNull end.
Proof. destruct w; [apply value_from_wire_returns|done]. Qed.

Lemma pair_from_wire_returns w : returns (pair_from_wire w).
Proof.
  destruct w as [p v]. unfold pair_from_wire, property_from_wire. apply returns_bind; [|done].
  apply returns_bind; [apply returns_ok_or|intros q _]. apply returns_bind; [|done].
  apply opt_value_from_wire_returns.
Qed.

Lemma item_from_wire_returns w : returns (item_from_wire w).
Proof.
  unfold item_from_wire. apply returns_bind; [apply opt_value_from_wire_returns|intros v _].
  apply returns_bind; [|done]. apply returns_try_map. intros. apply pair_from_wire_returns.
Qed.

Lemma wire_err_returns {A} (r : result ValueConversionError A) : returns (wire_err r) ↔ returns r.
Proof. by destruct r. Qed.

Lemma op_from_wire_returns w : returns (op_from_wire w).
Proof.
  assert (∀ ws, returns (wire_err (try_map pair_from_wire ws))) as Hps.
  { intros ws. apply wire_err_returns, returns_try_map. intros. apply pair_from_wire_returns. }
  assert (∀ ws, returns (wire_err (try_map item_from_wire ws))) as Hits.
  { intros ws. apply wire_err_returns, returns_try_map. intros. apply item_from_wire_returns. }
  unfold op_from_wire. apply returns_bind; [apply returns_ok_or|intros k _].
  destruct k; try done; repeat (apply returns_bind; [by first [apply returns_ok_or|apply Hps|apply Hits]|intros ? _]);
    try done.
  apply returns_bind; [|done]. destruct value; [|done]. apply wire_err_returns, value_from_wire_returns.
Qed.

Lemma txn_from_wire_returns w : returns (txn_from_wire w).
Proof.
  unfold txn_from_wire. apply returns_bind; [|done]. apply returns_try_map. intros. apply op_from_wire_returns.
Qed.
