(* ===== verification/SnapshotFraming.v ===== *)
(** * Delivering a snapshot in several envelopes

    Models [protocol/src/snapshot_framing.rs]: the server's division of one
    snapshot transaction into consecutive envelopes within the frame limit, and
    the replica's staging of them.  The lengths [prost] computes for a message
    and for a varint are parameters; sums of lengths of values held in memory
    do not reach the bound of [usize], so they are not wrapped. *)

From S2P Require Import Prelude.
From S2P Require Import Wire.

(** [Message::encoded_len] of an operation and [encoded_len_varint]; a larger
    number never has a shorter varint. *)
Class Encoding := {
  op_encoded_len : Msg.Operation → N;
  encoded_len_varint : N → N;
  encoded_len_varint_mono a b : (a ≤ b)%N → (encoded_len_varint a ≤ encoded_len_varint b)%N;
}.

Definition DEFAULT_MAX_SNAPSHOT_PARTS : N := 16.

(** [effective_max_snapshot_parts] and [effective_snapshot_parts] *)
Definition effective_max_snapshot_parts (advertised : N) : N := N.max advertised 1.
Definition effective_snapshot_parts (announced : N) : N := N.max announced 1.

(** [pub enum SnapshotFramingError] *)
Inductive SnapshotFramingError :=
| OperationExceedsFrame (operation_index framed_bytes max_frame_size : N)
| TooManyParts (required_parts max_parts snapshot_bytes max_frame_size : N).

(** [Range<usize>] and its [len] *)
Abbreviation Part := (N * N)%type.
Definition part_len (r : Part) : N := r.2 - r.1.

(** [pub struct SnapshotFramePlan] *)
Record SnapshotFramePlan := mkPlan { parts : list Part }.

(** [SnapshotFramePlan::single] *)
Definition single (operation_count : N) : SnapshotFramePlan := mkPlan [(0%N, operation_count)].

(** [SnapshotFramePlan::part_count]: the [expect] on the conversion to [u32]. *)
Definition part_count {E} (p : SnapshotFramePlan) : result E N :=
  if (u32_max <? len (parts p))%N then Panic else Ok (len (parts p)).

(** [SnapshotFramePlan::announced_parts] *)
Definition announced_parts {E} (p : SnapshotFramePlan) : result E N :=
  n ← part_count p; Ok (if (n =? 1)%N then 0%N else n).

(** The iterator of [split]: every range takes its length off the front. *)
Fixpoint split_operations (snapshot : Msg.Transaction) (rs : list Part) (ops : list Msg.Operation)
    : list Msg.Transaction :=
  match rs with
  | [] => []
  | r :: rs =>
      let n := N.to_nat (part_len r) in
      Msg.mkTransaction (Msg.base_revision snapshot) (Msg.new_revision snapshot) (take n ops)
        (Msg.priority snapshot) :: split_operations snapshot rs (drop n ops)
  end.

(** [SnapshotFramePlan::split] *)
Definition split {E} (p : SnapshotFramePlan) (snapshot : Msg.Transaction) : result E (list Msg.Transaction) :=
  let total := default 0%N (snd <$> last (parts p)) in
  if negb (len (Msg.operations snapshot) =? total)%N then Panic
  else if (len (parts p) =? 1)%N then Ok [snapshot]
  else Ok (split_operations snapshot (parts p) (Msg.operations snapshot)).

Section framing.
Context `{Encoding}.

(** [operation_field_len] and [envelope_len] *)
Definition operation_field_len (op : Msg.Operation) : N :=
  let body := op_encoded_len op in 1 + encoded_len_varint body + body.
Definition envelope_len (new_revision priority operations_len : N) : N :=
  let transaction := operations_len in
  let transaction := if negb (new_revision =? 0)%N
                     then (transaction + (1 + encoded_len_varint new_revision))%N else transaction in
  let transaction := if negb (priority =? 0)%N
                     then (transaction + (1 + encoded_len_varint priority))%N else transaction in
  1 + encoded_len_varint transaction + transaction.

(** One iteration of the packing loop, over [(parts, start, current)]. *)
Definition plan_step (envelope : N → N) (max_frame_size : N) (st : list Part * N * N) (index_len : N * N)
    : result SnapshotFramingError (list Part * N * N) :=
  let '(ps, start, current) := st in
  let '(index, l) := index_len in
  let alone := envelope l in
  err_if (max_frame_size <? alone)%N (OperationExceedsFrame index alone max_frame_size) ≫= λ _,
  let '(ps, start, current) :=
    if (start <? index)%N && (max_frame_size <? envelope (current + l))%N
    then (ps ++ [(start, index)], index, 0%N) else (ps, start, current) in
  Ok (ps, start, (current + l)%N).

Definition sumN (l : list N) : N := foldr N.add 0%N l.

(** [plan_snapshot_frames] *)
Definition plan_snapshot_frames (snapshot : Msg.Transaction) (max_frame_size max_parts : N)
    : result SnapshotFramingError SnapshotFramePlan :=
  let max_parts := effective_max_snapshot_parts max_parts in
  let envelope := envelope_len (Msg.new_revision snapshot) (Msg.priority snapshot) in
  let field_lens := map operation_field_len (Msg.operations snapshot) in
  let snapshot_bytes := envelope (sumN field_lens) in
  if (snapshot_bytes <=? max_frame_size)%N then Ok (single (len field_lens))
  else
    '(ps, start, _) ← try_fold (plan_step envelope max_frame_size) ([], 0%N, 0%N) (enumerate field_lens);
    let ps := ps ++ [(start, len field_lens)] in
    err_if (max_parts <? len ps)%N (TooManyParts (len ps) max_parts snapshot_bytes max_frame_size) ≫= λ _,
    Ok (mkPlan ps).
End framing.

(** ** The replica's half *)

(** [pub enum SnapshotAssemblyError] *)
Inductive SnapshotAssemblyError :=
| PartsExceedLimit (announced max_parts : N)
| NotASnapshotPart (part_index base_revision new_revision snapshot_revision : N)
| EmptyPart (part_index : N)
| OperationLimitExceeded (part_index max_operations staged : N)
| AlreadyComplete.

(** [pub struct SnapshotAssembler] *)
Record SnapshotAssembler := mkAssembler {
  sa_revision : N;
  expected_parts : N;
  received_parts : N;
  sa_max_operations : N;
  sa_priority : N;
  sa_operations : list Msg.Operation;
}.

(** [SnapshotAssembler::new] *)
Definition Assembler_new (snapshot_revision announced_parts max_parts max_operations : N)
    : result SnapshotAssemblyError SnapshotAssembler :=
  let expected := effective_snapshot_parts announced_parts in
  let max_parts := effective_max_snapshot_parts max_parts in
  err_if (max_parts <? expected)%N (PartsExceedLimit expected max_parts) ≫= λ _,
  Ok (mkAssembler snapshot_revision expected 0 max_operations 0 []).

(** The checks of [accept] before it stages anything. *)
Definition check_part (a : SnapshotAssembler) (part : Msg.Transaction) : result SnapshotAssemblyError unit :=
  err_if (expected_parts a <=? received_parts a)%N AlreadyComplete ≫= λ _,
  err_if (negb (Msg.base_revision part =? 0)%N || negb (Msg.new_revision part =? sa_revision a)%N)
    (NotASnapshotPart (received_parts a) (Msg.base_revision part) (Msg.new_revision part) (sa_revision a))
    ≫= λ _,
  err_if ((1 <? expected_parts a)%N && (len (Msg.operations part) =? 0)%N) (EmptyPart (received_parts a))
    ≫= λ _,
  let staged := (len (sa_operations a) + len (Msg.operations part))%N in
  err_if (sa_max_operations a <? staged)%N
    (OperationLimitExceeded (received_parts a) (sa_max_operations a) staged).

(** [SnapshotAssembler::accept] *)
Definition accept (a : SnapshotAssembler) (part : Msg.Transaction)
    : SnapshotAssembler * result SnapshotAssemblyError (option Msg.Transaction) :=
  match check_part a part with
  | Ok _ =>
      let received := (received_parts a + 1)%N in
      let prio := if (received_parts a =? 0)%N then Msg.priority part else sa_priority a in
      let with_ops := mkAssembler (sa_revision a) (expected_parts a) received (sa_max_operations a) prio in
      if (expected_parts a =? 1)%N then (with_ops (sa_operations a), Ok (Some part))
      else
        let ops := sa_operations a ++ Msg.operations part in
        if (received <? expected_parts a)%N then (with_ops ops, Ok None)
        else (with_ops [], Ok (Some (Msg.mkTransaction 0 (sa_revision a) ops prio)))
  | Err e => (a, Err e)
  | Panic => (a, Panic)
  | Diverge => (a, Diverge)
  end.

(** A replica feeding the envelopes of one snapshot to its assembler, up to the
    first refusal or the completed snapshot. *)
Fixpoint accept_all (a : SnapshotAssembler) (envelopes : list Msg.Transaction)
    : result SnapshotAssemblyError (option Msg.Transaction) :=
  match envelopes with
  | [] => Ok None
  | part :: envelopes =>
      match accept a part with
      | (a', Ok None) => accept_all a' envelopes
      | (_, r) => r
      end
  end.
