(* ===== verification/SnapshotFramingFacts.v ===== *)
(** * Snapshot framing: facts

    The packing loop divides the operations into consecutive non-empty groups
    that fit, and into as few as possible; the assembler puts them together
    again. *)

From S2P Require Import Prelude.
From S2P Require Import Wire.
From S2P Require Import SnapshotFraming.

(** ** Greedy packing

    [need fits cur ls]: how many groups greedy packing opens for [ls] when the
    open group already sums to [cur]. *)
Fixpoint need (fits : N → bool) (cur : N) (ls : list N) : nat :=
  match ls with
  | [] => 0
  | l :: ls => if fits (cur + l)%N then need fits (cur + l) ls else S (need fits l ls)
  end.

Lemma sumN_app l k : sumN (l ++ k) = (sumN l + sumN k)%N.
Proof. induction l as [|x l IH]; cbn; [done|]. unfold sumN in *. rewrite IH. lia. Qed.

Lemma sumN_elem x l : x ∈ l → (x ≤ sumN l)%N.
Proof.
  induction l as [|y l IH]; cbn; [by intros ?%elem_of_nil|].
  unfold sumN in *. intros [->|Hx%IH]%elem_of_cons; lia.
Qed.

Section packing.
Context (fits : N → bool).
Context (fits_down : ∀ a b, (a ≤ b)%N → fits b = true → fits a = true).

(** A fuller open group never needs fewer groups, and at most one more. *)
Lemma need_mono ls :
  (∀ c c', (c ≤ c')%N → need fits c ls ≤ need fits c' ls) ∧
  (∀ c c', need fits c ls ≤ S (need fits c' ls)).
Proof using fits_down.
  induction ls as [|l ls [IHle IHone]]; cbn; [split; lia|]. split.
  - intros c c' Hc. destruct (fits (c' + l)%N) eqn:Hf'.
    + rewrite (fits_down (c + l) (c' + l)) by (done || lia). apply IHle. lia.
    + destruct (fits (c + l)%N); [apply IHone|done].
  - intros c c'. destruct (fits (c + l)%N); [|apply le_n_S; destruct (fits (c' + l)%N)].
    + destruct (fits (c' + l)%N); [apply IHone|]. transitivity (S (need fits l ls)); [apply IHone|lia].
    + apply IHle. lia.
    + lia.
Qed.

Lemma need_app c g ls : fits (c + sumN g)%N = true → need fits c (g ++ ls) = need fits (c + sumN g) ls.
Proof using fits_down.
  revert c. induction g as [|x g IH]; intros c Hf; cbn in *; [by rewrite N.add_0_r|].
  rewrite N.add_assoc in Hf. rewrite (fits_down (c + x) (c + x + sumN g)) by (done || lia).
  rewrite IH by done. by rewrite N.add_assoc.
Qed.

(** No division into consecutive groups that fit has fewer groups. *)
Lemma need_division c groups :
  Forall (λ g, fits (sumN g) = true) groups → need fits c (concat groups) ≤ length groups.
Proof using fits_down.
  intros Hall. revert c. induction Hall as [|g groups Hg _ IH]; intros c; cbn; [done|].
  destruct (need_mono (g ++ concat groups)) as [_ Hone].
  transitivity (S (need fits 0 (g ++ concat groups))); [apply Hone|].
  rewrite need_app by done. apply le_n_S, IH.
Qed.

Lemma need_lower groups : groups ≠ [] → Forall (λ g, fits (sumN g) = true) groups →
  S (need fits 0 (concat groups)) ≤ length groups.
Proof using fits_down.
  destruct groups as [|g groups]; [done|]. intros _ Hall. apply Forall_cons in Hall as [Hg Hall].
  cbn. rewrite need_app by done. by apply le_n_S, need_division.
Qed.

(** ** The packing loop *)

(** The index ranges of consecutive groups. *)
Fixpoint ranges_of (start : N) (groups : list (list N)) : list Part :=
  match groups with
  | [] => []
  | g :: groups => (start, start + len g)%N :: ranges_of (start + len g) groups
  end.

Lemma ranges_of_snoc s groups g :
  ranges_of s (groups ++ [g]) =
  ranges_of s groups ++ [((s + len (concat groups))%N, (s + len (concat groups) + len g)%N)].
Proof using Type.
  revert s. induction groups as [|h groups IH]; intros s; cbn; [by rewrite N.add_0_r|].
  by rewrite IH, len_app, !N.add_assoc.
Qed.

Lemma length_ranges_of s groups : length (ranges_of s groups) = length groups.
Proof using Type. revert s. induction groups as [|g groups IH]; intros s; cbn; [done|]. by rewrite IH. Qed.

(** What the loop has done when it has seen the lengths [seen]. *)
Record packed (seen : list N) (st : list Part * N * N) (groups : list (list N)) (open : list N) : Prop := {
  pk_seen : concat groups ++ open = seen;
  pk_parts : st.1.1 = ranges_of 0 groups;
  pk_start : st.1.2 = len (concat groups);
  pk_current : st.2 = sumN open;
  pk_groups : Forall (λ g, g ≠ [] ∧ fits (sumN g) = true) groups;
  pk_open : seen ≠ [] → open ≠ [] ∧ fits (sumN open) = true;
}.

Lemma packed_close seen groups open st l :
  packed seen st groups open → seen ≠ [] → fits l = true →
  packed (seen ++ [l]) (st.1.1 ++ [(st.1.2, len seen)], len seen, l) (groups ++ [open]) [l].
Proof using Type.
  intros [Hs Hp Hst Hc Hg Ho] Hne Hl. destruct (Ho Hne) as [Hopen Hfit]. split; cbn.
  - by rewrite concat_app; cbn; rewrite app_nil_r, Hs.
  - rewrite ranges_of_snoc, Hp, Hst, !N.add_0_l, <- Hs, len_app. done.
  - rewrite concat_app; cbn. by rewrite app_nil_r, Hs.
  - lia.
  - apply Forall_app. by repeat constructor.
  - intros _. split; [done|]. by rewrite N.add_0_r.
Qed.

Lemma packed_extend seen groups open st l :
  packed seen st groups open → fits (st.2 + l)%N = true →
  packed (seen ++ [l]) (st.1, (st.2 + l)%N) groups (open ++ [l]).
Proof using Type.
  intros [Hs Hp Hst Hc Hg Ho] Hl. rewrite Hc in Hl. split; cbn.
  - by rewrite app_assoc, Hs.
  - done.
  - done.
  - rewrite sumN_app, Hc. cbn. lia.
  - done.
  - intros _. split; [by destruct open|]. rewrite sumN_app. cbn. by rewrite N.add_0_r.
Qed.

Lemma packed_all seen st groups open : packed seen st groups open → seen ≠ [] →
  st.1.1 ++ [(st.1.2, len seen)] = ranges_of 0 (groups ++ [open]) ∧
  concat (groups ++ [open]) = seen ∧
  Forall (λ g, g ≠ [] ∧ fits (sumN g) = true) (groups ++ [open]).
Proof using Type.
  intros [Hs Hp Hst _ Hg Ho] Hne. assert (concat (groups ++ [open]) = seen) as Hc.
  { rewrite concat_app. cbn. by rewrite app_nil_r. }
  split_and!; [|done|apply Forall_app; split; [done|]; constructor; [by apply Ho|constructor]].
  rewrite ranges_of_snoc, Hp, Hst, N.add_0_l, <- len_app, Hs. done.
Qed.
End packing.

Section planning.
Context `{Encoding} (envelope : N → N) (max : N).
Context (envelope_mono : ∀ a b, (a ≤ b)%N → (envelope a ≤ envelope b)%N).
#[local] Abbreviation fits := (λ x, (envelope x <=? max)%N).

Lemma fits_down a b : (a ≤ b)%N → fits b = true → fits a = true.
Proof using envelope_mono. intros Hab%envelope_mono. cbn. rewrite !N.leb_le. lia. Qed.

Lemma plan_step_Ok seen st groups open l :
  packed fits seen st groups open → fits l = true →
  ∃ st' groups' open', plan_step envelope max st (len seen, l) = Ok st' ∧
    packed fits (seen ++ [l]) st' groups' open' ∧
    ∀ rest, length groups' + need fits st'.2 rest = length groups + need fits st.2 (l :: rest).
Proof using Type.
  intros Hpk Hl. destruct st as [[ps start] current]. unfold plan_step.
  rewrite (proj2 (err_if_Ok _ _ tt)) by (apply N.ltb_ge, N.leb_le; exact Hl). cbn [mbind result_bind].
  destruct ((start <? len seen)%N && (max <? envelope (current + l))%N) eqn:Hcut.
  - apply andb_true_iff in Hcut as [Hst%N.ltb_lt Hbig%N.ltb_lt].
    assert (seen ≠ []) as Hne by (intros ->; by apply N.nlt_0_r in Hst).
    eexists _, _, _. split; [reflexivity|]. rewrite N.add_0_l. split; [exact (packed_close _ _ _ _ _ _ Hpk Hne Hl)|].
    intros rest. cbn. rewrite (proj2 (N.leb_gt _ _)) by done. rewrite length_app. cbn. lia.
  - assert (fits (current + l)%N = true) as Hfit.
    { apply N.leb_le. apply andb_false_iff in Hcut as [Hst%N.ltb_ge|Hbig%N.ltb_ge]; [|done].
      destruct Hpk as [Hs _ Hstart Hcur _ Hopen]. cbn in *. destruct (decide (seen = [])) as [->|Hne].
      - apply app_eq_nil in Hs as [_ ->]. subst. cbn. by apply N.leb_le in Hl.
      - destruct (Hopen Hne) as [Ho _]. subst. rewrite len_app in Hst. destruct open; [done|].
        rewrite len_cons in Hst. lia. }
    eexists _, _, _. split; [reflexivity|]. split; [exact (packed_extend _ _ _ _ _ _ Hpk Hfit)|].
    intros rest. cbn. by rewrite Hfit.
Qed.

(** The loop ends with all lengths packed into as many groups as greedy packing
    needs, or at an operation that fits no envelope. *)
Lemma plan_loop rest : ∀ seen st groups open,
  packed fits seen st groups open →
  match try_fold (plan_step envelope max) st (enumerate_from (len seen) rest) with
  | Ok st' => ∃ groups' open', packed fits (seen ++ rest) st' groups' open' ∧
      length groups' = length groups + need fits st.2 rest
  | Err e => ∃ i l, e = OperationExceedsFrame i (envelope l) max ∧
      (seen ++ rest) !! N.to_nat i = Some l ∧ (max < envelope l)%N
  | _ => False
  end.
Proof using Type.
  induction rest as [|l rest IH]; intros seen st groups open Hpk; cbn [enumerate_from try_fold].
  { exists groups, open. rewrite app_nil_r. cbn. by split; [|lia]. }
  destruct (fits l) eqn:Hl.
  - destruct (plan_step_Ok _ _ _ _ _ Hpk Hl) as (st' & groups' & open' & -> & Hpk' & Hcount).
    cbn [mbind result_bind]. specialize (IH _ _ _ _ Hpk'). rewrite len_app in IH. cbn in IH.
    replace (len seen + 1)%N with (len seen + len [l])%N by done. cbn. case_match.
    + destruct IH as (groups'' & open'' & IH & Hlen). exists groups'', open''.
      rewrite <- app_assoc in IH. split; [done|]. rewrite Hlen. apply Hcount.
    + destruct IH as (i & x & ? & ? & ?). exists i, x. by rewrite <- app_assoc in *.
    + done.
    + done.
  - apply N.leb_gt in Hl. destruct st as [[ps start] current]. cbn.
    rewrite (proj2 (N.ltb_lt max _) Hl). cbn. exists (len seen), l. split_and!; [done| |done].
    unfold len. rewrite Nat2N.id. by apply list_lookup_middle.
Qed.
End planning.

(** ** The plan of a snapshot *)

Definition envelope_of (snapshot : Msg.Transaction) (ops : list Msg.Operation) : Msg.Transaction :=
  Msg.mkTransaction (Msg.base_revision snapshot) (Msg.new_revision snapshot) ops (Msg.priority snapshot).

Lemma envelope_of_self tx : envelope_of tx (Msg.operations tx) = tx.
Proof. by destruct tx. Qed.

Section plan.
Context `{Encoding}.

(** The framed payload of the envelope that carries [ops] of the snapshot. *)
Definition framed_bytes (snapshot : Msg.Transaction) (ops : list Msg.Operation) : N :=
  envelope_len (Msg.new_revision snapshot) (Msg.priority snapshot) (sumN (map operation_field_len ops)).

Lemma envelope_len_mono rev prio a b : (a ≤ b)%N → (envelope_len rev prio a ≤ envelope_len rev prio b)%N.
Proof.
  intros Hab. unfold envelope_len. set (f := if negb (rev =? 0)%N then _ else a).
  set (g := if negb (rev =? 0)%N then _ else b).
  assert (f ≤ g)%N as Hfg by (unfold f, g; case_match; lia).
  assert ((if negb (prio =? 0) then f + (1 + encoded_len_varint prio) else f) ≤
    (if negb (prio =? 0) then g + (1 + encoded_len_varint prio) else g))%N as Hle by (case_match; lia).
  pose proof (encoded_len_varint_mono _ _ Hle). lia.
Qed.

Lemma split_ranges snapshot groups s : ∀ ops, map operation_field_len ops = concat groups →
  ∃ oss, split_operations snapshot (ranges_of s groups) ops = map (envelope_of snapshot) oss ∧
    concat oss = ops ∧ map (map operation_field_len) oss = groups.
Proof.
  revert s. induction groups as [|g groups IH]; intros s ops Hops; cbn in *.
  { exists []. by apply map_eq_nil in Hops as ->. }
  apply map_eq_app in Hops as (os & ops' & -> & Hos & Hops').
  destruct (IH (s + len g)%N ops' Hops') as (oss & Hsp & Hc & Hm).
  assert (length os = length g) as Hlen by (by rewrite <- Hos, length_map).
  unfold part_len. cbn. replace (N.to_nat (s + len g - s)) with (length os) by (unfold len; lia).
  exists (os :: oss). rewrite take_app_length, drop_app_length.
  cbn. by rewrite Hsp, Hc, Hm, Hos.
Qed.

(** A plan divides the operations, in order, into non-empty envelopes that fit. *)
Record delivers (snapshot : Msg.Transaction) (max_frame_size : N) (p : SnapshotFramePlan)
    (oss : list (list Msg.Operation)) : Prop := {
  dl_split {E} : split (E:=E) p snapshot = Ok (map (envelope_of snapshot) oss);
  dl_concat : concat oss = Msg.operations snapshot;
  dl_fits : Forall (λ os, os ≠ [] ∧ (framed_bytes snapshot os ≤ max_frame_size)%N) oss;
  dl_count : length (parts p) = length oss;
}.

Lemma delivers_single snapshot max_frame_size :
  Msg.operations snapshot ≠ [] → (framed_bytes snapshot (Msg.operations snapshot) ≤ max_frame_size)%N →
  delivers snapshot max_frame_size (single (len (map operation_field_len (Msg.operations snapshot))))
    [Msg.operations snapshot].
Proof.
  intros Hne Hfit. split; cbn.
  - intros E. unfold split. cbn. unfold len at 1 2. rewrite length_map, N.eqb_refl. cbn.
    by rewrite envelope_of_self.
  - apply app_nil_r.
  - by repeat constructor.
  - done.
Qed.

Lemma last_ranges groups g : snd <$> last (ranges_of 0 (groups ++ [g])) = Some (len (concat (groups ++ [g]))).
Proof. rewrite ranges_of_snoc, last_snoc. cbn. by rewrite concat_app, len_app; cbn; rewrite app_nil_r. Qed.

Lemma delivers_groups snapshot max_frame_size groups g :
  map operation_field_len (Msg.operations snapshot) = concat (groups ++ [g]) →
  Forall (λ g, g ≠ [] ∧ (envelope_len (Msg.new_revision snapshot) (Msg.priority snapshot) (sumN g)
    ≤ max_frame_size)%N) (groups ++ [g]) →
  ∃ oss, delivers snapshot max_frame_size (mkPlan (ranges_of 0 (groups ++ [g]))) oss ∧
    length oss = length (groups ++ [g]).
Proof.
  intros Hops Hfit. destruct (split_ranges snapshot _ 0 _ Hops) as (oss & Hsp & Hc & Hm).
  assert (length oss = length (groups ++ [g])) as Hlen by (by rewrite <- Hm, length_map).
  exists oss. split; [|done]. split; [intros E|done| |cbn; by rewrite length_ranges_of].
  - unfold split. cbn [parts]. rewrite last_ranges. cbn [default]. rewrite <- Hops.
    unfold len at 1 2. rewrite length_map, N.eqb_refl. cbn [negb].
    rewrite Hsp. destruct (len (ranges_of 0 (groups ++ [g])) =? 1)%N eqn:H1; [|done].
    apply N.eqb_eq in H1. unfold len in H1. rewrite length_ranges_of, <- Hlen in H1.
    destruct oss as [|os [|? ?]]; cbn in *; try lia. rewrite app_nil_r in Hc. subst os.
    by rewrite envelope_of_self.
  - rewrite <- Hm, Forall_map in Hfit. eapply Forall_impl; [exact Hfit|]. cbn.
    intros os [Hne Hle]. split; [by intros ->|done].
Qed.
Lemma packed_nil fits : packed fits [] ([], 0%N, 0%N) [] [].
Proof. by split. Qed.

(** Planning returns, and with no more parts than the client stages. *)
Lemma plan_snapshot_frames_returns snapshot max_frame_size max_parts :
  match plan_snapshot_frames snapshot max_frame_size max_parts with
  | Ok p => (len (parts p) ≤ effective_max_snapshot_parts max_parts)%N
  | Err _ => True
  | _ => False
  end.
Proof.
  unfold plan_snapshot_frames. set (env := envelope_len _ _).
  destruct (_ <=? _)%N; [unfold single, len, effective_max_snapshot_parts; cbn; lia|].
  assert (∀ l st, returns (try_fold (plan_step env max_frame_size) st l)) as Hr.
  { intros l st. apply returns_try_fold. intros [[ps start] cur] [i n]. unfold plan_step.
    apply returns_bind; [apply returns_err_if|]. intros _ _. by destruct (_ && _). }
  specialize (Hr (enumerate (map operation_field_len (Msg.operations snapshot))) ([], 0%N, 0%N)).
  destruct (try_fold _ _ _) as [[[ps start] cur]|e| |]; [|done..]. cbn.
  destruct (N.ltb_spec (effective_max_snapshot_parts max_parts) (len (ps ++
    [(start, len (map operation_field_len (Msg.operations snapshot)))]))); [done|]. cbn. done.
Qed.

(** The outcome of planning, on each branch. *)
Lemma plan_snapshot_frames_spec snapshot max_frame_size max_parts :
  Msg.operations snapshot ≠ [] →
  match plan_snapshot_frames snapshot max_frame_size max_parts with
  | Ok p => ∃ oss, delivers snapshot max_frame_size p oss ∧
      (len oss ≤ effective_max_snapshot_parts max_parts)%N ∧
      ∀ oss', concat oss' = Msg.operations snapshot →
        Forall (λ os, framed_bytes snapshot os ≤ max_frame_size)%N oss' → length oss ≤ length oss'
  | Err (OperationExceedsFrame i bytes _) => ∃ op, Msg.operations snapshot !! N.to_nat i = Some op ∧
      bytes = framed_bytes snapshot [op] ∧ (max_frame_size < bytes)%N
  | Err (TooManyParts required _ _ _) => (effective_max_snapshot_parts max_parts < required)%N ∧
      ∀ oss', concat oss' = Msg.operations snapshot →
        Forall (λ os, framed_bytes snapshot os ≤ max_frame_size)%N oss' → (required ≤ len oss')%N
  | _ => False
  end.
Proof.
  intros Hne. unfold plan_snapshot_frames.
  set (env := envelope_len (Msg.new_revision snapshot) (Msg.priority snapshot)).
  assert (∀ a b, (a ≤ b)%N → (env a ≤ env b)%N) as Hmono by apply envelope_len_mono.
  set (lens := map operation_field_len (Msg.operations snapshot)).
  destruct (env (sumN lens) <=? max_frame_size)%N eqn:Hall.
  { apply N.leb_le in Hall. eexists. split; [by apply delivers_single|]. split; [cbn; unfold len, effective_max_snapshot_parts; cbn; lia|].
    intros oss' Hc _. destruct oss'; [by rewrite <- Hc in Hne|cbn; lia]. }
  assert (lens ≠ []) as Hlens by (by intros ?%map_eq_nil).
  assert (∀ oss', concat oss' = Msg.operations snapshot →
    Forall (λ os, framed_bytes snapshot os ≤ max_frame_size)%N oss' →
    S (need (λ x, env x <=? max_frame_size)%N 0 lens) ≤ length oss') as Hmin.
  { intros oss' Hc Hfit. rewrite <- (length_map (map operation_field_len) oss').
    assert (lens = concat (map (map operation_field_len) oss')) as -> by (by rewrite <- concat_map, Hc).
    apply need_lower; [by apply fits_down|by intros ->%map_eq_nil; rewrite <- Hc in Hne|].
    apply Forall_map. eapply Forall_impl; [exact Hfit|]. intros os Hos. by apply N.leb_le. }
  pose proof (plan_loop env max_frame_size lens [] _ [] [] (packed_nil _)) as Hloop.
  change (len []) with 0%N in Hloop. change (enumerate_from 0 lens) with (enumerate lens) in Hloop.
  destruct (try_fold _ _ _) as [st|e| |]; cbn [mbind result_bind]; [..|done|done].
  - destruct Hloop as (groups & open & Hpk & Hcount). cbn in Hpk.
    destruct (packed_all _ _ _ _ _ Hpk Hlens) as (Hps & Hc & Hfit).
    destruct st as [[ps start] current]. cbn [fst snd] in *. rewrite Hps.
    assert (length (groups ++ [open]) = S (need (λ x, env x <=? max_frame_size)%N 0 lens)) as Hlen.
    { rewrite length_app, Hcount. cbn. lia. }
    assert (length (ranges_of 0 (groups ++ [open])) = S (need (λ x, env x <=? max_frame_size)%N 0 lens)) as Hl'.
    { by rewrite length_ranges_of. }
    destruct (effective_max_snapshot_parts max_parts <? _)%N eqn:Hmax; cbn.
    + apply N.ltb_lt in Hmax. split; [done|]. intros oss' Ho Hf. unfold len. rewrite Hl'.
      specialize (Hmin _ Ho Hf). lia.
    + apply N.ltb_ge in Hmax. destruct (delivers_groups snapshot max_frame_size groups open) as (oss & Hd & Ho).
      { by rewrite Hc. }
      { eapply Forall_impl; [exact Hfit|]. intros g [? Hg%N.leb_le]. done. }
      exists oss. split; [done|]. split; [unfold len in *; rewrite Hl' in Hmax; lia|].
      intros oss' Hc' Hf. rewrite Ho, Hlen. by apply Hmin.
  - destruct Hloop as (i & l & -> & Hi & Hl). cbn in Hi. unfold lens in Hi. rewrite list_lookup_fmap in Hi.
    apply fmap_Some in Hi as (op & Hop & ->). exists op. split; [done|]. unfold framed_bytes. cbn.
    rewrite N.add_0_r. done.
Qed.
End plan.

(** ** Assembling *)

(** An assembler that has staged [ops] from the first [received] of several parts. *)
Definition staging (snapshot : Msg.Transaction) (expected max_operations : N) (received : N)
    (ops : list Msg.Operation) : SnapshotAssembler :=
  mkAssembler (Msg.new_revision snapshot) expected received max_operations
    (if (received =? 0)%N then 0%N else Msg.priority snapshot) ops.

Section assembling.
Context (snapshot : Msg.Transaction) (expected max_operations : N).
Context (Hbase : Msg.base_revision snapshot = 0%N) (Hmany : (1 < expected)%N).

Lemma accept_part received ops part :
  (received < expected)%N → part ≠ [] → (len ops + len part ≤ max_operations)%N →
  accept (staging snapshot expected max_operations received ops) (envelope_of snapshot part) =
  if (received + 1 <? expected)%N
  then (staging snapshot expected max_operations (received + 1) (ops ++ part), Ok None)
  else (staging snapshot expected max_operations (received + 1) [],
        Ok (Some (envelope_of snapshot (ops ++ part)))).
Proof using Hbase Hmany.
  intros Hr Hne Hmax. unfold accept, check_part, staging. cbn.
  rewrite (proj2 (N.leb_gt _ _)) by done. cbn. rewrite Hbase, !N.eqb_refl. cbn.
  assert ((len part =? 0)%N = false) as ->.
  { apply N.eqb_neq. destruct part; [done|]. rewrite len_cons. lia. }
  rewrite andb_false_r. cbn. rewrite (proj2 (N.ltb_ge _ _)) by done. cbn.
  rewrite (proj2 (N.eqb_neq expected 1)) by lia. rewrite (proj2 (N.eqb_neq (received + 1) 0)) by lia.
  unfold envelope_of. rewrite Hbase.
  by case_match; destruct (received =? 0)%N.
Qed.

Lemma accept_parts received ops oss :
  (received + len oss ≤ expected)%N → Forall (λ os, os ≠ []) oss →
  (len ops + len (concat oss) ≤ max_operations)%N → oss ≠ [] →
  accept_all (staging snapshot expected max_operations received ops) (map (envelope_of snapshot) oss) =
  if (received + len oss <? expected)%N then Ok None
  else Ok (Some (envelope_of snapshot (ops ++ concat oss))).
Proof using Hbase Hmany.
  intros Hr Hall. revert received ops Hr. induction Hall as [|part oss Hp Hall IH]; [done|].
  intros received ops Hr Hmax _. rewrite len_cons in *. cbn in Hmax. rewrite len_app in Hmax.
  cbn [map accept_all]. rewrite accept_part by (done || lia).
  destruct (decide (oss = [])) as [->|Hne].
  - change (len []) with 0%N in *. rewrite N.add_0_r in *. cbn. rewrite app_nil_r.
    by destruct (received + 1 <? expected)%N.
  - assert (1 ≤ len oss)%N by (destruct oss; [done|rewrite len_cons; lia]).
    rewrite (proj2 (N.ltb_lt (received + 1) expected)) by lia.
    rewrite IH by (rewrite ?len_app; done || lia). rewrite <- N.add_assoc. cbn.
    by rewrite app_assoc.
Qed.
End assembling.

(** The parts of a plan, fed to the assembler its announcement prepares: the
    snapshot comes out with the last one and not before. *)
Lemma assemble `{Encoding} snapshot max_frame_size p oss max_parts max_operations :
  Msg.base_revision snapshot = 0%N → Msg.operations snapshot ≠ [] →
  delivers snapshot max_frame_size p oss → (len oss ≤ effective_max_snapshot_parts max_parts)%N →
  (len oss ≤ u32_max)%N → (len (Msg.operations snapshot) ≤ max_operations)%N →
  ∃ announced a, announced_parts (E:=SnapshotAssemblyError) p = Ok announced ∧
    Assembler_new (Msg.new_revision snapshot) announced max_parts max_operations = Ok a ∧
    accept_all a (map (envelope_of snapshot) oss) = Ok (Some snapshot) ∧
    ∀ k, k < length oss → accept_all a (map (envelope_of snapshot) (take k oss)) = Ok None.
Proof.
  intros Hbase Hne Hd Hparts Hu32 Hops. destruct Hd as [_ Hc Hfit Hcount].
  assert (oss ≠ []) as Hoss by (by intros ->).
  assert (1 ≤ len oss)%N as H1 by (destruct oss; [done|rewrite len_cons; lia]).
  assert (len (parts p) = len oss) as Hlen by (unfold len; by rewrite Hcount).
  assert (Forall (λ os : list Msg.Operation, os ≠ []) oss) as Hfull.
  { eapply Forall_impl; [exact Hfit|]. by intros os [? _]. }
  unfold announced_parts, part_count. rewrite Hlen, (proj2 (N.ltb_ge _ _)) by done. cbn.
  set (announced := if (len oss =? 1)%N then 0%N else len oss).
  assert (effective_snapshot_parts announced = len oss) as Heff.
  { unfold effective_snapshot_parts, announced. destruct (N.eqb_spec (len oss) 1) as [->|]; lia. }
  exists announced, (mkAssembler (Msg.new_revision snapshot) (len oss) 0 max_operations 0 []).
  split; [done|]. unfold Assembler_new. rewrite Heff, (proj2 (N.ltb_ge _ _)) by done. split; [done|].
  destruct (decide (len oss = 1%N)) as [Hone|Hmany].
  - destruct oss as [|os [|? ?]]; [done| |rewrite !len_cons in Hone; lia].
    cbn in Hc. rewrite app_nil_r in Hc. subst os. rewrite Hone. cbn [map]. rewrite envelope_of_self. split.
    + cbn. unfold accept, check_part. cbn. rewrite Hbase, !N.eqb_refl. cbn.
      rewrite (proj2 (N.ltb_ge _ _)) by (unfold len in *; cbn; lia). done.
    + intros k Hk. assert (k = 0) as -> by (cbn in Hk; lia). done.
  - change (mkAssembler _ _ _ _ _ _) with (staging snapshot (len oss) max_operations 0 []). split.
    + rewrite accept_parts; [|done|lia|lia|done|rewrite Hc; unfold len in *; cbn; lia|done].
      rewrite (proj2 (N.ltb_ge _ _)) by lia. cbn. by rewrite Hc, envelope_of_self.
    + intros k Hk. destruct k as [|k]; [done|].
      assert (len (take (S k) oss) = N.of_nat (S k)) as Htk.
      { unfold len. rewrite length_take. lia. }
      rewrite accept_parts; rewrite ?Htk; try done.
      * by rewrite (proj2 (N.ltb_lt _ _)) by (unfold len; lia).
      * lia.
      * unfold len; lia.
      * by apply Forall_take.
      * rewrite <- Hc, <- (take_drop (S k) oss), concat_app, len_app in Hops.
        change (len (@nil Msg.Operation)) with 0%N. lia.
      * by destruct oss.
Qed.
