(* ===== verification/Snapshot.v ===== *)
(** * Snapshot export

    Models [sessiond/src/session/snapshot.rs]: the one transaction that rebuilds
    a store, in which every model is created and its cached ranges are written
    in bounded chunks and every node is created in preorder at its position, and
    the choice of the frame plan for a client.

    The recursion over the tree takes fuel [S (size nodes)], which
    [SnapshotNodes] shows to be enough. *)

From S2P Require Import Prelude.
From S2P Require Import Values.
From S2P Require Import Limits.
From S2P Require Import Models.
From S2P Require Import Store.
From S2P Require Import Transaction.
From S2P Require Import Wire.
From S2P Require Import SnapshotFraming.

(** [framed_payload_len] of an item: [prost]'s [encoded_len]. *)
Class ItemEncoding := item_encoded_len : Msg.ModelItem → N.

Definition SNAPSHOT_MODEL_RANGE_MAX_BYTES : N := N.shiftl 1 20.
Definition DEFAULT_MAX_FRAME_SIZE : N := 16 * 1024 * 1024.

(** The variants of [SessionError] that this file returns. *)
Inductive SnapshotError :=
| SnapshotUnrepresentable (limit actual : N)
| SnapshotUndeliverable (e : SnapshotFramingError).

(** [message ClientLimits] *)
Record ClientLimits := mkClientLimits {
  cl_max_frame_size : N;
  cl_max_transaction_operations : N;
  cl_max_tree_depth : N;
  cl_max_node_count : N;
  cl_max_string_length : N;
  cl_max_resource_size : N;
  cl_max_snapshot_parts : N;
}.

(** The closure [nonzero]: a zero advertisement is no preference. *)
Definition nonzero (value : N) : option N := if (value =? 0)%N then None else Some value.

(** [plan_snapshot_delivery] *)
Definition plan_snapshot_delivery `{Encoding} (snapshot : Msg.Transaction) (server_max_frame_size : N)
    (client_limits : option ClientLimits) : result SnapshotError SnapshotFramePlan :=
  let actual := len (Msg.operations snapshot) in
  match client_limits ≫= λ l, nonzero (cl_max_transaction_operations l) with
  | Some limit => err_if (limit <? actual)%N (SnapshotUnrepresentable limit actual)
  | None => Ok tt
  end ≫= λ _,
  let max_frame_size :=
    foldl N.min DEFAULT_MAX_FRAME_SIZE
      (omap id [nonzero server_max_frame_size; client_limits ≫= λ l, nonzero (cl_max_frame_size l)]) in
  let max_parts := match client_limits with Some l => cl_max_snapshot_parts l | None => 0%N end in
  map_err SnapshotUndeliverable (plan_snapshot_frames snapshot max_frame_size max_parts).

(** ** The export *)

(** The operation [push_model_reset_range] appends. *)
Definition model_reset_range_op (mid start_index : N) (its : list Msg.ModelItem) : Msg.Operation :=
  Msg.mkOperation (Some (Msg.ModelResetRangeOp mid start_index its 0)).

(** The locals of the loop over one cached range. *)
Record Chunking := mkChunking {
  ck_ops : list Msg.Operation;
  ck_start : N;
  ck_items : list Msg.ModelItem;
  ck_bytes : N;
}.

(** [push_model_reset_range(.., std::mem::take(&mut chunk)); chunk_bytes = 0] *)
Definition flush (mid : N) (c : Chunking) : Chunking :=
  mkChunking (ck_ops c ++ [model_reset_range_op mid (ck_start c) (ck_items c)]) (ck_start c) [] 0.

Definition is_empty (c : Chunking) : bool := bool_decide (ck_items c = []).

(** The item at index [idx] joins the chunk. *)
Definition chunk_push `{ItemEncoding} (mid idx : N) (item : Msg.ModelItem) (c : Chunking) : Chunking :=
  let item_bytes := item_encoded_len item in
  let c := if negb (is_empty c) && (SNAPSHOT_MODEL_RANGE_MAX_BYTES <? ck_bytes c + item_bytes)%N
           then flush mid c else c in
  let start := if is_empty c then idx else ck_start c in
  let c := mkChunking (ck_ops c) start (ck_items c ++ [item]) (ck_bytes c + item_bytes) in
  if (len (ck_items c) =? DEFAULT_MAX_ITEMS_PER_MODEL_OPERATION)%N then flush mid c else c.

(** One iteration of the loop over the indices of a cached range. *)
Definition chunk_index `{PropertyIter, ItemEncoding} (m : Model) (c : Chunking) (idx : N) : Chunking :=
  let mid := ModelId_get (model_id m) in
  match get_item_by_index m idx with
  | Some item => chunk_push mid idx (item_to_wire item) c
  | None => if negb (is_empty c) then flush mid c else c
  end.

(** The body of the loop over [model.cached_ranges()]. *)
Definition export_range `{PropertyIter, ItemEncoding} (m : Model) (ops : list Msg.Operation) (range : Range)
    : list Msg.Operation :=
  let stop := add64 (range_start range) (range_length range) in
  let c := foldl (chunk_index m) (mkChunking ops (range_start range) [] 0)
             (seqN (range_start range) (stop - range_start range)) in
  ck_ops (if negb (is_empty c) then flush (ModelId_get (model_id m)) c else c).

(** The body of the loop over the models. *)
Definition export_model `{PropertyIter, ItemEncoding} (ops : list Msg.Operation) (m : Model)
    : list Msg.Operation :=
  let create := Msg.mkOperation (Some
    (Msg.CreateModelOp (ModelId_get (model_id m)) (Some (model_type m)) (item_count m))) in
  foldl (export_range m) (ops ++ [create]) (cached_ranges m).

(** [model_ids.sort_by_key(|id| id.get())] *)
Definition id_le (a b : ModelId) : Prop := (ModelId_get a ≤ ModelId_get b)%N.
#[export] Instance id_le_dec : RelDecision id_le.
Proof. intros a b. unfold id_le. apply _. Defined.
Definition sorted_model_ids (s : SemanticStore) : list ModelId := merge_sort id_le (map_to_list (models s)).*1.

Definition export_models `{PropertyIter, ItemEncoding} (s : SemanticStore) : list Msg.Operation :=
  foldl (λ ops mid, match models s !! mid with Some m => export_model ops m | None => ops end) []
    (sorted_model_ids s).

(** The operation [visit_node] pushes for a node. *)
Definition create_node_op `{PropertyIter} (node : Node) (child_index : N) : Msg.Operation :=
  Msg.mkOperation (Some (Msg.CreateNodeOp (Some
    (Msg.mkNodeRecord (NodeId_get (node_id node)) (Some (node_type node)) (parent_to_wire (parent_id node))
       child_index (map pair_to_wire (iter_properties (properties node))))))).

(** [visit_node] *)
Fixpoint visit_node `{PropertyIter} (fuel : nat) (s : SemanticStore) (ops : list Msg.Operation)
    (index_id : N * NodeId) : result SnapshotError (list Msg.Operation) :=
  match fuel with
  | O => Diverge
  | S fuel =>
      let '(child_index, id) := index_id in
      match nodes s !! id with
      | Some node =>
          try_fold (visit_node fuel s) (ops ++ [create_node_op node (as_u32 child_index)])
            (enumerate (ordered_children node))
      | None => Ok ops
      end
  end.

(** [export_snapshot_transaction] *)
Definition export_snapshot_transaction `{PropertyIter, ItemEncoding} (s : SemanticStore)
    : result SnapshotError Msg.Transaction :=
  let max_operations := max_transaction_operations (limits s) in
  ops ← try_fold (visit_node (S (size (nodes s))) s) (export_models s) (enumerate (roots s));
  err_if (max_operations <? len ops)%N (SnapshotUnrepresentable max_operations (len ops)) ≫= λ _,
  Ok (Msg.mkTransaction 0 (revision s) ops 0).

(** ** The replica

    [TryFrom<srui_protocol::Transaction> for ResyncSnapshot], then
    [SemanticStore::replace_from_snapshot]. *)
Definition snapshot_from_wire (w : Msg.Transaction) : result TxnError ResyncSnapshot :=
  txn ← txn_from_wire w; snapshot_try_from txn.
Definition apply_snapshot `{Registry, PropertyIter} (s : SemanticStore) (w : Msg.Transaction)
    : SemanticStore * result TxnError Revision :=
  match snapshot_from_wire w with
  | Ok snapshot => replace_from_snapshot s snapshot
  | Err e => (s, Err e)
  | Panic => (s, Panic)
  | Diverge => (s, Diverge)
  end.
