(* ===== verification/SnapshotItems.v ===== *)
(** * Snapshot export: the cached items of a model

    The chunks exported for a model hold exactly its cached items, within the
    limit on the items of one operation, and writing them into an empty model
    restores the cache. *)

From S2P Require Import Prelude.
From S2P Require Import Values.
From S2P Require Import Limits.
From S2P Require Import Models.
From S2P Require Import ModelFacts.
From S2P Require Import Store.
From S2P Require Import StoreInv.
From S2P Require Import StoreModels.
From S2P Require Import Transaction.
From S2P Require Import Wire.
From S2P Require Import WireFacts.
From S2P Require Import SnapshotFraming.
From S2P Require Import Snapshot.

(** ** Chunks

    A chunk is a start index and the items cached from there on. *)
Abbreviation Chunk := (N * list ModelItem)%type.

Definition slots (m : Model) (c : Chunk) : Prop :=
  ∀ i it, c.2 !! i = Some it → items m !! (c.1 + N.of_nat i)%N = Some it.

Definition covers (c : Chunk) (k : N) : Prop := (c.1 ≤ k < c.1 + len c.2)%N.
#[export] Instance covers_dec c k : Decision (covers c k).
Proof. unfold covers. apply _. Defined.

Definition covered (cs : list Chunk) (k : N) : Prop := ∃ c, c ∈ cs ∧ covers c k.
#[export] Instance covered_dec cs k : Decision (covered cs k).
Proof.
  destruct (decide (Exists (λ c, covers c k) cs)) as [H|H]; rewrite Exists_exists in H;
    [left|right]; apply H.
Defined.

(** What a [MODEL_RESET_RANGE] of the export carries. *)
Record good_chunk (m : Model) (c : Chunk) : Prop := {
  gc_slots : slots m c;
  gc_some : c.2 ≠ [];
  gc_len : (len c.2 ≤ DEFAULT_MAX_ITEMS_PER_MODEL_OPERATION)%N;
}.

Lemma covered_nil k : ¬ covered [] k.
Proof. by intros (c & Hc%elem_of_nil & _). Qed.

Lemma covered_app cs cs' k : covered (cs ++ cs') k ↔ covered cs k ∨ covered cs' k.
Proof. unfold covered. setoid_rewrite elem_of_app. naive_solver. Qed.

Lemma covered_singleton c k : covered [c] k ↔ covers c k.
Proof. unfold covered. setoid_rewrite list_elem_of_singleton. naive_solver. Qed.

Section chunking.
Context `{PropertyIter, ItemEncoding} (m : Model).
#[local] Abbreviation mid := (ModelId_get (model_id m)).

Definition chunk_op (c : Chunk) : Operation := ModelResetRange (model_id m) c.1 c.2 None.

(** The encoded bytes of items, and the ceiling on them: only an item that is
    larger on its own exceeds it. *)
Definition items_bytes (its : list Msg.ModelItem) : N := sumN (map item_encoded_len its).
Definition light (its : list Msg.ModelItem) : Prop :=
  (items_bytes its ≤ SNAPSHOT_MODEL_RANGE_MAX_BYTES)%N ∨ (len its ≤ 1)%N.
Definition light_chunk (c : Chunk) : Prop := light (map item_to_wire c.2).

Lemma items_bytes_app its its' : items_bytes (its ++ its') = (items_bytes its + items_bytes its')%N.
Proof using Type. unfold items_bytes. induction its as [|x its IH]; cbn in *; [done|]. unfold sumN in *. lia. Qed.

(** The state of the loop over a range: [cs] are the chunks pushed, [its] the
    items of the open chunk, [idx] the next index; cached indices from [lo] on
    are in a chunk. *)
Record chunked (ops : list Msg.Operation) (lo idx : N) (c : Chunking) (cs : list Chunk)
    (its : list ModelItem) : Prop := {
  cd_ops : ck_ops c = ops ++ map (λ c, op_to_wire (chunk_op c)) cs;
  cd_items : ck_items c = map item_to_wire its;
  cd_good : Forall (good_chunk m) cs;
  cd_slots : slots m (ck_start c, its);
  cd_len : (len its < DEFAULT_MAX_ITEMS_PER_MODEL_OPERATION)%N;
  cd_next : its ≠ [] → (ck_start c + len its = idx)%N;
  cd_cover : ∀ k, (lo ≤ k < idx)%N → cached m k → covered cs k ∨ covers (ck_start c, its) k;
  cd_bytes : ck_bytes c = items_bytes (ck_items c);
  cd_light : Forall light_chunk cs ∧ light (ck_items c);
}.

Lemma is_empty_items ops lo idx c cs its : chunked ops lo idx c cs its → is_empty c = bool_decide (its = []).
Proof using Type.
  intros Hc. unfold is_empty. rewrite (cd_items _ _ _ _ _ _ Hc). apply bool_decide_ext. by destruct its.
Qed.

Lemma flush_chunked ops lo idx c cs its : chunked ops lo idx c cs its → its ≠ [] →
  chunked ops lo idx (flush mid c) (cs ++ [(ck_start c, its)]) [].
Proof using Type.
  intros [Hops Hits Hg Hs Hl Hn Hc Hb [Hlt Hlo]] Hne. split; cbn.
  - rewrite Hops, Hits, map_app, <- app_assoc. done.
  - done.
  - apply Forall_app. split; [done|]. constructor; [|constructor]. split; cbn; [done..|]. lia.
  - by intros i it.
  - done.
  - done.
  - intros k Hk Hck. left. rewrite covered_app, covered_singleton. by apply Hc.
  - done.
  - split; [|by right]. apply Forall_app. split; [done|]. constructor; [|constructor].
    unfold light_chunk. cbn. by rewrite <- Hits.
Qed.

(** Adding the item at [idx] to a chunk that ends there. *)
Lemma push_chunked ops lo idx c cs its item :
  chunked ops lo idx c cs its → items m !! idx = Some item → (lo ≤ idx)%N →
  is_empty c = true ∨ (ck_bytes c + item_encoded_len (item_to_wire item) ≤ SNAPSHOT_MODEL_RANGE_MAX_BYTES)%N →
  let start := if is_empty c then idx else ck_start c in
  let c' := mkChunking (ck_ops c) start (ck_items c ++ [item_to_wire item])
              (ck_bytes c + item_encoded_len (item_to_wire item)) in
  let full := (len (ck_items c') =? DEFAULT_MAX_ITEMS_PER_MODEL_OPERATION)%N in
  ∃ cs' its', chunked ops lo (idx + 1) (if full then flush mid c' else c') cs' its'.
Proof using Type.
  intros Hcd Hidx Hlo Hroom start c' full. pose proof (is_empty_items _ _ _ _ _ _ Hcd) as Hemp.
  destruct Hcd as [Hops Hits Hg Hs Hl Hn Hc Hb [Hlt _]].
  assert (ck_bytes c' = items_bytes (ck_items c')) as Hb'.
  { unfold c'. cbn [ck_bytes ck_items]. rewrite Hb, items_bytes_app. f_equal. unfold items_bytes. cbn. lia. }
  assert (light (ck_items c')) as Hlight.
  { destruct Hroom as [Hempty|Hroom]; [right|left; by rewrite <- Hb'].
    unfold is_empty in Hempty. apply bool_decide_eq_true in Hempty. unfold c'. cbn [ck_items].
    by rewrite Hempty. }
  assert (start + len its = idx)%N as Hstart.
  { unfold start. rewrite Hemp. case_bool_decide as He; [rewrite He; unfold len; cbn; lia|by apply Hn]. }
  assert (slots m (start, its ++ [item])) as Hslots.
  { intros i it. cbn. rewrite lookup_app. destruct (its !! i) as [x|] eqn:Hi.
    - intros [= <-]. assert (start = ck_start c) as ->; [|by apply Hs].
      unfold start. rewrite Hemp. case_bool_decide as He; [by rewrite He in Hi|done].
    - intros Hit. apply list_lookup_singleton_Some in Hit as [? <-].
      apply lookup_ge_None in Hi. cbn. replace (start + N.of_nat i)%N with idx; [done|]. unfold len in *. lia. }
  assert (∀ k, (lo ≤ k < idx + 1)%N → cached m k →
    covered cs k ∨ covers (start, its ++ [item]) k) as Hcov.
  { intros k Hk Hck. unfold covers. cbn. rewrite len_app. change (len [item]) with 1%N.
    destruct (decide (k = idx)) as [->|Hne]; [right; lia|].
    destruct (Hc k) as [?|Hcv]; [lia|done|by left|right]. unfold covers in Hcv. cbn in Hcv.
    assert (start = ck_start c) as ->; [|lia].
    unfold start. rewrite Hemp. case_bool_decide as He; [|done]. rewrite He in Hcv. unfold len in Hcv. cbn in Hcv. lia. }
  assert (ck_items c' = map item_to_wire (its ++ [item])) as Hits' by (cbn; by rewrite Hits, map_app).
  assert (len (ck_items c') = len its + 1)%N as Hlen.
  { rewrite Hits'. unfold len. rewrite length_map, length_app. cbn. lia. }
  destruct full eqn:Hfull; unfold full in Hfull; rewrite Hlen in Hfull.
  - apply N.eqb_eq in Hfull. exists (cs ++ [(start, its ++ [item])]), []. split; cbn [flush ck_ops ck_items ck_start].
    + change (ck_ops c') with (ck_ops c). rewrite Hops, map_app, Hits', <- app_assoc. done.
    + done.
    + apply Forall_app. split; [done|]. constructor; [|constructor]. split; cbn; [exact Hslots|by intros [_ ?]%app_eq_nil|].
      rewrite len_app. change (len [item]) with 1%N. lia.
    + by intros i it.
    + done.
    + done.
    + intros k Hk Hck. left. rewrite covered_app, covered_singleton. by apply Hcov.
    + done.
    + split; [|by right]. apply Forall_app. split; [done|]. constructor; [|constructor].
      unfold light_chunk. cbn [snd]. by rewrite <- Hits'.
  - apply N.eqb_neq in Hfull. exists cs, (its ++ [item]). split; cbn [ck_ops ck_items ck_start]; try done.
    + rewrite len_app. change (len [item]) with 1%N. lia.
    + intros _. rewrite len_app. change (len [item]) with 1%N. change (ck_start c') with start. lia.
Qed.

Lemma chunk_index_chunked ops lo idx c cs its : chunked ops lo idx c cs its → (lo ≤ idx)%N →
  ∃ cs' its', chunked ops lo (idx + 1) (chunk_index m c idx) cs' its'.
Proof using Type.
  intros Hc Hlo. unfold chunk_index, get_item_by_index.
  destruct (items m !! idx) as [item|] eqn:Hidx.
  - unfold chunk_push. set (c1 := if negb (is_empty c) && _ then flush mid c else c).
    assert ((∃ cs1 its1, chunked ops lo idx c1 cs1 its1) ∧
      (is_empty c1 = true ∨
       (ck_bytes c1 + item_encoded_len (item_to_wire item) ≤ SNAPSHOT_MODEL_RANGE_MAX_BYTES)%N))
      as [(cs1 & its1 & Hc1) Hroom].
    { unfold c1. destruct (is_empty c) eqn:He; cbn [negb andb].
      { split; [by exists cs, its|by left]. }
      destruct (_ <? _)%N eqn:Hbig; cbn [andb].
      - split; [|by left]. eexists _, _. apply flush_chunked; [done|].
        rewrite (is_empty_items _ _ _ _ _ _ Hc) in He. by apply bool_decide_eq_false in He.
      - split; [by exists cs, its|right]. by apply N.ltb_ge. }
    by eapply push_chunked in Hc1.
  - assert (∃ cs1, chunked ops lo idx (if negb (is_empty c) then flush mid c else c) cs1 []) as [cs1 Hc1].
    { rewrite (is_empty_items _ _ _ _ _ _ Hc). case_bool_decide; [subst; by exists cs|].
      eexists. by apply flush_chunked. }
    exists cs1, []. destruct Hc1 as [? ? ? ? ? ? Hcov ? ?]. split; try done.
    intros k Hk [it Hck]. apply Hcov; [|by exists it]. assert (k ≠ idx) by congruence. lia.
Qed.

Lemma seqN_snoc start n : seqN start (n + 1) = seqN start n ++ [(start + n)%N].
Proof using Type.
  unfold seqN. replace (N.to_nat (n + 1)) with (S (N.to_nat n)) by lia.
  rewrite seq_S, fmap_app. cbn. by rewrite N2Nat.id.
Qed.

Lemma chunk_loop ops start n :
  ∃ cs its, chunked ops start (start + n)
    (foldl (chunk_index m) (mkChunking ops start [] 0) (seqN start n)) cs its.
Proof using Type.
  induction n as [|n (cs & its & IH)] using N.peano_ind.
  - exists [], []. split; cbn; try done; [by rewrite app_nil_r|intros k; lia|].
    split; [constructor|by right].
  - rewrite <- N.add_1_r, seqN_snoc, foldl_app, N.add_assoc. cbn. by eapply chunk_index_chunked; [|lia].
Qed.

(** A whole range is exported in good chunks that cover what is cached there. *)
Lemma export_range_chunks ops range : (range_start range + range_length range ≤ u64_max)%N →
  ∃ cs, export_range m ops range = ops ++ map (λ c, op_to_wire (chunk_op c)) cs ∧
    Forall (good_chunk m) cs ∧ Forall light_chunk cs ∧
    ∀ k, (range_start range ≤ k < range_start range + range_length range)%N → cached m k → covered cs k.
Proof using Type.
  intros Hfit. unfold export_range. rewrite add64_small by done.
  replace (range_start range + range_length range - range_start range)%N with (range_length range) by lia.
  destruct (chunk_loop ops (range_start range) (range_length range)) as (cs & its & Hc).
  revert Hc. set (c := foldl _ _ _). intros Hc. rewrite (is_empty_items _ _ _ _ _ _ Hc).
  assert (∃ cs', chunked ops (range_start range) (range_start range + range_length range)
    (if negb (bool_decide (its = [])) then flush mid c else c) cs' []) as [cs' Hc'].
  { case_bool_decide; [subst; by exists cs|]. eexists. by apply flush_chunked. }
  exists cs'. destruct Hc' as [Hops _ Hg _ _ _ Hcov _ [Hlt _]]. split_and!; [done..|].
  intros k Hk Hck. destruct (Hcov k Hk Hck) as [?|Hcv]; [done|]. unfold covers in Hcv. cbn in Hcv.
  unfold len in Hcv. cbn in Hcv. lia.
Qed.

(** *** Ranges cover the cache *)

Definition in_range (r : Range) (k : N) : Prop := (range_start r ≤ k < range_start r + range_length r)%N.

Lemma cached_ranges_spec : (∀ k, cached m k → (k < u64_max)%N) →
  Forall (λ r, range_start r + range_length r ≤ u64_max)%N (cached_ranges m) ∧
  ∀ k, cached m k → ∃ r, r ∈ cached_ranges m ∧ in_range r k.
Proof using Type.
  intros Hmax. unfold cached_ranges.
  assert (∀ k, k ∈ (btree_entries (items m)).*1 ↔ cached m k) as Hkeys.
  { intros k. split.
    - intros (it & Hk%elem_of_btree_entries)%elem_of_fst_inv. by exists it.
    - intros [it Hk]. eapply elem_of_fst. by apply elem_of_btree_entries. }
  setoid_rewrite <- Hkeys. revert Hkeys.
  generalize ((btree_entries (items m)).*1). intros keys Hkeys.
  assert (∀ k, k ∈ keys → (k < u64_max)%N) as Hk by (intros k ?; by apply Hmax, Hkeys). clear Hkeys Hmax.
  set (all := λ st : list Range * option Range, st.1 ++ option_list st.2).
  assert (∀ st, match st with (ranges, Some r) => ranges ++ [r] | (ranges, None) => ranges end = all st) as Hall.
  { intros [rs [r|]]; unfold all; cbn; [done|by rewrite app_nil_r]. }
  rewrite Hall. induction keys as [|k keys IH] using rev_ind.
  { cbn. split; [constructor|]. by intros k ?%elem_of_nil. }
  rewrite foldl_app. cbn. destruct IH as [Hfit Hcov]; [intros j Hj; apply Hk, elem_of_app; by left|].
  assert (k < u64_max)%N as Hkm by (apply Hk, elem_of_app; right; by left).
  revert Hfit Hcov. generalize (foldl cached_ranges_step ([], None) keys). intros [rs cur] Hfit Hcov.
  assert (∀ st', (∀ r, r ∈ all (rs, cur) → ∃ r', r' ∈ all st' ∧ ∀ j, in_range r j → in_range r' j) →
    (∃ r', r' ∈ all st' ∧ in_range r' k) →
    ∀ j, j ∈ keys ++ [k] → ∃ r, r ∈ all st' ∧ in_range r j) as Hext.
  { intros st' Hold Hnew j [Hj| ->%list_elem_of_singleton]%elem_of_app; [|done].
    destruct (Hcov j Hj) as (r & Hr & Hin). destruct (Hold r Hr) as (r' & ? & ?). eauto. }
  assert (∀ rs', all (rs', Some (mkRange k 1)) = rs' ++ [mkRange k 1]) as Hfresh by done.
  assert (in_range (mkRange k 1) k) as Hk1 by (unfold in_range; cbn; lia).
  destruct cur as [r|]; cbn [cached_ranges_step].
  - unfold all in Hfit, Hext. cbn in Hfit, Hext. apply Forall_app in Hfit as [Hrs Hr].
    rewrite Forall_singleton in Hr. rewrite add64_small by done.
    destruct (N.eqb_spec (range_start r + range_length r) k) as [Hrk|_].
    + rewrite add64_small by lia. unfold all. cbn. split.
      { apply Forall_app. split; [done|]. constructor; [cbn; lia|constructor]. }
      apply (Hext (rs, Some (mkRange (range_start r) (range_length r + 1)%N))); cbn;
        [|eexists; split; [apply elem_of_app; right; by left|unfold in_range; cbn; lia]].
      intros q [Hq| ->%list_elem_of_singleton]%elem_of_app.
      * exists q. split; [apply elem_of_app; by left|done].
      * eexists. split; [apply elem_of_app; right; by left|]. unfold in_range. cbn. intros j. lia.
    + rewrite Hfresh. split.
      { apply Forall_app. split; [apply Forall_app; by split; [|constructor]|]. constructor; [cbn; lia|constructor]. }
      apply (Hext (rs ++ [r], Some (mkRange k 1)));
        [|eexists; split; [apply elem_of_app; right; by left|done]].
      intros q Hq. exists q. split; [apply elem_of_app; by left|done].
  - unfold all in Hfit, Hext. cbn in Hfit, Hext. rewrite app_nil_r in *. rewrite Hfresh. split.
    { apply Forall_app. split; [done|]. constructor; [cbn; lia|constructor]. }
    apply (Hext (rs, Some (mkRange k 1))); [|eexists; split; [apply elem_of_app; right; by left|done]].
    intros q Hq. exists q. split; [apply elem_of_app; by left|done].
Qed.

(** The export of a model: its creation, then good chunks that cover its cache. *)
Lemma export_model_ops ops : (∀ k, cached m k → (k < u64_max)%N) →
  ∃ cs, export_model ops m =
    ops ++ map op_to_wire (CreateModel (model_id m) (model_type m) (item_count m) :: map chunk_op cs) ∧
    Forall (good_chunk m) cs ∧ Forall light_chunk cs ∧ ∀ k, cached m k → covered cs k.
Proof using Type.
  intros Hmax. destruct (cached_ranges_spec Hmax) as [Hfit Hcov]. unfold export_model.
  set (create := Msg.mkOperation _).
  enough (∃ cs, foldl (export_range m) (ops ++ [create]) (cached_ranges m) =
      (ops ++ [create]) ++ map (λ c, op_to_wire (chunk_op c)) cs ∧ Forall (good_chunk m) cs ∧
      Forall light_chunk cs ∧
      ∀ r k, r ∈ cached_ranges m → in_range r k → cached m k → covered cs k) as (cs & Heq & Hg & Hlt & Hc).
  { exists cs. rewrite Heq, <- app_assoc. cbn. rewrite map_map. split_and!; [done..|].
    intros k Hk. destruct (Hcov k Hk) as (r & ? & ?). eauto. }
  clear Hcov. revert Hfit. generalize (ops ++ [create]). generalize (cached_ranges m).
  intros rs. induction rs as [|r rs IH]; intros os Hfit.
  { exists []. cbn. rewrite app_nil_r. split_and!; [done|constructor|constructor|]. by intros r k ?%elem_of_nil. }
  apply Forall_cons in Hfit as [Hr Hfit]. cbn.
  destruct (export_range_chunks os r Hr) as (cs & -> & Hg & Hlt & Hc).
  destruct (IH (os ++ map (λ c, op_to_wire (chunk_op c)) cs) Hfit) as (cs' & -> & Hg' & Hlt' & Hc').
  exists (cs ++ cs'). rewrite map_app, <- app_assoc. split_and!; [done|by apply Forall_app|by apply Forall_app|].
  intros q k Hq Hin Hk. apply covered_app. apply elem_of_cons in Hq as [->|Hq]; [left; by apply Hc|right; eauto].
Qed.
End chunking.

(** ** Restoring *)

(** What the export relies on for a model: a consistent cache within the limits,
    inside the collection, of values a store of these limits accepts. *)
Record model_exportable (l : StoreLimits) (m : Model) : Prop := {
  me_cache : cache_wf m;
  me_inside : ∀ k, cached m k → (k < item_count m)%N;
  me_count : (item_count m ≤ u64_max)%N;
  me_bound : (cached_item_count m ≤ max_cached_items_per_model l)%N;
  me_valid : ∀ k it, items m !! k = Some it →
    within_limits l 1 (item_value it) ∧ ∀ p v, item_properties it !! p = Some v → within_limits l 1 v;
  me_sized : ∀ k it, items m !! k = Some it → sized_item it;
}.

(** [m1] holds the items of [m] at the indices in [P]. *)
Record restoring (m m1 : Model) (P : N → Prop) : Prop := {
  rs_id : model_id m1 = model_id m;
  rs_type : model_type m1 = model_type m;
  rs_count : item_count m1 = item_count m;
  rs_cache : cache_wf m1;
  rs_slots : ∀ k it, items m1 !! k = Some it ↔ P k ∧ items m !! k = Some it;
}.

Lemma restoring_all m m1 P : cache_wf m → restoring m m1 P → (∀ k, cached m k → P k) → m1 = m.
Proof.
  intros Hm [Hid Ht Hc Hwf Hs] HP. assert (items m1 = items m) as Hits.
  { apply map_eq. intros k. apply option_eq. intros it. rewrite Hs. split; [by intros [_ ?]|].
    intros Hk. split; [|done]. apply HP. by exists it. }
  assert (id_to_index m1 = id_to_index m) as Hidx.
  { apply map_eq. intros x. apply option_eq. intros i. by rewrite (Hwf x i), (Hm x i), Hits. }
  destruct m, m1; cbn in *. congruence.
Qed.

Section restore.
Context (l : StoreLimits) (m : Model) (Hm : model_exportable l m).

Lemma chunk_inside c : good_chunk m c → (c.1 + len c.2 ≤ item_count m)%N.
Proof using Hm.
  intros [Hs Hne _]. destruct c as [start its]. cbn in *.
  destruct (lookup_lt_is_Some_2 its (pred (length its))) as [it Hit].
  { destruct its; [done|cbn; lia]. }
  assert (cached m (start + N.of_nat (pred (length its)))) as Hc by (eexists; by apply Hs).
  apply (me_inside _ _ Hm) in Hc. unfold len. destruct its; [done|]. cbn in *. lia.
Qed.

Lemma chunk_slot c it : slots m c → it ∈ c.2 → ∃ i, items m !! (c.1 + i)%N = Some it ∧ (i < len c.2)%N.
Proof using Type.
  intros Hs [i Hi]%list_elem_of_lookup. exists (N.of_nat i). split; [by apply Hs|].
  apply lookup_lt_Some in Hi. unfold len. lia.
Qed.

Lemma chunk_ids c : slots m c → NoDup (item_id <$> c.2).
Proof using Hm.
  intros Hs. apply NoDup_alt. intros i j x. rewrite !list_lookup_fmap.
  intros (a & Ha & ->)%fmap_Some_1 (b & Hb & Hab)%fmap_Some_1.
  apply Hs in Ha, Hb. pose proof (cache_wf_inj _ _ _ _ _ (me_cache _ _ Hm) Ha Hb Hab). lia.
Qed.

(** The window of a chunk and the items outside it fit the limit together. *)
Lemma chunk_projected m1 P c : restoring m m1 P → slots m c →
  (projected_cached m1 c.1 (c.1 + len c.2) (len c.2) ≤ cached_item_count m)%N.
Proof using Type.
  intros Hr Hs. rewrite projected_cleared. unfold cached_item_count, map_len, len.
  set (rest := items (foldl remove_slot m1 (seqN c.1 (N.of_nat (length c.2))))).
  assert (∀ k, k ∈ dom rest → is_Some (items m !! k) ∧ ¬ (c.1 ≤ k < c.1 + len c.2)%N) as Hrest.
  { intros k [it Hk]%elem_of_dom. unfold rest in Hk. rewrite cleared_window_lookup in Hk.
    case_decide; [done|]. apply (rs_slots _ _ _ Hr) in Hk as [_ Hk]. split; [by exists it|done]. }
  set (window := list_to_set (seqN c.1 (len c.2)) : gset N).
  assert (size window = length c.2) as Hw.
  { unfold window, seqN. rewrite size_list_to_set.
    - rewrite length_fmap, length_seq. unfold len. lia.
    - apply NoDup_fmap_2; [intros i j ?; lia|apply NoDup_seq]. }
  assert (dom rest ## window) as Hdisj.
  { intros k Hk Hwk. apply Hrest in Hk as [_ Hk]. apply elem_of_list_to_set, elem_of_seqN in Hwk. lia. }
  assert (dom rest ∪ window ⊆ dom (items m)) as Hsub.
  { intros k [Hk|Hk]%elem_of_union; apply elem_of_dom; [by apply Hrest|].
    apply elem_of_list_to_set, elem_of_seqN in Hk.
    destruct (lookup_lt_is_Some_2 c.2 (N.to_nat (k - c.1))) as [it Hit]; [unfold len in Hk; lia|].
    exists it. replace k with (c.1 + N.of_nat (N.to_nat (k - c.1)))%N by lia. by apply Hs. }
  apply subseteq_size in Hsub. rewrite size_union, Hw, !size_dom in Hsub by done. lia.
Qed.

Lemma restore_chunk m1 P c : restoring m m1 P → good_chunk m c →
  ∃ m2, reset_with_eviction l m1 c.1 c.2 None = (m2, Ok tt) ∧ restoring m m2 (λ k, P k ∨ covers c k).
Proof using Hm.
  intros Hr Hg. pose proof (chunk_inside _ Hg) as Hin. pose proof (me_count _ _ Hm) as Hu.
  destruct Hg as [Hs Hne _]. unfold reset_with_eviction.
  unfold saturating_add64. rewrite N.min_l by lia.
  pose proof (chunk_projected _ _ _ Hr Hs) as Hp. pose proof (me_bound _ _ Hm) as Hb.
  assert ((max_cached_items_per_model l <? projected_cached m1 c.1 (c.1 + len c.2) (len c.2))%N = false)
    as Hfit by (apply N.ltb_ge; lia).
  rewrite !Hfit. destruct (reset_range m1 c.1 c.2 None) as [m2 r] eqn:Heq. exists m2.
  assert (r = Ok tt) as ->.
  { revert Heq. unfold reset_range, reset_window. cbn [settle_count].
    rewrite (rs_count _ _ _ Hr), add64_small by lia.
    rewrite (proj2 (err_if_Ok _ _ tt)) by (apply N.ltb_ge; lia). cbn [mbind result_bind].
    rewrite (proj2 (err_if_Ok _ _ tt)) by (apply N.ltb_ge; lia). cbn [mbind result_bind].
    rewrite (proj2 (reset_ids_ok_Ok _ _ _ _ _ tt)); [by intros [= _ <-]|].
    split; [by apply chunk_ids|]. intros it Hit. split; [apply not_elem_of_empty|].
    intros i Hi. apply (rs_cache _ _ _ Hr) in Hi as (it' & Hi & Hid).
    apply (rs_slots _ _ _ Hr) in Hi as [_ Hi]. destruct (chunk_slot _ _ Hs Hit) as (j & Hj & Hjl).
    rewrite (cache_wf_inj _ _ _ _ _ (me_cache _ _ Hm) Hi Hj Hid). lia. }
  split; [done|].
  pose proof (reset_range_ident m1 c.1 c.2 None) as Hident. rewrite Heq in Hident. destruct Hident as [Hid Ht].
  apply reset_range_effect in Heq as (_ & _ & Hwf & Hc & Hslots); [|apply Hr|lia].
  destruct Hr as [Hid1 Ht1 Hc1 _ Hs1]. split; cbn in *; [congruence..|done|].
  intros k it. rewrite Hslots, Hs1. fold (covers c k). split.
  - intros [Hw|[Hnot [HP Hk]]]; [|by split; [left|]].
    split; [right; by eapply window_of_lt|]. destruct Hw as [? Hw].
    apply Hs in Hw. by replace (c.1 + N.of_nat (N.to_nat (k - c.1)))%N with k in Hw by lia.
  - intros [HP Hk]. destruct (decide (covers c k)) as [Hcov|Hcov]; [left|right; naive_solver].
    destruct (lookup_lt_is_Some_2 c.2 (N.to_nat (k - c.1))) as [it' Hit].
    { destruct Hcov. unfold len in *. lia. }
    pose proof (Hs _ _ Hit) as Hk'. replace (c.1 + N.of_nat (N.to_nat (k - c.1)))%N with k in Hk'.
    + split; [apply Hcov|]. rewrite Hit. congruence.
    + destruct Hcov. lia.
Qed.

Lemma chunk_items_valid c it : slots m c → it ∈ c.2 → ∃ k, items m !! k = Some it.
Proof using Type. intros Hs (i & Hi & _)%(chunk_slot _ _ Hs). eauto. Qed.

Lemma validate_chunk `{PropertyIter} c : good_chunk m c → validate_items l c.2 = Ok tt.
Proof using Hm.
  intros [Hs _ _]. unfold validate_items. apply for_each_Ok, Forall_forall. intros it Hit.
  destruct (chunk_items_valid _ _ Hs Hit) as [k Hk]. destruct (me_valid _ _ Hm _ _ Hk) as [Hv Hp].
  apply bind_unit_Ok. split; [by apply validate_value_Ok|]. apply for_each_Ok, Forall_forall.
  intros v ([p v'] & -> & Hv')%list_elem_of_fmap. apply validate_value_Ok. cbn.
  rewrite iter_properties_perm in Hv'. by apply (Hp p), elem_of_map_to_list.
Qed.
End restore.

(** ** Replaying the operations *)

Section replay.
Context `{Registry, PropertyIter}.

Lemma replay_chunk (st : SemanticStore) m m1 P c :
  model_exportable (limits st) m →
  (DEFAULT_MAX_ITEMS_PER_MODEL_OPERATION ≤ max_items_per_model_operation (limits st))%N →
  models st !! model_id m = Some m1 → restoring m m1 P → good_chunk m c →
  ∃ m2, apply st (chunk_op m c) = (with_models st (<[model_id m := m2]> (models st)), Ok tt) ∧
    restoring m m2 (λ k, P k ∨ covers c k).
Proof.
  intros Hm Hlim Hst Hr Hg. destruct (restore_chunk _ _ Hm _ _ _ Hr Hg) as (m2 & Heq & Hr2).
  exists m2. split; [|done]. unfold chunk_op, apply, model_reset_range.
  unfold validate_model_items_batch. pose proof (gc_len _ _ Hg).
  rewrite (proj2 (err_if_Ok _ _ tt)) by (apply N.ltb_ge; lia). cbn [mbind result_bind].
  rewrite (validate_chunk _ _ Hm _ Hg). cbn [mbind result_bind]. rewrite Hst. cbn [ok_or].
  unfold on_model. by rewrite Heq.
Qed.

Lemma replay_chunks m cs : ∀ st m1 P idx,
  model_exportable (limits st) m →
  (DEFAULT_MAX_ITEMS_PER_MODEL_OPERATION ≤ max_items_per_model_operation (limits st))%N →
  models st !! model_id m = Some m1 → restoring m m1 P → Forall (good_chunk m) cs →
  ∃ m2, apply_ops idx st (map (chunk_op m) cs) = Ok (with_models st (<[model_id m := m2]> (models st))) ∧
    restoring m m2 (λ k, P k ∨ covered cs k).
Proof.
  induction cs as [|c cs IH]; intros st m1 P idx Hm Hlim Hst Hr Hgood.
  - exists m1. cbn. split; [rewrite insert_id by done; by destruct st|].
    destruct Hr as [? ? ? ? Hs]. split; [done..|]. intros k it. rewrite Hs.
    pose proof (covered_nil k). naive_solver.
  - apply Forall_cons in Hgood as [Hg Hgood].
    destruct (replay_chunk _ _ _ _ _ Hm Hlim Hst Hr Hg) as (m2 & Ha & Hr2). cbn [map apply_ops].
    rewrite Ha. set (st2 := with_models _ _).
    destruct (IH st2 m2 (λ k, P k ∨ covers c k) (idx + 1)%N) as (m3 & Hops & Hr3); [done|done| |done|done|].
    { apply lookup_insert_eq. }
    exists m3. rewrite Hops. unfold st2. cbn. rewrite insert_insert_eq. split; [done|].
    destruct Hr3 as [? ? ? ? Hs]. split; [done..|]. intros k it. rewrite Hs.
    change (c :: cs) with ([c] ++ cs). rewrite covered_app, covered_singleton. naive_solver.
Qed.

Lemma restoring_new m : restoring m (Model_new (model_id m) (model_type m) (item_count m)) (λ _, False).
Proof. split; try done; [apply cache_wf_new|]. intros k it. cbn. rewrite lookup_empty. naive_solver. Qed.

(** The store with [m] added. *)
Definition with_model (st : SemanticStore) (m : Model) : SemanticStore :=
  mkStore (nodes st) (roots st) (used_ids st) (<[model_id m := m]> (models st))
    ({[model_id m]} ∪ used_model_ids st) (limits st) (revision st).

Lemma replay_model (st : SemanticStore) m cs idx :
  model_exportable (limits st) m →
  (DEFAULT_MAX_ITEMS_PER_MODEL_OPERATION ≤ max_items_per_model_operation (limits st))%N →
  model_id m ∉ used_model_ids st → (map_len (models st) < max_model_count (limits st))%N →
  Forall (good_chunk m) cs → (∀ k, cached m k → covered cs k) →
  apply_ops idx st (CreateModel (model_id m) (model_type m) (item_count m) :: map (chunk_op m) cs) =
  Ok (with_model st m).
Proof.
  intros Hm Hlim Hfresh Hcount Hgood Hcov. cbn [apply_ops]. unfold apply, create_model.
  rewrite (proj2 (err_if_Ok (bool_decide _) _ tt)) by by apply bool_decide_eq_false. cbn [mbind result_bind].
  rewrite (proj2 (err_if_Ok (_ <=? _)%N _ tt)) by (apply N.leb_gt; lia). cbn [mbind result_bind all_or_nothing].
  set (st1 := mkStore _ _ _ _ _ _ _).
  destruct (replay_chunks m cs st1 (Model_new (model_id m) (model_type m) (item_count m)) (λ _, False)
    (idx + 1)%N) as (m2 & -> & Hr); [done|done|apply lookup_insert_eq|apply restoring_new|done|].
  rewrite (restoring_all _ _ _ (me_cache _ _ Hm) Hr) by (intros k Hk; right; by apply Hcov).
  unfold st1, with_models, with_model. cbn. by rewrite insert_insert_eq.
Qed.
End replay.
