(* ===== verification/SnapshotNodes.v ===== *)
(** * Snapshot export: the tree

    The nodes are exported in an order in which every node comes after its
    parent and its earlier siblings, and creating them in such an order, each at
    the index of the export, copies the tree. *)

From S2P Require Import Prelude.
From S2P Require Import Values.
From S2P Require Import Limits.
From S2P Require Import Models.
From S2P Require Import Store.
From S2P Require Import StoreFacts.
From S2P Require Import StoreInv.
From S2P Require Import Transaction.
From S2P Require Import TransactionFacts.
From S2P Require Import Wire.
From S2P Require Import WireFacts.
From S2P Require Import Snapshot.

(** ** Creation orders *)

(** The list a child of [par] stands in. *)
Definition siblings (s : SemanticStore) (par : option NodeId) : list NodeId :=
  match par with
  | Some p => default [] (ordered_children <$> nodes s !! p)
  | None => roots s
  end.

Definition parent_in (par : option NodeId) (D : list NodeId) : Prop := ∀ p, par = Some p → p ∈ D.

(** [builds s D L]: with the nodes of [D] in place, the nodes of [L] can be
    created one after the other, each at the index paired with it. *)
Inductive builds (s : SemanticStore) : list NodeId → list (N * NodeId) → Prop :=
| builds_nil D : builds s D []
| builds_cons D id n l1 l2 L :
    nodes s !! id = Some n → siblings s (parent_id n) = l1 ++ id :: l2 → id ∉ D →
    parent_in (parent_id n) D → (∀ c, c ∈ l1 → c ∈ D) → (∀ c, c ∈ l2 → c ∉ D) →
    builds s (D ++ [id]) L → builds s D ((len l1, id) :: L).

Lemma builds_app s D L1 L2 : builds s D L1 → builds s (D ++ L1.*2) L2 → builds s D (L1 ++ L2).
Proof.
  induction 1 as [D|D id n l1 l2 L1 Hn Hs Hid Hp H1 H2 _ IH]; cbn; [by rewrite app_nil_r|].
  intros HL2. econstructor; [done..|]. apply IH. by rewrite <- app_assoc.
Qed.

(** ** The preorder *)

Section visit.
Context `{PropertyIter} (s : SemanticStore) (Hf : forest (nodes s) (roots s)).
#[local] Abbreviation pm := (parents (nodes s)).

(** The operation exported for an entry of a creation order. *)
Definition create_op (e : N * NodeId) : option Operation :=
  (λ n, CreateNode (node_id n) (node_type n) (parent_id n) (Some e.1) (iter_properties (properties n)))
    <$> nodes s !! e.2.

Definition exported (L : list (N * NodeId)) : list Operation := omap create_op L.

Lemma exported_app L1 L2 : exported (L1 ++ L2) = exported L1 ++ exported L2.
Proof using Type. apply omap_app. Qed.

Lemma exported_cons e n L : nodes s !! e.2 = Some n →
  exported (e :: L) =
  CreateNode (node_id n) (node_type n) (parent_id n) (Some e.1) (iter_properties (properties n)) :: exported L.
Proof using Type.
  intros Hn. assert (create_op e = Some (CreateNode (node_id n) (node_type n) (parent_id n) (Some e.1)
    (iter_properties (properties n)))) as He by (unfold create_op; by rewrite Hn).
  unfold exported. simpl. by rewrite He.
Qed.

Lemma elem_of_siblings par c : (∀ p, par = Some p → is_Some (nodes s !! p)) →
  c ∈ siblings s par ↔ pm !! c = Some par.
Proof using Hf.
  intros Hp. destruct par as [p|]; cbn; [|apply Hf]. destruct (Hp p) as [n Hn]; [done|]. rewrite Hn. cbn.
  by apply (forest_kids _ _ Hf p n Hn).
Qed.

Lemma siblings_nodup par : NoDup (siblings s par).
Proof using Hf.
  destruct par as [p|]; cbn; [|apply Hf]. destruct (nodes s !! p) as [n|] eqn:Hn; cbn; [|constructor].
  by apply (forest_kids _ _ Hf p n Hn).
Qed.

(** Subtrees of different siblings are disjoint. *)
Lemma under_sibling par a b i : pm !! a = Some par → pm !! b = Some par →
  under pm a i → under pm b i → a = b.
Proof using Hf.
  intros Ha Hb Hai Hbi. destruct par as [p|].
  - destruct (forest_rooted _ _ Hf a) as [d Hd]; [eauto|].
    apply (depth_parent _ _ _ _ Ha) in Hd as (d' & _ & Hp). by eapply under_siblings.
  - destruct (under_linear _ _ _ _ Hai Hbi) as [Hu|Hu]; inversion Hu; congruence.
Qed.

Definition visits (fuel : nat) (e : N * NodeId) (L : list (N * NodeId)) : Prop :=
  ∀ ops, visit_node fuel s ops e = Ok (ops ++ map op_to_wire (exported L)).

(** A list of siblings, visited in order. *)
Lemma visit_siblings fuel par cs : ∀ pre,
  siblings s par = pre ++ cs → (∀ p, par = Some p → is_Some (nodes s !! p)) →
  (∀ pre c post, siblings s par = pre ++ c :: post → ∃ L, visits fuel (len pre, c) L ∧
    (∀ j, j ∈ L.*2 ↔ under pm c j) ∧
    ∀ D, parent_in par D → (∀ c, c ∈ pre → c ∈ D) →
      (∀ c' j, c' ∈ c :: post → under pm c' j → j ∉ D) → builds s D L) →
  ∃ L, (∀ ops, try_fold (visit_node fuel s) ops (enumerate_from (len pre) cs) =
      Ok (ops ++ map op_to_wire (exported L))) ∧
    (∀ j, j ∈ L.*2 ↔ ∃ c, c ∈ cs ∧ under pm c j) ∧
    ∀ D, parent_in par D → (∀ c, c ∈ pre → c ∈ D) →
      (∀ c j, c ∈ cs → under pm c j → j ∉ D) → builds s D L.
Proof using Hf.
  induction cs as [|c cs IH]; intros pre Hsib Hpar Hvisit.
  - exists []. split_and!; [intros ops; cbn; by rewrite app_nil_r| |intros; constructor].
    intros j. split; [by intros ?%elem_of_nil|]. by intros (c & ?%elem_of_nil & _).
  - destruct (Hvisit pre c cs Hsib) as (L1 & Hv1 & Hu1 & Hb1).
    destruct (IH (pre ++ [c])) as (L2 & Hv2 & Hu2 & Hb2); [by rewrite <- app_assoc|done..|].
    rewrite len_app in Hv2. change (len [c]) with 1%N in Hv2.
    exists (L1 ++ L2). rewrite fmap_app. split_and!.
    + intros ops. cbn. rewrite Hv1. cbn. rewrite Hv2, exported_app, map_app, app_assoc. done.
    + intros j. rewrite elem_of_app, Hu1, Hu2. setoid_rewrite elem_of_cons. naive_solver.
    + intros D Hp Hpre Hfresh. apply builds_app; [by apply Hb1|]. apply Hb2.
      * intros p Hpp. apply elem_of_app. left. by apply Hp.
      * intros x [Hx| ->%list_elem_of_singleton]%elem_of_app; apply elem_of_app; [left; by apply Hpre|].
        right. apply Hu1. constructor.
      * intros c' j Hc' Hj [Hd|Hd]%elem_of_app; [by eapply Hfresh; [right|..]|].
        apply Hu1 in Hd. pose proof (siblings_nodup par) as Hnd. rewrite Hsib in Hnd.
        apply NoDup_app in Hnd as (_ & _ & Hnd). apply NoDup_cons in Hnd as [Hc _]. apply Hc.
        replace c with c'; [done|]. apply (under_sibling par c' c j); [..|done|done];
          apply elem_of_siblings; try done; rewrite Hsib; apply elem_of_app; right; [by right|by left].
Qed.

(** One node with its subtree. *)
Lemma visit_spec fuel : ∀ id d n pre post,
  depth pm id d → size (nodes s) < fuel + d → nodes s !! id = Some n →
  siblings s (parent_id n) = pre ++ id :: post →
  ∃ L, visits fuel (len pre, id) L ∧ (∀ j, j ∈ L.*2 ↔ under pm id j) ∧
    ∀ D, parent_in (parent_id n) D → (∀ c, c ∈ pre → c ∈ D) →
      (∀ c' j, c' ∈ id :: post → under pm c' j → j ∉ D) → builds s D L.
Proof using Hf.
  induction fuel as [|fuel IH]; intros id d n pre post Hd Hfuel Hn Hsib.
  { apply depth_size in Hd. rewrite parents_size in Hd. lia. }
  assert (∀ c, c ∈ ordered_children n ↔ pm !! c = Some (Some id)) as Hkids
    by apply (forest_kids _ _ Hf id n Hn).
  destruct (visit_siblings fuel (Some id) (ordered_children n) []) as (L & Hv & Hu & Hb).
  { cbn. by rewrite Hn. }
  { intros p [= <-]. eauto. }
  { intros pre' c post' Hsib'. cbn in Hsib'. rewrite Hn in Hsib'. cbn in Hsib'.
    assert (pm !! c = Some (Some id)) as Hc.
    { apply Hkids. rewrite Hsib'. apply elem_of_app. right. by left. }
    pose proof Hc as (nc & Hnc & Hpc)%parents_Some. rewrite <- Hpc.
    apply (IH c (S d) nc); [eauto with forest|lia|done|]. rewrite Hpc. cbn. by rewrite Hn. }
  exists ((len pre, id) :: L). split_and!.
  - intros ops. cbn [visit_node]. rewrite Hn. unfold enumerate. change 0%N with (len (@nil NodeId)).
    rewrite Hv, <- app_assoc. by rewrite (exported_cons (len pre, id) n).
  - intros j. cbn. rewrite elem_of_cons, Hu, under_child. setoid_rewrite Hkids. done.
  - intros D Hp Hpre Hfresh. assert (id ∉ D) as HidD by (eapply Hfresh; [by left|constructor]).
    apply builds_cons with n post; try done.
    + intros c Hc. eapply Hfresh; [by right|constructor].
    + apply Hb.
      * intros p [= <-]. apply elem_of_app. right. by left.
      * by intros c ?%elem_of_nil.
      * intros c j Hc%Hkids Hj [HjD| ->%list_elem_of_singleton]%elem_of_app.
        { eapply (Hfresh id j); [by left| |done]. eapply under_trans; [|done]. eauto with forest. }
        by eapply under_parent_absurd in Hj; [|eauto with forest|done].
Qed.

(** The whole tree. *)
Lemma visit_roots : ∃ L,
  (∀ ops, try_fold (visit_node (S (size (nodes s))) s) ops (enumerate (roots s)) =
    Ok (ops ++ map op_to_wire (exported L))) ∧
  (∀ j, j ∈ L.*2 ↔ is_Some (nodes s !! j)) ∧ builds s [] L.
Proof using Hf.
  destruct (visit_siblings (S (size (nodes s))) None (roots s) []) as (L & Hv & Hu & Hb); [done|done| |].
  { intros pre c post Hsib. assert (pm !! c = Some None) as Hc.
    { apply Hf. change (roots s) with (siblings s None). rewrite Hsib. apply elem_of_app. right. by left. }
    pose proof Hc as (n & Hn & Hp)%parents_Some. rewrite <- Hp.
    apply (visit_spec _ c 1 n); [eauto with forest|lia|done|by rewrite Hp]. }
  exists L. split_and!; [exact Hv| |].
  - intros j. rewrite Hu. split.
    + intros (c & Hc%(forest_roots _ _ Hf) & Hj). apply parents_is_Some. eapply under_lookup; [|done]. eauto.
    + intros [d Hd]%parents_is_Some%(forest_rooted _ _ Hf).
      induction Hd as [j Hj|j p d Hj _ (c & Hc & IH)].
      * exists j. split; [by apply Hf|constructor].
      * exists c. split; [done|]. eauto with forest.
  - apply Hb; [by intros p|by intros c ?%elem_of_nil|by intros c j _ _ ?%elem_of_nil].
Qed.
End visit.

(** ** Copying

    [shadow ns D] is [ns] with only the nodes of [D], the children lists
    restricted to them. *)
Definition kept_in (D l : list NodeId) : list NodeId := filter (λ c, c ∈ D) l.

Definition shadow (ns : gmap NodeId Node) (D : list NodeId) : gmap NodeId Node :=
  (λ n, with_children n (kept_in D (ordered_children n))) <$> filter (λ kv, kv.1 ∈ D) ns.

Lemma shadow_lookup ns D i :
  shadow ns D !! i =
  if decide (i ∈ D) then (λ n, with_children n (kept_in D (ordered_children n))) <$> ns !! i else None.
Proof.
  unfold shadow. rewrite lookup_fmap, map_lookup_filter. destruct (ns !! i) as [n|] eqn:Hi; cbn.
  - case_decide as Hin; [by rewrite option_guard_True|by rewrite option_guard_False].
  - by case_decide.
Qed.

Lemma kept_in_all D l : (∀ c, c ∈ l → c ∈ D) → kept_in D l = l.
Proof.
  unfold kept_in. induction l as [|c l IH]; intros Hl; [done|]. rewrite filter_cons_True by (apply Hl; by left).
  f_equal. apply IH. intros x Hx. apply Hl. by right.
Qed.

Lemma kept_in_none D l : (∀ c, c ∈ l → c ∉ D) → kept_in D l = [].
Proof.
  unfold kept_in. induction l as [|c l IH]; intros Hl; [done|]. rewrite filter_cons_False by (apply Hl; by left).
  apply IH. intros x Hx. apply Hl. by right.
Qed.

Lemma kept_in_app D l k : kept_in D (l ++ k) = kept_in D l ++ kept_in D k.
Proof. apply filter_app. Qed.


Lemma kept_in_snoc D id l : id ∉ l → kept_in (D ++ [id]) l = kept_in D l.
Proof.
  intros Hid. unfold kept_in. induction l as [|c l IH]; [done|].
  apply not_elem_of_cons in Hid as [Hne Hid]. rewrite !filter_cons, IH by done.
  destruct (decide (c ∈ D)) as [Hc|Hc].
  - by rewrite decide_True by (apply elem_of_app; by left).
  - rewrite decide_False; [done|]. by intros [?| ->%list_elem_of_singleton]%elem_of_app.
Qed.

(** Growing [D] by [id] adds it after the siblings it comes after. *)
Lemma kept_in_place D id l1 l2 :
  NoDup (l1 ++ id :: l2) → (∀ c, c ∈ l1 → c ∈ D) → (∀ c, c ∈ l2 → c ∉ D) → id ∉ D →
  kept_in D (l1 ++ id :: l2) = l1 ∧ kept_in (D ++ [id]) (l1 ++ id :: l2) = vec_insert (len l1) id l1.
Proof.
  intros Hnd H1 H2 Hid. apply NoDup_app in Hnd as (_ & _ & Hnd). apply NoDup_cons in Hnd as [Hidl _].
  assert (kept_in D (id :: l2) = []) as Hnone.
  { apply kept_in_none. intros c [->|Hc]%elem_of_cons; [done|by apply H2]. }
  assert (kept_in (D ++ [id]) (id :: l2) = [id]) as Hone.
  { unfold kept_in. rewrite filter_cons_True by (apply elem_of_app; right; by left).
    f_equal. apply kept_in_none. intros c Hc [Hd| ->%list_elem_of_singleton]%elem_of_app; [|done]. by apply (H2 c). }
  rewrite !kept_in_app, Hnone, Hone, app_nil_r. split; [by apply kept_in_all|].
  rewrite kept_in_all by (intros c Hc; apply elem_of_app; left; by apply H1).
  unfold vec_insert, len. rewrite Nat2N.id, take_ge, drop_ge by done. done.
Qed.

Section copy.
Context `{Registry, PropertyIter} (s : SemanticStore).

(** The store while the nodes of [D] have been created. *)
Definition copied (D : list NodeId) : SemanticStore :=
  mkStore (shadow (nodes s) D) (kept_in D (roots s)) (list_to_set D) (models s) (dom (models s)) (limits s) 0.

Context (Hs : graph_wf s).
Context (Hprops : ∀ i n p v, nodes s !! i = Some n → properties n !! p = Some v → property_ok s p v).

Lemma parents_shadow D i par : parents (shadow (nodes s) D) !! i = Some par →
  i ∈ D ∧ parents (nodes s) !! i = Some par.
Proof using Type.
  rewrite !parents_lookup, shadow_lookup. case_decide as Hi; [|done].
  destruct (nodes s !! i) as [n|]; [|done]. cbn. by intros [= <-].
Qed.

Lemma depth_shadow D i d : depth (parents (shadow (nodes s) D)) i d → depth (parents (nodes s)) i d.
Proof using Type.
  induction 1 as [i Hi|i p d Hi _ IH]; apply parents_shadow in Hi as [_ Hi]; [by constructor|].
  by apply depth_step with p.
Qed.

Lemma shadow_count D id n : nodes s !! id = Some n → id ∉ D →
  (map_len (shadow (nodes s) D) < map_len (nodes s))%N.
Proof using Type.
  intros Hn Hid. unfold map_len. enough (size (shadow (nodes s) D) < size (nodes s)) by lia.
  rewrite <- !size_dom. apply subset_size. split.
  - intros i [m Hi]%elem_of_dom. rewrite shadow_lookup in Hi. case_decide; [|done].
    apply elem_of_dom. destruct (nodes s !! i); [eauto|done].
  - intros Hsub. assert (id ∈ dom (shadow (nodes s) D)) as [m Hm]%elem_of_dom.
    { apply Hsub, elem_of_dom. eauto. }
    rewrite shadow_lookup in Hm. by rewrite decide_False in Hm.
Qed.

(** [id] can be created next, at its index among its siblings. *)
Lemma can_create_next D id n l1 l2 :
  graph_wf (copied D) → nodes s !! id = Some n → siblings s (parent_id n) = l1 ++ id :: l2 →
  id ∉ D → parent_in (parent_id n) D → (∀ c, c ∈ l1 → c ∈ D) → (∀ c, c ∈ l2 → c ∉ D) →
  can_create (copied D) id (parent_id n) (Some (len l1)) (iter_properties (properties n)).
Proof using Hs Hprops.
  intros Hwf Hn Hsib Hid Hpar H1 H2. pose proof (gw_forest _ Hs) as Hf.
  pose proof (siblings_nodup s Hf (parent_id n)) as Hnd. rewrite Hsib in Hnd.
  destruct (kept_in_place D id l1 l2 Hnd H1 H2 Hid) as [Hkept _].
  assert (parents (nodes s) !! id = Some (parent_id n)) as Hpm by (apply parents_Some; eauto).
  split_and!.
  - cbn. by rewrite elem_of_list_to_set.
  - cbn. eapply N.lt_le_trans; [by eapply shadow_count|apply Hs].
  - destruct (parent_id n) as [p|] eqn:Hp.
    + assert (p ∈ D) as HpD by by apply Hpar.
      cbn in Hsib. destruct (nodes s !! p) as [np|] eqn:Hnp; [|by destruct l1]. cbn in Hsib.
      assert (nodes (copied D) !! p = Some (with_children np l1)) as Hcp.
      { cbn. rewrite shadow_lookup, decide_True, Hnp by done. cbn. by rewrite Hsib, Hkept. }
      destruct (forest_rooted _ _ (gw_forest _ Hwf) p) as [d Hd].
      { apply parents_is_Some. eauto. }
      exists (with_children np l1), d. split_and!; [done|done| |].
      * assert (depth (parents (nodes s)) id (S d)) as Hdid.
        { eapply depth_step; [done|]. apply (depth_shadow D). exact Hd. }
        pose proof (gw_depth _ Hs _ _ Hdid). cbn. lia.
      * intros i [= <-]. done.
    + split.
      * assert (depth (parents (nodes s)) id 1) as Hdid by by constructor.
        pose proof (gw_depth _ Hs _ _ Hdid). cbn. lia.
      * cbn in Hsib. intros i [= <-]. cbn. by rewrite Hsib, Hkept.
  - intros p v Hpv. rewrite iter_properties_perm in Hpv. apply elem_of_map_to_list in Hpv.
    by eapply Hprops.
Qed.

(** Creating it leaves the copy of one more node. *)
Lemma created_next D id n l1 l2 :
  graph_wf (copied D) → nodes s !! id = Some n → siblings s (parent_id n) = l1 ++ id :: l2 →
  id ∉ D → parent_in (parent_id n) D → (∀ c, c ∈ l1 → c ∈ D) → (∀ c, c ∈ l2 → c ∉ D) →
  created (copied D) id (node_type n) (parent_id n) (Some (len l1)) (iter_properties (properties n)) =
  copied (D ++ [id]).
Proof using Hs.
  intros Hwf Hn Hsib Hid Hpar H1 H2. pose proof (gw_forest _ Hs) as Hf.
  pose proof (siblings_nodup s Hf (parent_id n)) as Hnd. rewrite Hsib in Hnd.
  destruct (kept_in_place D id l1 l2 Hnd H1 H2 Hid) as [Hkept Hplaced].
  assert (∀ q nq, nodes s !! q = Some nq → parent_id n ≠ Some q → kept_in (D ++ [id]) (ordered_children nq) =
    kept_in D (ordered_children nq)) as Hother.
  { intros q nq Hq Hne. apply kept_in_snoc. intros Hin%(forest_kids _ _ Hf q nq Hq).
    apply parents_Some in Hin as (n' & Hn' & ?). congruence. }
  assert (kept_in (D ++ [id]) (ordered_children n) = []) as Hleaf.
  { apply kept_in_none. intros c Hc%(forest_kids _ _ Hf id n Hn) [HcD| ->%list_elem_of_singleton]%elem_of_app.
    - assert (parents (nodes (copied D)) !! c = Some (Some id)) as Hcc.
      { cbn. rewrite parents_lookup, shadow_lookup, decide_True by done.
        apply parents_Some in Hc as (nc & -> & Hpc). cbn. by rewrite Hpc. }
      destruct (forest_rooted _ _ (gw_forest _ Hwf) c) as [d Hd]; [eauto|].
      apply (depth_parent _ _ _ _ Hcc) in Hd as (d' & _ & [np Hd]%depth_lookup).
      by apply parents_shadow in Hd as [? _].
    - apply parents_Some in Hc as (n' & Hn' & Hp'). apply Hid, Hpar. congruence. }
  unfold created, copied. cbn. f_equal.
  - apply map_eq. intros j. rewrite (shadow_lookup _ (D ++ [id])). destruct (decide (j = id)) as [->|Hj].
    { rewrite lookup_insert_eq, decide_True, Hn by (apply elem_of_app; right; by left). cbn.
      rewrite Hleaf. unfold Node_new. rewrite insert_all_iter. f_equal. destruct n. unfold with_children. cbn.
      by rewrite <- (forest_key _ _ Hf _ _ Hn). }
    rewrite lookup_insert_ne by done.
    assert (j ∈ D ++ [id] ↔ j ∈ D) as HjD by (rewrite elem_of_app, list_elem_of_singleton; naive_solver).
    rewrite (decide_ext _ _ _ _ HjD). destruct (parent_id n) as [p|] eqn:Hp.
    + rewrite lookup_alter, !shadow_lookup. cbn in Hsib. destruct (decide (p = j)) as [<-|Hpj].
      * rewrite !decide_True by by apply Hpar. destruct (nodes s !! p) as [np|]; [|done]. cbn in *.
        by rewrite Hsib, Hkept, Hplaced.
      * destruct (decide (j ∈ D)); [|done]. destruct (nodes s !! j) as [nj|] eqn:Hnj; [|done]. cbn.
        rewrite (Hother j nj); [done|done|congruence].
    + rewrite shadow_lookup. destruct (decide (j ∈ D)); [|done].
      destruct (nodes s !! j) as [nj|] eqn:Hnj; [|done]. cbn.
      by rewrite (Hother j nj).
  - destruct (parent_id n) as [p|] eqn:Hp; cbn in Hsib.
    + symmetry. apply kept_in_snoc. intros Hr%(forest_roots _ _ Hf).
      apply parents_Some in Hr as (n' & Hn' & ?). congruence.
    + by rewrite Hsib, Hkept, Hplaced.
  - apply set_eq. intros j. rewrite elem_of_union, elem_of_singleton, !elem_of_list_to_set, elem_of_app,
      list_elem_of_singleton. naive_solver.
Qed.

Lemma copied_next D id n l1 l2 : store_wf (copied D) →
  nodes s !! id = Some n → siblings s (parent_id n) = l1 ++ id :: l2 →
  id ∉ D → parent_in (parent_id n) D → (∀ c, c ∈ l1 → c ∈ D) → (∀ c, c ∈ l2 → c ∉ D) →
  apply (copied D) (CreateNode (node_id n) (node_type n) (parent_id n) (Some (len l1))
    (iter_properties (properties n))) = (copied (D ++ [id]), Ok tt).
Proof using Hs Hprops.
  intros Hwf Hn Hsib Hid Hpar H1 H2. pose proof (sw_graph _ Hwf) as Hg.
  rewrite (forest_key _ _ (gw_forest _ Hs) _ _ Hn). unfold apply.
  rewrite (proj2 (create_node_effect _ _ _ _ _ _ (copied (D ++ [id])) Hg)); [done|].
  split; [by eapply can_create_next|]. symmetry. by eapply created_next.
Qed.

(** Creating the nodes of a creation order copies them. *)
Lemma copy_nodes D L : builds s D L → ∀ idx, store_wf (copied D) →
  apply_ops idx (copied D) (exported s L) = Ok (copied (D ++ L.*2)).
Proof using Hs Hprops.
  induction 1 as [D|D id n l1 l2 L Hn Hsib Hid Hpar H1 H2 _ IH]; intros idx Hwf.
  { by rewrite app_nil_r. }
  rewrite (exported_cons s (len l1, id) n) by done. cbn [apply_ops fst].
  pose proof (copied_next D id n l1 l2 Hwf Hn Hsib Hid Hpar H1 H2) as Hnext. rewrite Hnext.
  rewrite IH; [by rewrite <- app_assoc|].
  apply (f_equal fst) in Hnext. cbn [fst] in Hnext. rewrite <- Hnext. by apply apply_wf.
Qed.
End copy.
