(* ===== verification/SnapshotFacts.v ===== *)
(** * Snapshot export: facts

    Exporting a store and applying the result to a replica of the same limits
    reproduces its nodes, roots, models and revision. *)

From S2P Require Import Prelude.
From S2P Require Import Values.
From S2P Require Import Limits.
From S2P Require Import Models.
From S2P Require Import ModelFacts.
From S2P Require Import Store.
From S2P Require Import StoreFacts.
From S2P Require Import StoreInv.
From S2P Require Import StoreModels.
From S2P Require Import Transaction.
From S2P Require Import TransactionFacts.
From S2P Require Import Wire.
From S2P Require Import WireFacts.
From S2P Require Import SnapshotFraming.
From S2P Require Import Snapshot.
From S2P Require Import SnapshotItems.
From S2P Require Import SnapshotNodes.

(** What the export relies on: a well-formed store, whose models are live and
    exportable, whose values and parents have a wire form, and whose limits
    leave room for the constants of the exporter. *)
Record exportable `{Registry} (s : SemanticStore) : Prop := {
  ex_wf : store_wf s;
  ex_live : ∀ i, i ∈ used_model_ids s → is_Some (models s !! i);
  ex_models : ∀ i m, models s !! i = Some m → model_exportable (limits s) m;
  ex_sized : ∀ i n p v, nodes s !! i = Some n → properties n !! p = Some v → sized v;
  ex_parents : ∀ i n, nodes s !! i = Some n → parent_canonical (parent_id n);
  ex_nodes : (max_node_count (limits s) ≤ u32_max)%N;
  ex_items : (DEFAULT_MAX_ITEMS_PER_MODEL_OPERATION ≤ max_items_per_model_operation (limits s))%N;
}.

(** What the replica has afterwards: all of [s] but the ids it once used. *)
Definition snapshot_of (s : SemanticStore) : SemanticStore :=
  mkStore (nodes s) (roots s) (dom (nodes s)) (models s) (dom (models s)) (limits s) (revision s).

Section export.
Context `{Registry, PropertyIter, ItemEncoding} (s : SemanticStore) (Hs : exportable s).

(** ** The models *)

(** The bounds of an exported range: neither empty nor over the item limit, and
    over the byte ceiling only with a single item. *)
Definition range_bounded (w : Msg.Operation) : Prop :=
  match Msg.op w with
  | Some (Msg.ModelResetRangeOp _ _ its _) =>
      its ≠ [] ∧ (len its ≤ DEFAULT_MAX_ITEMS_PER_MODEL_OPERATION)%N ∧
      ((sumN (map item_encoded_len its) ≤ SNAPSHOT_MODEL_RANGE_MAX_BYTES)%N ∨ (len its ≤ 1)%N)
  | _ => True
  end.

Lemma chunk_bounded m c : good_chunk m c → light_chunk c → range_bounded (op_to_wire (chunk_op m c)).
Proof using Type.
  intros [_ Hne Hlen] Hlight. unfold range_bounded. cbn. split_and!; [|by unfold len in *; rewrite length_map|done].
  by intros ?%map_eq_nil.
Qed.

(** The empty store with the models of [L]. *)
Definition with_models_of (L : list ModelId) : SemanticStore :=
  mkStore ∅ [] ∅ (filter (λ kv, kv.1 ∈ L) (models s)) (list_to_set L) (limits s) 0.

Lemma model_cached_max i m : models s !! i = Some m → ∀ k, cached m k → (k < u64_max)%N.
Proof using Hs.
  intros Hm k Hk. destruct (ex_models _ Hs i m Hm). specialize (me_inside k Hk). lia.
Qed.

Lemma with_models_of_snoc L i m : models s !! i = Some m →
  with_model (with_models_of L) m = with_models_of (L ++ [i]).
Proof using Hs.
  intros Hm. pose proof (mw_id _ (sw_models _ (ex_wf _ Hs)) i m Hm) as Hid.
  unfold with_model, with_models_of. cbn. rewrite Hid. f_equal.
  - apply map_eq. intros j. destruct (decide (i = j)) as [<-|Hne].
    + rewrite lookup_insert_eq. symmetry. apply map_lookup_filter_Some. split; [done|].
      apply elem_of_app. right. by left.
    + rewrite lookup_insert_ne by done. apply option_eq. intros mj.
      rewrite !map_lookup_filter_Some. cbn. rewrite elem_of_app, list_elem_of_singleton. naive_solver.
  - apply set_eq. intros j.
    rewrite elem_of_union, elem_of_singleton, !elem_of_list_to_set, elem_of_app, list_elem_of_singleton.
    naive_solver.
Qed.

Lemma models_room L i m : models s !! i = Some m → i ∉ L →
  (map_len (models (with_models_of L)) < max_model_count (limits s))%N.
Proof using Hs.
  intros Hm Hi. pose proof (mw_count _ (sw_models _ (ex_wf _ Hs))) as Hmax.
  enough (map_len (models (with_models_of L)) < map_len (models s))%N by lia.
  unfold map_len. enough (size (models (with_models_of L)) < size (models s)) by lia. cbn.
  rewrite <- !size_dom. apply subset_size. split; [apply dom_filter_subseteq|].
  intros Hsub. assert (i ∈ dom (filter (λ kv, kv.1 ∈ L) (models s))) as [m' Hm']%elem_of_dom.
  { apply Hsub, elem_of_dom. eauto. }
  by apply map_lookup_filter_Some in Hm' as [_ ?].
Qed.

Lemma export_models_replay L : ∀ ops,
  (∀ i, i ∈ L → is_Some (models s !! i)) →
  ∃ mops, foldl (λ ops mid, match models s !! mid with Some m => export_model ops m | None => ops end) ops L =
      ops ++ map op_to_wire mops ∧
    Forall op_canonical mops ∧ Forall range_bounded (map op_to_wire mops) ∧
    ∀ L0 idx, NoDup (L0 ++ L) → apply_ops idx (with_models_of L0) mops = Ok (with_models_of (L0 ++ L)).
Proof using Hs.
  induction L as [|i L IH]; intros ops HL.
  { exists []. cbn. split_and!; [by rewrite app_nil_r|constructor|constructor|]. intros L0 idx _. by rewrite app_nil_r. }
  destruct (HL i) as [m Hm]; [by left|]. cbn. rewrite Hm.
  pose proof (ex_models _ Hs i m Hm) as Hexp.
  pose proof (mw_id _ (sw_models _ (ex_wf _ Hs)) i m Hm) as Hid.
  destruct (export_model_ops m ops (model_cached_max _ _ Hm)) as (cs & -> & Hgood & Hlight & Hcov).
  destruct (IH (ops ++ map op_to_wire (CreateModel (model_id m) (model_type m) (item_count m) :: map (chunk_op m) cs)))
    as (mops & -> & Hcan & Hbd & Hrep); [intros j Hj; apply HL; by right|].
  exists ((CreateModel (model_id m) (model_type m) (item_count m) :: map (chunk_op m) cs) ++ mops).
  rewrite map_app, <- app_assoc. split_and!; [done| | |].
  2: { apply Forall_app. split; [|done]. cbn [map]. rewrite map_map.
    constructor; [done|]. apply Forall_map.
    rewrite Forall_forall in Hgood, Hlight |- *. intros c Hc. apply chunk_bounded; auto. }
  - apply Forall_app. split; [|done]. constructor; [done|]. apply Forall_map.
    eapply Forall_impl; [exact Hgood|]. intros c Hc. cbn. split; [done|].
    apply Forall_forall. intros it Hit. destruct (chunk_items_valid m c it (gc_slots _ _ Hc) Hit) as [k Hk].
    by apply (me_sized _ _ Hexp k).
  - intros L0 idx Hnd. rewrite apply_ops_app.
    assert (i ∉ L0) as Hi.
    { apply NoDup_app in Hnd as (_ & Hnd & _). intros Hi. apply (Hnd i Hi). by left. }
    rewrite replay_model; [|done|apply Hs| | |done..].
    + cbn [mbind result_bind]. rewrite (with_models_of_snoc L0 i m Hm).
      rewrite Hrep; rewrite <- app_assoc; done.
    + cbn. by rewrite Hid, elem_of_list_to_set.
    + by apply (models_room L0 i m).
Qed.

Lemma elem_of_sorted_ids i : i ∈ sorted_model_ids s ↔ is_Some (models s !! i).
Proof using Type.
  unfold sorted_model_ids. rewrite merge_sort_Permutation. split.
  - intros (m & Hm%elem_of_map_to_list)%elem_of_fst_inv. by exists m.
  - intros [m Hm]. eapply elem_of_fst. by apply elem_of_map_to_list.
Qed.

Lemma sorted_ids_nodup : NoDup (sorted_model_ids s).
Proof using Type.
  unfold sorted_model_ids. rewrite merge_sort_Permutation. apply NoDup_fst_map_to_list.
Qed.

(** The models part of the export fills the empty store. *)
Lemma models_exported : ∃ mops, export_models s = map op_to_wire mops ∧ Forall op_canonical mops ∧
  Forall range_bounded (map op_to_wire mops) ∧
  ∀ idx, apply_ops idx (with_limits_and_revision (limits s) INITIAL) mops = Ok (copied s []).
Proof using Hs.
  destruct (export_models_replay (sorted_model_ids s) []) as (mops & Heq & Hcan & Hbd & Hrep).
  { intros i. apply elem_of_sorted_ids. }
  exists mops. split_and!; [exact Heq|done|done|]. intros idx.
  assert (with_limits_and_revision (limits s) INITIAL = with_models_of []) as ->.
  { unfold with_models_of, with_limits_and_revision. f_equal. symmetry. apply map_empty. intros i.
    apply eq_None_not_Some. intros [m Hm]. apply map_lookup_filter_Some in Hm as [_ ?%elem_of_nil]. done. }
  rewrite (Hrep [] idx) by apply sorted_ids_nodup. unfold with_models_of, copied. cbn. do 2 f_equal.
  - apply map_eq. intros i. by rewrite shadow_lookup, decide_False by apply not_elem_of_nil.
  - symmetry. apply kept_in_none. intros c _. apply not_elem_of_nil.
  - apply map_filter_id. intros i m Hm. cbn. apply elem_of_sorted_ids. eauto.
  - apply set_eq. intros i. by rewrite elem_of_list_to_set, elem_of_sorted_ids, elem_of_dom.
Qed.

(** ** The nodes *)

Lemma live_properties i n p v : nodes s !! i = Some n → properties n !! p = Some v → property_ok s p v.
Proof using Hs.
  intros Hn Hp. destruct (sw_props _ (ex_wf _ Hs) i n p v Hn Hp) as [Hl Hr]. split; [done|].
  intros (mid & ? & Hmid)%Hr. exists mid. split; [done|]. by apply (ex_live _ Hs).
Qed.

(** Every exported index is one the wire can carry. *)
Lemma siblings_short par : (len (siblings s par) ≤ u32_max)%N.
Proof using Hs.
  pose proof (gw_forest _ (sw_graph _ (ex_wf _ Hs))) as Hf.
  transitivity (map_len (nodes s)).
  - unfold len, map_len. rewrite <- size_dom.
    rewrite <- (size_list_to_set (C:=gset NodeId)) by by apply siblings_nodup.
    enough ((list_to_set (siblings s par) : gset NodeId) ⊆ dom (nodes s)) as Hsub%subseteq_size by lia.
    intros c Hc%elem_of_list_to_set. apply elem_of_dom. destruct par as [p|]; cbn in Hc.
    + destruct (nodes s !! p) as [n|] eqn:Hn; [|by apply elem_of_nil in Hc]. cbn in Hc.
      apply (forest_kids _ _ Hf p n Hn), parents_Some in Hc as (n' & ? & _). eauto.
    + apply (forest_roots _ _ Hf), parents_Some in Hc as (n' & ? & _). eauto.
  - etrans; [apply (gw_count _ (sw_graph _ (ex_wf _ Hs)))|apply Hs].
Qed.

Lemma exported_canonical D L : builds s D L → Forall op_canonical (exported s L).
Proof using Hs.
  induction 1 as [D|D id n l1 l2 L Hn Hsib _ _ _ _ _ IH]; [constructor|].
  rewrite (exported_cons s (len l1, id) n) by done. constructor; [|done]. cbn. split_and!.
  - by apply (ex_parents _ Hs id).
  - intros i [= <-]. pose proof (siblings_short (parent_id n)) as Hlen.
    rewrite Hsib, len_app, len_cons in Hlen. lia.
  - intros p v Hpv. rewrite iter_properties_perm in Hpv. apply elem_of_map_to_list in Hpv.
    by apply (ex_sized _ Hs id n p).
Qed.

Lemma copied_all L : (∀ j, j ∈ L ↔ is_Some (nodes s !! j)) →
  copied s L = mkStore (nodes s) (roots s) (dom (nodes s)) (models s) (dom (models s)) (limits s) 0.
Proof using Hs.
  intros HL. pose proof (gw_forest _ (sw_graph _ (ex_wf _ Hs))) as Hf. unfold copied. f_equal.
  - apply map_eq. intros j. rewrite shadow_lookup. destruct (nodes s !! j) as [n|] eqn:Hn.
    + rewrite decide_True by (apply HL; eauto). cbn. rewrite kept_in_all; [by destruct n|].
      intros c Hc%(forest_kids _ _ Hf j n Hn). apply HL. by apply parents_is_Some; eauto.
    + by case_decide.
  - apply kept_in_all. intros c Hc%(forest_roots _ _ Hf). apply HL, parents_is_Some. eauto.
  - apply set_eq. intros j. by rewrite elem_of_list_to_set, HL, elem_of_dom.
Qed.

(** ** The export *)

(** The operations of the export, whose wire forms [export_snapshot_transaction]
    emits, rebuild the store from nothing. *)
Lemma export_ops : ∃ ops,
  try_fold (visit_node (S (size (nodes s))) s) (export_models s) (enumerate (roots s)) =
    Ok (map op_to_wire ops) ∧
  Forall op_canonical ops ∧ Forall range_bounded (map op_to_wire ops) ∧
  apply_ops 0 (with_limits_and_revision (limits s) INITIAL) ops =
    Ok (mkStore (nodes s) (roots s) (dom (nodes s)) (models s) (dom (models s)) (limits s) 0).
Proof using Hs.
  destruct models_exported as (mops & Hm & Hcan & Hbd & Hrep).
  pose proof (sw_graph _ (ex_wf _ Hs)) as Hg.
  destruct (visit_roots s (gw_forest _ Hg)) as (L & Hv & HL & Hb).
  exists (mops ++ exported s L). rewrite Hv, Hm, map_app. split_and!; [done| | |].
  - apply Forall_app. split; [done|]. by eapply exported_canonical.
  - apply Forall_app. split; [done|]. apply Forall_forall. intros w (op & -> & Hop)%list_elem_of_fmap.
    unfold exported in Hop. apply list_elem_of_omap in Hop as (e & _ & Hop).
    apply fmap_Some in Hop as (n & _ & ->). done.
  - rewrite apply_ops_app, Hrep. cbn [mbind result_bind].
    rewrite (copy_nodes s Hg live_properties [] L Hb); [by rewrite app_nil_l, copied_all|].
    eapply apply_ops_wf, (Hrep 0%N). apply store_wf_empty.
Qed.

Lemma export_Ok tx : export_snapshot_transaction s = Ok tx →
  ∃ ops, tx = txn_to_wire (mkTransaction INITIAL (revision s) ops 0%N) ∧ Forall op_canonical ops ∧
    Forall range_bounded (Msg.operations tx) ∧ (len ops ≤ max_transaction_operations (limits s))%N ∧
    apply_ops 0 (with_limits_and_revision (limits s) INITIAL) ops =
      Ok (mkStore (nodes s) (roots s) (dom (nodes s)) (models s) (dom (models s)) (limits s) 0).
Proof using Hs.
  destruct export_ops as (ops & Hv & Hcan & Hbd & Hrep). unfold export_snapshot_transaction. rewrite Hv.
  cbn [mbind result_bind]. intros Heq. apply bind_unit_Ok in Heq as [Hmax [= <-]].
  apply err_if_ltb_Ok in Hmax. unfold len in Hmax. rewrite length_map in Hmax.
  exists ops. split_and!; done.
Qed.

(** Applying the export to a replica of the same limits that is not ahead. *)
Lemma export_applies tx r : export_snapshot_transaction s = Ok tx →
  limits r = limits s → (revision r ≤ revision s)%N →
  apply_snapshot r tx = (snapshot_of s, Ok (revision s)).
Proof using Hs.
  intros (ops & -> & Hcan & _ & Hmax & Hrep)%export_Ok Hl Hrev.
  unfold apply_snapshot, snapshot_from_wire. rewrite txn_round_trip by done.
  cbn [mbind result_bind]. unfold snapshot_try_from, validate_snapshot. cbn [base_revision].
  change (err_if _ _) with (Ok (E:=TxnError) tt). cbn [mbind result_bind].
  unfold replace_from_snapshot. cbn [snapshot_txn operations new_revision].
  rewrite (proj2 (err_if_Ok _ _ tt)) by (apply N.ltb_ge; done). cbn [mbind result_bind].
  unfold check_max_ops. rewrite (proj2 (err_if_Ok _ _ tt)) by (apply N.ltb_ge; by rewrite Hl).
  cbn [mbind result_bind]. rewrite Hl, Hrep. done.
Qed.
End export.

(** The export always returns: a snapshot, or the refusal of an oversized one. *)
Lemma export_cases `{Registry, PropertyIter, ItemEncoding} s : forest (nodes s) (roots s) →
  match export_snapshot_transaction s with
  | Ok tx => Msg.base_revision tx = 0%N ∧ Msg.new_revision tx = revision s ∧
      (len (Msg.operations tx) ≤ max_transaction_operations (limits s))%N
  | Err (SnapshotUnrepresentable limit actual) =>
      limit = max_transaction_operations (limits s) ∧ (limit < actual)%N
  | _ => False
  end.
Proof.
  intros Hf. destruct (visit_roots s Hf) as (L & Hv & _). unfold export_snapshot_transaction.
  rewrite Hv. cbn [mbind result_bind]. destruct (_ <? _)%N eqn:Hmax; cbn.
  - split; [done|]. by apply N.ltb_lt.
  - split_and!; [done..|]. by apply N.ltb_ge.
Qed.

(** ** Following after a snapshot

    [behind r s]: [r] is [s] but may know fewer of the ids used so far. *)
Record behind (r s : SemanticStore) : Prop := {
  bh_nodes : nodes r = nodes s;
  bh_roots : roots r = roots s;
  bh_models : models r = models s;
  bh_limits : limits r = limits s;
  bh_revision : revision r = revision s;
  bh_used : used_ids r ⊆ used_ids s;
  bh_used_models : used_model_ids r ⊆ used_model_ids s;
}.

#[export] Instance behind_preorder : PreOrder behind.
Proof.
  split; [done|]. intros s1 s2 s3 [] []. split; try congruence; set_solver.
Qed.

Lemma snapshot_behind `{Registry} s : store_wf s → behind (snapshot_of s) s.
Proof.
  intros [[_ Hu _ _] _ [Hm _ _]]. split; try done; cbn; intros i Hi%elem_of_dom; [by apply Hu|by apply Hm].
Qed.

Section behind.
Context `{Registry, PropertyIter}.

(** The store [s] with other sets of used ids. *)
Definition reusing (U : gset NodeId) (M : gset ModelId) (s : SemanticStore) : SemanticStore :=
  mkStore (nodes s) (roots s) U (models s) M (limits s) (revision s).

Lemma behind_reusing r s : behind r s ↔
  r = reusing (used_ids r) (used_model_ids r) s ∧ used_ids r ⊆ used_ids s ∧ used_model_ids r ⊆ used_model_ids s.
Proof using Type.
  split.
  - intros [? ? ? ? ? ? ?]. split_and!; [|done..]. destruct r, s; cbn in *. unfold reusing. cbn. congruence.
  - intros (Hr & ? & ?). destruct s. unfold reusing in Hr. cbn in *.
    split; cbn; try done; by rewrite Hr.
Qed.

(** Every operation but the two creations ignores the used ids. *)
Definition creates (op : Operation) : bool :=
  match op with CreateNode _ _ _ _ _ | CreateModel _ _ _ => true | _ => false end.

Lemma detach_reusing U M s par id : detach (reusing U M s) par id = reusing U M (detach s par id).
Proof using Type. unfold detach. destruct par as [p|]; [cbn; by destruct (nodes s !! p)|done]. Qed.

Lemma relocate_reusing U M s id par new index :
  relocate (reusing U M s) id par new index = reusing U M <$> relocate s id par new index.
Proof using Type.
  unfold relocate. rewrite detach_reusing. set (s1 := detach s par id). destruct new as [p|].
  - cbn. destruct (nodes s1 !! p) as [np|]; cbn; [|done]. by destruct (<[p := _]> (nodes s1) !! id).
  - cbn. by destruct (nodes s1 !! id).
Qed.

(** The reads of [reusing U M s] are those of [s]; then the calls that both
    sides make are the same. *)
Ltac reuse_reads U M s :=
  change (nodes (reusing U M s)) with (nodes s); change (roots (reusing U M s)) with (roots s);
  change (models (reusing U M s)) with (models s); change (limits (reusing U M s)) with (limits s);
  change (validate_property_references (reusing U M s)) with (validate_property_references s);
  change (validate_properties (reusing U M s)) with (validate_properties s);
  change (contains_node (reusing U M s)) with (contains_node s);
  change (check_cycle (reusing U M s)) with (check_cycle s);
  change (subtree_depth (reusing U M s)) with (subtree_depth s);
  change (node_depth (reusing U M s)) with (node_depth s).
Ltac reuse_cases :=
  repeat first [reflexivity
    | match goal with |- context [?c ≫= _] =>
        lazymatch c with _ ≫= _ => fail | _ => destruct c end; cbn [mbind result_bind] end].

Ltac reuse_follow :=
  repeat first [(by intros [= <-]) | discriminate
    | match goal with |- context [?c ≫= _] =>
        lazymatch c with _ ≫= _ => fail | match _ with _ => _ end => fail | _ => destruct c end;
        cbn [mbind result_bind] end
    | match goal with |- context [match ?c with Some _ => _ | None => _ end] => destruct c; cbn [mbind result_bind] end].

Lemma apply_reusing U M s op : creates op = false →
  apply (reusing U M s) op = prod_map (reusing U M) id (apply s op).
Proof using Type.
  intros Hop. destruct op; try done; cbn [apply].
  - unfold delete_node. change (nodes (reusing U M s)) with (nodes s).
    destruct (nodes s !! _) as [n|]; [|done]. cbn [ok_or mbind result_bind]. rewrite detach_reusing.
    change (nodes (reusing U M ?t)) with (nodes t).
    by destruct (delete_subtree_recursive _ _ _) as [[]| | |].
  - unfold set_property. reuse_reads U M s. reuse_cases.
  - unfold clear_property. reuse_reads U M s. reuse_cases.
  - unfold move_node. reuse_reads U M s. reuse_cases. rewrite relocate_reusing.
    by destruct (relocate _ _ _ _ _).
  - unfold reorder_children. reuse_reads U M s. reuse_cases.
  - unfold batch_property_set. reuse_reads U M s. reuse_cases.
  - unfold model_insert. reuse_reads U M s. reuse_cases.
  - unfold model_delete. reuse_reads U M s. reuse_cases.
  - unfold model_update. reuse_reads U M s. reuse_cases. by destruct (models s !! _).
  - unfold model_reset_range. reuse_reads U M s. reuse_cases. by destruct (models s !! _).
Qed.

Lemma create_node_reusing U M s id t par index ps s' : U ⊆ used_ids s →
  create_node s id t par index ps = Ok s' →
  create_node (reusing U M s) id t par index ps = Ok (reusing ({[id]} ∪ U) M s').
Proof using Type.
  intros HU Heq. unfold create_node in Heq. apply bind_unit_Ok in Heq as [Hid Heq].
  apply err_if_Ok, bool_decide_eq_false in Hid. unfold create_node.
  rewrite (proj2 (err_if_Ok (bool_decide _) _ tt)) by (apply bool_decide_eq_false; cbn; set_solver).
  revert Heq. reuse_reads U M s. cbn [mbind result_bind].
  destruct par as [p|]; reuse_follow.
Qed.

Lemma create_model_reusing U M s id t count s' : M ⊆ used_model_ids s →
  create_model s id t count = Ok s' →
  create_model (reusing U M s) id t count = Ok (reusing U ({[id]} ∪ M) s').
Proof using Type.
  intros HM Heq. unfold create_model in Heq. apply bind_unit_Ok in Heq as [Hid Heq].
  apply err_if_Ok, bool_decide_eq_false in Hid. unfold create_model.
  rewrite (proj2 (err_if_Ok (bool_decide _) _ tt)) by (apply bool_decide_eq_false; cbn; set_solver).
  revert Heq. reuse_reads U M s. cbn [mbind result_bind]. reuse_follow.
Qed.

(** A replica that is behind accepts what the store accepts, and stays behind. *)
Lemma apply_behind r s op s' : store_wf s → behind r s → apply s op = (s', Ok tt) →
  ∃ r', apply r op = (r', Ok tt) ∧ behind r' s'.
Proof using Type.
  intros Hwf (Hr & HU & HM)%behind_reusing Heq. revert Hr HU HM.
  generalize (used_ids r) (used_model_ids r). intros U M -> HU HM.
  pose proof (apply_framed s op Hwf) as Hfr. rewrite Heq in Hfr. cbn in Hfr. destruct Hfr as [HfU HfM _ _].
  assert (∀ U' M', U' ⊆ used_ids s' → M' ⊆ used_model_ids s' → behind (reusing U' M' s') s') as Hb by by split.
  destruct (creates op) eqn:Hc.
  - destruct op; try done; cbn [apply] in Heq.
    + destruct (create_node s _ _ _ _ _) as [s1| | |] eqn:Hcr; [|done..]. injection Heq as <-.
      pose proof (create_node_reusing U M _ _ _ _ _ _ _ HU Hcr) as Hcr'. cbn [apply]. rewrite Hcr'.
      eexists. split; [done|]. apply Hb; [|set_solver].
      apply create_node_effect in Hcr as [_ ->]; [cbn; set_solver|apply Hwf].
    + destruct (create_model s _ _ _) as [s1| | |] eqn:Hcr; [|done..]. injection Heq as <-.
      pose proof (create_model_reusing U M _ _ _ _ _ HM Hcr) as Hcr'. cbn [apply]. rewrite Hcr'.
      eexists. split; [done|]. apply Hb; [set_solver|].
      unfold create_model in Hcr. inv_ok. subst. cbn. set_solver.
  - rewrite apply_reusing, Heq by done. eexists. split; [done|]. apply Hb; set_solver.
Qed.

Lemma apply_ops_behind ops : ∀ r s idx s', store_wf s → behind r s → apply_ops idx s ops = Ok s' →
  ∃ r', apply_ops idx r ops = Ok r' ∧ behind r' s'.
Proof using Type.
  induction ops as [|op ops IH]; intros r s idx s' Hwf Hb; cbn; [intros [= <-]; eauto|].
  destruct (apply s op) as [s1 [[]| | |]] eqn:Ha; [|done..].
  destruct (apply_behind _ _ _ _ Hwf Hb Ha) as (r1 & -> & Hb1). apply IH; [|done].
  apply (f_equal fst) in Ha. cbn in Ha. rewrite <- Ha. by apply apply_wf.
Qed.

Lemma commit_staging_behind r s r1 s1 rev : behind r s → behind r1 s1 →
  behind (commit_staging r r1 rev) (commit_staging s s1 rev).
Proof using Type. intros [] []. by split. Qed.

Lemma apply_staged_behind r s ops rev s' rev' : store_wf s → behind r s →
  apply_staged s ops rev = Ok (s', rev') →
  ∃ r', apply_staged r ops rev = Ok (r', rev') ∧ behind r' s'.
Proof using Type.
  intros Hwf Hb Heq. unfold apply_staged, check_max_ops in *. rewrite clone_staging_id in *.
  rewrite (bh_limits _ _ Hb). apply bind_unit_Ok in Heq as [-> Heq]. cbn [mbind result_bind].
  apply bind_Ok in Heq as (s1 & Hops & [= <- <-]).
  destruct (apply_ops_behind _ _ _ _ _ Hwf Hb Hops) as (r1 & -> & Hb1). eexists. split; [done|].
  by apply commit_staging_behind.
Qed.

Lemma apply_delivered_behind r s w s' rev : store_wf s → behind r s →
  apply_delivered_transaction s w = (s', Ok rev) →
  ∃ r', apply_delivered_transaction r w = (r', Ok rev) ∧ behind r' s'.
Proof using Type.
  intros Hwf Hb Heq. unfold apply_delivered_transaction in *.
  destruct (txn_from_wire w) as [txn| | |]; [|done..].
  assert (∀ base ops rev', committing s (check_base_revision s base ≫= λ _, apply_staged s ops rev') = (s', Ok rev) →
    ∃ r', committing r (check_base_revision r base ≫= λ _, apply_staged r ops rev') = (r', Ok rev) ∧ behind r' s')
    as Hstaged.
  { intros base ops rev' Hcm. apply committing_Ok in Hcm. apply bind_unit_Ok in Hcm as [Hbase Hcm].
    destruct (apply_staged_behind _ _ _ _ _ _ Hwf Hb Hcm) as (r' & Hr' & Hb').
    exists r'. unfold check_base_revision in *. rewrite (bh_revision _ _ Hb), Hbase. cbn [mbind result_bind].
    by rewrite Hr'. }
  unfold apply_delivered in *. destruct (delivered_try_from txn) as [[c|d]| | |]; [by apply Hstaged|by apply Hstaged|done..].
Qed.
End behind.

(** ** The plan for a client *)

Lemma foldl_min_le d l : (foldl N.min d l ≤ d)%N ∧ ∀ x, x ∈ l → (foldl N.min d l ≤ x)%N.
Proof.
  revert d. induction l as [|y l IH]; intros d; cbn.
  - split; [lia|]. by intros x ?%elem_of_nil.
  - destruct (IH (N.min d y)) as [Hd Hall]. split; [lia|].
    intros x [->|Hx]%elem_of_cons; [lia|by apply Hall].
Qed.

(** The frame sizes a plan keeps to: the codec's and both advertised ones. *)
Definition frame_ok (server_max_frame_size : N) (client : option ClientLimits) (n : N) : Prop :=
  (n ≤ DEFAULT_MAX_FRAME_SIZE)%N ∧
  (server_max_frame_size ≠ 0%N → (n ≤ server_max_frame_size)%N) ∧
  ∀ l, client = Some l → cl_max_frame_size l ≠ 0%N → (n ≤ cl_max_frame_size l)%N.

Definition client_parts (client : option ClientLimits) : N :=
  match client with Some l => cl_max_snapshot_parts l | None => 0%N end.

Lemma nonzero_Some n : n ≠ 0%N → nonzero n = Some n.
Proof. intros Hn. unfold nonzero. by rewrite (proj2 (N.eqb_neq _ _)). Qed.

Lemma plan_delivery_Ok `{Encoding} tx server client p :
  plan_snapshot_delivery tx server client = Ok p →
  ∃ max_frame_size, plan_snapshot_frames tx max_frame_size (client_parts client) = Ok p ∧
    (∀ n, (n ≤ max_frame_size)%N → frame_ok server client n) ∧
    ∀ l, client = Some l → cl_max_transaction_operations l ≠ 0%N →
      (len (Msg.operations tx) ≤ cl_max_transaction_operations l)%N.
Proof.
  unfold plan_snapshot_delivery. intros Heq. apply bind_unit_Ok in Heq as [Hops Heq].
  set (frames := [nonzero server; client ≫= λ l, nonzero (cl_max_frame_size l)]) in *.
  set (max_frame_size := foldl N.min DEFAULT_MAX_FRAME_SIZE (omap id frames)) in *.
  destruct (foldl_min_le DEFAULT_MAX_FRAME_SIZE (omap id frames)) as [Hd Hall].
  assert (∀ x, Some x ∈ frames → (max_frame_size ≤ x)%N) as Hmin.
  { intros x Hx. apply Hall, list_elem_of_omap. by exists (Some x). }
  exists max_frame_size. split_and!.
  - change (map_err SnapshotUndeliverable (plan_snapshot_frames tx max_frame_size (client_parts client)) = Ok p)
      in Heq.
    destruct (plan_snapshot_frames _ _ _); cbn in Heq; congruence.
  - intros n Hn. split_and!; [unfold max_frame_size in Hn; lia| |].
    + intros Hs. etrans; [done|]. apply Hmin. rewrite <- (nonzero_Some server) by done. by left.
    + intros l -> Hl. etrans; [done|]. apply Hmin. cbn in frames.
      rewrite <- (nonzero_Some (cl_max_frame_size l)) by done. right. by left.
  - intros l -> Hl. cbn in Hops. rewrite (nonzero_Some _ Hl) in Hops. by apply err_if_ltb_Ok in Hops.
Qed.
