(* ===== verification/Journal.v ===== *)
(** * The transaction journal

    Models [journal/src/lib.rs]: the bounded ring of committed wire
    transactions a reconnecting client is caught up from.  Its invariant is that
    the entries form an unbroken chain of single-step revisions from
    [earliest_revision] to [latest_revision]; a replay is then exactly the
    suffix of that chain. *)

From S2P Require Import Prelude.
From S2P Require Import Values.
From S2P Require Import Limits.
From S2P Require Import Models.
From S2P Require Import Store.
From S2P Require Import Transaction.
From S2P Require Import Wire.

Definition DEFAULT_MAX_JOURNAL_ENTRIES : N := 1024.

Inductive JournalError :=
| InvalidRevisionRange (base new : N)
| NonContiguousRevision (expected actual : N).

(** [pub struct JournalPermit] *)
Record JournalPermit := mkPermit { permit_tx : Msg.Transaction }.

(** [pub struct TransactionJournal] *)
Record TransactionJournal := mkJournal {
  max_entries : N;
  entries : list Msg.Transaction;
  earliest_revision : N;
  latest_revision : N;
}.

(** [TransactionJournal::with_initial_revision], [new], [default] *)
Definition with_initial_revision (max initial : N) : TransactionJournal :=
  mkJournal (N.max max 1) [] initial initial.
Definition Journal_new (max : N) : TransactionJournal := mkJournal (N.max max 1) [] 0 0.
Definition Journal_default : TransactionJournal := Journal_new DEFAULT_MAX_JOURNAL_ENTRIES.

(** [TransactionJournal::check_contiguity] *)
Definition check_contiguity (j : TransactionJournal) (tx : Msg.Transaction) : result JournalError unit :=
  err_if (bool_decide (entries j ≠ []) && negb (Msg.base_revision tx =? latest_revision j)%N)
    (NonContiguousRevision (latest_revision j) (Msg.base_revision tx)).

(** [TransactionJournal::prepare] *)
Definition prepare `{PropertyIter} (j : TransactionJournal) (commit : AuthoritativeCommit)
    : result JournalError JournalPermit :=
  let tx := txn_to_wire (commit_txn commit) in
  check_contiguity j tx ≫= λ _, Ok (mkPermit tx).

(** [TransactionJournal::append] *)
Definition append (j : TransactionJournal) (permit : JournalPermit) : TransactionJournal :=
  let tx := permit_tx permit in
  let earliest := if bool_decide (entries j = []) then Msg.base_revision tx else earliest_revision j in
  let '(kept, earliest) :=
    if (max_entries j <=? len (entries j))%N then
      match entries j with
      | oldest :: rest => (rest, Msg.new_revision oldest)
      | [] => (entries j, earliest)
      end
    else (entries j, earliest) in
  mkJournal (max_entries j) (kept ++ [tx]) earliest (Msg.new_revision tx).

(** [TransactionJournal::record] *)
Definition record (j : TransactionJournal) (tx : Msg.Transaction) : result JournalError TransactionJournal :=
  err_if (negb (Msg.new_revision tx =? saturating_add64 (Msg.base_revision tx) 1)%N)
    (InvalidRevisionRange (Msg.base_revision tx) (Msg.new_revision tx)) ≫= λ _,
  check_contiguity j tx ≫= λ _,
  Ok (append j (mkPermit tx)).

(** [TransactionJournal::can_replay_from] *)
Definition can_replay_from (j : TransactionJournal) (from : N) : bool :=
  (earliest_revision j <=? from)%N && (from <=? latest_revision j)%N.

(** [TransactionJournal::iter_from] and [replay_from] *)
Definition replay_from (j : TransactionJournal) (from : N) : option (list Msg.Transaction) :=
  if (latest_revision j <? from)%N || (from <? earliest_revision j)%N then None
  else
    skip_count ←
      (if (from =? latest_revision j)%N then Some (len (entries j))
       else
         let count := (from - earliest_revision j)%N in
         if (len (entries j) <? count)%N then None else Some count);
    Some (drop (N.to_nat skip_count) (entries j)).

(** [TransactionJournal::clear] *)
Definition clear (j : TransactionJournal) : TransactionJournal := mkJournal (max_entries j) [] 0 0.

(** ** Chains of revisions *)

Inductive chain : N → list Msg.Transaction → N → Prop :=
| chain_nil a : chain a [] a
| chain_cons tx l b :
    Msg.new_revision tx = (Msg.base_revision tx + 1)%N →
    chain (Msg.new_revision tx) l b → chain (Msg.base_revision tx) (tx :: l) b.

Lemma chain_len a l b : chain a l b → b = (a + len l)%N.
Proof.
  induction 1 as [a|tx l b Hn _ ->]; [unfold len; cbn; lia|]. rewrite Hn, len_cons. lia.
Qed.

Lemma chain_snoc a l tx : chain a l (Msg.base_revision tx) →
  Msg.new_revision tx = (Msg.base_revision tx + 1)%N → chain a (l ++ [tx]) (Msg.new_revision tx).
Proof.
  intros Hc Hn. remember (Msg.base_revision tx) as b eqn:Hb.
  induction Hc as [b|tx0 l b Hn0 _ IH]; cbn.
  - rewrite Hb in Hn |- *. constructor; [done|constructor].
  - constructor; auto.
Qed.

Lemma chain_drop a l b n : chain a l b → n ≤ length l → chain (a + N.of_nat n)%N (drop n l) b.
Proof.
  intros Hc. revert n. induction Hc as [a|tx l b Hn Hc IH]; intros n Hle; cbn in Hle.
  - replace n with 0 by lia. cbn. rewrite N.add_0_r. constructor.
  - destruct n as [|n]; cbn [drop].
    + rewrite N.add_0_r. by constructor.
    + specialize (IH n ltac:(lia)). rewrite Hn in IH.
      by replace (Msg.base_revision tx + N.of_nat (S n))%N
        with (Msg.base_revision tx + 1 + N.of_nat n)%N by lia.
Qed.

Lemma chain_app_inv a l1 l2 b : chain a (l1 ++ l2) b → ∃ m, chain a l1 m ∧ chain m l2 b.
Proof.
  revert a. induction l1 as [|tx l1 IH]; intros a Hc; cbn in Hc.
  - exists a. split; [constructor|done].
  - inversion Hc; subst. destruct (IH _ ltac:(eassumption)) as (m & ? & ?).
    exists m. split; [by constructor|done].
Qed.

(** ** The journal invariant *)

Record journal_wf (j : TransactionJournal) : Prop := {
  jw_chain : chain (earliest_revision j) (entries j) (latest_revision j);
  jw_bound : (len (entries j) ≤ max_entries j)%N;
  jw_pos : (1 ≤ max_entries j)%N;
}.

(** What [prepare] and [record] check of a transaction before [append]. *)
Definition admissible (j : TransactionJournal) (tx : Msg.Transaction) : Prop :=
  Msg.new_revision tx = (Msg.base_revision tx + 1)%N ∧
  (entries j = [] ∨ Msg.base_revision tx = latest_revision j).

Lemma check_contiguity_Ok j tx u :
  check_contiguity j tx = Ok u ↔ entries j = [] ∨ Msg.base_revision tx = latest_revision j.
Proof.
  unfold check_contiguity. rewrite err_if_Ok, andb_false_iff, bool_decide_eq_false, negb_false_iff, N.eqb_eq.
  destruct (entries j); naive_solver.
Qed.

Lemma with_initial_revision_wf max r : journal_wf (with_initial_revision max r).
Proof. split; cbn; [constructor|unfold len; cbn; lia|lia]. Qed.

Lemma append_wf j tx : journal_wf j → admissible j tx → journal_wf (append j (mkPermit tx)).
Proof.
  intros [Hc Hb Hp] [Hn Ha]. unfold append. cbn.
  assert (entries j ≠ [] → Msg.base_revision tx = latest_revision j) as Hlat by naive_solver.
  destruct (entries j) as [|old rest] eqn:He.
  - rewrite (bool_decide_eq_true_2 ([] = [])) by done.
    rewrite (proj2 (N.leb_gt _ _)) by (unfold len; cbn; lia).
    split; cbn; [constructor; [done|constructor]|unfold len; cbn; lia|done].
  - rewrite (bool_decide_eq_false_2 (old :: rest = [])) by done.
    rewrite <- (Hlat ltac:(done)) in Hc.
    destruct (N.leb_spec (max_entries j) (len (old :: rest))); split; cbn; try done.
    + inversion Hc; subst. by apply chain_snoc.
    + rewrite len_app, len_cons in *. unfold len in *. cbn. lia.
    + by apply (chain_snoc _ (old :: rest)).
    + change (old :: rest ++ [tx]) with ((old :: rest) ++ [tx]). rewrite len_app.
      unfold len at 2. cbn. lia.
Qed.

(** The appended transaction is the last entry; the others are kept in order,
    but for at most the oldest. *)
Lemma append_entries j tx : journal_wf j →
  entries (append j (mkPermit tx)) =
    drop (if decide (max_entries j ≤ len (entries j))%N then 1 else 0) (entries j) ++ [tx].
Proof.
  intros [_ _ Hp]. unfold append. cbn.
  destruct (entries j) as [|old rest] eqn:He.
  - rewrite (proj2 (N.leb_gt _ _)) by (unfold len; cbn; lia). by case_decide.
  - destruct (N.leb_spec (max_entries j) (len (old :: rest))); case_decide; cbn; done || lia.
Qed.

Lemma append_latest j tx : latest_revision (append j (mkPermit tx)) = Msg.new_revision tx.
Proof. unfold append. repeat case_match; by simplify_eq. Qed.

(** ** Replay *)

Lemma replay_from_spec j r : journal_wf j →
  replay_from j r =
    if can_replay_from j r then Some (drop (N.to_nat (r - earliest_revision j)) (entries j)) else None.
Proof.
  intros [Hc _ _]. pose proof (chain_len _ _ _ Hc) as Hlen. unfold replay_from, can_replay_from.
  destruct (N.ltb_spec (latest_revision j) r), (N.ltb_spec r (earliest_revision j)),
    (N.leb_spec (earliest_revision j) r), (N.leb_spec r (latest_revision j)); try lia; cbn; try done.
  destruct (N.eqb_spec r (latest_revision j)) as [->|]; cbn.
  - do 2 f_equal. lia.
  - by rewrite (proj2 (N.ltb_ge _ _)) by lia.
Qed.

(** A replay starts at the client's revision and ends at the latest. *)
Lemma replay_from_chain j r txs : journal_wf j → replay_from j r = Some txs →
  chain r txs (latest_revision j).
Proof.
  intros Hwf. rewrite replay_from_spec by done. destruct Hwf as [Hc _ _].
  pose proof (chain_len _ _ _ Hc) as Hlen. unfold can_replay_from.
  destruct (N.leb_spec (earliest_revision j) r), (N.leb_spec r (latest_revision j)); try done; cbn.
  intros [= <-].
  eapply (chain_drop _ _ _ (N.to_nat (r - earliest_revision j))) in Hc; [|unfold len in Hlen; lia].
  by replace (earliest_revision j + N.of_nat (N.to_nat (r - earliest_revision j)))%N with r in Hc by lia.
Qed.

(** The window after an append: what was replayable stays so, followed by the
    new transaction, unless it was at the evicted end. *)
Lemma replay_append j tx r txs : journal_wf j → admissible j tx → entries j ≠ [] →
  replay_from j r = Some txs → (earliest_revision (append j (mkPermit tx)) ≤ r)%N →
  replay_from (append j (mkPermit tx)) r = Some (txs ++ [tx]).
Proof.
  intros Hwf Ha Hne Hr Hle. pose proof (append_wf _ _ Hwf Ha) as Hwf'.
  destruct Ha as [Hn Hb]. destruct Hb as [|Hb]; [done|].
  rewrite replay_from_spec in Hr by done. rewrite replay_from_spec, append_entries by done.
  unfold can_replay_from in *. rewrite append_latest, Hn, Hb.
  destruct (N.leb_spec (earliest_revision j) r), (N.leb_spec r (latest_revision j)); try done.
  rewrite (proj2 (N.leb_le _ _) Hle). rewrite (proj2 (N.leb_le _ _)) by lia. cbn.
  destruct Hwf as [Hc _ Hp]. pose proof (chain_len _ _ _ Hc) as Hlen. injection Hr as <-.
  revert Hle. unfold append. cbn. rewrite (bool_decide_eq_false_2 (entries j = [])) by done.
  destruct (entries j) as [|old rest] eqn:He; [done|].
  inversion Hc; subst. rewrite len_cons in Hlen.
  destruct (N.leb_spec (max_entries j) (len (old :: rest))); case_decide; try lia; cbn [earliest_revision drop]; intros Hle.
  - f_equal. rewrite drop_0, drop_app_le; [|unfold len in *; lia].
    f_equal. replace (N.to_nat (r - Msg.base_revision old)) with (S (N.to_nat (r - Msg.new_revision old))) by lia.
    done.
  - f_equal. rewrite drop_app_le; [done|]. cbn. unfold len in *. lia.
Qed.
