(* ===== verification/Dedupe.v ===== *)
(** * Event deduplication

    Models [event-dedupe/src/lib.rs]: the per-client sliding receive window that
    answers a replayed event from its cached outcome, and the bounded
    least-recently-used table of those windows.  Byte strings are lists of byte
    values; event types are the two integers the window keys them by. *)

From S2P Require Import Prelude.

Definition Bytes := list N.

Definition DEFAULT_MAX_DEDUPE_ENTRIES : N := 4096.
Definition DEFAULT_MAX_CLIENT_WINDOWS : N := 256.

(** [pub struct EventOutcomeRecord] *)
Record EventOutcomeRecord := mkOutcome {
  accepted : bool;
  revision_after_effect : N;
  reject_reason : string;
}.

(** [pub enum EventSequenceError] *)
Inductive EventSequenceError :=
| MissingEventId
| ReplaySequenceMismatch (expected_event_seq received_event_seq : N)
| ReplayEventTypeMismatch (expected received : option (N * N))
| SequenceAlreadyAssigned (event_seq : N)
| OutsideReceiveWindow (event_seq first_acceptable_seq last_acceptable_seq : N)
| ReceiveWindowFull
| ClientWindowCapacityExhausted (limit : N).

(** [pub enum RecordOutcome] *)
Inductive RecordOutcome :=
| Fresh (last_processed_event_seq : N)
| Pending (last_processed_event_seq : N)
| Duplicate (prior : EventOutcomeRecord) (last_processed_event_seq : N).

(** [enum EventRecord] *)
Inductive EventRecord :=
| InFlight (event_seq : N) (event_type : option (N * N))
| Settled (event_seq : N) (event_type : option (N * N)) (outcome : EventOutcomeRecord).

Definition record_seq (r : EventRecord) : N :=
  match r with InFlight s _ | Settled s _ _ => s end.
Definition record_type (r : EventRecord) : option (N * N) :=
  match r with InFlight _ t | Settled _ t _ => t end.
Definition is_in_flight_record (r : EventRecord) : bool :=
  match r with InFlight _ _ => true | Settled _ _ _ => false end.

(** [EventRecord::is_evictable] *)
Definition is_evictable (frontier : N) (r : EventRecord) : bool :=
  match r with
  | Settled s _ _ => (s =? 0)%N || (s <=? frontier)%N
  | InFlight _ _ => false
  end.

(** ** One client's receive window *)

(** [struct ClientDedupeWindow] *)
Record ClientDedupeWindow := mkWindow {
  seen_ids : gmap Bytes EventRecord;
  ids_by_seq : gmap N Bytes;
  order : list Bytes;
  last_contiguous_processed_seq : N;
  settled_out_of_order : gset N;
}.

(** [ClientDedupeWindow::new], seeded with a frontier by [window_for_new_client]. *)
Definition window_at (frontier : N) : ClientDedupeWindow := mkWindow ∅ ∅ [] frontier ∅.
Definition Window_new : ClientDedupeWindow := window_at 0.

(** [ClientDedupeWindow::has_in_flight] and [is_pinned] *)
Definition has_in_flight (w : ClientDedupeWindow) : bool :=
  existsb (λ kr, is_in_flight_record kr.2) (map_to_list (seen_ids w)).
Definition is_pinned (w : ClientDedupeWindow) : bool :=
  has_in_flight w || bool_decide (settled_out_of_order w ≠ ∅).

(** [self.order.iter().position(..)] of [evict_oldest_settled] *)
Definition evictable_id (w : ClientDedupeWindow) (id : Bytes) : Prop :=
  match seen_ids w !! id with
  | Some r => is_evictable (last_contiguous_processed_seq w) r = true
  | None => False
  end.
#[export] Instance evictable_id_dec w id : Decision (evictable_id w id).
Proof. unfold evictable_id. destruct (_ !! _); apply _. Defined.

(** [VecDeque::remove(position)] *)
Definition remove_at {A} (i : nat) (l : list A) : list A := take i l ++ drop (S i) l.

(** [ClientDedupeWindow::evict_oldest_settled]: [None] where it returns [false]. *)
Definition evict_oldest_settled (w : ClientDedupeWindow) : option ClientDedupeWindow :=
  match list_find (evictable_id w) (order w) with
  | None => None
  | Some (position, id) =>
      let order' := remove_at position (order w) in
      match seen_ids w !! id with
      | Some r =>
          let seq := record_seq r in
          Some (if (seq =? 0)%N
                then mkWindow (delete id (seen_ids w)) (ids_by_seq w) order'
                       (last_contiguous_processed_seq w) (settled_out_of_order w)
                else mkWindow (delete id (seen_ids w)) (delete seq (ids_by_seq w)) order'
                       (last_contiguous_processed_seq w) (settled_out_of_order w ∖ {[seq]}))
      | None => Some (mkWindow (seen_ids w) (ids_by_seq w) order' (last_contiguous_processed_seq w)
                        (settled_out_of_order w))
      end
  end.

(** [while self.seen_ids.len() >= max_entries { if !evict { give up } }]: the
    window left, and whether room was made. *)
Fixpoint evict_while_full (fuel : nat) (w : ClientDedupeWindow) (max_entries : N)
    : ClientDedupeWindow * option bool :=
  match fuel with
  | O => (w, None)
  | S fuel =>
      if (max_entries <=? map_len (seen_ids w))%N then
        match evict_oldest_settled w with
        | Some w' => evict_while_full fuel w' max_entries
        | None => (w, Some false)
        end
      else (w, Some true)
  end.
Definition make_room (w : ClientDedupeWindow) (max_entries : N) : ClientDedupeWindow * option bool :=
  evict_while_full (S (size (seen_ids w))) w max_entries.

(** The answer for an identifier the window knows. *)
Definition admit_known (w : ClientDedupeWindow) (r : EventRecord) (event_seq : N)
    (event_type : option (N * N)) : result EventSequenceError RecordOutcome :=
  if negb (event_seq =? record_seq r)%N then Err (ReplaySequenceMismatch (record_seq r) event_seq)
  else if bool_decide (record_type r ≠ event_type) && negb (record_seq r =? 0)%N
  then Err (ReplayEventTypeMismatch (record_type r) event_type)
  else Ok (match r with
           | InFlight _ _ => Pending (last_contiguous_processed_seq w)
           | Settled _ _ outcome => Duplicate outcome (last_contiguous_processed_seq w)
           end).

(** The receive window an unknown sequence number must fall into. *)
Definition check_window (w : ClientDedupeWindow) (event_seq max_entries : N)
    : result EventSequenceError unit :=
  let frontier := last_contiguous_processed_seq w in
  let first := saturating_add64 frontier 1 in
  let last := saturating_add64 frontier max_entries in
  err_if ((event_seq =? 0)%N || (event_seq <=? frontier)%N || (last <? event_seq)%N)
    (OutsideReceiveWindow event_seq first last).

Definition add_in_flight (w : ClientDedupeWindow) (event_id : Bytes) (event_seq : N)
    (event_type : option (N * N)) : ClientDedupeWindow :=
  mkWindow (<[event_id := InFlight event_seq event_type]> (seen_ids w))
    (<[event_seq := event_id]> (ids_by_seq w)) (order w ++ [event_id])
    (last_contiguous_processed_seq w) (settled_out_of_order w).

(** [ClientDedupeWindow::admit]: evictions stay even when the window is full. *)
Definition window_admit (w : ClientDedupeWindow) (event_id : Bytes) (event_seq : N)
    (event_type : option (N * N)) (max_entries : N)
    : ClientDedupeWindow * result EventSequenceError RecordOutcome :=
  match seen_ids w !! event_id with
  | Some r => (w, admit_known w r event_seq event_type)
  | None =>
      if bool_decide (is_Some (ids_by_seq w !! event_seq)) then (w, Err (SequenceAlreadyAssigned event_seq))
      else
        match check_window w event_seq max_entries with
        | Ok _ =>
            match make_room w max_entries with
            | (w', Some true) =>
                (add_in_flight w' event_id event_seq event_type,
                 Ok (Fresh (last_contiguous_processed_seq w')))
            | (w', Some false) => (w', Err ReceiveWindowFull)
            | (w', None) => (w', Diverge)
            end
        | Err e => (w, Err e)
        | Panic => (w, Panic)
        | Diverge => (w, Diverge)
        end
  end.

(** [ClientDedupeWindow::insert_legacy_settled] *)
Definition insert_legacy_settled (w : ClientDedupeWindow) (event_id : Bytes) (outcome : EventOutcomeRecord)
    (max_entries : N) : ClientDedupeWindow * result EventSequenceError bool :=
  if bool_decide (is_Some (seen_ids w !! event_id)) then (w, Ok false)
  else
    match make_room w max_entries with
    | (w', Some true) =>
        (mkWindow (<[event_id := Settled 0 None outcome]> (seen_ids w')) (ids_by_seq w')
           (order w' ++ [event_id]) (last_contiguous_processed_seq w') (settled_out_of_order w'), Ok true)
    | (w', Some false) => (w', Ok false)
    | (w', None) => (w', Diverge)
    end.

(** The loop of [note_settled_sequence]: absorb the sequences settled early. *)
Fixpoint advance_frontier (fuel : nat) (frontier : N) (early : gset N) : N * gset N :=
  match fuel with
  | O => (frontier, early)
  | S fuel =>
      match checked_add64 frontier 1 with
      | Some next =>
          if bool_decide (next ∈ early) then advance_frontier fuel next (early ∖ {[next]})
          else (frontier, early)
      | None => (frontier, early)
      end
  end.

(** [ClientDedupeWindow::note_settled_sequence] *)
Definition note_settled_sequence (w : ClientDedupeWindow) (event_seq : N) : ClientDedupeWindow :=
  let frontier := last_contiguous_processed_seq w in
  if (event_seq =? 0)%N || (event_seq <=? frontier)%N then w
  else if (event_seq =? saturating_add64 frontier 1)%N then
    let '(frontier', early) :=
      advance_frontier (S (size (settled_out_of_order w))) event_seq (settled_out_of_order w) in
    mkWindow (seen_ids w) (ids_by_seq w) (order w) frontier' early
  else
    mkWindow (seen_ids w) (ids_by_seq w) (order w) frontier ({[event_seq]} ∪ settled_out_of_order w).

(** [ClientDedupeWindow::settle] *)
Definition settle (w : ClientDedupeWindow) (event_id : Bytes) (outcome : EventOutcomeRecord)
    : ClientDedupeWindow * N :=
  match seen_ids w !! event_id with
  | Some (InFlight seq ty) =>
      let w1 := mkWindow (<[event_id := Settled seq ty outcome]> (seen_ids w)) (ids_by_seq w) (order w)
                  (last_contiguous_processed_seq w) (settled_out_of_order w) in
      let w2 := note_settled_sequence w1 seq in
      (w2, last_contiguous_processed_seq w2)
  | _ => (w, last_contiguous_processed_seq w)
  end.

(** [ClientDedupeWindow::abandon] *)
Definition abandon (w : ClientDedupeWindow) (event_id : Bytes) : ClientDedupeWindow :=
  match seen_ids w !! event_id with
  | Some (InFlight seq _) =>
      mkWindow (delete event_id (seen_ids w)) (delete seq (ids_by_seq w)) (retain_ne event_id (order w))
        (last_contiguous_processed_seq w) (settled_out_of_order w)
  | _ => w
  end.

(** ** The table of windows *)

(** [pub struct EventDeduplicator] *)
Record EventDeduplicator := mkDedupe {
  max_entries_per_client : N;
  max_client_windows : N;
  clients : gmap Bytes ClientDedupeWindow;
  client_order : list Bytes;
  evicted_frontiers : gmap Bytes N;
  frontier_order : list Bytes;
}.

(** The identity fields of [srui_protocol::Event] the table looks at. *)
Record EventKey := mkEventKey {
  ek_client : Bytes;
  ek_id : Bytes;
  ek_seq : N;
  ek_type : option (N * N);
}.

(** [EventDeduplicator::with_limits], [new], [default] *)
Definition Dedupe_with_limits (max_entries max_windows : N) : EventDeduplicator :=
  mkDedupe (N.max max_entries 1) (N.max max_windows 1) ∅ [] ∅ [].
Definition Dedupe_default : EventDeduplicator :=
  Dedupe_with_limits DEFAULT_MAX_DEDUPE_ENTRIES DEFAULT_MAX_CLIENT_WINDOWS.

Definition with_clients (d : EventDeduplicator) (cs : gmap Bytes ClientDedupeWindow) (co : list Bytes) :=
  mkDedupe (max_entries_per_client d) (max_client_windows d) cs co (evicted_frontiers d) (frontier_order d).
Definition with_frontiers (d : EventDeduplicator) (fs : gmap Bytes N) (fo : list Bytes) :=
  mkDedupe (max_entries_per_client d) (max_client_windows d) (clients d) (client_order d) fs fo.

Definition has_client_window (d : EventDeduplicator) (c : Bytes) : bool :=
  bool_decide (is_Some (clients d !! c)).

(** [EventDeduplicator::touch_client] *)
Definition touch_client (d : EventDeduplicator) (c : Bytes) : EventDeduplicator :=
  match list_find (eq c) (client_order d) with
  | Some (position, entry) =>
      if (S position =? length (client_order d))%nat then d
      else with_clients d (clients d) (remove_at position (client_order d) ++ [entry])
  | None => d
  end.

(** [while self.frontier_order.len() > self.max_client_windows { .. }] *)
Fixpoint trim_frontiers (fuel : nat) (max : N) (fs : gmap Bytes N) (fo : list Bytes)
    : gmap Bytes N * list Bytes :=
  match fuel with
  | O => (fs, fo)
  | S fuel =>
      if (max <? len fo)%N then
        match fo with
        | oldest :: fo => trim_frontiers fuel max (delete oldest fs) fo
        | [] => (fs, fo)
        end
      else (fs, fo)
  end.

(** [EventDeduplicator::retain_frontier] *)
Definition retain_frontier (d : EventDeduplicator) (c : Bytes) (frontier : N) : EventDeduplicator :=
  if (frontier =? 0)%N then d
  else
    let fo := if bool_decide (is_Some (evicted_frontiers d !! c)) then frontier_order d
              else frontier_order d ++ [c] in
    let '(fs, fo) := trim_frontiers (length fo) (max_client_windows d)
                       (<[c := frontier]> (evicted_frontiers d)) fo in
    with_frontiers d fs fo.

(** The candidate test of [make_room_for_new_client]. *)
Definition unpinned (d : EventDeduplicator) (c : Bytes) : Prop :=
  match clients d !! c with Some w => is_pinned w = false | None => False end.
#[export] Instance unpinned_dec d c : Decision (unpinned d c).
Proof. unfold unpinned. destruct (_ !! _); apply _. Defined.

(** [EventDeduplicator::make_room_for_new_client] *)
Fixpoint make_room_clients (fuel : nat) (d : EventDeduplicator)
    : EventDeduplicator * result EventSequenceError unit :=
  match fuel with
  | O => (d, Diverge)
  | S fuel =>
      if (max_client_windows d <=? map_len (clients d))%N then
        match list_find (unpinned d) (client_order d) with
        | None => (d, Err (ClientWindowCapacityExhausted (max_client_windows d)))
        | Some (position, evicted) =>
            let frontier := match clients d !! evicted with
                            | Some w => last_contiguous_processed_seq w
                            | None => 0%N
                            end in
            make_room_clients fuel
              (retain_frontier
                 (with_clients d (delete evicted (clients d)) (remove_at position (client_order d)))
                 evicted frontier)
        end
      else (d, Ok tt)
  end.
Definition make_room_for_new_client (d : EventDeduplicator)
    : EventDeduplicator * result EventSequenceError unit :=
  make_room_clients (S (size (clients d))) d.

(** [EventDeduplicator::window_for_new_client] *)
Definition window_for_new_client (d : EventDeduplicator) (c : Bytes)
    : EventDeduplicator * ClientDedupeWindow :=
  match evicted_frontiers d !! c with
  | Some frontier =>
      (with_frontiers d (delete c (evicted_frontiers d)) (retain_ne c (frontier_order d)), window_at frontier)
  | None => (d, Window_new)
  end.

Definition put_client (d : EventDeduplicator) (c : Bytes) (w : ClientDedupeWindow) : EventDeduplicator :=
  with_clients d (<[c := w]> (clients d)) (client_order d).
Definition add_client (d : EventDeduplicator) (c : Bytes) (w : ClientDedupeWindow) : EventDeduplicator :=
  with_clients d (<[c := w]> (clients d)) (client_order d ++ [c]).

(** [EventDeduplicator::is_duplicate] *)
Definition is_duplicate (d : EventDeduplicator) (c event_id : Bytes) : bool :=
  bool_decide (event_id ≠ []) &&
  match clients d !! c with Some w => bool_decide (is_Some (seen_ids w !! event_id)) | None => false end.

(** [EventDeduplicator::record], the identifier-only interface. *)
Definition record (d : EventDeduplicator) (c event_id : Bytes)
    : EventDeduplicator * result EventSequenceError bool :=
  if bool_decide (event_id = []) then (d, Ok true)
  else
    let outcome := mkOutcome true 0 "" in
    match clients d !! c with
    | Some w =>
        let d1 := touch_client d c in
        let '(w', r) := insert_legacy_settled w event_id outcome (max_entries_per_client d) in
        (put_client d1 c w', r)
    | None =>
        let '(w, is_new) := insert_legacy_settled Window_new event_id outcome (max_entries_per_client d) in
        match make_room_for_new_client d with
        | (d1, Ok _) => (add_client d1 c w, is_new)
        | (d1, Err _) => (d1, Ok false)
        | (d1, Panic) => (d1, Panic)
        | (d1, Diverge) => (d1, Diverge)
        end
    end.

(** [EventDeduplicator::admit_event] *)
Definition admit_event (d : EventDeduplicator) (event : EventKey)
    : EventDeduplicator * result EventSequenceError RecordOutcome :=
  let c := ek_client event in
  if bool_decide (ek_id event = []) then (d, Err MissingEventId)
  else
    match clients d !! c with
    | Some w =>
        let d1 := touch_client d c in
        let '(w', r) := window_admit w (ek_id event) (ek_seq event) (ek_type event) (max_entries_per_client d) in
        (put_client d1 c w', r)
    | None =>
        let '(d1, w) := window_for_new_client d c in
        let restored := last_contiguous_processed_seq w in
        let '(w', r) := window_admit w (ek_id event) (ek_seq event) (ek_type event) (max_entries_per_client d) in
        match r with
        | Ok outcome =>
            match make_room_for_new_client d1 with
            | (d2, Ok _) => (add_client d2 c w', Ok outcome)
            | (d2, Err e) => (retain_frontier d2 c restored, Err e)
            | (d2, Panic) => (d2, Panic)
            | (d2, Diverge) => (d2, Diverge)
            end
        | Err e => (retain_frontier d1 c restored, Err e)
        | Panic => (d1, Panic)
        | Diverge => (d1, Diverge)
        end
    end.

(** [EventDeduplicator::last_contiguous_processed_seq] *)
Definition last_contiguous_of (d : EventDeduplicator) (c : Bytes) : N :=
  match clients d !! c with
  | Some w => last_contiguous_processed_seq w
  | None => default 0%N (evicted_frontiers d !! c)
  end.

(** [EventDeduplicator::settle_event] *)
Definition settle_event (d : EventDeduplicator) (event : EventKey) (outcome : EventOutcomeRecord)
    : EventDeduplicator * N :=
  if bool_decide (ek_id event = []) then (d, last_contiguous_of d (ek_client event))
  else
    let d1 := touch_client d (ek_client event) in
    match clients d1 !! ek_client event with
    | Some w => let '(w', n) := settle w (ek_id event) outcome in (put_client d1 (ek_client event) w', n)
    | None => (d1, 0%N)
    end.

(** [EventDeduplicator::abandon_event] *)
Definition abandon_event (d : EventDeduplicator) (event : EventKey) : EventDeduplicator :=
  if bool_decide (ek_id event = []) then d
  else
    match clients d !! ek_client event with
    | Some w => put_client d (ek_client event) (abandon w (ek_id event))
    | None => d
    end.

(** [EventDeduplicator::is_in_flight] and [settled_outcome] *)
Definition is_in_flight (d : EventDeduplicator) (c event_id : Bytes) : bool :=
  match clients d !! c ≫= λ w, seen_ids w !! event_id with
  | Some r => is_in_flight_record r
  | None => false
  end.
Definition settled_outcome (d : EventDeduplicator) (c event_id : Bytes) : option EventOutcomeRecord :=
  match clients d !! c ≫= λ w, seen_ids w !! event_id with
  | Some (Settled _ _ outcome) => Some outcome
  | _ => None
  end.

(** [EventDeduplicator::admit_and_settle] *)
Definition admit_and_settle (d : EventDeduplicator) (event : EventKey) (outcome : EventOutcomeRecord)
    : EventDeduplicator * result EventSequenceError N :=
  match admit_event d event with
  | (d1, Ok (Duplicate _ n)) => (d1, Ok n)
  | (d1, Ok (Pending _)) | (d1, Ok (Fresh _)) =>
      let '(d2, n) := settle_event d1 event outcome in (d2, Ok n)
  | (d1, Err e) => (d1, Err e)
  | (d1, Panic) => (d1, Panic)
  | (d1, Diverge) => (d1, Diverge)
  end.

(** [EventDeduplicator::remove_client] and [clear] *)
Definition remove_client (d : EventDeduplicator) (c : Bytes) : EventDeduplicator :=
  mkDedupe (max_entries_per_client d) (max_client_windows d) (delete c (clients d))
    (retain_ne c (client_order d)) (delete c (evicted_frontiers d)) (retain_ne c (frontier_order d)).
Definition clear (d : EventDeduplicator) : EventDeduplicator :=
  mkDedupe (max_entries_per_client d) (max_client_windows d) ∅ [] ∅ [].
