(* ===== verification/DedupeFacts.v ===== *)
(** * The receive window never lets an event settle twice

    The invariant of one client's window, that every operation keeps it, and
    the consequences: a settled sequence number stays settled and is never
    admitted as fresh again, and the frontier reports exactly the contiguous
    prefix of settled numbers. *)

From S2P Require Import Prelude.
From S2P Require Import Dedupe.

(** [v.remove(i)] on a list takes out exactly the element at [i]. *)
Lemma remove_at_perm {A} i (x : A) l : l !! i = Some x → l ≡ₚ x :: remove_at i l.
Proof.
  intros Hi. unfold remove_at. rewrite <- (take_drop_middle l i x Hi) at 1.
  by rewrite Permutation_middle.
Qed.

Record window_wf (w : ClientDedupeWindow) : Prop := {
  ww_order_nodup : NoDup (order w);
  ww_order : ∀ id, id ∈ order w ↔ is_Some (seen_ids w !! id);
  ww_seq : ∀ s id, ids_by_seq w !! s = Some id ↔
    s ≠ 0%N ∧ ∃ r, seen_ids w !! id = Some r ∧ record_seq r = s;
  ww_flight : ∀ id s ty, seen_ids w !! id = Some (InFlight s ty) →
    (last_contiguous_processed_seq w < s ≤ u64_max)%N;
  ww_early : ∀ s, s ∈ settled_out_of_order w ↔ (last_contiguous_processed_seq w < s ≤ u64_max)%N ∧
    ∃ id ty o, seen_ids w !! id = Some (Settled s ty o);
  ww_settled : ∀ id s ty o, seen_ids w !! id = Some (Settled s ty o) → (s ≤ u64_max)%N;
  ww_next : (last_contiguous_processed_seq w + 1)%N ∉ settled_out_of_order w;
  ww_max : (last_contiguous_processed_seq w ≤ u64_max)%N;
}.

(** Sequence number [s] has a terminal outcome. *)
Definition settled_seq (w : ClientDedupeWindow) (s : N) : Prop :=
  (0 < s ≤ last_contiguous_processed_seq w)%N ∨ s ∈ settled_out_of_order w.

Lemma window_at_wf f : (f ≤ u64_max)%N → window_wf (window_at f).
Proof.
  intros Hf. split; cbn; try done.
  - constructor.
  - intros id. rewrite lookup_empty, elem_of_nil, is_Some_alt. done.
  - intros s id. rewrite lookup_empty. split; [done|]. intros (_ & r & Hr & _).
    by rewrite lookup_empty in Hr.
  - intros s. split; [set_solver|]. intros (_ & id & ty & o & Ho). by rewrite lookup_empty in Ho.
Qed.

(** One identifier per sequence number. *)
Lemma window_seq_inj w id id' r r' : window_wf w → seen_ids w !! id = Some r →
  seen_ids w !! id' = Some r' → record_seq r = record_seq r' → record_seq r ≠ 0%N → id = id'.
Proof.
  intros Hwf Hr Hr' Heq Hne.
  assert (ids_by_seq w !! record_seq r = Some id) as H1 by (apply (ww_seq _ Hwf); eauto).
  assert (ids_by_seq w !! record_seq r = Some id') as H2 by (apply (ww_seq _ Hwf); split; eauto).
  congruence.
Qed.

(** ** Eviction *)

Lemma evict_oldest_settled_spec w w' : window_wf w → evict_oldest_settled w = Some w' →
  window_wf w' ∧ last_contiguous_processed_seq w' = last_contiguous_processed_seq w ∧
  settled_out_of_order w' = settled_out_of_order w ∧
  ∃ id r, seen_ids w !! id = Some r ∧ is_evictable (last_contiguous_processed_seq w) r = true ∧
    seen_ids w' = delete id (seen_ids w).
Proof.
  intros Hwf. unfold evict_oldest_settled.
  destruct (list_find _ _) as [[pos id]|] eqn:Hfind; [|done].
  apply list_find_Some in Hfind as (Hpos & Hev & _). unfold evictable_id in Hev.
  destruct (seen_ids w !! id) as [r|] eqn:Hr; [|done].
  assert (is_evictable (last_contiguous_processed_seq w) r = true) as Hev' by done. clear Hev.
  destruct r as [s ty|s ty o]; [done|]. cbn in Hev'. cbn [record_seq].
  apply orb_true_iff in Hev'. rewrite N.eqb_eq, N.leb_le in Hev'.
  pose proof (remove_at_perm _ _ _ Hpos) as Hperm.
  assert (∀ i, i ∈ order w ↔ i = id ∨ i ∈ remove_at pos (order w)) as Hin.
  { intros i. rewrite <- elem_of_cons. by rewrite <- Hperm. }
  pose proof (ww_order_nodup _ Hwf) as Hnd. rewrite Hperm in Hnd. apply NoDup_cons in Hnd as [Hid Hnd].
  assert (s ∉ settled_out_of_order w) as Hs.
  { intros [? _]%(ww_early _ Hwf). lia. }
  set (w1 := mkWindow (delete id (seen_ids w)) (if (s =? 0)%N then ids_by_seq w else delete s (ids_by_seq w))
    (remove_at pos (order w)) (last_contiguous_processed_seq w) (settled_out_of_order w)).
  intros Heq. assert (w' = w1) as ->.
  { subst w1. destruct (s =? 0)%N; injection Heq as <-; f_equal. set_solver. }
  clear Heq. split; [|split_and!; try done; exists id, (Settled s ty o); split_and!; try done].
  2:{ cbn. rewrite orb_true_iff, N.eqb_eq, N.leb_le. done. }
  split; cbn; try exact (ww_next _ Hwf); try exact (ww_max _ Hwf); [done|..].
  - intros i. rewrite lookup_delete_is_Some, <- (ww_order _ Hwf), Hin.
    split; [intros Hi; split; [intros ->; done|by right]|]. intros [? [->|?]]; done.
  - intros x i. destruct (N.eqb_spec s 0) as [->|Hs0].
    + rewrite (ww_seq _ Hwf). split; intros (Hx & r & Hi & Hrx); (split; [done|]); exists r.
      * split; [|done]. rewrite lookup_delete_ne; [done|]. intros ->. rewrite Hr in Hi.
        injection Hi as <-. by apply Hx.
      * by apply lookup_delete_Some in Hi as [_ ?].
    + rewrite lookup_delete_Some, (ww_seq _ Hwf). split.
      * intros (Hx & ? & r & Hi & Hrx). split; [done|]. exists r. rewrite lookup_delete_ne; [done|].
        intros ->. rewrite Hr in Hi. injection Hi as <-. by apply Hx.
      * intros (? & r & [Hne Hi]%lookup_delete_Some & Hrx). split; [|eauto].
        intros <-. apply Hne. by eapply (window_seq_inj w id i (Settled s ty o) r).
  - intros i x y [_ Hi]%lookup_delete_Some. by eapply (ww_flight _ Hwf).
  - intros x. rewrite (ww_early _ Hwf). split.
    + intros (? & i & t & o' & Hi). split; [done|]. exists i, t, o'. rewrite lookup_delete_ne; [done|].
      intros ->. simplify_eq. lia.
    + intros (? & i & t & o' & [_ Hi]%lookup_delete_Some). eauto 10.
  - intros i x t o' [_ Hi]%lookup_delete_Some. by eapply (ww_settled _ Hwf).
Qed.

(** What making room may change: cached outcomes at or below the frontier. *)
Definition evicted_from (w w' : ClientDedupeWindow) : Prop :=
  window_wf w' ∧ last_contiguous_processed_seq w' = last_contiguous_processed_seq w ∧
  settled_out_of_order w' = settled_out_of_order w ∧ seen_ids w' ⊆ seen_ids w ∧
  ∀ id r, seen_ids w !! id = Some r → is_evictable (last_contiguous_processed_seq w) r = false →
    seen_ids w' !! id = Some r.

Lemma evict_while_full_spec fuel w max : window_wf w → size (seen_ids w) < fuel →
  ∃ w' b, evict_while_full fuel w max = (w', Some b) ∧ evicted_from w w' ∧
    (b = true → (map_len (seen_ids w') < max)%N).
Proof.
  revert w. induction fuel as [|fuel IH]; intros w Hwf Hf; [lia|]. cbn.
  destruct (N.leb_spec max (map_len (seen_ids w))) as [Hfull|Hroom].
  - destruct (evict_oldest_settled w) as [w1|] eqn:He.
    + apply evict_oldest_settled_spec in He as (Hwf1 & Hf1 & Ho1 & id & r & Hr & Hev & Hs1); [|done].
      destruct (IH w1) as (w' & b & Heq & (Hwf' & Hf' & Ho' & Hs' & Hk') & Hb); [done| |].
      { rewrite Hs1, map_size_delete, Hr. cbn.
        assert (size (seen_ids w) ≠ 0) by (apply map_size_ne_0_lookup_2 with id; eauto). lia. }
      exists w', b. split; [done|]. split; [|done]. split_and!; [done|congruence|congruence| |].
      * etrans; [done|]. rewrite Hs1. apply delete_subseteq.
      * intros i q Hi Hq. apply Hk'; [|by rewrite Hf1]. rewrite Hs1, lookup_delete_ne; [done|]. congruence.
    + exists w, false. split; [done|]. by split.
  - exists w, true. split; [done|]. by split.
Qed.

Lemma make_room_spec w max : window_wf w →
  ∃ w' b, make_room w max = (w', Some b) ∧ evicted_from w w' ∧
    (b = true → (map_len (seen_ids w') < max)%N).
Proof. intros Hwf. apply evict_while_full_spec; [done|lia]. Qed.

(** The records no eviction may touch decide whether room can be made. *)
Definition load_bearing (w : ClientDedupeWindow) : gmap Bytes EventRecord :=
  filter (λ kv, is_evictable (last_contiguous_processed_seq w) kv.2 = false) (seen_ids w).

Lemma evict_oldest_settled_load w w' : window_wf w → evict_oldest_settled w = Some w' →
  load_bearing w' = load_bearing w.
Proof.
  intros Hwf (_ & Hf & _ & id & r & Hr & Hev & Hs)%evict_oldest_settled_spec; [|done].
  unfold load_bearing. rewrite Hf, Hs. apply map_filter_delete_not. intros q Hq. cbn. congruence.
Qed.

Lemma evict_oldest_settled_None w : window_wf w → evict_oldest_settled w = None → load_bearing w = seen_ids w.
Proof.
  intros Hwf He. unfold evict_oldest_settled in He.
  destruct (list_find _ _) as [[pos id]|] eqn:Hfind; [by destruct (seen_ids w !! id)|].
  apply list_find_None in Hfind. rewrite Forall_forall in Hfind. apply map_filter_id. intros i q Hq. cbn.
  assert (i ∈ order w) as Hi by (apply (ww_order _ Hwf); eauto).
  apply Hfind in Hi. unfold evictable_id in Hi. rewrite Hq in Hi. by apply not_true_is_false.
Qed.

Lemma evict_while_full_exact fuel w max w' b : window_wf w → size (seen_ids w) < fuel →
  evict_while_full fuel w max = (w', Some b) → b = bool_decide (map_len (load_bearing w) < max)%N.
Proof.
  revert w. induction fuel as [|fuel IH]; intros w Hwf Hf; [lia|]. cbn.
  assert (map_len (load_bearing w) ≤ map_len (seen_ids w))%N as Hle.
  { unfold map_len, load_bearing. pose proof (map_subseteq_size _ _ (map_filter_subseteq
      (λ kv, is_evictable (last_contiguous_processed_seq w) kv.2 = false) (seen_ids w))). lia. }
  destruct (N.leb_spec max (map_len (seen_ids w))) as [Hfull|Hroom].
  - destruct (evict_oldest_settled w) as [w1|] eqn:He.
    + rewrite <- (evict_oldest_settled_load _ _ Hwf He). intros Hw. apply IH; [| |done].
      * by apply evict_oldest_settled_spec in He as [? _].
      * apply evict_oldest_settled_spec in He as (_ & _ & _ & id & r & Hr & _ & Hs); [|done].
        rewrite Hs, map_size_delete, Hr. cbn.
        assert (size (seen_ids w) ≠ 0) by (apply map_size_ne_0_lookup_2 with id; eauto). lia.
    + intros [= <- <-]. symmetry. apply bool_decide_eq_false. rewrite evict_oldest_settled_None by done. lia.
  - intros [= <- <-]. symmetry. apply bool_decide_eq_true. lia.
Qed.

Lemma evicted_from_settled w w' s : evicted_from w w' → settled_seq w' s ↔ settled_seq w s.
Proof. intros (_ & Hf & Ho & _). unfold settled_seq. by rewrite Hf, Ho. Qed.

(** ** Admission *)

Lemma add_in_flight_wf w id s ty :
  window_wf w → seen_ids w !! id = None → ids_by_seq w !! s = None →
  (last_contiguous_processed_seq w < s ≤ u64_max)%N →
  window_wf (add_in_flight w id s ty).
Proof.
  intros Hwf Hid Hs Hb. assert (id ∉ order w) as Hord.
  { rewrite (ww_order _ Hwf), Hid. apply is_Some_None. }
  split; cbn; try exact (ww_next _ Hwf); try exact (ww_max _ Hwf).
  - apply NoDup_app. split_and!; [apply (ww_order_nodup _ Hwf)| |apply NoDup_singleton].
    intros x Hx ->%list_elem_of_singleton. done.
  - intros x. rewrite elem_of_app, list_elem_of_singleton, lookup_insert_is_Some', (ww_order _ Hwf).
    split; [intros [?| ->]|intros [->|?]]; auto.
  - intros x i. rewrite lookup_insert_Some, (ww_seq _ Hwf). split.
    + intros [[<- <-]|(Hne & Hx & r & Hi & Hr)].
      * split; [lia|]. eexists. by rewrite lookup_insert_eq.
      * split; [done|]. exists r. rewrite lookup_insert_ne by congruence. done.
    + intros (Hx & r & [[<- <-]|[Hne Hi]]%lookup_insert_Some & Hr); [by left|right].
      split; [|eauto]. intros ->. assert (ids_by_seq w !! x = Some i) by (apply (ww_seq _ Hwf); eauto).
      congruence.
  - intros i x t [[<- [= -> ->]]|[_ Hi]]%lookup_insert_Some; [lia|by eapply (ww_flight _ Hwf)].
  - intros x. rewrite (ww_early _ Hwf). split.
    + intros (? & i & t & o & Hi). split; [done|]. exists i, t, o. rewrite lookup_insert_ne; [done|congruence].
    + intros (? & i & t & o & [[_ [=]]|[_ Hi]]%lookup_insert_Some). eauto 10.
  - intros i x t o [[_ [=]]|[_ Hi]]%lookup_insert_Some. by eapply (ww_settled _ Hwf).
Qed.

Lemma check_window_Ok w s max u : (last_contiguous_processed_seq w ≤ u64_max)%N →
  check_window w s max = Ok u ↔
  (last_contiguous_processed_seq w < s ≤ N.min (last_contiguous_processed_seq w + max) u64_max)%N.
Proof.
  intros Hmax. unfold check_window, saturating_add64.
  rewrite err_if_Ok, !orb_false_iff, N.eqb_neq, N.leb_gt, N.ltb_ge. lia.
Qed.

(** Every admission ends; a fresh one is of a number never settled before, and
    the caller then owns it. *)
Lemma admit_spec w id s ty max w' r : window_wf w →
  window_admit w id s ty max = (w', r) →
  window_wf w' ∧ returns r ∧ last_contiguous_processed_seq w' = last_contiguous_processed_seq w ∧
  settled_out_of_order w' = settled_out_of_order w ∧
  match r with
  | Ok (Fresh n) =>
      seen_ids w !! id = None ∧ ¬ settled_seq w s ∧ (∀ i q, seen_ids w !! i = Some q → record_seq q ≠ s) ∧
      (last_contiguous_processed_seq w < s ≤ last_contiguous_processed_seq w + max)%N ∧
      seen_ids w' !! id = Some (InFlight s ty) ∧ (map_len (seen_ids w') ≤ max)%N ∧
      n = last_contiguous_processed_seq w
  | Ok (Duplicate o n) => w' = w ∧ n = last_contiguous_processed_seq w ∧
      ∃ ty', seen_ids w !! id = Some (Settled s ty' o)
  | Ok (Pending n) => w' = w ∧ n = last_contiguous_processed_seq w ∧ seen_ids w !! id = Some (InFlight s ty)
  | _ => seen_ids w' ⊆ seen_ids w
  end.
Proof.
  intros Hwf. unfold window_admit. destruct (seen_ids w !! id) as [q|] eqn:Hid.
  { intros [= <- <-]. unfold admit_known. destruct (N.eqb_spec s (record_seq q)) as [->|]; cbn.
    - destruct (bool_decide (record_type q ≠ ty) && negb (record_seq q =? 0)%N) eqn:Hty; cbn; [done|].
      destruct q as [s t|s t o]; cbn in *; split_and!; try done; [|eauto].
      apply andb_false_iff in Hty. pose proof (ww_flight _ Hwf _ _ _ Hid).
      rewrite bool_decide_eq_false, negb_false_iff, N.eqb_eq in Hty.
      destruct Hty as [Hty|]; [|lia]. apply dec_stable in Hty. by subst.
    - done. }
  case_bool_decide as Hseq; [by intros [= <- <-]|].
  destruct (check_window w s max) as [[]|e| |] eqn:Hc; try by intros [= <- <-].
  2:{ unfold check_window, err_if in Hc. by case_match. }
  2:{ unfold check_window, err_if in Hc. by case_match. }
  apply check_window_Ok in Hc; [|apply (ww_max _ Hwf)].
  destruct (make_room_spec w max Hwf) as (w1 & b & -> & (Hwf1 & Hf1 & Ho1 & Hs1 & _) & Hb).
  destruct b; intros [= <- <-]; [|done].
  assert (seen_ids w1 !! id = None) as Hid1 by (by eapply lookup_weaken_None).
  assert (∀ i q, seen_ids w !! i = Some q → record_seq q ≠ s) as Hfree.
  { intros i q Hi <-. apply Hseq. exists i. apply (ww_seq _ Hwf). split; [lia|eauto]. }
  split_and!; try done.
  - apply add_in_flight_wf; [done..| |lia]. apply eq_None_not_Some. intros [i Hi].
    apply (ww_seq _ Hwf1) in Hi as (_ & q & Hq & Hqs). eapply Hfree; [|done]. by eapply lookup_weaken.
  - unfold settled_seq. intros [?|Hearly]; [lia|].
    apply (ww_early _ Hwf) in Hearly as (_ & i & t & o & Hi). by apply (Hfree i _ Hi).
  - lia.
  - lia.
  - apply lookup_insert_eq.
  - cbn. unfold map_len in *. rewrite map_size_insert_None by done. specialize (Hb eq_refl). lia.
Qed.

(** Exactly what is admitted: an unseen number of the receive window, when the
    records that must be kept leave room. *)
Lemma admit_Fresh w id s ty max : window_wf w → seen_ids w !! id = None →
  (∃ w' n, window_admit w id s ty max = (w', Ok (Fresh n))) ↔
  (last_contiguous_processed_seq w < s ≤ N.min (last_contiguous_processed_seq w + max) u64_max)%N ∧
  (∀ i q, seen_ids w !! i = Some q → record_seq q ≠ s) ∧ (map_len (load_bearing w) < max)%N.
Proof.
  intros Hwf Hid. unfold window_admit. rewrite Hid. rewrite <- (check_window_Ok w s max tt) by apply (ww_max _ Hwf).
  assert ((∀ i q, seen_ids w !! i = Some q → record_seq q ≠ s) ∨ s = 0%N ↔ ¬ is_Some (ids_by_seq w !! s)) as Hseq.
  { split.
    - intros Hfree [i Hi]. apply (ww_seq _ Hwf) in Hi as (Hs & q & Hq & Hqs). destruct Hfree as [Hfree|]; [|done].
      by eapply Hfree.
    - intros Hno. destruct (decide (s = 0%N)); [by right|]. left. intros i q Hq Hqs. apply Hno. exists i.
      apply (ww_seq _ Hwf). eauto. }
  pose proof (check_window_Ok w s max tt (ww_max _ Hwf)) as Hck.
  case_bool_decide as Hass.
  { split; [intros (? & ? & [=])|]. intros (_ & Hfree & _). exfalso. destruct Hseq as [Hseq _]. by apply Hseq; [left|]. }
  destruct (check_window w s max) as [[]|e| |]; [|split; [intros (? & ? & [=])|by intros [? _]]..].
  destruct (make_room w max) as [w1 b] eqn:Hm.
  destruct (make_room_spec w max Hwf) as (w2 & b2 & Hm2 & _). rewrite Hm in Hm2. injection Hm2 as -> ->.
  apply evict_while_full_exact in Hm as ->; [|done|lia].
  destruct (bool_decide_reflect (map_len (load_bearing w) < max)%N) as [Hr|Hr].
  - split; [|eauto]. intros _. split_and!; [done| |done]. destruct Hck as [Hck _]. specialize (Hck eq_refl).
    apply Hseq in Hass as [|]; [done|lia].
  - split; [intros (? & ? & [=])|]. by intros (_ & _ & ?).
Qed.

(** Making room forgets cached outcomes at or below the frontier only. *)
Lemma admit_keeps w id s ty max w' r i q : window_wf w → window_admit w id s ty max = (w', r) →
  seen_ids w !! i = Some q → is_evictable (last_contiguous_processed_seq w) q = false →
  seen_ids w' !! i = Some q.
Proof.
  intros Hwf Ha Hi Hq. unfold window_admit in Ha. destruct (seen_ids w !! id) eqn:Hid; [by injection Ha as <- _|].
  case_bool_decide; [by injection Ha as <- _|].
  destruct (check_window w s max); try by injection Ha as <- _.
  destruct (make_room_spec w max Hwf) as (w1 & b & Heq & (_ & _ & _ & _ & Hk) & _). rewrite Heq in Ha.
  destruct b; injection Ha as <- _; [|by apply Hk]. cbn. rewrite lookup_insert_ne; [by apply Hk|]. congruence.
Qed.

(** ** Settling *)

Lemma advance_frontier_spec fuel f early : size early < fuel → (f ≤ u64_max)%N →
  ∃ f' early', advance_frontier fuel f early = (f', early') ∧ (f ≤ f' ≤ u64_max)%N ∧
    (∀ x, (f < x ≤ f')%N → x ∈ early) ∧
    (∀ x, x ∈ early' ↔ x ∈ early ∧ ¬ (f < x ≤ f')%N) ∧
    ((f' < u64_max)%N → (f' + 1)%N ∉ early').
Proof.
  revert f early. induction fuel as [|fuel IH]; intros f early Hf Hmax; [lia|]. cbn [advance_frontier].
  destruct (checked_add64 f 1) as [n|] eqn:Hn.
  - apply checked_add64_Some in Hn as [-> Hn]. case_bool_decide as Hin.
    + assert (size (early ∖ {[(f + 1)%N]}) < fuel) as Hsz.
      { assert (size early = S (size (early ∖ {[(f + 1)%N]}))) as Heq.
        { rewrite size_difference by set_solver. rewrite size_singleton.
          assert (size early ≠ 0) by (apply size_non_empty_iff; set_solver). lia. }
        lia. }
      destruct (IH (f + 1)%N _ Hsz Hn) as (f' & early' & -> & Hle & Hall & Hin' & Hnext).
      exists f', early'. split_and!; [done|lia|lia| | |done].
      * intros x Hx. destruct (decide (x = f + 1)%N) as [->|]; [done|].
        specialize (Hall x ltac:(lia)). set_solver.
      * intros x. rewrite Hin', elem_of_difference, elem_of_singleton.
        split; [intros [[? ?] ?]; split; [done|lia]|intros [? ?]; split; [split; [done|lia]|lia]].
    + exists f, early. split_and!; [done|lia|lia|lia| |done]. intros x. split; [|by intros []].
      split; [done|lia].
  - exists f, early. apply checked_add64_None in Hn. split_and!; [done|lia|lia|lia| |lia].
    intros x. split; [|by intros []]. split; [done|lia].
Qed.

(** The window after the record of [s] has turned terminal. *)
Lemma settle_record_wf w id s ty o : window_wf w → seen_ids w !! id = Some (InFlight s ty) →
  let w2 := note_settled_sequence
    (mkWindow (<[id := Settled s ty o]> (seen_ids w)) (ids_by_seq w) (order w)
       (last_contiguous_processed_seq w) (settled_out_of_order w)) s in
  window_wf w2 ∧ seen_ids w2 = <[id := Settled s ty o]> (seen_ids w) ∧
  (last_contiguous_processed_seq w ≤ last_contiguous_processed_seq w2)%N ∧
  ∀ x, settled_seq w2 x ↔ settled_seq w x ∨ x = s.
Proof.
  intros Hwf Hid w2. pose proof (ww_flight _ Hwf _ _ _ Hid) as Hs.
  assert (∀ i r, seen_ids w !! i = Some r → record_seq r = s → i = id) as Hinj.
  { intros i r Hi Hr. eapply (window_seq_inj w i id r (InFlight s ty)); [done|done|done|done|]. rewrite Hr. lia. }
  assert (s ∉ settled_out_of_order w) as Hnot.
  { intros (_ & i & t & o' & Hi)%(ww_early _ Hwf). pose proof (Hinj i _ Hi eq_refl). congruence. }
  (* every flavour of the new frontier and early set goes through this *)
  assert (∀ f' early',
    (last_contiguous_processed_seq w ≤ f' ≤ u64_max)%N →
    (∀ x, (last_contiguous_processed_seq w < x ≤ f')%N → x = s ∨ x ∈ settled_out_of_order w) →
    (∀ x, x ∈ early' ↔ (x = s ∨ x ∈ settled_out_of_order w) ∧ (f' < x)%N) →
    (f' + 1)%N ∉ early' →
    let w' := mkWindow (<[id := Settled s ty o]> (seen_ids w)) (ids_by_seq w) (order w) f' early' in
    window_wf w' ∧ seen_ids w' = <[id := Settled s ty o]> (seen_ids w) ∧
    (last_contiguous_processed_seq w ≤ last_contiguous_processed_seq w')%N ∧
    ∀ x, settled_seq w' x ↔ settled_seq w x ∨ x = s) as Hgen.
  { intros f' early' Hf' Hup Hearly Hnext w'. split_and!; [split; cbn|done|cbn; lia|].
    - apply (ww_order_nodup _ Hwf).
    - intros i. rewrite lookup_insert_is_Some', (ww_order _ Hwf).
      split; [by right|]. intros [<-|?]; [|done]. eauto.
    - intros x i. rewrite (ww_seq _ Hwf). destruct (decide (i = id)) as [->|Hne].
      + rewrite lookup_insert_eq, Hid. naive_solver.
      + by rewrite lookup_insert_ne.
    - intros i x t Hi. apply lookup_insert_Some in Hi as [[_ [=]]|[Hne Hi]].
      pose proof (ww_flight _ Hwf _ _ _ Hi) as Hx. split; [|lia]. apply N.lt_nge. intros Hle.
      destruct (Hup x ltac:(lia)) as [->|(_ & j & t' & o' & Hj)%(ww_early _ Hwf)].
      + apply Hne. symmetry. by apply (Hinj i _ Hi).
      + assert (i = j) as ->; [|congruence].
        eapply (window_seq_inj w i j); [done|apply Hi|apply Hj|done|cbn; lia].
    - intros x. rewrite Hearly. split.
      + intros [[-> | Hx] Hlt].
        * split; [lia|]. exists id, ty, o. apply lookup_insert_eq.
        * apply (ww_early _ Hwf) in Hx as (? & i & t & o' & Hi). split; [lia|]. exists i, t, o'.
          rewrite lookup_insert_ne; [done|congruence].
      + intros (Hx & i & t & o' & [[<- [= -> -> ->]]|[Hne Hi]]%lookup_insert_Some); [split; [by left|lia]|].
        split; [|lia]. right. apply (ww_early _ Hwf). split; [lia|eauto].
    - intros i x t o' [[<- [= -> _ _]]|[_ Hi]]%lookup_insert_Some; [lia|by eapply (ww_settled _ Hwf)].
    - done.
    - lia.
    - intros x. unfold settled_seq. cbn. rewrite Hearly. split.
      + intros [Hx|[[-> | ?] _]]; [|by right|left; by right].
        destruct (decide (x ≤ last_contiguous_processed_seq w)%N) as [|]; [left; left; lia|].
        destruct (Hup x ltac:(lia)) as [->|?]; [by right|left; by right].
      + intros [[Hx|Hx]| ->]; [left; lia|..].
        * destruct (decide (x ≤ f')%N); [|right; split; [by right|lia]].
          apply (ww_early _ Hwf) in Hx as [? _]. left. lia.
        * destruct (decide (s ≤ f')%N); [left; lia|right; split; [by left|lia]]. }
  unfold w2, note_settled_sequence. cbn [last_contiguous_processed_seq seen_ids ids_by_seq order settled_out_of_order].
  rewrite (proj2 (N.eqb_neq _ _)), (proj2 (N.leb_gt _ _)) by lia. cbn [orb].
  unfold saturating_add64. destruct (N.eqb_spec s (N.min (last_contiguous_processed_seq w + 1) u64_max)) as [Heq|Hne].
  - destruct (advance_frontier_spec (S (size (settled_out_of_order w))) s (settled_out_of_order w))
      as (f' & early' & -> & Hle & Hall & Hin & Hnext); [lia|lia|].
    apply Hgen; [lia| | |].
    + intros x Hx. destruct (decide (x = s)) as [->|]; [by left|right]. apply Hall. lia.
    + intros x. rewrite Hin. split.
      * intros [Hx ?]. split; [by right|]. apply (ww_early _ Hwf) in Hx as Hx'. destruct Hx' as [? _].
        apply N.lt_nge. intros ?. assert (x ≠ s) by congruence. lia.
      * intros [[-> | Hx] ?]; [lia|]. split; [done|lia].
    + destruct (decide (f' < u64_max)%N) as [|]; [by apply Hnext|].
      rewrite Hin. intros [Hx _]. apply (ww_early _ Hwf) in Hx as [? _]. lia.
  - apply Hgen; [pose proof (ww_max _ Hwf); lia|lia| |].
    + intros x. rewrite elem_of_union, elem_of_singleton. split; [|tauto].
      intros Hx. split; [done|]. destruct Hx as [->|Hx%(ww_early _ Hwf)]; [lia|]. lia.
    + pose proof (ww_next _ Hwf) as Hn. rewrite not_elem_of_union, not_elem_of_singleton. split; [lia|done].
Qed.

Lemma settle_spec w id o w' n : window_wf w → settle w id o = (w', n) →
  window_wf w' ∧ n = last_contiguous_processed_seq w' ∧
  (last_contiguous_processed_seq w ≤ n)%N ∧
  match seen_ids w !! id with
  | Some (InFlight s ty) => seen_ids w' = <[id := Settled s ty o]> (seen_ids w) ∧
      ∀ x, settled_seq w' x ↔ settled_seq w x ∨ x = s
  | _ => w' = w
  end.
Proof.
  intros Hwf. unfold settle. destruct (seen_ids w !! id) as [[s ty|s ty o']|] eqn:Hid; [|by intros [= <- <-]..].
  intros [= <- <-]. destruct (settle_record_wf w id s ty o Hwf Hid) as (? & Hs & Hle & Hx).
  split_and!; [done|done|done|done|done].
Qed.

Lemma abandon_wf w id : window_wf w → window_wf (abandon w id).
Proof.
  intros Hwf. unfold abandon. destruct (seen_ids w !! id) as [[s ty|s ty o']|] eqn:Hid; [|done..].
  pose proof (ww_flight _ Hwf _ _ _ Hid) as Hs.
  split; cbn; try exact (ww_next _ Hwf); try exact (ww_max _ Hwf).
  - apply NoDup_retain_ne, (ww_order_nodup _ Hwf).
  - intros i. rewrite elem_of_retain_ne, lookup_delete_is_Some, (ww_order _ Hwf). naive_solver.
  - intros x i. rewrite lookup_delete_Some, (ww_seq _ Hwf). split.
    + intros (Hx & ? & r & Hi & Hr). split; [done|]. exists r. rewrite lookup_delete_ne; [done|].
      intros ->. rewrite Hid in Hi. injection Hi as <-. by apply Hx.
    + intros (? & r & [Hne Hi]%lookup_delete_Some & Hr). split; [|eauto]. intros <-. apply Hne.
      eapply (window_seq_inj w id i); [done|apply Hid|apply Hi|by rewrite Hr|cbn; lia].
  - intros i x t [_ Hi]%lookup_delete_Some. by eapply (ww_flight _ Hwf).
  - intros x. rewrite (ww_early _ Hwf). split.
    + intros (? & i & t & o & Hi). split; [done|]. exists i, t, o. rewrite lookup_delete_ne; [done|congruence].
    + intros (? & i & t & o & [_ Hi]%lookup_delete_Some). eauto 10.
  - intros i x t o [_ Hi]%lookup_delete_Some. by eapply (ww_settled _ Hwf).
Qed.

Lemma abandon_settled w id x : settled_seq (abandon w id) x ↔ settled_seq w x.
Proof. unfold abandon. by destruct (seen_ids w !! id) as [[]|]. Qed.

(** ** Runs of one window *)

(** What a session does with a client's window. *)
Inductive WindowOp :=
| WAdmit (id : Bytes) (seq : N) (ty : option (N * N))
| WSettle (id : Bytes) (outcome : EventOutcomeRecord)
| WAbandon (id : Bytes).

Definition window_step (max : N) (w : ClientDedupeWindow) (op : WindowOp) : ClientDedupeWindow :=
  match op with
  | WAdmit id seq ty => (window_admit w id seq ty max).1
  | WSettle id o => (settle w id o).1
  | WAbandon id => abandon w id
  end.

Lemma window_step_wf max w op : window_wf w → window_wf (window_step max w op).
Proof.
  intros Hwf. destruct op as [id seq ty|id o|id]; cbn.
  - destruct (window_admit w id seq ty max) as [w' r] eqn:Heq. by apply admit_spec in Heq as [? _].
  - destruct (settle w id o) as [w' n] eqn:Heq. by apply settle_spec in Heq as [? _].
  - by apply abandon_wf.
Qed.

Lemma window_step_settled max w op x : window_wf w →
  settled_seq w x → settled_seq (window_step max w op) x.
Proof.
  intros Hwf Hx. destruct op as [id seq ty|id o|id]; cbn.
  - destruct (window_admit w id seq ty max) as [w' r] eqn:Heq.
    apply admit_spec in Heq as (_ & _ & Hf & Ho & _); [|done]. unfold settled_seq in *. cbn. by rewrite Hf, Ho.
  - destruct (settle w id o) as [w' n] eqn:Heq. apply settle_spec in Heq as (_ & _ & _ & Hm); [|done]. cbn.
    destruct (seen_ids w !! id) as [[s ty|]|]; [|by rewrite Hm..]. destruct Hm as [_ Hm]. apply Hm. by left.
  - by rewrite abandon_settled.
Qed.

Lemma window_run_wf max w ops : window_wf w → window_wf (foldl (window_step max) w ops).
Proof. revert w. induction ops as [|op ops IH]; intros w Hwf; cbn; [done|]. by apply IH, window_step_wf. Qed.

Lemma window_run_settled max w ops x : window_wf w →
  settled_seq w x → settled_seq (foldl (window_step max) w ops) x.
Proof.
  revert w. induction ops as [|op ops IH]; intros w Hwf Hx; cbn; [done|].
  apply IH; [by apply window_step_wf|by apply window_step_settled].
Qed.

(** ** The table of receive windows

    The invariant of [EventDeduplicator], its bounds, and the two promises the
    session relies on whatever the other clients do in between: an event in
    flight is never forgotten, and a settled sequence number is never admitted
    again for as long as the table remembers the client at all. *)

Record frontiers_wf (max : N) (fs : gmap Bytes N) (fo : list Bytes) : Prop := {
  fw_nodup : NoDup fo;
  fw_order : ∀ c, c ∈ fo ↔ is_Some (fs !! c);
  fw_range : ∀ c f, fs !! c = Some f → (0 < f ≤ u64_max)%N;
  fw_count : (len fo ≤ max)%N;
}.

Record dedupe_wf (d : EventDeduplicator) : Prop := {
  dw_windows : ∀ c w, clients d !! c = Some w → window_wf w;
  dw_entries : ∀ c w, clients d !! c = Some w → (map_len (seen_ids w) ≤ max_entries_per_client d)%N;
  dw_nodup : NoDup (client_order d);
  dw_order : ∀ c, c ∈ client_order d ↔ is_Some (clients d !! c);
  dw_count : (map_len (clients d) ≤ max_client_windows d)%N;
  dw_frontiers : frontiers_wf (max_client_windows d) (evicted_frontiers d) (frontier_order d);
  dw_disjoint : ∀ c, is_Some (evicted_frontiers d !! c) → clients d !! c = None;
  dw_max : (1 ≤ max_client_windows d)%N;
}.

(** The table holds nothing of [c]. *)
Definition forgotten (d : EventDeduplicator) (c : Bytes) : Prop :=
  clients d !! c = None ∧ evicted_frontiers d !! c = None.

(** The table knows that [c] settled sequence number [s]. *)
Definition remembers (d : EventDeduplicator) (c : Bytes) (s : N) : Prop :=
  (∃ w, clients d !! c = Some w ∧ settled_seq w s) ∨
  ∃ f, clients d !! c = None ∧ evicted_frontiers d !! c = Some f ∧ (0 < s ≤ f)%N.

(** What housekeeping on behalf of other clients leaves of [c]. *)
Record kept (c : Bytes) (d d' : EventDeduplicator) : Prop := {
  kp_pinned : ∀ w, clients d !! c = Some w → is_pinned w = true → clients d' !! c = Some w;
  kp_window : ∀ w, clients d' !! c = Some w → clients d !! c = Some w;
  kp_settled : ∀ s, remembers d c s → remembers d' c s ∨ forgotten d' c;
  kp_forgotten : forgotten d c → forgotten d' c;
}.

#[export] Instance kept_preorder c : PreOrder (kept c).
Proof.
  split; [by split; auto|]. intros d1 d2 d3 [? ? Hs2 ?] [? ? Hs3 Hf3]. split; auto.
  intros s [?|?]%Hs2; [by apply Hs3|]. right. auto.
Qed.

Lemma kept_same c d d' : clients d' !! c = clients d !! c →
  evicted_frontiers d' !! c = evicted_frontiers d !! c → kept c d d'.
Proof.
  intros Hc Hf. split; unfold remembers, forgotten; rewrite ?Hc, ?Hf; auto.
Qed.

Lemma empty_wf max_entries max_windows : dedupe_wf (Dedupe_with_limits max_entries max_windows).
Proof.
  assert (∀ c : Bytes, c ∈ [] ↔ is_Some ((∅ : gmap Bytes N) !! c)) as He.
  { intros c. rewrite lookup_empty, elem_of_nil, is_Some_alt. done. }
  split; cbn; try done; [constructor| | |split|..]; try lia; try done.
  - intros c. rewrite lookup_empty, elem_of_nil, is_Some_alt. done.
  - unfold map_len. rewrite map_size_empty. lia.
  - constructor.
  - unfold len. cbn. lia.
Qed.

(** ** Housekeeping *)

Lemma touch_client_perm d c : client_order (touch_client d c) ≡ₚ client_order d.
Proof.
  unfold touch_client. destruct (list_find (eq c) (client_order d)) as [[i x]|] eqn:Hf; [|done].
  case_match; [done|]. cbn. apply list_find_Some in Hf as (Hi & _).
  rewrite (remove_at_perm _ _ _ Hi) at 2. by rewrite Permutation_app_comm.
Qed.

Lemma touch_client_frame d c :
  clients (touch_client d c) = clients d ∧ evicted_frontiers (touch_client d c) = evicted_frontiers d ∧
  frontier_order (touch_client d c) = frontier_order d ∧
  max_entries_per_client (touch_client d c) = max_entries_per_client d ∧
  max_client_windows (touch_client d c) = max_client_windows d.
Proof. unfold touch_client. by repeat case_match. Qed.

Lemma touch_client_wf d c : dedupe_wf d → dedupe_wf (touch_client d c).
Proof.
  intros []. pose proof (touch_client_perm d c) as Hp.
  destruct (touch_client_frame d c) as (Hc & Hf & Ho & He & Hm).
  split; rewrite ?Hc, ?Hf, ?Ho, ?He, ?Hm; try done; [by rewrite Hp|].
  intros c'. by rewrite Hp.
Qed.

Lemma trim_frontiers_spec fuel max fs fo fs' fo' :
  length fo ≤ fuel → NoDup fo → (∀ c, c ∈ fo ↔ is_Some (fs !! c)) →
  (∀ c f, fs !! c = Some f → (0 < f ≤ u64_max)%N) →
  trim_frontiers fuel max fs fo = (fs', fo') → frontiers_wf max fs' fo' ∧ fs' ⊆ fs.
Proof.
  revert fs fo. induction fuel as [|fuel IH]; intros fs fo Hlen Hnd Ho Hr; cbn.
  { intros [= <- <-]. destruct fo; [|cbn in Hlen; lia]. split; [|done]. split; [done..|]. unfold len; cbn; lia. }
  destruct (N.ltb_spec max (len fo)); [|intros [= <- <-]; by split; [split|]].
  destruct fo as [|oldest fo].
  { intros [= <- <-]. split; [|done]. split; [done..|]. unfold len in *; cbn in *; lia. }
  apply NoDup_cons in Hnd as [Hnin Hnd]. intros Ht.
  apply IH in Ht as [? Hsub]; [split; [done|] |cbn in Hlen; lia|done| |].
  - etrans; [done|apply delete_subseteq].
  - intros c. destruct (decide (c = oldest)) as [->|].
    + rewrite lookup_delete_eq, is_Some_alt. done.
    + rewrite lookup_delete_ne, <- Ho, elem_of_cons by done. naive_solver.
  - intros c f [_ ?]%lookup_delete_Some. by apply (Hr c).
Qed.

(** Remembering the frontier of a client without a window; [f] is [0] only for
    one that settled nothing. *)
Lemma retain_frontier_spec d c f : dedupe_wf d → clients d !! c = None → (f ≤ u64_max)%N →
  (f = 0%N → evicted_frontiers d !! c = None) →
  let d' := retain_frontier d c f in
  dedupe_wf d' ∧ clients d' = clients d ∧ client_order d' = client_order d ∧
  max_entries_per_client d' = max_entries_per_client d ∧ max_client_windows d' = max_client_windows d ∧
  (evicted_frontiers d' !! c = None ∨ evicted_frontiers d' !! c = Some f) ∧
  ∀ c', c' ≠ c → evicted_frontiers d' !! c' = None ∨ evicted_frontiers d' !! c' = evicted_frontiers d !! c'.
Proof.
  intros Hwf Hc Hf Hzero. unfold retain_frontier. destruct (N.eqb_spec f 0) as [->|Hne].
  { cbn. split_and!; auto. }
  set (fo := if bool_decide _ then _ else _).
  destruct (trim_frontiers (length fo) (max_client_windows d) (<[c:=f]> (evicted_frontiers d)) fo)
    as [fs' fo'] eqn:Ht. cbn. pose proof (dw_frontiers _ Hwf) as [Hnd Ho Hr Hcnt].
  apply trim_frontiers_spec in Ht as [Hfw Hsub]; [|done|..].
  - assert (∀ c' f', fs' !! c' = Some f' → <[c:=f]> (evicted_frontiers d) !! c' = Some f') as Hin.
    { intros c' f' ?. by eapply lookup_weaken. }
    split_and!; try done; [destruct Hwf; split; try done| |].
    + cbn. intros c' [f' Hf']. apply Hin in Hf'.
      apply lookup_insert_Some in Hf' as [[<- <-]|[? ?]]; eauto.
    + destruct (fs' !! c) as [f'|] eqn:Hf'; [|by left]. apply Hin in Hf'. rewrite lookup_insert_eq in Hf'.
      right. congruence.
    + intros c' Hne'. destruct (fs' !! c') as [f'|] eqn:Hf'; [|by left]. apply Hin in Hf'.
      rewrite lookup_insert_ne in Hf' by done. right. congruence.
  - subst fo. case_bool_decide as Hb; [done|]. apply NoDup_app. split_and!; [done| |apply NoDup_singleton].
    intros x Hx ->%list_elem_of_singleton. apply Hb. by apply Ho.
  - intros c'. subst fo. destruct (decide (c' = c)) as [->|].
    + rewrite lookup_insert_eq. split; [done|]. intros _. case_bool_decide; [by apply Ho|set_solver].
    + rewrite lookup_insert_ne, <- (Ho c') by done. case_bool_decide; [done|]. set_solver.
  - intros c' f' [[<- <-]|[_ ?]]%lookup_insert_Some; [lia|]. by apply (Hr c').
Qed.

Lemma is_pinned_false w : is_pinned w = false →
  (∀ id s ty, seen_ids w !! id ≠ Some (InFlight s ty)) ∧ settled_out_of_order w = ∅.
Proof.
  unfold is_pinned, has_in_flight. rewrite orb_false_iff, bool_decide_eq_false.
  intros [Hex Hs]. split; [|by apply dec_stable].
  intros id s ty Hid. apply Bool.not_true_iff_false in Hex. apply Hex, existsb_exists.
  exists (id, InFlight s ty). split; [|done]. apply list_elem_of_In. by apply elem_of_map_to_list.
Qed.

Lemma in_flight_pinned w id s ty : seen_ids w !! id = Some (InFlight s ty) → is_pinned w = true.
Proof.
  intros Hid. destruct (is_pinned w) eqn:Hp; [done|]. apply is_pinned_false in Hp as [Hp _]. by apply Hp in Hid.
Qed.

(** Evicting one window for its frontier. *)
Definition evict_window (d : EventDeduplicator) (i : nat) (c : Bytes) (w : ClientDedupeWindow) : EventDeduplicator :=
  retain_frontier (with_clients d (delete c (clients d)) (remove_at i (client_order d))) c
    (last_contiguous_processed_seq w).

Lemma evict_window_spec d i c w : dedupe_wf d → client_order d !! i = Some c →
  clients d !! c = Some w → is_pinned w = false →
  let d' := evict_window d i c w in
  dedupe_wf d' ∧ clients d' = delete c (clients d) ∧
  max_entries_per_client d' = max_entries_per_client d ∧ max_client_windows d' = max_client_windows d ∧
  ∀ c', kept c' d d'.
Proof.
  intros Hwf Hi Hw Hpin. set (d1 := with_clients d (delete c (clients d)) (remove_at i (client_order d))).
  pose proof (remove_at_perm _ _ _ Hi) as Hperm.
  assert (∀ c', c' ∈ client_order d ↔ c' = c ∨ c' ∈ remove_at i (client_order d)) as Hmem.
  { clear d1. revert Hperm. generalize (remove_at i (client_order d)). intros l Hl c'. by rewrite Hl, elem_of_cons. }
  assert (evicted_frontiers d !! c = None) as Hec.
  { apply eq_None_not_Some. intros Hs%(dw_disjoint _ Hwf). congruence. }
  assert (dedupe_wf d1) as Hwf1.
  { pose proof (dw_nodup _ Hwf) as Hnd. rewrite Hperm in Hnd. apply NoDup_cons in Hnd as [Hnin Hnd].
    split; cbn; try apply Hwf; [..|].
    - intros c' w' [_ ?]%lookup_delete_Some. by eapply dw_windows.
    - intros c' w' [_ ?]%lookup_delete_Some. by eapply dw_entries.
    - done.
    - intros c'. destruct (decide (c' = c)) as [->|].
      + rewrite lookup_delete_eq, is_Some_alt. done.
      + rewrite lookup_delete_ne, <- (dw_order _ Hwf), Hmem by done. naive_solver.
    - pose proof (dw_count _ Hwf). unfold map_len in *. rewrite map_size_delete, Hw. cbn. lia.
    - intros c' Hc'%(dw_disjoint _ Hwf). rewrite lookup_delete_None. by right. }
  pose proof (dw_windows _ Hwf _ _ Hw) as Hww.
  destruct (retain_frontier_spec d1 c (last_contiguous_processed_seq w) Hwf1) as (Hwf' & Hc' & _ & He' & Hm' & Hf & Hfo);
    [apply lookup_delete_eq|apply (ww_max _ Hww)|done|].
  subst d1. fold (evict_window d i c w) in *. split_and!; [done|by rewrite Hc'|done..|].
  intros c'. destruct (decide (c' = c)) as [->|Hne].
  - split.
    + intros w' Hw' Hp'. congruence.
    + intros w'. by rewrite Hc'; cbn; rewrite lookup_delete_eq.
    + intros s [(w' & Hw' & Hs)|(f & ? & _)]; [|congruence]. rewrite Hw in Hw'. injection Hw' as <-.
      apply is_pinned_false in Hpin as [_ Hemp]. unfold settled_seq in Hs. rewrite Hemp in Hs.
      destruct Hf as [Hf|Hf].
      * right. split; [by rewrite Hc'; cbn; rewrite lookup_delete_eq|done].
      * left. right. exists (last_contiguous_processed_seq w).
        split_and!; [by rewrite Hc'; cbn; rewrite lookup_delete_eq|done|set_solver..].
    + intros [? _]. congruence.
  - assert (clients (evict_window d i c w) !! c' = clients d !! c') as Hcl.
    { rewrite Hc'. cbn. by apply lookup_delete_ne. }
    destruct (Hfo c' Hne) as [Hf'|Hf']; [|by apply kept_same].
    split.
    + intros w'. by rewrite Hcl.
    + intros w'. by rewrite Hcl.
    + intros s [(w' & Hw' & ?)|(f & Hn & _)]; [left; left; exists w'; by rewrite Hcl|].
      right. split; [by rewrite Hcl|done].
    + intros [? _]. split; [by rewrite Hcl|done].
Qed.

Lemma make_room_clients_spec fuel d d' r : dedupe_wf d → size (clients d) < fuel →
  make_room_clients fuel d = (d', r) →
  dedupe_wf d' ∧ returns r ∧
  max_entries_per_client d' = max_entries_per_client d ∧ max_client_windows d' = max_client_windows d ∧
  (∀ c, kept c d d') ∧ (is_ok r = true → (map_len (clients d') < max_client_windows d)%N).
Proof.
  revert d. induction fuel as [|fuel IH]; intros d Hwf Hf; [lia|]. cbn [make_room_clients].
  destruct (N.leb_spec (max_client_windows d) (map_len (clients d))) as [Hfull|Hroom].
  2: { intros [= <- <-]. split_and!; done. }
  destruct (list_find (unpinned d) (client_order d)) as [[i c]|] eqn:Hfind.
  2: { intros [= <- <-]. split_and!; done. }
  apply list_find_Some in Hfind as (Hi & Hun & _). unfold unpinned in Hun.
  destruct (clients d !! c) as [w|] eqn:Hw; [|done].
  destruct (evict_window_spec d i c w Hwf Hi Hw Hun) as (Hwf1 & Hc1 & He1 & Hm1 & Hk1).
  fold (evict_window d i c w). intros Heq. apply IH in Heq as (Hwf' & Hr & He & Hm & Hk & Hok); [|done|].
  - split_and!; try done; try congruence.
    + intros c'. etrans; [apply Hk1|apply Hk].
    + intros Ho%Hok. by rewrite Hm1 in Ho.
  - rewrite Hc1; cbn; rewrite map_size_delete, Hw. cbn. enough (size (clients d) ≠ 0) by lia.
    rewrite map_size_ne_0_lookup. by exists c; rewrite Hw.
Qed.

(** ** The operations *)

(** [c] owns the in-flight identifier [id]. *)
Definition in_flight (d : EventDeduplicator) (c id : Bytes) (s : N) (ty : option (N * N)) : Prop :=
  ∃ w, clients d !! c = Some w ∧ seen_ids w !! id = Some (InFlight s ty).

Lemma kept_in_flight c d d' id s ty : kept c d d' → in_flight d c id s ty → in_flight d' c id s ty.
Proof. intros Hk (w & Hw & Hid). exists w. split; [|done]. apply Hk; [done|]. by eapply in_flight_pinned. Qed.

Lemma put_client_wf d c w w0 : dedupe_wf d → clients d !! c = Some w0 → window_wf w →
  (map_len (seen_ids w) ≤ max_entries_per_client d)%N → dedupe_wf (put_client d c w).
Proof.
  intros Hwf Hc Hw Hn. split; cbn; try apply Hwf.
  - intros c' w' [[<- <-]|[_ ?]]%lookup_insert_Some; [done|by eapply dw_windows].
  - intros c' w' [[<- <-]|[_ ?]]%lookup_insert_Some; [done|by eapply dw_entries].
  - intros c'. rewrite (dw_order _ Hwf), lookup_insert_is_Some. destruct (decide (c = c')) as [<-|]; naive_solver.
  - pose proof (dw_count _ Hwf). unfold map_len in *. rewrite map_size_insert, Hc. cbn. lia.
  - intros c' He%(dw_disjoint _ Hwf). rewrite lookup_insert_ne; [done|]. congruence.
Qed.

Lemma add_client_wf d c w : dedupe_wf d → clients d !! c = None → evicted_frontiers d !! c = None →
  (map_len (clients d) < max_client_windows d)%N → window_wf w →
  (map_len (seen_ids w) ≤ max_entries_per_client d)%N → dedupe_wf (add_client d c w).
Proof.
  intros Hwf Hc He Hroom Hw Hn. split; cbn; try apply Hwf.
  - intros c' w' [[<- <-]|[_ ?]]%lookup_insert_Some; [done|by eapply dw_windows].
  - intros c' w' [[<- <-]|[_ ?]]%lookup_insert_Some; [done|by eapply dw_entries].
  - apply NoDup_app. split_and!; [apply Hwf| |apply NoDup_singleton].
    intros x Hx ->%list_elem_of_singleton. apply (dw_order _ Hwf) in Hx. rewrite Hc in Hx. by destruct Hx.
  - intros c'. rewrite elem_of_app, list_elem_of_singleton, (dw_order _ Hwf), lookup_insert_is_Some.
    destruct (decide (c = c')); naive_solver.
  - unfold map_len in *. rewrite map_size_insert_None by done. lia.
  - intros c' Hc'. rewrite lookup_insert_ne; [by apply (dw_disjoint _ Hwf)|]. intros <-.
    rewrite He in Hc'. by destruct Hc'.
Qed.

Lemma kept_other_put c c' d w : c' ≠ c → kept c' d (put_client d c w).
Proof. intros. apply kept_same; [|done]. cbn. by apply lookup_insert_ne. Qed.
Lemma kept_other_add c c' d w : c' ≠ c → kept c' d (add_client d c w).
Proof. intros. apply kept_same; [|done]. cbn. by apply lookup_insert_ne. Qed.
Lemma kept_touch c c' d : kept c' d (touch_client d c).
Proof. destruct (touch_client_frame d c) as (Hc & He & _). by apply kept_same; rewrite ?Hc, ?He. Qed.

(** What one call leaves: the invariant, every other client, what this client
    has in flight and what it settled. *)
Record evolves (c : Bytes) (d d' : EventDeduplicator) : Prop := {
  ev_wf : dedupe_wf d';
  ev_others : ∀ c', c' ≠ c → kept c' d d';
  ev_settled : ∀ s, remembers d c s → remembers d' c s ∨ forgotten d' c;
}.

Lemma evolves_refl c d : dedupe_wf d → evolves c d d.
Proof. intros. split; [done|intros; reflexivity|auto]. Qed.

Lemma window_for_new_client_spec d c d1 w : dedupe_wf d → clients d !! c = None →
  window_for_new_client d c = (d1, w) →
  dedupe_wf d1 ∧ clients d1 = clients d ∧ evicted_frontiers d1 !! c = None ∧
  (∀ c', c' ≠ c → kept c' d d1) ∧ window_wf w ∧ seen_ids w = ∅ ∧ settled_out_of_order w = ∅ ∧
  max_entries_per_client d1 = max_entries_per_client d ∧ max_client_windows d1 = max_client_windows d ∧
  (∀ s, remembers d c s ↔ settled_seq w s).
Proof.
  intros Hwf Hc. unfold window_for_new_client.
  assert (∀ f s, settled_seq (window_at f) s ↔ (0 < s ≤ f)%N) as Hset.
  { intros f s. unfold settled_seq. cbn. set_solver. }
  destruct (evicted_frontiers d !! c) as [f|] eqn:He; intros [= <- <-].
  - pose proof (fw_range _ _ _ (dw_frontiers _ Hwf) _ _ He) as Hf.
    split_and!; try done; [|apply lookup_delete_eq| |by apply window_at_wf; lia|].
    + destruct Hwf as [? ? ? ? ? [Hnd Ho Hr Hn] Hdis ?]. split; cbn; try done.
      * split; [by apply NoDup_retain_ne| | |].
        -- intros c'. rewrite elem_of_retain_ne, Ho, lookup_delete_is_Some. naive_solver.
        -- intros c' f' [_ ?]%lookup_delete_Some. eauto.
        -- etrans; [|exact Hn]. unfold len, retain_ne. pose proof (length_filter (λ x, x ≠ c) (frontier_order d)). lia.
      * intros c' [_ ?]%lookup_delete_is_Some. auto.
    + intros c' Hne. apply kept_same; [done|]. cbn. by apply lookup_delete_ne.
    + intros s. rewrite Hset. unfold remembers. rewrite He, Hc. naive_solver.
  - split_and!; try done; [by apply window_at_wf|].
    intros s. unfold Window_new. rewrite Hset. unfold remembers. rewrite He, Hc.
    split; [naive_solver|lia].
Qed.

(** Admission: always answered; a fresh one is of a number never settled and is
    then in flight, the other answers are of what the table knew. *)
Lemma admit_event_spec d k d' r : dedupe_wf d → admit_event d k = (d', r) →
  let c := ek_client k in
  evolves c d d' ∧ returns r ∧
  (∀ id s ty, in_flight d c id s ty → in_flight d' c id s ty) ∧
  match r with
  | Ok (Fresh _) => ¬ remembers d c (ek_seq k) ∧ in_flight d' c (ek_id k) (ek_seq k) (ek_type k) ∧ ek_id k ≠ []
  | Ok (Pending n) => in_flight d c (ek_id k) (ek_seq k) (ek_type k) ∧ n = last_contiguous_of d c
  | Ok (Duplicate o n) => settled_outcome d c (ek_id k) = Some o ∧ n = last_contiguous_of d c
  | _ => True
  end.
Proof.
  intros Hwf. unfold admit_event. destruct k as [c id s ty]; cbn [ek_client ek_id ek_seq ek_type].
  case_bool_decide as Hnil. { intros [= <- <-]. split; [by apply evolves_refl|]. split; [done|]. auto. }
  destruct (clients d !! c) as [w|] eqn:Hw.
  - destruct (window_admit w id s ty (max_entries_per_client d)) as [w' o] eqn:Ha. intros [= <- <-].
    pose proof (dw_windows _ Hwf _ _ Hw) as Hww. pose proof (dw_entries _ Hwf _ _ Hw) as Hent.
    pose proof (λ i q, admit_keeps _ _ _ _ _ _ _ i q Hww Ha) as Hkeep.
    apply admit_spec in Ha as (Hw' & Hr & Hf & He & Hm); [|done].
    destruct (touch_client_frame d c) as (Htc & Hte & _ & Hmax & _).
    assert (∀ x, settled_seq w' x ↔ settled_seq w x) as Hset by (intros x; unfold settled_seq; by rewrite Hf, He).
    assert (last_contiguous_of d c = last_contiguous_processed_seq w) as Hlast by (unfold last_contiguous_of; by rewrite Hw).
    split_and!.
    + split.
      * eapply put_client_wf; [by apply touch_client_wf|by rewrite Htc|done|rewrite Hmax].
        destruct o as [[]|e| |]; [by apply Hm|by destruct Hm as [-> _]..| | |];
          (etrans; [|exact Hent]; unfold map_len; apply map_subseteq_size in Hm; lia).
      * intros c' Hne. etrans; [apply kept_touch|by apply kept_other_put].
      * intros x [(w0 & Hw0 & Hx)|(f & ? & _)]; [|congruence]. left. left. exists w'. cbn.
        rewrite lookup_insert_eq. split; [done|]. apply Hset. congruence.
    + done.
    + intros i x t (w0 & Hw0 & Hi). exists w'. cbn. rewrite lookup_insert_eq. split; [done|].
      apply Hkeep; [congruence|done].
    + destruct o as [[n|n|o n]|e| |]; try done.
      * destruct Hm as (_ & Hns & _ & _ & Hin & _). split_and!; [|exists w'; cbn; by rewrite lookup_insert_eq|done].
        intros [(w0 & Hw0 & Hx)|(f & ? & _)]; [|congruence]. apply Hns. congruence.
      * destruct Hm as (_ & -> & Hin). split; [by exists w|done].
      * destruct Hm as (_ & -> & ty' & Hin). split; [|done]. unfold settled_outcome. rewrite Hw. cbn. by rewrite Hin.
  - destruct (window_for_new_client d c) as [d1 w] eqn:Hn.
    apply window_for_new_client_spec in Hn
      as (Hwf1 & Hc1 & He1 & Hk1 & Hww & Hemp & Hearly & Hmax1 & Hcw1 & Hrem); [|done..].
    destruct (window_admit w id s ty (max_entries_per_client d)) as [w' o] eqn:Ha.
    apply admit_spec in Ha as (Hw' & Hr & Hf & He & Hm); [|done].
    assert (∀ i x t, ¬ in_flight d c i x t) as Hnone by (intros i x t (w0 & Hw0 & _); congruence).
    assert (∀ d2, dedupe_wf d2 → clients d2 !! c = None → evicted_frontiers d2 !! c = None →
      (∀ c', c' ≠ c → kept c' d d2) → evolves c d (retain_frontier d2 c (last_contiguous_processed_seq w))) as Hback.
    { intros d2 Hwf2 Hc2 He2 Hk2.
      destruct (retain_frontier_spec d2 c (last_contiguous_processed_seq w) Hwf2) as (Hwf3 & Hc3 & _ & _ & _ & Hf3 & Ho3);
        [done|apply (ww_max _ Hww)|done|].
      set (d3 := retain_frontier d2 c _) in *. split; [done| |].
      - intros c' Hne. etrans; [by apply Hk2|].
        destruct (Ho3 c' Hne) as [Hn3|Hn3]; [|apply kept_same; [by rewrite Hc3|done]].
        split; rewrite ?Hc3; auto; unfold remembers, forgotten; rewrite ?Hc3, ?Hn3; [|naive_solver].
        intros x [?|(f & ? & _)]; [by left; left|by right].
      - intros x Hx%Hrem. unfold settled_seq in Hx. rewrite Hearly in Hx.
        destruct Hf3 as [Hf3|Hf3]; [right; split; [by rewrite Hc3|done]|].
        left. right. exists (last_contiguous_processed_seq w). split_and!; [by rewrite Hc3|done|set_solver..]. }
    destruct o as [out|e| |]; [|(intros [= <- <-]; split_and!; [apply Hback; [done|by rewrite Hc1|done..]|done|by intros ? ? ? ?%Hnone|done])|destruct Hr..].
    destruct (make_room_for_new_client d1) as [d2 r2] eqn:Hmk.
    apply make_room_clients_spec in Hmk as (Hwf2 & Hr2 & Hmax2 & Hcw2 & Hk2 & Hok2); [|done|lia].
    assert (forgotten d1 c) as [Hc2 He2]%(kp_forgotten _ _ _ (Hk2 c)) by (split; [by rewrite Hc1|done]).
    assert (∀ c', c' ≠ c → kept c' d d2) as Hk12 by (intros; etrans; [by apply Hk1|apply Hk2]).
    destruct r2 as [[]|e| |]; [|(intros [= <- <-]; split_and!; [by apply Hback|done|by intros ? ? ? ?%Hnone|done])|destruct Hr2..].
    intros [= <- <-]. specialize (Hok2 eq_refl).
    destruct out as [n|n|out n].
    2: { destruct Hm as (_ & _ & Hm). by rewrite Hemp in Hm. }
    2: { destruct Hm as (_ & _ & ty' & Hm). by rewrite Hemp in Hm. }
    destruct Hm as (_ & Hns & _ & _ & Hin & Hlen & _). split_and!; try done.
    + split.
      * apply add_client_wf; [done..|by rewrite Hcw2|done|]. by rewrite Hmax2, Hmax1.
      * intros c' Hne. etrans; [by apply Hk12|by apply kept_other_add].
      * intros x Hx%Hrem. left. left. exists w'. cbn. rewrite lookup_insert_eq. split; [done|].
        unfold settled_seq in *. by rewrite Hf, He.
    + by intros ? ? ? ?%Hnone.
    + by intros ?%Hrem.
    + exists w'. cbn. by rewrite lookup_insert_eq.
Qed.

(** Settling: the event's outcome is cached, its number settled. *)
Lemma settle_event_spec d k o d' n : dedupe_wf d → settle_event d k o = (d', n) →
  let c := ek_client k in
  evolves c d d' ∧
  (∀ id s ty, id ≠ ek_id k → in_flight d c id s ty → in_flight d' c id s ty) ∧
  (∀ s ty, in_flight d c (ek_id k) s ty → ek_id k ≠ [] →
     settled_outcome d' c (ek_id k) = Some o ∧ remembers d' c s ∧ n = last_contiguous_of d' c).
Proof.
  intros Hwf. unfold settle_event. destruct k as [c id sq ty0]; cbn [ek_client ek_id ek_seq ek_type].
  case_bool_decide as Hnil. { intros [= <- <-]. split; [by apply evolves_refl|]. split; [auto|done]. }
  destruct (touch_client_frame d c) as (Htc & Hte & _ & Hmax & _). rewrite Htc.
  destruct (clients d !! c) as [w|] eqn:Hw.
  2: { intros [= <- <-]. split; [|split].
       - split; [by apply touch_client_wf|intros; apply kept_touch|].
         intros s [?|?]; [left; left|left; right]; by rewrite Htc, ?Hte.
       - intros i s t _ (w & Hw' & _). congruence.
       - intros s t (w & Hw' & _). congruence. }
  destruct (settle w id o) as [w' n'] eqn:Hs. intros [= <- <-].
  pose proof (dw_windows _ Hwf _ _ Hw) as Hww. pose proof (dw_entries _ Hwf _ _ Hw) as Hent.
  apply settle_spec in Hs as (Hw' & -> & Hle & Hm); [|done].
  assert ((map_len (seen_ids w') ≤ max_entries_per_client d)%N ∧
    (∀ x, settled_seq w x → settled_seq w' x) ∧ ∀ i q, i ≠ id → seen_ids w !! i = Some q → seen_ids w' !! i = Some q)
    as (Hent' & Hmon & Hoth).
  { destruct (seen_ids w !! id) as [[s t|]|] eqn:Hid; [|by subst..]. destruct Hm as [Hs Hset]. split_and!.
    - rewrite Hs. unfold map_len in *. rewrite map_size_insert, Hid. done.
    - intros x Hx. apply Hset. by left.
    - intros i q Hne Hi. by rewrite Hs, lookup_insert_ne. }
  split_and!.
  - split.
    + eapply put_client_wf; [by apply touch_client_wf|by rewrite Htc|done|by rewrite Hmax].
    + intros c' Hne. etrans; [apply kept_touch|by apply kept_other_put].
    + intros x [(w0 & Hw0 & Hx)|(f & ? & _)]; [|congruence]. left. left. exists w'. cbn.
      rewrite lookup_insert_eq. split; [done|]. apply Hmon. congruence.
  - intros i s t Hne (w0 & Hw0 & Hi). exists w'. cbn. rewrite lookup_insert_eq. split; [done|].
    apply Hoth; [done|congruence].
  - intros s t (w0 & Hw0 & Hi) _. assert (w0 = w) as -> by congruence. rewrite Hi in Hm. destruct Hm as [Hseen Hset].
    split_and!.
    + unfold settled_outcome. cbn. rewrite lookup_insert_eq. cbn. by rewrite Hseen, lookup_insert_eq.
    + left. exists w'. cbn. rewrite lookup_insert_eq. split; [done|]. apply Hset. by right.
    + unfold last_contiguous_of. cbn. by rewrite lookup_insert_eq.
Qed.

(** Abandoning: the admission is undone, nothing is settled. *)
Lemma abandon_event_spec d k : dedupe_wf d →
  let c := ek_client k in let d' := abandon_event d k in
  evolves c d d' ∧ (∀ id s ty, id ≠ ek_id k → in_flight d c id s ty → in_flight d' c id s ty).
Proof.
  intros Hwf. unfold abandon_event. destruct k as [c id sq ty0]; cbn [ek_client ek_id ek_seq ek_type].
  case_bool_decide as Hnil; [by split; [apply evolves_refl|auto]|].
  destruct (clients d !! c) as [w|] eqn:Hw; [|by split; [apply evolves_refl|auto]].
  pose proof (dw_windows _ Hwf _ _ Hw) as Hww. pose proof (dw_entries _ Hwf _ _ Hw) as Hent. split.
  - split.
    + eapply put_client_wf; [done..|by apply abandon_wf|]. etrans; [|exact Hent]. unfold abandon.
      destruct (seen_ids w !! id) as [[]|]; [|done..]. cbn. unfold map_len.
      pose proof (map_subseteq_size _ _ (delete_subseteq (seen_ids w) id)). lia.
    + intros c' Hne. by apply kept_other_put.
    + intros x [(w0 & Hw0 & Hx)|(f & ? & _)]; [|congruence]. left. left. eexists. cbn.
      rewrite lookup_insert_eq. split; [done|]. apply abandon_settled. congruence.
  - intros i s t Hne (w0 & Hw0 & Hi). eexists. cbn. rewrite lookup_insert_eq. split; [done|].
    assert (w0 = w) as -> by congruence. unfold abandon. destruct (seen_ids w !! id) as [[]|]; [|done..].
    cbn. by rewrite lookup_delete_ne.
Qed.

(** ** One critical section of the session *)

Inductive dedupe_effect (d : EventDeduplicator) : EventDeduplicator → Prop :=
| eff_none : dedupe_effect d d
| eff_settle k o : dedupe_effect d (settle_event d k o).1
| eff_abandon k : dedupe_effect d (abandon_event d k)
| eff_admit k : dedupe_effect d (admit_event d k).1
| eff_admit_settle k k' o : dedupe_effect d (settle_event (admit_event d k).1 k' o).1.

Lemma admit_event_evolves d k : dedupe_wf d → evolves (ek_client k) d (admit_event d k).1.
Proof. intros Hwf. destruct (admit_event d k) eqn:Heq. by apply admit_event_spec in Heq as [? _]. Qed.
Lemma settle_event_evolves d k o : dedupe_wf d → evolves (ek_client k) d (settle_event d k o).1.
Proof. intros Hwf. destruct (settle_event d k o) eqn:Heq. by apply settle_event_spec in Heq as [? _]. Qed.
Lemma abandon_event_evolves d k : dedupe_wf d → evolves (ek_client k) d (abandon_event d k).
Proof. intros Hwf. by destruct (abandon_event_spec d k Hwf). Qed.

Lemma evolves_remembers c0 d d' c s : evolves c0 d d' → remembers d c s → remembers d' c s ∨ forgotten d' c.
Proof.
  intros [_ Ho Hs] Hr. destruct (decide (c = c0)) as [->|Hne]; [by apply Hs|]. by apply (kp_settled _ _ _ (Ho c Hne)).
Qed.

Lemma settle_event_forgotten d k o c : dedupe_wf d → forgotten d c → forgotten (settle_event d k o).1 c.
Proof.
  intros Hwf [Hc He]. destruct (decide (c = ek_client k)) as [->|Hne].
  - unfold settle_event. case_bool_decide; [by split|].
    destruct (touch_client_frame d (ek_client k)) as (Htc & Hte & _). rewrite Htc, Hc. unfold forgotten. cbn. by rewrite Htc, Hte.
  - by apply (kp_forgotten _ _ _ (ev_others _ _ _ (settle_event_evolves d k o Hwf) c Hne)).
Qed.

Lemma dedupe_effect_wf d d' : dedupe_wf d → dedupe_effect d d' → dedupe_wf d'.
Proof.
  intros Hwf He. destruct He as [|k o|k|k|k k' o]; [done|..].
  - apply (ev_wf _ _ _ (settle_event_evolves d k o Hwf)).
  - apply (ev_wf _ _ _ (abandon_event_evolves d k Hwf)).
  - apply (ev_wf _ _ _ (admit_event_evolves d k Hwf)).
  - apply (ev_wf _ _ _ (settle_event_evolves _ k' o (ev_wf _ _ _ (admit_event_evolves d k Hwf)))).
Qed.

Lemma dedupe_effect_remembers d d' c s : dedupe_wf d → dedupe_effect d d' →
  remembers d c s → remembers d' c s ∨ forgotten d' c.
Proof.
  intros Hwf [|k o|k|k|k k' o] Hr; [auto|..].
  - by eapply evolves_remembers; [apply settle_event_evolves|].
  - by eapply evolves_remembers; [apply abandon_event_evolves|].
  - by eapply evolves_remembers; [apply admit_event_evolves|].
  - pose proof (admit_event_evolves d k Hwf) as Hev. pose proof (ev_wf _ _ _ Hev) as Hwf1.
    apply (evolves_remembers _ _ _ _ _ Hev) in Hr as [Hr|Hf].
    + by eapply evolves_remembers; [apply settle_event_evolves|].
    + right. by apply settle_event_forgotten.
Qed.

(** The client an admission is about keeps its in-flight events; only settling
    or abandoning takes one out. *)
Lemma evolves_in_flight c0 d d' c id s ty : evolves c0 d d' →
  (c = c0 → in_flight d c id s ty → in_flight d' c id s ty) →
  in_flight d c id s ty → in_flight d' c id s ty.
Proof.
  intros [_ Ho _] Hown Hin. destruct (decide (c = c0)) as [->|Hne]; [by apply Hown|]. by eapply kept_in_flight; [apply Ho|].
Qed.
Lemma admit_event_in_flight d k c id s ty : dedupe_wf d →
  in_flight d c id s ty → in_flight (admit_event d k).1 c id s ty.
Proof.
  intros Hwf. apply (evolves_in_flight (ek_client k)); [by apply admit_event_evolves|]. intros ->.
  destruct (admit_event d k) eqn:Heq. apply admit_event_spec in Heq as (_ & _ & Hk & _); [|done]. apply Hk.
Qed.
Lemma settle_event_in_flight d k o c id s ty : dedupe_wf d → (c, id) ≠ (ek_client k, ek_id k) →
  in_flight d c id s ty → in_flight (settle_event d k o).1 c id s ty.
Proof.
  intros Hwf Hne. apply (evolves_in_flight (ek_client k)); [by apply settle_event_evolves|]. intros ->.
  destruct (settle_event d k o) eqn:Heq. apply settle_event_spec in Heq as (_ & Hk & _); [|done]. apply Hk. congruence.
Qed.
Lemma abandon_event_in_flight d k c id s ty : dedupe_wf d → (c, id) ≠ (ek_client k, ek_id k) →
  in_flight d c id s ty → in_flight (abandon_event d k) c id s ty.
Proof.
  intros Hwf Hne. apply (evolves_in_flight (ek_client k)); [by apply abandon_event_evolves|]. intros ->.
  destruct (abandon_event_spec d k Hwf) as [_ Hk]. apply Hk. congruence.
Qed.

(** An event in flight is answered [Pending], a settled one with its outcome. *)
Lemma admit_event_pending d k : dedupe_wf d → ek_id k ≠ [] →
  in_flight d (ek_client k) (ek_id k) (ek_seq k) (ek_type k) →
  (admit_event d k).2 = Ok (Pending (last_contiguous_of d (ek_client k))).
Proof.
  intros Hwf Hne (w & Hw & Hin). unfold admit_event, last_contiguous_of.
  rewrite bool_decide_eq_false_2, Hw by done. unfold window_admit. rewrite Hin. cbn.
  unfold admit_known. cbn. rewrite N.eqb_refl. cbn. by rewrite bool_decide_eq_false_2 by auto.
Qed.
(** A fresh event's id was not in flight before. *)
Lemma admit_event_fresh d k d' n q ty : dedupe_wf d → admit_event d k = (d', Ok (Fresh n)) →
  ¬ in_flight d (ek_client k) (ek_id k) q ty.
Proof.
  intros Hwf Heq (w & Hw & Hin). unfold admit_event in Heq. case_bool_decide; [done|].
  rewrite Hw in Heq. unfold window_admit in Heq. rewrite Hin in Heq. cbn in Heq. unfold admit_known in Heq. cbn in Heq.
  destruct (_ =? _)%N; [|done]. cbn in Heq. by destruct (_ && _).
Qed.

Lemma settled_then_duplicate d k o ty : dedupe_wf d → ek_id k ≠ [] → ek_type k = ty →
  in_flight d (ek_client k) (ek_id k) (ek_seq k) ty →
  let d' := (settle_event d k o).1 in
  admit_event d' k = (touch_client d' (ek_client k),
    Ok (Duplicate o (last_contiguous_of d' (ek_client k)))).
Proof.
  intros Hwf Hne Hty (w & Hw & Hin) d'. subst d' ty.
  unfold settle_event. rewrite bool_decide_eq_false_2 by done.
  destruct (touch_client_frame d (ek_client k)) as (Htc & _). rewrite Htc, Hw.
  destruct (settle w (ek_id k) o) as [w' n] eqn:Hs. cbn [fst].
  pose proof (dw_windows _ Hwf _ _ Hw) as Hww.
  apply settle_spec in Hs as (_ & _ & _ & Hm); [|done]. rewrite Hin in Hm. destruct Hm as [Hseen _].
  unfold admit_event, last_contiguous_of. rewrite bool_decide_eq_false_2 by done. cbn [clients put_client with_clients].
  rewrite lookup_insert_eq. unfold window_admit. rewrite Hseen, lookup_insert_eq. cbn.
  unfold admit_known. cbn. rewrite N.eqb_refl. cbn. rewrite bool_decide_eq_false_2 by auto. cbn. f_equal.
  unfold put_client. destruct (touch_client_frame (put_client (touch_client d (ek_client k)) (ek_client k) w') (ek_client k)) as (Hc & _).
  unfold put_client in Hc. cbn in *. rewrite Hc. rewrite insert_insert_eq.
  unfold touch_client. by repeat case_match.
Qed.
