(* ===== verification/Event.v ===== *)
(** * Client events

    Models [semantic-tree/src/event.rs] and the event conversion of
    [src/wire.rs]: the domain event, the checks the server makes of it against
    the store, and its wire message. *)

From S2P Require Import Prelude.
From S2P Require Import Values.
From S2P Require Import Limits.
From S2P Require Import Models.
From S2P Require Import Store.
From S2P Require Import Transaction.
From S2P Require Import Wire.
From S2P Require Import Dedupe.

Definition MAX_EVENT_ID_BYTES : N := 64.

(** [EventId::try_new] *)
Definition EventId_try_new (bytes : Bytes) : result N Bytes :=
  if (MAX_EVENT_ID_BYTES <? len bytes)%N then Err (len bytes) else Ok bytes.

(** [pub struct EditSeq(NonZeroU64)] and [EditSeq::new] *)
Definition EditSeq := N.
Definition EditSeq_new (value : N) : option EditSeq := if (value =? 0)%N then None else Some value.

(** Further constants the build generates from [protocol/registry.yaml]. *)
Class EventRegistry := {
  PROP_TEXT : PropertyRef;
  PROP_VALUE : PropertyRef;
  PROP_ENABLED : PropertyRef;
  PROP_READ_ONLY : PropertyRef;
  PROP_VALIDATION_STATE : PropertyRef;
  TYPE_TEXT_INPUT : TypeRef;
  TYPE_TEXT_AREA : TypeRef;
  EVENT_TEXT_EDIT : TypeRef;
  VALIDATION_STATE_ENUM : N;
  VALIDATION_VALID : N;
  VALIDATION_ERROR : N;
}.

Definition standard_events : EventRegistry := {|
  PROP_TEXT := PropertyRef_standard 12; PROP_VALUE := PropertyRef_standard 13;
  PROP_ENABLED := PropertyRef_standard 7; PROP_READ_ONLY := PropertyRef_standard 8;
  PROP_VALIDATION_STATE := PropertyRef_standard 11;
  TYPE_TEXT_INPUT := TypeRef_standard 13; TYPE_TEXT_AREA := TypeRef_standard 14;
  EVENT_TEXT_EDIT := TypeRef_standard 5;
  VALIDATION_STATE_ENUM := 12; VALIDATION_VALID := 1; VALIDATION_ERROR := 3 |}%N.

(** [pub struct Event] *)
Record Event := mkEvent {
  ev_client : option Bytes;
  ev_seq : N;
  ev_id : Bytes;
  ev_observed_revision : Revision;
  ev_node_id : NodeId;
  ev_type : TypeRef;
  ev_arguments : gmap PropertyRef Value;
  ev_edit_seq : option EditSeq;
}.

(** [message Event] of [srui.proto] *)
Record WireEvent := mkWireEvent {
  we_client_instance_id : Bytes;
  we_event_seq : N;
  we_event_id : Bytes;
  we_observed_revision : N;
  we_node_id : N;
  we_event_type : option TypeRef;
  we_arguments : list Msg.Property;
  we_edit_seq : N;
}.

(** The fields the deduplicator keys on. *)
Definition event_key (e : WireEvent) : EventKey :=
  mkEventKey (we_client_instance_id e) (we_event_id e) (we_event_seq e)
    ((λ t, (type_namespace_id t, type_local_id t)) <$> we_event_type e).

(** [pub enum EventValidationError] *)
Inductive EventValidationError :=
| EvNodeNotFound (id : NodeId)
| EvNodeDisabled (id : NodeId)
| FutureRevision (observed current : Revision)
| MissingArgument (p : PropertyRef)
| InvalidEditSeq
| StaleEditSeq (observed watermark : N)
| SupersededGeneration
| GenerationOverflow
| NodeReadOnly (id : NodeId)
| UnsupportedNodeType (t : TypeRef)
| EvStringTooLong (length limit : N)
| TextTrackerFull (limit : N)
| PolicyRejected (reason : string).

Section event.
Context `{Registry, EventRegistry}.

(** [Event::get_argument], [text_arg] *)
Definition get_argument (e : Event) (p : PropertyRef) : option Value := ev_arguments e !! p.
Definition text_arg (e : Event) : option string := get_argument e PROP_TEXT ≫= as_string.

(** [Event::validate_node_exists], [validate_node_interactive] *)
Definition validate_node_exists (e : Event) (s : SemanticStore) : result EventValidationError Node :=
  ok_or (EvNodeNotFound (ev_node_id e)) (nodes s !! ev_node_id e).
Definition validate_node_interactive (e : Event) (s : SemanticStore) : result EventValidationError Node :=
  node ← validate_node_exists e s;
  match properties node !! PROP_ENABLED with
  | Some (VBool false) => Err (EvNodeDisabled (ev_node_id e))
  | _ => Ok node
  end.

(** [Event::validate_observed_revision], [validate] *)
Definition validate_observed_revision (e : Event) (store_revision : Revision)
    : result EventValidationError unit :=
  err_if (store_revision <? ev_observed_revision e)%N
    (FutureRevision (ev_observed_revision e) store_revision).
Definition validate (e : Event) (s : SemanticStore) : result EventValidationError Node :=
  validate_observed_revision e (revision s) ≫= λ _, validate_node_interactive e s.

(** *** Wire form ([wire.rs]) *)
Inductive EventWireError :=
| EventMissingField (field : string)
| EventIdTooLong (actual limit : N)
| EventError (msg : string)
| EventValue (e : ValueConversionError).

(** [From<&Event> for srui_protocol::Event] *)
Definition event_to_wire `{PropertyIter} (e : Event) : WireEvent :=
  mkWireEvent (default [] (ev_client e)) (ev_seq e) (ev_id e) (ev_observed_revision e)
    (NodeId_get (ev_node_id e)) (Some (ev_type e))
    (map pair_to_wire (iter_properties (ev_arguments e))) (default 0%N (ev_edit_seq e)).

(** [TryFrom<srui_protocol::Event> for Event] *)
Definition event_from_wire (w : WireEvent) : result EventWireError Event :=
  let client := if bool_decide (we_client_instance_id w = []) then None
                else Some (we_client_instance_id w) in
  err_if (bool_decide (we_event_id w = [])) (EventMissingField "Event.event_id") ≫= λ _,
  id ← map_err (λ actual, EventIdTooLong actual MAX_EVENT_ID_BYTES) (EventId_try_new (we_event_id w));
  t ← ok_or (EventMissingField "Event.event_type") (we_event_type w);
  edit_seq ←
    (if bool_decide (t = EVENT_TEXT_EDIT) then
       Some <$> ok_or (EventError "TEXT_EDIT requires a positive edit_seq") (EditSeq_new (we_edit_seq w))
     else if (we_edit_seq w =? 0)%N then Ok None
     else Err (EventError "only TEXT_EDIT may carry edit_seq"));
  args ← map_err EventValue (try_map pair_from_wire (we_arguments w));
  Ok (mkEvent client (we_event_seq w) id (we_observed_revision w) (mkNodeId (we_node_id w)) t
        (insert_all ∅ args) edit_seq).
End event.
