(* ===== verification/TextTracker.v ===== *)
(** * Text-edit sequence tracking

    Models the [TextEditTracker] of [sessiond/src/session/text_edit.rs]: one
    stream per (client, editor node) with a terminal watermark, the reserved
    edits still in flight and a generation that a newer reservation bumps. *)

From S2P Require Import Prelude.
From S2P Require Import Values.
From S2P Require Import Limits.
From S2P Require Import Models.
From S2P Require Import Store.
From S2P Require Import Dedupe.
From S2P Require Import Event.

Definition MAX_TEXT_EDIT_STREAMS : N := 1024.

(** [struct EditorStream] *)
Record EditorStream := mkStream {
  last_terminal_edit_seq : N;
  in_flight_edit_seqs : gset N;
  generation : N;
}.

(** [struct CommittedHandlerTextEdit] *)
Record CommittedHandlerTextEdit := mkCommitted { cht_node_id : N; cht_edit_seq : N }.

(** [struct ClientTextEditState] *)
Record ClientTextEditState := mkClientEdits {
  editor_streams : gmap N EditorStream;
  committed_handler_edits : gmap N CommittedHandlerTextEdit;
}.

(** [pub struct TextEditTracker] *)
Record TextEditTracker := mkTracker {
  streams : gmap Bytes ClientTextEditState;
  stream_count : N;
  max_streams : N;
}.

(** [TextEditTracker::new] and [default] *)
Definition Tracker_new (max : N) : TextEditTracker := mkTracker ∅ 0 (N.max max 1).
Definition Tracker_default : TextEditTracker := Tracker_new MAX_TEXT_EDIT_STREAMS.

Definition with_streams (t : TextEditTracker) (ss : gmap Bytes ClientTextEditState) (n : N) : TextEditTracker :=
  mkTracker ss n (max_streams t).

(** [self.streams.get(client).and_then(|c| c.editor_streams.get(node))] *)
Definition stream_of (t : TextEditTracker) (c : Bytes) (node : N) : option EditorStream :=
  streams t !! c ≫= λ cl, editor_streams cl !! node.

(** Writing through the same pair of [get_mut]s. *)
Definition update_stream (t : TextEditTracker) (c : Bytes) (node : N) (f : EditorStream → EditorStream)
    : TextEditTracker :=
  with_streams t
    (alter (λ cl, mkClientEdits (alter f node (editor_streams cl)) (committed_handler_edits cl)) c (streams t))
    (stream_count t).

(** [BTreeSet::last] *)
Definition btree_last (s : gset N) : option N :=
  match elements s with [] => None | x :: l => Some (foldr N.max x l) end.

(** The bound a new reservation must exceed. *)
Definition watermark (st : EditorStream) : N :=
  N.max (default (last_terminal_edit_seq st) (btree_last (in_flight_edit_seqs st)))
    (last_terminal_edit_seq st).

Definition is_at_capacity (t : TextEditTracker) : bool := (max_streams t <=? stream_count t)%N.

(** [TextEditTracker::reserve]: the generation reserved. *)
Definition reserve (t : TextEditTracker) (c : Bytes) (node : NodeId) (edit_seq : EditSeq)
    : result EventValidationError (TextEditTracker * N) :=
  match stream_of t c (NodeId_get node) with
  | Some st =>
      if (edit_seq <=? watermark st)%N then Err (StaleEditSeq edit_seq (watermark st))
      else
        gen ← ok_or GenerationOverflow (checked_add64 (generation st) 1);
        Ok (update_stream t c (NodeId_get node) (λ st,
              mkStream (last_terminal_edit_seq st) ({[edit_seq]} ∪ in_flight_edit_seqs st) gen), gen)
  | None =>
      if (max_streams t <=? stream_count t)%N then Err (TextTrackerFull (max_streams t))
      else
        let cl := default (mkClientEdits ∅ ∅) (streams t !! c) in
        Ok (with_streams t
              (<[c := mkClientEdits (<[NodeId_get node := mkStream 0 {[edit_seq]} 1]> (editor_streams cl))
                        (committed_handler_edits cl)]> (streams t))
              (stream_count t + 1), 1)%N
  end.

(** [TextEditTracker::last_terminal_of] and [generation_of] *)
Definition last_terminal_of (t : TextEditTracker) (c : Bytes) (node : NodeId) : option N :=
  last_terminal_edit_seq <$> stream_of t c (NodeId_get node).
Definition generation_of (t : TextEditTracker) (c : Bytes) (node : NodeId) : option N :=
  generation <$> stream_of t c (NodeId_get node).

(** [TextEditTracker::mark_terminal] and [abandon_reservation] *)
Definition mark_terminal (t : TextEditTracker) (c : Bytes) (node : NodeId) (edit_seq : EditSeq)
    : TextEditTracker :=
  update_stream t c (NodeId_get node) (λ st,
    mkStream (N.max (last_terminal_edit_seq st) edit_seq) (in_flight_edit_seqs st ∖ {[edit_seq]})
      (generation st)).
Definition abandon_reservation (t : TextEditTracker) (c : Bytes) (node : NodeId) (edit_seq : EditSeq)
    : TextEditTracker :=
  update_stream t c (NodeId_get node) (λ st,
    mkStream (last_terminal_edit_seq st) (in_flight_edit_seqs st ∖ {[edit_seq]}) (generation st)).

(** [TextEditTracker::begin_committed_handler_dispatch] *)
Definition begin_committed_handler_dispatch (t : TextEditTracker) (event : WireEvent)
    : result EventValidationError TextEditTracker :=
  cl ← expect (streams t !! we_client_instance_id event);
  Ok (with_streams t
        (<[we_client_instance_id event := mkClientEdits (editor_streams cl)
             (<[we_event_seq event := mkCommitted (we_node_id event) (we_edit_seq event)]>
                (committed_handler_edits cl))]> (streams t)) (stream_count t)).

(** [TextEditTracker::finish_committed_handler_dispatch] *)
Definition finish_committed_handler_dispatch (t : TextEditTracker) (event : WireEvent) : TextEditTracker :=
  match streams t !! we_client_instance_id event with
  | Some cl =>
      let cl' := mkClientEdits (editor_streams cl) (delete (we_event_seq event) (committed_handler_edits cl)) in
      with_streams t
        (if bool_decide (editor_streams cl' = ∅ ∧ committed_handler_edits cl' = ∅)
         then delete (we_client_instance_id event) (streams t)
         else <[we_client_instance_id event := cl']> (streams t)) (stream_count t)
  | None => t
  end.

(** [TextEditTracker::committed_handler_identity_matches] *)
Definition committed_handler_identity_matches (t : TextEditTracker) (c : Bytes) (event_seq node_id edit_seq : N)
    : option bool :=
  (λ m, (cht_node_id m =? node_id)%N && (cht_edit_seq m =? edit_seq)%N) <$>
    (streams t !! c ≫= λ cl, committed_handler_edits cl !! event_seq).

(** [self.streams.retain(..)] with a closure that keeps the streams [keep]
    selects and drops a client left with nothing; [stream_count] loses what
    went. *)
Definition retain_streams (t : TextEditTracker) (keep : N → bool) : TextEditTracker :=
  let kept cl := filter (λ kv, keep kv.1 = true) (editor_streams cl) in
  let removed := map_fold (λ _ cl n, n + (map_len (editor_streams cl) - map_len (kept cl)))%N 0%N (streams t) in
  with_streams t
    (omap (λ cl,
       let es := kept cl in
       if bool_decide (es = ∅ ∧ committed_handler_edits cl = ∅) then None
       else Some (mkClientEdits es (committed_handler_edits cl))) (streams t))
    (sub64 (stream_count t) removed).

(** [TextEditTracker::reclaim_node], [reclaim_nodes], [reclaim_missing_nodes] *)
Definition reclaim_node (t : TextEditTracker) (node : NodeId) : TextEditTracker :=
  retain_streams t (λ n, negb (n =? NodeId_get node)%N).
Definition reclaim_nodes (t : TextEditTracker) (ids : list NodeId) : TextEditTracker :=
  if bool_decide (ids = []) then t
  else retain_streams t (λ n, negb (bool_decide (n ∈ NodeId_get <$> ids))).
Definition reclaim_missing_nodes (t : TextEditTracker) (s : SemanticStore) : TextEditTracker :=
  retain_streams t (λ n, contains_node s (mkNodeId n)).

(** Whether [reclaim_departed_clients] must keep a client's state. *)
Definition pinned_client (cl : ClientTextEditState) : bool :=
  bool_decide (committed_handler_edits cl ≠ ∅) ||
  existsb (λ kv, bool_decide (in_flight_edit_seqs kv.2 ≠ ∅)) (map_to_list (editor_streams cl)).
Definition has_event_sequence_history (d : EventDeduplicator) (c : Bytes) : bool :=
  has_client_window d c || negb (last_contiguous_of d c =? 0)%N.

(** [TextEditTracker::reclaim_departed_clients] *)
Definition reclaim_departed_clients (t : TextEditTracker) (d : EventDeduplicator) : TextEditTracker :=
  let keep c cl := has_event_sequence_history d c || pinned_client cl in
  let removed := map_fold (λ c cl n, if keep c cl then n else n + map_len (editor_streams cl))%N 0%N
                   (streams t) in
  with_streams t (filter (λ kv, keep kv.1 kv.2 = true) (streams t)) (sub64 (stream_count t) removed).

(** ** Text-edit sequencing

    The stream count of the tracker is exact and bounded, so that no decrement
    underflows; a reservation lies strictly above everything its stream has
    seen, takes a generation never used before, and stays the current one only
    until the next. *)

(** ** Counting streams *)

Definition total (ss : gmap Bytes ClientTextEditState) : N := map_sum (λ cl, map_len (editor_streams cl)) ss.

Lemma total_insert c cl ss : ss !! c = None → total (<[c := cl]> ss) = (total ss + map_len (editor_streams cl))%N.
Proof. apply (map_sum_insert (λ cl, map_len (editor_streams cl))). Qed.
Lemma total_lookup c cl ss : ss !! c = Some cl → total ss = (total (delete c ss) + map_len (editor_streams cl))%N.
Proof. apply (map_sum_delete (λ cl, map_len (editor_streams cl))). Qed.
Lemma total_replace c cl cl' ss : ss !! c = Some cl →
  (total (<[c := cl']> ss) + map_len (editor_streams cl) = total ss + map_len (editor_streams cl'))%N.
Proof. apply (map_sum_replace (λ cl, map_len (editor_streams cl))). Qed.

Record tracker_wf (t : TextEditTracker) : Prop := {
  tw_count : stream_count t = total (streams t);
  tw_bound : (stream_count t ≤ max_streams t)%N;
  tw_max : (max_streams t ≤ u64_max)%N;
}.

Lemma Tracker_new_wf max : (max ≤ u64_max)%N → tracker_wf (Tracker_new max).
Proof. intros Hmax. assert (1 ≤ u64_max)%N by done. split; cbn; [|lia..]. symmetry. apply (map_sum_empty (λ cl, map_len (editor_streams cl))). Qed.

(** Removing streams cannot underflow the count. *)
Lemma with_streams_wf t ss removed : tracker_wf t → (total ss + removed = total (streams t))%N →
  tracker_wf (with_streams t ss (sub64 (stream_count t) removed)) ∧
  sub64 (stream_count t) removed = (stream_count t - removed)%N.
Proof.
  intros [Hc Hb Hm] Ht. assert (sub64 (stream_count t) removed = (stream_count t - removed)%N) as Hs.
  { apply sub64_small; lia. }
  rewrite Hs. split; [|done]. split; cbn; lia.
Qed.

Lemma update_stream_wf t c node f : tracker_wf t → tracker_wf (update_stream t c node f).
Proof.
  intros [Hc Hb Hm]. split; cbn; [|done..]. rewrite Hc.
  destruct (streams t !! c) as [cl|] eqn:Hcl.
  - rewrite (alter_alt_Some _ _ _ cl Hcl).
    pose proof (total_replace c cl (mkClientEdits (alter f node (editor_streams cl)) (committed_handler_edits cl)) _ Hcl) as Ht.
    cbn in Ht. rewrite map_len_alter in Ht. lia.
  - by rewrite alter_id by (intros; congruence).
Qed.

Lemma mark_terminal_wf t c node seq : tracker_wf t → tracker_wf (mark_terminal t c node seq).
Proof. apply update_stream_wf. Qed.
Lemma abandon_reservation_wf t c node seq : tracker_wf t → tracker_wf (abandon_reservation t c node seq).
Proof. apply update_stream_wf. Qed.

Lemma reserve_wf t c node seq t' gen : tracker_wf t → reserve t c node seq = Ok (t', gen) → tracker_wf t'.
Proof.
  intros Hwf. unfold reserve. destruct (stream_of t c (NodeId_get node)) as [st|] eqn:Hst.
  - case_match; [done|]. intros (g & _ & [= <- <-])%bind_Ok. by apply update_stream_wf.
  - destruct (N.leb_spec (max_streams t) (stream_count t)) as [|Hroom]; [done|]. intros [= <- <-].
    destruct Hwf as [Hc Hb Hm]. split; cbn; [|lia..]. rewrite Hc. unfold stream_of in Hst.
    destruct (streams t !! c) as [cl|] eqn:Hcl; cbn in Hst |- *.
    + pose proof (total_replace c cl (mkClientEdits (<[NodeId_get node:=mkStream 0 {[seq]} 1]> (editor_streams cl))
        (committed_handler_edits cl)) _ Hcl) as Ht. cbn in Ht. unfold map_len in *.
      rewrite map_size_insert_None in Ht by done. lia.
    + rewrite total_insert by done. cbn. unfold map_len. rewrite insert_empty, map_size_singleton. lia.
Qed.

Lemma begin_dispatch_wf t ev t' : tracker_wf t → begin_committed_handler_dispatch t ev = Ok t' → tracker_wf t'.
Proof.
  intros [Hc Hb Hm]. unfold begin_committed_handler_dispatch.
  destruct (streams t !! we_client_instance_id ev) as [cl|] eqn:Hcl; [|done]. intros [= <-].
  split; cbn; [|done..]. rewrite Hc. pose proof (total_replace _ cl (mkClientEdits (editor_streams cl)
    (<[we_event_seq ev:=mkCommitted (we_node_id ev) (we_edit_seq ev)]> (committed_handler_edits cl))) _ Hcl) as Ht.
  cbn in Ht. lia.
Qed.

Lemma finish_dispatch_wf t ev : tracker_wf t → tracker_wf (finish_committed_handler_dispatch t ev).
Proof.
  intros [Hc Hb Hm]. unfold finish_committed_handler_dispatch.
  destruct (streams t !! we_client_instance_id ev) as [cl|] eqn:Hcl; [|done].
  split; cbn; [|done..]. rewrite Hc. case_bool_decide as He.
  - rewrite (total_lookup _ _ _ Hcl). destruct He as [-> _]. unfold map_len. rewrite map_size_empty. lia.
  - pose proof (total_replace _ cl (mkClientEdits (editor_streams cl)
      (delete (we_event_seq ev) (committed_handler_edits cl))) _ Hcl) as Ht. cbn in Ht. lia.
Qed.

Lemma map_fold_add {A} (f : Bytes → A → N) (m : gmap Bytes A) c x : m !! c = None →
  map_fold (λ k v n, n + f k v)%N 0%N (<[c := x]> m) = (map_fold (λ k v n, n + f k v) 0 m + f c x)%N.
Proof. intros Hc. rewrite map_fold_insert_L; [done|lia|done]. Qed.

Lemma retain_streams_wf t keep : tracker_wf t → tracker_wf (retain_streams t keep).
Proof.
  intros Hwf. unfold retain_streams. apply with_streams_wf; [done|].
  induction (streams t) as [|c cl ss Hc IH] using map_ind; [done|].
  rewrite (map_fold_add (λ _ cl, (map_len (editor_streams cl) -
    map_len (filter (λ kv, keep kv.1 = true) (editor_streams cl)))%N)), total_insert by done.
  rewrite <- IH. clear IH.
  assert (map_len (filter (λ kv, keep kv.1 = true) (editor_streams cl)) ≤ map_len (editor_streams cl))%N as Hle.
  { unfold map_len. pose proof (map_subseteq_size _ _ (map_filter_subseteq (λ kv, keep kv.1 = true) (editor_streams cl))). lia. }
  set (f := λ cl, if bool_decide _ then None else _).
  destruct (f cl) as [cl'|] eqn:Hf; subst f; cbn in Hf; case_bool_decide as He; try done.
  - rewrite (omap_insert_Some _ _ _ _ cl'); [|cbn; by rewrite bool_decide_eq_false_2].
    rewrite total_insert; [|rewrite lookup_omap, Hc; done]. injection Hf as <-. cbn. lia.
  - rewrite omap_insert_None by (cbn; by rewrite bool_decide_eq_true_2).
    rewrite delete_id; [|rewrite lookup_omap, Hc; done].
    destruct He as [He _]. rewrite He in *.
    assert (map_len (∅ : gmap N EditorStream) = 0%N) as Hz by (unfold map_len; by rewrite map_size_empty). lia.
Qed.

Lemma reclaim_missing_nodes_wf t s : tracker_wf t → tracker_wf (reclaim_missing_nodes t s).
Proof. apply retain_streams_wf. Qed.

Lemma reclaim_departed_wf t d : tracker_wf t → tracker_wf (reclaim_departed_clients t d).
Proof.
  intros Hwf. unfold reclaim_departed_clients. apply with_streams_wf; [done|].
  induction (streams t) as [|c cl ss Hc IH] using map_ind; [done|].
  rewrite map_fold_insert_L; [|intros; repeat case_match; lia|done].
  rewrite total_insert by done. destruct (has_event_sequence_history d c || pinned_client cl) eqn:Hk.
  - rewrite map_filter_insert_True by done. rewrite total_insert; [lia|].
    apply map_lookup_filter_None. by left.
  - rewrite map_filter_insert_False by (cbn; by rewrite Hk). rewrite delete_id by done. lia.
Qed.

(** ** Reservations *)

Lemma watermark_spec st x : (x ∈ in_flight_edit_seqs st ∨ x = last_terminal_edit_seq st) → (x ≤ watermark st)%N.
Proof.
  unfold watermark, btree_last. intros [Hx| ->]; [|lia]. apply elem_of_elements in Hx.
  destruct (elements (in_flight_edit_seqs st)) as [|y l]; [set_solver|]. cbn.
  assert (x ≤ foldr N.max y l)%N; [|lia]. apply elem_of_cons in Hx as [->|Hx].
  - induction l; cbn; lia.
  - induction Hx; cbn; lia.
Qed.

Lemma stream_of_update t c node f c' n' :
  stream_of (update_stream t c node f) c' n' =
    if decide (c' = c ∧ n' = node) then f <$> stream_of t c' n' else stream_of t c' n'.
Proof.
  unfold stream_of, update_stream. cbn. destruct (decide (c' = c)) as [->|Hc].
  - rewrite lookup_alter_eq. destruct (streams t !! c) as [cl|]; cbn; [|by case_decide].
    destruct (decide (n' = node)) as [->|Hn].
    + rewrite decide_True by done. apply lookup_alter_eq.
    + rewrite decide_False by naive_solver. by apply lookup_alter_ne.
  - rewrite decide_False by naive_solver. by rewrite lookup_alter_ne.
Qed.

Lemma stream_of_insert t c cl node st n c' n' :
  stream_of (with_streams t (<[c := mkClientEdits (<[node := st]>
     (editor_streams (default cl (streams t !! c)))) (committed_handler_edits (default cl (streams t !! c)))]> (streams t)) n) c' n' =
    if decide (c' = c ∧ n' = node) then Some st
    else if decide (c' = c) then editor_streams (default cl (streams t !! c)) !! n' else stream_of t c' n'.
Proof.
  unfold stream_of. cbn. destruct (decide (c' = c)) as [->|Hc].
  - rewrite lookup_insert_eq. cbn. destruct (decide (n' = node)) as [->|Hn].
    + rewrite decide_True by done. apply lookup_insert_eq.
    + rewrite decide_False by naive_solver. by apply lookup_insert_ne.
  - rewrite decide_False by naive_solver. by rewrite lookup_insert_ne.
Qed.

(** A successful reservation: strictly newer than all its stream has seen,
    under a generation above the current one; the other streams are untouched. *)
Lemma reserve_Ok t c node seq t' gen : reserve t c node seq = Ok (t', gen) →
  let old := stream_of t c (NodeId_get node) in
  (∀ st, old = Some st → (watermark st < seq)%N ∧ gen = (generation st + 1)%N ∧ (gen ≤ u64_max)%N) ∧
  (old = None → gen = 1%N ∧ (stream_count t < max_streams t)%N) ∧
  (∃ st', stream_of t' c (NodeId_get node) = Some st' ∧ generation st' = gen ∧ seq ∈ in_flight_edit_seqs st' ∧
     last_terminal_edit_seq st' = default 0%N (last_terminal_edit_seq <$> old)) ∧
  ∀ c' n', (c', n') ≠ (c, NodeId_get node) → stream_of t' c' n' = stream_of t c' n'.
Proof.
  unfold reserve. destruct (stream_of t c (NodeId_get node)) as [st|] eqn:Hst; cbn zeta.
  - destruct (N.leb_spec seq (watermark st)) as [|Hlt]; [done|].
    intros (g & Hg & [= <- <-])%bind_Ok. apply ok_or_Ok, checked_add64_Some in Hg as [-> Hg]. split_and!.
    + intros st0 [= <-]. done.
    + done.
    + eexists. rewrite stream_of_update, decide_True, Hst by done. cbn. split; [done|]. split_and!; [done|set_solver|done].
    + intros c' n' Hne. rewrite stream_of_update, decide_False by naive_solver. done.
  - destruct (N.leb_spec (max_streams t) (stream_count t)) as [|Hroom]; [done|]. intros [= <- <-]. split_and!.
    + done.
    + done.
    + eexists. rewrite stream_of_insert, decide_True by done. split; [done|]. cbn. split_and!; [done|set_solver|done].
    + intros c' n' Hne. rewrite stream_of_insert, decide_False by naive_solver. case_decide as Hc; [|done].
      subst c'. unfold stream_of. by destruct (streams t !! c).
Qed.
