(* ===== verification/Resources.v ===== *)
(** * Content-addressed resources

    Models [resources/src/store.rs] and [chunk.rs], and the per-connection
    transfer cursor of [sessiond/src/outbound/resource.rs]: the bounded store of
    immutable bytes keyed by their digest, and the frames a client is sent for
    one.  The digest function is the [sha2] crate's and a parameter. *)

From S2P Require Import Prelude.
From S2P Require Import Values.

Abbreviation bytes := (list N).

(** [Sha256::digest] of the [sha2] crate: any function to 32 bytes. *)
Class Digest := {
  sha256 : bytes → bytes;
  sha256_length b : length (sha256 b) = 32;
}.

(** [pub struct ResourceLimits] *)
Record ResourceLimits := mkResourceLimits {
  rl_max_resource_bytes : N;
  rl_max_entries : N;
  rl_max_total_bytes : N;
}.
Definition ResourceLimits_default : ResourceLimits :=
  mkResourceLimits (50 * 1024 * 1024) 1024 (256 * 1024 * 1024).

(** [pub enum ResourceError] *)
Inductive ResourceError :=
| ResourceTooLarge (length limit : N)
| EntryLimitExceeded (limit : N)
| TotalBytesLimitExceeded (limit : N).

(** [pub struct ResourceEntry] *)
Record ResourceEntry := mkResourceEntry {
  re_hash : ResourceHash;
  media_type : string;
  encoded_length : N;
  re_bytes : bytes;
}.

(** [pub struct PublishOutcome] *)
Record PublishOutcome := mkPublishOutcome {
  po_hash : ResourceHash;
  inserted : bool;
  po_entry : ResourceEntry;
}.

(** [pub struct ResourceStore] *)
Record ResourceStore := mkResourceStore {
  rs_limits : ResourceLimits;
  rs_entries : gmap ResourceHash ResourceEntry;
  rs_order : list ResourceHash;
  total_bytes : N;
}.

(** [ResourceStore::with_limits] *)
Definition ResourceStore_with_limits (l : ResourceLimits) : ResourceStore := mkResourceStore l ∅ [] 0.

(** [infer_media_type] *)
Definition starts_with (pre b : bytes) : bool := bool_decide (take (length pre) b = pre).
Definition ascii_bytes (s : string) : bytes := map Ascii.N_of_ascii (String.list_ascii_of_string s).
Definition infer_media_type (b : bytes) : string :=
  if starts_with [137; 80; 78; 71; 13; 10; 26; 10]%N b then "image/png"
  else if starts_with [255; 216; 255]%N b then "image/jpeg"
  else if starts_with (ascii_bytes "GIF87a") b || starts_with (ascii_bytes "GIF89a") b then "image/gif"
  else if (12 <=? len b)%N && starts_with (ascii_bytes "RIFF") b &&
          bool_decide (take 4 (drop 8 b) = ascii_bytes "WEBP") then "image/webp"
  else if starts_with (ascii_bytes "BM") b then "image/bmp"
  else "application/octet-stream".

Section store.
Context `{Digest}.

(** [hash_bytes] *)
Definition hash_of (b : bytes) : ResourceHash := mkResourceHash (sha256 b).

(** The planning loop over [self.order], skipping the protected: the evictions,
    and what would be retained after them. *)
Fixpoint plan_evictions (s : ResourceStore) (n : N) (candidates : list ResourceHash)
    (evictions : list ResourceHash) (retained_entries retained_bytes : N)
    : result ResourceError (list ResourceHash * N * N) :=
  match candidates with
  | [] => Ok (evictions, retained_entries, retained_bytes)
  | candidate :: candidates =>
      next_total ← ok_or (TotalBytesLimitExceeded (rl_max_total_bytes (rs_limits s)))
                     (checked_add64 retained_bytes n);
      if (retained_entries <? rl_max_entries (rs_limits s))%N && (next_total <=? rl_max_total_bytes (rs_limits s))%N
      then Ok (evictions, retained_entries, retained_bytes)
      else
        entry ← expect (rs_entries s !! candidate);
        plan_evictions s n candidates (evictions ++ [candidate]) (retained_entries - 1)
          (retained_bytes - len (re_bytes entry))
  end.

(** [ResourceStore::remove] *)
Definition remove (s : ResourceStore) (h : ResourceHash) : ResourceStore :=
  let order := match list_find (eq h) (rs_order s) with
               | Some (index, _) => delete index (rs_order s)
               | None => rs_order s
               end in
  match rs_entries s !! h with
  | Some entry => mkResourceStore (rs_limits s) (delete h (rs_entries s)) order
                    (total_bytes s - len (re_bytes entry))
  | None => mkResourceStore (rs_limits s) (rs_entries s) order (total_bytes s)
  end.

(** [ResourceStore::publish_resource_protecting]; [publish_resource] protects nothing. *)
Definition publish_resource_protecting (s : ResourceStore) (slice : bytes) (protected : gset ResourceHash)
    : result ResourceError (ResourceStore * PublishOutcome) :=
  err_if (rl_max_resource_bytes (rs_limits s) <? len slice)%N
    (ResourceTooLarge (len slice) (rl_max_resource_bytes (rs_limits s))) ≫= λ _,
  let hash := hash_of slice in
  match rs_entries s !! hash with
  | Some existing => Ok (s, mkPublishOutcome hash false existing)
  | None =>
      '(evictions, retained_entries, retained_bytes) ←
        plan_evictions s (len slice) (filter (λ h, h ∉ protected) (rs_order s)) []
          (map_len (rs_entries s)) (total_bytes s);
      err_if (rl_max_entries (rs_limits s) <=? retained_entries)%N
        (EntryLimitExceeded (rl_max_entries (rs_limits s))) ≫= λ _,
      next_total ← ok_or (TotalBytesLimitExceeded (rl_max_total_bytes (rs_limits s)))
                     (checked_add64 retained_bytes (len slice));
      err_if (rl_max_total_bytes (rs_limits s) <? next_total)%N
        (TotalBytesLimitExceeded (rl_max_total_bytes (rs_limits s))) ≫= λ _,
      let s1 := foldl remove s evictions in
      let entry := mkResourceEntry hash (infer_media_type slice) (len slice) slice in
      Ok (mkResourceStore (rs_limits s1) (<[hash := entry]> (rs_entries s1)) (rs_order s1 ++ [hash]) next_total,
          mkPublishOutcome hash true entry)
  end.
Definition publish_resource (s : ResourceStore) (slice : bytes)
    : result ResourceError (ResourceStore * PublishOutcome) :=
  publish_resource_protecting s slice ∅.
End store.

(** [ResourceStore::lookup], [retained_entries] *)
Definition lookup_resource (s : ResourceStore) (h : ResourceHash) : option ResourceEntry := rs_entries s !! h.
Definition retained_entries (s : ResourceStore) : list ResourceEntry :=
  omap (λ h, rs_entries s !! h) (rs_order s).

(** ** Chunks ([chunk.rs]) *)

Definition CHUNK_PAYLOAD_SIZE : N := 16384.

(** [pub struct ResourceChunkView] *)
Record ResourceChunkView := mkChunk { byte_offset : N; data : bytes }.

(** [&bytes[start..end]] *)
Definition byte_slice (b : bytes) (start fin : N) : bytes :=
  take (N.to_nat (fin - start)) (drop (N.to_nat start) b).

(** [ResourceChunkIter::next] *)
Definition chunk_next (b : bytes) (offset : N) : option (ResourceChunkView * N) :=
  if (len b <=? offset)%N then None
  else
    let fin := N.min (offset + CHUNK_PAYLOAD_SIZE) (len b) in
    Some (mkChunk offset (byte_slice b offset fin), fin).

(** [chunk_payloads]: collecting the iterator. *)
Fixpoint collect_chunks (fuel : nat) (b : bytes) (offset : N) : list ResourceChunkView :=
  match fuel with
  | O => []
  | S fuel =>
      match chunk_next b offset with
      | Some (chunk, next) => chunk :: collect_chunks fuel b next
      | None => []
      end
  end.
Definition chunk_payloads (b : bytes) : list ResourceChunkView := collect_chunks (S (length b)) b 0.

(** ** Transfers ([outbound/resource.rs]) *)

(** [pub enum ResourceOutboundFrame], with the fields the source fills in. *)
Inductive ResourceFrame :=
| Metadata (hash : ResourceHash) (media_type : string) (encoded_length : N)
| Chunk (hash : ResourceHash) (byte_offset : N) (data : bytes).

(** [struct ActiveTransfer] and [from_entry] *)
Record ActiveTransfer := mkTransfer {
  at_hash : ResourceHash;
  at_media_type : string;
  at_bytes : bytes;
  metadata_sent : bool;
  next_offset : N;
}.
Definition from_entry (e : ResourceEntry) : ActiveTransfer :=
  mkTransfer (re_hash e) (media_type e) (re_bytes e) false 0.

(** [ActiveTransfer::next_frame] and [is_complete] *)
Definition next_frame (t : ActiveTransfer) : ActiveTransfer * ResourceFrame :=
  if negb (metadata_sent t) then
    (mkTransfer (at_hash t) (at_media_type t) (at_bytes t) true (next_offset t),
     Metadata (at_hash t) (at_media_type t) (len (at_bytes t)))
  else
    let fin := N.min (next_offset t + CHUNK_PAYLOAD_SIZE) (len (at_bytes t)) in
    (mkTransfer (at_hash t) (at_media_type t) (at_bytes t) true fin,
     Chunk (at_hash t) (next_offset t) (byte_slice (at_bytes t) (next_offset t) fin)).
Definition is_complete (t : ActiveTransfer) : bool :=
  metadata_sent t && (len (at_bytes t) <=? next_offset t)%N.

(** [pub(crate) struct ResourceTransferQueue] *)
Record ResourceTransferQueue := mkTransferQueue {
  pending : list ResourceEntry;
  active : option ActiveTransfer;
}.
Definition TransferQueue_default : ResourceTransferQueue := mkTransferQueue [] None.

(** [ResourceTransferQueue::enqueue], [has_work], [pop_frame] *)
Definition enqueue (q : ResourceTransferQueue) (e : ResourceEntry) : ResourceTransferQueue :=
  match active q with
  | Some t => if decide (at_hash t = re_hash e) then q
              else if existsb (λ p, bool_decide (re_hash p = re_hash e)) (pending q) then q
              else mkTransferQueue (pending q ++ [e]) (active q)
  | None => if existsb (λ p, bool_decide (re_hash p = re_hash e)) (pending q) then q
            else mkTransferQueue (pending q ++ [e]) (active q)
  end.
Definition has_work (q : ResourceTransferQueue) : bool :=
  bool_decide (is_Some (active q)) || bool_decide (pending q ≠ []).
Definition pop_frame (q : ResourceTransferQueue) : ResourceTransferQueue * option ResourceFrame :=
  let start := match active q, pending q with
               | Some t, _ => Some (t, pending q)
               | None, next :: rest => Some (from_entry next, rest)
               | None, [] => None
               end in
  match start with
  | None => (q, None)
  | Some (t, rest) =>
      let '(t', frame) := next_frame t in
      (mkTransferQueue rest (if is_complete t' then None else Some t'), Some frame)
  end.

(** ** The resource store and its delivery

    The store stays within its bounds with exact byte accounting, never
    overwrites or drops a protected entry, and a transfer sends the metadata and
    then the entry's bytes, whole and in order. *)

Section facts.
Context `{Digest}.

(** Keys, order and byte total agree with the entries. *)
Record consistent (s : ResourceStore) : Prop := {
  co_nodup : NoDup (rs_order s);
  co_order : ∀ h, h ∈ rs_order s ↔ is_Some (rs_entries s !! h);
  co_total : total_bytes s = map_sum (λ e, len (re_bytes e)) (rs_entries s);
  co_entry : ∀ h e, rs_entries s !! h = Some e →
    re_hash e = h ∧ h = hash_of (re_bytes e) ∧ encoded_length e = len (re_bytes e) ∧
    (len (re_bytes e) ≤ rl_max_resource_bytes (rs_limits s))%N;
}.

Record resources_wf (s : ResourceStore) : Prop := {
  rw_consistent : consistent s;
  rw_entries : (map_len (rs_entries s) ≤ rl_max_entries (rs_limits s))%N;
  rw_bytes : (total_bytes s ≤ rl_max_total_bytes (rs_limits s))%N;
}.

Lemma with_limits_wf l : resources_wf (ResourceStore_with_limits l).
Proof.
  split; [split|..]; cbn; try done; try (unfold map_len; rewrite map_size_empty; lia); try lia.
  - constructor.
  - intros h. rewrite lookup_empty, elem_of_nil, is_Some_alt. done.
Qed.

Lemma remove_spec s h e : consistent s → rs_entries s !! h = Some e →
  consistent (remove s h) ∧ rs_entries (remove s h) = delete h (rs_entries s) ∧
  rs_limits (remove s h) = rs_limits s ∧
  total_bytes (remove s h) = (total_bytes s - len (re_bytes e))%N ∧
  map_len (rs_entries (remove s h)) = (map_len (rs_entries s) - 1)%N.
Proof.
  intros Hc Hh. pose proof Hc as [Hnd Ho Ht He].
  assert (∃ i, list_find (eq h) (rs_order s) = Some (i, h) ∧ rs_order s !! i = Some h) as (i & Hf & Hi).
  { assert (h ∈ rs_order s) as Hin by (apply Ho; eauto).
    destruct (list_find (eq h) (rs_order s)) as [[i x]|] eqn:Hf.
    - apply list_find_Some in Hf as Hf'. destruct Hf' as (Hi & <- & _). eauto.
    - apply list_find_None in Hf. rewrite Forall_forall in Hf. by destruct (Hf h Hin). }
  unfold remove. rewrite Hf, Hh. cbn. rewrite map_len_delete_Some by eauto. split_and!; try done.
  assert (∀ x, x ∈ delete i (rs_order s) ↔ x ∈ rs_order s ∧ x ≠ h) as Hdel.
  { pose proof (delete_Permutation _ _ _ Hi) as Hp. rewrite Hp in Hnd. apply NoDup_cons in Hnd as [Hnin _].
    intros x. split.
    - intros Hx. split; [|congruence]. apply (elem_of_Permutation_proper x _ _ Hp). by right.
    - intros [Hx Hne]. apply (elem_of_Permutation_proper x _ _ Hp) in Hx. by apply elem_of_cons in Hx as [->|]. }
  split; cbn.
  - rewrite (delete_Permutation _ _ _ Hi) in Hnd. by apply NoDup_cons in Hnd as [_ ?].
  - intros x. rewrite Hdel, Ho, lookup_delete_is_Some. naive_solver.
  - rewrite Ht, (map_sum_delete (λ e, len (re_bytes e)) _ _ _ Hh). lia.
  - intros x ex [_ ?]%lookup_delete_Some. by apply He.
Qed.

(** The plan's accounting is that of the store with the evictions made. *)
Lemma plan_evictions_spec s n cands E : consistent s →
  NoDup (E ++ cands) → (∀ h, h ∈ E ++ cands → is_Some (rs_entries s !! h)) →
  let sE := foldl remove s E in
  consistent sE → (∀ h, h ∉ E → rs_entries sE !! h = rs_entries s !! h) → rs_limits sE = rs_limits s →
  match plan_evictions s n cands E (map_len (rs_entries sE)) (total_bytes sE) with
  | Ok (E', e', b') => let s' := foldl remove s E' in
      consistent s' ∧ (∀ h, h ∉ E' → rs_entries s' !! h = rs_entries s !! h) ∧
      rs_limits s' = rs_limits s ∧ (∃ L, E' = E ++ L ∧ L `prefix_of` cands) ∧
      e' = map_len (rs_entries s') ∧ b' = total_bytes s'
  | Err _ => True
  | _ => False
  end.
Proof.
  intros Hc. revert E. induction cands as [|c cands IH]; intros E Hnd Hin sE HcE Hsame Hlim; cbn.
  { split_and!; try done. exists []. by rewrite app_nil_r. }
  destruct (checked_add64 (total_bytes sE) n) as [nt|]; cbn; [|done].
  destruct (_ && _).
  { split_and!; try done. exists []. rewrite app_nil_r. split; [done|apply prefix_nil]. }
  assert (c ∉ E) as Hnc.
  { apply NoDup_app in Hnd as (_ & Hd & _). intros Hce. by apply (Hd c Hce); left. }
  destruct (Hin c) as [e He]; [set_solver|]. rewrite He. cbn.
  assert (rs_entries sE !! c = Some e) as HeE by (rewrite Hsame; done).
  destruct (remove_spec sE c e HcE HeE) as (Hc' & Hent & Hlim' & Htot & Hlen).
  assert (foldl remove s (E ++ [c]) = remove sE c) as Hfold by (by rewrite foldl_app).
  specialize (IH (E ++ [c])). rewrite Hfold in IH. cbn zeta in IH. rewrite Hlen, Htot in IH.
  assert (E ++ c :: cands = (E ++ [c]) ++ cands) as Happ by (by rewrite <- app_assoc).
  rewrite Happ in Hnd, Hin. specialize (IH Hnd Hin Hc').
  destruct (plan_evictions _ _ _ _ _ _) as [[[E' e'] b']| | |]; try done.
  - destruct IH as (H1 & H2 & H4 & (L & -> & HL) & H6 & H7).
    + intros h Hh. rewrite Hent, lookup_delete_ne by set_solver. apply Hsame. set_solver.
    + by rewrite Hlim'.
    + split_and!; try done. exists (c :: L). rewrite <- app_assoc. split; [done|by apply prefix_cons].
  - apply IH; [|by rewrite Hlim']. intros h Hh. rewrite Hent, lookup_delete_ne by set_solver. apply Hsame. set_solver.
  - apply IH; [|by rewrite Hlim']. intros h Hh. rewrite Hent, lookup_delete_ne by set_solver. apply Hsame. set_solver.
Qed.

Lemma remove_None s h x : rs_entries s !! x = None → rs_entries (remove s h) !! x = None.
Proof using Type.
  intros Hx. unfold remove. destruct (rs_entries s !! h); [|done]. cbn. apply lookup_delete_None. by right.
Qed.
Lemma foldl_remove_None s L x : x ∈ L ∨ rs_entries s !! x = None → rs_entries (foldl remove s L) !! x = None.
Proof using Type.
  revert s. induction L as [|h L IH]; intros s Hx; cbn; [set_solver|]. apply IH.
  destruct Hx as [[->|?]%elem_of_cons|?]; [right|by left|right; by apply remove_None].
  unfold remove. destruct (rs_entries s !! h) eqn:Hh; [cbn; apply lookup_delete_eq|done].
Qed.

(** ** Publication *)

(** What a successful publication leaves. *)
Record published_in (s : ResourceStore) (slice : bytes) (protected : gset ResourceHash)
    (s' : ResourceStore) (out : PublishOutcome) : Prop := {
  pi_hash : po_hash out = hash_of slice;
  pi_entry : lookup_resource s' (hash_of slice) = Some (po_entry out);
  pi_bytes : inserted out = true → re_bytes (po_entry out) = slice;
  pi_dedupe : inserted out = false → s' = s;
  pi_kept : ∀ h e, h ≠ hash_of slice → rs_entries s' !! h = Some e → rs_entries s !! h = Some e;
  pi_never_overwritten : ∀ e, rs_entries s !! hash_of slice = Some e → po_entry out = e ∧ s' = s;
  pi_protected : ∀ h e, h ∈ protected → rs_entries s !! h = Some e → rs_entries s' !! h = Some e;
}.

Lemma publish_spec s slice protected : resources_wf s →
  match publish_resource_protecting s slice protected with
  | Ok (s', out) => resources_wf s' ∧ published_in s slice protected s' out
  | Err _ => True
  | _ => False
  end.
Proof.
  intros [Hc Hn Hb]. unfold publish_resource_protecting, err_if.
  destruct (N.ltb_spec (rl_max_resource_bytes (rs_limits s)) (len slice)) as [|Hsize]; cbn; [done|].
  destruct (rs_entries s !! hash_of slice) as [e|] eqn:He.
  { split; [done|]. split; cbn; try done. intros e0 He0. split; [congruence|done]. }
  set (cands := filter (λ h, h ∉ protected) (rs_order s)).
  pose proof (plan_evictions_spec s (len slice) cands [] Hc) as Hplan. cbn in Hplan.
  assert (∀ h, h ∈ cands → (h ∉ protected) ∧ h ∈ rs_order s) as Hcands by (intros h; subst cands; by rewrite list_elem_of_filter).
  specialize (Hplan (NoDup_filter _ _ (co_nodup _ Hc)) ltac:(intros h Hh; by apply (co_order _ Hc), Hcands)
    Hc ltac:(done) eq_refl).
  destruct (plan_evictions _ _ _ _ _ _) as [[[E e'] b']| | |]; cbn; try done.
  destruct Hplan as (Hc' & Hsame & Hlim & (L & -> & HL) & -> & ->). cbn in *.
  destruct (N.leb_spec (rl_max_entries (rs_limits s)) (map_len (rs_entries (foldl remove s L)))) as [|Hroom]; cbn; [done|].
  destruct (checked_add64 _ (len slice)) as [nt|] eqn:Hnt; cbn; [|done].
  apply checked_add64_Some in Hnt as [-> _].
  destruct (N.ltb_spec (rl_max_total_bytes (rs_limits s)) (total_bytes (foldl remove s L) + len slice)) as [|Htot];
    cbn; [done|].
  set (s1 := foldl remove s L) in *.
  assert (∀ h, h ∈ L → (h ∉ protected) ∧ is_Some (rs_entries s !! h)) as HL'.
  { intros h Hh. destruct (Hcands h) as [? Ho]; [by eapply elem_of_prefix|]. split; [done|]. by apply (co_order _ Hc). }
  assert (rs_entries s1 !! hash_of slice = None) as Hnew.
  { rewrite Hsame; [done|]. intros Hh%HL'. rewrite He in Hh. by destruct Hh as [_ []]. }
  split.
  - split; cbn; rewrite ?Hlim; [split; cbn| |done].
    + apply NoDup_app. split_and!; [apply Hc'| |apply NoDup_singleton].
      intros h Hh ->%list_elem_of_singleton. apply (co_order _ Hc') in Hh. rewrite Hnew in Hh. by destruct Hh.
    + intros h. rewrite elem_of_app, list_elem_of_singleton, (co_order _ Hc'), lookup_insert_is_Some.
      destruct (decide (hash_of slice = h)); naive_solver.
    + rewrite map_sum_insert by done. by rewrite (co_total _ Hc').
    + intros h e [[<- <-]|[_ Hh]]%lookup_insert_Some; [done|]. rewrite <- Hlim. by apply (co_entry _ Hc').
    + unfold map_len in *. rewrite map_size_insert_None by done. lia.
  - split; cbn; try done.
    + unfold lookup_resource. cbn. apply lookup_insert_eq.
    + intros h e Hne [[? _]|[_ Hh]]%lookup_insert_Some; [done|].
      destruct (decide (h ∈ L)) as [Hin|]; [|by rewrite <- Hsame].
      exfalso. revert Hh. subst s1. rewrite foldl_remove_None by (by left). done.
    + intros e Hx. congruence.
    + intros h e Hp Hh. rewrite lookup_insert_ne by congruence. rewrite Hsame; [done|]. intros Hin%HL'. tauto.
Qed.

(** ** Chunks *)

Lemma chunk_step b o : (o < len b)%N →
  byte_slice b o (N.min (o + CHUNK_PAYLOAD_SIZE) (len b)) ++ drop (N.to_nat (N.min (o + CHUNK_PAYLOAD_SIZE) (len b))) b
    = drop (N.to_nat o) b.
Proof using Type.
  intros Ho. unfold byte_slice. set (fin := N.min _ _).
  assert (o < fin ≤ len b)%N by (subst fin; unfold CHUNK_PAYLOAD_SIZE; lia).
  replace (N.to_nat fin) with (N.to_nat o + N.to_nat (fin - o)) by lia.
  rewrite <- drop_drop. apply take_drop.
Qed.

(** Chunks that cover [b] from [o] on: contiguous, bounded, non-empty. *)
Inductive covers (b : bytes) : N → list ResourceChunkView → Prop :=
| covers_end o : (len b ≤ o)%N → covers b o []
| covers_chunk o c l : byte_offset c = o → (0 < len (data c) ≤ CHUNK_PAYLOAD_SIZE)%N →
    covers b (o + len (data c)) l → covers b o (c :: l).

Lemma collect_chunks_spec fuel b o : (length b < N.to_nat o + fuel) →
  covers b o (collect_chunks fuel b o) ∧
  concat (data <$> collect_chunks fuel b o) = drop (N.to_nat o) b.
Proof using Type.
  revert o. induction fuel as [|fuel IH]; intros o Hf; cbn.
  { rewrite drop_ge by lia. split; [|done]. constructor. unfold len. lia. }
  unfold chunk_next. destruct (N.leb_spec (len b) o) as [|Ho].
  { rewrite drop_ge by (unfold len in *; lia). split; [by constructor|done]. }
  cbn. set (fin := N.min _ _).
  assert (o < fin ≤ len b)%N by (subst fin; unfold CHUNK_PAYLOAD_SIZE; lia).
  destruct (IH fin) as [Hc Hd]; [lia|].
  assert (len (byte_slice b o fin) = fin - o)%N as Hlen.
  { unfold byte_slice, len in *. rewrite length_take, length_drop. lia. }
  split.
  - constructor; cbn; [done|subst fin; unfold CHUNK_PAYLOAD_SIZE in *; lia|].
    rewrite Hlen. by replace (o + (fin - o))%N with fin by lia.
  - rewrite Hd. by apply chunk_step.
Qed.

Lemma chunk_payloads_spec b : covers b 0 (chunk_payloads b) ∧ concat (data <$> chunk_payloads b) = b.
Proof using Type. apply (collect_chunks_spec (S (length b)) b 0). lia. Qed.

(** ** Transfers *)

(** Popping until the lane is empty. *)
Fixpoint drain (fuel : nat) (q : ResourceTransferQueue) : list ResourceFrame :=
  match fuel with
  | O => []
  | S fuel => match pop_frame q with (q', Some f) => f :: drain fuel q' | (_, None) => [] end
  end.

Definition chunk_frames (h : ResourceHash) (l : list ResourceChunkView) : list ResourceFrame :=
  (λ c, Chunk h (byte_offset c) (data c)) <$> l.
Definition frames_of (e : ResourceEntry) : list ResourceFrame :=
  Metadata (re_hash e) (media_type e) (len (re_bytes e)) :: chunk_frames (re_hash e) (chunk_payloads (re_bytes e)).

Lemma drain_active fuel h m b o es k : (length b < N.to_nat o + fuel) → (o < len b)%N →
  let l := chunk_frames h (collect_chunks fuel b o) in
  drain (length l + k) (mkTransferQueue es (Some (mkTransfer h m b true o))) =
    l ++ drain k (mkTransferQueue es None).
Proof using Type.
  revert o. induction fuel as [|fuel IH]; intros o Hf Ho; [unfold len in Ho; lia|].
  cbn [collect_chunks]. unfold chunk_next. rewrite (proj2 (N.leb_gt _ _) Ho). cbn zeta.
  set (fin := N.min _ _). assert (o < fin ≤ len b)%N by (subst fin; unfold CHUNK_PAYLOAD_SIZE; lia).
  cbn [chunk_frames fmap list_fmap length Nat.add drain app]. unfold pop_frame, next_frame. cbn.
  fold fin. f_equal. unfold is_complete. cbn. destruct (N.leb_spec (len b) fin) as [Hend|Hmore].
  - destruct fuel as [|fuel']; [done|]. cbn. unfold chunk_next. by rewrite (proj2 (N.leb_le _ _) Hend).
  - apply IH; [lia|done].
Qed.

Lemma drain_entry e es k :
  drain (length (frames_of e) + k) (mkTransferQueue (e :: es) None) =
    frames_of e ++ drain k (mkTransferQueue es None).
Proof using Type.
  unfold frames_of. cbn [length Nat.add drain app]. unfold pop_frame, next_frame. cbn. f_equal.
  unfold is_complete. cbn. destruct (N.leb_spec (len (re_bytes e)) 0) as [Hz|Hpos].
  - unfold chunk_payloads. cbn. unfold chunk_next. by rewrite (proj2 (N.leb_le _ _) Hz).
  - apply (drain_active (S (length (re_bytes e)))); [lia|done].
Qed.

Lemma drain_queue es k :
  drain (length (concat (frames_of <$> es)) + k) (mkTransferQueue es None) = concat (frames_of <$> es).
Proof using Type.
  induction es as [|e es IH]; cbn [fmap list_fmap concat]; [by destruct k|].
  rewrite length_app, <- Nat.add_assoc, drain_entry. by rewrite IH.
Qed.
End facts.
