(* ===== verification/Outbound.v ===== *)
(** * Outbound delivery

    Models [sessiond/src/outbound/scheduler.rs] with the service cycle of
    [logical_channel_policy.generated.rs], a weighted round robin over the six
    traffic classes in which a class that stays ready is served within the gap the
    policy states; the coalescing of [outbound/coalesce.rs]; and the subscriber
    lanes, the hub and the registry of stale clients of [outbound/mod.rs]. *)

From S2P Require Import Prelude.
From S2P Require Import Values.
From S2P Require Import Limits.
From S2P Require Import Models.
From S2P Require Import Store.
From S2P Require Import Transaction.
From S2P Require Import Wire.
From S2P Require Import Dedupe.
From S2P Require Import Resources.

(** [pub enum LogicalChannelClass] *)
Inductive LogicalChannelClass :=
| Control | Input | Ui | TerminalHigh | TerminalNormal | ResourceClass.
#[export] Instance LogicalChannelClass_eq_dec : EqDecision LogicalChannelClass.
Proof. solve_decision. Defined.

(** [LogicalChannelClass::max_service_gap] *)
Definition max_service_gap (c : LogicalChannelClass) : nat :=
  match c with
  | Control => 5 | Input => 5 | Ui => 8 | TerminalHigh => 12 | TerminalNormal => 14 | ResourceClass => 24
  end.

(** [SERVICE_CYCLE] *)
Definition SERVICE_CYCLE : list LogicalChannelClass :=
  [Control; Input; Ui; Control; Input; TerminalHigh; Control; Input; Ui; Control; Input; TerminalNormal;
   Control; Input; Ui; Control; Input; TerminalHigh; Ui; Control; Input; TerminalNormal; TerminalHigh;
   ResourceClass].

(** The cases of [SruiMessage.msg], by their names; the payloads play no part here. *)
Inductive SruiMessageKind :=
| MsgClientHello | MsgServerWelcome | MsgClientResume | MsgServerResumeOk | MsgServerResyncRequired
| MsgTransaction | MsgEvent | MsgServerEventAck | MsgResourceMetadata | MsgResourceChunk
| MsgClientModelRangeRequest | MsgTerminalData | MsgTerminalInput | MsgTerminalResize
| MsgTerminalResyncRequired | MsgServerHandshakeRefused.

(** [logical_class_for_server_envelope] and [server_envelope_matches_class] *)
Definition logical_class_for_server_envelope (message : option SruiMessageKind) : option LogicalChannelClass :=
  match message with
  | Some (MsgServerWelcome | MsgServerResumeOk | MsgServerResyncRequired | MsgServerHandshakeRefused
         | MsgServerEventAck) => Some Control
  | Some MsgTransaction => Some Ui
  | Some (MsgResourceMetadata | MsgResourceChunk) => Some ResourceClass
  | Some MsgTerminalResyncRequired => Some TerminalHigh
  | Some (MsgClientHello | MsgClientResume | MsgEvent | MsgClientModelRangeRequest | MsgTerminalInput
         | MsgTerminalResize | MsgTerminalData) | None => None
  end.
Definition server_envelope_matches_class (message : option SruiMessageKind) (class : LogicalChannelClass) : bool :=
  match message with
  | Some MsgTerminalData => match class with TerminalHigh | TerminalNormal => true | _ => false end
  | _ => bool_decide (logical_class_for_server_envelope message = Some class)
  end.

(** [pub struct LogicalChannelScheduler] and [new] *)
Record LogicalChannelScheduler := mkScheduler { cursor : nat }.
Definition Scheduler_new : LogicalChannelScheduler := mkScheduler 0.

(** [SERVICE_CYCLE[self.cursor]]; an index out of range panics. *)
Definition slot (i : nat) : option LogicalChannelClass := SERVICE_CYCLE !! i.

(** The loop of [LogicalChannelScheduler::select_next]. *)
Fixpoint select_loop (n : nat) (ready : LogicalChannelClass → bool) (s : LogicalChannelScheduler)
    : LogicalChannelScheduler * result Empty_set (option LogicalChannelClass) :=
  match n with
  | O => (s, Ok None)
  | S n =>
      match slot (cursor s) with
      | None => (s, Panic)
      | Some class =>
          let s' := mkScheduler ((cursor s + 1) mod length SERVICE_CYCLE) in
          if ready class then (s', Ok (Some class)) else select_loop n ready s'
      end
  end.
Definition select_next (s : LogicalChannelScheduler) (ready : LogicalChannelClass → bool)
    : LogicalChannelScheduler * result Empty_set (option LogicalChannelClass) :=
  select_loop (length SERVICE_CYCLE) ready s.

(** ** Facts *)

Definition cursor_ok (s : LogicalChannelScheduler) : Prop := cursor s < length SERVICE_CYCLE.

(** Slots from [i] on until [c] comes round. *)
Fixpoint distance (fuel : nat) (c : LogicalChannelClass) (i : nat) : option nat :=
  match fuel with
  | O => None
  | S fuel =>
      if decide (slot i = Some c) then Some 0
      else S <$> distance fuel c ((i + 1) mod length SERVICE_CYCLE)
  end.
Definition slots_until (c : LogicalChannelClass) (i : nat) : option nat := distance 24 c i.

(** From any slot [c] comes round in fewer slots than its stated gap; checked by
    evaluation over the 24 slots of the cycle. *)
Lemma slots_until_gap c i : i < length SERVICE_CYCLE →
  ∃ d, slots_until c i = Some d ∧ d < max_service_gap c.
Proof.
  intros Hi. assert (Forall (λ j, ∃ d, slots_until c j = Some d ∧ d < max_service_gap c) (seq 0 24)) as Hall.
  { destruct c; repeat (constructor; [eexists; split; [reflexivity|cbn; lia]|]); constructor. }
  rewrite Forall_forall in Hall. apply Hall, elem_of_seq. cbn in Hi |- *. lia.
Qed.

Lemma slot_is_Some i : i < length SERVICE_CYCLE → is_Some (slot i).
Proof. apply lookup_lt_is_Some. Qed.

Lemma next_cursor_ok i : (i + 1) mod length SERVICE_CYCLE < length SERVICE_CYCLE.
Proof. apply Nat.mod_upper_bound. done. Qed.

Lemma distance_mono f f' c i d : f ≤ f' → distance f c i = Some d → distance f' c i = Some d.
Proof.
  revert f' i d. induction f as [|f IH]; intros f' i d Hle; [done|]. destruct f' as [|f']; [lia|]. cbn.
  case_decide; [done|]. rewrite !fmap_Some. intros (d' & Hd & ->). exists d'. split; [|done].
  apply IH; [lia|done].
Qed.

(** One selection with [c] ready: it is [c], or another ready class with [c]
    nearer by at least one slot. *)
Lemma select_loop_progress n ready s c d : cursor_ok s → ready c = true →
  distance n c (cursor s) = Some d →
  ∃ s' c', select_loop n ready s = (s', Ok (Some c')) ∧ cursor_ok s' ∧ ready c' = true ∧
    (c' = c ∨ ∃ d', d' < d ∧ distance n c (cursor s') = Some d').
Proof.
  revert s d. induction n as [|n IH]; intros s d Hs Hc Hd; [done|]. cbn [select_loop distance] in *.
  destruct (slot_is_Some _ Hs) as [class Hclass]. rewrite Hclass in *.
  case_decide as Heq.
  - injection Heq as ->. rewrite Hc. do 2 eexists. split; [done|]. split; [apply next_cursor_ok|]. auto.
  - apply fmap_Some in Hd as (d1 & Hd1 & ->).
    set (s1 := mkScheduler ((cursor s + 1) mod length SERVICE_CYCLE)).
    destruct (ready class) eqn:Hr.
    + do 2 eexists. split; [done|]. split; [apply next_cursor_ok|]. split; [done|]. right. exists d1.
      split; [lia|]. apply (distance_mono n (S n)); [lia|done].
    + destruct (IH s1 d1) as (s' & c' & Hsel & Hok & Hr' & Hor); [apply next_cursor_ok|done|done|].
      do 2 eexists. split; [done|]. split; [done|]. split; [done|].
      destruct Hor as [?|(d' & ? & Hd')]; [by left|]. right. exists d'. split; [lia|].
      apply (distance_mono n (S n)); [lia|done].
Qed.

(** A selection that finds nothing has looked at every class, and returns the
    cursor to where it was. *)
Lemma select_next_none s ready : cursor_ok s → (∀ c, ready c = false) → select_next s ready = (s, Ok None).
Proof.
  intros Hs Hr. destruct s as [i]. unfold cursor_ok in Hs. cbn [cursor] in Hs. unfold select_next.
  assert (∀ n j, j < length SERVICE_CYCLE →
    select_loop n ready (mkScheduler j) = (mkScheduler ((j + n) mod length SERVICE_CYCLE), Ok None)) as Hn.
  { induction n as [|n IH]; intros j Hj; cbn [select_loop].
    - by rewrite Nat.add_0_r, Nat.mod_small.
    - cbn [cursor]. destruct (slot_is_Some _ Hj) as [class ->]. rewrite Hr, IH by apply next_cursor_ok.
      do 2 f_equal. rewrite Nat.Div0.add_mod_idemp_l. f_equal. lia. }
  rewrite Hn by done. do 2 f_equal. 
  rewrite <- (Nat.mod_small i (length SERVICE_CYCLE)) at 2 by done.
  rewrite <- (Nat.mul_1_l (length SERVICE_CYCLE)) at 1. by rewrite Nat.Div0.mod_add.
Qed.

(** The classes served by a run of selections. *)
Fixpoint selections (s : LogicalChannelScheduler) (readys : list (LogicalChannelClass → bool))
    : list (option LogicalChannelClass) :=
  match readys with
  | [] => []
  | ready :: readys =>
      match select_next s ready with
      | (s', Ok o) => o :: selections s' readys
      | (_, _) => []
      end
  end.

(** A class that is ready at every selection is served within its gap. *)
Lemma served_within s readys c d : cursor_ok s → Forall (λ ready, ready c = true) readys →
  slots_until c (cursor s) = Some d → d < length readys → Some c ∈ take (S d) (selections s readys).
Proof.
  revert s d. induction readys as [|ready readys IH]; intros s d Hs Hall Hd Hlen; [cbn in Hlen; lia|].
  inversion Hall as [|? ? Hr Hrest]; subst. cbn [selections].
  destruct (select_loop_progress 24 ready s c d Hs Hr Hd) as (s' & c' & Hsel & Hok & _ & Hor).
  unfold select_next. change (length SERVICE_CYCLE) with 24 in *. rewrite Hsel. cbn [take].
  destruct Hor as [->|(d' & Hlt & Hd')]; [by left|]. right.
  cbn in Hlen. specialize (IH s' d' Hok Hrest Hd' ltac:(lia)).
  apply elem_of_take in IH as (i & Hi & ?). apply elem_of_take. exists i. split; [done|lia].
Qed.

(** ** Outbound queues and coalescing

    Models [sessiond/src/outbound/coalesce.rs] and the subscriber queues and hub
    of [outbound/mod.rs]: each connection's bounded lane of committed
    transactions, in which a run of scalar updates may be merged into one
    delivery delta, and the registry of clients whose lane overflowed.

    The length of an encoded envelope is [prost]'s and a parameter. *)

(** [framed_payload_len] of the envelope around a transaction. *)
Class Framing := framed_transaction_len : Msg.Transaction → N.

(** ** Coalescing ([coalesce.rs]) *)

Abbreviation Key := (NodeId * PropertyRef)%type.

(** The first loop: the index of each property's (last) update. *)
Fixpoint index_from (idx : nat) (km : gmap Key nat) (ops : list Operation) : gmap Key nat :=
  match ops with
  | [] => km
  | SetProperty id p _ :: ops => index_from (S idx) (<[(id, p) := idx]> km) ops
  | _ :: ops => index_from (S idx) km ops
  end.
Definition index_keys (ops : list Operation) : gmap Key nat := index_from 0 ∅ ops.

(** [incoming.operations.iter().filter(..).count()] *)
Definition new_key (km : gmap Key nat) (op : Operation) : Prop :=
  match op with SetProperty id p _ => km !! (id, p) = None | _ => False end.
#[export] Instance new_key_dec km op : Decision (new_key km op).
Proof. destruct op; apply _. Defined.
Definition new_keys_count (km : gmap Key nat) (incoming : list Operation) : N :=
  len (filter (new_key km) incoming).

(** The merging loop over [incoming.operations]. *)
Definition merge_step (st : list Operation * gmap Key nat) (op : Operation) : list Operation * gmap Key nat :=
  let '(merged, km) := st in
  match op with
  | SetProperty id p v =>
      match km !! (id, p) with
      | Some idx => (<[idx := SetProperty id p v]> merged, km)
      | None => (merged ++ [SetProperty id p v], <[(id, p) := length merged]> km)
      end
  | _ => st
  end.
Definition merge_ops (tail incoming : list Operation) : list Operation :=
  (foldl merge_step (tail, index_keys tail) incoming).1.

(** [try_absorb]: the merged tail, or [None] where it returns [false]. *)
Definition try_absorb `{PropertyIter, Framing} (tail incoming : Transaction) (max_ops max_frame_size : N)
    : option Transaction :=
  if negb (priority tail =? priority incoming)%N then None
  else if negb (new_revision tail =? base_revision incoming)%N then None
  else if negb (is_coalesceable tail) || negb (is_coalesceable incoming) then None
  else if (max_ops <? len (operations tail) + new_keys_count (index_keys (operations tail)) (operations incoming))%N
  then None
  else
    let merged := mkTransaction (base_revision tail) (new_revision incoming)
                    (merge_ops (operations tail) (operations incoming)) (priority tail) in
    if (max_frame_size <? framed_transaction_len (txn_to_wire merged))%N then None else Some merged.

(** ** One subscriber's lanes ([outbound/mod.rs]) *)

(** [pub enum OutboundRecvError] *)
Inductive OutboundRecvError :=
| Lagged (reason : string)
| Closed.

(** [struct SubscriberState] *)
Record SubscriberState := mkSubscriber {
  capacity : N;
  max_ops : N;
  max_frame_size : N;
  max_resource_size : N;
  sub_items : list Msg.Transaction;
  tail_domain : option Transaction;
  resources : ResourceTransferQueue;
  peak_depth : N;
  stale_reason : option string;
  is_closed : bool;
}.

(** The state [OutboundHub::subscribe] creates. *)
Definition Subscriber_new (capacity max_ops max_frame_size max_resource_size : N) : SubscriberState :=
  mkSubscriber capacity max_ops max_frame_size max_resource_size [] None TransferQueue_default 0 None false.

Definition with_items (s : SubscriberState) (its : list Msg.Transaction) (td : option Transaction) (peak : N) :=
  mkSubscriber (capacity s) (max_ops s) (max_frame_size s) (max_resource_size s) its td (resources s) peak
    (stale_reason s) (is_closed s).
Definition with_resources (s : SubscriberState) (q : ResourceTransferQueue) :=
  mkSubscriber (capacity s) (max_ops s) (max_frame_size s) (max_resource_size s) (sub_items s) (tail_domain s) q
    (peak_depth s) (stale_reason s) (is_closed s).

(** [SubscriberState::clear] *)
Definition clear_lanes (s : SubscriberState) : SubscriberState :=
  mkSubscriber (capacity s) (max_ops s) (max_frame_size s) (max_resource_size s) [] None
    (mkTransferQueue [] None) (peak_depth s) (stale_reason s) (is_closed s).

(** [has_unsent_tail], [pop_transaction], [maybe_enqueue_resource] *)
Definition has_unsent_tail (s : SubscriberState) : bool := negb (is_closed s) && bool_decide (sub_items s ≠ []).
Definition pop_transaction (s : SubscriberState) : SubscriberState * option Msg.Transaction :=
  match sub_items s with
  | [] => (s, None)
  | item :: rest =>
      (with_items s rest (if bool_decide (rest = []) then None else tail_domain s) (peak_depth s), Some item)
  end.
Definition maybe_enqueue_resource (s : SubscriberState) (entry : ResourceEntry) : SubscriberState :=
  if (max_resource_size s <? encoded_length entry)%N then s
  else with_resources s (enqueue (resources s) entry).

(** [pub enum OutboundItem] *)
Inductive OutboundItem :=
| ItemTransaction (tx : Msg.Transaction)
| ItemResource (frame : ResourceFrame).

(** [class_ready], [pop_class], [OutboundReceiver::try_recv_class] *)
Definition class_ready (s : SubscriberState) (c : LogicalChannelClass) : bool :=
  match c with
  | Ui => bool_decide (sub_items s ≠ [])
  | ResourceClass => has_work (resources s)
  | _ => false
  end.
Definition pop_class (s : SubscriberState) (c : LogicalChannelClass) : SubscriberState * option OutboundItem :=
  match c with
  | Ui => let '(s', item) := pop_transaction s in (s', ItemTransaction <$> item)
  | ResourceClass =>
      let '(q, frame) := pop_frame (resources s) in (with_resources s q, ItemResource <$> frame)
  | _ => (s, None)
  end.
Definition try_recv_class (s : SubscriberState) (c : LogicalChannelClass)
    : SubscriberState * result OutboundRecvError (option OutboundItem) :=
  match stale_reason s with
  | Some reason => (s, Err (Lagged reason))
  | None =>
      match pop_class s c with
      | (s', Some item) => (s', Ok (Some item))
      | (s', None) => (s', if is_closed s then Err Closed else Ok None)
      end
  end.

Section subscriber.
Context `{PropertyIter, Framing}.

(** [to_domain] *)
Definition to_domain (tx : Msg.Transaction) : option Transaction :=
  match txn_from_wire tx with Ok txn => Some txn | _ => None end.

Definition overflow_reason (s : SubscriberState) : string :=
  "client queue exceeded bounded capacity of " +:+ pretty (capacity s) +:+ " transactions without absorption".

(** The absorbing half of [try_push_or_absorb]: the cached tail it leaves, and
    the merged tail when it absorbed. *)
Definition absorb_into_tail (s : SubscriberState) (incoming : option Transaction)
    : option Transaction * option Transaction :=
  match incoming with
  | None => (tail_domain s, None)
  | Some incoming =>
      let td := match tail_domain s with
                | Some td => Some td
                | None => last (sub_items s) ≫= to_domain
                end in
      (td, match last (sub_items s), td with
           | Some _, Some tail => try_absorb tail incoming (max_ops s) (max_frame_size s)
           | _, _ => None
           end)
  end.

(** [SubscriberState::try_push_or_absorb] *)
Definition try_push_or_absorb (s : SubscriberState) (tx : Msg.Transaction) (incoming : option Transaction)
    : SubscriberState * result OutboundRecvError bool :=
  if is_closed s then
    (s, Err match stale_reason s with Some reason => Lagged reason | None => Closed end)
  else
    match absorb_into_tail s incoming with
    | (_, Some merged) =>
        (with_items s (<[Nat.pred (length (sub_items s)) := txn_to_wire merged]> (sub_items s)) (Some merged)
           (peak_depth s), Ok false)
    | (td, None) =>
        if (capacity s <=? len (sub_items s))%N then
          (clear_lanes (mkSubscriber (capacity s) (max_ops s) (max_frame_size s) (max_resource_size s)
             (sub_items s) td (resources s) (peak_depth s) (Some (overflow_reason s)) true),
           Err (Lagged (overflow_reason s)))
        else
          let its := sub_items s ++ [tx] in
          (with_items s its incoming (N.max (peak_depth s) (len its)), Ok true)
    end.

(** The decode of [OutboundHub::publish], made only for an unsent tail. *)
Definition publish_one (s : SubscriberState) (tx : Msg.Transaction)
    : SubscriberState * result OutboundRecvError bool :=
  try_push_or_absorb s tx (if has_unsent_tail s then to_domain tx else None).
End subscriber.

(** ** Clients that overflowed *)

Definition MAX_TRACKED_STALE_CLIENTS : N := 1024.

(** [struct StaleClientRegistry] *)
Record StaleClientRegistry := mkStale { stale_order : list Bytes; stale_entries : gmap Bytes N }.
Definition Stale_default : StaleClientRegistry := mkStale [] ∅.

(** [while self.order.len() > MAX_TRACKED_STALE_CLIENTS { .. }] *)
Fixpoint evict_stale (fuel : nat) (r : StaleClientRegistry) : StaleClientRegistry :=
  match fuel with
  | O => r
  | S fuel =>
      if (MAX_TRACKED_STALE_CLIENTS <? len (stale_order r))%N then
        match stale_order r with
        | evicted :: rest => evict_stale fuel (mkStale rest (delete evicted (stale_entries r)))
        | [] => r
        end
      else r
  end.

(** [StaleClientRegistry::mark], [contains], [clear_client] *)
Definition mark (r : StaleClientRegistry) (c : Bytes) (peak : N) : StaleClientRegistry :=
  match stale_entries r !! c with
  | Some old => mkStale (stale_order r) (<[c := N.max old peak]> (stale_entries r))
  | None =>
      let order := stale_order r ++ [c] in
      evict_stale (length order) (mkStale order (<[c := peak]> (stale_entries r)))
  end.
Definition contains (r : StaleClientRegistry) (c : Bytes) : bool := bool_decide (is_Some (stale_entries r !! c)).
Definition clear_client (r : StaleClientRegistry) (c : Bytes) : StaleClientRegistry :=
  match stale_entries r !! c with
  | Some _ => mkStale (retain_ne c (stale_order r)) (delete c (stale_entries r))
  | None => r
  end.

(** ** The hub *)

(** [struct Subscriber]; [sub_alive] is the receiving end of its channel. *)
Record Subscriber := mkSub {
  sub_client : Bytes;
  sub_state : SubscriberState;
  sub_alive : bool;
}.

(** [pub(crate) struct OutboundHub] *)
Record OutboundHub := mkHub {
  subscribers : list Subscriber;
  stale_clients : StaleClientRegistry;
  hub_closed : bool;
}.
Definition Hub_new : OutboundHub := mkHub [] Stale_default false.

(** [OutboundHub::subscribe], without the notification channel. *)
Definition subscribe (h : OutboundHub) (client : Bytes) (capacity max_ops max_frame_size max_resource_size : N)
    : option OutboundHub :=
  if (capacity =? 0)%N || hub_closed h then None
  else
    Some (mkHub (filter (λ s, sub_alive s && negb (is_closed (sub_state s)) = true) (subscribers h) ++
                 [mkSub client (Subscriber_new capacity max_ops max_frame_size max_resource_size) true])
            (stale_clients h) (hub_closed h)).

(** [OutboundHub::seed_resources_excluding], for the subscriber at [receiver]:
    what it does to the subscriber's state, and to the hub. *)
Definition seed_state (st : SubscriberState) (entries : list ResourceEntry) (known_hashes : gset ResourceHash)
    : SubscriberState :=
  if is_closed st then st
  else foldl (λ st e, if bool_decide (re_hash e ∈ known_hashes) then st else maybe_enqueue_resource st e) st entries.
Definition seed_resources_excluding (h : OutboundHub) (receiver : nat) (entries : list ResourceEntry)
    (known_hashes : gset ResourceHash) : OutboundHub :=
  if bool_decide (entries = []) then h
  else mkHub (alter (λ s, mkSub (sub_client s) (seed_state (sub_state s) entries known_hashes) (sub_alive s))
                receiver (subscribers h)) (stale_clients h) (hub_closed h).

(** [OutboundHub::is_client_stale] and [clear_stale_client] *)
Definition is_client_stale (h : OutboundHub) (client : Bytes) : bool := contains (stale_clients h) client.
Definition clear_stale_client (h : OutboundHub) (client : Bytes) : OutboundHub :=
  mkHub (subscribers h) (clear_client (stale_clients h) client) (hub_closed h).

(** The closure of [subs.retain(..)] in [publish]: the subscriber kept, the
    overflow to record. *)
Definition publish_to `{PropertyIter, Framing} (tx : Msg.Transaction) (s : Subscriber)
    : option Subscriber * option (Bytes * N) :=
  if negb (sub_alive s) then (None, None)
  else
    let '(state, outcome) := publish_one (sub_state s) tx in
    match outcome with
    | Ok _ => (Some (mkSub (sub_client s) state true), None)
    | Err (Lagged _) => (None, Some (sub_client s, peak_depth state))
    | _ => (None, None)
    end.

(** [OutboundHub::publish] *)
Definition publish `{PropertyIter, Framing} (h : OutboundHub) (tx : Msg.Transaction) : OutboundHub :=
  if hub_closed h then h
  else
    let results := map (publish_to tx) (subscribers h) in
    mkHub (omap fst results)
      (foldl (λ r '(c, peak), mark r c peak) (stale_clients h) (omap snd results)) (hub_closed h).

(** [OutboundHub::close] *)
Definition close (h : OutboundHub) : OutboundHub := mkHub [] (stale_clients h) true.
