(* ===== verification/Session.v ===== *)
(** * The authoritative session

    Models [sessiond/src/session.rs], the commit half of
    [session/text_edit.rs] and the [UiTransaction] of [sdk/src/session.rs].
    Every function here is one critical section of the session mutex: it maps
    the guarded state to the state it leaves, so an interleaving of connections
    is a sequence of these steps. *)

From S2P Require Import Prelude.
From S2P Require Import Values.
From S2P Require Import Limits.
From S2P Require Import Models.
From S2P Require Import Store.
From S2P Require Import Transaction.
From S2P Require Import Wire.
From S2P Require Import Journal.
From S2P Require Import Dedupe.
From S2P Require Import Event.
From S2P Require Import TextTracker.
From S2P Require Import Resources.

(** ** Lifecycle *)

(** [pub enum SessionState] and [is_terminal] *)
Inductive SessionState := Detached | Attached | Terminating | Expired.
#[export] Instance SessionState_eq_dec : EqDecision SessionState.
Proof. solve_decision. Defined.
Definition is_terminal (st : SessionState) : bool :=
  match st with Terminating | Expired => true | _ => false end.

(** [pub(crate) struct SessionInner]: the fields its own operations change.
    [published] lists what was handed to [OutboundHub::publish], in order. *)
Record SessionInner := mkSession {
  state : SessionState;
  attached_connections : N;
  store : SemanticStore;
  journal : TransactionJournal;
  dedupe : EventDeduplicator;
  text_edit_tracker : TextEditTracker;
  published : list Msg.Transaction;
}.

(** [pub enum SessionError]: the failures of the operations below. *)
Inductive SessionError :=
| SessStore (e : StoreError)
| SessTransaction (e : TxnError)
| SessJournal (e : JournalError)
| SessEventSequence (e : EventSequenceError)
| Panicked.

(** The [Display] texts of errors, used only as diagnostics. *)
Class Diagnostics := {
  validation_message : EventValidationError → string;
  store_message : StoreError → string;
  journal_message : JournalError → string;
  session_message : SessionError → string;
  wire_message : EventWireError → string;
}.

(** [Session::with_config]: the assertions, then an empty session. *)
Definition Session_with_config (journal_capacity outbound_queue_capacity : N)
    : result SessionError SessionInner :=
  if (journal_capacity =? 0)%N || (outbound_queue_capacity =? 0)%N then Panic
  else Ok (mkSession Detached 0 (with_limits StoreLimits_default) (Journal_new journal_capacity)
             Dedupe_default Tracker_default []).

Definition with_lifecycle (s : SessionInner) (st : SessionState) (n : N) : SessionInner :=
  mkSession st n (store s) (journal s) (dedupe s) (text_edit_tracker s) (published s).
Definition with_dedupe (s : SessionInner) (d : EventDeduplicator) : SessionInner :=
  mkSession (state s) (attached_connections s) (store s) (journal s) d (text_edit_tracker s) (published s).
Definition with_tracker (s : SessionInner) (t : TextEditTracker) : SessionInner :=
  mkSession (state s) (attached_connections s) (store s) (journal s) (dedupe s) t (published s).

(** [Session::attach]: [false] where the guard is refused. *)
Definition attach (s : SessionInner) : SessionInner * bool :=
  if is_terminal (state s) then (s, false)
  else (with_lifecycle s (if decide (state s = Detached) then Attached else state s)
          (saturating_add64 (attached_connections s) 1), true).

(** [Session::detach_internal], run when an [AttachmentGuard] drops. *)
Definition detach_internal (s : SessionInner) : SessionInner :=
  let n := (attached_connections s - 1)%N in
  with_lifecycle s
    (if (n =? 0)%N && bool_decide (state s = Attached) then Detached else state s) n.

(** [Session::terminate] and [expire] *)
Definition terminate (s : SessionInner) : SessionInner :=
  with_lifecycle s Terminating (attached_connections s).
Definition expire (s : SessionInner) : SessionInner :=
  with_lifecycle s Expired (attached_connections s).

Section session.
Context `{Registry, EventRegistry, PropertyIter, Diagnostics, Digest}.

(** ** [UiTransaction] ([sdk/src/session.rs]) *)
Record UiTransaction := mkUi {
  ui_staged : SemanticStore;
  ui_operations : list Operation;
  ui_op_count : N;
  ui_max_ops : N;
}.

Definition UiTransaction_new (staged : SemanticStore) (max_ops : N) : UiTransaction :=
  mkUi staged [] 0 max_ops.

(** [UiTransaction::record_op] *)
Definition record_op (ui : UiTransaction) : UiTransaction * result StoreError unit :=
  let ui' := mkUi (ui_staged ui) (ui_operations ui) (ui_op_count ui + 1) (ui_max_ops ui) in
  (ui', err_if (ui_max_ops ui <? ui_op_count ui + 1)%N
          (OperationError ("maximum transaction operations exceeded (limit: " +:+
             pretty (ui_max_ops ui) +:+ ", actual: " +:+ pretty (ui_op_count ui + 1)%N +:+ ")"))).

(** [UiTransaction::apply_op], and with the operation they build
    [create_node], [set], [clear], [delete], [move_node], [reorder_children]:
    the operation is recorded before it is applied. *)
Definition ui_apply_op (ui : UiTransaction) (op : Operation) : UiTransaction * result StoreError unit :=
  match record_op ui with
  | (ui1, Ok _) =>
      let '(staged, r) := apply (ui_staged ui1) op in
      (mkUi staged (ui_operations ui1 ++ [op]) (ui_op_count ui1) (ui_max_ops ui1), r)
  | (ui1, Err e) => (ui1, Err e)
  | (ui1, Panic) => (ui1, Panic)
  | (ui1, Diverge) => (ui1, Diverge)
  end.
Definition ui_set (ui : UiTransaction) (node : NodeId) (p : PropertyRef) (v : Value) :=
  ui_apply_op ui (SetProperty node p v).
Definition ui_delete (ui : UiTransaction) (node : NodeId) := ui_apply_op ui (DeleteNode node).

(** ** Committing *)

Definition is_delete_op (op : Operation) : bool :=
  match op with DeleteNode _ => true | _ => false end.
Definition is_delete_wire (op : Msg.Operation) : bool :=
  match Msg.op op with Some (Msg.DeleteNodeOp _) => true | _ => false end.

(** The infallible half shared by every commit: the store, the journal, the
    editor streams of vanished nodes, the publication. *)
Definition install (s : SessionInner) (new_store : SemanticStore) (permit : JournalPermit)
    (deletes_nodes : bool) : SessionInner :=
  mkSession (state s) (attached_connections s) new_store (append (journal s) permit) (dedupe s)
    (if deletes_nodes then reclaim_missing_nodes (text_edit_tracker s) new_store else text_edit_tracker s)
    (published s ++ [permit_tx permit]).

(** [AuthoritativeCommit::try_from] on the wire transaction. *)
Definition commit_from_wire (tx : Msg.Transaction) : result TxnError AuthoritativeCommit :=
  txn ← txn_from_wire tx; commit_try_from txn.

(** [Session::commit_transaction] *)
Definition commit_transaction (s : SessionInner) (tx : Msg.Transaction)
    : result SessionError (SessionInner * Msg.Transaction) :=
  commit ← map_err SessTransaction (commit_from_wire tx);
  staged ← map_err SessTransaction (prepare_commit (store s) commit);
  permit ← map_err SessJournal (prepare (journal s) commit);
  let tx_wire := permit_tx permit in
  let deletes_nodes := existsb is_delete_wire (Msg.operations tx_wire) in
  Ok (install s (commit_prepared (store s) staged) permit deletes_nodes, tx_wire).

(** [Session::transaction_with_result]; a closure that panics is caught. *)
Definition transaction_with_result {T} (s : SessionInner)
    (f : UiTransaction → N * N → UiTransaction * result StoreError T)
    : result SessionError (SessionInner * (T * Msg.Transaction)) :=
  let base := revision (store s) in
  committed ← ok_or (SessTransaction (RevisionExhausted base)) (checked_next base);
  let ui := UiTransaction_new (clone_staging (store s)) (max_transaction_operations (limits (store s))) in
  match f ui (base, committed) with
  | (ui', Ok value) =>
      let ops := ui_operations ui' in
      let commit := AuthoritativeCommit_new base ops in
      permit ← map_err SessJournal (prepare (journal s) commit);
      let new_store := commit_staging (store s) (ui_staged ui') (new_revision (commit_txn commit)) in
      Ok (install s new_store permit (existsb is_delete_op ops), (value, permit_tx permit))
  | (_, Err e) => Err (SessStore e)
  | (_, Panic) => Err Panicked
  | (_, Diverge) => Diverge
  end.

(** ** Events *)

(** [bound_diagnostic_string]: cut at the last UTF-8 boundary within [max_len]. *)
Definition is_continuation_byte (a : Ascii.ascii) : bool :=
  let n := Ascii.N_of_ascii a in (128 <=? n)%N && (n <? 192)%N.
Definition is_char_boundary (s : string) (i : nat) : bool :=
  match i with
  | O => true
  | _ => match String.get i s with
         | Some a => negb (is_continuation_byte a)
         | None => (i =? String.length s)%nat
         end
  end.
Fixpoint boundary_below (s : string) (fin : nat) : nat :=
  match fin with
  | O => O
  | S n => if is_char_boundary s fin then fin else boundary_below s n
  end.
Definition bound_diagnostic_string (s : string) (max_len : N) : string :=
  if (N.of_nat (String.length s) <=? max_len)%N then s
  else String.substring 0 (boundary_below s (N.to_nat max_len)) s.

(** [pub enum EventOutcome] *)
Inductive EventOutcome :=
| OutProcessed (revision_after last_seq : N)
| OutPending (last_seq : N)
| OutDuplicate (accepted : bool) (revision_after last_seq : N) (reason : string)
| OutRejected (error : EventValidationError) (revision_after last_seq : N).

(** [Session::admit_event]: [None] is [EventAdmission::Fresh]. *)
Definition session_admit_event (s : SessionInner) (event : WireEvent)
    : SessionInner * result SessionError (option EventOutcome) :=
  let '(d, r) := admit_event (dedupe s) (event_key event) in
  (with_dedupe s d,
   map_err SessEventSequence
     ((λ o, match o with
            | Duplicate prior n =>
                Some (OutDuplicate (accepted prior) (revision_after_effect prior) n (reject_reason prior))
            | Pending n => Some (OutPending n)
            | Fresh _ => None
            end) <$> r)).

(** [Session::settle_rejected_event] *)
Definition settle_rejected_event (s : SessionInner) (event : WireEvent) (error : EventValidationError)
    : SessionInner * EventOutcome :=
  let rev := revision (store s) in
  let '(d, last) := settle_event (dedupe s) (event_key event)
    (mkOutcome false rev
       (bound_diagnostic_string (validation_message error) (max_string_length (limits (store s))))) in
  (with_dedupe s d, OutRejected error rev last).

(** [reject_reserved] *)
Definition reject_reserved (s : SessionInner) (event : WireEvent) (node : NodeId) (edit_seq : EditSeq)
    (error : EventValidationError) : SessionInner * EventOutcome :=
  settle_rejected_event
    (with_tracker s (mark_terminal (text_edit_tracker s) (we_client_instance_id event) node edit_seq))
    event error.

(** [is_editor_type], [revalidate_editor_for_commit], [validate_text_edit] *)
Definition is_editor_type (t : TypeRef) : bool :=
  bool_decide (t = TYPE_TEXT_INPUT) || bool_decide (t = TYPE_TEXT_AREA).

Definition revalidate_editor_for_commit (s : SessionInner) (id : NodeId)
    : result EventValidationError unit :=
  node ← ok_or (EvNodeNotFound id) (nodes (store s) !! id);
  err_if (negb (is_editor_type (node_type node))) (UnsupportedNodeType (node_type node)) ≫= λ _,
  match properties node !! PROP_ENABLED with
  | Some (VBool false) => Err (EvNodeDisabled id)
  | _ =>
      match properties node !! PROP_READ_ONLY with
      | Some (VBool true) => Err (NodeReadOnly id)
      | _ => Ok tt
      end
  end.

Definition validate_text_edit (s : SessionInner) (event : Event)
    : result EventValidationError EditSeq :=
  edit_seq ← ok_or InvalidEditSeq (ev_edit_seq event);
  validate_observed_revision event (revision (store s)) ≫= λ _,
  node ← validate_node_interactive event (store s);
  err_if (negb (is_editor_type (node_type node))) (UnsupportedNodeType (node_type node)) ≫= λ _,
  match properties node !! PROP_READ_ONLY with
  | Some (VBool true) => Err (NodeReadOnly (ev_node_id event))
  | _ =>
      text ← ok_or (MissingArgument PROP_TEXT) (text_arg event);
      let n := N.of_nat (String.length text) in
      let limit := max_string_length (limits (store s)) in
      err_if (limit <? n)%N (EvStringTooLong n limit) ≫= λ _,
      Ok edit_seq
  end.

(** The reserving half of [process_admitted_text_edit], up to the point where
    the mutex is released to run the policy: the reserved generation. *)
Definition reserve_text_edit (s : SessionInner) (event : WireEvent) (domain : Event)
    : SessionInner * result SessionError (EventOutcome + EditSeq * N) :=
  match validate_text_edit s domain with
  | Ok edit_seq =>
      let t := if is_at_capacity (text_edit_tracker s)
               then reclaim_departed_clients (text_edit_tracker s) (dedupe s)
               else text_edit_tracker s in
      let s1 := with_tracker s t in
      match reserve t (we_client_instance_id event) (ev_node_id domain) edit_seq with
      | Ok (t', gen) => (with_tracker s1 t', Ok (inr (edit_seq, gen)))
      | Err error => let '(s2, o) := settle_rejected_event s1 event error in (s2, Ok (inl o))
      | Panic => (s1, Panic)
      | Diverge => (s1, Diverge)
      end
  | Err error => let '(s1, o) := settle_rejected_event s event error in (s1, Ok (inl o))
  | Panic => (s, Panic)
  | Diverge => (s, Diverge)
  end.

(** [pub enum TextEditDecision] *)
Inductive TextEditDecision :=
| Accept
| Correct (value : string) (validation : N)
| Reject (value : option string) (reason : string).

(** [current_editor_value] *)
Definition current_editor_value (s : SessionInner) (id : NodeId) : string :=
  match nodes (store s) !! id with
  | Some node =>
      match properties node !! PROP_VALUE ≫= as_string with
      | Some v => v
      | None => default "" (properties node !! PROP_TEXT ≫= as_string)
      end
  | None => ""
  end.

(** What a decision publishes: value, validation token, accepted, reason. *)
Definition decide_text_edit (s : SessionInner) (id : NodeId) (submitted : string) (d : TextEditDecision)
    : string * N * bool * string :=
  match d with
  | Accept => (submitted, VALIDATION_VALID, true, "")
  | Correct value validation => (value, validation, true, "")
  | Reject value reason => (default (current_editor_value s id) value, VALIDATION_ERROR, false, reason)
  end.

(** The two [ui.set] calls of a text-edit commit. *)
Definition text_edit_ops (id : NodeId) (value : string) (validation : N) : list Operation :=
  [SetProperty id PROP_VALUE (VString value);
   SetProperty id PROP_VALIDATION_STATE (VEnumToken (mkEnumToken VALIDATION_STATE_ENUM validation))].

(** [for op in ops { ui.apply_op(op)? }] *)
Fixpoint ui_run (ui : UiTransaction) (ops : list Operation) : UiTransaction * result StoreError unit :=
  match ops with
  | [] => (ui, Ok tt)
  | op :: ops =>
      match ui_apply_op ui op with
      | (ui', Ok _) => ui_run ui' ops
      | stop => stop
      end
  end.

(** [enum TextEditCommit] *)
Inductive TextEditCommit :=
| TSettled (outcome : EventOutcome)
| DispatchAccepted (tx : Msg.Transaction).

(** [reject_reserved_store] *)
Definition map_store_error (e : StoreError) : EventValidationError :=
  match e with NodeNotFound id => EvNodeNotFound id | other => PolicyRejected (store_message other) end.

(** [Session::commit_text_edit_decision]. *)
Definition commit_text_edit_decision (s : SessionInner) (event : WireEvent) (node : NodeId)
    (edit_seq : EditSeq) (submitted : string) (reserved_generation : N) (decision : TextEditDecision)
    : SessionInner * result SessionError TextEditCommit :=
  let c := we_client_instance_id event in
  let rejected err := let '(s', o) := reject_reserved s event node edit_seq err in (s', Ok (TSettled o)) in
  if negb (is_in_flight (dedupe s) c (we_event_id event)) then
    (s, Ok (TSettled
      match settled_outcome (dedupe s) c (we_event_id event) with
      | Some prior => OutDuplicate (accepted prior) (revision_after_effect prior)
                        (last_contiguous_of (dedupe s) c) (reject_reason prior)
      | None => OutPending (last_contiguous_of (dedupe s) c)
      end))
  else
    match revalidate_editor_for_commit s node with
    | Err err => rejected err
    | Panic => (s, Panic)
    | Diverge => (s, Diverge)
    | Ok _ =>
        if negb (default 0%N (generation_of (text_edit_tracker s) c node) =? reserved_generation)%N
        then rejected SupersededGeneration
        else
          let '(value, validation, accept, reason) := decide_text_edit s node submitted decision in
          let max := max_string_length (limits (store s)) in
          if (max <? N.of_nat (String.length value))%N
          then rejected (EvStringTooLong (N.of_nat (String.length value)) max)
          else
            let base := revision (store s) in
            let ui := UiTransaction_new (clone_staging (store s))
                        (max_transaction_operations (limits (store s))) in
            match ui_run ui (text_edit_ops node value validation) with
            | (_, Err err) => rejected (map_store_error err)
            | (_, Panic) => (s, Panic)
            | (_, Diverge) => (s, Diverge)
            | (ui', Ok _) =>
                let commit := AuthoritativeCommit_new base (ui_operations ui') in
                match prepare (journal s) commit with
                | Err err => rejected (PolicyRejected (journal_message err))
                | Panic => (s, Panic)
                | Diverge => (s, Diverge)
                | Ok permit =>
                    let s1 := install s
                      (commit_staging (store s) (ui_staged ui') (new_revision (commit_txn commit)))
                      permit false in
                    let t1 := mark_terminal (text_edit_tracker s1) c node edit_seq in
                    if accept then
                      match begin_committed_handler_dispatch t1 event with
                      | Ok t2 => (with_tracker s1 t2, Ok (DispatchAccepted (permit_tx permit)))
                      | _ => (with_tracker s1 t1, Panic)
                      end
                    else
                      let s2 := with_tracker s1 t1 in
                      let rev := revision (store s2) in
                      let '(d, last) := settle_event (dedupe s2) (event_key event)
                        (mkOutcome false rev (bound_diagnostic_string reason max)) in
                      (with_dedupe s2 d,
                       Ok (TSettled (OutRejected
                         (PolicyRejected (bound_diagnostic_string reason max)) rev last)))
                end
            end
    end.

(** [Session::abandon_text_edit_after_panic] *)
Definition abandon_text_edit_after_panic (s : SessionInner) (event : WireEvent) (node : NodeId)
    (edit_seq : EditSeq) : SessionInner :=
  with_dedupe
    (with_tracker s (abandon_reservation (text_edit_tracker s) (we_client_instance_id event) node edit_seq))
    (abandon_event (dedupe s) (event_key event)).

(** [enum HandlerDispatchKind] *)
Inductive HandlerDispatchKind := Ordinary | CommittedTextEdit.

(** What running the handlers under [catch_unwind] came to. *)
Inductive Dispatch :=
| HandlersDone
| HandlerFailed (error : SessionError)
| HandlerPanicked.

(** [Session::dispatch_admitted_event]: from the moment the handlers return.
    While they run the mutex is free, so other steps come in between. *)
Definition dispatch_admitted_event (s : SessionInner) (event : WireEvent)
    (kind : HandlerDispatchKind) (dispatch : Dispatch)
    : SessionInner * result SessionError EventOutcome :=
  let settled :=
    let rev := revision (store s) in
    let '(d, last) := settle_event (dedupe s) (event_key event) (mkOutcome true rev "") in
    let t := match kind with
             | CommittedTextEdit => finish_committed_handler_dispatch (text_edit_tracker s) event
             | Ordinary => text_edit_tracker s
             end in
    (with_tracker (with_dedupe s d) t,
     match dispatch with
     | HandlersDone => Ok (OutProcessed rev last)
     | HandlerFailed error => Err error
     | HandlerPanicked => Err Panicked
     end) in
  match dispatch, kind with
  | HandlerFailed error, Ordinary =>
      let '(s', o) := settle_rejected_event s event
        (PolicyRejected ("event handler failed: " +:+ session_message error)) in (s', Ok o)
  | HandlerPanicked, Ordinary => (with_dedupe s (abandon_event (dedupe s) (event_key event)), Err Panicked)
  | _, _ => settled
  end.

(** ** [Session::process_event] *)

(** [u64::to_be_bytes] *)
Definition be_bytes (n : N) : Bytes := map (λ i, (n / 2 ^ (8 * (7 - i))) mod 256)%N (seqN 0 8).

(** [oversized_event_digest], [oversized_event_dedupe_id] *)
Definition oversized_event_digest (event_id : Bytes) : Bytes := take 16 (sha256 event_id).
Definition oversized_event_dedupe_id (event_seq : N) (event_id : Bytes) : Bytes :=
  be_bytes event_seq ++ oversized_event_digest event_id ++
  replicate (N.to_nat MAX_EVENT_ID_BYTES + 1 - 8 - 16) 255%N.

(** [bounded_rejected_event_id], [bounded_event_id_for_response] *)
Definition rejected_oversized_prefix : Bytes :=
  map Ascii.N_of_ascii (String.list_ascii_of_string "srui-rejected-oversized:").
Definition bounded_rejected_event_id (event_seq : N) (event_id : Bytes) : Bytes :=
  rejected_oversized_prefix ++ be_bytes event_seq ++ oversized_event_digest event_id.
Definition bounded_event_id_for_response (event : WireEvent) : Bytes :=
  if (len (we_event_id event) <=? MAX_EVENT_ID_BYTES)%N then we_event_id event
  else bounded_rejected_event_id (we_event_seq event) (we_event_id event).

(** [oversized_event_placeholder] *)
Definition oversized_event_placeholder (event : WireEvent) : WireEvent :=
  mkWireEvent (we_client_instance_id event) (we_event_seq event)
    (oversized_event_dedupe_id (we_event_seq event) (we_event_id event)) 0 0 (we_event_type event) [] 0.

(** The event admitted in place of [event]. *)
Definition admission_event (event : WireEvent) : WireEvent :=
  match event_from_wire event with
  | Err (EventIdTooLong _ _) => oversized_event_placeholder event
  | _ => event
  end.

(** What is left to do when the mutex is released. *)
Inductive Continuation :=
| Finished (outcome : EventOutcome)
| RunPolicy (domain : Event) (edit_seq : EditSeq) (generation : N)
| RunHandlers (domain : Event).

(** [Session::process_event], up to the release of the mutex. *)
Definition process_event (s : SessionInner) (event : WireEvent)
    : SessionInner * result SessionError Continuation :=
  let domain := event_from_wire event in
  let admitted := admission_event event in
  let finished '(s', o) := (s', Ok (Finished o)) in
  match session_admit_event s admitted with
  | (s1, Ok (Some outcome)) => (s1, Ok (Finished outcome))
  | (s1, Ok None) =>
      match domain with
      | Ok domain =>
          if bool_decide (ev_type domain = EVENT_TEXT_EDIT) then
            match reserve_text_edit s1 event domain with
            | (s2, Ok (inl outcome)) => (s2, Ok (Finished outcome))
            | (s2, Ok (inr (edit_seq, gen))) => (s2, Ok (RunPolicy domain edit_seq gen))
            | (s2, Err e) => (s2, Err e)
            | (s2, Panic) => (s2, Panic)
            | (s2, Diverge) => (s2, Diverge)
            end
          else
            match validate domain (store s1) with
            | Ok _ => (s1, Ok (RunHandlers domain))
            | Err error => finished (settle_rejected_event s1 event error)
            | Panic => (s1, Panic)
            | Diverge => (s1, Diverge)
            end
      | Err wire_error =>
          finished (settle_rejected_event s1 admitted
            (PolicyRejected ("malformed event: " +:+ wire_message wire_error)))
      | Panic => (s1, Panic)
      | Diverge => (s1, Diverge)
      end
  | (s1, Err e) => (s1, Err e)
  | (s1, Panic) => (s1, Panic)
  | (s1, Diverge) => (s1, Diverge)
  end.

(** ** Cancelling a resuming client's pending text edits *)

(** [message PendingTextEditRef] and [struct ValidatedPendingTextEditRef] *)
Record PendingTextEditRef := mkPendingRef {
  pr_event_id : Bytes;
  pr_event_seq : N;
  pr_node_id : N;
  pr_edit_seq : N;
}.
Record ValidatedPendingTextEditRef := mkValidatedRef {
  vr_reference : PendingTextEditRef;
  vr_dedupe_event_id : Bytes;
  vr_edit_seq : EditSeq;
}.

(** The body of the loop of [validate_pending_text_edit_refs]: the two sets of
    identifiers seen, and the text of [SessionError::InvalidInput]. *)
Definition validate_ref (seen : gset Bytes * gset Bytes) (r : PendingTextEditRef)
    : result string ((gset Bytes * gset Bytes) * ValidatedPendingTextEditRef) :=
  err_if (bool_decide (pr_event_id r = []) || (pr_event_seq r =? 0)%N)
    "pending TEXT_EDIT ref is missing event_id or event_seq" ≫= λ _,
  let oversized := (MAX_EVENT_ID_BYTES <? len (pr_event_id r))%N in
  let dedupe_event_id := if oversized then oversized_event_dedupe_id (pr_event_seq r) (pr_event_id r)
                         else pr_event_id r in
  let response_event_id := if oversized then bounded_rejected_event_id (pr_event_seq r) (pr_event_id r)
                           else pr_event_id r in
  err_if (bool_decide (dedupe_event_id ∈ seen.1) || bool_decide (response_event_id ∈ seen.2))
    "pending_text_edits repeats a normalized event_id" ≫= λ _,
  edit_seq ← ok_or "pending TEXT_EDIT ref requires a positive edit_seq" (EditSeq_new (pr_edit_seq r));
  Ok (({[dedupe_event_id]} ∪ seen.1, {[response_event_id]} ∪ seen.2),
      mkValidatedRef (mkPendingRef response_event_id (pr_event_seq r) (pr_node_id r) (pr_edit_seq r))
        dedupe_event_id edit_seq).
Fixpoint validate_refs (seen : gset Bytes * gset Bytes) (refs : list PendingTextEditRef)
    : result string (list ValidatedPendingTextEditRef) :=
  match refs with
  | [] => Ok []
  | r :: refs =>
      '(seen, v) ← validate_ref seen r;
      vs ← validate_refs seen refs;
      Ok (v :: vs)
  end.

(** [Session::validate_pending_text_edit_refs] *)
Definition validate_pending_text_edit_refs (refs : list PendingTextEditRef)
    : result string (list ValidatedPendingTextEditRef) :=
  err_if (MAX_TEXT_EDIT_STREAMS <? len refs)%N
    ("pending_text_edits has " +:+ pretty (len refs) +:+ " entries; at most " +:+
     pretty MAX_TEXT_EDIT_STREAMS +:+ " are accepted (§18.3, §26)") ≫= λ _,
  validate_refs (∅, ∅) refs.

(** [struct PendingTextEditCancellation] *)
Record PendingTextEditCancellation := mkCancellation {
  staged_dedupe : EventDeduplicator;
  discarded : list PendingTextEditRef;
}.

(** One reference: settled as rejected if the window had not seen it. *)
Definition cancel_event (d : EventDeduplicator) (k : EventKey) (outcome : EventOutcomeRecord)
    : EventDeduplicator :=
  match admit_event d k with
  | (d', Ok (Fresh _)) => (settle_event d' k outcome).1
  | (d', _) => d'
  end.
Definition cancelled_key (c : Bytes) (v : ValidatedPendingTextEditRef) : EventKey :=
  mkEventKey c (vr_dedupe_event_id v) (pr_event_seq (vr_reference v))
    (Some (type_namespace_id EVENT_TEXT_EDIT, type_local_id EVENT_TEXT_EDIT)).
Definition cancelled_outcome (s : SessionInner) : EventOutcomeRecord :=
  mkOutcome false (revision (store s))
    (bound_diagnostic_string "canceled on same-session resync" (max_string_length (limits (store s)))).

(** [Session::prepare_pending_text_edit_cancellation], and [commit]. *)
Definition prepare_pending_text_edit_cancellation (s : SessionInner) (c : Bytes)
    (refs : list ValidatedPendingTextEditRef) : PendingTextEditCancellation :=
  mkCancellation
    (foldl (λ d v, cancel_event d (cancelled_key c v) (cancelled_outcome s)) (dedupe s) refs)
    (map vr_reference refs).
Definition commit_cancellation (s : SessionInner) (c : PendingTextEditCancellation) : SessionInner :=
  with_dedupe s (staged_dedupe c).

(** [Session::collect_replayed_transactions] *)
Definition collect_replayed_transactions (s : SessionInner) (from : N) : option (list Msg.Transaction) :=
  replay_from (journal s) from.
End session.
