(* ===== verification/SessionFacts.v ===== *)
(** * The session keeps store, journal and replicas in step

    The session invariant, that every commit path preserves it and can fail
    only for a transaction error, and that applying the published transaction
    takes a replica from the server's old store to its new one. *)

From S2P Require Import Prelude.
From S2P Require Import Values.
From S2P Require Import Limits.
From S2P Require Import Models.
From S2P Require Import ModelFacts.
From S2P Require Import Store.
From S2P Require Import StoreFacts.
From S2P Require Import StoreInv.
From S2P Require Import Transaction.
From S2P Require Import TransactionFacts.
From S2P Require Import Wire.
From S2P Require Import WireFacts.
From S2P Require Import Journal.
From S2P Require Import Dedupe.
From S2P Require Import Event.
From S2P Require Import TextTracker.
From S2P Require Import Resources.
From S2P Require Import Session.

Section session.
Context `{Registry, EventRegistry, PropertyIter, Diagnostics, Digest}.

(** The committed revision is the journal's head, and its entries the steps
    that led there. *)
Record session_wf (s : SessionInner) : Prop := {
  se_store : store_wf (store s);
  se_journal : journal_wf (journal s);
  se_lockstep : latest_revision (journal s) = revision (store s);
}.

Lemma Session_with_config_wf jc oc s : Session_with_config jc oc = Ok s → session_wf s.
Proof.
  unfold Session_with_config. case_match; [done|]. intros [= <-]. split; cbn.
  - apply store_wf_empty.
  - apply with_initial_revision_wf.
  - done.
Qed.

(** ** Committing a transaction *)

Lemma validate_commit_Ok txn u : validate_commit txn = Ok u ↔
  new_revision txn = (base_revision txn + 1)%N ∧ (base_revision txn + 1 ≤ u64_max)%N.
Proof.
  destruct u. unfold validate_commit, checked_next.
  destruct (checked_add64 (base_revision txn) 1) as [n|] eqn:Hn.
  - apply checked_add64_Some in Hn as [-> ?]. rewrite err_if_Ok, negb_false_iff, N.eqb_eq. tauto.
  - apply checked_add64_None in Hn. split; [done|lia].
Qed.

Lemma commit_from_wire_Ok tx c : commit_from_wire tx = Ok c ↔
  ∃ txn, txn_from_wire tx = Ok txn ∧ c = Commit_ txn ∧
    new_revision txn = (base_revision txn + 1)%N ∧ (base_revision txn + 1 ≤ u64_max)%N.
Proof.
  unfold commit_from_wire, commit_try_from. rewrite bind_Ok. setoid_rewrite bind_unit_Ok.
  setoid_rewrite validate_commit_Ok. split.
  - intros (txn & ? & ? & [= <-]). eauto 10.
  - intros (txn & ? & -> & ?). eauto 10.
Qed.

Lemma prepare_commit_Ok s txn staged : prepare_commit s (Commit_ txn) = Ok staged ↔
  base_revision txn = revision s ∧ (len (operations txn) ≤ max_transaction_operations (limits s))%N ∧
  ∃ s', apply_ops 0 s (operations txn) = Ok s' ∧
    staged = mkStagedCommit s' (base_revision txn) (new_revision txn).
Proof.
  unfold prepare_commit, check_base_revision, check_max_ops. cbn [commit_txn].
  rewrite !bind_unit_Ok, err_if_Ok, negb_false_iff, N.eqb_eq, err_if_ltb_Ok, bind_Ok, clone_staging_id.
  split.
  - intros (? & ? & s' & ? & [= <-]). eauto 10.
  - intros (? & ? & s' & ? & ->). eauto 10.
Qed.

Lemma validate_commit_returns txn : returns (validate_commit txn).
Proof. unfold validate_commit. case_match; [apply returns_err_if|done]. Qed.

Lemma prepare_commit_returns s txn : store_wf s → Forall op_bounded (operations txn) →
  returns (prepare_commit s (Commit_ txn)).
Proof.
  intros Hwf Hops. unfold prepare_commit, check_base_revision, check_max_ops. cbn [commit_txn].
  do 2 (apply returns_bind; [apply returns_err_if|intros _ _]). apply returns_bind; [|done].
  rewrite clone_staging_id. by apply apply_ops_returns.
Qed.

(** [prepare_commit] then [commit_prepared] is [apply_authoritative]. *)
Lemma prepare_then_commit s txn :
  apply_authoritative s (Commit_ txn) =
  match prepare_commit s (Commit_ txn) with
  | Ok staged => (commit_prepared s staged, Ok (new_revision txn))
  | Err e => (s, Err e)
  | Panic => (s, Panic)
  | Diverge => (s, Diverge)
  end.
Proof.
  unfold apply_authoritative, prepare_commit, apply_staged. cbn [commit_txn].
  destruct (check_base_revision s (base_revision txn)); cbn; try done.
  destruct (check_max_ops s (operations txn)); cbn; try done.
  by destruct (apply_ops 0 (clone_staging s) (operations txn)).
Qed.

(** A journal in lockstep admits whatever the store would commit. *)
Lemma prepare_lockstep s txn : session_wf s → base_revision txn = revision (store s) →
  prepare (journal s) (Commit_ txn) = Ok (mkPermit (txn_to_wire txn)).
Proof.
  intros Hs Hb. unfold prepare. apply bind_unit_Ok. split; [|done].
  apply check_contiguity_Ok. right. cbn. by rewrite Hb, (se_lockstep _ Hs).
Qed.

Lemma permit_admissible s txn : session_wf s → base_revision txn = revision (store s) →
  new_revision txn = (base_revision txn + 1)%N → admissible (journal s) (txn_to_wire txn).
Proof. intros Hs Hb Hn. split; [done|]. right. cbn. by rewrite Hb, (se_lockstep _ Hs). Qed.

Lemma install_wf s txn new_store deletes :
  session_wf s → base_revision txn = revision (store s) →
  new_revision txn = (base_revision txn + 1)%N → store_wf new_store →
  revision new_store = new_revision txn →
  session_wf (install s new_store (mkPermit (txn_to_wire txn)) deletes).
Proof.
  intros Hs Hb Hn Hwf Hrev. split; cbn.
  - done.
  - by apply append_wf; [apply Hs|apply permit_admissible].
  - by rewrite append_latest.
Qed.

(** Exactly when [commit_transaction] succeeds, and what it then leaves. *)
Lemma commit_transaction_Ok s tx s' tx' : session_wf s →
  commit_transaction s tx = Ok (s', tx') ↔
  ∃ txn staged, txn_from_wire tx = Ok txn ∧
    new_revision txn = (base_revision txn + 1)%N ∧ (base_revision txn + 1 ≤ u64_max)%N ∧
    base_revision txn = revision (store s) ∧
    (len (operations txn) ≤ max_transaction_operations (limits (store s)))%N ∧
    apply_ops 0 (store s) (operations txn) = Ok staged ∧ tx' = txn_to_wire txn ∧
    s' = install s (commit_staging (store s) staged (new_revision txn)) (mkPermit tx')
           (existsb is_delete_wire (Msg.operations tx')).
Proof.
  intros Hs. unfold commit_transaction. rewrite bind_Ok. split.
  - intros (c & Hc & Heq). destruct (commit_from_wire tx) as [c0| | |] eqn:Hcw; try done.
    injection Hc as ->. apply commit_from_wire_Ok in Hcw as (txn & Htxn & -> & Hn & Hmax).
    apply bind_Ok in Heq as (st & Hst & Heq).
    destruct (prepare_commit (store s) (Commit_ txn)) as [st0| | |] eqn:Hp; try done. injection Hst as ->.
    apply prepare_commit_Ok in Hp as (Hb & Hlen & staged & Hops & ->).
    rewrite prepare_lockstep in Heq by done. cbn in Heq. injection Heq as <- <-.
    exists txn, staged. done.
  - intros (txn & staged & Htxn & Hn & Hmax & Hb & Hlen & Hops & -> & ->).
    exists (Commit_ txn). split.
    { rewrite (proj2 (commit_from_wire_Ok tx (Commit_ txn))) by eauto 10. done. }
    rewrite (proj2 (prepare_commit_Ok (store s) txn _)) by eauto 10. cbn [map_err mbind result_bind].
    rewrite prepare_lockstep by done. done.
Qed.

Lemma commit_transaction_wf s tx s' tx' : session_wf s →
  commit_transaction s tx = Ok (s', tx') → session_wf s'.
Proof.
  intros Hs Heq. apply commit_transaction_Ok in Heq
    as (txn & staged & _ & Hn & _ & Hb & _ & Hops & -> & ->); [|done].
  apply install_wf; try done. apply apply_ops_wf in Hops as [? [? ? ? ?]]; [|apply Hs].
  by apply commit_staging_wf.
Qed.

(** The journal never refuses: a commit fails for a transaction error only. *)
Lemma commit_transaction_journal s tx e : session_wf s →
  commit_transaction s tx ≠ Err (SessJournal e).
Proof.
  intros Hs Heq. unfold commit_transaction in Heq.
  destruct (commit_from_wire tx) as [c| | |] eqn:Hcw; try done.
  apply commit_from_wire_Ok in Hcw as (txn & _ & -> & _). cbn [map_err mbind result_bind] in Heq.
  destruct (prepare_commit (store s) (Commit_ txn)) as [st| | |] eqn:Hp; try done.
  apply prepare_commit_Ok in Hp as (Hb & _). cbn [map_err mbind result_bind] in Heq.
  by rewrite prepare_lockstep in Heq.
Qed.

(** ** Replicas *)

(** A replica at the server's old store follows the published transaction. *)
Lemma replica_follows s tx s' tx' : session_wf s → txn_typed tx →
  commit_transaction s tx = Ok (s', tx') →
  apply_delivered_transaction (store s) tx' = (store s', Ok (revision (store s'))).
Proof.
  intros Hs Ht Heq. apply commit_transaction_Ok in Heq
    as (txn & staged & Htxn & Hn & Hmax & Hb & Hlen & Hops & -> & ->); [|done].
  unfold apply_delivered_transaction. rewrite txn_round_trip by by eapply txn_from_wire_canonical.
  unfold apply_delivered, delivered_try_from, checked_next.
  rewrite (proj2 (checked_add64_Some _ _ (base_revision txn + 1)%N)) by done.
  rewrite Hn, N.eqb_refl, prepare_then_commit.
  rewrite (proj2 (prepare_commit_Ok (store s) txn _)) by eauto 10. by rewrite Hn.
Qed.

(** ** [Session::transaction] *)

(** What a closure can do to the transaction it is given. *)
Inductive ui_reach : UiTransaction → UiTransaction → Prop :=
| ui_reach_refl ui : ui_reach ui ui
| ui_reach_step ui1 ui2 op : ui_reach ui1 ui2 → ui_reach ui1 (ui_apply_op ui2 op).1.

(** The same, when every call it made succeeded. *)
Inductive ui_clean : UiTransaction → UiTransaction → Prop :=
| ui_clean_refl ui : ui_clean ui ui
| ui_clean_step ui1 ui2 ui3 op : ui_clean ui1 ui2 → ui_apply_op ui2 op = (ui3, Ok tt) → ui_clean ui1 ui3.

Definition ui_ops_bounded (ui : UiTransaction) : Prop :=
  (len (ui_operations ui) ≤ ui_op_count ui)%N ∧ (len (ui_operations ui) ≤ ui_max_ops ui)%N.

Lemma ui_apply_op_inv ui op ui' r : ui_apply_op ui op = (ui', r) →
  ui_max_ops ui' = ui_max_ops ui ∧ ui_op_count ui' = (ui_op_count ui + 1)%N ∧
  ((ui_staged ui' = ui_staged ui ∧ ui_operations ui' = ui_operations ui ∧ is_ok r = false) ∨
   (ui_op_count ui + 1 ≤ ui_max_ops ui)%N ∧ ui_operations ui' = ui_operations ui ++ [op] ∧
   apply (ui_staged ui) op = (ui_staged ui', r)).
Proof.
  unfold ui_apply_op, record_op. cbn.
  destruct (N.ltb_spec (ui_max_ops ui) (ui_op_count ui + 1)%N); cbn.
  - intros [= <- <-]. split_and!; [done..|]. by left.
  - destruct (apply (ui_staged ui) op) as [staged r'] eqn:Ha. intros [= <- <-].
    split_and!; [done..|]. by right.
Qed.

Lemma ui_reach_wf ui ui' : ui_reach ui ui' → store_wf (ui_staged ui) → ui_ops_bounded ui →
  store_wf (ui_staged ui') ∧ framed (ui_staged ui) (ui_staged ui') ∧ ui_ops_bounded ui'.
Proof.
  intros Hr Hwf Hb. induction Hr as [|ui1 ui2 op _ IH]; [done|]. destruct (IH Hwf Hb) as (Hwf2 & Hf2 & Hb2).
  destruct (ui_apply_op ui2 op) as [ui3 r] eqn:Heq.
  apply ui_apply_op_inv in Heq as (Hmax & Hcount & [(Hst & Hops & _)|(Hle & Hops & Ha)]); cbn.
  - rewrite Hst. split_and!; [done..|]. unfold ui_ops_bounded in *. rewrite Hops, Hcount, Hmax. lia.
  - pose proof (apply_wf _ op Hwf2) as Hwf3. pose proof (apply_framed _ op Hwf2) as Hf3.
    rewrite Ha in Hwf3, Hf3. cbn in *. split_and!; [done|by etrans|].
    unfold ui_ops_bounded in *. rewrite Hops, Hcount, Hmax, len_app. unfold len at 2 4. cbn. lia.
Qed.

Lemma ui_clean_ops ui ui' : ui_clean ui ui' → ui_operations ui = [] →
  apply_ops 0 (ui_staged ui) (ui_operations ui') = Ok (ui_staged ui').
Proof.
  intros Hc Hnil. induction Hc as [ui|ui1 ui2 ui3 op _ IH Heq]; [by rewrite Hnil|].
  specialize (IH Hnil). apply ui_apply_op_inv in Heq as (_ & _ & [(_ & _ & ?)|(_ & Hops & Ha)]); [done|].
  rewrite Hops, apply_ops_app, IH. cbn. by rewrite Ha.
Qed.

Lemma next_small r : (r + 1 ≤ u64_max)%N → next r = (r + 1)%N.
Proof. apply add64_small. Qed.

(** A commit by closure: what the session is left with. *)
Lemma transaction_with_result_Ok {T} s (f : UiTransaction → N * N → UiTransaction * result StoreError T)
    s' v tx : session_wf s → transaction_with_result s f = Ok (s', (v, tx)) →
  let ui := UiTransaction_new (store s) (max_transaction_operations (limits (store s))) in
  ∃ ui', f ui (revision (store s), revision (store s) + 1)%N = (ui', Ok v) ∧
    (revision (store s) + 1 ≤ u64_max)%N ∧
    tx = txn_to_wire (Transaction_new (revision (store s)) (ui_operations ui')) ∧
    s' = install s (commit_staging (store s) (ui_staged ui') (revision (store s) + 1)%N) (mkPermit tx)
           (existsb is_delete_op (ui_operations ui')).
Proof.
  intros Hs Heq ui. unfold transaction_with_result in Heq. apply bind_Ok in Heq as (rev & Hrev & Heq).
  apply ok_or_Ok, checked_add64_Some in Hrev as [-> Hmax]. rewrite clone_staging_id in Heq.
  fold ui in Heq. destruct (f ui _) as [ui' [w| | |]] eqn:Hf; try done.
  unfold AuthoritativeCommit_new in Heq.
  rewrite (prepare_lockstep s (Transaction_new (revision (store s)) (ui_operations ui')) Hs eq_refl) in Heq.
  cbn in Heq. rewrite next_small in Heq by done. injection Heq as <- <- <-.
  exists ui'. split_and!; done.
Qed.

Lemma ui_clean_reach ui ui' : ui_clean ui ui' → ui_reach ui ui'.
Proof.
  induction 1 as [|ui1 ui2 ui3 op _ IH Heq]; [constructor|].
  pose proof (ui_reach_step _ _ op IH) as Hr. by rewrite Heq in Hr.
Qed.

(** A closure that propagates every error with [?] and uses no sentinel:
    where it returns [Ok], every call it made did. *)
Definition clean_closure {T} (f : UiTransaction → N * N → UiTransaction * result StoreError T) : Prop :=
  ∀ ui revs ui' v, f ui revs = (ui', Ok v) → ui_operations ui = [] →
    ui_clean ui ui' ∧ Forall op_canonical (ui_operations ui').

(** When every call the closure made succeeded and no operation uses a wire
    sentinel, a replica follows that commit too. *)
Lemma replica_follows_closure {T} s
    (f : UiTransaction → N * N → UiTransaction * result StoreError T) s' v tx :
  session_wf s → transaction_with_result s f = Ok (s', (v, tx)) →
  clean_closure f →
  apply_delivered_transaction (store s) tx = (store s', Ok (revision (store s'))).
Proof.
  intros Hs Heq Hf. apply transaction_with_result_Ok in Heq as (ui' & Hfe & Hmax & -> & ->); [|done].
  destruct (Hf _ _ _ _ Hfe eq_refl) as [Hclean Hcan].
  unfold apply_delivered_transaction. rewrite txn_round_trip by done.
  unfold apply_delivered, delivered_try_from, checked_next. cbn [base_revision new_revision Transaction_new].
  rewrite next_small by done.
  rewrite (proj2 (checked_add64_Some _ _ (revision (store s) + 1)%N)) by done.
  rewrite N.eqb_refl, prepare_then_commit.
  assert (len (ui_operations ui') ≤ max_transaction_operations (limits (store s)))%N as Hlen.
  { pose proof (ui_clean_reach _ _ Hclean) as Hr.
    apply ui_reach_wf in Hr as (_ & _ & _ & Hb); [|apply Hs|split; unfold len; cbn; lia].
    assert (ui_max_ops ui' = max_transaction_operations (limits (store s))) as Hm; [|by rewrite <- Hm].
    clear -Hclean. remember (UiTransaction_new _ _) as ui eqn:Hui.
    induction Hclean as [|ui1 ui2 ui3 op _ IH Heq]; [by rewrite Hui|].
    apply ui_apply_op_inv in Heq as [-> _]. auto. }
  rewrite (proj2 (prepare_commit_Ok (store s) _
    (mkStagedCommit (ui_staged ui') (revision (store s)) (revision (store s) + 1)%N))).
  - cbn. by rewrite next_small.
  - cbn. split_and!; [done|done|]. exists (ui_staged ui'). split; [|by rewrite next_small].
    by apply (ui_clean_ops _ _ Hclean).
Qed.
End session.
