(* ===== verification/Replication.v ===== *)
(** * Replication

    The session as a step relation over its critical sections, the replica that
    follows the published transactions, and what reconnecting costs: the replay
    a journal offers is exactly the transactions the client missed. *)

From S2P Require Import Prelude.
From S2P Require Import Values.
From S2P Require Import Limits.
From S2P Require Import Models.
From S2P Require Import ModelFacts.
From S2P Require Import Store.
From S2P Require Import StoreFacts.
From S2P Require Import StoreInv.
From S2P Require Import Transaction.
From S2P Require Import TransactionFacts.
From S2P Require Import Wire.
From S2P Require Import WireFacts.
From S2P Require Import Journal.
From S2P Require Import Dedupe.
From S2P Require Import Event.
From S2P Require Import TextTracker.
From S2P Require Import Resources.
From S2P Require Import Session.
From S2P Require Import SessionFacts.

Section replication.
Context `{Registry, EventRegistry, PropertyIter, Diagnostics, Digest}.

(** A replica applying a stream in order, giving up at the first refusal. *)
Fixpoint follow (st : SemanticStore) (txs : list Msg.Transaction) : option SemanticStore :=
  match txs with
  | [] => Some st
  | tx :: txs =>
      match apply_delivered_transaction st tx with
      | (st', Ok _) => follow st' txs
      | _ => None
      end
  end.

Lemma follow_app st l1 l2 : follow st (l1 ++ l2) = follow st l1 ≫= λ st', follow st' l2.
Proof.
  revert st. induction l1 as [|tx l1 IH]; intros st; cbn; [done|].
  destruct (apply_delivered_transaction st tx) as [st' [| | |]]; done || apply IH.
Qed.

(** ** Steps *)

(** The event a step settles or gives up, by client and event id. *)
Definition event_name (ev : WireEvent) : Bytes * Bytes := (we_client_instance_id ev, we_event_id ev).
Definition edit_finishes (ev : WireEvent) (r : result SessionError TextEditCommit) : option (Bytes * Bytes) :=
  match r with Ok (DispatchAccepted _) => None | _ => Some (event_name ev) end.

(** *** What the application is held to

    A closure is handed a transaction whose fields are private: all it can do
    with it is to call its methods. *)
Definition uses_methods {T} (f : UiTransaction → N * N → UiTransaction * result StoreError T) : Prop :=
  ∀ ui revs ui' v, f ui revs = (ui', Ok v) → ui_operations ui = [] → ui_reach ui ui'.

(** It records only operations that the wire carries as they are. *)
Definition records_canonical {T} (f : UiTransaction → N * N → UiTransaction * result StoreError T) : Prop :=
  ∀ ui revs ui' v, f ui revs = (ui', Ok v) → ui_operations ui = [] → Forall op_canonical (ui_operations ui').

(** How the application behaves, from no restriction to the strictest: each
    asks for what those before it ask, and more. *)
Inductive conduct :=
| AnyConduct (* its closures call methods, and handle their errors as they like *)
| InRange    (* and no text edit is decided at the last revision *)
| WireSafe   (* and closures record only operations that the wire carries as they are *)
| Careful.   (* and where a closure returns [Ok], every call it made succeeded *)

Definition admits_closure (q : conduct) {T} (f : UiTransaction → N * N → UiTransaction * result StoreError T) : Prop :=
  match q with
  | AnyConduct | InRange => uses_methods f
  | WireSafe => uses_methods f ∧ records_canonical f
  | Careful => clean_closure f
  end.
Definition admits_edit_at (q : conduct) (revision : N) : Prop :=
  match q with AnyConduct => True | _ => (revision + 1 ≤ u64_max)%N end.
Definition strictness (q : conduct) : nat :=
  match q with AnyConduct => 0 | InRange => 1 | WireSafe => 2 | Careful => 3 end.

(** One critical section, the event in flight that it ends, and what it handed
    to the outbound hub. A transaction that arrives as a message is asked to be
    [txn_typed]: its fields have the width their type in the message has. *)
Inductive session_step (q : conduct) :
  SessionInner → option (Bytes * Bytes) → list Msg.Transaction → SessionInner → Prop :=
| step_attach s : session_step q s None [] (attach s).1
| step_detach s : session_step q s None [] (detach_internal s)
| step_terminate s : session_step q s None [] (terminate s)
| step_expire s : session_step q s None [] (expire s)
| step_process s ev : session_step q s None [] (process_event s ev).1
| step_dispatch s ev kind dispatch :
    session_step q s (Some (event_name ev)) [] (dispatch_admitted_event s ev kind dispatch).1
| step_abandon s ev node seq :
    session_step q s (Some (event_name ev)) [] (abandon_text_edit_after_panic s ev node seq)
| step_cancel s k o : session_step q s None [] (with_dedupe s (cancel_event (dedupe s) k o))
| step_commit s tx s' tx' :
    txn_typed tx → commit_transaction s tx = Ok (s', tx') → session_step q s None [tx'] s'
| step_closure {T} s (f : UiTransaction → N * N → UiTransaction * result StoreError T) s' v tx :
    admits_closure q f → transaction_with_result s f = Ok (s', (v, tx)) → session_step q s None [tx] s'
| step_text_edit s ev node seq text gen d s' r l :
    (l ≠ [] → admits_edit_at q (revision (store s))) →
    commit_text_edit_decision s ev node seq text gen d = (s', r) →
    published s' = published s ++ l → session_step q s (edit_finishes ev r) l s'.

Lemma clean_closure_methods {T} (f : UiTransaction → N * N → UiTransaction * result StoreError T) :
  clean_closure f → uses_methods f ∧ records_canonical f.
Proof.
  intros Hf. split; intros ui revs ui' v Hv Hnil; destruct (Hf _ _ _ _ Hv Hnil) as [Hc ?]; [|done].
  by apply ui_clean_reach.
Qed.

Lemma admits_closure_weaken q q' {T} (f : UiTransaction → N * N → UiTransaction * result StoreError T) :
  strictness q' ≤ strictness q → admits_closure q f → admits_closure q' f.
Proof.
  intros Hle Hf. destruct q, q'; cbn in *; try lia; try exact Hf; try apply Hf;
    by apply clean_closure_methods in Hf as [? ?].
Qed.

Lemma session_step_weaken q q' s f l s' :
  strictness q' ≤ strictness q → session_step q s f l s' → session_step q' s f l s'.
Proof.
  intros Hle Hstep. destruct Hstep; try by constructor.
  - by eapply step_commit.
  - eapply step_closure; [by eapply admits_closure_weaken|done].
  - eapply step_text_edit; [|done..]. intros Hl. destruct q, q'; cbn in *; try lia; auto.
Qed.

(** What a step that commits nothing leaves alone. *)
Definition uncommitted (s s' : SessionInner) : Prop :=
  store s' = store s ∧ journal s' = journal s ∧ published s' = published s.

Lemma session_wf_ext s1 s2 : store s2 = store s1 → journal s2 = journal s1 → session_wf s1 → session_wf s2.
Proof. intros Hst Hj []. split; by rewrite ?Hst, ?Hj. Qed.

Lemma settle_rejected_uncommitted s ev e : uncommitted s (settle_rejected_event s ev e).1.
Proof. unfold settle_rejected_event. by destruct (settle_event _ _ _). Qed.

Lemma reserve_uncommitted s ev d : uncommitted s (reserve_text_edit s ev d).1.
Proof.
  unfold reserve_text_edit, settle_rejected_event.
  destruct (validate_text_edit s d) as [seq|e| |]; [|by destruct (settle_event _ _ _)|done..].
  destruct (reserve _ _ _ _) as [[t' gen]|e| |]; [done| |done..].
  by destruct (settle_event _ _ _).
Qed.

Lemma dispatch_uncommitted s ev kind dispatch :
  uncommitted s (dispatch_admitted_event s ev kind dispatch).1.
Proof.
  unfold dispatch_admitted_event, settle_rejected_event.
  by destruct dispatch, kind; cbn; repeat destruct (settle_event _ _ _).
Qed.

Lemma process_uncommitted s ev : uncommitted s (process_event s ev).1.
Proof.
  unfold process_event, session_admit_event.
  destruct (admit_event _ _) as [d r]. set (s1 := with_dedupe s d).
  assert (∀ s2, uncommitted s1 s2 → uncommitted s s2) as Hd by done.
  destruct r as [[]|e| |]; cbn; try done.
  fold s1. destruct (event_from_wire ev) as [domain|e| |]; try done.
  - case_bool_decide.
    + pose proof (reserve_uncommitted s1 ev domain) as Hu.
      by destruct (reserve_text_edit s1 ev domain) as [s2 [[|[]]| | |]].
    + destruct (validate domain (store s)) as [?|e| |]; try done.
      pose proof (settle_rejected_uncommitted s1 ev e) as Hu. by destruct (settle_rejected_event s1 ev e).
  - pose proof (settle_rejected_uncommitted s1 (admission_event ev)
      (PolicyRejected ("malformed event: " +:+ wire_message e))) as Hu.
    by destruct (settle_rejected_event s1 _ _).
Qed.

Lemma ui_run_clean ui ops ui' : ui_run ui ops = (ui', Ok tt) →
  ui_clean ui ui' ∧ ui_operations ui' = ui_operations ui ++ ops.
Proof.
  enough (∀ ui0, ui_clean ui0 ui → ui_run ui ops = (ui', Ok tt) →
    ui_clean ui0 ui' ∧ ui_operations ui' = ui_operations ui ++ ops) as Hg.
  { apply Hg. constructor. }
  intros ui0. revert ui. induction ops as [|op ops IH]; intros ui Hc; cbn [ui_run].
  { intros [= <-]. by rewrite app_nil_r. }
  destruct (ui_apply_op ui op) as [ui1 [[]| | |]] eqn:Ha; [|done..]. intros Hr.
  destruct (IH ui1 (ui_clean_step _ _ _ op Hc Ha) Hr) as [? ->]. split; [done|].
  apply ui_apply_op_inv in Ha as (_ & _ & [(_ & _ & ?)|(_ & -> & _)]); [done|].
  by rewrite <- app_assoc.
Qed.

(** A text-edit commit is the closure that makes its two calls, or nothing. *)
Lemma commit_text_edit_cases s ev node seq text gen d s' r :
  commit_text_edit_decision s ev node seq text gen d = (s', r) →
  uncommitted s s' ∨
  ∃ value validation t2 ui' permit,
    let base := revision (store s) in
    ui_run (UiTransaction_new (clone_staging (store s)) (max_transaction_operations (limits (store s))))
      (text_edit_ops node value validation) = (ui', Ok tt) ∧
    prepare (journal s) (AuthoritativeCommit_new base (ui_operations ui')) = Ok permit ∧
    store s' = commit_staging (store s) (ui_staged ui') (next base) ∧
    journal s' = append (journal s) permit ∧ published s' = published s ++ [permit_tx permit] ∧
    text_edit_tracker s' = t2.
Proof.
  unfold commit_text_edit_decision.
  assert (∀ err, uncommitted s (let '(s', o) := reject_reserved s ev node seq err in
    (s', Ok (E:=SessionError) (TSettled o))).1) as Hrej.
  { intros err. unfold reject_reserved.
    pose proof (settle_rejected_uncommitted
      (with_tracker s (mark_terminal (text_edit_tracker s) (we_client_instance_id ev) node seq)) ev err) as Hu.
    by destruct (settle_rejected_event _ _ _). }
  set (rej := λ err, let '(s', o) := reject_reserved s ev node seq err in
    (s', Ok (E:=SessionError) (TSettled o))) in *.
  assert (∀ err s' r, rej err = (s', r) → uncommitted s s') as Hrej'.
  { intros err s1 r1 Heq. specialize (Hrej err). unfold rej in Heq. by rewrite Heq in Hrej. }
  case_match; [intros [= <- _]; by left|].
  destruct (revalidate_editor_for_commit s node); [|intros Heq; left; by eapply Hrej'|intros [= <- _]; by left..].
  case_match; [intros Heq; left; by eapply Hrej'|].
  destruct (decide_text_edit s node text d) as [[[value validation] acc] reason].
  case_match; [intros Heq; left; by eapply Hrej'|].
  destruct (ui_run _ _) as [ui' [[]|e| |]] eqn:Hrun;
    [|intros Heq; left; by eapply Hrej'|intros [= <- _]; by left..].
  destruct (prepare _ _) as [permit|e| |] eqn:Hp;
    [|intros Heq; left; by eapply Hrej'|intros [= <- _]; by left..].
  intros Heq. right. exists value, validation, (text_edit_tracker s'), ui', permit.
  split; [done|]. split; [done|].
  destruct acc; [case_match|destruct (settle_event _ _ _)]; by injection Heq as <- _.
Qed.

Lemma text_edit_canonical node value validation : Forall op_canonical (text_edit_ops node value validation).
Proof.
  repeat constructor; cbn; intros h Hm; by inversion Hm.
Qed.

(** The closure a text edit amounts to. *)
Definition edit_closure (node : NodeId) (value : string) (validation : N)
    (ui : UiTransaction) (revs : N * N) : UiTransaction * result StoreError unit :=
  ui_run ui (text_edit_ops node value validation).

Lemma edit_as_closure s node value validation ui' permit :
  (revision (store s) + 1 ≤ u64_max)%N →
  ui_run (UiTransaction_new (clone_staging (store s)) (max_transaction_operations (limits (store s))))
    (text_edit_ops node value validation) = (ui', Ok tt) →
  prepare (journal s) (AuthoritativeCommit_new (revision (store s)) (ui_operations ui')) = Ok permit →
  transaction_with_result s (edit_closure node value validation) =
    Ok (install s (commit_staging (store s) (ui_staged ui') (next (revision (store s)))) permit false,
        (tt, permit_tx permit)).
Proof.
  intros Hmax Hrun Hp. unfold transaction_with_result, edit_closure, checked_next.
  rewrite (proj2 (checked_add64_Some _ _ (revision (store s) + 1)%N)) by done.
  cbn [ok_or mbind result_bind]. rewrite Hrun, Hp. cbn [map_err mbind result_bind].
  apply ui_run_clean in Hrun as [_ ->]. done.
Qed.

Lemma edit_closure_clean node value validation : clean_closure (edit_closure node value validation).
Proof.
  intros ui revs ui' v Hf Hnil. destruct v. apply ui_run_clean in Hf as [? Hops].
  split; [done|]. rewrite Hops, Hnil. apply text_edit_canonical.
Qed.

(** ** What every step keeps *)

(** A commit by any closure keeps the session well formed and publishes once. *)
Lemma closure_step_ok {T} s (f : UiTransaction → N * N → UiTransaction * result StoreError T) s' v tx :
  session_wf s → uses_methods f → transaction_with_result s f = Ok (s', (v, tx)) →
  session_wf s' ∧ published s' = published s ++ [tx] ∧ limits (store s') = limits (store s).
Proof.
  intros Hs Hf Hcl. apply transaction_with_result_Ok in Hcl as (ui' & Hfe & Hmax & -> & ->); [|done].
  apply Hf in Hfe; specialize (Hfe eq_refl). apply ui_reach_wf in Hfe as (? & [] & _); [|apply Hs|split; unfold len; cbn; lia].
  split_and!; [|done..]. apply install_wf; try done; cbn; [by apply next_small| |by rewrite next_small].
  by apply commit_staging_wf.
Qed.

(** What a step leaves: a well-formed session with the same limits, its
    publications handed over, and the store as it was where nothing was published. *)
Record step_ok (s : SessionInner) (l : list Msg.Transaction) (s' : SessionInner) : Prop := {
  so_wf : session_wf s';
  so_published : published s' = published s ++ l;
  so_quiet : l = [] → store s' = store s;
  so_limits : limits (store s') = limits (store s);
}.

Lemma uncommitted_ok s s' : session_wf s → uncommitted s s' → step_ok s [] s'.
Proof.
  intros Hs (Hst & Hj & Hp). split; [by eapply (session_wf_ext s)|by rewrite app_nil_r|done|by rewrite Hst].
Qed.

(** A decided edit that published is the commit of its closure. *)
Lemma edit_step_cases s ev node seq text gen d s' r l : session_wf s →
  (l ≠ [] → (revision (store s) + 1 ≤ u64_max)%N) →
  commit_text_edit_decision s ev node seq text gen d = (s', r) → published s' = published s ++ l →
  (l = [] ∧ uncommitted s s') ∨
  ∃ value validation s1 tx, l = [tx] ∧
    transaction_with_result s (edit_closure node value validation) = Ok (s1, (tt, tx)) ∧
    store s1 = store s' ∧ journal s1 = journal s' ∧ Forall op_canonical (text_edit_ops node value validation).
Proof.
  intros Hs Hrev Hc Hpub. apply commit_text_edit_cases in Hc
    as [Hu|(value & validation & t2 & ui' & permit & Hrun & Hp & Hst & Hj & Hpub' & _)].
  { left. split; [|done]. apply (app_inv_head (published s)). rewrite app_nil_r.
    destruct Hu as (_ & _ & Hu). congruence. }
  right. assert (l = [permit_tx permit]) as -> by (apply (app_inv_head (published s)); congruence).
  exists value, validation. eexists _, _. split; [done|].
  split; [by apply edit_as_closure with (ui' := ui'); [apply Hrev|..]|].
  split; [by rewrite Hst|]. split; [by rewrite Hj|apply text_edit_canonical].
Qed.

Lemma session_step_ok q s f l s' : q ≠ AnyConduct → session_wf s → session_step q s f l s' → step_ok s l s'.
Proof.
  intros Hq Hs Hstep.
  apply (session_step_weaken q InRange) in Hstep; [clear q Hq|destruct q; cbn; [done|lia..]].
  destruct Hstep; try (by apply uncommitted_ok).
  - apply uncommitted_ok; [done|]. unfold attach. by destruct (is_terminal (state s)).
  - apply uncommitted_ok; [done|apply process_uncommitted].
  - apply uncommitted_ok; [done|apply dispatch_uncommitted].
  - match goal with Hc : commit_transaction _ _ = _ |- _ => apply commit_transaction_Ok in Hc as Hc' end; [|done].
    destruct Hc' as (txn & st & _ & _ & _ & _ & _ & Hops & _ & Heq).
    apply apply_ops_wf in Hops as [_ []]; [|apply Hs].
    split; [by eapply commit_transaction_wf|by rewrite Heq|done|by rewrite Heq].
  - match goal with Hc : transaction_with_result _ _ = _ |- _ => apply closure_step_ok in Hc as (? & ? & ?) end; [|done..].
    by split.
  - match goal with Hc : commit_text_edit_decision _ _ _ _ _ _ _ = _, Hp : published _ = _ ++ _ |- _ =>
      destruct (edit_step_cases _ _ _ _ _ _ _ _ _ _ Hs ltac:(done) Hc Hp)
        as [[-> Hu]|(value & validation & s1 & tx & -> & Hcl & Hst & Hj & _)] end.
    { by apply uncommitted_ok. }
    apply closure_step_ok in Hcl as (Hw & _ & Hl); [|done|by apply clean_closure_methods, edit_closure_clean].
    split; [by eapply (session_wf_ext s1)|done|done|by rewrite <- Hst].
Qed.

(** ** The theorem: a replica stays in step *)

Lemma closure_step_follow {T} s (f : UiTransaction → N * N → UiTransaction * result StoreError T) s' v tx :
  session_wf s → clean_closure f → transaction_with_result s f = Ok (s', (v, tx)) →
  follow (store s) [tx] = Some (store s').
Proof. intros Hs Hclean Hcl. cbn. erewrite replica_follows_closure by done. done. Qed.

Lemma session_step_follow s f l s' : session_wf s → session_step Careful s f l s' →
  step_ok s l s' ∧ follow (store s) l = Some (store s').
Proof.
  intros Hs Hstep. pose proof (session_step_ok Careful _ _ _ _ ltac:(done) Hs Hstep) as Hok. split; [done|].
  assert (l = [] → follow (store s) l = Some (store s')) as Hnil.
  { intros Hl. rewrite (so_quiet _ _ _ Hok Hl). by rewrite Hl. }
  destruct Hstep; try by apply Hnil.
  - cbn. erewrite replica_follows by done. done.
  - by eapply closure_step_follow.
  - match goal with Hc : commit_text_edit_decision _ _ _ _ _ _ _ = _, Hp : published _ = _ ++ _ |- _ =>
      destruct (edit_step_cases _ _ _ _ _ _ _ _ _ _ Hs ltac:(done) Hc Hp)
        as [[-> Hu]|(value & validation & s1 & tx & -> & Hcl & Hst & Hj & _)] end; [by apply Hnil|].
    rewrite <- Hst. by apply (closure_step_follow _ _ _ _ _ Hs (edit_closure_clean node value validation) Hcl).
Qed.

(** ** Runs *)

Inductive session_run (q : conduct) : SessionInner → list Msg.Transaction → SessionInner → Prop :=
| run_nil s : session_run q s [] s
| run_step s l1 s1 f l2 s2 :
    session_run q s l1 s1 → session_step q s1 f l2 s2 → session_run q s (l1 ++ l2) s2.

Lemma session_run_trans q s1 l1 s2 l2 s3 : session_run q s1 l1 s2 → session_run q s2 l2 s3 →
  session_run q s1 (l1 ++ l2) s3.
Proof.
  intros Hr1 Hr2. induction Hr2 as [s|s l s' f l' s'' _ IH Hstep]; [by rewrite app_nil_r|].
  rewrite app_assoc. eapply run_step; [by apply IH|done].
Qed.

Lemma session_run_one q s f l s' : session_step q s f l s' → session_run q s l s'.
Proof. intros Hstep. eapply (run_step q s [] s); [constructor|done]. Qed.

Lemma session_run_weaken q q' s l s' :
  strictness q' ≤ strictness q → session_run q s l s' → session_run q' s l s'.
Proof.
  intros Hle Hr. induction Hr as [|? ? ? ? ? ? _ IH Hstep]; [constructor|].
  eapply run_step; [exact IH|by eapply session_step_weaken].
Qed.

Lemma session_run_ok q s l s' : q ≠ AnyConduct → session_wf s → session_run q s l s' → step_ok s l s'.
Proof.
  intros Hq Hs Hr. induction Hr as [s|s l1 s1 f l2 s2 _ IH Hstep].
  { by apply uncommitted_ok. }
  destruct (IH Hs) as [Hs1 Hp1 Hq1 Hl1]. destruct (session_step_ok _ _ _ _ _ Hq Hs1 Hstep) as [Hs2 Hp2 Hq2 Hl2].
  split; [done|by rewrite Hp2, Hp1, app_assoc| |by rewrite Hl2]. intros [-> ->]%app_nil. by rewrite Hq2, Hq1.
Qed.

Lemma session_run_follow s l s' : session_wf s → session_run Careful s l s' →
  step_ok s l s' ∧ follow (store s) l = Some (store s').
Proof.
  intros Hs Hr. split; [by apply (session_run_ok Careful)|].
  induction Hr as [s|s l1 s1 f l2 s2 Hr IH Hstep]; [done|].
  pose proof (so_wf _ _ _ (session_run_ok Careful _ _ _ ltac:(done) Hs Hr)) as Hs1.
  destruct (session_step_follow s1 f l2 s2 Hs1 Hstep) as (_ & Hf2).
  by rewrite follow_app, (IH Hs).
Qed.

(** *** No silent divergence

    A closure that carries on after an error may record an operation that a
    replica refuses; what a replica does not refuse, it applies exactly. *)
Lemma ui_reach_ops ui ui' st : ui_reach ui ui' → ui_operations ui = [] →
  apply_ops 0 (ui_staged ui) (ui_operations ui') = Ok st → st = ui_staged ui'.
Proof.
  intros Hr Hnil. revert st. induction Hr as [ui|ui1 ui2 op _ IH]; intros st.
  { rewrite Hnil. by intros [= <-]. }
  destruct (ui_apply_op ui2 op) as [ui3 r] eqn:Heq.
  apply ui_apply_op_inv in Heq as (_ & _ & [(Hst & Hops & _)|(_ & Hops & Ha)]); cbn [fst]; rewrite Hops.
  - rewrite Hst. by apply IH.
  - rewrite apply_ops_app. intros (st1 & ->%IH & Hop)%bind_Ok; [|done]. cbn in Hop. rewrite Ha in Hop.
    destruct r; by simplify_eq.
Qed.

Lemma followed_delivered st tx st' : follow st [tx] = Some st' → ∃ r, apply_delivered_transaction st tx = (st', Ok r).
Proof. cbn. destruct (apply_delivered_transaction st tx) as [? []]; naive_solver. Qed.

Lemma closure_step_no_divergence {T} s (f : UiTransaction → N * N → UiTransaction * result StoreError T) s' v tx st :
  session_wf s → uses_methods f → records_canonical f → transaction_with_result s f = Ok (s', (v, tx)) →
  follow (store s) [tx] = Some st → st = store s'.
Proof.
  intros Hs Hf Hcan Hcl (r & Hfol)%followed_delivered.
  apply transaction_with_result_Ok in Hcl as (ui' & Hfe & Hmax & -> & ->); [|done].
  pose proof (Hf _ _ _ _ Hfe eq_refl) as Hreach. specialize (Hcan _ _ _ _ Hfe eq_refl).
  unfold apply_delivered_transaction in Hfol. rewrite txn_round_trip in Hfol by done.
  unfold apply_delivered, delivered_try_from, checked_next in Hfol.
  cbn [base_revision new_revision Transaction_new] in Hfol. rewrite next_small in Hfol by done.
  rewrite (proj2 (checked_add64_Some _ _ (revision (store s) + 1)%N)) in Hfol by done.
  rewrite N.eqb_refl, prepare_then_commit in Hfol.
  destruct (prepare_commit _ _) as [staged|e| |] eqn:Hp; try done.
  apply prepare_commit_Ok in Hp as (_ & _ & st' & Hops & ->). injection Hfol as <- <-. cbn in *.
  apply (ui_reach_ops _ _ _ Hreach eq_refl) in Hops as ->. by rewrite next_small.
Qed.

Lemma session_step_no_divergence s f l s' st : session_wf s → session_step WireSafe s f l s' →
  follow (store s) l = Some st → st = store s'.
Proof.
  intros Hs Hstep. pose proof (session_step_ok WireSafe _ _ _ _ ltac:(done) Hs Hstep) as Hok.
  assert (l = [] → follow (store s) l = Some st → st = store s') as Hnil.
  { intros Hl. rewrite Hl. intros [= <-]. by rewrite (so_quiet _ _ _ Hok Hl). }
  destruct Hstep; try by apply Hnil.
  - clear Hnil Hok. intros Hf. enough (Some st = Some (store s')) by congruence. rewrite <- Hf.
    cbn. by erewrite replica_follows by done.
  - match goal with Ha : admits_closure _ _ |- _ => destruct Ha end. by eapply closure_step_no_divergence.
  - match goal with Hc : commit_text_edit_decision _ _ _ _ _ _ _ = _, Hp : published _ = _ ++ _ |- _ =>
      destruct (edit_step_cases _ _ _ _ _ _ _ _ _ _ Hs ltac:(done) Hc Hp)
        as [[-> Hu]|(value & validation & s1 & tx & -> & Hcl & Hst & _)] end; [by apply Hnil|].
    rewrite <- Hst. pose proof (edit_closure_clean node value validation) as [? ?]%clean_closure_methods.
    by eapply closure_step_no_divergence.
Qed.

Lemma session_run_no_divergence s l s' st : session_wf s → session_run WireSafe s l s' →
  follow (store s) l = Some st → st = store s'.
Proof.
  intros Hs Hr. revert st. induction Hr as [s|s l1 s1 f l2 s2 Hr IH Hstep]; intros st.
  { by intros [= <-]. }
  rewrite follow_app. intros (st1 & ->%IH & Hf2)%bind_Some; [|done].
  pose proof (so_wf _ _ _ (session_run_ok WireSafe _ _ _ ltac:(done) Hs Hr)) as Hs1.
  by eapply session_step_no_divergence.
Qed.

(** ** Reconnecting *)

(** What a step adds to the journal: nothing, or the one transaction it published. *)
Inductive journaled (s : SessionInner) : list Msg.Transaction → SessionInner → Prop :=
| journaled_none s' : journal s' = journal s → journaled s [] s'
| journaled_one tx s' : journal s' = append (journal s) (mkPermit tx) →
    Msg.base_revision tx = revision (store s) → Msg.new_revision tx = (Msg.base_revision tx + 1)%N →
    journaled s [tx] s'.

Lemma closure_journaled {T} s (f : UiTransaction → N * N → UiTransaction * result StoreError T) s' v tx :
  session_wf s → transaction_with_result s f = Ok (s', (v, tx)) → journaled s [tx] s'.
Proof.
  intros Hs (ui' & _ & Hmax & -> & ->)%transaction_with_result_Ok; [|done].
  constructor; [done..|]. cbn. by apply next_small.
Qed.

Lemma session_step_journal q s f l s' : q ≠ AnyConduct → session_wf s → session_step q s f l s' → journaled s l s'.
Proof.
  intros Hq Hs Hstep.
  assert (∀ s1, uncommitted s s1 → journaled s [] s1) as Hun.
  { intros s1 (_ & ? & _). by constructor. }
  apply (session_step_weaken q InRange) in Hstep; [clear q Hq|destruct q; cbn; [done|lia..]].
  destruct Hstep; try (by apply Hun).
  - apply Hun. unfold attach. by destruct (is_terminal (state s)).
  - apply Hun, process_uncommitted.
  - apply Hun, dispatch_uncommitted.
  - match goal with Hc : commit_transaction _ _ = _ |- _ => apply commit_transaction_Ok in Hc end; [|done].
    match goal with Hc : ∃ _, _ |- _ => destruct Hc as (txn & st & _ & Hn & _ & Hb & _ & _ & -> & ->) end.
    by constructor.
  - match goal with Hc : transaction_with_result _ _ = _ |- _ => by apply closure_journaled in Hc end.
  - match goal with Hc : commit_text_edit_decision _ _ _ _ _ _ _ = _, Hp : published _ = _ ++ _ |- _ =>
      destruct (edit_step_cases _ _ _ _ _ _ _ _ _ _ Hs ltac:(done) Hc Hp)
        as [[-> Hu]|(value & validation & s1 & tx & -> & Hcl & Hst & Hj & _)] end; [by apply Hun|].
    apply closure_journaled in Hcl; [|done]. inversion Hcl; subst. constructor; [congruence|done..].
Qed.

(** The journal keeps the newest [max_entries] of everything recorded. *)
Definition newest {A} (max : N) (l : list A) : list A := drop (length l - N.to_nat max) l.

Lemma newest_snoc {A} max (l : list A) x : (1 ≤ max)%N →
  newest max (l ++ [x]) =
    drop (if decide (max ≤ len (newest max l))%N then 1 else 0) (newest max l) ++ [x].
Proof.
  intros Hmax. unfold newest, len. rewrite length_app, length_drop. cbn [length].
  rewrite drop_app_le by lia. f_equal. rewrite drop_drop. f_equal. case_decide; lia.
Qed.

Lemma newest_all {A} max (l : list A) : (len l ≤ max)%N → newest max l = l.
Proof. unfold newest, len. intros. by replace (length l - N.to_nat max) with 0 by lia. Qed.

Lemma session_run_journal q s l s' : q ≠ AnyConduct → session_wf s → session_run q s l s' →
  max_entries (journal s') = max_entries (journal s) ∧
  entries (journal s') = newest (max_entries (journal s)) (entries (journal s) ++ l).
Proof.
  intros Hq Hs Hr. induction Hr as [s|s l1 s1 f l2 s2 Hr IH Hstep].
  { rewrite app_nil_r, newest_all; [done|apply Hs]. }
  destruct (IH Hs) as (Hm1 & He1). destruct (session_run_ok _ _ _ _ Hq Hs Hr) as [Hs1 _ _ _].
  destruct (session_step_journal _ _ _ _ _ Hq Hs1 Hstep) as [s2 Hj|tx s2 Hj _ _].
  { by rewrite app_nil_r, Hj. }
  rewrite Hj.
  split.
  - unfold append. repeat case_match; cbn; by simplify_eq.
  - rewrite append_entries by apply Hs1.
    rewrite He1, Hm1, app_assoc, newest_snoc; [done|]. apply Hs.
Qed.

(** A run publishes one transaction per revision. *)
Lemma session_run_revision q s l s' : q ≠ AnyConduct → session_wf s → session_run q s l s' →
  revision (store s') = (revision (store s) + len l)%N.
Proof.
  intros Hq Hs Hr. induction Hr as [s|s l1 s1 f l2 s2 Hr IH Hstep].
  { unfold len; cbn; lia. }
  specialize (IH Hs). destruct (session_run_ok _ _ _ _ Hq Hs Hr) as [Hs1 _ _ _].
  destruct (session_step_ok _ _ _ _ _ Hq Hs1 Hstep) as [Hs2 _ _ _].
  pose proof (session_step_journal _ _ _ _ _ Hq Hs1 Hstep) as Hj.
  rewrite len_app, <- (se_lockstep _ Hs2). destruct Hj as [s2 Hj|tx s2 Hj Hb Hn]; rewrite Hj.
  - rewrite (se_lockstep _ Hs1), IH. unfold len; cbn; lia.
  - rewrite append_latest, Hn, Hb. unfold len at 2; cbn. lia.
Qed.

(** As long as the publications fit below the last revision, no run leaves the
    range: this is the one thing to ask of an application that is not otherwise
    restricted. *)
Lemma session_run_in_range s l s' : session_wf s → (revision (store s) + len l ≤ u64_max)%N →
  session_run AnyConduct s l s' → session_run InRange s l s'.
Proof.
  intros Hs Hmax Hr. induction Hr as [s|s l1 s1 f l2 s2 Hr IH Hstep]; [constructor|].
  rewrite len_app in Hmax. specialize (IH Hs ltac:(lia)).
  pose proof (session_run_revision InRange _ _ _ ltac:(done) Hs IH) as Hrev.
  eapply run_step; [exact IH|]. destruct Hstep; try by constructor.
  - by eapply step_commit.
  - by eapply step_closure.
  - eapply step_text_edit; [|done..]. intros Hl. cbn. rewrite Hrev.
    destruct l; [done|]. unfold len in *; cbn in *; lia.
Qed.

(** What a reconnecting client is sent: exactly what it missed, and it can be
    sent that as long as it missed no more than the journal keeps. *)
Lemma session_run_replay q s l s' : q ≠ AnyConduct → session_wf s → session_run q s l s' →
  replay_from (journal s') (revision (store s)) =
    if decide (len l ≤ max_entries (journal s))%N then Some l else None.
Proof.
  intros Hq Hs Hr. pose proof (session_run_revision _ _ _ _ Hq Hs Hr) as Hrev.
  destruct (session_run_journal _ _ _ _ Hq Hs Hr) as [Hm He].
  destruct (session_run_ok _ _ _ _ Hq Hs Hr) as [Hs' _ _ _].
  rewrite replay_from_spec by apply Hs'.
  pose proof (chain_len _ _ _ (jw_chain _ (se_journal _ Hs'))) as Hlen.
  pose proof (jw_bound _ (se_journal _ Hs)) as Hb.
  rewrite (se_lockstep _ Hs'), Hrev in Hlen. unfold can_replay_from.
  rewrite (se_lockstep _ Hs'), Hrev, He in *. unfold newest in *.
  rewrite drop_drop. unfold len in *. rewrite length_drop, length_app in Hlen.
  case_decide as Hd.
  - rewrite (proj2 (N.leb_le _ _)) by lia. rewrite (proj2 (N.leb_le _ _)) by lia. cbn. f_equal.
    rewrite length_app. by rewrite drop_app_length' by lia.
  - rewrite (proj2 (N.leb_gt _ _)) by lia. done.
Qed.
End replication.
