(* ===== verification/OutboundFacts.v ===== *)
(** * Coalescing is invisible to the replica

    Applying a merged delta has the effect of the two transactions it stands
    for; so whatever mixture of commits and coalesced deltas a subscriber is
    sent, followed by what its lane still holds, leads from the store it
    subscribed at to the server's. *)

From S2P Require Import Prelude.
From S2P Require Import Values.
From S2P Require Import Limits.
From S2P Require Import Models.
From S2P Require Import ModelFacts.
From S2P Require Import Store.
From S2P Require Import StoreFacts.
From S2P Require Import StoreInv.
From S2P Require Import Transaction.
From S2P Require Import TransactionFacts.
From S2P Require Import Wire.
From S2P Require Import WireFacts.
From S2P Require Import Snapshot.
From S2P Require Import SnapshotFacts.
From S2P Require Import Journal.
From S2P Require Import Dedupe.
From S2P Require Import Event.
From S2P Require Import TextTracker.
From S2P Require Import Resources.
From S2P Require Import Outbound.
From S2P Require Import Session.
From S2P Require Import SessionFacts.
From S2P Require Import Replication.

(** ** Runs of scalar updates *)

Definition set_key (op : Operation) : option Key :=
  match op with SetProperty id p _ => Some (id, p) | _ => None end.
Definition is_set (op : Operation) : Prop := is_Some (set_key op).

(** The last value written per property. *)
Definition write (m : gmap Key Value) (op : Operation) : gmap Key Value :=
  match op with SetProperty id p v => <[(id, p) := v]> m | _ => m end.
Definition written (ops : list Operation) : gmap Key Value := foldl write ∅ ops.

Lemma write_other l m k v : (∀ op, op ∈ l → set_key op ≠ Some k) → foldl write (<[k := v]> m) l = <[k := v]> (foldl write m l).
Proof.
  revert m. induction l as [|op l IH]; intros m Hl; cbn; [done|].
  assert (∀ op', op' ∈ l → set_key op' ≠ Some k) as Hl' by (intros; apply Hl; by right).
  assert (set_key op ≠ Some k) as Hop by (apply Hl; by left).
  destruct op; cbn in *; try by apply IH. rewrite insert_insert_ne by congruence. by apply IH.
Qed.

(** Overwriting a key's last update in place writes its new value. *)
Lemma written_replace ops idx id p v : set_key <$> ops !! idx = Some (Some (id, p)) →
  (∀ j op, idx < j → ops !! j = Some op → set_key op ≠ Some (id, p)) →
  written (<[idx := SetProperty id p v]> ops) = <[(id, p) := v]> (written ops).
Proof.
  intros Hidx Hlast. apply fmap_Some in Hidx as (op & Hop & Hk).
  pose proof (lookup_lt_Some _ _ _ Hop) as Hlt.
  rewrite insert_take_drop by done. rewrite <- (take_drop_middle ops idx op Hop) at 3.
  unfold written. rewrite !foldl_app. cbn.
  assert (∀ op', op' ∈ drop (S idx) ops → set_key op' ≠ Some (id, p)) as Hafter.
  { intros op' [j Hj]%list_elem_of_lookup. rewrite lookup_drop in Hj. apply (Hlast (S idx + j)); [lia|done]. }
  rewrite write_other by done. destruct op; cbn in Hk; try done. injection Hk as -> ->. cbn.
  rewrite (write_other _ (foldl write ∅ (take idx ops)) _ value) by done. by rewrite insert_insert_eq.
Qed.

Lemma written_snoc ops op : written (ops ++ [op]) = write (written ops) op.
Proof. unfold written. by rewrite foldl_app. Qed.

(** [km] gives each updated property the index of its last update. *)
Definition indexes (km : gmap Key nat) (ops : list Operation) : Prop :=
  ∀ k, match km !! k with
       | Some idx => set_key <$> ops !! idx = Some (Some k) ∧
           ∀ j op, idx < j → ops !! j = Some op → set_key op ≠ Some k
       | None => ∀ op, op ∈ ops → set_key op ≠ Some k
       end.

Lemma indexes_snoc km ops id p v : indexes km ops →
  indexes (<[(id, p) := length ops]> km) (ops ++ [SetProperty id p v]).
Proof.
  intros Hix k. destruct (decide (k = (id, p))) as [->|Hne].
  - rewrite lookup_insert_eq. rewrite lookup_app_r, Nat.sub_diag by done. split; [done|].
    intros j op Hj Hop. apply lookup_lt_Some in Hop. rewrite length_app in Hop. cbn in Hop. lia.
  - rewrite lookup_insert_ne by done. specialize (Hix k). destruct (km !! k) as [idx|].
    + destruct Hix as [Hi Hl]. apply fmap_Some in Hi as (op0 & Hi & Hk). split.
      { rewrite (lookup_app_l_Some _ _ _ _ Hi). cbn. by rewrite <- Hk. }
      intros j op Hj [Hop|[_ Hop]]%lookup_app_Some; [by eapply Hl|].
      apply list_lookup_singleton_Some in Hop as [_ <-]. cbn. congruence.
    + intros op [Hop|Hop]%elem_of_app; [by apply Hix|]. apply list_elem_of_singleton in Hop as ->. cbn. congruence.
Qed.

Lemma indexes_other km ops op : indexes km ops → set_key op = None → indexes km (ops ++ [op]).
Proof.
  intros Hix Hop k. specialize (Hix k). destruct (km !! k) as [idx|].
  - destruct Hix as [Hi Hl]. apply fmap_Some in Hi as (op0 & Hi & Hk). split.
    { rewrite (lookup_app_l_Some _ _ _ _ Hi). cbn. by rewrite <- Hk. }
    intros j op' Hj [Hop'|[_ Hop']]%lookup_app_Some; [by eapply Hl|].
    apply list_lookup_singleton_Some in Hop' as [_ <-]. congruence.
  - intros op' [Hop'|Hop']%elem_of_app; [by apply Hix|]. apply list_elem_of_singleton in Hop' as ->. congruence.
Qed.

Lemma index_from_spec ops0 km ops : indexes km ops0 → indexes (index_from (length ops0) km ops) (ops0 ++ ops).
Proof.
  revert ops0 km. induction ops as [|op ops IH]; intros ops0 km Hix; [by rewrite app_nil_r|].
  assert (∀ x : Operation, ops0 ++ x :: ops = (ops0 ++ [x]) ++ ops) as Happ by (intros; by rewrite <- app_assoc).
  assert (S (length ops0) = length (ops0 ++ [op])) as Hlen by (rewrite length_app; cbn; lia).
  rewrite Happ. destruct op; cbn [index_from]; rewrite Hlen; apply IH; by first [apply indexes_snoc|apply indexes_other].
Qed.

Lemma index_keys_spec ops : indexes (index_keys ops) ops.
Proof. apply (index_from_spec [] ∅). intros k. rewrite lookup_empty. set_solver. Qed.

(** One merging step: the index stays right, the effect is that of appending. *)
Lemma merge_step_spec ops km op : indexes km ops → is_set op →
  let '(ops', km') := merge_step (ops, km) op in
  indexes km' ops' ∧ written ops' = write (written ops) op ∧
  (∀ x, x ∈ ops' → x ∈ ops ∨ x = op) ∧ (∀ k, is_Some (km !! k) → is_Some (km' !! k)) ∧
  (len ops' = len ops + if decide (new_key km op) then 1 else 0)%N.
Proof.
  intros Hix [k Hk]. destruct op as [| |id p v| | | | | | | | |]; try done. cbn.
  destruct (km !! (id, p)) as [idx|] eqn:Hkm.
  - pose proof (Hix (id, p)) as Hx. rewrite Hkm in Hx. destruct Hx as [Hi Hl].
    rewrite decide_False by done. split_and!.
    + intros k'. specialize (Hix k'). pose proof Hi as Hi'. apply fmap_Some in Hi' as (op0 & Ho & Hk0).
      pose proof (lookup_lt_Some _ _ _ Ho) as Hlt.
      destruct (km !! k') as [idx'|] eqn:Hk'.
      * destruct Hix as [Hi' Hl']. destruct (decide (idx' = idx)) as [->|Hne].
        -- rewrite list_lookup_insert_eq by done. assert (k' = (id, p)) as -> by congruence. split; [done|].
           intros j op Hj Hop. rewrite list_lookup_insert_ne in Hop by lia. by eapply Hl.
        -- rewrite list_lookup_insert_ne by done. split; [done|]. intros j op Hj Hop.
           apply list_lookup_insert_Some in Hop as [(-> & <- & _)|[_ Hop]]; [|by eapply Hl'].
           cbn. intros [= <-]. congruence.
      * intros op [j Hj]%list_elem_of_lookup. apply list_lookup_insert_Some in Hj as [(-> & <- & _)|[_ Hj]].
        -- cbn. intros [= <-]. congruence.
        -- apply Hix. by eapply list_elem_of_lookup_2.
    + by apply written_replace.
    + intros x [j Hj]%list_elem_of_lookup. apply list_lookup_insert_Some in Hj as [(_ & <- & _)|[_ Hj]]; [by right|].
      left. by eapply list_elem_of_lookup_2.
    + done.
    + unfold len. rewrite length_insert. lia.
  - rewrite decide_True by done. split_and!.
    + by apply indexes_snoc.
    + apply written_snoc.
    + intros x [?|Hx]%elem_of_app; [by left|]. apply list_elem_of_singleton in Hx. by right.
    + intros k' Hk'. apply lookup_insert_is_Some'. by right.
    + by rewrite len_app.
Qed.

Lemma merge_fold_spec incoming : ∀ ops km, indexes km ops → Forall is_set incoming →
  let '(ops', km') := foldl merge_step (ops, km) incoming in
  written ops' = foldl write (written ops) incoming ∧
  (∀ x, x ∈ ops' → x ∈ ops ∨ x ∈ incoming) ∧
  (len ops ≤ len ops')%N ∧
  ∀ km0, (∀ k, is_Some (km0 !! k) → is_Some (km !! k)) → (len ops' ≤ len ops + new_keys_count km0 incoming)%N.
Proof.
  induction incoming as [|op incoming IH]; intros ops km Hix Hset; cbn [foldl].
  { split_and!; [done|by left|done|]. intros km0 _. unfold new_keys_count, len. cbn. lia. }
  inversion Hset as [|? ? Hop Hrest]; subst.
  pose proof (merge_step_spec ops km op Hix Hop) as Hs. destruct (merge_step (ops, km) op) as [ops1 km1].
  destruct Hs as (Hix1 & Hw1 & Hin1 & Hdom1 & Hlen1). specialize (IH ops1 km1 Hix1 Hrest).
  destruct (foldl merge_step (ops1, km1) incoming) as [ops' km']. destruct IH as (Hw & Hin & Hge & Hlen).
  split_and!.
  - by rewrite Hw, Hw1.
  - intros x [Hx|Hx]%Hin; [|right; by right]. destruct (Hin1 x Hx) as [| ->]; [by left|right; by left].
  - lia.
  - intros km0 Hkm0. specialize (Hlen km0 ltac:(auto)). unfold new_keys_count in *. rewrite filter_cons.
    assert (new_key km op → new_key km0 op) as Hnew.
    { destruct op; cbn; try done. intros Hn. destruct (km0 !! (id, property)) eqn:Hx; [|done].
      destruct (Hkm0 (id, property)) as [y Hy]; [eauto|]. congruence. }
    case_decide as Hd0; case_decide as Hd; try tauto; rewrite ?len_cons; lia.
Qed.

Lemma merge_ops_spec tail incoming : Forall is_set incoming →
  written (merge_ops tail incoming) = written (tail ++ incoming) ∧
  (∀ x, x ∈ merge_ops tail incoming → x ∈ tail ++ incoming) ∧
  (len tail ≤ len (merge_ops tail incoming))%N ∧
  (len (merge_ops tail incoming) ≤ len tail + new_keys_count (index_keys tail) incoming)%N.
Proof.
  intros Hset. unfold merge_ops. pose proof (merge_fold_spec incoming tail _ (index_keys_spec tail) Hset) as Hm.
  destruct (foldl merge_step (tail, index_keys tail) incoming) as [ops' km']. destruct Hm as (Hw & Hin & Hge & Hlen).
  split_and!; [|by intros x Hx%Hin; apply elem_of_app|done|by apply Hlen].
  cbn [fst]. rewrite Hw. unfold written. by rewrite foldl_app.
Qed.

(** ** Their effect on a store *)

Definition write_node (ns : gmap NodeId Node) (op : Operation) : gmap NodeId Node :=
  match op with
  | SetProperty id p v => alter (λ n, with_properties n (<[p := v]> (properties n))) id ns
  | _ => ns
  end.

(** [ns'] is [ns] with the properties of [w] written over it. *)
Definition overwritten (w : gmap Key Value) (ns ns' : gmap NodeId Node) : Prop :=
  ∀ i, match ns !! i with
       | None => ns' !! i = None
       | Some n => ∃ ps, ns' !! i = Some (with_properties n ps) ∧
           ∀ p, ps !! p = match w !! (i, p) with Some v => Some v | None => properties n !! p end
       end.

Lemma overwritten_unique w ns ns1 ns2 : overwritten w ns ns1 → overwritten w ns ns2 → ns1 = ns2.
Proof.
  intros H1 H2. apply map_eq. intros i. specialize (H1 i). specialize (H2 i).
  destruct (ns !! i) as [n|]; [|congruence]. destruct H1 as (ps1 & -> & Hp1), H2 as (ps2 & -> & Hp2).
  do 2 f_equal. apply map_eq. intros p. by rewrite Hp1, Hp2.
Qed.

Lemma overwritten_nil ns : overwritten ∅ ns ns.
Proof.
  intros i. destruct (ns !! i) as [n|] eqn:Hi; [|done]. exists (properties n). split; [by destruct n|].
  intros p. by rewrite lookup_empty.
Qed.

Lemma overwritten_foldl ns ops : overwritten (written ops) ns (foldl write_node ns ops).
Proof.
  induction ops as [|op ops IH] using rev_ind; [apply overwritten_nil|].
  rewrite written_snoc, foldl_app. cbn. intros i. specialize (IH i).
  destruct op as [| |id p v| | | | | | | | |]; cbn; try done.
  destruct (decide (i = id)) as [->|Hne].
  - rewrite lookup_alter_eq. destruct (ns !! id) as [n|]; [|by rewrite IH].
    destruct IH as (ps & -> & Hps). eexists. split; [done|]. intros q.
    destruct (decide (q = p)) as [->|]; [by rewrite !lookup_insert_eq|].
    rewrite !lookup_insert_ne by congruence. apply Hps.
  - rewrite lookup_alter_ne by done. destruct (ns !! i) as [n|]; [|done].
    destruct IH as (ps & -> & Hps). eexists. split; [done|]. intros q.
    rewrite lookup_insert_ne by congruence. apply Hps.
Qed.

Section delivery.
Context `{Registry, EventRegistry, PropertyIter, Diagnostics, Digest, Framing}.

(** An update the store admits; that depends on limits, models and the node
    set, which no update changes. *)
Definition valid_set (st : SemanticStore) (op : Operation) : Prop :=
  match op with SetProperty id p v => property_ok st p v ∧ is_Some (nodes st !! id) | _ => False end.

Lemma valid_set_ext st st' op : limits st' = limits st → models st' = models st →
  (∀ i, is_Some (nodes st' !! i) ↔ is_Some (nodes st !! i)) → valid_set st' op ↔ valid_set st op.
Proof.
  intros Hl Hm Hn. destruct op; cbn; try done. unfold property_ok, reference_ok. by rewrite Hl, Hm, Hn.
Qed.

Lemma write_node_is_Some ns op i : is_Some (write_node ns op !! i) ↔ is_Some (ns !! i).
Proof.
  destruct op as [| |id p v| | | | | | | | |]; cbn; try done.
  destruct (decide (i = id)) as [->|]; [rewrite lookup_alter_eq; apply fmap_is_Some|by rewrite lookup_alter_ne].
Qed.

Lemma write_nodes_is_Some ns ops i : is_Some (foldl write_node ns ops !! i) ↔ is_Some (ns !! i).
Proof.
  revert ns. induction ops as [|op ops IH]; intros ns; cbn; [done|]. by rewrite IH, write_node_is_Some.
Qed.

Lemma apply_set st op s' : is_set op →
  apply st op = (s', Ok tt) ↔ valid_set st op ∧ s' = with_nodes st (write_node (nodes st) op).
Proof.
  intros [k Hk]. destruct op as [| |id p v| | | | | | | | |]; try done. cbn. split.
  - destruct (set_property st id p v) as [[s1 old]| | |] eqn:Heq; [|done..]. intros [= <-].
    apply set_property_effect in Heq as (n & Hok & Hn & _ & ->). split; [eauto|].
    by rewrite (alter_alt_Some _ _ _ n Hn).
  - intros [[Hok [n Hn]] ->].
    rewrite (proj2 (set_property_effect st id p v _ _)) by eauto. cbn. by rewrite (alter_alt_Some _ _ _ n Hn).
Qed.

Lemma apply_set_Err st op : is_set op → ¬ valid_set st op → is_ok (apply st op).2 = false.
Proof.
  intros Hset Hinv. destruct (apply st op) as [s' [[]| | |]] eqn:Ha; [|done..].
  by apply apply_set in Ha as [? _].
Qed.

Lemma apply_sets_Ok idx st ops st' : Forall is_set ops →
  apply_ops idx st ops = Ok st' ↔
  Forall (valid_set st) ops ∧ st' = with_nodes st (foldl write_node (nodes st) ops).
Proof.
  intros Hset. revert idx st. induction Hset as [|op ops Hop _ IH]; intros idx st; cbn.
  { split; [intros [= <-]; split; [done|by destruct st]|intros [_ ->]; by destruct st]. }
  assert (∀ op', valid_set (with_nodes st (write_node (nodes st) op)) op' ↔ valid_set st op') as Hext.
  { intros op'. apply valid_set_ext; [done..|]. intros i. apply write_node_is_Some. }
  destruct (apply st op) as [s1 r] eqn:Ha. destruct r as [[]|e| |].
  - apply apply_set in Ha as [Hv ->]; [|done]. rewrite IH, Forall_cons, !Forall_forall.
    setoid_rewrite Hext. cbn [nodes with_nodes foldl]. tauto.
  - split; [done|]. intros [Hall _]. inversion Hall as [|? ? Hv _]; subst.
    pose proof (proj2 (apply_set st op _ Hop) (conj Hv eq_refl)). congruence.
  - split; [done|]. intros [Hall _]. inversion Hall as [|? ? Hv _]; subst.
    pose proof (proj2 (apply_set st op _ Hop) (conj Hv eq_refl)). congruence.
  - split; [done|]. intros [Hall _]. inversion Hall as [|? ? Hv _]; subst.
    pose proof (proj2 (apply_set st op _ Hop) (conj Hv eq_refl)). congruence.
Qed.

(** ** Delivered transactions *)

Lemma coalesceable_iff txn : is_coalesceable txn = true ↔
  operations txn ≠ [] ∧ ∀ op, op ∈ operations txn → is_scalar_set op = true.
Proof.
  unfold is_coalesceable. rewrite andb_true_iff, bool_decide_eq_true, forallb_forall.
  by setoid_rewrite list_elem_of_In.
Qed.

Lemma coalesceable_sets txn : is_coalesceable txn = true → operations txn ≠ [] ∧ Forall is_set (operations txn).
Proof.
  intros [Hn Hall]%coalesceable_iff. split; [done|]. apply Forall_forall.
  intros op Hop%Hall. destruct op; try done. by eexists.
Qed.

Lemma apply_delivered_Ok st txn st' r : store_wf st →
  apply_delivered st txn = (st', Ok r) ↔
  ((base_revision txn + 1 ≤ u64_max)%N ∧
   (new_revision txn = (base_revision txn + 1)%N ∨
    (base_revision txn < new_revision txn)%N ∧ is_coalesceable txn = true)) ∧
  base_revision txn = revision st ∧ (len (operations txn) ≤ max_transaction_operations (limits st))%N ∧
  r = new_revision txn ∧
  ∃ staged, apply_ops 0 st (operations txn) = Ok staged ∧ st' = commit_staging st staged (new_revision txn).
Proof.
  intros Hwf. assert (committing st (check_base_revision st (base_revision txn) ≫= λ _,
    apply_staged st (operations txn) (new_revision txn)) = (st', Ok r) ↔
    base_revision txn = revision st ∧ (len (operations txn) ≤ max_transaction_operations (limits st))%N ∧
    r = new_revision txn ∧
    ∃ staged, apply_ops 0 st (operations txn) = Ok staged ∧ st' = commit_staging st staged (new_revision txn)) as Hc.
  { rewrite committing_Ok, bind_unit_Ok. unfold check_base_revision.
    rewrite err_if_Ok, negb_false_iff, N.eqb_eq, apply_staged_Ok by done. done. }
  unfold apply_delivered, delivered_try_from, delta_try_from, validate_delta, checked_next.
  destruct (checked_add64 (base_revision txn) 1) as [n|] eqn:Hn.
  2: { apply checked_add64_None in Hn. split; [done|lia]. }
  apply checked_add64_Some in Hn as [-> Hmax].
  destruct (N.eqb_spec (new_revision txn) (base_revision txn + 1)) as [Hnew|Hnew].
  { unfold apply_authoritative. cbn [commit_txn]. rewrite Hc. tauto. }
  unfold err_if. destruct (N.leb_spec (new_revision txn) (base_revision txn)); cbn.
  { split; [done|lia]. }
  destruct (is_coalesceable txn); cbn.
  - unfold apply_coalesced_delta. cbn [delta_txn]. rewrite Hc. tauto.
  - split; [done|]. intros [[_ [?|[_ ?]]] _]; done.
Qed.

Lemma try_absorb_Some tail incoming mo mf merged : try_absorb tail incoming mo mf = Some merged →
  priority tail = priority incoming ∧ new_revision tail = base_revision incoming ∧
  is_coalesceable tail = true ∧ is_coalesceable incoming = true ∧
  (len (operations tail) + new_keys_count (index_keys (operations tail)) (operations incoming) ≤ mo)%N ∧
  merged = mkTransaction (base_revision tail) (new_revision incoming)
    (merge_ops (operations tail) (operations incoming)) (priority tail).
Proof.
  unfold try_absorb. repeat case_match; intros [= <-].
  rewrite negb_false_iff, N.eqb_eq in *. rewrite orb_false_iff, !negb_false_iff, N.ltb_ge in *. naive_solver.
Qed.

(** The merged delta has the effect of the two in sequence. *)
Lemma absorb_apply st st1 st2 r1 r2 tail incoming mo mf merged : store_wf st →
  apply_delivered st tail = (st1, Ok r1) → apply_delivered st1 incoming = (st2, Ok r2) →
  try_absorb tail incoming mo mf = Some merged → (mo ≤ max_transaction_operations (limits st))%N →
  apply_delivered st merged = (st2, Ok r2).
Proof.
  intros Hwf Hd1 Hd2 Habs Hmo. apply try_absorb_Some in Habs as (_ & Hrev & Hct & Hci & Hcount & ->).
  apply apply_delivered_Ok in Hd1 as ([Hmax Hfwd1] & Hb1 & _ & -> & staged1 & Ha1 & ->); [|done].
  pose proof (apply_ops_wf _ _ _ _ Hwf Ha1) as [Hwfs1 [_ _ Hl1 _]].
  apply apply_delivered_Ok in Hd2 as ([Hmax2 Hfwd2] & Hb2 & _ & -> & staged2 & Ha2 & ->);
    [|by apply commit_staging_wf].
  destruct (coalesceable_sets _ Hct) as [Hnt Hst], (coalesceable_sets _ Hci) as [Hni Hsi].
  apply apply_sets_Ok in Ha1 as [Hv1 ->]; [|done]. apply apply_sets_Ok in Ha2 as [Hv2 ->]; [|done].
  destruct (merge_ops_spec (operations tail) (operations incoming) Hsi) as (Hw & Hin & Hge & Hlen).
  assert (Forall is_set (merge_ops (operations tail) (operations incoming))) as Hms.
  { apply Forall_forall. intros x Hx%Hin. rewrite Forall_forall in Hst, Hsi. apply elem_of_app in Hx as [?|?]; auto. }
  assert (Forall (valid_set st) (operations incoming)) as Hv2'.
  { eapply Forall_impl; [exact Hv2|]. intros op. apply valid_set_ext; [done..|]. intros i. symmetry.
    apply write_nodes_is_Some. }
  apply apply_delivered_Ok; [done|]. cbn [base_revision new_revision operations]. split_and!.
  - done.
  - right. split; [destruct Hfwd1, Hfwd2; lia|]. apply coalesceable_iff. cbn [operations].
    apply coalesceable_iff in Hct as [_ Hct], Hci as [_ Hci]. split.
    + intros Hnil. rewrite Hnil in Hge. destruct (operations tail); [done|]. rewrite len_cons in Hge.
      unfold len in Hge at 2. cbn in Hge. lia.
    + intros x Hx%Hin. apply elem_of_app in Hx as [?|?]; auto.
  - done.
  - lia.
  - done.
  - eexists. split.
    + apply apply_sets_Ok; [done|]. split; [|done]. apply Forall_forall. intros x Hx%Hin.
      rewrite Forall_forall in Hv1, Hv2'. apply elem_of_app in Hx as [?|?]; auto.
    + unfold commit_staging, with_nodes. cbn. f_equal. rewrite <- foldl_app.
      apply (overwritten_unique (written (operations tail ++ operations incoming)) (nodes st));
        [|rewrite <- Hw]; apply overwritten_foldl.
Qed.

(** ** What a subscriber receives *)

Definition wire_canonical (w : Msg.Transaction) : Prop :=
  ∃ txn, w = txn_to_wire txn ∧ Forall op_canonical (operations txn).

Lemma to_domain_canonical txn : Forall op_canonical (operations txn) → to_domain (txn_to_wire txn) = Some txn.
Proof. intros Hc. unfold to_domain. by rewrite txn_round_trip. Qed.

Lemma follow_one st txn st' : Forall op_canonical (operations txn) →
  follow st [txn_to_wire txn] = Some st' ↔ ∃ r, apply_delivered st txn = (st', Ok r).
Proof.
  intros Hc. cbn. unfold apply_delivered_transaction. rewrite txn_round_trip by done.
  destruct (apply_delivered st txn) as [s1 [r| | |]]; split; try (by intros [= <-]; eauto); try (by intros [? ?]).
  intros [r' [= <- _]]. done.
Qed.

Lemma apply_delivered_wf st txn st' r : store_wf st → apply_delivered st txn = (st', Ok r) →
  store_wf st' ∧ limits st' = limits st.
Proof.
  intros Hwf (_ & _ & _ & _ & staged & Ha & ->)%apply_delivered_Ok; [|done].
  destruct (apply_ops_wf _ _ _ _ Hwf Ha) as [? [_ _ Hl _]]. split; [by apply commit_staging_wf|done].
Qed.

Lemma follow_wf st l st' : store_wf st → Forall wire_canonical l → follow st l = Some st' →
  store_wf st' ∧ limits st' = limits st.
Proof.
  intros Hwf Hl. revert st Hwf. induction Hl as [|w l (txn & -> & Hc) _ IH]; intros st Hwf.
  { by intros [= <-]. }
  change (txn_to_wire txn :: l) with ([txn_to_wire txn] ++ l). rewrite follow_app.
  intros (st1 & Hf1 & Hf2)%bind_Some. apply follow_one in Hf1 as [r Ha]; [|done].
  destruct (apply_delivered_wf _ _ _ _ Hwf Ha) as [Hwf1 Hl1]. destruct (IH st1 Hwf1 Hf2) as [? ?].
  split; [done|congruence].
Qed.

Inductive LaneOp :=
| LanePublish (tx : Msg.Transaction)
| LanePop.

(** The lane, and what has been popped from it in order. *)
Definition lane_step (p : SubscriberState * list Msg.Transaction) (op : LaneOp)
    : SubscriberState * list Msg.Transaction :=
  let '(s, sent) := p in
  match op with
  | LanePublish tx => ((publish_one s tx).1, sent)
  | LanePop => let '(s', item) := pop_transaction s in (s', sent ++ option_list item)
  end.
Definition published_in_lane (ops : list LaneOp) : list Msg.Transaction :=
  omap (λ op, match op with LanePublish tx => Some tx | LanePop => None end) ops.

Record lane_ok (st0 st : SemanticStore) (s : SubscriberState) (sent : list Msg.Transaction) : Prop := {
  lo_follow : follow st0 (sent ++ sub_items s) = Some st;
  lo_canonical : Forall wire_canonical (sent ++ sub_items s);
  lo_cache : ∀ d, tail_domain s = Some d → last (sub_items s) ≫= to_domain = Some d;
  lo_bound : (len (sub_items s) ≤ capacity s)%N;
  lo_ops : (max_ops s ≤ max_transaction_operations (limits st0))%N;
}.

Lemma lane_ok_pop st0 st s sent : lane_ok st0 st s sent →
  let '(s', item) := pop_transaction s in lane_ok st0 st s' (sent ++ option_list item).
Proof.
  intros [Hf Hc Hcache Hb Hm]. unfold pop_transaction. destruct (sub_items s) as [|item rest] eqn:Hi.
  { rewrite app_nil_r. split; by rewrite ?Hi. }
  split; cbn; rewrite <- ?app_assoc; try done.
  - case_bool_decide as Hr; [done|]. intros d Hd. rewrite <- (Hcache d Hd). by destruct rest.
  - rewrite len_cons in Hb. lia.
Qed.

Lemma last_snoc_inv {A} (l : list A) x : last l = Some x → ∃ l', l = l' ++ [x].
Proof. intros Hx. apply last_Some in Hx. done. Qed.

Lemma absorb_into_tail_td s incoming td r : absorb_into_tail s incoming = (td, r) →
  (∀ d, tail_domain s = Some d → last (sub_items s) ≫= to_domain = Some d) →
  ∀ merged, r = Some merged → ∃ inc w d, incoming = Some inc ∧ last (sub_items s) = Some w ∧
    to_domain w = Some d ∧ try_absorb d inc (max_ops s) (max_frame_size s) = Some merged.
Proof.
  unfold absorb_into_tail. intros Heq Hcache merged ->. destruct incoming as [inc|]; [|done].
  destruct (last (sub_items s)) as [w|] eqn:Hw; [|destruct (tail_domain s); done]. cbn in *.
  destruct (tail_domain s) as [d|] eqn:Htd.
  - injection Heq as _ Habs. exists inc, w, d. split_and!; auto.
  - destruct (to_domain w) as [d|] eqn:Hd; [|done]. injection Heq as _ Habs. exists inc, w, d. done.
Qed.

Lemma lane_ok_publish st0 st st' s sent tx : store_wf st0 → lane_ok st0 st s sent →
  wire_canonical tx → follow st [tx] = Some st' →
  is_closed (publish_one s tx).1 = false → lane_ok st0 st' (publish_one s tx).1 sent.
Proof.
  intros Hwf0 [Hf Hc Hcache Hb Hm] Htx Hstep. unfold publish_one, try_push_or_absorb.
  destruct (is_closed s) eqn:Hcl; [cbn; congruence|].
  set (incoming := if has_unsent_tail s then to_domain tx else None).
  assert (∀ d, incoming = Some d → to_domain tx = Some d) as Hinc by (subst incoming; by case_match).
  destruct (absorb_into_tail s incoming) as [td [merged|]] eqn:Habs.
  - intros _. destruct (absorb_into_tail_td _ _ _ _ Habs Hcache merged eq_refl)
      as (inc & w & d & Hi & Hw & Hd & Hmer). apply Hinc in Hi.
    apply last_snoc_inv in Hw as [front Hitems]. rewrite Hitems in *.
    destruct Htx as (txn & -> & Htxn). rewrite to_domain_canonical in Hi by done. injection Hi as <-.
    rewrite app_assoc in Hc. apply Forall_app in Hc as [Hc Hcw]. apply Forall_singleton in Hcw as (wtxn & -> & Hwtxn).
    rewrite to_domain_canonical in Hd by done. injection Hd as <-.
    rewrite app_assoc, follow_app in Hf. apply bind_Some in Hf as (sta & Hfa & Hfw).
    destruct (follow_wf _ _ _ Hwf0 Hc Hfa) as [Hwfa Hla].
    apply follow_one in Hfw as [r1 Ha1]; [|done]. apply follow_one in Hstep as [r2 Ha2]; [|done].
    rewrite <- Hla in Hm. pose proof (absorb_apply _ _ _ _ _ _ _ _ _ _ Hwfa Ha1 Ha2 Hmer Hm) as Hdel.
    assert (Forall op_canonical (operations merged)) as Hcm.
    { apply try_absorb_Some in Hmer as (_ & _ & _ & Hci & _ & ->). cbn.
      apply coalesceable_sets in Hci as [_ Hsi].
      destruct (merge_ops_spec (operations wtxn) (operations txn) Hsi) as (_ & Hin & _).
      apply Forall_forall. intros x Hx%Hin. rewrite Forall_forall in Htxn, Hwtxn.
      apply elem_of_app in Hx as [?|?]; auto. }
    assert (<[Nat.pred (length (front ++ [txn_to_wire wtxn])) := txn_to_wire merged]> (front ++ [txn_to_wire wtxn])
      = front ++ [txn_to_wire merged]) as Hins.
    { rewrite length_app. cbn. replace (Nat.pred (length front + 1)) with (length front + 0) by lia.
      by rewrite insert_app_r. }
    rewrite Hins. split; cbn.
    + rewrite app_assoc, follow_app, Hfa. cbn [mbind option_bind]. apply follow_one; [done|eauto].
    + rewrite app_assoc. apply Forall_app. split; [done|]. apply Forall_singleton. by exists merged.
    + intros d [= <-]. rewrite last_snoc. cbn. by apply to_domain_canonical.
    + rewrite len_app in *. unfold len in *. cbn in *. lia.
    + by rewrite <- Hla.
  - destruct (N.leb_spec (capacity s) (len (sub_items s))); cbn; [done|]. intros _. split; cbn.
    + rewrite app_assoc, follow_app, Hf. done.
    + rewrite app_assoc. apply Forall_app. split; [done|]. by apply Forall_singleton.
    + intros d Hd%Hinc. rewrite last_snoc. done.
    + rewrite len_app. unfold len in *. cbn. lia.
    + done.
Qed.

Lemma publish_one_closed s tx : is_closed (publish_one s tx).1 = false → is_closed s = false.
Proof.
  unfold publish_one, try_push_or_absorb. destruct (is_closed s) eqn:Hc; [|done]. cbn. congruence.
Qed.
Lemma pop_transaction_closed s : is_closed (pop_transaction s).1 = is_closed s.
Proof. unfold pop_transaction. by destruct (sub_items s). Qed.

Lemma lane_run_open p ops : is_closed (foldl lane_step p ops).1 = false → is_closed p.1 = false.
Proof.
  revert p. induction ops as [|op ops IH]; intros [s sent]; cbn; [done|]. intros Hc%IH. destruct op; cbn in Hc.
  - by eapply publish_one_closed.
  - rewrite <- pop_transaction_closed. by destruct (pop_transaction s).
Qed.

Lemma lane_run ops : ∀ st0 st st' s sent, store_wf st0 → lane_ok st0 st s sent →
  Forall wire_canonical (published_in_lane ops) → follow st (published_in_lane ops) = Some st' →
  is_closed (foldl lane_step (s, sent) ops).1 = false →
  lane_ok st0 st' (foldl lane_step (s, sent) ops).1 (foldl lane_step (s, sent) ops).2.
Proof.
  induction ops as [|op ops IH]; intros st0 st st' s sent Hwf Hok Hcan Hf Hopen.
  { by injection Hf as <-. }
  destruct op as [tx|].
  - change (published_in_lane (LanePublish tx :: ops)) with ([tx] ++ published_in_lane ops) in *.
    apply Forall_app in Hcan as [Htx Hcan']. rewrite Forall_singleton in Htx. rewrite follow_app in Hf.
    apply bind_Some in Hf as (st1 & Hf1 & Hf2). cbn [foldl lane_step] in *.
    pose proof (lane_run_open _ _ Hopen) as Hopen1. cbn [fst] in Hopen1.
    eapply IH; [exact Hwf|by eapply lane_ok_publish|done..].
  - change (published_in_lane (LanePop :: ops)) with (published_in_lane ops) in *.
    cbn [foldl lane_step] in *. pose proof (lane_ok_pop _ _ _ _ Hok) as Hok'.
    destruct (pop_transaction s) as [s' item]. by eapply IH.
Qed.

Lemma Subscriber_new_ok st cap mo mf mr : (mo ≤ max_transaction_operations (limits st))%N →
  lane_ok st st (Subscriber_new cap mo mf mr) [].
Proof. intros. split; cbn; try done. unfold len. cbn. lia. Qed.

(** ** The session's publications are canonical *)

Lemma session_step_canonical s f l s' : session_wf s → session_step WireSafe s f l s' → Forall wire_canonical l.
Proof.
  intros Hs Hstep.
  assert (∀ {T} (g : UiTransaction → N * N → UiTransaction * result StoreError T) s1 v tx, records_canonical g →
    transaction_with_result s g = Ok (s1, (v, tx)) → Forall wire_canonical [tx]) as Hclosure.
  { intros T g s1 v tx Hg (ui' & Hf & _ & -> & _)%transaction_with_result_Ok; [|done].
    apply Forall_singleton. eexists. split; [done|]. by apply (Hg _ _ _ _ Hf). }
  destruct Hstep; try done.
  - match goal with Heq : commit_transaction _ _ = _ |- _ => apply commit_transaction_Ok in Heq end; [|done].
    match goal with Hex : ∃ _, _ |- _ => destruct Hex as (txn & st & Htxn & _ & _ & _ & _ & _ & -> & _) end.
    apply Forall_singleton. exists txn. split; [done|]. by eapply txn_from_wire_canonical.
  - match goal with Ha : admits_closure _ _ |- _ => destruct Ha end. by eapply Hclosure.
  - match goal with Hc : commit_text_edit_decision _ _ _ _ _ _ _ = _, Hp : published _ = _ ++ _ |- _ =>
      destruct (edit_step_cases _ _ _ _ _ _ _ _ _ _ Hs ltac:(done) Hc Hp)
        as [[-> _]|(value & validation & s1 & tx & -> & Hcl & _)] end; [done|].
    pose proof (edit_closure_clean node value validation) as [_ Hcan]%clean_closure_methods.
    by eapply Hclosure.
Qed.

Lemma session_run_canonical s l s' : session_wf s → session_run WireSafe s l s' → Forall wire_canonical l.
Proof.
  intros Hs Hr. induction Hr as [s|s l1 s1 f l2 s2 Hr IH Hstep]; [done|].
  apply Forall_app. split; [by apply IH|]. eapply session_step_canonical; [|done].
  by apply session_run_ok in Hr as [].
Qed.
End delivery.

(** ** Resynchronising a replica

    A replica rebuilt from a snapshot of the session's store follows the session
    from there: it accepts every transaction published since, although it does
    not know the ids that were used and deleted before the snapshot. *)

Section resync.
Context `{Registry, PropertyIter}.

Lemma delivered_wf s w s' rev : store_wf s → apply_delivered_transaction s w = (s', Ok rev) → store_wf s'.
Proof.
  intros Hwf. unfold apply_delivered_transaction. destruct (txn_from_wire w); [|done..].
  by intros [? _]%apply_delivered_wf.
Qed.

Lemma follow_behind l : ∀ r s s', store_wf s → behind r s → follow s l = Some s' →
  ∃ r', follow r l = Some r' ∧ behind r' s'.
Proof.
  induction l as [|tx l IH]; intros r s s' Hwf Hb; cbn; [intros [= <-]; eauto|].
  destruct (apply_delivered_transaction s tx) as [s1 [rev| | |]] eqn:Ha; [|done..].
  destruct (apply_delivered_behind _ _ _ _ _ Hwf Hb Ha) as (r1 & -> & Hb1). apply IH; [|done].
  by eapply delivered_wf.
Qed.
End resync.
