(* ===== verification/Terminal.v ===== *)
(** * Terminal output

    Models [pty/src/ring.rs], the ring that retains the newest bytes a terminal
    printed under their absolute offsets; the subscriptions of [stream.rs] and
    [manager.rs] that read it; and the command queue of a stream.  The process,
    its two threads and the operating system's PTY are not modelled: a reader
    thread is a sequence of [append]s. *)

From S2P Require Import Prelude.
From S2P Require Import Values.

Definition MAX_TERMINAL_INPUT_BYTES : N := 65536.
Definition MAX_TERMINAL_OUTPUT_FRAME_BYTES : N := 16384.
Definition MAX_TERMINAL_RESUME_MAP_ENTRIES : N := 256.
Definition MAX_TERMINAL_COLUMNS : N := 512.
Definition MAX_TERMINAL_ROWS : N := 512.
Definition MAX_TERMINAL_PIXEL_DIMENSION : N := 16384.
Definition COMMAND_QUEUE_CAPACITY : N := 64.

(** ** The ring ([ring.rs]) *)

(** [pub enum RingError] *)
Inductive RingError :=
| OffsetOverflow
| RangeUnavailable (start fin retained next : N).

(** [pub struct OutputRing] *)
Record OutputRing := mkRing {
  chunks : list (list N);
  retained_start : N;
  next_offset : N;
  stored_bytes : N;
  ring_capacity : N;
}.

(** [OutputRing::new] *)
Definition Ring_new (capacity : N) : result RingError OutputRing :=
  if (capacity =? 0)%N then Panic else Ok (mkRing [] 0 0 0 capacity).

(** [evict_to_capacity]: every iteration but the last removes a chunk. *)
Fixpoint evict_to_capacity (fuel : nat) (r : OutputRing) : result RingError OutputRing :=
  match fuel with
  | O => Diverge
  | S fuel =>
      if (ring_capacity r <? stored_bytes r)%N then
        match chunks r with
        | [] => Ok r
        | front :: rest =>
            let overflow := (stored_bytes r - ring_capacity r)%N in
            if (len front <=? overflow)%N then
              start ← expect (checked_add64 (retained_start r) (len front));
              evict_to_capacity fuel
                (mkRing rest start (next_offset r) (sub64 (stored_bytes r) (len front)) (ring_capacity r))
            else
              start ← expect (checked_add64 (retained_start r) overflow);
              evict_to_capacity fuel
                (mkRing (drop (N.to_nat overflow) front :: rest) start (next_offset r)
                   (sub64 (stored_bytes r) overflow) (ring_capacity r))
        end
      else Ok r
  end.

(** [OutputRing::append] *)
Definition ring_append (r : OutputRing) (data : list N) : result RingError (OutputRing * N) :=
  if bool_decide (data = []) then Ok (r, next_offset r)
  else
    next ← ok_or OffsetOverflow (checked_add64 (next_offset r) (len data));
    let r1 := mkRing (chunks r ++ [data]) (retained_start r) next
                (saturating_add64 (stored_bytes r) (len data)) (ring_capacity r) in
    r2 ← evict_to_capacity (S (S (length (chunks r1)))) r1;
    Ok (r2, next_offset r2).

(** [&chunk[from..to]] *)
Definition slice_range {E} (chunk : list N) (from to : N) : result E (list N) :=
  if (from <=? to)%N && (to <=? len chunk)%N
  then Ok (take (N.to_nat (to - from)) (drop (N.to_nat from) chunk))
  else Panic.

(** The loop over the chunks that [copy_range] and [frame_range] share: [f] is
    run on what each chunk contributes to [start..fin]. *)
Fixpoint walk_chunks {S} (f : S → list N → result RingError S) (cs : list (list N)) (cursor start fin : N) (st : S)
    : result RingError S :=
  match cs with
  | [] => Ok st
  | chunk :: cs =>
      let chunk_end := add64 cursor (len chunk) in
      if (chunk_end <=? start)%N then walk_chunks f cs chunk_end start fin st
      else if (fin <=? cursor)%N then Ok st
      else
        piece ← slice_range chunk (start - cursor) (sub64 (N.min fin chunk_end) cursor);
        st ← f st piece;
        if (fin <=? chunk_end)%N then Ok st else walk_chunks f cs chunk_end start fin st
  end.

(** The guard of both. *)
Definition check_range (r : OutputRing) (start fin : N) : result RingError unit :=
  err_if ((fin <? start)%N || (start <? retained_start r)%N || (next_offset r <? fin)%N)
    (RangeUnavailable start fin (retained_start r) (next_offset r)).

(** [OutputRing::copy_range] *)
Definition copy_range (r : OutputRing) (start fin : N) : result RingError (list N) :=
  check_range r start fin ≫= λ _,
  if (start =? fin)%N then Ok []
  else walk_chunks (λ out piece, Ok (out ++ piece)) (chunks r) (retained_start r) start fin [].

(** The locals [frames], [frame] and [frame_offset] of [frame_range]. *)
Record Framer := mkFramer {
  fr_frames : list (N * list N);
  fr_frame : list N;
  fr_offset : N;
}.

(** [while !remaining.is_empty()]: every iteration takes at least one byte. *)
Fixpoint frame_piece (fuel : nat) (st : Framer) (remaining : list N) : result RingError Framer :=
  match fuel, remaining with
  | _, [] => Ok st
  | O, _ => Diverge
  | S fuel, _ =>
      let max := MAX_TERMINAL_OUTPUT_FRAME_BYTES in
      let space := sub64 max (len (fr_frame st)) in
      let n := N.min (len remaining) space in
      let taken := take (N.to_nat n) remaining in
      st ←
        (if bool_decide (fr_frame st = []) && (n =? max)%N then
           off ← ok_or OffsetOverflow (checked_add64 (fr_offset st) n);
           Ok (mkFramer (fr_frames st ++ [(fr_offset st, taken)]) [] off)
         else
           let frame := fr_frame st ++ taken in
           if (len frame =? max)%N then
             off ← ok_or OffsetOverflow (checked_add64 (fr_offset st) max);
             Ok (mkFramer (fr_frames st ++ [(fr_offset st, frame)]) [] off)
           else Ok (mkFramer (fr_frames st) frame (fr_offset st)));
      frame_piece fuel st (drop (N.to_nat n) remaining)
  end.

(** [OutputRing::frame_range] *)
Definition frame_range (r : OutputRing) (start fin : N) : result RingError (list (N * list N)) :=
  check_range r start fin ≫= λ _,
  if (start =? fin)%N then Ok []
  else
    st ← walk_chunks (λ st piece, frame_piece (length piece) st piece) (chunks r) (retained_start r) start fin
           (mkFramer [] [] start);
    Ok (if bool_decide (fr_frame st = []) then fr_frames st
        else fr_frames st ++ [(fr_offset st, fr_frame st)]).

(** ** Subscriptions ([stream.rs], [manager.rs]) *)

(** [enum TerminalResyncReason] *)
Inductive TerminalResyncReason :=
| ResyncUnspecified
| RetentionLoss
| OffsetAhead
| SubscriberFallbehind.

(** [pub enum TerminalEvent] with the messages it wraps. *)
Inductive TerminalEvent :=
| TermData (stream_id byte_offset : N) (data : list N)
| TermResync (stream_id requested_offset retained_from_offset resume_at_offset : N) (reason : TerminalResyncReason).

(** [pub enum SubscribeSnapshot] *)
Inductive SubscribeSnapshot :=
| SubReplay (frames : list TerminalEvent)
| SubResync (requested_offset retained_from_offset resume_at_offset : N) (reason : TerminalResyncReason).

(** [TerminalStream::subscribe], with the cursor of the subscription it makes. *)
Definition terminal_subscribe (id : NodeId) (r : OutputRing) (requested_offset : N)
    : result RingError (SubscribeSnapshot * N) :=
  let cut := next_offset r in
  if (cut <? requested_offset)%N then
    Ok (SubResync requested_offset (retained_start r) cut OffsetAhead, cut)
  else if (requested_offset <? retained_start r)%N then
    Ok (SubResync requested_offset (retained_start r) cut RetentionLoss, cut)
  else
    let replay frames :=
      Ok (SubReplay (map (λ f, TermData (NodeId_get id) f.1 f.2) frames), cut) in
    match frame_range r requested_offset cut with
    | Ok frames => replay frames
    | Err _ => replay []
    | Panic => Panic
    | Diverge => Diverge
    end.

(** [SubscribeOutcome::catch_up_events] and [is_replay] *)
Definition catch_up_events (id : NodeId) (snapshot : SubscribeSnapshot) : list TerminalEvent :=
  match snapshot with
  | SubReplay frames => frames
  | SubResync requested retained resume reason => [TermResync (NodeId_get id) requested retained resume reason]
  end.
Definition is_replay (snapshot : SubscribeSnapshot) : bool :=
  match snapshot with SubReplay _ => true | SubResync _ _ _ _ => false end.

(** The loop over the frames in [live_events_from_ring]. *)
Definition push_frame (id : NodeId) (st : list TerminalEvent * N) (frame : N * list N)
    : list TerminalEvent * N :=
  let '(events, cursor) := st in
  if bool_decide (frame.2 = []) then st
  else (events ++ [TermData (NodeId_get id) frame.1 frame.2], saturating_add64 frame.1 (len frame.2)).

(** [live_events_from_ring], run by [TerminalSubscription::try_drain]: the
    events and the cursor left. *)
Definition live_events_from_ring (id : NodeId) (r : OutputRing) (cursor : N)
    : result RingError (list TerminalEvent * N) :=
  let fallbehind :=
    Ok ([TermResync (NodeId_get id) cursor (retained_start r) (next_offset r) SubscriberFallbehind],
        next_offset r) in
  if (cursor <? retained_start r)%N then fallbehind
  else if (next_offset r <=? cursor)%N then Ok ([], cursor)
  else
    match frame_range r cursor (next_offset r) with
    | Ok frames => Ok (foldl (push_frame id) ([], cursor) frames)
    | Err _ => fallbehind
    | Panic => Panic
    | Diverge => Diverge
    end.

(** ** Commands *)

(** [pub enum StreamCommand] *)
Inductive StreamCommand :=
| Input (data : list N)
| Resize (columns rows pixel_width pixel_height : N)
| Close.

(** [pub enum TerminalStreamError], the errors of [try_enqueue]. *)
Inductive TerminalStreamError :=
| InvalidDimensions
| InputTooLarge
| EmptyInput
| CommandQueueFull
| StreamClosed.

(** [validate_dimensions] *)
Definition validate_dimensions (columns rows pixel_width pixel_height : N) : result TerminalStreamError unit :=
  err_if ((columns =? 0)%N || (MAX_TERMINAL_COLUMNS <? columns)%N) InvalidDimensions ≫= λ _,
  err_if ((rows =? 0)%N || (MAX_TERMINAL_ROWS <? rows)%N) InvalidDimensions ≫= λ _,
  err_if ((MAX_TERMINAL_PIXEL_DIMENSION <? pixel_width)%N || (MAX_TERMINAL_PIXEL_DIMENSION <? pixel_height)%N)
    InvalidDimensions.

(** [TerminalStream::try_enqueue]: the queue is [None] once its worker is gone. *)
Definition try_enqueue (queue : option (list StreamCommand)) (command : StreamCommand)
    : result TerminalStreamError (list StreamCommand) :=
  match command with
  | Input data =>
      err_if (bool_decide (data = [])) EmptyInput ≫= λ _,
      err_if (MAX_TERMINAL_INPUT_BYTES <? len data)%N InputTooLarge
  | Resize columns rows pixel_width pixel_height => validate_dimensions columns rows pixel_width pixel_height
  | Close => Ok tt
  end ≫= λ _,
  commands ← ok_or StreamClosed queue;
  err_if (COMMAND_QUEUE_CAPACITY <=? len commands)%N CommandQueueFull ≫= λ _,
  Ok (commands ++ [command]).
