(* ===== verification/TerminalFacts.v ===== *)
(** * Reading a terminal's output

    The ring is the newest [capacity] bytes of the history of everything
    printed; its two readers return the bytes of the history at the offsets they
    are asked for; and a subscription therefore shows the history, with every
    loss announced. *)

From S2P Require Import Prelude.
From S2P Require Import Values.
From S2P Require Import Terminal.

(** The bytes [start..fin] of a history. *)
Definition slice (h : list N) (start fin : N) : list N :=
  take (N.to_nat (fin - start)) (drop (N.to_nat start) h).

Lemma slice_full h start fin : (start ≤ fin ≤ len h)%N → len (slice h start fin) = (fin - start)%N.
Proof. intros. unfold slice, len in *. rewrite length_take, length_drop. lia. Qed.
Lemma slice_nil h start : slice h start start = [].
Proof. unfold slice. by rewrite N.sub_diag. Qed.
Lemma slice_more h k start fin : (fin ≤ len h)%N → slice (h ++ k) start fin = slice h start fin.
Proof.
  intros Hf. unfold slice, len in *. destruct (decide (fin ≤ start)%N).
  { by replace (fin - start)%N with 0%N by lia. }
  rewrite drop_app_le by lia. rewrite take_app_le; [done|]. rewrite length_drop. lia.
Qed.
Lemma slice_app h start mid fin : (start ≤ mid ≤ fin)%N →
  slice h start fin = slice h start mid ++ slice h mid fin.
Proof.
  intros Hm. unfold slice.
  replace (N.to_nat (fin - start)) with (N.to_nat (mid - start) + N.to_nat (fin - mid)) by lia.
  rewrite <- take_take_drop, drop_drop. do 3 f_equal. lia.
Qed.

(** ** What the ring holds *)

Record ring_ok (h : list N) (r : OutputRing) : Prop := {
  rk_next : next_offset r = len h;
  rk_stored : stored_bytes r = N.min (len h) (ring_capacity r);
  rk_start : (retained_start r + stored_bytes r)%N = len h;
  rk_chunks : concat (chunks r) = drop (N.to_nat (retained_start r)) h;
  rk_max : (len h ≤ u64_max)%N;
  rk_pos : (1 ≤ ring_capacity r)%N;
}.

Lemma Ring_new_ok capacity r : Ring_new capacity = Ok r → ring_ok [] r.
Proof.
  unfold Ring_new. destruct (N.eqb_spec capacity 0); [done|]. intros [= <-].
  split; cbn; try done; unfold len; cbn; lia.
Qed.

(** Evicting keeps the newest bytes. *)
Lemma evict_spec h fuel : ∀ r, length (chunks r) + 2 ≤ fuel →
  next_offset r = len h → (retained_start r + stored_bytes r)%N = len h →
  concat (chunks r) = drop (N.to_nat (retained_start r)) h → (len h ≤ u64_max)%N → (1 ≤ ring_capacity r)%N →
  ∃ r', evict_to_capacity fuel r = Ok r' ∧ ring_capacity r' = ring_capacity r ∧
    next_offset r' = next_offset r ∧ (retained_start r' + stored_bytes r')%N = len h ∧
    concat (chunks r') = drop (N.to_nat (retained_start r')) h ∧
    stored_bytes r' = N.min (stored_bytes r) (ring_capacity r).
Proof.
  induction fuel as [|fuel IH]; intros r Hfuel Hn Hs Hc Hmax Hcap; [lia|]. cbn [evict_to_capacity].
  destruct (N.ltb_spec (ring_capacity r) (stored_bytes r)) as [Hlt|Hge].
  2: { exists r. split_and!; try done. lia. }
  assert (len (concat (chunks r)) = stored_bytes r) as Hlen.
  { rewrite Hc. unfold len in *. rewrite length_drop. lia. }
  destruct (chunks r) as [|front rest] eqn:Hch; [unfold len in Hlen; cbn in Hlen; lia|].
  cbn [concat] in Hc, Hlen. cbn [length] in Hfuel. rewrite len_app in Hlen.
  assert (∀ n, (n ≤ len front)%N → drop (N.to_nat n) front ++ concat rest =
    drop (N.to_nat (retained_start r + n)) h) as Hdrop.
  { intros n Hle. replace (N.to_nat (retained_start r + n)) with (N.to_nat (retained_start r) + N.to_nat n) by lia.
    rewrite <- drop_drop, <- Hc. unfold len in Hle. by rewrite drop_app_le by lia. }
  destruct (N.leb_spec (len front) (stored_bytes r - ring_capacity r)) as [Hle|Hgt];
    rewrite checked_add64_small by lia; cbn [expect mbind result_bind];
    rewrite sub64_small by lia.
  - specialize (Hdrop (len front) ltac:(lia)). rewrite drop_ge in Hdrop by (unfold len; lia). cbn in Hdrop.
    destruct (IH (mkRing rest (retained_start r + len front) (next_offset r) (stored_bytes r - len front)
      (ring_capacity r))) as (r' & Heq & ? & ? & ? & ? & Hst); cbn in *; try done; [lia..|].
    exists r'. rewrite Heq. split_and!; try done. rewrite Hst. lia.
  - eexists. destruct fuel as [|fuel]; [lia|]. cbn [evict_to_capacity ring_capacity stored_bytes].
    rewrite (proj2 (N.ltb_ge _ _)) by lia.
    split; [reflexivity|]. cbn. split_and!; try done; [lia|apply Hdrop; lia|lia].
Qed.

(** [append] appends to the history, unless the offset would overflow. *)
Lemma ring_append_spec h r data : ring_ok h r →
  match ring_append r data with
  | Ok (r', next) => ring_ok (h ++ data) r' ∧ ring_capacity r' = ring_capacity r ∧ next = len (h ++ data)
  | Err e => e = OffsetOverflow ∧ (u64_max < len (h ++ data))%N
  | _ => False
  end.
Proof.
  intros [Hn Hst Hs Hc Hmax Hpos]. unfold ring_append. case_bool_decide as Hd.
  { subst data. rewrite app_nil_r. split_and!; try done. }
  rewrite Hn. destruct (checked_add64 (len h) (len data)) as [next|] eqn:Hadd.
  2: { apply checked_add64_None in Hadd. by rewrite len_app. }
  apply checked_add64_Some in Hadd as [-> Hadd]. cbn [ok_or mbind result_bind].
  set (r1 := mkRing _ _ _ _ _). assert (ring_capacity r1 = ring_capacity r) as Hcap1 by done.
  destruct (evict_spec (h ++ data) (S (S (length (chunks r1)))) r1) as (r' & -> & ? & Hn' & Hs' & Hc' & Hst');
    cbn [r1 chunks retained_start next_offset stored_bytes ring_capacity] in *; rewrite ?len_app; try done; try lia.
  - unfold saturating_add64. lia.
  - rewrite concat_app, Hc. cbn. rewrite app_nil_r, drop_app_le; [done|]. unfold len in *. lia.
  - cbn [mbind result_bind]. split_and!; [|congruence|congruence].
    rewrite len_app in Hs'. unfold saturating_add64 in Hst'. split; rewrite ?len_app; done || lia.
Qed.

(** ** The two readers *)

Lemma slice_range_Ok {E} chunk from to : (from ≤ to ≤ len chunk)%N →
  slice_range (E:=E) chunk from to = Ok (slice chunk from to).
Proof.
  intros. unfold slice_range. rewrite (proj2 (N.leb_le from to)), (proj2 (N.leb_le to (len chunk))) by lia. done.
Qed.

(** The loop runs its body on consecutive pieces of the range. *)
Lemma walk_chunks_spec {S} (f : S → list N → result RingError S) cs : ∀ cursor start fin st,
  (cursor + len (concat cs) ≤ u64_max)%N → (start ≤ fin ≤ cursor + len (concat cs))%N →
  ∃ pieces, concat pieces = slice (concat cs) (start - cursor) (fin - cursor) ∧
    walk_chunks f cs cursor start fin st = try_fold f st pieces.
Proof.
  induction cs as [|chunk cs IH]; intros cursor start fin st Hmax Hr; cbn [concat walk_chunks].
  { exists []. split; [|done]. unfold slice. by rewrite drop_nil, take_nil. }
  cbn [concat] in Hmax, Hr. rewrite len_app in Hmax, Hr. rewrite add64_small by lia.
  destruct (N.leb_spec (cursor + len chunk) start) as [Hle|Hgt].
  { destruct (IH (cursor + len chunk)%N start fin st) as (pieces & Hp & ->); [lia..|].
    exists pieces. split; [|done]. rewrite Hp. unfold slice, len in *. rewrite drop_app_ge by lia.
    f_equal; [lia|f_equal; lia]. }
  destruct (N.leb_spec fin cursor) as [Hle|Hgt'].
  { exists []. split; [|done]. unfold slice. by replace (fin - cursor - (start - cursor))%N with 0%N by lia. }
  rewrite sub64_small by lia. rewrite slice_range_Ok by lia. cbn [mbind result_bind].
  destruct (N.leb_spec fin (cursor + len chunk)) as [Hle|Hgt''].
  - exists [slice chunk (start - cursor) (fin - cursor)]. split.
    + cbn. rewrite app_nil_r. rewrite slice_more by lia. done.
    + rewrite N.min_l by done. cbn. by destruct (f st _).
  - destruct (f st (slice chunk (start - cursor) (N.min fin (cursor + len chunk) - cursor))) as [st'|e| |] eqn:Hf.
    1: destruct (IH (cursor + len chunk)%N start fin st') as (pieces & Hp & Heq); [lia..|].
    2-4: destruct (IH (cursor + len chunk)%N start fin st) as (pieces & Hp & Heq); [lia..|].
    all: exists (slice chunk (start - cursor) (N.min fin (cursor + len chunk) - cursor) :: pieces).
    all: split; [|cbn; by rewrite Hf, ?Heq].
    all: cbn; rewrite Hp, N.min_r by lia; rewrite (slice_app (chunk ++ concat cs) _ (len chunk)) by lia; f_equal.
    all: try (rewrite slice_more by lia; f_equal; lia).
    all: unfold slice, len in *; rewrite drop_app_ge by lia; f_equal; [lia|f_equal; lia].
Qed.

Lemma check_range_spec h r start fin : ring_ok h r →
  check_range r start fin = Ok tt ↔ (retained_start r ≤ start ≤ fin ∧ fin ≤ len h)%N.
Proof.
  intros [Hn _ _ _ _ _]. unfold check_range. rewrite err_if_Ok, !orb_false_iff, !N.ltb_ge, Hn. lia.
Qed.

(** Both readers walk over the bytes of the history. *)
Lemma walk_ring {S} (f : S → list N → result RingError S) h r start fin st : ring_ok h r →
  (retained_start r ≤ start ≤ fin)%N → (fin ≤ len h)%N →
  ∃ pieces, concat pieces = slice h start fin ∧
    walk_chunks f (chunks r) (retained_start r) start fin st = try_fold f st pieces.
Proof.
  intros [Hn Hst Hs Hc Hmax Hpos] Hr Hf.
  assert (len (concat (chunks r)) = stored_bytes r) as Hlen.
  { rewrite Hc. unfold len in *. rewrite length_drop. lia. }
  destruct (walk_chunks_spec f (chunks r) (retained_start r) start fin st) as (pieces & Hp & Heq); [lia..|].
  exists pieces. split; [|done]. rewrite Hp, Hc. unfold slice. rewrite drop_drop. f_equal; [lia|f_equal; lia].
Qed.

Lemma copy_range_spec h r start fin : ring_ok h r → (retained_start r ≤ start ≤ fin)%N → (fin ≤ len h)%N →
  copy_range r start fin = Ok (slice h start fin).
Proof.
  intros Hr Hs Hf. unfold copy_range. rewrite (proj2 (check_range_spec h r start fin Hr)) by lia.
  cbn [mbind result_bind]. destruct (N.eqb_spec start fin) as [->|_]; [by rewrite slice_nil|].
  destruct (walk_ring (λ out piece, Ok (out ++ piece)) h r start fin [] Hr Hs Hf) as (pieces & <- & ->).
  enough (∀ acc, try_fold (E:=RingError) (λ out piece, Ok (out ++ piece)) acc pieces = Ok (acc ++ concat pieces))
    as Hall by apply (Hall []).
  induction pieces as [|p pieces IH]; intros acc; cbn; [by rewrite app_nil_r|]. by rewrite IH, <- app_assoc.
Qed.

(** ** Frames *)

(** Frames that follow one another from [pos], none empty or too long. *)
Fixpoint consecutive (pos : N) (fs : list (N * list N)) : Prop :=
  match fs with
  | [] => True
  | (off, data) :: fs =>
      off = pos ∧ data ≠ [] ∧ (len data ≤ MAX_TERMINAL_OUTPUT_FRAME_BYTES)%N ∧ consecutive (pos + len data) fs
  end.

Definition framed_data (fs : list (N * list N)) : list N := concat fs.*2.

Lemma framed_data_snoc fs f : framed_data (fs ++ [f]) = framed_data fs ++ f.2.
Proof. unfold framed_data. rewrite fmap_app, concat_app. cbn. by rewrite app_nil_r. Qed.

Lemma consecutive_snoc fs data : ∀ pos, consecutive pos fs → data ≠ [] →
  (len data ≤ MAX_TERMINAL_OUTPUT_FRAME_BYTES)%N →
  consecutive pos (fs ++ [((pos + len (framed_data fs))%N, data)]).
Proof.
  induction fs as [|[off d] fs IH]; intros pos Hc Hne Hd; cbn.
  - unfold len. cbn. rewrite N.add_0_r. by split_and!.
  - destruct Hc as (-> & ? & ? & Hc). split_and!; try done.
    change (framed_data ((pos, d) :: fs)) with (d ++ framed_data fs). rewrite len_app, N.add_assoc. by apply IH.
Qed.

(** The locals of [frame_range] once [data] has been framed from [start]. *)
Record framing (start : N) (data : list N) (st : Framer) : Prop := {
  fm_frames : consecutive start (fr_frames st);
  fm_data : framed_data (fr_frames st) ++ fr_frame st = data;
  fm_offset : fr_offset st = (start + len (framed_data (fr_frames st)))%N;
  fm_room : (len (fr_frame st) < MAX_TERMINAL_OUTPUT_FRAME_BYTES)%N;
}.

(** Completing the open frame. *)
Lemma framing_push start data st piece off' : framing start data st →
  len (fr_frame st ++ piece) = MAX_TERMINAL_OUTPUT_FRAME_BYTES →
  off' = (fr_offset st + MAX_TERMINAL_OUTPUT_FRAME_BYTES)%N →
  framing start (data ++ piece) (mkFramer (fr_frames st ++ [(fr_offset st, fr_frame st ++ piece)]) [] off').
Proof.
  intros [Hf Hd Ho Hr] Hlen ->. split; cbn [fr_frames fr_frame fr_offset].
  - rewrite Ho. apply consecutive_snoc; [done| |lia]. intros Hnil. rewrite Hnil in Hlen. done.
  - rewrite framed_data_snoc, app_nil_r. cbn. by rewrite app_assoc, Hd.
  - rewrite framed_data_snoc, len_app, Ho. cbn [snd]. rewrite Hlen. lia.
  - done.
Qed.

Lemma frame_piece_spec start fuel : ∀ data st remaining, framing start data st →
  (start + len (data ++ remaining) ≤ u64_max)%N → length remaining ≤ fuel →
  ∃ st', frame_piece fuel st remaining = Ok st' ∧ framing start (data ++ remaining) st'.
Proof.
  induction fuel as [|fuel IH]; intros data st remaining Hst Hmax Hfuel.
  { destruct remaining; [|cbn in Hfuel; lia]. exists st. by rewrite app_nil_r. }
  destruct remaining as [|b rest]; [exists st; by rewrite app_nil_r|].
  cbn [frame_piece]. set (remaining := b :: rest) in *.
  pose proof (fm_room _ _ _ Hst) as Hroom. rewrite sub64_small by (unfold u64_max; lia || done).
  set (space := (MAX_TERMINAL_OUTPUT_FRAME_BYTES - len (fr_frame st))%N) in *.
  set (n := N.min (len remaining) space). set (taken := take (N.to_nat n) remaining).
  assert (1 ≤ len remaining)%N as Hne by (unfold remaining; rewrite len_cons; lia).
  assert (len taken = n) as Htaken by (unfold taken, len in *; rewrite length_take; lia).
  assert (taken ++ drop (N.to_nat n) remaining = remaining) as Hsplit by apply take_drop.
  assert (∀ st', framing start (data ++ taken) st' →
    ∃ st'', frame_piece fuel st' (drop (N.to_nat n) remaining) = Ok st'' ∧
      framing start (data ++ remaining) st'') as Hrest.
  { intros st' Hst'. destruct (IH (data ++ taken) st' (drop (N.to_nat n) remaining) Hst') as (st'' & ? & Hst'').
    - by rewrite <- app_assoc, Hsplit.
    - rewrite length_drop. unfold remaining, len in *. cbn in *. lia.
    - exists st''. split; [done|]. by rewrite <- app_assoc, Hsplit in Hst''. }
  assert (len (fr_frame st ++ taken) = MAX_TERMINAL_OUTPUT_FRAME_BYTES →
    checked_add64 (fr_offset st) MAX_TERMINAL_OUTPUT_FRAME_BYTES =
      Some (fr_offset st + MAX_TERMINAL_OUTPUT_FRAME_BYTES)%N) as Hadd.
  { intros Hlen. apply checked_add64_Some. split; [done|]. rewrite (fm_offset _ _ _ Hst).
    rewrite <- (fm_data _ _ _ Hst), <- Hsplit, !len_app in Hmax. rewrite len_app in Hlen. lia. }
  case_bool_decide as Hempty; cbn [andb].
  - destruct (N.eqb_spec n MAX_TERMINAL_OUTPUT_FRAME_BYTES) as [Hn|Hn].
    + assert (len (fr_frame st ++ taken) = MAX_TERMINAL_OUTPUT_FRAME_BYTES) as Hlen by (rewrite Hempty; cbn; lia).
      assert (checked_add64 (fr_offset st) n = Some (fr_offset st + MAX_TERMINAL_OUTPUT_FRAME_BYTES)%N) as ->
        by (rewrite Hn; by apply Hadd). cbn [ok_or mbind result_bind]. apply Hrest.
      pose proof (framing_push _ _ _ taken _ Hst Hlen eq_refl) as Hp. by rewrite Hempty in Hp.
    + rewrite Hempty. cbn [app]. rewrite Htaken, (proj2 (N.eqb_neq _ _) Hn). cbn [mbind result_bind].
      apply Hrest. destruct Hst as [Hf Hd Ho Hr]. rewrite Hempty, app_nil_r in Hd. split; cbn [fr_frames fr_frame fr_offset]; try done.
      * by rewrite Hd.
      * rewrite Htaken. unfold n, space in *. lia.
  - destruct (N.eqb_spec (len (fr_frame st ++ taken)) MAX_TERMINAL_OUTPUT_FRAME_BYTES) as [Hlen|Hlen].
    + rewrite Hadd by done. cbn [ok_or mbind result_bind]. apply Hrest. by apply framing_push.
    + cbn [mbind result_bind]. apply Hrest. destruct Hst as [Hf Hd Ho Hr]. split; cbn [fr_frames fr_frame fr_offset]; try done.
      * by rewrite app_assoc, Hd.
      * rewrite len_app in *. unfold n, space in *. lia.
Qed.

(** The pieces of a range are framed one after the other. *)
Lemma frame_pieces start pieces : ∀ data st, framing start data st →
  (start + len (data ++ concat pieces) ≤ u64_max)%N →
  ∃ st', try_fold (λ st piece, frame_piece (length piece) st piece) st pieces = Ok st' ∧
    framing start (data ++ concat pieces) st'.
Proof.
  induction pieces as [|p pieces IH]; intros data st Hst Hmax; cbn.
  { exists st. by rewrite app_nil_r. }
  cbn in Hmax. rewrite app_assoc in Hmax.
  destruct (frame_piece_spec start (length p) data st p Hst) as (st1 & -> & Hst1); [|done|].
  { rewrite len_app in Hmax. lia. }
  cbn [mbind result_bind]. rewrite app_assoc. by apply IH.
Qed.

(** [frame_range] frames exactly the bytes it is asked for. *)
Lemma frame_range_spec h r start fin : ring_ok h r → (retained_start r ≤ start ≤ fin)%N → (fin ≤ len h)%N →
  ∃ fs, frame_range r start fin = Ok fs ∧ consecutive start fs ∧ framed_data fs = slice h start fin.
Proof.
  intros Hr Hs Hf. unfold frame_range. rewrite (proj2 (check_range_spec h r start fin Hr)) by lia.
  cbn [mbind result_bind]. destruct (N.eqb_spec start fin) as [->|_].
  { exists []. by rewrite slice_nil. }
  destruct (walk_ring (λ st piece, frame_piece (length piece) st piece) h r start fin (mkFramer [] [] start) Hr Hs Hf)
    as (pieces & Hp & ->).
  pose proof (rk_max _ _ Hr) as Hmax. pose proof (slice_full h start fin ltac:(lia)) as Hlen.
  destruct (frame_pieces start pieces [] (mkFramer [] [] start)) as (st & -> & [Hfr Hd Ho Hroom]).
  { split; cbn; try done. unfold len. cbn. lia. }
  { cbn. rewrite Hp. lia. }
  cbn [app] in Hd. rewrite Hp in Hd. cbn [mbind result_bind].
  case_bool_decide as He.
  - exists (fr_frames st). rewrite He, app_nil_r in Hd. done.
  - exists (fr_frames st ++ [(fr_offset st, fr_frame st)]). split; [done|]. rewrite framed_data_snoc. split; [|done].
    rewrite Ho. apply consecutive_snoc; [done|done|lia].
Qed.

(** ** What a client sees *)

(** A client at [pos] in the history takes the events in order: data must be
    the next bytes of the history, and a resync must say where it stands and
    name a position within the history. *)
Fixpoint reads (h : list N) (pos : N) (es : list TerminalEvent) : option N :=
  match es with
  | [] => Some pos
  | TermData _ off data :: es =>
      if decide (off = pos ∧ data ≠ [] ∧ (len data ≤ MAX_TERMINAL_OUTPUT_FRAME_BYTES)%N ∧
                 slice h pos (pos + len data) = data)
      then reads h (pos + len data) es else None
  | TermResync _ requested _ resume _ :: es =>
      if decide (requested = pos ∧ (resume ≤ len h)%N) then reads h resume es else None
  end.

Lemma reads_app h es es' : ∀ pos, reads h pos (es ++ es') = reads h pos es ≫= λ pos', reads h pos' es'.
Proof.
  induction es as [|[id off data|id req ret res reason] es IH]; intros pos; cbn; [done| |]; case_decide; done || apply IH.
Qed.

(** More output does not change what was read. *)
Lemma reads_more h k es : ∀ pos pos', reads h pos es = Some pos' → reads (h ++ k) pos es = Some pos'.
Proof.
  induction es as [|[id off data|id req ret res reason] es IH]; intros pos pos'; cbn; [done| |];
    case_decide as Hd; try done; intros Hr.
  - destruct Hd as (-> & Hne & Hle & Hsl). rewrite decide_True; [by apply IH|]. split_and!; try done.
    destruct (decide (pos + len data ≤ len h)%N) as [Hin|Hout]; [by rewrite slice_more|].
    exfalso. apply (f_equal length) in Hsl. unfold slice in Hsl. rewrite length_take, length_drop in Hsl.
    unfold len in *. destruct data; [done|]. cbn in *. lia.
  - destruct Hd as (-> & Hle). rewrite decide_True; [by apply IH|]. rewrite len_app. split; [done|lia].
Qed.

Definition frame_events (id : NodeId) (fs : list (N * list N)) : list TerminalEvent :=
  map (λ f, TermData (NodeId_get id) f.1 f.2) fs.

(** Consecutive frames of the history are read. *)
Lemma reads_frames h id fs : ∀ pos, consecutive pos fs →
  framed_data fs = slice h pos (pos + len (framed_data fs)) → (pos + len (framed_data fs) ≤ len h)%N →
  reads h pos (frame_events id fs) = Some (pos + len (framed_data fs))%N.
Proof.
  induction fs as [|[off d] fs IH]; intros pos; cbn [consecutive frame_events map reads].
  { intros _ _ _. f_equal. unfold len. cbn. lia. }
  intros (-> & Hne & Hle & Hc). change (framed_data ((pos, d) :: fs)) with (d ++ framed_data fs).
  rewrite len_app, N.add_assoc. intros Hsl Hmax. rewrite (slice_app _ _ (pos + len d)) in Hsl by lia.
  apply app_inj_1 in Hsl as [Hd Hfs].
  2: { pose proof (slice_full h pos (pos + len d) ltac:(lia)) as Hl. unfold len in *. lia. }
  cbn [fst snd]. rewrite decide_True by done. by apply IH.
Qed.

Lemma push_frames id fs : ∀ es pos, consecutive pos fs → (pos + len (framed_data fs) ≤ u64_max)%N →
  foldl (push_frame id) (es, pos) fs = (es ++ frame_events id fs, (pos + len (framed_data fs))%N).
Proof.
  induction fs as [|[off d] fs IH]; intros es pos; cbn [consecutive foldl frame_events map].
  { intros _ _. rewrite app_nil_r. f_equal. unfold len. cbn. lia. }
  intros (-> & Hne & Hle & Hc). change (framed_data ((pos, d) :: fs)) with (d ++ framed_data fs).
  rewrite len_app, N.add_assoc. intros Hmax. unfold push_frame at 2. cbn [fst snd].
  rewrite bool_decide_eq_false_2 by done. unfold saturating_add64. rewrite N.min_l by lia.
  rewrite IH by (done || lia). by rewrite <- app_assoc.
Qed.

(** Draining a subscription catches up with the ring; what was evicted before it
    was read is announced. *)
Lemma live_events_spec h id r cursor : ring_ok h r → (cursor ≤ len h)%N →
  ∃ es, live_events_from_ring id r cursor = Ok (es, next_offset r) ∧ reads h cursor es = Some (next_offset r) ∧
    ((retained_start r ≤ cursor)%N → ∃ fs, es = frame_events id fs ∧ framed_data fs = slice h cursor (next_offset r)).
Proof.
  intros Hr Hc. pose proof (rk_next _ _ Hr) as Hn. unfold live_events_from_ring.
  destruct (N.ltb_spec cursor (retained_start r)) as [Hlt|Hge].
  { eexists. split; [done|]. split; [|lia]. cbn. by rewrite decide_True by (split; [done|lia]). }
  destruct (N.leb_spec (next_offset r) cursor).
  { assert (cursor = next_offset r) as -> by lia. exists []. split; [done|]. split; [done|]. intros _.
    exists []. by rewrite slice_nil. }
  destruct (frame_range_spec h r cursor (next_offset r) Hr) as (fs & -> & Hcons & Hd); [lia..|].
  pose proof (slice_full h cursor (next_offset r) ltac:(lia)) as Hlen. pose proof (rk_max _ _ Hr) as Hmax.
  rewrite push_frames by (done || (rewrite Hd; lia)). cbn [app].
  assert (cursor + len (framed_data fs) = next_offset r)%N as Hend by (rewrite Hd; lia).
  exists (frame_events id fs). rewrite Hend. split; [done|]. split; [|by eauto].
  rewrite <- Hend. apply reads_frames; [done|by rewrite Hend|lia].
Qed.

(** Subscribing: a replay from the requested offset when the ring still has it,
    else a resync. *)
Lemma terminal_subscribe_spec h id r requested : ring_ok h r →
  ∃ snapshot, terminal_subscribe id r requested = Ok (snapshot, next_offset r) ∧
    reads h requested (catch_up_events id snapshot) = Some (next_offset r) ∧
    (is_replay snapshot = true ↔ (retained_start r ≤ requested ≤ next_offset r)%N) ∧
    ((retained_start r ≤ requested ≤ next_offset r)%N → ∃ fs, snapshot = SubReplay (frame_events id fs) ∧
       framed_data fs = slice h requested (next_offset r)).
Proof.
  intros Hr. pose proof (rk_next _ _ Hr) as Hn. unfold terminal_subscribe.
  destruct (N.ltb_spec (next_offset r) requested).
  { eexists. split; [done|]. cbn. rewrite decide_True by (split; [done|lia]).
    split; [done|]. split; [split; [done|lia]|lia]. }
  destruct (N.ltb_spec requested (retained_start r)).
  { eexists. split; [done|]. cbn. rewrite decide_True by (split; [done|lia]).
    split; [done|]. split; [split; [done|lia]|lia]. }
  destruct (frame_range_spec h r requested (next_offset r) Hr) as (fs & -> & Hcons & Hd); [lia..|].
  pose proof (slice_full h requested (next_offset r) ltac:(lia)) as Hlen.
  assert (requested + len (framed_data fs) = next_offset r)%N as Hend by (rewrite Hd; lia).
  exists (SubReplay (frame_events id fs)). split; [done|]. split; [|split; [|by eauto]].
  - cbn [catch_up_events]. rewrite <- Hend. apply reads_frames; [done|by rewrite Hend|lia].
  - split; [lia|done].
Qed.

(** ** Runs *)

(** What the reader thread and a subscription do to a ring. *)
Inductive TermOp :=
| TermAppend (data : list N)
| TermDrain.

Definition term_step (id : NodeId) (st : OutputRing * N * list TerminalEvent) (op : TermOp)
    : result RingError (OutputRing * N * list TerminalEvent) :=
  let '(r, cursor, es) := st in
  match op with
  | TermAppend data => '(r', _) ← ring_append r data; Ok (r', cursor, es)
  | TermDrain => '(es', cursor') ← live_events_from_ring id r cursor; Ok (r, cursor', es ++ es')
  end.

Fixpoint printed (ops : list TermOp) : list N :=
  match ops with
  | [] => []
  | TermAppend data :: ops => data ++ printed ops
  | TermDrain :: ops => printed ops
  end.

(** At most [capacity] bytes are printed between two drains, [lag] before the first. *)
Fixpoint keeps_up (capacity lag : N) (ops : list TermOp) : Prop :=
  match ops with
  | [] => True
  | TermAppend data :: ops => (lag + len data ≤ capacity)%N ∧ keeps_up capacity (lag + len data) ops
  | TermDrain :: ops => keeps_up capacity 0 ops
  end.

Definition event_data (e : TerminalEvent) : option (list N) :=
  match e with TermData _ _ data => Some data | TermResync _ _ _ _ _ => None end.

(** All of the events are data, and together they are the bytes [start..fin]. *)
Definition lossless (h : list N) (start fin : N) (es : list TerminalEvent) : Prop :=
  ∃ ds, event_data <$> es = Some <$> ds ∧ concat ds = slice h start fin.

Lemma lossless_frames h start fin id fs : framed_data fs = slice h start fin →
  lossless h start fin (frame_events id fs).
Proof.
  intros Hd. exists (fs.*2). split; [|done]. clear Hd.
  induction fs as [|f fs IH]; [done|]. cbn. by f_equal.
Qed.

Lemma lossless_app h start mid fin es es' : (start ≤ mid ≤ fin)%N →
  lossless h start mid es → lossless h mid fin es' → lossless h start fin (es ++ es').
Proof.
  intros Hm (ds & He & Hd) (ds' & He' & Hd'). exists (ds ++ ds'). split.
  - by rewrite !fmap_app, He, He'.
  - by rewrite concat_app, Hd, Hd', <- slice_app.
Qed.

Lemma lossless_more h k start fin es : (fin ≤ len h)%N → lossless h start fin es → lossless (h ++ k) start fin es.
Proof. intros Hf (ds & He & Hd). exists ds. by rewrite slice_more. Qed.

Lemma term_run id ops : ∀ h r cursor es requested, ring_ok h r → (cursor ≤ len h)%N →
  reads h requested es = Some cursor → (len (h ++ printed ops) ≤ u64_max)%N →
  ∃ r' cursor' es', try_fold (term_step id) (r, cursor, es) ops = Ok (r', cursor', es') ∧
    ring_ok (h ++ printed ops) r' ∧ (cursor' ≤ len (h ++ printed ops))%N ∧
    reads (h ++ printed ops) requested es' = Some cursor' ∧
    ((len h - cursor ≤ ring_capacity r)%N → keeps_up (ring_capacity r) (len h - cursor) ops →
     lossless h requested cursor es → (requested ≤ cursor)%N → lossless (h ++ printed ops) requested cursor' es').
Proof.
  induction ops as [|[data|] ops IH]; intros h r cursor es requested Hr Hc Hrd Hmax; cbn [printed try_fold].
  { exists r, cursor, es. rewrite app_nil_r. by split_and!. }
  - cbn [printed] in Hmax. rewrite app_assoc in Hmax.
    pose proof (ring_append_spec h r data Hr) as Ha. cbn [term_step].
    destruct (ring_append r data) as [[r1 n]|e| |]; [|rewrite len_app in Hmax; lia|done..].
    destruct Ha as (Hr1 & Hcap & _). cbn [mbind result_bind].
    destruct (IH (h ++ data) r1 cursor es requested) as (r' & c' & es' & -> & ? & ? & ? & Hloss);
      [done|rewrite len_app; lia|by apply reads_more|done|].
    exists r', c', es'. rewrite app_assoc. split_and!; try done.
    intros Hlag [Hk1 Hk2] Hl Hle.
    assert (len (h ++ data) - cursor = len h - cursor + len data)%N as Hlag' by (rewrite len_app; lia).
    apply Hloss; [by rewrite Hcap, Hlag'..|by apply lossless_more|done].
  - destruct (live_events_spec h id r cursor Hr Hc) as (es1 & Hlive & Hread & Hfs).
    cbn [term_step]. rewrite Hlive. cbn [mbind result_bind].
    pose proof (rk_next _ _ Hr) as Hn. cbn [printed] in Hmax.
    destruct (IH h r (next_offset r) (es ++ es1) requested) as (r' & c' & es' & -> & ? & ? & ? & Hloss);
      [done|lia|by rewrite reads_app, Hrd|done|].
    exists r', c', es'. split_and!; try done. cbn [keeps_up]. intros Hlag Hk Hl Hle.
    apply Hloss; [lia|by rewrite Hn, N.sub_diag| |lia].
    destruct Hfs as (fs & -> & Hd).
    { pose proof (rk_stored _ _ Hr). pose proof (rk_start _ _ Hr). lia. }
    apply lossless_app with cursor; [lia|done|by apply lossless_frames].
Qed.

(** After a drain the subscription has read everything. *)
Lemma term_run_drained id ops h r cursor es requested r' cursor' es' : ring_ok h r → (cursor ≤ len h)%N →
  reads h requested es = Some cursor → (len (h ++ printed ops) ≤ u64_max)%N →
  try_fold (term_step id) (r, cursor, es) (ops ++ [TermDrain]) = Ok (r', cursor', es') →
  cursor' = len (h ++ printed ops).
Proof.
  intros Hr Hc Hrd Hmax. destruct (term_run id ops h r cursor es requested Hr Hc Hrd Hmax)
    as (r1 & c1 & es1 & Hrun & Hr1 & Hc1 & _). rewrite try_fold_app, Hrun. cbn [mbind result_bind try_fold term_step].
  destruct (live_events_spec _ id _ _ Hr1 Hc1) as (es2 & -> & _). cbn. intros [= _ <- _].
  apply Hr1.
Qed.

Lemma printed_app ops ops' : printed (ops ++ ops') = printed ops ++ printed ops'.
Proof. induction ops as [|[data|] ops IH]; cbn; [done| |done]. by rewrite IH, app_assoc. Qed.
