(* ===== verification/Capability.v ===== *)
(** * Capability profiles and negotiation

    Models [semantic-tree/src/capability.rs]: profile identifiers with their
    textual form, sets of them, and the negotiation of a client's offer against
    what the server requires and supports.  A [BTreeSet] is a finite set
    iterated in ascending order. *)

From Stdlib Require Import Ascii.
From S2P Require Import Prelude.
From S2P Require Import Wire.

Definition PROFILE_STANDARD_WIDGETS : string := "org.srui.standard-widgets".
Definition PROFILE_TERMINAL : string := "org.srui.terminal".

(** [pub struct Profile] *)
Record Profile := mkProfile { pf_name : string; pf_version : N }.
#[export] Instance Profile_eq_dec : EqDecision Profile.
Proof. solve_decision. Defined.
#[export] Instance Profile_countable : Countable Profile.
Proof.
  by apply (inj_countable' (λ p, (pf_name p, pf_version p)) (λ '(n, v), mkProfile n v)); intros [].
Defined.

(** [Profile::standard_widgets_v1] and [terminal_v1] *)
Definition standard_widgets_v1 : Profile := mkProfile PROFILE_STANDARD_WIDGETS 1.
Definition terminal_v1 : Profile := mkProfile PROFILE_TERMINAL 1.

(** [impl fmt::Display for Profile] *)
Definition profile_display (p : Profile) : string := pf_name p +:+ "/" +:+ pretty (pf_version p).

(** ** Parsing

    A string is its UTF-8 bytes; [char::is_whitespace] is the Unicode property
    [White_Space], here the encodings of its members. *)
Definition bytes_string (l : list N) : string :=
  foldr (λ b s, String (ascii_of_N b) s) EmptyString l.
Definition WHITE_SPACE : list string :=
  map bytes_string
    (map (λ b, [b]) [9; 10; 11; 12; 13; 32] ++
     [[194; 133]; [194; 160]; [225; 154; 128]] ++
     map (λ b, [226; 128; b]) [128; 129; 130; 131; 132; 133; 134; 135; 136; 137; 138; 168; 169; 175] ++
     [[226; 129; 159]; [227; 128; 128]])%N.

Fixpoint drop_bytes (n : nat) (s : string) : string :=
  match n, s with
  | S n, String _ s => drop_bytes n s
  | _, _ => s
  end.
Fixpoint reverse_onto (acc s : string) : string :=
  match s with EmptyString => acc | String a s => reverse_onto (String a acc) s end.
Definition reverse (s : string) : string := reverse_onto "" s.

(** Strips the members of [spaces] from the front; every step shortens the string. *)
Fixpoint strip (fuel : nat) (spaces : list string) (s : string) : string :=
  match fuel with
  | O => s
  | S fuel =>
      match find (λ w, String.prefix w s) spaces with
      | Some w => strip fuel spaces (drop_bytes (String.length w) s)
      | None => s
      end
  end.
(** [str::trim] *)
Definition trim (s : string) : string :=
  let s := strip (String.length s) WHITE_SPACE s in
  reverse (strip (String.length s) (map reverse WHITE_SPACE) (reverse s)).

(** [str::rsplit_once('/')] *)
Fixpoint rsplit_slash (s : string) : option (string * string) :=
  match s with
  | EmptyString => None
  | String a s =>
      match rsplit_slash s with
      | Some (l, r) => Some (String a l, r)
      | None => if (N_of_ascii a =? 47)%N then Some ("", s) else None
      end
  end.

(** [str::parse::<u32>]: an optional plus sign, then decimal digits, without overflow. *)
Fixpoint parse_digits (acc : N) (s : string) : option N :=
  match s with
  | EmptyString => Some acc
  | String a s =>
      let b := N_of_ascii a in
      if (48 <=? b)%N && (b <=? 57)%N then
        let acc := (10 * acc + (b - 48))%N in
        if (u32_max <? acc)%N then None else parse_digits acc s
      else None
  end.
Definition parse_u32 (s : string) : option N :=
  let s := match s with
           | String a rest => if (N_of_ascii a =? 43)%N then rest else s
           | EmptyString => s
           end in
  if String.eqb s "" then None else parse_digits 0 s.

(** [pub enum ParseProfileError] *)
Inductive ParseProfileError :=
| EmptyString_
| EmptyName
| MissingVersionDelimiter (s : string)
| InvalidVersion (v : string).

(** [impl FromStr for Profile] and [Profile::parse] *)
Definition profile_parse (s : string) : result ParseProfileError Profile :=
  let s := trim s in
  err_if (String.eqb s "") EmptyString_ ≫= λ _,
  '(name, version_str) ← ok_or (MissingVersionDelimiter s) (rsplit_slash s);
  let name := trim name in
  err_if (String.eqb name "") EmptyName ≫= λ _,
  version ← ok_or (InvalidVersion version_str) (parse_u32 (trim version_str));
  err_if (version =? 0)%N (InvalidVersion "version must be >= 1") ≫= λ _,
  Ok (mkProfile name version).

(** [Profile::new] *)
Definition Profile_new (name : string) (version : N) : result ParseProfileError Profile :=
  let trimmed := trim name in
  err_if (String.eqb trimmed "") EmptyName ≫= λ _,
  err_if (version =? 0)%N (InvalidVersion "version must be >= 1") ≫= λ _,
  Ok (mkProfile trimmed version).

(** ** Sets *)

(** [pub struct CapabilitySet] *)
Abbreviation CapabilitySet := (gset Profile).

(** The derived order: by name, then by version. *)
Definition profile_le (p q : Profile) : Prop :=
  match String.compare (pf_name p) (pf_name q) with
  | Lt => True
  | Eq => (pf_version p ≤ pf_version q)%N
  | Gt => False
  end.
#[export] Instance profile_le_dec : RelDecision profile_le.
Proof. intros p q. unfold profile_le. case_match; apply _. Defined.

(** [CapabilitySet::iter] and [to_string_vec] *)
Definition profiles (s : CapabilitySet) : list Profile := merge_sort profile_le (elements s).
Definition to_string_vec (s : CapabilitySet) : list string := map profile_display (profiles s).

(** [CapabilitySet::from_str_slice], [insert_str], [contains_str], [contains_name],
    [get_profile] and [get_version] *)
Definition from_str_slice (slice : list string) : result ParseProfileError CapabilitySet :=
  try_fold (λ (set : CapabilitySet) s, p ← profile_parse s; Ok ({[p]} ∪ set)) ∅ slice.
Definition insert_str (set : CapabilitySet) (s : string) : result ParseProfileError (CapabilitySet * bool) :=
  p ← profile_parse s;
  Ok ({[p]} ∪ set, bool_decide (p ∉ set)).
Definition contains_str (set : CapabilitySet) (s : string) : bool :=
  match profile_parse s with Ok p => bool_decide (p ∈ set) | _ => false end.
Definition contains_name (set : CapabilitySet) (name : string) : bool :=
  existsb (λ p, String.eqb (pf_name p) name) (profiles set).
Definition get_profile (set : CapabilitySet) (name : string) : option Profile :=
  find (λ p, String.eqb (pf_name p) name) (profiles set).
Definition get_version (set : CapabilitySet) (name : string) : option N := pf_version <$> get_profile set name.

(** [pub enum NegotiationError] *)
Inductive NegotiationError := UnsatisfiedRequiredProfiles (missing : list Profile).

(** [CapabilitySet::negotiate] *)
Definition negotiate (client_offered server_required server_optional : CapabilitySet)
    : result NegotiationError CapabilitySet :=
  let missing := filter (λ req, req ∉ client_offered) (profiles server_required) in
  err_if (negb (bool_decide (missing = []))) (UnsatisfiedRequiredProfiles missing) ≫= λ _,
  let negotiated := foldl (λ (s : CapabilitySet) req, {[req]} ∪ s) ∅ (profiles server_required) in
  Ok (foldl (λ (s : CapabilitySet) opt, if bool_decide (opt ∈ client_offered) then {[opt]} ∪ s else s) negotiated
        (profiles server_optional)).

(** [pub struct ServerCapabilities] and its [negotiate] *)
Record ServerCapabilities := mkServerCapabilities {
  cap_required : CapabilitySet;
  cap_optional : CapabilitySet;
}.
Definition standard_widgets : ServerCapabilities := mkServerCapabilities {[standard_widgets_v1]} ∅.
Definition server_negotiate (c : ServerCapabilities) (client_offered : CapabilitySet)
    : result NegotiationError CapabilitySet :=
  negotiate client_offered (cap_required c) (cap_optional c).

(** ** Facts *)

Lemma elem_of_profiles s p : p ∈ profiles s ↔ p ∈ s.
Proof. unfold profiles. by rewrite merge_sort_Permutation, elem_of_elements. Qed.

Lemma elem_of_insertions (P : Profile → Prop) `{!∀ p, Decision (P p)} l (s : CapabilitySet) p :
  p ∈ foldl (λ (s : CapabilitySet) q, if bool_decide (P q) then {[q]} ∪ s else s) s l ↔ p ∈ s ∨ p ∈ l ∧ P p.
Proof.
  revert s. induction l as [|q l IH]; intros s; cbn; [rewrite elem_of_nil; naive_solver|].
  rewrite IH, elem_of_cons. case_bool_decide; [rewrite elem_of_union, elem_of_singleton|]; naive_solver.
Qed.

Lemma elem_of_all_insertions l s p :
  p ∈ foldl (λ (s : CapabilitySet) q, {[q]} ∪ s) s l ↔ p ∈ s ∨ p ∈ l.
Proof.
  revert s. induction l as [|q l IH]; intros s; cbn; [rewrite elem_of_nil; naive_solver|].
  rewrite IH, elem_of_cons, elem_of_union, elem_of_singleton. naive_solver.
Qed.

(** Negotiation succeeds exactly when everything required is offered. *)
Lemma negotiate_spec offered required optional :
  match negotiate offered required optional with
  | Ok negotiated => required ⊆ offered ∧ ∀ p, p ∈ negotiated ↔ p ∈ required ∨ p ∈ optional ∧ p ∈ offered
  | Err (UnsatisfiedRequiredProfiles missing) => missing ≠ [] ∧ ∀ p, p ∈ missing ↔ p ∈ required ∧ p ∉ offered
  | _ => False
  end.
Proof.
  unfold negotiate. set (missing := filter _ _).
  assert (∀ p, p ∈ missing ↔ p ∈ required ∧ p ∉ offered) as Hm.
  { intros p. unfold missing. rewrite list_elem_of_filter, elem_of_profiles. naive_solver. }
  case_bool_decide as Hnil; cbn.
  - split.
    + intros p Hp. destruct (decide (p ∈ offered)) as [|Hn]; [done|]. exfalso.
      apply (not_elem_of_nil p). rewrite <- Hnil. by apply Hm.
    + intros p. rewrite elem_of_insertions, elem_of_all_insertions, !elem_of_profiles. set_solver.
  - done.
Qed.

Example parse_terminal : profile_parse " org.srui.terminal/1 " = Ok terminal_v1.
Proof. vm_compute. reflexivity. Qed.
Example parse_versions :
  (profile_parse "a/b/+7", profile_parse "a/4294967296", profile_parse "/1", profile_parse "a") =
  (Ok (mkProfile "a/b" 7), Err (InvalidVersion "4294967296"), Err EmptyName, Err (MissingVersionDelimiter "a")).
Proof. vm_compute. reflexivity. Qed.

(** ** The text of profile identifiers

    What [Capability]'s parser does to the identifiers it prints: trimming is
    idempotent, decimal numbers read back, and so every profile the parser
    returns is printed as a text it parses to the same profile. *)

(** ** Prefixes and reversal *)

Lemma prefix_cons a w b s :
  String.prefix (String a w) (String b s) = if ascii_dec a b then String.prefix w s else false.
Proof. reflexivity. Qed.

Lemma prefix_spec w s : String.prefix w s = true ↔ ∃ t, s = w +:+ t.
Proof.
  revert s. induction w as [|a w IH]; intros s.
  { split; [by exists s|by destruct s]. }
  destruct s as [|b s]; [split; [done|by intros (t & [=])]|]. rewrite prefix_cons.
  destruct (ascii_dec a b) as [->|Hne].
  - rewrite IH. split; [intros (t & ->)|intros (t & [= ->])]; by exists t.
  - split; [done|]. intros (t & [= Hab _]). by destruct Hne.
Qed.

Lemma app_cons a s t : String a s +:+ t = String a (s +:+ t).
Proof. reflexivity. Qed.
Lemma string_app_assoc (a b c : string) : (a +:+ b) +:+ c = a +:+ (b +:+ c).
Proof. induction a as [|x a IH]; [done|]. by rewrite !app_cons, IH. Qed.
Lemma string_app_nil (a : string) : a +:+ "" = a.
Proof. induction a as [|x a IH]; [done|]. by rewrite app_cons, IH. Qed.
Lemma string_length_app (a b : string) : String.length (a +:+ b) = String.length a + String.length b.
Proof. induction a as [|x a IH]; [done|]. rewrite app_cons. cbn. by rewrite IH. Qed.

Lemma reverse_onto_app acc s : reverse_onto acc s = reverse s +:+ acc.
Proof.
  unfold reverse. revert acc. induction s as [|a s IH]; intros acc; [done|]. cbn.
  by rewrite (IH (String a acc)), (IH (String a "")), string_app_assoc.
Qed.
Lemma reverse_cons a s : reverse (String a s) = reverse s +:+ String a "".
Proof. apply (reverse_onto_app (String a "")). Qed.
Lemma reverse_app s t : reverse (s +:+ t) = reverse t +:+ reverse s.
Proof.
  induction s as [|a s IH]; [by rewrite string_app_nil|].
  by rewrite app_cons, !reverse_cons, IH, string_app_assoc.
Qed.
Lemma reverse_involutive s : reverse (reverse s) = s.
Proof. induction s as [|a s IH]; [done|]. by rewrite reverse_cons, reverse_app, IH. Qed.
Lemma length_reverse s : String.length (reverse s) = String.length s.
Proof. induction s as [|a s IH]; [done|]. rewrite reverse_cons, string_length_app, IH. cbn. lia. Qed.

(** ** Trimming *)

(** No member of [spaces] is at the front. *)
Definition clean (spaces : list string) (s : string) : Prop := ∀ w, w ∈ spaces → String.prefix w s = false.

Lemma clean_find spaces s : clean spaces s ↔ find (λ w, String.prefix w s) spaces = None.
Proof.
  split.
  - intros Hc. destruct (find _ _) as [w|] eqn:Hf; [|done]. apply find_some in Hf as [Hw Hp].
    apply list_elem_of_In in Hw. by rewrite (Hc w Hw) in Hp.
  - intros Hf w Hw. apply list_elem_of_In in Hw. by apply (find_none _ _ Hf) in Hw.
Qed.

Lemma drop_bytes_app w s : drop_bytes (String.length w) (w +:+ s) = s.
Proof. induction w as [|a w IH]; [by destruct s|]. rewrite app_cons. exact IH. Qed.

Section strip.
Context (spaces : list string) (Hspaces : Forall (λ w, w ≠ "") spaces).

(** The loop strips a prefix, and what it leaves is clean. *)
Lemma strip_spec fuel s : String.length s ≤ fuel →
  ∃ pre, s = pre +:+ strip fuel spaces s ∧ clean spaces (strip fuel spaces s) ∧ (clean spaces s → pre = "").
Proof using Hspaces.
  revert s. induction fuel as [|fuel IH]; intros s Hle; cbn [strip].
  - exists "". split_and!; [done| |done]. destruct s; [|cbn in Hle; lia].
    intros w Hw. rewrite Forall_forall in Hspaces. specialize (Hspaces w Hw). by destruct w.
  - destruct (find _ _) as [w|] eqn:Hf.
    + apply find_some in Hf as [Hw (t & ->)%prefix_spec]. apply list_elem_of_In in Hw.
      rewrite drop_bytes_app. rewrite string_length_app in Hle.
      assert (w ≠ "") as Hne by by apply (proj1 (Forall_forall _ _) Hspaces).
      destruct (IH t) as (pre & Ht & Hc & _); [destruct w; [done|cbn in *; lia]|].
      exists (w +:+ pre). split_and!; [by rewrite string_app_assoc, <- Ht|done|].
      intros Hcl. specialize (Hcl w Hw). enough (String.prefix w (w +:+ t) = true) by congruence.
      apply prefix_spec. by exists t.
    + exists "". split_and!; [done|by apply clean_find|done].
Qed.

Lemma strip_clean s : clean spaces s → strip (String.length s) spaces s = s.
Proof using Hspaces.
  intros Hc. destruct (strip_spec (String.length s) s) as (pre & Hs & _ & Hpre); [done|].
  rewrite (Hpre Hc) in Hs. by rewrite Hs at 3.
Qed.

Lemma clean_prefix s t : clean spaces (s +:+ t) → clean spaces s.
Proof.
  intros Hc w Hw. specialize (Hc w Hw). destruct (String.prefix w s) eqn:Hp; [|done].
  apply prefix_spec in Hp as (u & ->). rewrite <- Hc. symmetry. apply prefix_spec.
  exists (u +:+ t). by rewrite string_app_assoc.
Qed.
End strip.

Definition trimmed (s : string) : Prop := clean WHITE_SPACE s ∧ clean (map reverse WHITE_SPACE) (reverse s).

Lemma spaces_nonempty : Forall (λ w, w ≠ "") WHITE_SPACE ∧ Forall (λ w, w ≠ "") (map reverse WHITE_SPACE).
Proof. split; apply (bool_decide_unpack _); vm_compute; exact I. Qed.

Lemma trim_trimmed s : trimmed (trim s).
Proof.
  unfold trim. destruct spaces_nonempty as [Hn Hn'].
  destruct (strip_spec WHITE_SPACE Hn (String.length s) s) as (pre & Hs & Hc & _); [done|].
  set (s1 := strip (String.length s) WHITE_SPACE s) in *.
  destruct (strip_spec (map reverse WHITE_SPACE) Hn' (String.length s1) (reverse s1)) as (pre' & Hs' & Hc' & _).
  { by rewrite length_reverse. }
  set (s2 := strip _ _ (reverse s1)) in *. split; [|by rewrite reverse_involutive].
  apply (clean_prefix _ _ (reverse pre')). rewrite <- reverse_app, <- Hs', reverse_involutive. done.
Qed.

Lemma trim_id s : trimmed s → trim s = s.
Proof.
  intros [Hc Hc']. destruct spaces_nonempty as [Hn Hn']. unfold trim. rewrite (strip_clean _ Hn) by done.
  rewrite <- (length_reverse s), (strip_clean _ Hn') by done. apply reverse_involutive.
Qed.

(** ** Decimal numbers *)

Fixpoint digits (s : string) : Prop :=
  match s with
  | EmptyString => True
  | String a s => (48 ≤ N_of_ascii a ≤ 57)%N ∧ digits s
  end.

Lemma digit_char n : (n < 10)%N → N_of_ascii (pretty_N_char n) = (48 + n)%N.
Proof.
  intros Hn. assert (Forall (λ n, N_of_ascii (pretty_N_char n) = 48 + n)%N (seqN 0 10)) as Hf.
  { apply (bool_decide_unpack _); vm_compute; exact I. }
  rewrite Forall_forall in Hf. apply Hf, elem_of_seqN. lia.
Qed.

(** Induction along the digits of a number, the last one first. *)
Lemma pretty_N_go_ind (P : N → string → string → Prop) :
  (∀ s, P 0%N s s) →
  (∀ x s r, (0 < x)%N → P (x / 10)%N (String (pretty_N_char (x mod 10)) s) r → P x s r) →
  ∀ x s, P x s (pretty_N_go x s).
Proof.
  intros H0 Hstep x. induction x as [x IH] using (well_founded_ind N.lt_wf_0). intros s.
  destruct (decide (x = 0)%N) as [->|Hne]; [rewrite pretty_N_go_0; apply H0|].
  rewrite pretty_N_go_step by lia. apply Hstep; [lia|]. apply IH. apply N.div_lt; lia.
Qed.

Lemma pretty_digits (x : N) : digits (pretty x) ∧ pretty x ≠ "".
Proof.
  unfold pretty, pretty_N. case_decide; [by vm_compute|].
  enough (digits (pretty_N_go x "") ∧ ("" ≠ "" ∨ (0 < x)%N → pretty_N_go x "" ≠ "")) as [? Hne].
  { split; [done|]. apply Hne. right. lia. }
  enough (∀ x s, digits s → digits (pretty_N_go x s) ∧ (s ≠ "" ∨ (0 < x)%N → pretty_N_go x s ≠ ""))
    as Hall by by apply Hall.
  clear. apply (pretty_N_go_ind (λ x s r, digits s → digits r ∧ (s ≠ "" ∨ (0 < x)%N → r ≠ ""))).
  - intros s Hs. split; [done|]. intros [?|?]; [done|lia].
  - intros x s r Hx IH Hs. pose proof (N.mod_lt x 10 ltac:(lia)). destruct IH as [Hr Hne].
    { split; [|done]. rewrite digit_char by done. split; [apply N.le_add_r|lia]. }
    split; [done|]. intros _. apply Hne. by left.
Qed.

Lemma parse_digits_pretty (x : N) : (x ≤ u32_max)%N → parse_digits 0 (pretty x) = Some x.
Proof.
  intros Hx. unfold pretty, pretty_N. case_decide as H0; [by subst|].
  enough (∀ x s, (x ≤ u32_max)%N → parse_digits 0 (pretty_N_go x s) = parse_digits x s) as Hall
    by by apply Hall.
  clear. apply (pretty_N_go_ind (λ x s r, (x ≤ u32_max)%N → parse_digits 0 r = parse_digits x s)); [done|].
  intros x s r Hx IH Hle. pose proof (N.mod_lt x 10 ltac:(lia)). pose proof (N.div_mod x 10 ltac:(lia)).
  rewrite IH by (pose proof (N.Div0.div_le_upper_bound x 10 x); lia). cbn [parse_digits].
  rewrite digit_char by done. set (d := (x mod 10)%N) in *. set (q := (x / 10)%N) in *. clearbody d q.
  rewrite (proj2 (N.leb_le 48 _)), (proj2 (N.leb_le _ 57)) by lia. cbn [andb].
  replace (10 * q + (48 + d - 48))%N with x by lia.
  by rewrite (proj2 (N.ltb_ge _ _)).
Qed.

Lemma digits_head a s : digits (String a s) → (48 ≤ N_of_ascii a ≤ 57)%N.
Proof. by intros [? _]. Qed.

Lemma parse_u32_pretty (x : N) : (x ≤ u32_max)%N → parse_u32 (pretty x) = Some x.
Proof.
  intros Hx. destruct (pretty_digits x) as [Hd Hne]. pose proof (parse_digits_pretty x Hx) as Hp.
  unfold parse_u32. destruct (pretty x) as [|a s]; [done|].
  rewrite (proj2 (N.eqb_neq _ _)); [done|]. apply digits_head in Hd. lia.
Qed.

(** ** Printing and reading back *)

Lemma rsplit_no_slash s : digits s → rsplit_slash s = None.
Proof.
  induction s as [|a s IH]; [done|]. intros [Ha Hs]. cbn. rewrite (IH Hs), (proj2 (N.eqb_neq _ _)); [done|lia].
Qed.
Lemma rsplit_display n v : digits v → rsplit_slash (n +:+ "/" +:+ v) = Some (n, v).
Proof.
  intros Hv. induction n as [|a n IH].
  { change (rsplit_slash (String "/" v) = Some ("", v)). cbn [rsplit_slash]. by rewrite (rsplit_no_slash v). }
  rewrite app_cons. cbn [rsplit_slash]. by rewrite IH.
Qed.

(** Different profiles have different texts. *)
#[export] Instance profile_display_inj : Inj (=) (=) profile_display.
Proof.
  intros [n v] [n' v'] Heq. apply (f_equal rsplit_slash) in Heq. unfold profile_display in Heq. cbn [pf_name pf_version] in Heq.
  rewrite !rsplit_display in Heq by apply pretty_digits. injection Heq as -> Hv.
  f_equal. by apply (inj pretty).
Qed.

(** Whether the first byte of a text is that of a digit or a slash; no
    whitespace character starts or ends with one. *)
Definition plain_byte (a : ascii) : bool := let n := N_of_ascii a in (47 <=? n)%N && (n <=? 57)%N.
Fixpoint has_plain (s : string) : bool :=
  match s with EmptyString => false | String a s => plain_byte a || has_plain s end.

Lemma space_not_plain w : w ∈ WHITE_SPACE ∨ w ∈ map reverse WHITE_SPACE → has_plain w = false.
Proof.
  assert (Forall (λ w, has_plain w = false) (WHITE_SPACE ++ map reverse WHITE_SPACE)) as Hf.
  { apply (bool_decide_unpack _); vm_compute; exact I. }
  rewrite Forall_forall in Hf. intros Hw. apply Hf, elem_of_app. done.
Qed.

Lemma has_plain_app s t : has_plain (s +:+ t) = has_plain s || has_plain t.
Proof. induction s as [|a s IH]; [done|]. rewrite app_cons. cbn. by rewrite IH, orb_assoc. Qed.

(** A clean text stays clean when a plain byte follows it. *)
Lemma clean_plain spaces s a t : (∀ w, w ∈ spaces → has_plain w = false) → clean spaces s →
  plain_byte a = true → (s = "" → clean spaces (String a t)) → clean spaces (s +:+ String a t).
Proof.
  intros Hsp Hc Ha Hnil w Hw. destruct (String.prefix w (s +:+ String a t)) eqn:Hp; [|done].
  apply prefix_spec in Hp as (u & Hu). specialize (Hc w Hw). specialize (Hsp w Hw).
  clear Hw Hnil. revert w Hu Hc Hsp. induction s as [|b s IH]; intros w Hu Hc Hsp.
  - destruct w as [|c w]; [by cbn in Hc|]. injection Hu as <- _. cbn in Hsp. by rewrite Ha in Hsp.
  - destruct w as [|c w]; [done|]. injection Hu as <- Hu. rewrite prefix_cons in Hc. cbn in Hsp.
    destruct (ascii_dec b b); [|done]. apply orb_false_iff in Hsp as [_ Hsp]. by apply (IH w).
Qed.

Lemma clean_plain_head spaces a t : (∀ w, w ∈ spaces → has_plain w = false ∧ w ≠ "") →
  plain_byte a = true → clean spaces (String a t).
Proof.
  intros Hsp Ha w Hw. destruct (Hsp w Hw) as [Hpl Hne]. destruct w as [|c w]; [done|]. rewrite prefix_cons.
  cbn in Hpl. destruct (ascii_dec c a) as [->|]; [|done]. by rewrite Ha in Hpl.
Qed.

Lemma has_plain_digits s : digits s → s ≠ "" → ∃ a t, s = String a t ∧ plain_byte a = true.
Proof.
  destruct s as [|a t]; [done|]. intros [Ha _] _. exists a, t. split; [done|].
  unfold plain_byte. rewrite (proj2 (N.leb_le 47 _)), (proj2 (N.leb_le _ 57)) by lia. done.
Qed.

Lemma digits_app s t : digits (s +:+ t) ↔ digits s ∧ digits t.
Proof. induction s as [|a s IH]; [cbn; naive_solver|]. rewrite app_cons. cbn. rewrite IH. tauto. Qed.
Lemma digits_reverse s : digits s → digits (reverse s).
Proof.
  induction s as [|a s IH]; [done|]. intros [Ha Hs]. rewrite reverse_cons, digits_app. split; [auto|done].
Qed.
Lemma reverse_nil s : reverse s = "" → s = "".
Proof. intros Heq. by rewrite <- (reverse_involutive s), Heq. Qed.

Lemma spaces_plain : (∀ w, w ∈ WHITE_SPACE → has_plain w = false ∧ w ≠ "") ∧
  (∀ w, w ∈ map reverse WHITE_SPACE → has_plain w = false ∧ w ≠ "").
Proof.
  destruct spaces_nonempty as [Hn Hn']. rewrite Forall_forall in Hn, Hn'.
  split; intros w Hw; (split; [apply space_not_plain; auto|auto]).
Qed.

Lemma trimmed_digits s : digits s → s ≠ "" → trimmed s.
Proof.
  intros Hd Hne. destruct spaces_plain as [Hp Hp']. split.
  - destruct (has_plain_digits s Hd Hne) as (a & t & -> & Ha). by apply clean_plain_head.
  - assert (reverse s ≠ "") as Hne' by (intros ?%reverse_nil; done).
    destruct (has_plain_digits _ (digits_reverse s Hd) Hne') as (a & t & -> & Ha). by apply clean_plain_head.
Qed.

(** A trimmed name, a slash and a number are a trimmed text. *)
Lemma trimmed_display n v : trimmed n → digits v → v ≠ "" → trimmed (n +:+ "/" +:+ v).
Proof.
  intros [Hn _] Hd Hne. destruct spaces_plain as [Hp Hp'].
  assert (plain_byte "/" = true) as Hs by reflexivity. split.
  - change (n +:+ "/" +:+ v) with (n +:+ String "/" v). apply clean_plain; [by intros w [? _]%Hp|done|done|].
    intros _. by apply clean_plain_head.
  - rewrite reverse_app, reverse_app.
    assert (reverse v ≠ "") as Hne' by (intros ?%reverse_nil; done).
    destruct (has_plain_digits _ (digits_reverse v Hd) Hne') as (a & t & -> & Ha).
    rewrite !app_cons. by apply clean_plain_head.
Qed.

(** The identifiers that [Profile::new] and the parser produce. *)
Record well_named (p : Profile) : Prop := {
  wn_name : trimmed (pf_name p);
  wn_nonempty : pf_name p ≠ "";
  wn_version : (1 ≤ pf_version p ≤ u32_max)%N;
}.

Lemma parse_digits_bound s : ∀ acc v, (acc ≤ u32_max)%N → parse_digits acc s = Some v → (v ≤ u32_max)%N.
Proof.
  induction s as [|a s IH]; intros acc v Hacc; cbn; [by intros [= <-]|].
  destruct (_ && _); [|done]. destruct (N.ltb_spec u32_max (10 * acc + (N_of_ascii a - 48))); [done|]. by apply IH.
Qed.
Lemma parse_u32_bound s v : parse_u32 s = Some v → (v ≤ u32_max)%N.
Proof.
  unfold parse_u32. set (s' := match s with EmptyString => s | _ => _ end). case_match; [done|].
  apply parse_digits_bound. unfold u32_max. lia.
Qed.

Lemma profile_parse_well_named s p : profile_parse s = Ok p → well_named p.
Proof.
  unfold profile_parse. intros Heq. apply bind_Ok in Heq as (? & _ & Heq).
  apply bind_Ok in Heq as ([n v] & _ & Heq). apply bind_Ok in Heq as (? & Hn%err_if_Ok & Heq).
  apply bind_Ok in Heq as (version & Hv%ok_or_Ok & Heq). apply bind_Ok in Heq as (? & H0%err_if_Ok & [= <-]).
  apply parse_u32_bound in Hv. apply N.eqb_neq in H0. split; cbn; [apply trim_trimmed| |lia].
  intros Hnil. by rewrite Hnil in Hn.
Qed.

Lemma profile_parse_returns s : returns (profile_parse s).
Proof.
  unfold profile_parse. apply returns_bind; [apply returns_err_if|intros _ _].
  apply returns_bind; [apply returns_ok_or|intros [n v] _].
  apply returns_bind; [apply returns_err_if|intros _ _].
  apply returns_bind; [apply returns_ok_or|intros x _].
  by apply returns_bind; [apply returns_err_if|].
Qed.

(** Printing and parsing back. *)
Lemma profile_parse_display p : well_named p → profile_parse (profile_display p) = Ok p.
Proof.
  intros [Ht Hne Hv]. destruct p as [n v]. unfold profile_display. cbn in *.
  destruct (pretty_digits v) as [Hd Hvne]. unfold profile_parse.
  rewrite (trim_id (n +:+ "/" +:+ pretty v)) by by apply trimmed_display.
  assert (n +:+ "/" +:+ pretty v ≠ "") as Hs by by destruct n.
  rewrite (proj2 (String.eqb_neq _ _) Hs). cbn [err_if mbind result_bind].
  rewrite rsplit_display by done. cbn [ok_or mbind result_bind]. rewrite (trim_id n) by done.
  rewrite (proj2 (String.eqb_neq _ _) Hne). cbn [err_if mbind result_bind].
  rewrite (trim_id (pretty v)) by by apply trimmed_digits. rewrite parse_u32_pretty by lia.
  cbn [ok_or mbind result_bind]. by rewrite (proj2 (N.eqb_neq _ _)) by lia.
Qed.

Lemma Profile_new_well_named name version p : (version ≤ u32_max)%N → Profile_new name version = Ok p →
  well_named p ∧ pf_name p = trim name ∧ pf_version p = version.
Proof.
  unfold Profile_new. intros Hmax Heq. apply bind_Ok in Heq as (? & Hn%err_if_Ok & Heq).
  apply bind_Ok in Heq as (? & Hv%err_if_Ok & [= <-]). apply N.eqb_neq in Hv. cbn.
  split; [|done]. split; cbn; [apply trim_trimmed| |lia]. intros Hnil. by rewrite Hnil in Hn.
Qed.

(** Looking a profile up by its text. *)
Lemma contains_str_display set p : well_named p → contains_str set (profile_display p) = bool_decide (p ∈ set).
Proof. intros Hp. unfold contains_str. by rewrite profile_parse_display. Qed.
