(* ===== verification/Extensions.v ===== *)
(** * The locked server state and its extension namespaces

    Models the rest of [SessionInner] ([sessiond/src/session.rs]) around the
    fields of [Session], with the configuration and the outbound hub of
    [Session]; the namespace table of [session/extensions.rs] and
    [session/terminal.rs]; and the contract every handshake checks of it
    ([validate_extension_namespace_contract] of [session/handshake.rs]). *)

From S2P Require Import Prelude.
From S2P Require Import Values.
From S2P Require Import Limits.
From S2P Require Import Wire.
From S2P Require Import SnapshotFraming.
From S2P Require Import Snapshot.
From S2P Require Import Dedupe.
From S2P Require Import Resources.
From S2P Require Import Outbound.
From S2P Require Import Session.
From S2P Require Import Capability.

(** [message ServerLimits] and [message ExtensionNamespaceMapping] *)
Record ServerLimits := mkServerLimits {
  sl_max_frame_size : N;
  sl_max_transaction_operations : N;
  sl_max_tree_depth : N;
  sl_max_node_count : N;
  sl_max_string_length : N;
  sl_max_resource_size : N;
}.
Record ExtensionNamespaceMapping := mkMapping { extension_uri : string; namespace_id : N }.
#[export] Instance ExtensionNamespaceMapping_eq_dec : EqDecision ExtensionNamespaceMapping.
Proof. solve_decision. Defined.

(** [pub struct Session] with its [SessionInner] locked: [inner] holds the fields
    modelled in [Session]. *)
Record Server := mkServer {
  inner : SessionInner;
  session_id : string;
  capabilities : ServerCapabilities;
  server_limits : ServerLimits;
  server_resources : ResourceStore;
  client_resource_ceilings : gmap Bytes N;
  extension_namespaces : list ExtensionNamespaceMapping;
  has_negotiated : bool;
  outbound_hub : OutboundHub;
  outbound_queue_capacity : N;
}.

Definition with_inner (s : Server) (i : SessionInner) : Server :=
  mkServer i (session_id s) (capabilities s) (server_limits s) (server_resources s)
    (client_resource_ceilings s) (extension_namespaces s) (has_negotiated s) (outbound_hub s)
    (outbound_queue_capacity s).
Definition with_contract (s : Server) (c : ServerCapabilities) (t : list ExtensionNamespaceMapping) : Server :=
  mkServer (inner s) (session_id s) c (server_limits s) (server_resources s)
    (client_resource_ceilings s) t (has_negotiated s) (outbound_hub s) (outbound_queue_capacity s).
Definition with_ceilings (s : Server) (cs : gmap Bytes N) : Server :=
  mkServer (inner s) (session_id s) (capabilities s) (server_limits s) (server_resources s) cs
    (extension_namespaces s) (has_negotiated s) (outbound_hub s) (outbound_queue_capacity s).
Definition with_hub (s : Server) (h : OutboundHub) : Server :=
  mkServer (inner s) (session_id s) (capabilities s) (server_limits s) (server_resources s)
    (client_resource_ceilings s) (extension_namespaces s) (has_negotiated s) h (outbound_queue_capacity s).
Definition negotiated (s : Server) : Server :=
  mkServer (inner s) (session_id s) (capabilities s) (server_limits s) (server_resources s)
    (client_resource_ceilings s) (extension_namespaces s) true (outbound_hub s) (outbound_queue_capacity s).

(** [terminal::standard_namespace_mapping] *)
Definition standard_namespace_mapping : ExtensionNamespaceMapping := mkMapping "org.srui.standard-widgets" 0.

(** The [limits] of [Session::with_config]. *)
Definition ServerLimits_default : ServerLimits :=
  mkServerLimits (16 * 1024 * 1024) (max_transaction_operations StoreLimits_default)
    (max_tree_depth StoreLimits_default) (max_node_count StoreLimits_default)
    (max_string_length StoreLimits_default) (50 * 1024 * 1024).

(** [Session::with_config] *)
Definition Server_with_config (id : string) (caps : ServerCapabilities)
    (journal_capacity queue_capacity : N) : result SessionError Server :=
  i ← Session_with_config journal_capacity queue_capacity;
  Ok (mkServer i id caps ServerLimits_default (ResourceStore_with_limits ResourceLimits_default) ∅
        [standard_namespace_mapping] false Hub_new queue_capacity).

(** [SessionError]: the failures of handshakes and of registration.
    [InvalidConfiguration] and [InvalidInput] carry what their message says. *)
Inductive Misconfiguration :=
| MissingStandardMapping
| StandardNamespaceNotZero
| RepeatedStandardMapping
| UnsupportedStandardProfile (p : Profile)
| UnmappedProfile (p : Profile)
| ZeroProfileNamespace (p : Profile)
| RepeatedProfileMapping (p : Profile)
| ZeroNamespace (uri : string)
| UnversionedUri (uri : string) (e : ParseProfileError)
| NonCanonicalUri (uri expected : string)
| StandardAlias
| UnadvertisedUri (uri : string)
| DuplicateNamespaceId (id : N)
| DuplicateUri (uri : string)
| ZeroQueueCapacity.
Inductive InvalidInput :=
| StandardProfileRegistered
| TerminalProfileRegistered
| RegisteredTooLate
| AlreadyRequired (p : Profile)
| NamespacesExhausted
| ClientIdTooLong (length : N)
| TooManyTerminalOffsets (n : N)
| PendingEdits (message : string).
Inductive HandshakeError :=
| HsUnsupportedCoreVersion (requested supported : string)
| HsNegotiation (e : NegotiationError)
| HsInvalidConfiguration (why : Misconfiguration)
| HsInvalidInput (why : InvalidInput)
| HsOutboundClosed
| HsSnapshot (e : Snapshot.SnapshotError).

(** ** The contract *)

Definition STANDARD_URI : string := pf_name standard_widgets_v1.
Definition mappings_of (t : list ExtensionNamespaceMapping) (uri : string) : list ExtensionNamespaceMapping :=
  filter (λ m, extension_uri m = uri) t.

(** The checks before the first loop. *)
Definition check_standard_mapping (t : list ExtensionNamespaceMapping) : result Misconfiguration unit :=
  match mappings_of t STANDARD_URI with
  | [] => Err MissingStandardMapping
  | m :: rest =>
      err_if (negb (namespace_id m =? 0)%N) StandardNamespaceNotZero ≫= λ _,
      err_if (bool_decide (rest ≠ [])) RepeatedStandardMapping
  end.

(** The body of the loop over the advertised profiles. *)
Definition check_profile (t : list ExtensionNamespaceMapping) (p : Profile) : result Misconfiguration unit :=
  if decide (pf_name p = STANDARD_URI) then
    err_if (bool_decide (p ≠ standard_widgets_v1)) (UnsupportedStandardProfile p)
  else
    match mappings_of t (profile_display p) with
    | [] => Err (UnmappedProfile p)
    | m :: rest =>
        err_if (namespace_id m =? 0)%N (ZeroProfileNamespace p) ≫= λ _,
        err_if (bool_decide (rest ≠ [])) (RepeatedProfileMapping p)
    end.

(** The body of the loop over the mappings, up to the two sets. *)
Definition check_mapping (c : ServerCapabilities) (m : ExtensionNamespaceMapping)
    : result Misconfiguration unit :=
  if decide (extension_uri m = STANDARD_URI) then
    err_if (negb (namespace_id m =? 0)%N) StandardNamespaceNotZero
  else
    err_if (namespace_id m =? 0)%N (ZeroNamespace (extension_uri m)) ≫= λ _,
    p ← map_err (UnversionedUri (extension_uri m)) (profile_parse (extension_uri m));
    err_if (bool_decide (profile_display p ≠ extension_uri m))
      (NonCanonicalUri (extension_uri m) (profile_display p)) ≫= λ _,
    err_if (bool_decide (pf_name p = STANDARD_URI)) StandardAlias ≫= λ _,
    err_if (bool_decide (p ∉ cap_required c) && bool_decide (p ∉ cap_optional c))
      (UnadvertisedUri (extension_uri m)).
Definition check_unseen (seen : gset N * gset string) (m : ExtensionNamespaceMapping)
    : result Misconfiguration (gset N * gset string) :=
  err_if (bool_decide (namespace_id m ∈ seen.1)) (DuplicateNamespaceId (namespace_id m)) ≫= λ _,
  err_if (bool_decide (extension_uri m ∈ seen.2)) (DuplicateUri (extension_uri m)) ≫= λ _,
  Ok ({[namespace_id m]} ∪ seen.1, {[extension_uri m]} ∪ seen.2).

(** [validate_extension_namespace_contract] *)
Definition validate_extension_namespace_contract (s : Server) : result Misconfiguration unit :=
  let t := extension_namespaces s in
  let c := capabilities s in
  check_standard_mapping t ≫= λ _,
  for_each (check_profile t) (profiles (cap_required c) ++ profiles (cap_optional c)) ≫= λ _,
  (λ _, tt) <$> try_fold (λ seen m, check_mapping c m ≫= λ _, check_unseen seen m) (∅, ∅) t.

(** ** Allocation and registration *)

(** [candidate.checked_add(1)] *)
Definition checked_add32 (a b : N) : option N := if decide (a + b ≤ u32_max)%N then Some (a + b)%N else None.

(** [next_extension_namespace]; every iteration rules out one used namespace. *)
Fixpoint next_namespace_from (fuel : nat) (used : gset N) (candidate : N) : result InvalidInput N :=
  match fuel with
  | O => Diverge
  | S fuel =>
      if decide (candidate ∈ used) then
        candidate ← ok_or NamespacesExhausted (checked_add32 candidate 1);
        next_namespace_from fuel used candidate
      else Ok candidate
  end.
Definition next_extension_namespace (t : list ExtensionNamespaceMapping) : result InvalidInput N :=
  let used : gset N := list_to_set (namespace_id <$> t) in
  next_namespace_from (S (size used)) used 1.

Definition insert_optional (c : ServerCapabilities) (p : Profile) : ServerCapabilities :=
  mkServerCapabilities (cap_required c) ({[p]} ∪ cap_optional c).
Definition find_namespace (t : list ExtensionNamespaceMapping) (uri : string) : option N :=
  namespace_id <$> head (mappings_of t uri).

(** [guard.attached_connections > 0 || guard.has_negotiated] *)
Definition clients_seen (s : Server) : bool := (0 <? attached_connections (inner s))%N || has_negotiated s.

(** [Session::register_optional_extension_profile] *)
Definition register_optional_extension_profile (s : Server) (p : Profile)
    : result InvalidInput (Server * N) :=
  err_if (bool_decide (p = standard_widgets_v1)) StandardProfileRegistered ≫= λ _,
  err_if (bool_decide (p = terminal_v1)) TerminalProfileRegistered ≫= λ _,
  err_if (clients_seen s) RegisteredTooLate ≫= λ _,
  err_if (bool_decide (p ∈ cap_required (capabilities s))) (AlreadyRequired p) ≫= λ _,
  let uri := profile_display p in
  let t := extension_namespaces s in
  match find_namespace t uri with
  | Some id => Ok (with_contract s (insert_optional (capabilities s) p) t, id)
  | None =>
      id ← next_extension_namespace t;
      Ok (with_contract s (insert_optional (capabilities s) p) (t ++ [mkMapping uri id]), id)
  end.

(** ** Terminals ([terminal.rs]) *)

Definition TERMINAL_PROFILE_URI : string := "org.srui.terminal/1".
Definition TERMINAL_LOCAL_TYPE_ID : N := 1.

(** [struct TerminalTypeRollback] *)
Record TerminalTypeRollback := mkRollback {
  was_required : bool;
  was_optional : bool;
  created_namespace : option N;
}.

(** [Session::prepare_terminal_type] *)
Definition prepare_terminal_type (s : Server) : result InvalidInput (Server * (TypeRef * TerminalTypeRollback)) :=
  err_if (clients_seen s) RegisteredTooLate ≫= λ _,
  let t := extension_namespaces s in
  let c := capabilities s in
  '(id, created) ←
    match find_namespace t TERMINAL_PROFILE_URI with
    | Some id => Ok (id, None)
    | None => id ← next_extension_namespace t; Ok (id, Some id)
    end;
  let rollback := mkRollback (bool_decide (terminal_v1 ∈ cap_required c))
                    (bool_decide (terminal_v1 ∈ cap_optional c)) created in
  let c' := mkServerCapabilities ({[terminal_v1]} ∪ cap_required c) (cap_optional c ∖ {[terminal_v1]}) in
  let t' := match created with Some id => t ++ [mkMapping TERMINAL_PROFILE_URI id] | None => t end in
  Ok (with_contract s c' t', (mkTypeRef id TERMINAL_LOCAL_TYPE_ID, rollback)).

(** [Session::rollback_terminal_type]; [live_streams] says whether the PTY
    manager has any. *)
Definition rollback_terminal_type (s : Server) (live_streams : bool) (r : TerminalTypeRollback) : Server :=
  if clients_seen s || live_streams then s
  else
    let c := capabilities s in
    let required := if was_required r then cap_required c else cap_required c ∖ {[terminal_v1]} in
    let optional := if was_optional r then {[terminal_v1]} ∪ cap_optional c else cap_optional c in
    with_contract s (mkServerCapabilities required optional)
      (match created_namespace r with
       | Some id => filter (λ m, namespace_id m ≠ id) (extension_namespaces s)
       | None => extension_namespaces s
       end).
