(* ===== verification/ExtensionsFacts.v ===== *)
(** * The namespace contract

    What a table of extension namespaces that passes the handshake's check
    means, that the check accepts exactly those tables, and that registration
    keeps them and hands out the lowest free namespace. *)

From S2P Require Import Prelude.
From S2P Require Import Values.
From S2P Require Import Wire.
From S2P Require Import Dedupe.
From S2P Require Import Session.
From S2P Require Import Capability.
From S2P Require Import Extensions.

Definition advertised (c : ServerCapabilities) (p : Profile) : Prop := p ∈ cap_required c ∨ p ∈ cap_optional c.

(** Every advertised profile has one numeric namespace that nothing else has,
    and the standard widgets have namespace 0. *)
Record contract (c : ServerCapabilities) (t : list ExtensionNamespaceMapping) : Prop := {
  ct_standard : mkMapping STANDARD_URI 0 ∈ t;
  ct_ids : NoDup (namespace_id <$> t);
  ct_uris : NoDup (extension_uri <$> t);
  ct_mapped : ∀ m, m ∈ t → extension_uri m = STANDARD_URI ∨
    ∃ p, advertised c p ∧ well_named p ∧ pf_name p ≠ STANDARD_URI ∧ extension_uri m = profile_display p;
  ct_advertised : ∀ p, advertised c p → p = standard_widgets_v1 ∨
    pf_name p ≠ STANDARD_URI ∧ ∃ id, mkMapping (profile_display p) id ∈ t;
}.

Lemma display_not_standard p : profile_display p ≠ STANDARD_URI.
Proof.
  intros Heq. apply (f_equal rsplit_slash) in Heq. unfold profile_display in Heq.
  rewrite rsplit_display in Heq by apply pretty_digits. vm_compute in Heq. discriminate.
Qed.

Lemma elem_of_mappings t uri m : m ∈ mappings_of t uri ↔ m ∈ t ∧ extension_uri m = uri.
Proof. unfold mappings_of. rewrite list_elem_of_filter. tauto. Qed.

(** With distinct texts, a text has at most one mapping. *)
Lemma mappings_of_unique t uri id : NoDup (extension_uri <$> t) → mkMapping uri id ∈ t →
  mappings_of t uri = [mkMapping uri id].
Proof.
  intros Hnd. unfold mappings_of. induction t as [|m t IH]; intros Hin; [by apply elem_of_nil in Hin|].
  cbn in Hnd. apply NoDup_cons in Hnd as [Hm Hnd]. apply elem_of_cons in Hin as [<-|Hin].
  - rewrite filter_cons_True by done. f_equal. apply elem_of_nil_inv.
    intros m' [Heq Hm']%list_elem_of_filter. apply Hm. cbn. rewrite <- Heq. by apply list_elem_of_fmap_2.
  - rewrite filter_cons_False; [by apply IH|]. intros Heq. apply Hm. rewrite Heq.
    by apply (list_elem_of_fmap_2 extension_uri) in Hin.
Qed.

Lemma mappings_of_cons t uri : mappings_of t uri ≠ [] → ∃ id, mkMapping uri id ∈ t.
Proof.
  destruct (mappings_of t uri) as [|[u id] l] eqn:Hm; [done|]. intros _. exists id.
  assert (mkMapping u id ∈ mappings_of t uri) as [? <-]%elem_of_mappings by (rewrite Hm; left). done.
Qed.

(** ** The three checks *)

Section checks.
Context (c : ServerCapabilities) (t : list ExtensionNamespaceMapping).

Lemma check_standard_mapping_spec : NoDup (extension_uri <$> t) →
  check_standard_mapping t = Ok tt ↔ mkMapping STANDARD_URI 0 ∈ t.
Proof.
  intros Hnd. unfold check_standard_mapping. split.
  - destruct (mappings_of t STANDARD_URI) as [|m rest] eqn:Hm; [done|].
    intros Heq. apply bind_Ok in Heq as (? & H0%err_if_Ok%negb_false_iff%N.eqb_eq & _).
    assert (m ∈ mappings_of t STANDARD_URI) as [Hin Hu]%elem_of_mappings by (rewrite Hm; left).
    destruct m as [u id]. cbn in *. by subst.
  - intros Hin. by rewrite (mappings_of_unique _ _ _ Hnd Hin).
Qed.

Lemma check_profile_spec p : NoDup (extension_uri <$> t) →
  check_profile t p = Ok tt ↔ p = standard_widgets_v1 ∨
    pf_name p ≠ STANDARD_URI ∧ ∃ id, mkMapping (profile_display p) id ∈ t ∧ id ≠ 0%N.
Proof.
  intros Hnd. unfold check_profile. case_decide as Hn.
  { rewrite err_if_Ok, bool_decide_eq_false. split.
    - intros Hp. left. by apply dec_stable.
    - intros [->|[? _]]; [|done]. by intros []. }
  split.
  - intros Heq. right. split; [done|].
    destruct (mappings_of t (profile_display p)) as [|m rest] eqn:Hm; [done|].
    apply bind_Ok in Heq as (? & H0%err_if_Ok%N.eqb_neq & _).
    assert (m ∈ mappings_of t (profile_display p)) as [Hin Hu]%elem_of_mappings by (rewrite Hm; left).
    exists (namespace_id m). destruct m as [u id]. cbn in *. by subst.
  - intros [->|[_ (id & Hin & Hid)]]; [by destruct Hn|]. rewrite (mappings_of_unique _ _ _ Hnd Hin).
    cbn. by rewrite (proj2 (N.eqb_neq _ _) Hid).
Qed.

Lemma check_mapping_spec m :
  check_mapping c m = Ok tt ↔ (extension_uri m = STANDARD_URI ∧ namespace_id m = 0%N) ∨
    (namespace_id m ≠ 0%N ∧ ∃ p, advertised c p ∧ well_named p ∧ pf_name p ≠ STANDARD_URI ∧
       extension_uri m = profile_display p).
Proof.
  unfold check_mapping. case_decide as Hu.
  { rewrite err_if_Ok, negb_false_iff, N.eqb_eq. split; [by left|]. intros [[_ ?]|(_ & p & _ & _ & _ & Hd)]; [done|].
    rewrite Hu in Hd. by destruct (display_not_standard p). }
  split.
  - intros Heq. right. apply bind_Ok in Heq as (? & H0%err_if_Ok%N.eqb_neq & Heq).
    apply bind_Ok in Heq as (p & Hp & Heq). destruct (profile_parse (extension_uri m)) as [p'|e| |] eqn:Hparse; [|done..].
    injection Hp as <-. apply bind_Ok in Heq as (? & Hd%err_if_Ok & Heq).
    apply bool_decide_eq_false, dec_stable in Hd. apply bind_Ok in Heq as (? & Hs%err_if_Ok & Hadv%err_if_Ok).
    apply bool_decide_eq_false in Hs. split; [done|]. exists p'. apply profile_parse_well_named in Hparse.
    split_and!; try done. unfold advertised. apply andb_false_iff in Hadv.
    rewrite !bool_decide_eq_false in Hadv. destruct Hadv as [?%dec_stable|?%dec_stable]; auto.
  - intros [[? _]|(H0 & p & Hadv & Hw & Hs & Hd)]; [done|].
    rewrite (proj2 (N.eqb_neq _ _) H0), Hd, profile_parse_display by done. cbn.
    rewrite (bool_decide_eq_false_2 (_ ≠ _)) by (by intros []). cbn.
    rewrite (bool_decide_eq_false_2 (_ = _)) by done. cbn.
    destruct Hadv; [rewrite (bool_decide_eq_false_2 (p ∉ cap_required c)) by set_solver
                   |rewrite (bool_decide_eq_false_2 (p ∉ cap_optional c)) by set_solver];
      [done|by rewrite andb_false_r].
Qed.

(** The last loop: every mapping passes, none repeats. *)
Lemma check_mappings_spec l : ∀ seen,
  (∃ seen', try_fold (λ seen m, (check_mapping c m ≫= λ _, check_unseen seen m)) seen l = Ok seen') ↔
  Forall (λ m, check_mapping c m = Ok tt) l ∧
  NoDup (namespace_id <$> l) ∧ NoDup (extension_uri <$> l) ∧
  (∀ m, m ∈ l → namespace_id m ∉ seen.1 ∧ extension_uri m ∉ seen.2).
Proof.
  induction l as [|m l IH]; intros seen; cbn.
  { split; [|by eauto]. intros _. split_and!; [constructor..|]. by intros m ?%elem_of_nil. }
  rewrite Forall_cons, !NoDup_cons. split.
  - intros (seen' & Heq). apply bind_Ok in Heq as (seen1 & Hm & Heq). apply bind_Ok in Hm as ([] & Hm & Hun).
    apply bind_Ok in Hun as (? & Hid%err_if_Ok & Hun). apply bind_Ok in Hun as (? & Huri%err_if_Ok & [= <-]).
    apply bool_decide_eq_false in Hid, Huri.
    destruct (proj1 (IH _) (ex_intro _ _ Heq)) as (Hall & Hids & Huris & Hsep). cbn in Hsep.
    split_and!; try done.
    + intros (m' & Heq' & Hm')%list_elem_of_fmap. destruct (Hsep _ Hm') as [Hs _]. set_solver.
    + intros (m' & Heq' & Hm')%list_elem_of_fmap. destruct (Hsep _ Hm') as [_ Hs]. set_solver.
    + intros m' [->|Hm']%elem_of_cons; [done|]. destruct (Hsep _ Hm'). set_solver.
  - intros ([Hm Hall] & [Hid Hids] & [Huri Huris] & Hsep).
    destruct (Hsep m ltac:(left)) as [Hid' Huri'].
    rewrite Hm. cbn [mbind result_bind]. unfold check_unseen.
    rewrite (bool_decide_eq_false_2 (namespace_id m ∈ _)), (bool_decide_eq_false_2 (extension_uri m ∈ _)) by done.
    cbn [err_if mbind result_bind]. apply IH. split_and!; try done.
    intros m' Hm'. cbn. destruct (Hsep m') as [? ?]; [by right|].
    apply (list_elem_of_fmap_2 namespace_id) in Hm' as Hm1. apply (list_elem_of_fmap_2 extension_uri) in Hm' as Hm2.
    set_solver.
Qed.
End checks.

(** The handshake's check accepts exactly the tables that keep the contract. *)
Lemma validate_contract_spec s :
  validate_extension_namespace_contract s = Ok tt ↔ contract (capabilities s) (extension_namespaces s).
Proof.
  unfold validate_extension_namespace_contract. set (c := capabilities s). set (t := extension_namespaces s).
  pose proof (check_mappings_spec c t (∅, ∅)) as Hloop. split.
  - intros Heq. apply bind_Ok in Heq as ([] & Hst & Heq). apply bind_Ok in Heq as ([] & Hadv & Heq).
    destruct (try_fold _ _ t) as [seen|e| |] eqn:Hf; [|done..].
    destruct (proj1 Hloop (ex_intro _ _ eq_refl)) as (Hall & Hids & Huris & _).
    apply for_each_Ok in Hadv. rewrite Forall_forall in Hadv.
    split; [by apply check_standard_mapping_spec|done|done| |].
    + intros m Hm. rewrite Forall_forall in Hall. specialize (Hall m Hm).
      apply check_mapping_spec in Hall as [[? _]|(_ & ?)]; auto.
    + intros p Hp. assert (check_profile t p = Ok tt) as Hc.
      { apply Hadv. rewrite elem_of_app, !elem_of_profiles. exact Hp. }
      apply check_profile_spec in Hc; [|done]. destruct Hc as [?|(? & id & ? & _)]; eauto.
  - intros [Hst Hids Huris Hmap Hadv]. rewrite (proj2 (check_standard_mapping_spec t Huris) Hst). cbn [mbind result_bind].
    assert (∀ m, m ∈ t → namespace_id m = 0%N → extension_uri m = STANDARD_URI) as Hzero.
    { intros m Hm H0. apply list_elem_of_lookup in Hm as [i Hi], Hst as [j Hj].
      enough (i = j) as -> by (rewrite Hj in Hi; by injection Hi as <-).
      eapply (NoDup_lookup _ i j 0%N Hids); rewrite list_lookup_fmap; [rewrite Hi|rewrite Hj]; cbn; by rewrite ?H0. }
    assert (∀ p id, mkMapping (profile_display p) id ∈ t → id ≠ 0%N) as Hnz.
    { intros p id Hin ->. apply Hzero in Hin; [|done]. by destruct (display_not_standard p). }
    assert (for_each (check_profile t) (profiles (cap_required c) ++ profiles (cap_optional c)) = Ok tt) as ->.
    { apply for_each_Ok, Forall_forall. intros p Hp. apply check_profile_spec; [done|].
      rewrite elem_of_app, !elem_of_profiles in Hp. destruct (Hadv p Hp) as [?|(? & id & Hin)]; [by left|].
      right. split; [done|]. exists id. split; [done|]. by eapply Hnz. }
    cbn [mbind result_bind].
    destruct (proj2 Hloop) as (seen & ->); [|done]. split_and!; [|done|done|set_solver].
    apply Forall_forall. intros m Hm. apply check_mapping_spec. destruct (Hmap m Hm) as [Hu|(p & ? & ? & ? & Hd)].
    + left. split; [done|]. pose proof (mappings_of_unique _ _ _ Huris Hst) as Hun.
      assert (m ∈ mappings_of t STANDARD_URI) as Hin by by apply elem_of_mappings.
      rewrite Hun in Hin. apply list_elem_of_singleton in Hin as ->. done.
    + right. split; [|by exists p]. destruct m as [u id]. cbn in *. subst u. by eapply Hnz.
Qed.

Lemma validate_contract_returns s : returns (validate_extension_namespace_contract s).
Proof.
  unfold validate_extension_namespace_contract, check_standard_mapping.
  apply returns_bind.
  { case_match; [done|]. apply returns_bind; [apply returns_err_if|intros; apply returns_err_if]. }
  intros _ _. apply returns_bind.
  { apply returns_for_each. intros p _. unfold check_profile. case_decide; [apply returns_err_if|].
    case_match; [done|]. apply returns_bind; [apply returns_err_if|intros; apply returns_err_if]. }
  intros _ _. assert (∀ c l seen, returns (try_fold
    (λ seen m, (check_mapping c m ≫= λ _, check_unseen seen m)) seen l)) as Hl.
  { intros c l. induction l as [|m l IH]; intros seen; cbn; [done|]. apply returns_bind; [|by intros].
    apply returns_bind.
    - unfold check_mapping. case_decide; [apply returns_err_if|]. repeat (apply returns_bind; [|intros _ _]); try apply returns_err_if.
      apply returns_bind; [|intros p _; repeat (apply returns_bind; [apply returns_err_if|intros _ _]); apply returns_err_if].
      pose proof (profile_parse_returns (extension_uri m)). by destruct (profile_parse (extension_uri m)).
    - intros _ _. unfold check_unseen. by repeat (apply returns_bind; [apply returns_err_if|intros _ _]). }
  specialize (Hl (capabilities s) (extension_namespaces s) (∅, ∅)). by destruct (try_fold _ _ _).
Qed.

(** ** Allocation *)

(** The used namespaces from [k] on; each step of the loop rules one out. *)
Definition used_from (used : gset N) (k : N) : gset N := filter (λ x, (k ≤ x)%N) used.

Lemma next_namespace_from_spec fuel used k : size (used_from used k) < fuel → (k ≤ u32_max)%N →
  match next_namespace_from fuel used k with
  | Ok n => (k ≤ n ≤ u32_max)%N ∧ n ∉ used ∧ ∀ x, (k ≤ x < n)%N → x ∈ used
  | Err e => e = NamespacesExhausted ∧ ∀ x, (k ≤ x ≤ u32_max)%N → x ∈ used
  | _ => False
  end.
Proof.
  revert k. induction fuel as [|fuel IH]; intros k Hs Hk; [lia|]. cbn [next_namespace_from].
  case_decide as Hin; [|split_and!; [lia|lia|done|intros; lia]].
  unfold checked_add32. case_decide as Hmax; cbn [ok_or mbind result_bind].
  - assert (used_from used k = {[k]} ∪ used_from used (k + 1)) as Heq.
    { apply set_eq. intros x. unfold used_from. rewrite elem_of_union, elem_of_singleton, !elem_of_filter.
      split; [intros [??]; destruct (decide (x = k)); [by left|right; split; [lia|done]]|].
      intros [->|[? ?]]; split; done || lia. }
    rewrite Heq, size_union in Hs; [|unfold used_from; intros x ->%elem_of_singleton [? _]%elem_of_filter; lia].
    rewrite size_singleton in Hs. specialize (IH (k + 1)%N ltac:(lia) ltac:(lia)).
    assert (∀ x, (k ≤ x)%N → (k + 1 ≤ x)%N ∨ x = k) as Hcase by lia.
    destruct (next_namespace_from fuel used (k + 1)) as [n|e| |]; [| |done..].
    + destruct IH as (? & ? & Hall). split_and!; [lia|lia|done|]. intros x Hx.
      destruct (Hcase x) as [?| ->]; [lia|apply Hall; lia|done].
    + destruct IH as (? & Hall). split; [done|]. intros x Hx.
      destruct (Hcase x) as [?| ->]; [lia|apply Hall; lia|done].
  - split; [done|]. intros x Hx. by replace x with k by lia.
Qed.

(** The lowest free namespace but 0, or the news that there is none. *)
Lemma next_extension_namespace_spec t :
  match next_extension_namespace t with
  | Ok n => (1 ≤ n ≤ u32_max)%N ∧ n ∉ namespace_id <$> t ∧ ∀ x, (1 ≤ x < n)%N → x ∈ namespace_id <$> t
  | Err e => e = NamespacesExhausted ∧ ∀ x, (1 ≤ x ≤ u32_max)%N → x ∈ namespace_id <$> t
  | _ => False
  end.
Proof.
  unfold next_extension_namespace. set (used := list_to_set (namespace_id <$> t) : gset N).
  assert (∀ x, x ∈ used ↔ x ∈ namespace_id <$> t) as Hu by (intros; apply elem_of_list_to_set).
  assert (size (used_from used 1) < S (size used)) as Hsize.
  { apply Nat.lt_succ_r, subseteq_size. unfold used_from. by intros x [_ ?]%elem_of_filter. }
  pose proof (next_namespace_from_spec (S (size used)) used 1 Hsize ltac:(unfold u32_max; lia)) as Hs.
  destruct (next_namespace_from _ _ _) as [n|e| |]; [| |done..].
  - destruct Hs as (? & Hn & Hall). split_and!; [lia|lia|by rewrite <- Hu|]. intros x Hx. by apply Hu, Hall.
  - destruct Hs as (? & Hall). split; [done|]. intros x Hx. by apply Hu, Hall.
Qed.

(** ** Registration keeps the contract *)

Lemma find_namespace_Some t uri id : find_namespace t uri = Some id → mkMapping uri id ∈ t.
Proof.
  unfold find_namespace. destruct (mappings_of t uri) as [|m l] eqn:Hm; [done|]. cbn. intros [= <-].
  assert (m ∈ mappings_of t uri) as [? <-]%elem_of_mappings by (rewrite Hm; left). by destruct m.
Qed.
Lemma find_namespace_None t uri : find_namespace t uri = None → uri ∉ extension_uri <$> t.
Proof.
  unfold find_namespace. destruct (mappings_of t uri) as [|m l] eqn:Hm; [|done]. intros _ (m & -> & Hin)%list_elem_of_fmap.
  assert (m ∈ mappings_of t (extension_uri m)) as Hx by by apply elem_of_mappings.
  rewrite Hm in Hx. by apply elem_of_nil in Hx.
Qed.

(** What the table is like whatever profiles are registered, sensible or not. *)
Record table_ok (c : ServerCapabilities) (t : list ExtensionNamespaceMapping) : Prop := {
  tb_standard : mkMapping STANDARD_URI 0 ∈ t;
  tb_ids : NoDup (namespace_id <$> t);
  tb_uris : NoDup (extension_uri <$> t);
  tb_mapped : ∀ m, m ∈ t → extension_uri m = STANDARD_URI ∨
    ∃ p, advertised c p ∧ p ≠ standard_widgets_v1 ∧ extension_uri m = profile_display p;
  tb_advertised : ∀ p, advertised c p → p = standard_widgets_v1 ∨ ∃ id, mkMapping (profile_display p) id ∈ t;
}.

(** A profile a handshake can be held with: the standard widgets, or one with a
    name of its own that its display can be parsed back to. *)
Definition presentable (p : Profile) : Prop :=
  p = standard_widgets_v1 ∨ well_named p ∧ pf_name p ≠ STANDARD_URI.

(** The contract holds exactly when every advertised profile is presentable. *)
Lemma table_contract c t : table_ok c t → contract c t ↔ ∀ p, advertised c p → presentable p.
Proof.
  intros [Hst Hids Huris Hmap Hadv]. split.
  - intros [_ _ _ Hmap' Hadv'] p Hp. destruct (Hadv' p Hp) as [?|(Hn & id & Hid)]; [by left|right].
    destruct (Hmap' _ Hid) as [Heq|(q & _ & Hw & _ & Heq%profile_display_inj)]; [by destruct (display_not_standard p)|].
    by subst q.
  - intros Hall. split; try done.
    + intros m Hm. destruct (Hmap m Hm) as [?|(p & Hp & Hne & Heq)]; [by left|right].
      destruct (Hall p Hp) as [?|[? ?]]; [done|]. by exists p.
    + intros p Hp. destruct (Hall p Hp) as [?|[? ?]]; [by left|]. destruct (Hadv p Hp) as [?|Hid]; [by left|by right].
Qed.

(** Advertising more profiles, each of them mapped. *)
Lemma table_advertise c c' t p : table_ok c t → (∃ id, mkMapping (profile_display p) id ∈ t) →
  (∀ q, advertised c q → advertised c' q) → (∀ q, advertised c' q → advertised c q ∨ q = p) → table_ok c' t.
Proof.
  intros [Hst Hids Huris Hmap Hadv] Hid Hmono Hback. split; [done..| |].
  - intros m Hm. destruct (Hmap m Hm) as [?|(q & ? & ?)]; [by left|]. right. exists q. split; [by apply Hmono|done].
  - intros q [Hq| ->]%Hback; [by apply Hadv|]. by right.
Qed.

(** Appending a fresh mapping for a profile that is advertised from then on. *)
Lemma table_allocate c c' t p id : table_ok c t → p ≠ standard_widgets_v1 →
  profile_display p ∉ extension_uri <$> t → id ∉ namespace_id <$> t →
  (∀ q, advertised c q → advertised c' q) → (∀ q, advertised c' q → advertised c q ∨ q = p) → advertised c' p →
  table_ok c' (t ++ [mkMapping (profile_display p) id]).
Proof.
  intros [Hst Hids Huris Hmap Hadv] Hne Hfresh Hid Hmono Hback Hp. split.
  - rewrite elem_of_app. by left.
  - rewrite fmap_app. apply NoDup_app. split_and!; [done| |apply NoDup_singleton].
    intros x Hx ->%list_elem_of_singleton. done.
  - rewrite fmap_app. apply NoDup_app. split_and!; [done| |apply NoDup_singleton].
    intros x Hx ->%list_elem_of_singleton. done.
  - intros m [Hm| ->%list_elem_of_singleton]%elem_of_app; [|right; by exists p].
    destruct (Hmap m Hm) as [?|(q & ? & ?)]; [by left|]. right. exists q. split; [by apply Hmono|done].
  - intros q [Hq| ->]%Hback.
    + destruct (Hadv q Hq) as [?|(i & Hi)]; [by left|]. right. exists i. rewrite elem_of_app. by left.
    + right. exists id. rewrite elem_of_app. right. by apply list_elem_of_singleton.
Qed.

Lemma advertised_optional c p q : advertised (insert_optional c p) q ↔ advertised c q ∨ q = p.
Proof. unfold advertised, insert_optional. cbn. set_solver. Qed.

(** What registering an optional profile does. *)
Lemma register_spec s p :
  match register_optional_extension_profile s p with
  | Ok (s', id) =>
      p ≠ standard_widgets_v1 ∧ clients_seen s = false ∧ p ∉ cap_required (capabilities s) ∧
      capabilities s' = insert_optional (capabilities s) p ∧ s' = with_contract s (capabilities s') (extension_namespaces s') ∧
      mkMapping (profile_display p) id ∈ extension_namespaces s' ∧
      (extension_namespaces s' = extension_namespaces s ∨
       extension_namespaces s' = extension_namespaces s ++ [mkMapping (profile_display p) id] ∧
       profile_display p ∉ extension_uri <$> extension_namespaces s ∧
       id ∉ namespace_id <$> extension_namespaces s ∧ (1 ≤ id ≤ u32_max)%N ∧
       ∀ x, (1 ≤ x < id)%N → x ∈ namespace_id <$> extension_namespaces s)
  | Err _ => True
  | _ => False
  end.
Proof.
  unfold register_optional_extension_profile.
  destruct (bool_decide_reflect (p = standard_widgets_v1)) as [|Hstd]; [done|].
  destruct (bool_decide (p = terminal_v1)); [done|].
  cbn [err_if mbind result_bind]. destruct (clients_seen s) eqn:Hseen; [done|]. cbn [err_if mbind result_bind].
  case_bool_decide as Hreq; [done|]. cbn [err_if mbind result_bind].
  destruct (find_namespace (extension_namespaces s) (profile_display p)) as [id|] eqn:Hf.
  { apply find_namespace_Some in Hf. cbn. split_and!; auto. }
  apply find_namespace_None in Hf. pose proof (next_extension_namespace_spec (extension_namespaces s)) as Hn.
  destruct (next_extension_namespace (extension_namespaces s)) as [id|e| |]; [|done..].
  destruct Hn as (? & ? & ?). cbn. split_and!; try done.
  - rewrite elem_of_app. right. by apply list_elem_of_singleton.
  - right. done.
Qed.

Lemma register_table s p s' id : table_ok (capabilities s) (extension_namespaces s) →
  register_optional_extension_profile s p = Ok (s', id) → table_ok (capabilities s') (extension_namespaces s').
Proof.
  intros Hc Heq. pose proof (register_spec s p) as Hs. rewrite Heq in Hs.
  destruct Hs as (Hne & _ & _ & Hcap & _ & Hin & Ht). rewrite Hcap.
  destruct Ht as [Ht|(Ht & Hu & Hi & _)]; rewrite Ht in *.
  - apply table_advertise with (capabilities s) p; eauto; intros q; rewrite advertised_optional; auto.
  - apply table_allocate with (capabilities s); auto; try (intros q; rewrite advertised_optional; auto).
    rewrite advertised_optional. by right.
Qed.

(** *** Terminals *)

Lemma terminal_well_named : well_named terminal_v1 ∧ pf_name terminal_v1 ≠ STANDARD_URI.
Proof. split; [by apply (profile_parse_well_named TERMINAL_PROFILE_URI)|done]. Qed.
Lemma terminal_display : profile_display terminal_v1 = TERMINAL_PROFILE_URI.
Proof. reflexivity. Qed.

Lemma prepare_terminal_spec s s' ty r : prepare_terminal_type s = Ok (s', (ty, r)) →
  clients_seen s = false ∧ ty = mkTypeRef (type_namespace_id ty) TERMINAL_LOCAL_TYPE_ID ∧
  mkMapping TERMINAL_PROFILE_URI (type_namespace_id ty) ∈ extension_namespaces s' ∧
  s' = with_contract s (mkServerCapabilities ({[terminal_v1]} ∪ cap_required (capabilities s))
         (cap_optional (capabilities s) ∖ {[terminal_v1]})) (extension_namespaces s') ∧
  was_required r = bool_decide (terminal_v1 ∈ cap_required (capabilities s)) ∧
  was_optional r = bool_decide (terminal_v1 ∈ cap_optional (capabilities s)) ∧
  match created_namespace r with
  | None => extension_namespaces s' = extension_namespaces s
  | Some id => extension_namespaces s' = extension_namespaces s ++ [mkMapping TERMINAL_PROFILE_URI id] ∧
      TERMINAL_PROFILE_URI ∉ extension_uri <$> extension_namespaces s ∧
      id ∉ namespace_id <$> extension_namespaces s
  end.
Proof.
  unfold prepare_terminal_type. intros Heq. apply bind_Ok in Heq as ([] & Hseen%err_if_Ok & Heq).
  apply bind_Ok in Heq as ([id created] & Hid & [= <- <- <-]). split; [done|]. split; [done|].
  destruct (find_namespace (extension_namespaces s) TERMINAL_PROFILE_URI) as [id'|] eqn:Hf.
  { injection Hid as <- <-. apply find_namespace_Some in Hf. by split_and!. }
  apply find_namespace_None in Hf. apply bind_Ok in Hid as (n & Hn & [= <- <-]).
  pose proof (next_extension_namespace_spec (extension_namespaces s)) as Hs. rewrite Hn in Hs.
  destruct Hs as (_ & ? & _). cbn. split_and!; try done. rewrite elem_of_app. right. by apply list_elem_of_singleton.
Qed.

Lemma prepare_terminal_table s s' x : table_ok (capabilities s) (extension_namespaces s) →
  prepare_terminal_type s = Ok (s', x) → table_ok (capabilities s') (extension_namespaces s').
Proof.
  intros Hc Heq. destruct x as [ty r]. apply prepare_terminal_spec in Heq as (_ & _ & Hin & Hs' & _ & _ & Ht).
  set (c' := mkServerCapabilities _ _) in Hs'. assert (capabilities s' = c') as -> by by rewrite Hs'.
  assert (∀ q, advertised c' q ↔ advertised (capabilities s) q ∨ q = terminal_v1) as Hadv.
  { intros q. unfold advertised, c'. cbn. destruct (decide (q = terminal_v1)) as [->|]; set_solver. }
  destruct (created_namespace r) as [id|].
  - destruct Ht as (-> & ? & ?). rewrite <- terminal_display in *.
    apply table_allocate with (capabilities s); auto; try (intros q; rewrite Hadv; auto).
    apply Hadv. by right.
  - rewrite Ht in *. apply table_advertise with (capabilities s) terminal_v1; auto;
      try (intros q; rewrite Hadv; auto). rewrite terminal_display. eauto.
Qed.

Lemma undo_insert (p : Profile) (X : CapabilitySet) :
  (if bool_decide (p ∈ X) then {[p]} ∪ X else ({[p]} ∪ X) ∖ {[p]}) = X.
Proof. case_bool_decide; set_solver. Qed.
Lemma undo_remove (p : Profile) (X : CapabilitySet) :
  (if bool_decide (p ∈ X) then {[p]} ∪ X ∖ {[p]} else X ∖ {[p]}) = X.
Proof.
  case_bool_decide; [|set_solver]. apply set_eq. intros q. destruct (decide (q = p)) as [->|]; set_solver.
Qed.

(** A terminal whose process could not be started leaves the contract it found,
    if no client was told of it meanwhile. *)
Lemma rollback_restores s s' ty r : prepare_terminal_type s = Ok (s', (ty, r)) →
  rollback_terminal_type s' false r = s.
Proof.
  intros Heq. apply prepare_terminal_spec in Heq as (Hseen & _ & _ & Hs' & Hreq & Hopt & Ht).
  set (t' := extension_namespaces s') in *. clearbody t'. subst s'.
  unfold rollback_terminal_type. change (clients_seen (with_contract _ _ _)) with (clients_seen s).
  rewrite Hseen, Hreq, Hopt. cbn [orb capabilities with_contract cap_required cap_optional extension_namespaces].
  rewrite undo_insert, undo_remove.
  replace (match created_namespace r with
           | Some id => filter (λ m, namespace_id m ≠ id) t'
           | None => t'
           end) with (extension_namespaces s).
  2: { destruct (created_namespace r) as [id|]; [|done]. destruct Ht as (-> & _ & Hid).
       rewrite filter_app, filter_cons_False, filter_nil, app_nil_r by (cbn; tauto).
       symmetry. apply filter_all. intros m Hm <-. apply Hid. by apply list_elem_of_fmap_2. }
  destruct s as [? ? [? ?] ? ? ? ? ? ? ?]. reflexivity.
Qed.
