(* ===== verification/Handshake.v ===== *)
(** * Handshakes

    Models [sessiond/src/session/handshake.rs]: what a hello or a resume is
    refused for, the choice between replay and resynchronisation, and the
    optimistic export, which leaves the session unlocked and therefore runs over
    the sequence of states its lock acquisitions find.  [attach_terminals] of
    [session/terminal.rs] comes after.

    Between two acquisitions any other step of the server may run: the functions
    take [locks], the state the [k]th acquisition finds, and return the number of
    the last one and the state it leaves.  The outbound hub has a mutex of its
    own, and [Session::clear_stale_client] takes only that one: so the hub may
    change even while a resumption holds the session, between its look at the
    client's stale marker and its subscription.  A resumption is therefore also
    given [meanwhile], what the hub's other users do to it in that time in the
    [k]th acquisition.  A poisoned lock is not modelled. *)

From Stdlib Require Import Ascii.
From S2P Require Import Prelude.
From S2P Require Import Values.
From S2P Require Import Limits.
From S2P Require Import Store.
From S2P Require Import Transaction.
From S2P Require Import Wire.
From S2P Require Import SnapshotFraming.
From S2P Require Import Snapshot.
From S2P Require Import Journal.
From S2P Require Import Dedupe.
From S2P Require Import Event.
From S2P Require Import TextTracker.
From S2P Require Import Resources.
From S2P Require Import Outbound.
From S2P Require Import Session.
From S2P Require Import Terminal.
From S2P Require Import Capability.
From S2P Require Import Extensions.

Definition CORE_VERSION : string := "0.5.0".
Definition MAX_OPTIMISTIC_SNAPSHOT_EXPORT_ATTEMPTS : nat := 3.
Definition MAX_CLIENT_RESOURCE_CEILINGS : N := 256.
Definition MAX_CLIENT_INSTANCE_ID_BYTES : N := 64.

(** [version.split('.')]: the first part, and what follows its dot. *)
Fixpoint split_dot (s : string) : string * option string :=
  match s with
  | EmptyString => ("", None)
  | String a s =>
      if (N_of_ascii a =? 46)%N then ("", Some s)
      else let '(part, rest) := split_dot s in (String a part, rest)
  end.
Fixpoint all_digits (s : string) : bool :=
  match s with
  | EmptyString => true
  | String a s => (48 <=? N_of_ascii a)%N && (N_of_ascii a <=? 57)%N && all_digits s
  end.
Definition numeric (s : string) : bool := negb (String.eqb s "") && all_digits s.

(** [major_minor] and [core_version_is_compatible] *)
Definition major_minor (version : string) : option (string * string) :=
  let '(major, rest) := split_dot version in
  rest ← rest;
  let '(minor, _) := split_dot rest in
  if numeric major && numeric minor then Some (major, minor) else None.
Definition core_version_is_compatible (requested : string) : bool :=
  match major_minor requested, major_minor CORE_VERSION with
  | Some requested, Some supported => bool_decide (requested = supported)
  | _, _ => false
  end.

(** ** Messages *)

(** [message ClientHello], without the metadata no code reads. *)
Record ClientHello := mkHello {
  ch_core_version : string;
  ch_profiles : list string;
  ch_limits : option ClientLimits;
  ch_client_instance_id : Bytes;
  ch_known_resource_hashes : list Bytes;
}.

(** [message ClientResume] *)
Record ClientResume := mkResume {
  cr_session_id : string;
  cr_client_instance_id : Bytes;
  cr_last_applied_revision : N;
  cr_last_acked_event_seq : N;
  cr_terminal_stream_offsets : gmap N N;
  cr_limits : option ClientLimits;
  cr_known_resource_hashes : list Bytes;
  cr_pending_text_edits : list PendingTextEditRef;
  cr_core_version : string;
  cr_profiles : list string;
}.

(** [message ServerWelcome] *)
Record ServerWelcome := mkWelcome {
  sw_core_version : string;
  sw_required_profiles : list string;
  sw_optional_profiles : list string;
  sw_session_id : string;
  sw_initial_revision : N;
  sw_extension_namespaces : list ExtensionNamespaceMapping;
  sw_limits : option ServerLimits;
  sw_snapshot_parts : N;
}.

(** [message ServerResumeOk] *)
Record ServerResumeOk := mkResumeOk {
  ro_session_id : string;
  ro_replay_from_revision : N;
  ro_last_processed_event_seq : N;
  ro_required_profiles : list string;
  ro_optional_profiles : list string;
  ro_extension_namespaces : list ExtensionNamespaceMapping;
}.

(** [enum SessionContinuity] *)
Inductive SessionContinuity := ContinuityUnspecified | SameSession | Replaced.

(** [message ServerResyncRequired] *)
Record ServerResyncRequired := mkResync {
  rr_session_id : string;
  rr_snapshot_revision : N;
  rr_reason : string;
  rr_continuity : SessionContinuity;
  rr_last_processed_event_seq : N;
  rr_discarded_text_edits : list PendingTextEditRef;
  rr_required_profiles : list string;
  rr_optional_profiles : list string;
  rr_extension_namespaces : list ExtensionNamespaceMapping;
  rr_snapshot_parts : N;
}.

(** ** Checks *)

(** [validate_client_instance_id] *)
Definition validate_client_instance_id (c : Bytes) : result HandshakeError unit :=
  err_if (MAX_CLIENT_INSTANCE_ID_BYTES <? len c)%N (HsInvalidInput (ClientIdTooLong (len c))).

(** [negotiate_client]: identifiers that do not parse are ignored. *)
Definition client_capabilities (offered : list string) : CapabilitySet :=
  foldl (λ (caps : CapabilitySet) s, match profile_parse s with Ok p => {[p]} ∪ caps | _ => caps end) ∅ offered.
Definition negotiate_client (s : Server) (core_version : string) (offered : list string)
    : result HandshakeError CapabilitySet :=
  err_if (negb (core_version_is_compatible core_version)) (HsUnsupportedCoreVersion core_version CORE_VERSION)
    ≫= λ _,
  negotiated ← map_err HsNegotiation (server_negotiate (capabilities s) (client_capabilities offered));
  map_err HsInvalidConfiguration (validate_extension_namespace_contract s) ≫= λ _,
  Ok negotiated.

(** [negotiated_max_resource_size] *)
Definition negotiated_max_resource_size (server : N) (client_limits : option ClientLimits) : N :=
  let client := match client_limits with Some l => cl_max_resource_size l | None => 0%N end in
  if (client =? 0)%N then server else N.min server client.

(** [negotiate_hello] *)
Definition with_max_resource_size (l : ServerLimits) (n : N) : ServerLimits :=
  mkServerLimits (sl_max_frame_size l) (sl_max_transaction_operations l) (sl_max_tree_depth l)
    (sl_max_node_count l) (sl_max_string_length l) n.
Definition negotiate_hello (s : Server) (hello : ClientHello)
    : result HandshakeError (ServerWelcome * option SemanticStore * bool) :=
  validate_client_instance_id (ch_client_instance_id hello) ≫= λ _,
  negotiated ← negotiate_client s (ch_core_version hello) (ch_profiles hello);
  let terminal_negotiated := bool_decide (terminal_v1 ∈ negotiated) in
  let initial_revision := revision (store (inner s)) in
  let lim := with_max_resource_size (server_limits s)
    (as_u32 (negotiated_max_resource_size (sl_max_resource_size (server_limits s)) (ch_limits hello))) in
  let welcome := mkWelcome CORE_VERSION (to_string_vec (cap_required (capabilities s)))
    (to_string_vec (cap_optional (capabilities s))) (session_id s) initial_revision (extension_namespaces s)
    (Some lim) 0 in
  Ok (welcome, if (0 <? initial_revision)%N then Some (clone_staging (store (inner s))) else None,
      terminal_negotiated).

(** [known_resource_hashes] *)
Definition known_resource_hashes (raw_hashes : list Bytes) (limit : N) : gset ResourceHash :=
  list_to_set (omap (λ raw, if (length raw =? 32)%nat then Some (mkResourceHash raw) else None)
    (take (N.to_nat limit) raw_hashes)).

(** [ceilings.keys().next()]: the key a [HashMap] yields first. *)
Class HashOrder := first_key : gmap Bytes N → option Bytes.

(** [remember_client_resource_ceiling] *)
Definition remember_client_resource_ceiling `{HashOrder} (ceilings : gmap Bytes N) (c : Bytes)
    (max_resource_size : N) : gmap Bytes N :=
  let kept :=
    if (MAX_CLIENT_RESOURCE_CEILINGS <=? map_len ceilings)%N && negb (bool_decide (is_Some (ceilings !! c))) then
      match first_key ceilings with Some key => delete key ceilings | None => ceilings end
    else ceilings in
  <[c := max_resource_size]> kept.

(** [Session::subscribe_client_locked]: the receiver is the position of the new
    subscriber. *)
Definition subscribe_client_locked `{HashOrder} (s : Server) (c : Bytes) (advertised_resource_hashes : list Bytes)
    (max_res : N) : Server * result HandshakeError nat :=
  let s1 := with_ceilings s (remember_client_resource_ceiling (client_resource_ceilings s) c max_res) in
  let known := known_resource_hashes advertised_resource_hashes (rl_max_entries (rs_limits (server_resources s))) in
  let retained := retained_entries (server_resources s) in
  match subscribe (outbound_hub s) c (outbound_queue_capacity s) (sl_max_transaction_operations (server_limits s))
          (sl_max_frame_size (server_limits s)) max_res with
  | Some h =>
      let receiver := Nat.pred (length (subscribers h)) in
      (with_hub s1 (seed_resources_excluding h receiver retained known), Ok receiver)
  | None =>
      (s1, Err (if (outbound_queue_capacity s =? 0)%N then HsInvalidConfiguration ZeroQueueCapacity
                else HsOutboundClosed))
  end.

(** ** Terminals ([session/terminal.rs]) *)

(** [pub struct TerminalAttach]: the live subscriptions by their cursors. *)
Record TerminalAttach := mkAttach {
  ta_catch_up : list (LogicalChannelClass * TerminalEvent);
  ta_live : list (NodeId * N);
}.

(** [PTYManager::subscribe_all] and [attach_from_outcomes], over the streams in
    the order the table yields them and the rings their locks find. *)
Definition attach_stream (effective : gmap N N) (a : TerminalAttach) (stream : NodeId * OutputRing)
    : result RingError TerminalAttach :=
  let '(id, ring) := stream in
  '(snapshot, cursor) ← terminal_subscribe id ring (default 0%N (effective !! NodeId_get id));
  let class := if is_replay snapshot then TerminalNormal else TerminalHigh in
  Ok (mkAttach (ta_catch_up a ++ map (λ e, (class, e)) (catch_up_events id snapshot))
        (ta_live a ++ [(id, cursor)])).

(** [Session::attach_terminals]; [subscribe_all] never fails. *)
Definition attach_terminals (streams : list (NodeId * OutputRing)) (offsets : gmap N N) (ignore_offsets : bool)
    : result HandshakeError TerminalAttach :=
  err_if (MAX_TERMINAL_RESUME_MAP_ENTRIES <? map_len offsets)%N
    (HsInvalidInput (TooManyTerminalOffsets (map_len offsets))) ≫= λ _,
  let effective := if ignore_offsets then ∅ else offsets in
  match try_fold (attach_stream effective) (mkAttach [] []) streams with
  | Ok a => Ok a
  | Err _ | Panic => Panic
  | Diverge => Diverge
  end.

(** ** Fresh clients *)

(** [pub struct FreshClientBootstrap] *)
Record FreshClientBootstrap := mkFreshBootstrap {
  fb_welcome : ServerWelcome;
  fb_snapshot : option Msg.Transaction;
  fb_snapshot_frames : SnapshotFramePlan;
  fb_transactions : nat;
  fb_terminal_negotiated : bool;
  fb_terminal : TerminalAttach;
}.

Section bootstrap.
Context `{Registry, EventRegistry, PropertyIter, Diagnostics, Digest, ItemEncoding, Encoding, HashOrder}.

(** The closure [export_and_plan]. *)
Definition export_and_plan (server_max_frame_size : N) (client_limits : option ClientLimits) (st : SemanticStore)
    : result SnapshotError (Msg.Transaction * SnapshotFramePlan) :=
  snapshot ← export_snapshot_transaction st;
  plan ← plan_snapshot_delivery snapshot server_max_frame_size client_limits;
  Ok (snapshot, plan).

(** [bootstrap_fresh_client_with_exporter], once the catch-up is exported and
    the mutex held. *)
Definition with_parts (w : ServerWelcome) (n : N) : ServerWelcome :=
  mkWelcome (sw_core_version w) (sw_required_profiles w) (sw_optional_profiles w) (sw_session_id w)
    (sw_initial_revision w) (sw_extension_namespaces w) (sw_limits w) n.
Definition finish_fresh (s : Server) (streams : list (NodeId * OutputRing)) (hello : ClientHello)
    (welcome : ServerWelcome) (terminal_negotiated : bool)
    (export : result SnapshotError (option (Msg.Transaction * SnapshotFramePlan)))
    : Server * result HandshakeError FreshClientBootstrap :=
  match map_err HsSnapshot export with
  | Ok snapshot =>
      let frames := match snapshot with Some (_, plan) => plan | None => single 0 end in
      match announced_parts frames with
      | Ok n =>
          match subscribe_client_locked s (ch_client_instance_id hello) (ch_known_resource_hashes hello)
                  (negotiated_max_resource_size (sl_max_resource_size (server_limits s)) (ch_limits hello)) with
          | (s1, Ok receiver) =>
              (negotiated s1,
               terminal ← attach_terminals streams ∅ false;
               Ok (mkFreshBootstrap (with_parts welcome n) (fst <$> snapshot) frames receiver terminal_negotiated
                     terminal))
          | (s1, Err e) => (s1, Err e)
          | (s1, Panic) => (s1, Panic)
          | (s1, Diverge) => (s1, Diverge)
          end
      | Err e => (s, Err e)
      | Panic => (s, Panic)
      | Diverge => (s, Diverge)
      end
  | Err e => (s, Err e)
  | Panic => (s, Panic)
  | Diverge => (s, Diverge)
  end.

(** The export of the staging clone, if there is anything to send. *)
Definition fresh_export (hello : ClientHello) (welcome : ServerWelcome) (store_clone : option SemanticStore)
    : result SnapshotError (option (Msg.Transaction * SnapshotFramePlan)) :=
  let frame := match sw_limits welcome with Some l => sl_max_frame_size l | None => 0%N end in
  match store_clone with
  | Some st => Some <$> export_and_plan frame (ch_limits hello) st
  | None => Ok None
  end.

(** The loop, [attempts] optimistic exports before the one under the lock. *)
Fixpoint bootstrap_fresh_loop (attempts : nat) (locks : nat → Server) (streams : list (NodeId * OutputRing))
    (k : nat) (hello : ClientHello) : nat * (Server * result HandshakeError FreshClientBootstrap) :=
  let s := locks k in
  match negotiate_hello s hello with
  | Ok (welcome, store_clone, terminal_negotiated) =>
      let export := fresh_export hello welcome store_clone in
      match attempts with
      | O => (k, finish_fresh s streams hello welcome terminal_negotiated export)
      | S attempts =>
          match export with
          | Panic => (k, (s, Panic))
          | Diverge => (k, (s, Diverge))
          | _ =>
              let s' := locks (S k) in
              if negb (revision (store (inner s')) =? sw_initial_revision welcome)%N
              then bootstrap_fresh_loop attempts locks streams (S (S k)) hello
              else (S k, finish_fresh s' streams hello welcome terminal_negotiated export)
          end
      end
  | Err e => (k, (s, Err e))
  | Panic => (k, (s, Panic))
  | Diverge => (k, (s, Diverge))
  end.

(** [Session::bootstrap_fresh_client] *)
Definition bootstrap_fresh_client (locks : nat → Server) (streams : list (NodeId * OutputRing))
    (hello : ClientHello) : nat * (Server * result HandshakeError FreshClientBootstrap) :=
  bootstrap_fresh_loop MAX_OPTIMISTIC_SNAPSHOT_EXPORT_ATTEMPTS locks streams 0 hello.

(** ** Resuming clients *)

(** [enum ResyncCause], [continuity], [reason] *)
Inductive ResyncCause := ReplacedIncarnation | OutboundQueueOverflow | JournalGap.
#[export] Instance ResyncCause_eq_dec : EqDecision ResyncCause.
Proof using Type. solve_decision. Defined.
Definition continuity (c : ResyncCause) : SessionContinuity :=
  match c with ReplacedIncarnation => Replaced | OutboundQueueOverflow | JournalGap => SameSession end.
Definition reason (c : ResyncCause) : string :=
  match c with
  | ReplacedIncarnation => "requested session incarnation is no longer available"
  | OutboundQueueOverflow =>
      "outbound transaction queue overflowed; full state resynchronization required (§20.2)"
  | JournalGap => "client revision outside retained journal window"
  end.

(** The closure [determine_resync_cause]. *)
Definition determine_resync_cause (resume : ClientResume) (s : Server) : option ResyncCause :=
  if bool_decide (cr_session_id resume ≠ session_id s) then Some ReplacedIncarnation
  else if is_client_stale (outbound_hub s) (cr_client_instance_id resume) then Some OutboundQueueOverflow
  else match replay_from (journal (inner s)) (cr_last_applied_revision resume) with
       | None => Some JournalGap
       | Some _ => None
       end.

(** [enum ResumePlan] *)
Record ResyncPlan := mkResyncPlan {
  pl_session_id : string;
  pl_snapshot_revision : N;
  pl_snapshot_transaction : Msg.Transaction;
  pl_snapshot_frames : SnapshotFramePlan;
  pl_continuity : SessionContinuity;
  pl_reason : string;
  pl_last_processed_event_seq : N;
  pl_discarded_text_edits : list PendingTextEditRef;
  pl_required_profiles : list string;
  pl_optional_profiles : list string;
  pl_extension_namespaces : list ExtensionNamespaceMapping;
  pl_pending_text_edit_cancellation : option PendingTextEditCancellation;
}.
Inductive ResumePlan :=
| PlanReplay (welcome_msg : ServerResumeOk) (replayed : list Msg.Transaction)
| PlanResync (plan : ResyncPlan).

(** The plan of a replay. *)
Definition plan_replay (s : Server) (resume : ClientResume) : result HandshakeError ResumePlan :=
  replayed ← expect (replay_from (journal (inner s)) (cr_last_applied_revision resume));
  Ok (PlanReplay
        (mkResumeOk (session_id s) (cr_last_applied_revision resume)
           (last_contiguous_of (dedupe (inner s)) (cr_client_instance_id resume))
           (to_string_vec (cap_required (capabilities s))) (to_string_vec (cap_optional (capabilities s)))
           (extension_namespaces s)) replayed).

(** The plan of a resynchronisation, made under the last lock. *)
Definition plan_resync (s : Server) (resume : ClientResume) (edits : list ValidatedPendingTextEditRef)
    (cause : ResyncCause) (snapshot_revision : N) (exported : Msg.Transaction * SnapshotFramePlan) : ResumePlan :=
  let c := cr_client_instance_id resume in
  let cancellation :=
    match cause with
    | OutboundQueueOverflow | JournalGap => Some (prepare_pending_text_edit_cancellation (inner s) c edits)
    | ReplacedIncarnation => None
    end in
  PlanResync
    (mkResyncPlan (session_id s) snapshot_revision exported.1 exported.2 (continuity cause) (reason cause)
       (match cancellation with
        | Some cancellation => last_contiguous_of (staged_dedupe cancellation) c
        | None => last_contiguous_of (dedupe (inner s)) c
        end)
       (match cancellation with Some cancellation => discarded cancellation | None => [] end)
       (to_string_vec (cap_required (capabilities s))) (to_string_vec (cap_optional (capabilities s)))
       (extension_namespaces s) cancellation).

(** [pub enum ResumeOutcome] and [pub struct ResumeClientBootstrap] *)
Inductive ResumeOutcome :=
| Replay (welcome_msg : ServerResumeOk) (replayed : list Msg.Transaction)
| Resync (resync_msg : ServerResyncRequired) (snapshot_transaction : Msg.Transaction).
Record ResumeClientBootstrap := mkResumeBootstrap {
  rb_outcome : ResumeOutcome;
  rb_snapshot_frames : SnapshotFramePlan;
  rb_transactions : nat;
  rb_terminal_negotiated : bool;
  rb_terminal : TerminalAttach;
}.

Definition resync_message (p : ResyncPlan) (n : N) : ServerResyncRequired :=
  mkResync (pl_session_id p) (pl_snapshot_revision p) (pl_reason p) (pl_continuity p)
    (pl_last_processed_event_seq p) (pl_discarded_text_edits p) (pl_required_profiles p) (pl_optional_profiles p)
    (pl_extension_namespaces p) n.

(** The cancellation a plan commits, and the last [match] on the plan. *)
Definition commit_plan (s : Server) (plan : ResumePlan) : Server :=
  match plan with
  | PlanResync p =>
      match pl_pending_text_edit_cancellation p with
      | Some cancellation => with_inner s (commit_cancellation (inner s) cancellation)
      | None => s
      end
  | PlanReplay _ _ => s
  end.
Definition plan_outcome (plan : ResumePlan) : result HandshakeError (ResumeOutcome * SnapshotFramePlan) :=
  match plan with
  | PlanReplay welcome_msg replayed => Ok (Replay welcome_msg replayed, single 0)
  | PlanResync p =>
      n ← announced_parts (pl_snapshot_frames p);
      Ok (Resync (resync_message p n) (pl_snapshot_transaction p), pl_snapshot_frames p)
  end.
Definition is_replaced (plan : ResumePlan) : bool :=
  match plan with
  | PlanResync p => match pl_continuity p with Replaced => true | _ => false end
  | PlanReplay _ _ => false
  end.

(** [bootstrap_resume_with_exporter], once the plan is made and the mutex held. *)
Definition finish_resume (s : Server) (streams : list (NodeId * OutputRing)) (resume : ClientResume)
    (terminal_negotiated : bool) (plan : result HandshakeError ResumePlan)
    : Server * result HandshakeError ResumeClientBootstrap :=
  let c := cr_client_instance_id resume in
  match plan with
  | Ok plan =>
      let max_res :=
        match cr_limits resume with
        | Some _ => negotiated_max_resource_size (sl_max_resource_size (server_limits s)) (cr_limits resume)
        | None => default (sl_max_resource_size (server_limits s)) (client_resource_ceilings s !! c)
        end in
      match subscribe_client_locked s c (cr_known_resource_hashes resume) max_res with
      | (s1, Ok receiver) =>
          (commit_plan (negotiated s1) plan,
           terminal ← attach_terminals streams (cr_terminal_stream_offsets resume) (is_replaced plan);
           '(outcome, frames) ← plan_outcome plan;
           Ok (mkResumeBootstrap outcome frames receiver terminal_negotiated terminal))
      | (s1, Err e) => (s1, Err e)
      | (s1, Panic) => (s1, Panic)
      | (s1, Diverge) => (s1, Diverge)
      end
  | Err e => (s, Err e)
  | Panic => (s, Panic)
  | Diverge => (s, Diverge)
  end.

Definition resync_result (s : Server) (resume : ClientResume) (edits : list ValidatedPendingTextEditRef)
    (cause : ResyncCause) (snapshot_revision : N) (export : result SnapshotError (Msg.Transaction * SnapshotFramePlan))
    : result HandshakeError ResumePlan :=
  exported ← map_err HsSnapshot export;
  Ok (plan_resync s resume edits cause snapshot_revision exported).

(** The server as the [k]th acquisition subscribes: its hub has moved on since the
    stale marker was looked at. *)
Definition subscribing (locks : nat → Server) (meanwhile : nat → OutboundHub → OutboundHub) (k : nat) : Server :=
  with_hub (locks k) (meanwhile k (outbound_hub (locks k))).

(** The loop, [attempts] optimistic exports before the one under the lock. *)
Fixpoint bootstrap_resume_loop (attempts : nat) (locks : nat → Server)
    (meanwhile : nat → OutboundHub → OutboundHub) (streams : list (NodeId * OutputRing)) (k : nat) (resume : ClientResume) (edits : list ValidatedPendingTextEditRef)
    : nat * (Server * result HandshakeError ResumeClientBootstrap) :=
  let s := locks k in
  match negotiate_client s (cr_core_version resume) (cr_profiles resume) with
  | Ok negotiated =>
      let terminal_negotiated := bool_decide (terminal_v1 ∈ negotiated) in
      match determine_resync_cause resume s with
      | None => (k, finish_resume (subscribing locks meanwhile k) streams resume terminal_negotiated (plan_replay s resume))
      | Some cause =>
          let snapshot_revision := revision (store (inner s)) in
          let export := export_and_plan (sl_max_frame_size (server_limits s)) (cr_limits resume)
                          (clone_staging (store (inner s))) in
          match attempts with
          | O => (k, finish_resume (subscribing locks meanwhile k) streams resume terminal_negotiated
                       (resync_result s resume edits cause snapshot_revision export))
          | S attempts =>
              match export with
              | Panic => (k, (s, Panic))
              | Diverge => (k, (s, Diverge))
              | _ =>
                  let s' := locks (S k) in
                  if negb (revision (store (inner s')) =? snapshot_revision)%N ||
                     bool_decide (determine_resync_cause resume s' ≠ Some cause)
                  then bootstrap_resume_loop attempts locks meanwhile streams (S (S k)) resume edits
                  else (S k, finish_resume (subscribing locks meanwhile (S k)) streams resume terminal_negotiated
                               (resync_result s' resume edits cause snapshot_revision export))
              end
          end
      end
  | Err e => (k, (s, Err e))
  | Panic => (k, (s, Panic))
  | Diverge => (k, (s, Diverge))
  end.

(** [Session::bootstrap_resume]; the checks before the first lock leave the
    server as it is. *)
Definition check_resume (resume : ClientResume) : result HandshakeError (list ValidatedPendingTextEditRef) :=
  validate_client_instance_id (cr_client_instance_id resume) ≫= λ _,
  err_if (MAX_TERMINAL_RESUME_MAP_ENTRIES <? map_len (cr_terminal_stream_offsets resume))%N
    (HsInvalidInput (TooManyTerminalOffsets (map_len (cr_terminal_stream_offsets resume)))) ≫= λ _,
  map_err (λ e, HsInvalidInput (PendingEdits e)) (validate_pending_text_edit_refs (cr_pending_text_edits resume)).
Definition bootstrap_resume (locks : nat → Server) (meanwhile : nat → OutboundHub → OutboundHub)
    (streams : list (NodeId * OutputRing)) (resume : ClientResume) : nat * (Server * result HandshakeError ResumeClientBootstrap) :=
  match check_resume resume with
  | Ok edits => bootstrap_resume_loop MAX_OPTIMISTIC_SNAPSHOT_EXPORT_ATTEMPTS locks meanwhile streams 0 resume edits
  | Err e => (0, (locks 0, Err e))
  | Panic => (0, (locks 0, Panic))
  | Diverge => (0, (locks 0, Diverge))
  end.
End bootstrap.
