(* ===== verification/HandshakeFacts.v ===== *)
(** * Catching up without a gap

    A handshake subscribes in the critical section in which it last looked at
    the store, and what it exported outside the mutex is the store of that
    section: between the two no revision was committed.  Whatever it prepares is
    therefore followed by exactly the transactions published from then on. *)

From S2P Require Import Prelude.
From S2P Require Import Values.
From S2P Require Import Limits.
From S2P Require Import Store.
From S2P Require Import StoreFacts.
From S2P Require Import StoreInv.
From S2P Require Import Transaction.
From S2P Require Import TransactionFacts.
From S2P Require Import Wire.
From S2P Require Import SnapshotFraming.
From S2P Require Import SnapshotFramingFacts.
From S2P Require Import Snapshot.
From S2P Require Import SnapshotFacts.
From S2P Require Import Journal.
From S2P Require Import Dedupe.
From S2P Require Import Event.
From S2P Require Import TextTracker.
From S2P Require Import Resources.
From S2P Require Import Outbound.
From S2P Require Import Session.
From S2P Require Import SessionFacts.
From S2P Require Import Replication.
From S2P Require Import OutboundFacts.
From S2P Require Import Terminal.
From S2P Require Import TerminalFacts.
From S2P Require Import Capability.
From S2P Require Import Extensions.
From S2P Require Import ExtensionsFacts.
From S2P Require Import Handshake.

Section handshakes.
Context `{Registry, EventRegistry, PropertyIter, Diagnostics, Digest, ItemEncoding, Encoding, HashOrder}.

(** ** The server between the acquisitions *)

(** What the lock acquisitions find: each state follows from the one before by
    critical sections of the session, whose application is only asked not to
    decide a text edit at the last revision.  The rest of the server is arbitrary. *)
Record interleaved (locks : nat → Server) : Prop := {
  il_wf : session_wf (inner (locks 0));
  il_run : ∀ k, ∃ l, session_run InRange (inner (locks k)) l (inner (locks (S k)));
}.

Lemma interleaved_run locks j k : interleaved locks → j ≤ k →
  session_wf (inner (locks j)) ∧ ∃ l, session_run InRange (inner (locks j)) l (inner (locks k)).
Proof.
  intros [Hwf Hrun] Hjk.
  assert (∀ k, session_wf (inner (locks k))) as Hall.
  { intros i. induction i as [|i IH]; [done|]. destruct (Hrun i) as (l & Hl). by apply session_run_ok in Hl as []. }
  split; [done|]. induction Hjk as [|k Hjk [l IH]]; [exists []; constructor|].
  destruct (Hrun k) as (l' & Hl'). exists (l ++ l'). by eapply session_run_trans.
Qed.

(** While the revision stands still, so does the store. *)
Lemma same_revision_same_store q s l s' : q ≠ AnyConduct → session_wf s → session_run q s l s' →
  revision (store s') = revision (store s) → store s' = store s.
Proof.
  intros Hq Hs Hr Hrev. pose proof (session_run_revision _ _ _ _ Hq Hs Hr) as Hl.
  assert (l = []) as -> by (destruct l; [done|rewrite len_cons in Hl; lia]).
  by apply (session_run_ok _ _ _ _ Hq Hs Hr).
Qed.

Lemma interleaved_same_store locks j k : interleaved locks → j ≤ k →
  revision (store (inner (locks k))) = revision (store (inner (locks j))) →
  store (inner (locks k)) = store (inner (locks j)).
Proof.
  intros Hil Hjk Hrev. destruct (interleaved_run locks j k Hil Hjk) as (Hwf & l & Hr).
  by eapply (same_revision_same_store InRange).
Qed.

(** ** Subscribing *)

(** The lane a handshake opens: empty and first to receive what comes next. *)
Record opened (s : Server) (c : Bytes) (max_res : N) (receiver : nat) (s' : Server) : Prop := {
  op_lane : ∃ q, subscribers (outbound_hub s') !! receiver =
    Some (mkSub c (mkSubscriber (outbound_queue_capacity s) (sl_max_transaction_operations (server_limits s))
            (sl_max_frame_size (server_limits s)) max_res [] None q 0 None false) true);
  op_stale : stale_clients (outbound_hub s') = stale_clients (outbound_hub s);
  op_open : hub_closed (outbound_hub s') = false;
  op_ceiling : client_resource_ceilings s' !! c = Some max_res;
  op_inner : inner s' = inner s;
}.

Lemma seed_state_items st entries known : is_closed st = false →
  ∃ q, seed_state st entries known = with_resources st q.
Proof.
  intros Hc. unfold seed_state. rewrite Hc. revert st Hc.
  induction entries as [|e entries IH]; intros st Hc; cbn.
  { exists (resources st). by destruct st. }
  case_bool_decide; [by apply IH|].
  assert (∃ q, maybe_enqueue_resource st e = with_resources st q) as [q ->].
  { unfold maybe_enqueue_resource. destruct (_ <? _)%N; [exists (resources st); by destruct st|by eexists]. }
  destruct (IH (with_resources st q) Hc) as [q' ->]. by exists q'.
Qed.

Lemma subscribe_client_locked_spec s c hashes max_res :
  match subscribe_client_locked s c hashes max_res with
  | (s', Ok receiver) => opened s c max_res receiver s' ∧ has_negotiated s' = has_negotiated s
  | (s', Err _) => s' = with_ceilings s (client_resource_ceilings s') ∧
      (outbound_queue_capacity s = 0%N ∨ hub_closed (outbound_hub s) = true)
  | _ => False
  end.
Proof.
  unfold subscribe_client_locked. destruct (subscribe _ _ _ _ _ _) as [h|] eqn:Hsub.
  - unfold subscribe in Hsub. destruct (_ || _) eqn:Hg; [done|]. injection Hsub as <-.
    apply orb_false_iff in Hg as [_ Hopen]. cbn [subscribers]. rewrite length_app. cbn [length].
    set (old := filter _ _). rewrite Nat.add_1_r. cbn [Nat.pred].
    split; [|done]. unfold seed_resources_excluding. split.
    + case_bool_decide as He.
      * eexists. cbn. rewrite lookup_app_r, Nat.sub_diag by done. reflexivity.
      * cbn [outbound_hub with_hub subscribers]. rewrite list_lookup_alter_eq, lookup_app_r, Nat.sub_diag by done.
        match goal with |- context [seed_state _ ?es ?kn] =>
          destruct (seed_state_items (Subscriber_new (outbound_queue_capacity s)
            (sl_max_transaction_operations (server_limits s)) (sl_max_frame_size (server_limits s)) max_res)
            es kn eq_refl) as [q Hq] end.
        exists q. cbn [lookup list_lookup fmap option_fmap option_map sub_state sub_client sub_alive].
        by rewrite Hq.
    + by case_bool_decide.
    + by case_bool_decide.
    + case_bool_decide; cbn; unfold remember_client_resource_ceiling; by rewrite lookup_insert_eq.
    + by case_bool_decide.
  - split; [done|]. unfold subscribe in Hsub. destruct (_ || _) eqn:Hg; [|done].
    apply orb_true_iff in Hg as [?%N.eqb_eq|?]; auto.
Qed.

(** ** Negotiation *)

Lemma parses_cons s offered p : is_ok (profile_parse s) = false →
  (∃ s', s' ∈ offered ∧ profile_parse s' = Ok p) ↔ (∃ s', s' ∈ s :: offered ∧ profile_parse s' = Ok p).
Proof.
  intros Hs. split; intros (s' & Hin & Hp).
  - exists s'. split; [by right|done].
  - apply elem_of_cons in Hin as [->|]; [by rewrite Hp in Hs|by exists s'].
Qed.

Lemma elem_of_client_capabilities offered p :
  p ∈ client_capabilities offered ↔ ∃ s, s ∈ offered ∧ profile_parse s = Ok p.
Proof.
  unfold client_capabilities. enough (∀ caps : CapabilitySet,
    p ∈ foldl (λ (caps : CapabilitySet) s, match profile_parse s with Ok p => {[p]} ∪ caps | _ => caps end) caps offered
    ↔ p ∈ caps ∨ ∃ s, s ∈ offered ∧ profile_parse s = Ok p) as Hall.
  { rewrite Hall, elem_of_empty. split; [by intros [[]|?]|by right]. }
  induction offered as [|s offered IH]; intros caps; cbn.
  { split; [by left|]. intros [?|(s & Hs & _)]; [done|by apply elem_of_nil in Hs]. }
  rewrite IH. destruct (profile_parse s) as [q|e| |] eqn:Hp; [rewrite elem_of_union, elem_of_singleton|..].
  - split.
    + intros [[->|?]|(s' & ? & ?)]; [right; exists s; split; [left|done]|by left|right; exists s'; split; [by right|done]].
    + intros [?|(s' & [->|?]%elem_of_cons & Hs')]; [by left; right|left; left; congruence|right; by exists s'].
  - apply or_iff_compat_l. apply parses_cons. by rewrite Hp.
  - apply or_iff_compat_l. apply parses_cons. by rewrite Hp.
  - apply or_iff_compat_l. apply parses_cons. by rewrite Hp.
Qed.

(** What a client that is let in agreed on. *)
Lemma negotiate_client_spec s v offered :
  match negotiate_client s v offered with
  | Ok caps =>
      core_version_is_compatible v = true ∧ cap_required (capabilities s) ⊆ client_capabilities offered ∧
      (∀ p, p ∈ caps ↔ p ∈ cap_required (capabilities s) ∨
         p ∈ cap_optional (capabilities s) ∧ p ∈ client_capabilities offered) ∧
      contract (capabilities s) (extension_namespaces s)
  | Err (HsUnsupportedCoreVersion requested supported) =>
      core_version_is_compatible v = false ∧ requested = v ∧ supported = CORE_VERSION
  | Err (HsNegotiation (UnsatisfiedRequiredProfiles missing)) => missing ≠ [] ∧
      ∀ p, p ∈ missing ↔ p ∈ cap_required (capabilities s) ∧ p ∉ client_capabilities offered
  | Err (HsInvalidConfiguration _) => ¬ contract (capabilities s) (extension_namespaces s)
  | _ => False
  end.
Proof.
  unfold negotiate_client. destruct (core_version_is_compatible v); [|done]. cbn [negb err_if mbind result_bind].
  pose proof (negotiate_spec (client_capabilities offered) (cap_required (capabilities s))
    (cap_optional (capabilities s))) as Hn. unfold server_negotiate.
  destruct (negotiate _ _ _) as [caps|[missing]| |]; [|done..]. cbn [map_err mbind result_bind].
  pose proof (validate_contract_spec s) as Hc.
  assert (returns (validate_extension_namespace_contract s)) as Hret by apply validate_contract_returns.
  destruct (validate_extension_namespace_contract s) as [[]|e| |]; [| |done..]; cbn.
  - destruct Hn. split_and!; try done. by apply Hc.
  - intros Hcon%Hc. done.
Qed.

(** ** Fresh clients *)

Lemma negotiate_hello_Ok s hello welcome clone tn : negotiate_hello s hello = Ok (welcome, clone, tn) →
  ∃ caps, negotiate_client s (ch_core_version hello) (ch_profiles hello) = Ok caps ∧
    tn = bool_decide (terminal_v1 ∈ caps) ∧ sw_initial_revision welcome = revision (store (inner s)) ∧
    sw_session_id welcome = session_id s ∧ sw_extension_namespaces welcome = extension_namespaces s ∧
    clone = (if (0 <? revision (store (inner s)))%N then Some (store (inner s)) else None).
Proof.
  unfold negotiate_hello. intros Heq. apply bind_unit_Ok in Heq as [_ Heq].
  apply bind_Ok in Heq as (caps & Hc & [= <- <- <-]). exists caps. cbn. by rewrite clone_staging_id.
Qed.

(** Where the loop from lock [k] ends: at a state it leaves alone, or subscribing
    in one whose revision is that of the last hello it evaluated. *)
Definition fresh_end (locks : nat → Server) (streams : list (NodeId * OutputRing)) (hello : ClientHello)
    (k k' : nat) (s' : Server) (r : result HandshakeError FreshClientBootstrap) : Prop :=
  (s' = locks k' ∧ is_ok r = false) ∨
  ∃ j welcome clone tn, k ≤ j ≤ k' ∧ negotiate_hello (locks j) hello = Ok (welcome, clone, tn) ∧
    revision (store (inner (locks k'))) = revision (store (inner (locks j))) ∧
    finish_fresh (locks k') streams hello welcome tn (fresh_export hello welcome clone) = (s', r).

Lemma fresh_end_weaken locks streams hello j k k' s' r : j ≤ k →
  fresh_end locks streams hello k k' s' r → fresh_end locks streams hello j k' s' r.
Proof. intros Hj [?|(i & w & c & t & ? & ?)]; [by left|]. right. exists i, w, c, t. split; [lia|done]. Qed.

Lemma fresh_loop_spec attempts locks streams hello : ∀ k k' s' r,
  bootstrap_fresh_loop attempts locks streams k hello = (k', (s', r)) →
  k ≤ k' ≤ k + 2 * attempts ∧ fresh_end locks streams hello k k' s' r.
Proof.
  induction attempts as [|attempts IH]; intros k k' s' r; cbn [bootstrap_fresh_loop];
    destruct (negotiate_hello (locks k) hello) as [[[welcome clone] tn]|e| |] eqn:Hn;
    try (intros [= <- <- <-]; split; [lia|by left]).
  { intros [= <- Heq]. split; [lia|]. right. exists k, welcome, clone, tn. by split_and!. }
  pose proof (negotiate_hello_Ok _ _ _ _ _ Hn) as (_ & _ & _ & Hrev & _).
  set (export := fresh_export hello welcome clone).
  assert ((let s1 := locks (S k) in
    if negb (revision (store (inner s1)) =? sw_initial_revision welcome)%N
    then bootstrap_fresh_loop attempts locks streams (S (S k)) hello
    else (S k, finish_fresh s1 streams hello welcome tn export)) = (k', (s', r)) →
    k ≤ k' ≤ k + 2 * S attempts ∧ fresh_end locks streams hello k k' s' r) as Hstep.
  { cbn zeta.
    destruct (N.eqb_spec (revision (store (inner (locks (S k))))) (sw_initial_revision welcome)) as [Hsame|_]; cbn [negb].
    - intros [= <- Heq]. split; [lia|]. right. exists k, welcome, clone, tn. split_and!; done || lia || congruence.
    - intros Heq. destruct (IH _ _ _ _ Heq) as (Hk & Hres). split; [lia|].
      apply (fresh_end_weaken _ _ _ _ (S (S k))); [lia|done]. }
  destruct export as [x|x| |]; try exact Hstep; intros [= <- <- <-]; (split; [lia|by left]).
Qed.

Lemma fresh_export_Ok hello welcome clone x : fresh_export hello welcome clone = Ok x →
  match clone with
  | None => x = None
  | Some st => ∃ tx plan, x = Some (tx, plan) ∧ export_snapshot_transaction st = Ok tx ∧
      plan_snapshot_delivery tx (match sw_limits welcome with Some l => sl_max_frame_size l | None => 0%N end)
        (ch_limits hello) = Ok plan
  end.
Proof.
  unfold fresh_export. destruct clone as [st|]; [|by intros [= <-]].
  unfold export_and_plan. destruct (export_snapshot_transaction st) as [tx|e| |]; [|done..]. cbn.
  destruct (plan_snapshot_delivery _ _ _) as [plan|e| |] eqn:Hp; [|done..]. cbn. intros [= <-]. eauto.
Qed.

(** Terminals refuse only too many offsets. *)
Lemma attach_terminals_Err streams offsets ignore e : attach_terminals streams offsets ignore = Err e →
  (MAX_TERMINAL_RESUME_MAP_ENTRIES < map_len offsets)%N.
Proof.
  unfold attach_terminals. destruct (N.ltb_spec MAX_TERMINAL_RESUME_MAP_ENTRIES (map_len offsets)); [done|]. cbn.
  by destruct (try_fold _ _ _).
Qed.

Lemma finish_fresh_spec s streams hello welcome tn export :
  match finish_fresh s streams hello welcome tn export with
  | (s', Ok b) => ∃ x n s1, export = Ok x ∧ fb_snapshot b = fst <$> x ∧
      fb_snapshot_frames b = match x with Some (_, plan) => plan | None => single 0 end ∧
      announced_parts (E:=HandshakeError) (fb_snapshot_frames b) = Ok n ∧ fb_welcome b = with_parts welcome n ∧
      fb_terminal_negotiated b = tn ∧ attach_terminals streams ∅ false = Ok (fb_terminal b) ∧
      opened s (ch_client_instance_id hello)
        (negotiated_max_resource_size (sl_max_resource_size (server_limits s)) (ch_limits hello))
        (fb_transactions b) s1 ∧ s' = negotiated s1
  | (s', Err _) => s' = with_ceilings s (client_resource_ceilings s')
  | _ => True
  end.
Proof.
  unfold finish_fresh. destruct export as [x|e| |]; cbn [map_err]; [|by destruct s|done..].
  set (frames := match x with Some (_, plan) => plan | None => single 0 end).
  destruct (announced_parts frames) as [n|e| |] eqn:Hn; [|by destruct s|done..].
  pose proof (subscribe_client_locked_spec s (ch_client_instance_id hello) (ch_known_resource_hashes hello)
    (negotiated_max_resource_size (sl_max_resource_size (server_limits s)) (ch_limits hello))) as Hsub.
  destruct (subscribe_client_locked _ _ _ _) as [s1 [receiver|e| |]]; [|by apply Hsub|done..].
  destruct Hsub as [Hsub _].
  destruct (attach_terminals streams ∅ false) as [t|e| |] eqn:Ht; cbn; try done.
  - exists x, n, s1. by split_and!.
  - by apply attach_terminals_Err in Ht.
Qed.

(** ** Resuming clients *)

(** The ceiling a resuming client's lane is opened with. *)
Definition resume_ceiling (s : Server) (resume : ClientResume) : N :=
  match cr_limits resume with
  | Some _ => negotiated_max_resource_size (sl_max_resource_size (server_limits s)) (cr_limits resume)
  | None => default (sl_max_resource_size (server_limits s))
              (client_resource_ceilings s !! cr_client_instance_id resume)
  end.

Lemma plan_outcome_Err p e : plan_outcome p ≠ Err e.
Proof. destruct p as [|p]; cbn; [done|]. unfold announced_parts, part_count. by case_match. Qed.

Lemma finish_resume_spec s streams resume tn plan :
  (map_len (cr_terminal_stream_offsets resume) ≤ MAX_TERMINAL_RESUME_MAP_ENTRIES)%N →
  match finish_resume s streams resume tn plan with
  | (s', Ok b) => ∃ p s1, plan = Ok p ∧
      opened s (cr_client_instance_id resume) (resume_ceiling s resume) (rb_transactions b) s1 ∧
      s' = commit_plan (negotiated s1) p ∧ plan_outcome p = Ok (rb_outcome b, rb_snapshot_frames b) ∧
      attach_terminals streams (cr_terminal_stream_offsets resume) (is_replaced p) = Ok (rb_terminal b) ∧
      rb_terminal_negotiated b = tn
  | (s', Err _) => s' = with_ceilings s (client_resource_ceilings s')
  | _ => True
  end.
Proof.
  intros Hoff. unfold finish_resume. destruct plan as [p|e| |]; [|by destruct s|done..].
  fold (resume_ceiling s resume).
  pose proof (subscribe_client_locked_spec s (cr_client_instance_id resume) (cr_known_resource_hashes resume)
    (resume_ceiling s resume)) as Hsub.
  destruct (subscribe_client_locked _ _ _ _) as [s1 [receiver|e| |]]; [|by apply Hsub|done..].
  destruct Hsub as [Hsub _].
  destruct (attach_terminals streams (cr_terminal_stream_offsets resume) (is_replaced p)) as [t|e| |] eqn:Ht; cbn; try done.
  2: { apply attach_terminals_Err in Ht. lia. }
  destruct (plan_outcome p) as [[o f]|e| |] eqn:Ho; cbn; try done.
  - exists p, s1. by split_and!.
  - by apply plan_outcome_Err in Ho.
Qed.

Definition resync_export (s : Server) (resume : ClientResume) : result SnapshotError (Msg.Transaction * SnapshotFramePlan) :=
  export_and_plan (sl_max_frame_size (server_limits s)) (cr_limits resume) (store (inner s)).

(** Where the loop from lock [k] ends: at a state it leaves alone, or with the
    decision of the state it subscribes in. *)
Definition resume_end (locks : nat → Server) (meanwhile : nat → OutboundHub → OutboundHub)
    (streams : list (NodeId * OutputRing)) (resume : ClientResume) (edits : list ValidatedPendingTextEditRef) (k k' : nat) (s' : Server)
    (r : result HandshakeError ResumeClientBootstrap) : Prop :=
  (s' = locks k' ∧ is_ok r = false) ∨
  ∃ j caps, k ≤ j ≤ k' ∧ negotiate_client (locks j) (cr_core_version resume) (cr_profiles resume) = Ok caps ∧
    let finish := finish_resume (subscribing locks meanwhile k') streams resume (bool_decide (terminal_v1 ∈ caps)) in
    match determine_resync_cause resume (locks k') with
    | None => j = k' ∧ finish (plan_replay (locks k') resume) = (s', r)
    | Some cause =>
        revision (store (inner (locks k'))) = revision (store (inner (locks j))) ∧
        finish (resync_result (locks k') resume edits cause (revision (store (inner (locks k'))))
                  (resync_export (locks j) resume)) = (s', r)
    end.

Lemma resume_end_weaken locks meanwhile streams resume edits j k k' s' r : j ≤ k →
  resume_end locks meanwhile streams resume edits k k' s' r → resume_end locks meanwhile streams resume edits j k' s' r.
Proof. intros Hj [?|(i & c & ? & ?)]; [by left|]. right. exists i, c. split; [lia|done]. Qed.

Lemma resume_loop_spec attempts locks meanwhile streams resume edits : ∀ k k' s' r,
  bootstrap_resume_loop attempts locks meanwhile streams k resume edits = (k', (s', r)) →
  k ≤ k' ≤ k + 2 * attempts ∧ resume_end locks meanwhile streams resume edits k k' s' r.
Proof.
  induction attempts as [|attempts IH]; intros k k' s' r; cbn [bootstrap_resume_loop];
    destruct (negotiate_client (locks k) _ _) as [caps|e| |] eqn:Hn;
    try (intros [= <- <- <-]; split; [lia|by left]);
    destruct (determine_resync_cause resume (locks k)) as [cause|] eqn:Hcause;
    try (intros [= <- Heq]; split; [lia|]; right; exists k, caps; rewrite Hcause, ?clone_staging_id in *;
         by split_and!).
  rewrite clone_staging_id. fold (resync_export (locks k) resume). set (export := resync_export (locks k) resume).
  assert ((let s1 := locks (S k) in
    if negb (revision (store (inner s1)) =? revision (store (inner (locks k))))%N ||
       bool_decide (determine_resync_cause resume s1 ≠ Some cause)
    then bootstrap_resume_loop attempts locks meanwhile streams (S (S k)) resume edits
    else (S k, finish_resume (subscribing locks meanwhile (S k)) streams resume (bool_decide (terminal_v1 ∈ caps))
            (resync_result s1 resume edits cause (revision (store (inner (locks k)))) export))) = (k', (s', r)) →
    k ≤ k' ≤ k + 2 * S attempts ∧ resume_end locks meanwhile streams resume edits k k' s' r) as Hstep.
  { cbn zeta. destruct (_ || _) eqn:Hretry.
    - intros Heq. destruct (IH _ _ _ _ Heq) as (Hk & Hres). split; [lia|].
      apply (resume_end_weaken _ _ _ _ _ _ (S (S k))); [lia|done].
    - apply orb_false_iff in Hretry as [Hrev%negb_false_iff%N.eqb_eq Hc%bool_decide_eq_false%dec_stable].
      intros [= <- Heq]. split; [lia|]. right. exists k, caps. rewrite Hc. split; [lia|]. split; [done|].
      split; [done|]. by rewrite Hrev. }
  destruct export as [x|x| |]; try exact Hstep; intros [= <- <- <-]; (split; [lia|by left]).
Qed.

(** ** Handshakes return *)

Definition parts_bounded (client : option ClientLimits) : Prop := (client_parts client ≤ u32_max)%N.

Lemma announced_parts_returns {E} (p : SnapshotFramePlan) : (len (parts p) ≤ u32_max)%N →
  ∃ n, announced_parts (E:=E) p = Ok n.
Proof. intros Hp. unfold announced_parts, part_count. rewrite (proj2 (N.ltb_ge _ _) Hp). cbn. eauto. Qed.

Lemma export_and_plan_returns frame client st : store_wf st → parts_bounded client →
  match export_and_plan frame client st with
  | Ok (tx, plan) => (len (parts plan) ≤ u32_max)%N
  | Err _ => True
  | _ => False
  end.
Proof.
  intros Hwf Hc. unfold export_and_plan. assert (match export_snapshot_transaction st with Ok _ | Err _ => True | _ => False end) as He.
  { pose proof (export_cases st) as He. assert (forest (nodes st) (roots st)) as Hf by apply Hwf. specialize (He Hf).
    by destruct (export_snapshot_transaction st). }
  destruct (export_snapshot_transaction st) as [tx|e| |]; [|done..]. cbn [mbind result_bind].
  assert (∀ m n, match map_err SnapshotUndeliverable (plan_snapshot_frames tx m n) with
    | Ok p => (len (parts p) ≤ effective_max_snapshot_parts n)%N | Err _ => True | _ => False end) as Hp.
  { intros m n. pose proof (plan_snapshot_frames_returns tx m n) as Hp. by destruct (plan_snapshot_frames tx m n). }
  assert (returns (plan_snapshot_delivery tx frame client)) as Hret.
  { unfold plan_snapshot_delivery. apply returns_bind; [case_match; [apply returns_err_if|done]|intros _ _].
    match goal with |- returns (map_err _ (plan_snapshot_frames _ ?m ?n)) => specialize (Hp m n) end.
    by destruct (map_err _ _). }
  destruct (plan_snapshot_delivery tx frame client) as [plan|e'| |] eqn:Hd; cbn; [|done..].
  apply plan_delivery_Ok in Hd as (m & Hd & _). specialize (Hp m (client_parts client)). rewrite Hd in Hp. cbn in Hp.
  unfold effective_max_snapshot_parts, parts_bounded, u32_max in *. lia.
Qed.

(** Every stream's ring holds some history. *)
Definition streams_ok (streams : list (NodeId * OutputRing)) : Prop :=
  Forall (λ st, ∃ h, ring_ok h st.2) streams.

Lemma attach_terminals_returns streams offsets ignore : streams_ok streams →
  returns (attach_terminals streams offsets ignore).
Proof.
  intros Hs. unfold attach_terminals. apply returns_bind; [apply returns_err_if|intros _ _].
  set (effective := if ignore then _ else _).
  enough (∀ a, ∃ a', try_fold (attach_stream effective) a streams = Ok a') as Hall.
  { by destruct (Hall (mkAttach [] [])) as [a' ->]. }
  induction Hs as [|[id ring] streams (h & Hh) _ IH]; intros a; cbn [try_fold]; [eauto|].
  destruct (terminal_subscribe_spec h id ring (default 0%N (effective !! NodeId_get id)) Hh) as (snap & Heq & _).
  cbn [snd] in Heq. assert (∃ a1, attach_stream effective a (id, ring) = Ok a1) as [a1 ->].
  { unfold attach_stream. rewrite Heq. by eexists. }
  cbn [mbind result_bind]. apply IH.
Qed.

Lemma negotiate_client_returns s v offered : returns (negotiate_client s v offered).
Proof. pose proof (negotiate_client_spec s v offered) as Hs. by destruct (negotiate_client s v offered). Qed.

Lemma finish_fresh_returns s streams hello welcome tn export : streams_ok streams →
  match export with
  | Ok x => ∀ tx plan, x = Some (tx, plan) → (len (parts plan) ≤ u32_max)%N
  | Err _ => True
  | _ => False
  end → returns (finish_fresh s streams hello welcome tn export).2.
Proof.
  intros Hs He. unfold finish_fresh. destruct export as [x|e| |]; cbn [map_err]; [|done..].
  destruct (announced_parts_returns (E:=HandshakeError) (match x with Some (_, plan) => plan | None => single 0 end))
    as [n ->]. { destruct x as [[tx plan]|]; [by eapply He|]. unfold len, u32_max. cbn. lia. }
  pose proof (subscribe_client_locked_spec s (ch_client_instance_id hello) (ch_known_resource_hashes hello)
    (negotiated_max_resource_size (sl_max_resource_size (server_limits s)) (ch_limits hello))) as Hsub.
  destruct (subscribe_client_locked _ _ _ _) as [s1 [receiver|e| |]]; try done. cbn [snd].
  apply returns_bind; [by apply attach_terminals_returns|done].
Qed.

Lemma fresh_loop_returns attempts locks streams hello : streams_ok streams → parts_bounded (ch_limits hello) →
  (∀ k, session_wf (inner (locks k))) → ∀ k, returns (bootstrap_fresh_loop attempts locks streams k hello).2.2.
Proof.
  intros Hst Hp Hwf. induction attempts as [|attempts IH]; intros k; cbn [bootstrap_fresh_loop];
    assert (returns (negotiate_hello (locks k) hello)) as Hret by
      (unfold negotiate_hello; apply returns_bind; [apply returns_err_if|intros _ _];
       by apply returns_bind; [apply negotiate_client_returns|]);
    destruct (negotiate_hello (locks k) hello) as [[[welcome clone] tn]|e| |] eqn:Hn; try done.
  all: assert (match fresh_export hello welcome clone with
    | Ok x => ∀ tx plan, x = Some (tx, plan) → (len (parts plan) ≤ u32_max)%N
    | Err _ => True | _ => False end) as He.
  1,3: apply negotiate_hello_Ok in Hn as (_ & _ & _ & _ & _ & _ & ->); unfold fresh_export;
    case_match; [|done]; pose proof (export_and_plan_returns
      (match sw_limits welcome with Some l => sl_max_frame_size l | None => 0%N end) (ch_limits hello)
      (store (inner (locks k))) (se_store _ (Hwf k)) Hp) as Hx; destruct (export_and_plan _ _ _) as [[tx plan]|e| |];
    [|done..]; cbn; by intros ? ? [= <- <-].
  - by apply finish_fresh_returns.
  - assert (returns (if negb (revision (store (inner (locks (S k)))) =? sw_initial_revision welcome)%N
      then bootstrap_fresh_loop attempts locks streams (S (S k)) hello
      else (S k, finish_fresh (locks (S k)) streams hello welcome tn (fresh_export hello welcome clone))).2.2) as Hr.
    { destruct (negb _); [apply IH|by apply finish_fresh_returns]. }
    by destruct (fresh_export hello welcome clone).
Qed.

End handshakes.
