(* ===== verification/SessionEvents.v ===== *)
(** * Events through the session

    Each critical section does at most one admission and one settlement in the
    table of receive windows, keeps the text-edit tracker exact, and never hits
    the [expect] of a text-edit commit.  An event whose effect was dispatched is
    answered from the cache from then on. *)

From S2P Require Import Prelude.
From S2P Require Import Values.
From S2P Require Import Limits.
From S2P Require Import Models.
From S2P Require Import ModelFacts.
From S2P Require Import Store.
From S2P Require Import StoreFacts.
From S2P Require Import StoreInv.
From S2P Require Import Transaction.
From S2P Require Import TransactionFacts.
From S2P Require Import Wire.
From S2P Require Import WireFacts.
From S2P Require Import Journal.
From S2P Require Import Dedupe.
From S2P Require Import DedupeFacts.
From S2P Require Import Event.
From S2P Require Import TextTracker.
From S2P Require Import Resources.
From S2P Require Import Session.
From S2P Require Import SessionFacts.
From S2P Require Import Replication.

Section events.
Context `{Registry, EventRegistry, PropertyIter, Diagnostics, Digest}.

Record events_wf (s : SessionInner) : Prop := {
  evw_dedupe : dedupe_wf (dedupe s);
  evw_tracker : tracker_wf (text_edit_tracker s);
}.

(** What one critical section does to the event state. *)
Record event_step (s s' : SessionInner) : Prop := {
  es_dedupe : dedupe_effect (dedupe s) (dedupe s');
  es_tracker : tracker_wf (text_edit_tracker s) → tracker_wf (text_edit_tracker s');
}.

Lemma event_step_wf s s' : event_step s s' → events_wf s → events_wf s'.
Proof. intros [Hd Ht] [Hwd Hwt]. split; [by eapply dedupe_effect_wf|auto]. Qed.

Lemma event_step_same s s' : dedupe s' = dedupe s → text_edit_tracker s' = text_edit_tracker s → event_step s s'.
Proof. intros Hd Ht. split; [rewrite Hd; constructor|by rewrite Ht]. Qed.

Lemma settle_rejected_step s ev e :
  dedupe (settle_rejected_event s ev e).1 = (settle_event (dedupe s) (event_key ev)
    (mkOutcome false (revision (store s))
       (bound_diagnostic_string (validation_message e) (max_string_length (limits (store s)))))).1 ∧
  text_edit_tracker (settle_rejected_event s ev e).1 = text_edit_tracker s.
Proof. unfold settle_rejected_event. by destruct (settle_event _ _ _). Qed.

Lemma settle_rejected_event_step s ev e : event_step s (settle_rejected_event s ev e).1.
Proof.
  destruct (settle_rejected_step s ev e) as [Hd Ht]. split; [rewrite Hd; constructor|by rewrite Ht].
Qed.

Lemma reject_reserved_step s ev node seq e : event_step s (reject_reserved s ev node seq e).1.
Proof.
  unfold reject_reserved. set (s1 := with_tracker s _).
  destruct (settle_rejected_step s1 ev e) as [Hd Ht].
  split; [rewrite Hd; apply (eff_settle (dedupe s))|]. rewrite Ht. apply mark_terminal_wf.
Qed.

(** Reserving: at most a rejection settled. *)
Lemma reserve_step s ev domain : let s' := (reserve_text_edit s ev domain).1 in
  (dedupe s' = dedupe s ∨ ∃ o, dedupe s' = (settle_event (dedupe s) (event_key ev) o).1) ∧
  (tracker_wf (text_edit_tracker s) → tracker_wf (text_edit_tracker s')).
Proof.
  unfold reserve_text_edit.
  destruct (validate_text_edit s domain) as [seq|e| |]; [| |by split; [left|]..].
  2: { destruct (settle_rejected_step s ev e) as [Hd Ht]. destruct (settle_rejected_event s ev e) as [s' o].
       cbn in *. split; [right; eauto|by rewrite Ht]. }
  set (t := if is_at_capacity _ then _ else _).
  assert (tracker_wf (text_edit_tracker s) → tracker_wf t) as Ht.
  { subst t. destruct (is_at_capacity _); [apply reclaim_departed_wf|done]. }
  destruct (reserve t _ _ seq) as [[t' gen]|e| |] eqn:Hr; [| |by split; [left|]..].
  - split; [by left|]. intros Hwf. by eapply reserve_wf; [apply Ht|].
  - destruct (settle_rejected_step (with_tracker s t) ev e) as [Hd Ht'].
    destruct (settle_rejected_event (with_tracker s t) ev e) as [s' o].
    cbn in *. split; [right; eauto|by rewrite Ht'].
Qed.

Lemma process_event_step s ev : event_step s (process_event s ev).1.
Proof.
  unfold process_event, session_admit_event.
  destruct (admit_event (dedupe s) (event_key (admission_event ev))) as [d r] eqn:Ha.
  pose proof (eff_admit (dedupe s) (event_key (admission_event ev))) as Hadm.
  pose proof (λ k', eff_admit_settle (dedupe s) (event_key (admission_event ev)) k') as Hset.
  rewrite Ha in Hadm, Hset. cbn in Hadm, Hset.
  assert (event_step s (with_dedupe s d)) as Hd by (split; [exact Hadm|done]).
  assert (∀ ev' e, event_step s (settle_rejected_event (with_dedupe s d) ev' e).1) as Hrej.
  { intros ev' e. destruct (settle_rejected_step (with_dedupe s d) ev' e) as [Hd' Ht].
    split; [rewrite Hd'; apply Hset|by rewrite Ht]. }
  destruct r as [[]|e| |]; cbn; try exact Hd.
  destruct (event_from_wire ev) as [domain|e| |]; try exact Hd.
  - case_bool_decide.
    + destruct (reserve_step (with_dedupe s d) ev domain) as [Hdd Htt].
      assert (event_step s (reserve_text_edit (with_dedupe s d) ev domain).1) as Hs.
      { split; [|exact Htt]. destruct Hdd as [->|[o ->]]; [exact Hadm|apply Hset]. }
      by destruct (reserve_text_edit (with_dedupe s d) ev domain) as [s2 [[|[]]| | |]].
    + destruct (validate domain (store s)) as [?|e| |]; try exact Hd.
      specialize (Hrej ev e). by destruct (settle_rejected_event (with_dedupe s d) ev e).
  - specialize (Hrej (admission_event ev) (PolicyRejected ("malformed event: " +:+ wire_message e))).
    by destruct (settle_rejected_event (with_dedupe s d) _ _).
Qed.

Lemma dispatch_event_step s ev kind dispatch : event_step s (dispatch_admitted_event s ev kind dispatch).1.
Proof.
  unfold dispatch_admitted_event.
  assert (∀ t, (tracker_wf (text_edit_tracker s) → tracker_wf t) → event_step s
    (with_tracker (with_dedupe s (settle_event (dedupe s) (event_key ev) (mkOutcome true (revision (store s)) "")).1) t))
    as Hset by (intros t Ht; split; [apply (eff_settle (dedupe s))|exact Ht]).
  assert (∀ e, event_step s (settle_rejected_event s ev e).1) as Hrej by (intros; apply settle_rejected_event_step).
  assert (event_step s (with_dedupe s (abandon_event (dedupe s) (event_key ev)))) as Hab.
  { split; [apply (eff_abandon (dedupe s))|done]. }
  destruct (settle_event (dedupe s) (event_key ev) (mkOutcome true (revision (store s)) "")) as [d n]. cbn [fst] in *.
  destruct dispatch as [|e|], kind; cbn; try (by apply Hset); try (by apply Hset, finish_dispatch_wf); try done.
  specialize (Hrej (PolicyRejected ("event handler failed: " +:+ session_message e))). cbn in Hrej.
  by destruct (settle_rejected_event s ev _).
Qed.

Lemma abandon_event_step s ev node seq : event_step s (abandon_text_edit_after_panic s ev node seq).
Proof. split; [apply (eff_abandon (dedupe s))|apply abandon_reservation_wf]. Qed.

Lemma install_step s st permit del : event_step s (install s st permit del).
Proof. split; [apply (eff_none (dedupe s))|]. cbn. destruct del; [apply reclaim_missing_nodes_wf|done]. Qed.

Lemma commit_text_edit_step s ev node seq text gen d :
  event_step s (commit_text_edit_decision s ev node seq text gen d).1.
Proof.
  unfold commit_text_edit_decision.
  assert (event_step s s) as Hrefl by by apply event_step_same.
  assert (∀ err, event_step s (let '(s', o) := reject_reserved s ev node seq err in
    (s', Ok (E:=SessionError) (TSettled o))).1) as Hrej.
  { intros err. pose proof (reject_reserved_step s ev node seq err). by destruct (reject_reserved _ _ _ _ _). }
  destruct (negb _); [done|].
  destruct (revalidate_editor_for_commit s node); [|done..].
  destruct (negb _); [done|]. destruct (decide_text_edit s node text d) as [[[value validation] acc] reason].
  destruct (_ <? _)%N; [done|]. destruct (ui_run _ _) as [ui' [[]|e| |]]; [|done..].
  destruct (prepare _ _) as [permit|e| |]; [|done..].
  set (s1 := install _ _ _ _). set (t1 := mark_terminal _ _ _ _).
  assert (tracker_wf (text_edit_tracker s) → tracker_wf t1) as Ht by (intros; by apply mark_terminal_wf).
  destruct acc.
  - destruct (begin_committed_handler_dispatch t1 ev) as [t2|e| |] eqn:Hb;
      (split; [apply (eff_none (dedupe s))|]); cbn; try exact Ht.
    intros Hwf. eapply begin_dispatch_wf; [by apply Ht|done].
  - pose proof (eff_settle (dedupe s) (event_key ev)
      (mkOutcome false (revision (store (with_tracker s1 t1)))
        (bound_diagnostic_string reason (max_string_length (limits (store s)))))) as Heff.
    cbn [dedupe with_tracker s1 install] in *.
    destruct (settle_event (dedupe s) _ _) as [d' n]. split; [exact Heff|exact Ht].
Qed.

Lemma cancel_event_effect d k o : dedupe_effect d (cancel_event d k o).
Proof.
  unfold cancel_event. pose proof (eff_admit d k) as Ha. pose proof (eff_admit_settle d k k o) as Hs.
  by destruct (admit_event d k) as [d' [[]|e| |]].
Qed.

(** Every step of the session keeps the event state well formed. *)
Lemma session_step_events q s f l s' : session_wf s → session_step q s f l s' → event_step s s'.
Proof.
  intros Hs Hstep. destruct Hstep; try (by apply event_step_same).
  - unfold attach. destruct (is_terminal (state s)); by apply event_step_same.
  - apply process_event_step.
  - apply dispatch_event_step.
  - apply abandon_event_step.
  - split; [apply cancel_event_effect|done].
  - match goal with Heq : commit_transaction _ _ = _ |- _ => apply commit_transaction_Ok in Heq end; [|done].
    match goal with Hex : ∃ _, _ |- _ => destruct Hex as (txn & st & _ & _ & _ & _ & _ & _ & _ & ->) end.
    apply install_step.
  - match goal with Hc : transaction_with_result _ _ = _ |- _ =>
      apply transaction_with_result_Ok in Hc as (ui' & _ & _ & _ & ->) end; [|done].
    apply install_step.
  - pose proof (commit_text_edit_step s ev node seq text gen d) as Hst.
    by match goal with Heq : commit_text_edit_decision _ _ _ _ _ _ _ = _ |- _ => rewrite Heq in Hst end.
Qed.

(** ** A text-edit commit never panics *)

Lemma ui_run_returns ui ops : store_wf (ui_staged ui) → Forall op_bounded ops → returns (ui_run ui ops).2.
Proof.
  intros Hwf Hops. revert ui Hwf. induction Hops as [|op ops Hop _ IH]; intros ui Hwf; cbn; [done|].
  unfold ui_apply_op, record_op, err_if. cbn. destruct (_ <? _)%N; cbn; [done|].
  pose proof (apply_returns _ op Hwf Hop) as Hr. pose proof (apply_wf _ op Hwf) as Hwf'.
  destruct (apply (ui_staged ui) op) as [st [[]| | |]]; cbn in *; [by apply IH|done..].
Qed.

Lemma revalidate_returns s id : returns (revalidate_editor_for_commit s id).
Proof.
  unfold revalidate_editor_for_commit. apply returns_bind; [apply returns_ok_or|intros n _].
  apply returns_bind; [apply returns_err_if|intros _ _]. by repeat case_match.
Qed.

Lemma reject_reserved_returns s ev node seq e :
  returns (let '(s', o) := reject_reserved s ev node seq e in (s', Ok (E:=SessionError) (TSettled o))).2.
Proof. by destruct (reject_reserved s ev node seq e). Qed.

(** The generation the client still holds proves its tracker state is there. *)
Lemma generation_held t c node gen : (1 ≤ gen)%N → default 0%N (generation_of t c node) = gen →
  is_Some (streams t !! c).
Proof.
  intros Hgen. unfold generation_of, stream_of. destruct (streams t !! c); [by eauto|]. cbn. lia.
Qed.

Lemma commit_text_edit_returns s ev node seq text gen d :
  session_wf s → (1 ≤ gen)%N → returns (commit_text_edit_decision s ev node seq text gen d).2.
Proof.
  intros Hs Hgen. unfold commit_text_edit_decision.
  destruct (negb (is_in_flight _ _ _)); [done|].
  pose proof (revalidate_returns s node) as Hrev.
  destruct (revalidate_editor_for_commit s node); [|apply reject_reserved_returns|done..].
  destruct (N.eqb_spec (default 0%N (generation_of (text_edit_tracker s) (we_client_instance_id ev) node)) gen)
    as [Hg|]; cbn [negb]; [|apply reject_reserved_returns].
  destruct (decide_text_edit s node text d) as [[[value validation] acc] reason].
  destruct (_ <? _)%N; [apply reject_reserved_returns|].
  pose proof (ui_run_returns (UiTransaction_new (clone_staging (store s))
    (max_transaction_operations (limits (store s)))) (text_edit_ops node value validation)) as Hrun.
  cbn [ui_staged UiTransaction_new] in Hrun. rewrite clone_staging_id in *.
  specialize (Hrun (se_store _ Hs) ltac:(by repeat constructor)).
  destruct (ui_run _ _) as [ui' [[]|e| |]]; [|apply reject_reserved_returns|done..].
  destruct (prepare _ _) as [permit|e| |] eqn:Hp; [|apply reject_reserved_returns|..].
  - destruct acc; [|by destruct (settle_event _ _ _)].
    unfold begin_committed_handler_dispatch. cbn. rewrite lookup_alter_eq.
    apply generation_held in Hg as [cl ->]; [|done]. done.
  - unfold prepare, check_contiguity, err_if in Hp. by destruct (_ && _).
  - unfold prepare, check_contiguity, err_if in Hp. by destruct (_ && _).
Qed.

(** What [reserve_text_edit] hands to the policy fits. *)
Lemma reserve_text_edit_generation s ev domain s' edit_seq gen :
  reserve_text_edit s ev domain = (s', Ok (inr (edit_seq, gen))) → (1 ≤ gen)%N.
Proof.
  unfold reserve_text_edit. destruct (validate_text_edit s domain) as [seq|e| |]; try done.
  2: { by destruct (settle_rejected_event s ev e). }
  set (t := if is_at_capacity _ then _ else _).
  destruct (reserve t _ _ seq) as [[t' g]|e| |] eqn:Hr; try done.
  - intros [= <- <- <-]. apply reserve_Ok in Hr as (Hsome & Hnone & _).
    destruct (stream_of t _ _) as [st|]; [destruct (Hsome st eq_refl); lia|destruct (Hnone eq_refl); lia].
  - by destruct (settle_rejected_event _ ev e).
Qed.

(** ** Exactly once *)

Definition key_of (ev : WireEvent) (c : Bytes) (seq : N) : Prop :=
  we_client_instance_id ev = c ∧ we_event_seq ev = seq.

(** The session starts on an event's effect. *)
Definition starts (r : result SessionError Continuation) : Prop :=
  match r with Ok (RunHandlers _) | Ok (RunPolicy _ _ _) => True | _ => False end.

(** Only a fresh event is started: its number was never settled, and it is in
    flight from then on. *)
Lemma process_event_starts s ev s' r : dedupe_wf (dedupe s) → process_event s ev = (s', r) → starts r →
  ¬ remembers (dedupe s) (we_client_instance_id ev) (we_event_seq ev) ∧ we_event_id ev ≠ [] ∧
  in_flight (dedupe s') (we_client_instance_id ev) (we_event_id ev) (we_event_seq ev) (ek_type (event_key ev)) ∧
  store s' = store s.
Proof.
  intros Hwf Heq Hst. pose proof (process_uncommitted s ev) as (Hstore & _). rewrite Heq in Hstore.
  cbn [fst] in Hstore. revert Heq. unfold process_event, session_admit_event, admission_event.
  destruct (event_from_wire ev) as [domain|e| |] eqn:Hdom.
  2-4: match goal with |- context [admit_event ?d ?k] => destruct (admit_event d k) as [d1 [[]| | |]] end; cbn;
       try (by intros [= <- <-]); try (destruct (settle_rejected_event _ _ _); by intros [= <- <-]).
  destruct (admit_event (dedupe s) (event_key ev)) as [d1 o] eqn:Ha.
  apply admit_event_spec in Ha as (_ & _ & _ & Hm); [|done].
  destruct o as [[n|n|o n]|e| |]; cbn; try (by intros [= <- <-]). destruct Hm as (Hnr & Hin & Hne).
  case_bool_decide.
  - destruct (reserve_step (with_dedupe s d1) ev domain) as [Hdd _].
    destruct (reserve_text_edit (with_dedupe s d1) ev domain) as [s2 [[|[]]| | |]] eqn:Hres;
      intros [= <- <-]; try done.
    split_and!; [done..| |done]. cbn in Hdd. enough (dedupe s2 = d1) as ->; [done|].
    unfold reserve_text_edit in Hres. destruct (validate_text_edit _ domain); [| |done..].
    + destruct (reserve _ _ _ _) as [[]| | |]; [by injection Hres as <- _| |done..].
      by destruct (settle_rejected_event _ _ _).
    + by destruct (settle_rejected_event _ _ _).
  - destruct (validate domain (store s)) as [?|e| |]; try (by intros [= <- <-]).
    destruct (settle_rejected_event _ ev e). by intros [= <- <-].
Qed.

(** ** In flight *)

Lemma settle_rejected_in_flight s ev e c id q ty : dedupe_wf (dedupe s) → (c, id) ≠ event_name ev →
  in_flight (dedupe s) c id q ty → in_flight (dedupe (settle_rejected_event s ev e).1) c id q ty.
Proof. intros Hwf Hne Hin. destruct (settle_rejected_step s ev e) as [-> _]. by apply settle_event_in_flight. Qed.

Lemma reserve_in_flight s ev domain c id q ty : dedupe_wf (dedupe s) → (c, id) ≠ event_name ev →
  in_flight (dedupe s) c id q ty → in_flight (dedupe (reserve_text_edit s ev domain).1) c id q ty.
Proof.
  intros Hwf Hne Hin. destruct (reserve_step s ev domain) as [[->|[o ->]] _]; [done|]. by apply settle_event_in_flight.
Qed.

(** Processing any event, this one included, leaves what is in flight there. *)
Lemma process_event_in_flight s ev c id q ty : dedupe_wf (dedupe s) →
  in_flight (dedupe s) c id q ty → in_flight (dedupe (process_event s ev).1) c id q ty.
Proof.
  intros Hwf Hin. unfold process_event, session_admit_event.
  set (k := event_key (admission_event ev)).
  pose proof (admit_event_in_flight _ k _ _ _ _ Hwf Hin) as Hin1.
  pose proof (admit_event_evolves (dedupe s) k Hwf) as [Hwf1 _ _].
  destruct (admit_event (dedupe s) k) as [d [[n|n|o n]|e| |]] eqn:Ha; cbn [fst] in *; try exact Hin1.
  assert ((c, id) ≠ event_name (admission_event ev)) as Hne.
  { intros [= -> ->]. by eapply (admit_event_fresh _ _ _ _ q ty Hwf Ha). }
  cbn. destruct (event_from_wire ev) as [domain|e| |] eqn:Hdom; try exact Hin1.
  - assert (admission_event ev = ev) as Hadm by (unfold admission_event; by rewrite Hdom).
    rewrite Hadm in Hne. case_bool_decide.
    + pose proof (reserve_in_flight (with_dedupe s d) ev domain _ _ _ _ Hwf1 Hne Hin1) as Hr.
      by destruct (reserve_text_edit (with_dedupe s d) ev domain) as [s2 [[|[]]| | |]].
    + destruct (validate domain (store s)) as [?|e| |]; try exact Hin1.
      pose proof (settle_rejected_in_flight (with_dedupe s d) ev e _ _ _ _ Hwf1 Hne Hin1) as Hr.
      by destruct (settle_rejected_event (with_dedupe s d) ev e).
  - pose proof (settle_rejected_in_flight (with_dedupe s d) (admission_event ev)
      (PolicyRejected ("malformed event: " +:+ wire_message e)) _ _ _ _ Hwf1 Hne Hin1) as Hr.
    by destruct (settle_rejected_event (with_dedupe s d) _ _).
Qed.

Lemma dispatch_in_flight s ev kind dispatch c id q ty : dedupe_wf (dedupe s) → (c, id) ≠ event_name ev →
  in_flight (dedupe s) c id q ty → in_flight (dedupe (dispatch_admitted_event s ev kind dispatch).1) c id q ty.
Proof.
  intros Hwf Hne Hin. unfold dispatch_admitted_event.
  pose proof (settle_event_in_flight (dedupe s) (event_key ev) (mkOutcome true (revision (store s)) "") c id q ty
    Hwf Hne Hin) as Hset.
  destruct (settle_event (dedupe s) (event_key ev) (mkOutcome true (revision (store s)) "")) as [d n]. cbn [fst] in *.
  destruct dispatch as [|e|], kind; cbn; try exact Hset.
  - pose proof (settle_rejected_in_flight s ev (PolicyRejected ("event handler failed: " +:+ session_message e))
      c id q ty Hwf Hne Hin) as Hr. cbn in Hr. by destruct (settle_rejected_event s ev _).
  - by apply abandon_event_in_flight.
Qed.

Lemma reject_reserved_in_flight s ev node seq e c id q ty : dedupe_wf (dedupe s) → (c, id) ≠ event_name ev →
  in_flight (dedupe s) c id q ty → in_flight (dedupe (reject_reserved s ev node seq e).1) c id q ty.
Proof. intros Hwf Hne Hin. unfold reject_reserved. by apply settle_rejected_in_flight. Qed.

(** A text edit that was accepted is still in flight: its handlers are to run. *)
Lemma commit_text_edit_in_flight s ev node seq text gen d s' r c id q ty : dedupe_wf (dedupe s) →
  commit_text_edit_decision s ev node seq text gen d = (s', r) → edit_finishes ev r ≠ Some (c, id) →
  in_flight (dedupe s) c id q ty → in_flight (dedupe s') c id q ty.
Proof.
  intros Hwf Heq Hne Hin. revert Heq. unfold commit_text_edit_decision.
  assert (∀ err, (let '(s', o) := reject_reserved s ev node seq err in
    (s', Ok (E:=SessionError) (TSettled o))) = (s', r) → in_flight (dedupe s') c id q ty) as Hrej.
  { intros err. pose proof (reject_reserved_in_flight s ev node seq err c id q ty Hwf) as Hr.
    destruct (reject_reserved s ev node seq err) as [s1 o]. intros [= <- <-]. apply Hr; [|done].
    intros Hc. apply Hne. cbn. by rewrite Hc. }
  destruct (negb _); [by intros [= <- _]|].
  destruct (revalidate_editor_for_commit s node); [|apply Hrej|by intros [= <- _]..].
  destruct (negb _); [apply Hrej|]. destruct (decide_text_edit s node text d) as [[[value validation] acc] reason].
  destruct (_ <? _)%N; [apply Hrej|]. destruct (ui_run _ _) as [ui' [[]|e| |]]; [|apply Hrej|by intros [= <- _]..].
  destruct (prepare _ _) as [permit|e| |]; [|apply Hrej|by intros [= <- _]..].
  destruct acc.
  - destruct (begin_committed_handler_dispatch _ ev); by intros [= <- _].
  - match goal with |- context [settle_event ?d ?k ?o] =>
      pose proof (settle_event_in_flight d k o c id q ty) as Hr; destruct (settle_event d k o) as [d' n] end.
    intros [= <- <-]. apply Hr; [done| |done]. intros Hc. apply Hne. cbn. by rewrite Hc.
Qed.

(** A cancellation leaves what is in flight there: it may finish. *)
Lemma cancel_event_in_flight d k o c id q ty : dedupe_wf d → in_flight d c id q ty →
  in_flight (cancel_event d k o) c id q ty.
Proof.
  intros Hwf Hin. unfold cancel_event. pose proof (admit_event_in_flight d k _ _ _ _ Hwf Hin) as Hin1.
  pose proof (admit_event_evolves d k Hwf) as [Hwf1 _ _].
  destruct (admit_event d k) as [d' [[n|n|o' n]|e| |]] eqn:Ha; cbn [fst] in *; try exact Hin1.
  apply settle_event_in_flight; [done| |done]. intros [= -> ->].
  by eapply (admit_event_fresh _ _ _ _ q ty Hwf Ha).
Qed.

Lemma session_step_in_flight cond s f l s' c id q ty : session_wf s → dedupe_wf (dedupe s) →
  session_step cond s f l s' → f ≠ Some (c, id) →
  in_flight (dedupe s) c id q ty → in_flight (dedupe s') c id q ty.
Proof.
  intros Hs Hwf Hstep Hne Hin. destruct Hstep; try exact Hin.
  - unfold attach. by destruct (is_terminal (state s)).
  - by apply process_event_in_flight.
  - apply dispatch_in_flight; [done| |done]. congruence.
  - apply abandon_event_in_flight; [done| |done]. unfold event_name in Hne. cbn. congruence.
  - by apply cancel_event_in_flight.
  - match goal with Heq : commit_transaction _ _ = _ |- _ => apply commit_transaction_Ok in Heq end; [|done].
    match goal with Hex : ∃ _, _ |- _ => by destruct Hex as (txn & st & _ & _ & _ & _ & _ & _ & _ & ->) end.
  - match goal with Hc : transaction_with_result _ _ = _ |- _ =>
      by apply transaction_with_result_Ok in Hc as (ui' & _ & _ & _ & ->) end.
  - by eapply commit_text_edit_in_flight.
Qed.

(** Runs during which event [id] of [c] is neither settled nor given up. *)
Inductive pending_run (c id : Bytes) : SessionInner → SessionInner → Prop :=
| pending_nil s : pending_run c id s s
| pending_step s s1 f l s2 : pending_run c id s s1 → session_step InRange s1 f l s2 → f ≠ Some (c, id) →
    pending_run c id s s2.

Lemma pending_run_in_flight c id s s' q ty : session_wf s → events_wf s → pending_run c id s s' →
  session_wf s' ∧ events_wf s' ∧ (in_flight (dedupe s) c id q ty → in_flight (dedupe s') c id q ty).
Proof.
  intros Hs He Hr. induction Hr as [s|s s1 f l s2 _ IH Hstep Hf]; [done|].
  destruct (IH Hs He) as (Hs1 & He1 & Hin). pose proof (session_step_events _ _ _ _ _ Hs1 Hstep) as Hev.
  split_and!; [by apply session_step_ok in Hstep as []|by eapply event_step_wf|].
  intros Hin1%Hin. eapply session_step_in_flight; [done|apply He1|done..].
Qed.

(** Runs during which the table does not forget [c]. *)
Inductive retaining_run (c : Bytes) : SessionInner → SessionInner → Prop :=
| retain_nil s : retaining_run c s s
| retain_step s s1 f l s2 : retaining_run c s s1 → session_step InRange s1 f l s2 → ¬ forgotten (dedupe s2) c →
    retaining_run c s s2.

Lemma retaining_run_remembers c s s' seq : session_wf s → events_wf s → retaining_run c s s' →
  session_wf s' ∧ events_wf s' ∧ (remembers (dedupe s) c seq → remembers (dedupe s') c seq).
Proof.
  intros Hs He Hr. induction Hr as [s|s s1 f l s2 _ IH Hstep Hnf]; [done|].
  destruct (IH Hs He) as (Hs1 & He1 & Hrem). pose proof (session_step_events _ _ _ _ _ Hs1 Hstep) as Hev.
  split_and!; [by apply session_step_ok in Hstep as []|by eapply event_step_wf|].
  intros Hrm%Hrem. eapply dedupe_effect_remembers in Hrm as [?|?]; [done|done|apply He1|apply Hev].
Qed.

(** A dispatched event is settled, and its replay answered from the cache. *)
Lemma dispatch_settles s ev kind s' r : dedupe_wf (dedupe s) → we_event_id ev ≠ [] →
  in_flight (dedupe s) (we_client_instance_id ev) (we_event_id ev) (we_event_seq ev) (ek_type (event_key ev)) →
  dispatch_admitted_event s ev kind HandlersDone = (s', r) →
  (∃ n, r = Ok (OutProcessed (revision (store s)) n)) ∧
  remembers (dedupe s') (we_client_instance_id ev) (we_event_seq ev) ∧
  ∃ n, (admit_event (dedupe s') (event_key ev)).2 = Ok (Duplicate (mkOutcome true (revision (store s)) "") n).
Proof.
  intros Hwf Hne Hin. unfold dispatch_admitted_event.
  set (o := mkOutcome true (revision (store s)) "").
  pose proof (settled_then_duplicate (dedupe s) (event_key ev) o _ Hwf Hne eq_refl Hin) as Hdup. cbn zeta in Hdup.
  destruct (settle_event (dedupe s) (event_key ev) o) as [d n] eqn:Hs.
  pose proof (settle_event_spec _ _ _ _ _ Hwf Hs) as (_ & _ & Hset).
  destruct (Hset _ _ Hin Hne) as (_ & Hrem & _). cbn [fst] in Hdup.
  destruct kind; intros [= <- <-]; (split_and!; [eauto|exact Hrem|]); cbn [dedupe with_tracker with_dedupe];
    rewrite Hdup; eauto.
Qed.
End events.
