(* ===== verification/HandshakeRuns.v ===== *)
(** * Clients across handshakes

    The handshakes of a session since its start: the replica a handshake leaves
    a client with is behind the session only by what is published from its
    subscription on, and the lane it opened delivers that.  Resuming returns;
    the text edits it cancels never run. *)

From S2P Require Import Prelude.
From S2P Require Import Values.
From S2P Require Import Limits.
From S2P Require Import Store.
From S2P Require Import StoreFacts.
From S2P Require Import StoreInv.
From S2P Require Import Transaction.
From S2P Require Import TransactionFacts.
From S2P Require Import Wire.
From S2P Require Import SnapshotFraming.
From S2P Require Import Snapshot.
From S2P Require Import SnapshotFacts.
From S2P Require Import Journal.
From S2P Require Import Dedupe.
From S2P Require Import DedupeFacts.
From S2P Require Import Event.
From S2P Require Import TextTracker.
From S2P Require Import Resources.
From S2P Require Import Outbound.
From S2P Require Import Session.
From S2P Require Import SessionFacts.
From S2P Require Import Replication.
From S2P Require Import OutboundFacts.
From S2P Require Import Terminal.
From S2P Require Import TerminalFacts.
From S2P Require Import Capability.
From S2P Require Import Extensions.
From S2P Require Import ExtensionsFacts.
From S2P Require Import Handshake.
From S2P Require Import HandshakeFacts.
From S2P Require Import SessionEvents.

Section resuming.
Context `{Registry, EventRegistry, PropertyIter, Diagnostics, Digest, ItemEncoding, Encoding, HashOrder, Framing}.

(** ** Resuming returns *)

Lemma validate_refs_returns refs : ∀ seen, returns (validate_refs seen refs).
Proof.
  induction refs as [|r refs IH]; intros seen; cbn; [done|]. apply returns_bind.
  - unfold validate_ref. repeat (apply returns_bind; [apply returns_err_if|intros _ _]).
    by apply returns_bind; [apply returns_ok_or|].
  - intros [seen' v] _. apply returns_bind; [apply IH|done].
Qed.

Lemma check_resume_returns resume : returns (check_resume resume).
Proof.
  unfold check_resume, validate_pending_text_edit_refs.
  repeat (apply returns_bind; [apply returns_err_if|intros _ _]).
  assert (∀ {A} (r : result string A), returns r → returns (map_err (λ e, HsInvalidInput (PendingEdits e)) r)) as Hm
    by (intros A r; by destruct r).
  apply Hm. apply returns_bind; [apply returns_err_if|intros _ _]. apply validate_refs_returns.
Qed.

Lemma check_resume_offsets resume edits : check_resume resume = Ok edits →
  (map_len (cr_terminal_stream_offsets resume) ≤ MAX_TERMINAL_RESUME_MAP_ENTRIES)%N ∧
  (len (cr_client_instance_id resume) ≤ MAX_CLIENT_INSTANCE_ID_BYTES)%N.
Proof.
  unfold check_resume, validate_client_instance_id. intros Heq. apply bind_unit_Ok in Heq as [Hid Heq].
  apply bind_unit_Ok in Heq as [Hoff _]. apply err_if_Ok in Hid, Hoff.
  apply N.ltb_ge in Hid, Hoff. done.
Qed.

Lemma finish_resume_returns s streams resume tn plan : streams_ok streams →
  match plan with
  | Ok (PlanResync p) => (len (parts (pl_snapshot_frames p)) ≤ u32_max)%N
  | Ok _ | Err _ => True
  | _ => False
  end → returns (finish_resume s streams resume tn plan).2.
Proof.
  intros Hs Hp. unfold finish_resume. destruct plan as [p|e| |]; [|done..].
  fold (resume_ceiling s resume).
  pose proof (subscribe_client_locked_spec s (cr_client_instance_id resume) (cr_known_resource_hashes resume)
    (resume_ceiling s resume)) as Hsub.
  destruct (subscribe_client_locked _ _ _ _) as [s1 [receiver|e| |]]; try done. cbn [snd].
  apply returns_bind; [by apply attach_terminals_returns|intros t _]. apply returns_bind; [|by intros []].
  destruct p as [|p]; cbn; [done|].
  by destruct (announced_parts_returns (E:=HandshakeError) (pl_snapshot_frames p) Hp) as [n ->].
Qed.

Lemma resume_loop_returns attempts locks meanwhile streams resume edits : streams_ok streams →
  parts_bounded (cr_limits resume) → (∀ k, session_wf (inner (locks k))) → ∀ k,
  returns (bootstrap_resume_loop attempts locks meanwhile streams k resume edits).2.2.
Proof.
  intros Hst Hp Hwf. induction attempts as [|attempts IH]; intros k; cbn [bootstrap_resume_loop];
    pose proof (negotiate_client_returns (locks k) (cr_core_version resume) (cr_profiles resume)) as Hret;
    destruct (negotiate_client _ _ _) as [caps|e| |]; try done;
    (destruct (determine_resync_cause resume (locks k)) as [cause|] eqn:Hcause; cycle 1;
     [unfold determine_resync_cause in Hcause; case_bool_decide; [done|];
      destruct (is_client_stale _ _); [done|]; apply finish_resume_returns; [done|];
      unfold plan_replay; destruct (replay_from _ _); [done|discriminate]|]);
    rewrite clone_staging_id;
    pose proof (export_and_plan_returns (sl_max_frame_size (server_limits (locks k))) (cr_limits resume)
      (store (inner (locks k))) (se_store _ (Hwf k)) Hp) as Hx;
    assert (∀ s, match resync_result s resume edits cause (revision (store (inner (locks k))))
        (export_and_plan (sl_max_frame_size (server_limits (locks k))) (cr_limits resume) (store (inner (locks k)))) with
      | Ok (PlanResync p) => (len (parts (pl_snapshot_frames p)) ≤ u32_max)%N
      | Ok _ | Err _ => True | _ => False end) as Hplan
      by (intros s; unfold resync_result; by destruct (export_and_plan _ _ _) as [[tx plan]|e| |]).
  - apply finish_resume_returns; [done|apply Hplan].
  - assert (returns (if negb (revision (store (inner (locks (S k)))) =? revision (store (inner (locks k))))%N ||
        bool_decide (determine_resync_cause resume (locks (S k)) ≠ Some cause)
      then bootstrap_resume_loop attempts locks meanwhile streams (S (S k)) resume edits
      else (S k, finish_resume (subscribing locks meanwhile (S k)) streams resume (bool_decide (terminal_v1 ∈ caps))
              (resync_result (locks (S k)) resume edits cause (revision (store (inner (locks k))))
                 (export_and_plan (sl_max_frame_size (server_limits (locks k))) (cr_limits resume)
                    (store (inner (locks k))))))).2.2) as Hr.
    { destruct (_ || _); [apply IH|apply finish_resume_returns; [done|apply Hplan]]. }
    revert Hx Hr. generalize (export_and_plan (sl_max_frame_size (server_limits (locks k))) (cr_limits resume)
      (store (inner (locks k)))). by intros [x|x| |] Hx Hr.
Qed.

(** ** A session and its handshakes *)

(** A session that began empty and has run to the first acquisition; the same
    session at the ones that follow, with the limits it was configured with. *)
Record serving (i0 : SessionInner) (locks : nat → Server) : Prop := {
  sv_start : ∃ jc qc, Session_with_config jc qc = Ok i0;
  sv_first : ∃ l, session_run InRange i0 l (inner (locks 0));
  sv_next : ∀ k, ∃ l, session_run InRange (inner (locks k)) l (inner (locks (S k)));
  sv_limits : ∀ k, server_limits (locks k) = ServerLimits_default;
}.

Lemma with_config_store jc qc i0 : Session_with_config jc qc = Ok i0 → store i0 = with_limits StoreLimits_default.
Proof. unfold Session_with_config. case_match; [done|]. by intros [= <-]. Qed.

Lemma serving_interleaved i0 locks : serving i0 locks → session_wf i0 ∧ interleaved locks.
Proof.
  intros [(jc & qc & Hcfg) (l & Hl) Hn _]. pose proof (Session_with_config_wf _ _ _ Hcfg) as Hwf.
  split; [done|]. split; [|done]. by apply session_run_ok in Hl as [].
Qed.

Lemma serving_run i0 locks k : serving i0 locks → ∃ l, session_run InRange i0 l (inner (locks k)).
Proof.
  intros Hs. pose proof (serving_interleaved _ _ Hs) as [_ Hil]. destruct Hs as [_ (l & Hl) _ _].
  destruct (interleaved_run locks 0 k Hil ltac:(lia)) as (_ & l' & Hl'). exists (l ++ l').
  by eapply session_run_trans.
Qed.

(** The session's store keeps its limits, and at revision 0 it is empty. *)
Lemma started_store i0 jc qc l i : Session_with_config jc qc = Ok i0 → session_run InRange i0 l i →
  session_wf i ∧ limits (store i) = StoreLimits_default ∧
  (revision (store i) = 0%N → store i = with_limits StoreLimits_default).
Proof.
  intros Hcfg Hl. pose proof (Session_with_config_wf _ _ _ Hcfg) as Hwf.
  pose proof (with_config_store _ _ _ Hcfg) as Hst.
  destruct (session_run_ok InRange _ _ _ ltac:(done) Hwf Hl) as [Hwf' _ _ Hlim]. split; [done|]. split.
  - by rewrite Hlim, Hst.
  - intros Hrev. rewrite <- Hst. eapply (same_revision_same_store InRange); [done..|]. by rewrite Hrev, Hst.
Qed.

Lemma serving_store i0 locks k : serving i0 locks →
  session_wf (inner (locks k)) ∧ limits (store (inner (locks k))) = StoreLimits_default ∧
  (revision (store (inner (locks k))) = 0%N → store (inner (locks k)) = with_limits StoreLimits_default).
Proof.
  intros Hs. destruct (serving_run _ _ k Hs) as (l & Hl). destruct (sv_start _ _ Hs) as (jc & qc & Hcfg).
  by eapply started_store.
Qed.

(** ** What a client ends up with *)

(** The lane a handshake opened delivers what is published from then on: a
    replica that was behind the session's store when it opened keeps up. *)
Lemma opened_lane_follows s s1 c max_res receiver i i' r ops sub sub' sent :
  opened s c max_res receiver s1 → server_limits s = ServerLimits_default →
  session_wf i → limits (store i) = StoreLimits_default →
  subscribers (outbound_hub s1) !! receiver = Some sub →
  behind r (store i) →
  session_run Careful i (published_in_lane ops) i' →
  foldl lane_step (sub_state sub, []) ops = (sub', sent) → is_closed sub' = false →
  ∃ r', follow r (sent ++ sub_items sub') = Some r' ∧ behind r' (store i').
Proof.
  intros Hop Hlim Hwf Hlim' Hsub Hb Hrun Hlane Hopen.
  destruct (op_lane _ _ _ _ _ Hop) as [q Hq]. rewrite Hsub in Hq. injection Hq as ->. cbn [sub_state] in Hlane.
  pose proof (session_run_weaken Careful WireSafe _ _ _ ltac:(cbn; lia) Hrun) as Hcan%session_run_canonical; [|done].
  apply session_run_follow in Hrun as (_ & Hf); [|done].
  match type of Hlane with foldl _ (?st, _) _ = _ => set (st0 := st) in * end.
  assert (lane_ok (store i) (store i) st0 []) as Hok.
  { split; cbn; try done; [unfold len; cbn; lia|]. by rewrite Hlim, Hlim'. }
  pose proof (lane_run ops _ _ _ st0 [] (se_store _ Hwf) Hok Hcan Hf) as Hl.
  rewrite Hlane in Hl. destruct (Hl Hopen) as [Hfl _ _ _ _].
  by eapply follow_behind; [apply Hwf|..].
Qed.

(** A fresh client has an empty replica until the snapshot arrives. *)
Definition fresh_replica (b : FreshClientBootstrap) : SemanticStore :=
  match fb_snapshot b with
  | Some tx => (apply_snapshot (with_limits StoreLimits_default) tx).1
  | None => with_limits StoreLimits_default
  end.

Lemma behind_refl s : behind s s.
Proof. by split. Qed.

Lemma fresh_replica_behind i0 locks streams hello k s' b :
  serving i0 locks → bootstrap_fresh_client locks streams hello = (k, (s', Ok b)) →
  exportable (store (inner (locks k))) →
  k ≤ 6 ∧ (∃ s1 max_res, opened (locks k) (ch_client_instance_id hello) max_res (fb_transactions b) s1 ∧
    s' = negotiated s1) ∧
  sw_initial_revision (fb_welcome b) = revision (store (inner (locks k))) ∧
  behind (fresh_replica b) (store (inner (locks k))).
Proof.
  intros Hs Heq Hexp. pose proof (serving_interleaved _ _ Hs) as [_ Hil].
  apply fresh_loop_spec in Heq as (Hk & Hend). destruct Hend as [[_ ?]|(j & welcome & clone & tn & Hj & Hn & Hrev & Hfin)]; [done|].
  pose proof (finish_fresh_spec (locks k) streams hello welcome tn (fresh_export hello welcome clone)) as Hspec.
  rewrite Hfin in Hspec. destruct Hspec as (x & n & s1 & Hx & Hsnap & _ & _ & Hw & _ & _ & Hop & Hs').
  apply negotiate_hello_Ok in Hn as (_ & _ & _ & Hir & _ & _ & Hclone).
  destruct (serving_store _ _ k Hs) as (_ & Hlim & Hzero).
  split; [unfold MAX_OPTIMISTIC_SNAPSHOT_EXPORT_ATTEMPTS in Hk; lia|]. split; [by eauto|].
  split; [rewrite Hw; cbn; congruence|].
  pose proof (interleaved_same_store _ _ _ Hil (proj2 Hj) Hrev) as Hst.
  apply fresh_export_Ok in Hx. unfold fresh_replica. rewrite Hsnap.
  destruct (N.ltb_spec 0 (revision (store (inner (locks j))))) as [Hpos|Hz]; subst clone.
  - destruct Hx as (tx & plan & -> & Htx & _). cbn [fst fmap option_fmap option_map]. rewrite <- Hst in Htx.
    rewrite (export_applies _ Hexp tx (with_limits StoreLimits_default) Htx) by (done || (cbn; lia)).
    apply snapshot_behind, Hexp.
  - subst x. cbn. rewrite Hzero by lia. apply behind_refl.
Qed.
(** What a resuming client does with the outcome. *)
Definition resumed_replica (r : SemanticStore) (outcome : ResumeOutcome) : option SemanticStore :=
  match outcome with
  | Replay _ replayed => follow r replayed
  | Resync _ tx => Some (apply_snapshot r tx).1
  end.

(** A client that comes back to the session, which stands at [i], has a replica
    that was in step with it at the revision it names, and the application has
    been careful since; one that comes from another incarnation starts over with
    an empty replica. *)
Definition returning (i0 i : SessionInner) (id : string) (resume : ClientResume) (r : SemanticStore) : Prop :=
  (cr_session_id resume = id ∧ ∃ i1 l1 l2, session_run InRange i0 l1 i1 ∧ session_run Careful i1 l2 i ∧
     behind r (store i1) ∧ cr_last_applied_revision resume = revision (store i1)) ∨
  (cr_session_id resume ≠ id ∧ r = with_limits StoreLimits_default).

Lemma returning_limits i0 locks i id resume r : serving i0 locks → returning i0 i id resume r →
  limits r = StoreLimits_default ∧ (revision r ≤ revision (store i))%N.
Proof.
  intros Hs [(_ & i1 & l1 & l2 & Hr1 & Hr2 & Hb & _)|[_ ->]]; [|split; [done|cbn; lia]].
  destruct (sv_start _ _ Hs) as (jc & qc & Hcfg). destruct (started_store _ _ _ _ _ Hcfg Hr1) as (Hwf1 & Hlim & _).
  split; [by rewrite (bh_limits _ _ Hb)|]. rewrite (bh_revision _ _ Hb).
  rewrite (session_run_revision Careful _ _ _ ltac:(done) Hwf1 Hr2). lia.
Qed.

(** A plan changes nothing but the receive windows. *)
Lemma commit_plan_frame s p : store (inner (commit_plan s p)) = store (inner s) ∧
  journal (inner (commit_plan s p)) = journal (inner s) ∧
  outbound_hub (commit_plan s p) = outbound_hub s ∧ has_negotiated (commit_plan s p) = has_negotiated s.
Proof. destruct p as [|p]; cbn; [done|]. by destruct (pl_pending_text_edit_cancellation p). Qed.

Lemma plan_replay_spec s resume : determine_resync_cause resume s = None →
  ∃ m txs, plan_replay s resume = Ok (PlanReplay m txs) ∧ cr_session_id resume = session_id s ∧
    is_client_stale (outbound_hub s) (cr_client_instance_id resume) = false ∧
    replay_from (journal (inner s)) (cr_last_applied_revision resume) = Some txs ∧
    ro_replay_from_revision m = cr_last_applied_revision resume ∧ ro_session_id m = session_id s.
Proof.
  unfold determine_resync_cause, plan_replay. case_bool_decide as Hid; [done|].
  destruct (is_client_stale _ _) eqn:Hst; [done|]. destruct (replay_from _ _) as [txs|]; [|done]. intros _.
  cbn. eexists _, txs. by split_and!.
Qed.

(** How a resumption that succeeds was decided, and what it did. *)
Record resumed (locks : nat → Server) (meanwhile : nat → OutboundHub → OutboundHub)
    (resume : ClientResume) (k : nat) (s' : Server) (b : ResumeClientBootstrap) (plan : ResumePlan) (s1 : Server) : Prop := {
  rs_bound : k ≤ 6;
  rs_opened : opened (subscribing locks meanwhile k) (cr_client_instance_id resume) (resume_ceiling (locks k) resume)
    (rb_transactions b) s1;
  rs_left : s' = commit_plan (negotiated s1) plan;
  rs_outcome : plan_outcome plan = Ok (rb_outcome b, rb_snapshot_frames b);
  rs_plan : match determine_resync_cause resume (locks k) with
            | None => plan_replay (locks k) resume = Ok plan
            | Some cause => ∃ edits tx frames,
                check_resume resume = Ok edits ∧ export_snapshot_transaction (store (inner (locks k))) = Ok tx ∧
                plan = plan_resync (locks k) resume edits cause (revision (store (inner (locks k)))) (tx, frames)
            end;
}.

Lemma bootstrap_resume_Ok locks meanwhile streams resume k s' b : interleaved locks →
  bootstrap_resume locks meanwhile streams resume = (k, (s', Ok b)) →
  ∃ plan s1, resumed locks meanwhile resume k s' b plan s1.
Proof.
  intros Hil. unfold bootstrap_resume. destruct (check_resume resume) as [edits|e| |] eqn:Hc; [|done..].
  intros (Hk & Hend)%resume_loop_spec. destruct (check_resume_offsets _ _ Hc) as [Hoff _].
  destruct Hend as [[_ ?]|(j & caps & Hj & _ & Hend)]; [done|].
  assert (k ≤ 6) as Hk6 by (unfold MAX_OPTIMISTIC_SNAPSHOT_EXPORT_ATTEMPTS in Hk; lia).
  destruct (determine_resync_cause resume (locks k)) as [cause|] eqn:Hcause.
  - destruct Hend as [Hrev Hfin].
    match type of Hfin with finish_resume ?s ?st ?re ?tn ?plan = _ =>
      pose proof (finish_resume_spec s st re tn plan Hoff) as Hs end.
    rewrite Hfin in Hs. destruct Hs as (p & s1 & Hp & Hop & -> & Hout & _ & _).
    exists p, s1. split; try done. rewrite Hcause.
    apply bind_Ok in Hp as ([tx frames] & Hx & [= <-]). unfold resync_export, export_and_plan in Hx.
    rewrite <- (interleaved_same_store _ _ _ Hil (proj2 Hj) Hrev) in Hx.
    destruct (export_snapshot_transaction _) as [tx'|e| |]; [|done..]. cbn in Hx.
    destruct (plan_snapshot_delivery _ _ _) as [f|e| |]; [|done..]. injection Hx as <- <-. eauto 10.
  - destruct Hend as [_ Hfin].
    match type of Hfin with finish_resume ?s ?st ?re ?tn ?plan = _ =>
      pose proof (finish_resume_spec s st re tn plan Hoff) as Hs end.
    rewrite Hfin in Hs. destruct Hs as (p & s1 & Hp & Hop & -> & Hout & _ & _).
    exists p, s1. split; try done. by rewrite Hcause.
Qed.

Lemma plan_resync_outcome s resume edits cause rev tx frames o f :
  plan_outcome (plan_resync s resume edits cause rev (tx, frames)) = Ok (o, f) →
  f = frames ∧ ∃ m, o = Resync m tx ∧ rr_continuity m = continuity cause ∧ rr_reason m = reason cause ∧
    rr_snapshot_revision m = rev ∧ rr_session_id m = session_id s.
Proof.
  cbn. destruct (announced_parts frames) as [n|e| |]; [|done..]. cbn. intros [= <- <-].
  split; [done|]. eexists. by split_and!.
Qed.

Lemma resumed_replica_behind i0 locks meanwhile resume k s' b plan s1 r :
  serving i0 locks → resumed locks meanwhile resume k s' b plan s1 →
  returning i0 (inner (locks k)) (session_id (locks k)) resume r → exportable (store (inner (locks k))) →
  ∃ r1, resumed_replica r (rb_outcome b) = Some r1 ∧ behind r1 (store (inner (locks k))).
Proof.
  intros Hs [_ Hop Hleft Hout Hplan] Hret Hexp.
  destruct (returning_limits _ _ _ _ _ _ Hs Hret) as [Hlim Hrev].
  destruct (serving_store _ _ k Hs) as (_ & Hlim' & _).
  destruct (determine_resync_cause resume (locks k)) as [cause|] eqn:Hcause.
  - destruct Hplan as (edits & tx & frames & _ & Htx & ->).
    apply plan_resync_outcome in Hout as (_ & m & -> & _). cbn [resumed_replica]. eexists. split; [done|].
    rewrite (export_applies _ Hexp tx r Htx) by (done || congruence). apply snapshot_behind, Hexp.
  - destruct (plan_replay_spec _ _ Hcause) as (m & txs & Heq & Hid & _ & Hreplay & _).
    rewrite Heq in Hplan. injection Hplan as <-. cbn in Hout. injection Hout as <- _. cbn [resumed_replica].
    destruct Hret as [(_ & i1 & l1 & l2 & Hr1 & Hr2 & Hb & Hlast)|[Hne _]]; [|done].
    destruct (serving_interleaved _ _ Hs) as [Hwf0 _].
    destruct (session_run_ok InRange _ _ _ ltac:(done) Hwf0 Hr1) as [Hwf1 _ _ _].
    pose proof (session_run_replay Careful _ _ _ ltac:(done) Hwf1 Hr2) as Hrep.
    rewrite Hlast in Hreplay. rewrite Hreplay in Hrep. case_decide; [|done]. injection Hrep as ->.
    apply session_run_follow in Hr2 as (_ & Hf); [|done].
    eapply follow_behind; [apply Hwf1|exact Hb|exact Hf].
Qed.

(** ** Cancelled text edits *)

Lemma cancel_event_fresh d k o n : dedupe_wf d → (admit_event d k).2 = Ok (Fresh n) →
  remembers (cancel_event d k o) (ek_client k) (ek_seq k) ∧ has_client_window (cancel_event d k o) (ek_client k) = true.
Proof.
  intros Hwf Hfresh. unfold cancel_event. destruct (admit_event d k) as [d1 r] eqn:Ha. cbn in Hfresh. subst r.
  pose proof (admit_event_spec _ _ _ _ Hwf Ha) as (Hev & _ & _ & _ & Hin & Hne).
  destruct Hev as [Hwf1 _ _]. destruct (settle_event d1 k o) as [d2 n2] eqn:Hs.
  pose proof (settle_event_spec _ _ _ _ _ Hwf1 Hs) as (_ & _ & Hset).
  destruct (Hset _ _ Hin Hne) as (Hout & Hrem & _). split; [done|]. cbn [fst].
  unfold settled_outcome in Hout. unfold has_client_window. apply bool_decide_eq_true.
  destruct (clients d2 !! ek_client k); [eauto|done].
Qed.

(** Cancelling on behalf of a client keeps its window. *)
Lemma cancel_event_window d k o : has_client_window d (ek_client k) = true →
  has_client_window (cancel_event d k o) (ek_client k) = true.
Proof.
  unfold has_client_window. rewrite !bool_decide_eq_true. intros [w Hw]. unfold cancel_event, admit_event.
  case_bool_decide; [by eauto|]. rewrite Hw. destruct (window_admit _ _ _ _ _) as [w' r].
  set (d1 := put_client _ _ _). assert (is_Some (clients d1 !! ek_client k)) as Hd1.
  { subst d1. unfold put_client. cbn. rewrite lookup_insert_eq. eauto. }
  destruct r as [[]|e| |]; try exact Hd1. unfold settle_event. case_bool_decide; [done|].
  assert (clients (touch_client d1 (ek_client k)) = clients d1) as Ht by apply touch_client_frame.
  rewrite Ht. destruct Hd1 as [w1 Hw1]. rewrite Hw1. destruct (settle w1 (ek_id k) o) as [w2 n2].
  cbn. rewrite lookup_insert_eq. eauto.
Qed.

(** The references after it do not make the table forget a cancelled one. *)
Lemma cancel_events_remember c o post q : ∀ d, dedupe_wf d → has_client_window d c = true → remembers d c q →
  remembers (foldl (λ d v, cancel_event d (cancelled_key c v) o) d post) c q.
Proof.
  induction post as [|v post IH]; intros d Hwf Hw Hr; cbn; [done|].
  pose proof (cancel_event_effect d (cancelled_key c v) o) as Heff.
  pose proof (cancel_event_window d (cancelled_key c v) o Hw) as Hw'.
  apply IH; [by eapply dedupe_effect_wf|done|].
  destruct (dedupe_effect_remembers _ _ _ _ Hwf Heff Hr) as [?|[Hnone _]]; [done|].
  unfold has_client_window in Hw'. apply bool_decide_eq_true in Hw' as [? Hx]. cbn in Hx. by rewrite Hnone in Hx.
Qed.

Lemma cancel_events_wf c o vs : ∀ d, dedupe_wf d →
  dedupe_wf (foldl (λ d v, cancel_event d (cancelled_key c v) o) d vs).
Proof.
  induction vs as [|v vs IH]; intros d Hwf; cbn; [done|]. apply IH.
  eapply dedupe_effect_wf; [done|]. apply cancel_event_effect.
Qed.

(** A cancellation remembers every reference that was fresh at its turn. *)
Lemma cancellation_remembers s c pre v post n : dedupe_wf (dedupe s) →
  (admit_event (foldl (λ d v, cancel_event d (cancelled_key c v) (cancelled_outcome s)) (dedupe s) pre)
     (cancelled_key c v)).2 = Ok (Fresh n) →
  let s' := commit_cancellation s (prepare_pending_text_edit_cancellation s c (pre ++ v :: post)) in
  dedupe_wf (dedupe s') ∧ remembers (dedupe s') c (pr_event_seq (vr_reference v)).
Proof.
  intros Hd Hfresh s'. split; [by apply cancel_events_wf|].
  pose proof (cancel_events_wf c (cancelled_outcome s) pre _ Hd) as Hd1.
  pose proof (cancel_event_fresh _ _ (cancelled_outcome s) _ Hd1 Hfresh) as [Hrem Hwin].
  cbn. rewrite foldl_app. cbn [foldl]. apply cancel_events_remember; [|exact Hwin|exact Hrem].
  eapply dedupe_effect_wf; [exact Hd1|]. apply cancel_event_effect.
Qed.

(** What a resynchronisation of the same session does to its pending edits. *)
Lemma plan_resync_cancels s s1 resume edits cause rev exported m tx frames : cause ≠ ReplacedIncarnation →
  inner s1 = inner s → plan_outcome (plan_resync s resume edits cause rev exported) = Ok (Resync m tx, frames) →
  rr_discarded_text_edits m = map vr_reference edits ∧
  inner (commit_plan (negotiated s1) (plan_resync s resume edits cause rev exported)) =
    commit_cancellation (inner s)
      (prepare_pending_text_edit_cancellation (inner s) (cr_client_instance_id resume) edits).
Proof.
  intros Hc Hi Ho. cbn in Ho. destruct (announced_parts _) as [parts|e| |]; [|done..]. injection Ho as <- _ _.
  destruct cause; [done|..]; cbn; by rewrite Hi.
Qed.
End resuming.
