(* ===== verification/TerminalNode.v ===== *)
(** * Creating terminals

    [Session::create_terminal_node] of [session/terminal.rs]: three critical
    sections, with the process started between the first and the second.  Alone
    it is atomic; what two overlapping calls can do to each other. *)

From S2P Require Import Prelude.
From S2P Require Import Values.
From S2P Require Import Limits.
From S2P Require Import Store.
From S2P Require Import StoreInv.
From S2P Require Import Transaction.
From S2P Require Import TransactionFacts.
From S2P Require Import Wire.
From S2P Require Import WireFacts.
From S2P Require Import Journal.
From S2P Require Import Event.
From S2P Require Import Resources.
From S2P Require Import Session.
From S2P Require Import SessionFacts.
From S2P Require Import Replication.
From S2P Require Import Capability.
From S2P Require Import Extensions.
From S2P Require Import ExtensionsFacts.

(** Why no terminal was created: [spawn]'s message is the PTY manager's. *)
Inductive CreateTerminalError :=
| CtRefused (why : InvalidInput)
| CtSpawn (message : string)
| CtCommit (e : SessionError).

Section terminal.
Context `{Registry, EventRegistry, PropertyIter, Diagnostics, Digest}.

(** The closure of the transaction. *)
Definition terminal_closure (node parent : NodeId) (ty : TypeRef) (ui : UiTransaction) (revs : N * N)
    : UiTransaction * result StoreError TypeRef :=
  let '(ui', r) := ui_apply_op ui (CreateNode node ty (Some parent) None []) in
  (ui', (λ _, ty) <$> r).

(** [Session::create_terminal_node]: [spawned] is the failure of [pty.spawn], if
    any, [live] says whether other streams are live at the rollback, and [others]
    what the other threads do to the server while the process starts. *)
Definition create_terminal_node (s : Server) (node parent : NodeId) (spawned : option string) (live : bool)
    (others : Server → Server) : Server * result CreateTerminalError TypeRef :=
  match prepare_terminal_type s with
  | Ok (s1, (ty, rollback)) =>
      let s2 := others s1 in
      match spawned with
      | Some message => (rollback_terminal_type s2 live rollback, Err (CtSpawn message))
      | None =>
          match transaction_with_result (inner s2) (terminal_closure node parent ty) with
          | Ok (i, (ty, _)) => (with_inner s2 i, Ok ty)
          | Err e => (rollback_terminal_type s2 live rollback, Err (CtCommit e))
          | Panic => (s2, Panic)
          | Diverge => (s2, Diverge)
          end
      end
  | Err e => (s, Err (CtRefused e))
  | Panic => (s, Panic)
  | Diverge => (s, Diverge)
  end.

(** A session that has live terminals has declared the profile. *)
Definition declares_terminals (s : Server) : Prop :=
  terminal_v1 ∈ cap_required (capabilities s) ∧ terminal_v1 ∉ cap_optional (capabilities s) ∧
  TERMINAL_PROFILE_URI ∈ extension_uri <$> extension_namespaces s.

(** Preparing again changes nothing. *)
Lemma prepare_declared s s' ty r : declares_terminals s → prepare_terminal_type s = Ok (s', (ty, r)) → s' = s.
Proof.
  intros (Hreq & Hopt & Huri) Heq. apply prepare_terminal_spec in Heq as (_ & _ & _ & Hs' & _ & _ & Ht).
  destruct (created_namespace r) as [id|]; [by destruct Ht as (_ & ? & _)|].
  rewrite Hs', Ht. replace ({[terminal_v1]} ∪ cap_required (capabilities s)) with (cap_required (capabilities s)) by set_solver.
  replace (cap_optional (capabilities s) ∖ {[terminal_v1]}) with (cap_optional (capabilities s)) by set_solver.
  by destruct s as [? ? [? ?] ? ? ? ? ? ? ?].
Qed.

Lemma rollback_live s r : rollback_terminal_type s true r = s.
Proof. unfold rollback_terminal_type. by rewrite orb_true_r. Qed.

(** Undoing a preparation, whether or not other terminals are live. *)
Lemma prepare_rollback s s' ty r live : (live = true → declares_terminals s) →
  prepare_terminal_type s = Ok (s', (ty, r)) → rollback_terminal_type s' live r = s.
Proof.
  intros Hlive Heq. destruct live; [|by eapply rollback_restores].
  rewrite rollback_live. eapply prepare_declared; [by apply Hlive|done].
Qed.

Lemma prepared_declares s s' ty r : prepare_terminal_type s = Ok (s', (ty, r)) → declares_terminals s' ∧
  mkMapping TERMINAL_PROFILE_URI (type_namespace_id ty) ∈ extension_namespaces s' ∧ inner s' = inner s.
Proof.
  intros (_ & _ & Hin & Hs' & _)%prepare_terminal_spec. split; [|split; [done|by rewrite Hs']].
  split_and!; [rewrite Hs'; cbn; set_solver..|]. by apply (list_elem_of_fmap_2 extension_uri) in Hin.
Qed.

(** The transaction of a terminal: one node of the terminal's type. *)
Lemma terminal_transaction s node parent ty s' ty' tx : session_wf s →
  transaction_with_result s (terminal_closure node parent ty) = Ok (s', (ty', tx)) →
  ty' = ty ∧ tx = txn_to_wire (Transaction_new (revision (store s)) [CreateNode node ty (Some parent) None []]) ∧
  can_create (store s) node (Some parent) None [] ∧
  store s' = commit_staging (store s) (created (store s) node ty (Some parent) None []) (revision (store s) + 1)%N.
Proof.
  intros Hs Heq. apply transaction_with_result_Ok in Heq as (ui & Hf & _ & -> & ->); [|done].
  unfold terminal_closure, ui_apply_op in Hf. destruct (record_op _) as [ui1 [[]|e| |]] eqn:Hrec; [|done..].
  unfold record_op in Hrec. injection Hrec as <- _. cbn [ui_staged UiTransaction_new ui_operations app] in Hf.
  destruct (apply (store s) _) as [staged r] eqn:Ha. destruct r as [[]|e| |]; [|done..]. injection Hf as <- <-.
  split; [done|]. split; [done|]. cbn [ui_staged store install].
  cbn [apply] in Ha. destruct (create_node _ _ _ _ _ _) as [st|e| |] eqn:Hc; [|done..]. injection Ha as <-.
  apply create_node_effect in Hc as [Hcan ->]; [done|apply Hs].
Qed.

Lemma prepare_returns s : returns (prepare_terminal_type s).
Proof.
  unfold prepare_terminal_type. apply returns_bind; [apply returns_err_if|intros _ _].
  apply returns_bind; [|by intros [? ?] _]. destruct (find_namespace _ _); [done|].
  apply returns_bind; [|done]. pose proof (next_extension_namespace_spec (extension_namespaces s)) as Hn.
  by destruct (next_extension_namespace _).
Qed.

Lemma terminal_transaction_returns s node parent ty : session_wf s →
  returns (transaction_with_result s (terminal_closure node parent ty)).
Proof.
  intros Hs. unfold transaction_with_result. apply returns_bind; [apply returns_ok_or|intros rev Hrev].
  rewrite clone_staging_id. unfold terminal_closure at 1, ui_apply_op, record_op.
  destruct (err_if _ _) as [[]|e| |] eqn:Herr; [|done|by unfold err_if in Herr; case_match..].
  destruct (apply _ _) as [staged r] eqn:Ha. cbn [apply ui_staged UiTransaction_new] in Ha.
  pose proof (create_node_returns (store s) node ty (Some parent) None []) as Hc.
  destruct (create_node _ _ _ _ _ _) as [st|e| |]; [|injection Ha as <- <-; done|by destruct Hc; apply Hs..].
  injection Ha as <- <-. cbn [fmap result_fmap ui_operations].
  apply ok_or_Ok, checked_add64_Some in Hrev as [-> Hmax]. unfold AuthoritativeCommit_new.
  rewrite (prepare_lockstep s (Transaction_new (revision (store s)) _) Hs eq_refl). done.
Qed.
End terminal.
