(* ===== verification/Demo.v ===== *)
(** * Concrete states for the witnesses

    The registries of this revision of the repository, simple instances of the
    parameters, and small stores, journals and sessions that the theorems'
    witnesses evaluate on. *)

From S2P Require Import Prelude.
From S2P Require Import Values.
From S2P Require Import Limits.
From S2P Require Import Models.
From S2P Require Import ModelFacts.
From S2P Require Import Store.
From S2P Require Import StoreFacts.
From S2P Require Import StoreInv.
From S2P Require Import StoreMove.
From S2P Require Import StoreModels.
From S2P Require Import Transaction.
From S2P Require Import TransactionFacts.
From S2P Require Import Wire.
From S2P Require Import WireFacts.
From S2P Require Import SnapshotFraming.
From S2P Require Import Snapshot.
From S2P Require Import SnapshotItems.
From S2P Require Import SnapshotFacts.
From S2P Require Import Journal.
From S2P Require Import Dedupe.
From S2P Require Import DedupeFacts.
From S2P Require Import Event.
From S2P Require Import TextTracker.
From S2P Require Import Resources.
From S2P Require Import Outbound.
From S2P Require Import Session.
From S2P Require Import SessionFacts.
From S2P Require Import Replication.
From S2P Require Import OutboundFacts.
From S2P Require Import Terminal.
From S2P Require Import TerminalFacts.
From S2P Require Import Capability.
From S2P Require Import Extensions.
From S2P Require Import ExtensionsFacts.
From S2P Require Import Handshake.
From S2P Require Import HandshakeFacts.
From S2P Require Import SessionEvents.
From S2P Require Import HandshakeRuns.

#[export] Existing Instance standard_registry.
#[export] Existing Instance standard_events.

(** The properties of an item in the order of its map. *)
#[export] Instance demo_property_iter : PropertyIter :=
  {| iter_properties := map_to_list; iter_properties_perm _ := reflexivity _ |}.
#[export] Instance demo_diagnostics : Diagnostics := {|
  validation_message _ := "invalid event";
  store_message _ := "store error";
  journal_message _ := "journal error";
  session_message _ := "session error";
  wire_message _ := "wire error" |}.

(** A checksum in the place of SHA-256: sixteen bytes of a sum, twice. *)
Definition demo_digest (b : list N) : list N :=
  let sum := foldr (λ x n, (x + 31 * n) mod 65521)%N 7%N b in
  replicate 30 0%N ++ [(sum / 256)%N; (sum mod 256)%N].
#[export] Instance demo_digest_instance : Digest := {| sha256 := demo_digest; sha256_length _ := eq_refl |}.

(** Every envelope counts 16 bytes per operation. *)
#[export] Instance demo_framing : Framing := λ tx, (16 * len (Msg.operations tx))%N.

(** A decidable goal about concrete data, by evaluation. *)
Ltac decide_now := apply (bool_decide_unpack _); vm_compute; exact I.

Definition nid := mkNodeId.
Definition iid := mkItemId.
Definition mid := mkModelId.
Definition window_type := TypeRef_standard 1.
Definition text_type := TypeRef_standard 13.
Definition list_type := TypeRef_standard 20.
Definition item (id : N) : ModelItem := mkModelItem (iid id) VNull ∅.

Definition demo_limits : StoreLimits := StoreLimits_default.

Definition demo_ops : list Operation :=
  [CreateModel (mid 1) list_type 4;
   ModelResetRange (mid 1) 0 [item 10; item 11] None;
   CreateNode (nid 1) window_type None None [];
   CreateNode (nid 2) text_type (Some (nid 1)) None [(PROP_VALUE, VString "a")];
   CreateNode (nid 3) window_type (Some (nid 1)) (Some 0%N) [(MODEL_REF, VUnsignedInt 1)];
   CreateNode (nid 4) window_type (Some (nid 3)) None [];
   CreateNode (nid 5) window_type None None []].

Definition ok_store {E} (r : result E SemanticStore) : SemanticStore :=
  match r with Ok s => s | _ => with_limits demo_limits end.

(** Nodes 3 (with child 4) and 2 under root 1; root 5; a model of four items of
    which the first two are cached. *)
Definition demo_store : SemanticStore :=
  ok_store (apply_ops 0 (with_limits demo_limits) demo_ops).

Lemma demo_store_ok : apply_ops 0 (with_limits demo_limits) demo_ops = Ok demo_store.
Proof. vm_compute. reflexivity. Qed.

Lemma demo_store_wf : store_wf demo_store.
Proof. apply (apply_ops_wf 0 (with_limits demo_limits) demo_ops); [apply store_wf_empty|apply demo_store_ok]. Qed.

(** Two transactions on [demo_store], the first deleting a subtree. *)
Definition demo_history : list Transaction :=
  [Transaction_new 0%N [DeleteNode (nid 3)]; Transaction_new 1%N []].

(** A model of four items that caches the first two. *)
Definition demo_collection : list ItemId := [iid 10; iid 11; iid 12; iid 13].
Definition demo_model : Model := (reset_range (Model_new (mid 1) list_type 4) 0 [item 10; item 11] None).1.

Lemma represents_new id t l : NoDup l → represents (Model_new id t (len l)) l.
Proof.
  intros Hnd. split; [apply cache_wf_new|done|done|]. intros i it. cbn. by rewrite lookup_empty.
Qed.

Lemma demo_model_represents : represents demo_model demo_collection.
Proof.
  apply (reset_window_represents (Model_new (mid 1) list_type 4) demo_collection 0 [item 10; item 11]).
  - apply (represents_new (mid 1) list_type demo_collection). decide_now.
  - done.
  - done.
  - decide_now.
  - vm_compute. reflexivity.
Qed.

Lemma demo_caches_bounded : caches_bounded demo_store.
Proof.
  change (map_Forall (λ _ m, cached_item_count m ≤ max_cached_items_per_model (limits demo_store))%N (models demo_store)).
  decide_now.
Qed.

(** ** A session *)

Definition demo_session : SessionInner :=
  mkSession Attached 1 demo_store (Journal_new 2) Dedupe_default Tracker_default [].

Lemma demo_session_wf : session_wf demo_session.
Proof. split; [exact demo_store_wf|apply (with_initial_revision_wf 2 0)|vm_compute; reflexivity]. Qed.

Lemma demo_events_wf : events_wf demo_session.
Proof. split; [apply empty_wf|apply Tracker_new_wf; vm_compute; discriminate]. Qed.

(** Three commits in a row, and the sessions they leave. *)
Definition demo_tx (base : N) (text : string) : Msg.Transaction :=
  txn_to_wire (Transaction_new base [SetProperty (nid 2) PROP_VALUE (VString text)]).
Definition commit_demo (s : SessionInner) (tx : Msg.Transaction) : SessionInner :=
  match commit_transaction s tx with Ok (s', _) => s' | _ => s end.
Definition demo_session1 : SessionInner := commit_demo demo_session (demo_tx 0 "b").
Definition demo_session2 : SessionInner := commit_demo demo_session1 (demo_tx 1 "c").

Lemma demo_commit1 : commit_transaction demo_session (demo_tx 0 "b") = Ok (demo_session1, demo_tx 0 "b").
Proof. vm_compute. reflexivity. Qed.
Lemma demo_commit2 : commit_transaction demo_session1 (demo_tx 1 "c") = Ok (demo_session2, demo_tx 1 "c").
Proof. vm_compute. reflexivity. Qed.

Lemma demo_tx_typed base text : txn_typed (demo_tx base text).
Proof. constructor; [exact I|constructor]. Qed.

Lemma demo_run : session_run Careful demo_session [demo_tx 0 "b"; demo_tx 1 "c"] demo_session2.
Proof.
  apply (run_step _ _ [demo_tx 0 "b"] demo_session1 None [demo_tx 1 "c"]).
  - eapply session_run_one, (step_commit _ _ (demo_tx 0 "b")); [apply demo_tx_typed|exact demo_commit1].
  - apply (step_commit _ _ (demo_tx 1 "c")); [apply demo_tx_typed|exact demo_commit2].
Qed.

(** An activation of node 2, and a text edit of it, by one client. *)
Definition demo_client : Bytes := [1%N].
Definition demo_event : WireEvent :=
  mkWireEvent demo_client 1 [7%N] 0 2 (Some (TypeRef_standard 1)) [] 0.
Definition demo_edit : WireEvent :=
  mkWireEvent demo_client 2 [8%N] 0 2 (Some EVENT_TEXT_EDIT)
    [pair_to_wire (PROP_TEXT, VString "typed")] 1.
Definition running_session : SessionInner := (process_event demo_session demo_event).1.
Definition settled_session : SessionInner := (dispatch_admitted_event running_session demo_event Ordinary HandlersDone).1.

Lemma demo_event_starts : starts (process_event demo_session demo_event).2.
Proof. vm_compute. exact I. Qed.

(** ** A snapshot *)

(** Ten bytes per item, twenty per operation, seven bits per varint byte. *)
#[export] Instance demo_item_encoding : ItemEncoding := λ _, 10%N.

Lemma varint_mono a b : (a ≤ b)%N → (1 + N.log2 a / 7 ≤ 1 + N.log2 b / 7)%N.
Proof. intros Hab. apply N.add_le_mono_l, N.Div0.div_le_mono, N.log2_le_mono, Hab. Qed.
#[export] Instance demo_encoding : Encoding :=
  {| op_encoded_len _ := 20%N; encoded_len_varint n := (1 + N.log2 n / 7)%N;
     encoded_len_varint_mono := varint_mono |}.

(** Values that mention no resource. *)
Definition plain_value (v : Value) : bool :=
  match v with VNull | VBool _ | VString _ | VUnsignedInt _ => true | _ => false end.

Lemma plain_sized v : plain_value v = true → sized v.
Proof. destruct v; intros Hv hash Hm; by inversion Hm. Qed.

Definition plain_node (n : Node) : bool :=
  bool_decide (parent_id n ≠ Some (mkNodeId 0)) && forallb plain_value (map_to_list (properties n)).*2.

Definition all_plain (s : SemanticStore) : bool := forallb plain_node (map_to_list (nodes s)).*2.

Lemma nodes_plain s i n : all_plain s = true → nodes s !! i = Some n → plain_node n = true.
Proof.
  intros Hall Hi%elem_of_map_to_list. unfold all_plain in Hall. rewrite forallb_forall in Hall.
  apply Hall, list_elem_of_In. by apply (list_elem_of_fmap_2 snd) in Hi.
Qed.

Lemma demo_models_eq : models demo_store = {[mid 1 := demo_model]}.
Proof. vm_compute. reflexivity. Qed.

Lemma demo_items_eq : items demo_model = {[0%N := item 10; 1%N := item 11]}.
Proof. vm_compute. reflexivity. Qed.

Lemma demo_model_exportable : model_exportable demo_limits demo_model.
Proof.
  assert (∀ k it, items demo_model !! k = Some it → (k < 2)%N ∧ item_value it = VNull ∧ item_properties it = ∅)
    as Hits.
  { intros k it. rewrite demo_items_eq.
    intros [[<- <-]|[_ [<- <-]%lookup_singleton_Some]]%lookup_insert_Some; by split_and!. }
  split.
  - apply demo_model_represents.
  - intros k [it (Hk & _)%Hits]. assert (item_count demo_model = 4%N) as -> by (vm_compute; reflexivity). lia.
  - vm_compute. discriminate.
  - vm_compute. discriminate.
  - intros k it (_ & -> & ->)%Hits. split; [by apply validate_value_Ok with tt|]. intros p v. by rewrite lookup_empty.
  - intros k it (_ & Hv & Hp)%Hits. split; [rewrite Hv; by apply plain_sized|].
    intros p v. by rewrite Hp, lookup_empty.
Qed.

Lemma plain_exportable s : store_wf s → limits s = demo_limits → models s = {[mid 1 := demo_model]} →
  used_model_ids s = {[mid 1]} → all_plain s = true → exportable s.
Proof.
  intros Hwf Hl Hm Hu Hall. split.
  - exact Hwf.
  - intros i. rewrite Hm, Hu. intros ->%elem_of_singleton. rewrite lookup_singleton_eq. eauto.
  - intros i m. rewrite Hm, Hl. intros [_ <-]%lookup_singleton_Some. exact demo_model_exportable.
  - intros i n p v Hn Hp. apply (nodes_plain _ _ _ Hall), andb_true_iff in Hn as [_ Hn].
    rewrite forallb_forall in Hn. apply plain_sized, Hn, list_elem_of_In.
    apply elem_of_map_to_list in Hp. by apply (list_elem_of_fmap_2 snd) in Hp.
  - intros i n Hn%(nodes_plain _ _ _ Hall). apply andb_true_iff in Hn as [Hn _]. by apply bool_decide_eq_true in Hn.
  - rewrite Hl. vm_compute. discriminate.
  - rewrite Hl. vm_compute. discriminate.
Qed.

Lemma demo_exportable : exportable demo_store.
Proof. apply plain_exportable; [exact demo_store_wf|..]; vm_compute; reflexivity. Qed.

Definition demo_snapshot : Msg.Transaction :=
  match export_snapshot_transaction demo_store with Ok tx => tx | _ => Msg.mkTransaction 0 0 [] 0 end.

Lemma demo_export : export_snapshot_transaction demo_store = Ok demo_snapshot.
Proof. vm_compute. reflexivity. Qed.

(** A client that takes frames of 60 bytes, and so the snapshot in four parts. *)
Definition demo_client_limits : ClientLimits := mkClientLimits 60 0 0 0 0 0 4.

Definition demo_plan : SnapshotFramePlan := mkPlan [(0, 2); (2, 4); (4, 6); (6, 7)]%N.
Lemma demo_plan_delivery :
  plan_snapshot_delivery demo_snapshot 0 (Some demo_client_limits) = Ok demo_plan.
Proof. vm_compute. reflexivity. Qed.

(** The operations of the snapshot, one per envelope. *)
Definition demo_division : list (list Msg.Operation) := map (λ op, [op]) (Msg.operations demo_snapshot).

Lemma demo_snapshot_some : Msg.operations demo_snapshot ≠ [].
Proof. vm_compute. discriminate. Qed.

(** ** A concrete server and its clients

    A server whose session has run two transactions since its start, a fresh and
    a returning client, and a terminal's output ring, for the witnesses of the
    theorems on handshakes and terminals. *)

(** The first key in the order of [gmap]. *)
#[export] Instance demo_hash_order : HashOrder := λ m, head (map_to_list m).*1.

(** ** The session *)

Definition ok_session {E} (r : result E SessionInner) : SessionInner :=
  match r with Ok s => s | _ => demo_session end.
Definition started : SessionInner := ok_session (Session_with_config 4 8).
Definition build_tx : Msg.Transaction := txn_to_wire (Transaction_new 0%N demo_ops).
Definition edit_tx : Msg.Transaction := demo_tx 1 "b".
Definition served1 : SessionInner := commit_demo started build_tx.
Definition served2 : SessionInner := commit_demo served1 edit_tx.

Lemma started_ok : Session_with_config 4 8 = Ok started.
Proof. vm_compute. reflexivity. Qed.
Lemma served1_ok : commit_transaction started build_tx = Ok (served1, build_tx).
Proof. vm_compute. reflexivity. Qed.
Lemma served2_ok : commit_transaction served1 edit_tx = Ok (served2, edit_tx).
Proof. vm_compute. reflexivity. Qed.

Lemma build_typed : txn_typed build_tx.
Proof. repeat (constructor; [vm_compute; (exact I || discriminate)|]). constructor. Qed.

Lemma served1_run : session_run Careful started [build_tx] served1.
Proof. eapply session_run_one, (step_commit _ _ build_tx); [apply build_typed|exact served1_ok]. Qed.
Lemma served2_run : session_run Careful served1 [edit_tx] served2.
Proof. eapply session_run_one, (step_commit _ _ edit_tx); [apply demo_tx_typed|exact served2_ok]. Qed.

Lemma served2_from_start : session_run Careful started [build_tx; edit_tx] served2.
Proof. apply (session_run_trans _ _ [build_tx] served1 [edit_tx]); [exact served1_run|exact served2_run]. Qed.

Lemma in_range s l s' : session_run Careful s l s' → session_run InRange s l s'.
Proof. apply session_run_weaken. cbn. lia. Qed.

(** A closure that deletes a node that is not there and ignores the error: what
    it recorded is committed and published.  Then an event arrives. *)
Definition careless (ui : UiTransaction) (revs : N * N) : UiTransaction * result StoreError unit :=
  ((ui_delete ui (nid 99)).1, Ok tt).
Definition careless_tx : Msg.Transaction := txn_to_wire (Transaction_new 2%N [DeleteNode (nid 99)]).
Definition careless_session : SessionInner :=
  match transaction_with_result served2 careless with Ok (s', _) => s' | _ => served2 end.
Definition careless_left : SessionInner := (process_event careless_session demo_event).1.

Lemma careless_ok : transaction_with_result served2 careless = Ok (careless_session, (tt, careless_tx)).
Proof. vm_compute. reflexivity. Qed.

Lemma careless_admitted : admits_closure WireSafe careless.
Proof.
  split; intros ui revs ui' v [= <- _] Hnil.
  - exact (ui_reach_step _ _ (DeleteNode (nid 99)) (ui_reach_refl ui)).
  - pose proof (ui_apply_op_inv ui (DeleteNode (nid 99)) _ _ (surjective_pairing _))
      as (_ & _ & [(_ & Hops & _)|(_ & Hops & _)]); unfold ui_delete; rewrite Hops, Hnil; by repeat constructor.
Qed.

Lemma careless_run : session_run WireSafe started [build_tx; edit_tx; careless_tx] careless_left.
Proof.
  apply (session_run_trans _ _ [build_tx; edit_tx] served2 [careless_tx]).
  { apply (session_run_weaken Careful); [cbn; lia|exact served2_from_start]. }
  apply (run_step _ _ [careless_tx] careless_session None []); [|apply step_process].
  eapply session_run_one, (step_closure _ served2 careless careless_session tt); [exact careless_admitted|].
  exact careless_ok.
Qed.

Lemma served2_exportable : exportable (store served2).
Proof.
  apply plain_exportable; [|vm_compute; reflexivity..].
  pose proof (Session_with_config_wf _ _ _ started_ok) as Hwf.
  by destruct (session_run_ok Careful _ _ _ ltac:(done) Hwf served2_from_start) as [[] _ _ _].
Qed.

(** ** The server *)

(** The standard widgets are required; a charts extension is optional. *)
Definition charts_v1 : Profile := mkProfile "org.example.charts" 1.
Definition demo_server (i : SessionInner) : Server :=
  mkServer i "session-1" (mkServerCapabilities {[standard_widgets_v1]} {[charts_v1]}) ServerLimits_default
    (ResourceStore_with_limits ResourceLimits_default) ∅
    [standard_namespace_mapping; mkMapping "org.example.charts/1" 1] false Hub_new 8.

(** A second commit comes between the first two acquisitions. *)
Definition demo_locks (k : nat) : Server := demo_server (match k with O => served1 | S _ => served2 end).

Lemma demo_serving : serving started demo_locks.
Proof.
  split.
  - exists 4%N, 8%N. exact started_ok.
  - exists [build_tx]. exact (in_range _ _ _ served1_run).
  - intros [|k]; [exists [edit_tx]; exact (in_range _ _ _ served2_run)|exists []; constructor].
  - done.
Qed.

Definition demo_hello : ClientHello :=
  mkHello "0.5.7" ["org.srui.standard-widgets/1"; " org.example.charts/1 "; "?"] (Some demo_client_limits) demo_client [].

Definition fresh_left : Server := (bootstrap_fresh_client demo_locks [] demo_hello).2.1.

(** Naming what a handshake that succeeds returns. *)
Lemma handshake_ok {E A} (x : nat * (Server * result E A)) k : x.1 = k → is_ok x.2.2 = true →
  ∃ b, x = (k, (x.2.1, Ok b)).
Proof. destruct x as [? [s' [b|e| |]]]; try done. intros <-. by exists b. Qed.

(** A client that does not know the standard widgets. *)
Definition unknown_hello : ClientHello := mkHello "0.5.7" [] None demo_client [].
Definition is_Err {E A} (r : result E A) : Prop := ∃ e, r = Err e.

Lemma fresh_ok : ∃ b, bootstrap_fresh_client demo_locks [] demo_hello = (3, (fresh_left, Ok b)).
Proof. unfold fresh_left. apply handshake_ok; vm_compute; reflexivity. Qed.

(** ** Clients that come back *)

(** The client was at revision 1 when its connection broke; it held an edit of
    node 2 that the server has not acknowledged. *)
Definition pending_edit : PendingTextEditRef := mkPendingRef [9%N] 1 2 1.
Definition demo_resume (last : N) (id : string) : ClientResume :=
  mkResume id demo_client last 0 ∅ None [] [pending_edit] "0.5.0" ["org.srui.standard-widgets/1"].

(** In the second server the client's queue has overflowed. *)
Definition overflowed_server (i : SessionInner) : Server :=
  with_hub (demo_server i) (mkHub [] (mark Stale_default demo_client 8) false).
Definition overflowed_locks (k : nat) : Server := overflowed_server served2.
Definition settled_locks (k : nat) : Server := demo_server served2.

Lemma settled_serving : serving started settled_locks.
Proof.
  split.
  - exists 4%N, 8%N. exact started_ok.
  - exists [build_tx; edit_tx]. exact (in_range _ _ _ served2_from_start).
  - intros k. exists []. constructor.
  - done.
Qed.
Lemma overflowed_serving : serving started overflowed_locks.
Proof. destruct settled_serving as [Hstart Hfirst Hnext Hlimits]. by split. Qed.

(** A replica that has followed the session up to its first transaction. *)
Definition demo_replica : SemanticStore := store served1.

Lemma demo_returning : returning started served2 "session-1" (demo_resume 1 "session-1") demo_replica.
Proof.
  left. split; [done|]. exists served1, [build_tx], [edit_tx].
  split_and!; [exact (in_range _ _ _ served1_run)|exact served2_run|done|vm_compute; reflexivity].
Qed.

(** Nobody else uses the hub; or it forgets that the client's queue overflowed
    while the handshake exports the snapshot. *)
Definition quiet (k : nat) (h : OutboundHub) : OutboundHub := h.
Definition cleared (k : nat) (h : OutboundHub) : OutboundHub := clear_stale_client h demo_client.

Definition resumed_left : Server := (bootstrap_resume settled_locks quiet [] (demo_resume 1 "session-1")).2.1.
Definition resynced_left : Server := (bootstrap_resume overflowed_locks cleared [] (demo_resume 1 "session-1")).2.1.

Lemma resumed_ok : ∃ b, bootstrap_resume settled_locks quiet [] (demo_resume 1 "session-1") = (0, (resumed_left, Ok b)).
Proof. unfold resumed_left. apply handshake_ok; vm_compute; reflexivity. Qed.
Lemma resynced_ok : ∃ b, bootstrap_resume overflowed_locks cleared [] (demo_resume 1 "session-1") = (1, (resynced_left, Ok b)).
Proof. unfold resynced_left. apply handshake_ok; vm_compute; reflexivity. Qed.

Lemma resynced_outcome : ∃ b m tx,
  bootstrap_resume overflowed_locks cleared [] (demo_resume 1 "session-1") = (1, (resynced_left, Ok b)) ∧
  rb_outcome b = Resync m tx ∧ rr_continuity m = SameSession.
Proof.
  destruct resynced_ok as [b Heq]. exists b.
  assert ((λ b, match rb_outcome b with Resync m _ => Some (rr_continuity m) | Replay _ _ => None end)
    <$> (bootstrap_resume overflowed_locks cleared [] (demo_resume 1 "session-1")).2.2 = Ok (Some SameSession)) as Hx
    by (vm_compute; reflexivity).
  rewrite Heq in Hx. cbn in Hx. destruct (rb_outcome b) as [|m tx]; [done|]. injection Hx as Hx. exists m, tx. split; [exact Heq|]. split; [reflexivity|exact Hx].
Qed.

(** The pending edit as the handshake validates it, and the event itself. *)
Definition pending_validated : ValidatedPendingTextEditRef := mkValidatedRef pending_edit [9%N] 1%N.
Definition late_edit : WireEvent :=
  mkWireEvent demo_client 1 [9%N] 0 2 (Some EVENT_TEXT_EDIT) [pair_to_wire (PROP_TEXT, VString "late")] 1.

Lemma served2_events : events_wf served2.
Proof.
  assert (dedupe served2 = Dedupe_default ∧ text_edit_tracker served2 = Tracker_default) as [Hd Ht]
    by (split; vm_compute; reflexivity).
  split; [rewrite Hd; apply empty_wf|rewrite Ht; apply Tracker_new_wf; vm_compute; discriminate].
Qed.

(** ** A terminal *)

(** A ring of four bytes that has printed seven. *)
Definition demo_ring : OutputRing :=
  match Ring_new 4 with Ok r => r | _ => mkRing [] 0 0 0 0 end.
Lemma demo_ring_new : Ring_new 4 = Ok demo_ring.
Proof. vm_compute. reflexivity. Qed.
Definition demo_term_ops : list TermOp :=
  [TermAppend [1; 2; 3]%N; TermDrain; TermAppend [4]%N; TermAppend [5; 6; 7]%N; TermDrain; TermAppend [8]%N].
