(* ===== verification/StoreTheorems.v ===== *)
(** * Properties of the semantic store

    What the operations of [semantic-tree] promise: the invariant they keep, and
    exactly when each succeeds and what it then leaves. *)

From S2P Require Import Prelude.
From S2P Require Import Values.
From S2P Require Import Limits.
From S2P Require Import Models.
From S2P Require Import ModelFacts.
From S2P Require Import Store.
From S2P Require Import StoreFacts.
From S2P Require Import StoreInv.
From S2P Require Import StoreMove.
From S2P Require Import StoreModels.
From S2P Require Import Transaction.
From S2P Require Import TransactionFacts.
From S2P Require Import Wire.
From S2P Require Import WireFacts.
From S2P Require Import Event.
From S2P Require Import Outbound.
From S2P Require Import Session.
From S2P Require Import SessionFacts.
From S2P Require Import OutboundFacts.
From S2P Require Import Demo.

(** C26: every operation, whether it succeeds or fails, keeps the store well
    formed (child lists, roots and parent pointers describe one forest within
    its depth and count limits; properties within their limits; models under
    their own ids), and never frees a node or model id once used. *)
Theorem operations_keep_invariant `{Registry, PropertyIter} (s : SemanticStore) (op : Operation) :
  store_wf s →
  store_wf (apply s op).1 ∧ used_ids s ⊆ used_ids (apply s op).1 ∧
  used_model_ids s ⊆ used_model_ids (apply s op).1 ∧ limits (apply s op).1 = limits s ∧
  revision (apply s op).1 = revision s.
Proof. intros Hwf. split; [by apply apply_wf|]. by destruct (apply_framed s op Hwf). Qed.

Lemma operations_keep_invariant_witness :
  store_wf (apply demo_store (DeleteNode (nid 3))).1 ∧ nid 4 ∈ used_ids (apply demo_store (DeleteNode (nid 3))).1.
Proof.
  destruct (operations_keep_invariant demo_store (DeleteNode (nid 3)) demo_store_wf) as (Hwf & Hu & _).
  split; [exact Hwf|]. apply Hu. decide_now.
Defined.

(** C35: on a well-formed store every operation returns: no [expect] fires, no
    slice is out of range and every traversal ends, provided the range of a
    [MODEL_DELETE] ends within [u64]. *)
Theorem operations_return `{Registry, PropertyIter} (s : SemanticStore) (op : Operation) :
  store_wf s → op_bounded op → returns (apply s op).2.
Proof. apply apply_returns. Qed.

Lemma operations_return_witness : returns (apply demo_store (MoveNode (nid 1) (Some (nid 4)) None)).2.
Proof. apply (operations_return demo_store (MoveNode (nid 1) (Some (nid 4)) None) demo_store_wf). exact I. Defined.

(** CREATE_NODE succeeds exactly when the id was never used, the node count
    and depth limits leave room, the parent exists, the index is in range and
    every property is valid; the new store then differs by that node alone,
    placed where it was asked for. *)
Theorem create_node_exactly `{Registry, PropertyIter} (s : SemanticStore) (id : NodeId) (t : TypeRef)
    (parent : option NodeId) (index : option N) (ps : list (PropertyRef * Value)) (s' : SemanticStore) :
  store_wf s →
  create_node s id t parent index ps = Ok s' ↔
    can_create s id parent index ps ∧ s' = created s id t parent index ps.
Proof. intros Hwf. apply create_node_effect, Hwf. Qed.

Lemma create_node_exactly_witness :
  create_node demo_store (nid 9) text_type (Some (nid 4)) None [] =
    Ok (created demo_store (nid 9) text_type (Some (nid 4)) None []) ∧
  can_create demo_store (nid 9) (Some (nid 4)) None [].
Proof.
  assert (create_node demo_store (nid 9) text_type (Some (nid 4)) None [] =
    Ok (created demo_store (nid 9) text_type (Some (nid 4)) None [])) as Heq by (vm_compute; reflexivity).
  split; [exact Heq|].
  by apply (create_node_exactly demo_store (nid 9) text_type (Some (nid 4)) None [] _ demo_store_wf) in Heq as [? _].
Defined.

(** DELETE_NODE on an existing node always succeeds and removes exactly its
    subtree, each node once; the nodes that stay keep type, properties and
    parent, the ids stay used, models and limits are untouched. *)
Theorem delete_node_exactly `{Registry, PropertyIter} (s : SemanticStore) (id : NodeId) :
  store_wf s → is_Some (nodes s !! id) →
  ∃ s' deleted, delete_node s id = Ok (s', deleted) ∧
    NoDup deleted ∧ (∀ j, j ∈ deleted ↔ under (parents (nodes s)) id j) ∧
    (∀ j, parents (nodes s') !! j = if decide (j ∈ deleted) then None else parents (nodes s) !! j) ∧
    regraphed s s'.
Proof.
  intros Hwf [n Hn]. destruct (delete_node_spec s id n Hwf Hn) as (L & Heq & Hnd & HL).
  do 2 eexists. split; [exact Heq|]. split_and!; [done|done| |by apply delete_node_regraphed].
  intros j. cbn [nodes with_nodes]. by rewrite removed_parents, detach_parents.
Qed.

Lemma delete_node_exactly_witness :
  ∃ s', delete_node demo_store (nid 3) = Ok (s', [nid 3; nid 4]) ∧ under (parents (nodes demo_store)) (nid 3) (nid 4).
Proof.
  destruct (delete_node_exactly demo_store (nid 3) demo_store_wf) as (s' & L & Heq & _ & HL & _).
  { vm_compute. by eexists. }
  assert (L = [nid 3; nid 4]) as -> by (vm_compute in Heq; by injection Heq as _ <-).
  exists s'. split; [exact Heq|]. apply HL. right. by left.
Defined.

(** C37: MOVE_NODE either succeeds, exactly when the move is legal (node and
    parent exist, the parent is not inside the node's own subtree, the moved
    subtree fits the depth limit at its new place, the index is in range), and
    then re-parents that node, splices it into the new siblings, drops it from
    the old ones and changes nothing else; or fails and the move was illegal. *)
Theorem move_node_exactly `{Registry, PropertyIter} (s : SemanticStore) (id : NodeId)
    (parent : option NodeId) (index : option N) :
  store_wf s →
  (∃ s', move_node s id parent index = Ok s' ∧ can_move s id parent index ∧ moved s id parent index s') ∨
  (∃ e, move_node s id parent index = Err e ∧ ¬ can_move s id parent index).
Proof. apply move_node_cases. Qed.

Lemma move_node_exactly_witness :
  ¬ can_move demo_store (nid 1) (Some (nid 4)) None ∧ can_move demo_store (nid 3) (Some (nid 5)) (Some 0%N).
Proof.
  split.
  - destruct (move_node_exactly demo_store (nid 1) (Some (nid 4)) None demo_store_wf) as [(s' & Heq & _)|(e & _ & ?)];
      [|done]. vm_compute in Heq. discriminate Heq.
  - destruct (move_node_exactly demo_store (nid 3) (Some (nid 5)) (Some 0%N) demo_store_wf) as [(s' & _ & ? & _)|(e & Heq & _)];
      [done|]. vm_compute in Heq. discriminate Heq.
Defined.

(** REORDER_CHILDREN succeeds exactly for a permutation of the parent's
    children, and then installs that order and nothing else. *)
Theorem reorder_children_exactly `{Registry, PropertyIter} (s : SemanticStore) (parent : NodeId) (order : list NodeId)
    (s' : SemanticStore) :
  store_wf s →
  reorder_children s parent order = Ok s' ↔
    ∃ n, nodes s !! parent = Some n ∧ order ≡ₚ ordered_children n ∧
      s' = with_nodes s (<[parent := with_children n order]> (nodes s)).
Proof. intros Hwf. apply reorder_children_effect, Hwf. Qed.

Lemma reorder_children_exactly_witness :
  ∃ s' n, reorder_children demo_store (nid 1) [nid 2; nid 3] = Ok s' ∧ nodes demo_store !! nid 1 = Some n ∧
    [nid 2; nid 3] ≡ₚ ordered_children n.
Proof.
  destruct (reorder_children demo_store (nid 1) [nid 2; nid 3]) as [s'|e| |] eqn:Heq;
    [|vm_compute in Heq; discriminate Heq..].
  exists s'. pose proof Heq as Heq'.
  apply (reorder_children_exactly demo_store (nid 1) [nid 2; nid 3] s' demo_store_wf) in Heq' as (n & Hn & Hp & _).
  exists n. split; [reflexivity|]. split; [exact Hn|exact Hp].
Defined.

(** BATCH_PROPERTY_SET is all or nothing: it succeeds exactly when the node
    exists and every value is within its limits with every model reference
    resolving, and then the last value listed for a property is the one set. *)
Theorem batch_property_set_exactly `{Registry, PropertyIter} (s : SemanticStore) (id : NodeId)
    (ps : list (PropertyRef * Value)) (s' : SemanticStore) :
  batch_property_set s id ps = Ok s' ↔
    (∀ p v, (p, v) ∈ ps → property_ok s p v) ∧
    ∃ n, nodes s !! id = Some n ∧
      s' = with_nodes s (<[id := with_properties n (insert_all (properties n) ps)]> (nodes s)).
Proof.
  unfold batch_property_set. rewrite bind_unit_Ok, validate_properties_Ok, bind_Ok.
  setoid_rewrite ok_or_Ok. split.
  - intros (Hok & n & Hn & [= <-]). eauto.
  - intros (Hok & n & Hn & ->). eauto.
Qed.

(** ** Collection models *)

(** MODEL_INSERT is list insertion: if the model caches a window of the
    collection [l], then after a successful insert it caches a window of [l]
    with the new items spliced in at the index, provided they are new to the
    whole collection and the count stays within [u64]. *)
Theorem model_insert_refines (m : Model) (l : list ItemId) (index : N) (batch : list ModelItem) (m' : Model) :
  represents m l → (item_count m + len batch ≤ u64_max)%N → (∀ it, it ∈ batch → item_id it ∉ l) →
  insert_items m index batch = Ok m' →
  represents m' (splice (N.to_nat index) (N.to_nat index) (item_id <$> batch) l).
Proof. apply insert_items_represents. Qed.

Lemma model_insert_refines_witness :
  ∃ m', insert_items demo_model 1 [item 20] = Ok m' ∧
    represents m' [iid 10; iid 20; iid 11; iid 12; iid 13].
Proof.
  destruct (insert_items demo_model 1 [item 20]) as [m'|e| |] eqn:Heq; [|vm_compute in Heq; discriminate Heq..].
  exists m'. split; [reflexivity|].
  apply (model_insert_refines demo_model demo_collection 1 [item 20] m' demo_model_represents); [done| |exact Heq].
  intros it ->%list_elem_of_singleton. decide_now.
Defined.

(** The range form of MODEL_DELETE is list deletion of that range. *)
Theorem model_delete_range_refines (m : Model) (l : list ItemId) (idx cnt : N) (m' : Model) :
  represents m l → (item_count m ≤ u64_max)%N → (0 < cnt ≤ u64_max)%N →
  delete_items m (Some idx) (Some cnt) [] = Ok m' →
  represents m' (splice (N.to_nat idx) (N.to_nat (idx + cnt)) [] l).
Proof.
  intros Hrep Hmax Hcnt Heq. apply (delete_range_represents m l idx cnt m' Hrep Hmax Hcnt).
  unfold delete_items in Heq. by rewrite (proj2 (N.ltb_lt 0 cnt) (proj1 Hcnt)) in Heq.
Qed.

Lemma model_delete_range_refines_witness :
  ∃ m', delete_items demo_model (Some 1%N) (Some 2%N) [] = Ok m' ∧ represents m' [iid 10; iid 13].
Proof.
  destruct (delete_items demo_model (Some 1%N) (Some 2%N) []) as [m'|e| |] eqn:Heq;
    [|vm_compute in Heq; discriminate Heq..].
  exists m'. split; [reflexivity|].
  by apply (model_delete_range_refines demo_model demo_collection 1 2 m' demo_model_represents).
Defined.

(** The id form of MODEL_DELETE, on ids the window holds, always succeeds,
    removes exactly those items from the collection and keeps the order and
    positions of the others right. *)
Theorem model_delete_ids_refines (m : Model) (l ids : list ItemId) :
  represents m l → (item_count m ≤ u64_max)%N → ids ≠ [] → NoDup ids →
  (∀ id, id ∈ ids → contains_item m id = true) →
  ∃ m', delete_items m None None ids = Ok m' ∧ represents m' (filter (λ x, x ∉ ids) l).
Proof.
  intros Hrep Hmax Hne Hnd Hin. exists (foldl delete_one m ids).
  split; [|by apply delete_ids_represents]. unfold delete_items. by rewrite bool_decide_eq_true_2.
Qed.

Lemma model_delete_ids_refines_witness :
  ∃ m', delete_items demo_model None None [iid 10] = Ok m' ∧ represents m' [iid 11; iid 12; iid 13].
Proof.
  apply (model_delete_ids_refines demo_model demo_collection [iid 10] demo_model_represents); [done|done|decide_now|].
  intros id ->%list_elem_of_singleton. decide_now.
Defined.

(** MODEL_RESET_RANGE overwrites a window: the model then caches a window
    of the collection with that stretch replaced, as long as the new items do
    not also occur elsewhere in it. *)
Theorem model_reset_range_refines (m : Model) (l : list ItemId) (start : N) (batch : list ModelItem) (m' : Model) :
  represents m l → (item_count m ≤ u64_max)%N → (start + len batch ≤ u64_max)%N →
  NoDup (splice (N.to_nat start) (N.to_nat (start + len batch)) (item_id <$> batch) l) →
  reset_range m start batch None = (m', Ok tt) →
  represents m' (splice (N.to_nat start) (N.to_nat (start + len batch)) (item_id <$> batch) l).
Proof. apply reset_window_represents. Qed.

Lemma model_reset_range_refines_witness :
  ∃ m', reset_range demo_model 2 [item 30; item 31] None = (m', Ok tt) ∧
    represents m' [iid 10; iid 11; iid 30; iid 31].
Proof.
  destruct (reset_range demo_model 2 [item 30; item 31] None) as [m' r] eqn:Heq.
  assert (r = Ok tt) as -> by (vm_compute in Heq; by injection Heq as _ <-).
  exists m'. split; [reflexivity|].
  apply (model_reset_range_refines demo_model demo_collection 2 [item 30; item 31] m' demo_model_represents);
    [done|done|decide_now|exact Heq].
Defined.

(** Eviction drops items outside the kept window only, as many as asked for
    or as there are, the farthest from its middle first and the lower index
    first among equals, so that server and replica drop the same ones. *)
Theorem eviction_drops_farthest (m : Model) (keep_start keep_end count : N) :
  let m' := evict_farthest_outside m keep_start keep_end count in
  let outside k := (k < keep_start)%N ∨ (N.max keep_end keep_start ≤ k)%N in
  size (items m') + Nat.min (N.to_nat count) (length (eviction_candidates m keep_start keep_end)) = size (items m) ∧
  (∀ j, ¬ outside j → items m' !! j = items m !! j) ∧
  (∀ j k, cached m j → ¬ cached m' j → cached m' k → outside k →
     farther_first (saturating_add64 keep_start ((N.max keep_end keep_start - keep_start) / 2)) j k).
Proof.
  cbn zeta. split_and!; [apply evict_size| |].
  - intros j Hj. rewrite evict_lookup. case_decide as Hin; [|done]. exfalso.
    apply (subseteq_take (N.to_nat count)), elem_of_candidates in Hin as [_ Hout]. by apply Hj.
  - intros j k Hj Hj' Hk Hout. by eapply evict_farthest.
Qed.

(** Inserting into a model or replacing a range of it never leaves more
    items cached than the limit, whatever was cached before. *)
Theorem cache_stays_bounded `{PropertyIter} (s : SemanticStore) (id : ModelId) (start : N) (batch : list ModelItem)
    (total : option N) (s' : SemanticStore) :
  caches_bounded s → (start + len batch ≤ u64_max)%N →
  model_insert s id start batch = Ok s' ∨ model_reset_range s id start batch total = (s', Ok tt) →
  caches_bounded s'.
Proof. intros Hb Hfit [?|?]; [by eapply model_insert_bounded|by eapply model_reset_range_bounded]. Qed.

Lemma cache_stays_bounded_witness :
  ∃ s', model_reset_range demo_store (mid 1) 2 [item 12; item 13] None = (s', Ok tt) ∧ caches_bounded s'.
Proof.
  destruct (model_reset_range demo_store (mid 1) 2 [item 12; item 13] None) as [s' r] eqn:Heq.
  assert (r = Ok tt) as -> by (vm_compute in Heq; by injection Heq as _ <-).
  exists s'. split; [reflexivity|].
  apply (cache_stays_bounded demo_store (mid 1) 2 [item 12; item 13] None s' demo_caches_bounded).
  - vm_compute. discriminate.
  - right. exact Heq.
Defined.

(** ** Properties of transactions and their wire form *)

(** A transaction record is atomic: if it is accepted, the store is the
    result of all its operations in order at exactly the next revision; if
    anything at all is wrong with it, the store is the one before. *)
Theorem transaction_atomic `{Registry, PropertyIter} (s : SemanticStore) (txn : Transaction) (s' : SemanticStore)
    (r : result TxnError Revision) :
  store_wf s → apply_transaction_record s txn = (s', r) →
  match r with
  | Ok rev => rev = (revision s + 1)%N ∧ revision s' = rev ∧ base_revision txn = revision s ∧
      ∃ staged, apply_ops 0 s (operations txn) = Ok staged ∧ s' = commit_staging s staged rev
  | _ => s' = s
  end.
Proof.
  intros Hwf Heq. destruct (is_ok r) eqn:Hr.
  2: { destruct r; try done; by eapply committing_fail. }
  destruct r as [rev| | |]; try done. apply committing_Ok in Heq.
  apply bind_unit_Ok in Heq as [Hv Heq]. apply bind_unit_Ok in Heq as [Hb Heq].
  apply validate_commit_Ok in Hv as [Hn _]. unfold check_base_revision in Hb.
  apply err_if_Ok, negb_false_iff, N.eqb_eq in Hb.
  apply apply_staged_Ok in Heq as (_ & -> & staged & Hops & ->); [|done].
  split_and!; [by rewrite Hn, Hb|done|done|eauto].
Qed.

Lemma transaction_atomic_witness :
  (apply_transaction_record demo_store
     (Transaction_new 0%N [DeleteNode (nid 3); DeleteNode (nid 3)])).1 = demo_store.
Proof.
  destruct (apply_transaction_record demo_store (Transaction_new 0%N [DeleteNode (nid 3); DeleteNode (nid 3)]))
    as [s' r] eqn:Heq.
  pose proof (transaction_atomic demo_store _ s' r demo_store_wf Heq) as Hat.
  destruct r as [rev|e| |]; [|exact Hat..]. vm_compute in Heq. discriminate Heq.
Defined.

(** Exactly which transactions a replica accepts: one at its own revision,
    within the operation limit, that is either a full commit of the next
    revision or a scalar-only delta to any later one, and whose operations all
    apply; its revision is then the transaction's. *)
Theorem delivered_transaction_exactly `{Registry, PropertyIter} (st : SemanticStore) (txn : Transaction)
    (st' : SemanticStore) (r : Revision) :
  store_wf st →
  apply_delivered st txn = (st', Ok r) ↔
    ((base_revision txn + 1 ≤ u64_max)%N ∧
     (new_revision txn = (base_revision txn + 1)%N ∨
      (base_revision txn < new_revision txn)%N ∧ is_coalesceable txn = true)) ∧
    base_revision txn = revision st ∧ (len (operations txn) ≤ max_transaction_operations (limits st))%N ∧
    r = new_revision txn ∧
    ∃ staged, apply_ops 0 st (operations txn) = Ok staged ∧ st' = commit_staging st staged (new_revision txn).
Proof. apply apply_delivered_Ok. Qed.

Lemma delivered_transaction_exactly_witness :
  ∃ st', apply_delivered demo_store (mkTransaction 0%N 5%N [SetProperty (nid 2) PROP_VALUE (VString "b")] 0%N) = (st', Ok 5%N) ∧
    is_coalesceable (mkTransaction 0%N 5%N [SetProperty (nid 2) PROP_VALUE (VString "b")] 0%N) = true.
Proof.
  destruct (apply_delivered demo_store (mkTransaction 0%N 5%N [SetProperty (nid 2) PROP_VALUE (VString "b")] 0%N))
    as [st' r] eqn:Heq.
  assert (r = Ok 5%N) as -> by (vm_compute in Heq; by injection Heq as _ <-).
  exists st'. split; [reflexivity|].
  apply (delivered_transaction_exactly demo_store _ st' 5%N demo_store_wf) in Heq as ([_ [Hn|[_ Hc]]] & _);
    [discriminate Hn|exact Hc].
Defined.

(** On a well-formed store applying a transaction always returns, whatever
    its revisions and operations, provided its MODEL_DELETE ranges end within
    [u64]. *)
Theorem transaction_returns `{Registry, PropertyIter} (s : SemanticStore) (txn : Transaction) :
  store_wf s → Forall op_bounded (operations txn) → returns (apply_transaction_record s txn).2.
Proof.
  intros Hwf Hops. apply committing_returns. unfold validate_commit, check_base_revision.
  apply returns_bind; [case_match; [apply returns_err_if|done]|intros _ _].
  apply returns_bind; [apply returns_err_if|intros _ _]. by apply apply_staged_returns.
Qed.

Lemma transaction_returns_witness :
  returns (apply_transaction_record demo_store (Transaction_new 0%N demo_ops)).2.
Proof. apply (transaction_returns demo_store (Transaction_new 0%N demo_ops) demo_store_wf). repeat constructor. Defined.

(** Committing in two phases, with the journal consulted in between, is
    committing in one: the fallible half of a commit changes nothing, and its
    infallible half leaves the store [apply_authoritative] would. *)
Theorem two_phase_commit `{Registry, PropertyIter} (s : SemanticStore) (txn : Transaction) :
  apply_authoritative s (Commit_ txn) =
    match prepare_commit s (Commit_ txn) with
    | Ok staged => (commit_prepared s staged, Ok (new_revision txn))
    | Err e => (s, Err e)
    | Panic => (s, Panic)
    | Diverge => (s, Diverge)
    end.
Proof. apply prepare_then_commit. Qed.

(** Node ids are used once for ever: whatever transactions a store applies
    after a node was created, accepted or refused, a CREATE_NODE for that id
    fails. *)
Theorem node_ids_used_once `{Registry, PropertyIter} (s : SemanticStore) (txns : list Transaction) (id : NodeId)
    (t : TypeRef) (parent : option NodeId) (index : option N) (ps : list (PropertyRef * Value)) :
  store_wf s → id ∈ used_ids s →
  is_ok (create_node (foldl (λ s txn, (apply_delivered s txn).1) s txns) id t parent index ps) = false.
Proof.
  intros Hwf Hid.
  enough (store_wf (foldl (λ s txn, (apply_delivered s txn).1) s txns) ∧
    id ∈ used_ids (foldl (λ s txn, (apply_delivered s txn).1) s txns)) as [Hwf' Hid'].
  { destruct (create_node _ id t parent index ps) as [s'| | |] eqn:Heq; try done.
    apply create_node_effect in Heq as [[Hnew _] _]; [done|apply Hwf']. }
  revert s Hwf Hid. induction txns as [|txn txns IH]; intros s Hwf Hid; cbn; [done|].
  destruct (apply_delivered s txn) as [s1 r] eqn:Heq. cbn.
  destruct (is_ok r) eqn:Hr.
  - destruct r as [rev| | |]; try done.
    apply apply_delivered_Ok in Heq as (_ & _ & _ & _ & staged & Hops & ->); [|done].
    destruct (apply_ops_wf _ _ _ _ Hwf Hops) as [Hwf1 [Hu _ Hl _]].
    apply IH; [by apply commit_staging_wf|]. cbn. by apply Hu.
  - enough (s1 = s) as -> by by apply IH.
    unfold apply_delivered in Heq. destruct (delivered_try_from txn) as [[c|d]| | |];
      [by eapply committing_fail..|by injection Heq as <- _|by injection Heq as <- _|by injection Heq as <- _].
Qed.

Lemma node_ids_used_once_witness :
  is_ok (create_node (foldl (λ s txn, (apply_delivered s txn).1) demo_store demo_history)
    (nid 4) text_type None None []) = false.
Proof.
  assert (nid 4 ∈ used_ids demo_store) as Hid by decide_now.
  pose proof (node_ids_used_once demo_store demo_history (nid 4) text_type None None []) as Hu.
  pose proof (Hu demo_store_wf Hid) as Hc. exact Hc.
Defined.

(** Replacing the store by a snapshot is all or nothing, never goes back in
    revision, and owes nothing to the old contents: the result is the
    snapshot's operations applied to an empty store of the same limits. *)
Theorem snapshot_replaces `{Registry, PropertyIter} (s : SemanticStore) (snapshot : ResyncSnapshot) (s' : SemanticStore)
    (r : result TxnError Revision) :
  replace_from_snapshot s snapshot = (s', r) →
  match r with
  | Ok rev => rev = new_revision (snapshot_txn snapshot) ∧ revision s' = rev ∧ (revision s ≤ rev)%N ∧
      limits s' = limits s ∧ store_wf s' ∧
      ∃ staged, apply_ops 0 (with_limits (limits s)) (operations (snapshot_txn snapshot)) = Ok staged ∧
        nodes s' = nodes staged ∧ roots s' = roots staged ∧ models s' = models staged ∧ used_ids s' = used_ids staged
  | _ => s' = s
  end.
Proof.
  intros Heq. destruct (is_ok r) eqn:Hr.
  2: { destruct r; try done; by eapply committing_fail. }
  destruct r as [rev| | |]; try done. apply committing_Ok in Heq.
  apply bind_unit_Ok in Heq as [Hrev Heq]. apply bind_unit_Ok in Heq as [_ Heq].
  apply err_if_ltb_Ok in Hrev. apply bind_Ok in Heq as (staged & Hops & [= <- <-]).
  change INITIAL with 0%N in Hops. 
  destruct (apply_ops_wf _ _ _ _ (store_wf_empty (limits s) 0%N) Hops) as [Hwf [_ _ Hl _]].
  split_and!; try done; [by apply commit_staging_wf|]. by exists staged.
Qed.

Lemma snapshot_replaces_witness :
  ∃ s', replace_from_snapshot demo_store (Snapshot_ (mkTransaction 0%N 7%N demo_ops 0%N)) = (s', Ok 7%N) ∧ store_wf s'.
Proof.
  destruct (replace_from_snapshot demo_store (Snapshot_ (mkTransaction 0%N 7%N demo_ops 0%N))) as [s' r] eqn:Heq.
  assert (r = Ok 7%N) as -> by (vm_compute in Heq; by injection Heq as _ <-).
  exists s'. split; [reflexivity|]. by apply snapshot_replaces in Heq as (_ & _ & _ & _ & ? & _).
Defined.

(** ** The wire *)

(** Decoding an encoded value gives the value back, at every depth of lists
    and records, resource hashes being 32 bytes. *)
Theorem value_wire_round_trip (v : Value) : sized v → value_from_wire (value_to_wire v) = Ok v.
Proof. apply value_round_trip. Qed.

Lemma value_wire_round_trip_witness :
  value_from_wire (value_to_wire (VList [VNull; VSignedInt (-3); VRecord (mkSmallRecord text_type [mkProperty MODEL_REF (VString "x")])]))
  = Ok (VList [VNull; VSignedInt (-3); VRecord (mkSmallRecord text_type [mkProperty MODEL_REF (VString "x")])]).
Proof.
  apply value_wire_round_trip. intros h Hm. exfalso.
  repeat match goal with
  | H : _ ∈ _ |- _ => rewrite ?elem_of_cons, ?elem_of_nil in H; destruct_or?; simplify_eq; try done
  | H : mentions _ _ |- _ => inversion H; clear H; subst
  end.
Defined.

(** C36: decoding an encoded transaction gives it back, revisions, priority and
    every operation with its items and properties, except where an operation
    carries a value the wire reserves as a sentinel. *)
Theorem transaction_wire_round_trip `{PropertyIter} (txn : Transaction) :
  Forall op_canonical (operations txn) → txn_from_wire (txn_to_wire txn) = Ok txn.
Proof. apply txn_round_trip. Qed.

Lemma transaction_wire_round_trip_witness :
  txn_from_wire (txn_to_wire (Transaction_new 3%N [DeleteNode (nid 3); MoveNode (nid 2) (Some (nid 5)) (Some 0%N)]))
  = Ok (Transaction_new 3%N [DeleteNode (nid 3); MoveNode (nid 2) (Some (nid 5)) (Some 0%N)]).
Proof.
  apply transaction_wire_round_trip. constructor; [exact I|]. constructor; [|constructor].
  split; [discriminate|intros n [= <-]; reflexivity].
Defined.

(** Whatever bytes a peer sends, a transaction that decodes carries no
    sentinel, so the server and every replica that decodes its re-encoding see
    the very same operations. *)
Theorem decoded_transactions_canonical `{PropertyIter} (w : Msg.Transaction) (txn : Transaction) :
  txn_typed w → txn_from_wire w = Ok txn →
  Forall op_canonical (operations txn) ∧ txn_from_wire (txn_to_wire txn) = Ok txn.
Proof.
  intros Ht Heq. pose proof (txn_from_wire_canonical w txn Ht Heq) as Hc.
  split; [done|by apply txn_round_trip].
Qed.

Lemma decoded_transactions_canonical_witness :
  ∃ txn, txn_from_wire (Msg.mkTransaction 0 1 [Msg.mkOperation (Some (Msg.MoveNodeOp 2 0 4294967295))] 0) = Ok txn ∧
    txn_from_wire (txn_to_wire txn) = Ok txn.
Proof.
  destruct (txn_from_wire (Msg.mkTransaction 0 1 [Msg.mkOperation (Some (Msg.MoveNodeOp 2 0 4294967295))] 0))
    as [txn|e| |] eqn:Heq; [|vm_compute in Heq; discriminate Heq..].
  exists txn. split; [reflexivity|].
  apply (decoded_transactions_canonical _ txn) in Heq as [_ Hr]; [exact Hr|].
  constructor; [vm_compute; discriminate|constructor].
Defined.
