(* ===== verification/SessionTheorems.v ===== *)
(** * Properties of the session

    Commits, replicas and reconnection; events that take effect once; text
    edits. *)

From S2P Require Import Prelude.
From S2P Require Import Values.
From S2P Require Import Limits.
From S2P Require Import Models.
From S2P Require Import ModelFacts.
From S2P Require Import Store.
From S2P Require Import StoreFacts.
From S2P Require Import StoreInv.
From S2P Require Import Transaction.
From S2P Require Import TransactionFacts.
From S2P Require Import Wire.
From S2P Require Import WireFacts.
From S2P Require Import Journal.
From S2P Require Import Dedupe.
From S2P Require Import DedupeFacts.
From S2P Require Import Event.
From S2P Require Import TextTracker.
From S2P Require Import Resources.
From S2P Require Import Outbound.
From S2P Require Import Session.
From S2P Require Import SessionFacts.
From S2P Require Import Replication.
From S2P Require Import OutboundFacts.
From S2P Require Import SessionEvents.
From S2P Require Import Demo.

(** ** Reachable states *)

Lemma session_run_events `{Registry, EventRegistry, PropertyIter, Diagnostics, Digest} q s l s' :
  q ≠ AnyConduct → session_wf s → events_wf s → session_run q s l s' → events_wf s'.
Proof.
  intros Hq Hs He Hr. induction Hr as [s|s l1 s1 f l2 s2 Hr IH Hstep]; [done|].
  destruct (session_run_ok _ _ _ _ Hq Hs Hr) as [Hs1 _ _ _].
  eapply event_step_wf; [by eapply session_step_events|by apply IH].
Qed.

(** C10: every state a session reaches from its creation is well formed as long
    as it has published at most [u64::MAX] transactions: whatever transactions
    and closures commit (closures that ignore the errors of their operations
    included), whatever events, handler completions, text-edit decisions, panics
    and lifecycle changes happen, in whatever order. Well formed: the store's
    graph and models, the journal's chain ending at the store's revision, every
    receive window and the bounds on windows and remembered frontiers, and the
    exact count of text-edit streams. *)
Theorem reachable_sessions_well_formed `{Registry, EventRegistry, PropertyIter, Diagnostics, Digest}
    (journal_capacity queue_capacity : N) (s0 s : SessionInner) (l : list Msg.Transaction) :
  Session_with_config journal_capacity queue_capacity = Ok s0 →
  session_run AnyConduct s0 l s → (len l ≤ u64_max)%N →
  session_wf s ∧ events_wf s.
Proof.
  intros Hnew Hr Hmax. apply Session_with_config_wf in Hnew as Hwf.
  assert (events_wf s0 ∧ revision (store s0) = 0%N) as [He Hrev].
  { unfold Session_with_config in Hnew. destruct (_ || _); [done|]. injection Hnew as <-.
    split; [|done]. split; [apply empty_wf|apply Tracker_new_wf; vm_compute; discriminate]. }
  apply session_run_in_range in Hr; [|done|by rewrite Hrev].
  split; [by eapply (session_run_ok InRange)|by eapply (session_run_events InRange)].
Qed.

(** Two commits, a closure that ignores an error, and an event. *)
Lemma reachable_sessions_well_formed_witness :
  session_run AnyConduct started [build_tx; edit_tx; careless_tx] careless_left ∧
  session_wf careless_left ∧ events_wf careless_left.
Proof.
  assert (session_run AnyConduct started [build_tx; edit_tx; careless_tx] careless_left) as Hr.
  { apply (session_run_weaken WireSafe); [apply Nat.le_0_l|exact careless_run]. }
  split; [exact Hr|]. apply (reachable_sessions_well_formed 4 8 started careless_left _ started_ok Hr).
  vm_compute. discriminate.
Defined.

(** ** Commits *)

(** Exactly which wire transactions a session commits, and what is left: one
    that decodes, spans a single revision from the store's, is within the
    operation limit and applies as a whole; the store, the journal, the tracker
    and the published stream then move together. *)
Theorem commit_transaction_exactly `{Registry, EventRegistry, PropertyIter, Diagnostics, Digest}
    (s : SessionInner) (tx : Msg.Transaction) (s' : SessionInner) (tx' : Msg.Transaction) :
  session_wf s →
  commit_transaction s tx = Ok (s', tx') ↔
  ∃ txn staged, txn_from_wire tx = Ok txn ∧
    new_revision txn = (base_revision txn + 1)%N ∧ (base_revision txn + 1 ≤ u64_max)%N ∧
    base_revision txn = revision (store s) ∧
    (len (operations txn) ≤ max_transaction_operations (limits (store s)))%N ∧
    apply_ops 0 (store s) (operations txn) = Ok staged ∧ tx' = txn_to_wire txn ∧
    s' = install s (commit_staging (store s) staged (new_revision txn)) (mkPermit tx')
           (existsb is_delete_wire (Msg.operations tx')).
Proof. apply commit_transaction_Ok. Qed.

Lemma commit_transaction_exactly_witness : base_revision (Transaction_new 0%N []) = revision (store demo_session).
Proof.
  pose proof (proj1 (commit_transaction_exactly demo_session (demo_tx 0 "b") demo_session1 (demo_tx 0 "b")
    demo_session_wf) demo_commit1) as (txn & staged & Hd & Hn & Hm & Hb & _).
  rewrite <- Hb. vm_compute in Hd. injection Hd as <-. reflexivity.
Defined.

(** A commit that fails leaves no trace and fails for the transaction's own
    fault: the journal never refuses what the store would commit, and nothing
    panics, so a bad transaction cannot wedge the session. *)
Theorem commit_fails_cleanly `{Registry, EventRegistry, PropertyIter, Diagnostics, Digest}
    (s : SessionInner) (tx : Msg.Transaction) :
  session_wf s → (∀ txn, txn_from_wire tx = Ok txn → Forall op_bounded (operations txn)) →
  match commit_transaction s tx with
  | Ok _ => True
  | Err e => ∃ te, e = SessTransaction te
  | _ => False
  end.
Proof.
  intros Hs Hbounded. unfold commit_transaction, commit_from_wire.
  pose proof (txn_from_wire_returns tx) as Hret.
  destruct (txn_from_wire tx) as [txn|e| |] eqn:Htx; cbn; [|eauto|done..].
  specialize (Hbounded txn eq_refl).
  unfold commit_try_from. pose proof (validate_commit_returns txn) as Hv.
  destruct (validate_commit txn) as [u|e| |]; cbn; [|eauto|done..].
  pose proof (prepare_commit_returns (store s) txn (se_store _ Hs) Hbounded) as Hp.
  destruct (prepare_commit (store s) (Commit_ txn)) as [st|e| |] eqn:Hpc; cbn; [|eauto|done..].
  apply prepare_commit_Ok in Hpc as (Hb & _). by rewrite prepare_lockstep.
Qed.

Lemma commit_fails_cleanly_witness :
  match commit_transaction demo_session (demo_tx 5 "b") with
  | Ok _ => True | Err e => ∃ te, e = SessTransaction te | _ => False end.
Proof.
  apply (commit_fails_cleanly demo_session (demo_tx 5 "b") demo_session_wf).
  intros txn Htx. vm_compute in Htx. injection Htx as <-. repeat constructor.
Defined.

(** ** Replicas *)

(** C1: a replica stays in step. While the application is careful — its closures
    return [Ok] only where every call they made did, record only operations that
    the wire carries unchanged, and no text edit is decided at the last
    revision — applying what the session hands to its subscribers, in order,
    takes a replica from the store the session had to the one it has. Where
    closures carry on after an error a replica may refuse a transaction, but it
    is never led astray: whatever it accepts as a whole leaves it with the
    session's store. And whatever closures do, up to revision [u64::MAX] nothing
    is published that is not committed and nothing committed that is not
    published, one revision per transaction. *)
Theorem replicas_stay_in_step `{Registry, EventRegistry, PropertyIter, Diagnostics, Digest}
    (s s' : SessionInner) (l : list Msg.Transaction) :
  session_wf s →
  (session_run Careful s l s' → follow (store s) l = Some (store s')) ∧
  (session_run WireSafe s l s' → ∀ st, follow (store s) l = Some st → st = store s') ∧
  (session_run AnyConduct s l s' → (revision (store s) + len l ≤ u64_max)%N →
    published s' = published s ++ l ∧ revision (store s') = (revision (store s) + len l)%N ∧
    latest_revision (journal s') = revision (store s')).
Proof.
  intros Hs. split_and!.
  - intros Hr. by apply session_run_follow.
  - intros Hr st Hf. by eapply session_run_no_divergence.
  - intros Hr Hmax. apply session_run_in_range in Hr; [|done..].
    destruct (session_run_ok InRange _ _ _ ltac:(done) Hs Hr) as [Hs' Hp _ _].
    split_and!; [done|by apply (session_run_revision InRange)|apply Hs'].
Qed.

(** The replica follows the two careful commits and refuses the careless one. *)
Lemma replicas_stay_in_step_witness :
  follow (store started) [build_tx; edit_tx] = Some (store served2) ∧
  follow (store started) [build_tx; edit_tx; careless_tx] = None ∧
  published careless_left = published started ++ [build_tx; edit_tx; careless_tx].
Proof.
  pose proof (Session_with_config_wf _ _ _ started_ok) as Hwf. split.
  { apply (replicas_stay_in_step started served2 [build_tx; edit_tx] Hwf). exact served2_from_start. }
  split; [vm_compute; reflexivity|].
  apply (replicas_stay_in_step started careless_left [build_tx; edit_tx; careless_tx] Hwf).
  - apply (session_run_weaken WireSafe); [apply Nat.le_0_l|exact careless_run].
  - vm_compute. discriminate.
Defined.

(** Reconnecting costs exactly what was missed, while the application is careful: a client that left at any
    revision is offered the transactions committed since, if the journal's
    capacity covers them, and they take its store to the session's; otherwise it
    is offered nothing and must resynchronise. *)
Theorem reconnecting_client_catches_up `{Registry, EventRegistry, PropertyIter, Diagnostics, Digest}
    (s s' : SessionInner) (l : list Msg.Transaction) :
  session_wf s → session_run Careful s l s' →
  if decide (len l ≤ max_entries (journal s))%N
  then collect_replayed_transactions s' (revision (store s)) = Some l ∧ follow (store s) l = Some (store s')
  else collect_replayed_transactions s' (revision (store s)) = None.
Proof.
  intros Hs Hr. unfold collect_replayed_transactions.
  rewrite (session_run_replay Careful _ _ _ ltac:(done) Hs Hr). case_decide; [|done].
  split; [done|by apply session_run_follow].
Qed.

Lemma reconnecting_client_catches_up_witness :
  collect_replayed_transactions demo_session2 0 = Some [demo_tx 0 "b"; demo_tx 1 "c"].
Proof.
  pose proof (reconnecting_client_catches_up demo_session _ _ demo_session_wf demo_run) as Hc.
  destruct (decide _) as [Hd|Hd]; [exact (proj1 Hc)|].
  exfalso. apply Hd. vm_compute. discriminate.
Defined.

(** A commit made by a closure reaches the replicas as the closure made it,
    provided the closure passes its errors on: the published transaction applies
    to the old store and gives the new one. *)
Theorem closure_commits_replicate `{Registry, EventRegistry, PropertyIter, Diagnostics, Digest} {T}
    (s : SessionInner) (f : UiTransaction → N * N → UiTransaction * result StoreError T)
    (s' : SessionInner) (v : T) (tx : Msg.Transaction) :
  session_wf s → clean_closure f → transaction_with_result s f = Ok (s', (v, tx)) →
  session_wf s' ∧ apply_delivered_transaction (store s) tx = (store s', Ok (revision (store s'))).
Proof.
  intros Hs Hf Heq. split; [|by eapply replica_follows_closure].
  apply clean_closure_methods in Hf as [Hf _]. by eapply closure_step_ok.
Qed.

Lemma closure_commits_replicate_witness :
  ∃ s' tx, transaction_with_result demo_session (edit_closure (nid 2) "d" 1) = Ok (s', (tt, tx)) ∧
    apply_delivered_transaction demo_store tx = (store s', Ok (revision (store s'))).
Proof.
  destruct (transaction_with_result demo_session (edit_closure (nid 2) "d" 1)) as [[s' [[] tx]]|e| |] eqn:Heq;
    [|vm_compute in Heq; discriminate Heq..].
  exists s', tx. split; [reflexivity|].
  apply (closure_commits_replicate demo_session (edit_closure (nid 2) "d" 1) s' tt tx demo_session_wf
    (edit_closure_clean (nid 2) "d" 1) Heq).
Defined.

(** ** Events *)

(** An event that has been started is not started again while it runs: for
    as long as it is neither settled nor given up, and whatever other clients,
    commits and handlers do meanwhile, sending it again answers that it is
    pending and changes nothing in the store. *)
Theorem running_events_are_pending `{Registry, EventRegistry, PropertyIter, Diagnostics, Digest}
    (s s1 s2 s3 : SessionInner) (ev ev' : WireEvent) (r r' : result SessionError Continuation) :
  session_wf s → events_wf s → process_event s ev = (s1, r) → starts r →
  pending_run (we_client_instance_id ev) (we_event_id ev) s1 s2 →
  event_key (admission_event ev') = event_key ev → process_event s2 ev' = (s3, r') →
  (∃ n, r' = Ok (Finished (OutPending n))) ∧ store s3 = store s2.
Proof.
  intros Hs He Heq Hst Hrun Hkey Heq'.
  destruct (process_event_starts s ev s1 r (evw_dedupe _ He) Heq Hst) as (_ & Hne & Hin & _).
  assert (session_wf s1 ∧ events_wf s1) as [Hs1 He1].
  { assert (s1 = (process_event s ev).1) as -> by by rewrite Heq. split.
    - apply (session_step_ok InRange _ _ _ _ ltac:(done) Hs (step_process _ s ev)).
    - eapply event_step_wf; [apply process_event_step|done]. }
  apply (pending_run_in_flight _ _ _ _ (we_event_seq ev) (ek_type (event_key ev)) Hs1 He1) in Hrun
    as (_ & He2 & Hin2). specialize (Hin2 Hin).
  pose proof (admit_event_pending (dedupe s2) (event_key ev) (evw_dedupe _ He2) Hne Hin2) as Hadm.
  pose proof (process_uncommitted s2 ev') as (Hstore & _). rewrite Heq' in Hstore. split; [|done].
  revert Heq'. unfold process_event, session_admit_event. rewrite Hkey.
  destruct (admit_event (dedupe s2) (event_key ev)) as [d o]. cbn in Hadm. subst o. cbn.
  intros [= _ <-]. eauto.
Qed.

Lemma running_events_are_pending_witness :
  ∃ n, (process_event running_session demo_event).2 = Ok (Finished (OutPending n)).
Proof.
  pose proof (running_events_are_pending demo_session running_session running_session
    (process_event running_session demo_event).1 demo_event demo_event
    (process_event demo_session demo_event).2 (process_event running_session demo_event).2
    demo_session_wf demo_events_wf (surjective_pairing _) demo_event_starts
    (pending_nil demo_client [7%N] running_session) eq_refl (surjective_pairing _)) as [Hp _].
  exact Hp.
Defined.

(** C8: an event takes effect at most once. If it was started and its handlers
    completed, then for as long as the session remembers its client at all, no
    event of that client with that sequence number is ever started again,
    whatever the other clients do in between. *)
Theorem events_take_effect_once `{Registry, EventRegistry, PropertyIter, Diagnostics, Digest}
    (s s1 s2 s3 s4 s5 : SessionInner) (ev ev' : WireEvent) (kind : HandlerDispatchKind)
    (r r' : result SessionError Continuation) (r2 : result SessionError EventOutcome) :
  session_wf s → events_wf s → process_event s ev = (s1, r) → starts r →
  pending_run (we_client_instance_id ev) (we_event_id ev) s1 s2 →
  dispatch_admitted_event s2 ev kind HandlersDone = (s3, r2) →
  retaining_run (we_client_instance_id ev) s3 s4 →
  we_client_instance_id ev' = we_client_instance_id ev → we_event_seq ev' = we_event_seq ev →
  process_event s4 ev' = (s5, r') →
  (∃ n, r2 = Ok (OutProcessed (revision (store s2)) n)) ∧ ¬ starts r'.
Proof.
  intros Hs He Heq Hst Hrun Hdis Hret Hc Hq Heq'.
  destruct (process_event_starts s ev s1 r (evw_dedupe _ He) Heq Hst) as (_ & Hne & Hin & _).
  assert (session_wf s1 ∧ events_wf s1) as [Hs1 He1].
  { assert (s1 = (process_event s ev).1) as -> by by rewrite Heq. split.
    - apply (session_step_ok InRange _ _ _ _ ltac:(done) Hs (step_process _ s ev)).
    - eapply event_step_wf; [apply process_event_step|done]. }
  apply (pending_run_in_flight _ _ _ _ (we_event_seq ev) (ek_type (event_key ev)) Hs1 He1) in Hrun
    as (Hs2 & He2 & Hin2). specialize (Hin2 Hin).
  assert (session_wf s3 ∧ events_wf s3) as [Hs3 He3].
  { assert (s3 = (dispatch_admitted_event s2 ev kind HandlersDone).1) as -> by by rewrite Hdis. split.
    - apply (session_step_ok InRange _ _ _ _ ltac:(done) Hs2 (step_dispatch _ s2 ev kind HandlersDone)).
    - eapply event_step_wf; [apply dispatch_event_step|done]. }
  destruct (dispatch_settles _ _ _ _ _ (evw_dedupe _ He2) Hne Hin2 Hdis) as (Hr2 & Hrem & _). split; [done|].
  apply (retaining_run_remembers _ _ _ (we_event_seq ev) Hs3 He3) in Hret as (_ & He4 & Hrem4).
  intros Hst'. destruct (process_event_starts s4 ev' s5 r' (evw_dedupe _ He4) Heq' Hst') as (Hnr & _).
  apply Hnr. rewrite Hc, Hq. by apply Hrem4.
Qed.

Lemma events_take_effect_once_witness : ¬ starts (process_event settled_session demo_event).2.
Proof.
  apply (events_take_effect_once demo_session running_session running_session settled_session settled_session
    (process_event settled_session demo_event).1 demo_event demo_event Ordinary
    (process_event demo_session demo_event).2 (process_event settled_session demo_event).2
    (dispatch_admitted_event running_session demo_event Ordinary HandlersDone).2
    demo_session_wf demo_events_wf (surjective_pairing _) demo_event_starts
    (pending_nil demo_client [7%N] running_session) (surjective_pairing _)
    (retain_nil demo_client settled_session) eq_refl eq_refl (surjective_pairing _)).
Defined.

(** The lost acknowledgement is repeated: sending a completed event again is
    answered from the cache, with the outcome and the revision of its effect. *)
Theorem completed_events_are_acknowledged_again `{Registry, EventRegistry, PropertyIter, Diagnostics, Digest}
    (s s' : SessionInner) (ev : WireEvent) (kind : HandlerDispatchKind) (r : result SessionError EventOutcome) :
  events_wf s → we_event_id ev ≠ [] → admission_event ev = ev →
  in_flight (dedupe s) (we_client_instance_id ev) (we_event_id ev) (we_event_seq ev) (ek_type (event_key ev)) →
  dispatch_admitted_event s ev kind HandlersDone = (s', r) →
  ∃ n, (process_event s' ev).2 = Ok (Finished (OutDuplicate true (revision (store s)) n "")).
Proof.
  intros He Hne Hadm Hin Hdis.
  destruct (dispatch_settles _ _ _ _ _ (evw_dedupe _ He) Hne Hin Hdis) as (_ & _ & n & Hn).
  exists n. unfold process_event, session_admit_event. rewrite Hadm.
  destruct (admit_event (dedupe s') (event_key ev)) as [d o]. cbn in Hn. by subst o.
Qed.

Lemma completed_events_are_acknowledged_again_witness :
  ∃ n, (process_event settled_session demo_event).2 = Ok (Finished (OutDuplicate true 0 n "")).
Proof.
  destruct (process_event_starts demo_session demo_event running_session (process_event demo_session demo_event).2
    (evw_dedupe _ demo_events_wf) (surjective_pairing _) demo_event_starts) as (_ & Hne & Hin & Hst).
  assert (events_wf running_session) as He.
  { eapply event_step_wf; [apply process_event_step|exact demo_events_wf]. }
  assert (admission_event demo_event = demo_event) as Hadm by (vm_compute; reflexivity).
  destruct (completed_events_are_acknowledged_again running_session settled_session demo_event Ordinary
    (dispatch_admitted_event running_session demo_event Ordinary HandlersDone).2 He Hne Hadm Hin
    (surjective_pairing _)) as [n Hn].
  exists n. rewrite Hn. rewrite Hst. reflexivity.
Defined.

(** Exactly which new events a client's receive window admits: a sequence
    number above the frontier, within the window and not carried by another
    event, as long as the results that must be kept (in flight, or settled ahead
    of the frontier) leave room; older cached results always make way. *)
Theorem admission_exactly (w : ClientDedupeWindow) (id : Bytes) (s : N) (ty : option (N * N)) (max : N) :
  window_wf w → seen_ids w !! id = None →
  (∃ w' n, window_admit w id s ty max = (w', Ok (Fresh n))) ↔
  (last_contiguous_processed_seq w < s ≤ N.min (last_contiguous_processed_seq w + max) u64_max)%N ∧
  (∀ i q, seen_ids w !! i = Some q → record_seq q ≠ s) ∧ (map_len (load_bearing w) < max)%N.
Proof. apply admit_Fresh. Qed.

Lemma admission_exactly_witness : ∃ w' n, window_admit (window_at 6) [9%N] 7 None 1 = (w', Ok (Fresh n)).
Proof.
  apply (admission_exactly (window_at 6) [9%N] 7 None 1).
  - apply window_at_wf. vm_compute. discriminate.
  - reflexivity.
  - split; [split; [vm_compute; reflexivity|vm_compute; discriminate]|]. split; [|vm_compute; reflexivity].
    intros i q Hq. vm_compute in Hq. discriminate Hq.
Defined.

(** ** Text edits *)

(** A reservation takes an edit number strictly above every edit its editor
    has in flight or finished, under a generation never used in that editor
    before, and touches no other editor. *)
Theorem reservations_advance (t : TextEditTracker) (c : Bytes) (node : NodeId) (seq : N)
    (t' : TextEditTracker) (gen : N) :
  reserve t c node seq = Ok (t', gen) →
  (∀ st, stream_of t c (NodeId_get node) = Some st →
    (∀ x, x ∈ in_flight_edit_seqs st ∨ x = last_terminal_edit_seq st → (x < seq)%N) ∧
    gen = (generation st + 1)%N ∧ (gen ≤ u64_max)%N) ∧
  (∃ st', stream_of t' c (NodeId_get node) = Some st' ∧ generation st' = gen ∧ seq ∈ in_flight_edit_seqs st') ∧
  ∀ c' n', (c', n') ≠ (c, NodeId_get node) → stream_of t' c' n' = stream_of t c' n'.
Proof.
  intros (Hsome & _ & (st' & Hst' & Hg & Hin & _) & Hother)%reserve_Ok. split_and!; [|eauto|done].
  intros st Hst. destruct (Hsome st Hst) as (Hlt & ? & ?). split_and!; [|done|done].
  intros x Hx%watermark_spec. lia.
Qed.

Lemma reservations_advance_witness :
  ∃ t1 t2, reserve Tracker_default demo_client (nid 2) 5%N = Ok (t1, 1%N) ∧
    reserve t1 demo_client (nid 2) 6%N = Ok (t2, 2%N) ∧ is_Some (stream_of t2 demo_client 2).
Proof.
  destruct (reserve Tracker_default demo_client (nid 2) 5%N) as [[t1 g1]|e| |] eqn:H1;
    [|vm_compute in H1; discriminate H1..].
  destruct (reserve t1 demo_client (nid 2) 6%N) as [[t2 g2]|e| |] eqn:H2;
    [|vm_compute in H1; injection H1 as <- <-; vm_compute in H2; discriminate H2..].
  exists t1, t2. pose proof (reservations_advance _ _ _ _ _ _ H2) as (_ & (st' & Hst & _ & _) & _).
  assert (g1 = 1%N) as -> by (vm_compute in H1; by injection H1 as _ <-).
  assert (g2 = 2%N) as ->.
  { vm_compute in H1. injection H1 as <-. vm_compute in H2. by injection H2 as _ <-. }
  split; [reflexivity|]. split; [exact H2|]. exists st'. exact Hst.
Defined.

(** An edit overtaken by a newer reservation of its editor publishes
    nothing: its commit leaves store, journal and publications as they were. *)
Theorem superseded_edits_publish_nothing `{Registry, EventRegistry, PropertyIter, Diagnostics, Digest}
    (s : SessionInner) (ev : WireEvent) (node : NodeId) (seq : EditSeq) (text : string) (gen : N)
    (d : TextEditDecision) (s' : SessionInner) (r : result SessionError TextEditCommit) :
  generation_of (text_edit_tracker s) (we_client_instance_id ev) node ≠ Some gen → (1 ≤ gen)%N →
  commit_text_edit_decision s ev node seq text gen d = (s', r) → uncommitted s s'.
Proof.
  intros Hgen Hpos. unfold commit_text_edit_decision.
  assert (∀ err s1 r1, (let '(s', o) := reject_reserved s ev node seq err in
    (s', Ok (E:=SessionError) (TSettled o))) = (s1, r1) → uncommitted s s1) as Hrej.
  { intros err s1 r1. unfold reject_reserved.
    pose proof (settle_rejected_uncommitted
      (with_tracker s (mark_terminal (text_edit_tracker s) (we_client_instance_id ev) node seq)) ev err) as Hu.
    destruct (settle_rejected_event _ _ _) as [s2 o]. intros [= <- _]. exact Hu. }
  destruct (negb _); [by intros [= <- _]|].
  destruct (revalidate_editor_for_commit s node); [|apply Hrej|by intros [= <- _]..].
  destruct (N.eqb_spec (default 0%N (generation_of (text_edit_tracker s) (we_client_instance_id ev) node)) gen)
    as [Hg|]; cbn [negb]; [|apply Hrej].
  destruct (generation_of _ _ _); cbn in Hg; [congruence|lia].
Qed.

Lemma superseded_edits_publish_nothing_witness :
  uncommitted demo_session (commit_text_edit_decision demo_session demo_edit (nid 2) 1%N "typed" 3%N Accept).1.
Proof.
  apply (superseded_edits_publish_nothing demo_session demo_edit (nid 2) 1%N "typed" 3%N Accept _
    (commit_text_edit_decision demo_session demo_edit (nid 2) 1%N "typed" 3%N Accept).2).
  - vm_compute. discriminate.
  - vm_compute. discriminate.
  - apply surjective_pairing.
Defined.

(** An accepted edit publishes exactly the submitted value and the valid
    state, as one transaction that takes a replica to the new store. *)
Theorem accepted_edits_publish_the_text `{Registry, EventRegistry, PropertyIter, Diagnostics, Digest}
    (s : SessionInner) (ev : WireEvent) (node : NodeId) (seq : EditSeq) (text : string) (gen : N)
    (s' : SessionInner) (tx : Msg.Transaction) :
  session_wf s → (revision (store s) + 1 ≤ u64_max)%N →
  commit_text_edit_decision s ev node seq text gen Accept = (s', Ok (DispatchAccepted tx)) →
  tx = txn_to_wire (Transaction_new (revision (store s)) (text_edit_ops node text VALIDATION_VALID)) ∧
  published s' = published s ++ [tx] ∧
  apply_delivered_transaction (store s) tx = (store s', Ok (revision (store s'))).
Proof.
  intros Hs Hmax. unfold commit_text_edit_decision.
  assert (∀ err, (let '(s', o) := reject_reserved s ev node seq err in
    (s', Ok (E:=SessionError) (TSettled o))) ≠ (s', Ok (DispatchAccepted tx))) as Hrej.
  { intros err. by destruct (reject_reserved s ev node seq err). }
  destruct (negb _); [by intros [= _ ?]|].
  destruct (revalidate_editor_for_commit s node); [|by intros ?%Hrej|by intros [= _ ?]..].
  destruct (negb _); [by intros ?%Hrej|]. cbn [decide_text_edit].
  destruct (_ <? _)%N; [by intros ?%Hrej|].
  destruct (ui_run _ _) as [ui' [[]|e| |]] eqn:Hrun; [|by intros ?%Hrej|by intros [= _ ?]..].
  destruct (prepare _ _) as [permit|e| |] eqn:Hp; [|by intros ?%Hrej|by intros [= _ ?]..].
  pose proof (edit_as_closure s node text VALIDATION_VALID ui' permit Hmax Hrun Hp) as Hcl.
  apply (replica_follows_closure _ _ _ _ _ Hs) in Hcl as Hfol; [|apply edit_closure_clean].
  apply transaction_with_result_Ok in Hcl as (ui2 & Hf & _ & Htx & _); [|done]. cbn [permit_tx] in Htx.
  assert (ui_operations ui2 = text_edit_ops node text VALIDATION_VALID) as Hops.
  { unfold edit_closure in Hf. apply ui_run_clean in Hf as [_ ->]. done. }
  destruct (begin_committed_handler_dispatch _ ev) as [t2|e| |]; [|by intros [= _ ?]..].
  intros [= <- <-]. split_and!; [by rewrite Htx, Hops|done|exact Hfol].
Qed.

Lemma accepted_edits_publish_the_text_witness :
  ∃ s' tx, commit_text_edit_decision (process_event demo_session demo_edit).1 demo_edit (nid 2) 1%N "typed" 1%N Accept
      = (s', Ok (DispatchAccepted tx)) ∧ length (published s') = 1.
Proof.
  assert (session_wf (process_event demo_session demo_edit).1) as Hs.
  { apply (session_step_ok InRange _ _ _ _ ltac:(done) demo_session_wf (step_process _ demo_session demo_edit)). }
  destruct (commit_text_edit_decision (process_event demo_session demo_edit).1 demo_edit (nid 2) 1%N "typed" 1%N Accept)
    as [s' [[o|tx]|e| |]] eqn:Heq; [vm_compute in Heq; discriminate Heq| |vm_compute in Heq; discriminate Heq..].
  exists s', tx. split; [reflexivity|].
  apply accepted_edits_publish_the_text in Heq as (_ & -> & _); [|exact Hs|].
  - vm_compute. reflexivity.
  - vm_compute. discriminate.
Defined.

(** The [expect] in the commit of a text edit is justified: whatever happens
    between the reservation and the commit, the commit returns. *)
Theorem text_edit_commits_return `{Registry, EventRegistry, PropertyIter, Diagnostics, Digest}
    (s s1 s2 : SessionInner) (ev : WireEvent) (domain : Event) (edit_seq : EditSeq) (gen : N)
    (l : list Msg.Transaction) (node : NodeId) (text : string) (d : TextEditDecision) :
  session_wf s → reserve_text_edit s ev domain = (s1, Ok (inr (edit_seq, gen))) → session_run InRange s1 l s2 →
  returns (commit_text_edit_decision s2 ev node edit_seq text gen d).2.
Proof.
  intros Hs Hres Hr. apply commit_text_edit_returns; [|by eapply reserve_text_edit_generation].
  apply session_run_ok in Hr as []; [done..|].
  pose proof (reserve_uncommitted s ev domain) as (Hst & Hj & _). rewrite Hres in Hst, Hj.
  by eapply session_wf_ext.
Qed.

Lemma text_edit_commits_return_witness :
  ∃ s1, returns (commit_text_edit_decision s1 demo_edit (nid 2) 1%N "typed" 1%N (Correct "x" 1)).2.
Proof.
  destruct (event_from_wire demo_edit) as [domain|e| |] eqn:Hd; [|vm_compute in Hd; discriminate Hd..].
  assert ((reserve_text_edit demo_session demo_edit domain).2 = Ok (inr (1%N, 1%N))) as Hr.
  { vm_compute in Hd. injection Hd as <-. vm_compute. reflexivity. }
  exists (reserve_text_edit demo_session demo_edit domain).1.
  apply (text_edit_commits_return demo_session (reserve_text_edit demo_session demo_edit domain).1
    (reserve_text_edit demo_session demo_edit domain).1 demo_edit domain 1%N 1%N [] (nid 2) "typed" (Correct "x" 1)
    demo_session_wf); [|apply run_nil].
  pose proof (surjective_pairing (reserve_text_edit demo_session demo_edit domain)) as Hp.
  rewrite Hr in Hp. exact Hp.
Defined.
