(* ===== verification/DeliveryTheorems.v ===== *)
(** * Properties of delivery

    Coalescing, a subscriber's lane from end to end, resources and the
    scheduler. *)

From S2P Require Import Prelude.
From S2P Require Import Values.
From S2P Require Import Limits.
From S2P Require Import Models.
From S2P Require Import ModelFacts.
From S2P Require Import Store.
From S2P Require Import StoreFacts.
From S2P Require Import StoreInv.
From S2P Require Import Transaction.
From S2P Require Import TransactionFacts.
From S2P Require Import Wire.
From S2P Require Import WireFacts.
From S2P Require Import Journal.
From S2P Require Import Dedupe.
From S2P Require Import Event.
From S2P Require Import TextTracker.
From S2P Require Import Resources.
From S2P Require Import Outbound.
From S2P Require Import Session.
From S2P Require Import SessionFacts.
From S2P Require Import Replication.
From S2P Require Import OutboundFacts.
From S2P Require Import SessionEvents.
From S2P Require Import Demo.

(** ** Transactions *)

(** C27: merging is invisible: where two transactions of scalar updates apply one
    after the other, the delta they are merged into applies too and leaves the
    very same store. *)
Theorem coalescing_is_invisible `{Registry, PropertyIter, Framing} (st st1 st2 : SemanticStore) (r1 r2 : Revision)
    (tail incoming merged : Transaction) (max_ops max_frame : N) :
  store_wf st → apply_delivered st tail = (st1, Ok r1) → apply_delivered st1 incoming = (st2, Ok r2) →
  try_absorb tail incoming max_ops max_frame = Some merged →
  (max_ops ≤ max_transaction_operations (limits st))%N →
  apply_delivered st merged = (st2, Ok r2).
Proof. apply absorb_apply. Qed.

Definition demo_set (base : N) (text : string) : Transaction :=
  Transaction_new base [SetProperty (nid 2) PROP_VALUE (VString text)].

Lemma coalescing_is_invisible_witness :
  ∃ merged st2, try_absorb (demo_set 0 "b") (demo_set 1 "c") 16 1024 = Some merged ∧
    length (operations merged) = 1 ∧ apply_delivered demo_store merged = (st2, Ok 2%N).
Proof.
  destruct (apply_delivered demo_store (demo_set 0 "b")) as [st1 r1] eqn:H1.
  assert (r1 = Ok 1%N) as -> by (vm_compute in H1; by injection H1 as _ <-).
  destruct (apply_delivered st1 (demo_set 1 "c")) as [st2 r2] eqn:H2.
  assert (r2 = Ok 2%N) as ->.
  { vm_compute in H1. injection H1 as <-. vm_compute in H2. by injection H2 as _ <-. }
  destruct (try_absorb (demo_set 0 "b") (demo_set 1 "c") 16 1024) as [merged|] eqn:Hm;
    [|vm_compute in Hm; discriminate Hm].
  exists merged, st2. split; [reflexivity|]. split; [vm_compute in Hm; injection Hm as <-; reflexivity|].
  apply (coalescing_is_invisible demo_store st1 st2 1%N 2%N (demo_set 0 "b") (demo_set 1 "c") merged 16 1024
    demo_store_wf H1 H2 Hm). vm_compute. discriminate.
Defined.

(** C2: end to end: whatever a session of a careful application commits — its
    closures return [Ok] only where every call they made did and record only
    operations that the wire carries unchanged, and no text edit is decided at
    the last revision — however its publications are interleaved with a
    subscriber's reads and merged in its queue, a replica that starts from the
    store at subscription and applies what was read, followed by what is still
    queued, reaches the session's store, as long as the subscriber is not closed;
    and the queue stays within its capacity. *)
Theorem subscribers_receive_every_change
    `{Registry, EventRegistry, PropertyIter, Diagnostics, Digest, Framing}
    (s s' : SessionInner) (cap max_ops max_frame max_resource : N) (ops : list LaneOp)
    (sub : SubscriberState) (sent : list Msg.Transaction) :
  session_wf s → (max_ops ≤ max_transaction_operations (limits (store s)))%N →
  session_run Careful s (published_in_lane ops) s' →
  foldl lane_step (Subscriber_new cap max_ops max_frame max_resource, []) ops = (sub, sent) →
  is_closed sub = false →
  follow (store s) (sent ++ sub_items sub) = Some (store s') ∧ (len (sub_items sub) ≤ capacity sub)%N.
Proof.
  intros Hs Hmo Hr Hl Hopen.
  pose proof (session_run_weaken Careful WireSafe _ _ _ ltac:(cbn; lia) Hr) as Hcan%session_run_canonical; [|done].
  apply session_run_follow in Hr as (_ & Hf); [|done].
  pose proof (lane_run ops (store s) (store s) (store s') (Subscriber_new cap max_ops max_frame max_resource) []
    (se_store _ Hs) (Subscriber_new_ok _ _ _ _ _ Hmo) Hcan Hf) as Hlane.
  rewrite Hl in Hlane. destruct (Hlane Hopen) as [? _ _ ? _]. done.
Qed.

Definition demo_lane : list LaneOp := [LanePublish (demo_tx 0 "b"); LanePublish (demo_tx 1 "c"); LanePop].
Definition demo_subscriber : SubscriberState := Subscriber_new 1 16 1024 0.

Lemma subscribers_receive_every_change_witness :
  ∃ sub sent, foldl lane_step (demo_subscriber, []) demo_lane = (sub, sent) ∧ length sent = 1 ∧
    follow demo_store (sent ++ sub_items sub) = Some (store demo_session2).
Proof.
  destruct (foldl lane_step (demo_subscriber, []) demo_lane) as [sub sent] eqn:Heq.
  exists sub, sent. split; [reflexivity|].
  assert (length sent = 1 ∧ is_closed sub = false) as [Hlen Hopen].
  { vm_compute in Heq. injection Heq as <- <-. split; reflexivity. }
  split; [exact Hlen|].
  apply (subscribers_receive_every_change demo_session demo_session2 1 16 1024 0 demo_lane sub sent
    demo_session_wf); [vm_compute; discriminate|exact demo_run|exact Heq|exact Hopen].
Defined.

(** ** Resources *)

(** Publishing keeps the resource store within its entry and byte bounds with
    exact accounting; a published hash is bound to exactly its bytes for good,
    nothing stored is overwritten, and protected resources survive; when the
    resource does not fit nothing is evicted. *)
Theorem publication_is_bounded `{Digest} (s : ResourceStore) (slice : bytes) (protected : gset ResourceHash) :
  resources_wf s →
  match publish_resource_protecting s slice protected with
  | Ok (s', out) => resources_wf s' ∧ published_in s slice protected s' out
  | Err _ => True
  | _ => False
  end.
Proof. apply publish_spec. Qed.

Lemma publication_is_bounded_witness :
  match publish_resource_protecting (ResourceStore_with_limits (mkResourceLimits 4 1 8)) [1; 2; 3]%N ∅ with
  | Ok (s', out) => resources_wf s' | _ => False end.
Proof.
  pose proof (publication_is_bounded (ResourceStore_with_limits (mkResourceLimits 4 1 8)) [1; 2; 3]%N ∅
    (with_limits_wf _)) as Hp.
  destruct (publish_resource_protecting (ResourceStore_with_limits (mkResourceLimits 4 1 8)) [1; 2; 3]%N ∅)
    as [[s' out]|e| |] eqn:Heq; [exact (proj1 Hp)|vm_compute in Heq; discriminate Heq..].
Defined.

(** The chunks of a resource are contiguous from offset 0, none empty or
    longer than 16 KiB, and put together again are its bytes. *)
Theorem chunks_reassemble (b : bytes) :
  covers b 0 (chunk_payloads b) ∧ concat (data <$> chunk_payloads b) = b.
Proof. apply chunk_payloads_spec. Qed.

(** Draining a transfer queue sends, for each queued resource in order, its
    metadata and then exactly its chunks, and then stops. *)
Theorem transfers_are_complete (es : list ResourceEntry) (k : nat) :
  drain (length (concat (frames_of <$> es)) + k) (mkTransferQueue es None) = concat (frames_of <$> es).
Proof. apply drain_queue. Qed.

(** ** The scheduler *)

(** No starvation: a class of traffic that stays ready is selected within the
    gap its policy states, whatever the other classes do. *)
Theorem ready_classes_are_served (s : LogicalChannelScheduler) (c : LogicalChannelClass)
    (readys : list (LogicalChannelClass → bool)) :
  cursor_ok s → Forall (λ ready, ready c = true) readys → max_service_gap c ≤ length readys →
  Some c ∈ take (max_service_gap c) (selections s readys).
Proof.
  intros Hs Hall Hlen. destruct (slots_until_gap c (cursor s) Hs) as (d & Hd & Hgap).
  pose proof (served_within s readys c d Hs Hall Hd ltac:(lia)) as Hin.
  apply elem_of_take in Hin as (i & Hi & Hlt). apply elem_of_take. exists i. split; [done|lia].
Qed.

Lemma ready_classes_are_served_witness :
  Some ResourceClass ∈ take 24 (selections Scheduler_new (replicate 24 (λ _, true))).
Proof.
  apply (ready_classes_are_served Scheduler_new ResourceClass (replicate 24 (λ _, true))).
  - vm_compute. lia.
  - apply Forall_replicate. reflexivity.
  - vm_compute. lia.
Defined.
