(* ===== verification/SnapshotTheorems.v ===== *)
(** * Theorems: snapshots

    Exporting a store, delivering the export in several envelopes, and following
    the session from it. *)

From S2P Require Import Prelude.
From S2P Require Import Values.
From S2P Require Import Limits.
From S2P Require Import Models.
From S2P Require Import ModelFacts.
From S2P Require Import Store.
From S2P Require Import StoreInv.
From S2P Require Import StoreModels.
From S2P Require Import Transaction.
From S2P Require Import TransactionFacts.
From S2P Require Import Wire.
From S2P Require Import WireFacts.
From S2P Require Import SnapshotFraming.
From S2P Require Import SnapshotFramingFacts.
From S2P Require Import Snapshot.
From S2P Require Import SnapshotItems.
From S2P Require Import SnapshotNodes.
From S2P Require Import SnapshotFacts.
From S2P Require Import Event.
From S2P Require Import Resources.
From S2P Require Import Session.
From S2P Require Import SessionFacts.
From S2P Require Import Replication.
From S2P Require Import OutboundFacts.
From S2P Require Import Demo.

(** C7: a snapshot arrives. The store is exportable: well formed, no model
    deleted, each model's cached indices below its item count and its cache
    within the bound, resource values of the right size, no node with the node of
    id 0 as its parent, and limits that leave room for the exporter's chunks. The
    snapshot has an operation, and the client stages fewer than [u32::MAX] parts.
    Then whatever frame plan the server chooses for the client, the envelopes it
    writes are within every limit both sides enforce, the client's assembler
    completes with the last of them and not before, and applying the result to a
    replica of the server's limits that is not ahead gives it the server's nodes,
    roots, models and revision. *)
Theorem delivered_snapshots_reproduce_the_store `{Registry, PropertyIter, ItemEncoding, Encoding}
    (s r : SemanticStore) (tx : Msg.Transaction) (server_max_frame_size : N) (client : option ClientLimits)
    (plan : SnapshotFramePlan) :
  exportable s → export_snapshot_transaction s = Ok tx → Msg.operations tx ≠ [] →
  plan_snapshot_delivery tx server_max_frame_size client = Ok plan → (client_parts client < u32_max)%N →
  limits r = limits s → (revision r ≤ revision s)%N →
  ∃ envelopes announced a,
    split (E:=SnapshotError) plan tx = Ok envelopes ∧
    announced_parts (E:=SnapshotAssemblyError) plan = Ok announced ∧
    Assembler_new (revision s) announced (client_parts client) (max_transaction_operations (limits r)) = Ok a ∧
    Forall (λ e, frame_ok server_max_frame_size client (framed_bytes e (Msg.operations e))) envelopes ∧
    (len envelopes ≤ effective_max_snapshot_parts (client_parts client))%N ∧
    (∀ k, k < length envelopes → accept_all a (take k envelopes) = Ok None) ∧
    accept_all a envelopes = Ok (Some tx) ∧
    apply_snapshot r tx = (snapshot_of s, Ok (revision s)).
Proof.
  intros Hs Hexp Hne Hplan Hu32 Hl Hrev. pose proof (export_applies s Hs _ r Hexp Hl Hrev) as Happly.
  apply (export_Ok s Hs) in Hexp as (ops & -> & _ & _ & Hmax & _).
  set (tx := txn_to_wire _) in *. apply plan_delivery_Ok in Hplan as (frame & Hplan & Hframe & _).
  pose proof (plan_snapshot_frames_spec tx frame (client_parts client) Hne) as Hspec.
  rewrite Hplan in Hspec. destruct Hspec as (oss & Hd & Hparts & _).
  destruct (assemble tx frame plan oss (client_parts client) (max_transaction_operations (limits r)))
    as (announced & a & Hann & Ha & Hall & Hpre); [done..| | |].
  { unfold effective_max_snapshot_parts in Hparts. unfold u32_max in *. lia. }
  { unfold len. cbn. by rewrite length_map, Hl. }
  exists (map (envelope_of tx) oss), announced, a. split_and!; try done.
  - apply Hd.
  - apply Forall_map. eapply Forall_impl; [apply Hd|]. intros os [_ Hos]. by apply Hframe.
  - unfold len in *. by rewrite length_map.
  - intros k Hk. rewrite firstn_map. apply Hpre. by rewrite length_map in Hk.
Qed.

Lemma delivered_snapshots_reproduce_the_store_witness :
  (apply_snapshot (with_limits demo_limits) demo_snapshot).1 = snapshot_of demo_store.
Proof.
  destruct (delivered_snapshots_reproduce_the_store demo_store (with_limits demo_limits) demo_snapshot 0
    (Some demo_client_limits) demo_plan demo_exportable demo_export demo_snapshot_some demo_plan_delivery)
    as (_ & _ & _ & _ & _ & _ & _ & _ & _ & _ & Happly);
    [vm_compute; reflexivity|vm_compute; reflexivity|vm_compute; discriminate|].
  rewrite Happly. reflexivity.
Defined.

(** The planner packs greedily and greedy packing is optimal: if the operations
    can be divided, in order, into envelopes that fit the frame, as many as the
    client stages or fewer, a plan is found, it divides them so, and no such
    division has fewer envelopes. *)
Theorem snapshot_plans_are_optimal `{Encoding} (snapshot : Msg.Transaction) (max_frame_size max_parts : N)
    (division : list (list Msg.Operation)) :
  Msg.operations snapshot ≠ [] → concat division = Msg.operations snapshot →
  Forall (λ os, framed_bytes snapshot os ≤ max_frame_size)%N division →
  (len division ≤ effective_max_snapshot_parts max_parts)%N →
  ∃ plan oss, plan_snapshot_frames snapshot max_frame_size max_parts = Ok plan ∧
    split (E:=SnapshotFramingError) plan snapshot = Ok (map (envelope_of snapshot) oss) ∧
    concat oss = Msg.operations snapshot ∧
    Forall (λ os, os ≠ [] ∧ (framed_bytes snapshot os ≤ max_frame_size)%N) oss ∧
    length oss ≤ length division.
Proof.
  intros Hne Hc Hfit Hparts. pose proof (plan_snapshot_frames_spec snapshot max_frame_size max_parts Hne) as Hspec.
  destruct (plan_snapshot_frames _ _ _) as [p|[i bytes m|required mp sb m]| |]; [|exfalso..|done|done].
  - destruct Hspec as (oss & Hd & _ & Hmin). exists p, oss. split_and!; [done|apply Hd|apply Hd|apply Hd|by apply Hmin].
  - destruct Hspec as (op & Hop & -> & Hbig). apply list_elem_of_lookup_2 in Hop. rewrite <- Hc in Hop.
    apply list_elem_of_In, in_concat in Hop as (os & Hin%list_elem_of_In & Hos%list_elem_of_In). rewrite Forall_forall in Hfit. specialize (Hfit os Hin).
    enough (framed_bytes snapshot [op] ≤ framed_bytes snapshot os)%N by lia.
    apply envelope_len_mono. cbn. rewrite N.add_0_r. apply sumN_elem. by apply list_elem_of_fmap_2.
  - destruct Hspec as [Hlt Hmin]. specialize (Hmin _ Hc Hfit). lia.
Qed.

Lemma snapshot_plans_are_optimal_witness :
  ∃ plan, plan_snapshot_frames demo_snapshot 60 7 = Ok plan.
Proof.
  destruct (snapshot_plans_are_optimal demo_snapshot 60 7 demo_division) as (plan & _ & Hplan & _);
    [exact demo_snapshot_some|vm_compute; reflexivity|decide_now|vm_compute; discriminate|].
  exists plan. exact Hplan.
Defined.

(** C6: a resynchronised replica keeps up: from the snapshot of any session state
    with an exportable store (no model deleted, cached indices below the item
    counts, caches within their bound, values and parents that have a wire form),
    it accepts every transaction that a careful application — its closures return
    [Ok] only where every call they made did and record only operations that the
    wire carries unchanged, and no text edit is decided at the last revision —
    publishes since, in order, and then has the session's nodes, roots, models
    and revision, although it does not know the ids that were used and deleted
    before the snapshot. *)
Theorem resynchronised_replicas_follow `{Registry, EventRegistry, PropertyIter, Diagnostics, Digest, ItemEncoding}
    (s s' : SessionInner) (l : list Msg.Transaction) (tx : Msg.Transaction) (r : SemanticStore) :
  session_wf s → session_run Careful s l s' → exportable (store s) →
  export_snapshot_transaction (store s) = Ok tx →
  limits r = limits (store s) → (revision r ≤ revision (store s))%N →
  ∃ r', follow (apply_snapshot r tx).1 l = Some r' ∧ nodes r' = nodes (store s') ∧
    roots r' = roots (store s') ∧ models r' = models (store s') ∧ revision r' = revision (store s').
Proof.
  intros Hs Hr Hexp Htx Hl Hrev. rewrite (export_applies _ Hexp _ _ Htx Hl Hrev).
  destruct (session_run_follow _ _ _ Hs Hr) as (_ & Hf).
  destruct (follow_behind l (snapshot_of (store s)) _ _ (se_store _ Hs) (snapshot_behind _ (se_store _ Hs)) Hf)
    as (r' & Hr' & Hb).
  exists r'. split; [done|]. by destruct Hb.
Qed.

Lemma resynchronised_replicas_follow_witness :
  ∃ r', follow (apply_snapshot (with_limits demo_limits) demo_snapshot).1 [demo_tx 0 "b"; demo_tx 1 "c"] = Some r' ∧
    nodes r' = nodes (store demo_session2).
Proof.
  destruct (resynchronised_replicas_follow demo_session demo_session2 _ demo_snapshot (with_limits demo_limits)
    demo_session_wf demo_run demo_exportable demo_export) as (r' & Hr' & Hn & _);
    [vm_compute; reflexivity|vm_compute; discriminate|].
  exists r'. exact (conj Hr' Hn).
Defined.

(** The export of a well-formed store always returns: a transaction from
    revision 0 to the store's within the operation limit, or the refusal that
    names the limit and the larger count. *)
Theorem exports_return `{Registry, PropertyIter, ItemEncoding} (s : SemanticStore) :
  store_wf s →
  match export_snapshot_transaction s with
  | Ok tx => Msg.base_revision tx = 0%N ∧ Msg.new_revision tx = revision s ∧
      (len (Msg.operations tx) ≤ max_transaction_operations (limits s))%N
  | Err (SnapshotUnrepresentable limit actual) =>
      limit = max_transaction_operations (limits s) ∧ (limit < actual)%N
  | _ => False
  end.
Proof. intros Hs. apply export_cases, Hs. Qed.

Lemma exports_return_witness : ∃ tx, export_snapshot_transaction demo_store = Ok tx ∧ Msg.base_revision tx = 0%N.
Proof.
  pose proof (exports_return demo_store demo_store_wf) as Hexp. rewrite demo_export in Hexp.
  exists demo_snapshot. split; [exact demo_export|apply Hexp].
Defined.

(** No exported range operation outgrows a frame because its rows are many or
    wide: it carries at least one item and at most 10,000, and more than 1 MiB of
    encoded items only if it carries a single one. *)
Theorem exported_ranges_are_bounded `{Registry, PropertyIter, ItemEncoding} (s : SemanticStore)
    (tx : Msg.Transaction) (mid start total : N) (its : list Msg.ModelItem) :
  exportable s → export_snapshot_transaction s = Ok tx →
  Msg.mkOperation (Some (Msg.ModelResetRangeOp mid start its total)) ∈ Msg.operations tx →
  its ≠ [] ∧ (len its ≤ DEFAULT_MAX_ITEMS_PER_MODEL_OPERATION)%N ∧
  ((sumN (map item_encoded_len its) ≤ SNAPSHOT_MODEL_RANGE_MAX_BYTES)%N ∨ (len its ≤ 1)%N).
Proof.
  intros Hs Hexp Hin. destruct (export_Ok s Hs tx Hexp) as (_ & _ & _ & Hall & _).
  rewrite Forall_forall in Hall. apply (Hall _ Hin).
Qed.

Lemma exported_ranges_are_bounded_witness :
  (len (map item_to_wire [item 10; item 11]) ≤ DEFAULT_MAX_ITEMS_PER_MODEL_OPERATION)%N.
Proof.
  apply (exported_ranges_are_bounded demo_store demo_snapshot 1 0 0 (map item_to_wire [item 10; item 11])
    demo_exportable demo_export).
  apply (list_elem_of_lookup_2 _ 1). vm_compute. reflexivity.
Defined.
