(* ===== verification/ServerTheorems.v ===== *)
(** * Theorems: terminals and extensions

    What a subscriber of a terminal reads of what the terminal printed; the text of
    profiles; the extension namespaces, and the creation of terminals that uses
    them. *)

From S2P Require Import Prelude.
From S2P Require Import Values.
From S2P Require Import Limits.
From S2P Require Import Store.
From S2P Require Import StoreInv.
From S2P Require Import Transaction.
From S2P Require Import Wire.
From S2P Require Import Event.
From S2P Require Import Resources.
From S2P Require Import Session.
From S2P Require Import SessionFacts.
From S2P Require Import Replication.
From S2P Require Import Terminal.
From S2P Require Import TerminalFacts.
From S2P Require Import Capability.
From S2P Require Import Extensions.
From S2P Require Import ExtensionsFacts.
From S2P Require Import TerminalNode.
From S2P Require Import Demo.

(** C21: a terminal's output is read exactly: whatever a subscriber asks to start
    from, and however printing and draining alternate after it subscribed to a
    ring that has printed [h], nothing fails and the events it was sent read on
    from its offset without overlap: each is the bytes printed at its offset or
    announces the offset reading goes on from, up to the subscription's cursor,
    which a drain brings to the end of the output.
    If the ring still had the requested offset and no more than its capacity is
    printed between two drains, no byte is lost: all the events are data, and
    their concatenation is the output from that offset. *)
Theorem terminal_output_is_read_exactly (id : NodeId) (h : list N) (r : OutputRing) (requested : N)
    (ops : list TermOp) :
  ring_ok h r → (len (h ++ printed ops) ≤ u64_max)%N →
  ∃ snapshot r' cursor' es,
    terminal_subscribe id r requested = Ok (snapshot, next_offset r) ∧
    try_fold (term_step id) (r, next_offset r, catch_up_events id snapshot) ops = Ok (r', cursor', es) ∧
    ring_ok (h ++ printed ops) r' ∧ (cursor' ≤ len (h ++ printed ops))%N ∧
    reads (h ++ printed ops) requested es = Some cursor' ∧
    (∀ ops', ops = ops' ++ [TermDrain] → cursor' = len (h ++ printed ops)) ∧
    ((retained_start r ≤ requested ≤ next_offset r)%N → keeps_up (ring_capacity r) 0 ops →
     lossless (h ++ printed ops) requested cursor' es).
Proof.
  intros Hr Hmax. destruct (terminal_subscribe_spec h id r requested Hr) as (snapshot & Hsub & Hread & _ & Hfs).
  pose proof (rk_next _ _ Hr) as Hn.
  destruct (term_run id ops h r (next_offset r) (catch_up_events id snapshot) requested)
    as (r' & c' & es & Hrun & Hr' & Hc' & Hrd & Hloss); [done|lia|done|done|].
  exists snapshot, r', c', es. split_and!; try done.
  { intros ops' ->. rewrite printed_app, app_nil_r in *.
    by eapply term_run_drained; [exact Hr|..|exact Hrun]; [lia|done|]. }
  intros Hin Hkeep.
  apply Hloss; [lia|by rewrite <- Hn, N.sub_diag| |lia].
  destruct (Hfs Hin) as (fs & -> & Hd). cbn [catch_up_events]. by apply lossless_frames.
Qed.

Lemma terminal_output_is_read_exactly_witness : ∃ r' cursor' es,
  try_fold (term_step (mkNodeId 7)) (demo_ring, 0%N, []) demo_term_ops = Ok (r', cursor', es) ∧
  lossless [1; 2; 3; 4; 5; 6; 7; 8]%N 0 cursor' es.
Proof.
  destruct (terminal_output_is_read_exactly (mkNodeId 7) [] demo_ring 0 demo_term_ops
    (Ring_new_ok _ _ demo_ring_new)) as (snapshot & r' & c' & es & Hsub & Hrun & _ & _ & _ & _ & Hloss);
    [vm_compute; discriminate|].
  exists r', c', es. split.
  - assert (catch_up_events (mkNodeId 7) snapshot = []) as Hes.
    { assert (terminal_subscribe (mkNodeId 7) demo_ring 0 = Ok (SubReplay [], 0%N)) as Hx by (vm_compute; reflexivity).
      rewrite Hx in Hsub. injection Hsub as <-. reflexivity. }
    rewrite Hes in Hrun. exact Hrun.
  - apply Hloss; [split; vm_compute; discriminate|]. repeat split; vm_compute; discriminate.
Defined.

(** ** Theorems: profiles, extension namespaces and terminals

    The text of profiles, the namespace table over a session's configuration, and
    the creation of terminals. *)

(** The text of a profile: every profile the checked constructor or the parser
    produces has a trimmed nonempty name and a positive version and is parsed back
    from what it displays; two such profiles display the same only if they are the
    same, and a set contains the text of exactly its members; parsing any text
    whatever returns, with a profile or an error. *)
Theorem profile_text_round_trip (p q : Profile) (set : CapabilitySet) (name text : string) (version : N) :
  well_named p → well_named q → (version ≤ u32_max)%N →
  profile_parse (profile_display p) = Ok p ∧
  (profile_display p = profile_display q → p = q) ∧
  contains_str set (profile_display p) = bool_decide (p ∈ set) ∧
  match Profile_new name version with
  | Ok r => well_named r ∧ pf_name r = trim name ∧ pf_version r = version
  | Err e => e = EmptyName ∧ trim name = "" ∨ version = 0%N
  | _ => False
  end ∧
  match profile_parse text with Ok r => well_named r | Err _ => True | _ => False end.
Proof.
  intros Hp Hq Hv. split_and!; [by apply profile_parse_display| |by apply contains_str_display| |].
  - intros Heq. apply profile_parse_display in Hp, Hq. rewrite Heq, Hq in Hp. by injection Hp.
  - pose proof (Profile_new_well_named name version) as Hw. unfold Profile_new in *.
    destruct (String.eqb_spec (trim name) "") as [Hn|Hn]; [by left|]. cbn [err_if mbind result_bind] in *.
    destruct (N.eqb_spec version 0) as [Hz|Hz]; [by right|]. by apply Hw.
  - pose proof (profile_parse_returns text) as Hr. pose proof (profile_parse_well_named text) as Hw.
    destruct (profile_parse text); [by apply Hw|done..].
Qed.

Lemma profile_text_round_trip_witness :
  profile_parse "org.srui.terminal/1" = Ok terminal_v1 ∧ well_named charts_v1.
Proof.
  assert (well_named charts_v1) as Hc by (by apply (profile_parse_well_named "org.example.charts/1")).
  assert (profile_display terminal_v1 = "org.srui.terminal/1") as Hd by reflexivity. rewrite <- Hd.
  split; [|exact Hc].
  destruct (profile_text_round_trip terminal_v1 charts_v1 ∅ "charts" "" 1 (proj1 terminal_well_named) Hc)
    as [Hp _]; [vm_compute; discriminate|exact Hp].
Defined.

(** ** Configuring a session *)

Section configuring.
Context `{Registry, EventRegistry, PropertyIter, Diagnostics, Digest}.





End configuring.

(** A server that requires the standard widgets, registers charts, and fails to
    start a terminal. *)
Definition plain_caps : ServerCapabilities := mkServerCapabilities {[standard_widgets_v1]} ∅.
Definition ok_server {E} (r : result E Server) : Server :=
  match r with Ok s => s | _ => demo_server served1 end.
Definition plain_server : Server := ok_server (Server_with_config "session-1" plain_caps 4 8).
Definition charts_server : Server := ok_server (fst <$> register_optional_extension_profile plain_server charts_v1).
Definition refused_server : Server :=
  (create_terminal_node charts_server (nid 9) (nid 1) (Some "no pty") false id).1.





(** ** Terminals *)

(** C25: creating a terminal is atomic: if no one else touches the session meanwhile,
    a call that fails, at whichever of its steps, leaves the session and its
    contract as they were; one that succeeds has committed exactly the creation of
    the node, with the type it returns, whose namespace the table gives to the
    terminal profile, now required of every client. *)
Theorem terminal_creation_is_atomic `{Registry, EventRegistry, PropertyIter, Diagnostics, Digest}
    (s s' : Server) (node parent : NodeId) (spawned : option string) (live : bool)
    (r : result CreateTerminalError TypeRef) :
  session_wf (inner s) → (live = true → declares_terminals s) →
  create_terminal_node s node parent spawned live id = (s', r) →
  match r with
  | Ok ty =>
      mkMapping TERMINAL_PROFILE_URI (type_namespace_id ty) ∈ extension_namespaces s' ∧
      terminal_v1 ∈ cap_required (capabilities s') ∧
      can_create (store (inner s)) node (Some parent) None [] ∧
      nodes (store (inner s')) = nodes (created (store (inner s)) node ty (Some parent) None []) ∧
      revision (store (inner s')) = (revision (store (inner s)) + 1)%N
  | Err _ => s' = s
  | Panic | Diverge => False
  end.
Proof.
  intros Hwf Hlive. unfold create_terminal_node, id.
  pose proof (prepare_returns s) as Hpr.
  destruct (prepare_terminal_type s) as [[s1 [ty rb]]|e| |] eqn:Hp; [|by intros [= <- <-]|done..].
  pose proof (prepare_rollback _ _ _ _ live Hlive Hp) as Hroll.
  destruct spawned as [msg|]; [by intros [= <- <-]|].
  apply prepared_declares in Hp as ((Hreq & _) & Hin & Hi). rewrite Hi.
  pose proof (terminal_transaction_returns (inner s) node parent ty Hwf) as Htr.
  destruct (transaction_with_result _ _) as [[i [ty' tx]]|e| |] eqn:Ht; [|by intros [= <- <-]|done..].
  intros [= <- <-]. apply terminal_transaction in Ht as (-> & _ & Hcan & Hst); [|done].
  cbn [inner with_inner extension_namespaces capabilities]. rewrite Hst. by split_and!.
Qed.

Lemma terminal_creation_is_atomic_witness :
  refused_server = charts_server ∧
  let '(s', r) := create_terminal_node (demo_server served1) (nid 9) (nid 1) None false id in
  r = Ok (mkTypeRef 2 1) ∧ terminal_v1 ∈ cap_required (capabilities s').
Proof.
  split.
  - apply (terminal_creation_is_atomic charts_server refused_server (nid 9) (nid 1) (Some "no pty") false
      (Err (CtSpawn "no pty"))).
    + apply (Session_with_config_wf 4 8). vm_compute. reflexivity.
    + discriminate.
    + vm_compute. reflexivity.
  - assert ((create_terminal_node (demo_server served1) (nid 9) (nid 1) None false id).2 = Ok (mkTypeRef 2 1)) as Hr
      by (vm_compute; reflexivity).
    destruct (create_terminal_node (demo_server served1) (nid 9) (nid 1) None false id) as [s' r] eqn:Heq.
    cbn in Hr. rewrite Hr in Heq. split; [exact Hr|].
    destruct (terminal_creation_is_atomic (demo_server served1) s' (nid 9) (nid 1) None false (Ok (mkTypeRef 2 1)))
      as (_ & Hreq & _).
    + exact (so_wf _ _ _ (session_run_ok Careful _ _ _ ltac:(done) (Session_with_config_wf _ _ _ started_ok) served1_run)).
    + discriminate.
    + exact Heq.
    + exact Hreq.
Defined.
