(* ===== verification/HandshakeTheorems.v ===== *)
(** * Theorems: handshakes

    Fresh and returning clients of a running session, what is negotiated, and the
    extension namespaces every handshake relies on. *)

From S2P Require Import Prelude.
From S2P Require Import Values.
From S2P Require Import Limits.
From S2P Require Import Store.
From S2P Require Import StoreInv.
From S2P Require Import Transaction.
From S2P Require Import Wire.
From S2P Require Import SnapshotFraming.
From S2P Require Import Snapshot.
From S2P Require Import SnapshotFacts.
From S2P Require Import Journal.
From S2P Require Import Dedupe.
From S2P Require Import DedupeFacts.
From S2P Require Import Event.
From S2P Require Import Resources.
From S2P Require Import Outbound.
From S2P Require Import Session.
From S2P Require Import SessionFacts.
From S2P Require Import Replication.
From S2P Require Import OutboundFacts.
From S2P Require Import Terminal.
From S2P Require Import TerminalFacts.
From S2P Require Import Capability.
From S2P Require Import Extensions.
From S2P Require Import ExtensionsFacts.
From S2P Require Import Handshake.
From S2P Require Import HandshakeFacts.
From S2P Require Import SessionEvents.
From S2P Require Import HandshakeRuns.
From S2P Require Import Demo.

(** ** No gap *)

(** C3: a fresh client starts without a gap: however other connections commit
    before its handshake and between its lock acquisitions (short of deciding a
    text edit at the last revision), if the store of the session as it stands
    when the client's lane opens is exportable — no model deleted, cached indices
    below the item counts, caches within their bound, values and parents that
    have a wire form — then that store is what the handshake sends. And whatever
    a careful application (its closures return [Ok] only where every call they
    made did and record only operations that the wire carries unchanged)
    publishes from then on, a lane that does not overflow hands the client
    exactly the transactions that keep its replica, read from the snapshot, in
    step with the session. *)
Theorem fresh_clients_start_without_a_gap
    `{Registry, EventRegistry, PropertyIter, Diagnostics, Digest, ItemEncoding, Encoding, HashOrder, Framing}
    (i0 : SessionInner) (locks : nat → Server) (streams : list (NodeId * OutputRing)) (hello : ClientHello)
    (k : nat) (s' : Server) (b : FreshClientBootstrap) :
  serving i0 locks → bootstrap_fresh_client locks streams hello = (k, (s', Ok b)) →
  exportable (store (inner (locks k))) →
  inner s' = inner (locks k) ∧ has_negotiated s' = true ∧
  sw_initial_revision (fb_welcome b) = revision (store (inner s')) ∧ behind (fresh_replica b) (store (inner s')) ∧
  ∃ sub, subscribers (outbound_hub s') !! fb_transactions b = Some sub ∧
    sub_client sub = ch_client_instance_id hello ∧ sub_alive sub = true ∧
    ∀ ops i' sub' sent, session_run Careful (inner s') (published_in_lane ops) i' →
      foldl lane_step (sub_state sub, []) ops = (sub', sent) → is_closed sub' = false →
      ∃ r', follow (fresh_replica b) (sent ++ sub_items sub') = Some r' ∧ behind r' (store i').
Proof.
  intros Hs Heq Hexp. destruct (fresh_replica_behind _ _ _ _ _ _ _ Hs Heq Hexp)
    as (_ & (s1 & max_res & Hop & ->) & Hrev & Hb).
  destruct (serving_store _ _ k Hs) as (Hwf & Hlim & _). pose proof (op_inner _ _ _ _ _ Hop) as Hi.
  cbn [inner negotiated outbound_hub has_negotiated]. rewrite Hi. split_and!; try done.
  destruct (op_lane _ _ _ _ _ Hop) as [q Hq]. eexists. split; [exact Hq|]. split_and!; try done.
  intros ops i' sub' sent Hrun Hlane Hopen.
  eapply opened_lane_follows; [exact Hop|apply Hs|exact Hwf|exact Hlim|exact Hq|exact Hb|exact Hrun|exact Hlane|exact Hopen].
Qed.

Lemma fresh_clients_start_without_a_gap_witness : ∃ b,
  bootstrap_fresh_client demo_locks [] demo_hello = (3, (fresh_left, Ok b)) ∧
  behind (fresh_replica b) (store (inner fresh_left)).
Proof.
  destruct fresh_ok as [b Heq]. exists b. split; [exact Heq|].
  apply (fresh_clients_start_without_a_gap started demo_locks [] demo_hello 3 fresh_left b demo_serving Heq
    served2_exportable).
Defined.

(** C4: a returning client resumes without a gap: its replica was in step with
    the session at the revision it names and the application has been careful
    since (its closures returned [Ok] only where every call they made did and
    recorded only operations that the wire carries unchanged), or it comes from
    another incarnation and starts over. Then, if the store of the session as it
    stands when the lane opens is exportable — no model deleted, cached indices
    below the item counts, caches within their bound, values and parents that
    have a wire form — what the handshake sends, the transactions the client
    missed or a snapshot, brings the replica to that store, and the lane, unless
    it overflows, keeps it there as long as the application is careful; whatever
    other users of the outbound hub do to it during the handshake. *)
Theorem returning_clients_resume_without_a_gap
    `{Registry, EventRegistry, PropertyIter, Diagnostics, Digest, ItemEncoding, Encoding, HashOrder, Framing}
    (i0 : SessionInner) (locks : nat → Server) (meanwhile : nat → OutboundHub → OutboundHub)
    (streams : list (NodeId * OutputRing)) (resume : ClientResume)
    (k : nat) (s' : Server) (b : ResumeClientBootstrap) (r : SemanticStore) :
  serving i0 locks → bootstrap_resume locks meanwhile streams resume = (k, (s', Ok b)) →
  returning i0 (inner (locks k)) (session_id (locks k)) resume r → exportable (store (inner (locks k))) →
  ∃ r1 sub, resumed_replica r (rb_outcome b) = Some r1 ∧ behind r1 (store (inner s')) ∧
    subscribers (outbound_hub s') !! rb_transactions b = Some sub ∧
    sub_client sub = cr_client_instance_id resume ∧ sub_alive sub = true ∧
    ∀ ops i' sub' sent, session_run Careful (inner s') (published_in_lane ops) i' →
      foldl lane_step (sub_state sub, []) ops = (sub', sent) → is_closed sub' = false →
      ∃ r', follow r1 (sent ++ sub_items sub') = Some r' ∧ behind r' (store i').
Proof.
  intros Hs Heq Hret Hexp. pose proof (serving_interleaved _ _ Hs) as [_ Hil].
  destruct (bootstrap_resume_Ok _ _ _ _ _ _ _ Hil Heq) as (plan & s1 & Hres).
  destruct (resumed_replica_behind _ _ _ _ _ _ _ _ _ _ Hs Hres Hret Hexp) as (r1 & Hr1 & Hb).
  destruct Hres as [_ Hop -> _ _]. destruct (serving_store _ _ k Hs) as (Hwf & Hlim & _).
  pose proof (commit_plan_frame (negotiated s1) plan) as (Hst & Hj & Hhub & _).
  cbn [inner negotiated outbound_hub] in Hst, Hj, Hhub. pose proof (op_inner _ _ _ _ _ Hop) as Hi.
  assert (session_wf (inner (commit_plan (negotiated s1) plan))) as Hwf'.
  { rewrite Hi in Hst, Hj. destruct Hwf. split; rewrite ?Hst, ?Hj; done. }
  rewrite Hhub. rewrite Hi in Hst. destruct (op_lane _ _ _ _ _ Hop) as [q Hq].
  exists r1. eexists. split; [exact Hr1|]. split; [by rewrite Hst|]. split; [exact Hq|]. split_and!; try done.
  intros ops i' sub' sent Hrun Hlane Hopen.
  eapply opened_lane_follows; [exact Hop|apply Hs|exact Hwf'|by rewrite Hst|exact Hq|by rewrite Hst
    |exact Hrun|exact Hlane|exact Hopen].
Qed.

Lemma returning_clients_resume_without_a_gap_witness :
  (∃ b r1, bootstrap_resume settled_locks quiet [] (demo_resume 1 "session-1") = (0, (resumed_left, Ok b)) ∧
     resumed_replica demo_replica (rb_outcome b) = Some r1 ∧ behind r1 (store (inner resumed_left))) ∧
  (∃ b r1, bootstrap_resume overflowed_locks cleared [] (demo_resume 1 "session-1") = (1, (resynced_left, Ok b)) ∧
     resumed_replica demo_replica (rb_outcome b) = Some r1 ∧ behind r1 (store (inner resynced_left))).
Proof.
  split.
  - destruct resumed_ok as [b Heq]. exists b.
    destruct (returning_clients_resume_without_a_gap started settled_locks quiet [] (demo_resume 1 "session-1") 0
      resumed_left b demo_replica settled_serving Heq demo_returning served2_exportable)
      as (r1 & sub & Hr & Hb & _).
    exists r1. split; [exact Heq|]. split; [exact Hr|]. exact Hb.
  - destruct resynced_ok as [b Heq]. exists b.
    destruct (returning_clients_resume_without_a_gap started overflowed_locks cleared [] (demo_resume 1 "session-1") 1
      resynced_left b demo_replica overflowed_serving Heq demo_returning served2_exportable)
      as (r1 & sub & Hr & Hb & _).
    exists r1. split; [exact Heq|]. split; [exact Hr|]. exact Hb.
Defined.

(** ** Decisions and errors *)

(** C20: how a resume was decided, judged by the session the client's lane opens in
    and by the stale marker as the last lock acquisition read it: a replay exactly
    when the session is the one asked for, the client's queue was not marked as
    overflowed and the journal still covers its revision, and then of the
    journaled transactions since; else a resynchronisation, with the reason and
    the continuity of the first of these that fails, carrying the export of the
    session's store under its revision. A marker that is cleared while the
    handshake exports or before it subscribes (the hub has its own mutex) changes
    nothing about the decision. Between the acquisitions anything may commit,
    short of a text edit decided at the last revision. *)
Theorem resumption_is_decided_exactly
    `{Registry, EventRegistry, PropertyIter, Diagnostics, Digest, ItemEncoding, Encoding, HashOrder}
    (locks : nat → Server) (meanwhile : nat → OutboundHub → OutboundHub)
    (streams : list (NodeId * OutputRing)) (resume : ClientResume)
    (k : nat) (s' : Server) (b : ResumeClientBootstrap) :
  interleaved locks → bootstrap_resume locks meanwhile streams resume = (k, (s', Ok b)) →
  let s := locks k in
  match rb_outcome b with
  | Replay m txs =>
      cr_session_id resume = session_id s ∧
      is_client_stale (outbound_hub s) (cr_client_instance_id resume) = false ∧
      replay_from (journal (inner s)) (cr_last_applied_revision resume) = Some txs ∧
      ro_replay_from_revision m = cr_last_applied_revision resume ∧ ro_session_id m = session_id s ∧
      inner s' = inner s
  | Resync m tx =>
      ∃ cause, rr_reason m = reason cause ∧ rr_continuity m = continuity cause ∧
        rr_snapshot_revision m = revision (store (inner s)) ∧ rr_session_id m = session_id s ∧
        export_snapshot_transaction (store (inner s)) = Ok tx ∧
        match cause with
        | ReplacedIncarnation => cr_session_id resume ≠ session_id s ∧ inner s' = inner s
        | OutboundQueueOverflow => cr_session_id resume = session_id s ∧
            is_client_stale (outbound_hub s) (cr_client_instance_id resume) = true
        | JournalGap => cr_session_id resume = session_id s ∧
            is_client_stale (outbound_hub s) (cr_client_instance_id resume) = false ∧
            replay_from (journal (inner s)) (cr_last_applied_revision resume) = None
        end
  end.
Proof.
  intros Hil Heq s. destruct (bootstrap_resume_Ok _ _ _ _ _ _ _ Hil Heq) as (plan & s1 & [_ Hop -> Hout Hplan]).
  pose proof (op_inner _ _ _ _ _ Hop) as Hi. cbn [inner subscribing with_hub] in Hi. fold s in Hi, Hplan.
  destruct (determine_resync_cause resume s) as [cause|] eqn:Hcause.
  - destruct Hplan as (edits & tx & frames & _ & Htx & ->).
    apply plan_resync_outcome in Hout as (_ & m & -> & Hc & Hr & Hrev & Hid). exists cause. split_and!; try done.
    revert Hcause. unfold determine_resync_cause. case_bool_decide as Hne; [intros [= <-]; by rewrite <- Hi|].
    destruct (is_client_stale _ _); [by intros [= <-]|].
    destruct (replay_from _ _); [done|by intros [= <-]].
  - destruct (plan_replay_spec _ _ Hcause) as (m & txs & Hp & ?).
    rewrite Hp in Hplan. injection Hplan as <-. cbn in Hout. injection Hout as <- _. destruct_and!. by split_and!.
Qed.

(** The client's queue had overflowed; the marker is cleared before it subscribes. *)
Lemma resumption_is_decided_exactly_witness : ∃ b m tx,
  bootstrap_resume overflowed_locks cleared [] (demo_resume 1 "session-1") = (1, (resynced_left, Ok b)) ∧
  rb_outcome b = Resync m tx ∧ rr_snapshot_revision m = 2%N ∧
  is_client_stale (outbound_hub resynced_left) demo_client = false.
Proof.
  destruct resynced_ok as [b Heq]. exists b.
  pose proof (resumption_is_decided_exactly overflowed_locks cleared [] (demo_resume 1 "session-1") 1 resynced_left b
    (proj2 (serving_interleaved _ _ overflowed_serving)) Heq) as Hd.
  destruct (rb_outcome b) as [m txs|m tx].
  - destruct Hd as (_ & Hst & _). vm_compute in Hst. discriminate Hst.
  - destruct Hd as (cause & _ & _ & Hrev & _). exists m, tx. split; [exact Heq|]. split; [reflexivity|].
    rewrite Hrev. split; vm_compute; reflexivity.
Defined.

(** C23: a handshake that is refused leaves the server as it found it: the session,
    the lanes of the other clients, the contract, and whether any client was ever
    let in.  Only the table of resource ceilings may remember the client; and the
    outbound hub is as the other users it has while a resumption holds the session
    left it. *)
Theorem refused_handshakes_change_nothing
    `{Registry, EventRegistry, PropertyIter, Diagnostics, Digest, ItemEncoding, Encoding, HashOrder}
    (locks : nat → Server) (meanwhile : nat → OutboundHub → OutboundHub)
    (streams : list (NodeId * OutputRing)) (hello : ClientHello) (resume : ClientResume) :
  (∀ k s' e, bootstrap_fresh_client locks streams hello = (k, (s', Err e)) →
     s' = with_ceilings (locks k) (client_resource_ceilings s')) ∧
  (∀ k s' e, bootstrap_resume locks meanwhile streams resume = (k, (s', Err e)) →
     s' = with_ceilings (locks k) (client_resource_ceilings s') ∨
     s' = with_ceilings (subscribing locks meanwhile k) (client_resource_ceilings s')).
Proof.
  assert (∀ s, s = with_ceilings s (client_resource_ceilings s)) as Hsame by (by intros []).
  split; intros k s' e.
  - intros (_ & [[-> _]|(j & w & c & t & _ & _ & _ & Hfin)])%fresh_loop_spec; [apply Hsame|].
    pose proof (finish_fresh_spec (locks k) streams hello w t (fresh_export hello w c)) as Hs. by rewrite Hfin in Hs.
  - unfold bootstrap_resume. destruct (check_resume resume) as [edits|e'| |] eqn:Hc; [|intros [= <- <- _]; left; apply Hsame|done..].
    apply check_resume_offsets in Hc as [Hoff _].
    intros (_ & [[-> _]|(j & caps & _ & _ & Hend)])%resume_loop_spec; [left; apply Hsame|]. right.
    destruct (determine_resync_cause resume (locks k)); destruct Hend as [_ Hfin];
      match type of Hfin with finish_resume ?s ?st ?re ?tn ?plan = _ =>
        pose proof (finish_resume_spec s st re tn plan Hoff) as Hs end; by rewrite Hfin in Hs.
Qed.

Lemma refused_handshakes_change_nothing_witness : ∃ k s' e,
  bootstrap_fresh_client demo_locks [] unknown_hello = (k, (s', Err e)) ∧
  s' = with_ceilings (demo_locks k) (client_resource_ceilings s').
Proof.
  destruct (bootstrap_fresh_client demo_locks [] unknown_hello) as [k [s' r]] eqn:Heq.
  assert (is_Err r) as [e ->].
  { assert (is_Err (bootstrap_fresh_client demo_locks [] unknown_hello).2.2) as Hx by (vm_compute; eauto).
    by rewrite Heq in Hx. }
  exists k, s', e. split; [reflexivity|].
  by apply (refused_handshakes_change_nothing demo_locks quiet [] unknown_hello (demo_resume 1 "session-1")) in Heq.
Defined.

(** C22: handshakes return: whatever commits come between their lock acquisitions
    (short of a text edit decided at the last revision) and whatever happens to the
    outbound hub, both kinds finish within seven acquisitions, with a result or an error and
    without a panic, as long as the client's bound on snapshot parts has the width
    of its message. *)
Theorem handshakes_return
    `{Registry, EventRegistry, PropertyIter, Diagnostics, Digest, ItemEncoding, Encoding, HashOrder}
    (locks : nat → Server) (meanwhile : nat → OutboundHub → OutboundHub)
    (streams : list (NodeId * OutputRing)) (hello : ClientHello) (resume : ClientResume) :
  interleaved locks → streams_ok streams → parts_bounded (ch_limits hello) → parts_bounded (cr_limits resume) →
  ((bootstrap_fresh_client locks streams hello).1 ≤ 6 ∧
     returns (bootstrap_fresh_client locks streams hello).2.2) ∧
  (bootstrap_resume locks meanwhile streams resume).1 ≤ 6 ∧
  returns (bootstrap_resume locks meanwhile streams resume).2.2.
Proof.
  intros Hil Hst Hp1 Hp2.
  assert (∀ k, session_wf (inner (locks k))) as Hwf by (intros k; by eapply (interleaved_run locks k k)).
  assert (2 * MAX_OPTIMISTIC_SNAPSHOT_EXPORT_ATTEMPTS = 6) as Hsix by done. split; split.
  - destruct (bootstrap_fresh_client locks streams hello) as [k [s' r]] eqn:Heq.
    apply fresh_loop_spec in Heq as [? _]. cbn. lia.
  - by apply fresh_loop_returns.
  - destruct (bootstrap_resume locks meanwhile streams resume) as [k [s' r]] eqn:Heq. cbn. revert Heq.
    unfold bootstrap_resume. destruct (check_resume resume); try (intros [= <- _]; lia).
    intros [? _]%resume_loop_spec. lia.
  - unfold bootstrap_resume. pose proof (check_resume_returns resume) as Hc.
    destruct (check_resume resume) as [edits|e| |]; try done. by apply resume_loop_returns.
Qed.

Lemma handshakes_return_witness :
  returns (bootstrap_fresh_client demo_locks [(nid 7, demo_ring)] demo_hello).2.2.
Proof.
  destruct (handshakes_return demo_locks quiet [(nid 7, demo_ring)] demo_hello (demo_resume 1 "session-1")
    (proj2 (serving_interleaved _ _ demo_serving))) as [[_ Hret] _].
  - constructor; [|constructor]. exists []. exact (Ring_new_ok _ _ demo_ring_new).
  - vm_compute. discriminate.
  - vm_compute. discriminate.
  - exact Hret.
Defined.

(** ** Negotiation *)

(** What is agreed on: a client is let in exactly when its core version is
    compatible, it offers every required profile and the namespace table is
    consistent; they then speak the required profiles and the optional ones it
    offers, and every one of them but the standard widgets has a number of its
    own in the table.  A refusal names what is wrong. *)
Theorem negotiation_is_exact (s : Server) (version : string) (offered : list string) :
  match negotiate_client s version offered with
  | Ok caps =>
      core_version_is_compatible version = true ∧
      (∀ p, p ∈ cap_required (capabilities s) → ∃ text, text ∈ offered ∧ profile_parse text = Ok p) ∧
      (∀ p, p ∈ caps ↔ p ∈ cap_required (capabilities s) ∨
         p ∈ cap_optional (capabilities s) ∧ ∃ text, text ∈ offered ∧ profile_parse text = Ok p) ∧
      (∀ p, p ∈ caps → p ≠ standard_widgets_v1 →
         ∃ id, id ≠ 0%N ∧ ∀ m, m ∈ extension_namespaces s →
           extension_uri m = profile_display p ↔ namespace_id m = id)
  | Err (HsUnsupportedCoreVersion requested supported) =>
      core_version_is_compatible version = false ∧ requested = version ∧ supported = CORE_VERSION
  | Err (HsNegotiation (UnsatisfiedRequiredProfiles missing)) => missing ≠ [] ∧
      ∀ p, p ∈ missing ↔ p ∈ cap_required (capabilities s) ∧
        ∀ text, text ∈ offered → profile_parse text ≠ Ok p
  | Err (HsInvalidConfiguration _) => ¬ contract (capabilities s) (extension_namespaces s)
  | _ => False
  end.
Proof.
  pose proof (negotiate_client_spec s version offered) as Hs.
  destruct (negotiate_client s version offered) as [caps|e| |]; [|destruct e as [r0 s0|[missing]|w|w| |e]; try done|done..].
  - destruct Hs as (Hv & Hreq & Hcaps & Hcon). split_and!; [done|..].
    + intros p Hp%Hreq. by apply elem_of_client_capabilities.
    + intros p. by rewrite Hcaps, elem_of_client_capabilities.
    + intros p Hp Hne. destruct Hcon as [Hstd Hids Huris Hmap Hadv].
      destruct (Hadv p) as [?|(Hn & id & Hid)]; [apply Hcaps in Hp; unfold advertised; tauto|done|].
      exists id. split.
      * intros ->. apply (display_not_standard p).
        by pose proof (NoDup_fmap_inj _ _ _ _ Hids Hid Hstd eq_refl) as [= ->].
      * intros m Hm. split; intros Heq.
        -- by rewrite (NoDup_fmap_inj _ _ _ _ Huris Hm Hid Heq).
        -- by rewrite (NoDup_fmap_inj _ _ _ _ Hids Hm Hid Heq).
  - destruct Hs as [? Hs]. split; [done|]. intros p. rewrite Hs, elem_of_client_capabilities. naive_solver.
Qed.

(** ** Cancelled text edits *)

(** C9: a text edit that had not arrived when its client was resynchronised never
    runs: when a client returns to the same session and is resynchronised, the
    edits it still held are reported as discarded, in order; and each of them that
    the receive window admits as fresh at its turn is settled there and then, so
    that an event of that client with its sequence number, arriving however late,
    is never started as long as the client's window is remembered. (Edits that are
    in flight or settled already are reported too: those are left to finish, or
    keep their outcome.) *)
Theorem cancelled_edits_never_start
    `{Registry, EventRegistry, PropertyIter, Diagnostics, Digest, ItemEncoding, Encoding, HashOrder}
    (locks : nat → Server) (meanwhile : nat → OutboundHub → OutboundHub)
    (streams : list (NodeId * OutputRing)) (resume : ClientResume) (k : nat) (s' : Server) (b : ResumeClientBootstrap) (m : ServerResyncRequired) (tx : Msg.Transaction)
    (pre post : list ValidatedPendingTextEditRef) (v : ValidatedPendingTextEditRef) (n : N)
    (s2 s3 : SessionInner) (ev : WireEvent) (r : result SessionError Continuation) :
  interleaved locks → events_wf (inner (locks k)) →
  bootstrap_resume locks meanwhile streams resume = (k, (s', Ok b)) →
  rb_outcome b = Resync m tx → rr_continuity m = SameSession →
  validate_pending_text_edit_refs (cr_pending_text_edits resume) = Ok (pre ++ v :: post) →
  let c := cr_client_instance_id resume in
  let cancel d v := cancel_event d (cancelled_key c v) (cancelled_outcome (inner (locks k))) in
  (admit_event (foldl cancel (dedupe (inner (locks k))) pre) (cancelled_key c v)).2 = Ok (Fresh n) →
  retaining_run c (inner s') s2 → we_client_instance_id ev = c → we_event_seq ev = pr_event_seq (vr_reference v) →
  process_event s2 ev = (s3, r) →
  rr_discarded_text_edits m = map vr_reference (pre ++ v :: post) ∧ ¬ starts r.
Proof.
  intros Hil He Heq Hout Hcont Hedits c cancel Hfresh Hret Hc Hq Hpe.
  destruct (bootstrap_resume_Ok _ _ _ _ _ _ _ Hil Heq) as (plan & s1 & [_ Hop -> Hplanout Hplan]).
  rewrite Hout in Hplanout. destruct (determine_resync_cause resume (locks k)) as [cause|] eqn:Hcause.
  2: { destruct (plan_replay_spec _ _ Hcause) as (? & ? & Hp & _). rewrite Hp in Hplan. injection Hplan as <-.
       discriminate Hplanout. }
  destruct Hplan as (edits & tx' & frames & Hcheck & _ & ->).
  assert (edits = pre ++ v :: post) as ->.
  { unfold check_resume in Hcheck. apply bind_unit_Ok in Hcheck as [_ Hcheck].
    apply bind_unit_Ok in Hcheck as [_ Hcheck]. rewrite Hedits in Hcheck. by injection Hcheck as <-. }
  pose proof (plan_resync_outcome _ _ _ _ _ _ _ _ _ Hplanout) as (_ & m' & [= <- _] & Hm & _).
  assert (cause ≠ ReplacedIncarnation) as Hsame by (intros ->; by rewrite Hcont in Hm).
  destruct (plan_resync_cancels (locks k) _ _ _ _ _ _ _ _ _ Hsame (op_inner _ _ _ _ _ Hop) Hplanout) as [Hdisc Hinner].
  rewrite Hinner in Hret. split; [exact Hdisc|].
  destruct (cancellation_remembers (inner (locks k)) c pre v post n (evw_dedupe _ He) Hfresh) as [Hd1 Hrem].
  set (s4 := commit_cancellation _ _) in *.
  destruct (interleaved_run locks k k Hil (le_n k)) as [Hwf _].
  assert (session_wf s4) as Hwf1 by (by eapply (session_wf_ext (inner (locks k)))).
  assert (events_wf s4) as He1 by (split; [done|apply He]).
  apply (retaining_run_remembers _ _ _ (pr_event_seq (vr_reference v)) Hwf1 He1) in Hret as (_ & He2 & Hrem2).
  intros Hst. destruct (process_event_starts _ _ _ _ (evw_dedupe _ He2) Hpe Hst) as (Hn & _).
  apply Hn. rewrite Hc, Hq. by apply Hrem2.
Qed.

(** The edit the client held when its queue overflowed, sent again. *)
Lemma cancelled_edits_never_start_witness : ∃ b m tx,
  bootstrap_resume overflowed_locks cleared [] (demo_resume 1 "session-1") = (1, (resynced_left, Ok b)) ∧
  rb_outcome b = Resync m tx ∧ rr_discarded_text_edits m = [pending_edit] ∧
  ¬ starts (process_event (inner resynced_left) late_edit).2.
Proof.
  destruct resynced_outcome as (b & m & tx & Heq & Hout & Hcont). exists b, m, tx. split; [exact Heq|]. split; [exact Hout|].
  apply (cancelled_edits_never_start overflowed_locks cleared [] (demo_resume 1 "session-1") 1 resynced_left b m tx
    [] [] pending_validated 0 (inner resynced_left) (process_event (inner resynced_left) late_edit).1 late_edit
    (process_event (inner resynced_left) late_edit).2
    (proj2 (serving_interleaved _ _ overflowed_serving)) served2_events Heq Hout Hcont).
  - vm_compute. reflexivity.
  - vm_compute. reflexivity.
  - apply retain_nil.
  - reflexivity.
  - reflexivity.
  - apply surjective_pairing.
Defined.
