(* ===== verification/Findings.v ===== *)
(** * Where the code and its documentation disagree

    Concrete runs of the model that do something other than what a comment, a
    document or a sibling check of the code says.  Each names the source. *)

From S2P Require Import Prelude.
From S2P Require Import Values.
From S2P Require Import Limits.
From S2P Require Import Models.
From S2P Require Import Store.
From S2P Require Import Transaction.
From S2P Require Import Wire.
From S2P Require Import SnapshotFraming.
From S2P Require Import Snapshot.
From S2P Require Import Journal.
From S2P Require Import Dedupe.
From S2P Require Import Event.
From S2P Require Import Resources.
From S2P Require Import Session.
From S2P Require Import Capability.
From S2P Require Import Extensions.
From S2P Require Import Handshake.
From S2P Require Import TerminalNode.
From S2P Require Import Demo.
From S2P Require Import ServerTheorems.

Definition is_err {E A} (r : result E A) : bool := match r with Err _ => true | _ => false end.

(** Deleting items that are not cached lowers the count below a cached index;
    the export then carries a window outside of the model, which no replica
    accepts ([model.rs], [delete_items]). *)
Definition overdeleted : SemanticStore :=
  ok_store (apply_ops 0 demo_store [model_delete_items (mid 1) [iid 12; iid 13; iid 99]]).
Lemma uncached_deletes_break_snapshots :
  apply_ops 0 demo_store [model_delete_items (mid 1) [iid 12; iid 13; iid 99]] = Ok overdeleted ∧
  (item_count <$> models overdeleted !! mid 1) = Some 1%N ∧
  match export_snapshot_transaction overdeleted with
  | Ok tx => is_err (apply_snapshot (with_limits demo_limits) tx).2
  | _ => false
  end = true.
Proof. split_and!; vm_compute; reflexivity. Qed.

(** Deleting a range whose end overflows on a model of [u64::MAX] items panics
    ([model.rs], [delete_items]). *)
Lemma overflowing_delete_panics :
  delete_items (Model_new (mid 1) list_type u64_max) (Some u64_max) (Some 1%N) [] = Panic.
Proof. vm_compute. reflexivity. Qed.

(** A positional update adds items past the bound on cached items that inserting
    and resetting enforce ([store/mod.rs], [model_update]). *)
Definition small_limits : StoreLimits := mkStoreLimits 64 100 100 8 100 100 100 10 2 10.
Definition small_store : SemanticStore :=
  mkStore (nodes demo_store) (roots demo_store) (used_ids demo_store) (models demo_store) (used_model_ids demo_store)
    small_limits 0.
Lemma updates_pass_the_cache_bound :
  (cached_item_count <$> models small_store !! mid 1) = Some 2%N ∧
  (let '(s', r) := model_update small_store (mid 1) (Some 2%N) [item 12] in
   r = Ok tt ∧ (cached_item_count <$> models s' !! mid 1) = Some 3%N).
Proof. split; vm_compute; [reflexivity|split; reflexivity]. Qed.

(** A closure that ignores the error of a call ([careless]) still commits, and publishes, the
    operation that failed; a replica then refuses the transaction
    ([sdk/src/session.rs], [UiTransaction::apply_op]). *)
Lemma ignored_errors_are_published :
  match transaction_with_result demo_session careless with
  | Ok (s', (_, tx)) =>
      len (Msg.operations tx) = 1%N ∧ is_err (apply_delivered_transaction (store demo_session) tx).2 = true
  | _ => False
  end.
Proof. vm_compute. split; reflexivity. Qed.

(** A node with id 0 cannot be named as a parent on the wire ([wire.rs]). *)
Lemma parent_zero_is_lost :
  op_from_wire (op_to_wire (CreateNode (nid 2) window_type (Some (nid 0)) None [])) =
    Ok (CreateNode (nid 2) window_type None None []).
Proof. vm_compute. reflexivity. Qed.

(** At the last revision a decided text edit wraps around to revision 0, where a
    transaction is refused ([session/text_edit.rs], [commit_text_edit_decision]). *)
Lemma edits_wrap_the_revision :
  new_revision (commit_txn (AuthoritativeCommit_new u64_max [])) = 0%N ∧ checked_next u64_max = None.
Proof. split; vm_compute; reflexivity. Qed.

(** Another version of the standard widgets can be registered, after which every
    handshake is refused as misconfigured ([session/extensions.rs]). *)
Definition widgets_v2 : Profile := mkProfile STANDARD_URI 2.
Lemma registration_can_block_handshakes :
  match register_optional_extension_profile plain_server widgets_v2 with
  | Ok (s', _) => negotiate_client s' "0.5.0" ["org.srui.standard-widgets/1"] =
      Err (HsInvalidConfiguration (UnsupportedStandardProfile widgets_v2))
  | _ => False
  end.
Proof. vm_compute. reflexivity. Qed.

(** Two terminals are created at once: while the process of the first starts, a
    second is prepared; the first fails before the second has a stream, and takes
    away the namespace and the requirement of the second, which then succeeds
    with a type that no client is told of ([session/terminal.rs],
    [create_terminal_node]). *)
Definition prepared_by_first : Server * option TerminalTypeRollback :=
  match prepare_terminal_type (demo_server served1) with
  | Ok (s1, (_, rollback)) => (s1, Some rollback)
  | _ => (demo_server served1, None)
  end.
Lemma overlapping_terminals_lose_the_namespace :
  let '(s1, first) := prepared_by_first in
  let first_fails s := match first with Some r => rollback_terminal_type s false r | None => s end in
  let '(s', r) := create_terminal_node s1 (nid 9) (nid 1) None false first_fails in
  r = Ok (mkTypeRef 2 1) ∧
  bool_decide (TERMINAL_PROFILE_URI ∈ extension_uri <$> extension_namespaces s') = false ∧
  bool_decide (terminal_v1 ∈ cap_required (capabilities s')) = false ∧
  (node_type <$> nodes (store (inner s')) !! nid 9) = Some (mkTypeRef 2 1) ∧
  validate_extension_namespace_contract s' = Ok tt.
Proof. vm_compute. split_and!; reflexivity. Qed.

(** A snapshot without operations is one part even where its header alone is too
    large for the frame ([semantic-tree/src/snapshot_framing.rs]). *)
Lemma empty_snapshots_may_not_fit :
  plan_snapshot_frames (Msg.mkTransaction 0 1 [] 0) 1 4 = Ok (single 0) ∧
  (1 < envelope_len 1 0 0)%N.
Proof. split; vm_compute; reflexivity. Qed.

(** The journal's [record] accepts the transaction that would wrap, at
    [u64::MAX] ([sessiond/src/journal.rs]). *)
Lemma journal_accepts_the_last_revision_twice :
  is_ok (Journal.record (Journal_new 4) (Msg.mkTransaction u64_max u64_max [] 0)) = true.
Proof. vm_compute. reflexivity. Qed.
