(* ===== verification/ModelRange.v ===== *)
(** * Windows of collections on demand

    Models [sessiond/src/session/model_range.rs]: the validation of a client's
    request for a window of a collection, its fulfilment as one committed
    MODEL_RESET_RANGE, and the per-connection inbox that coalesces requests.

    A provider runs without the session lock: [fulfill_model_range_request] is
    given the session when it starts and the session when the provider has
    answered.  Providers are application code; here they are their answers. *)

From S2P Require Import Prelude.
From S2P Require Import Values.
From S2P Require Import Limits.
From S2P Require Import Models.
From S2P Require Import Store.
From S2P Require Import Transaction.
From S2P Require Import Wire.
From S2P Require Import Journal.
From S2P Require Import Event.
From S2P Require Import Resources.
From S2P Require Import Session.

(** The build-generated types that show collections. *)
Class CollectionRegistry := { TYPE_LIST : TypeRef; TYPE_TABLE : TypeRef; TYPE_TREE : TypeRef }.
Definition standard_collections : CollectionRegistry :=
  {| TYPE_LIST := TypeRef_standard 17; TYPE_TABLE := TypeRef_standard 18; TYPE_TREE := TypeRef_standard 19 |}.

(** [message ClientModelRangeRequest] *)
Record ClientModelRangeRequest := mkRange {
  rq_node_id : N;
  rq_model_id : N;
  rq_start_index : N;
  rq_count : N;
  rq_observed_revision : N;
}.
#[export] Instance ClientModelRangeRequest_eq_dec : EqDecision ClientModelRangeRequest.
Proof. solve_decision. Defined.

(** [pub struct ModelRangeQuery] *)
Record ModelRangeQuery := mkQuery {
  q_node_id : NodeId;
  q_model_id : ModelId;
  q_start_index : N;
  q_count : N;
  q_observed_revision : N;
}.

(** [pub enum ModelRangeFulfillment] and [pub enum ModelRangeError] *)
Inductive ModelRangeFulfillment :=
| Committed (new_revision : N)
| AlreadyCached
| StaleWindow
| NoProvider.
Inductive ModelRangeError :=
| InvalidNodeId (id : N)
| InvalidModelId (id : N)
| CountZero
| IndexOverflow (start count : N)
| MrNodeNotFound (id : NodeId)
| NotACollectionNode (id : NodeId)
| ModelRefMismatch (node : NodeId) (requested : ModelId) (actual : option ModelId)
| MrModelNotFound (id : ModelId)
| OutOfBounds (start fin item_count : N)
| CountExceedsLimit (count limit : N)
| StaleRevision (observed actual : N)
| ProviderItemCountMismatch (expected actual : N)
| Provider (message : string)
| MrSession (message : string).

Section ranges.
Context `{Registry, EventRegistry, PropertyIter, Diagnostics, Digest, CollectionRegistry}.

Definition is_collection_type (t : TypeRef) : bool :=
  bool_decide (t = TYPE_LIST) || bool_decide (t = TYPE_TABLE) || bool_decide (t = TYPE_TREE).

(** [(0..count).all(..)] *)
Definition range_is_cached (m : Model) (start count : N) : bool :=
  forallb (λ i, bool_decide (is_Some (items m !! i))) (seqN start count).

(** [validate_request] *)
Definition validate_request (s : SessionInner) (request : ClientModelRangeRequest)
    : result ModelRangeError ModelRangeQuery :=
  err_if (rq_node_id request =? 0)%N (InvalidNodeId (rq_node_id request)) ≫= λ _,
  err_if (rq_model_id request =? 0)%N (InvalidModelId (rq_model_id request)) ≫= λ _,
  err_if (rq_count request =? 0)%N CountZero ≫= λ _,
  fin ← ok_or (IndexOverflow (rq_start_index request) (rq_count request))
          (checked_add64 (rq_start_index request) (rq_count request));
  let node_id := mkNodeId (rq_node_id request) in
  let model_id := mkModelId (rq_model_id request) in
  node ← ok_or (MrNodeNotFound node_id) (nodes (store s) !! node_id);
  err_if (negb (is_collection_type (node_type node))) (NotACollectionNode node_id) ≫= λ _,
  err_if (bool_decide (model_ref node ≠ Some model_id)) (ModelRefMismatch node_id model_id (model_ref node)) ≫= λ _,
  model ← ok_or (MrModelNotFound model_id) (models (store s) !! model_id);
  err_if (item_count model <? fin)%N (OutOfBounds (rq_start_index request) fin (item_count model)) ≫= λ _,
  let limit := max_items_per_model_operation (limits (store s)) in
  err_if (limit <? rq_count request)%N (CountExceedsLimit (rq_count request) limit) ≫= λ _,
  let actual := revision (store s) in
  err_if (actual <? rq_observed_revision request)%N (StaleRevision (rq_observed_revision request) actual) ≫= λ _,
  Ok (mkQuery node_id model_id (rq_start_index request) (rq_count request) (rq_observed_revision request)).

(** Whether the model a query names caches its window. *)
Definition query_is_cached (s : SessionInner) (q : ModelRangeQuery) : bool :=
  match models (store s) !! q_model_id q with
  | Some model => range_is_cached model (q_start_index q) (q_count q)
  | None => false
  end.

(** The first critical section of [fulfill_model_range_request], over the models
    that have a provider: an outcome, or the question for the provider. *)
Definition begin_fulfillment (s : SessionInner) (providers : gset ModelId) (request : ClientModelRangeRequest)
    : result ModelRangeError (ModelRangeFulfillment + ModelRangeQuery) :=
  query ← validate_request s request;
  if query_is_cached s query then Ok (inl AlreadyCached)
  else if bool_decide (q_model_id query ∈ providers) then Ok (inr query) else Ok (inl NoProvider).

(** [commit_ops_locked] *)
Definition commit_ops_locked (s : SessionInner) (ops : list Operation) : SessionInner * result ModelRangeError unit :=
  let base := revision (store s) in
  let ui := UiTransaction_new (clone_staging (store s)) (max_transaction_operations (limits (store s))) in
  match ui_run ui ops with
  | (ui', Ok _) =>
      let commit := AuthoritativeCommit_new base (ui_operations ui') in
      match prepare (journal s) commit with
      | Ok permit =>
          (install s (commit_staging (store s) (ui_staged ui') (new_revision (commit_txn commit))) permit false, Ok tt)
      | Err e => (s, Err (MrSession (session_message (SessJournal e))))
      | Panic => (s, Panic)
      | Diverge => (s, Diverge)
      end
  | (_, Err e) => (s, Err (MrSession (session_message (SessStore e))))
  | (_, Panic) => (s, Panic)
  | (_, Diverge) => (s, Diverge)
  end.

(** [Session::commit_reset_if_current] *)
Definition request_of (q : ModelRangeQuery) : ClientModelRangeRequest :=
  mkRange (NodeId_get (q_node_id q)) (ModelId_get (q_model_id q)) (q_start_index q) (q_count q) (q_observed_revision q).
Definition commit_reset_if_current (s : SessionInner) (q : ModelRangeQuery) (batch : list ModelItem)
    : SessionInner * result ModelRangeError ModelRangeFulfillment :=
  match validate_request s (request_of q) with
  | Ok _ =>
      if query_is_cached s q then (s, Ok AlreadyCached)
      else
        let op := ModelResetRange (q_model_id q) (q_start_index q) batch None in
        match commit_ops_locked s [op] with
        | (s', Ok _) => (s', Ok (Committed (revision (store s'))))
        | (s', Err e) => (s', Err e)
        | (s', Panic) => (s', Panic)
        | (s', Diverge) => (s', Diverge)
        end
  | Err (StaleRevision _ _ | OutOfBounds _ _ _ | MrNodeNotFound _ | MrModelNotFound _ | ModelRefMismatch _ _ _) =>
      (s, Ok StaleWindow)
  | Err e => (s, Err e)
  | Panic => (s, Panic)
  | Diverge => (s, Diverge)
  end.

(** [Session::fulfill_model_range_request]: [s] is the session it starts in, [s']
    the session when the provider has given its [answer]. *)
Definition fulfill_model_range_request (s s' : SessionInner) (providers : gset ModelId)
    (answer : ModelRangeQuery → result ModelRangeError (list ModelItem)) (request : ClientModelRangeRequest)
    : SessionInner * result ModelRangeError ModelRangeFulfillment :=
  match begin_fulfillment s providers request with
  | Ok (inl done) => (s', Ok done)
  | Ok (inr query) =>
      match answer query with
      | Ok batch =>
          if negb (len batch =? q_count query)%N
          then (s', Err (ProviderItemCountMismatch (q_count query) (len batch)))
          else commit_reset_if_current s' query batch
      | Err e => (s', Err e)
      | Panic => (s', Panic)
      | Diverge => (s', Diverge)
      end
  | Err e => (s', Err e)
  | Panic => (s', Panic)
  | Diverge => (s', Diverge)
  end.

(** [Session::push_visible_model_range]: [s0] is the session whose revision it reads. *)
Definition push_visible_model_range (s0 s s' : SessionInner) (providers : gset ModelId)
    (answer : ModelRangeQuery → result ModelRangeError (list ModelItem)) (node : NodeId) (model : ModelId)
    (start_index count : N) : SessionInner * result ModelRangeError ModelRangeFulfillment :=
  fulfill_model_range_request s s' providers answer
    (mkRange (NodeId_get node) (ModelId_get model) start_index count (revision (store s0))).
End ranges.

(** ** The inbox *)

Definition MAX_PENDING_RANGES_PER_MODEL : N := 8.
Definition MAX_INFLIGHT_MODELS : N := 32.
Definition COALESCE_SPAN : N := 256.
Definition MAX_MERGED_COUNT : N := 10000.

(** [struct CoalescingState], without the waker of its inbox. *)
Record CoalescingState := mkInbox {
  in_order : list ModelId;
  in_pending : gmap ModelId (list ClientModelRangeRequest);
  in_closed : bool;
}.
Definition Inbox_new : CoalescingState := mkInbox [] ∅ false.

(** [evict_oldest_models_over_cap]: every iteration takes a model off the order. *)
Fixpoint evict_oldest_models (fuel : nat) (st : CoalescingState) : result Empty_set CoalescingState :=
  match fuel with
  | O => Diverge
  | S fuel =>
      if (MAX_INFLIGHT_MODELS <? map_len (in_pending st))%N then
        match in_order st with
        | [] => Ok st
        | oldest :: order =>
            match in_pending st !! oldest with
            | None => evict_oldest_models fuel (mkInbox order (in_pending st) (in_closed st))
            | Some _ =>
                evict_oldest_models fuel
                  (mkInbox (retain_ne oldest order) (delete oldest (in_pending st)) (in_closed st))
            end
        end
      else Ok st
  end.
Definition evict_oldest_models_over_cap (st : CoalescingState) : result Empty_set CoalescingState :=
  evict_oldest_models (S (length (in_order st))) st.

Definition request_end (r : ClientModelRangeRequest) : option N := checked_add64 (rq_start_index r) (rq_count r).

(** [bounding_range] and [ranges_are_close] *)
Definition bounding_range (left right : ClientModelRangeRequest) : option ClientModelRangeRequest :=
  left_end ← request_end left;
  right_end ← request_end right;
  let start := N.min (rq_start_index left) (rq_start_index right) in
  let fin := N.max left_end right_end in
  count ← (if (fin <? start)%N then None else Some (fin - start)%N);
  if (count =? 0)%N || (MAX_MERGED_COUNT <? count)%N then None
  else Some (mkRange (rq_node_id right) (rq_model_id right) start count
               (N.max (rq_observed_revision left) (rq_observed_revision right))).
Definition ranges_are_close (left right : ClientModelRangeRequest) : bool :=
  match request_end left, request_end right with
  | Some left_end, Some right_end =>
      let start := N.min (rq_start_index left) (rq_start_index right) in
      let fin := N.max left_end right_end in
      (fin - start <=? COALESCE_SPAN)%N
  | _, _ => false
  end.

(** The closure of the first [retain] of [integrate_pending], over the windows
    kept, the merged window and whether it absorbed any. *)
Definition absorb_window (st : list ClientModelRangeRequest * ClientModelRangeRequest * bool)
    (existing : ClientModelRangeRequest) : list ClientModelRangeRequest * ClientModelRangeRequest * bool :=
  let '(kept, merged, absorbed) := st in
  if negb (rq_node_id existing =? rq_node_id merged)%N || negb (rq_model_id existing =? rq_model_id merged)%N
  then (kept ++ [existing], merged, absorbed)
  else if ranges_are_close existing merged then
    match bounding_range existing merged with
    | Some bound => (kept, bound, true)
    | None => (kept ++ [existing], merged, absorbed)
    end
  else (kept ++ [existing], merged, absorbed).

(** [trim_pending_to_cap]: every iteration removes a window. *)
Fixpoint trim_pending (fuel : nat) (incoming_node : N) (l : list ClientModelRangeRequest)
    : result Empty_set (list ClientModelRangeRequest) :=
  match fuel with
  | O => Diverge
  | S fuel =>
      if (MAX_PENDING_RANGES_PER_MODEL <? len l)%N then
        let last := Nat.pred (length l) in
        let drop_at :=
          match list_find (λ existing, rq_node_id existing = incoming_node) (take last l) with
          | Some (i, _) => i
          | None => 0
          end in
        trim_pending fuel incoming_node (delete drop_at l)
      else Ok l
  end.
Definition trim_pending_to_cap (incoming_node : N) (l : list ClientModelRangeRequest)
    : result Empty_set (list ClientModelRangeRequest) :=
  trim_pending (S (length l)) incoming_node l.

(** [integrate_pending] *)
Definition integrate_pending (l : list ClientModelRangeRequest) (incoming : ClientModelRangeRequest)
    : result Empty_set (list ClientModelRangeRequest) :=
  let '(kept, merged, absorbed) := foldl absorb_window ([], incoming, false) l in
  let kept := if absorbed then kept else filter (λ existing, rq_node_id existing ≠ rq_node_id merged) kept in
  trim_pending_to_cap (rq_node_id merged) (kept ++ [merged]).

(** [ModelRangeRequestInbox::submit] *)
Definition submit (st : CoalescingState) (request : ClientModelRangeRequest) : result Empty_set CoalescingState :=
  if (rq_node_id request =? 0)%N || (rq_model_id request =? 0)%N || (rq_count request =? 0)%N then Ok st
  else if in_closed st then Ok st
  else
    let model_id := mkModelId (rq_model_id request) in
    let l := default [] (in_pending st !! model_id) in
    l' ← integrate_pending l request;
    let order := if bool_decide (l = []) && negb (bool_decide (l' = [])) then in_order st ++ [model_id]
                 else in_order st in
    evict_oldest_models_over_cap (mkInbox order (<[model_id := l']> (in_pending st)) (in_closed st)).

(** [ModelRangeRequestInbox::close] *)
Definition close_inbox (st : CoalescingState) : CoalescingState := mkInbox (in_order st) (in_pending st) true.

(** [ModelRangeRequestInbox::try_pop]: every iteration takes a model off the order. *)
Fixpoint try_pop_loop (fuel : nat) (st : CoalescingState)
    : CoalescingState * result Empty_set (option ClientModelRangeRequest) :=
  match fuel with
  | O => (st, Diverge)
  | S fuel =>
      match in_order st with
      | [] => (st, Ok None)
      | model_id :: order =>
          match in_pending st !! model_id with
          | None => try_pop_loop fuel (mkInbox order (in_pending st) (in_closed st))
          | Some [] => try_pop_loop fuel (mkInbox order (delete model_id (in_pending st)) (in_closed st))
          | Some [request] => (mkInbox order (delete model_id (in_pending st)) (in_closed st), Ok (Some request))
          | Some (request :: remaining) =>
              (mkInbox (order ++ [model_id]) (<[model_id := remaining]> (in_pending st)) (in_closed st),
               Ok (Some request))
          end
      end
  end.
Definition try_pop (st : CoalescingState) : CoalescingState * result Empty_set (option ClientModelRangeRequest) :=
  try_pop_loop (S (length (in_order st))) st.

(** [InboxRecv::poll], with the inbox as it is after the waker is registered. *)
Inductive Poll (A : Type) := Ready (a : A) | Pending.
Arguments Ready {A} a.
Arguments Pending {A}.
Definition inbox_poll (st st' : CoalescingState)
    : CoalescingState * result Empty_set (Poll (option ClientModelRangeRequest)) :=
  match try_pop st with
  | (st1, Ok (Some request)) => (st1, Ok (Ready (Some request)))
  | (st1, Ok None) =>
      if in_closed st1 then (st1, Ok (Ready None))
      else
        match try_pop st' with
        | (st2, Ok (Some request)) => (st2, Ok (Ready (Some request)))
        | (st2, Ok None) => (st2, Ok (if in_closed st2 then Ready None else Pending))
        | (st2, Err e) => (st2, Err e)
        | (st2, Panic) => (st2, Panic)
        | (st2, Diverge) => (st2, Diverge)
        end
  | (st1, Err e) => (st1, Err e)
  | (st1, Panic) => (st1, Panic)
  | (st1, Diverge) => (st1, Diverge)
  end.

(** The turns of [run_model_range_worker], [fuel] of them at most, until it waits
    ([Pending]) or leaves ([Ready tt]) its loop, closing the inbox.  Nobody else
    uses the session or the inbox meanwhile. *)
Section worker.
Context `{Registry, EventRegistry, PropertyIter, Diagnostics, Digest, CollectionRegistry}.
Variable providers : gset ModelId.
Variable answer : ModelRangeQuery → result ModelRangeError (list ModelItem).

Fixpoint run_model_range_worker (fuel : nat) (s : SessionInner) (st : CoalescingState)
    : SessionInner * CoalescingState * list (ClientModelRangeRequest * result ModelRangeError ModelRangeFulfillment) *
      result Empty_set (Poll unit) :=
  match fuel with
  | O => (s, st, [], Diverge)
  | S fuel =>
      match inbox_poll st (try_pop st).1 with
      | (st', Ok (Ready (Some request))) =>
          let '(s', r) := fulfill_model_range_request s s providers answer request in
          let '(s2, st2, served, out) := run_model_range_worker fuel s' st' in
          (s2, st2, (request, r) :: served, out)
      | (st', Ok (Ready None)) => (s, close_inbox st', [], Ok (Ready tt))
      | (st', Ok Pending) => (s, st', [], Ok Pending)
      | (st', Err e) => (s, st', [], Err e)
      | (st', Panic) => (s, st', [], Panic)
      | (st', Diverge) => (s, st', [], Diverge)
      end
  end.
End worker.
