(* ===== verification/ModelRangeFacts.v ===== *)
(** * Facts about windows on demand

    What a request is refused for, what fulfilling one leaves behind, and the
    invariant of the inbox. *)

From S2P Require Import Prelude.
From S2P Require Import Values.
From S2P Require Import Limits.
From S2P Require Import Models.
From S2P Require Import ModelFacts.
From S2P Require Import Store.
From S2P Require Import StoreInv.
From S2P Require Import StoreModels.
From S2P Require Import Transaction.
From S2P Require Import TransactionFacts.
From S2P Require Import Wire.
From S2P Require Import WireFacts.
From S2P Require Import Journal.
From S2P Require Import Event.
From S2P Require Import Resources.
From S2P Require Import Session.
From S2P Require Import SessionFacts.
From S2P Require Import Replication.
From S2P Require Import ModelRange.

Section ranges.
Context `{Registry, EventRegistry, PropertyIter, Diagnostics, Digest, CollectionRegistry}.

(** ** Requests *)

(** The window a query asks for exists in what the session shows. *)
Record servable (s : SessionInner) (q : ModelRangeQuery) : Prop := {
  sb_node : ∃ n, nodes (store s) !! q_node_id q = Some n ∧ is_collection_type (node_type n) = true ∧
    model_ref n = Some (q_model_id q);
  sb_model : ∃ m, models (store s) !! q_model_id q = Some m ∧ (q_start_index q + q_count q ≤ item_count m)%N;
  sb_count : (0 < q_count q ≤ max_items_per_model_operation (limits (store s)))%N;
  sb_fits : (q_start_index q + q_count q ≤ u64_max)%N;
  sb_observed : (q_observed_revision q ≤ revision (store s))%N;
  sb_ids : q_node_id q ≠ mkNodeId 0 ∧ q_model_id q ≠ mkModelId 0;
}.

Lemma validate_request_Ok s r q : validate_request s r = Ok q ↔ r = request_of q ∧ servable s q.
Proof.
  unfold validate_request. split.
  - intros Heq. inv_ok. subst q. apply checked_add64_Some in Heq3 as [-> Hfit].
    apply N.eqb_neq in Heq0, Heq1, Heq2. apply negb_false_iff in Heq5. apply bool_decide_eq_false, dec_stable in Heq6.
    apply N.ltb_ge in Heq8, Heq9, Heq10.
    split; [by destruct r|]. split; cbn; eauto; [lia|split; intros [= ?]; done].
  - intros [-> [(n & Hn & Hc & Hr) (m & Hm & Hend) Hcnt Hfit Hobs [Hnid Hmid]]].
    destruct q as [[nid] [mid] start count observed]. cbn in *.
    rewrite (proj2 (N.eqb_neq nid 0)) by congruence. rewrite (proj2 (N.eqb_neq mid 0)) by congruence.
    rewrite (proj2 (N.eqb_neq count 0)) by lia. cbn [err_if mbind result_bind].
    rewrite (proj2 (checked_add64_Some _ _ (start + count)%N)) by done. cbn [ok_or mbind result_bind].
    rewrite Hn. cbn [ok_or mbind result_bind]. rewrite Hc. cbn [negb err_if mbind result_bind]. rewrite bool_decide_eq_false_2 by congruence.
    rewrite Hm. cbn [ok_or err_if mbind result_bind].
    by rewrite !(proj2 (N.ltb_ge _ _)) by lia.
Qed.

Lemma validate_request_returns s r : returns (validate_request s r).
Proof.
  unfold validate_request. repeat (apply returns_bind; [first [apply returns_err_if|apply returns_ok_or]|intros ? _]).
  done.
Qed.

Lemma range_is_cached_true m start count : range_is_cached m start count = true ↔
  ∀ i, (start ≤ i < start + count)%N → cached m i.
Proof.
  unfold range_is_cached. rewrite forallb_forall. setoid_rewrite <- list_elem_of_In.
  setoid_rewrite elem_of_seqN. by setoid_rewrite bool_decide_eq_true.
Qed.

(** ** The commit *)

(** Committing by [commit_ops_locked] is committing by a closure. *)
Lemma commit_ops_as_closure s ops s' : (revision (store s) + 1 ≤ u64_max)%N → session_wf s →
  existsb is_delete_op ops = false → commit_ops_locked s ops = (s', Ok tt) →
  ∃ tx, transaction_with_result s (λ ui _, ui_run ui ops) = Ok (s', (tt, tx)).
Proof.
  intros Hmax Hs Hdel. unfold commit_ops_locked, transaction_with_result, checked_next.
  rewrite (proj2 (checked_add64_Some _ _ (revision (store s) + 1)%N)) by done. cbn [ok_or mbind result_bind].
  destruct (ui_run _ ops) as [ui [[]|e| |]] eqn:Hrun; [|done..]. apply ui_run_clean in Hrun as [_ Hops].
  unfold AuthoritativeCommit_new. cbn [new_revision commit_txn].
  rewrite (prepare_lockstep s (Transaction_new (revision (store s)) (ui_operations ui)) Hs eq_refl).
  cbn [map_err mbind result_bind]. intros [= <-]. eexists. rewrite Hops. cbn [ui_operations UiTransaction_new app].
  by rewrite Hdel.
Qed.

Lemma ops_closure_clean ops : Forall op_canonical ops → clean_closure (λ ui (_ : N * N), ui_run ui ops).
Proof.
  intros Hc ui revs ui' [] Hf Hnil. apply ui_run_clean in Hf as [? Hops]. split; [done|]. by rewrite Hops, Hnil.
Qed.

Lemma commit_ops_err s ops s' r : commit_ops_locked s ops = (s', r) → is_ok r = false → s' = s.
Proof.
  unfold commit_ops_locked. destruct (ui_run _ _) as [ui [[]|e| |]]; [|by intros [= <- <-]..].
  destruct (prepare _ _); by intros [= <- <-].
Qed.

(** ** The window that is left *)

(** [m'] is [m] with its window from [start] on replaced by [batch]; cached items
    elsewhere may have made way. *)
Record window_filled (m m' : Model) (start : N) (batch : list ModelItem) : Prop := {
  wf_ident : same_ident m m';
  wf_cache : cache_wf m';
  wf_count : item_count m' = item_count m;
  wf_window : ∀ k it, batch !! k = Some it → items m' !! (start + N.of_nat k)%N = Some it;
  wf_elsewhere : ∀ j it, items m' !! j = Some it → (start ≤ j < start + len batch)%N ∨ items m !! j = Some it;
}.

Lemma reset_with_eviction_filled l m start batch m' : cache_wf m → (start + len batch ≤ u64_max)%N →
  reset_with_eviction l m start batch None = (m', Ok tt) → window_filled m m' start batch.
Proof.
  intros Hwf Hfit Heq. pose proof (reset_with_eviction_ident l m start batch None) as Hid. rewrite Heq in Hid.
  unfold reset_with_eviction in Heq.
  set (fin := saturating_add64 _ _) in Heq.
  set (m1 := if (_ <? _)%N then _ else m) in Heq.
  destruct (_ <? _)%N eqn:Hlt in Heq; [done|].
  assert (cache_wf m1 ∧ item_count m1 = item_count m ∧ ∀ j it, items m1 !! j = Some it → items m !! j = Some it)
    as (Hwf1 & Hc1 & Hi1).
  { subst m1. case_match; [|done]. split; [by apply evict_wf|]. split; [by rewrite evict_count|].
    intros j it. rewrite evict_lookup. by case_decide. }
  apply reset_range_effect in Heq as (_ & _ & Hwf' & Hc & Hslots); [|done..].
  split; [done|done|by rewrite Hc| |].
  - intros k it Hk. apply Hslots. left. split; [lia|]. by replace (N.to_nat (start + N.of_nat k - start)) with k by lia.
  - intros j it [Hw|[_ Hj]]%Hslots; [left; by eapply window_of_lt|right; by apply Hi1].
Qed.

Lemma model_reset_range_filled s id start batch s' : (∀ m, models s !! id = Some m → cache_wf m) →
  (start + len batch ≤ u64_max)%N → model_reset_range s id start batch None = (s', Ok tt) →
  ∃ m m', models s !! id = Some m ∧ s' = with_models s (<[id := m']> (models s)) ∧ window_filled m m' start batch ∧
    (cached_item_count m' ≤ max_cached_items_per_model (limits s))%N.
Proof.
  intros Hwf Hfit. unfold model_reset_range. destruct (_ ≫= _) as [m| | |] eqn:Hm; [|done..].
  assert (models s !! id = Some m) as Hlk by (inv_ok; done).
  unfold on_model. destruct (reset_with_eviction _ _ _ _ _) as [m' r] eqn:Hr. cbn. intros [= <- ->].
  exists m, m'. split_and!; [done..| |by eapply reset_with_eviction_bounded].
  eapply reset_with_eviction_filled; [by apply Hwf|done..].
Qed.

Lemma ui_run_one ui op : ui_run ui [op] =
  match ui_apply_op ui op with (ui', Ok _) => (ui', Ok tt) | (ui', r) => (ui', r) end.
Proof. cbn [ui_run]. by destruct (ui_apply_op ui op) as [ui' [[]|e| |]]. Qed.

Lemma ui_apply_one_Ok ui op ui' : ui_apply_op ui op = (ui', Ok tt) →
  apply (ui_staged ui) op = (ui_staged ui', Ok tt).
Proof.
  unfold ui_apply_op, record_op. destruct (err_if _ _); [|done..].
  cbn [ui_staged]. destruct (apply (ui_staged ui) op) as [st r]. by intros [= <- ->].
Qed.

Definition reset_op (q : ModelRangeQuery) (batch : list ModelItem) : Operation :=
  ModelResetRange (q_model_id q) (q_start_index q) batch None.

(** What a fulfilled query leaves behind. *)
Record window_committed (s : SessionInner) (q : ModelRangeQuery) (batch : list ModelItem) (s' : SessionInner) : Prop := {
  wc_servable : servable s q;
  wc_revision : revision (store s') = (revision (store s) + 1)%N;
  wc_nodes : nodes (store s') = nodes (store s);
  wc_roots : roots (store s') = roots (store s);
  wc_models : ∃ m m', models (store s) !! q_model_id q = Some m ∧
    models (store s') = <[q_model_id q := m']> (models (store s)) ∧ window_filled m m' (q_start_index q) batch ∧
    (cached_item_count m' ≤ max_cached_items_per_model (limits (store s)))%N;
  wc_step : ∃ tx, session_step Careful s None [tx] s' ∧ published s' = published s ++ [tx];
}.

Lemma commit_reset_Ok s q batch s' : session_wf s → servable s q → len batch = q_count q →
  (∀ m, models (store s) !! q_model_id q = Some m → cache_wf m) → Forall sized_item batch →
  (revision (store s) + 1 ≤ u64_max)%N → commit_ops_locked s [reset_op q batch] = (s', Ok tt) →
  window_committed s q batch s'.
Proof.
  intros Hs Hq Hlen Hwf Hsz Hmax Heq.
  assert (Forall op_canonical [reset_op q batch]) as Hcan by by constructor.
  destruct (commit_ops_as_closure s [reset_op q batch] s' Hmax Hs eq_refl Heq) as (tx & Hcl).
  assert (session_step Careful s None [tx] s') as Hstep by (eapply step_closure; [by apply ops_closure_clean|exact Hcl]).
  destruct (session_step_ok Careful _ _ _ _ ltac:(done) Hs Hstep) as [_ Hpub _ _].
  apply transaction_with_result_Ok in Hcl as (ui & Hrun & _ & _ & Hs'); [|done].
  rewrite ui_run_one in Hrun. destruct (ui_apply_op _ _) as [ui' [[]|e| |]] eqn:Ha; [|done..].
  injection Hrun as ->. apply ui_apply_one_Ok in Ha. cbn [apply reset_op ui_staged UiTransaction_new] in Ha.
  apply model_reset_range_filled in Ha as (m & m' & Hm & Hst & Hfill & Hcnt);
    [|done|rewrite Hlen; apply Hq].
  assert (store s' = commit_staging (store s) (ui_staged ui) (revision (store s) + 1)) as Hst' by by rewrite Hs'.
  rewrite Hst in Hst'. split; rewrite ?Hst'; cbn; eauto 10.
Qed.

Lemma commit_ops_returns s q batch : session_wf s → returns (commit_ops_locked s [reset_op q batch]).2.
Proof.
  intros Hs. unfold commit_ops_locked. rewrite ui_run_one. unfold ui_apply_op, record_op.
  destruct (err_if _ _) as [[]|e| |] eqn:Herr; [|done|by unfold err_if in Herr; case_match..].
  cbn [apply reset_op ui_staged].
  pose proof (model_reset_range_returns (clone_staging (store s)) (q_model_id q) (q_start_index q) batch None) as Hr.
  cbn [ui_staged UiTransaction_new].
  destruct (model_reset_range _ _ _ _ _) as [st [[]|e| |]]; try done.
  unfold AuthoritativeCommit_new. by rewrite (prepare_lockstep s (Transaction_new _ _) Hs eq_refl).
Qed.

(** Committing a window that is still wanted, on every branch. *)
Lemma commit_reset_if_current_spec s q batch s' r : session_wf s → len batch = q_count q →
  (∀ m, models (store s) !! q_model_id q = Some m → cache_wf m) → Forall sized_item batch →
  (revision (store s) + 1 ≤ u64_max)%N → commit_reset_if_current s q batch = (s', r) →
  returns r ∧
  match r with
  | Ok (Committed rev) => rev = revision (store s') ∧ window_committed s q batch s'
  | Ok AlreadyCached => s' = s ∧ servable s q ∧ query_is_cached s q = true
  | Ok StaleWindow => s' = s ∧ ¬ servable s q
  | Ok NoProvider => False
  | _ => s' = s
  end.
Proof.
  intros Hs Hlen Hwf Hsz Hmax. unfold commit_reset_if_current.
  pose proof (validate_request_returns s (request_of q)) as Hret.
  assert (servable s q ↔ ∃ q', validate_request s (request_of q) = Ok q') as Hiff.
  { split; [intros Hq; exists q; by apply validate_request_Ok|]. intros (q' & [Heq Hq]%validate_request_Ok).
    assert (q' = q) as ->; [|done]. destruct q as [[] []], q' as [[] []]. by injection Heq as -> -> -> -> ->. }
  destruct (validate_request s (request_of q)) as [q'|e| |]; [|..|done].
  - assert (servable s q) as Hq by (apply Hiff; eauto). destruct (query_is_cached s q) eqn:Hc; [by intros [= <- <-]|].
    fold (reset_op q batch). pose proof (commit_ops_returns s q batch Hs) as Hr.
    destruct (commit_ops_locked s [reset_op q batch]) as [s1 r1] eqn:Heq. cbn [snd] in Hr.
    pose proof (commit_ops_err _ _ _ _ Heq) as Herr. destruct r1 as [[]|e| |]; [| |done..].
    + intros [= <- <-]. split; [done|]. split; [done|]. by eapply commit_reset_Ok.
    + intros [= <- <-]. split; [done|]. by apply Herr.
  - assert (¬ servable s q) as Hn by (intros (q' & ?)%Hiff; done).
    destruct e; intros [= <- <-]; done.
  - done.
Qed.

(** ** Fulfilment *)

(** A session whose models' caches agree with their indices. *)
Record ranges_wf (s : SessionInner) : Prop := {
  rw_session : session_wf s;
  rw_caches : ∀ id m, models (store s) !! id = Some m → cache_wf m;
}.

Lemma window_committed_wf s q batch s' : ranges_wf s → window_committed s q batch s' → ranges_wf s'.
Proof.
  intros [Hs Hc] Hw. destruct (wc_step _ _ _ _ Hw) as (tx & Hstep & _).
  split; [by apply (session_step_ok Careful) in Hstep as []|].
  destruct (wc_models _ _ _ _ Hw) as (m & m' & Hm & -> & Hf & _).
  intros id m0 [[_ <-]|[_ ?]]%lookup_insert_Some; [apply Hf|by eapply Hc].
Qed.

(** What a provider promises: an outcome, and items as stores hold them. *)
Definition answers (answer : ModelRangeQuery → result ModelRangeError (list ModelItem)) : Prop :=
  ∀ q, match answer q with Ok batch => Forall sized_item batch | Err _ => True | _ => False end.

Lemma begin_fulfillment_spec s providers request :
  match begin_fulfillment s providers request with
  | Ok (inl AlreadyCached) => ∃ q, request = request_of q ∧ servable s q ∧ query_is_cached s q = true
  | Ok (inl NoProvider) =>
      ∃ q, request = request_of q ∧ servable s q ∧ query_is_cached s q = false ∧ q_model_id q ∉ providers
  | Ok (inr q) => request = request_of q ∧ servable s q ∧ query_is_cached s q = false ∧ q_model_id q ∈ providers
  | Err _ => ∀ q, request = request_of q → ¬ servable s q
  | _ => False
  end.
Proof.
  unfold begin_fulfillment. pose proof (validate_request_returns s request) as Hret.
  destruct (validate_request s request) as [q|e| |] eqn:Hv; [|intros q -> Hq|done..].
  - apply validate_request_Ok in Hv as [-> Hq]. cbn [mbind result_bind].
    destruct (query_is_cached s q) eqn:Hc; [eauto|]. case_bool_decide; [done|]. eauto.
  - rewrite (proj2 (validate_request_Ok s (request_of q) q)) in Hv by done. done.
Qed.

Lemma fulfill_spec s s' providers answer request s2 r : ranges_wf s' → answers answer →
  (revision (store s') + 1 ≤ u64_max)%N →
  fulfill_model_range_request s s' providers answer request = (s2, r) →
  returns r ∧ ranges_wf s2 ∧ (revision (store s') ≤ revision (store s2) ≤ revision (store s') + 1)%N ∧
  match r with
  | Ok (Committed rev) => ∃ q batch, request = request_of q ∧ servable s q ∧ query_is_cached s q = false ∧
      q_model_id q ∈ providers ∧ answer q = Ok batch ∧ len batch = q_count q ∧ query_is_cached s' q = false ∧
      rev = revision (store s2) ∧ window_committed s' q batch s2
  | Ok AlreadyCached => s2 = s' ∧ ∃ q, request = request_of q ∧
      (servable s q ∧ query_is_cached s q = true ∨ servable s' q ∧ query_is_cached s' q = true)
  | Ok StaleWindow => s2 = s' ∧ ∃ q, request = request_of q ∧ servable s q ∧ ¬ servable s' q
  | Ok NoProvider => s2 = s' ∧ ∃ q, request = request_of q ∧ servable s q ∧ q_model_id q ∉ providers
  | _ => s2 = s'
  end.
Proof.
  intros Hs' Hans Hmax. unfold fulfill_model_range_request.
  assert (s2 = s' → ranges_wf s2 ∧
    (revision (store s') ≤ revision (store s2) ≤ revision (store s') + 1)%N) as Hsame.
  { intros ->. split_and!; [done|lia|lia]. }
  pose proof (begin_fulfillment_spec s providers request) as Hb.
  destruct (begin_fulfillment s providers request) as [[[rev| | |]|q]|e| |]; try done.
  - destruct Hb as (q & ? & ? & ?). intros [= <- <-]. split; [done|]. destruct Hsame; [done|]. eauto 10.
  - destruct Hb as (q & ? & ? & ? & ?). intros [= <- <-]. split; [done|]. destruct Hsame; [done|]. eauto 10.
  - destruct Hb as (Hreq & Hq & Hnc & Hp). specialize (Hans q).
    destruct (answer q) as [batch|e| |] eqn:Ha; [|intros [= <- <-]|done..].
    2:{ split; [done|]. by destruct Hsame. }
    destruct (N.eqb_spec (len batch) (q_count q)) as [Hlen|Hlen]; cbn [negb].
    2:{ intros [= <- <-]. split; [done|]. by destruct Hsame. }
    intros Hc. pose proof (commit_reset_if_current_spec _ _ _ _ _ (rw_session _ Hs') Hlen
      (rw_caches _ Hs' (q_model_id q)) Hans Hmax Hc) as [Hret Hout].
    assert (query_is_cached s' q = true → r ≠ Ok (Committed (revision (store s2)))) as Hcached.
    { intros Hc'. unfold commit_reset_if_current in Hc. rewrite Hc' in Hc.
      apply (f_equal snd) in Hc.
      destruct (validate_request _ _) as [|[]| |]; cbn [snd] in Hc; subst r; discriminate. }
    destruct r as [[rev| | |]|e| |]; try done.
    + destruct Hout as [-> Hw]. pose proof (wc_revision _ _ _ _ Hw). split; [exact I|].
      split; [exact (window_committed_wf _ _ _ _ Hs' Hw)|]. split; [lia|].
      exists q, batch. destruct (query_is_cached s' q); [by destruct Hcached|].
      repeat (split; [assumption || reflexivity|]). exact Hw.
    + destruct Hout as (-> & ? & ?). split; [done|]. destruct Hsame; [done|]. eauto 10.
    + destruct Hout as (-> & ?). split; [done|]. destruct Hsame; [done|]. eauto 10.
    + subst s2. split; [done|]. by destruct Hsame.
  - intros [= <- <-]. split; [done|]. by destruct Hsame.
Qed.
End ranges.
