(* ===== verification/ModelRangeInbox.v ===== *)
(** * The inbox of window requests

    The invariant of [ModelRangeRequestInbox]: bounded, one window per node and
    model, and every window covers the newest request of its node. *)

From S2P Require Import Prelude.
From S2P Require Import Values.
From S2P Require Import Limits.
From S2P Require Import Models.
From S2P Require Import Store.
From S2P Require Import Transaction.
From S2P Require Import Wire.
From S2P Require Import Journal.
From S2P Require Import Event.
From S2P Require Import Resources.
From S2P Require Import Session.
From S2P Require Import SessionFacts.
From S2P Require Import Replication.
From S2P Require Import ModelRange.
From S2P Require Import ModelRangeFacts.

Implicit Types (r w : ClientModelRangeRequest) (l : list ClientModelRangeRequest) (m : ModelId) (st : CoalescingState).

(** ** Windows *)

(** [w] asks for everything [r] asks for. *)
Record covers w r : Prop := {
  cv_node : rq_node_id w = rq_node_id r;
  cv_model : rq_model_id w = rq_model_id r;
  cv_start : (rq_start_index w ≤ rq_start_index r)%N;
  cv_end : (rq_start_index r + rq_count r ≤ rq_start_index w + rq_count w)%N;
  cv_observed : (rq_observed_revision r ≤ rq_observed_revision w)%N;
  cv_size : (rq_count w ≤ N.max COALESCE_SPAN (rq_count r))%N;
}.

Lemma covers_refl r : covers r r.
Proof. split; lia || done. Qed.

(** Close windows merge into one that covers both. *)
Lemma close_windows_merge w r : ranges_are_close w r = true → rq_count r ≠ 0%N →
  ∃ b, bounding_range w r = Some b ∧ covers b r ∧ rq_count b ≠ 0%N ∧
    (rq_start_index b ≤ rq_start_index w)%N ∧ (rq_start_index w + rq_count w ≤ rq_start_index b + rq_count b)%N.
Proof.
  unfold ranges_are_close, bounding_range, request_end.
  destruct (checked_add64 (rq_start_index w) _) as [we|] eqn:Hw; [|done].
  destruct (checked_add64 (rq_start_index r) _) as [re|] eqn:Hr; [|done].
  apply checked_add64_Some in Hw as [-> _]. apply checked_add64_Some in Hr as [-> _].
  cbn [mbind option_bind]. intros Hclose%N.leb_le Hc.
  set (start := N.min _ _) in *. set (fin := N.max _ _) in *.
  assert (fin <? start = false)%N as -> by (apply N.ltb_ge; lia). cbn [mbind option_bind].
  assert ((fin - start =? 0) || (MAX_MERGED_COUNT <? fin - start) = false)%N as ->.
  { apply orb_false_iff. split; [apply N.eqb_neq; lia|apply N.ltb_ge; unfold MAX_MERGED_COUNT, COALESCE_SPAN in *; lia]. }
  eexists. split; [done|]. split; [split; cbn; lia || done|]. cbn. lia.
Qed.

(** What the pending windows of a model look like. *)
Record windows_ok m l : Prop := {
  wo_some : l ≠ [];
  wo_bound : length l ≤ 8;
  wo_nodes : NoDup (rq_node_id <$> l);
  wo_each : ∀ w, w ∈ l → mkModelId (rq_model_id w) = m ∧ rq_node_id w ≠ 0%N ∧ rq_model_id w ≠ 0%N ∧ rq_count w ≠ 0%N;
}.

(** The window a request becomes: merged with the one its node has, if close. *)
Definition merged_with l r : ClientModelRangeRequest :=
  match list_find (λ w, rq_node_id w = rq_node_id r) l with
  | Some (_, w) => if ranges_are_close w r then default r (bounding_range w r) else r
  | None => r
  end.
Definition other_nodes l r : list ClientModelRangeRequest := filter (λ w, rq_node_id w ≠ rq_node_id r) l.

Lemma absorb_skip l : ∀ k w b, (∀ w', w' ∈ l → rq_node_id w' ≠ rq_node_id w) →
  foldl absorb_window (k, w, b) l = (k ++ l, w, b).
Proof.
  induction l as [|w' l IH]; intros k w b Hl; cbn [foldl]; [by rewrite app_nil_r|].
  unfold absorb_window at 2. assert (rq_node_id w' =? rq_node_id w = false)%N as ->.
  { apply N.eqb_neq, Hl. left. }
  cbn [negb orb]. rewrite IH by (intros; apply Hl; by right). by rewrite <- app_assoc.
Qed.

Lemma other_nodes_id l r : (∀ w, w ∈ l → rq_node_id w ≠ rq_node_id r) → other_nodes l r = l.
Proof.
  induction l as [|w l IH]; intros Hl; [done|]. unfold other_nodes. rewrite filter_cons_True by (apply Hl; left).
  f_equal. apply IH. intros; apply Hl; by right.
Qed.

(** Both loops of [integrate_pending], on the windows of one model. *)
Lemma absorb_loop m l r : (∀ w, w ∈ l → mkModelId (rq_model_id w) = m) → mkModelId (rq_model_id r) = m →
  NoDup (rq_node_id <$> l) → rq_count r ≠ 0%N →
  let '(kept, merged, absorbed) := foldl absorb_window ([], r, false) l in
  merged = merged_with l r ∧ rq_node_id merged = rq_node_id r ∧
  (if absorbed then kept else filter (λ existing, rq_node_id existing ≠ rq_node_id merged) kept) = other_nodes l r.
Proof.
  intros Hm Hr Hnd Hc. destruct (list_find (λ w, rq_node_id w = rq_node_id r) l) as [[i w]|] eqn:Hf.
  - apply list_find_Some in Hf as Hfi. destruct Hfi as (Hi & Hw & Hbefore).
    apply list_elem_of_split_length in Hi as Hsplit. destruct Hsplit as (l1 & l2 & -> & Hlen).
    assert (∀ w', w' ∈ l1 → rq_node_id w' ≠ rq_node_id r) as H1.
    { intros w' [j Hj]%list_elem_of_lookup. eapply Hbefore; [by apply lookup_app_l_Some|].
      apply lookup_lt_Some in Hj. lia. }
    rewrite fmap_app, fmap_cons in Hnd. apply NoDup_app in Hnd as (_ & _ & Hnd).
    apply NoDup_cons in Hnd as [Hnw _].
    assert (∀ w', w' ∈ l2 → rq_node_id w' ≠ rq_node_id r) as H2.
    { intros w' Hw' Heq. apply Hnw. rewrite Hw, <- Heq. by apply list_elem_of_fmap_2. }
    assert (other_nodes (l1 ++ w :: l2) r = l1 ++ l2) as Hoth.
    { unfold other_nodes. rewrite filter_app, filter_cons_False by tauto. fold (other_nodes l1 r) (other_nodes l2 r).
      by rewrite (other_nodes_id l1 r H1), (other_nodes_id l2 r H2). }
    assert (merged_with (l1 ++ w :: l2) r = if ranges_are_close w r then default r (bounding_range w r) else r)
      as Hmw by (unfold merged_with; by rewrite Hf).
    rewrite foldl_app, absorb_skip by done. cbn [foldl app].
    assert (rq_model_id w = rq_model_id r) as Hmodel.
    { assert (mkModelId (rq_model_id w) = m) as Hx by (apply Hm, elem_of_app; right; left). congruence. }
    assert (absorb_window (l1, r, false) w = if ranges_are_close w r then
      match bounding_range w r with Some b => (l1, b, true) | None => (l1 ++ [w], r, false) end
      else (l1 ++ [w], r, false)) as ->.
    { unfold absorb_window. by rewrite Hw, Hmodel, !N.eqb_refl. }
    destruct (ranges_are_close w r) eqn:Hclose.
    + destruct (close_windows_merge w r Hclose Hc) as (b & Hb & Hcov & _). rewrite Hb in *. cbn in Hmw.
      rewrite absorb_skip by (intros; rewrite (cv_node _ _ Hcov); by apply H2).
      rewrite Hmw, Hoth. split; [done|]. split; [apply Hcov|done].
    + rewrite absorb_skip by done. rewrite Hmw, <- app_assoc. done.
  - apply list_find_None in Hf as Hn. rewrite Forall_forall in Hn. rewrite absorb_skip by done.
    unfold merged_with. rewrite Hf. done.
Qed.

Lemma merged_covers l r : rq_count r ≠ 0%N → covers (merged_with l r) r ∧ rq_count (merged_with l r) ≠ 0%N.
Proof.
  intros Hc. unfold merged_with. destruct (list_find _ l) as [[i w]|]; [|split; [apply covers_refl|done]].
  destruct (ranges_are_close w r) eqn:Hclose; [|split; [apply covers_refl|done]].
  destruct (close_windows_merge w r Hclose Hc) as (b & -> & Hcov & Hnz & _). by split.
Qed.

(** [trim_pending_to_cap] on at most one window too many, the last of its node. *)
Lemma trim_pending_spec l r : length l ≤ 8 → (∀ w, w ∈ l → rq_node_id w ≠ rq_node_id r) →
  ∀ w, rq_node_id w = rq_node_id r →
  trim_pending_to_cap (rq_node_id w) (l ++ [w]) = Ok (drop (length l - 7) (l ++ [w])).
Proof.
  intros Hlen Hl w Hw. unfold trim_pending_to_cap. cbn [trim_pending].
  assert (len (l ++ [w]) = N.of_nat (length l) + 1)%N as Hn by (unfold len; rewrite length_app; cbn; lia).
  rewrite Hn. unfold MAX_PENDING_RANGES_PER_MODEL.
  destruct (N.ltb_spec 8 (N.of_nat (length l) + 1)) as [Hlt|Hge].
  - assert (length l = 8) as H8 by lia. rewrite length_app. cbn [length]. rewrite Nat.add_1_r. cbn [Nat.pred].
    rewrite take_app_length.
    destruct (list_find _ l) as [[i w']|] eqn:Hf.
    { apply list_find_Some in Hf as (Hi%list_elem_of_lookup_2 & Heq & _). exfalso. apply (Hl _ Hi). congruence. }
    rewrite H8. destruct l as [|w0 l]; [done|]. injection H8 as H8.
    change (delete 0 ((w0 :: l) ++ [w])) with (l ++ [w]). change (drop (8 - 7) ((w0 :: l) ++ [w])) with (l ++ [w]).
    cbn [trim_pending]. rewrite (proj2 (N.ltb_ge _ _)); [done|].
    unfold MAX_PENDING_RANGES_PER_MODEL, len. rewrite length_app. cbn. lia.
  - replace (length l - 7) with 0 by lia. done.
Qed.

(** What [integrate_pending] does to the windows of a model. *)
Lemma integrate_pending_spec m l r : (l = [] ∨ windows_ok m l) →
  mkModelId (rq_model_id r) = m → rq_node_id r ≠ 0%N → rq_model_id r ≠ 0%N → rq_count r ≠ 0%N →
  ∃ l', integrate_pending l r = Ok (l' ++ [merged_with l r]) ∧ windows_ok m (l' ++ [merged_with l r]) ∧
    (∃ dropped, dropped ++ l' = other_nodes l r ∧ (dropped ≠ [] → length (other_nodes l r) = 8)).
Proof.
  intros Hl Hm Hn0 Hm0 Hc0.
  assert (length l ≤ 8 ∧ NoDup (rq_node_id <$> l) ∧ ∀ w, w ∈ l →
    mkModelId (rq_model_id w) = m ∧ rq_node_id w ≠ 0%N ∧ rq_model_id w ≠ 0%N ∧ rq_count w ≠ 0%N) as (Hlen & Hnd & Heach).
  { destruct Hl as [->|[? ? ? ?]]; [|done]. split; [cbn; lia|]. split; [constructor|]. by intros w ?%elem_of_nil. }
  pose proof (absorb_loop m l r (λ w Hw, proj1 (Heach w Hw)) Hm Hnd Hc0) as Hloop.
  unfold integrate_pending. destruct (foldl absorb_window ([], r, false) l) as [[kept merged] absorbed].
  destruct Hloop as (-> & Hnode & ->). set (others := other_nodes l r).
  destruct (merged_covers l r Hc0) as [Hcov Hnz]. set (w := merged_with l r) in *.
  assert (sublist others l) as Hsub by apply sublist_filter.
  assert (length others ≤ 8) as Hlo by (apply sublist_length in Hsub; lia).
  assert (∀ w', w' ∈ others → rq_node_id w' ≠ rq_node_id r) as Hothers.
  { intros w' Hw'. by apply list_elem_of_filter in Hw' as [? _]. }
  rewrite (trim_pending_spec others r Hlo Hothers w Hnode).
  exists (drop (length others - 7) others). rewrite drop_app_le by lia.
  split; [done|]. split; [|exists (take (length others - 7) others); rewrite take_drop; split; [done|]; intros Hne;
    destruct (decide (length others = 8)) as [|Hn8]; [done|]; by replace (length others - 7) with 0 in Hne by lia].
  assert (∀ w', w' ∈ drop (length others - 7) others → w' ∈ others) as Hdrop.
  { intros w' Hw'. rewrite <- (take_drop (length others - 7) others). apply elem_of_app. by right. }
  split.
  - intros Hnil. by apply app_nil in Hnil as [_ ?].
  - rewrite length_app, length_drop. cbn. lia.
  - rewrite fmap_app. apply NoDup_app. split_and!; [|intros n Hn Hw|apply NoDup_singleton].
    + rewrite fmap_drop. assert (NoDup (rq_node_id <$> others)) as Ho.
      { eapply sublist_NoDup; [exact Hnd|]. by apply fmap_sublist. }
      rewrite <- (take_drop (length others - 7) (rq_node_id <$> others)) in Ho. by apply NoDup_app in Ho as (_ & _ & ?).
    + apply list_elem_of_singleton in Hw as ->. apply list_elem_of_fmap in Hn as (w' & Heq & Hw').
      apply (Hothers w'); [by apply Hdrop|congruence].
  - intros w' [Hw'|Hw'%list_elem_of_singleton]%elem_of_app.
    + apply Hdrop, list_elem_of_filter in Hw' as [_ Hw']. by apply Heach.
    + subst w'. rewrite (cv_model _ _ Hcov), Hnode. done.
Qed.

(** ** The inbox *)

Record inbox_wf st : Prop := {
  iw_order : NoDup (in_order st);
  iw_dom : ∀ m, m ∈ in_order st ↔ is_Some (in_pending st !! m);
  iw_windows : ∀ m l, in_pending st !! m = Some l → windows_ok m l;
  iw_models : length (in_order st) ≤ 32;
}.

Lemma inbox_wf_new : inbox_wf Inbox_new.
Proof.
  split; cbn; [constructor| |by intros m l; rewrite lookup_empty|lia].
  intros m. rewrite lookup_empty, elem_of_nil. by split; [|intros []].
Qed.

(** The order lists the models of the map, each once. *)
Lemma order_size (order : list ModelId) (pending : gmap ModelId (list ClientModelRangeRequest)) : NoDup order →
  (∀ m, m ∈ order ↔ is_Some (pending !! m)) → size pending = length order.
Proof.
  intros Hnd Hdom. rewrite <- size_dom. assert (dom pending = list_to_set order) as ->.
  { apply set_eq. intros m. by rewrite elem_of_dom, elem_of_list_to_set, Hdom. }
  by rewrite size_list_to_set.
Qed.

(** The bound on models: nothing happens within it, and one model too many costs
    the oldest its windows. *)
Definition listed (order : list ModelId) (pending : gmap ModelId (list ClientModelRangeRequest)) : Prop :=
  NoDup order ∧ ∀ m, m ∈ order ↔ is_Some (pending !! m).

Lemma evict_within order pending closed n : listed order pending → length order ≤ 32 →
  evict_oldest_models (S n) (mkInbox order pending closed) = Ok (mkInbox order pending closed).
Proof.
  intros [Hnd Hdom] Hlen. cbn [evict_oldest_models in_pending]. unfold map_len, MAX_INFLIGHT_MODELS.
  rewrite (order_size _ _ Hnd Hdom). by rewrite (proj2 (N.ltb_ge _ _)) by lia.
Qed.

Lemma evict_oldest oldest order pending closed : listed (oldest :: order) pending → length order = 32 →
  evict_oldest_models_over_cap (mkInbox (oldest :: order) pending closed) =
    Ok (mkInbox order (delete oldest pending) closed) ∧ listed order (delete oldest pending).
Proof.
  intros [Hnd Hdom] Hlen. apply NoDup_cons in Hnd as Hnd'. destruct Hnd' as [Hno Hnd'].
  assert (listed order (delete oldest pending)) as Hl.
  { split; [done|]. intros m. destruct (decide (m = oldest)) as [->|Hne].
    - rewrite lookup_delete_eq. split; [done|by intros []].
    - rewrite lookup_delete_ne by done. rewrite <- Hdom, elem_of_cons. naive_solver. }
  split; [|done]. unfold evict_oldest_models_over_cap. cbn [in_order length].
  assert (is_Some (pending !! oldest)) as [lo Hlo] by (apply Hdom; left).
  cbn [evict_oldest_models in_pending in_order]. unfold map_len, MAX_INFLIGHT_MODELS.
  rewrite (order_size _ _ Hnd Hdom). cbn [length]. rewrite (proj2 (N.ltb_lt _ _)) by lia. rewrite Hlo.
  rewrite retain_ne_id by done. by apply evict_within; [|lia].
Qed.

Lemma listed_wf order pending closed : listed order pending → length order ≤ 32 →
  (∀ m l, pending !! m = Some l → windows_ok m l) → inbox_wf (mkInbox order pending closed).
Proof. intros [Hnd Hdom] Hlen Hwin. by split. Qed.

Lemma listed_insert_old order pending m x : listed order pending → is_Some (pending !! m) →
  listed order (<[m := x]> pending).
Proof.
  intros [Hnd Hdom] Hm. split; [done|]. intros m'. rewrite Hdom.
  destruct (decide (m' = m)) as [->|Hne]; [rewrite lookup_insert_eq; by split|]. by rewrite lookup_insert_ne.
Qed.
Lemma listed_insert_new order pending m x : listed order pending → pending !! m = None →
  listed (order ++ [m]) (<[m := x]> pending).
Proof.
  intros [Hnd Hdom] Hm. split.
  - apply NoDup_app. split_and!; [done| |apply NoDup_singleton]. intros k Hk ->%list_elem_of_singleton.
    apply Hdom in Hk as [? Hk]. congruence.
  - intros m'. rewrite elem_of_app, list_elem_of_singleton, Hdom.
    destruct (decide (m' = m)) as [->|Hne]; [rewrite lookup_insert_eq; naive_solver|].
    rewrite lookup_insert_ne by done. naive_solver.
Qed.

(** The last step of [submit], once the windows of [m] are [x]. *)
Lemma place_windows st m x : inbox_wf st → windows_ok m x →
  let order := if bool_decide (default [] (in_pending st !! m) = []) then in_order st ++ [m] else in_order st in
  ∃ st', evict_oldest_models_over_cap (mkInbox order (<[m := x]> (in_pending st)) (in_closed st)) = Ok st' ∧
    inbox_wf st' ∧ in_closed st' = in_closed st ∧ in_pending st' !! m = Some x ∧
    (∀ m', m' ≠ m → in_pending st' !! m' = in_pending st !! m' ∨
       in_pending st' !! m' = None ∧ head (in_order st) = Some m' ∧ length (in_order st) = 32 ∧
         in_pending st !! m = None).
Proof.
  intros [Hnd Hdom Hwin Hlen] Hok. assert (listed (in_order st) (in_pending st)) as Hl by done.
  assert (∀ m' k, <[m := x]> (in_pending st) !! m' = Some k → windows_ok m' k) as Hwin'.
  { intros m' k [[<- <-]|[_ Hk]]%lookup_insert_Some; [done|by apply Hwin]. }
  destruct (in_pending st !! m) as [old|] eqn:Hold; cbn [default].
  - rewrite bool_decide_eq_false_2 by apply (Hwin m _ Hold).
    apply (listed_insert_old _ _ m x) in Hl; [|by rewrite Hold].
    eexists. split; [by apply evict_within|]. split; [by apply listed_wf|]. split; [done|].
    split; [apply lookup_insert_eq|]. intros m' Hne. left. cbn. by rewrite lookup_insert_ne.
  - rewrite bool_decide_eq_true_2 by done. apply (listed_insert_new _ _ m x) in Hl as Hl'; [|done].
    destruct (decide (length (in_order st) = 32)) as [H32|Hlt].
    + destruct (in_order st) as [|oldest order] eqn:Ho; [done|]. cbn [app] in *.
      assert (oldest ≠ m) as Hne by (intros <-; assert (is_Some (in_pending st !! oldest)) as [? ?] by (apply Hdom; left); congruence).
      apply (evict_oldest _ _ _ (in_closed st)) in Hl' as [Heq Hl2]; [|rewrite length_app; cbn in *; lia].
      eexists. split; [exact Heq|]. split; [|split; [done|split]].
      * apply listed_wf; [done|rewrite length_app; cbn in *; lia|].
        by intros m' k [_ ?%Hwin']%lookup_delete_Some.
      * cbn. by rewrite lookup_delete_ne, lookup_insert_eq.
      * intros m' Hne'. cbn [in_pending]. destruct (decide (m' = oldest)) as [->|Hno'].
        -- right. by rewrite lookup_delete_eq.
        -- left. by rewrite lookup_delete_ne, lookup_insert_ne.
    + assert (length (in_order st ++ [m]) ≤ 32) as Hlen' by (rewrite length_app; cbn; lia).
      eexists. split; [by apply evict_within|]. split; [by apply listed_wf|]. split; [done|].
      split; [apply lookup_insert_eq|]. intros m' Hne. left. cbn. by rewrite lookup_insert_ne.
Qed.

(** Submitting a request: its model's windows become those of
    [integrate_pending]; one model at most makes way, and it is the oldest. *)
Lemma submit_spec st r : inbox_wf st → rq_node_id r ≠ 0%N → rq_model_id r ≠ 0%N → rq_count r ≠ 0%N →
  in_closed st = false →
  let m := mkModelId (rq_model_id r) in
  let l := default [] (in_pending st !! m) in
  ∃ l' st', submit st r = Ok st' ∧ inbox_wf st' ∧ in_closed st' = false ∧
    in_pending st' !! m = Some (l' ++ [merged_with l r]) ∧
    (∃ dropped, dropped ++ l' = other_nodes l r ∧ (dropped ≠ [] → length (other_nodes l r) = 8)) ∧
    (∀ m', m' ≠ m → in_pending st' !! m' = in_pending st !! m' ∨
       in_pending st' !! m' = None ∧ head (in_order st) = Some m' ∧ length (in_order st) = 32 ∧
         in_pending st !! m = None).
Proof.
  intros Hwf Hn Hm Hc Hopen m l.
  destruct (integrate_pending_spec m l r) as (l' & Hint & Hok & Hdrop); [|done..|].
  { subst l. destruct (in_pending st !! m) as [l|] eqn:Hl; [right; by apply (iw_windows _ Hwf)|by left]. }
  destruct (place_windows st m _ Hwf Hok) as (st' & Heq & Hwf' & Hcl & Hlk & Hother).
  exists l', st'. split; [|rewrite Hopen in Hcl; by split_and!].
  unfold submit. rewrite !(proj2 (N.eqb_neq _ _)), Hopen by done. cbn [orb]. fold m l. rewrite Hint.
  cbn [mbind result_bind]. rewrite (bool_decide_eq_false_2 (l' ++ _ = [])) by apply Hok.
  rewrite andb_true_r, <- Hopen. exact Heq.
Qed.

(** ** Serving *)

(** Every pending window, in the order of their models. *)
Definition windows st : list ClientModelRangeRequest :=
  concat ((λ m, default [] (in_pending st !! m)) <$> in_order st).

Lemma elem_of_windows st w : inbox_wf st →
  w ∈ windows st ↔ ∃ l, in_pending st !! mkModelId (rq_model_id w) = Some l ∧ w ∈ l.
Proof.
  intros Hwf. unfold windows. rewrite list_elem_of_In, in_concat. setoid_rewrite <- list_elem_of_In. split.
  - intros (l & (m & -> & Hm)%list_elem_of_fmap & Hw). apply (iw_dom _ Hwf) in Hm as [l Hl]. rewrite Hl in Hw.
    cbn in Hw. destruct (wo_each _ _ (iw_windows _ Hwf _ _ Hl) w Hw) as [-> _]. eauto.
  - intros (l & Hl & Hw). exists l. split; [|done]. apply list_elem_of_fmap.
    eexists. rewrite Hl. split; [done|]. apply (iw_dom _ Hwf). eauto.
Qed.

(** A pop takes one window, if there is any. *)
Lemma try_pop_spec st : inbox_wf st →
  match try_pop st with
  | (st', Ok (Some w)) => inbox_wf st' ∧ windows st ≡ₚ w :: windows st' ∧ in_closed st' = in_closed st
  | (st', Ok None) => st' = st ∧ windows st = []
  | _ => False
  end.
Proof.
  intros Hwf. unfold try_pop. cbn [try_pop_loop].
  destruct (in_order st) as [|m order] eqn:Ho; [unfold windows; by rewrite Ho|].
  destruct Hwf as [Hnd Hdom Hwin Hlen]. rewrite Ho in Hnd, Hdom, Hlen.
  assert (is_Some (in_pending st !! m)) as [l Hl] by (apply Hdom; left). rewrite Hl.
  pose proof (Hwin _ _ Hl) as [Hne Hb Hnn Heach]. destruct l as [|w rest]; [done|].
  assert (windows st = (w :: rest) ++ concat ((λ m, default [] (in_pending st !! m)) <$> order)) as Hws.
  { unfold windows. rewrite Ho. cbn. by rewrite Hl. }
  apply NoDup_cons in Hnd as [Hno Hnd].
  assert (∀ (p : gmap ModelId (list ClientModelRangeRequest)), (∀ m', m' ≠ m → p !! m' = in_pending st !! m') →
    (λ m, default [] (p !! m)) <$> order = (λ m, default [] (in_pending st !! m)) <$> order) as Hext.
  { intros p Hp. apply list_fmap_ext. intros i m' Hi. rewrite (Hp m'); [done|].
    intros ->. apply Hno. by eapply list_elem_of_lookup_2. }
  cbn [length] in Hlen. destruct rest as [|w2 rest].
  - split; [|split; [|done]].
    + split; cbn; [done| | |lia].
      * intros m'. destruct (decide (m' = m)) as [->|Hne']; [rewrite lookup_delete_eq; split; [done|by intros []]|].
        rewrite lookup_delete_ne by done. rewrite <- Hdom, elem_of_cons. naive_solver.
      * intros m' k [_ Hk]%lookup_delete_Some. by apply Hwin.
    + rewrite Hws. unfold windows. cbn [in_order in_pending]. rewrite (Hext (delete m (in_pending st))); [done|]. intros. by rewrite lookup_delete_ne.
  - split; [|split; [|done]].
    + split; cbn.
      * apply NoDup_app. split_and!; [done| |apply NoDup_singleton]. by intros k Hk ->%list_elem_of_singleton.
      * intros m'. rewrite elem_of_app, list_elem_of_singleton.
        destruct (decide (m' = m)) as [->|Hne']; [rewrite lookup_insert_eq; naive_solver|].
        rewrite lookup_insert_ne, <- Hdom, elem_of_cons by done. naive_solver.
      * intros m' k [[<- <-]|[_ Hk]]%lookup_insert_Some; [|by apply Hwin].
        split; [done|cbn in *; lia|by apply NoDup_cons in Hnn as [_ ?]|]. intros w' Hw'. apply Heach. by right.
      * rewrite length_app. cbn. lia.
    + rewrite Hws. unfold windows. cbn [in_order in_pending]. rewrite fmap_app, concat_app. cbn.
      rewrite lookup_insert_eq. cbn. rewrite app_nil_r, (Hext (<[m := w2 :: rest]> (in_pending st))) by (intros; by rewrite lookup_insert_ne).
      constructor. by rewrite (Permutation_app_comm (concat _)).
Qed.

(** A pop always comes back, and says whether a window was pending. *)
Lemma try_pop_some st : inbox_wf st → windows st ≠ [] →
  ∃ w st', try_pop st = (st', Ok (Some w)) ∧ inbox_wf st' ∧ windows st ≡ₚ w :: windows st'.
Proof.
  intros Hwf Hne. pose proof (try_pop_spec st Hwf) as Hpop.
  destruct (try_pop st) as [st' [[w|]|[]| |]]; [|by destruct Hpop|done..].
  destruct Hpop as (? & ? & ?). eauto.
Qed.

(** ** Histories *)

(** A request that [submit] does not ignore. *)
Definition accepts st r : bool :=
  negb ((rq_node_id r =? 0)%N || (rq_model_id r =? 0)%N || (rq_count r =? 0)%N) && negb (in_closed st).

Lemma accepts_true st r : accepts st r = true ↔
  rq_node_id r ≠ 0%N ∧ rq_model_id r ≠ 0%N ∧ rq_count r ≠ 0%N ∧ in_closed st = false.
Proof.
  unfold accepts. rewrite andb_true_iff, !negb_true_iff, !orb_false_iff, !N.eqb_neq. tauto.
Qed.

Lemma submit_ignored st r : accepts st r = false → submit st r = Ok st.
Proof.
  unfold accepts, submit. destruct (_ || _ || _); [done|]. by destruct (in_closed st).
Qed.

(** The requests the connection accepted and the windows its worker took, from
    the opening of the connection on. *)
Inductive inbox_run : list ClientModelRangeRequest → list ClientModelRangeRequest → CoalescingState → Prop :=
| inbox_opened : inbox_run [] [] Inbox_new
| inbox_submitted sub srv st r st' : inbox_run sub srv st → submit st r = Ok st' →
    inbox_run (sub ++ if accepts st r then [r] else []) srv st'
| inbox_popped sub srv st w st' : inbox_run sub srv st → try_pop st = (st', Ok (Some w)) →
    inbox_run sub (srv ++ [w]) st'
| inbox_shut sub srv st : inbox_run sub srv st → inbox_run sub srv (close_inbox st).

Definition window_key r : N * N := (rq_node_id r, rq_model_id r).

(** [r] is the newest request of its node and model. *)
Definition newest (sub : list ClientModelRangeRequest) r : Prop :=
  ∃ before after, sub = before ++ r :: after ∧ ∀ r', r' ∈ after → window_key r' ≠ window_key r.

Lemma newest_last sub r : newest (sub ++ [r]) r.
Proof. exists sub, []. split; [done|]. by intros r' ?%elem_of_nil. Qed.

Lemma newest_app sub r r0 : newest sub r → window_key r0 ≠ window_key r → newest (sub ++ [r0]) r.
Proof.
  intros (b & a & -> & Ha) Hne. exists b, (a ++ [r0]). split; [by rewrite <- app_assoc|].
  intros r' [?|Heq%list_elem_of_singleton]%elem_of_app; [by apply Ha|by rewrite Heq].
Qed.

Lemma newest_sent sub r r0 : newest (sub ++ [r0]) r → r = r0 ∨ newest sub r ∧ window_key r0 ≠ window_key r.
Proof.
  intros (b & a & Heq & Ha). induction a as [|x a _] using rev_ind.
  - apply app_inj_tail in Heq as [_ ->]. by left.
  - right. rewrite app_comm_cons, app_assoc in Heq. apply app_inj_tail in Heq as [-> ->]. split.
    + exists b, a. split; [done|]. intros r' ?. apply Ha, elem_of_app. by left.
    + apply Ha, elem_of_app. right. by apply list_elem_of_singleton.
Qed.

Lemma newest_elem sub r : newest sub r → r ∈ sub.
Proof. intros (b & a & -> & _). apply elem_of_app. right. left. Qed.

Lemma covers_key w r : covers w r → window_key w = window_key r.
Proof. intros [Hn Hm _ _ _ _]. unfold window_key. by rewrite Hn, Hm. Qed.

(** The windows after a request that is accepted. *)
Lemma submit_windows st r st' : inbox_wf st → accepts st r = true → submit st r = Ok st' →
  inbox_wf st' ∧ (∃ w, w ∈ windows st' ∧ covers w r) ∧
  (∀ w, w ∈ windows st' → covers w r ∨ w ∈ windows st ∧ window_key w ≠ window_key r).
Proof.
  intros Hwf (Hn & Hm & Hc & Hopen)%accepts_true Heq.
  destruct (submit_spec st r Hwf Hn Hm Hc Hopen) as (l' & st2 & Heq2 & Hwf' & _ & Hlk & (dr & Hdr & _) & Hother).
  rewrite Heq in Heq2. injection Heq2 as <-. set (m := mkModelId (rq_model_id r)) in *.
  set (l := default [] (in_pending st !! m)) in *.
  destruct (merged_covers l r Hc) as [Hcov _]. split; [done|]. split.
  - exists (merged_with l r). split; [|done]. apply elem_of_windows; [done|]. rewrite (cv_model _ _ Hcov).
    eexists. split; [exact Hlk|]. apply elem_of_app. right. by apply list_elem_of_singleton.
  - intros w (k & Hk & Hw)%elem_of_windows; [|done]. destruct (decide (mkModelId (rq_model_id w) = m)) as [Hwm|Hne].
    + rewrite Hwm, Hlk in Hk. injection Hk as <-. apply elem_of_app in Hw as [Hw|Hw%list_elem_of_singleton].
      * right. assert (w ∈ other_nodes l r) as [Hwn Hwl]%list_elem_of_filter
          by (rewrite <- Hdr; apply elem_of_app; by right).
        split; [|unfold window_key; congruence]. apply elem_of_windows; [done|]. rewrite Hwm.
        unfold l in Hwl. destruct (in_pending st !! m); [eauto|by apply elem_of_nil in Hwl].
      * left. by subst w.
    + right. split; [|unfold window_key; intros [= _ Hx]; apply Hne; unfold m; congruence].
      destruct (Hother _ Hne) as [Hsame|(Hnone & _)]; [|congruence].
      apply elem_of_windows; [done|]. exists k. by rewrite <- Hsame.
Qed.

(** The invariant of every history. *)
Lemma inbox_run_inv sub srv st : inbox_run sub srv st →
  inbox_wf st ∧ ∀ w, w ∈ windows st → ∃ r, newest sub r ∧ covers w r.
Proof.
  induction 1 as [|sub srv st r st' _ [Hwf IH] Heq|sub srv st w st' _ [Hwf IH] Heq|sub srv st _ [Hwf IH]].
  - split; [apply inbox_wf_new|]. by intros w ?%elem_of_nil.
  - destruct (accepts st r) eqn:Hacc.
    + destruct (submit_windows _ _ _ Hwf Hacc Heq) as (Hwf' & _ & Hwin). split; [done|].
      intros w [Hcov|[Hw Hne]]%Hwin; [exists r; split; [apply newest_last|done]|].
      destruct (IH _ Hw) as (r' & Hr' & Hcov). exists r'. split; [|done].
      apply newest_app; [done|]. rewrite <- (covers_key _ _ Hcov). done.
    + rewrite (submit_ignored _ _ Hacc) in Heq. injection Heq as <-. by rewrite app_nil_r.
  - pose proof (try_pop_spec st Hwf) as Hpop. rewrite Heq in Hpop. destruct Hpop as (Hwf' & Hperm & _).
    split; [done|]. intros w' Hw'. apply IH. rewrite Hperm. by right.
  - split; [|exact IH]. by destruct Hwf.
Qed.

(** ** Nothing is lost within the bounds *)

(** At most 32 models are asked for, each for at most 8 nodes. *)
Definition asked_models (sub : list ClientModelRangeRequest) : gset N := list_to_set (rq_model_id <$> sub).
Definition asked_nodes (sub : list ClientModelRangeRequest) (model : N) : gset N :=
  list_to_set (rq_node_id <$> filter (λ r, rq_model_id r = model) sub).
Definition within_bounds (sub : list ClientModelRangeRequest) : Prop :=
  size (asked_models sub) ≤ 32 ∧ ∀ model, size (asked_nodes sub model) ≤ 8.

Lemma elem_of_asked_models sub n : n ∈ asked_models sub ↔ ∃ r, r ∈ sub ∧ rq_model_id r = n.
Proof. unfold asked_models. rewrite elem_of_list_to_set, list_elem_of_fmap. naive_solver. Qed.
Lemma elem_of_asked_nodes sub model n : n ∈ asked_nodes sub model ↔
  ∃ r, r ∈ sub ∧ rq_model_id r = model ∧ rq_node_id r = n.
Proof.
  unfold asked_nodes. rewrite elem_of_list_to_set, list_elem_of_fmap. setoid_rewrite list_elem_of_filter. naive_solver.
Qed.

Lemma within_bounds_app sub sub' : within_bounds (sub ++ sub') → within_bounds sub.
Proof.
  intros [Hm Hn]. split; [|intros model; specialize (Hn model)]; (etrans; [|done]); apply subseteq_size; intros n.
  - rewrite !elem_of_asked_models. setoid_rewrite elem_of_app. naive_solver.
  - rewrite !elem_of_asked_nodes. setoid_rewrite elem_of_app. naive_solver.
Qed.

(** Distinct things that were all asked for, and one more. *)
Lemma asked_too_many (asked : gset N) (l : list N) n k : NoDup l → (∀ x, x ∈ l → x ∈ asked) → n ∈ asked → n ∉ l →
  length l = k → size asked ≤ k → False.
Proof.
  intros Hnd Hl Hn Hno Hlen Hsize.
  assert (size (list_to_set (n :: l) : gset N) ≤ size asked) as Hle.
  { apply subseteq_size. intros x [->|Hx]%elem_of_list_to_set%elem_of_cons; auto. }
  rewrite size_list_to_set in Hle by by constructor. cbn in Hle. lia.
Qed.

(** A pending window stays when another node or model is asked for. *)
Lemma submit_keeps sub srv st r st' w : inbox_run sub srv st → accepts st r = true → submit st r = Ok st' →
  within_bounds (sub ++ [r]) → w ∈ windows st → window_key w ≠ window_key r → w ∈ windows st'.
Proof.
  intros [Hwf Hcov]%inbox_run_inv Hacc Heq [Hbm Hbn] Hw Hne. apply accepts_true in Hacc as (Hn & Hm & Hc & Hopen).
  destruct (submit_spec st r Hwf Hn Hm Hc Hopen) as (l' & st2 & Heq2 & Hwf' & _ & Hlk & (dr & Hdr & Hdrop) & Hother).
  rewrite Heq in Heq2. injection Heq2 as <-.
  assert (∀ w', w' ∈ windows st → ∃ q, q ∈ sub ∧ rq_model_id q = rq_model_id w' ∧ rq_node_id q = rq_node_id w') as Hasked.
  { intros w' (q & Hq%newest_elem & Hwq)%Hcov. exists q. by rewrite (cv_model _ _ Hwq), (cv_node _ _ Hwq). }
  apply (elem_of_windows _ _ Hwf) in Hw as Hw'. destruct Hw' as (l & Hl & Hwl).
  destruct (decide (rq_model_id w = rq_model_id r)) as [Heqm|Hnem].
  - rewrite <- Heqm in Hlk, Hdr, Hdrop. rewrite Hl in *. cbn [default from_option id] in *.
    apply (elem_of_windows _ _ Hwf'). eexists. split; [exact Hlk|]. apply elem_of_app. left.
    assert (w ∈ other_nodes l r) as Hwo.
    { apply list_elem_of_filter. split; [|done]. intros ?. apply Hne. unfold window_key. congruence. }
    destruct dr as [|w0 dr]; [by rewrite <- Hdr in Hwo|]. exfalso. specialize (Hdrop ltac:(done)).
    destruct (iw_windows _ Hwf _ _ Hl) as [_ _ Hnd Heach].
    apply (asked_too_many (asked_nodes (sub ++ [r]) (rq_model_id r)) (rq_node_id <$> other_nodes l r) (rq_node_id r) 8).
    + eapply sublist_NoDup; [exact Hnd|]. apply fmap_sublist, sublist_filter.
    + intros x (w' & -> & [_ Hw']%list_elem_of_filter)%list_elem_of_fmap. apply elem_of_asked_nodes.
      destruct (Hasked w') as (q & Hq & Hqm & Hqn).
      { apply elem_of_windows; [done|]. exists l. by rewrite (proj1 (Heach _ Hw')). }
      destruct (Heach _ Hw') as [[= Hw'm] _].
      exists q. rewrite elem_of_app. split; [by left|]. split; congruence.
    + apply elem_of_asked_nodes. exists r. rewrite elem_of_app, list_elem_of_singleton. auto.
    + intros (w' & Hx & [Hw' _]%list_elem_of_filter)%list_elem_of_fmap. by rewrite Hx in Hw'.
    + by rewrite length_fmap.
    + apply Hbn.
  - apply (elem_of_windows _ _ Hwf'). exists l. split; [|done].
    destruct (Hother (mkModelId (rq_model_id w))) as [->|(_ & _ & H32 & Hnone)]; [congruence|done|].
    exfalso. apply (asked_too_many (asked_models (sub ++ [r])) (ModelId_get <$> in_order st) (rq_model_id r) 32).
    + apply (NoDup_fmap_2_strong _); [|apply Hwf]. intros [] [] _ _ Hx. cbn in Hx. congruence.
    + intros x (m & -> & Hmo)%list_elem_of_fmap. apply (iw_dom _ Hwf) in Hmo as [lm Hlm].
      destruct (iw_windows _ Hwf _ _ Hlm) as [Hnil _ _ Heach]. destruct lm as [|w' lm]; [done|].
      destruct (Heach w') as [Hmw _]; [left|]. apply elem_of_asked_models.
      destruct (Hasked w') as (q & Hq & Hqm & _).
      { apply elem_of_windows; [done|]. rewrite Hmw. eexists. split; [exact Hlm|left]. }
      exists q. rewrite elem_of_app. split; [by left|]. by rewrite <- Hmw.
    + apply elem_of_asked_models. exists r. rewrite elem_of_app, list_elem_of_singleton. auto.
    + intros (m & Hx & Hmo)%list_elem_of_fmap. apply (iw_dom _ Hwf) in Hmo as [lm Hlm]. destruct m as [m]. cbn in Hx.
      by rewrite Hx, Hlm in Hnone.
    + by rewrite length_fmap.
    + apply Hbm.
Qed.

(** Within the bounds the newest request of a node and model is served or is
    covered by what is pending. *)
Lemma newest_is_kept sub srv st r : inbox_run sub srv st → within_bounds sub → newest sub r →
  ∃ w, (w ∈ srv ∨ w ∈ windows st) ∧ covers w r.
Proof.
  intros Hrun. revert r. induction Hrun as [|sub srv st r0 st' Hrun IH Heq|sub srv st w st' Hrun IH Heq|sub srv st _ IH];
    intros r Hb Hr.
  - by apply newest_elem, elem_of_nil in Hr.
  - destruct (accepts st r0) eqn:Hacc.
    + apply newest_sent in Hr as [->|[Hr Hne]].
      * destruct (submit_windows st r0 st' (proj1 (inbox_run_inv _ _ _ Hrun)) Hacc Heq) as (_ & (w & Hw & Hcov) & _). eauto.
      * destruct (IH r) as (w & [Hw|Hw] & Hcov); [by eapply within_bounds_app|done|eauto|].
        exists w. split; [|done]. right. eapply submit_keeps; [done..|]. by rewrite (covers_key _ _ Hcov).
    + rewrite (submit_ignored _ _ Hacc) in Heq. injection Heq as <-. rewrite app_nil_r in *. auto.
  - destruct (IH r Hb Hr) as (w' & Hw' & Hcov). exists w'. split; [|done].
    pose proof (try_pop_spec st (proj1 (inbox_run_inv _ _ _ Hrun))) as Hpop. rewrite Heq in Hpop.
    destruct Hpop as (_ & Hperm & _). rewrite elem_of_app, list_elem_of_singleton.
    destruct Hw' as [Hw'|Hw']; [auto|]. rewrite Hperm, elem_of_cons in Hw'. tauto.
  - auto.
Qed.

(** ** The worker that serves window requests

    [run_model_range_worker] drains the inbox into the session: every pending
    window is fulfilled once, and what it commits are steps of the session. *)

Section worker.
Context `{Registry, EventRegistry, PropertyIter, Diagnostics, Digest, CollectionRegistry}.
Variable providers : gset ModelId.
Variable answer : ModelRangeQuery → result ModelRangeError (list ModelItem).
Hypothesis Hanswer : answers answer.

(** Fulfilling a request is a run of the session. *)
Lemma fulfill_run s request s2 (r : result ModelRangeError ModelRangeFulfillment) : ranges_wf s → (revision (store s) + 1 ≤ u64_max)%N →
  fulfill_model_range_request s s providers answer request = (s2, r) →
  returns r ∧ ranges_wf s2 ∧ (revision (store s2) ≤ revision (store s) + 1)%N ∧ ∃ txs, session_run Careful s txs s2.
Proof using Hanswer.
  intros Hs Hmax Heq. destruct (fulfill_spec s s providers answer request s2 r Hs Hanswer Hmax Heq)
    as (Hret & Hwf & Hrev & Hout).
  split; [exact Hret|]. split; [exact Hwf|]. split; [lia|].
  assert (s2 = s → ∃ txs, session_run Careful s txs s2) as Hsame by (intros ->; exists []; apply run_nil).
  destruct r as [[rev| | |]|e| |]; [|apply Hsame..].
  - destruct Hout as (q & batch & _ & _ & _ & _ & _ & _ & _ & _ & Hw).
    destruct (wc_step _ _ _ _ Hw) as (tx & Hstep & _). exists [tx]. exact (session_run_one _ _ _ _ _ Hstep).
  - apply Hout.
  - apply Hout.
  - apply Hout.
  - exact Hout.
  - destruct Hret.
  - destruct Hret.
Qed.

Lemma inbox_poll_spec st : inbox_wf st →
  match inbox_poll st (try_pop st).1 with
  | (st', Ok (Ready (Some w))) => inbox_wf st' ∧ windows st ≡ₚ w :: windows st' ∧ in_closed st' = in_closed st
  | (st', Ok (Ready None)) => st' = st ∧ windows st = [] ∧ in_closed st = true
  | (st', Ok Pending) => st' = st ∧ windows st = [] ∧ in_closed st = false
  | _ => False
  end.
Proof.
  intros Hwf. pose proof (try_pop_spec st Hwf) as Hpop. unfold inbox_poll.
  destruct (try_pop st) as [st1 [[w|]|[]| |]] eqn:Heq; [exact Hpop| |done..].
  destruct Hpop as [-> Hnil]. destruct (in_closed st) eqn:Hc; [done|]. cbn [fst]. by rewrite Heq, Hc.
Qed.

(** The worker serves every pending window once, and then waits, or leaves when
    the connection has closed the inbox. *)
Lemma worker_serves n : ∀ s st, inbox_wf st → ranges_wf s →
  (revision (store s) + len (windows st) ≤ u64_max)%N → length (windows st) < n →
  ∃ s2 st2 served txs, run_model_range_worker providers answer n s st =
      (s2, st2, served, Ok (if in_closed st then Ready tt else Pending)) ∧
    windows st2 = [] ∧ inbox_wf st2 ∧ served.*1 ≡ₚ windows st ∧ (∀ res, res ∈ served.*2 → returns res) ∧
    ranges_wf s2 ∧ session_run Careful s txs s2.
Proof using Hanswer.
  induction n as [|n IH]; intros s st Hst Hs Hmax Hlen; [lia|]. cbn [run_model_range_worker].
  pose proof (inbox_poll_spec st Hst) as Hpoll.
  destruct (inbox_poll st _) as [st1 [[[w|]|]|[]| |]]; [| | |done..].
  - destruct Hpoll as (Hst1 & Hperm & Hcl).
    apply Permutation_length in Hperm as Hl. cbn [length] in Hl. unfold len in *.
    destruct (fulfill_model_range_request s s providers answer w) as [s1 r] eqn:Hf.
    destruct (fulfill_run s w s1 r Hs) as (Hret & Hs1 & Hrev & l1 & Hrun1); [lia|exact Hf|].
    destruct (IH s1 st1 Hst1 Hs1) as (s2 & st2 & served & l & Heq & Hnil & Hst2 & Hserved & Hrets & Hs2 & Hrun);
      [lia|lia|].
    rewrite Heq, Hcl. exists s2, st2, ((w, r) :: served), (l1 ++ l).
    split; [reflexivity|]. split; [exact Hnil|]. split; [exact Hst2|]. split; [|split; [|split]].
    + rewrite fmap_cons, Hserved. symmetry. exact Hperm.
    + intros r' [->|Hr']%elem_of_cons; [exact Hret|by apply Hrets].
    + exact Hs2.
    + exact (session_run_trans _ _ _ _ _ _ Hrun1 Hrun).
  - destruct Hpoll as (-> & Hnil & ->). exists s, (close_inbox st), [], [].
    split; [reflexivity|]. split; [exact Hnil|]. split; [by destruct Hst|]. split; [by rewrite Hnil|].
    split; [by intros r ?%elem_of_nil|]. split; [exact Hs|apply run_nil].
  - destruct Hpoll as (-> & Hnil & ->). exists s, st, [], [].
    split; [reflexivity|]. split; [exact Hnil|]. split; [exact Hst|]. split; [by rewrite Hnil|].
    split; [by intros r ?%elem_of_nil|]. split; [exact Hs|apply run_nil].
Qed.
End worker.
