(* ===== verification/RangeTheorems.v ===== *)
(** * Theorems: windows of collections on demand

    A window a client asks for is committed as it was asked for or not at all; the
    inbox is bounded, never serves an outdated request, and loses none within its
    bounds. *)

From S2P Require Import Prelude.
From S2P Require Import Values.
From S2P Require Import Limits.
From S2P Require Import Models.
From S2P Require Import ModelFacts.
From S2P Require Import Store.
From S2P Require Import StoreInv.
From S2P Require Import StoreModels.
From S2P Require Import Transaction.
From S2P Require Import TransactionFacts.
From S2P Require Import Wire.
From S2P Require Import WireFacts.
From S2P Require Import Journal.
From S2P Require Import Dedupe.
From S2P Require Import Event.
From S2P Require Import TextTracker.
From S2P Require Import Resources.
From S2P Require Import Session.
From S2P Require Import SessionFacts.
From S2P Require Import Replication.
From S2P Require Import Demo.
From S2P Require Import ModelRange.
From S2P Require Import ModelRangeFacts.
From S2P Require Import ModelRangeInbox.

#[export] Existing Instance standard_collections.

(** ** A session that shows a list *)

Definition range_ops : list Operation :=
  [CreateModel (mid 1) list_type 1000;
   ModelResetRange (mid 1) 0 [item 10; item 11] None;
   CreateNode (nid 1) window_type None None [];
   CreateNode (nid 2) (TypeRef_standard 17) (Some (nid 1)) None [(MODEL_REF, VUnsignedInt 1)]].
Definition range_store : SemanticStore := ok_store (apply_ops 0 (with_limits demo_limits) range_ops).
Lemma range_store_ok : apply_ops 0 (with_limits demo_limits) range_ops = Ok range_store.
Proof. vm_compute. reflexivity. Qed.

Definition range_session : SessionInner :=
  mkSession Attached 1 range_store (Journal_new 2) Dedupe_default Tracker_default [].

Lemma range_model : ∃ m, models range_store = {[mid 1 := m]} ∧ cache_wf m.
Proof.
  exists (reset_range (Model_new (mid 1) list_type 1000) 0 [item 10; item 11] None).1.
  split; [vm_compute; reflexivity|].
  apply (reset_range_effect (Model_new (mid 1) list_type 1000) 0 [item 10; item 11] None);
    [apply cache_wf_new|vm_compute; discriminate|vm_compute; reflexivity].
Qed.

Lemma range_session_wf : ranges_wf range_session.
Proof.
  split.
  - split; [|apply (with_initial_revision_wf 2 0)|vm_compute; reflexivity].
    apply (apply_ops_wf 0 (with_limits demo_limits) range_ops); [apply store_wf_empty|apply range_store_ok].
  - destruct range_model as (m & Hm & Hwf). intros id m'.
    change (models (store range_session)) with (models range_store). rewrite Hm.
    by intros [_ <-]%lookup_singleton_Some.
Qed.

(** A provider whose items are numbered from 100 on. *)
Definition range_answer (q : ModelRangeQuery) : result ModelRangeError (list ModelItem) :=
  Ok ((λ i, item (100 + i)) <$> seqN (q_start_index q) (q_count q)).
Lemma range_answers : answers range_answer.
Proof. intros q. cbn. apply Forall_fmap, Forall_true. intros i. split; [intros hash Hm; by inversion Hm|]. intros p v Hp. exfalso. by apply (lookup_empty_Some p v). Qed.

Definition range_request : ClientModelRangeRequest := mkRange 2 1 5 3 0.
Definition range_served : SessionInner * result ModelRangeError ModelRangeFulfillment :=
  fulfill_model_range_request range_session range_session {[mid 1]} range_answer range_request.

(** A history: two windows of one list that merge, and one of another list. *)
Definition range_inbox : CoalescingState :=
  match submit Inbox_new (mkRange 2 1 5 3 0) ≫= λ st, submit st (mkRange 2 1 20 10 1) ≫= λ st, submit st (mkRange 3 2 0 4 1)
  with Ok st => st | _ => Inbox_new end.
Definition range_requests : list ClientModelRangeRequest := [mkRange 2 1 5 3 0; mkRange 2 1 20 10 1; mkRange 3 2 0 4 1].
Definition range_inbox_at (n : nat) : CoalescingState :=
  match fold_left (λ r q, r ≫= λ st, submit st q) (take n range_requests) (Ok Inbox_new) with Ok st => st | _ => Inbox_new end.

Lemma range_inbox_run : inbox_run range_requests [] range_inbox.
Proof.
  apply (inbox_submitted (take 2 range_requests) [] (range_inbox_at 2) (mkRange 3 2 0 4 1)); [|vm_compute; reflexivity].
  apply (inbox_submitted (take 1 range_requests) [] (range_inbox_at 1) (mkRange 2 1 20 10 1)); [|vm_compute; reflexivity].
  apply (inbox_submitted [] [] Inbox_new (mkRange 2 1 5 3 0)); [apply inbox_opened|vm_compute; reflexivity].
Qed.

(** ** Requests *)

(** C18: a client's request for a window of a collection is served exactly or not at
    all.  [s] is the session when the request is looked at, [s'] the session when
    the provider has answered, whatever was committed in between.  Every call
    returns.  If it reports a commit, the request was for an uncached window that
    [s] shows, the provider of its model was asked and answered with as many items
    as were asked for, the window still exists in [s'] and is not cached there,
    and one transaction, which is journalled and published as any other, put
    exactly those items in it: items outside the window come from [s'], though
    some may have made way, the model keeps its length and within its cache limit,
    and no node changes.  Every other outcome leaves the session as it was; the
    window was cached, or had gone ([StaleWindow]), or had no provider. *)
Theorem windows_are_served_exactly `{Registry, EventRegistry, PropertyIter, Diagnostics, Digest, CollectionRegistry}
    (s s' s2 : SessionInner) (providers : gset ModelId)
    (answer : ModelRangeQuery → result ModelRangeError (list ModelItem)) (request : ClientModelRangeRequest)
    (r : result ModelRangeError ModelRangeFulfillment) :
  ranges_wf s' → answers answer → (revision (store s') + 1 ≤ u64_max)%N →
  fulfill_model_range_request s s' providers answer request = (s2, r) →
  returns r ∧ ranges_wf s2 ∧
  match r with
  | Ok (Committed rev) => ∃ q batch, request = request_of q ∧ servable s q ∧ query_is_cached s q = false ∧
      q_model_id q ∈ providers ∧ answer q = Ok batch ∧ len batch = q_count q ∧ query_is_cached s' q = false ∧
      rev = revision (store s2) ∧ window_committed s' q batch s2
  | Ok AlreadyCached => s2 = s' ∧ ∃ q, request = request_of q ∧
      (servable s q ∧ query_is_cached s q = true ∨ servable s' q ∧ query_is_cached s' q = true)
  | Ok StaleWindow => s2 = s' ∧ ∃ q, request = request_of q ∧ servable s q ∧ ¬ servable s' q
  | Ok NoProvider => s2 = s' ∧ ∃ q, request = request_of q ∧ servable s q ∧ q_model_id q ∉ providers
  | _ => s2 = s'
  end.
Proof.
  intros Hs' Hans Hmax Heq.
  destruct (fulfill_spec s s' providers answer request s2 r Hs' Hans Hmax Heq) as (Hret & Hwf & _ & Hout).
  split; [exact Hret|]. split; [exact Hwf|exact Hout].
Qed.

Lemma windows_are_served_exactly_witness :
  ∃ q batch, range_request = request_of q ∧ answers range_answer ∧ range_answer q = Ok batch ∧
    window_committed range_session q batch range_served.1.
Proof.
  pose proof (windows_are_served_exactly range_session range_session range_served.1 {[mid 1]} range_answer
    range_request (Ok (Committed 1)) range_session_wf range_answers) as Hok.
  destruct Hok as (_ & _ & q & batch & Hreq & _ & _ & _ & Hans & _ & _ & _ & Hw);
    [vm_compute; discriminate|vm_compute; reflexivity|].
  exists q, batch. split; [exact Hreq|]. split; [exact range_answers|]. split; [exact Hans|exact Hw].
Defined.

(** C30: the inbox of a connection is bounded and serves nothing outdated: after any
    history of submissions, pops and closing there are windows of at most 32
    models and of at most 8 nodes per model, one per node and model, and every
    pending window covers the newest request the client made for its node and
    model without being larger than that request or 256 items. *)
Theorem pending_windows_are_current (sub srv : list ClientModelRangeRequest) (st : CoalescingState) :
  inbox_run sub srv st →
  length (in_order st) ≤ 32 ∧ NoDup (in_order st) ∧
  (∀ m l, in_pending st !! m = Some l → m ∈ in_order st ∧ 0 < length l ≤ 8 ∧ NoDup (rq_node_id <$> l) ∧
    ∀ w, w ∈ l → mkModelId (rq_model_id w) = m ∧ ∃ r, newest sub r ∧ covers w r).
Proof.
  intros [Hwf Hcov]%inbox_run_inv. split; [apply Hwf|]. split; [apply Hwf|]. intros m l Hl.
  destruct (iw_windows _ Hwf _ _ Hl) as [Hne Hb Hnd Heach]. split; [apply (iw_dom _ Hwf); eauto|].
  split; [destruct l; [done|cbn in *; lia]|]. split; [done|]. intros w Hw. destruct (Heach w Hw) as [Hm _].
  split; [done|]. apply Hcov, elem_of_windows; [done|]. rewrite Hm. eauto.
Qed.

Lemma pending_windows_are_current_witness :
  in_pending range_inbox !! mid 1 = Some [mkRange 2 1 5 25 1] ∧
  ∃ r, newest range_requests r ∧ covers (mkRange 2 1 5 25 1) r.
Proof.
  assert (in_pending range_inbox !! mid 1 = Some [mkRange 2 1 5 25 1]) as Hl by (vm_compute; reflexivity).
  split; [exact Hl|].
  destruct (pending_windows_are_current range_requests [] range_inbox range_inbox_run) as (_ & _ & Hok).
  destruct (Hok _ _ Hl) as (_ & _ & _ & Hcov). apply (Hcov (mkRange 2 1 5 25 1)). left.
Defined.

(** C19: every window a client still wants is served: if it asks for at most 32
    models, each for at most 8 nodes, then, whatever was served before, a worker
    that is left alone with the inbox serves each pending window once and waits, or
    leaves if the inbox is closed; by then every newest request of a node and
    model has been served by a window that covers it.  Every request gets an
    outcome, and what the worker did to the session is a run of its steps. *)
Theorem wanted_windows_are_served `{Registry, EventRegistry, PropertyIter, Diagnostics, Digest, CollectionRegistry}
    (providers : gset ModelId) (answer : ModelRangeQuery → result ModelRangeError (list ModelItem))
    (sub srv : list ClientModelRangeRequest) (st : CoalescingState) (s : SessionInner) :
  answers answer → inbox_run sub srv st → within_bounds sub → ranges_wf s →
  (revision (store s) + len (windows st) ≤ u64_max)%N →
  ∃ s2 st2 served txs,
    run_model_range_worker providers answer (S (length (windows st))) s st =
      (s2, st2, served, Ok (if in_closed st then Ready tt else Pending)) ∧
    windows st2 = [] ∧ served.*1 ≡ₚ windows st ∧ (∀ r, r ∈ served.*2 → returns r) ∧ session_run Careful s txs s2 ∧
    ∀ r, newest sub r → ∃ w, w ∈ srv ++ served.*1 ∧ covers w r.
Proof.
  intros Hans Hrun Hb Hs Hmax. destruct (inbox_run_inv _ _ _ Hrun) as [Hwf _].
  destruct (worker_serves providers answer Hans (S (length (windows st))) s st Hwf Hs Hmax)
    as (s2 & st2 & served & l & Heq & Hnil & _ & Hserved & Hrets & _ & Hrun2); [lia|].
  exists s2, st2, served, l. split; [exact Heq|]. split; [exact Hnil|]. split; [exact Hserved|].
  split; [exact Hrets|]. split; [exact Hrun2|]. intros r Hr.
  destruct (newest_is_kept _ _ _ _ Hrun Hb Hr) as (w & Hw & Hcov). exists w. split; [|exact Hcov].
  rewrite elem_of_app, Hserved. exact Hw.
Qed.

Lemma range_within_bounds : within_bounds range_requests.
Proof.
  split; [vm_compute; lia|]. intros model.
  assert (size (asked_nodes range_requests model) ≤ size (list_to_set (rq_node_id <$> range_requests) : gset N)) as Hle.
  { apply subseteq_size. intros n (r & Hr & _ & <-)%elem_of_asked_nodes.
    by apply elem_of_list_to_set, list_elem_of_fmap_2. }
  etrans; [exact Hle|]. vm_compute. lia.
Qed.

Lemma wanted_windows_are_served_witness : ∃ s2 st2 served,
  run_model_range_worker {[mid 1]} range_answer 3 range_session range_inbox = (s2, st2, served, Ok Pending) ∧
  windows st2 = [] ∧ ∃ w, w ∈ served.*1 ∧ covers w (mkRange 2 1 20 10 1).
Proof.
  destruct (wanted_windows_are_served {[mid 1]} range_answer range_requests [] range_inbox range_session
    range_answers range_inbox_run range_within_bounds range_session_wf) as (s2 & st2 & served & txs & Heq & Hnil & _ & _ & _ & Hok);
    [vm_compute; discriminate|].
  exists s2, st2, served. split; [exact Heq|]. split; [exact Hnil|]. apply Hok.
  exists [mkRange 2 1 5 3 0], [mkRange 3 2 0 4 1]. split; [reflexivity|].
  intros r' ->%list_elem_of_singleton. discriminate.
Defined.
