(* ===== verification/Codec.v ===== *)
(** * The framing codec

    Models [protocol/src/codec.rs] and the framing functions of
    [protocol/src/framing.rs]: a message on the wire is prost's encoding behind a
    varint length.  prost is a parameter, with the laws of its documentation that
    the codec relies on; tokio's buffer is the list of bytes it holds. *)

From S2P Require Import Prelude.
From S2P Require Import Values.
From S2P Require Import SnapshotFraming.
From S2P Require Import Snapshot.

Local Abbreviation buffer := (list N).

(** [l] is [k] without some of its last bytes. *)
Definition proper_prefix (l k : buffer) : Prop := ∃ b tail, k = l ++ b :: tail.

(** What [prost] does for one type of message. *)
Class Prost (M : Type) := {
  encode_message : M → buffer;
  decode_message : buffer → option M;
  encode_length : N → buffer;
  decode_length : buffer → option (N * buffer);
  decode_length_delimited : buffer → option M;
  decode_message_encode m : decode_message (encode_message m) = Some m;
  encode_length_len n : (n ≤ u64_max)%N → 1 ≤ length (encode_length n) ≤ 10;
  decode_length_encode n rest : (n ≤ u64_max)%N → decode_length (encode_length n ++ rest) = Some (n, rest);
  decode_length_prefix n l : (n ≤ u64_max)%N → proper_prefix l (encode_length n) → decode_length l = None;
  decode_length_delimited_encode m rest : (len (encode_message m) ≤ u64_max)%N →
    decode_length_delimited (encode_length (len (encode_message m)) ++ encode_message m ++ rest) = Some m;
}.

Inductive FramingError :=
| FrameSizeLimitExceeded (limit actual : N)
| EncodeError
| DecodeError.

Section codec.
Context {M : Type} `{Prost M}.

(** [encode_framed_with_limit], [encode_framed] and [framed_payload_len] *)
Definition framed_payload_len (m : M) : N := len (encode_message m).
Definition encode_framed_with_limit (m : M) (max_frame_size : N) : result FramingError buffer :=
  let payload_len := framed_payload_len m in
  if (max_frame_size <? payload_len)%N then Err (FrameSizeLimitExceeded max_frame_size payload_len)
  else Ok (encode_length payload_len ++ encode_message m).
Definition encode_framed (m : M) : result FramingError buffer := encode_framed_with_limit m DEFAULT_MAX_FRAME_SIZE.

(** [decode_framed_with_limit] and [decode_framed] *)
Definition decode_framed_with_limit (buf : buffer) (max_frame_size : N) : result FramingError M :=
  match decode_length buf with
  | Some (varint_len, _) =>
      if (max_frame_size <? varint_len)%N then Err (FrameSizeLimitExceeded max_frame_size varint_len)
      else ok_or DecodeError (decode_length_delimited buf)
  | None => ok_or DecodeError (decode_length_delimited buf)
  end.
Definition decode_framed (buf : buffer) : result FramingError M :=
  decode_framed_with_limit buf DEFAULT_MAX_FRAME_SIZE.

(** [SruiCodec] *)
Record SruiCodec := mkCodec { max_frame_size : N }.
Definition Codec_new : SruiCodec := mkCodec DEFAULT_MAX_FRAME_SIZE.

(** [impl Decoder for SruiCodec]: the buffer after the call, and its result. *)
Definition decode (codec : SruiCodec) (src : buffer) : buffer * result FramingError (option M) :=
  if (len src =? 0)%N then (src, Ok None)
  else
      match decode_length src with
      | None => if (10 <=? len src)%N then (src, Err DecodeError) else (src, Ok None)
      | Some (varint_len, peek_buf) =>
          if (max_frame_size codec <? varint_len)%N
          then (src, Err (FrameSizeLimitExceeded (max_frame_size codec) varint_len))
          else
            let header_len := (len src - len peek_buf)%N in
            match checked_add64 header_len varint_len with
            | None => (src, Err (FrameSizeLimitExceeded (max_frame_size codec) u64_max))
            | Some total_frame_len =>
                if (len src <? total_frame_len)%N then (src, Ok None)
                else
                  let frame_bytes := take (N.to_nat total_frame_len) src in
                  let src' := drop (N.to_nat total_frame_len) src in
                  match decode_message (drop (N.to_nat header_len) frame_bytes) with
                  | Some msg => (src', Ok (Some msg))
                  | None => (src', Err DecodeError)
                  end
            end
      end.

(** [impl Encoder<SruiMessage> for SruiCodec] *)
Definition encode (codec : SruiCodec) (item : M) (dst : buffer) : result FramingError buffer :=
  let payload_len := framed_payload_len item in
  if (max_frame_size codec <? payload_len)%N
  then Err (FrameSizeLimitExceeded (max_frame_size codec) payload_len)
  else Ok (dst ++ encode_length payload_len ++ encode_message item).

(** A reader: what arrives is appended, and [decode] is called until it asks for
    more bytes. *)
Fixpoint decode_available (fuel : nat) (codec : SruiCodec) (src : buffer) : buffer * result FramingError (list M) :=
  match fuel with
  | O => (src, Diverge)
  | S fuel =>
      match decode codec src with
      | (src', Ok None) => (src', Ok [])
      | (src', Ok (Some m)) =>
          match decode_available fuel codec src' with
          | (src2, Ok ms) => (src2, Ok (m :: ms))
          | (src2, r) => (src2, r)
          end
      | (src', Err e) => (src', Err e)
      | (src', Panic) => (src', Panic)
      | (src', Diverge) => (src', Diverge)
      end
  end.
Fixpoint read_stream (codec : SruiCodec) (src : buffer) (arrivals : list buffer)
    : buffer * result FramingError (list M) :=
  match arrivals with
  | [] => (src, Ok [])
  | bytes :: arrivals =>
      match decode_available (S (length (src ++ bytes))) codec (src ++ bytes) with
      | (src', Ok ms) =>
          match read_stream codec src' arrivals with
          | (src2, Ok ms') => (src2, Ok (ms ++ ms'))
          | (src2, r) => (src2, r)
          end
      | (src', r) => (src', r)
      end
  end.

(** ** Frames *)

Definition fits_frame (codec : SruiCodec) (m : M) : Prop :=
  (framed_payload_len m ≤ max_frame_size codec)%N ∧ (framed_payload_len m + 10 ≤ u64_max)%N.
Definition frame_of (m : M) : buffer := encode_length (framed_payload_len m) ++ encode_message m.
Definition frames (ms : list M) : buffer := concat (frame_of <$> ms).

Lemma frame_len codec m : fits_frame codec m →
  length (frame_of m) = length (encode_length (framed_payload_len m)) + length (encode_message m) ∧
  1 ≤ length (encode_length (framed_payload_len m)) ≤ 10.
Proof.
  intros [_ Hm]. unfold frame_of. rewrite length_app. split; [done|]. apply encode_length_len. lia.
Qed.

Lemma encode_frames codec ms : ∀ dst, Forall (fits_frame codec) ms →
  try_fold (λ dst m, encode codec m dst) dst ms = Ok (dst ++ frames ms).
Proof.
  induction ms as [|m ms IH]; intros dst; [by rewrite app_nil_r|]. intros [[Hm _] Hms]%Forall_cons.
  assert (encode codec m dst = Ok (dst ++ frame_of m)) as Henc.
  { unfold encode. by rewrite (proj2 (N.ltb_ge _ _)). }
  rewrite (try_fold_app _ dst [m] ms : try_fold _ dst (m :: ms) = _). cbn. rewrite Henc. cbn.
  rewrite IH by done. unfold frames. cbn. by rewrite <- !app_assoc.
Qed.

(** A whole frame at the front is taken, whatever follows it. *)
Lemma decode_frame codec m rest : fits_frame codec m → decode codec (frame_of m ++ rest) = (rest, Ok (Some m)).
Proof.
  intros Hm. destruct (frame_len codec m Hm) as [Hlen Hh]. destruct Hm as [Hmax Hfit].
  unfold decode, frame_of in *. rewrite <- app_assoc.
  rewrite (proj2 (N.eqb_neq _ _)) by (unfold len; rewrite !length_app; lia).
  rewrite decode_length_encode by lia. cbv beta iota. rewrite (proj2 (N.ltb_ge _ _)) by done.
  unfold framed_payload_len in *. set (h := encode_length _) in *.
  assert (len (h ++ encode_message m ++ rest) - len (encode_message m ++ rest) = len h)%N as ->
    by (unfold len; rewrite !length_app; lia).
  rewrite (proj2 (checked_add64_Some _ _ (len h + len (encode_message m))%N)) by (unfold len in *; lia).
  rewrite (proj2 (N.ltb_ge _ _)) by (unfold len; rewrite !length_app; lia).
  rewrite app_assoc. assert (N.to_nat (len h + len (encode_message m)) = length (h ++ encode_message m)) as ->
    by (unfold len; rewrite length_app; lia).
  rewrite take_app_length, drop_app_length.
  assert (N.to_nat (len h) = length h) as -> by (unfold len; lia).
  by rewrite drop_app_length, decode_message_encode.
Qed.

(** Part of a frame is waited for. *)
Lemma decode_part codec m src : fits_frame codec m → proper_prefix src (frame_of m) → decode codec src = (src, Ok None).
Proof.
  intros Hm (b0 & tail & Hsrc). destruct (frame_len codec m Hm) as [Hlen Hh]. destruct Hm as [Hmax Hfit].
  assert (length src < length (frame_of m)) as Hlt by (rewrite Hsrc, length_app; cbn; lia).
  unfold decode. destruct (N.eqb_spec (len src) 0) as [|Hne]; [done|].
  unfold frame_of in *. set (h := encode_length (framed_payload_len m)) in *.
  destruct (decide (length src < length h)) as [Hshort|Hlong].
  - assert (proper_prefix src h) as Hpre.
    { destruct (drop (length src) h) as [|b t] eqn:Hd.
      { apply (f_equal length) in Hd. rewrite length_drop in Hd. cbn in Hd. lia. }
      exists b, t. rewrite <- Hd, <- (take_drop (length src) h) at 1. f_equal.
      apply (f_equal (take (length src))) in Hsrc. by rewrite take_app_le, take_app_length in Hsrc by lia. }
    rewrite (decode_length_prefix (framed_payload_len m) src) by (done || lia).
    by rewrite (proj2 (N.leb_gt _ _)) by (unfold len; lia).
  - assert (∃ rest, src = h ++ rest) as [rest ->].
    { exists (drop (length h) src). rewrite <- (take_drop (length h) src) at 1. f_equal.
      apply (f_equal (take (length h))) in Hsrc. by rewrite take_app_length, take_app_le in Hsrc by lia. }
    pose proof (decode_length_encode (framed_payload_len m) rest ltac:(lia)) as Hdec. fold h in Hdec. rewrite Hdec.
    rewrite (proj2 (N.ltb_ge _ _)) by done.
    assert (len (h ++ rest) - len rest = len h)%N as -> by (unfold len; rewrite length_app; lia).
    unfold framed_payload_len in *.
    rewrite (proj2 (checked_add64_Some _ _ (len h + len (encode_message m))%N)) by (unfold len in *; lia).
    rewrite (proj2 (N.ltb_lt _ _)); [done|]. unfold len in *. lia.
Qed.

(** What is left in the buffer: less than the first frame still to come. *)
Definition waiting (src : buffer) (rest : list M) : Prop :=
  match rest with [] => src = [] | m :: _ => proper_prefix src (frame_of m) end.

Lemma frames_cons m ms : frames (m :: ms) = frame_of m ++ frames ms.
Proof. done. Qed.

Lemma proper_or_whole (src later a b : buffer) : src ++ later = a ++ b →
  proper_prefix src a ∨ ∃ src', src = a ++ src' ∧ src' ++ later = b.
Proof.
  intros Heq. destruct (decide (length src < length a)) as [Hlt|Hge].
  - left. destruct (drop (length src) a) as [|x t] eqn:Hd.
    { apply (f_equal length) in Hd. rewrite length_drop in Hd. cbn in Hd. lia. }
    exists x, t. rewrite <- Hd, <- (take_drop (length src) a) at 1. f_equal.
    apply (f_equal (take (length src))) in Heq. by rewrite take_app_length, take_app_le in Heq by lia.
  - right. exists (drop (length a) src). assert (take (length a) src = a) as Ht.
    { apply (f_equal (take (length a))) in Heq. by rewrite take_app_le, take_app_length in Heq by lia. }
    split; [rewrite <- (take_drop (length a) src) at 1; by rewrite Ht|].
    apply (f_equal (drop (length a))) in Heq. by rewrite drop_app_le, drop_app_length in Heq by lia.
Qed.

Lemma decode_available_spec codec ms : Forall (fits_frame codec) ms → ∀ fuel src later,
  src ++ later = frames ms → length src < fuel →
  ∃ taken rest src', decode_available fuel codec src = (src', Ok taken) ∧ ms = taken ++ rest ∧
    src' ++ later = frames rest ∧ waiting src' rest.
Proof.
  induction 1 as [|m ms Hm Hms IH]; intros fuel src later Hsrc Hfuel; (destruct fuel as [|fuel]; [lia|]).
  - apply app_nil in Hsrc as [-> ->]. by exists [], [], [].
  - rewrite frames_cons in Hsrc. cbn [decode_available].
    destruct (proper_or_whole _ _ _ _ Hsrc) as [Hpre|(src1 & -> & Hlater)].
    + rewrite (decode_part _ _ _ Hm Hpre). exists [], (m :: ms), src. done.
    + rewrite (decode_frame _ _ _ Hm). destruct (frame_len _ _ Hm) as [Hlen Hh].
      destruct (IH fuel src1 later Hlater) as (tk & rest & src2 & -> & -> & Hrest & Hw);
        [rewrite length_app in Hfuel; lia|].
      by exists (m :: tk), rest, src2.
Qed.

Lemma read_stream_spec codec arrivals : ∀ ms src later, Forall (fits_frame codec) ms →
  src ++ concat arrivals ++ later = frames ms → waiting src ms ∨ arrivals ≠ [] →
  ∃ taken rest src', read_stream codec src arrivals = (src', Ok taken) ∧ ms = taken ++ rest ∧
    src' ++ later = frames rest ∧ waiting src' rest.
Proof.
  induction arrivals as [|bytes arrivals IH]; intros ms src later Hms Hsrc Hw.
  - destruct Hw as [Hw|Hw]; [|done]. by exists [], ms, src.
  - cbn [read_stream concat] in *. rewrite <- app_assoc, app_assoc in Hsrc.
    destruct (decode_available_spec codec ms Hms (S (length (src ++ bytes))) _ _ Hsrc)
      as (tk & rest & src1 & -> & -> & Hrest & Hw1); [lia|].
    apply Forall_app in Hms as [_ Hms].
    destruct (IH rest src1 later Hms Hrest) as (tk' & rest' & src2 & -> & -> & Hrest' & Hw2); [by left|].
    exists (tk ++ tk'), rest', src2. by rewrite app_assoc.
Qed.

Lemma decode_framed_round_trip m max : (framed_payload_len m ≤ max)%N → (framed_payload_len m ≤ u64_max)%N →
  ∀ rest, encode_framed_with_limit m max = Ok (frame_of m) ∧
    decode_framed_with_limit (frame_of m ++ rest) max = Ok m.
Proof.
  intros Hmax Hfit rest. unfold encode_framed_with_limit, decode_framed_with_limit.
  rewrite (proj2 (N.ltb_ge _ _)) by done. split; [done|]. unfold frame_of. rewrite <- app_assoc.
  rewrite decode_length_encode by done. rewrite (proj2 (N.ltb_ge _ _)) by done.
  unfold framed_payload_len in *. by rewrite decode_length_delimited_encode.
Qed.
End codec.

(** ** A concrete encoding

    LEB128 lengths around messages that are their own encoding. *)

Fixpoint leb_encode (fuel : nat) (n : N) : list N :=
  match fuel with
  | O => []
  | S fuel => if (n <? 128)%N then [n] else (n mod 128 + 128)%N :: leb_encode fuel (n / 128)
  end.
Fixpoint leb_decode (fuel : nat) (l : list N) : option (N * list N) :=
  match fuel, l with
  | S fuel, b :: l =>
      if (b <? 128)%N then Some (b, l)
      else '(n, rest) ← leb_decode fuel l; Some (b - 128 + 128 * n, rest)%N
  | _, _ => None
  end.

Lemma leb_encode_S fuel n : leb_encode (S fuel) n =
  if (n <? 128)%N then [n] else (n mod 128 + 128)%N :: leb_encode fuel (n / 128).
Proof. done. Qed.
Lemma leb_decode_S fuel b l : leb_decode (S fuel) (b :: l) =
  if (b <? 128)%N then Some (b, l) else '(n, rest) ← leb_decode fuel l; Some (b - 128 + 128 * n, rest)%N.
Proof. done. Qed.

Lemma leb_round_trip fuel : ∀ n rest, (n < 128 ^ N.succ (N.of_nat fuel))%N →
  leb_decode (S fuel) (leb_encode (S fuel) n ++ rest) = Some (n, rest).
Proof.
  induction fuel as [|fuel IH]; intros n rest Hn; rewrite N.pow_succ_r' in Hn;
    rewrite leb_encode_S; (destruct (N.ltb_spec n 128) as [Hlt|Hge];
      [cbn [app]; rewrite leb_decode_S; by rewrite (proj2 (N.ltb_lt _ _))|]).
  - cbn in Hn. lia.
  - pose proof (N.mod_lt n 128) as Hm. rewrite <- app_comm_cons, leb_decode_S.
    rewrite (proj2 (N.ltb_ge _ _) (N.le_add_l 128 _)). rewrite IH by (apply N.Div0.div_lt_upper_bound; rewrite Nat2N.inj_succ in Hn; exact Hn).
    cbn [mbind option_bind]. f_equal. f_equal. pose proof (N.Div0.div_mod n 128) as Hdm.
    clear IH Hn Hge Hm. generalize dependent (n `mod` 128)%N. generalize (n `div` 128)%N. intros q r Hdm. lia.
Qed.

Lemma leb_encode_len fuel : ∀ n, 0 < fuel → 1 ≤ length (leb_encode fuel n) ≤ fuel.
Proof.
  induction fuel as [|fuel IH]; intros n Hf; [lia|]. cbn. case_match; cbn; [lia|].
  destruct fuel as [|fuel]; [cbn; lia|]. specialize (IH (n / 128)%N ltac:(lia)). cbn in IH |- *. lia.
Qed.

Lemma leb_prefix fuel : ∀ n l, proper_prefix l (leb_encode fuel n) → leb_decode fuel l = None.
Proof.
  induction fuel as [|fuel IH]; intros n l (b & t & Heq); [done|]. cbn [leb_encode] in Heq.
  destruct l as [|x l]; [done|]. destruct (N.ltb_spec n 128) as [Hlt|Hge].
  - injection Heq as _ Heq. by destruct l.
  - injection Heq as <- Heq. rewrite leb_decode_S, (proj2 (N.ltb_ge _ _) (N.le_add_l 128 _)).
    by rewrite (IH (n / 128)%N l ltac:(by exists b, t)).
Qed.

(** ** Theorems: the framing codec *)

#[export] Program Instance leb_prost : Prost (list N) := {|
  encode_message m := m;
  decode_message l := Some l;
  encode_length := leb_encode 10;
  decode_length := leb_decode 10;
  decode_length_delimited l :=
    '(n, rest) ← leb_decode 10 l; if (len rest <? n)%N then None else Some (take (N.to_nat n) rest) |}.
Next Obligation. done. Qed.
Next Obligation. intros n _. apply leb_encode_len. lia. Qed.
Next Obligation. intros n rest Hn. apply (leb_round_trip 9). unfold u64_max in Hn. cbn. lia. Qed.
Next Obligation. intros n l _. apply leb_prefix. Qed.
Next Obligation.
  intros m rest Hm. cbv beta. rewrite (leb_round_trip 9) by (unfold u64_max in Hm; cbn; lia). cbn [mbind option_bind].
  rewrite (proj2 (N.ltb_ge _ _)) by (unfold len; rewrite length_app; lia).
  f_equal. unfold len. by rewrite Nat2N.id, take_app_length.
Qed.

(** C28: a stream of frames is read back exactly, however it is cut up: the frames
    an encoder appends for messages within its limit, arriving in any pieces,
    decode without an error into those messages in their order, and with nothing
    left in the buffer when all of them have arrived; while a part is missing, the
    messages whose frames are complete have been delivered and what is in the
    buffer, together with what is still to come, is the frames of the others. *)
Theorem frames_survive_any_chunking {M : Type} `{Prost M} (codec : SruiCodec) (ms : list M)
    (bytes later : list N) (arrivals : list (list N)) :
  Forall (fits_frame codec) ms →
  try_fold (λ dst m, encode codec m dst) [] ms = Ok bytes → concat arrivals ++ later = bytes → arrivals ≠ [] →
  ∃ taken rest src, read_stream codec [] arrivals = (src, Ok taken) ∧ ms = taken ++ rest ∧
    src ++ later = frames rest ∧ waiting src rest ∧ (later = [] → taken = ms ∧ src = []).
Proof.
  intros Hms Henc Hcut Hne. rewrite encode_frames in Henc by done. injection Henc as Henc. cbn in Henc.
  destruct (read_stream_spec codec arrivals ms [] later Hms) as (taken & rest & src & Heq & -> & Hrest & Hw);
    [by rewrite Henc|by right|].
  exists taken, rest, src. split_and!; [done..|]. intros ->. rewrite app_nil_r in Hrest.
  destruct rest as [|m rest]; [by rewrite app_nil_r|]. destruct Hw as (b & t & Hw).
  rewrite frames_cons, Hw in Hrest. apply (f_equal length) in Hrest. rewrite !length_app in Hrest. cbn in Hrest. lia.
Qed.

Lemma frames_survive_any_chunking_witness :
  read_stream Codec_new [] [[3; 10; 11]; []; [12; 1]; [20; 0]]%N = ([], Ok [[10; 11; 12]; [20]; []]%N).
Proof.
  destruct (frames_survive_any_chunking Codec_new [[10; 11; 12]; [20]; []]%N [3; 10; 11; 12; 1; 20; 0]%N []
    [[3; 10; 11]; []; [12; 1]; [20; 0]]%N) as (taken & rest & src & Heq & _ & _ & _ & Hall).
  - repeat constructor; vm_compute; discriminate.
  - vm_compute. reflexivity.
  - reflexivity.
  - discriminate.
  - destruct (Hall eq_refl) as [-> ->]. exact Heq.
Defined.
