(* ===== verification/SrtopData.v ===== *)
(** * srtop: what a scan of the process file system is

    Models the data of [apps/srtop/src/source.rs]: process-instance identities,
    observed and missing values, records, the bounded ledgers of the records a
    scan did not publish, and which absent rows a scan may delete. *)

From S2P Require Import Prelude.
From S2P Require Import Values.

(** Integers of 32 bits and of 128 bits are numbers, bounded where it matters. *)
Definition u128_max : N := 2 ^ 128 - 1.
Definition checked_mul128 (a b : N) : option N := if (a * b <=? u128_max)%N then Some (a * b)%N else None.

(** ** Identities *)

(** [enum MissingReason] and [enum Observed<T>] *)
Inductive MissingReason := ReasonUnavailable | ReasonDenied.
#[export] Instance MissingReason_eq_dec : EqDecision MissingReason.
Proof. solve_decision. Defined.
Definition describe (r : MissingReason) : string :=
  match r with ReasonUnavailable => "unavailable" | ReasonDenied => "permission denied" end.

Inductive Observed (A : Type) := Known (a : A) | Missing (reason : MissingReason).
Arguments Known {A} a.
Arguments Missing {A} reason.
#[export] Instance Observed_eq_dec `{EqDecision A} : EqDecision (Observed A).
Proof. solve_decision. Defined.

(** [enum CreationToken] and [struct ProcessKey]; the wrappers [SourceId],
    [HostId], [BootId] and [PidNamespaceId] are what they wrap. *)
Inductive CreationToken := LinuxBootTicks (ticks : N) | Opaque_token (token : string).
#[export] Instance CreationToken_eq_dec : EqDecision CreationToken.
Proof. solve_decision. Defined.

Record ProcessKey := mkKey {
  pk_source : string;
  pk_host : Observed string;
  pk_boot : Observed string;
  pk_pid_namespace : Observed N;
  pk_pid : Observed N;
  pk_creation : CreationToken;
}.
#[export] Instance ProcessKey_eq_dec : EqDecision ProcessKey.
Proof. solve_decision. Defined.

(** Keys can be hashed. *)
#[export] Instance MissingReason_countable : Countable MissingReason.
Proof.
  apply (inj_countable' (λ r, match r with ReasonUnavailable => false | ReasonDenied => true end)
    (λ b : bool, if b then ReasonDenied else ReasonUnavailable)). by intros [].
Defined.
#[export] Instance Observed_countable `{Countable A} : Countable (Observed A).
Proof.
  apply (inj_countable' (λ o, match o with Known a => inl a | Missing r => inr r end)
    (λ s : A + MissingReason, match s with inl a => Known a | inr r => Missing r end)). by intros [].
Defined.
#[export] Instance CreationToken_countable : Countable CreationToken.
Proof.
  apply (inj_countable' (λ t, match t with LinuxBootTicks n => inl n | Opaque_token s => inr s end)
    (λ s : N + string, match s with inl n => LinuxBootTicks n | inr s => Opaque_token s end)). by intros [].
Defined.
#[export] Instance ProcessKey_countable : Countable ProcessKey.
Proof.
  apply (inj_countable' (λ k, (pk_source k, pk_host k, pk_boot k, pk_pid_namespace k, pk_pid k, pk_creation k))
    (λ '(source, host, boot, namespace, pid, creation), mkKey source host boot namespace pid creation)). by intros [].
Defined.

(** ** Records *)

(** [struct CpuInterval], the elapsed time in nanoseconds, and [enum CpuUsage] *)
Record CpuInterval := mkCpuInterval { ci_ticks : N; ci_ticks_per_second : N; ci_elapsed : N }.
#[export] Instance CpuInterval_eq_dec : EqDecision CpuInterval.
Proof. solve_decision. Defined.
Inductive CpuUsage := Measured (i : CpuInterval) | WarmingUp | CpuMissing (reason : MissingReason).
#[export] Instance CpuUsage_eq_dec : EqDecision CpuUsage.
Proof. solve_decision. Defined.

(** [struct DisplayName], already sanitised, and [struct ProcessRecord] *)
Record DisplayName := mkDisplayName { dn_text : string; dn_command : option string }.
#[export] Instance DisplayName_eq_dec : EqDecision DisplayName.
Proof. solve_decision. Defined.
Record ProcessRecord := mkRecord {
  pr_key : ProcessKey;
  pr_display_name : DisplayName;
  pr_resident : Observed N;
  pr_cpu : CpuUsage;
}.

(** ** The ledgers of a scan *)

(** [struct PidLedger] and its methods *)
Record PidLedger := mkLedger { lg_limit : N; lg_named : gset N; lg_count : N; lg_enumerable : bool }.
Definition ledger_with_limit (limit : N) : PidLedger := mkLedger limit ∅ 0 true.
Definition ledger_none : PidLedger := ledger_with_limit 0.
Definition ledger_unenumerable : PidLedger := mkLedger 0 ∅ 0 false.
Definition ledger_record (l : PidLedger) (pid : N) : PidLedger :=
  let count := (lg_count l + 1)%N in
  if (N.of_nat (size (lg_named l)) <? lg_limit l)%N || bool_decide (pid ∈ lg_named l)
  then mkLedger (lg_limit l) ({[pid]} ∪ lg_named l) count (lg_enumerable l)
  else mkLedger (lg_limit l) (lg_named l) count false.
Definition ledger_unnamed (l : PidLedger) : PidLedger :=
  mkLedger (lg_limit l) (lg_named l) (lg_count l + 1) false.
Definition mark_unenumerable (l : PidLedger) : PidLedger :=
  mkLedger (lg_limit l) (lg_named l) (lg_count l) false.

(** [enum IssueScope], [struct EnumerationIssue], [record_issue] *)
Inductive IssueScope :=
| ScopeRoot | ScopeEntry | ScopeLimit | ScopeHostIdentity | ScopeBootIdentity | ScopePidNamespace
| ScopeProcess (pid : N).
Record EnumerationIssue := mkIssue { is_scope : IssueScope; is_reason : MissingReason; is_detail : string }.
Definition MAX_RECORDED_ISSUES : N := 32.
Definition record_issue (issues : list EnumerationIssue) (i : EnumerationIssue) : list EnumerationIssue :=
  if (len issues <? MAX_RECORDED_ISSUES)%N then issues ++ [i] else issues.

(** [enum Completeness] *)
Inductive Completeness :=
| Complete
| Incomplete (skipped : PidLedger) (issues : list EnumerationIssue).
Definition from_scan (skipped : PidLedger) (issues : list EnumerationIssue) : Completeness :=
  if (lg_count skipped =? 0)%N && lg_enumerable skipped && bool_decide (length issues = 0) then Complete
  else Incomplete skipped (take (N.to_nat MAX_RECORDED_ISSUES) issues).
Definition is_complete_scan (c : Completeness) : bool := match c with Complete => true | _ => false end.
Definition skipped_count (c : Completeness) : N :=
  match c with Complete => 0 | Incomplete skipped _ => lg_count skipped end.

(** [enum Retention] *)
Inductive Retention := Skipped (pids : gset N) | Unenumerable.
Definition keeps (r : Retention) (key : ProcessKey) : bool :=
  match r with
  | Unenumerable => true
  | Skipped pids => match pk_pid key with Known pid => bool_decide (pid ∈ pids) | Missing _ => false end
  end.
Definition is_global (r : Retention) : bool := match r with Unenumerable => true | _ => false end.

(** [struct ProcessSnapshot], without its sample time and system-wide figures,
    which the rows do not depend on, and [retention] *)
Record ProcessSnapshot := mkSnapshot {
  ps_source : string;
  ps_records : list ProcessRecord;
  ps_vanished : N;
  ps_capped : PidLedger;
  ps_completeness : Completeness;
}.
Definition retention (s : ProcessSnapshot) : Retention :=
  if negb (lg_enumerable (ps_capped s)) then Unenumerable
  else
    match ps_completeness s with
    | Incomplete skipped _ =>
        if negb (lg_enumerable skipped) then Unenumerable
        else Skipped (lg_named (ps_capped s) ∪ lg_named skipped)
    | Complete => Skipped (lg_named (ps_capped s))
    end.

(** ** Facts *)

(** What a ledger was told: the PIDs recorded, and how many records it counts. *)
Inductive ledger_event := Named (pid : N) | Unnamed.
Definition ledger_step (l : PidLedger) (e : ledger_event) : PidLedger :=
  match e with Named pid => ledger_record l pid | Unnamed => ledger_unnamed l end.
Definition named_pids (es : list ledger_event) : list N :=
  omap (λ e, match e with Named pid => Some pid | Unnamed => None end) es.

(** While a ledger is enumerable it names exactly what it was told; it never names
    more than its limit, and it counts everything. *)
Record ledger_ok (l : PidLedger) (limit : N) (es : list ledger_event) : Prop := {
  lo_limit : lg_limit l = limit;
  lo_bound : (N.of_nat (size (lg_named l)) ≤ limit)%N;
  lo_count : lg_count l = len es;
  lo_exact : lg_enumerable l = true → ∀ pid, pid ∈ lg_named l ↔ pid ∈ named_pids es;
  lo_all : lg_enumerable l = true → Forall (λ e, e ≠ Unnamed) es;
}.

Lemma ledger_with_limit_ok limit : ledger_ok (ledger_with_limit limit) limit [].
Proof.
  split; cbn; [done|rewrite size_empty; lia|done| |by constructor].
  intros _ pid. rewrite elem_of_empty, elem_of_nil. done.
Qed.

Lemma ledger_step_ok l limit es e : ledger_ok l limit es → ledger_ok (ledger_step l e) limit (es ++ [e]).
Proof.
  intros [Hl Hb Hc He Ha]. destruct e as [pid|]; cbn [ledger_step].
  - unfold ledger_record. destruct (_ || _) eqn:Hroom; split; cbn; try done.
    + apply orb_true_iff in Hroom as [Hlt%N.ltb_lt|Hin%bool_decide_eq_true].
      * pose proof (size_union_alt {[pid]} (lg_named l)) as Hs. rewrite Hs, size_singleton.
        pose proof (subseteq_size (lg_named l ∖ {[pid]}) (lg_named l)). assert (size (lg_named l ∖ {[pid]}) ≤ size (lg_named l)) by set_solver. lia.
      * assert ({[pid]} ∪ lg_named l = lg_named l) as -> by set_solver. done.
    + rewrite Hc. unfold len. rewrite length_app. cbn. lia.
    + intros Hen p. unfold named_pids. rewrite omap_app, elem_of_app, elem_of_union, He by done. cbn.
      rewrite list_elem_of_singleton, elem_of_singleton. tauto.
    + intros Hen. apply Forall_app. split; [by apply Ha|by repeat constructor].
    + rewrite Hc. unfold len. rewrite length_app. cbn. lia.
  - split; cbn; try done. rewrite Hc. unfold len. rewrite length_app. cbn. lia.
Qed.
