(* ===== verification/SrtopText.v ===== *)
(** * srtop: text that is safe to publish

    Models [DisplayName] of [apps/srtop/src/source.rs]: a process name or a command
    line is arbitrary bytes, decoded as UTF-8 with replacements, stripped of what
    could fake another row, trimmed and bounded.  A [char] is its code point; a
    [String] is its bytes. *)

From Stdlib Require Import Ascii String ZifyBool.
From S2P Require Import Prelude.
From S2P Require Import SrtopData.

#[local] Open Scope N_scope.

(** ** UTF-8 *)

Definition REPLACEMENT : N := 0xfffd.
Definition ELLIPSIS : N := 0x2026.
Definition scalar (c : N) : bool := (c <? 0xd800) || ((0xe000 <=? c) && (c <=? 0x10ffff)).
Definition within (c lo hi : N) : bool := (lo <=? c) && (c <=? hi).
Definition continuation (b : N) : bool := within b 128 191.

(** [char::encode_utf8] *)
Definition encode_utf8 (c : N) : list N :=
  if c <? 128 then [c]
  else if c <? 2048 then [192 + c / 64; 128 + c mod 64]
  else if c <? 65536 then [224 + c / 4096; 128 + c / 64 mod 64; 128 + c mod 64]
  else [240 + c / 262144; 128 + c / 4096 mod 64; 128 + c / 64 mod 64; 128 + c mod 64].

(** The second bytes a lead byte of three or four allows, and one step of decoding:
    the character, if the bytes are one, and how many bytes after the first the
    character, or the longest prefix of one, takes. *)
Definition second_of_three (b b1 : N) : bool :=
  if b =? 224 then within b1 160 191 else if b =? 237 then within b1 128 159 else continuation b1.
Definition second_of_four (b b1 : N) : bool :=
  if b =? 240 then within b1 144 191 else if b =? 244 then within b1 128 143 else continuation b1.
Definition decode_step (b : N) (rest : list N) : option N * nat :=
  let at_ i := default 0 (rest !! i) in
  if b <? 128 then (Some b, 0%nat)
  else if within b 194 223 then
    if continuation (at_ 0%nat) then (Some ((b - 192) * 64 + (at_ 0%nat - 128)), 1%nat) else (None, 0%nat)
  else if within b 224 239 then
    if second_of_three b (at_ 0%nat) then
      if continuation (at_ 1%nat)
      then (Some ((b - 224) * 4096 + (at_ 0%nat - 128) * 64 + (at_ 1%nat - 128)), 2%nat) else (None, 1%nat)
    else (None, 0%nat)
  else if within b 240 244 then
    if second_of_four b (at_ 0%nat) then
      if continuation (at_ 1%nat) then
        if continuation (at_ 2%nat)
        then (Some ((b - 240) * 262144 + (at_ 0%nat - 128) * 4096 + (at_ 1%nat - 128) * 64 + (at_ 2%nat - 128)), 3%nat)
        else (None, 2%nat)
      else (None, 1%nat)
    else (None, 0%nat)
  else (None, 0%nat).

(** The characters of bytes, [None] for each maximal sequence that is not one;
    [String::from_utf8_lossy], and [str::from_utf8]. *)
Fixpoint decode_utf8 (fuel : nat) (bytes : list N) : list (option N) :=
  match fuel, bytes with
  | S fuel, b :: rest => let '(c, n) := decode_step b rest in c :: decode_utf8 fuel (drop n rest)
  | _, _ => []
  end.
Definition from_utf8_lossy (bytes : list N) : list N := default REPLACEMENT <$> decode_utf8 (length bytes) bytes.
Definition from_utf8 (bytes : list N) : option (list N) := mapM id (decode_utf8 (length bytes) bytes).

(** A string and its bytes, or its characters. *)
Definition string_of_bytes (bytes : list N) : string := foldr (λ b s, String (ascii_of_N b) s) EmptyString bytes.
Definition bytes_of_string (s : string) : list N := N_of_ascii <$> list_ascii_of_string s.
Definition encode_chars (chars : list N) : list N := concat (encode_utf8 <$> chars).
Definition string_of_chars (chars : list N) : string := string_of_bytes (encode_chars chars).
Definition chars_of_string (s : string) : list N := from_utf8_lossy (bytes_of_string s).

(** ** What a row may show *)

(** [char::is_control] and [char::is_whitespace] *)
Definition is_control (c : N) : bool := (c <=? 31) || within c 127 159.
Definition in_ranges (ranges : list (N * N)) (c : N) : bool := existsb (λ r : N * N, within c r.1 r.2) ranges.
Definition is_whitespace (c : N) : bool :=
  in_ranges [(0x9, 0xd); (0x20, 0x20); (0x85, 0x85); (0xa0, 0xa0); (0x1680, 0x1680); (0x2000, 0x200a); (0x2028, 0x2029); (0x202f, 0x202f);
    (0x205f, 0x205f); (0x3000, 0x3000)] c.

(** [DisplayName::is_unsafe] and [DisplayName::is_space_separator] *)
Definition UNSAFE : list (N * N) :=
  [(0xad, 0xad); (0x600, 0x605); (0x61c, 0x61c); (0x6dd, 0x6dd); (0x70f, 0x70f); (0x890, 0x891); (0x8e2, 0x8e2); (0x200b, 0x200f);
   (0x202a, 0x202e); (0x2060, 0x206f); (0xfeff, 0xfeff); (0xfff0, 0xfffb); (0x110bd, 0x110bd); (0x110cd, 0x110cd); (0x13430, 0x1345f);
   (0x1bca0, 0x1bca3); (0x1d173, 0x1d17a); (0x1d159, 0x1d159); (0xe0000, 0xe0fff); (0x2028, 0x2029); (0x34f, 0x34f); (0x115f, 0x1160);
   (0x17b4, 0x17b5); (0x180b, 0x180f); (0x2800, 0x2800); (0x3164, 0x3164); (0xfe00, 0xfe0f); (0xffa0, 0xffa0); (0xfffc, 0xfffc);
   (0x1107f, 0x1107f); (0x16fe4, 0x16fe4)].
Definition is_unsafe (c : N) : bool := is_control c || in_ranges UNSAFE c.
Definition is_space_separator (c : N) : bool :=
  in_ranges [(0xa0, 0xa0); (0x1680, 0x1680); (0x2000, 0x200a); (0x202f, 0x202f); (0x205f, 0x205f); (0x3000, 0x3000)] c.

(** [str::trim] *)
Fixpoint trim_start (chars : list N) : list N :=
  match chars with
  | c :: rest => if is_whitespace c then trim_start rest else chars
  | [] => []
  end.
Definition trim_end (chars : list N) : list N := reverse (trim_start (reverse chars)).
Definition trim_chars (chars : list N) : list N := trim_end (trim_start chars).

Definition MAX_DISPLAY_NAME_CHARS : nat := 128.
Definition UNNAMED_PROCESS : string := "(unnamed)".
Definition MAX_COMMAND_TEXT_BYTES : N := 512.

(** The character a row shows for one of the source. *)
Definition clean_char (c : N) : N := if is_space_separator c then 32 else if is_unsafe c then REPLACEMENT else c.

(** The loops of [sanitize] and [sanitize_command], and whether each was cut. *)
Fixpoint clean_name (n : nat) (chars : list N) : list N * bool :=
  match chars, n with
  | [], _ => ([], false)
  | _ :: _, O => ([], true)
  | c :: rest, S n => let '(name, truncated) := clean_name n rest in (clean_char c :: name, truncated)
  end.
Definition len_utf8 (c : N) : N := len (encode_utf8 c).
Fixpoint clean_command (spent : N) (chars : list N) : list N * bool :=
  match chars with
  | [] => ([], false)
  | c :: rest =>
      if MAX_COMMAND_TEXT_BYTES <? spent + len_utf8 c then ([], true)
      else let '(command, truncated) := clean_command (spent + len_utf8 c) rest in (clean_char c :: command, truncated)
  end.
Definition cut_text (text : list N * bool) : list N := text.1 ++ if text.2 : bool then [ELLIPSIS] else [].

(** [DisplayName::sanitize], [sanitize_command] and [with_command] *)
Definition sanitize (raw : list N) : DisplayName :=
  let name := cut_text (clean_name MAX_DISPLAY_NAME_CHARS (from_utf8_lossy raw)) in
  let trimmed := trim_chars name in
  mkDisplayName (match trimmed with [] => UNNAMED_PROCESS | _ => string_of_chars trimmed end) None.
Definition sanitize_command (raw : list N) : option string :=
  match trim_chars (cut_text (clean_command 0 (from_utf8_lossy raw))) with
  | [] => None
  | trimmed => Some (string_of_chars trimmed)
  end.
Definition with_command (name : DisplayName) (command : list N) : DisplayName :=
  mkDisplayName (dn_text name) (sanitize_command command).

Example sanitize_ex :
  sanitize (bytes_of_string "  (sd-pam) " ++ [27; 91; 226; 128; 174; 255]) =
    mkDisplayName ("(sd-pam) " +:+ string_of_chars [REPLACEMENT; 91; REPLACEMENT; REPLACEMENT]) None.
Proof. vm_compute. reflexivity. Qed.

(** ** Encoding and decoding *)

#[local] Ltac Zify.zify_post_hook ::= Z.to_euclidean_division_equations.

Lemma scalar_bounds c : scalar c = true ↔ (c < 0xd800 ∨ 0xe000 ≤ c ≤ 0x10ffff).
Proof. unfold scalar. rewrite orb_true_iff, andb_true_iff, N.ltb_lt, !N.leb_le. done. Qed.

(** The bytes of a character by their digits to the base 64. *)
Lemma encode_two x z : 2 ≤ x < 32 → z < 64 → encode_utf8 (64 * x + z) = [192 + x; 128 + z].
Proof.
  intros Hx Hz. unfold encode_utf8. assert (64 * x + z <? 128 = false) as -> by lia. assert (64 * x + z <? 2048 = true) as -> by lia.
  by replace ((64 * x + z) / 64) with x by lia; replace ((64 * x + z) mod 64) with z by lia.
Qed.
Lemma encode_three x y z : x < 16 → y < 64 → z < 64 → 2048 ≤ 4096 * x + 64 * y + z →
  encode_utf8 (4096 * x + 64 * y + z) = [224 + x; 128 + y; 128 + z].
Proof.
  intros Hx Hy Hz Hlo. unfold encode_utf8. set (c := 4096 * x + 64 * y + z) in *.
  assert (c <? 128 = false) as -> by lia. assert (c <? 2048 = false) as -> by lia. assert (c <? 65536 = true) as -> by lia.
  replace (c / 4096) with x by lia. replace (c / 64) with (64 * x + y) by lia. replace (c mod 64) with z by lia.
  by replace ((64 * x + y) mod 64) with y by lia.
Qed.
Lemma encode_four w x y z : w < 8 → x < 64 → y < 64 → z < 64 → 65536 ≤ 262144 * w + 4096 * x + 64 * y + z →
  encode_utf8 (262144 * w + 4096 * x + 64 * y + z) = [240 + w; 128 + x; 128 + y; 128 + z].
Proof.
  intros Hw Hx Hy Hz Hlo. unfold encode_utf8. set (c := 262144 * w + 4096 * x + 64 * y + z) in *.
  assert (c <? 128 = false) as -> by lia. assert (c <? 2048 = false) as -> by lia. assert (c <? 65536 = false) as -> by lia.
  replace (c / 262144) with w by lia. replace (c / 4096) with (64 * w + x) by lia. replace (c / 64) with (4096 * w + 64 * x + y) by lia.
  replace (c mod 64) with z by lia. replace ((64 * w + x) mod 64) with x by lia. by replace ((4096 * w + 64 * x + y) mod 64) with y by lia.
Qed.

Lemma decode_encode_step c rest : scalar c = true →
  ∃ b tl, encode_utf8 c = b :: tl ∧ decode_step b (tl ++ rest) = (Some c, length tl).
Proof.
  rewrite scalar_bounds. intros Hc.
  destruct (decide (c < 128)) as [H1|H1].
  { exists c, []. unfold encode_utf8, decode_step. by assert (c <? 128 = true) as -> by lia. }
  destruct (decide (c < 2048)) as [H2|H2].
  { rewrite (N.div_mod c 64), encode_two by lia. eexists _, _. split; [done|]. set (x := c / 64) in *. set (z := c mod 64) in *.
    assert (2 ≤ x < 32 ∧ z < 64) by lia. clearbody x z. unfold decode_step, continuation, within. cbn -[N.add N.sub N.mul N.leb N.ltb].
    repeat case_match; try lia; do 2 f_equal; lia. }
  destruct (decide (c < 65536)) as [H3|H3].
  { assert (c = 4096 * (c / 4096) + 64 * (c / 64 mod 64) + c mod 64) as Heq by lia.
    rewrite Heq, encode_three by lia. eexists _, _. split; [done|].
    set (x := c / 4096) in *. set (y := c / 64 mod 64) in *. set (z := c mod 64) in *.
    assert (x < 16 ∧ y < 64 ∧ z < 64) by lia. clearbody x y z. unfold decode_step, second_of_three, continuation, within. cbn -[N.add N.sub N.mul N.leb N.ltb N.eqb].
    repeat case_match; try lia; do 2 f_equal; lia. }
  assert (c = 262144 * (c / 262144) + 4096 * (c / 4096 mod 64) + 64 * (c / 64 mod 64) + c mod 64) as Heq by lia.
  rewrite Heq, encode_four by lia. eexists _, _. split; [done|].
  set (w := c / 262144) in *. set (x := c / 4096 mod 64) in *. set (y := c / 64 mod 64) in *. set (z := c mod 64) in *.
  assert (w < 5 ∧ x < 64 ∧ y < 64 ∧ z < 64) by lia. clearbody w x y z. unfold decode_step, second_of_four, continuation, within.
  cbn -[N.add N.sub N.mul N.leb N.ltb N.eqb]. repeat case_match; try lia; do 2 f_equal; lia.
Qed.
Lemma decode_step_scalar b rest c n : decode_step b rest = (Some c, n) → scalar c = true.
Proof.
  unfold decode_step, second_of_three, second_of_four, continuation, within. intros Heq. apply scalar_bounds.
  repeat case_match; simplify_eq; lia.
Qed.

Lemma decode_utf8_encode chars : Forall (λ c, scalar c = true) chars → ∀ fuel, (length (encode_chars chars) ≤ fuel)%nat →
  decode_utf8 fuel (encode_chars chars) = Some <$> chars.
Proof.
  unfold encode_chars. induction 1 as [|c chars Hc _ IH]; intros fuel Hf; [by destruct fuel|].
  destruct (decode_encode_step c (concat (encode_utf8 <$> chars)) Hc) as (b & tl & Heq & Hstep).
  cbn [fmap list_fmap concat] in Hf |- *. rewrite Heq in Hf |- *. rewrite length_app in Hf. cbn [length] in Hf. destruct fuel as [|fuel]; [lia|].
  cbn [app decode_utf8]. rewrite Hstep, drop_app_length. f_equal. apply IH. lia.
Qed.
Lemma decode_utf8_scalar fuel : ∀ bytes c, Some c ∈ decode_utf8 fuel bytes → scalar c = true.
Proof.
  induction fuel as [|fuel IH]; intros bytes c; cbn [decode_utf8]; [by intros ?%elem_of_nil|].
  destruct bytes as [|b rest]; [by intros ?%elem_of_nil|]. destruct (decode_step b rest) as [o n] eqn:Hstep.
  intros [Heq|Hin]%elem_of_cons; [|by eapply IH]. subst o. by eapply decode_step_scalar.
Qed.

Lemma from_utf8_lossy_scalar bytes : Forall (λ c, scalar c = true) (from_utf8_lossy bytes).
Proof.
  apply Forall_forall. intros c ([c'|] & -> & Hin)%list_elem_of_fmap; [by apply decode_utf8_scalar in Hin|reflexivity].
Qed.
Lemma from_utf8_lossy_encode chars : Forall (λ c, scalar c = true) chars → from_utf8_lossy (encode_chars chars) = chars.
Proof.
  intros Hc. unfold from_utf8_lossy. rewrite decode_utf8_encode by done. rewrite <- list_fmap_compose. apply list_fmap_id.
Qed.

Lemma bytes_of_string_of_bytes bytes : Forall (λ b, b < 256) bytes → bytes_of_string (string_of_bytes bytes) = bytes.
Proof.
  unfold bytes_of_string. induction 1 as [|b bytes Hb _ IH]; [done|]. cbn. rewrite N_ascii_embedding by done. f_equal. exact IH.
Qed.
Lemma encode_bytes c : scalar c = true → Forall (λ b, b < 256) (encode_utf8 c).
Proof.
  rewrite scalar_bounds. intros Hc. unfold encode_utf8. repeat case_match; repeat constructor; lia.
Qed.
Lemma encode_chars_bytes chars : Forall (λ c, scalar c = true) chars → Forall (λ b, b < 256) (encode_chars chars).
Proof. unfold encode_chars. intros Hc. apply Forall_concat, Forall_fmap. eapply Forall_impl; [exact Hc|]. intros c. apply encode_bytes. Qed.
Lemma chars_of_string_of_chars chars : Forall (λ c, scalar c = true) chars → chars_of_string (string_of_chars chars) = chars.
Proof.
  intros Hc. unfold chars_of_string, string_of_chars. by rewrite bytes_of_string_of_bytes, from_utf8_lossy_encode by auto using encode_chars_bytes.
Qed.

(** ** Safe text *)

(** *** What must not be shown

    The sets that the comment of [is_unsafe] names, written down from the Unicode
    Character Database (version 16) and not from the code: the control characters
    (Cc), the format characters (Cf), the property [Default_Ignorable_Code_Point],
    the line and paragraph separators (Zl, Zp), the block Egyptian Hieroglyph Format
    Controls, and the blank glyphs of ordinary categories: the braille blank, the
    musical null notehead, the object replacement character, the Brahmi number
    joiner and the Khitan filler. *)
Definition CONTROL : list (N * N) := [(0x0, 0x1f); (0x7f, 0x9f)].
Definition FORMAT : list (N * N) :=
  [(0xad, 0xad); (0x600, 0x605); (0x61c, 0x61c); (0x6dd, 0x6dd); (0x70f, 0x70f); (0x890, 0x891); (0x8e2, 0x8e2); (0x180e, 0x180e);
   (0x200b, 0x200f); (0x202a, 0x202e); (0x2060, 0x2064); (0x2066, 0x206f); (0xfeff, 0xfeff); (0xfff9, 0xfffb); (0x110bd, 0x110bd);
   (0x110cd, 0x110cd); (0x13430, 0x1343f); (0x1bca0, 0x1bca3); (0x1d173, 0x1d17a); (0xe0001, 0xe0001); (0xe0020, 0xe007f)].
Definition DEFAULT_IGNORABLE : list (N * N) :=
  [(0xad, 0xad); (0x34f, 0x34f); (0x61c, 0x61c); (0x115f, 0x1160); (0x17b4, 0x17b5); (0x180b, 0x180d); (0x180e, 0x180e); (0x180f, 0x180f);
   (0x200b, 0x200f); (0x202a, 0x202e); (0x2060, 0x2064); (0x2065, 0x2065); (0x2066, 0x206f); (0x3164, 0x3164); (0xfe00, 0xfe0f);
   (0xfeff, 0xfeff); (0xffa0, 0xffa0); (0xfff0, 0xfff8); (0x1bca0, 0x1bca3); (0x1d173, 0x1d17a); (0xe0000, 0xe0fff)].
Definition LINE_SEPARATOR : list (N * N) := [(0x2028, 0x2028); (0x2029, 0x2029)].
Definition EGYPTIAN_FORMAT_CONTROLS : list (N * N) := [(0x13430, 0x1345f)].
Definition BLANK_GLYPH : list (N * N) := [(0x2800, 0x2800); (0x1d159, 0x1d159); (0xfffc, 0xfffc); (0x1107f, 0x1107f); (0x16fe4, 0x16fe4)].
Definition FORBIDDEN : list (N * N) :=
  CONTROL ++ FORMAT ++ DEFAULT_IGNORABLE ++ LINE_SEPARATOR ++ EGYPTIAN_FORMAT_CONTROLS ++ BLANK_GLYPH.

(** A character a row may show, and text that does not begin or end with blanks. *)
Definition safe_char (c : N) : Prop :=
  scalar c = true ∧ in_ranges FORBIDDEN c = false ∧ (is_whitespace c = true → c = 32).

(** Whether every code point of some ranges is one of others. *)
Definition range_points (r : N * N) : list N := (λ k, r.1 + N.of_nat k) <$> seq 0 (N.to_nat (r.2 - r.1 + 1)).
Definition ranges_within (inner outer : list (N * N)) : bool :=
  forallb (λ r, forallb (in_ranges outer) (range_points r)) inner.
Lemma ranges_within_spec inner outer c : ranges_within inner outer = true → in_ranges inner c = true → in_ranges outer c = true.
Proof.
  unfold ranges_within, in_ranges at 2. rewrite forallb_forall, existsb_exists. intros Hall (r & Hin & Hw).
  specialize (Hall r Hin). rewrite forallb_forall in Hall. apply Hall. apply list_elem_of_In, list_elem_of_fmap.
  unfold within in Hw. exists (N.to_nat (c - r.1)). split; [lia|]. apply elem_of_seq. lia.
Qed.
(** The code's table is these sets, neither more nor less. *)
Lemma is_unsafe_forbidden c : is_unsafe c = in_ranges FORBIDDEN c.
Proof.
  assert (is_unsafe c = in_ranges (CONTROL ++ UNSAFE) c) as ->.
  { assert (is_control c = within c 0 0x1f || within c 0x7f 0x9f) as Hc by (unfold is_control, within; lia).
    unfold is_unsafe, in_ranges. rewrite existsb_app, Hc. cbn [CONTROL existsb fst snd]. by rewrite orb_false_r. }
  apply eq_true_iff_eq. split; apply ranges_within_spec; vm_compute; reflexivity.
Qed.
Definition tidy (chars : list N) : Prop :=
  (∀ c, head chars = Some c → is_whitespace c = false) ∧ (∀ c, last chars = Some c → is_whitespace c = false).

Lemma trim_start_spec chars : (∃ blanks, chars = blanks ++ trim_start chars) ∧
  ∀ c, head (trim_start chars) = Some c → is_whitespace c = false.
Proof.
  induction chars as [|c chars [[blanks Hb] Hh]]; cbn [trim_start]; [split; [by exists []|done]|].
  destruct (is_whitespace c) eqn:Hc; [|split; [by exists []|by intros ? [= <-]]].
  split; [|done]. exists (c :: blanks). cbn. by rewrite <- Hb.
Qed.
Lemma trim_start_id chars : (∀ c, head chars = Some c → is_whitespace c = false) → trim_start chars = chars.
Proof. destruct chars as [|c chars]; [done|]. intros Hh. cbn [trim_start]. by rewrite (Hh c eq_refl). Qed.
Lemma head_reverse {A} (l : list A) : head (reverse l) = last l.
Proof. by rewrite <- (reverse_involutive l) at 2; rewrite last_reverse. Qed.
Lemma trim_end_spec chars : (∃ blanks, chars = trim_end chars ++ blanks) ∧
  ∀ c, last (trim_end chars) = Some c → is_whitespace c = false.
Proof.
  unfold trim_end. destruct (trim_start_spec (reverse chars)) as [[blanks Hb] Hh]. split.
  - exists (reverse blanks). by rewrite <- reverse_app, <- Hb, reverse_involutive.
  - intros c. rewrite last_reverse. apply Hh.
Qed.
Lemma trim_chars_tidy chars : tidy (trim_chars chars).
Proof.
  unfold trim_chars. destruct (trim_start_spec chars) as [_ Hh]. destruct (trim_end_spec (trim_start chars)) as [[blanks Hb] Hl].
  split; [|done]. intros c Hc. apply Hh. rewrite Hb. by destruct (trim_end (trim_start chars)).
Qed.
Lemma trim_chars_id chars : tidy chars → trim_chars chars = chars.
Proof.
  intros [Hh Hl]. unfold trim_chars, trim_end. rewrite (trim_start_id chars Hh), trim_start_id, reverse_involutive; [done|].
  intros c. rewrite head_reverse. apply Hl.
Qed.
Lemma trim_chars_infix chars : ∃ before after, chars = before ++ trim_chars chars ++ after.
Proof.
  unfold trim_chars. destruct (trim_start_spec chars) as [[before Hb] _]. destruct (trim_end_spec (trim_start chars)) as [[after Ha] _].
  exists before, after. rewrite <- Ha. exact Hb.
Qed.

Lemma in_ranges_false ranges c lo hi : in_ranges ranges c = false → (lo, hi) ∈ ranges → within c lo hi = false.
Proof.
  intros Hf Hin. destruct (within c lo hi) eqn:Hw; [|done]. rewrite <- Hf. symmetry. apply existsb_exists.
  exists (lo, hi). split; [by apply list_elem_of_In|done].
Qed.
Lemma clean_safe c : scalar c = true → safe_char (clean_char c).
Proof.
  intros Hc. unfold clean_char. destruct (is_space_separator c) eqn:Hs; [by split_and!|].
  destruct (is_unsafe c) eqn:Hu; [by split_and!|]. split_and!; [done|by rewrite <- is_unsafe_forbidden|].
  assert (is_control c = false ∧ within c 0x2028 0x2029 = false) as [Hctl Hsep].
  { unfold is_unsafe in Hu. apply orb_false_iff in Hu as [? Hu]. split; [done|]. apply (in_ranges_false _ _ _ _ Hu). do 19 right. left. }
  unfold is_whitespace, is_space_separator, is_control, in_ranges, within in *. cbn [existsb fst snd] in *. lia.
Qed.
Lemma clean_id c : safe_char c → clean_char c = c.
Proof.
  intros (_ & Hu & Hw). rewrite <- is_unsafe_forbidden in Hu. unfold clean_char. rewrite Hu. destruct (is_space_separator c) eqn:Hs; [|done].
  symmetry. apply Hw. unfold is_whitespace, is_space_separator, in_ranges, within in *. cbn [existsb fst snd] in *. lia.
Qed.

Lemma clean_name_spec n chars : clean_name n chars = (clean_char <$> take n chars, (n <? length chars)%nat).
Proof.
  revert n. induction chars as [|c chars IH]; intros [|n]; cbn [clean_name take length fmap list_fmap]; [done..|].
  by rewrite IH.
Qed.
(** A command is cut before the first character that does not fit. *)
Lemma clean_command_spec chars : ∀ spent, spent ≤ MAX_COMMAND_TEXT_BYTES → ∃ n,
  clean_command spent chars = (clean_char <$> take n chars, (n <? length chars)%nat) ∧
  spent + len (encode_chars (take n chars)) ≤ MAX_COMMAND_TEXT_BYTES ∧
  (∀ c, chars !! n = Some c → MAX_COMMAND_TEXT_BYTES < spent + len (encode_chars (take n chars)) + len_utf8 c).
Proof.
  assert (∀ (c : N) rest, len (encode_chars (take 0 (c :: rest))) = 0) as Hnone by done.
  induction chars as [|c chars IH]; intros spent Hs; cbn [clean_command].
  { exists 0%nat. split; [done|]. split; [change (len (encode_chars (take 0 _))) with 0; lia|done]. }
  destruct (N.ltb_spec MAX_COMMAND_TEXT_BYTES (spent + len_utf8 c)) as [Hgt|Hle].
  { exists 0%nat. rewrite Hnone. split; [done|]. split; [lia|]. intros ? [= <-]. lia. }
  destruct (IH (spent + len_utf8 c) Hle) as (n & Hn & Hlen & Hnext). exists (S n). rewrite Hn.
  assert (len (encode_chars (take (S n) (c :: chars))) = len_utf8 c + len (encode_chars (take n chars))) as Hcons
    by (unfold encode_chars, len_utf8; cbn; by rewrite len_app).
  rewrite Hcons. split; [done|]. split; [lia|]. intros c' Hc'. specialize (Hnext c' Hc'). lia.
Qed.

(** ** What sanitising gives *)

Lemma safe_scalar chars : Forall safe_char chars → Forall (λ c, scalar c = true) chars.
Proof. intros H. eapply Forall_impl; [exact H|]. by intros c [? _]. Qed.
Lemma cleaned_safe chars : Forall (λ c, scalar c = true) chars → Forall safe_char (clean_char <$> chars).
Proof. intros H. apply Forall_fmap. eapply Forall_impl; [exact H|]. intros c. apply clean_safe. Qed.
Lemma cleaned_id chars : Forall safe_char chars → clean_char <$> chars = chars.
Proof. induction 1 as [|c chars Hc _ IH]; [done|]. cbn [fmap list_fmap]. by rewrite clean_id, IH. Qed.
Lemma cut_safe text : Forall safe_char text.1 → Forall safe_char (cut_text text).
Proof. intros H. apply Forall_app. split; [done|]. destruct (text.2); by repeat constructor. Qed.
Lemma trimmed_safe chars : Forall safe_char chars → Forall safe_char (trim_chars chars).
Proof.
  destruct (trim_chars_infix chars) as (before & after & Heq). intros H. rewrite Heq in H.
  apply Forall_app in H as [_ H]. by apply Forall_app in H as [H _].
Qed.
Lemma name_chars_safe raw : Forall safe_char (cut_text (clean_name MAX_DISPLAY_NAME_CHARS (from_utf8_lossy raw))).
Proof. apply cut_safe. rewrite clean_name_spec. apply cleaned_safe, Forall_take, from_utf8_lossy_scalar. Qed.

(** Safe and tidy text sanitises to itself, whether or not it has been cut before. *)
Lemma sanitize_id chars : Forall safe_char chars → tidy chars → chars ≠ [] →
  (length chars ≤ MAX_DISPLAY_NAME_CHARS)%nat ∨ chars = take MAX_DISPLAY_NAME_CHARS chars ++ [ELLIPSIS] →
  sanitize (bytes_of_string (string_of_chars chars)) = mkDisplayName (string_of_chars chars) None.
Proof.
  intros Hs Ht Hne Hlen. unfold sanitize. fold (chars_of_string (string_of_chars chars)).
  rewrite chars_of_string_of_chars by by apply safe_scalar. rewrite clean_name_spec, (cleaned_id (take _ _)) by by apply Forall_take.
  assert (cut_text (take MAX_DISPLAY_NAME_CHARS chars, (MAX_DISPLAY_NAME_CHARS <? length chars)%nat) = chars) as ->.
  { unfold cut_text. cbn [fst snd]. destruct Hlen as [Hlen|Hcut].
    - rewrite (proj2 (Nat.ltb_ge _ _)) by done. by rewrite app_nil_r, take_ge.
    - rewrite (proj2 (Nat.ltb_lt _ _)); [by rewrite <- Hcut|]. apply (f_equal length) in Hcut. rewrite length_app, length_take in Hcut. cbn [length] in Hcut. lia. }
  rewrite trim_chars_id by done. by destruct chars.
Qed.

Lemma trimmed_name raw (chars := trim_chars (cut_text (clean_name MAX_DISPLAY_NAME_CHARS (from_utf8_lossy raw)))) :
  (length chars ≤ MAX_DISPLAY_NAME_CHARS)%nat ∨ chars = take MAX_DISPLAY_NAME_CHARS chars ++ [ELLIPSIS].
Proof.
  unfold chars. rewrite clean_name_spec. set (kept := clean_char <$> take MAX_DISPLAY_NAME_CHARS (from_utf8_lossy raw)).
  assert (length kept ≤ MAX_DISPLAY_NAME_CHARS)%nat as Hk by (unfold kept; rewrite length_fmap, length_take; lia). clearbody kept.
  unfold cut_text. cbn [fst snd]. destruct (_ <? _)%nat.
  - destruct (trim_chars_infix (kept ++ [ELLIPSIS])) as (before & after & Heq). pose proof (f_equal length Heq) as Hl.
    rewrite !length_app in Hl. cbn [length] in Hl. set (trimmed := trim_chars (kept ++ [ELLIPSIS])) in *. clearbody trimmed.
    destruct (decide (length trimmed ≤ MAX_DISPLAY_NAME_CHARS)%nat) as [?|Hlong]; [by left|right].
    destruct before; [|cbn in Hl; lia]. destruct after; [|cbn in Hl; lia]. rewrite app_nil_r in Heq. cbn in Heq. rewrite <- Heq.
    f_equal. rewrite take_app_length'; [done|]. cbn in Hl. lia.
  - left. rewrite app_nil_r. destruct (trim_chars_infix kept) as (before & after & Heq). apply (f_equal length) in Heq.
    rewrite !length_app in Heq. lia.
Qed.

(** What [sanitize] and [sanitize_command] promise of a text: its characters. *)
Record publishable_text (text : string) (chars : list N) : Prop := {
  pt_chars : chars_of_string text = chars;
  pt_utf8 : string_of_chars chars = text;
  pt_some : chars ≠ [];
  pt_safe : Forall safe_char chars;
  pt_tidy : tidy chars;
}.
Lemma publishable_chars chars : chars ≠ [] → Forall safe_char chars → tidy chars → publishable_text (string_of_chars chars) chars.
Proof. intros Hne Hs Ht. split; try done. by apply chars_of_string_of_chars, safe_scalar. Qed.
Lemma unnamed_publishable : publishable_text UNNAMED_PROCESS (bytes_of_string UNNAMED_PROCESS).
Proof.
  split; [vm_compute; reflexivity|vm_compute; reflexivity|done| |].
  - repeat (apply Forall_cons_2; [split_and!; [vm_compute; reflexivity|vm_compute; reflexivity|vm_compute; discriminate]|]). apply Forall_nil_2.
  - split; intros c Hc; vm_compute in Hc; injection Hc as <-; reflexivity.
Qed.

Lemma sanitize_spec raw : ∃ chars, publishable_text (dn_text (sanitize raw)) chars ∧ (length chars ≤ S MAX_DISPLAY_NAME_CHARS)%nat ∧
  sanitize (bytes_of_string (dn_text (sanitize raw))) = sanitize raw ∧ dn_command (sanitize raw) = None.
Proof.
  pose proof (trimmed_name raw) as Hlen. pose proof (trimmed_safe _ (name_chars_safe raw)) as Hs.
  pose proof (trim_chars_tidy (cut_text (clean_name MAX_DISPLAY_NAME_CHARS (from_utf8_lossy raw)))) as Ht.
  unfold sanitize at 1 3 4 5. set (chars := trim_chars _) in *. clearbody chars. destruct chars as [|c chars].
  - exists (bytes_of_string UNNAMED_PROCESS). split_and!; [apply unnamed_publishable|vm_compute; lia|vm_compute; reflexivity|done].
  - exists (c :: chars). split_and!; [by apply publishable_chars| |by apply sanitize_id|done].
    destruct Hlen as [?|Heq]; [lia|]. rewrite Heq, length_app, length_take. cbn [length]. lia.
Qed.

Lemma encode_chars_app a b : encode_chars (a ++ b) = encode_chars a ++ encode_chars b.
Proof. unfold encode_chars. by rewrite fmap_app, concat_app. Qed.

Lemma take_next {A} n (l : list A) x rest : l = take n l ++ x :: rest → l !! n = Some x.
Proof.
  intros Heq. assert (length (take n l) = n) as Hn.
  { apply (f_equal length) in Heq. rewrite length_app in Heq. rewrite length_take in *. cbn in Heq. lia. }
  rewrite Heq, lookup_app_r by lia. by rewrite Hn, Nat.sub_diag.
Qed.

(** How a command is read from the characters [source]: the longest prefix that
    takes at most [max] bytes. *)
Record command_prefix (max : N) (chars source : list N) (cut : bool) : Prop := {
  cp_prefix : ∃ rest, chars = source ++ rest ∧ cut = negb (bool_decide (rest = []));
  cp_bound : len (encode_chars source) ≤ max;
  cp_longest : ∀ c rest, chars = source ++ c :: rest → max < len (encode_chars (source ++ [c]));
}.

Lemma sanitize_command_spec raw : ∃ source cut (shown := trim_chars ((clean_char <$> source) ++ if cut : bool then [ELLIPSIS] else [])),
  command_prefix 512 (from_utf8_lossy raw) source cut ∧
  sanitize_command raw = (if decide (shown = []) then None else Some (string_of_chars shown)) ∧
  (shown ≠ [] → publishable_text (string_of_chars shown) shown) ∧
  (Forall safe_char source → len (encode_chars shown) ≤ 512 + len_utf8 ELLIPSIS).
Proof.
  destruct (clean_command_spec (from_utf8_lossy raw) 0) as (n & Hn & Hlen & Hnext); [vm_compute; discriminate|].
  set (chars := from_utf8_lossy raw) in *. set (source := take n chars) in *. set (cut := (n <? length chars)%nat) in *.
  exists source, cut. set (shown := trim_chars _). cbn zeta.
  assert (Forall (λ c, scalar c = true) source) as Hsc by apply Forall_take, from_utf8_lossy_scalar.
  assert (sanitize_command raw = if decide (shown = []) then None else Some (string_of_chars shown)) as Heq.
  { unfold sanitize_command. fold chars. rewrite Hn. unfold cut_text. cbn [fst snd]. fold shown. by destruct shown. }
  split_and!; [|exact Heq| |].
  - split; [|exact Hlen|].
    + exists (drop n chars). split; [symmetry; apply take_drop|]. unfold cut.
      destruct (Nat.ltb_spec n (length chars)) as [Hlt|Hge]; case_bool_decide as Hd; try done.
      * apply (f_equal length) in Hd. rewrite length_drop in Hd. cbn in Hd. lia.
      * by rewrite drop_ge in Hd.
    + intros c rest Heq'. rewrite encode_chars_app, len_app. specialize (Hnext c).
      specialize (Hnext (take_next _ _ _ _ Heq')).
      assert (len (encode_chars [c]) = len_utf8 c) as -> by (unfold encode_chars, len_utf8; cbn; by rewrite app_nil_r).
      unfold MAX_COMMAND_TEXT_BYTES in *. lia.
  - intros Hne. apply publishable_chars; [done| |apply trim_chars_tidy].
    apply trimmed_safe. exact (cut_safe (clean_char <$> source, cut) (cleaned_safe _ Hsc)).
  - intros Hsafe. unfold shown. rewrite cleaned_id by done.
    destruct (trim_chars_infix (source ++ if cut then [ELLIPSIS] else [])) as (before & after & Hinf).
    apply (f_equal (λ l, len (encode_chars l))) in Hinf. rewrite !encode_chars_app, !len_app in Hinf.
    assert (len (encode_chars (if cut then [ELLIPSIS] else [])) ≤ len_utf8 ELLIPSIS) by (destruct cut; vm_compute; discriminate).
    unfold MAX_COMMAND_TEXT_BYTES in *. lia.
Qed.

(** The bound of a command is on the text it is read from: what is published for 512
    control characters is three times as long. *)
Example commands_pass_their_bound :
  (λ text, len (bytes_of_string text)) <$> sanitize_command (repeat 1 512) = Some (3 * MAX_COMMAND_TEXT_BYTES).
Proof. vm_compute. reflexivity. Qed.

(** [split] on a separator: one segment more than there are separators. *)
Fixpoint split_on (sep : N → bool) (l : list N) : list (list N) :=
  match l with
  | [] => [[]]
  | x :: l =>
      match split_on sep l with
      | segment :: segments => if sep x then [] :: segment :: segments else (x :: segment) :: segments
      | [] => []
      end
  end.
Fixpoint join_with (sep : list N) (segments : list (list N)) : list N :=
  match segments with
  | [] => []
  | [segment] => segment
  | segment :: segments => segment ++ sep ++ join_with sep segments
  end.

Lemma split_on_some sep l : split_on sep l ≠ [].
Proof. induction l as [|x l IH]; cbn; [done|]. destruct (split_on sep l); [done|by destruct (sep x)]. Qed.
Lemma split_on_none sep l : Forall (λ x, sep x = false) l → split_on sep l = [l].
Proof. induction 1 as [|x l Hx _ IH]; [done|]. cbn. by rewrite IH, Hx. Qed.
Lemma split_on_app sep l x l' : Forall (λ x, sep x = false) l → sep x = true →
  split_on sep (l ++ x :: l') = l :: split_on sep l'.
Proof.
  intros Hl Hx. induction Hl as [|y l Hy _ IH]; cbn.
  - rewrite Hx. destruct (split_on sep l') as [|? ?] eqn:Hs; [by apply split_on_some in Hs|done].
  - by rewrite IH, Hy.
Qed.
Lemma split_on_segments sep l : Forall (Forall (λ x, sep x = false)) (split_on sep l).
Proof.
  induction l as [|x l IH]; cbn; [by repeat constructor|]. destruct (split_on sep l) as [|segment segments]; [done|].
  apply Forall_cons in IH as [? ?]. destruct (sep x) eqn:Hx; repeat constructor; done.
Qed.
Lemma split_on_elem sep l segment x : segment ∈ split_on sep l → x ∈ segment → x ∈ l.
Proof.
  revert segment. induction l as [|y l IH]; intros segment; cbn; [by intros ->%list_elem_of_singleton|].
  destruct (split_on sep l) as [|s segments]; [by intros ?%elem_of_nil|].
  destruct (sep y); intros [->|Hin]%elem_of_cons Hx; [by apply elem_of_nil in Hx|right; by eapply IH| |right; eapply IH; [by right|done]].
  apply elem_of_cons in Hx as [->|Hx]; [by left|right; eapply IH; [by left|done]].
Qed.
