(* ===== verification/SrtopMetric.v ===== *)
(** * srtop: what one published number says

    Models [apps/srtop/src/metric.rs]: every number a row or a summary line shows
    is made of the stored integer by integer arithmetic that truncates.  The
    metric definitions are prose and are left out. *)

From S2P Require Import Prelude.
From S2P Require Import Values.
From S2P Require Import SrtopData.

#[local] Open Scope N_scope.

(** [missing_text] and the constants *)
Definition missing_text (reason : MissingReason) : string :=
  match reason with ReasonUnavailable => "Unavailable" | ReasonDenied => "Denied" end.
Definition CPU_WARMING_UP : string := "Warming up".
Definition MAX_PLAUSIBLE_LOGICAL_CPUS : N := 65536.
Definition MAX_CELL_BYTES : nat := 11.

(** ** Shares *)

(** [cpu_tenths_of_percent] *)
Definition cpu_tenths_of_percent (i : CpuInterval) : option N :=
  if (ci_elapsed i =? 0) || (ci_ticks_per_second i =? 0) then None
  else
    numerator ← checked_mul128 (ci_ticks i) (1000 * 1000000000);
    denominator ← checked_mul128 (ci_ticks_per_second i) (ci_elapsed i);
    let tenths := numerator / denominator in
    if MAX_PLAUSIBLE_LOGICAL_CPUS * 1000 <? tenths then None
    else if tenths <=? u64_max then Some tenths else None.

(** [format_cpu_tenths] and [cpu_cell] *)
Definition format_cpu_tenths (tenths : N) : string :=
  pretty (tenths / 10) +:+ "." +:+ pretty (tenths mod 10) +:+ "%".
Definition cpu_cell (usage : CpuUsage) : string :=
  match usage with
  | Measured interval =>
      match cpu_tenths_of_percent interval with
      | Some tenths => format_cpu_tenths tenths
      | None => missing_text ReasonUnavailable
      end
  | WarmingUp => CPU_WARMING_UP
  | CpuMissing reason => missing_text reason
  end.

(** [share_tenths] *)
Definition share_tenths (part whole : N) : option N :=
  if (whole =? 0) || (whole <? part) then None
  else let tenths := part * 1000 / whole in if tenths <=? u64_max then Some tenths else None.

(** ** Bytes *)

Definition IEC_UNITS : list string := ["B"; "KiB"; "MiB"; "GiB"; "TiB"; "PiB"; "EiB"]%string.

(** The loop of [format_iec_bytes], which stops at the seventh unit. *)
Fixpoint iec_exponent (fuel : nat) (bytes exponent : N) : N :=
  match fuel with
  | O => exponent
  | S fuel =>
      if (exponent + 1 <? 7) && (0 <? N.shiftr bytes ((exponent + 1) * 10))
      then iec_exponent fuel bytes (exponent + 1)
      else exponent
  end.
Definition iec_parts (bytes : N) : N * N * N :=
  let exponent := iec_exponent 7 bytes 0 in
  let shift := exponent * 10 in
  let whole := N.shiftr bytes shift in
  let remainder := bytes - N.shiftl whole shift in
  (exponent, whole, N.shiftr (remainder * 10) shift).
Definition format_iec_bytes (bytes : N) : string :=
  let '(exponent, whole, tenths) := iec_parts bytes in
  let unit := default "" (IEC_UNITS !! N.to_nat exponent) in
  if exponent =? 0 then pretty bytes +:+ " " +:+ unit
  else pretty whole +:+ "." +:+ pretty tenths +:+ " " +:+ unit.
Definition bytes_cell (observed : Observed N) : string :=
  match observed with Known bytes => format_iec_bytes bytes | Missing reason => missing_text reason end.

(** ** Times *)

(** [{:02}] and [{:04}] *)
Fixpoint padded (width : nat) (n : N) : string :=
  match width with
  | O => ""
  | S width => padded width (n / 10) +:+ pretty (n mod 10)
  end.
Definition pad_to (width : nat) (n : N) : string :=
  if n <? 10 ^ N.of_nat width then padded width n else pretty n.

Definition format_hundredths (hundredths : N) : string :=
  pretty (hundredths / 100) +:+ "." +:+ pad_to 2 (hundredths mod 100).

(** [format_uptime] *)
Definition format_uptime (seconds : N) : string :=
  let minutes := seconds / 60 in
  let days := minutes / 1440 in
  let clock := pretty (minutes / 60 mod 24) +:+ " h " +:+ pad_to 2 (minutes mod 60) +:+ " min" in
  if days =? 0 then clock
  else if days =? 1 then "1 day, " +:+ clock
  else pretty days +:+ " days, " +:+ clock.

(** The civil date of [format_utc], of days since 1970-01-01. *)
Definition civil_date (days : N) : N * N * N :=
  let shifted := days + 719468 in
  let era := shifted / 146097 in
  let day_of_era := shifted - era * 146097 in
  let year_of_era := (day_of_era - day_of_era / 1460 + day_of_era / 36524 - day_of_era / 146096) / 365 in
  let day_of_year := day_of_era - (365 * year_of_era + year_of_era / 4 - year_of_era / 100) in
  let month_from_march := (5 * day_of_year + 2) / 153 in
  let day := day_of_year - (153 * month_from_march + 2) / 5 + 1 in
  let month := if month_from_march <? 10 then month_from_march + 3 else month_from_march - 9 in
  let year := year_of_era + era * 400 + (if month <=? 2 then 1 else 0) in
  (year, month, day).

(** [format_utc], of nanoseconds since the epoch *)
Definition format_utc (time : Z) : option string :=
  if (time <? 0)%Z then None
  else
    let seconds := Z.to_N time / 1000000000 in
    let of_day := seconds mod 86400 in
    let '(year, month, day) := civil_date (seconds / 86400) in
    Some (pad_to 4 year +:+ "-" +:+ pad_to 2 month +:+ "-" +:+ pad_to 2 day +:+ " " +:+
          pad_to 2 (of_day / 3600) +:+ ":" +:+ pad_to 2 (of_day / 60 mod 60) +:+ ":" +:+
          pad_to 2 (of_day mod 60) +:+ " UTC")%string.

(** ** The calendar *)

(** The Gregorian calendar: the length of a month, and the day after a date. *)
Definition is_leap (y : N) : bool := (y mod 4 =? 0) && (negb (y mod 100 =? 0) || (y mod 400 =? 0)).
Definition month_length (y m : N) : N :=
  match m with
  | 2 => if is_leap y then 29 else 28
  | 4 | 6 | 9 | 11 => 30
  | _ => 31
  end.
Definition next_day (date : N * N * N) : N * N * N :=
  let '(y, m, d) := date in
  if d <? month_length y m then (y, m, d + 1)
  else if m <? 12 then (y, m + 1, 1)
  else (y + 1, 1, 1).
(** A number in a shape [n = q * b + r] that division by [b] takes apart. *)
Lemma div_shift a b c : b ≠ 0 → (a + c * b) / b = a / b + c.
Proof. intros Hb. by rewrite N.div_add. Qed.

(** Four hundred years are one era of 146097 days. *)
Lemma civil_date_era days : ∀ y m d, civil_date days = (y, m, d) → civil_date (days + 146097) = (y + 400, m, d).
Proof.
  intros y m d. unfold civil_date.
  assert ((days + 146097 + 719468) / 146097 = (days + 719468) / 146097 + 1) as ->.
  { replace (days + 146097 + 719468) with (days + 719468 + 1 * 146097) by lia. by apply div_shift. }
  set (era := (days + 719468) / 146097).
  assert (days + 146097 + 719468 - (era + 1) * 146097 = days + 719468 - era * 146097) as -> by lia.
  set (doe := days + 719468 - era * 146097). cbv zeta. intros [= <- <- <-]. f_equal. f_equal. lia.
Qed.

Lemma leap_era y : is_leap (y + 400) = is_leap y.
Proof.
  unfold is_leap. replace (y + 400) with (y + 100 * 4) by lia. rewrite N.Div0.mod_add.
  replace (y + 100 * 4) with (y + 4 * 100) by lia. rewrite N.Div0.mod_add.
  replace (y + 4 * 100) with (y + 1 * 400) by lia. by rewrite N.Div0.mod_add.
Qed.

Lemma next_day_era y m d : next_day (y + 400, m, d) =
  let '(y', m', d') := next_day (y, m, d) in (y' + 400, m', d').
Proof.
  unfold next_day, month_length. rewrite leap_era.
  destruct (d <? _); [done|]. destruct (m <? 12); [done|]. f_equal. f_equal. lia.
Qed.

(** ** One era

    The years of an era begin in March; year [y] holds the days from
    [year_start y] to before [year_end y]. *)

Definition year_of (doe : N) : N := (doe - doe / 1460 + doe / 36524 - doe / 146096) / 365.
Definition year_start (y : N) : N := 365 * y + y / 4 - y / 100.
Definition year_end (y : N) : N := if y =? 399 then 146097 else year_start (y + 1).

(** Month and day of the day of a year, months counted from March. *)
Definition month_day (doy : N) : N * N :=
  let mfm := (5 * doy + 2) / 153 in
  (if mfm <? 10 then mfm + 3 else mfm - 9, doy - (153 * mfm + 2) / 5 + 1).
Definition date_at (y doy : N) : N * N * N :=
  let '(m, d) := month_day doy in (y + (if m <=? 2 then 1 else 0), m, d).

Lemma civil_date_at days : civil_date days =
  let shifted := days + 719468 in
  let era := shifted / 146097 in
  let doe := shifted mod 146097 in
  date_at (year_of doe + era * 400) (doe - year_start (year_of doe)).
Proof.
  unfold civil_date. set (era := (days + 719468) / 146097). cbv zeta.
  assert (days + 719468 - era * 146097 = (days + 719468) mod 146097) as ->.
  { pose proof (N.Div0.div_mod (days + 719468) 146097) as Hdm. fold era in Hdm. revert Hdm.
    generalize ((days + 719468) mod 146097). intros. lia. }
  reflexivity.
Qed.

(** What holds of each of the four hundred years, by evaluation. *)
Definition year_ok (y : N) : bool :=
  (year_of (year_start y) =? y) && (year_of (year_end y - 1) =? y) &&
  (year_end y - year_start y =? (if is_leap (y + 1) then 366 else 365)) && (year_start y <? year_end y).
Lemma years_checked : forallb year_ok (seqN 0 400) = true.
Proof. vm_compute. reflexivity. Qed.

Record year_facts (y : N) : Prop := {
  yf_first : year_of (year_start y) = y;
  yf_last : year_of (year_end y - 1) = y;
  yf_length : year_end y = year_start y + (if is_leap (y + 1) then 366 else 365);
}.
Lemma year_checked y : y < 400 → year_facts y.
Proof.
  intros Hy. pose proof years_checked as Hall. rewrite forallb_forall in Hall.
  assert (year_ok y = true) as Hok by (apply Hall, list_elem_of_In, elem_of_seqN; lia).
  unfold year_ok in Hok. rewrite !andb_true_iff, !N.eqb_eq, N.ltb_lt in Hok. destruct Hok as [[[H1 H2] H3] H4].
  split; [done|done|]. rewrite <- H3. lia.
Qed.

Lemma div_parts a b : b ≠ 0 → ∃ q r, a / b = q ∧ a = b * q + r ∧ r < b.
Proof.
  intros Hb. exists (a / b), (a mod b). split; [done|]. split; [apply N.Div0.div_mod|by apply N.mod_lt].
Qed.

(** Later days do not lie in earlier years. *)
Lemma year_of_mono a b : a ≤ b → b < 146097 → year_of a ≤ year_of b.
Proof.
  intros Hab Hb. unfold year_of. apply N.Div0.div_le_mono.
  destruct (div_parts a 1460) as (qa & ra & -> & Ha1 & Hr1); [done|].
  destruct (div_parts b 1460) as (qb & rb & -> & Hb1 & Hr2); [done|].
  destruct (div_parts a 36524) as (sa & ua & -> & Ha2 & Hr3); [done|].
  destruct (div_parts b 36524) as (sb & ub & -> & Hb2 & Hr4); [done|].
  destruct (div_parts a 146096) as (ta & va & -> & Ha3 & Hr5); [done|].
  destruct (div_parts b 146096) as (tb & vb & -> & Hb3 & Hr6); [done|].
  assert (sa ≤ sb) by lia. assert (a - qa ≤ b - qb) by lia. assert (ta ≤ tb ≤ 1) by lia.
  destruct (decide (tb = ta)) as [->|Hne]; [lia|]. assert (tb = 1 ∧ ta = 0) as [-> ->] by lia.
  assert (b = 146096) by lia. assert (qb = 100) by lia. lia.
Qed.

Lemma year_end_bound y : y < 400 → year_end y ≤ 146097.
Proof.
  intros Hy. unfold year_end. destruct (N.eqb_spec y 399); [lia|]. unfold year_start.
  pose proof (N.Div0.div_mod (y + 1) 4) as Hdm. revert Hdm.
  generalize ((y + 1) / 4) ((y + 1) mod 4) ((y + 1) / 100). intros. lia.
Qed.

Lemma year_of_within y k : y < 400 → year_start y ≤ k < year_end y → year_of k = y.
Proof.
  intros Hy Hk. destruct (year_checked y Hy) as [H1 H2 H3].
  pose proof (year_end_bound y Hy) as He.
  pose proof (year_of_mono (year_start y) k). pose proof (year_of_mono k (year_end y - 1)). lia.
Qed.

Lemma year_exists k n : (∃ y, y < 400 ∧ n = y + 1 ∧ k < year_end y) → ∃ y, y < 400 ∧ year_start y ≤ k < year_end y.
Proof.
  intros (y & Hy & -> & Hk). induction y as [|y IH] using N.peano_ind.
  - exists 0. split; [done|]. split; [apply N.le_0_l|done].
  - destruct (N.le_gt_cases (year_start (N.succ y)) k) as [Hle|Hgt]; [by exists (N.succ y)|].
    apply IH; [lia|]. unfold year_end. destruct (N.eqb_spec y 399); [lia|]. by rewrite N.add_1_r.
Qed.

(** What holds of each day of a year. *)
Definition day_ok (doy : N) : bool :=
  let '(m, d) := month_day doy in
  let '(m', d') := month_day (doy + 1) in
  if m =? 2 then (d <? 28) && (m' =? 2) && (d' =? d + 1)
  else
    if d <? month_length 1 m then (m' =? m) && (d' =? d + 1)
    else if m <? 12 then negb (m' <=? 2) && (m' =? m + 1) && (d' =? 1) || (m =? 1) && (m' =? 2) && (d' =? 1)
    else (m' =? 1) && (d' =? 1).
Lemma days_checked : forallb day_ok (seqN 0 364) = true.
Proof. vm_compute. reflexivity. Qed.

Lemma month_length_not_february y m : m ≠ 2 → month_length y m = month_length 1 m.
Proof. intros Hm. destruct m as [|[[[]|[]|]|[[]|[]|]|]]; try done. Qed.
Lemma february_length y : month_length y 2 = if is_leap y then 29 else 28.
Proof. done. Qed.

Lemma next_day_within y doy : doy < 364 → date_at y (doy + 1) = next_day (date_at y doy).
Proof.
  intros Hd. pose proof days_checked as Hall. rewrite forallb_forall in Hall.
  assert (day_ok doy = true) as Hok by (apply Hall, list_elem_of_In, elem_of_seqN; lia).
  unfold day_ok in Hok. unfold date_at, next_day.
  destruct (month_day doy) as [m d], (month_day (doy + 1)) as [m' d'].
  destruct (N.eqb_spec m 2) as [->|Hm].
  - rewrite !andb_true_iff, N.ltb_lt, !N.eqb_eq in Hok. destruct Hok as [[Hlt ->] ->].
    rewrite february_length, (proj2 (N.ltb_lt _ _)); [done|]. destruct (is_leap _); lia.
  - rewrite (month_length_not_february _ m) by done. destruct (d <? month_length 1 m) eqn:Hlen.
    + rewrite andb_true_iff, !N.eqb_eq in Hok. by destruct Hok as [-> ->].
    + destruct (N.ltb_spec m 12) as [Hlt|Hge].
      * rewrite orb_true_iff, !andb_true_iff, negb_true_iff, !N.eqb_eq, N.leb_gt in Hok.
        destruct Hok as [[[Hgt ->] ->]|[[-> ->] ->]]; [|done].
        rewrite !(proj2 (N.leb_gt _ _)) by lia. done.
      * rewrite andb_true_iff, !N.eqb_eq in Hok. destruct Hok as [-> ->]. rewrite (proj2 (N.leb_gt m 2)) by lia.
        by rewrite N.add_0_r.
Qed.

(** The last days of a year, February 28 and 29. *)
Lemma next_day_february y :
  next_day (date_at y 364) = if is_leap (y + 1) then date_at y 365 else date_at (y + 1) 0.
Proof.
  change (date_at y 364) with (y + 1, 2, 28). change (date_at y 365) with (y + 1, 2, 29).
  change (date_at (y + 1) 0) with (y + 1 + 0, 3, 1). unfold next_day. rewrite february_length.
  destruct (is_leap (y + 1)); [done|]. cbn. by rewrite N.add_0_r.
Qed.
Lemma next_day_leap y : is_leap (y + 1) = true → next_day (date_at y 365) = date_at (y + 1) 0.
Proof.
  intros Hl. change (date_at y 365) with (y + 1, 2, 29). change (date_at (y + 1) 0) with (y + 1 + 0, 3, 1).
  unfold next_day. rewrite february_length, Hl. cbn. by rewrite N.add_0_r.
Qed.

Lemma next_day_in_year y doy (len := if is_leap (y + 1) then 366 else 365) : doy < len →
  next_day (date_at y doy) = if doy + 1 =? len then date_at (y + 1) 0 else date_at y (doy + 1).
Proof.
  intros Hd. subst len. destruct (N.lt_ge_cases doy 364) as [Hlt|Hge].
  - rewrite (proj2 (N.eqb_neq _ _)) by (destruct (is_leap _); lia). by rewrite next_day_within.
  - destruct (N.eqb_spec doy 364) as [->|Hne].
    + rewrite next_day_february. by destruct (is_leap (y + 1)).
    + destruct (is_leap (y + 1)) eqn:Hl; [|lia]. assert (doy = 365) as -> by lia. by apply next_day_leap.
Qed.

Lemma leap_eras y e : is_leap (y + e * 400) = is_leap y.
Proof.
  induction e as [|e IH] using N.peano_ind; [by rewrite N.add_0_r|].
  replace (y + N.succ e * 400) with (y + e * 400 + 400) by lia. by rewrite leap_era.
Qed.

(** The date of the next day is the next date. *)
Lemma civil_date_next days : civil_date (days + 1) = next_day (civil_date days).
Proof.
  rewrite !civil_date_at. cbv zeta. replace (days + 1 + 719468) with (days + 719468 + 1) by lia.
  generalize (days + 719468). clear days. intros n.
  pose proof (N.Div0.div_mod n 146097) as Hdm. pose proof (N.mod_lt n 146097 ltac:(done)) as Hlt.
  set (era := n / 146097) in *. set (k := n mod 146097) in *. clearbody era k. subst n.
  destruct (year_exists k 400) as (y & Hy & Hk); [by exists 399|].
  destruct (year_checked y Hy) as [Hfirst _ Hlen]. rewrite (year_of_within y k Hy Hk).
  assert (is_leap (y + era * 400 + 1) = is_leap (y + 1)) as Hleap.
  { replace (y + era * 400 + 1) with (y + 1 + era * 400) by lia. apply leap_eras. }
  rewrite next_day_in_year by (rewrite Hleap; destruct (is_leap (y + 1)); lia). rewrite Hleap.
  assert (∀ y' era' k', k' < 146097 → 146097 * era + k + 1 = 146097 * era' + k' → year_of k' = y' →
    date_at (year_of ((146097 * era + k + 1) mod 146097) + (146097 * era + k + 1) / 146097 * 400)
      ((146097 * era + k + 1) mod 146097 - year_start (year_of ((146097 * era + k + 1) mod 146097))) =
    date_at (y' + era' * 400) (k' - year_start y')) as Hdate.
  { intros y' era' k' Hk' -> Hy'.
    rewrite <- (N.div_unique (146097 * era' + k') 146097 era' k'), <- (N.mod_unique (146097 * era' + k') 146097 era' k') by done.
    by rewrite Hy'. }
  destruct (N.eqb_spec (k - year_start y + 1) (if is_leap (y + 1) then 366 else 365)) as [Hlast|Hmore];
    set (L := if is_leap (y + 1) then 366 else 365) in *; clearbody L.
  - unfold year_end in *. destruct (N.eqb_spec y 399) as [->|Hne].
    + rewrite (Hdate 0 (era + 1) 0); [|lia|lia|done]. f_equal. lia.
    + rewrite (Hdate (y + 1) era (k + 1)); [| |lia|].
      * f_equal; lia.
      * assert (y + 1 < 400) as Hy1 by lia. pose proof (yf_length _ (year_checked _ Hy1)) as Hl1.
        pose proof (year_end_bound _ Hy1). destruct (is_leap (y + 1 + 1)); lia.
      * assert (k + 1 = year_start (y + 1)) as -> by lia. apply year_checked. lia.
  - rewrite (Hdate y era (k + 1)); [| |lia|].
    + f_equal. lia.
    + assert (year_end y ≤ 146097) by by apply year_end_bound. lia.
    + apply year_of_within; [done|lia].
Qed.

Lemma civil_date_epoch : civil_date 0 = (1970, 1, 1).
Proof. vm_compute. reflexivity. Qed.

Lemma civil_date_spec days : civil_date days = N.iter days next_day (1970, 1, 1).
Proof.
  induction days as [|days IH] using N.peano_ind; [apply civil_date_epoch|].
  rewrite N.iter_succ, <- IH, <- N.add_1_r. apply civil_date_next.
Qed.

(** ** How wide a cell is *)

Lemma pretty_go_length k : ∀ x s, x < 10 ^ N.of_nat k → (String.length (pretty_N_go x s) ≤ k + String.length s)%nat.
Proof.
  induction k as [|k IH]; intros x s Hx.
  - cbn in Hx. assert (x = 0) as -> by lia. rewrite pretty_N_go_0. lia.
  - destruct (decide (x = 0)) as [->|Hne]; [rewrite pretty_N_go_0; lia|].
    rewrite pretty_N_go_step by lia. etrans; [apply IH|cbn; lia].
    rewrite Nat2N.inj_succ, N.pow_succ_r' in Hx. by apply N.Div0.div_lt_upper_bound.
Qed.
Lemma pretty_length k x : x < 10 ^ N.of_nat k → (0 < k)%nat → (String.length (pretty x) ≤ k)%nat.
Proof.
  intros Hx Hk. unfold pretty, pretty_N. case_decide; [cbn; lia|]. etrans; [by apply pretty_go_length|cbn; lia].
Qed.
Lemma app_length_string s t : String.length (s +:+ t) = (String.length s + String.length t)%nat.
Proof. induction s as [|c s IH]; [reflexivity|]. exact (f_equal S IH). Qed.

(** The exponent of [format_iec_bytes] is the largest with a whole part, or six. *)
Lemma iec_exponent_spec fuel bytes : ∀ e, e ≤ 6 → 6 ≤ e + N.of_nat fuel → (e = 0 ∨ 0 < N.shiftr bytes (e * 10)) →
  let e' := iec_exponent fuel bytes e in
  e' ≤ 6 ∧ (e' = 0 ∨ 0 < N.shiftr bytes (e' * 10)) ∧ (e' = 6 ∨ N.shiftr bytes ((e' + 1) * 10) = 0).
Proof.
  induction fuel as [|fuel IH]; intros e He Hfuel Hpos; cbn [iec_exponent]; cbv zeta.
  { split_and!; [done|done|left; lia]. }
  destruct (N.ltb_spec (e + 1) 7) as [Hlt|Hge]; cbn [andb];
    [|split_and!; [done|done|left; lia]].
  destruct (N.ltb_spec 0 (N.shiftr bytes ((e + 1) * 10))) as [Hp|Hz]; cbn [andb].
  - apply IH; [lia|lia|by right].
  - split_and!; [done|done|right; lia].
Qed.

Record iec_value (bytes exponent whole tenths : N) : Prop := {
  iv_exponent : exponent ≤ 6;
  iv_truncated : (10 * whole + tenths) * 2 ^ (exponent * 10) ≤ 10 * bytes < (10 * whole + tenths + 1) * 2 ^ (exponent * 10);
  iv_tenths : tenths ≤ 9;
  iv_unit : exponent = 0 ∨ 1 ≤ whole;
  iv_largest : exponent = 6 ∨ whole < 1024;
}.

Lemma iec_parts_spec bytes exponent whole tenths : iec_parts bytes = (exponent, whole, tenths) →
  iec_value bytes exponent whole tenths.
Proof.
  unfold iec_parts. pose proof (iec_exponent_spec 7 bytes 0 ltac:(lia) ltac:(lia) (or_introl eq_refl)) as Hspec.
  set (e := iec_exponent 7 bytes 0) in *. cbv zeta in Hspec. destruct Hspec as (He & Hpos & Hmax).
  intros [= <- <- <-]. rewrite !N.shiftr_div_pow2, N.shiftl_mul_pow2 in *.
  assert (2 ^ (e * 10) ≠ 0) as Hp by by apply N.pow_nonzero. remember (2 ^ (e * 10)) as p eqn:Hpe.
  assert (2 ^ ((e + 1) * 10) = p * 1024) as Hp1.
  { subst p. replace ((e + 1) * 10) with (e * 10 + 10) by lia. by rewrite N.pow_add_r. }
  destruct (div_parts bytes p Hp) as (q & r & Hq & Hb & Hr). rewrite Hq in *. clearbody e.
  assert (bytes - q * p = r) as -> by lia.
  destruct (div_parts (r * 10) p Hp) as (t & u & -> & Ht & Hu). split; [done|rewrite <- Hpe; nia|nia|lia|].
  destruct Hmax as [->|Hz]; [by left|right]. rewrite Hp1 in Hz.
  destruct (N.lt_ge_cases q 1024) as [|Hge]; [done|].
  assert (1 ≤ bytes / (p * 1024)); [|lia]. apply N.div_le_lower_bound; [lia|nia].
Qed.

Lemma iec_whole_small bytes exponent whole tenths : iec_value bytes exponent whole tenths → bytes ≤ u64_max →
  whole < 1024.
Proof.
  intros [He Ht Hten _ Hl] Hb. destruct Hl as [->|]; [|done]. unfold u64_max in Hb.
  change (2 ^ (6 * 10)) with 1152921504606846976 in Ht. lia.
Qed.

Lemma format_iec_bytes_width bytes : bytes ≤ u64_max → (String.length (format_iec_bytes bytes) ≤ 10)%nat.
Proof.
  intros Hb. unfold format_iec_bytes. destruct (iec_parts bytes) as [[e whole] tenths] eqn:Hp.
  apply iec_parts_spec in Hp as Hv. pose proof (iec_whole_small _ _ _ _ Hv Hb) as Hw. destruct Hv as [He Ht Hten _ _].
  assert (String.length (default "" (IEC_UNITS !! N.to_nat e)) ≤ 3)%nat as Hunit.
  { destruct (IEC_UNITS !! N.to_nat e) as [u|] eqn:Hu; [|cbn; lia]. apply list_elem_of_lookup_2 in Hu. cbn.
    unfold IEC_UNITS in Hu. rewrite !elem_of_cons, elem_of_nil in Hu. naive_solver (cbn; lia). }
  assert (whole < 10 ^ N.of_nat 4) as Hw4 by (cbn; lia). apply pretty_length in Hw4; [|lia].
  destruct (N.eqb_spec e 0) as [->|Hne].
  - cbn [N.mul] in Ht. rewrite N.pow_0_r in Ht. assert (bytes = whole) as -> by lia.
    rewrite !app_length_string. cbn in Hunit |- *. lia.
  - rewrite !app_length_string. assert (tenths < 10 ^ N.of_nat 1) as Ht1 by (cbn; lia). apply pretty_length in Ht1; [|lia].
    cbn [String.length]. lia.
Qed.

Lemma missing_text_width reason : (String.length (missing_text reason) ≤ MAX_CELL_BYTES)%nat.
Proof. destruct reason; cbn; unfold MAX_CELL_BYTES; lia. Qed.

Lemma bytes_cell_width o : (∀ bytes, o = Known bytes → bytes ≤ u64_max) →
  (String.length (bytes_cell o) ≤ MAX_CELL_BYTES)%nat.
Proof.
  intros Ho. destruct o as [bytes|reason]; [|apply missing_text_width]. cbn [bytes_cell].
  pose proof (format_iec_bytes_width bytes (Ho _ eq_refl)). unfold MAX_CELL_BYTES. lia.
Qed.

(** A measured share: truncated, and of at most 65536 CPUs. *)
Lemma cpu_tenths_spec i t : cpu_tenths_of_percent i = Some t →
  ci_elapsed i ≠ 0 ∧ ci_ticks_per_second i ≠ 0 ∧ t ≤ 65536000 ∧
  t * (ci_ticks_per_second i * ci_elapsed i) ≤ ci_ticks i * 10 ^ 12 < (t + 1) * (ci_ticks_per_second i * ci_elapsed i).
Proof.
  unfold cpu_tenths_of_percent, checked_mul128. destruct (N.eqb_spec (ci_elapsed i) 0) as [|He]; [done|].
  destruct (N.eqb_spec (ci_ticks_per_second i) 0) as [|Hs]; [done|]. cbn [orb].
  destruct (ci_ticks i * _ <=? u128_max); cbn [mbind option_bind]; [|done].
  destruct (ci_ticks_per_second i * _ <=? u128_max); cbn [mbind option_bind]; [|done].
  set (d := ci_ticks_per_second i * ci_elapsed i). assert (d ≠ 0) as Hd by by apply N.neq_mul_0.
  clearbody d. change (10 ^ 12) with (1000 * 1000000000). set (n := ci_ticks i * (1000 * 1000000000)). clearbody n.
  destruct (N.ltb_spec (MAX_PLAUSIBLE_LOGICAL_CPUS * 1000) (n / d)) as [|Hle]; [done|].
  destruct (_ <=? _); [|done]. intros [= <-]. destruct (div_parts n d Hd) as (q & r & Heq & Hq & Hr). rewrite Heq in *.
  unfold MAX_PLAUSIBLE_LOGICAL_CPUS in Hle. split_and!; [done|done|lia|nia|nia].
Qed.

Lemma cpu_cell_width usage : (String.length (cpu_cell usage) ≤ MAX_CELL_BYTES)%nat.
Proof.
  destruct usage as [i| |reason]; cbn [cpu_cell]; [|cbn; unfold MAX_CELL_BYTES; lia|apply missing_text_width].
  destruct (cpu_tenths_of_percent i) as [t|] eqn:Ht; [|apply missing_text_width].
  apply cpu_tenths_spec in Ht as (_ & _ & Ht & _). unfold format_cpu_tenths. rewrite !app_length_string.
  destruct (div_parts t 10) as (q & r & -> & Hq & _); [done|]. pose proof (N.mod_lt t 10 ltac:(done)) as Hr.
  assert (q < 10 ^ N.of_nat 7) as Hq7 by (cbn; lia). apply pretty_length in Hq7; [|lia].
  assert (t mod 10 < 10 ^ N.of_nat 1) as Hr1 by exact Hr. apply pretty_length in Hr1; [|lia].
  cbn [String.length]. unfold MAX_CELL_BYTES. lia.
Qed.
