(* ===== verification/SrtopCatalogue.v ===== *)
(** * srtop: the columns of the process list

    Models what [apps/srtop/src/catalogue.rs] says of the four columns (their
    cells, their availability, their default order), the layouts of visible
    columns, and the column buttons of [lib.rs]. *)

From S2P Require Import Prelude.
From S2P Require Import Values.
From S2P Require Import SrtopData.
From S2P Require Import SrtopMetric.

(** [enum ProcessField] and [PROCESS_LIST] *)
Inductive ProcessField := FieldPid | FieldName | FieldResident | FieldCpu.
#[export] Instance ProcessField_eq_dec : EqDecision ProcessField.
Proof. solve_decision. Defined.
Definition PROCESS_LIST : list ProcessField := [FieldPid; FieldName; FieldResident; FieldCpu].

(** [ProcessField::index], [heading] and [button_name] *)
Definition field_index (f : ProcessField) : nat :=
  match f with FieldPid => 0 | FieldName => 1 | FieldResident => 2 | FieldCpu => 3 end.
Definition heading (f : ProcessField) : string :=
  match f with
  | FieldPid => "PID" | FieldName => "Name" | FieldResident => "Resident" | FieldCpu => "CPU (100% = 1 CPU)"
  end.
Definition button_name (f : ProcessField) : string :=
  match f with FieldPid => "PID" | FieldName => "Name" | FieldResident => "Resident" | FieldCpu => "CPU" end.

(** [enum SortDirection], and the directions of [BUILTIN] *)
Inductive SortDirection := Ascending | Descending.
#[export] Instance SortDirection_eq_dec : EqDecision SortDirection.
Proof. solve_decision. Defined.
Definition default_direction (f : ProcessField) : SortDirection :=
  match f with FieldPid | FieldName => Ascending | FieldResident | FieldCpu => Descending end.

(** [enum Availability] and its constructors from observed values *)
Inductive Availability := AvPresent | AvWarmingUp | AvPermissionDenied | AvUnsupported | AvStale | AvFailed.
#[export] Instance Availability_eq_dec : EqDecision Availability.
Proof. solve_decision. Defined.
Definition availability_word (a : Availability) : option string :=
  match a with
  | AvPresent => None
  | AvWarmingUp => Some CPU_WARMING_UP
  | AvPermissionDenied => Some (missing_text ReasonDenied)
  | AvUnsupported => Some "Unsupported"
  | AvStale => Some "Stale"
  | AvFailed => Some (missing_text ReasonUnavailable)
  end.
Definition of_missing (reason : MissingReason) : Availability :=
  match reason with ReasonUnavailable => AvFailed | ReasonDenied => AvPermissionDenied end.
Definition of_observed {A} (o : Observed A) : Availability :=
  match o with Known _ => AvPresent | Missing reason => of_missing reason end.
Definition of_cpu (usage : CpuUsage) : Availability :=
  match usage with
  | Measured interval => match cpu_tenths_of_percent interval with Some _ => AvPresent | None => AvFailed end
  | WarmingUp => AvWarmingUp
  | CpuMissing reason => of_missing reason
  end.

(** [ProcessField::availability] and [cell] *)
Definition field_availability (f : ProcessField) (key : ProcessKey) (record : ProcessRecord) : Availability :=
  match f with
  | FieldPid => of_observed (pk_pid key)
  | FieldName => AvPresent
  | FieldResident => of_observed (pr_resident record)
  | FieldCpu => of_cpu (pr_cpu record)
  end.
Definition cell (f : ProcessField) (key : ProcessKey) (record : ProcessRecord) : Value :=
  match f with
  | FieldPid =>
      match pk_pid key with Known pid => VUnsignedInt pid | Missing reason => VString (missing_text reason) end
  | FieldName => VString (dn_text (pr_display_name record))
  | FieldResident => VString (bytes_cell (pr_resident record))
  | FieldCpu => VString (cpu_cell (pr_cpu record))
  end.

(** ** Layouts *)

(** [struct ColumnLayout] and [enum LayoutError] *)
Definition ColumnLayout : Type := list ProcessField.
Definition layout_default : ColumnLayout := PROCESS_LIST.
Inductive LayoutError := LayoutEmpty | LayoutDuplicate (f : ProcessField).

(** [ColumnLayout::new]: the first field that occurs before itself is refused. *)
Fixpoint check_distinct (seen fields : list ProcessField) : result LayoutError unit :=
  match fields with
  | [] => Ok tt
  | f :: fields =>
      if bool_decide (f ∈ seen) then Err (LayoutDuplicate f) else check_distinct (seen ++ [f]) fields
  end.
Definition ColumnLayout_new (fields : list ProcessField) : result LayoutError ColumnLayout :=
  match fields with
  | [] => Err LayoutEmpty
  | _ => check_distinct [] fields ≫= λ _, Ok fields
  end.

Definition is_default (l : ColumnLayout) : bool := bool_decide (l = PROCESS_LIST).
Definition shows (l : ColumnLayout) (f : ProcessField) : bool := bool_decide (f ∈ l).
Definition position (l : ColumnLayout) (f : ProcessField) : option nat := fst <$> list_find (λ x, x = f) l.
Definition can_hide (l : ColumnLayout) (f : ProcessField) : bool := shows l f && (1 <? length l)%nat.
Definition can_move_earlier (l : ColumnLayout) (f : ProcessField) : bool :=
  match position l f with Some p => (0 <? p)%nat | None => false end.
Definition can_move_later (l : ColumnLayout) (f : ProcessField) : bool :=
  match position l f with Some p => (p + 1 <? length l)%nat | None => false end.
Definition hiding (l : ColumnLayout) (f : ProcessField) : ColumnLayout :=
  if can_hide l f then filter (λ shown, shown ≠ f) l else l.
Definition showing (l : ColumnLayout) (f : ProcessField) : ColumnLayout :=
  if bool_decide (f ∈ l) then l else l ++ [f].

(** [slice::swap], which panics out of range *)
Definition swap {A} (l : list A) (i j : nat) : option (list A) :=
  x ← l !! i; y ← l !! j; Some (<[j := x]> (<[i := y]> l)).
Definition moving_earlier (l : ColumnLayout) (f : ProcessField) : option ColumnLayout :=
  match position l f with
  | Some (S p) => swap l p (S p)
  | _ => Some l
  end.
Definition moving_later (l : ColumnLayout) (f : ProcessField) : option ColumnLayout :=
  match position l f with
  | Some p => if (p + 1 <? length l)%nat then swap l p (p + 1) else Some l
  | None => Some l
  end.

(** ** The column buttons *)

(** [enum ColumnAction]: [None] would be a panic. *)
Inductive ColumnAction := Toggle (f : ProcessField) | Earlier (f : ProcessField) | Later (f : ProcessField) | RestoreDefaults.
Definition column_action_apply (a : ColumnAction) (l : ColumnLayout) : option ColumnLayout :=
  match a with
  | Toggle f => Some (if shows l f then hiding l f else showing l f)
  | Earlier f => moving_earlier l f
  | Later f => moving_later l f
  | RestoreDefaults => Some layout_default
  end.
Definition column_action_label (a : ColumnAction) (l : ColumnLayout) : string :=
  match a with
  | Toggle f => if shows l f then "Hide " +:+ button_name f +:+ " column" else "Show " +:+ button_name f +:+ " column"
  | Earlier f => "Move " +:+ button_name f +:+ " column left"
  | Later f => "Move " +:+ button_name f +:+ " column right"
  | RestoreDefaults => "Restore default columns"
  end.
Definition column_action_enabled (a : ColumnAction) (l : ColumnLayout) : bool :=
  match a with
  | Toggle f => negb (shows l f) || can_hide l f
  | Earlier f => can_move_earlier l f
  | Later f => can_move_later l f
  | RestoreDefaults => negb (is_default l)
  end.

(** [COLUMN_CHOOSER_BUTTONS], its nodes from 29 on *)
Definition COLUMN_CHOOSER_BUTTONS : list (NodeId * ColumnAction) :=
  [(mkNodeId 29, Toggle FieldPid); (mkNodeId 30, Earlier FieldPid); (mkNodeId 31, Later FieldPid);
   (mkNodeId 32, Toggle FieldName); (mkNodeId 33, Earlier FieldName); (mkNodeId 34, Later FieldName);
   (mkNodeId 35, Toggle FieldResident); (mkNodeId 36, Earlier FieldResident); (mkNodeId 37, Later FieldResident);
   (mkNodeId 38, Toggle FieldCpu); (mkNodeId 39, Earlier FieldCpu); (mkNodeId 40, Later FieldCpu);
   (mkNodeId 41, RestoreDefaults)].

(** ** Facts *)

(** What a layout is: columns, at least one, none twice. *)
Definition layout_ok (l : ColumnLayout) : Prop := l ≠ [] ∧ NoDup l.

Lemma check_distinct_Ok fields : ∀ seen, NoDup seen →
  check_distinct seen fields = Ok tt ↔ NoDup (seen ++ fields).
Proof.
  induction fields as [|f fields IH]; intros seen Hs; cbn [check_distinct]; [by rewrite app_nil_r|].
  case_bool_decide as Hin.
  - split; [done|]. intros (_ & Hno & _)%NoDup_app. exfalso. apply (Hno f); [done|left].
  - rewrite IH; [by rewrite <- app_assoc|]. apply NoDup_app. split_and!; [done| |apply NoDup_singleton].
    by intros x Hx ->%list_elem_of_singleton.
Qed.

Lemma check_distinct_returns fields : ∀ seen, returns (check_distinct seen fields).
Proof. induction fields as [|f fields IH]; intros seen; cbn; [done|]. by case_bool_decide. Qed.

Lemma ColumnLayout_new_Ok fields l : ColumnLayout_new fields = Ok l ↔ l = fields ∧ layout_ok fields.
Proof.
  unfold ColumnLayout_new, layout_ok. destruct fields as [|f fields]; [naive_solver|].
  pose proof (check_distinct_Ok (f :: fields) [] ltac:(constructor)) as Hiff. cbn [app] in Hiff.
  destruct (check_distinct [] (f :: fields)) as [[]|e| |]; cbn [mbind result_bind]; naive_solver.
Qed.

Lemma position_Some l f p : position l f = Some p ↔ l !! p = Some f ∧ ∀ i, i < p → l !! i ≠ Some f.
Proof.
  unfold position. rewrite fmap_Some. split.
  - intros ([i x] & (Hi & -> & Hb)%list_find_Some & ->). split; [done|]. intros j Hj Hx. by eapply Hb.
  - intros [Hp Hb]. exists (p, f). split; [|done]. apply list_find_Some. split_and!; [done..|].
    intros j y Hy Hlt ->. by eapply Hb.
Qed.
Lemma position_None l f : position l f = None ↔ f ∉ l.
Proof. unfold position. rewrite fmap_None, list_find_None, Forall_forall. naive_solver. Qed.

Lemma swap_spec {A} (l : list A) i j x y : l !! i = Some x → l !! j = Some y → i ≠ j →
  ∃ l', swap l i j = Some l' ∧ l' ≡ₚ l ∧ (l' = l ↔ x = y).
Proof.
  intros Hi Hj Hne. unfold swap. rewrite Hi, Hj. cbn [mbind option_bind]. eexists. split; [done|].
  pose proof (lookup_lt_Some _ _ _ Hi). pose proof (lookup_lt_Some _ _ _ Hj). split; [|split].
  - apply Permutation_inj. rewrite !length_insert. split; [done|].
    exists (λ k, if decide (k = i) then j else if decide (k = j) then i else k). split.
    + intros a b. repeat case_decide; congruence.
    + intros k. repeat case_decide; subst.
      * rewrite list_lookup_insert_ne, list_lookup_insert_eq by (done || lia). done.
      * by rewrite list_lookup_insert_eq by (rewrite length_insert; lia).
      * by rewrite !list_lookup_insert_ne by done.
  - intros Heq. apply (f_equal (.!! j)) in Heq. rewrite list_lookup_insert_eq in Heq by (rewrite length_insert; lia).
    congruence.
  - intros ->. rewrite (list_insert_id l i y) by done. by apply list_insert_id.
Qed.

(** Every button gives a layout again, and is enabled just when it changes it. *)
Lemma column_action_spec a l : layout_ok l →
  ∃ l', column_action_apply a l = Some l' ∧ layout_ok l' ∧ (column_action_enabled a l = true ↔ l' ≠ l).
Proof.
  intros [Hne Hnd]. destruct a as [f|f|f|]; cbn [column_action_apply column_action_enabled].
  - eexists. split; [done|]. unfold shows, hiding, showing, can_hide, shows.
    case_bool_decide as Hin; cbn [negb orb andb].
    + destruct (Nat.ltb_spec 1 (length l)) as [Hlt|Hge]; [|done].
      assert (filter (λ x, x ≠ f) l ≠ []) as Hne'.
      { intros Hnil. assert (∀ z, z ∈ l → z = f) as Hall.
        { intros z Hz. apply dec_stable. intros Hzf. apply (not_elem_of_nil z). rewrite <- Hnil.
          by apply list_elem_of_filter. }
        destruct l as [|x [|y l]]; [cbn in Hlt; lia..|]. apply NoDup_cons in Hnd as [Hx _]. apply Hx.
        rewrite (Hall x), (Hall y) by (rewrite !elem_of_cons; tauto). left. }
      split; [split; [done|by apply NoDup_filter]|]. split; [|done]. intros _ Heq.
      rewrite <- Heq in Hin. by apply list_elem_of_filter in Hin as [? _].
    + split; [split; [by destruct l|]|].
      * apply NoDup_app. split_and!; [done| |apply NoDup_singleton]. by intros x Hx ->%list_elem_of_singleton.
      * split; [|done]. intros _ Heq. apply (f_equal length) in Heq. rewrite length_app in Heq. cbn in Heq. lia.
  - unfold moving_earlier, can_move_earlier. destruct (position l f) as [[|p]|] eqn:Hp; [by eexists| |by eexists].
    apply position_Some in Hp as [Hp Hb]. destruct (lookup_lt_is_Some_2 l p) as [x Hx];
      [apply lookup_lt_Some in Hp; lia|].
    destruct (swap_spec l p (S p) x f Hx Hp) as (l' & -> & Hperm & Heq); [lia|]. exists l'. split; [done|]. split.
    + split; [|by rewrite Hperm]. intros ->. by apply Permutation_nil_l in Hperm.
    + rewrite Heq. split; [|done]. intros _ ->. apply (Hb p); [lia|done].
  - unfold moving_later, can_move_later. destruct (position l f) as [p|] eqn:Hp; [|by eexists].
    apply position_Some in Hp as [Hp Hb]. destruct (Nat.ltb_spec (p + 1) (length l)) as [Hlt|]; [|by eexists].
    destruct (lookup_lt_is_Some_2 l (p + 1) Hlt) as [x Hx].
    destruct (swap_spec l p (p + 1) f x Hp Hx) as (l' & -> & Hperm & Heq); [lia|]. exists l'. split; [done|]. split.
    + split; [|by rewrite Hperm]. intros ->. by apply Permutation_nil_l in Hperm.
    + rewrite Heq. split; [|done]. intros _ <-. assert (p = p + 1) by (by eapply NoDup_lookup). lia.
  - eexists. split; [done|]. split; [split; [done|]|].
    + by apply (bool_decide_unpack _).
    + unfold is_default, layout_default. case_bool_decide; naive_solver.
Qed.
