(* ===== verification/SrtopSort.v ===== *)
(** * srtop: the order of the published collection

    Models [apps/srtop/src/sort.rs] and the [Row] of [projection.rs]: a row sorts
    by the typed value of one column, missing values last in either direction,
    and ties by the identity of the process. *)

From S2P Require Import Prelude.
From S2P Require Import Values.
From S2P Require Import Models.
From S2P Require Import SrtopData.
From S2P Require Import SrtopMetric.
From S2P Require Import SrtopCatalogue.

(** [struct SortOrder] and [resolve] *)
Record SortOrder := mkOrder { so_field : ProcessField; so_direction : SortDirection }.
#[export] Instance SortOrder_eq_dec : EqDecision SortOrder.
Proof. solve_decision. Defined.
Definition opposite (d : SortDirection) : SortDirection :=
  match d with Ascending => Descending | Descending => Ascending end.
Definition resolve (active : option SortOrder) (field : ProcessField) : SortOrder :=
  match active with
  | Some a =>
      if decide (so_field a = field) then mkOrder field (opposite (so_direction a))
      else mkOrder field (default_direction field)
  | None => mkOrder field (default_direction field)
  end.

(** [enum SortValue] and [struct SortValues] *)
Inductive SortValue := SvNumber (n : N) | SvText (text : string) | SvMissing.
#[export] Instance SortValue_eq_dec : EqDecision SortValue.
Proof. solve_decision. Defined.
Record SortValues := mkSortValues { sv_pid : SortValue; sv_name : SortValue; sv_resident : SortValue; sv_cpu : SortValue }.
#[export] Instance SortValues_eq_dec : EqDecision SortValues.
Proof. solve_decision. Defined.

(** [value_of], [SortValues::of_record] and [get] *)
Definition value_of (f : ProcessField) (key : ProcessKey) (record : ProcessRecord) : SortValue :=
  if bool_decide (field_availability f key record ≠ AvPresent) then SvMissing
  else
    match f with
    | FieldPid => match pk_pid key with Known pid => SvNumber pid | Missing _ => SvMissing end
    | FieldName => SvText (dn_text (pr_display_name record))
    | FieldResident => match pr_resident record with Known bytes => SvNumber bytes | Missing _ => SvMissing end
    | FieldCpu =>
        match pr_cpu record with
        | Measured interval =>
            match cpu_tenths_of_percent interval with Some tenths => SvNumber tenths | None => SvMissing end
        | WarmingUp | CpuMissing _ => SvMissing
        end
    end.
Definition of_record (key : ProcessKey) (record : ProcessRecord) : SortValues :=
  mkSortValues (value_of FieldPid key record) (value_of FieldName key record)
    (value_of FieldResident key record) (value_of FieldCpu key record).
Definition sort_value (v : SortValues) (f : ProcessField) : SortValue :=
  match f with
  | FieldPid => sv_pid v | FieldName => sv_name v | FieldResident => sv_resident v | FieldCpu => sv_cpu v
  end.

(** [struct Row] *)
Record Row := mkRow {
  row_key : ProcessKey;
  row_item_id : ItemId;
  row_cells : list Value;
  row_value : Value;
  row_sort : SortValues;
  row_display_name : DisplayName;
}.

(** ** Comparison *)

(** [Ordering::then_with] *)
Definition then_with (c c' : comparison) : comparison := match c with Eq => c' | _ => c end.

(** [observed_order], [creation_order] and [process_key_order] *)
Definition observed_order {A} (cmp : A → A → comparison) (left right : Observed A) : comparison :=
  match left, right with
  | Known l, Known r => cmp l r
  | Known _, Missing _ => Lt
  | Missing _, Known _ => Gt
  | Missing _, Missing _ => Eq
  end.
Definition creation_order (left right : CreationToken) : comparison :=
  match left, right with
  | LinuxBootTicks l, LinuxBootTicks r => N.compare l r
  | Opaque_token l, Opaque_token r => String.compare l r
  | LinuxBootTicks _, Opaque_token _ => Lt
  | Opaque_token _, LinuxBootTicks _ => Gt
  end.
Definition process_key_order (left right : ProcessKey) : comparison :=
  then_with (String.compare (pk_source left) (pk_source right))
  (then_with (observed_order String.compare (pk_host left) (pk_host right))
  (then_with (observed_order String.compare (pk_boot left) (pk_boot right))
  (then_with (observed_order N.compare (pk_pid_namespace left) (pk_pid_namespace right))
  (then_with (observed_order N.compare (pk_pid left) (pk_pid right))
     (creation_order (pk_creation left) (pk_creation right)))))).

Definition directed (d : SortDirection) (c : comparison) : comparison :=
  match d with Ascending => c | Descending => CompOpp c end.

(** [sort::compare] *)
Definition compare (order : SortOrder) (left right : Row) : comparison :=
  let by_key := process_key_order (row_key left) (row_key right) in
  match sort_value (row_sort left) (so_field order), sort_value (row_sort right) (so_field order) with
  | SvMissing, SvMissing => by_key
  | SvMissing, _ => Gt
  | _, SvMissing => Lt
  | SvNumber l, SvNumber r => then_with (directed (so_direction order) (N.compare l r)) by_key
  | SvText l, SvText r => then_with (directed (so_direction order) (String.compare l r)) by_key
  | SvNumber _, SvText _ | SvText _, SvNumber _ => by_key
  end.

(** [slice::sort_by], which is stable *)
Fixpoint insert_sorted {A} (cmp : A → A → comparison) (x : A) (l : list A) : list A :=
  match l with
  | [] => [x]
  | y :: l => match cmp x y with Gt => y :: insert_sorted cmp x l | _ => x :: y :: l end
  end.
Definition sort_by {A} (cmp : A → A → comparison) (l : list A) : list A := foldr (insert_sorted cmp) [] l.

(** [sort_button_label] *)
Definition sort_button_label (f : ProcessField) (active : option SortDirection) : string :=
  "Sort by " +:+ button_name f +:+
  match active with None => "" | Some Ascending => " ↑" | Some Descending => " ↓" end.

(** ** Orderings *)

(** [cmp] orders the elements that satisfy [P]: a total preorder. *)
Record ordering {A} (P : A → Prop) (cmp : A → A → comparison) : Prop := {
  ord_opp : ∀ x y, P x → P y → cmp y x = CompOpp (cmp x y);
  ord_trans : ∀ x y z, P x → P y → P z → cmp x y ≠ Gt → cmp y z ≠ Gt → cmp x z ≠ Gt;
}.

Section orderings.
Context {A : Type} {P : A → Prop} {cmp : A → A → comparison} (Hcmp : ordering P cmp).

Lemma ord_refl x : P x → cmp x x = Eq.
Proof using Hcmp. intros Hx. pose proof (ord_opp _ _ Hcmp x x Hx Hx). by destruct (cmp x x). Qed.

Lemma ord_eq_trans x y z : P x → P y → P z → cmp x y = Eq → cmp y z = cmp x z.
Proof using Hcmp.
  intros Hx Hy Hz Heq. pose proof (ord_opp _ _ Hcmp x y Hx Hy) as Hyx. rewrite Heq in Hyx. cbn in Hyx.
  pose proof (ord_opp _ _ Hcmp x z Hx Hz) as Hzx. pose proof (ord_opp _ _ Hcmp y z Hy Hz) as Hzy.
  assert (cmp y z ≠ Gt ↔ cmp x z ≠ Gt) as H1.
  { split; intros ?; [eapply (ord_trans _ _ Hcmp x y z)|eapply (ord_trans _ _ Hcmp y x z)]; done || congruence. }
  assert (cmp z y ≠ Gt ↔ cmp z x ≠ Gt) as H2.
  { split; intros ?; [eapply (ord_trans _ _ Hcmp z y x)|eapply (ord_trans _ _ Hcmp z x y)]; done || congruence. }
  rewrite Hzx, Hzy in H2. destruct (cmp y z), (cmp x z); naive_solver.
Qed.

Lemma ord_eq_trans_r x y z : P x → P y → P z → cmp y z = Eq → cmp x y = cmp x z.
Proof using Hcmp.
  intros Hx Hy Hz Heq. pose proof (ord_eq_trans y z x Hy Hz Hx Heq) as Ht.
  rewrite (ord_opp _ _ Hcmp x z), (ord_opp _ _ Hcmp x y) in Ht by done.
  destruct (cmp x y), (cmp x z); cbn in Ht; congruence.
Qed.
End orderings.

Lemma ordering_then {A} (P : A → Prop) cmp cmp' : ordering P cmp → ordering P cmp' →
  ordering P (λ x y, then_with (cmp x y) (cmp' x y)).
Proof.
  intros Hc Hc'. split.
  - intros x y Hx Hy. rewrite (ord_opp _ _ Hc x y), (ord_opp _ _ Hc' x y) by done. by destruct (cmp x y), (cmp' x y).
  - intros x y z Hx Hy Hz. destruct (cmp x y) eqn:Hxy; cbn [then_with]; [| |done].
    + rewrite (ord_eq_trans Hc x y z) by done. destruct (cmp x z); cbn; [|done..]. by apply (ord_trans _ _ Hc').
    + intros _ Hyz. assert (cmp x z = Lt) as ->; [|done].
      assert (cmp x z ≠ Gt) as Hle by (apply (ord_trans _ _ Hc x y z); destruct (cmp y z); done || congruence).
      destruct (cmp x z) eqn:Hxz; [|done..].
      assert (cmp z x = Eq) as Hzx by by rewrite (ord_opp _ _ Hc x z), Hxz.
      rewrite (ord_eq_trans_r Hc y z x), (ord_opp _ _ Hc x y), Hxy in Hyz by done. done.
Qed.

Lemma ordering_pull {A B} (f : A → B) P cmp : ordering P cmp → ordering (λ x, P (f x)) (λ x y, cmp (f x) (f y)).
Proof. intros [Ho Ht]. split; [auto|]. intros x y z. apply Ht. Qed.

Lemma ordering_by {A B} (f : A → B) cmp : ordering (λ _, True) cmp → ordering (λ _, True) (λ x y, cmp (f x) (f y)).
Proof. apply (ordering_pull f (λ _, True)). Qed.

Lemma ordering_directed {A} (P : A → Prop) cmp d : ordering P cmp → ordering P (λ x y, directed d (cmp x y)).
Proof.
  intros [Ho Ht]. destruct d; [done|]. cbn. split.
  - intros x y Hx Hy. by rewrite (Ho x y).
  - intros x y z Hx Hy Hz. rewrite <- !Ho by done. intros. by apply (Ht z y x).
Qed.

Lemma ordering_N : ordering (λ _, True) N.compare.
Proof.
  split; [intros x y _ _; apply N.compare_antisym|]. intros x y z _ _ _. exact (N.le_trans x y z).
Qed.

Lemma ordering_ascii : ordering (λ _, True) Ascii.compare.
Proof. apply (ordering_pull Ascii.N_of_ascii (λ _, True)), ordering_N. Qed.

Lemma ordering_string : ordering (λ _, True) String.compare.
Proof.
  assert (∀ x y, String.compare y x = CompOpp (String.compare x y)) as Hopp.
  { intros x. induction x as [|c x IH]; intros [|c' y]; cbn; try done.
    rewrite (ord_opp _ _ ordering_ascii c c') by done. destruct (Ascii.compare c c'); cbn; auto. }
  split; [auto|]. intros x y z _ _ _. revert y z. induction x as [|c x IH]; intros y z.
  - by destruct z.
  - destruct y as [|c' y]; [done|]. destruct z as [|c2 z]; [by cbn|]. cbn.
    destruct (Ascii.compare c c') eqn:H1; [| |done].
    + rewrite (ord_eq_trans ordering_ascii c c' c2) by done. destruct (Ascii.compare c c2); [|done..]. apply IH.
    + intros _ H2. assert (Ascii.compare c c2 = Lt) as ->; [|done].
      assert (Ascii.compare c c2 ≠ Gt) as Hle.
      { apply (ord_trans _ _ ordering_ascii c c' c2); [done..|congruence|]. by destruct (Ascii.compare c' c2). }
      destruct (Ascii.compare c c2) eqn:Hxz; [|done..].
      assert (Ascii.compare c2 c = Eq) as Hzx by by rewrite (ord_opp _ _ ordering_ascii c c2), Hxz.
      rewrite (ord_eq_trans_r ordering_ascii c' c2 c), (ord_opp _ _ ordering_ascii c c'), H1 in H2 by done. done.
Qed.

Lemma ordering_observed {A} (cmp : A → A → comparison) : ordering (λ _, True) cmp →
  ordering (λ _, True) (observed_order cmp).
Proof.
  intros [Ho Ht]. split.
  - intros [x|?] [y|?] _ _; cbn; auto.
  - intros [x|?] [y|?] [z|?] _ _ _; cbn; try done. by apply Ht.
Qed.

Lemma ordering_creation : ordering (λ _, True) creation_order.
Proof.
  split.
  - intros [x|x] [y|y] _ _; cbn; [by apply (ord_opp _ _ ordering_N)|done..|by apply (ord_opp _ _ ordering_string)].
  - intros [x|x] [y|y] [z|z] _ _ _; cbn; try done; [by apply (ord_trans _ _ ordering_N)|by apply (ord_trans _ _ ordering_string)].
Qed.

Lemma ordering_key : ordering (λ _, True) process_key_order.
Proof.
  unfold process_key_order.
  apply (ordering_then _ (λ l r, String.compare (pk_source l) (pk_source r)));
    [apply (ordering_by pk_source), ordering_string|].
  apply (ordering_then _ (λ l r, observed_order String.compare (pk_host l) (pk_host r)));
    [apply (ordering_by pk_host), ordering_observed, ordering_string|].
  apply (ordering_then _ (λ l r, observed_order String.compare (pk_boot l) (pk_boot r)));
    [apply (ordering_by pk_boot), ordering_observed, ordering_string|].
  apply (ordering_then _ (λ l r, observed_order N.compare (pk_pid_namespace l) (pk_pid_namespace r)));
    [apply (ordering_by pk_pid_namespace), ordering_observed, ordering_N|].
  apply (ordering_then _ (λ l r, observed_order N.compare (pk_pid l) (pk_pid r)));
    [apply (ordering_by pk_pid), ordering_observed, ordering_N|].
  apply (ordering_by pk_creation), ordering_creation.
Qed.

(** ** srtop: facts about the order of the collection

    The comparison of rows is a total preorder, and sorting by it gives the one
    arrangement that is ascending and keeps equal rows as they stood. *)

(** The values of a column have one shape. *)
Definition shaped (f : ProcessField) (v : SortValue) : Prop :=
  match v with
  | SvMissing => True
  | SvText _ => f = FieldName
  | SvNumber _ => f ≠ FieldName
  end.
Definition row_shaped (r : Row) : Prop := ∀ f, shaped f (sort_value (row_sort r) f).

Lemma of_record_shaped key record f : shaped f (sort_value (of_record key record) f).
Proof. destruct f; cbn; unfold value_of; repeat case_match; done. Qed.

Definition value_order (d : SortDirection) (left right : SortValue) : comparison :=
  match left, right with
  | SvMissing, SvMissing => Eq
  | SvMissing, _ => Gt
  | _, SvMissing => Lt
  | SvNumber l, SvNumber r => directed d (N.compare l r)
  | SvText l, SvText r => directed d (String.compare l r)
  | SvNumber _, SvText _ | SvText _, SvNumber _ => Eq
  end.

Lemma compare_lexicographic o l r : compare o l r =
  then_with (value_order (so_direction o) (sort_value (row_sort l) (so_field o)) (sort_value (row_sort r) (so_field o)))
    (process_key_order (row_key l) (row_key r)).
Proof.
  unfold compare, value_order.
  by destruct (sort_value (row_sort l) (so_field o)), (sort_value (row_sort r) (so_field o)).
Qed.

Lemma ordering_value d f : ordering (shaped f) (value_order d).
Proof.
  pose proof (ordering_directed _ _ d ordering_N) as HN. pose proof (ordering_directed _ _ d ordering_string) as HS.
  split.
  - intros [x|x|] [y|y|]; cbn; intros ??; try done; [by apply (ord_opp _ _ HN)|by apply (ord_opp _ _ HS)].
  - intros [x|x|] [y|y|] [z|z|]; cbn; intros ???; try done; [by apply (ord_trans _ _ HN)|by apply (ord_trans _ _ HS)].
Qed.

Lemma ordering_compare o : ordering row_shaped (compare o).
Proof.
  assert (ordering row_shaped (λ l r, then_with (value_order (so_direction o) (sort_value (row_sort l) (so_field o))
    (sort_value (row_sort r) (so_field o))) (process_key_order (row_key l) (row_key r)))) as [Ho Ht].
  { apply ordering_then.
    - destruct (ordering_value (so_direction o) (so_field o)) as [Ho Ht]. split.
      + intros x y Hx Hy. apply Ho; [apply Hx|apply Hy].
      + intros x y z Hx Hy Hz. apply Ht; [apply Hx|apply Hy|apply Hz].
    - destruct ordering_key as [Ho Ht]. split; [auto|]. intros x y z _ _ _. by apply Ht. }
  split.
  - intros x y. rewrite !compare_lexicographic. apply Ho.
  - intros x y z. rewrite !compare_lexicographic. apply Ht.
Qed.

(** ** Sorting *)

Section sorting.
Context {A : Type} {P : A → Prop} {cmp : A → A → comparison} (Hcmp : ordering P cmp).

Definition cmp_le (x y : A) : Prop := cmp x y ≠ Gt.

Lemma insert_sorted_perm x l : insert_sorted cmp x l ≡ₚ x :: l.
Proof using Type.
  induction l as [|y l IH]; cbn; [done|]. destruct (cmp x y); [done..|]. rewrite IH. constructor.
Qed.
Lemma sort_by_perm l : sort_by cmp l ≡ₚ l.
Proof using Type. induction l as [|x l IH]; cbn; [done|]. rewrite insert_sorted_perm. by rewrite <- IH at 2. Qed.

Lemma insert_sorted_ascending x l : P x → Forall P l → StronglySorted cmp_le l →
  StronglySorted cmp_le (insert_sorted cmp x l).
Proof using Hcmp.
  intros Hx HP Hs. induction Hs as [|y l Hs IH Hy]; cbn; [repeat constructor|].
  apply Forall_cons in HP as [HPy HP]. destruct (cmp x y) eqn:Hxy.
  1,2: constructor; [by constructor|]; constructor; [unfold cmp_le; congruence|];
    rewrite Forall_forall in Hy, HP |- *; intros z Hz;
    apply (ord_trans _ _ Hcmp x y z); [done|done|by apply HP|congruence|by apply Hy].
  constructor; [by apply IH|]. rewrite insert_sorted_perm. constructor; [|done].
  unfold cmp_le. rewrite (ord_opp _ _ Hcmp x y), Hxy by done. done.
Qed.
Lemma sort_by_ascending l : Forall P l → StronglySorted cmp_le (sort_by cmp l).
Proof using Hcmp.
  induction 1 as [|x l Hx HP IH]; [constructor|].
  change (sort_by cmp (x :: l)) with (insert_sorted cmp x (sort_by cmp l)). apply insert_sorted_ascending; [done| |done].
  by rewrite sort_by_perm.
Qed.

(** Rows that are equal stay in the order they had. *)
Lemma insert_sorted_stable x l z : P x → P z → Forall P l → StronglySorted cmp_le l →
  filter (λ y, cmp z y = Eq) (insert_sorted cmp x l) = filter (λ y, cmp z y = Eq) (x :: l).
Proof using Hcmp.
  intros Hx Hz HP Hs. induction Hs as [|y l Hs IH Hy]; cbn [insert_sorted]; [done|].
  apply Forall_cons in HP as [HPy HP]. destruct (cmp x y) eqn:Hxy; [done..|].
  rewrite filter_cons, IH by done. rewrite !(filter_cons _ _ (y :: l)), !filter_cons.
  destruct (decide (cmp z y = Eq)) as [Hzy|]; [|done]. destruct (decide (cmp z x = Eq)) as [Hzx|]; [|done].
  exfalso. rewrite (ord_eq_trans Hcmp z x y) in Hxy by done. congruence.
Qed.
Lemma sort_by_stable l z : P z → Forall P l → filter (λ y, cmp z y = Eq) (sort_by cmp l) = filter (λ y, cmp z y = Eq) l.
Proof using Hcmp.
  intros Hz. induction 1 as [|x l Hx HP IH]; [done|].
  change (sort_by cmp (x :: l)) with (insert_sorted cmp x (sort_by cmp l)). rewrite insert_sorted_stable; [|done..| |by apply sort_by_ascending]; [|by rewrite sort_by_perm].
  rewrite !filter_cons. by rewrite IH.
Qed.

(** Where only equal rows compare equal, the arrangement depends on the rows alone. *)
Lemma sort_by_unique l l' : Forall P l → l ≡ₚ l' → (∀ x y, x ∈ l → y ∈ l → cmp x y = Eq → x = y) →
  sort_by cmp l = sort_by cmp l'.
Proof using Hcmp.
  intros HP Hperm Hinj. apply (StronglySorted_unique_strong cmp_le).
  - intros x y Hx Hy Hxy Hyx. rewrite sort_by_perm in Hx, Hy. rewrite <- Hperm in Hy.
    rewrite Forall_forall in HP. apply Hinj; [done..|]. unfold cmp_le in *.
    rewrite (ord_opp _ _ Hcmp x y) in Hyx by auto. by destruct (cmp x y).
  - by apply sort_by_ascending.
  - apply sort_by_ascending. by rewrite <- Hperm.
  - by rewrite !sort_by_perm.
Qed.
End sorting.

(** Missing values are last. *)
Lemma missing_last o l1 r1 l2 r2 l3 : StronglySorted (cmp_le (cmp := compare o)) (l1 ++ r1 :: l2 ++ r2 :: l3) →
  sort_value (row_sort r1) (so_field o) = SvMissing → sort_value (row_sort r2) (so_field o) = SvMissing.
Proof.
  intros Hs Hm. apply StronglySorted_app in Hs as (_ & _ & Hs).
  apply StronglySorted_inv in Hs as [_ Hall]. rewrite Forall_forall in Hall.
  specialize (Hall r2 ltac:(apply elem_of_app; right; left)). unfold cmp_le, compare in Hall. rewrite Hm in Hall.
  by destruct (sort_value (row_sort r2) (so_field o)).
Qed.

(** Keys that compare equal differ in nothing but the reasons of what is missing. *)
Definition same_observed {A} (x y : Observed A) : Prop :=
  match x, y with Known a, Known b => a = b | Missing _, Missing _ => True | _, _ => False end.
Record same_key (k k' : ProcessKey) : Prop := {
  sk_source : pk_source k = pk_source k';
  sk_host : same_observed (pk_host k) (pk_host k');
  sk_boot : same_observed (pk_boot k) (pk_boot k');
  sk_pid_namespace : same_observed (pk_pid_namespace k) (pk_pid_namespace k');
  sk_pid : same_observed (pk_pid k) (pk_pid k');
  sk_creation : pk_creation k = pk_creation k';
}.

Lemma then_with_eq c c' : then_with c c' = Eq ↔ c = Eq ∧ c' = Eq.
Proof. destruct c; cbn; naive_solver. Qed.
Lemma observed_order_eq {A} (cmp : A → A → comparison) x y : (∀ a b, cmp a b = Eq ↔ a = b) →
  observed_order cmp x y = Eq ↔ same_observed x y.
Proof. intros Hc. destruct x, y; cbn; [apply Hc|done..]. Qed.
Lemma string_compare_eq a b : String.compare a b = Eq ↔ a = b.
Proof. split; [apply String.compare_eq_iff|]. intros ->. by apply (ord_refl ordering_string). Qed.

Lemma process_key_order_eq k k' : process_key_order k k' = Eq ↔ same_key k k'.
Proof.
  unfold process_key_order. rewrite !then_with_eq, !observed_order_eq, string_compare_eq
    by (apply string_compare_eq || apply N.compare_eq_iff).
  assert (creation_order (pk_creation k) (pk_creation k') = Eq ↔ pk_creation k = pk_creation k') as ->.
  { destruct (pk_creation k), (pk_creation k'); cbn; rewrite ?N.compare_eq_iff, ?string_compare_eq; naive_solver. }
  split; [intros (? & ? & ? & ? & ? & ?); by split|intros []; tauto].
Qed.
