(* ===== verification/SrtopProcfs.v ===== *)
(** * srtop: the scan of the process file system

    Models [apps/srtop/src/procfs.rs]: what the lines of the kernel's files say, the
    measurement of CPU usage between two samples, and a scan.  What the operating
    system answers a read, a link or a listing with is an argument, and so are the
    clocks; bytes are numbers below 256, a 64-bit target is little-endian. *)

From Stdlib Require Import Ascii String.
From S2P Require Import Prelude.
From S2P Require Import Limits.
From S2P Require Import SrtopData.
From S2P Require Import SrtopSort.
From S2P Require Import SrtopText.

#[local] Open Scope N_scope.

(** ** Bytes *)

Definition is_digit (b : N) : bool := within b 48 57.
Definition is_ascii_whitespace (b : N) : bool := existsb (N.eqb b) [32; 9; 10; 12; 13].
Definition all_digits (field : list N) : bool := forallb is_digit field.
Definition decimal_value (field : list N) : N := foldl (λ acc b, acc * 10 + (b - 48)) 0 field.

(** [str::parse] of an unsigned integer, which takes a plus sign. *)
Definition parse_uint (max : N) (field : list N) : option N :=
  let digits := match field with b :: rest => if b =? 43 then rest else field | [] => [] end in
  match digits with
  | [] => None
  | _ => if all_digits digits && (decimal_value digits <=? max) then Some (decimal_value digits) else None
  end.
Definition u32_max : N := 2 ^ 32 - 1.

(** [parse_pid] and [parse_count] *)
Definition parse_pid (name : list N) : option N :=
  if (length name =? 0)%nat || (10 <? length name)%nat || negb (all_digits name) then None
  else match parse_uint u32_max name with Some pid => if pid =? 0 then None else Some pid | None => None end.
Definition parse_count (field : list N) : option N :=
  if (length field =? 0)%nat || negb (all_digits field) then None else parse_uint u64_max field.

(** [strip_prefix], [strip_suffix], [position], [rposition] and [trim_ascii] *)
Fixpoint strip_prefix (prefix l : list N) : option (list N) :=
  match prefix, l with
  | [], _ => Some l
  | p :: prefix, b :: l => if p =? b then strip_prefix prefix l else None
  | _ :: _, [] => None
  end.
Definition strip_suffix (suffix l : list N) : option (list N) := reverse <$> strip_prefix (reverse suffix) (reverse l).
Fixpoint position (p : N → bool) (l : list N) : option nat :=
  match l with
  | [] => None
  | b :: l => if p b then Some 0%nat else S <$> position p l
  end.
Fixpoint rposition (p : N → bool) (l : list N) : option nat :=
  match l with
  | [] => None
  | b :: l => match rposition p l with Some i => Some (S i) | None => if p b then Some 0%nat else None end
  end.
Definition trim_ascii (bytes : list N) : list N :=
  let start := default (length bytes) (position (λ b, negb (is_ascii_whitespace b)) bytes) in
  let stop := match rposition (λ b, negb (is_ascii_whitespace b)) bytes with Some i => S i | None => start end in
  take (stop - start) (drop start bytes).
Definition fields_of (sep : N → bool) (bytes : list N) : list (list N) := filter (λ f, f ≠ []) (split_on sep bytes).

(** [parse_namespace_of_kind]; a byte that is not UTF-8 is no digit either way. *)
Definition parse_namespace_of_kind (link : list N) (kind : string) : option N :=
  rest ← strip_prefix (bytes_of_string kind) link;
  rest ← strip_prefix (bytes_of_string ":[") rest;
  inner ← strip_suffix (bytes_of_string "]") rest;
  parse_uint u64_max inner.
Definition parse_namespace (link : list N) : option N := parse_namespace_of_kind link "pid".

(** ** The lines of a record *)

Definition STARTTIME_FIELD_AFTER_COMM : nat := 19.
Definition UTIME_FIELD_AFTER_COMM : nat := 11.
Definition STIME_FIELD_AFTER_COMM : nat := 12.
Definition STATM_FIELDS : nat := 7.
Definition STATM_RESIDENT : nat := 1.

(** [struct StatFields] and [parse_stat] *)
Record StatFields := mkStat { sf_display_name : DisplayName; sf_start_ticks : N; sf_cpu_ticks : option N }.
Definition stat_fields (bytes : list N) (close : nat) : list (list N) :=
  take (S STARTTIME_FIELD_AFTER_COMM) (fields_of is_ascii_whitespace (drop (S close) bytes)).
Definition parse_stat (pid : N) (bytes : list N) : option StatFields :=
  open ← position (N.eqb 40) bytes;
  close ← rposition (N.eqb 41) bytes;
  if (close <? open)%nat then None
  else if bool_decide (parse_pid (trim_ascii (take open bytes)) ≠ Some pid) then None
  else
    let count i := stat_fields bytes close !! i ≫= parse_uint u64_max in
    start_ticks ← count STARTTIME_FIELD_AFTER_COMM;
    let cpu_ticks :=
      match count UTIME_FIELD_AFTER_COMM, count STIME_FIELD_AFTER_COMM with
      | Some user, Some system => checked_add64 user system
      | _, _ => None
      end in
    Some (mkStat (sanitize (take (close - S open) (drop (S open) bytes))) start_ticks cpu_ticks).

(** [parse_statm_resident] *)
Definition parse_statm_resident (bytes : list N) : option N :=
  line ← strip_suffix [10] bytes;
  let fields := split_on (N.eqb 32) line in
  counts ← mapM parse_count (take STATM_FIELDS fields);
  if (length fields =? STATM_FIELDS)%nat then counts !! STATM_RESIDENT else None.

(** ** The auxiliary vector *)

Definition AT_NULL : N := 0.
Definition AT_PAGESZ : N := 6.
Definition AT_CLKTCK : N := 17.
Definition MIN_PAGE_SIZE : N := 512.
Definition MAX_PAGE_SIZE : N := N.shiftl 1 30.
Definition MAX_CLOCK_TICKS_PER_SECOND : N := 1000000.
Definition native_word (bytes : list N) : N := foldr (λ b n, b + 256 * n) 0 bytes.
Fixpoint auxv_walk (fuel : nat) (bytes : list N) (wanted : N) : option N :=
  match fuel with
  | O => None
  | S fuel =>
      if (length bytes <? 16)%nat then None
      else
        let key := native_word (take 8 bytes) in
        if key =? AT_NULL then None
        else if key =? wanted then Some (native_word (take 8 (drop 8 bytes)))
        else auxv_walk fuel (drop 16 bytes) wanted
  end.
Definition auxv_value (bytes : list N) (wanted : N) : option N := auxv_walk (S (length bytes)) bytes wanted.
Definition is_power_of_two (n : N) : bool := negb (n =? 0) && (N.land n (n - 1) =? 0).
Definition parse_page_size (bytes : list N) : option N :=
  value ← auxv_value bytes AT_PAGESZ;
  if is_power_of_two value && within value MIN_PAGE_SIZE MAX_PAGE_SIZE then Some value else None.
Definition parse_clock_ticks (bytes : list N) : option N :=
  rate ← auxv_value bytes AT_CLKTCK; if within rate 1 MAX_CLOCK_TICKS_PER_SECOND then Some rate else None.

(** [resident_bytes] *)
Definition checked_mul64 (a b : N) : option N := if (a * b <=? u64_max)%N then Some (a * b)%N else None.
Definition resident_bytes (pages page_size : Observed N) : Observed N :=
  match pages, page_size with
  | Known pages, Known size =>
      match checked_mul64 pages size with Some bytes => Known bytes | None => Missing ReasonUnavailable end
  | Missing reason, _ => Missing reason
  | _, Missing reason => Missing reason
  end.

(** ** System-wide figures *)

(** [enum FigureGap], [struct SystemCpuInterval], [enum SystemCpu], and the figures *)
Inductive FigureGap := NotProvided | Unread (reason : MissingReason) | Unusable.
Abbreviation Figure A := (A + FigureGap)%type.
Record SystemCpuInterval := mkSystemInterval { si_busy : N; si_total : N; si_cpus : option N }.
Inductive SystemCpu := SystemMeasured (i : SystemCpuInterval) | SystemWarmingUp | SystemInterrupted | SystemMissing (gap : FigureGap).
Record MemoryFigures := mkMemory { mf_total : N; mf_available : N }.
Record SwapFigures := mkSwap { wf_total : N; wf_free : N }.
Record LoadAverages := mkLoad { la_one : N; la_five : N; la_fifteen : N }.
Record SystemSample := mkSample {
  ss_cpu : SystemCpu; ss_memory : Figure MemoryFigures; ss_swap : Figure SwapFigures;
  ss_uptime : Figure N; ss_load : Figure LoadAverages }.
Definition sample_missing (gap : FigureGap) : SystemSample :=
  mkSample (SystemMissing gap) (inr gap) (inr gap) (inr gap) (inr gap).

(** [parse_stat_cpu_line] *)
Definition STAT_CPU_FIELDS : nat := 8.
Definition MAX_STAT_CPU_FIELDS : nat := 64.
Definition sum_checked (counts : list N) : option N := foldl (λ acc n, a ← acc; checked_add64 a n) (Some 0) counts.
Definition parse_stat_cpu_line (line : list N) : option (N * N) :=
  line ← strip_suffix [10] line;
  match fields_of (N.eqb 32) line with
  | name :: fields =>
      if bool_decide (name ≠ bytes_of_string "cpu") || (MAX_STAT_CPU_FIELDS <? length fields)%nat then None
      else
        counts ← mapM parse_count fields;
        match counts with
        | user :: nice :: system :: idle :: iowait :: irq :: softirq :: steal :: _ =>
            busy ← sum_checked [user; nice; system; irq; softirq; steal];
            idle ← checked_add64 idle iowait;
            Some (busy, idle)
        | _ => None
        end
  | [] => None
  end.

(** The answers of the operating system.  A file that is read line by line is its
    bytes and how the reading ends after them. *)
Inductive IoKind := IoNotFound | IoPermissionDenied | IoNoSuchProcess | IoOther.
Record IoError := mkIoError { io_kind : IoKind; io_text : string }.
Abbreviation io A := (A + IoError)%type.
Record Stream := mkStream { st_bytes : list N; st_end : option IoError }.

(** [reason_for], [ended] and [read_bounded] *)
Definition reason_for (e : IoError) : MissingReason :=
  match io_kind e with IoPermissionDenied => ReasonDenied | _ => ReasonUnavailable end.
Definition ended (e : IoError) : bool := match io_kind e with IoNotFound | IoNoSuchProcess => true | _ => false end.
Definition MAX_FILE_BYTES : N := 64 * 1024.
Definition read_bounded (answer : io (list N)) : io (list N) :=
  match answer with
  | inl bytes => if MAX_FILE_BYTES <? len bytes then inr (mkIoError IoOther "exceeds the 65536 byte read bound") else inl bytes
  | inr e => inr e
  end.

(** [read_stat_cpu]: [next_line] reads through a newline, a bound or the end. *)
Definition MAX_STAT_CPU_BYTES : N := 2 * 1024 * 1024.
Definition MAX_STAT_CPU_LINE_BYTES : nat := 4096.
Definition next_line (s : Stream) : io (list N) * Stream :=
  let bound := take MAX_STAT_CPU_LINE_BYTES (st_bytes s) in
  match position (N.eqb 10) bound with
  | Some i => (inl (take (S i) bound), mkStream (drop (S i) (st_bytes s)) (st_end s))
  | None =>
      if (length bound =? MAX_STAT_CPU_LINE_BYTES)%nat then (inl bound, mkStream (drop MAX_STAT_CPU_LINE_BYTES (st_bytes s)) (st_end s))
      else (match st_end s with Some e => inr e | None => inl bound end, mkStream [] (st_end s))
  end.
Definition is_cpu_line (line : list N) : bool :=
  match strip_prefix (bytes_of_string "cpu") line with Some (b :: _) => is_digit b | _ => false end.
Record SystemCpuCounters := mkCounters { sc_busy : N; sc_idle : N; sc_cpus : option N }.
Fixpoint count_cpus (fuel : nat) (s : Stream) (cpus read : N) : io (N * bool) :=
  match fuel with
  | O => inl (cpus, true)
  | S fuel =>
      let '(r, s) := next_line s in
      match r with
      | inr e => inr e
      | inl line =>
          if negb (is_cpu_line line) then inl (cpus, true)
          else
            let read := read + len line in
            if negb (bool_decide (last line = Some 10)) || (MAX_STAT_CPU_BYTES <? read) then inl (cpus, false)
            else if u32_max <? cpus + 1 then inl (cpus, false)
            else count_cpus fuel s (cpus + 1) read
      end
  end.
Definition read_stat_cpu (stat : io Stream) : io (option SystemCpuCounters) :=
  match stat with
  | inr e => inr e
  | inl s =>
      let '(r, s) := next_line s in
      match r with
      | inr e => inr e
      | inl line =>
          match parse_stat_cpu_line line with
          | None => inl None
          | Some (busy, idle) =>
              match count_cpus (S (length (st_bytes s))) s 0 0 with
              | inr e => inr e
              | inl (cpus, counted) => inl (Some (mkCounters busy idle (if counted && (0 <? cpus) then Some cpus else None)))
              end
          end
      end
  end.

(** [system_cpu_since] *)
Definition checked_sub (a b : N) : option N := if b <=? a then Some (a - b) else None.
Definition system_cpu_since (previous : option SystemCpuCounters) (current : SystemCpuCounters) : SystemCpu * SystemCpuCounters :=
  match previous with
  | None => (SystemWarmingUp, current)
  | Some previous =>
      if bool_decide (sc_cpus previous ≠ sc_cpus current) then (SystemInterrupted, current)
      else
        match checked_sub (sc_busy current) (sc_busy previous), checked_sub (sc_idle current) (sc_idle previous) with
        | Some busy, Some idle =>
            match checked_add64 busy idle with
            | Some total =>
                if total =? 0 then (SystemInterrupted, current)
                else (SystemMeasured (mkSystemInterval busy total (sc_cpus current)), current)
            | None => (SystemInterrupted, current)
            end
        | _, _ => (SystemInterrupted, current)
        end
  end.

(** [meminfo_bytes], [parse_memory] and [parse_swap] *)
Definition meminfo_bytes (meminfo : list N) (key : string) : option N :=
  let after line := strip_prefix (bytes_of_string key) line in
  line ← find (λ line, match after line with Some (b :: _) => b =? 58 | _ => false end) (split_on (N.eqb 10) meminfo);
  let value := drop (S (String.length key)) line in
  digits ← position (λ b, negb (b =? 32)) value;
  if (digits =? 0)%nat then None
  else
    field ← strip_suffix (bytes_of_string " kB") (drop digits value);
    count ← parse_count field;
    checked_mul64 count 1024.
Definition parse_memory (meminfo : list N) : Figure MemoryFigures :=
  match meminfo_bytes meminfo "MemTotal", meminfo_bytes meminfo "MemAvailable" with
  | Some total, Some available =>
      if (total =? 0) || (total <? available) then inr Unusable else inl (mkMemory total available)
  | _, _ => inr Unusable
  end.
Definition parse_swap (meminfo : list N) : Figure SwapFigures :=
  match meminfo_bytes meminfo "SwapTotal", meminfo_bytes meminfo "SwapFree" with
  | Some total, Some free => if total <? free then inr Unusable else inl (mkSwap total free)
  | _, _ => inr Unusable
  end.

(** [parse_hundredths], [parse_uptime] and [parse_loadavg] *)
Definition parse_hundredths (field : list N) : option N :=
  dot ← position (N.eqb 46) field;
  let fraction := drop (S dot) field in
  if negb (length fraction =? 2)%nat then None
  else
    whole ← parse_count (take dot field);
    hundreds ← checked_mul64 whole 100;
    hundredths ← parse_count fraction;
    checked_add64 hundreds hundredths.
Definition parse_uptime (bytes : list N) : option N :=
  line ← strip_suffix [10] bytes;
  match split_on (N.eqb 32) line with
  | [uptime; idle] => uptime ← parse_hundredths uptime; _ ← parse_hundredths idle; Some (uptime / 100)
  | _ => None
  end.
Definition parse_loadavg (bytes : list N) : option LoadAverages :=
  line ← strip_suffix [10] bytes;
  match split_on (N.eqb 32) line with
  | [one; five; fifteen; tasks; last_pid] =>
      slash ← position (N.eqb 47) tasks;
      _ ← parse_count (take slash tasks);
      _ ← parse_count (drop (S slash) tasks);
      _ ← parse_count (default last_pid (strip_prefix [45] last_pid));
      one ← parse_hundredths one; five ← parse_hundredths five; fifteen ← parse_hundredths fifteen;
      Some (mkLoad one five fifteen)
  | _ => None
  end.

(** ** CPU usage between two samples *)

(** [struct CpuBaseline], [interval_since] and [sample_cpu] *)
Record CpuBaseline := mkBaseline { cb_ticks : N; cb_at : N }.
Definition interval_since (previous : option CpuBaseline) (current : CpuBaseline) : (N * N + CpuUsage) * CpuBaseline :=
  match previous with
  | None => (inr WarmingUp, current)
  | Some previous =>
      match checked_sub (cb_at current) (cb_at previous) with
      | None => (inr (CpuMissing ReasonUnavailable), current)
      | Some elapsed =>
          if elapsed =? 0 then (inr (CpuMissing ReasonUnavailable), previous)
          else
            match checked_sub (cb_ticks current) (cb_ticks previous) with
            | Some ticks => (inl (ticks, elapsed), current)
            | None => (inr (CpuMissing ReasonUnavailable), current)
            end
      end
  end.
Definition sample_cpu (previous : option CpuBaseline) (current : CpuBaseline) (ticks_per_second : Observed N)
    : CpuUsage * CpuBaseline :=
  let '(usage, keep) := interval_since previous current in
  match usage, ticks_per_second with
  | _, Missing reason => (CpuMissing reason, keep)
  | inl (ticks, elapsed), Known rate => (Measured (mkCpuInterval ticks rate elapsed), keep)
  | inr usage, Known _ => (usage, keep)
  end.

(** [identity_changed] *)
Definition identity_changed `{EqDecision A} (remembered : option A) (observed : Observed A) : option A * bool :=
  match observed with
  | Missing _ => (remembered, false)
  | Known value => (Some value, match remembered with Some known => bool_decide (known ≠ value) | None => false end)
  end.

(** ** The identity of the scanned tree *)

(** What the links and directories of the root answer: [self], its target, and the
    inodes of it and of the reader's own. *)
Record MountAnswers := mkMountAnswers {
  ma_self_is_link : option bool; ma_self_target : option (list N);
  ma_scanned_self : option (N * N); ma_own_self : option (N * N); ma_process_id : N }.
Inductive MountKind := MountTree | MountOwn | MountUnproven.
#[export] Instance MountKind_eq_dec : EqDecision MountKind.
Proof. solve_decision. Defined.
Definition readers_namespace_describes (numbers_this_process is_own_procfs : bool) : bool := numbers_this_process && is_own_procfs.
Definition mount_kind (m : MountAnswers) : MountKind :=
  match ma_self_is_link m with
  | None => MountUnproven
  | Some false => MountTree
  | Some true =>
      let numbers_this_process := bool_decide ((ma_self_target m ≫= parse_pid) = Some (ma_process_id m)) in
      let own_procfs := match ma_scanned_self m, ma_own_self m with Some a, Some b => bool_decide (a = b) | _, _ => false end in
      if readers_namespace_describes numbers_this_process own_procfs then MountOwn else MountUnproven
  end.

(** [host_label], [uts_namespace_tag] *)
Inductive HostLabel := Plain | Qualified (tag : string) | Unidentifiable (why : string).
Definition host_label (mount : MountKind) (uts : option string) : HostLabel :=
  match mount, uts with
  | MountTree, _ => Plain
  | MountUnproven, _ =>
      Unidentifiable "a procfs mount this scan cannot prove is its own, so its hostname would be the reader's"
  | MountOwn, Some tag => Qualified tag
  | MountOwn, None => Unidentifiable "the reader's UTS namespace could not be named, so its hostname identifies nothing"
  end.
Definition uts_namespace_tag (link : option (list N)) : option string :=
  inode ← link ≫= (λ l, parse_namespace_of_kind l "uts"); Some ("uts:[" +:+ pretty inode +:+ "]").

(** [identity] *)
Definition lossy (bytes : list N) : string := string_of_chars (from_utf8_lossy bytes).
Definition identity (relative : string) (scope : IssueScope) (answer : io (list N)) (wrap : string → string)
    (issues : list EnumerationIssue) : Observed string * list EnumerationIssue :=
  match read_bounded answer with
  | inl bytes =>
      match trim_chars (from_utf8_lossy bytes) with
      | [] => (Missing ReasonUnavailable, record_issue issues (mkIssue scope ReasonUnavailable (relative +:+ " is empty")))
      | text => (Known (wrap (string_of_chars text)), issues)
      end
  | inr e => (Missing (reason_for e), record_issue issues (mkIssue scope (reason_for e) (relative +:+ ": " +:+ io_text e)))
  end.

(** [pid_namespace] *)
Definition pid_namespace (root : string) (mount : MountKind) (init_link : option (list N)) (self_link : io (list N))
    (issues : list EnumerationIssue) : Observed N * list EnumerationIssue :=
  match init_link ≫= parse_namespace with
  | Some inode => (Known inode, issues)
  | None =>
      if bool_decide (mount = MountUnproven) then
        (Missing ReasonUnavailable, record_issue issues (mkIssue ScopePidNamespace ReasonUnavailable
          (root +:+ " numbers its records in a PID namespace this scan cannot prove is its own")))
      else
        match self_link with
        | inl target =>
            match parse_namespace target with
            | Some inode => (Known inode, issues)
            | None => (Missing ReasonUnavailable,
                record_issue issues (mkIssue ScopePidNamespace ReasonUnavailable "self/ns/pid is not a pid:[inode] link"))
            end
        | inr e => (Missing (reason_for e),
            record_issue issues (mkIssue ScopePidNamespace (reason_for e) ("self/ns/pid: " +:+ io_text e)))
        end
  end.

(** ** The source *)

(** [struct ProcFsSource], without its clocks *)
Record ProcFsSource := mkSource {
  pf_root : list N; pf_source : string; pf_status : string; pf_record_limit : N; pf_uncertain_limit : N; pf_anchored : bool;
  pf_cpu_baselines : gmap (N * N) CpuBaseline; pf_cpu_boot : option string; pf_cpu_namespace : option N;
  pf_system_baseline : option SystemCpuCounters }.
Definition MAX_RECORDS : N := 65536.
Definition MAX_UNCERTAIN_PIDS : N := (DEFAULT_MAX_CACHED_ITEMS_PER_MODEL - MAX_RECORDS) / 2.

(** [anchor_root] and [source_id_for] *)
Definition anchor_root (root : list N) (working_directory : option (list N)) : option (list N) :=
  match root with
  | 47 :: _ => Some root
  | _ => (λ working, if default 47 (last working) =? 47 then working ++ root else working ++ [47] ++ root) <$> working_directory
  end.
Definition hex_digit (n : N) : N := if n <? 10 then 48 + n else 87 + n.
Definition hex_byte (b : N) : list N := [hex_digit (b / 16); hex_digit (b mod 16)].
Definition source_id_for (root : list N) : string :=
  match from_utf8 root with
  | Some _ => "procfs:" +:+ string_of_bytes root
  | None => "procfs-bytes:" +:+ string_of_bytes (root ≫= hex_byte)
  end.

(** [rooted] and [with_root] *)
Definition rooted (root : list N) (status : string) : ProcFsSource :=
  mkSource root (source_id_for root) status MAX_RECORDS MAX_UNCERTAIN_PIDS true ∅ None None None.
Definition with_root (given : list N) (working_directory : option (list N)) : ProcFsSource :=
  match anchor_root given working_directory with
  | Some root => rooted root ("Read-only · Process filesystem snapshot: " +:+ lossy root)
  | None =>
      mkSource given ("procfs-unanchored:" +:+ lossy given)
        ("Read-only · Process filesystem snapshot unavailable: " +:+ lossy given +:+ " cannot be anchored to a working directory")
        MAX_RECORDS MAX_UNCERTAIN_PIDS false ∅ None None None
  end.

(** [live], [with_clock], [with_record_limit] and [with_uncertain_limit] *)
Definition DEFAULT_PROC_ROOT : list N := bytes_of_string "/proc".
Definition LIVE_STATUS_TEXT : string := "Read-only · Live process snapshot".
Definition live : ProcFsSource := rooted DEFAULT_PROC_ROOT LIVE_STATUS_TEXT.
Definition with_baselines (src : ProcFsSource) (baselines : gmap (N * N) CpuBaseline) : ProcFsSource :=
  mkSource (pf_root src) (pf_source src) (pf_status src) (pf_record_limit src) (pf_uncertain_limit src) (pf_anchored src)
    baselines (pf_cpu_boot src) (pf_cpu_namespace src) (pf_system_baseline src).
Definition with_clock (src : ProcFsSource) : ProcFsSource := with_baselines src ∅.
Definition with_record_limit (limit : N) (src : ProcFsSource) : ProcFsSource :=
  mkSource (pf_root src) (pf_source src) (pf_status src) limit (pf_uncertain_limit src) (pf_anchored src)
    (pf_cpu_baselines src) (pf_cpu_boot src) (pf_cpu_namespace src) (pf_system_baseline src).
Definition with_uncertain_limit (limit : N) (src : ProcFsSource) : ProcFsSource :=
  mkSource (pf_root src) (pf_source src) (pf_status src) (pf_record_limit src) limit (pf_anchored src)
    (pf_cpu_baselines src) (pf_cpu_boot src) (pf_cpu_namespace src) (pf_system_baseline src).

(** ** A scan *)

(** [enum RecordAccess]; one entry of the listing, with what its directory and files
    answer and what the clock says after its [stat]; and the whole tree. *)
Inductive RecordAccess := Pinned | ByName.
Record Entry := mkEntry {
  en_name : list N; en_open : option IoError; en_stat : io (list N); en_now : N; en_statm : io (list N);
  en_reachable : bool; en_again : io (list N) }.
Record ProcFs := mkProcFs {
  fs_mount : MountAnswers; fs_uts : option (list N); fs_hostname : io (list N); fs_boot_id : io (list N);
  fs_init_ns : option (list N); fs_self_ns : io (list N); fs_auxv_page : io (list N); fs_auxv_ticks : io (list N);
  fs_root_directory : option (N * N); fs_root_link : option (N * N);
  fs_stat : io Stream; fs_meminfo : io (list N); fs_uptime : io (list N); fs_loadavg : io (list N);
  fs_listing : io (list (io Entry)) }.

(** [record_access], [RecordDir::open] and [confirms_exit] *)
Definition record_access (fs : ProcFs) : RecordAccess :=
  match fs_root_directory fs, fs_root_link fs with
  | Some opened, Some linked => if bool_decide (linked = opened) then Pinned else ByName
  | _, _ => ByName
  end.
Definition open_record (access : RecordAccess) (entry : Entry) : option IoError :=
  match access with Pinned => en_open entry | ByName => None end.
Definition reachable (access : RecordAccess) (entry : Entry) : bool :=
  match access with Pinned => en_reachable entry | ByName => true end.
Definition confirms_exit (access : RecordAccess) (entry : Entry) (pid start_ticks : N) : bool :=
  if negb (reachable access entry) then false
  else
    match read_bounded (en_again entry) with
    | inr e => ended e
    | inl bytes => match parse_stat pid bytes with Some again => negb (sf_start_ticks again =? start_ticks) | None => false end
    end.

(** [auxv_entry] *)
Definition auxv_entry (answer : io (list N)) (parse : list N → option N) : Observed N :=
  match read_bounded answer with
  | inl bytes => match parse bytes with Some value => Known value | None => Missing ReasonUnavailable end
  | inr e => Missing (reason_for e)
  end.

(** [system_sample] *)
Definition unread (e : IoError) : FigureGap := Unread (reason_for e).
Definition figure_of {A} (answer : io (list N)) (parse : list N → option A) : Figure A :=
  match read_bounded answer with
  | inl bytes => match parse bytes with Some a => inl a | None => inr Unusable end
  | inr e => inr (unread e)
  end.
Definition system_sample (baseline : option SystemCpuCounters) (fs : ProcFs) : SystemSample * option SystemCpuCounters :=
  let '(cpu, baseline) :=
    match read_stat_cpu (fs_stat fs) with
    | inl (Some current) => let '(cpu, keep) := system_cpu_since baseline current in (cpu, Some keep)
    | inl None => (SystemMissing Unusable, None)
    | inr e => (SystemMissing (unread e), None)
    end in
  let '(memory, swap) :=
    match read_bounded (fs_meminfo fs) with
    | inl meminfo => (parse_memory meminfo, parse_swap meminfo)
    | inr e => (inr (unread e), inr (unread e))
    end in
  (mkSample cpu memory swap (figure_of (fs_uptime fs) parse_uptime) (figure_of (fs_loadavg fs) parse_loadavg), baseline).

(** What a scan knows of every record, and what it has collected so far. *)
Record ScanContext := mkContext {
  cx_source : string; cx_record_limit : N; cx_access : RecordAccess;
  cx_host : Observed string; cx_boot : Observed string; cx_pid_namespace : Observed N;
  cx_page_size : Observed N; cx_ticks_per_second : Observed N; cx_baselines : gmap (N * N) CpuBaseline }.
Record Scan := mkScan {
  sn_issues : list EnumerationIssue; sn_skipped : PidLedger; sn_vanished : N; sn_capped : PidLedger;
  sn_records : list ProcessRecord; sn_baselines : gmap (N * N) CpuBaseline }.
Definition vanish (st : Scan) : Scan :=
  mkScan (sn_issues st) (sn_skipped st) (sn_vanished st + 1) (sn_capped st) (sn_records st) (sn_baselines st).
Definition skip (st : Scan) (pid : N) (reason : MissingReason) (detail : string) : Scan :=
  mkScan (record_issue (sn_issues st) (mkIssue (ScopeProcess pid) reason detail)) (ledger_record (sn_skipped st) pid)
    (sn_vanished st) (sn_capped st) (sn_records st) (sn_baselines st).
Definition cap (limit : N) (st : Scan) (pid : N) : Scan :=
  let capped := ledger_record (sn_capped st) pid in
  mkScan (if lg_count capped =? 1
          then record_issue (sn_issues st) (mkIssue ScopeLimit ReasonUnavailable ("record limit " +:+ pretty limit +:+ " reached"))
          else sn_issues st)
    (sn_skipped st) (sn_vanished st) capped (sn_records st) (sn_baselines st).
Definition unexamined (st : Scan) (e : IoError) : Scan :=
  mkScan (record_issue (sn_issues st) (mkIssue ScopeEntry (reason_for e) ("directory entry: " +:+ io_text e)))
    (ledger_unnamed (sn_skipped st)) (sn_vanished st) (sn_capped st) (sn_records st) (sn_baselines st).

(** The record of a parsed [stat]: its resident memory and its CPU usage. *)
Definition resident_pages (statm : io (list N)) : Observed N :=
  match statm with
  | inr e => Missing (reason_for e)
  | inl bytes => match parse_statm_resident bytes with Some pages => Known pages | None => Missing ReasonUnavailable end
  end.
Definition record_cpu (cx : ScanContext) (st : Scan) (instance : N * N) (ticks : option N) (read_at : N)
    : CpuUsage * gmap (N * N) CpuBaseline :=
  match ticks with
  | Some ticks =>
      let '(usage, keep) := sample_cpu (cx_baselines cx !! instance) (mkBaseline ticks read_at) (cx_ticks_per_second cx) in
      (usage, <[instance := keep]> (sn_baselines st))
  | None => (CpuMissing ReasonUnavailable, sn_baselines st)
  end.
Definition publish_record (cx : ScanContext) (st : Scan) (entry : Entry) (pid : N) (stat : StatFields) : Scan :=
  let statm := read_bounded (en_statm entry) in
  if match statm with inr e => ended e && confirms_exit (cx_access cx) entry pid (sf_start_ticks stat) | inl _ => false end
  then vanish st
  else
    let '(cpu, baselines) := record_cpu cx st (pid, sf_start_ticks stat) (sf_cpu_ticks stat) (en_now entry) in
    let record := mkRecord
      (mkKey (cx_source cx) (cx_host cx) (cx_boot cx) (cx_pid_namespace cx) (Known pid) (LinuxBootTicks (sf_start_ticks stat)))
      (sf_display_name stat) (resident_bytes (resident_pages statm) (cx_page_size cx)) cpu in
    mkScan (sn_issues st) (sn_skipped st) (sn_vanished st) (sn_capped st) (sn_records st ++ [record]) baselines.

(** The body of the loop of [ProcFsSource::snapshot]. *)
Definition scan_record (cx : ScanContext) (st : Scan) (entry : Entry) (pid : N) : Scan :=
  match open_record (cx_access cx) entry with
  | Some e => if ended e then vanish st else skip st pid (reason_for e) (pretty pid +:+ ": " +:+ io_text e)
  | None =>
      match read_bounded (en_stat entry) with
      | inr e => if ended e then vanish st else skip st pid (reason_for e) (pretty pid +:+ "/stat: " +:+ io_text e)
      | inl bytes =>
          match parse_stat pid bytes with
          | None => skip st pid ReasonUnavailable (pretty pid +:+ "/stat is not parsable for this PID")
          | Some stat => publish_record cx st entry pid stat
          end
      end
  end.
Definition scan_entry (cx : ScanContext) (st : Scan) (entry : io Entry) : Scan :=
  match entry with
  | inr e => unexamined st e
  | inl entry =>
      match parse_pid (en_name entry) with
      | None => st
      | Some pid =>
          if cx_record_limit cx <=? len (sn_records st) then cap (cx_record_limit cx) st pid
          else scan_record cx st entry pid
      end
  end.

(** [ProcFsSource::snapshot], without the time of the sample. *)
Definition pid_rank (record : ProcessRecord) : N := match pk_pid (pr_key record) with Known pid => pid | Missing _ => u32_max end.
Definition by_pid (a b : ProcessRecord) : comparison := N.compare (pid_rank a) (pid_rank b).
Definition host_of (fs : ProcFs) (root : string) (mount : MountKind) (issues : list EnumerationIssue)
    : Observed string * list EnumerationIssue :=
  match host_label mount (uts_namespace_tag (fs_uts fs)) with
  | Plain => identity "sys/kernel/hostname" ScopeHostIdentity (fs_hostname fs) id issues
  | Qualified tag => identity "sys/kernel/hostname" ScopeHostIdentity (fs_hostname fs) (λ text, text +:+ "@" +:+ tag) issues
  | Unidentifiable why =>
      (Missing ReasonUnavailable, record_issue issues (mkIssue ScopeHostIdentity ReasonUnavailable (root +:+ ": " +:+ why)))
  end.
Definition unanchored_snapshot (src : ProcFsSource) : ProcessSnapshot * SystemSample :=
  (mkSnapshot (pf_source src) [] 0 ledger_none (from_scan ledger_unenumerable
     [mkIssue ScopeRoot ReasonUnavailable (lossy (pf_root src) +:+ " is relative and could not be anchored to a working directory")]),
   sample_missing (Unread ReasonUnavailable)).

(** What a scan reads before the listing: the source with what it remembers, the
    context of the records, the issues and the system's figures. *)
Definition begin_scan (src : ProcFsSource) (fs : ProcFs) : ProcFsSource * ScanContext * list EnumerationIssue * SystemSample :=
  let root := lossy (pf_root src) in
  let mount := mount_kind (fs_mount fs) in
  let '(host, issues) := host_of fs root mount [] in
  let '(boot, issues) := identity "sys/kernel/random/boot_id" ScopeBootIdentity (fs_boot_id fs) id issues in
  let '(namespace, issues) := pid_namespace root mount (fs_init_ns fs) (fs_self_ns fs) issues in
  let page_size := auxv_entry (fs_auxv_page fs) parse_page_size in
  let ticks_per_second := auxv_entry (fs_auxv_ticks fs) parse_clock_ticks in
  let '(cpu_boot, boot_changed) := identity_changed (pf_cpu_boot src) boot in
  let '(cpu_namespace, namespace_changed) := identity_changed (pf_cpu_namespace src) namespace in
  let baselines := if boot_changed || namespace_changed then ∅ else pf_cpu_baselines src in
  let '(system, system_baseline) := system_sample (if boot_changed then None else pf_system_baseline src) fs in
  (mkSource (pf_root src) (pf_source src) (pf_status src) (pf_record_limit src) (pf_uncertain_limit src) (pf_anchored src)
     baselines cpu_boot cpu_namespace system_baseline,
   mkContext (pf_source src) (pf_record_limit src) (record_access fs) host boot namespace page_size ticks_per_second baselines,
   issues, system).
Definition start_scan (src : ProcFsSource) (issues : list EnumerationIssue) : Scan :=
  mkScan issues (ledger_with_limit (N.min (pf_record_limit src) (pf_uncertain_limit src))) 0
    (ledger_with_limit (pf_uncertain_limit src)) [] ∅.
Definition finish_scan (src : ProcFsSource) (st : Scan) : ProcessSnapshot :=
  mkSnapshot (pf_source src) (sort_by by_pid (sn_records st)) (sn_vanished st) (sn_capped st)
    (from_scan (sn_skipped st) (sn_issues st)).
Definition snapshot (src : ProcFsSource) (fs : ProcFs) : ProcFsSource * (ProcessSnapshot * SystemSample) :=
  if negb (pf_anchored src) then (src, unanchored_snapshot src)
  else
    let '(src, cx, issues, system) := begin_scan src fs in
    match fs_listing fs with
    | inr e =>
        let issues := record_issue issues (mkIssue ScopeRoot (reason_for e) (lossy (pf_root src) +:+ ": " +:+ io_text e)) in
        (src, (mkSnapshot (pf_source src) [] 0 (ledger_with_limit (pf_uncertain_limit src))
                 (from_scan (mark_unenumerable (ledger_with_limit (N.min (pf_record_limit src) (pf_uncertain_limit src)))) issues), system))
    | inl entries =>
        let st := foldl (scan_entry cx) (start_scan src issues) entries in
        (with_baselines src (sn_baselines st), (finish_scan src st, system))
    end.
