(* ===== verification/SrtopProcfsFacts.v ===== *)
(** * srtop: what a scan of the process file system accounts for

    Every process the listing names is published, gone, or named in one of the two
    bounded ledgers; CPU usage is measured between two samples of one process
    instance; and the lines the kernel writes are read as it writes them. *)

From Stdlib Require Import Ascii String.
From S2P Require Import Prelude.
From S2P Require Import Limits.
From S2P Require Import SrtopData.
From S2P Require Import SrtopSort.
From S2P Require Import SrtopText.
From S2P Require Import SrtopProcfs.

#[local] Open Scope N_scope.

(** ** One entry of the listing *)

(** The process of an entry no longer existed when the scan reached it. *)
Definition entry_ended (cx : ScanContext) (entry : Entry) (pid : N) : Prop :=
  (∃ e, open_record (cx_access cx) entry = Some e ∧ ended e = true) ∨
  (∃ e, read_bounded (en_stat entry) = inr e ∧ ended e = true) ∨
  (∃ e bytes stat, read_bounded (en_stat entry) = inl bytes ∧ parse_stat pid bytes = Some stat ∧
    read_bounded (en_statm entry) = inr e ∧ ended e = true ∧ confirms_exit (cx_access cx) entry pid (sf_start_ticks stat) = true).
(** An entry is one of the process [pid], whose [stat] says [stat]. *)
Definition entry_stat (entry : Entry) (pid : N) (stat : StatFields) : Prop :=
  parse_pid (en_name entry) = Some pid ∧ ∃ bytes, read_bounded (en_stat entry) = inl bytes ∧ parse_stat pid bytes = Some stat.
(** A record is what the files of an entry say. *)
Record record_of (cx : ScanContext) (entry : Entry) (pid : N) (stat : StatFields) (record : ProcessRecord) : Prop := {
  ro_stat : entry_stat entry pid stat;
  ro_key : pr_key record = mkKey (cx_source cx) (cx_host cx) (cx_boot cx) (cx_pid_namespace cx) (Known pid) (LinuxBootTicks (sf_start_ticks stat));
  ro_name : pr_display_name record = sf_display_name stat;
  ro_resident : pr_resident record = resident_bytes (resident_pages (read_bounded (en_statm entry))) (cx_page_size cx);
  ro_cpu : pr_cpu record =
    match sf_cpu_ticks stat with
    | Some ticks => (sample_cpu (cx_baselines cx !! (pid, sf_start_ticks stat)) (mkBaseline ticks (en_now entry)) (cx_ticks_per_second cx)).1
    | None => CpuMissing ReasonUnavailable
    end;
}.
Definition kept_baselines (cx : ScanContext) (st : Scan) (entry : Entry) (pid : N) (stat : StatFields) : gmap (N * N) CpuBaseline :=
  match sf_cpu_ticks stat with
  | Some ticks =>
      <[(pid, sf_start_ticks stat) :=
        (sample_cpu (cx_baselines cx !! (pid, sf_start_ticks stat)) (mkBaseline ticks (en_now entry)) (cx_ticks_per_second cx)).2]> (sn_baselines st)
  | None => sn_baselines st
  end.

(** What the loop does with one entry. *)
Inductive scan_step (cx : ScanContext) (st : Scan) : io Entry → Scan → Prop :=
| step_unexamined e : scan_step cx st (inr e) (unexamined st e)
| step_other entry : parse_pid (en_name entry) = None → scan_step cx st (inl entry) st
| step_cap entry pid : parse_pid (en_name entry) = Some pid → (cx_record_limit cx ≤ len (sn_records st)) →
    scan_step cx st (inl entry) (cap (cx_record_limit cx) st pid)
| step_vanish entry pid : parse_pid (en_name entry) = Some pid → (len (sn_records st) < cx_record_limit cx) → entry_ended cx entry pid →
    scan_step cx st (inl entry) (vanish st)
| step_skip entry pid reason detail : parse_pid (en_name entry) = Some pid → (len (sn_records st) < cx_record_limit cx) →
    scan_step cx st (inl entry) (skip st pid reason detail)
| step_publish entry pid stat record : (len (sn_records st) < cx_record_limit cx) → record_of cx entry pid stat record →
    scan_step cx st (inl entry)
      (mkScan (sn_issues st) (sn_skipped st) (sn_vanished st) (sn_capped st) (sn_records st ++ [record]) (kept_baselines cx st entry pid stat)).

Lemma publish_record_step cx st entry pid stat : (len (sn_records st) < cx_record_limit cx) → entry_stat entry pid stat →
  scan_step cx st (inl entry) (publish_record cx st entry pid stat).
Proof.
  intros Hlt Hstat. unfold publish_record.
  destruct (match read_bounded (en_statm entry) with inr e => _ | inl _ => false end) eqn:Hgone.
  - destruct (read_bounded (en_statm entry)) as [|e] eqn:Hm; [done|]. apply andb_true_iff in Hgone as [He Hc].
    destruct Hstat as (Hpid & bytes & Hb & Hp). apply step_vanish with pid; [done..|]. right; right. by exists e, bytes, stat.
  - assert (kept_baselines cx st entry pid stat = (record_cpu cx st (pid, sf_start_ticks stat) (sf_cpu_ticks stat) (en_now entry)).2) as Hk.
    { unfold kept_baselines, record_cpu. destruct (sf_cpu_ticks stat); [|done]. by destruct (sample_cpu _ _ _). }
    destruct (record_cpu _ _ _ _ _) as [cpu baselines] eqn:Hcpu. cbn [snd] in Hk. rewrite <- Hk. apply step_publish; [done|]. split; try done.
    unfold record_cpu in Hcpu. cbn [pr_cpu]. destruct (sf_cpu_ticks stat); [|by injection Hcpu as <- _].
    destruct (sample_cpu _ _ _). by injection Hcpu as <- _.
Qed.
Lemma scan_entry_step cx st entry : scan_step cx st entry (scan_entry cx st entry).
Proof.
  unfold scan_entry. destruct entry as [entry|e]; [|apply step_unexamined].
  destruct (parse_pid (en_name entry)) as [pid|] eqn:Hpid; [|by apply step_other].
  destruct (N.leb_spec (cx_record_limit cx) (len (sn_records st))) as [Hge|Hlt]; [by apply step_cap|].
  unfold scan_record. destruct (open_record (cx_access cx) entry) as [e|] eqn:Hopen.
  { destruct (ended e) eqn:He; [apply step_vanish with pid; [done..|left; by exists e]|by apply step_skip]. }
  destruct (read_bounded (en_stat entry)) as [bytes|e] eqn:Hb.
  - destruct (parse_stat pid bytes) as [stat|] eqn:Hp; [|by apply step_skip].
    apply publish_record_step; [done|]. split; [done|]. by exists bytes.
  - destruct (ended e) eqn:He; [apply step_vanish with pid; [done..|right; left; by exists e]|by apply step_skip].
Qed.

(** ** The whole listing *)

(** Every entry is counted once, unless it names no process. *)
Definition counted (entry : io Entry) : bool := match entry with inl entry => bool_decide (is_Some (parse_pid (en_name entry))) | inr _ => true end.
Definition publishes (pid : N) (record : ProcessRecord) : Prop := pk_pid (pr_key record) = Known pid.

Record scanned (cx : ScanContext) (skip_limit cap_limit : N) (entries : list (io Entry)) (st : Scan)
    (skips caps : list ledger_event) : Prop := {
  sd_skipped : ledger_ok (sn_skipped st) skip_limit skips;
  sd_capped : ledger_ok (sn_capped st) cap_limit caps;
  sd_count : len (sn_records st) + sn_vanished st + lg_count (sn_skipped st) + lg_count (sn_capped st) = len (filter (λ e, counted e = true) entries);
  sd_bound : len (sn_records st) ≤ cx_record_limit cx;
  sd_records : Forall (λ record, ∃ entry pid stat, inl entry ∈ entries ∧ record_of cx entry pid stat record) (sn_records st);
  sd_all : ∀ entry pid, inl entry ∈ entries → parse_pid (en_name entry) = Some pid →
    Exists (publishes pid) (sn_records st) ∨ pid ∈ named_pids skips ∨ pid ∈ named_pids caps ∨ entry_ended cx entry pid;
  sd_baselines : (size (sn_baselines st) ≤ length (sn_records st))%nat;
}.

Lemma named_pids_snoc es pid : named_pids (es ++ [Named pid]) = named_pids es ++ [pid].
Proof. unfold named_pids. by rewrite omap_app. Qed.
Lemma counted_snoc entries entry : len (filter (λ e, counted e = true) (entries ++ [entry])) =
  len (filter (λ e, counted e = true) entries) + if counted entry then 1 else 0.
Proof.
  rewrite filter_app, len_app. f_equal. destruct (counted entry) eqn:Hc; [by rewrite filter_cons_True|].
  rewrite filter_cons_False; [done|congruence].
Qed.
Lemma counted_pid entry pid : parse_pid (en_name entry) = Some pid → counted (inl entry) = true.
Proof. intros Hp. cbn. by rewrite Hp. Qed.
Lemma ledger_unnamed_ok l limit es : ledger_ok l limit es → ledger_ok (ledger_unnamed l) limit (es ++ [Unnamed]).
Proof. exact (ledger_step_ok l limit es Unnamed). Qed.
Lemma ledger_record_ok l limit es pid : ledger_ok l limit es → ledger_ok (ledger_record l pid) limit (es ++ [Named pid]).
Proof. exact (ledger_step_ok l limit es (Named pid)). Qed.
Lemma ledger_record_count l pid : lg_count (ledger_record l pid) = lg_count l + 1.
Proof. unfold ledger_record. by destruct (_ || _). Qed.

Lemma scanned_step cx sl cl entries st skips caps entry st' : scanned cx sl cl entries st skips caps → scan_step cx st entry st' →
  ∃ skips' caps', scanned cx sl cl (entries ++ [entry]) st' skips' caps'.
Proof.
  intros [Hs Hc Hn Hb Hr Ha Hbl] Hstep.
  assert (∀ record entry', (∃ entry pid stat, inl entry ∈ entries ∧ record_of cx entry pid stat record) →
    ∃ entry pid stat, inl entry ∈ entries ++ [entry'] ∧ record_of cx entry pid stat record) as Hmono.
  { intros record entry' (e & pid & stat & Hin & Hro). exists e, pid, stat. split; [apply elem_of_app; by left|done]. }
  assert (∀ entry', Forall (λ record, ∃ entry pid stat, inl entry ∈ entries ++ [entry'] ∧ record_of cx entry pid stat record) (sn_records st)) as Hr'.
  { intros entry'. eapply Forall_impl; [exact Hr|]. auto. }
  destruct Hstep as [e|entry Hpid|entry pid Hpid Hge|entry pid Hpid Hlt Hend|entry pid reason detail Hpid Hlt|entry pid stat record Hlt Hro].
  - exists (skips ++ [Unnamed]), caps. split; cbn; try done; [by apply ledger_unnamed_ok| |].
    + rewrite counted_snoc. cbn. lia.
    + intros e' pid' [Hin|Hin]%elem_of_app Hp; [|by apply list_elem_of_singleton in Hin].
      unfold named_pids. rewrite omap_app. cbn. rewrite app_nil_r. by apply Ha.
  - exists skips, caps. split; try done.
    + rewrite counted_snoc. cbn. rewrite Hpid. cbn. lia.
    + intros e' pid' [Hin|Hin]%elem_of_app Hp; [by apply Ha|]. apply list_elem_of_singleton in Hin as [= ->]. congruence.
  - exists skips, (caps ++ [Named pid]). split; cbn; try done; [by apply ledger_record_ok| |].
    + rewrite counted_snoc, (counted_pid _ _ Hpid), ledger_record_count. lia.
    + rewrite named_pids_snoc. intros e' pid' [Hin|Hin]%elem_of_app Hp.
      * rewrite elem_of_app. destruct (Ha e' pid' Hin Hp) as [?|[?|[?|?]]]; auto.
      * apply list_elem_of_singleton in Hin as [= ->]. rewrite Hpid in Hp. injection Hp as <-. right; right; left. apply elem_of_app. right. by left.
  - exists skips, caps. split; cbn; try done.
    + rewrite counted_snoc, (counted_pid _ _ Hpid). lia.
    + intros e' pid' [Hin|Hin]%elem_of_app Hp; [by apply Ha|]. apply list_elem_of_singleton in Hin as [= ->]. rewrite Hpid in Hp. injection Hp as <-. auto.
  - exists (skips ++ [Named pid]), caps. split; cbn; try done; [by apply ledger_record_ok| |].
    + rewrite counted_snoc, (counted_pid _ _ Hpid), ledger_record_count. lia.
    + rewrite named_pids_snoc. intros e' pid' [Hin|Hin]%elem_of_app Hp.
      * rewrite elem_of_app. destruct (Ha e' pid' Hin Hp) as [?|[?|[?|?]]]; auto.
      * apply list_elem_of_singleton in Hin as [= ->]. rewrite Hpid in Hp. injection Hp as <-. right; left. apply elem_of_app. right. by left.
  - exists skips, caps. destruct (ro_stat _ _ _ _ _ Hro) as [Hpid _]. split; cbn; try done.
    + rewrite counted_snoc, (counted_pid _ _ Hpid), len_app. change (len [record]) with 1. lia.
    + rewrite len_app. change (len [record]) with 1. lia.
    + apply Forall_app. split; [done|]. apply Forall_singleton. exists entry, pid, stat. split; [apply elem_of_app; right; by left|done].
    + intros e' pid' [Hin|Hin]%elem_of_app Hp; rewrite Exists_app; [destruct (Ha e' pid' Hin Hp) as [?|[?|[?|?]]]; auto|].
      apply list_elem_of_singleton in Hin as [= ->]. rewrite Hpid in Hp. injection Hp as <-. left. right. apply Exists_cons. left.
      unfold publishes. by rewrite (ro_key _ _ _ _ _ Hro).
    + rewrite length_app. cbn. unfold kept_baselines. destruct (sf_cpu_ticks stat); [|lia].
      rewrite map_size_insert. destruct (sn_baselines st !! _); cbn; lia.
Qed.

Lemma scan_all cx src issues entries : ∃ skips caps,
  scanned cx (N.min (pf_record_limit src) (pf_uncertain_limit src)) (pf_uncertain_limit src) entries
    (foldl (scan_entry cx) (start_scan src issues) entries) skips caps.
Proof.
  induction entries as [|entry entries (skips & caps & IH)] using rev_ind.
  - exists [], []. split; try apply ledger_with_limit_ok; [apply Forall_nil_2| |done].
    by intros ? ? ?%elem_of_nil.
  - rewrite foldl_app. cbn [foldl]. exact (scanned_step _ _ _ _ _ _ _ _ _ IH (scan_entry_step cx _ entry)).
Qed.

(** What a finished scan leaves uncertain. *)
Lemma finished_retention src st sl cl skips caps : ledger_ok (sn_skipped st) sl skips → ledger_ok (sn_capped st) cl caps →
  skipped_count (ps_completeness (finish_scan src st)) = lg_count (sn_skipped st) ∧
  match retention (finish_scan src st) with
  | Unenumerable => lg_enumerable (sn_skipped st) = false ∨ lg_enumerable (sn_capped st) = false
  | Skipped pids => (N.of_nat (size pids) ≤ sl + cl) ∧ ∀ pid, pid ∈ pids ↔ pid ∈ named_pids skips ∨ pid ∈ named_pids caps
  end.
Proof.
  intros [_ Hsb Hsc Hse _] [_ Hcb Hcc Hce _]. unfold finish_scan, retention, from_scan. cbn [ps_completeness ps_capped].
  destruct ((lg_count (sn_skipped st) =? 0) && lg_enumerable (sn_skipped st) && _) eqn:Hcomplete; cbn [skipped_count].
  - apply andb_true_iff in Hcomplete as [[H0%N.eqb_eq Hen]%andb_true_iff _]. split; [done|].
    destruct (lg_enumerable (sn_capped st)) eqn:Hcen; cbn [negb]; [|by right]. split; [lia|]. intros pid. rewrite (Hce eq_refl).
    rewrite H0 in Hsc. assert (skips = []) as -> by (destruct skips; [done|rewrite len_cons in Hsc; lia]). split; [auto|].
    by intros [?%elem_of_nil|?].
  - split; [done|]. destruct (lg_enumerable (sn_capped st)) eqn:Hcen; cbn [negb]; [|by right].
    destruct (lg_enumerable (sn_skipped st)) eqn:Hsen; cbn [negb]; [|by left]. split.
    + rewrite size_union_alt. pose proof (subseteq_size (lg_named (sn_skipped st) ∖ lg_named (sn_capped st)) (lg_named (sn_skipped st)) ltac:(set_solver)). lia.
    + intros pid. rewrite elem_of_union, (Hce eq_refl), (Hse eq_refl). tauto.
Qed.

Lemma by_pid_ordering : ordering (λ _, True) by_pid.
Proof.
  unfold by_pid. split.
  - intros x y _ _. apply N.compare_antisym.
  - intros x y z _ _ _. rewrite !N.compare_gt_iff. lia.
Qed.
Lemma sorted_by_pid records : StronglySorted (λ a b, pid_rank a ≤ pid_rank b) (sort_by by_pid records).
Proof.
  pose proof (sort_by_ascending by_pid_ordering records (Forall_true _ _ (λ _, I))) as Hs. clear -Hs.
  induction Hs as [|x l Hs IH Hx]; constructor; [done|]. eapply Forall_impl; [exact Hx|]. intros y. unfold cmp_le, by_pid. rewrite N.compare_gt_iff. lia.
Qed.

(** ** Samples of CPU usage *)

(** A measured interval is the difference of two samples, the earlier of them before
    the later; and the sample kept is one of the two. *)
Lemma sample_cpu_measured previous current ticks_per_second i : (sample_cpu previous current ticks_per_second).1 = Measured i →
  ∃ before rate, previous = Some before ∧ ticks_per_second = Known rate ∧ ci_ticks_per_second i = rate ∧
    cb_ticks before + ci_ticks i = cb_ticks current ∧ cb_at before + ci_elapsed i = cb_at current ∧ 0 < ci_elapsed i.
Proof.
  unfold sample_cpu, interval_since, checked_sub. destruct previous as [before|]; [|by destruct ticks_per_second].
  destruct (N.leb_spec (cb_at before) (cb_at current)); [|by destruct ticks_per_second].
  destruct (N.eqb_spec (cb_at current - cb_at before) 0); [by destruct ticks_per_second|].
  destruct (N.leb_spec (cb_ticks before) (cb_ticks current)); [|by destruct ticks_per_second].
  destruct ticks_per_second as [rate|]; [|done]. intros [= <-]. exists before, rate. cbn. split_and!; try done; lia.
Qed.
Lemma sample_cpu_kept previous current ticks_per_second :
  (sample_cpu previous current ticks_per_second).2 = current ∨ previous = Some (sample_cpu previous current ticks_per_second).2.
Proof.
  unfold sample_cpu. destruct (interval_since previous current) as [usage keep] eqn:Hi.
  assert (keep = current ∨ previous = Some keep) as Hk.
  { unfold interval_since in Hi. repeat case_match; simplify_eq; auto. }
  by destruct usage as [[]|], ticks_per_second.
Qed.

(** The samples an entry gives: of which instance, how many ticks and when. *)
Definition reading : Type := (N * N) * CpuBaseline.
Definition reading_of (entry : io Entry) : option reading :=
  match entry with
  | inl entry =>
      pid ← parse_pid (en_name entry);
      match read_bounded (en_stat entry) with
      | inl bytes => stat ← parse_stat pid bytes; ticks ← sf_cpu_ticks stat; Some ((pid, sf_start_ticks stat), mkBaseline ticks (en_now entry))
      | inr _ => None
      end
  | inr _ => None
  end.
Lemma entry_stat_reading entry pid stat ticks : entry_stat entry pid stat → sf_cpu_ticks stat = Some ticks →
  reading_of (inl entry) = Some ((pid, sf_start_ticks stat), mkBaseline ticks (en_now entry)).
Proof. intros (Hp & bytes & Hb & Hs) Ht. unfold reading_of. rewrite Hp. cbn. rewrite Hb, Hs. cbn. by rewrite Ht. Qed.

(** The baselines a scan keeps are samples of it or of earlier ones. *)
Definition baselines_from (samples : list reading) (baselines : gmap (N * N) CpuBaseline) : Prop :=
  ∀ instance b, baselines !! instance = Some b → (instance, b) ∈ samples.
Lemma scan_baselines cx issues src earlier entries : baselines_from earlier (cx_baselines cx) →
  baselines_from (earlier ++ omap reading_of entries) (sn_baselines (foldl (scan_entry cx) (start_scan src issues) entries)).
Proof.
  intros Hcx. induction entries as [|entry entries IH] using rev_ind; [by intros ? ? ?|].
  rewrite foldl_app, omap_app. cbn [foldl]. set (st := foldl _ _ entries) in *. clearbody st.
  assert (∀ instance b, sn_baselines st !! instance = Some b → (instance, b) ∈ earlier ++ omap reading_of entries ++ omap reading_of [entry]) as Hkept.
  { intros instance b Hb. rewrite app_assoc, elem_of_app. left. by apply IH. }
  destruct (scan_entry_step cx st entry) as [e|e Hp|e pid Hp Hge|e pid Hp Hlt He|e pid r d Hp Hlt|e pid stat record Hlt Hro]; try exact Hkept.
  intros instance b. cbn [sn_baselines]. unfold kept_baselines. destruct (sf_cpu_ticks stat) as [ticks|] eqn:Hticks; [|apply Hkept].
  intros [[<- <-]|[_ Hb]]%lookup_insert_Some; [|by apply Hkept].
  destruct (sample_cpu_kept (cx_baselines cx !! (pid, sf_start_ticks stat)) (mkBaseline ticks (en_now e)) (cx_ticks_per_second cx)) as [->|Hold].
  - rewrite !elem_of_app. right; right. cbn [omap list_omap]. rewrite (entry_stat_reading _ _ _ _ (ro_stat _ _ _ _ _ Hro) Hticks). by left.
  - apply Hcx in Hold. rewrite elem_of_app. by left.
Qed.

(** What the scan reads before the listing. *)
Lemma begin_scan_spec src fs : let '(src', cx, issues, system) := begin_scan src fs in
  pf_source src' = pf_source src ∧ pf_record_limit src' = pf_record_limit src ∧ pf_uncertain_limit src' = pf_uncertain_limit src ∧
  cx_source cx = pf_source src ∧ cx_record_limit cx = pf_record_limit src ∧ cx_baselines cx = pf_cpu_baselines src' ∧
  pf_anchored src' = pf_anchored src ∧ pf_root src' = pf_root src ∧
  cx_ticks_per_second cx = auxv_entry (fs_auxv_ticks fs) parse_clock_ticks ∧
  (pf_cpu_baselines src' = pf_cpu_baselines src ∨ pf_cpu_baselines src' = ∅) ∧
  (∀ a b, pf_cpu_boot src = Some a → cx_boot cx = Known b → a ≠ b → pf_cpu_baselines src' = ∅) ∧
  (∀ a b, pf_cpu_namespace src = Some a → cx_pid_namespace cx = Known b → a ≠ b → pf_cpu_baselines src' = ∅) ∧
  pf_cpu_boot src' = match cx_boot cx with Known b => Some b | Missing _ => pf_cpu_boot src end ∧
  pf_cpu_namespace src' = match cx_pid_namespace cx with Known n => Some n | Missing _ => pf_cpu_namespace src end.
Proof.
  unfold begin_scan. destruct (host_of _ _ _ _) as [host issues1]. destruct (identity _ _ _ _ _) as [boot issues2].
  destruct (pid_namespace _ _ _ _ _) as [namespace issues3].
  destruct (identity_changed (pf_cpu_boot src) boot) as [cpu_boot boot_changed] eqn:Hb.
  destruct (identity_changed (pf_cpu_namespace src) namespace) as [cpu_namespace namespace_changed] eqn:Hn.
  destruct (system_sample _ _) as [system baseline]. cbn [pf_source pf_record_limit pf_uncertain_limit cx_source cx_record_limit cx_baselines
    pf_cpu_baselines pf_anchored pf_root cx_ticks_per_second cx_boot cx_pid_namespace pf_cpu_boot pf_cpu_namespace].
  unfold identity_changed in Hb, Hn. split_and!; try done.
  - destruct (_ || _); auto.
  - intros a b Ha -> Hne. rewrite Ha in Hb. injection Hb as <- <-. by rewrite bool_decide_eq_true_2.
  - intros a b Ha -> Hne. rewrite Ha in Hn. injection Hn as <- <-. by rewrite bool_decide_eq_true_2, orb_true_r.
  - by destruct boot; injection Hb as <- _.
  - by destruct namespace; injection Hn as <- _.
Qed.
Lemma parsed_rate bytes rate : parse_clock_ticks bytes = Some rate → 1 ≤ rate ≤ MAX_CLOCK_TICKS_PER_SECOND.
Proof.
  unfold parse_clock_ticks, within. destruct (auxv_value bytes AT_CLKTCK) as [r|]; [cbn|done].
  destruct ((1 <=? r) && _) eqn:Hw; [|done]. intros [= <-]. apply andb_true_iff in Hw as [?%N.leb_le ?%N.leb_le]. done.
Qed.

(** The [n]th word of an auxiliary vector, a list of pairs of a key and its value. *)
Definition auxv_word (bytes : list N) (n : nat) : N := native_word (take 8 (drop (8 * n) bytes)).

(** A value is the one beside the first pair with its key, in front of the end. *)
Lemma auxv_value_stated bytes wanted v : auxv_value bytes wanted = Some v →
  ∃ k, (16 * k + 16 ≤ length bytes)%nat ∧ auxv_word bytes (2 * k) = wanted ∧ auxv_word bytes (2 * k + 1) = v ∧
    ∀ j, (j < k)%nat → auxv_word bytes (2 * j) ≠ wanted ∧ auxv_word bytes (2 * j) ≠ 0.
Proof.
  unfold auxv_value, AT_NULL. generalize (S (length bytes)) as fuel. intros fuel. revert bytes.
  induction fuel as [|fuel IH]; intros bytes; cbn [auxv_walk]; [done|].
  destruct (Nat.ltb_spec (length bytes) 16) as [|Hlen]; [done|].
  destruct (N.eqb_spec (native_word (take 8 bytes)) AT_NULL) as [|Hnull]; [done|].
  destruct (N.eqb_spec (native_word (take 8 bytes)) wanted) as [Hkey|Hkey].
  { intros [= <-]. exists 0%nat. unfold auxv_word. cbn [Nat.mul Nat.add]. rewrite drop_0. split_and!; [lia|done|done|lia]. }
  intros (k & Hk & Hw & Hv & Hj)%IH. rewrite length_drop in Hk.
  assert (∀ n, auxv_word (drop 16 bytes) n = auxv_word bytes (n + 2)) as Hshift.
  { intros n. unfold auxv_word. rewrite drop_drop. repeat f_equal. lia. }
  rewrite Hshift in Hw, Hv. exists (S k). split_and!; [lia|rewrite <- Hw; f_equal; lia|rewrite <- Hv; f_equal; lia|].
  intros [|j] Hlt.
  - unfold auxv_word. cbn [Nat.mul]. by rewrite drop_0.
  - specialize (Hj j ltac:(lia)). rewrite !Hshift in Hj. by replace (2 * S j)%nat with (2 * j + 2)%nat by lia.
Qed.

(** The clock rate an answer of the kernel states, under the key 17. *)
Definition states_clock_rate (answer : io (list N)) (rate : N) : Prop :=
  ∃ bytes k, read_bounded answer = inl bytes ∧ (16 * k + 16 ≤ length bytes)%nat ∧ auxv_word bytes (2 * k) = 17 ∧
    auxv_word bytes (2 * k + 1) = rate ∧ ∀ j, (j < k)%nat → auxv_word bytes (2 * j) ≠ 17 ∧ auxv_word bytes (2 * j) ≠ 0.
Lemma clock_rate_stated answer rate : auxv_entry answer parse_clock_ticks = Known rate →
  states_clock_rate answer rate ∧ 1 ≤ rate ≤ 1000000.
Proof.
  unfold auxv_entry. destruct (read_bounded answer) as [bytes|] eqn:Hb; [|done].
  destruct (parse_clock_ticks bytes) as [r|] eqn:Hr; [|done]. intros [= ->]. split; [|by apply (parsed_rate _ _ Hr)].
  unfold parse_clock_ticks in Hr. destruct (auxv_value bytes AT_CLKTCK) as [r'|] eqn:Hv; [|done]. cbn in Hr.
  destruct (within _ _ _); [|done]. injection Hr as ->. apply auxv_value_stated in Hv as (k & ? & ? & ? & ?).
  exists bytes, k. by split_and!.
Qed.

(** ** Lines of the kernel *)

(** A count as it is written: digits that have its value. *)
Definition decimal_field (field : list N) (n : N) : Prop := field ≠ [] ∧ all_digits field = true ∧ decimal_value field = n.
Lemma all_digits_Forall field : all_digits field = true ↔ Forall (λ b, is_digit b = true) field.
Proof. unfold all_digits. rewrite forallb_forall, Forall_forall. split; intros H x Hx; apply H; by apply list_elem_of_In. Qed.
Lemma parse_uint_field max field n : decimal_field field n → n ≤ max → parse_uint max field = Some n.
Proof.
  intros (Hne & Hd & <-) Hmax. unfold parse_uint. destruct field as [|b rest]; [done|].
  assert (b =? 43 = false) as ->.
  { apply all_digits_Forall in Hd. apply Forall_cons in Hd as [Hb _]. unfold is_digit, within in Hb.
    apply andb_true_iff in Hb as [?%N.leb_le _]. apply N.eqb_neq. lia. }
  rewrite Hd. cbn [andb]. by rewrite (proj2 (N.leb_le _ _)).
Qed.
Lemma parse_count_field field n : decimal_field field n → n ≤ u64_max → parse_count field = Some n.
Proof.
  intros Hf Hmax. unfold parse_count. destruct (Hf) as (Hne & Hd & _). rewrite Hd. destruct field; [done|]. cbn [length Nat.eqb negb orb]. by apply parse_uint_field.
Qed.
Lemma parse_count_inv field n : parse_count field = Some n → decimal_field field n ∧ n ≤ u64_max.
Proof.
  unfold parse_count, parse_uint. destruct (all_digits field) eqn:Hd; [|by rewrite orb_true_r]. destruct field as [|b rest]; [done|]. cbn [length Nat.eqb negb orb].
  destruct (N.eqb_spec b 43) as [->|_]; [by cbn in Hd|]. rewrite Hd. cbn [andb].
  destruct (N.leb_spec (decimal_value (b :: rest)) u64_max); [|done]. intros [= <-]. by split.
Qed.
Lemma parse_pid_field field pid : decimal_field field pid → (length field ≤ 10)%nat → 0 < pid ≤ u32_max → parse_pid field = Some pid.
Proof.
  intros Hf Hl Hp. unfold parse_pid. destruct (Hf) as (Hne & Hd & _). rewrite Hd, (parse_uint_field u32_max field pid) by (done || lia).
  destruct field; [done|]. cbn [length Nat.eqb negb orb]. rewrite orb_false_r. rewrite (proj2 (Nat.ltb_ge _ _)) by (cbn [length] in Hl; lia). by rewrite (proj2 (N.eqb_neq _ _)) by lia.
Qed.

Lemma strip_prefix_app prefix l : strip_prefix prefix (prefix ++ l) = Some l.
Proof. induction prefix as [|p prefix IH]; cbn; [done|]. by rewrite N.eqb_refl. Qed.
Lemma strip_prefix_inv prefix l rest : strip_prefix prefix l = Some rest → l = prefix ++ rest.
Proof.
  revert l. induction prefix as [|p prefix IH]; intros l; cbn; [by intros [= ->]|]. destruct l as [|b l]; [done|].
  destruct (N.eqb_spec p b) as [->|]; [|done]. intros Hr. by rewrite (IH l).
Qed.
Lemma strip_suffix_app l suffix : strip_suffix suffix (l ++ suffix) = Some l.
Proof. unfold strip_suffix. rewrite reverse_app, strip_prefix_app. cbn. by rewrite reverse_involutive. Qed.
Lemma strip_suffix_inv suffix l rest : strip_suffix suffix l = Some rest → l = rest ++ suffix.
Proof.
  unfold strip_suffix. destruct (strip_prefix _ _) as [r|] eqn:Hr; [|done]. intros [= <-]. apply strip_prefix_inv in Hr.
  apply (f_equal reverse) in Hr. rewrite reverse_involutive, reverse_app, reverse_involutive in Hr. done.
Qed.
Lemma position_app p before x after : Forall (λ b, p b = false) before → p x = true → position p (before ++ x :: after) = Some (length before).
Proof. intros Hb Hx. induction Hb as [|b before Hb _ IH]; cbn; [by rewrite Hx|]. by rewrite Hb, IH. Qed.
Lemma rposition_none p after : Forall (λ b, p b = false) after → rposition p after = None.
Proof. induction 1 as [|b after Hb _ IH]; cbn; [done|]. by rewrite IH, Hb. Qed.
Lemma rposition_app p before x after : Forall (λ b, p b = false) after → p x = true → rposition p (before ++ x :: after) = Some (length before).
Proof.
  intros Ha Hx. induction before as [|b before IH]; cbn; [by rewrite rposition_none, Hx|]. by rewrite IH.
Qed.
Lemma split_on_join sep x fields : sep x = true → fields ≠ [] → Forall (Forall (λ b, sep b = false)) fields →
  split_on sep (join_with [x] fields) = fields ∧ ∀ y, sep y = true → split_on sep (join_with [x] fields ++ [y]) = fields ++ [[]].
Proof.
  intros Hx Hne Hf. induction Hf as [|field fields Hfield Hf IH]; [done|]. destruct fields as [|field' fields].
  - cbn [join_with]. split; [by apply split_on_none|]. intros y Hy. by rewrite split_on_app.
  - destruct IH as [IH1 IH2]; [done|]. change (join_with [x] (field :: field' :: fields)) with (field ++ [x] ++ join_with [x] (field' :: fields)).
    split; [cbn [app]; by rewrite split_on_app, IH1|]. intros y Hy. rewrite <- app_assoc. cbn [app]. by rewrite split_on_app, (IH2 y Hy).
Qed.
Lemma join_split sep x l : (∀ b, sep b = true ↔ b = x) → join_with [x] (split_on sep l) = l.
Proof.
  intros Hsep. induction l as [|b l IH]; [done|]. cbn [split_on]. destruct (split_on sep l) as [|segment segments] eqn:Hs; [by apply split_on_some in Hs|].
  destruct (sep b) eqn:Hb.
  - apply Hsep in Hb as ->. change (join_with [x] ([] :: segment :: segments)) with (x :: join_with [x] (segment :: segments)). by rewrite IH.
  - rewrite <- IH. by destruct segments.
Qed.

Lemma trim_ascii_field field x : field ≠ [] → Forall (λ b, is_ascii_whitespace b = false) field → is_ascii_whitespace x = true →
  trim_ascii (field ++ [x]) = field.
Proof.
  intros Hne Hf Hx. unfold trim_ascii.
  assert (position (λ b, negb (is_ascii_whitespace b)) (field ++ [x]) = Some 0%nat) as ->.
  { destruct Hf as [|b field Hb _]; [done|]. cbn [app position]. by rewrite Hb. }
  assert (rposition (λ b, negb (is_ascii_whitespace b)) (field ++ [x]) = Some (Nat.pred (length field))) as ->.
  { destruct field as [|b field] using rev_ind; [done|]. apply Forall_app in Hf as [_ Hf]. apply Forall_cons in Hf as [Hb _].
    rewrite <- app_assoc. cbn [app]. rewrite rposition_app; [|apply Forall_singleton; by rewrite Hx|by rewrite Hb]. rewrite length_app. cbn. f_equal. lia. }
  cbn [default from_option drop]. rewrite drop_0. destruct field as [|b field]; [done|]. cbn [length Nat.pred]. rewrite Nat.sub_0_r. by rewrite take_app_length' by done.
Qed.

(** The line of [stat], whose name is any bytes, and the fields that follow it. *)
Definition stat_line (pid comm : list N) (fields : list (list N)) : list N :=
  pid ++ [32; 40] ++ comm ++ [41; 32] ++ join_with [32] fields ++ [10].
Definition plain_field (field : list N) : Prop := field ≠ [] ∧ Forall (λ b, is_ascii_whitespace b = false ∧ b ≠ 41) field.

Lemma digits_plain field n : decimal_field field n → Forall (λ b, is_ascii_whitespace b = false ∧ b ≠ 40 ∧ b ≠ 41) field.
Proof.
  intros (_ & Hd & _). apply all_digits_Forall in Hd. eapply Forall_impl; [exact Hd|]. intros b Hb. unfold is_digit, within in Hb.
  apply andb_true_iff in Hb as [?%N.leb_le ?%N.leb_le]. split_and!; [|lia..]. unfold is_ascii_whitespace. cbn [existsb].
  by rewrite !(proj2 (N.eqb_neq _ _)) by lia.
Qed.
Lemma filter_nonempty (fields : list (list N)) : Forall (λ f, f ≠ []) fields → filter (λ f, f ≠ []) fields = fields.
Proof. induction 1 as [|f fields Hf _ IH]; [done|]. by rewrite filter_cons_True, IH. Qed.

Lemma stat_line_fields pid comm fields : fields ≠ [] → Forall plain_field fields → Forall (λ b, is_ascii_whitespace b = false ∧ b ≠ 40 ∧ b ≠ 41) pid →
  position (N.eqb 40) (stat_line pid comm fields) = Some (S (length pid)) ∧
  rposition (N.eqb 41) (stat_line pid comm fields) = Some (S (S (length pid + length comm))) ∧
  take (S (length pid)) (stat_line pid comm fields) = pid ++ [32] ∧
  take (S (S (length pid + length comm)) - S (S (length pid))) (drop (S (S (length pid))) (stat_line pid comm fields)) = comm ∧
  fields_of is_ascii_whitespace (drop (S (S (S (length pid + length comm)))) (stat_line pid comm fields)) = fields.
Proof.
  intros Hne Hf Hpid. unfold stat_line. set (tail := join_with [32] fields ++ [10]).
  assert (Forall (λ b, N.eqb 41 b = false) (32 :: tail)) as Htail.
  { unfold tail. apply Forall_cons. split; [done|]. apply Forall_app. split; [|by repeat constructor].
    clear Hne. induction Hf as [|field fields [_ Hfield] Hf IH]; [done|].
    assert (Forall (λ b, N.eqb 41 b = false) field) by (eapply Forall_impl; [exact Hfield|]; intros b [_ Hb]; apply N.eqb_neq; congruence).
    destruct fields as [|field' fields]; [done|]. change (join_with [32] (field :: field' :: fields)) with (field ++ [32] ++ join_with [32] (field' :: fields)).
    apply Forall_app. split; [done|]. by apply Forall_cons. }
  assert (pid ++ [32; 40] ++ comm ++ [41; 32] ++ tail = (pid ++ [32]) ++ 40 :: comm ++ 41 :: 32 :: tail) as Heq1 by by rewrite <- app_assoc.
  assert (pid ++ [32; 40] ++ comm ++ [41; 32] ++ tail = (pid ++ [32; 40] ++ comm) ++ 41 :: 32 :: tail) as Heq2 by by rewrite <- !app_assoc.
  assert (pid ++ [32; 40] ++ comm ++ [41; 32] ++ tail = (pid ++ [32; 40]) ++ comm ++ [41; 32] ++ tail) as Heq3 by by rewrite <- !app_assoc.
  assert (pid ++ [32; 40] ++ comm ++ [41; 32] ++ tail = (pid ++ [32; 40] ++ comm ++ [41]) ++ 32 :: tail) as Heq4 by by rewrite <- !app_assoc.
  split_and!.
  - rewrite Heq1, position_app; [f_equal; rewrite length_app; cbn; lia| |done]. apply Forall_app. split; [|by repeat constructor].
    eapply Forall_impl; [exact Hpid|]. intros b (_ & Hb & _). apply N.eqb_neq. congruence.
  - rewrite Heq2, rposition_app by done. f_equal. rewrite !length_app. cbn. lia.
  - rewrite Heq1, take_app_length'; [done|]. rewrite length_app. cbn. lia.
  - rewrite Heq3, drop_app_length' by (rewrite length_app; cbn; lia). apply take_app_length'. lia.
  - rewrite Heq4, drop_app_length' by (rewrite !length_app; cbn; lia). unfold fields_of. cbn [split_on].
    destruct (split_on_join is_ascii_whitespace 32 fields) as [_ Hsplit]; [done|done| |].
    { eapply Forall_impl; [exact Hf|]. intros f [_ Hp]. eapply Forall_impl; [exact Hp|]. by intros b [? _]. }
    unfold tail. rewrite (Hsplit 10 eq_refl). destruct fields as [|field fields]; [done|]. cbn [app].
    change (is_ascii_whitespace 32) with true. cbn match. rewrite filter_cons_False by auto. rewrite (app_comm_cons fields), filter_app, filter_nonempty.
    + rewrite filter_cons_False by auto. by rewrite app_nil_r.
    + eapply Forall_impl; [exact Hf|]. by intros f [? _].
Qed.

(** ** The scans of one source *)

(** Whether the scan of a tree finds another boot or PID namespace than the last it
    could read. *)
Definition scan_context (src : ProcFsSource) (fs : ProcFs) : ScanContext := (begin_scan src fs).1.1.2.
Definition unchanged `{EqDecision A} (remembered : option A) (observed : Observed A) : bool := negb (identity_changed remembered observed).2.
Definition identity_kept (src : ProcFsSource) (fs : ProcFs) : bool :=
  unchanged (pf_cpu_boot src) (cx_boot (scan_context src fs)) && unchanged (pf_cpu_namespace src) (cx_pid_namespace (scan_context src fs)).
Definition scan_readings (fs : ProcFs) : list reading := match fs_listing fs with inl entries => omap reading_of entries | inr _ => [] end.

(** [samples] are those of the scans since the last change of identity. *)
Inductive scanning : ProcFsSource → list reading → Prop :=
| scanning_start src : pf_cpu_baselines src = ∅ → scanning src []
| scanning_scan src samples fs src' out : scanning src samples → pf_anchored src = true → snapshot src fs = (src', out) →
    scanning src' ((if identity_kept src fs then samples else []) ++ scan_readings fs).

(** What it takes for the identity to be kept: where both are known they agree. *)
Lemma identity_kept_agrees src fs : identity_kept src fs = true →
  (∀ a b, pf_cpu_boot src = Some a → cx_boot (scan_context src fs) = Known b → a = b) ∧
  (∀ a b, pf_cpu_namespace src = Some a → cx_pid_namespace (scan_context src fs) = Known b → a = b).
Proof.
  unfold identity_kept, unchanged. intros [Hb Hn]%andb_true_iff.
  split; intros a b Ha Hk; [rewrite Ha, Hk in Hb|rewrite Ha, Hk in Hn];
    cbn in *; by apply negb_true_iff, bool_decide_eq_false, dec_stable in Hb || apply negb_true_iff, bool_decide_eq_false, dec_stable in Hn.
Qed.

Lemma begin_scan_baselines src fs src' cx issues system : begin_scan src fs = (src', cx, issues, system) →
  pf_cpu_baselines src' = if identity_kept src fs then pf_cpu_baselines src else ∅.
Proof.
  intros Hb. unfold identity_kept, scan_context. rewrite Hb. cbn [fst snd]. revert Hb. unfold begin_scan.
  destruct (host_of _ _ _ _) as [host issues1]. destruct (identity _ _ _ _ _) as [boot issues2]. destruct (pid_namespace _ _ _ _ _) as [namespace issues3].
  destruct (identity_changed (pf_cpu_boot src) boot) as [cpu_boot boot_changed] eqn:Hb.
  destruct (identity_changed (pf_cpu_namespace src) namespace) as [cpu_namespace namespace_changed] eqn:Hn.
  destruct (system_sample _ _) as [sys baseline]. intros [= <- <- _ _]. cbn [pf_cpu_baselines cx_boot cx_pid_namespace].
  unfold unchanged. rewrite Hb, Hn. by destruct boot_changed, namespace_changed.
Qed.
Lemma scanning_ok src samples : scanning src samples → baselines_from samples (pf_cpu_baselines src) ∧
  N.of_nat (size (pf_cpu_baselines src)) ≤ pf_record_limit src.
Proof.
  induction 1 as [src Hs|src samples fs src' out _ [IH IHs] Ha Hsnap].
  { rewrite Hs. split; [done|]. rewrite map_size_empty. lia. }
  unfold snapshot in Hsnap. rewrite Ha in Hsnap. cbn [negb] in Hsnap. pose proof (begin_scan_spec src fs) as Hspec.
  destruct (begin_scan src fs) as [[[src1 cx] issues] system] eqn:Hb. pose proof (begin_scan_baselines _ _ _ _ _ _ Hb) as Hbl.
  destruct Hspec as (_ & Hrl & _ & _ & Hcrl & Hcb & _). unfold scan_readings.
  assert (baselines_from (if identity_kept src fs then samples else []) (pf_cpu_baselines src1) ∧
    N.of_nat (size (pf_cpu_baselines src1)) ≤ pf_record_limit src1) as [Hfrom Hsize].
  { rewrite Hbl, Hrl. destruct (identity_kept src fs); [done|]. split; [by intros ? ? ?|]. rewrite map_size_empty. lia. }
  destruct (fs_listing fs) as [entries|e]; injection Hsnap as <- _.
  - cbn [with_baselines pf_cpu_baselines pf_record_limit]. split; [by apply scan_baselines; rewrite Hcb|].
    destruct (scan_all cx src1 issues entries) as (skips & caps & [_ _ _ Hbound _ _ Hsz]). rewrite Hcrl, <- Hrl in Hbound. unfold len in Hbound. lia.
  - rewrite app_nil_r. by split.
Qed.

(** ** The lines of [stat] are counted to their end *)

Lemma next_line_consumes s line s' : next_line s = (inl line, s') → st_bytes s = line ++ st_bytes s'.
Proof.
  unfold next_line. destruct (position _ _) as [i|] eqn:Hi.
  - intros [= <- <-]. cbn [st_bytes]. rewrite take_take, Nat.min_l; [by rewrite take_drop|].
    assert (i < length (take MAX_STAT_CPU_LINE_BYTES (st_bytes s)))%nat as Hlt.
    { revert i Hi. induction (take _ _) as [|b l IH]; intros i; cbn [position length]; [done|].
      destruct (10 =? b); [intros [= <-]; lia|]. destruct (position _ l) as [j|]; [|done]. intros [= <-]. specialize (IH j eq_refl). lia. }
    rewrite length_take in Hlt. lia.
  - destruct (Nat.eqb_spec (length (take MAX_STAT_CPU_LINE_BYTES (st_bytes s))) MAX_STAT_CPU_LINE_BYTES) as [_|Hl];
      [intros [= <- <-]; cbn [st_bytes]; by rewrite take_drop|].
    destruct (st_end s); intros [= <- <-]. cbn [st_bytes]. rewrite app_nil_r, take_ge; [done|]. rewrite length_take in Hl. lia.
Qed.
(** One more than the bytes left is enough: more makes no difference. *)
Lemma count_cpus_enough fuel : ∀ fuel' s cpus read, (length (st_bytes s) < fuel)%nat → (length (st_bytes s) < fuel')%nat →
  count_cpus fuel s cpus read = count_cpus fuel' s cpus read.
Proof.
  induction fuel as [|fuel IH]; intros [|fuel'] s cpus read Hf Hf'; [lia..|]. cbn [count_cpus].
  destruct (next_line s) as [[line|e] s'] eqn:Hn; [|done]. destruct (is_cpu_line line) eqn:Hc; cbn [negb]; [|done].
  destruct (_ || _); [done|]. destruct (u32_max <? _); [done|]. apply next_line_consumes in Hn.
  assert (length (st_bytes s') < length (st_bytes s))%nat by (rewrite Hn, length_app; destruct line; [done|cbn [length]; lia]).
  apply IH; lia.
Qed.

(** ** The records of a scan *)

Lemma snapshot_records src fs : Forall (λ record, ∃ entries entry pid stat, fs_listing fs = inl entries ∧ inl entry ∈ entries ∧
  pf_anchored src = true ∧ record_of (scan_context src fs) entry pid stat record) (ps_records (snapshot src fs).2.1).
Proof.
  unfold snapshot, scan_context. destruct (begin_scan src fs) as [[[src1 cx] issues] system].
  destruct (pf_anchored src); cbn [negb fst snd]; [|apply Forall_nil_2].
  destruct (fs_listing fs) as [entries|e]; cbn [fst snd ps_records]; [|apply Forall_nil_2].
  destruct (scan_all cx src1 issues entries) as (skips & caps & Hsd). cbn [finish_scan ps_records].
  assert (sort_by by_pid (sn_records (foldl (scan_entry cx) (start_scan src1 issues) entries)) ≡ₚ sn_records (foldl (scan_entry cx) (start_scan src1 issues) entries)) as -> by apply sort_by_perm.
  eapply Forall_impl; [exact (sd_records _ _ _ _ _ _ _ Hsd)|].
  intros record (entry & pid & stat & ? & ?). by exists entries, entry, pid, stat.
Qed.
Lemma snapshot_source src fs src' out : snapshot src fs = (src', out) →
  pf_root src' = pf_root src ∧ pf_source src' = pf_source src ∧ pf_anchored src' = pf_anchored src.
Proof.
  unfold snapshot. destruct (pf_anchored src) eqn:Ha; cbn [negb]; [|by intros [= <- _]].
  pose proof (begin_scan_spec src fs) as Hspec. destruct (begin_scan src fs) as [[[src1 cx] issues] system].
  destruct Hspec as (Hs & _ & _ & _ & _ & _ & Han & Hr & _). destruct (fs_listing fs); intros [= <- _]; cbn; split_and!; congruence.
Qed.

(** ** Sources *)

Lemma string_of_bytes_inj a b : Forall (λ b, b < 256) a → Forall (λ b, b < 256) b → string_of_bytes a = string_of_bytes b → a = b.
Proof. intros Ha Hb Heq. by rewrite <- (bytes_of_string_of_bytes a), <- (bytes_of_string_of_bytes b), Heq. Qed.
Lemma hex_digit_inj a b : a < 16 → b < 16 → hex_digit a = hex_digit b → a = b.
Proof. unfold hex_digit. intros Ha Hb. repeat case_match; rewrite ?N.ltb_lt, ?N.ltb_ge in *; lia. Qed.
Lemma hex_bytes_inj a b : Forall (λ b, b < 256) a → Forall (λ b, b < 256) b → a ≫= hex_byte = b ≫= hex_byte → a = b.
Proof.
  intros Ha. revert b. induction Ha as [|x a Hx _ IH]; intros b Hb; destruct Hb as [|y b Hy Hb]; [done..|]. cbn [mbind list_bind hex_byte app].
  intros [= H1 H2 H3]. f_equal; [|by apply IH].
  apply hex_digit_inj in H1, H2; try (apply N.mod_lt; lia); try (apply N.Div0.div_lt_upper_bound; lia).
  rewrite (N.div_mod x 16), (N.div_mod y 16) by lia. congruence.
Qed.
Lemma hex_bytes_small a : Forall (λ b, b < 256) a → Forall (λ b, b < 256) (a ≫= hex_byte).
Proof.
  induction 1 as [|x a Hx _ IH]; cbn [mbind list_bind hex_byte app]; [done|].
  assert (∀ n, n < 16 → hex_digit n < 256) as Hd by (intros n Hn; unfold hex_digit; case_match; lia).
  apply Forall_cons_2; [apply Hd, N.Div0.div_lt_upper_bound; lia|]. apply Forall_cons_2; [apply Hd, N.mod_lt; lia|done].
Qed.

(** The collectors a root gives, over all their scans. *)
Inductive collector (given : list N) (working_directory : option (list N)) : ProcFsSource → Prop :=
| collector_new : collector given working_directory (with_root given working_directory)
| collector_clock src : collector given working_directory src → collector given working_directory (with_clock src)
| collector_record_limit src limit : collector given working_directory src → collector given working_directory (with_record_limit limit src)
| collector_uncertain_limit src limit : collector given working_directory src → collector given working_directory (with_uncertain_limit limit src)
| collector_scan src fs src' out : collector given working_directory src → snapshot src fs = (src', out) → collector given working_directory src'.
Lemma collector_source given wd src : collector given wd src → pf_root src = pf_root (with_root given wd) ∧
  pf_source src = pf_source (with_root given wd) ∧ pf_anchored src = pf_anchored (with_root given wd).
Proof. induction 1 as [| | | |src fs src' out _ [IHr [IHs IHa]] Hsnap]; [done..|]. by destruct (snapshot_source _ _ _ _ Hsnap) as (-> & -> & ->). Qed.

Definition is_bytes (l : list N) : Prop := Forall (λ b, b < 256) l.
Lemma source_id_inj a b : is_bytes a → is_bytes b → source_id_for a = source_id_for b → a = b.
Proof.
  intros Ha Hb. unfold source_id_for. destruct (from_utf8 a), (from_utf8 b); [| |done|..]; try done; intros [=]; [by apply string_of_bytes_inj|].
  apply hex_bytes_inj; [done..|]. apply string_of_bytes_inj; [by apply hex_bytes_small..|done].
Qed.
Lemma anchor_root_bytes given wd root : is_bytes given → (∀ w, wd = Some w → is_bytes w) → anchor_root given wd = Some root → is_bytes root.
Proof.
  intros Hg Hw. assert (match wd with Some w => is_bytes (w ++ given) ∧ is_bytes (w ++ [47] ++ given) | None => True end) as Hj.
  { destruct wd as [w|]; [|done]. split; (apply Forall_app; split; [by apply Hw|]); [done|]. by apply Forall_cons_2. }
  unfold anchor_root. destruct given as [|g given]; [|destruct (decide (g = 47)) as [->|Hne]; [by intros [= <-]|]].
  - destruct wd as [w|]; [|done]. cbn. destruct (_ =? 47); intros [= <-]; apply Hj.
  - intros Heq. assert ((λ working, if default 47 (last working) =? 47 then working ++ g :: given else working ++ [47] ++ g :: given) <$> wd = Some root) as Hr.
    { revert Heq. destruct g as [|p]; [done|]. do 6 (destruct p as [p|p|]; try done). }
    destruct wd as [w|]; [|done]. cbn in Hr. destruct (_ =? 47); injection Hr as <-; apply Hj.
Qed.
Lemma rooted_source given wd : pf_anchored (with_root given wd) = true →
  anchor_root given wd = Some (pf_root (with_root given wd)) ∧ pf_source (with_root given wd) = source_id_for (pf_root (with_root given wd)).
Proof. unfold with_root. by destruct (anchor_root given wd). Qed.
