(* ===== verification/SrtopOnDemand.v ===== *)
(** * srtop: fields collected on demand

    Models the metric catalogue of [apps/srtop/src/catalogue.rs] with the rules
    every entry is held to, and [apps/srtop/src/on_demand.rs]: the clock that counts
    time spent suspended, the limits, what is demanded, what is being read and the
    last value of each field, and the jobs and answers between the collector and the
    workers that read.

    A [Duration] and a [SourceTime] are nanoseconds.  What the source reads is an
    argument, and so is the clock: every operation takes the time it reads. *)

From Stdlib Require Import Ascii.
From S2P Require Import Prelude.
From S2P Require Import Values.
From S2P Require Import SrtopData.
From S2P Require Import SrtopCatalogue.
From S2P Require Import SrtopSort.

(** ** The metric catalogue *)

(** [struct MetricKey] *)
Definition MetricKey := string.
Definition MAX_KEY_BYTES : nat := 64.

(** [str::split] by an ASCII character, and the tests of its characters *)
Fixpoint split_at (c : ascii) (s : string) : list string :=
  match s with
  | EmptyString => [EmptyString]
  | String a s =>
      if bool_decide (a = c) then EmptyString :: split_at c s
      else match split_at c s with
           | segment :: rest => String a segment :: rest
           | [] => [String a EmptyString]
           end
  end.
Definition byte_between (lo hi : N) (a : ascii) : bool := (lo <=? N_of_ascii a)%N && (N_of_ascii a <=? hi)%N.
Definition is_ascii_lowercase (a : ascii) : bool := byte_between 97 122 a.
Definition is_ascii_digit (a : ascii) : bool := byte_between 48 57 a.
Definition key_character (a : ascii) : bool := is_ascii_lowercase a || is_ascii_digit a || bool_decide (a = "_"%char).
Definition key_segment (segment : string) : bool :=
  match segment with String a _ => is_ascii_lowercase a | EmptyString => false end &&
  forallb key_character (String.list_ascii_of_string segment).

(** [MetricKey::is_well_formed] *)
Definition is_well_formed (key : MetricKey) : bool :=
  negb (bool_decide (key = "") || (MAX_KEY_BYTES <? String.length key)%nat ||
        negb (existsb (λ a, bool_decide (a = "."%char)) (String.list_ascii_of_string key))) &&
  forallb key_segment (split_at "." key).

(** [struct MetricDefinition], [enum Scope], [enum Unit] and [enum RawType] *)
Record MetricDefinition := mkDefinition {
  md_id : string;
  md_label : string;
  md_unit : string;
  md_source : string;
  md_interpretation : string;
}.
Inductive Scope := ScopeOfProcess | ScopeOfSystem.
Inductive MetricUnit :=
| UProcessId | UText | UBytes | UTenthsOfOneCpu | UTenthsOfAllCpus | USeconds | UHundredthsOfTask | UUnixSeconds | UProcesses.
Inductive RawType :=
| RawUnsignedInteger | RawString | CpuTicksRecord | SystemTicksRecord | UsedOfTotalRecord | LoadAveragesRecord | WallClock.
#[export] Instance Scope_eq_dec : EqDecision Scope.
Proof. solve_decision. Defined.
#[export] Instance MetricUnit_eq_dec : EqDecision MetricUnit.
Proof. solve_decision. Defined.
#[export] Instance RawType_eq_dec : EqDecision RawType.
Proof. solve_decision. Defined.

Definition describe_unit (u : MetricUnit) : string :=
  match u with
  | UProcessId => "process ID"
  | UText => "text"
  | UBytes => "bytes"
  | UTenthsOfOneCpu => "tenths of a percent of one logical CPU"
  | UTenthsOfAllCpus => "tenths of a percent of the time of all logical CPUs"
  | USeconds => "seconds"
  | UHundredthsOfTask => "hundredths of a task"
  | UUnixSeconds => "seconds since 1970-01-01 00:00:00 UTC"
  | UProcesses => "processes"
  end.
Definition is_quantity (u : MetricUnit) : bool :=
  match u with UProcessId | UText | UUnixSeconds => false | _ => true end.
Definition carries (u : MetricUnit) (raw : RawType) : bool :=
  match u, raw with
  | UProcessId, RawUnsignedInteger
  | UText, RawString
  | UBytes, (RawUnsignedInteger | UsedOfTotalRecord)
  | UTenthsOfOneCpu, CpuTicksRecord
  | UTenthsOfAllCpus, SystemTicksRecord
  | USeconds, RawUnsignedInteger
  | UHundredthsOfTask, (RawUnsignedInteger | LoadAveragesRecord)
  | UUnixSeconds, WallClock
  | UProcesses, RawUnsignedInteger => true
  | _, _ => false
  end.

(** [enum Origin], [enum Aggregation], [enum Formatter], [enum SortKey],
    [struct DefaultSort], [enum Capability], [enum Sensitivity],
    [enum CollectionCost] and [enum RefreshTier] *)
Inductive Origin :=
| ScanListing | ProcPidStat | ProcPidStatm | ProcStat | ProcMeminfo | ProcUptime | ProcLoadavg | ServerClock | Fixture.
Inductive Aggregation := AggregateNone | AggregateSum | NonAdditive.
Inductive Formatter :=
| FormatProcessId | SanitizedText | IecBytes | IecBytesUsedOfTotal | ShareOfOneCpu | ShareOfAllCpus | FormatUptime
| FormatLoadAverages | UtcTime | FormatCount | OnDemandBytes.
Inductive SortKey := Numeric | Lexical | Chronological | Unsorted.
Record DefaultSort := mkDefaultSort { ds_key : SortKey; ds_direction : SortDirection }.
Inductive FieldCapability := Unprivileged | SameUserOrPtrace.
Inductive Sensitivity := HostFigure | ProcessMetadata | ProcessContent.
Inductive CollectionCost := Cheap | Expensive.
Inductive RefreshTier := EverySample | TierOnDemand.
#[export] Instance Aggregation_eq_dec : EqDecision Aggregation.
Proof. solve_decision. Defined.
#[export] Instance SortKey_eq_dec : EqDecision SortKey.
Proof. solve_decision. Defined.
#[export] Instance Sensitivity_eq_dec : EqDecision Sensitivity.
Proof. solve_decision. Defined.
#[export] Instance CollectionCost_eq_dec : EqDecision CollectionCost.
Proof. solve_decision. Defined.
#[export] Instance RefreshTier_eq_dec : EqDecision RefreshTier.
Proof. solve_decision. Defined.

Definition accepts (f : Formatter) : MetricUnit * RawType :=
  match f with
  | FormatProcessId => (UProcessId, RawUnsignedInteger)
  | SanitizedText => (UText, RawString)
  | IecBytes | OnDemandBytes => (UBytes, RawUnsignedInteger)
  | IecBytesUsedOfTotal => (UBytes, UsedOfTotalRecord)
  | ShareOfOneCpu => (UTenthsOfOneCpu, CpuTicksRecord)
  | ShareOfAllCpus => (UTenthsOfAllCpus, SystemTicksRecord)
  | FormatUptime => (USeconds, RawUnsignedInteger)
  | FormatLoadAverages => (UHundredthsOfTask, LoadAveragesRecord)
  | UtcTime => (UUnixSeconds, WallClock)
  | FormatCount => (UProcesses, RawUnsignedInteger)
  end.
Definition sort_fits (sort : DefaultSort) (u : MetricUnit) : bool :=
  match ds_key sort with
  | Numeric => is_quantity u || bool_decide (u = UProcessId)
  | Lexical => bool_decide (u = UText)
  | Chronological => bool_decide (u = UUnixSeconds)
  | Unsorted => true
  end.

(** [struct MetricSpec] and its methods *)
Record MetricSpec := mkSpec {
  sp_definition : MetricDefinition;
  sp_scope : Scope;
  sp_unit : MetricUnit;
  sp_raw : RawType;
  sp_origin : Origin;
  sp_aggregation : Aggregation;
  sp_formatter : Formatter;
  sp_sort : DefaultSort;
  sp_capability : FieldCapability;
  sp_sensitivity : Sensitivity;
  sp_cost : CollectionCost;
  sp_tiers : list RefreshTier;
}.
Definition spec_key (spec : MetricSpec) : MetricKey := md_id (sp_definition spec).
Definition supports (spec : MetricSpec) (tier : RefreshTier) : bool := bool_decide (tier ∈ sp_tiers spec).

(** [enum UnitConflict] and [enum CatalogueError] *)
Inductive UnitConflict :=
| ConflictDefinition (unit : string) | ConflictRawType (raw : RawType) | ConflictFormatter (f : Formatter)
| ConflictAggregation (a : Aggregation) | ConflictSort (k : SortKey).
Inductive CatalogueError :=
| MalformedKey (key : string) | DuplicateKey (key : MetricKey)
| IncompatibleUnit (key : MetricKey) (unit : MetricUnit) (conflict : UnitConflict)
| TierPolicy (key : MetricKey) (reason : string)
| TooManyEntries (count : N).

(** [MetricSpec::check] *)
Definition check_spec (spec : MetricSpec) : result CatalogueError unit :=
  let key := spec_key spec in
  let incompatible conflict := IncompatibleUnit key (sp_unit spec) conflict in
  _ ← err_if (negb (is_well_formed key)) (MalformedKey key);
  _ ← err_if (negb (bool_decide (md_unit (sp_definition spec) = describe_unit (sp_unit spec))))
        (incompatible (ConflictDefinition (md_unit (sp_definition spec))));
  _ ← err_if (negb (carries (sp_unit spec) (sp_raw spec))) (incompatible (ConflictRawType (sp_raw spec)));
  _ ← err_if (negb (bool_decide (accepts (sp_formatter spec) = (sp_unit spec, sp_raw spec))))
        (incompatible (ConflictFormatter (sp_formatter spec)));
  _ ← err_if (negb (bool_decide (sp_aggregation spec = AggregateNone)) && negb (is_quantity (sp_unit spec)))
        (incompatible (ConflictAggregation (sp_aggregation spec)));
  _ ← err_if (negb (sort_fits (sp_sort spec) (sp_unit spec))) (incompatible (ConflictSort (ds_key (sp_sort spec))));
  _ ← err_if (bool_decide (sp_tiers spec = []))
        (TierPolicy key "supports no refresh tier, so it could never be collected");
  _ ← err_if (match sp_tiers spec with [a; b] => bool_decide (a = b) | _ => false end)
        (TierPolicy key "names the same refresh tier twice");
  _ ← err_if (2 <? length (sp_tiers spec))%nat (TierPolicy key "names more refresh tiers than exist");
  _ ← err_if (bool_decide (sp_cost spec = Expensive) && supports spec EverySample)
        (TierPolicy key "is expensive and may only be collected on demand");
  _ ← err_if (bool_decide (sp_sensitivity spec = ProcessContent) && supports spec EverySample)
        (TierPolicy key "is process content and may only be collected on demand");
  err_if (bool_decide (sp_scope spec = ScopeOfSystem) && supports spec TierOnDemand)
    (TierPolicy key "is host-wide and has no row to be demanded for").

(** [struct Catalogue], [Catalogue::new], [get] and [every_sample]; the index names
    positions of [specs], so [get] never fails on one. *)
Record Catalogue := mkCatalogue { ct_specs : list MetricSpec; ct_index : gmap MetricKey nat }.
Definition MAX_ENTRIES : N := 512.
Definition add_spec (c : Catalogue) (spec : MetricSpec) : result CatalogueError Catalogue :=
  _ ← err_if (len (ct_specs c) =? MAX_ENTRIES)%N (TooManyEntries (MAX_ENTRIES + 1));
  _ ← check_spec spec;
  let key := spec_key spec in
  _ ← err_if (bool_decide (is_Some (ct_index c !! key))) (DuplicateKey key);
  Ok (mkCatalogue (ct_specs c ++ [spec]) (<[key := length (ct_specs c)]> (ct_index c))).
Definition Catalogue_new (specs : list MetricSpec) : result CatalogueError Catalogue :=
  try_fold add_spec (mkCatalogue [] ∅) specs.
Definition catalogue_get (c : Catalogue) (key : MetricKey) : option MetricSpec :=
  position ← ct_index c !! key; ct_specs c !! position.
Definition every_sample (c : Catalogue) (scope : Scope) : list MetricSpec :=
  filter (λ spec, sp_scope spec = scope ∧ supports spec EverySample = true) (ct_specs c).

(** ** Time *)

(** [Duration::MAX], and [SourceTime::age_at] *)
Definition DURATION_MAX : N := u64_max * 10 ^ 9 + 999999999.
Definition age_at (time now : N) : N := now - time.

(** [struct ElapsedTracker], [new] and [advance] *)
Record ElapsedTracker := mkTracker { et_total : N; et_monotonic : N; et_wall : option N }.
Definition ElapsedTracker_new (wall : option N) : ElapsedTracker := mkTracker 0 0 wall.
Definition wall_step (before now : option N) : N :=
  match before, now with Some before, Some now => now - before | _, _ => 0 end.
Definition advance (t : ElapsedTracker) (monotonic : N) (wall : option N) : ElapsedTracker * N :=
  let monotonic_step := (monotonic - et_monotonic t)%N in
  let total := N.min (et_total t + N.max monotonic_step (wall_step (et_wall t) wall)) DURATION_MAX in
  (mkTracker total (N.max (et_monotonic t) monotonic) (match wall with Some _ => wall | None => et_wall t end), total).

(** ** Values, limits and states *)

(** [enum RawValue], [enum Unavailable] and [FieldResult] *)
Inductive RawValue := UnsignedInteger (n : N) | RawText (text : string).
Inductive Unavailable := PermissionDenied | Unsupported | Failed.
Definition FieldResult : Type := RawValue + Unavailable.
#[export] Instance RawValue_eq_dec : EqDecision RawValue.
Proof. solve_decision. Defined.
#[export] Instance Unavailable_eq_dec : EqDecision Unavailable.
Proof. solve_decision. Defined.
Definition raw_type (v : RawValue) : RawType :=
  match v with UnsignedInteger _ => RawUnsignedInteger | RawText _ => RawString end.

(** [struct Limits], [enum LimitsError] and [Limits::validate] *)
Record OnDemandLimits := mkOnDemandLimits {
  max_fields : N;
  max_in_flight : N;
  max_age : N;
  min_interval : N;
  read_deadline : N;
  max_abandoned : N;
}.
Inductive LimitsError := LimitZero (limit : string) | AbandonedBelowInFlight (max_in_flight max_abandoned : N).
Definition zero_limits (l : OnDemandLimits) : list (string * bool) :=
  [("max_fields", (max_fields l =? 0)%N); ("max_in_flight", (max_in_flight l =? 0)%N);
   ("max_abandoned", (max_abandoned l =? 0)%N); ("max_age", (max_age l =? 0)%N);
   ("read_deadline", (read_deadline l =? 0)%N)].
Definition validate_limits (l : OnDemandLimits) : result LimitsError unit :=
  match filter (λ entry : string * bool, entry.2 = true) (zero_limits l) with
  | (limit, _) :: _ => Err (LimitZero limit)
  | [] => err_if (max_abandoned l <? max_in_flight l)%N (AbandonedBelowInFlight (max_in_flight l) (max_abandoned l))
  end.
Definition default_limits : OnDemandLimits :=
  mkOnDemandLimits 1024 4 (10 * 10 ^ 9) (1 * 10 ^ 9) (30 * 10 ^ 9) 16.

(** [enum FieldState] *)
Inductive FieldState :=
| FsWarmingUp
| FsPresent (value : RawValue) (observed_at : N)
| FsStale (value : RawValue) (observed_at : N)
| FsPermissionDenied | FsUnsupported | FsFailed.
#[export] Instance FieldState_eq_dec : EqDecision FieldState.
Proof. solve_decision. Defined.
Definition state_availability (s : FieldState) : Availability :=
  match s with
  | FsWarmingUp => AvWarmingUp
  | FsPresent _ _ => AvPresent
  | FsStale _ _ => AvStale
  | FsPermissionDenied => AvPermissionDenied
  | FsUnsupported => AvUnsupported
  | FsFailed => AvFailed
  end.

(** ** The collector *)

(** [FieldId], of a process instance and a metric *)
Definition FieldId : Type := ProcessKey * MetricKey.

(** [struct Pending], [Reading], [Slot], [Completion], [Outstanding] and
    [DemandReport] *)
Record PendingRead := mkPendingRead { pd_sequence : N; pd_issued_at : N }.
Record Reading := mkReading { rd_sequence : N; rd_observed_at : N; rd_result : FieldResult }.
Record Slot := mkSlot { sl_pending : option PendingRead; sl_reading : option Reading; sl_demanded_since : N }.
Definition Slot_new (now : N) : Slot := mkSlot None None now.
Record Completion := mkCompletion {
  cp_field : FieldId;
  cp_sequence : N;
  cp_started : N;
  cp_finished : N;
  cp_result : FieldResult;
}.
Record Outstanding := mkOutstanding { ou_field : FieldId; ou_issued_at : N; ou_abandoned : bool }.
Record DemandReport := mkReport {
  dr_requested : N;
  dr_dispatched : N;
  dr_unknown : N;
  dr_not_on_demand : N;
  dr_over_capacity : N;
  dr_forgotten : N;
}.

(** What a dispatched job holds, and the two ways it answers: with what it read, or
    through the guard that answers for a job that was dropped or panicked. *)
Record Job := mkJob { job_field : FieldId; job_sequence : N }.
Definition run_job (j : Job) (started finished : N) (r : FieldResult) : Completion :=
  mkCompletion (job_field j) (job_sequence j) started finished r.
Definition drop_job (j : Job) (now : N) : Completion :=
  mkCompletion (job_field j) (job_sequence j) now now (inr Failed).

(** [struct OnDemandFields]; the channel is the list of completions not received. *)
Record OnDemandFields := mkFields {
  od_catalogue : Catalogue;
  od_limits : OnDemandLimits;
  od_slots : gmap FieldId Slot;
  od_last_sequence : N;
  od_outstanding : gmap N Outstanding;
  od_reading_of : gmap FieldId N;
  od_in_flight : N;
  od_abandoned : N;
  od_completions : list Completion;
}.
Definition OnDemandFields_new (c : Catalogue) (l : OnDemandLimits) : result LimitsError OnDemandFields :=
  _ ← validate_limits l; Ok (mkFields c l ∅ 0 ∅ ∅ 0 0 []).

(** [OnDemandFields::expire]: a read past its deadline is given up, whatever the
    order the map of outstanding reads is walked in. *)
Definition fail_slot (s : Slot) (sequence issued_at : N) : Slot :=
  match sl_pending s with
  | Some pending =>
      if (pd_sequence pending =? sequence)%N
      then mkSlot None (Some (mkReading sequence issued_at (inr Failed))) (sl_demanded_since s)
      else s
  | None => s
  end.
Definition overdue (limits : OnDemandLimits) (now : N) (read : Outstanding) : bool :=
  negb (ou_abandoned read || (age_at (ou_issued_at read) now <? read_deadline limits)%N).
Definition expire_read (now : N) (st : OnDemandFields) (entry : N * Outstanding) : OnDemandFields :=
  let '(sequence, read) := entry in
  if overdue (od_limits st) now read then
    mkFields (od_catalogue st) (od_limits st)
      (alter (λ s, fail_slot s sequence (ou_issued_at read)) (ou_field read) (od_slots st))
      (od_last_sequence st)
      (<[sequence := mkOutstanding (ou_field read) (ou_issued_at read) true]> (od_outstanding st))
      (od_reading_of st) (sub64 (od_in_flight st) 1) (add64 (od_abandoned st) 1) (od_completions st)
  else st.
Definition expire (st : OnDemandFields) (now : N) : OnDemandFields :=
  foldl (expire_read now) st (map_to_list (od_outstanding st)).

(** The first loop of [demand]: which of the wanted fields are tracked. *)
Record Wanted := mkWanted { wn_report : DemandReport; wn_order : list FieldId; wn_kept : gset FieldId }.
Definition want (st : OnDemandFields) (w : Wanted) (field : FieldId) : Wanted :=
  let r := wn_report w in
  let r := mkReport (dr_requested r + 1) (dr_dispatched r) (dr_unknown r) (dr_not_on_demand r) (dr_over_capacity r) (dr_forgotten r) in
  match catalogue_get (od_catalogue st) field.2 with
  | None =>
      mkWanted (mkReport (dr_requested r) (dr_dispatched r) (dr_unknown r + 1) (dr_not_on_demand r) (dr_over_capacity r)
        (dr_forgotten r)) (wn_order w) (wn_kept w)
  | Some spec =>
      if negb (supports spec TierOnDemand) then
        mkWanted (mkReport (dr_requested r) (dr_dispatched r) (dr_unknown r) (dr_not_on_demand r + 1) (dr_over_capacity r)
          (dr_forgotten r)) (wn_order w) (wn_kept w)
      else if bool_decide (field ∈ wn_kept w) then mkWanted r (wn_order w) (wn_kept w)
      else if (N.of_nat (size (wn_kept w)) =? max_fields (od_limits st))%N then
        mkWanted (mkReport (dr_requested r) (dr_dispatched r) (dr_unknown r) (dr_not_on_demand r) (dr_over_capacity r + 1)
          (dr_forgotten r)) (wn_order w) (wn_kept w)
      else mkWanted r (wn_order w ++ [field]) ({[field]} ∪ wn_kept w)
  end.
Definition wanted_fields (st : OnDemandFields) (wanted : list FieldId) : Wanted :=
  foldl (want st) (mkWanted (mkReport 0 0 0 0 0 0) [] ∅) wanted.

(** The second loop: every demanded field has a slot, adopts the read of it that is
    in flight, and is due unless it is being read or was read recently. *)
Definition Due : Type := option (N * N) * nat * FieldId.
Definition adopted (st : OnDemandFields) (slot : Slot) (sequence : N) : Slot :=
  match sl_pending slot, od_outstanding st !! sequence with
  | None, Some read =>
      if ou_abandoned read then slot
      else mkSlot (Some (mkPendingRead sequence (ou_issued_at read))) (sl_reading slot) (sl_demanded_since slot)
  | _, _ => slot
  end.
Definition last_read (slot : Slot) : option (N * N) :=
  (λ reading, (rd_observed_at reading, rd_sequence reading)) <$> sl_reading slot.
Definition is_fresh (limits : OnDemandLimits) (now : N) (last : option (N * N)) : bool :=
  match last with Some (at_, _) => (age_at at_ now <? min_interval limits)%N | None => false end.
Definition with_slots (st : OnDemandFields) (slots : gmap FieldId Slot) : OnDemandFields :=
  mkFields (od_catalogue st) (od_limits st) slots (od_last_sequence st) (od_outstanding st) (od_reading_of st)
    (od_in_flight st) (od_abandoned st) (od_completions st).
Definition track (now : N) (acc : OnDemandFields * list Due) (entry : nat * FieldId) : OnDemandFields * list Due :=
  let '(st, due) := acc in
  let '(position, field) := entry in
  let slot := default (Slot_new now) (od_slots st !! field) in
  match od_reading_of st !! field with
  | Some sequence => (with_slots st (<[field := adopted st slot sequence]> (od_slots st)), due)
  | None =>
      let last := last_read slot in
      (with_slots st (<[field := slot]> (od_slots st)),
       if is_fresh (od_limits st) now last then due else due ++ [(last, position, field)])
  end.

(** The order of [(Option<(SourceTime, u64)>, usize)] *)
Definition last_compare (a b : option (N * N)) : comparison :=
  match a, b with
  | None, None => Eq
  | None, Some _ => Lt
  | Some _, None => Gt
  | Some (t1, q1), Some (t2, q2) => then_with (N.compare t1 t2) (N.compare q1 q2)
  end.
Definition due_compare (a b : Due) : comparison :=
  then_with (last_compare a.1.1 b.1.1) (Nat.compare a.1.2 b.1.2).

(** [OnDemandFields::dispatch], and the loop of [demand] that calls it *)
Definition dispatch (st : OnDemandFields) (field : FieldId) (now : N) : OnDemandFields * Job :=
  let sequence := add64 (od_last_sequence st) 1 in
  (mkFields (od_catalogue st) (od_limits st)
     (alter (λ s, mkSlot (Some (mkPendingRead sequence now)) (sl_reading s) (sl_demanded_since s)) field (od_slots st))
     sequence
     (<[sequence := mkOutstanding field now false]> (od_outstanding st))
     (<[field := sequence]> (od_reading_of st))
     (add64 (od_in_flight st) 1) (od_abandoned st) (od_completions st),
   mkJob field sequence).
Definition at_capacity (st : OnDemandFields) : bool :=
  (max_in_flight (od_limits st) <=? od_in_flight st)%N ||
  (max_abandoned (od_limits st) <=? add64 (od_in_flight st) (od_abandoned st))%N.
Fixpoint dispatch_due (st : OnDemandFields) (due : list Due) (now : N) : OnDemandFields * list Job :=
  match due with
  | [] => (st, [])
  | (_, _, field) :: due =>
      if at_capacity st then (st, [])
      else
        let '(st1, job) := dispatch st field now in
        let '(st2, jobs) := dispatch_due st1 due now in (st2, job :: jobs)
  end.

(** [OnDemandFields::demand], with the jobs it hands to the dispatcher *)
Definition demand (st : OnDemandFields) (now : N) (wanted : list FieldId) : OnDemandFields * DemandReport * list Job :=
  let st := expire st now in
  let w := wanted_fields st wanted in
  let kept := filter (λ entry : FieldId * Slot, entry.1 ∈ wn_kept w) (od_slots st) in
  let forgotten := N.of_nat (size (od_slots st) - size kept) in
  let '(st1, due) := foldl (track now) (with_slots st kept, []) (imap pair (wn_order w)) in
  let '(st2, jobs) := dispatch_due st1 (sort_by due_compare due) now in
  let r := wn_report w in
  (st2,
   mkReport (dr_requested r) (len jobs) (dr_unknown r) (dr_not_on_demand r) (dr_over_capacity r) forgotten,
   jobs).

(** [OnDemandFields::accept] *)
Definition release (st : OnDemandFields) (read : Outstanding) (sequence : N) : OnDemandFields :=
  mkFields (od_catalogue st) (od_limits st) (od_slots st) (od_last_sequence st) (delete sequence (od_outstanding st))
    (if bool_decide (od_reading_of st !! ou_field read = Some sequence)
     then delete (ou_field read) (od_reading_of st) else od_reading_of st)
    (if ou_abandoned read then od_in_flight st else sub64 (od_in_flight st) 1)
    (if ou_abandoned read then sub64 (od_abandoned st) 1 else od_abandoned st) (od_completions st).
Definition in_window (pending : PendingRead) (c : Completion) (now : N) : bool :=
  (pd_issued_at pending <=? cp_started c)%N && (cp_started c <=? cp_finished c)%N && (cp_finished c <=? now)%N.
Definition checked_result (st : OnDemandFields) (bounded : bool) (c : Completion) : FieldResult :=
  match cp_result c with
  | inl value =>
      if negb bounded then inr Failed
      else if bool_decide (sp_raw <$> catalogue_get (od_catalogue st) (cp_field c).2 = Some (raw_type value)) then inl value
      else inr Failed
  | other => other
  end.
Definition accept (st : OnDemandFields) (c : Completion) (now : N) : OnDemandFields * bool :=
  match od_outstanding st !! cp_sequence c with
  | None => (st, false)
  | Some read =>
      let st1 := release st read (cp_sequence c) in
      if ou_abandoned read then (st1, false)
      else
        match od_slots st1 !! cp_field c with
        | None => (st1, false)
        | Some slot =>
            match sl_pending slot with
            | None => (st1, false)
            | Some pending =>
                if negb (pd_sequence pending =? cp_sequence c)%N then (st1, false)
                else if match sl_reading slot with Some reading => (cp_sequence c <=? rd_sequence reading)%N | None => false end
                then (with_slots st1 (<[cp_field c := mkSlot None (sl_reading slot) (sl_demanded_since slot)]> (od_slots st1)), false)
                else
                  let bounded := in_window pending c now in
                  let observed_at := if bounded then cp_started c else pd_issued_at pending in
                  let reading := mkReading (cp_sequence c) observed_at (checked_result st1 bounded c) in
                  (with_slots st1 (<[cp_field c := mkSlot None (Some reading) (sl_demanded_since slot)]> (od_slots st1)), true)
            end
        end
  end.

(** One turn of the loop of [collect_completed], and [collect_completed] when
    nothing more arrives while it runs; [clock i] is its [i]-th reading. *)
Definition with_completions (st : OnDemandFields) (cs : list Completion) : OnDemandFields :=
  mkFields (od_catalogue st) (od_limits st) (od_slots st) (od_last_sequence st) (od_outstanding st) (od_reading_of st)
    (od_in_flight st) (od_abandoned st) cs.
Definition collect_one (st : OnDemandFields) (now : N) : option (OnDemandFields * bool) :=
  match od_completions st with
  | [] => None
  | c :: cs => Some (accept (with_completions st cs) c now)
  end.
Fixpoint collect_loop (n : nat) (st : OnDemandFields) (clock : nat → N) (i : nat) (accepted : N) : OnDemandFields * N * nat :=
  match n, collect_one st (clock i) with
  | S n, Some (st', b) => collect_loop n st' clock (S i) (if b then accepted + 1 else accepted)%N
  | _, _ => (st, accepted, i)
  end.
Definition collect_completed (st : OnDemandFields) (clock : nat → N) : OnDemandFields * N :=
  let '(st', accepted, i) := collect_loop (length (od_completions st)) st clock 0 0 in
  (expire st' (clock i), accepted).

(** [saturated_by_wedged_reads] and [state] *)
Definition saturated_by_wedged_reads (st : OnDemandFields) : bool :=
  (0 <? od_abandoned st)%N && (od_in_flight st <? max_in_flight (od_limits st))%N &&
  (max_abandoned (od_limits st) <=? add64 (od_in_flight st) (od_abandoned st))%N.
Definition is_wedged (st : OnDemandFields) (field : FieldId) : bool :=
  match od_reading_of st !! field ≫= λ sequence, od_outstanding st !! sequence with
  | Some read => ou_abandoned read
  | None => false
  end.
Definition is_starved (st : OnDemandFields) (slot : Slot) (now : N) : bool :=
  bool_decide (sl_pending slot = None) && saturated_by_wedged_reads st &&
  (read_deadline (od_limits st) <=? age_at (sl_demanded_since slot) now)%N.
Definition state (st : OnDemandFields) (target : ProcessKey) (key : MetricKey) (now : N) : option FieldState :=
  let field := (target, key) in
  slot ← od_slots st !! field;
  Some match sl_reading slot with
  | None => if is_wedged st field || is_starved st slot now then FsFailed else FsWarmingUp
  | Some reading =>
      let observed_at := rd_observed_at reading in
      match rd_result reading with
      | inl value =>
          if (max_age (od_limits st) <? age_at observed_at now)%N then FsStale value observed_at else FsPresent value observed_at
      | inr PermissionDenied => FsPermissionDenied
      | inr Unsupported => FsUnsupported
      | inr Failed => FsFailed
      end
  end.
