(* ===== verification/SrtopOnDemandFacts.v ===== *)
(** * srtop: what the collector of on-demand fields keeps

    The collector together with the workers its reads run on: reads are counted,
    bounded, and one per field; what a field shows is the newest answer it had, read
    in its window.  Then the turns of the demanded fields: which are read first. *)

From S2P Require Import Prelude.
From S2P Require Import SrtopData.
From S2P Require Import SrtopCatalogue.
From S2P Require Import SrtopSort.
From S2P Require Import SrtopOnDemand.

(** ** The metric catalogue *)

(** What an entry may be: a well-formed key, a unit its value, its formatter, its
    aggregation and its order fit, and refresh tiers the cost policy allows. *)
Record spec_valid (spec : MetricSpec) : Prop := {
  sv_key : is_well_formed (spec_key spec) = true;
  sv_unit : md_unit (sp_definition spec) = describe_unit (sp_unit spec);
  sv_raw : carries (sp_unit spec) (sp_raw spec) = true;
  sv_formatter : accepts (sp_formatter spec) = (sp_unit spec, sp_raw spec);
  sv_aggregation : sp_aggregation spec = AggregateNone ∨ is_quantity (sp_unit spec) = true;
  sv_sort : sort_fits (sp_sort spec) (sp_unit spec) = true;
  sv_tiers : sp_tiers spec ≠ [] ∧ NoDup (sp_tiers spec);
  sv_expensive : sp_cost spec = Expensive → EverySample ∉ sp_tiers spec;
  sv_content : sp_sensitivity spec = ProcessContent → EverySample ∉ sp_tiers spec;
  sv_system : sp_scope spec = ScopeOfSystem → TierOnDemand ∉ sp_tiers spec;
}.

Lemma err_guard_Ok {E} (b : bool) (e : E) (k : result E unit) u : (_ ← err_if b e; k) = Ok u ↔ b = false ∧ k = Ok u.
Proof. destruct b, u; cbn; naive_solver. Qed.
Lemma tiers_ok (tiers : list RefreshTier) :
  bool_decide (tiers = []) = false ∧ match tiers with [a; b] => bool_decide (a = b) | _ => false end = false ∧
    (2 <? length tiers)%nat = false ↔ tiers ≠ [] ∧ NoDup tiers.
Proof.
  destruct tiers as [|a [|b [|c tiers]]]; cbn.
  - split; [by intros [? _]|by intros [? _]].
  - split; [|done]. intros _. split; [done|apply NoDup_singleton].
  - rewrite bool_decide_eq_false, NoDup_cons, list_elem_of_singleton. split; [intros (_ & ? & _)|intros (_ & ? & _); done].
    split_and!; [done..|apply NoDup_singleton].
  - split; [by intros (_ & _ & ?)|]. intros [_ Hnd]. exfalso. apply NoDup_cons in Hnd as [H1 Hnd]. apply NoDup_cons in Hnd as [H2 _].
    destruct a, b, c; set_solver.
Qed.
Lemma tier_policy (P : Prop) `{Decision P} (tier : RefreshTier) (tiers : list RefreshTier) :
  bool_decide P && bool_decide (tier ∈ tiers) = false ↔ (P → tier ∉ tiers).
Proof. rewrite andb_false_iff, !bool_decide_eq_false. destruct (decide P); tauto. Qed.

Lemma check_spec_Ok spec : check_spec spec = Ok tt ↔ spec_valid spec.
Proof.
  unfold check_spec, supports. rewrite !err_guard_Ok, err_if_Ok, !tier_policy, !negb_false_iff, !bool_decide_eq_true.
  rewrite andb_false_iff, !negb_false_iff, bool_decide_eq_true. pose proof (tiers_ok (sp_tiers spec)) as Ht.
  split.
  - intros (H1 & H2 & H3 & H4 & H5 & H6 & H7 & H8 & H9 & H10 & H11 & H12). by split; try apply Ht.
  - intros [H1 H2 H3 H4 H5 H6 H7 H10 H11 H12]. apply Ht in H7 as (? & ? & ?). by split_and!.
Qed.

Definition catalogue_wf (specs : list MetricSpec) (c : Catalogue) : Prop :=
  ct_specs c = specs ∧ ∀ key i, ct_index c !! key = Some i ↔ spec_key <$> specs !! i = Some key.
Lemma add_spec_Ok specs c spec c' : catalogue_wf specs c →
  add_spec c spec = Ok c' ↔ (len specs ≠ MAX_ENTRIES)%N ∧ spec_valid spec ∧ spec_key spec ∉ (spec_key <$> specs) ∧
    c' = mkCatalogue (specs ++ [spec]) (<[spec_key spec := length specs]> (ct_index c)).
Proof.
  intros [Hs Hi]. unfold add_spec. rewrite <- check_spec_Ok, Hs.
  assert (is_Some (ct_index c !! spec_key spec) ↔ spec_key spec ∈ (spec_key <$> specs)) as Hin.
  { rewrite list_elem_of_lookup. split; [intros [i Hk]; exists i; rewrite list_lookup_fmap; by apply Hi|].
    intros [i Hk]. rewrite list_lookup_fmap in Hk. exists i. by apply Hi. }
  split.
  - intros H. apply bind_Ok in H as (u1 & H1 & H). apply bind_Ok in H as ([] & H2 & H). apply bind_Ok in H as (u3 & H3 & H).
    apply err_if_Ok in H1, H3. apply N.eqb_neq in H1. apply bool_decide_eq_false in H3. rewrite Hin in H3. injection H as <-. by split_and!.
  - intros (H1 & -> & H3 & ->). rewrite (proj2 (N.eqb_neq _ _) H1), bool_decide_eq_false_2 by by rewrite Hin. done.
Qed.
Lemma add_spec_wf specs c spec : catalogue_wf specs c → spec_key spec ∉ (spec_key <$> specs) →
  catalogue_wf (specs ++ [spec]) (mkCatalogue (specs ++ [spec]) (<[spec_key spec := length specs]> (ct_index c))).
Proof.
  intros [Hs Hi] Hnew. split; [done|]. intros key i. cbn [ct_index]. destruct (decide (i < length specs)) as [Hlt|Hge].
  - rewrite lookup_app_l by done. rewrite <- Hi. destruct (decide (key = spec_key spec)) as [->|Hne]; [|by rewrite lookup_insert_ne].
    rewrite lookup_insert_eq. split; [intros [= <-]; lia|]. intros Hk%Hi. destruct Hnew.
    apply list_elem_of_lookup. exists i. by rewrite list_lookup_fmap.
  - destruct (decide (i = length specs)) as [->|Hne'].
    + rewrite lookup_app_r, Nat.sub_diag by lia. cbn. split.
      * intros [[<- _]|[_ Hk]]%lookup_insert_Some; [done|]. apply Hi in Hk. rewrite lookup_ge_None_2 in Hk by lia. done.
      * intros [= <-]. apply lookup_insert_eq.
    + rewrite (lookup_ge_None_2 (specs ++ [spec])) by (rewrite length_app; cbn; lia). split; [|done].
      intros [[_ ?]|[_ Hk]]%lookup_insert_Some; [done|]. apply Hi in Hk. rewrite lookup_ge_None_2 in Hk by lia. done.
Qed.
Lemma refused_spec specs spec rest : (len ((specs ++ [spec]) ++ rest) ≤ MAX_ENTRIES)%N →
  Forall spec_valid ((specs ++ [spec]) ++ rest) → NoDup (spec_key <$> (specs ++ [spec]) ++ rest) →
  (len specs ≠ MAX_ENTRIES)%N ∧ spec_valid spec ∧ spec_key spec ∉ (spec_key <$> specs).
Proof.
  intros H1 H2 H3. split_and!.
  - rewrite !len_app in H1. unfold len in *. cbn in H1. lia.
  - rewrite !Forall_app in H2. destruct H2 as [[_ H2] _]. by inversion H2.
  - rewrite !fmap_app in H3. apply NoDup_app in H3 as [H3 _]. apply NoDup_app in H3 as (_ & H3 & _).
    intros Hin. apply (H3 _ Hin). cbn. by apply list_elem_of_singleton.
Qed.
Lemma add_specs rest : ∀ specs c, catalogue_wf specs c → (len specs ≤ MAX_ENTRIES)%N → Forall spec_valid specs →
  NoDup (spec_key <$> specs) →
  (is_ok (try_fold add_spec c rest) = true ↔
     (len (specs ++ rest) ≤ MAX_ENTRIES)%N ∧ Forall spec_valid (specs ++ rest) ∧ NoDup (spec_key <$> specs ++ rest)) ∧
  ∀ c', try_fold add_spec c rest = Ok c' → catalogue_wf (specs ++ rest) c'.
Proof.
  induction rest as [|spec rest IH]; intros specs c Hc Hlen Hval Hnd; cbn [try_fold].
  { rewrite app_nil_r. split; [done|]. by intros c' [= <-]. }
  pose proof (add_spec_Ok specs c spec) as Hadd. rewrite cons_middle, app_assoc.
  destruct (add_spec c spec) as [c1|e| |] eqn:Heq; cbn [mbind result_bind].
  - destruct (proj1 (Hadd c1 Hc) eq_refl) as (Hne & Hv & Hk & ->). apply IH.
    + by apply add_spec_wf.
    + rewrite len_app. unfold len in *. cbn. lia.
    + apply Forall_app. split; [done|]. by constructor.
    + rewrite fmap_app. apply NoDup_app. split_and!; [done| |apply NoDup_singleton]. by intros k Hin ->%list_elem_of_singleton.
  - split; [|done]. split; [done|]. intros (H1 & H2 & H3).
    destruct (refused_spec specs spec rest H1 H2 H3) as (H4 & H5 & H6). discriminate (proj2 (Hadd _ Hc) (conj H4 (conj H5 (conj H6 eq_refl)))).
  - split; [|done]. split; [done|]. intros (H1 & H2 & H3).
    destruct (refused_spec specs spec rest H1 H2 H3) as (H4 & H5 & H6). discriminate (proj2 (Hadd _ Hc) (conj H4 (conj H5 (conj H6 eq_refl)))).
  - split; [|done]. split; [done|]. intros (H1 & H2 & H3).
    destruct (refused_spec specs spec rest H1 H2 H3) as (H4 & H5 & H6). discriminate (proj2 (Hadd _ Hc) (conj H4 (conj H5 (conj H6 eq_refl)))).
Qed.

Lemma catalogue_get_Some specs c key spec : catalogue_wf specs c → NoDup (spec_key <$> specs) →
  catalogue_get c key = Some spec ↔ spec ∈ specs ∧ spec_key spec = key.
Proof.
  intros [Hs Hi] Hnd. unfold catalogue_get. rewrite bind_Some, Hs, list_elem_of_lookup. setoid_rewrite Hi. split.
  - intros (i & Hk & Hspec). rewrite Hspec in Hk. injection Hk as <-. split; [by exists i|done].
  - intros ([i Hspec] & <-). exists i. by rewrite Hspec.
Qed.

(** ** The collector and its workers *)

(** The jobs that run, the time, every job handed to the dispatcher and when, and
    every answer sent. *)
Record World := mkWorld {
  wd_fields : OnDemandFields;
  wd_jobs : list Job;
  wd_now : N;
  wd_log : list (Job * N);
  wd_sent : list Completion;
}.
Definition World_new (st : OnDemandFields) (now : N) : World := mkWorld st [] now [] [].

(** The one answer a job owes: what it read, with whatever stamps its clock gave, or
    the failure its guard sends. *)
Inductive answered (j : Job) : Completion → Prop :=
| answered_run started finished r : answered j (run_job j started finished r)
| answered_drop now : answered j (drop_job j now).

(** What may happen next: time passes, a set of fields is demanded, a job answers,
    an answer is collected, or overdue reads are given up.  [other_step] is what may
    happen between two demands. *)
Inductive other_step : World → World → Prop :=
| step_tick w now : (wd_now w ≤ now)%N →
    other_step w (mkWorld (wd_fields w) (wd_jobs w) now (wd_log w) (wd_sent w))
| step_answer w l1 j l2 c : wd_jobs w = l1 ++ j :: l2 → answered j c →
    other_step w (mkWorld (with_completions (wd_fields w) (od_completions (wd_fields w) ++ [c])) (l1 ++ l2) (wd_now w)
      (wd_log w) (wd_sent w ++ [c]))
| step_collect w st b : collect_one (wd_fields w) (wd_now w) = Some (st, b) →
    other_step w (mkWorld st (wd_jobs w) (wd_now w) (wd_log w) (wd_sent w))
| step_expire w :
    other_step w (mkWorld (expire (wd_fields w) (wd_now w)) (wd_jobs w) (wd_now w) (wd_log w) (wd_sent w)).
Definition demanded (w : World) (wanted : list FieldId) (jobs : list Job) (w' : World) : Prop :=
  ∃ st r, demand (wd_fields w) (wd_now w) wanted = (st, r, jobs) ∧
    w' = mkWorld st (wd_jobs w ++ jobs) (wd_now w) (wd_log w ++ ((λ j, (j, wd_now w)) <$> jobs)) (wd_sent w).
Inductive world_step : World → World → Prop :=
| step_demand w wanted jobs w' : demanded w wanted jobs w' → world_step w w'
| step_other w w' : other_step w w' → world_step w w'.

(** ** Reads *)

Definition reads (abandoned : bool) (out : gmap N Outstanding) : N :=
  N.of_nat (size (filter (λ e : N * Outstanding, ou_abandoned e.2 = abandoned) out)).

(** What the log says: jobs are numbered in the order they were handed over. *)
Definition log_ok (log : list (Job * N)) (now : N) : Prop :=
  ∀ i j t, log !! i = Some (j, t) → job_sequence j = (N.of_nat i + 1)%N ∧ (t ≤ now)%N.

(** [run] are the sequence numbers of the jobs that run or whose answer waits. *)
Record reads_ok (st : OnDemandFields) (log : list (Job * N)) (run : list N) : Prop := {
  ro_last : od_last_sequence st = len log;
  ro_out : ∀ q o, od_outstanding st !! q = Some o → (mkJob (ou_field o) q, ou_issued_at o) ∈ log;
  ro_run : ∀ q, is_Some (od_outstanding st !! q) ↔ q ∈ run;
  ro_nodup : NoDup run;
  ro_reading : ∀ f q, od_reading_of st !! f = Some q ↔ ∃ o, od_outstanding st !! q = Some o ∧ ou_field o = f;
  ro_latest : ∀ q o j t, od_outstanding st !! q = Some o → (j, t) ∈ log → job_field j = ou_field o → (job_sequence j ≤ q)%N;
  ro_in_flight : od_in_flight st = reads false (od_outstanding st);
  ro_abandoned : od_abandoned st = reads true (od_outstanding st);
  ro_max_in_flight : (od_in_flight st ≤ max_in_flight (od_limits st))%N;
  ro_max_abandoned : (od_in_flight st + od_abandoned st ≤ max_abandoned (od_limits st))%N;
}.

Lemma reads_insert b out q o : out !! q = None →
  reads b (<[q := o]> out) = (reads b out + if Bool.eqb (ou_abandoned o) b then 1 else 0)%N.
Proof.
  intros Hq. unfold reads. destruct (Bool.eqb _ _) eqn:Hb.
  - apply eqb_prop in Hb. rewrite map_filter_insert_True by done.
    rewrite map_size_insert_None by (apply map_lookup_filter_None; auto). lia.
  - rewrite map_filter_insert_False by (cbn; intros Heq; rewrite Heq, eqb_reflx in Hb; done).
    rewrite delete_id by done. lia.
Qed.
Lemma reads_split out : (reads false out + reads true out)%N = N.of_nat (size out).
Proof.
  induction out as [|q o out Hq IH] using map_ind; [done|]. rewrite !reads_insert by done.
  rewrite map_size_insert_None by done. destruct (ou_abandoned o); cbn [Bool.eqb]; lia.
Qed.
Lemma reads_delete b out q o : out !! q = Some o →
  reads b out = (reads b (delete q out) + if Bool.eqb (ou_abandoned o) b then 1 else 0)%N.
Proof.
  intros Hq. rewrite <- (insert_delete_id out q o Hq) at 1. apply reads_insert, lookup_delete_eq.
Qed.

Lemma log_seq_inj log now j1 t1 j2 t2 : log_ok log now → (j1, t1) ∈ log → (j2, t2) ∈ log →
  job_sequence j1 = job_sequence j2 → j1 = j2 ∧ t1 = t2.
Proof.
  intros Hlog [i1 H1]%list_elem_of_lookup [i2 H2]%list_elem_of_lookup Heq.
  destruct (Hlog _ _ _ H1) as [Hs1 _]. destruct (Hlog _ _ _ H2) as [Hs2 _].
  assert (i1 = i2) as -> by lia. rewrite H1 in H2. by injection H2 as -> ->.
Qed.
Lemma log_bounds log now j t : log_ok log now → (j, t) ∈ log → (1 ≤ job_sequence j ≤ len log ∧ t ≤ now)%N.
Proof.
  intros Hlog [i Hi]%list_elem_of_lookup. destruct (Hlog _ _ _ Hi) as [-> ?]. apply lookup_lt_Some in Hi. unfold len. lia.
Qed.
Lemma log_later log now now' : log_ok log now → (now ≤ now')%N → log_ok log now'.
Proof. intros Hlog Hle i j t Hi. destruct (Hlog i j t Hi). split; [done|lia]. Qed.

Section reads.
Context (log : list (Job * N)) (now : N).
Hypothesis Hlog : log_ok log now.

Lemma outstanding_seq st run q o : reads_ok st log run → od_outstanding st !! q = Some o → (1 ≤ q ≤ len log)%N.
Proof using Hlog. intros Hst Hq. apply (ro_out _ _ _ Hst) in Hq. apply (log_bounds _ _ _ _ Hlog) in Hq as [Hb _]. exact Hb. Qed.
Lemma outstanding_size st run : reads_ok st log run → (N.of_nat (size (od_outstanding st)) ≤ len log)%N.
Proof using Hlog.
  intros Hst. rewrite <- length_map_to_list, <- (length_fmap fst). unfold len.
  rewrite <- (length_fmap (job_sequence ∘ fst) log).
  cut (length (map_to_list (od_outstanding st)).*1 ≤ length (job_sequence ∘ fst <$> log)); [lia|].
  apply submseteq_length, NoDup_submseteq.
  - apply NoDup_fst_map_to_list.
  - intros q ([q' o] & -> & Hq)%list_elem_of_fmap. apply elem_of_map_to_list, (ro_out _ _ _ Hst) in Hq.
    apply list_elem_of_fmap. by exists (mkJob (ou_field o) q', ou_issued_at o).
Qed.
(** At most one outstanding read per field. *)
Lemma one_read st run q1 o1 q2 o2 : reads_ok st log run → od_outstanding st !! q1 = Some o1 →
  od_outstanding st !! q2 = Some o2 → ou_field o1 = ou_field o2 → q1 = q2.
Proof using Type.
  intros Hst H1 H2 Heq. pose proof (proj2 (ro_reading _ _ _ Hst (ou_field o1) q1)) as Hr1.
  pose proof (proj2 (ro_reading _ _ _ Hst (ou_field o1) q2)) as Hr2.
  rewrite Hr1 in Hr2 by eauto. assert (Some q1 = Some q2) as [= ->] by (apply Hr2; eauto). done.
Qed.

(** Only the slots and the channel changed. *)
Lemma reads_ok_ext st st' run : reads_ok st log run → od_last_sequence st' = od_last_sequence st →
  od_outstanding st' = od_outstanding st → od_reading_of st' = od_reading_of st → od_in_flight st' = od_in_flight st →
  od_abandoned st' = od_abandoned st → od_limits st' = od_limits st → reads_ok st' log run.
Proof using Type. intros [] E1 E2 E3 E4 E5 E6. split; rewrite ?E1, ?E2, ?E3, ?E4, ?E5, ?E6; assumption. Qed.
(** *** What each operation does to the reads *)

Definition expires (st : OnDemandFields) (t : N) (o : Outstanding) : Outstanding :=
  if overdue (od_limits st) t o then mkOutstanding (ou_field o) (ou_issued_at o) true else o.

Lemma expire_read_reads st run t q o : (len log ≤ u64_max)%N → reads_ok st log run → od_outstanding st !! q = Some o →
  reads_ok (expire_read t st (q, o)) log run ∧
  od_outstanding (expire_read t st (q, o)) = <[q := expires st t o]> (od_outstanding st).
Proof using Hlog.
  intros Hmax Hst Hq. unfold expire_read, expires. destruct (overdue (od_limits st) t o) eqn:Hover.
  2:{ split; [done|]. symmetry. by apply insert_id. }
  split; [|done]. apply negb_true_iff, orb_false_iff in Hover as [Hab _].
  pose proof (outstanding_size st run Hst) as Hsize. pose proof (reads_split (od_outstanding st)) as Hsplit.
  pose proof (reads_delete false _ _ _ Hq) as Hf. pose proof (reads_delete true _ _ _ Hq) as Ht. rewrite Hab in Hf, Ht.
  cbn [Bool.eqb] in Hf, Ht. destruct Hst as [Hl Ho Hr Hn Hrd Hlt Hi Ha Hmi Hma].
  rewrite <- (insert_delete_eq (od_outstanding st) q).
  split; cbn [od_last_sequence od_outstanding od_reading_of od_in_flight od_abandoned od_limits]; [done| | |done| | | | | |].
  - intros q' o' [[<- <-]|[Hne Hq']]%lookup_insert_Some; [exact (Ho _ _ Hq)|].
    rewrite lookup_delete_ne in Hq' by done. by apply Ho.
  - intros q'. rewrite <- Hr. destruct (decide (q' = q)) as [->|Hne].
    + rewrite lookup_insert_eq, Hq. split; eauto.
    + by rewrite lookup_insert_ne, lookup_delete_ne.
  - intros f q'. rewrite Hrd. destruct (decide (q' = q)) as [->|Hne].
    + rewrite lookup_insert_eq, Hq. split; intros (o' & [= <-] & Hf'); eauto.
    + by rewrite lookup_insert_ne, lookup_delete_ne.
  - intros q' o' j t' [[<- <-]|[Hne Hq']]%lookup_insert_Some; [exact (Hlt _ _ j t' Hq)|].
    rewrite lookup_delete_ne in Hq' by done. eauto.
  - rewrite reads_insert by apply lookup_delete_eq. cbn. rewrite sub64_small; lia.
  - rewrite reads_insert by apply lookup_delete_eq. cbn. rewrite add64_small; lia.
  - rewrite sub64_small; lia.
  - rewrite sub64_small, add64_small; lia.
Qed.

Lemma dispatch_reads st run t f st' j : (len log + 1 ≤ u64_max)%N → reads_ok st log run → od_reading_of st !! f = None →
  at_capacity st = false → dispatch st f t = (st', j) → (now ≤ t)%N →
  j = mkJob f (len log + 1) ∧ reads_ok st' (log ++ [(j, t)]) (len log + 1 :: run)%N ∧ log_ok (log ++ [(j, t)]) t ∧
  od_outstanding st' = <[(len log + 1)%N := mkOutstanding f t false]> (od_outstanding st) ∧
  od_outstanding st !! (len log + 1)%N = None.
Proof using Hlog.
  intros Hmax Hst Hf Hcap Hd Ht. unfold dispatch in Hd. injection Hd as <- <-.
  pose proof (outstanding_size st run Hst) as Hsize. pose proof (reads_split (od_outstanding st)) as Hsplit.
  assert (od_outstanding st !! (len log + 1)%N = None) as Hnew.
  { destruct (od_outstanding st !! _) as [o|] eqn:Hq; [|done]. apply (outstanding_seq st run) in Hq; [lia|done]. }
  destruct Hst as [Hl Ho Hr Hn Hrd Hlt Hi Ha Hmi Hma]. unfold at_capacity in Hcap. apply orb_false_iff in Hcap as [Hc1 Hc2].
  apply N.leb_gt in Hc1, Hc2. rewrite add64_small in Hc2 by lia. rewrite Hl, add64_small by lia.
  split; [done|]. split; [|split; [|done]].
  - split; cbn [od_last_sequence od_outstanding od_reading_of od_in_flight od_abandoned od_limits].
    + rewrite len_app. done.
    + intros q o [[<- <-]|[Hne Hq]]%lookup_insert_Some; rewrite elem_of_app; [right; by left|left; auto].
    + intros q. rewrite elem_of_cons, <- Hr. destruct (decide (q = len log + 1)%N) as [->|Hne].
      * rewrite lookup_insert_eq. split; eauto.
      * rewrite lookup_insert_ne by done. naive_solver.
    + constructor; [|done]. rewrite <- Hr, Hnew. by intros [].
    + intros f' q. destruct (decide (f' = f)) as [->|Hnf].
      * rewrite lookup_insert_eq. split.
        -- intros [= <-]. rewrite lookup_insert_eq. eauto.
        -- intros (o & [[<- <-]|[Hne Hq]]%lookup_insert_Some & Hof); [done|].
           assert (od_reading_of st !! f = Some q) as Heq by (apply Hrd; eauto). congruence.
      * rewrite lookup_insert_ne, Hrd by done. destruct (decide (q = len log + 1)%N) as [->|Hne].
        -- rewrite lookup_insert_eq, Hnew. split; intros (o & [= <-] & Hof). cbn in Hof. congruence.
        -- by rewrite lookup_insert_ne.
    + intros q o j t' [[<- <-]|[Hne Hq]]%lookup_insert_Some Hj Hjf.
      * apply elem_of_app in Hj as [Hj|[= -> ->]%list_elem_of_singleton]; [|cbn; lia].
        apply (log_bounds _ _ _ _ Hlog) in Hj. lia.
      * apply elem_of_app in Hj as [Hj|[= -> ->]%list_elem_of_singleton]; [eauto|]. cbn in Hjf.
        assert (od_reading_of st !! f = Some q) as Heq by (apply Hrd; eauto). congruence.
    + rewrite reads_insert by done. cbn. rewrite add64_small; lia.
    + rewrite reads_insert by done. cbn. lia.
    + rewrite add64_small; lia.
    + rewrite add64_small; lia.
  - intros i j' t' Hi'. apply lookup_app_Some in Hi' as [Hi'|[Hge Hi']].
    + destruct (Hlog _ _ _ Hi'). split; [done|lia].
    + apply list_lookup_singleton_Some in Hi' as [Hz [= <- <-]]. cbn. unfold len. split; [|done].
      replace i with (length log) by lia. done.
Qed.

Lemma release_reads st run1 run2 q o : (len log ≤ u64_max)%N → reads_ok st log (run1 ++ q :: run2) → od_outstanding st !! q = Some o →
  reads_ok (release st o q) log (run1 ++ run2) ∧ od_outstanding (release st o q) = delete q (od_outstanding st) ∧
  od_slots (release st o q) = od_slots st ∧ od_catalogue (release st o q) = od_catalogue st ∧
  od_limits (release st o q) = od_limits st ∧ od_reading_of (release st o q) = delete (ou_field o) (od_reading_of st).
Proof using Hlog.
  intros Hmax Hst Hq. pose proof (λ q' o', one_read st _ q' o' q o Hst) as Hone.
  pose proof (outstanding_size st _ Hst) as Hsize. pose proof (reads_split (od_outstanding st)) as Hsplit.
  assert (od_reading_of st !! ou_field o = Some q) as Hrq by (apply (ro_reading _ _ _ Hst); eauto).
  unfold release. rewrite bool_decide_eq_true_2 by done.
  cbn [od_outstanding od_slots od_catalogue od_limits od_reading_of]. split; [|done].
  pose proof (reads_delete false _ _ _ Hq) as Hf. pose proof (reads_delete true _ _ _ Hq) as Ht.
  destruct Hst as [Hl Ho Hr Hn Hrd Hlt Hi Ha Hmi Hma].
  rewrite <- Permutation_middle in Hn. apply NoDup_cons in Hn as [Hnot Hn].
  split; cbn [od_last_sequence od_outstanding od_reading_of od_in_flight od_abandoned od_limits]; [done| | |done| | | | | |].
  - intros q' o' [Hne Hq']%lookup_delete_Some. by apply Ho.
  - intros q'. destruct (decide (q' = q)) as [->|Hne].
    + rewrite lookup_delete_eq. split; [by intros []|done].
    + rewrite lookup_delete_ne, Hr by done. rewrite !elem_of_app, elem_of_cons. naive_solver.
  - intros f q'. destruct (decide (f = ou_field o)) as [->|Hnf].
    + rewrite lookup_delete_eq. split; [done|]. intros (o' & [Hne Hq']%lookup_delete_Some & Hof).
      destruct Hne. symmetry. by eapply Hone.
    + rewrite lookup_delete_ne, Hrd by done. destruct (decide (q' = q)) as [->|Hne].
      * rewrite lookup_delete_eq. split; [|by intros (? & ? & ?)]. intros (o' & Hq' & Hof). congruence.
      * by rewrite lookup_delete_ne.
  - intros q' o' j t' [Hne Hq']%lookup_delete_Some. eauto.
  - destruct (ou_abandoned o); cbn [Bool.eqb] in *; [lia|rewrite sub64_small; lia].
  - destruct (ou_abandoned o); cbn [Bool.eqb] in *; [rewrite sub64_small; lia|lia].
  - destruct (ou_abandoned o); cbn [Bool.eqb] in *; [lia|rewrite sub64_small; lia].
  - destruct (ou_abandoned o); cbn [Bool.eqb] in *; rewrite sub64_small; lia.
Qed.
End reads.

(** ** Slots *)

(** A reading was taken between its request and now, no read of its field handed
    over later has been given up or collected, and a value is what the read
    answered, of the type the catalogue says. *)
Record reading_ok (cat : Catalogue) (log : list (Job * N)) (sent : list Completion) (now : N) (f : FieldId)
    (pending : option PendingRead) (r : Reading) : Prop := {
  rk_issued : ∃ t, (mkJob f (rd_sequence r), t) ∈ log ∧ (t ≤ rd_observed_at r ≤ now)%N;
  rk_newest : ∀ j t, (j, t) ∈ log → job_field j = f →
    (job_sequence j ≤ rd_sequence r)%N ∨ pd_sequence <$> pending = Some (job_sequence j);
  rk_older : ∀ p, pending = Some p → (rd_sequence r < pd_sequence p)%N;
  rk_value : ∀ v, rd_result r = inl v → ∃ c, c ∈ sent ∧ cp_field c = f ∧ cp_sequence c = rd_sequence r ∧ cp_result c = inl v ∧
    cp_started c = rd_observed_at r ∧ (cp_started c ≤ cp_finished c ≤ now)%N ∧
    sp_raw <$> catalogue_get cat f.2 = Some (raw_type v);
}.
Record slot_ok (out : gmap N Outstanding) (cat : Catalogue) (log : list (Job * N)) (sent : list Completion) (now : N)
    (f : FieldId) (s : Slot) : Prop := {
  so_pending : ∀ p, sl_pending s = Some p → out !! pd_sequence p = Some (mkOutstanding f (pd_issued_at p) false);
  so_adopts : ∀ q o, out !! q = Some o → ou_field o = f → ou_abandoned o = false → pd_sequence <$> sl_pending s = Some q;
  so_reading : ∀ r, sl_reading s = Some r → reading_ok cat log sent now f (sl_pending s) r;
}.
Definition on_demand (cat : Catalogue) (f : FieldId) : Prop :=
  ∃ spec, catalogue_get cat f.2 = Some spec ∧ supports spec TierOnDemand = true.
Record fields_ok (st : OnDemandFields) (log : list (Job * N)) (sent : list Completion) (now : N) (run : list N) : Prop := {
  fo_log : log_ok log now;
  fo_reads : reads_ok st log run;
  fo_slots : ∀ f s, od_slots st !! f = Some s → slot_ok (od_outstanding st) (od_catalogue st) log sent now f s;
  fo_tracked : ∀ f s, od_slots st !! f = Some s → on_demand (od_catalogue st) f;
  fo_size : (N.of_nat (size (od_slots st)) ≤ max_fields (od_limits st))%N;
}.

Lemma reading_ok_mono cat log sent sent' now now' f p r : (now ≤ now')%N → (∀ c, c ∈ sent → c ∈ sent') →
  reading_ok cat log sent now f p r → reading_ok cat log sent' now' f p r.
Proof.
  intros Hnow Hsent [(t & Hj & Ht) Hn Ho Hv]. split; [exists t; split; [done|lia]|done..|].
  intros v Hr. destruct (Hv v Hr) as (c & Hc & ? & ? & ? & ? & ? & ?). exists c. split_and!; auto; lia.
Qed.
Lemma slot_ok_mono out cat log sent sent' now now' f s : (now ≤ now')%N → (∀ c, c ∈ sent → c ∈ sent') →
  slot_ok out cat log sent now f s → slot_ok out cat log sent' now' f s.
Proof. intros Hnow Hsent [? ? Hr]. split; [done..|]. intros r Hrd. by eapply reading_ok_mono, Hr. Qed.
Lemma fields_ok_mono st log sent sent' now now' run : (now ≤ now')%N → (∀ c, c ∈ sent → c ∈ sent') →
  fields_ok st log sent now run → fields_ok st log sent' now' run.
Proof.
  intros Hnow Hsent [Hl Hr Hs Ht Hz]. split; [by eapply log_later|done| |done..].
  intros f s Hf. by eapply slot_ok_mono, Hs.
Qed.

(** Slots of other fields do not see what happens to a read. *)
Lemma slot_ok_insert out cat log sent now f s q o : slot_ok out cat log sent now f s → ou_field o ≠ f →
  (∀ o', out !! q = Some o' → ou_field o' = ou_field o) → slot_ok (<[q := o]> out) cat log sent now f s.
Proof.
  intros [Hp Ha Hr] Hne Hold. split; [| |done].
  - intros p Hpend. apply Hp in Hpend. rewrite lookup_insert_ne; [done|]. intros ->.
    apply Hold in Hpend. cbn in Hpend. congruence.
  - intros q' o' [[<- <-]|[_ Hq']]%lookup_insert_Some Hf Hab; [done|]. by eapply Ha.
Qed.
Lemma slot_ok_delete out cat log sent now f s q o : slot_ok out cat log sent now f s → out !! q = Some o → ou_field o ≠ f →
  slot_ok (delete q out) cat log sent now f s.
Proof.
  intros [Hp Ha Hr] Hq Hne. split; [| |done].
  - intros p Hpend. apply Hp in Hpend. rewrite lookup_delete_ne; [done|]. intros ->. rewrite Hq in Hpend.
    injection Hpend as ->. done.
  - intros q' o' [_ Hq']%lookup_delete_Some Hf Hab. by eapply Ha.
Qed.

Lemma expire_read_ok st log sent now run q o : (len log ≤ u64_max)%N → fields_ok st log sent now run →
  od_outstanding st !! q = Some o → fields_ok (expire_read now st (q, o)) log sent now run ∧
  od_outstanding (expire_read now st (q, o)) = <[q := expires st now o]> (od_outstanding st).
Proof.
  intros Hmax [Hl Hr Hs Ht Hz] Hq. destruct (expire_read_reads log now Hl st run now q o Hmax Hr Hq) as [Hr' Hout].
  split; [|done]. unfold expire_read in *. unfold expires in Hout. destruct (overdue (od_limits st) now o) eqn:Hover; [|done].
  apply negb_true_iff, orb_false_iff in Hover as [Hab _].
  split; [done|done| | |]; cbn [od_slots od_outstanding od_catalogue od_limits].
  - intros f s Hf. destruct (decide (f = ou_field o)) as [->|Hne].
    2:{ rewrite lookup_alter_ne in Hf by done. apply slot_ok_insert; [by apply Hs|done|]. intros o' Ho'. cbn. congruence. }
    apply lookup_alter_Some in Hf as [(_ & s0 & Hs0 & ->)|[? _]]; [|done].
    destruct (Hs _ _ Hs0) as [Hp Ha Hrd]. pose proof (Ha _ _ Hq eq_refl Hab) as Hpend.
    apply fmap_Some in Hpend as (p & Hpend & Hpq). unfold fail_slot. rewrite Hpend, <- Hpq, N.eqb_refl.
    pose proof (Hp _ Hpend) as Hpo. rewrite <- Hpq, Hq in Hpo. injection Hpo as Ho.
    split; cbn [sl_pending sl_reading]; [done| |].
    + intros q' o' [[<- <-]|[Hne Hq']]%lookup_insert_Some Hf' Hab'; [done|].
      destruct Hne. by apply (one_read _ _ _ _ _ _ _ Hr Hq Hq').
    + intros r [= <-]. pose proof (ro_out _ _ _ Hr _ _ Hq) as Hlog. split; cbn [rd_sequence rd_observed_at rd_result]; [| |done|done].
      * exists (ou_issued_at o). split; [done|]. apply (log_bounds _ _ _ _ Hl) in Hlog. lia.
      * intros j t Hj Hjf. left. eapply (ro_latest _ _ _ Hr); [exact Hq|exact Hj|done].
  - intros f s Hf. apply lookup_alter_Some in Hf as [(<- & s0 & Hs0 & ->)|[_ Hs0]]; by eapply Ht.
  - by rewrite <- size_dom, dom_alter_L, size_dom.
Qed.

(** Everything of the collector an operation on its slots leaves alone. *)
Definition same_reads (st st' : OnDemandFields) : Prop :=
  od_catalogue st' = od_catalogue st ∧ od_limits st' = od_limits st ∧ od_last_sequence st' = od_last_sequence st ∧
  od_reading_of st' = od_reading_of st ∧ od_completions st' = od_completions st.

(** Giving up reads touches only the slots of fields being read, and leaves each of
    them with a reading where it had a pending read. *)
Definition gave_up (st st' : OnDemandFields) : Prop :=
  same_reads st st' ∧
  ∀ f, match od_slots st !! f with
       | None => od_slots st' !! f = None
       | Some s => ∃ s', od_slots st' !! f = Some s' ∧
           (od_reading_of st !! f = None → s' = s) ∧
           (is_Some (sl_pending s) ∨ is_Some (sl_reading s) → is_Some (sl_pending s') ∨ is_Some (sl_reading s'))
       end.
Lemma gave_up_refl st : gave_up st st.
Proof. split; [by split_and!|]. intros f. destruct (od_slots st !! f) as [s|]; [|done]. by exists s. Qed.
Lemma gave_up_trans st1 st2 st3 : gave_up st1 st2 → gave_up st2 st3 → gave_up st1 st3.
Proof.
  intros [(C1 & L1 & Q1 & R1 & P1) H1] [(C2 & L2 & Q2 & R2 & P2) H2]. split; [split_and!; congruence|].
  intros f. specialize (H1 f). specialize (H2 f). destruct (od_slots st1 !! f) as [s|].
  - destruct H1 as (s' & Hs' & Hn & Hp). rewrite Hs' in H2. destruct H2 as (s'' & Hs'' & Hn' & Hp').
    exists s''. split_and!; [done| |auto]. intros Hr. rewrite Hn' by congruence. auto.
  - by rewrite H1 in H2.
Qed.
Lemma expire_read_gave_up st log sent now run q o : fields_ok st log sent now run → od_outstanding st !! q = Some o →
  gave_up st (expire_read now st (q, o)).
Proof.
  intros Hst Hq. unfold expire_read. destruct (overdue _ _ _); [|apply gave_up_refl].
  split; [done|]. intros f. cbn [od_slots]. destruct (decide (f = ou_field o)) as [->|Hne].
  - destruct (od_slots st !! ou_field o) as [s|] eqn:Hs.
    + rewrite lookup_alter_eq, Hs. eexists. split; [done|]. split.
      * intros Hr. assert (od_reading_of st !! ou_field o = Some q) as Hr' by (apply (ro_reading _ _ _ (fo_reads _ _ _ _ _ Hst)); eauto).
        congruence.
      * unfold fail_slot. destruct (sl_pending s) as [p|] eqn:Hp; [|by rewrite Hp].
        destruct (_ =? _)%N; [cbn; eauto|by rewrite Hp].
    + by rewrite lookup_alter_eq, Hs.
  - rewrite lookup_alter_ne by done. destruct (od_slots st !! f) as [s|]; [by exists s|done].
Qed.

Lemma expire_ok st log sent now run : (len log ≤ u64_max)%N → fields_ok st log sent now run →
  fields_ok (expire st now) log sent now run ∧ gave_up st (expire st now) ∧
  od_outstanding (expire st now) = expires st now <$> od_outstanding st.
Proof.
  intros Hmax Hst. unfold expire.
  cut (∀ l st0, NoDup l.*1 → fields_ok st0 log sent now run → od_limits st0 = od_limits st →
    (∀ q o, (q, o) ∈ l → od_outstanding st0 !! q = Some o) →
    let st' := foldl (expire_read now) st0 l in
    fields_ok st' log sent now run ∧ gave_up st0 st' ∧
    ∀ q, od_outstanding st' !! q = if decide (q ∈ l.*1) then expires st now <$> od_outstanding st0 !! q else od_outstanding st0 !! q).
  { intros Hcut. destruct (Hcut (map_to_list (od_outstanding st)) st) as (H1 & H2 & H3); [apply NoDup_fst_map_to_list|done..| |].
    { intros q o. by rewrite elem_of_map_to_list. }
    split_and!; [done..|]. apply map_eq. intros q. rewrite H3, lookup_fmap. case_decide as Hin; [done|].
    destruct (od_outstanding st !! q) as [o|] eqn:Hq; [|done]. destruct Hin.
    apply elem_of_map_to_list in Hq. by apply elem_of_fst in Hq. }
  induction l as [|[q o] l IH]; intros st0 Hnd Hst0 Hlim Hl; cbn [foldl].
  { split_and!; [done|apply gave_up_refl|]. intros q. rewrite decide_False; [done|apply not_elem_of_nil]. }
  rewrite fmap_cons in Hnd. apply NoDup_cons in Hnd as [Hq Hnd]. cbn in Hq.
  assert (od_outstanding st0 !! q = Some o) as Hq0 by (apply Hl; left).
  destruct (expire_read_ok st0 log sent now run q o Hmax Hst0 Hq0) as [Hst1 Hout].
  pose proof (expire_read_gave_up st0 log sent now run q o Hst0 Hq0) as Hgu.
  destruct (IH (expire_read now st0 (q, o))) as (H1 & H2 & H3); [done|done|destruct Hgu as [(_ & -> & _) _]; done| |].
  { intros q' o' Hin. rewrite Hout, lookup_insert_ne; [apply Hl; by right|]. intros <-. by apply elem_of_fst in Hin. }
  split_and!; [done|by eapply gave_up_trans|]. intros q'. rewrite H3, Hout, fmap_cons. cbn [fst].
  assert (expires st0 now o = expires st now o) as -> by (unfold expires; by rewrite Hlim).
  destruct (decide (q' = q)) as [->|Hne].
  - rewrite lookup_insert_eq, Hq0, decide_False, decide_True by (done || by left). done.
  - rewrite lookup_insert_ne by done. destruct (decide (q' ∈ l.*1)); [rewrite decide_True by (by right); done|].
    rewrite decide_False; [done|]. by intros [->|?]%elem_of_cons.
Qed.

(** ** Answers *)

Lemma with_completions_ok st log sent now run cs : fields_ok st log sent now run → fields_ok (with_completions st cs) log sent now run.
Proof. intros [Hl Hr Hs Ht Hz]. split; [done| |done..]. by eapply reads_ok_ext. Qed.

(** What accepting an answer does to the slots: only that of its field changes, and
    it has a reading afterwards if a read of it was pending. *)
Definition answered_slots (st st' : OnDemandFields) : Prop :=
  od_catalogue st' = od_catalogue st ∧ od_limits st' = od_limits st ∧
  (∀ f, od_reading_of st !! f = None → od_reading_of st' !! f = None) ∧
  ∀ f, match od_slots st !! f with
       | None => od_slots st' !! f = None
       | Some s => ∃ s', od_slots st' !! f = Some s' ∧
           (od_reading_of st !! f = None → s' = s) ∧
           (is_Some (sl_pending s) ∨ is_Some (sl_reading s) → is_Some (sl_pending s') ∨ is_Some (sl_reading s'))
       end.

Lemma accept_ok st log sent now run1 run2 c t st' b : (len log ≤ u64_max)%N →
  fields_ok st log sent now (run1 ++ cp_sequence c :: run2) → c ∈ sent → (mkJob (cp_field c) (cp_sequence c), t) ∈ log →
  accept st c now = (st', b) →
  fields_ok st' log sent now (run1 ++ run2) ∧ answered_slots st st' ∧ od_completions st' = od_completions st ∧
  od_last_sequence st' = od_last_sequence st.
Proof.
  intros Hmax [Hl Hr Hs Ht Hz] Hsent Hj Hacc. unfold accept in Hacc.
  destruct (od_outstanding st !! cp_sequence c) as [o|] eqn:Hq.
  2:{ assert (is_Some (od_outstanding st !! cp_sequence c)) as [o Ho]; [|congruence].
      apply (ro_run _ _ _ Hr). rewrite elem_of_app, elem_of_cons. auto. }
  destruct (log_seq_inj log now _ _ _ _ Hl (ro_out _ _ _ Hr _ _ Hq) Hj eq_refl) as [Heq Hissued]. injection Heq as Hfield.
  destruct (release_reads log now Hl st run1 run2 _ o Hmax Hr Hq) as (Hr' & Hout & Hsl & Hcat & Hlim & Hrd).
  set (st1 := release st o (cp_sequence c)) in *.
  assert (od_completions st1 = od_completions st ∧ od_last_sequence st1 = od_last_sequence st) as [Hcp Hls] by done.
  assert (∀ f s, od_slots st !! f = Some s → f ≠ cp_field c ∨ ou_abandoned o = true →
    slot_ok (od_outstanding st1) (od_catalogue st1) log sent now f s) as Hother.
  { intros f s Hf Hne. rewrite Hout, Hcat. destruct (decide (f = ou_field o)) as [->|Hnf]; [|by eapply slot_ok_delete, not_eq_sym; [apply Hs| |]].
    destruct Hne as [Hne|Hab]; [done|]. destruct (Hs _ _ Hf) as [Hp Ha Hrd']. split; [| |done].
    - intros p Hpend. apply Hp in Hpend. rewrite lookup_delete_ne; [done|]. intros Heq. rewrite <- Heq, Hq in Hpend.
      injection Hpend as Heqo. by rewrite Heqo in Hab.
    - intros q' o' [Hne Hq']%lookup_delete_Some Hof Hab'. by eapply Ha. }
  assert (∀ f, od_reading_of st !! f = None → od_reading_of st1 !! f = None) as Hnone.
  { intros f Hf. rewrite Hrd. apply lookup_delete_None. auto. }
  assert (od_reading_of st !! cp_field c = Some (cp_sequence c)) as Hreading.
  { apply (ro_reading _ _ _ Hr). by exists o. }
  assert (answered_slots st st1) as Hsame.
  { split_and!; [done..|]. intros f. rewrite Hsl. destruct (od_slots st !! f) as [s|]; [by exists s|done]. }
  assert ((∀ s, od_slots st !! cp_field c = Some s → ou_abandoned o = true) → fields_ok st1 log sent now (run1 ++ run2)) as Hdropped.
  { intros Hdrop. split; [done|done| |intros f s; rewrite Hsl, Hcat; apply Ht|by rewrite Hsl, Hlim].
    intros f s Hf. rewrite Hsl in Hf. apply Hother; [done|]. destruct (decide (f = cp_field c)) as [->|]; eauto. }
  destruct (ou_abandoned o) eqn:Hab.
  { injection Hacc as <- <-. split_and!; [apply Hdropped; auto|done..]. }
  rewrite Hsl in Hacc. destruct (od_slots st !! cp_field c) as [s|] eqn:Hslot.
  2:{ injection Hacc as <- <-. split_and!; [by apply Hdropped|done..]. }
  destruct (Hs _ _ Hslot) as [Hp Ha Hrd']. pose proof (Ha _ _ Hq Hfield Hab) as Hpend.
  apply fmap_Some in Hpend as (p & Hpend & Hpq). rewrite Hpend, <- Hpq, N.eqb_refl in Hacc. cbn [negb] in Hacc.
  pose proof (Hp _ Hpend) as Hpo. rewrite <- Hpq, Hq in Hpo. injection Hpo as Ho.
  assert (pd_issued_at p = t) as Ht' by (rewrite <- Hissued, Ho; done).
  assert (match sl_reading s with Some reading => (cp_sequence c <=? rd_sequence reading)%N | None => false end = false) as Hold.
  { destruct (sl_reading s) as [r|] eqn:Hread; [|done]. apply N.leb_gt. rewrite Hpq. by apply (rk_older _ _ _ _ _ _ _ (Hrd' r eq_refl)). }
  rewrite Hold in Hacc. injection Hacc as <- <-. unfold with_slots.
  split_and!; [|split_and!; [done|done|by apply Hnone|]|done|done].
  - split; cbn [od_slots od_catalogue od_outstanding od_limits]; [done|by eapply reads_ok_ext| | |].
    + intros f s' [[<- <-]|[Hne Hf]]%lookup_insert_Some; [|apply Hother; [by rewrite <- Hsl|auto]].
      rewrite Hout. split; cbn [sl_pending sl_reading]; [done| |].
      * intros q' o' [Hne Hq']%lookup_delete_Some Hof _. destruct Hne.
        apply (one_read _ _ _ _ _ _ _ Hr Hq Hq'). congruence.
      * intros r [= <-]. split; cbn [rd_sequence rd_observed_at rd_result]; [| |done|].
        -- exists t. split; [done|]. apply (log_bounds _ _ _ _ Hl) in Hj. destruct (in_window p c now) eqn:Hw; [|rewrite Ht'; lia].
           unfold in_window in Hw. rewrite !andb_true_iff, !N.leb_le in Hw. rewrite Ht' in Hw. lia.
        -- intros j t' Hj' Hjf. left. eapply (ro_latest _ _ _ Hr); [exact Hq|exact Hj'|congruence].
        -- intros v. unfold checked_result. destruct (cp_result c) as [v'|u] eqn:Hres; [|done].
           destruct (in_window p c now) eqn:Hw; cbn [negb]; [|done]. case_bool_decide as Hraw; [|done]. intros [= ->].
           unfold in_window in Hw. rewrite !andb_true_iff, !N.leb_le in Hw.
           exists c. split_and!; try done; try lia.
    + intros f s' [[<- <-]|[Hne Hf]]%lookup_insert_Some; by eapply Ht.
    + rewrite map_size_insert_Some; [exact Hz|by exists s].
  - intros f. cbn [od_slots]. destruct (decide (f = cp_field c)) as [->|Hne].
    + rewrite Hslot, lookup_insert_eq. eexists. split; [done|]. split; [congruence|]. cbn. eauto.
    + rewrite lookup_insert_ne by done. destruct (od_slots st !! f) as [s'|]; [by exists s'|done].
Qed.

(** ** Demands *)

(** Which fields are tracked depends on the catalogue, the limits and what is
    wanted alone. *)
Lemma want_same st st' w f : od_catalogue st' = od_catalogue st → od_limits st' = od_limits st → want st' w f = want st w f.
Proof. intros Hc Hl. unfold want. by rewrite Hc, Hl. Qed.
Lemma wanted_same st st' wanted : od_catalogue st' = od_catalogue st → od_limits st' = od_limits st →
  wanted_fields st' wanted = wanted_fields st wanted.
Proof.
  intros Hc Hl. unfold wanted_fields. generalize (mkWanted (mkReport 0 0 0 0 0 0) [] ∅).
  induction wanted as [|f wanted IH]; intros w; cbn [foldl]; [done|]. by rewrite (want_same st st'), IH.
Qed.

Record wanted_ok (st : OnDemandFields) (n : nat) (w : Wanted) : Prop := {
  wk_nodup : NoDup (wn_order w);
  wk_kept : ∀ f, f ∈ wn_kept w ↔ f ∈ wn_order w;
  wk_tracked : Forall (on_demand (od_catalogue st)) (wn_order w);
  wk_size : (len (wn_order w) ≤ max_fields (od_limits st))%N;
  wk_few : length (wn_order w) ≤ n;
}.
Lemma kept_size st n w : wanted_ok st n w → size (wn_kept w) = length (wn_order w).
Proof.
  intros Hw. rewrite <- (size_list_to_set (C := gset FieldId) (wn_order w)) by apply Hw. apply set_size_proper.
  intros f. rewrite (wk_kept _ _ _ Hw), elem_of_list_to_set. done.
Qed.
Lemma want_ok st n w f : wanted_ok st n w → wanted_ok st (S n) (want st w f).
Proof.
  intros Hw. pose proof (kept_size _ _ _ Hw) as Hk. destruct Hw as [Hn Hkept Ht Hs Hf]. unfold want.
  destruct (catalogue_get (od_catalogue st) f.2) as [spec|] eqn:Hspec; [|by split; auto].
  destruct (supports spec TierOnDemand) eqn:Hsup; cbn [negb]; [|by split; auto].
  case_bool_decide as Hin; [by split; auto|]. destruct (N.eqb_spec (N.of_nat (size (wn_kept w))) (max_fields (od_limits st))) as [|Hne];
    [by split; auto|]. rewrite Hkept in Hin. rewrite Hk in Hne. unfold len in *.
  split; cbn [wn_order wn_kept].
  - apply NoDup_app. split; [done|]. split; [|apply NoDup_singleton]. by intros g Hg ->%list_elem_of_singleton.
  - intros g. rewrite elem_of_union, elem_of_singleton, elem_of_app, list_elem_of_singleton, Hkept. tauto.
  - apply Forall_app. split; [done|]. repeat constructor. by exists spec.
  - unfold len. rewrite length_app. cbn. lia.
  - rewrite length_app. cbn. lia.
Qed.
Lemma wanted_fields_ok st wanted : wanted_ok st (length wanted) (wanted_fields st wanted).
Proof.
  unfold wanted_fields. cut (∀ l n w, wanted_ok st n w → wanted_ok st (length l + n) (foldl (want st) w l)).
  { intros H. specialize (H wanted 0 (mkWanted (mkReport 0 0 0 0 0 0) [] ∅)). rewrite Nat.add_0_r in H. apply H.
    split; cbn; [constructor|set_solver|constructor|unfold len; cbn; lia|lia]. }
  induction l as [|f l IH]; intros n w Hw; [done|]. cbn [foldl length].
  replace (S (length l) + n) with (length l + S n) by lia. by apply IH, want_ok.
Qed.

(** Tracking a field: its slot exists, with the reading it had, and a field being
    read in flight waits for that read. *)
Definition slots_good (st : OnDemandFields) (log : list (Job * N)) (sent : list Completion) (now : N) : Prop :=
  ∀ f s, od_slots st !! f = Some s →
    slot_ok (od_outstanding st) (od_catalogue st) log sent now f s ∧ on_demand (od_catalogue st) f.

Definition tracked_slot (st : OnDemandFields) (now : N) (f : FieldId) : Slot :=
  let slot := default (Slot_new now) (od_slots st !! f) in
  match od_reading_of st !! f with Some q => adopted st slot q | None => slot end.

Lemma tracked_slot_ok st log sent now run f : reads_ok st log run → slots_good st log sent now →
  slot_ok (od_outstanding st) (od_catalogue st) log sent now f (tracked_slot st now f) ∧
  sl_reading (tracked_slot st now f) = od_slots st !! f ≫= sl_reading ∧
  (∀ s, od_slots st !! f = Some s → is_Some (sl_pending s) → is_Some (sl_pending (tracked_slot st now f))).
Proof.
  intros Hr Hs. unfold tracked_slot.
  assert (∀ q o, od_outstanding st !! q = Some o → ou_field o = f → od_reading_of st !! f = Some q) as Hread.
  { intros q o Hq Hf. apply (ro_reading _ _ _ Hr). by exists o. }
  destruct (od_slots st !! f) as [s|] eqn:Hf; cbn [default from_option id mbind option_bind].
  - destruct (Hs _ _ Hf) as [Hok _]. destruct (od_reading_of st !! f) as [q|] eqn:Hq; [|split_and!; [done..|by intros ? [= ->]]].
    unfold adopted. destruct (sl_pending s) as [p|] eqn:Hp; [split_and!; [done..|]; intros s0 [= <-]; by rewrite Hp|].
    apply (ro_reading _ _ _ Hr) in Hq as (o & Hq & Hof). rewrite Hq. destruct (ou_abandoned o) eqn:Hab.
    + split_and!; [done..|]. intros ? [= ->]. by rewrite Hp.
    + pose proof (so_adopts _ _ _ _ _ _ _ Hok _ _ Hq Hof Hab) as Hpend. by rewrite Hp in Hpend.
  - destruct (od_reading_of st !! f) as [q|] eqn:Hq.
    + pose proof Hq as (o & Ho & Hof)%(ro_reading _ _ _ Hr). unfold adopted. cbn [sl_pending Slot_new]. rewrite Ho.
      destruct (ou_abandoned o) eqn:Hab; (split; [|done]); split; cbn [sl_pending sl_reading Slot_new]; try done.
      * intros q' o' Hq' Hf' Hab'. pose proof (Hread _ _ Hq' Hf') as Heq. congruence.
      * intros p [= <-]. cbn. rewrite Ho. destruct o as [g i ab]; cbn in *. by subst.
      * intros q' o' Hq' Hf' Hab'. pose proof (Hread _ _ Hq' Hf') as Heq. cbn. congruence.
    + split; [|done]. split; cbn [sl_pending sl_reading Slot_new]; [done| |done]. intros q o Ho Hof _. pose proof (Hread _ _ Ho Hof). congruence.
Qed.

Lemma track_step now st due pos f : track now (st, due) (pos, f) =
  (with_slots st (<[f := tracked_slot st now f]> (od_slots st)),
   due ++ if bool_decide (od_reading_of st !! f = None) && negb (is_fresh (od_limits st) now (last_read (default (Slot_new now) (od_slots st !! f))))
          then [(last_read (default (Slot_new now) (od_slots st !! f)), pos, f)] else []).
Proof.
  unfold track, tracked_slot. destruct (od_reading_of st !! f) as [q|]; cbn; [by rewrite app_nil_r|].
  destruct (is_fresh _ _ _); cbn; [by rewrite app_nil_r|done].
Qed.

(** What the second loop of [demand] leaves: [new] are the fields that are due. *)
Record tracked_all (st st' : OnDemandFields) (now : N) (l : list (nat * FieldId)) (new : list Due) : Prop := {
  tk_same : st' = with_slots st (od_slots st');
  tk_other : ∀ f, f ∉ l.*2 → od_slots st' !! f = od_slots st !! f;
  tk_slot : ∀ f, f ∈ l.*2 → ∃ s', od_slots st' !! f = Some s' ∧ sl_reading s' = od_slots st !! f ≫= sl_reading ∧
    ∀ s, od_slots st !! f = Some s → is_Some (sl_pending s) → is_Some (sl_pending s');
  tk_due : ∀ last pos f, (last, pos, f) ∈ new ↔ (pos, f) ∈ l ∧ od_reading_of st !! f = None ∧
    last = last_read (default (Slot_new now) (od_slots st !! f)) ∧ is_fresh (od_limits st) now last = false;
  tk_nodup : NoDup new.*2;
}.
Lemma track_all st log sent now run l due : NoDup l.*2 → reads_ok st log run → slots_good st log sent now →
  Forall (on_demand (od_catalogue st)) l.*2 →
  ∃ st' new, foldl (track now) (st, due) l = (st', due ++ new) ∧ slots_good st' log sent now ∧ tracked_all st st' now l new.
Proof.
  revert st due. induction l as [|[pos f] l IH]; intros st due Hnd Hr Hs Hod; cbn [foldl].
  { exists st, []. rewrite app_nil_r. split_and!; [done..|]. split; [by destruct st|done|..].
    - intros f ?%elem_of_nil. done.
    - intros last pos f. split; [by intros ?%elem_of_nil|]. by intros [?%elem_of_nil _].
    - constructor. }
  rewrite fmap_cons in Hnd, Hod. apply NoDup_cons in Hnd as [Hf Hnd]. apply Forall_cons in Hod as [Hof Hod]. cbn [snd] in *.
  rewrite track_step. destruct (tracked_slot_ok st log sent now run f Hr Hs) as (Hok & Hrd & Hpd).
  set (st1 := with_slots st (<[f := tracked_slot st now f]> (od_slots st))).
  edestruct (IH st1) as (st' & new & Heq & Hs' & [H1 H2 H3 H4 H5]); [done|by eapply reads_ok_ext| |done|].
  { intros g s Hg. change (<[f := tracked_slot st now f]> (od_slots st) !! g = Some s) in Hg.
    apply lookup_insert_Some in Hg as [[<- <-]|[Hne Hg]]; [done|by apply Hs]. }
  exists st'. eexists. rewrite Heq, <- app_assoc. split; [done|]. split; [done|].
  assert (∀ g, g ∈ l.*2 → od_slots st1 !! g = od_slots st !! g) as Hg.
  { intros g Hg. apply lookup_insert_ne. intros <-. done. }
  split.
  - rewrite H1. done.
  - intros g [Hne Hg']%not_elem_of_cons. rewrite H2 by done. by apply lookup_insert_ne.
  - intros g [->|Hin]%elem_of_cons; cbn [snd].
    + rewrite H2 by done. cbn [od_slots st1 with_slots]. rewrite lookup_insert_eq. eauto.
    + rewrite <- (Hg g Hin). by apply H3.
  - intros last pos' g. rewrite elem_of_app, elem_of_cons, H4. cbn [od_reading_of st1 with_slots od_limits].
    destruct (decide (g = f)) as [->|Hne].
    + assert ((pos', f) ∉ l) as Hnin by (intros Hin; destruct Hf; by apply (list_elem_of_fmap_2 snd) in Hin).
      destruct (bool_decide _ && negb _) eqn:Hb; rewrite ?list_elem_of_singleton, ?elem_of_nil.
      * apply andb_true_iff in Hb as [Hb1%bool_decide_eq_true Hb2%negb_true_iff]. split.
        -- intros [[= -> ->]|[? _]]; [|done]. auto.
        -- intros ([[= ->]|?] & _ & -> & _); [by left|done].
      * split; [by intros [?|[? _]]|]. intros ([[= ->]|?] & Hb1 & -> & Hb2); [|done].
        rewrite bool_decide_eq_true_2, Hb2 in Hb by done. done.
    + assert ((pos', g) ∈ l → od_slots st1 !! g = od_slots st !! g) as Hgg by (intros _; by apply lookup_insert_ne).
      transitivity ((pos', g) ∈ l ∧ od_reading_of st !! g = None ∧ last = last_read (default (Slot_new now) (od_slots st !! g)) ∧
        is_fresh (od_limits st) now last = false).
      * destruct (bool_decide _ && negb _); rewrite ?list_elem_of_singleton, ?elem_of_nil; split.
        -- intros [[= -> -> ->]|(Hin & ? & -> & ?)]; [done|]. rewrite Hgg in * by done. auto.
        -- intros (Hin & ? & -> & ?). right. rewrite Hgg by done. auto.
        -- intros [[]|(Hin & ? & -> & ?)]. rewrite Hgg in * by done. auto.
        -- intros (Hin & ? & -> & ?). right. rewrite Hgg by done. auto.
      * split; intros [Hin ?]; split; auto. destruct Hin as [[= -> ->]|]; done.
  - rewrite fmap_app. apply NoDup_app. split_and!; [|intros g Hg1 Hg2|done].
    + destruct (_ && _); cbn; [apply NoDup_singleton|constructor].
    + destruct (_ && _); cbn in Hg1; [apply list_elem_of_singleton in Hg1 as ->|by apply elem_of_nil in Hg1].
      apply list_elem_of_fmap in Hg2 as ([[last p] g] & -> & Hin). apply H4 in Hin as [Hin _]. cbn in Hf.
      by apply (list_elem_of_fmap_2 snd) in Hin.
Qed.

Lemma reads_ok_perm st log run run' : run ≡ₚ run' → reads_ok st log run → reads_ok st log run'.
Proof. intros Hp []. split; try done; [intros q; by rewrite <- Hp|by rewrite <- Hp]. Qed.
Lemma fields_ok_perm st log sent now run run' : run ≡ₚ run' → fields_ok st log sent now run → fields_ok st log sent now run'.
Proof. intros Hp []. split; [done|by eapply reads_ok_perm|done..]. Qed.

(** Dispatching a read of a field that has none outstanding. *)
Lemma dispatch_ok st log sent now run f st' j : (len log + 1 ≤ u64_max)%N → fields_ok st log sent now run →
  od_reading_of st !! f = None → at_capacity st = false → dispatch st f now = (st', j) →
  job_field j = f ∧ fields_ok st' (log ++ [(j, now)]) sent now (job_sequence j :: run) ∧
  od_reading_of st' = <[f := job_sequence j]> (od_reading_of st) ∧
  od_slots st' = alter (λ s, mkSlot (Some (mkPendingRead (job_sequence j) now)) (sl_reading s) (sl_demanded_since s)) f (od_slots st) ∧
  od_catalogue st' = od_catalogue st ∧ od_limits st' = od_limits st ∧ od_completions st' = od_completions st.
Proof.
  intros Hmax [Hl Hr Hs Ht Hz] Hf Hcap Hd.
  destruct (dispatch_reads log now Hl st run now f st' j Hmax Hr Hf Hcap Hd (N.le_refl _)) as (Hj & Hr' & Hl' & Hout & Hnew).
  assert (od_last_sequence st = len log) as Hlast by apply Hr.
  unfold dispatch in Hd. rewrite Hlast, add64_small in Hd by done. injection Hd as Hd _.
  rewrite Hj in *. cbn [job_field job_sequence] in *. subst st'. cbn [od_outstanding] in Hout. cbn [od_reading_of od_slots od_catalogue od_limits od_completions].
  split; [done|]. split; [|done].
  assert (∀ q o, od_outstanding st !! q = Some o → ou_field o ≠ f) as Hfree.
  { intros q o Hq Hof. assert (od_reading_of st !! f = Some q) by (apply (ro_reading _ _ _ Hr); by exists o). congruence. }
  assert (∀ g r p p', g ≠ f → reading_ok (od_catalogue st) log sent now g p r → p = p' →
    reading_ok (od_catalogue st) (log ++ [(mkJob f (len log + 1), now)]) sent now g p' r) as Hlater.
  { intros g r p p' Hne [(t & Hj' & Ht') Hn Ho Hv] <-. split; [|intros j' t' [Hin|[= -> ->]%list_elem_of_singleton]%elem_of_app Hjf|done|done].
    - exists t. rewrite elem_of_app. auto.
    - eauto.
    - by destruct Hne. }
  split; [done|done| | |]; cbn [od_slots od_outstanding od_catalogue od_limits].
  - intros g s Hg. destruct (decide (g = f)) as [->|Hne].
    + apply lookup_alter_Some in Hg as [(_ & s0 & Hs0 & ->)|[? _]]; [|done]. destruct (Hs _ _ Hs0) as [Hp Ha Hrd].
      split; cbn [sl_pending sl_reading].
      * intros p [= <-]. cbn. by rewrite lookup_insert_eq.
      * intros q o [[<- <-]|[_ Hq]]%lookup_insert_Some Hof _; [done|]. by apply Hfree in Hq.
      * intros r Hread. destruct (Hrd _ Hread) as [(t & Hj' & Ht') Hn Ho Hv].
        pose proof (log_bounds _ _ _ _ Hl Hj') as [Hb _]. cbn in Hb. split; [| | |done].
        -- exists t. rewrite elem_of_app. auto.
        -- intros j' t' [Hin|[= -> ->]%list_elem_of_singleton]%elem_of_app Hjf; [|by right].
           destruct (Hn _ _ Hin Hjf) as [?|Hpe]; [by left|]. apply fmap_Some in Hpe as (p & Hpe & _). apply Hp, Hfree in Hpe. done.
        -- intros p [= <-]. cbn. lia.
    + rewrite lookup_alter_ne in Hg by done. apply slot_ok_insert; [|done|intros o' Ho'; congruence].
      destruct (Hs _ _ Hg) as [Hp Ha Hrd]. split; [done..|]. intros r Hread. by eapply Hlater; [done|apply Hrd|].
  - intros g s Hg. apply lookup_alter_Some in Hg as [(<- & s0 & Hs0 & ->)|[_ Hs0]]; by eapply Ht.
  - by rewrite <- size_dom, dom_alter_L, size_dom.
Qed.

Record dispatched_all (st st' : OnDemandFields) (due : list Due) (jobs : list Job) : Prop := {
  dp_fields : job_field <$> jobs = take (length jobs) (snd <$> due);
  dp_full : length jobs < length due → at_capacity st' = true;
  dp_cat : od_catalogue st' = od_catalogue st;
  dp_limits : od_limits st' = od_limits st;
  dp_completions : od_completions st' = od_completions st;
  dp_abandoned : od_abandoned st' = od_abandoned st;
  dp_in_flight : od_in_flight st' = (od_in_flight st + len jobs)%N;
  dp_other : ∀ f, f ∉ job_field <$> jobs → od_slots st' !! f = od_slots st !! f ∧ od_reading_of st' !! f = od_reading_of st !! f;
  dp_slot : ∀ f s, f ∈ job_field <$> jobs → od_slots st !! f = Some s → ∃ s', od_slots st' !! f = Some s' ∧ is_Some (sl_pending s');
}.
Lemma dispatch_due_ok st log sent now run due st' jobs : dispatch_due st due now = (st', jobs) →
  (len log + len jobs ≤ u64_max)%N → fields_ok st log sent now run → NoDup due.*2 →
  (∀ f, f ∈ due.*2 → od_reading_of st !! f = None) →
  fields_ok st' (log ++ ((λ j, (j, now)) <$> jobs)) sent now ((job_sequence <$> jobs) ++ run) ∧ dispatched_all st st' due jobs.
Proof.
  revert st log run jobs. induction due as [|[[last pos] f] due IH]; intros st log run jobs Heq Hmax Hst Hnd Hfree; cbn [dispatch_due] in Heq.
  { injection Heq as <- <-. rewrite app_nil_r. split; [done|]. split; cbn; try done; try (unfold len; cbn; lia); by intros ? ? ?%elem_of_nil. }
  destruct (at_capacity st) eqn:Hcap.
  { injection Heq as <- <-. rewrite app_nil_r. split; [done|]. split; cbn; try done; try (unfold len; cbn; lia); by intros ? ? ?%elem_of_nil. }
  destruct (dispatch st f now) as [st1 j] eqn:Hd. destruct (dispatch_due st1 due now) as [st2 js] eqn:Hdue. injection Heq as <- <-.
  rewrite len_cons in Hmax. rewrite fmap_cons in Hnd, Hfree. apply NoDup_cons in Hnd as [Hf Hnd]. cbn [snd] in *.
  destruct (dispatch_ok st log sent now run f st1 j) as (Hj & Hst1 & Hrd1 & Hsl1 & Hc1 & Hl1 & Hp1); [lia|done|apply Hfree; left|done|done|].
  destruct (IH st1 (log ++ [(j, now)]) (job_sequence j :: run) js Hdue) as [Hst2 [F1 F2 F3 F4 F5 F6 F7 F8 F9]].
  { rewrite len_app. unfold len in *. cbn. lia. } { done. } { done. }
  { intros g Hg. rewrite Hrd1, lookup_insert_ne by (intros ->; done). apply Hfree. by right. }
  pose proof (reads_split (od_outstanding st)) as Hsplit. pose proof (outstanding_size log now (fo_log _ _ _ _ _ Hst) st run (fo_reads _ _ _ _ _ Hst)) as Hsz.
  pose proof (ro_in_flight _ _ _ (fo_reads _ _ _ _ _ Hst)) as Hif.
  assert (od_abandoned st1 = od_abandoned st ∧ od_in_flight st1 = od_in_flight st + 1)%N as [Ha1 Hi1].
  { unfold dispatch in Hd. injection Hd as <- _. cbn. split; [done|]. rewrite add64_small; lia. }
  split.
  - rewrite <- app_assoc in Hst2. cbn [app] in Hst2. rewrite !fmap_cons. eapply fields_ok_perm; [|exact Hst2].
    cbn [app]. symmetry. apply Permutation_middle.
  - split; cbn [length fmap list_fmap snd take]; [by rewrite F1, Hj| |congruence..| | |].
    + intros Hlt. apply F2. lia.
    + rewrite F7, Hi1, len_cons. lia.
    + intros g [Hne Hg]%not_elem_of_cons. rewrite Hj in Hne. destruct (F8 g Hg) as [-> ->]. rewrite Hsl1, Hrd1.
      by rewrite lookup_alter_ne, lookup_insert_ne.
    + intros g s Hin Hs. destruct (decide (g ∈ job_field <$> js)) as [Hjs|Hjs].
      * destruct (od_slots st1 !! g) as [s1|] eqn:Hs1; [by eapply F9|].
        rewrite Hsl1 in Hs1. apply lookup_alter_None in Hs1. congruence.
      * apply elem_of_cons in Hin as [->|?]; [|done]. rewrite Hj in *. destruct (F8 f Hjs) as [-> _].
        rewrite Hsl1, lookup_alter_eq, Hs. cbn. eauto.
Qed.

(** ** Whose turn it is *)

Lemma ordering_last : ordering (λ _, True) last_compare.
Proof.
  assert (ordering (λ _ : N * N, True) (λ a b, then_with (N.compare a.1 b.1) (N.compare a.2 b.2))) as [Ho Ht].
  { apply (ordering_then _ (λ a b : N * N, N.compare a.1 b.1)); [apply (ordering_by fst), ordering_N|apply (ordering_by snd), ordering_N]. }
  split.
  - intros [[t1 q1]|] [[t2 q2]|] _ _; cbn; [|done..]. apply (Ho (t1, q1) (t2, q2)); done.
  - intros [[t1 q1]|] [[t2 q2]|] [[t3 q3]|] _ _ _; cbn; try done. apply (Ht (t1, q1) (t2, q2) (t3, q3)); done.
Qed.
Lemma ordering_due : ordering (λ _, True) due_compare.
Proof.
  apply (ordering_then _ (λ a b : Due, last_compare a.1.1 b.1.1)); [apply (ordering_by (λ a : Due, a.1.1)), ordering_last|].
  apply (ordering_by (λ a : Due, a.1.2)). split; [intros x y _ _; apply Nat.compare_antisym|].
  intros x y z _ _ _. rewrite !Nat.compare_le_iff. lia.
Qed.

(** Among the fields due, none is passed over for one that was read later. *)
Lemma dispatched_first due n last pos f last' pos' g : (last, pos, f) ∈ due → (last', pos', g) ∈ due → NoDup due.*2 →
  f ∉ take n (sort_by due_compare due).*2 → g ∈ take n (sort_by due_compare due).*2 →
  last_compare last' last ≠ Gt.
Proof.
  intros Hf Hg Hnd Hnf Hgt.
  pose proof (sort_by_ascending ordering_due due) as Hs. specialize (Hs (Forall_true _ _ (λ _, I))).
  pose proof (sort_by_perm (cmp := due_compare) due) as Hperm.
  rewrite <- fmap_take in Hnf, Hgt. rewrite <- (take_drop n (sort_by due_compare due)) in Hs, Hperm.
  assert ((last', pos', g) ∈ take n (sort_by due_compare due)) as Hg'.
  { apply list_elem_of_fmap in Hgt as (x & -> & Hx). assert (x ∈ due) as Hin by (rewrite <- Hperm; apply elem_of_app; auto).
    by rewrite (NoDup_fmap_inj snd due x (last', pos', x.2) Hnd Hin Hg eq_refl) in Hx |- *. }
  assert ((last, pos, f) ∈ drop n (sort_by due_compare due)) as Hf'.
  { rewrite <- Hperm in Hf. apply elem_of_app in Hf as [Hf|Hf]; [|done]. destruct Hnf. by apply (list_elem_of_fmap_2 snd) in Hf. }
  pose proof (StronglySorted_app_1_elem_of _ _ _ _ _ Hs Hg' Hf') as Hle. unfold cmp_le, due_compare in Hle. cbn in Hle.
  by destruct (last_compare last' last).
Qed.

Definition slot_key (st : OnDemandFields) (f : FieldId) : option (N * N) := od_slots st !! f ≫= last_read.
Definition has_history (s : Slot) : Prop := is_Some (sl_pending s) ∨ is_Some (sl_reading s).
(** How many reads may be dispatched. *)
Definition room (st : OnDemandFields) : N :=
  N.min (max_in_flight (od_limits st) - od_in_flight st) (max_abandoned (od_limits st) - (od_in_flight st + od_abandoned st)).

(** What a demand does. *)
Record demand_did (st : OnDemandFields) (now : N) (wanted : list FieldId) (st' : OnDemandFields) (jobs : list Job) : Prop := {
  dd_cat : od_catalogue st' = od_catalogue st;
  dd_limits : od_limits st' = od_limits st;
  dd_completions : od_completions st' = od_completions st;
  dd_nodup : NoDup (job_field <$> jobs);
  dd_jobs : ∀ f, f ∈ job_field <$> jobs → f ∈ wn_order (wanted_fields st wanted) ∧ od_reading_of st !! f = None;
  dd_tracked : ∀ f, is_Some (od_slots st' !! f) ↔ f ∈ wn_order (wanted_fields st wanted);
  dd_history : ∀ f s, f ∈ wn_order (wanted_fields st wanted) → od_slots st !! f = Some s → has_history s →
    ∃ s', od_slots st' !! f = Some s' ∧ has_history s';
  dd_pending : ∀ f, f ∈ job_field <$> jobs → ∃ s', od_slots st' !! f = Some s' ∧ has_history s';
  dd_waiting : ∀ f, f ∈ wn_order (wanted_fields st wanted) → f ∉ job_field <$> jobs → od_reading_of st !! f = None →
    od_reading_of st' !! f = None ∧ slot_key st' f = slot_key st f;
  dd_turn : ∀ f, f ∈ wn_order (wanted_fields st wanted) → f ∉ job_field <$> jobs → od_reading_of st !! f = None →
    is_fresh (od_limits st) now (slot_key st f) = false →
    (room (expire st now) ≤ len jobs)%N ∧ ∀ g, g ∈ job_field <$> jobs → last_compare (slot_key st g) (slot_key st f) ≠ Gt;
}.

Lemma imap_pair_snd {A} (l : list A) : (imap pair l).*2 = l.
Proof. apply list_eq. intros i. rewrite list_lookup_fmap, list_lookup_imap. by destruct (l !! i). Qed.

(** The collector when the demanded fields are tracked, and the fields due. *)
Lemma demand_tracks st log sent now run wanted : (len log ≤ u64_max)%N → fields_ok st log sent now run →
  let order := wn_order (wanted_fields st wanted) in
  let kept := filter (λ entry : FieldId * Slot, entry.1 ∈ wn_kept (wanted_fields (expire st now) wanted)) (od_slots (expire st now)) in
  ∃ st1 due, foldl (track now) (with_slots (expire st now) kept, []) (imap pair (wn_order (wanted_fields (expire st now) wanted))) = (st1, due) ∧
    fields_ok st1 log sent now run ∧ st1 = with_slots (expire st now) (od_slots st1) ∧
    (∀ f, is_Some (od_slots st1 !! f) ↔ f ∈ order) ∧
    (∀ f, f ∈ order → slot_key st1 f = slot_key (expire st now) f) ∧
    (∀ f s, f ∈ order → od_slots (expire st now) !! f = Some s → has_history s → ∃ s', od_slots st1 !! f = Some s' ∧ has_history s') ∧
    NoDup due.*2 ∧
    ∀ last f, (∃ pos, (last, pos, f) ∈ due) ↔ f ∈ order ∧ od_reading_of (expire st now) !! f = None ∧
      last = slot_key (expire st now) f ∧ is_fresh (od_limits st) now last = false.
Proof.
  intros Hmax Hst order kept. destruct (expire_ok st log sent now run Hmax Hst) as ([Hl Hr Hs Ht Hz] & [(Hc & Hli & _) _] & _).
  set (e := expire st now) in *. pose proof (wanted_same st e wanted Hc Hli) as Hw. rewrite Hw in *.
  destruct (wanted_fields_ok st wanted) as [Wn Wk Wt Ws _]. fold order in Wn, Wk, Wt, Ws.
  assert (∀ f s, kept !! f = Some s ↔ od_slots e !! f = Some s ∧ f ∈ order) as Hkept.
  { intros f s. unfold kept. rewrite map_lookup_filter_Some. cbn [fst]. by rewrite ?Hw, Wk. }
  assert (∀ f, f ∈ order → kept !! f = od_slots e !! f) as Hin.
  { intros f Hf. apply option_eq. intros s. rewrite Hkept. tauto. }
  assert (∀ f, f ∉ order → kept !! f = None) as Hout.
  { intros f Hf. apply eq_None_not_Some. intros [s Hs']. apply Hkept in Hs' as [_ ?]. done. }
  destruct (track_all (with_slots e kept) log sent now run (imap pair order) []) as (st1 & due & Heq & Hg & [K1 K2 K3 K4 K5]).
  { by rewrite imap_pair_snd. } { by eapply reads_ok_ext. }
  { intros f s Hf. apply Hkept in Hf as [Hf _]. split; [by apply Hs|by eapply Ht]. }
  { rewrite imap_pair_snd. cbn [od_catalogue with_slots]. by rewrite Hc. }
  rewrite imap_pair_snd in K2, K3. cbn [od_slots with_slots] in K2, K3.
  assert (∀ f, is_Some (od_slots st1 !! f) ↔ f ∈ order) as Hdom.
  { intros f. destruct (decide (f ∈ order)) as [Hf|Hf].
    - destruct (K3 f Hf) as (s' & -> & _). split; eauto.
    - rewrite K2, Hout by done. split; [by intros []|done]. }
  exists st1, due. fold order. rewrite Heq. split; [done|]. split; [|split; [|split; [done|split; [|split; [|split; [done|]]]]]].
  - split; [done| |intros f s Hf; by destruct (Hg f s Hf)|intros f s Hf; by destruct (Hg f s Hf)|].
    + rewrite K1. by eapply reads_ok_ext.
    + assert (od_limits st1 = od_limits st) as -> by (rewrite K1; exact Hli).
      assert (size (od_slots st1) = length order) as ->; [|done]. rewrite <- size_dom, <- (size_list_to_set (C := gset FieldId) order) by done.
      apply set_size_proper. intros f. by rewrite elem_of_dom, elem_of_list_to_set.
  - by rewrite K1.
  - intros f Hf. destruct (K3 f Hf) as (s' & Hs' & Hrd & _). unfold slot_key. rewrite Hs'. cbn. unfold last_read.
    rewrite Hrd, Hin by done. by destruct (od_slots e !! f).
  - intros f s Hf Hsl Hh. destruct (K3 f Hf) as (s' & Hs' & Hrd & Hp). rewrite Hin, Hsl in Hrd, Hp by done.
    exists s'. split; [done|]. destruct Hh as [Hh|Hh]; [left; by apply (Hp s)|right; by rewrite Hrd].
  - intros last f. setoid_rewrite K4. cbn [od_reading_of od_limits od_slots with_slots]. rewrite Hli.
    assert (f ∈ order → last_read (default (Slot_new now) (kept !! f)) = slot_key e f) as Hkey.
    { intros Hf. rewrite Hin by done. unfold slot_key. by destruct (od_slots e !! f). }
    split.
    + intros (pos & Hp & Hn & -> & Hfr). apply (list_elem_of_fmap_2 snd) in Hp. rewrite imap_pair_snd in Hp. cbn in Hp.
      rewrite Hkey in * by done. auto.
    + intros (Hf & Hn & -> & Hfr). apply list_elem_of_lookup in Hf as Hpos. destruct Hpos as [pos Hpos]. exists pos. split_and!; [|done| |done].
      * apply list_elem_of_lookup. exists pos. by rewrite list_lookup_imap, Hpos.
      * symmetry. by apply Hkey.
Qed.

Lemma demand_ok st log sent now run wanted st' r jobs : demand st now wanted = (st', r, jobs) →
  (len log + len jobs ≤ u64_max)%N → fields_ok st log sent now run →
  fields_ok st' (log ++ ((λ j, (j, now)) <$> jobs)) sent now ((job_sequence <$> jobs) ++ run) ∧
  demand_did st now wanted st' jobs ∧ dr_dispatched r = len jobs.
Proof.
  intros Heq Hmax Hst. unfold demand in Heq.
  destruct (demand_tracks st log sent now run wanted) as (st1 & due & Htr & Hst1 & Hw & Hdom & Hkey & Hhis & Hnd & Hdue); [lia|done|].
  rewrite Htr in Heq. destruct (dispatch_due st1 (sort_by due_compare due) now) as [st2 js] eqn:Hd. injection Heq as <- <- <-.
  destruct (expire_ok st log sent now run ltac:(lia) Hst) as (He & [(Hc & Hli & _ & Hrd & Hcp) Hgu] & _).
  set (e := expire st now) in *. pose proof (sort_by_perm (cmp := due_compare) due) as Hperm.
  assert (od_catalogue st1 = od_catalogue st ∧ od_limits st1 = od_limits st ∧ od_reading_of st1 = od_reading_of st ∧ od_completions st1 = od_completions st)
    as (Hc1 & Hl1 & Hr1 & Hp1) by by rewrite Hw.
  assert (∀ f, f ∈ due.*2 → f ∈ wn_order (wanted_fields st wanted) ∧ od_reading_of st !! f = None) as Hfree.
  { intros f ([[last pos] g] & -> & Hin)%list_elem_of_fmap. destruct (proj1 (Hdue last g)) as (? & ? & _); [by exists pos|]. by rewrite <- Hrd. }
  destruct (dispatch_due_ok st1 log sent now run _ st2 js Hd Hmax Hst1) as [Hst2 [F1 F2 F3 F4 F5 F6 F7 F8 F9]].
  { by rewrite Hperm. } { intros f. rewrite Hperm, Hr1. apply Hfree. }
  assert (∀ f, f ∈ job_field <$> js → f ∈ due.*2) as Hjobs.
  { intros f Hf. rewrite F1 in Hf. rewrite <- Hperm, <- (take_drop (length js)), elem_of_app. by left. }
  assert (∀ f s, f ∈ wn_order (wanted_fields st wanted) → od_slots st !! f = Some s → has_history s →
    ∃ s', od_slots st1 !! f = Some s' ∧ has_history s') as Hhis1.
  { intros f s Hf Hsl Hh. specialize (Hgu f). rewrite Hsl in Hgu. destruct Hgu as (s1 & Hs1 & _ & Hh1). eapply Hhis; [done|done|by apply Hh1]. }
  assert (∀ f, od_reading_of st !! f = None → slot_key e f = slot_key st f) as Hsame.
  { intros f Hf. unfold slot_key. specialize (Hgu f). destruct (od_slots st !! f); [|by rewrite Hgu].
    destruct Hgu as (s' & -> & Hs' & _). by rewrite Hs'. }
  assert (∀ f, f ∉ job_field <$> js → slot_key st2 f = slot_key st1 f ∧ od_reading_of st2 !! f = od_reading_of st1 !! f) as Hrest.
  { intros f Hf. unfold slot_key. by destruct (F8 f Hf) as [-> ->]. }
  split; [done|]. split; [|done]. split; [congruence..| | | | | | |].
  - rewrite F1. eapply sublist_NoDup; [|apply sublist_take]. by rewrite Hperm.
  - auto.
  - intros f. rewrite <- Hdom. destruct (decide (f ∈ job_field <$> js)) as [Hf|Hf]; [|by destruct (F8 f Hf) as [-> _]].
    assert (is_Some (od_slots st1 !! f)) as [s Hs] by (apply Hdom, Hfree, Hjobs, Hf). destruct (F9 f s Hf Hs) as (s' & -> & _). rewrite Hs. split; eauto.
  - intros f s Hf Hsl Hh. destruct (Hhis1 f s Hf Hsl Hh) as (s1 & Hs1 & Hh1).
    destruct (decide (f ∈ job_field <$> js)) as [Hj|Hj].
    + destruct (F9 f s1 Hj Hs1) as (s' & ? & ?). exists s'. split; [done|by left].
    + exists s1. by destruct (F8 f Hj) as [-> _].
  - intros f Hf. assert (is_Some (od_slots st1 !! f)) as [s Hs] by (apply Hdom, Hfree, Hjobs, Hf).
    destruct (F9 f s Hf Hs) as (s' & ? & ?). exists s'. split; [done|by left].
  - intros f Hf Hj Hn. destruct (Hrest f Hj) as [-> ->]. rewrite Hkey, Hr1, Hsame by done. done.
  - intros f Hf Hj Hn Hfr.
    assert (∃ pos, (slot_key st f, pos, f) ∈ due) as [pos Hfd] by (apply Hdue; rewrite Hrd, Hsame; done).
    assert (f ∈ due.*2) as Hfd2 by (by apply (list_elem_of_fmap_2 snd) in Hfd).
    assert (length js < length (sort_by due_compare due)) as Hlt.
    { destruct (Nat.le_gt_cases (length (sort_by due_compare due)) (length js)) as [Hge|?]; [|done]. destruct Hj.
      rewrite F1, take_ge by (by rewrite length_fmap). by rewrite Hperm. }
    apply F2 in Hlt. split.
    + unfold at_capacity in Hlt. rewrite F4, F6, F7, Hl1 in Hlt.
      pose proof (ro_max_in_flight _ _ _ (fo_reads _ _ _ _ _ Hst2)) as HA.
      pose proof (outstanding_size _ now (fo_log _ _ _ _ _ Hst2) st2 _ (fo_reads _ _ _ _ _ Hst2)) as Hsz. rewrite len_app in Hsz.
      assert (len ((λ j, (j, now)) <$> js) = len js) as Hlj by (unfold len; by rewrite length_fmap). rewrite Hlj in Hsz.
      pose proof (reads_split (od_outstanding st2)) as Hsp.
      rewrite <- (ro_in_flight _ _ _ (fo_reads _ _ _ _ _ Hst2)), <- (ro_abandoned _ _ _ (fo_reads _ _ _ _ _ Hst2)), F6, F7 in Hsp.
      rewrite add64_small in Hlt by lia.
      assert (od_in_flight st1 = od_in_flight e ∧ od_abandoned st1 = od_abandoned e) as [Hi1 Ha1] by by rewrite Hw.
      rewrite Hi1, Ha1 in Hlt. change (expire st now) with e. unfold room. rewrite Hli. apply orb_true_iff in Hlt as [Hlt%N.leb_le|Hlt%N.leb_le]; lia.
    + intros g Hg. pose proof (Hjobs g Hg) as Hgd. apply list_elem_of_fmap in Hgd as ([[last pos'] g'] & Hgg & Hgd). cbn in Hgg. subst g'.
      destruct (proj1 (Hdue last g)) as (_ & Hgn & Hlast & _); [by exists pos'|]. rewrite Hlast, Hsame in Hgd by (by rewrite <- Hrd).
      rewrite F1 in Hj, Hg. eapply dispatched_first; [exact Hfd|exact Hgd|done|by rewrite <- ?fmap_take in *|exact Hg].
Qed.

(** ** The world *)

Definition running (w : World) : list N := (job_sequence <$> wd_jobs w) ++ (cp_sequence <$> od_completions (wd_fields w)).
Record world_ok (w : World) : Prop := {
  wo_fields : fields_ok (wd_fields w) (wd_log w) (wd_sent w) (wd_now w) (running w);
  wo_jobs : ∀ j, j ∈ wd_jobs w → ∃ t, (j, t) ∈ wd_log w;
  wo_answers : ∀ c, c ∈ od_completions (wd_fields w) → c ∈ wd_sent w ∧ ∃ t, (mkJob (cp_field c) (cp_sequence c), t) ∈ wd_log w;
}.

Lemma World_new_ok cat limits st now : OnDemandFields_new cat limits = Ok st → world_ok (World_new st now).
Proof.
  intros Hnew. unfold OnDemandFields_new in Hnew. destruct (validate_limits limits); [|done..]. injection Hnew as <-.
  split; cbn; [|by intros ? ?%elem_of_nil..]. split; cbn; [by intros ? ? ?| |done..|].
  - split; cbn; try done; [intros q; split; [by intros []|by intros ?%elem_of_nil]|constructor| |lia|lia].
    intros f q. split; [done|]. by intros (? & ? & _).
  - rewrite map_size_empty. cbn. lia.
Qed.

Lemma answered_field j c : answered j c → cp_field c = job_field j ∧ cp_sequence c = job_sequence j.
Proof. by destruct 1. Qed.

(** What stays while nothing is demanded: the limits, the log, a field that waits
    for its turn, and that a field was read since it was demanded. *)
Record undemanded (w w' : World) : Prop := {
  un_cat : od_catalogue (wd_fields w') = od_catalogue (wd_fields w);
  un_limits : od_limits (wd_fields w') = od_limits (wd_fields w);
  un_log : wd_log w' = wd_log w;
  un_now : (wd_now w ≤ wd_now w')%N;
  un_waiting : ∀ f, od_reading_of (wd_fields w) !! f = None →
    od_reading_of (wd_fields w') !! f = None ∧ slot_key (wd_fields w') f = slot_key (wd_fields w) f;
  un_history : ∀ f s, od_slots (wd_fields w) !! f = Some s → has_history s →
    ∃ s', od_slots (wd_fields w') !! f = Some s' ∧ has_history s';
}.
Lemma undemanded_refl w : undemanded w w.
Proof. split; try done; eauto. Qed.
Lemma undemanded_trans w1 w2 w3 : undemanded w1 w2 → undemanded w2 w3 → undemanded w1 w3.
Proof.
  intros [] [Hc Hli Hlo Hn Hw Hh]. split; [congruence..|lia| |].
  - intros f Hf. destruct (un_waiting0 f Hf) as [Hf' <-]. by apply Hw.
  - intros f s Hs Hhi. destruct (un_history0 f s Hs Hhi) as (s' & ? & ?). eauto.
Qed.

Lemma slots_undemanded st st' :
  (∀ f, match od_slots st !! f with
        | None => od_slots st' !! f = None
        | Some s => ∃ s', od_slots st' !! f = Some s' ∧ (od_reading_of st !! f = None → s' = s) ∧
            (is_Some (sl_pending s) ∨ is_Some (sl_reading s) → is_Some (sl_pending s') ∨ is_Some (sl_reading s'))
        end) →
  (∀ f, od_reading_of st !! f = None → slot_key st' f = slot_key st f) ∧
  (∀ f s, od_slots st !! f = Some s → has_history s → ∃ s', od_slots st' !! f = Some s' ∧ has_history s').
Proof.
  intros Hsl. split.
  - intros f Hf. specialize (Hsl f). unfold slot_key. destruct (od_slots st !! f) as [s|]; [|by rewrite Hsl].
    destruct Hsl as (s' & -> & Hs' & _). by rewrite Hs'.
  - intros f s Hs Hh. specialize (Hsl f). rewrite Hs in Hsl. destruct Hsl as (s' & ? & _ & Hp). exists s'. split; [done|]. by apply Hp.
Qed.

Lemma answer_perm l1 j l2 cs c : job_sequence j = cp_sequence c →
  (job_sequence <$> l1 ++ j :: l2) ++ (cp_sequence <$> cs) ≡ₚ (job_sequence <$> l1 ++ l2) ++ (cp_sequence <$> cs ++ [c]).
Proof.
  intros Hs. rewrite !fmap_app, fmap_cons, Hs. cbn. rewrite <- Permutation_middle, (app_assoc (_ ++ _)). cbn.
  by rewrite Permutation_cons_append.
Qed.
Lemma other_step_ok w w' : other_step w w' → world_ok w → (len (wd_log w) ≤ u64_max)%N → world_ok w' ∧ undemanded w w'.
Proof.
  intros Hstep Hw Hmax. destruct Hw as [Hf Hj Ha].
  destruct Hstep as [w now Hnow|w l1 j l2 c Hjobs Hc|w st b Hone|w]; unfold running in *; cbn [wd_fields wd_jobs wd_now wd_log wd_sent] in *.
  - split; [|by split; try done; eauto]. split; cbn; [|done..]. by eapply fields_ok_mono.
  - apply answered_field in Hc as [Hcf Hcs]. split; [|by split; try done; eauto].
    split; cbn [wd_fields wd_jobs wd_now wd_log wd_sent with_completions od_completions running].
    + apply with_completions_ok. eapply fields_ok_perm, fields_ok_mono; [|done|intros c' Hc'; apply elem_of_app; by left|exact Hf].
      unfold running. cbn [wd_fields wd_jobs od_completions with_completions]. rewrite Hjobs. apply answer_perm. by rewrite Hcs.
    + intros j' Hin. apply Hj. rewrite Hjobs. set_solver.
    + intros c' [Hin|Heq%list_elem_of_singleton]%elem_of_app; [|subst c'].
      * destruct (Ha c' Hin) as [? ?]. split; [set_solver|done].
      * split; [set_solver|]. rewrite Hcf, Hcs. destruct j; cbn. apply Hj. rewrite Hjobs. set_solver.
  - unfold collect_one in Hone. destruct (od_completions (wd_fields w)) as [|c cs] eqn:Hcs; [done|]. injection Hone as Hone.
    destruct (Ha c) as [Hsent [t Ht]]; [by left|].
    destruct (accept_ok (with_completions (wd_fields w) cs) (wd_log w) (wd_sent w) (wd_now w) (job_sequence <$> wd_jobs w)
      (cp_sequence <$> cs) c t st b Hmax) as (Hst & (Hcat & Hli & Hrd & Hsl) & Hcp & _); [by apply with_completions_ok|done..|].
    destruct (slots_undemanded _ _ Hsl) as [Hk Hh]. split; [|by split; auto].
    split; cbn [wd_fields wd_jobs wd_log wd_sent]; unfold running; cbn [wd_fields wd_jobs]; rewrite ?Hcp; [done..|].
    intros c' Hc'. apply Ha. by right.
  - destruct (expire_ok (wd_fields w) (wd_log w) (wd_sent w) (wd_now w) _ Hmax Hf) as (He & [(Hcat & Hli & _ & Hrd & Hcp) Hsl] & _).
    destruct (slots_undemanded _ _ Hsl) as [Hk Hh]. split.
    + split; cbn [wd_fields wd_jobs wd_log wd_sent]; unfold running; cbn [wd_fields wd_jobs]; rewrite ?Hcp; done.
    + split; cbn; auto. intros f. rewrite Hrd. auto.
Qed.

Lemma demanded_ok w wanted jobs w' : demanded w wanted jobs w' → world_ok w → (len (wd_log w') ≤ u64_max)%N →
  world_ok w' ∧ demand_did (wd_fields w) (wd_now w) wanted (wd_fields w') jobs ∧ wd_now w' = wd_now w ∧
  wd_log w' = wd_log w ++ ((λ j, (j, wd_now w)) <$> jobs).
Proof.
  intros (st & r & Hd & ->) [Hf Hj Ha] Hmax. cbn [wd_log] in Hmax. rewrite len_app in Hmax.
  destruct (demand_ok _ (wd_log w) (wd_sent w) _ (running w) _ _ _ _ Hd) as (Hst & Hdid & _);
    [unfold len in *; by rewrite length_fmap in Hmax|done|].
  split; [|done]. split; cbn [wd_fields wd_jobs wd_now wd_log wd_sent].
  - eapply fields_ok_perm; [|exact Hst]. unfold running. cbn [wd_fields wd_jobs]. rewrite (dd_completions _ _ _ _ _ Hdid), fmap_app, !app_assoc.
    apply Permutation_app_tail, Permutation_app_comm.
  - intros j [Hin|Hin]%elem_of_app; [destruct (Hj j Hin) as [t Ht]; exists t; apply elem_of_app; by left|].
    exists (wd_now w). apply elem_of_app. right. by apply (list_elem_of_fmap_2 (λ j, (j, wd_now w))).
  - rewrite (dd_completions _ _ _ _ _ Hdid). intros c Hc. destruct (Ha c Hc) as [? [t Ht]]. split; [done|]. exists t. apply elem_of_app. by left.
Qed.

Lemma world_step_log w w' : world_step w w' → (len (wd_log w) ≤ len (wd_log w'))%N.
Proof. intros [? ? ? ? (st & r & _ & ->)|? ? []]; cbn; rewrite ?len_app; lia. Qed.
Lemma world_step_ok w w' : world_step w w' → world_ok w → (len (wd_log w') ≤ u64_max)%N →
  world_ok w' ∧ od_catalogue (wd_fields w') = od_catalogue (wd_fields w) ∧ od_limits (wd_fields w') = od_limits (wd_fields w).
Proof.
  intros Hstep Hw Hmax. pose proof (world_step_log _ _ Hstep). destruct Hstep as [w wanted jobs w' Hd|w w' Ho].
  - destruct (demanded_ok _ _ _ _ Hd Hw Hmax) as (? & Hdid & _). split_and!; [done|apply Hdid..].
  - destruct (other_step_ok _ _ Ho Hw) as [? []]; [lia|done].
Qed.
Lemma world_run_ok w w' : rtc world_step w w' → world_ok w → (len (wd_log w') ≤ u64_max)%N →
  world_ok w' ∧ od_catalogue (wd_fields w') = od_catalogue (wd_fields w) ∧ od_limits (wd_fields w') = od_limits (wd_fields w).
Proof.
  intros Hrun Hw. revert w' Hrun. apply (rtc_ind_r (λ w', (len (wd_log w') ≤ u64_max)%N → _)); [done|].
  intros w1 w2 _ Hstep IH Hmax. pose proof (world_step_log _ _ Hstep).
  destruct IH as (Hw1 & Hc1 & Hl1); [lia|]. destruct (world_step_ok _ _ Hstep Hw1 Hmax) as (Hw2 & Hc2 & Hl2). split; [done|]. split; congruence.
Qed.
Lemma others_ok w w' : rtc other_step w w' → world_ok w → (len (wd_log w) ≤ u64_max)%N → world_ok w' ∧ undemanded w w'.
Proof.
  induction 1 as [w|w1 w2 w3 Hstep _ IH]; intros Hw Hmax; [split; [done|apply undemanded_refl]|].
  destruct (other_step_ok _ _ Hstep Hw Hmax) as [Hw2 Hun]. destruct (IH Hw2) as [Hw3 Hun']; [by rewrite (un_log _ _ Hun)|].
  split; [done|]. by eapply undemanded_trans.
Qed.

(** *** Turns

    A field that waits for its turn, after some demands of the same fields: those
    dispatched in the meantime were each dispatched once, and have been read later. *)
Record waits (w0 w : World) (f : FieldId) (order done : list FieldId) : Prop := {
  ws_ok : world_ok w;
  ws_cat : od_catalogue (wd_fields w) = od_catalogue (wd_fields w0);
  ws_limits : od_limits (wd_fields w) = od_limits (wd_fields w0);
  ws_now : (wd_now w0 ≤ wd_now w)%N;
  ws_log : ∀ i j t, wd_log w !! i = Some (j, t) → length (wd_log w0) ≤ i → (wd_now w0 ≤ t)%N;
  ws_grown : (len (wd_log w0) ≤ len (wd_log w))%N;
  ws_free : od_reading_of (wd_fields w) !! f = None;
  ws_key : slot_key (wd_fields w) f = slot_key (wd_fields w0) f;
  ws_nodup : NoDup done;
  ws_order : ∀ g, g ∈ done → g ∈ order ∧ g ≠ f;
  ws_history : ∀ g, g ∈ done → ∃ s, od_slots (wd_fields w) !! g = Some s ∧ has_history s;
  ws_later : ∀ g, g ∈ done → ∃ j t, (j, t) ∈ wd_log w ∧ job_field j = g ∧ (len (wd_log w0) < job_sequence j)%N;
}.

(** A field dispatched meanwhile was read later than one that waits. *)
Lemma done_is_later w0 w f order done g : world_ok w0 → waits w0 w f order done → g ∈ done →
  od_reading_of (wd_fields w) !! g = None → last_compare (slot_key (wd_fields w) g) (slot_key (wd_fields w0) f) = Gt.
Proof.
  intros Hw0 Hws Hg Hfree. pose proof (wo_fields _ (ws_ok _ _ _ _ _ Hws)) as [Hl Hr Hs _ _].
  destruct (ws_history _ _ _ _ _ Hws g Hg) as (s & Hslot & Hh). destruct (Hs _ _ Hslot) as [Hp _ Hread].
  assert (sl_pending s = None) as Hnone.
  { destruct (sl_pending s) as [p|] eqn:Hpend; [|done]. specialize (Hp _ eq_refl).
    assert (od_reading_of (wd_fields w) !! g = Some (pd_sequence p)); [|congruence]. apply (ro_reading _ _ _ Hr). eauto. }
  destruct Hh as [[p Hpend]|[r Hrd]]; [congruence|]. destruct (Hread _ Hrd) as [(t & Hj & Ht) Hn _ _].
  destruct (ws_later _ _ _ _ _ Hws g Hg) as (j & tj & Hjl & Hjf & Hseq).
  destruct (Hn _ _ Hjl Hjf) as [Hle|Hpe]; [|by rewrite Hnone in Hpe].
  assert (wd_now w0 ≤ t)%N as Hlate.
  { apply list_elem_of_lookup in Hj as [i Hi]. destruct (Hl _ _ _ Hi) as [Hsi _]. cbn in Hsi.
    eapply (ws_log _ _ _ _ _ Hws); [exact Hi|]. unfold len in *. lia. }
  unfold slot_key at 1. rewrite Hslot. cbn. unfold last_read. rewrite Hrd. cbn.
  unfold slot_key. destruct (od_slots (wd_fields w0) !! f) as [s0|] eqn:Hs0; [|done]. cbn. unfold last_read.
  destruct (sl_reading s0) as [r0|] eqn:Hr0; [|done]. cbn.
  destruct (so_reading _ _ _ _ _ _ _ (fo_slots _ _ _ _ _ (wo_fields _ Hw0) _ _ Hs0) _ Hr0) as [(t0 & Hj0 & Ht0) _ _ _].
  pose proof (log_bounds _ _ _ _ (fo_log _ _ _ _ _ (wo_fields _ Hw0)) Hj0) as [Hb0 _]. cbn in Hb0.
  assert (rd_observed_at r0 ≤ rd_observed_at r)%N as Hobs by lia. assert (rd_sequence r0 < rd_sequence r)%N as Hseq' by lia.
  destruct (N.compare_spec (rd_observed_at r) (rd_observed_at r0)) as [_|?|_]; cbn; [|lia|done]. by apply N.compare_gt_iff.
Qed.

(** One turn: the field is dispatched, or as many others as there is room for are. *)
Lemma turn w0 w1 w2 w3 wanted jobs f done : world_ok w0 →
  let order := wn_order (wanted_fields (wd_fields w0) wanted) in
  f ∈ order → is_fresh (od_limits (wd_fields w0)) (wd_now w0) (slot_key (wd_fields w0) f) = false →
  waits w0 w1 f order done → demanded w1 wanted jobs w2 → rtc other_step w2 w3 → (len (wd_log w3) ≤ u64_max)%N →
  f ∉ job_field <$> jobs →
  waits w0 w3 f order ((job_field <$> jobs) ++ done) ∧ (room (expire (wd_fields w1) (wd_now w1)) ≤ len jobs)%N.
Proof.
  intros Hw0 order Hf Hfr Hws Hd Ho Hmax Hnf. pose proof Hws as [Hok Hc Hl Hnow Hlog Hgrown Hfree Hkey Hnd Hord Hhis Hlater].
  assert (len (wd_log w2) ≤ u64_max)%N as Hmax2.
  { clear -Ho Hmax. induction Ho as [|w2 w2' w3 Hs _ IH]; [done|]. pose proof (world_step_log _ _ (step_other _ _ Hs)). lia. }
  destruct (demanded_ok _ _ _ _ Hd Hok Hmax2) as (Hok2 & Hdid & Hnow2 & Hlog2).
  destruct (others_ok _ _ Ho Hok2 Hmax2) as [Hok3 [Uc Ul Ulog Unow Uw Uh]].
  pose proof (wanted_same _ (wd_fields w1) wanted Hc Hl) as Hwant. fold order in Hwant.
  destruct Hdid as [Dc Dl _ Dnd Dj _ Dh Dp Dw Dt]. rewrite Hwant in Dj, Dh, Dw, Dt.
  destruct (Dw f Hf Hnf Hfree) as [Hfree2 Hkey2].
  destruct (Dt f Hf Hnf Hfree) as [Hroom Hturn].
  { rewrite Hkey, Hl. unfold is_fresh in *. destruct (slot_key (wd_fields w0) f) as [[t q]|]; [|done].
    apply N.ltb_ge in Hfr. apply N.ltb_ge. unfold age_at in *. lia. }
  split; [|done]. split; [done|congruence..|lia| |rewrite Ulog, Hlog2, len_app; lia| | | | | |].
  - intros i j t Hi Hge. rewrite Ulog, Hlog2 in Hi. apply lookup_app_Some in Hi as [Hi|[_ Hi]]; [by eapply Hlog|].
    apply list_elem_of_lookup_2, list_elem_of_fmap in Hi as (j' & [= -> ->] & _). done.
  - by apply Uw.
  - destruct (Uw f Hfree2) as [_ ->]. by rewrite Hkey2.
  - apply NoDup_app. split_and!; [done| |done]. intros g Hg Hgd. destruct (Dj g Hg) as [_ Hgf].
    apply (Hturn g Hg). rewrite Hkey. by eapply done_is_later.
  - intros g [Hg|Hg]%elem_of_app; [|auto]. split; [by apply Dj|]. intros ->. done.
  - intros g [Hg|Hg]%elem_of_app.
    + destruct (Dp g Hg) as (s & Hs & Hh). by eapply Uh.
    + destruct (Hhis g Hg) as (s & Hs & Hh). destruct (Dh g s) as (s' & Hs' & Hh'); [by apply Hord|done|done|]. by eapply Uh.
  - intros g [Hg|Hg]%elem_of_app; rewrite Ulog, Hlog2.
    + apply list_elem_of_fmap in Hg as (j & -> & Hj). exists j, (wd_now w1).
      apply (list_elem_of_fmap_2 (λ j, (j, wd_now w1))) in Hj. split_and!; [apply elem_of_app; by right|done|].
      apply list_elem_of_lookup in Hj as [i Hi].
      destruct (fo_log _ _ _ _ _ (wo_fields _ Hok2) (length (wd_log w1) + i) j (wd_now w1)) as [-> _].
      * rewrite Hlog2, lookup_app_r by lia. by replace (length (wd_log w1) + i - length (wd_log w1)) with i by lia.
      * unfold len in *. lia.
    + destruct (Hlater g Hg) as (j & t & Hj & ? & ?). exists j, t. split; [apply elem_of_app; by left|done].
Qed.

Lemma turns called returned wanted jobs n :
  (∀ i, i < n → demanded (called i) wanted (jobs i) (returned i) ∧ rtc other_step (returned i) (called (S i))) →
  ∀ i, i ≤ n → (len (wd_log (called i)) ≤ len (wd_log (called n)))%N.
Proof.
  intros Hcalls i Hi. induction Hi as [|n Hi IH]; [done|].
  transitivity (len (wd_log (called n))); [apply IH; intros j Hj; apply Hcalls; lia|].
  destruct (Hcalls n) as [Hd Ho]; [lia|]. pose proof (world_step_log _ _ (step_demand _ _ _ _ Hd)).
  assert (len (wd_log (returned n)) ≤ len (wd_log (called (S n))))%N; [|lia].
  clear -Ho. induction Ho as [|w1 w2 w3 Hs _ IH]; [done|]. pose proof (world_step_log _ _ (step_other _ _ Hs)). lia.
Qed.

(** A field that is not dispatched by any of [n] calls has been passed by [k * n]
    others. *)
Lemma all_wait called returned wanted jobs f k n : world_ok (called 0) →
  f ∈ wn_order (wanted_fields (wd_fields (called 0)) wanted) →
  is_fresh (od_limits (wd_fields (called 0))) (wd_now (called 0)) (slot_key (wd_fields (called 0)) f) = false →
  od_reading_of (wd_fields (called 0)) !! f = None →
  (∀ i, i < n → demanded (called i) wanted (jobs i) (returned i) ∧ rtc other_step (returned i) (called (S i))) →
  (∀ i, i < n → (N.of_nat k ≤ room (expire (wd_fields (called i)) (wd_now (called i))))%N) →
  (len (wd_log (called n)) ≤ u64_max)%N → (∀ i, i < n → f ∉ job_field <$> jobs i) →
  ∃ done, waits (called 0) (called n) f (wn_order (wanted_fields (wd_fields (called 0)) wanted)) done ∧ k * n ≤ length done.
Proof.
  intros Hw Hf Hfr Hfree Hcalls Hroom Hmax Hnever. pose proof (turns _ _ _ _ _ Hcalls) as Hlog.
  cut (∀ i, i ≤ n → ∃ done, waits (called 0) (called i) f (wn_order (wanted_fields (wd_fields (called 0)) wanted)) done ∧ k * i ≤ length done);
    [intros H; by apply H|].
  induction i as [|i IH]; intros Hi.
  - exists []. split; [|cbn; lia]. split; try done; try (by intros ? ?%elem_of_nil); [|constructor].
    intros i j t Hj. apply lookup_lt_Some in Hj. lia.
  - destruct IH as (done & Hws & Hlen); [lia|]. destruct (Hcalls i) as [Hd Ho]; [lia|].
    destruct (turn (called 0) (called i) (returned i) (called (S i)) wanted (jobs i) f done) as [Hws' Hk]; try done.
    { pose proof (Hlog (S i) Hi). lia. } { apply Hnever. lia. }
    exists ((job_field <$> jobs i) ++ done). split; [done|]. rewrite length_app, length_fmap.
    pose proof (Hroom i ltac:(lia)). unfold len in *. nia.
Qed.

(** *** Runs from the start *)

Lemma collector_runs catalogue limits st0 t0 w : OnDemandFields_new catalogue limits = Ok st0 →
  rtc world_step (World_new st0 t0) w → (len (wd_log w) ≤ u64_max)%N →
  world_ok w ∧ od_catalogue (wd_fields w) = catalogue ∧ od_limits (wd_fields w) = limits.
Proof.
  intros Hnew Hrun Hmax. destruct (world_run_ok _ _ Hrun (World_new_ok _ _ _ _ Hnew) Hmax) as (Hw & -> & ->). split; [done|].
  unfold OnDemandFields_new in Hnew. destruct (validate_limits limits); [|done..]. by injection Hnew as <-.
Qed.

(** The reads that run or wait to be collected. *)
Lemma running_count w : world_ok w →
  (len (wd_jobs w) + len (od_completions (wd_fields w)) = od_in_flight (wd_fields w) + od_abandoned (wd_fields w))%N.
Proof.
  intros Hw. pose proof (fo_reads _ _ _ _ _ (wo_fields _ Hw)) as Hr.
  rewrite (ro_in_flight _ _ _ Hr), (ro_abandoned _ _ _ Hr), reads_split.
  assert (size (od_outstanding (wd_fields w)) = length (running w)) as ->.
  { rewrite <- size_dom, <- (size_list_to_set (C := gset N) (running w)) by apply Hr. apply set_size_proper.
    intros q. rewrite elem_of_dom, elem_of_list_to_set. apply Hr. }
  unfold running, len. rewrite length_app, !length_fmap. lia.
Qed.
Definition running_reads (w : World) : list (N * FieldId) :=
  ((λ j, (job_sequence j, job_field j)) <$> wd_jobs w) ++ ((λ c, (cp_sequence c, cp_field c)) <$> od_completions (wd_fields w)).
Lemma running_reads_out w q f : world_ok w → (q, f) ∈ running_reads w →
  ∃ o, od_outstanding (wd_fields w) !! q = Some o ∧ ou_field o = f.
Proof.
  intros Hw Hin. pose proof (wo_fields _ Hw) as [Hl Hr _ _ _].
  assert ((∃ t, (mkJob f q, t) ∈ wd_log w) ∧ q ∈ running w) as [[t Ht] Hq].
  { apply elem_of_app in Hin as [(j & [= -> ->] & Hj)%list_elem_of_fmap|(c & [= -> ->] & Hc)%list_elem_of_fmap].
    - split; [destruct j; by apply (wo_jobs _ Hw)|]. apply elem_of_app. left. by apply list_elem_of_fmap_2.
    - split; [by apply (wo_answers _ Hw)|]. apply elem_of_app. right. by apply list_elem_of_fmap_2. }
  apply (ro_run _ _ _ Hr) in Hq as [o Ho]. exists o. split; [done|].
  destruct (log_seq_inj _ _ _ _ _ _ Hl (ro_out _ _ _ Hr _ _ Ho) Ht eq_refl) as [Heq _]. by injection Heq.
Qed.
Lemma running_fields w : world_ok w → NoDup ((job_field <$> wd_jobs w) ++ (cp_field <$> od_completions (wd_fields w))).
Proof.
  intros Hw. pose proof (fo_reads _ _ _ _ _ (wo_fields _ Hw)) as Hr. pose proof (ro_nodup _ _ _ Hr) as Hnd.
  assert (running w = (running_reads w).*1) as Hrun.
  { unfold running, running_reads. by rewrite fmap_app, <- !list_fmap_compose. }
  assert ((job_field <$> wd_jobs w) ++ (cp_field <$> od_completions (wd_fields w)) = (running_reads w).*2) as ->.
  { unfold running_reads. by rewrite fmap_app, <- !list_fmap_compose. }
  rewrite Hrun in Hnd. pose proof (running_reads_out w) as Hout. revert Hnd Hout. generalize (running_reads w). clear -Hr Hw.
  induction l as [|[q f] l IH]; intros Hnd Hout; [constructor|]. rewrite !fmap_cons in *. apply NoDup_cons in Hnd as [Hq Hnd].
  constructor; [|apply IH; [done|intros q' f' _ Hin; apply Hout; [done|by right]]].
  cbn. intros ([q' f'] & -> & Hin)%list_elem_of_fmap. cbn in *. destruct (Hout q f') as (o & Ho & Hof); [done|by left|].
  destruct (Hout q' f') as (o' & Ho' & Hof'); [done|by right|].
  rewrite (one_read _ _ _ _ _ _ _ Hr Ho Ho') in Hq by congruence. destruct Hq. by apply (list_elem_of_fmap_2 fst) in Hin.
Qed.
