(* ===== verification/SrtopTheorems.v ===== *)
(** * Theorems: srtop's rows

    What a cell shows, in which order the rows are published, what the column
    buttons do; the catalogue of metrics; what the collector of fields on demand
    reads and shows; and what a scan of the process file system accounts for. *)

From S2P Require Import Prelude.
From S2P Require Import Values.
From S2P Require Import Models.
From S2P Require Import SrtopData.
From S2P Require Import SrtopMetric.
From S2P Require Import SrtopCatalogue.
From S2P Require Import SrtopText.
From S2P Require Import SrtopSort.
From S2P Require Import SrtopProcfs.
From S2P Require Import SrtopProcfsFacts.
From S2P Require Import SrtopOnDemand.
From S2P Require Import SrtopOnDemandFacts.

Definition demo_key (pid ticks : N) : ProcessKey :=
  mkKey "fake" (Known "host") (Known "boot") (Known 1%N) (Known pid) (LinuxBootTicks ticks).
Definition demo_record (pid ticks : N) (name : string) (resident : Observed N) : ProcessRecord :=
  mkRecord (demo_key pid ticks) (mkDisplayName name None) resident WarmingUp.
Definition demo_row (id : N) (r : ProcessRecord) : Row :=
  mkRow (pr_key r) (mkItemId id) ((λ f, cell f (pr_key r) r) <$> PROCESS_LIST)
    (VList ((λ f, cell f (pr_key r) r) <$> PROCESS_LIST)) (of_record (pr_key r) r) (pr_display_name r).
Definition demo_rows : list Row :=
  [demo_row 1 (demo_record 7 1 "init" (Known 9%N)); demo_row 2 (demo_record 8 2 "sh" (Missing ReasonDenied));
   demo_row 3 (demo_record 9 3 "cat" (Known 2048%N))].
Definition by_resident : SortOrder := resolve None FieldResident.

Lemma demo_rows_shaped : Forall row_shaped demo_rows.
Proof. repeat constructor; intros f; apply of_record_shaped. Qed.

(** C39: the published order is one order: sorting by a column gives an arrangement
    of the same rows that ascends in that column's order, with every row whose value
    is missing after every row that has one, whichever the direction; rows that
    compare equal stay in the order they came in, and those are rows with the same
    value whose identities differ at most in why something is missing.  Where no two
    rows are equal in that sense the result does not depend on the order they came
    in. *)
Theorem sorting_is_total_and_stable (o : SortOrder) (rows : list Row) :
  Forall row_shaped rows →
  let sorted := sort_by (compare o) rows in
  sorted ≡ₚ rows ∧ StronglySorted (cmp_le (cmp := compare o)) sorted ∧
  (∀ l1 r1 l2 r2 l3, sorted = l1 ++ r1 :: l2 ++ r2 :: l3 → sort_value (row_sort r1) (so_field o) = SvMissing →
     sort_value (row_sort r2) (so_field o) = SvMissing) ∧
  (∀ r, row_shaped r → filter (λ r', compare o r r' = Eq) sorted = filter (λ r', compare o r r' = Eq) rows) ∧
  (∀ r r', row_shaped r → row_shaped r' → compare o r r' = Eq →
     sort_value (row_sort r) (so_field o) = sort_value (row_sort r') (so_field o) ∧ same_key (row_key r) (row_key r')) ∧
  (∀ rows', rows ≡ₚ rows' → (∀ r r', r ∈ rows → r' ∈ rows → compare o r r' = Eq → r = r') →
     sort_by (compare o) rows' = sorted).
Proof.
  intros Hsh sorted. pose proof (sort_by_ascending (ordering_compare o) rows Hsh) as Hasc. split_and!.
  - apply sort_by_perm.
  - exact Hasc.
  - intros l1 r1 l2 r2 l3 Heq. eapply (missing_last o l1 r1 l2 r2 l3). by rewrite <- Heq.
  - intros r Hr. by apply (sort_by_stable (ordering_compare o)).
  - intros r r' Hr Hr'. rewrite compare_lexicographic, then_with_eq, process_key_order_eq. intros [Hv Hk].
    split; [|done]. specialize (Hr (so_field o)). specialize (Hr' (so_field o)).
    destruct (sort_value (row_sort r) (so_field o)), (sort_value (row_sort r') (so_field o)), (so_direction o);
      cbn in Hv, Hr, Hr'; try done; rewrite ?CompOpp_eq_iff, ?N.compare_eq_iff, ?string_compare_eq in Hv; try congruence;
      first [by apply N.compare_eq_iff in Hv as -> | by apply string_compare_eq in Hv as ->
            | destruct (N.compare _ _) eqn:Hc; try done; by apply N.compare_eq_iff in Hc as ->
            | destruct (String.compare _ _) eqn:Hc; try done; by apply string_compare_eq in Hc as ->].
  - intros rows' Hperm Hinj. symmetry. by apply (sort_by_unique (ordering_compare o)).
Qed.

Lemma sorting_is_total_and_stable_witness :
  sort_by (compare by_resident) demo_rows ≡ₚ demo_rows ∧
  row_item_id <$> sort_by (compare by_resident) demo_rows = [mkItemId 3; mkItemId 1; mkItemId 2].
Proof.
  split; [apply (sorting_is_total_and_stable by_resident demo_rows demo_rows_shaped)|vm_compute; reflexivity].
Defined.

(** A cell never overstates and always fits: a byte count is shown in the
    largest unit in which it has a whole part (or in EiB), as the whole part and
    the tenths, truncated; a CPU share is the truncated tenths of a percent of one
    CPU over a measured interval; what could not be measured is a word; and no cell
    of a byte count of 64 bits or of a CPU usage is longer than eleven bytes. *)
Theorem cells_truncate_and_fit (bytes : Observed N) (usage : CpuUsage) :
  (∀ n, bytes = Known n → (n ≤ u64_max)%N) →
  (∀ n, bytes = Known n → ∃ exponent whole tenths, iec_parts n = (exponent, whole, tenths) ∧
     iec_value n exponent whole tenths) ∧
  (∀ i t, usage = Measured i → cpu_tenths_of_percent i = Some t →
     let cpu := (ci_ticks_per_second i * ci_elapsed i)%N in
     (t * cpu ≤ ci_ticks i * 10 ^ 12 < (t + 1) * cpu)%N ∧ (t ≤ 65536000)%N) ∧
  String.length (bytes_cell bytes) ≤ MAX_CELL_BYTES ∧ String.length (cpu_cell usage) ≤ MAX_CELL_BYTES.
Proof.
  intros Hn. split_and!.
  - intros n _. destruct (iec_parts n) as [[e w] t] eqn:Hp. exists e, w, t. split; [done|by apply iec_parts_spec].
  - intros i t _ (? & ? & ? & ?)%cpu_tenths_spec. done.
  - by apply bytes_cell_width.
  - apply cpu_cell_width.
Qed.

Lemma cells_truncate_and_fit_witness :
  bytes_cell (Known 1048575%N) = "1023.9 KiB" ∧ String.length (bytes_cell (Known 1048575%N)) ≤ MAX_CELL_BYTES.
Proof.
  split; [vm_compute; reflexivity|].
  apply (cells_truncate_and_fit (Known 1048575%N) WarmingUp). intros n [= <-]. vm_compute. discriminate.
Defined.

(** The dates of sample times follow the Gregorian calendar: the date shown for
    a time is the one that counting the days one by one from 1970-01-01 arrives at,
    month by month and with its leap years, for every representable time. *)
Theorem dates_follow_the_calendar (days : N) : civil_date days = N.iter days next_day (1970, 1, 1)%N.
Proof. apply civil_date_spec. Qed.

(** The column buttons do what they say: on every layout (columns, at least
    one, none twice) each of them gives a layout again without failing, and it is
    enabled exactly when a click changes the layout; a requested list of columns is
    accepted exactly when it is a layout. *)
Theorem column_buttons_change_layouts (a : ColumnAction) (l : ColumnLayout) :
  layout_ok l →
  (∃ l', column_action_apply a l = Some l' ∧ layout_ok l' ∧ (column_action_enabled a l = true ↔ l' ≠ l)) ∧
  ∀ fields, ColumnLayout_new fields = Ok l ↔ l = fields ∧ layout_ok fields.
Proof. intros Hl. split; [by apply column_action_spec|]. intros fields. apply ColumnLayout_new_Ok. Qed.

Lemma column_buttons_change_layouts_witness :
  ∃ l', column_action_apply (Earlier FieldCpu) layout_default = Some l' ∧ layout_ok l' ∧ l' ≠ layout_default.
Proof.
  destruct (column_buttons_change_layouts (Earlier FieldCpu) layout_default) as [(l' & Heq & Hok & Hen) _].
  - split; [discriminate|]. by apply (bool_decide_unpack _).
  - exists l'. split; [exact Heq|]. split; [exact Hok|]. apply Hen. reflexivity.
Defined.

(** ** The metric catalogue *)

Definition pss_spec : MetricSpec :=
  mkSpec (mkDefinition "process.pss" "PSS" "bytes" "smaps_rollup" "proportional") ScopeOfProcess UBytes RawUnsignedInteger
    ProcPidStatm AggregateSum OnDemandBytes (mkDefaultSort Numeric Descending) SameUserOrPtrace ProcessContent Expensive [TierOnDemand].
Definition pss_catalogue : Catalogue := match Catalogue_new [pss_spec] with Ok c => c | _ => mkCatalogue [] ∅ end.

(** C40: a catalogue is well formed, and every well-formed catalogue is accepted: a
    list of entries becomes a catalogue exactly if there are at most 512 of them, no
    two have the same key, and each is valid: its key is well formed, its raw type,
    formatter, aggregation, order and unit text fit its unit, and it names refresh
    tiers without repetition that the cost policy allows, so that nothing expensive
    and nothing a process owns is ever collected with every sample.  Looking up a
    key then gives the entry with that key. *)
Theorem catalogues_are_valid (specs : list MetricSpec) :
  (is_ok (Catalogue_new specs) = true ↔
     (len specs ≤ MAX_ENTRIES)%N ∧ Forall spec_valid specs ∧ NoDup (spec_key <$> specs)) ∧
  ∀ c, Catalogue_new specs = Ok c →
    ∀ key spec, catalogue_get c key = Some spec ↔ spec ∈ specs ∧ spec_key spec = key.
Proof.
  destruct (add_specs specs [] (mkCatalogue [] ∅)) as [Hok Hwf]; try done; [by constructor|].
  split; [exact Hok|]. intros c Hc key spec. assert (is_ok (Catalogue_new specs) = true) as (_ & _ & Hnd)%Hok by (unfold Catalogue_new in *; by rewrite Hc).
  specialize (Hwf c Hc). cbn [app] in *. by apply catalogue_get_Some.
Qed.

Lemma catalogues_are_valid_witness : catalogue_get pss_catalogue "process.pss" = Some pss_spec ∧ EverySample ∉ sp_tiers pss_spec.
Proof.
  destruct (catalogues_are_valid [pss_spec]) as [Hok Hget]. destruct (proj1 Hok eq_refl) as (_ & Hval & _). split.
  - apply (Hget pss_catalogue eq_refl). split; [by left|reflexivity].
  - apply Forall_cons in Hval as [Hval _]. by apply (sv_expensive _ Hval).
Defined.

(** ** Fields collected on demand *)

(** A field of two processes, collected on demand, one read at a time. *)
Definition one_at_a_time : OnDemandLimits := mkOnDemandLimits 8 1 10 0 30 2.
Definition pss_fields : OnDemandFields := mkFields pss_catalogue one_at_a_time ∅ 0 ∅ ∅ 0 0 [].
Definition pss_of (pid : N) : FieldId := (mkKey "s" (Missing ReasonUnavailable) (Missing ReasonUnavailable)
  (Missing ReasonUnavailable) (Known pid) (LinuxBootTicks 1), "process.pss").

(** A world after a demand, after the answer of its first job, and after the answer
    is collected. *)
Definition after_demand (w : World) (wanted : list FieldId) : World * list Job :=
  let '(st, _, jobs) := demand (wd_fields w) (wd_now w) wanted in
  (mkWorld st (wd_jobs w ++ jobs) (wd_now w) (wd_log w ++ ((λ j, (j, wd_now w)) <$> jobs)) (wd_sent w), jobs).
Definition after_answer (w : World) (started finished : N) (r : FieldResult) : World :=
  match wd_jobs w with
  | j :: js =>
      mkWorld (with_completions (wd_fields w) (od_completions (wd_fields w) ++ [run_job j started finished r])) js (wd_now w)
        (wd_log w) (wd_sent w ++ [run_job j started finished r])
  | [] => w
  end.
Definition after_collect (w : World) : World :=
  match collect_one (wd_fields w) (wd_now w) with
  | Some (st, _) => mkWorld st (wd_jobs w) (wd_now w) (wd_log w) (wd_sent w)
  | None => w
  end.
Definition later (w : World) (now : N) : World := mkWorld (wd_fields w) (wd_jobs w) (wd_now w + now) (wd_log w) (wd_sent w).

Lemma after_demand_step w wanted : demanded w wanted (after_demand w wanted).2 (after_demand w wanted).1.
Proof. unfold after_demand, demanded. destruct (demand _ _ _) as [[st r] jobs]. by exists st, r. Qed.
Lemma after_answer_step w started finished r : rtc other_step w (after_answer w started finished r).
Proof.
  unfold after_answer. destruct (wd_jobs w) as [|j js] eqn:Hj; [done|]. apply rtc_once, (step_answer w [] j js); [done|constructor].
Qed.
Lemma after_collect_step w : rtc other_step w (after_collect w).
Proof. unfold after_collect. destruct (collect_one _ _) as [[st b]|] eqn:Hc; [|done]. by eapply rtc_once, step_collect. Qed.
Lemma later_step w now : rtc other_step w (later w now).
Proof. apply rtc_once, step_tick. lia. Qed.

(** Turn [i] of two fields demanded together. *)
Definition both : list FieldId := [pss_of 7; pss_of 8].
Definition served (w : World) : World := after_collect (after_answer (later w 5) (wd_now w + 1) (wd_now w + 2) (inl (UnsignedInteger 9))).
Definition called (i : nat) : World := Nat.iter i (λ w, served (after_demand w both).1) (World_new pss_fields 0).

Lemma pss_fields_new : OnDemandFields_new pss_catalogue one_at_a_time = Ok pss_fields.
Proof. reflexivity. Qed.
Lemma served_steps w : rtc other_step w (served w).
Proof. etrans; [apply later_step|]. etrans; [apply after_answer_step|apply after_collect_step]. Qed.
Lemma called_runs i : rtc world_step (World_new pss_fields 0) (called i).
Proof.
  induction i as [|i IH]; [done|]. etrans; [exact IH|]. cbn [called Nat.iter].
  change (rtc world_step (called i) (served (after_demand (called i) both).1)).
  eapply rtc_l; [apply (step_demand _ both (after_demand (called i) both).2), after_demand_step|].
  apply (rtc_congruence (λ w, w) (R := other_step)); [intros; by apply step_other|apply served_steps].
Qed.

(** C33: reads on demand are bounded: whatever is demanded, however long reads take,
    whether they answer, panic or hang, and in whichever order their answers are
    collected, no more fields are tracked and no more reads are in flight than the
    limits allow, and only fields the catalogue allows on demand; the reads still
    running or waiting to be collected are exactly those the collector counts, in
    flight or given up, so they never exceed [max_abandoned]; and no two of them are
    of the same field. *)
Theorem on_demand_reads_are_bounded (catalogue : Catalogue) (limits : OnDemandLimits) (st0 : OnDemandFields) (t0 : N) (w : World) :
  OnDemandFields_new catalogue limits = Ok st0 → rtc world_step (World_new st0 t0) w → (len (wd_log w) ≤ u64_max)%N →
  let st := wd_fields w in
  (map_len (od_slots st) ≤ max_fields limits)%N ∧
  (∀ f, is_Some (od_slots st !! f) → ∃ spec, catalogue_get catalogue f.2 = Some spec ∧ supports spec TierOnDemand = true) ∧
  (od_in_flight st ≤ max_in_flight limits)%N ∧ (od_in_flight st + od_abandoned st ≤ max_abandoned limits)%N ∧
  (len (wd_jobs w) + len (od_completions st) = od_in_flight st + od_abandoned st)%N ∧
  NoDup ((job_field <$> wd_jobs w) ++ (cp_field <$> od_completions st)).
Proof.
  intros Hnew Hrun Hmax st. destruct (collector_runs catalogue limits st0 t0 w Hnew Hrun Hmax) as (Hw & Hc & Hl).
  pose proof (wo_fields _ Hw) as [_ Hr _ Ht Hz]. fold st in Hr, Ht, Hz, Hc, Hl. rewrite Hl in Hz.
  split; [exact Hz|]. split; [intros f [s Hs]; rewrite <- Hc; by eapply Ht|].
  rewrite <- Hl. split; [apply Hr|]. split; [apply Hr|]. split; [by apply running_count|by apply running_fields].
Qed.

Lemma on_demand_reads_are_bounded_witness :
  let w := (after_demand (called 1) both).1 in od_in_flight (wd_fields w) = 1%N ∧ len (wd_jobs w) = 1%N ∧
  (od_in_flight (wd_fields w) ≤ 1)%N.
Proof.
  destruct (on_demand_reads_are_bounded pss_catalogue one_at_a_time pss_fields 0 (after_demand (called 1) both).1)
    as (_ & _ & Hin & _); [apply pss_fields_new| |vm_compute; discriminate|].
  - etrans; [apply (called_runs 1)|]. apply rtc_once, (step_demand _ both (after_demand (called 1) both).2), after_demand_step.
  - split; [vm_compute; reflexivity|]. split; [vm_compute; reflexivity|]. exact Hin.
Defined.

(** C17: a value shown is a value read: a field that shows a value, current or stale,
    shows what a read of it answered, of the type the catalogue gives the field, at
    the time that read started, which is after it was asked for and before it
    finished and was collected; it is called current exactly while it is no older
    than [max_age]; and no later read of the field has been collected or given up,
    so a newer result is never hidden behind an older one. *)
Theorem on_demand_values_are_honest (catalogue : Catalogue) (limits : OnDemandLimits) (st0 : OnDemandFields) (t0 : N) (w : World)
    (target : ProcessKey) (key : MetricKey) (s : FieldState) (v : RawValue) (t : N) :
  OnDemandFields_new catalogue limits = Ok st0 → rtc world_step (World_new st0 t0) w → (len (wd_log w) ≤ u64_max)%N →
  state (wd_fields w) target key (wd_now w) = Some s → s = FsPresent v t ∨ s = FsStale v t →
  ∃ c issued, c ∈ wd_sent w ∧ cp_field c = (target, key) ∧ cp_result c = inl v ∧ cp_started c = t ∧
    (mkJob (target, key) (cp_sequence c), issued) ∈ wd_log w ∧ (issued ≤ t ≤ cp_finished c)%N ∧ (cp_finished c ≤ wd_now w)%N ∧
    sp_raw <$> catalogue_get catalogue key = Some (raw_type v) ∧
    (s = FsPresent v t ↔ (age_at t (wd_now w) ≤ max_age limits)%N) ∧
    ∀ j t', (j, t') ∈ wd_log w → job_field j = (target, key) → (cp_sequence c < job_sequence j)%N →
      ∃ o, od_outstanding (wd_fields w) !! job_sequence j = Some o ∧ ou_abandoned o = false.
Proof.
  intros Hnew Hrun Hmax Hstate Hs. destruct (collector_runs catalogue limits st0 t0 w Hnew Hrun Hmax) as (Hw & Hc & Hl).
  apply bind_Some in Hstate as (slot & Hslot & Hstate). pose proof (fo_slots _ _ _ _ _ (wo_fields _ Hw) _ _ Hslot) as [Hp _ Hrd].
  rewrite Hc, Hl in *. destruct (sl_reading slot) as [r|] eqn:Hr; [|destruct (_ || _); destruct Hs; congruence].
  assert (rd_result r = inl v ∧ rd_observed_at r = t ∧ (s = FsPresent v t ↔ (age_at t (wd_now w) ≤ max_age limits)%N)) as (Hres & Ht & Hage).
  { cbv zeta in Hstate. destruct (rd_result r) as [v'|[]]; [|destruct Hs; congruence..]. destruct (max_age limits <? _)%N eqn:Hold.
    - apply N.ltb_lt in Hold. injection Hstate as <-. destruct Hs as [|[= <- <-]]; [done|]. split_and!; [done..|split; [done|intros; exfalso; lia]].
    - apply N.ltb_ge in Hold. injection Hstate as <-. destruct Hs as [[= <- <-]|]; [|done]. split_and!; done. }
  destruct (Hrd r eq_refl) as [(issued & Hj & Hi) Hn _ Hv]. destruct (Hv v Hres) as (c & Hsent & Hf & Hq & Hcr & Hst & Hfin & Hraw).
  exists c, issued. rewrite Hst, Ht in Hfin. rewrite Ht in Hi. rewrite Hq.
  split_and!; try done; try congruence; try lia; try apply Hage. intros j t' Hjl Hjf Hlt. destruct (Hn j t' Hjl Hjf) as [Hle|Hpe]; [lia|]. apply fmap_Some in Hpe as (p & Hpe & ->).
  eexists. split; [by apply Hp|done].
Qed.

Lemma on_demand_values_are_honest_witness :
  state (wd_fields (called 1)) (pss_of 7).1 "process.pss" (wd_now (called 1)) = Some (FsPresent (UnsignedInteger 9) 1) ∧
  ∃ c, c ∈ wd_sent (called 1) ∧ cp_result c = inl (UnsignedInteger 9) ∧ cp_started c = 1%N.
Proof.
  assert (state (wd_fields (called 1)) (pss_of 7).1 "process.pss" (wd_now (called 1)) = Some (FsPresent (UnsignedInteger 9) 1)) as Hs
    by (vm_compute; reflexivity).
  split; [exact Hs|].
  destruct (on_demand_values_are_honest pss_catalogue one_at_a_time pss_fields 0 (called 1) (pss_of 7).1 "process.pss" _
    (UnsignedInteger 9) 1 pss_fields_new (called_runs 1) ltac:(vm_compute; discriminate) Hs (or_introl eq_refl))
    as (c & issued & Hc & _ & Hr & Ht & _).
  exists c. split; [exact Hc|]. split; [exact Hr|exact Ht].
Defined.

(** C16: every demanded field is read: if the same fields are demanded [n] times,
    whatever happens between the calls, and each time at least [k] more reads may be
    dispatched, then a field among them that is not being read, and has no value
    recent enough to keep, is read by one of the calls if [k * n] is at least the
    number of fields wanted.  Never-read fields and old readings go first, so the
    order of the demand starves none. *)
Theorem every_demanded_field_is_read (catalogue : Catalogue) (limits : OnDemandLimits) (st0 : OnDemandFields) (t0 : N)
    (called returned : nat → World) (wanted : list FieldId) (jobs : nat → list Job) (f : FieldId) (k n : nat) :
  OnDemandFields_new catalogue limits = Ok st0 → rtc world_step (World_new st0 t0) (called 0) →
  (∀ i, i < n → demanded (called i) wanted (jobs i) (returned i) ∧ rtc other_step (returned i) (called (S i))) →
  (∀ i, i < n → (N.of_nat k ≤ room (expire (wd_fields (called i)) (wd_now (called i))))%N) →
  (len (wd_log (called n)) ≤ u64_max)%N →
  f ∈ wn_order (wanted_fields (wd_fields (called 0)) wanted) → od_reading_of (wd_fields (called 0)) !! f = None →
  is_fresh limits (wd_now (called 0)) (slot_key (wd_fields (called 0)) f) = false →
  length wanted ≤ k * n →
  ∃ i j, i < n ∧ j ∈ jobs i ∧ job_field j = f.
Proof.
  intros Hnew Hrun Hcalls Hroom Hmax Hf Hfree Hfr Hn.
  pose proof (turns called returned wanted jobs n Hcalls) as Hlog.
  destruct (collector_runs catalogue limits st0 t0 (called 0) Hnew Hrun) as (Hw & Hc & Hl); [pose proof (Hlog 0 ltac:(lia)); lia|].
  destruct (decide (Exists (λ i, f ∈ job_field <$> jobs i) (seq 0 n))) as [Hread|Hnever].
  { apply Exists_exists in Hread as (i & Hi%elem_of_seq & (j & Hj & Hin)%list_elem_of_fmap). exists i, j. split_and!; [lia|done|done]. }
  destruct (all_wait called returned wanted jobs f k n Hw Hf) as (passed & Hws & Hlen); [by rewrite Hl|try done..|].
  { intros i Hi Hin. apply Hnever, Exists_exists. exists i. split; [apply elem_of_seq; lia|done]. }
  pose proof (wanted_fields_ok (wd_fields (called 0)) wanted) as [_ _ _ _ Hfew].
  assert (length (f :: passed) ≤ length (wn_order (wanted_fields (wd_fields (called 0)) wanted))) as Hle; [|cbn in Hle; lia].
  apply submseteq_length, NoDup_submseteq.
  - constructor; [|apply Hws]. intros Hin. by apply (ws_order _ _ _ _ _ Hws) in Hin as [_ []].
  - intros g [->|Hg]%elem_of_cons; [done|]. by apply (ws_order _ _ _ _ _ Hws).
Qed.

Lemma every_demanded_field_is_read_witness : ∃ i j, i < 2 ∧ j ∈ (after_demand (called i) both).2 ∧ job_field j = pss_of 8.
Proof.
  apply (every_demanded_field_is_read pss_catalogue one_at_a_time pss_fields 0 called (λ i, (after_demand (called i) both).1) both
    (λ i, (after_demand (called i) both).2) (pss_of 8) 1 2 pss_fields_new).
  - apply rtc_refl.
  - intros i _. split; [apply after_demand_step|]. apply served_steps.
  - intros i Hi. destruct i as [|[|i]]; [vm_compute; discriminate..|lia].
  - vm_compute. discriminate.
  - apply (bool_decide_unpack (pss_of 8 ∈ wn_order (wanted_fields (wd_fields (called 0)) both))). vm_compute. exact I.
  - vm_compute. reflexivity.
  - vm_compute. reflexivity.
  - cbn. lia.
Defined.

(** ** Scans of the process file system *)

#[local] Open Scope N_scope.

(** C13: a row is deleted only when its process is gone.  A scan whose root could be
    listed counts every entry that names a process exactly once: as published, gone,
    unread, or beyond the bound; it publishes at most its limit of records, each of
    them what the files of an entry say, in the order of their PIDs, and leaves at
    most the limits of its two ledgers uncertain.  A process it lists, does not
    publish and does not keep uncertain had ended.  A scan whose root could not be
    listed, or names no fixed tree, publishes nothing and keeps every row. *)
Theorem scans_account_for_every_process (src : ProcFsSource) (fs : ProcFs) :
  let snap := (snapshot src fs).2.1 in
  match fs_listing fs with
  | inl entries => pf_anchored src = true →
      len (ps_records snap) + ps_vanished snap + skipped_count (ps_completeness snap) + lg_count (ps_capped snap) =
        len (filter (λ e, counted e = true) entries) ∧
      (len (ps_records snap) ≤ pf_record_limit src) ∧
      (∀ pids, retention snap = Skipped pids →
        (N.of_nat (size pids) ≤ N.min (pf_record_limit src) (pf_uncertain_limit src) + pf_uncertain_limit src)) ∧
      Forall (λ record, ∃ entry pid stat, inl entry ∈ entries ∧ record_of (scan_context src fs) entry pid stat record) (ps_records snap) ∧
      StronglySorted (λ a b, pid_rank a ≤ pid_rank b) (ps_records snap) ∧
      ∀ entry pid key, inl entry ∈ entries → parse_pid (en_name entry) = Some pid → pk_pid key = Known pid →
        keeps (retention snap) key = false → Exists (publishes pid) (ps_records snap) ∨ entry_ended (scan_context src fs) entry pid
  | inr _ => ps_records snap = [] ∧ retention snap = Unenumerable
  end.
Proof.
  intros snap. unfold snap, snapshot, scan_context. pose proof (begin_scan_spec src fs) as Hspec.
  destruct (begin_scan src fs) as [[[src1 cx] issues] system]. destruct Hspec as (_ & Hrl & Hul & _ & Hcrl & _).
  destruct (fs_listing fs) as [entries|e].
  - intros ->. cbn [negb fst snd]. destruct (scan_all cx src1 issues entries) as (skips & caps & Hsd).
    set (st := foldl _ _ entries) in *. clearbody st. destruct Hsd as [Hs Hc Hn Hb Hr Ha _]. rewrite Hrl, Hul in Hs. rewrite Hul in Hc. rewrite Hcrl in Hb.
    destruct (finished_retention src1 st _ _ _ _ Hs Hc) as [Hcount Hret]. rewrite Hcount. unfold finish_scan in *. cbn [ps_records ps_vanished ps_capped] in *.
    assert (sort_by by_pid (sn_records st) ≡ₚ sn_records st) as Hperm by apply sort_by_perm.
    assert (len (sort_by by_pid (sn_records st)) = len (sn_records st)) as Hlen by (unfold len; by rewrite Hperm).
    rewrite Hlen. split_and!; [done|done| |by rewrite Hperm|apply sorted_by_pid|].
    + intros pids Hp. rewrite Hp in Hret. apply Hret.
    + intros entry pid key Hin Hpid Hkey Hkeep. rewrite Hperm. destruct (Ha entry pid Hin Hpid) as [?|Hother]; [by left|].
      destruct (retention _) as [pids|]; [|done]. destruct Hret as [_ Hpids]. cbn [keeps] in Hkeep. rewrite Hkey in Hkeep.
      apply bool_decide_eq_false in Hkeep. rewrite Hpids in Hkeep. tauto.
  - destruct (pf_anchored src); cbn [negb fst snd]; (split; [done|]); [|done].
    unfold retention, from_scan. cbn [ps_capped ps_completeness lg_count lg_enumerable mark_unenumerable ledger_with_limit N.eqb andb negb]. done.
Qed.

(** A tree of two processes, one of them ended while it was read, and one directory
    that may not be read. *)
Definition line (text : string) : io (list N) := inl (bytes_of_string text ++ [10]).
Definition demo_entry (name : string) (stat : io (list N)) (now : N) : io Entry :=
  inl (mkEntry (bytes_of_string name) None stat now (line "9 5 1 1 0 3 0") true stat).
Definition stat_text (pid ticks : string) : io (list N) :=
  line (pid +:+ " (a) b) S 1 1 1 0 -1 4194560 1 0 0 0 " +:+ ticks +:+ " 0 0 20 0 1 0 77 0").
Definition denied : IoError := mkIoError IoPermissionDenied "denied".
Definition demo_auxv : list N := [6; 0; 0; 0; 0; 0; 0; 0; 0; 16; 0; 0; 0; 0; 0; 0; 17; 0; 0; 0; 0; 0; 0; 0; 100; 0; 0; 0; 0; 0; 0; 0].
Definition demo_fs (now : N) (ticks : string) : ProcFs :=
  mkProcFs (mkMountAnswers (Some false) None None None 1) None (line "host") (line "boot") None (inl (bytes_of_string "pid:[7]"))
    (inl demo_auxv) (inl demo_auxv) None None (inr denied) (inr denied) (inr denied) (inr denied)
    (inl [demo_entry "self" (inr denied) 0; demo_entry "12" (inr denied) 0; demo_entry "8" (stat_text "8" ticks) now;
          demo_entry "9" (inr (mkIoError IoNotFound "gone")) 0]).
Definition demo_source : ProcFsSource := with_root (bytes_of_string "/tree") None.
Lemma scans_account_for_every_process_witness :
  let snap := (snapshot demo_source (demo_fs 5 "3 1")).2.1 in
  (pr_key <$> ps_records snap) = [mkKey "procfs:/tree" (Known "host") (Known "boot") (Known 7) (Known 8) (LinuxBootTicks 77)] ∧
  retention snap = Skipped {[12]} ∧
  len (ps_records snap) + ps_vanished snap + skipped_count (ps_completeness snap) + lg_count (ps_capped snap) = 3.
Proof.
  intros snap. split; [vm_compute; reflexivity|]. split; [vm_compute; reflexivity|].
  destruct (scans_account_for_every_process demo_source (demo_fs 5 "3 1") eq_refl) as [Hcount _]. exact Hcount.
Defined.

(** C15: a CPU figure is one of the process it is shown for.  Over all the scans of one
    source, a measured interval is the difference of two samples of the same PID and
    start time, the earlier of them taken by an earlier scan, and since the last scan
    that found another boot or PID namespace than was last known, and the later by
    this scan, which finds no other either (a boot or namespace that cannot be read
    tells of no change): their difference in ticks over their difference in time,
    which is positive, at the rate that the auxiliary vector read by this scan states
    beside its first key 17, which is within its bounds.  And the source remembers at
    most one sample for every record of its bound. *)
Theorem cpu_usage_is_measured (src : ProcFsSource) (samples : list reading) (fs : ProcFs) (src' : ProcFsSource)
    (snap : ProcessSnapshot) (system : SystemSample) :
  scanning src samples → snapshot src fs = (src', (snap, system)) →
  N.of_nat (size (pf_cpu_baselines src')) ≤ pf_record_limit src' ∧
  ∀ record i, record ∈ ps_records snap → pr_cpu record = Measured i →
    ∃ pid start before now, pk_pid (pr_key record) = Known pid ∧ pk_creation (pr_key record) = LinuxBootTicks start ∧
      ((pid, start), before) ∈ samples ∧ ((pid, start), now) ∈ scan_readings fs ∧
      (∀ a b, pf_cpu_boot src = Some a → cx_boot (scan_context src fs) = Known b → a = b) ∧
      (∀ a b, pf_cpu_namespace src = Some a → cx_pid_namespace (scan_context src fs) = Known b → a = b) ∧
      cb_ticks before + ci_ticks i = cb_ticks now ∧ cb_at before + ci_elapsed i = cb_at now ∧ 0 < ci_elapsed i ∧
      states_clock_rate (fs_auxv_ticks fs) (ci_ticks_per_second i) ∧ 1 ≤ ci_ticks_per_second i ≤ 1000000.
Proof.
  intros Hrun Hsnap. destruct (pf_anchored src) eqn:Ha.
  2:{ unfold snapshot in Hsnap. rewrite Ha in Hsnap. injection Hsnap as <- <- _. split; [by eapply scanning_ok|]. by intros record i ?%elem_of_nil. }
  split; [eapply scanning_ok, scanning_scan; [exact Hrun|exact Ha|exact Hsnap]|].
  intros record i Hin Hi. pose proof (snapshot_records src fs) as Hrec. rewrite Hsnap, Forall_forall in Hrec.
  destruct (Hrec record Hin) as (entries & entry & pid & stat & Hlist & Hentry & _ & [Hstat Hkey _ _ Hcpu]). unfold scan_readings. rewrite Hlist.
  rewrite Hcpu in Hi. destruct (sf_cpu_ticks stat) as [ticks|] eqn:Hticks; [|done].
  apply sample_cpu_measured in Hi as (before & rate & Hbefore & Hrate & -> & Hd1 & Hd2 & Hpos).
  exists pid, (sf_start_ticks stat), before, (mkBaseline ticks (en_now entry)). rewrite Hkey. split; [done|]. split; [done|].
  pose proof (begin_scan_spec src fs) as Hspec. unfold scan_context in *. destruct (begin_scan src fs) as [[[src1 cx] issues] sys] eqn:Hb. cbn [fst snd] in *.
  destruct Hspec as (_ & _ & _ & _ & _ & Hcb & _ & _ & Hct & _). rewrite Hcb, (begin_scan_baselines _ _ _ _ _ _ Hb) in Hbefore.
  destruct (identity_kept src fs) eqn:Hkept; [|by rewrite lookup_empty in Hbefore].
  destruct (identity_kept_agrees _ _ Hkept) as [Hboot Hns]. unfold scan_context in Hboot, Hns. rewrite Hb in Hboot, Hns.
  cbn [fst snd] in Hboot, Hns.
  destruct (scanning_ok _ _ Hrun) as [Hfrom _]. split; [by apply Hfrom|]. split.
  { apply list_elem_of_omap. exists (inl entry). split; [done|]. by apply entry_stat_reading. }
  rewrite Hct in Hrate. apply clock_rate_stated in Hrate as [Hstated Hrange].
  split_and!; [done..|apply Hrange|apply Hrange].
Qed.

Lemma cpu_usage_is_measured_witness :
  let first := snapshot demo_source (demo_fs 5 "3 1") in
  let second := snapshot first.1 (demo_fs 2000000005 "103 1") in
  (pr_cpu <$> ps_records second.2.1) = [Measured (mkCpuInterval 100 100 2000000000)] ∧
  N.of_nat (size (pf_cpu_baselines second.1)) ≤ 65536.
Proof.
  intros first second. split; [vm_compute; reflexivity|].
  assert (pf_record_limit second.1 = 65536) as <- by (vm_compute; reflexivity).
  assert (pf_anchored demo_source = true) as Ha by (vm_compute; reflexivity).
  pose proof (scanning_start demo_source eq_refl) as Hrun. revert Ha Hrun. unfold second, first. clear first second.
  generalize demo_source, (demo_fs 5 "3 1"), (demo_fs 2000000005 "103 1"). intros src fs1 fs2 Ha Hrun.
  destruct (snapshot src fs1) as [src1 out1] eqn:H1. cbn [fst snd]. pose proof (scanning_scan _ _ _ _ _ Hrun Ha H1) as Hrun1.
  destruct (snapshot src1 fs2) as [src2 [snap2 system2]] eqn:H2. exact (proj1 (cpu_usage_is_measured _ _ _ _ _ _ Hrun1 H2)).
Defined.

(** C32: the lines the kernel writes are read as it writes them, whatever a process
    calls itself: the name of a [stat] line is any bytes, parentheses and blanks among
    them, and the fields after it are found; [statm] and [uptime] are read; and a line
    that is read as [statm] is seven counts, separated and ended as the kernel does. *)
Theorem kernel_lines_are_read_exactly :
  (∀ pid_field pid comm fields user system start user_ticks system_ticks start_ticks,
    decimal_field pid_field pid → (length pid_field ≤ 10)%nat → 0 < pid ≤ u32_max → Forall plain_field fields →
    fields !! 11%nat = Some user → fields !! 12%nat = Some system → fields !! 19%nat = Some start →
    decimal_field user user_ticks → decimal_field system system_ticks → decimal_field start start_ticks →
    user_ticks ≤ u64_max → system_ticks ≤ u64_max → start_ticks ≤ u64_max →
    parse_stat pid (stat_line pid_field comm fields) =
      Some (mkStat (sanitize comm) start_ticks (checked_add64 user_ticks system_ticks))) ∧
  (∀ bytes pages, parse_statm_resident bytes = Some pages ↔
    ∃ fields field, bytes = join_with [32] fields ++ [10] ∧ length fields = 7%nat ∧
      Forall (λ f, ∃ n, decimal_field f n ∧ n ≤ u64_max) fields ∧ fields !! 1%nat = Some field ∧ decimal_field field pages) ∧
  (∀ whole fraction idle hundredths seconds part, decimal_field whole seconds → decimal_field fraction part → length fraction = 2%nat →
    seconds * 100 + 99 ≤ u64_max → parse_hundredths idle = Some hundredths → Forall (λ b, b ≠ 32) idle →
    parse_uptime (whole ++ [46] ++ fraction ++ [32] ++ idle ++ [10]) = Some seconds).
Proof.
  split; [|split].
  - intros pid_field pid comm fields user system start ut st_ tt_ Hpid Hlen Hp Hf Hu Hs Ht Hut Hst Htt Hum Hsm Htm.
    pose proof (digits_plain _ _ Hpid) as Hplain.
    destruct (stat_line_fields pid_field comm fields) as (Hopen & Hclose & Htake & Hcomm & Hfields); [by destruct fields|done..|].
    unfold parse_stat. rewrite Hopen, Hclose. cbn [mbind option_bind]. rewrite (proj2 (Nat.ltb_ge _ _)) by lia.
    rewrite Htake, trim_ascii_field; [|apply Hpid|by eapply Forall_impl; [exact Hplain|]; intros b [? _]|done].
    rewrite (parse_pid_field _ _ Hpid Hlen Hp), bool_decide_eq_false_2 by auto. unfold stat_fields. rewrite Hfields, Hcomm.
    rewrite !lookup_take_lt by (unfold STARTTIME_FIELD_AFTER_COMM, UTIME_FIELD_AFTER_COMM, STIME_FIELD_AFTER_COMM; lia).
    unfold STARTTIME_FIELD_AFTER_COMM, UTIME_FIELD_AFTER_COMM, STIME_FIELD_AFTER_COMM. rewrite Hu, Hs, Ht. cbn [mbind option_bind].
    by rewrite (parse_uint_field _ _ _ Htt Htm), (parse_uint_field _ _ _ Hut Hum), (parse_uint_field _ _ _ Hst Hsm).
  - intros bytes pages. unfold parse_statm_resident, STATM_RESIDENT. split.
    + destruct (strip_suffix [10] bytes) as [l|] eqn:Hl; [|done]. cbn [mbind option_bind]. apply strip_suffix_inv in Hl.
      destruct (mapM parse_count _) as [counts|] eqn:Hm; [|done]. cbn [mbind option_bind].
      destruct (Nat.eqb_spec (length (split_on (N.eqb 32) l)) STATM_FIELDS) as [H7|]; [|done]. intros Hp.
      rewrite take_ge in Hm by lia. apply mapM_Some in Hm. exists (split_on (N.eqb 32) l).
      destruct (Forall2_lookup_r _ _ _ _ _ Hm Hp) as (field & Hfield & Hcount). exists field. split_and!.
      * rewrite join_split; [done|]. intros b. rewrite N.eqb_eq. naive_solver.
      * exact H7.
      * apply Forall_forall. intros f [j Hj]%list_elem_of_lookup. destruct (Forall2_lookup_l _ _ _ _ _ Hm Hj) as (n & _ & Hn). exists n. by apply parse_count_inv.
      * exact Hfield.
      * by apply parse_count_inv in Hcount as [? _].
    + intros (fields & field & -> & H7 & Hf & Hfield & Hdec). rewrite strip_suffix_app. cbn [mbind option_bind].
      destruct (split_on_join (N.eqb 32) 32 fields) as [Hsplit _]; [done|by destruct fields| |].
      { eapply Forall_impl; [exact Hf|]. intros f (n & Hn & _). eapply Forall_impl; [exact (digits_plain _ _ Hn)|]. intros b [Hb _].
        unfold is_ascii_whitespace in Hb. cbn [existsb] in Hb. apply orb_false_iff in Hb as [Hb _]. by rewrite N.eqb_sym. }
      rewrite Hsplit, take_ge by (unfold STATM_FIELDS; lia). rewrite H7.
      assert (∃ counts, mapM parse_count fields = Some counts) as [counts Hm].
      { apply mapM_is_Some_2. eapply Forall_impl; [exact Hf|]. intros f (n & Hn & Hmax). exists n. by apply parse_count_field. }
      rewrite Hm. cbn [mbind option_bind]. change (7 =? STATM_FIELDS)%nat with true. cbn match. apply mapM_Some in Hm.
      destruct (Forall2_lookup_l _ _ _ _ _ Hm Hfield) as (n & -> & Hn). apply parse_count_inv in Hn as [(_ & _ & Hv) _].
      destruct Hdec as (_ & _ & Hv'). congruence.
  - intros whole fraction idle hundredths seconds part Hw Hfr Hlen Hmax Hidle Hne. unfold parse_uptime.
    assert (whole ++ [46] ++ fraction ++ [32] ++ idle ++ [10] = (join_with [32] [whole ++ [46] ++ fraction; idle]) ++ [10]) as ->
      by (cbn [join_with]; by rewrite <- !app_assoc).
    assert (part ≤ 99) as Hpart.
    { destruct Hfr as (_ & Hd & <-). apply all_digits_Forall in Hd. destruct fraction as [|a [|b [|]]]; try done.
      apply Forall_cons in Hd as [Ha Hd]. apply Forall_cons in Hd as [Hb _]. unfold is_digit, within in *.
      apply andb_true_iff in Ha as [?%N.leb_le ?%N.leb_le], Hb as [?%N.leb_le ?%N.leb_le]. cbn. lia. }
    assert (∀ f n, decimal_field f n → Forall (λ b, (46 =? b) = false) f ∧ Forall (λ b, (32 =? b) = false) f) as Hsep.
    { intros f n (_ & Hd & _). apply all_digits_Forall in Hd. split; (eapply Forall_impl; [exact Hd|]); intros b Hb; unfold is_digit, within in Hb;
        apply andb_true_iff in Hb as [?%N.leb_le _]; apply N.eqb_neq; lia. }
    rewrite strip_suffix_app. cbn [mbind option_bind].
    destruct (split_on_join (N.eqb 32) 32 [whole ++ [46] ++ fraction; idle]) as [-> _]; [done|done| |].
    { apply Forall_cons_2; [|apply Forall_singleton]; [|eapply Forall_impl; [exact Hne|]; intros b Hb; by apply N.eqb_neq].
      apply Forall_app. split; [by eapply Hsep|]. apply Forall_cons_2; [done|by eapply Hsep]. }
    assert (parse_hundredths (whole ++ [46] ++ fraction) = Some (seconds * 100 + part)) as ->.
    { unfold parse_hundredths. change ([46] ++ fraction) with (46 :: fraction).
      rewrite (position_app (N.eqb 46) whole 46 fraction) by (reflexivity || by eapply Hsep). cbn [mbind option_bind].
      rewrite take_app_length, (cons_middle 46 whole fraction), app_assoc, drop_app_length' by (rewrite length_app; cbn; lia). rewrite Hlen. cbn [Nat.eqb negb].
      rewrite (parse_count_field _ _ Hw) by lia. cbn [mbind option_bind]. unfold checked_mul64. rewrite (proj2 (N.leb_le _ _)) by lia. cbn [mbind option_bind].
      rewrite (parse_count_field _ _ Hfr) by (unfold u64_max in *; lia). cbn [mbind option_bind]. apply checked_add64_small. lia. }
    rewrite Hidle. cbn [mbind option_bind]. f_equal. rewrite N.div_add_l, N.div_small by lia. lia.
Qed.

(** C31: what is published as the name of a process, or as its command line, is safe
    to show whatever bytes the process chose: valid text that is not empty, whose
    characters are none of those that Unicode (its sets written down on their own,
    and equal to the code's table) calls control, format, default ignorable or line
    separators, nor a format control of the Egyptian block or a blank glyph, and
    whose only white space is the plain space, without one at either end.  A name
    has at most 129 characters; publishing a published name again changes nothing,
    and a name that is safe, tidy and short enough is published as it is.  A
    command shows the longest prefix of its characters that takes at most 512
    bytes, with an ellipsis exactly if there are more, cleaned and trimmed, and is
    absent only if that leaves nothing; where no character has to be cleaned the
    text itself keeps the documented bound of 512 bytes and an ellipsis (a
    replacement can be longer than what it replaces). *)
Theorem published_names_are_safe (raw : list N) :
  (∃ chars, publishable_text (dn_text (sanitize raw)) chars ∧ (length chars ≤ S MAX_DISPLAY_NAME_CHARS)%nat) ∧
  sanitize (bytes_of_string (dn_text (sanitize raw))) = sanitize raw ∧
  (∀ chars, raw = encode_chars chars → Forall safe_char chars → tidy chars → chars ≠ [] → (length chars ≤ MAX_DISPLAY_NAME_CHARS)%nat →
    sanitize raw = mkDisplayName (string_of_chars chars) None ∧ bytes_of_string (string_of_chars chars) = raw) ∧
  ∃ source cut (shown := trim_chars ((clean_char <$> source) ++ if cut : bool then [ELLIPSIS] else [])),
    command_prefix 512 (from_utf8_lossy raw) source cut ∧
    sanitize_command raw = (if decide (shown = []) then None else Some (string_of_chars shown)) ∧
    (shown ≠ [] → publishable_text (string_of_chars shown) shown) ∧
    (Forall safe_char source → len (encode_chars shown) ≤ 512 + len_utf8 ELLIPSIS).
Proof.
  destruct (sanitize_spec raw) as (chars & Hp & Hlen & Hidem & _). split_and!.
  - by exists chars.
  - exact Hidem.
  - intros cs -> Hs Ht Hne Hl. assert (bytes_of_string (string_of_chars cs) = encode_chars cs) as Hb
      by (apply bytes_of_string_of_bytes, encode_chars_bytes, safe_scalar, Hs).
    split; [|exact Hb]. rewrite <- Hb. apply sanitize_id; auto.
  - apply sanitize_command_spec.
Qed.

(** The records of two trees are never taken for each other.  Whatever scans two
    collectors have made, if each publishes a record and the keys of the two records
    compare equal, the collectors read the same root, byte for byte, even where the
    roots are not text or were given relative to a working directory; and the source
    a record names is that of the root it was read from. *)
Theorem sources_never_alias (given given' : list N) (wd wd' : option (list N)) (src src' : ProcFsSource) (fs fs' : ProcFs)
    (record record' : ProcessRecord) :
  is_bytes given → (∀ w, wd = Some w → is_bytes w) → is_bytes given' → (∀ w, wd' = Some w → is_bytes w) →
  collector given wd src → collector given' wd' src' →
  record ∈ ps_records (snapshot src fs).2.1 → record' ∈ ps_records (snapshot src' fs').2.1 →
  process_key_order (pr_key record) (pr_key record') = Eq →
  pf_root src = pf_root src' ∧ pk_source (pr_key record) = source_id_for (pf_root src).
Proof.
  intros Hg Hw Hg' Hw' Hc Hc' Hin Hin' [Hk _ _ _ _ _]%process_key_order_eq.
  assert (∀ given wd src fs record, is_bytes given → (∀ w, wd = Some w → is_bytes w) → collector given wd src → record ∈ ps_records (snapshot src fs).2.1 →
    is_bytes (pf_root src) ∧ pk_source (pr_key record) = source_id_for (pf_root src)) as Hone.
  { clear. intros given wd src fs record Hg Hw Hc Hin. pose proof (snapshot_records src fs) as Hall. rewrite Forall_forall in Hall.
    destruct (Hall record Hin) as (entries & entry & pid & stat & _ & _ & Ha & [_ Hkey _ _ _]). rewrite Hkey. cbn [pk_source].
    destruct (collector_source _ _ _ Hc) as (Hr & Hs & Ha'). rewrite Ha' in Ha. destruct (rooted_source _ _ Ha) as [Hroot Hid]. split.
    - rewrite Hr. by eapply anchor_root_bytes.
    - unfold scan_context. pose proof (begin_scan_spec src fs) as Hspec. destruct (begin_scan src fs) as [[[src1 cx] issues] system].
      destruct Hspec as (_ & _ & _ & Hcs & _). cbn [fst snd]. by rewrite Hcs, Hs, Hid, Hr. }
  destruct (Hone _ _ _ _ _ Hg Hw Hc Hin) as [Hb Hs]. destruct (Hone _ _ _ _ _ Hg' Hw' Hc' Hin') as [Hb' Hs'].
  split; [|exact Hs]. apply source_id_inj; [done..|congruence].
Qed.

Lemma sources_never_alias_witness : ∃ record record',
  ps_records (snapshot demo_source (demo_fs 5 "3 1")).2.1 = [record] ∧ ps_records (snapshot (with_root (bytes_of_string "tree") (Some [47])) (demo_fs 9 "4 1")).2.1 = [record'] ∧
  pf_root demo_source = pf_root (with_root (bytes_of_string "tree") (Some [47])) ∧ pk_source (pr_key record) = source_id_for (pf_root demo_source).
Proof.
  eexists _, _. split; [vm_compute; reflexivity|]. split; [vm_compute; reflexivity|].
  eapply (sources_never_alias (bytes_of_string "/tree") (bytes_of_string "tree") None (Some [47]) _ _ (demo_fs 5 "3 1") (demo_fs 9 "4 1")).
  - repeat constructor.
  - done.
  - repeat constructor.
  - intros w [= <-]. repeat constructor.
  - apply collector_new.
  - apply collector_new.
  - vm_compute. by left.
  - vm_compute. by left.
  - vm_compute. reflexivity.
Defined.
