(* ===== verification/SrtopRefresh.v ===== *)
(** * srtop: from one published collection to the next

    Models the planning half of [apps/srtop/src/refresh.rs]: which rows a refresh
    publishes, the operations that turn the published rows into them, and how a
    change of order moves rows without ever dropping one.  The publishing half is
    SrtopCommit.

    Where the code looks up a position it has enumerated itself the model uses the
    total lookup. *)

From S2P Require Import Prelude.
From S2P Require Import Values.
From S2P Require Import Limits.
From S2P Require Import Models.
From S2P Require Import Store.
From S2P Require Import Transaction.
From S2P Require Import Snapshot.
From S2P Require Import Event.
From S2P Require Import SrtopData.
From S2P Require Import SrtopMetric.
From S2P Require Import SrtopCatalogue.
From S2P Require Import SrtopSort.

(** The properties of the SDK's generated registry the view sets. *)
Class SdkProperties := { SDK_LABEL : PropertyRef; SDK_COLUMNS : PropertyRef; SDK_ENABLED : PropertyRef }.
Definition standard_sdk : SdkProperties :=
  {| SDK_LABEL := PropertyRef_standard 1; SDK_COLUMNS := PropertyRef_standard 29; SDK_ENABLED := PropertyRef_standard 7 |}.

(** The nodes and the model of [lib.rs]. *)
Definition STATUS : NodeId := mkNodeId 4.
Definition TABLE : NodeId := mkNodeId 5.
Definition FILTER_INPUT : NodeId := mkNodeId 26.
Definition FILTER_STATUS : NodeId := mkNodeId 27.
Definition MODEL : ModelId := mkModelId 1.
Definition sort_button_of (f : ProcessField) : NodeId :=
  match f with
  | FieldPid => mkNodeId 21 | FieldName => mkNodeId 22 | FieldResident => mkNodeId 23 | FieldCpu => mkNodeId 24
  end.

(** ** What an operation costs on the wire *)

Definition TRANSACTION_ENVELOPE_BYTES : N := 64.
Definition MAX_TRANSACTION_PAYLOAD_BYTES : N := DEFAULT_MAX_FRAME_SIZE - TRANSACTION_ENVELOPE_BYTES.
Definition OPERATION_FRAMING_BYTES : N := 12.
Definition OPERATION_HEADER_BYTES : N := 48.
Definition MODEL_ITEM_FRAMING_BYTES : N := 17.
Definition ITEM_ID_BYTES : N := 11.
Definition VALUE_FRAMING_BYTES : N := 7.
Definition SCALAR_VALUE_BYTES : N := 64.
Definition RECORD_PROPERTY_BYTES : N := 24.
Definition SNAPSHOT_SHELL_BYTES : N := 8192.
Definition SNAPSHOT_RANGE_BYTES : N := OPERATION_FRAMING_BYTES + OPERATION_HEADER_BYTES.
Definition MAX_PUBLISHED_LABEL_BYTES : N := 256 + 3.
Definition STATUS_RESERVE_BYTES : N := MAX_PUBLISHED_LABEL_BYTES + 1024.
Definition SUMMARY_RESERVE_BYTES : N := 8 * 1024.
Definition FILTER_RESERVE_BYTES : N := 2048.

Definition text_bytes (s : string) : N := N.of_nat (String.length s).
Definition sum_bytes {A} (f : A → N) (l : list A) : N := foldr (λ x n, (f x + n)%N) 0%N l.

(** [value_wire_bytes] and [row_wire_bytes] *)
Fixpoint value_wire_bytes (v : Value) : N :=
  (VALUE_FRAMING_BYTES +
   match v with
   | VString text => text_bytes text
   | VList values =>
       (fix go (l : list Value) : N := match l with [] => 0 | x :: l => value_wire_bytes x + go l end) values
   | VRecord (mkSmallRecord _ props) =>
       RECORD_PROPERTY_BYTES +
       (fix go (l : list Property) : N :=
          match l with
          | [] => 0
          | mkProperty _ x :: l => RECORD_PROPERTY_BYTES + value_wire_bytes x + go l
          end) props
   | _ => SCALAR_VALUE_BYTES
   end)%N.
Definition row_wire_bytes (r : Row) : N := (MODEL_ITEM_FRAMING_BYTES + value_wire_bytes (row_value r))%N.

(** ** Rows *)

(** [Row::to_model_item], [lay_out] (an index out of range panics) and [laid_out] *)
Definition to_model_item (r : Row) : ModelItem := mkModelItem (row_item_id r) (row_value r) ∅.
Definition lay_out (cells : list Value) (layout : ColumnLayout) : option Value :=
  VList <$> mapM (λ f, cells !! field_index f) layout.
Definition laid_out (r : Row) (layout : ColumnLayout) : option Row :=
  v ← lay_out (row_cells r) layout;
  Some (mkRow (row_key r) (row_item_id r) (row_cells r) v (row_sort r) (row_display_name r)).

Definition ids_of (rows : list Row) : list ItemId := row_item_id <$> rows.

(** [retain_unconfirmed]: [position] is the place of a row among the confirmed ones;
    the loop over [published] runs backwards. *)
Definition row_position (rows : list Row) (id : ItemId) : option nat :=
  fst <$> last (filter (λ index_row : nat * Row, row_item_id index_row.2 = id) (imap pair rows)).
Record retained_rows := mkRetained { rt_before : gmap nat (list Row); rt_tail : list Row; rt_anchor : option nat }.
Definition retain_step (confirmed : list Row) (retention : Retention) (row : Row) (st : retained_rows) : retained_rows :=
  match row_position confirmed (row_item_id row) with
  | Some index => mkRetained (rt_before st) (rt_tail st) (Some index)
  | None =>
      if keeps retention (row_key row) then
        match rt_anchor st with
        | Some index =>
            mkRetained (<[index := default [] (rt_before st !! index) ++ [row]]> (rt_before st)) (rt_tail st) (rt_anchor st)
        | None => mkRetained (rt_before st) (rt_tail st ++ [row]) (rt_anchor st)
        end
      else st
  end.
Definition retain_unconfirmed (published confirmed : list Row) (retention : Retention) : list Row :=
  let uncertain row :=
    bool_decide (row_position confirmed (row_item_id row) = None) && keeps retention (row_key row) in
  if negb (existsb uncertain published) then confirmed
  else
    let st := foldr (retain_step confirmed retention) (mkRetained ∅ [] None) published in
    concat (imap (λ index row, reverse (default [] (rt_before st !! index)) ++ [row]) confirmed) ++ reverse (rt_tail st).

(** [evict_unconfirmed_beyond]: the rows kept, and how many were dropped. *)
Fixpoint evictions (excess : nat) (confirmed : gset ItemId) (rows : list Row) : gset ItemId :=
  match excess, rows with
  | S excess', row :: rows =>
      if decide (row_item_id row ∈ confirmed) then evictions excess confirmed rows
      else {[row_item_id row]} ∪ evictions excess' confirmed rows
  | _, _ => ∅
  end.
Definition evict_unconfirmed_beyond (rows : list Row) (confirmed : gset ItemId) (limit : nat) : list Row * nat :=
  if (length rows <=? limit)%nat then (rows, 0)
  else
    let evicted := evictions (length rows - limit) confirmed (reverse rows) in
    if bool_decide (evicted = ∅) then (rows, 0)
    else (filter (λ row, row_item_id row ∉ evicted) rows, size evicted).

(** [bound_to_publishable_collection]: the rows kept, and how many were dropped. *)
Fixpoint publishable (budget : N) (limit kept : nat) (spent : N) (rows : list Row) : nat :=
  match rows with
  | [] => kept
  | row :: rows =>
      if (kept =? limit)%nat then kept
      else
        let cost := (MODEL_ITEM_FRAMING_BYTES + VALUE_FRAMING_BYTES + sum_bytes value_wire_bytes (row_cells row) +
          if (N.of_nat kept mod DEFAULT_MAX_ITEMS_PER_MODEL_OPERATION =? 0)%N then SNAPSHOT_RANGE_BYTES else 0)%N in
        if (budget <? spent + cost)%N then kept else publishable budget limit (S kept) (spent + cost) rows
  end.
Definition publishable_budget : N :=
  (MAX_TRANSACTION_PAYLOAD_BYTES -
   (SNAPSHOT_SHELL_BYTES + STATUS_RESERVE_BYTES + SUMMARY_RESERVE_BYTES + FILTER_RESERVE_BYTES))%N.
Definition bound_to_publishable_collection (rows : list Row) (limit : nat) : list Row * nat :=
  let kept := publishable publishable_budget limit 0 0 rows in
  (take kept rows, length rows - kept).

(** [project_visible_rows], for a query that [matches] rows. *)
Definition project_visible_rows (matches : Row → bool) (unfiltered : list Row) (limit : nat) : list Row * nat * nat :=
  let matching := filter (λ r, matches r = true) unfiltered in
  let '(rows, truncated) := bound_to_publishable_collection matching limit in
  (rows, length matching, truncated).

(** [refresh_sort_values] *)
Definition last_row (rows : list Row) (id : ItemId) : option Row :=
  last (filter (λ r, row_item_id r = id) rows).
Definition refresh_sort_values (rows target : list Row) : list Row :=
  (λ row, match last_row target (row_item_id row) with
          | Some latest => mkRow (row_key row) (row_item_id row) (row_cells latest) (row_value row) (row_sort latest) (row_display_name row)
          | None => row
          end) <$> rows.

(** ** Planned operations *)

(** [summary::Change], [enum Effect] and [struct Planned] *)
Definition Properties : Type := gmap (NodeId * PropertyRef) Value.
Record Change := mkChange { ch_node : NodeId; ch_property : PropertyRef; ch_value : option Value }.
Inductive Effect :=
| EffStatus (text : string)
| EffSummary (change : Change)
| EffSortLabel (node : NodeId) (label : string) (activates : option SortOrder)
| EffFilterStatus (text : string)
| EffFilterValue (text : string)
| EffColumns (layout : ColumnLayout)
| EffChooserLabel (node : NodeId) (label : string)
| EffChooserEnabled (node : NodeId) (enabled : bool)
| EffDelete (ids : list ItemId)
| EffInsert (index : N) (rows : list Row)
| EffUpdate (rows : list Row).
Record Planned := mkPlanned { pl_op : Operation; pl_effect : Effect; pl_bytes : N; pl_joins_next : bool; pl_moving : bool }.

(** Runs by what anchors them *)
Abbreviation run_map := (gmap (option ItemId) (list Row)).

Section refresh.
Context `{EventRegistry, SdkProperties}.

Definition column_headings (layout : ColumnLayout) : list Value := (λ f, VString (heading f)) <$> layout.

(** [Effect::payload_bytes], [Planned::new] and [in_move] *)
Definition payload_bytes (e : Effect) : N :=
  match e with
  | EffStatus text | EffFilterStatus text | EffFilterValue text => VALUE_FRAMING_BYTES + text_bytes text
  | EffSummary change => match ch_value change with Some v => value_wire_bytes v | None => 0 end
  | EffSortLabel _ label _ | EffChooserLabel _ label => VALUE_FRAMING_BYTES + text_bytes label
  | EffColumns layout => VALUE_FRAMING_BYTES + sum_bytes value_wire_bytes (column_headings layout)
  | EffChooserEnabled _ _ => VALUE_FRAMING_BYTES + SCALAR_VALUE_BYTES
  | EffDelete ids => len ids * ITEM_ID_BYTES
  | EffInsert _ rows | EffUpdate rows => sum_bytes row_wire_bytes rows
  end%N.
Definition effect_op (e : Effect) : Operation :=
  match e with
  | EffStatus text => SetProperty STATUS PROP_TEXT (VString text)
  | EffSummary change =>
      match ch_value change with
      | Some v => SetProperty (ch_node change) (ch_property change) v
      | None => ClearProperty (ch_node change) (ch_property change)
      end
  | EffSortLabel node label _ | EffChooserLabel node label => SetProperty node SDK_LABEL (VString label)
  | EffFilterStatus text => SetProperty FILTER_STATUS PROP_TEXT (VString text)
  | EffFilterValue text => SetProperty FILTER_INPUT PROP_VALUE (VString text)
  | EffColumns layout => SetProperty TABLE SDK_COLUMNS (VList (column_headings layout))
  | EffChooserEnabled node enabled => SetProperty node SDK_ENABLED (VBool enabled)
  | EffDelete ids => ModelDelete MODEL None None ids
  | EffInsert index rows => ModelInsert MODEL index (to_model_item <$> rows)
  | EffUpdate rows => ModelUpdate MODEL None (to_model_item <$> rows)
  end.
Definition Planned_new (e : Effect) : Planned :=
  mkPlanned (effect_op e) e (OPERATION_FRAMING_BYTES + OPERATION_HEADER_BYTES + payload_bytes e) false false.
Definition in_move (e : Effect) : Planned :=
  let p := Planned_new e in mkPlanned (pl_op p) (pl_effect p) (pl_bytes p) (pl_joins_next p) true.
Definition joined (p : Planned) : Planned :=
  mkPlanned (pl_op p) (pl_effect p) (pl_bytes p) true (pl_moving p).

(** ** The difference of two collections *)

(** The first loop of [diff]: the rows to delete, the ids retained and the highest
    position kept. *)
Definition diff_step (target : list Row) (st : list ItemId * gset ItemId * option nat) (row : Row)
    : list ItemId * gset ItemId * option nat :=
  let '(deleted, retained, highest_kept) := st in
  match row_position target (row_item_id row) with
  | None => (deleted ++ [row_item_id row], retained, highest_kept)
  | Some position =>
      if match highest_kept with Some kept => (position <? kept)%nat | None => false end
      then (deleted ++ [row_item_id row], retained, highest_kept)
      else (deleted, {[row_item_id row]} ∪ retained, Some position)
  end.

(** [slice::chunks] *)
Fixpoint chunks_go {A} (fuel n : nat) (l : list A) : list (list A) :=
  match fuel, l with
  | S fuel, _ :: _ => take n l :: chunks_go fuel n (drop n l)
  | _, _ => []
  end.
Definition chunks {A} (n : nat) (l : list A) : list (list A) := chunks_go (length l) n l.

Definition operation_bytes : N := (OPERATION_FRAMING_BYTES + OPERATION_HEADER_BYTES)%N.
Definition item_budget (max_bytes : N) : N := N.max (max_bytes - operation_bytes) 1.
Definition delete_batch (batch : nat) (max_bytes : N) : nat :=
  Nat.max (Nat.min batch (N.to_nat (item_budget max_bytes / ITEM_ID_BYTES))) 1.

(** [flush_insert], and the loop over the target rows *)
Record insert_run_state := mkRun { ir_plan : list Planned; ir_start : N; ir_rows : list Row; ir_bytes : N }.
Definition flush_insert (st : insert_run_state) : insert_run_state :=
  match ir_rows st with
  | [] => mkRun (ir_plan st) (ir_start st) [] 0
  | rows => mkRun (ir_plan st ++ [Planned_new (EffInsert (ir_start st) rows)]) (ir_start st) [] 0
  end.
Definition insert_step (retained : gset ItemId) (batch : nat) (budget : N) (st : insert_run_state) (index_row : nat * Row)
    : insert_run_state :=
  let '(index, row) := index_row in
  if decide (row_item_id row ∈ retained) then flush_insert st
  else
    let cost := row_wire_bytes row in
    let st :=
      if bool_decide (ir_rows st ≠ []) && ((length (ir_rows st) =? batch)%nat || (budget <? ir_bytes st + cost)%N)
      then flush_insert st else st in
    let start := match ir_rows st with [] => N.of_nat index | _ => ir_start st end in
    mkRun (ir_plan st) start (ir_rows st ++ [row]) (ir_bytes st + cost).

(** The loop over the changed rows *)
Record update_state := mkUpdates { up_plan : list Planned; up_rows : list Row; up_bytes : N }.
Definition update_step (batch : nat) (budget : N) (st : update_state) (row : Row) : update_state :=
  let cost := row_wire_bytes row in
  let st :=
    if bool_decide (up_rows st ≠ []) && ((length (up_rows st) =? batch)%nat || (budget <? up_bytes st + cost)%N)
    then mkUpdates (up_plan st ++ [Planned_new (EffUpdate (up_rows st))]) [] 0 else st in
  mkUpdates (up_plan st) (up_rows st ++ [row]) (up_bytes st + cost).
Definition finish_updates (st : update_state) : list Planned :=
  match up_rows st with [] => up_plan st | rows => up_plan st ++ [Planned_new (EffUpdate rows)] end.

(** Whether a row is to be sent again. *)
Definition row_changed (published : list Row) (retained : gset ItemId) (row : Row) : bool :=
  bool_decide (row_item_id row ∈ retained) &&
  match last_row published (row_item_id row) with
  | Some old => negb (value_eqb (row_value old) (row_value row))
  | None => false
  end.

(** [diff] *)
Definition diff (published target : list Row) (batch : nat) (max_bytes : N) : list Planned :=
  let '(deleted, retained, _) := foldl (diff_step target) ([], ∅, None) published in
  let budget := item_budget max_bytes in
  let deletes := (λ ids, Planned_new (EffDelete ids)) <$> chunks (delete_batch batch max_bytes) deleted in
  let inserts := flush_insert (foldl (insert_step retained batch budget) (mkRun deletes 0 [] 0) (imap pair target)) in
  let changed := filter (λ row, row_changed published retained row = true) target in
  finish_updates (foldl (update_step batch budget) (mkUpdates (ir_plan inserts) [] 0) changed).

(** ** A longest increasing subsequence *)

(** [slice::partition_point] of a partitioned slice *)
Fixpoint partition_point {A} (pred : A → bool) (l : list A) : nat :=
  match l with
  | x :: l => if pred x then S (partition_point pred l) else 0
  | [] => 0
  end.
Record patience := mkPatience { pt_tails : list nat; pt_previous : list (option nat) }.
Definition patience_step (sequence : list nat) (st : patience) (pos_value : nat * nat) : patience :=
  let '(position, value) := pos_value in
  let length' := partition_point (λ tail, (sequence !!! tail <? value)%nat) (pt_tails st) in
  mkPatience
    (if (length' =? length (pt_tails st))%nat then pt_tails st ++ [position] else <[length' := position]> (pt_tails st))
    (match length' with
     | O => pt_previous st
     | S n => <[position := Some (pt_tails st !!! n)]> (pt_previous st)
     end).

(** The walk back along [previous]; a value out of range panics. *)
Fixpoint mark_chain (fuel : nat) (sequence : list nat) (previous : list (option nat)) (cursor : option nat)
    (kept : list bool) : result Empty_set (list bool) :=
  match cursor with
  | None => Ok kept
  | Some position =>
      match fuel with
      | O => Diverge
      | S fuel =>
          if (sequence !!! position <? length kept)%nat
          then mark_chain fuel sequence previous (previous !!! position) (<[sequence !!! position := true]> kept)
          else Panic
      end
  end.
Definition longest_increasing (sequence : list nat) (n : nat) : result Empty_set (list bool) :=
  let st := foldl (patience_step sequence) (mkPatience [] (replicate (length sequence) None)) (imap pair sequence) in
  mark_chain (length sequence) sequence (pt_previous st) (last (pt_tails st)) (replicate n false).

(** ** Moves *)

(** [struct MoveRun] and [struct MoveUnit] *)
Record MoveRun := mkMoveRun { mr_anchor : option ItemId; mr_rows : list Row; mr_bytes : N; mr_last_rank : nat }.
Record MoveUnit := mkMoveUnit { mu_runs : list MoveRun; mu_moved : nat; mu_row_bytes : N }.
Definition MoveUnit_default : MoveUnit := mkMoveUnit [] 0 0.

(** [place_runs]: every iteration takes a run. *)
Fixpoint place_runs (fuel : nat) (anchor : option ItemId) (runs : run_map) (placed : list Row)
    (inserts : list (N * list Row)) : result Empty_set (run_map * list Row * list (N * list Row)) :=
  match runs !! anchor with
  | None => Ok (runs, placed, inserts)
  | Some run =>
      match fuel with
      | O => Diverge
      | S fuel =>
          place_runs fuel (row_item_id <$> last run) (delete anchor runs) (placed ++ run) (inserts ++ [(len placed, run)])
      end
  end.
Definition place_row (moving : gset ItemId) (st : run_map * list Row * list (N * list Row)) (row : Row)
    : result Empty_set (run_map * list Row * list (N * list Row)) :=
  let '(runs, placed, inserts) := st in
  if decide (row_item_id row ∈ moving) then Ok st
  else place_runs (size runs) (Some (row_item_id row)) runs (placed ++ [row]) inserts.

(** [flush_moves]: the rows and the operations of one unit. *)
Definition run_table (runs : list MoveRun) : run_map :=
  foldl (λ t run, <[mr_anchor run := mr_rows run]> t) ∅ runs.
Definition place_unit (runs : list MoveRun) (rows : list Row) : result Empty_set (list Row * list (N * list Row)) :=
  let ids := ids_of (concat (mr_rows <$> runs)) in
  st ← place_runs (size (run_table runs)) None (run_table runs) [] [];
  st' ← try_fold (place_row (list_to_set ids)) st rows;
  Ok (st'.1.2, st'.2).
Definition flush_moves (unit : MoveUnit) (rows : list Row) (deleted_batch : nat) (join : bool)
    : result Empty_set (list Row * list Planned) :=
  let ids := ids_of (concat (mr_rows <$> mu_runs unit)) in
  let deletes := (λ chunk, in_move (EffDelete chunk)) <$> chunks deleted_batch ids in
  st ← place_unit (mu_runs unit) rows;
  let plan := deletes ++ ((λ '(index, run), in_move (EffInsert index run)) <$> st.2) in
  Ok (st.1, if join then imap (λ i p, if (i + 1 <? length plan)%nat then joined p else p) plan else plan).

(** The loop of [plan_moves] over the rows shared with the target, in its order:
    the unit being built, the rows and the plan. *)
Record moves_state := mkMoves { mv_unit : MoveUnit; mv_rows : list Row; mv_plan : list Planned }.
Definition extends_last (unit : MoveUnit) (index batch : nat) (budget cost : N) : bool :=
  match last (mu_runs unit) with
  | Some run =>
      (0 <? index)%nat && (S (mr_last_rank run) =? index)%nat && (length (mr_rows run) <? batch)%nat &&
      (mr_bytes run + cost <=? budget)%N
  | None => false
  end.
Definition add_row (unit : MoveUnit) (order : list Row) (index : nat) (row : Row) (cost : N) (extends : bool)
    : result Empty_set MoveUnit :=
  let next runs := mkMoveUnit runs (S (mu_moved unit)) (mu_row_bytes unit + cost)%N in
  if extends then
    match last (mu_runs unit) with
    | Some run =>
        Ok (next (take (Nat.pred (length (mu_runs unit))) (mu_runs unit) ++
          [mkMoveRun (mr_anchor run) (mr_rows run ++ [row]) (mr_bytes run + cost) index]))
    | None => Panic
    end
  else
    let anchor := match index with O => None | S previous => row_item_id <$> order !! previous end in
    Ok (next (mu_runs unit ++ [mkMoveRun anchor [row] cost index])).
Definition div_ceil (a b : nat) : nat := (a + b - 1) / b.
Definition unit_full (unit : MoveUnit) (extends : bool) (max_ops deleted_batch : nat) (max_bytes cost : N) : bool :=
  let runs := length (mu_runs unit) + (if extends then 0 else 1) in
  let moved := mu_moved unit + 1 in
  let deletions := div_ceil moved deleted_batch in
  let ops := deletions + runs in
  let bytes := (N.of_nat deletions * operation_bytes + N.of_nat moved * ITEM_ID_BYTES +
    N.of_nat runs * operation_bytes + mu_row_bytes unit + cost)%N in
  (max_ops <? ops)%nat || (max_bytes <? bytes)%N.
Definition move_step (order : list Row) (kept : list bool) (batch max_ops deleted_batch : nat) (max_bytes : N)
    (st : moves_state) (index_row : nat * Row) : result Empty_set moves_state :=
  let '(index, row) := index_row in
  if default false (kept !! index) then Ok st
  else
    let join := (2 <=? max_ops)%nat in
    let cost := row_wire_bytes row in
    let extends := extends_last (mv_unit st) index batch (item_budget max_bytes) cost in
    if (0 <? mu_moved (mv_unit st))%nat && join && unit_full (mv_unit st) extends max_ops deleted_batch max_bytes cost
    then
      flushed ← flush_moves (mv_unit st) (mv_rows st) deleted_batch join;
      unit ← add_row MoveUnit_default order index row cost false;
      Ok (mkMoves unit flushed.1 (mv_plan st ++ flushed.2))
    else
      unit ← add_row (mv_unit st) order index row cost extends;
      Ok (mkMoves unit (mv_rows st) (mv_plan st)).

(** [plan_moves] *)
Definition shared_rows (published target : list Row) : list Row :=
  filter (λ r, row_item_id r ∈ ids_of published) target.
Definition plan_moves (published target : list Row) (batch max_ops : nat) (max_bytes : N)
    : result Empty_set (list Row * list Planned) :=
  let order := shared_rows published target in
  let ranks := omap (λ r, row_position order (row_item_id r)) published in
  kept ← longest_increasing ranks (length order);
  if forallb id kept then Ok (published, [])
  else
    let deleted_batch := delete_batch batch max_bytes in
    st ← try_fold (move_step order kept batch max_ops deleted_batch max_bytes) (mkMoves MoveUnit_default published [])
           (imap pair order);
    if (0 <? mu_moved (mv_unit st))%nat then
      flushed ← flush_moves (mv_unit st) (mv_rows st) deleted_batch (2 <=? max_ops)%nat;
      Ok (flushed.1, mv_plan st ++ flushed.2)
    else Ok (mv_rows st, mv_plan st).
End refresh.
