(* ===== verification/SrtopCommit.v ===== *)
(** * srtop: publishing a plan

    Models the publishing half of [apps/srtop/src/refresh.rs]: a plan commits as a
    series of transactions of the session, each recorded in the view as it commits;
    and the operations of [ProcessView] that plan and commit.  What a summary, a
    status line or a filter query says is text computed elsewhere and an argument. *)

From S2P Require Import Prelude.
From S2P Require Import Values.
From S2P Require Import Limits.
From S2P Require Import Models.
From S2P Require Import Store.
From S2P Require Import Transaction.
From S2P Require Import Wire.
From S2P Require Import Journal.
From S2P Require Import Event.
From S2P Require Import Resources.
From S2P Require Import Session.
From S2P Require Import SrtopData.
From S2P Require Import SrtopMetric.
From S2P Require Import SrtopCatalogue.
From S2P Require Import SrtopSort.
From S2P Require Import SrtopRefresh.

(** ** What the view has published *)

(** [struct Published] *)
Record Published := mkPublished {
  pb_rows : list Row;
  pb_status : string;
  pb_summary : Properties;
  pb_sort : option SortOrder;
  pb_filter_status : string;
  pb_columns : ColumnLayout;
}.
Definition with_rows (p : Published) (rows : list Row) : Published :=
  mkPublished rows (pb_status p) (pb_summary p) (pb_sort p) (pb_filter_status p) (pb_columns p).

(** What [Effect::record] does to the rows. *)
Definition updated_by (updated : list Row) (row : Row) : Row :=
  match last_row updated (row_item_id row) with
  | Some update => mkRow (row_key row) (row_item_id row) (row_cells update) (row_value update) (row_sort update) (row_display_name row)
  | None => row
  end.
Definition record_rows (e : Effect) (rows : list Row) : list Row :=
  match e with
  | EffDelete ids => filter (λ row, row_item_id row ∉ ids) rows
  | EffInsert index inserted =>
      let at_ := Nat.min (N.to_nat index) (length rows) in
      take at_ rows ++ inserted ++ drop at_ rows
  | EffUpdate updated => updated_by updated <$> rows
  | _ => rows
  end.

(** [Effect::record] *)
Definition record (e : Effect) (p : Published) : Published :=
  match e with
  | EffStatus text => mkPublished (pb_rows p) text (pb_summary p) (pb_sort p) (pb_filter_status p) (pb_columns p)
  | EffFilterStatus text => mkPublished (pb_rows p) (pb_status p) (pb_summary p) (pb_sort p) text (pb_columns p)
  | EffFilterValue _ | EffChooserLabel _ _ | EffChooserEnabled _ _ => p
  | EffColumns layout =>
      mkPublished (pb_rows p) (pb_status p) (pb_summary p) (pb_sort p) (pb_filter_status p) layout
  | EffSummary change =>
      let key := (ch_node change, ch_property change) in
      mkPublished (pb_rows p) (pb_status p)
        (match ch_value change with Some v => <[key := v]> (pb_summary p) | None => delete key (pb_summary p) end)
        (pb_sort p) (pb_filter_status p) (pb_columns p)
  | EffSortLabel _ _ activates =>
      mkPublished (pb_rows p) (pb_status p) (pb_summary p)
        (match activates with Some order => Some order | None => pb_sort p end) (pb_filter_status p) (pb_columns p)
  | EffDelete _ | EffInsert _ _ | EffUpdate _ => with_rows p (record_rows e (pb_rows p))
  end.

(** [insert_run]: one pass over the rows for a run of insertions. *)
Fixpoint insert_pass (inserts : list (N * list Row)) (merged remaining : list Row) : list Row :=
  match inserts with
  | [] => merged ++ remaining
  | (index, inserted) :: inserts =>
      let n := N.to_nat index - length merged in
      insert_pass inserts (merged ++ take n remaining ++ inserted) (drop n remaining)
  end.
Definition insert_run (rows : list Row) (inserts : list (N * list Row)) : list Row := insert_pass inserts [] rows.

(** The run of insertions at the head of a chunk, whose indices ascend past the
    rows inserted before them, and what follows it. *)
Fixpoint insertion_run (floor : N) (chunk : list Planned) : list (N * list Row) * list Planned :=
  match chunk with
  | planned :: rest =>
      match pl_effect planned with
      | EffInsert at_ rows =>
          if (at_ <? floor)%N then ([], chunk)
          else let '(run, rest') := insertion_run (at_ + len rows) rest in ((at_, rows) :: run, rest')
      | _ => ([], chunk)
      end
  | [] => ([], [])
  end.

(** [record_committed] *)
Fixpoint record_committed (fuel : nat) (chunk : list Planned) (p : Published) : result Empty_set Published :=
  match fuel with
  | O => match chunk with [] => Ok p | _ => Diverge end
  | S fuel =>
      match chunk with
      | [] => Ok p
      | planned :: rest =>
          match pl_effect planned with
          | EffInsert _ _ =>
              let '(run, rest') := insertion_run 0 chunk in
              record_committed fuel rest' (with_rows p (insert_run (pb_rows p) run))
          | e => record_committed fuel rest (record e p)
          end
      end
  end.

(** ** Committing *)

(** The first loop of [commit]: how many operations fit the transaction. *)
Fixpoint fitting (max_ops : nat) (max_bytes bytes : N) (first : bool) (plan : list Planned) : nat :=
  match max_ops, plan with
  | S max_ops, planned :: plan =>
      if negb first && (max_bytes <? bytes + pl_bytes planned)%N then 0
      else S (fitting max_ops max_bytes (bytes + pl_bytes planned) false plan)
  | _, _ => 0
  end.
(** Whether operation [i] is joined to the one after it. *)
Definition joins (plan : list Planned) (i : nat) : bool :=
  match plan !! i with Some planned => pl_joins_next planned | None => false end.
(** [while cut > start && plan[cut - 1].joins_next { cut -= 1 }] *)
Fixpoint cut_back (plan : list Planned) (cut : nat) : nat :=
  match cut with
  | O => O
  | S cut' => if joins plan cut' then cut_back plan cut' else cut
  end.
(** [while end < plan.len() && plan[end - 1].joins_next { end += 1 }] *)
Fixpoint cut_forward (fuel : nat) (plan : list Planned) (stop : nat) : nat :=
  match fuel with
  | O => stop
  | S fuel => if (stop <? length plan)%nat && joins plan (Nat.pred stop) then cut_forward fuel plan (S stop) else stop
  end.
(** Where the transaction that starts a plan ends. *)
Definition chunk_end (max_ops : nat) (max_bytes : N) (plan : list Planned) : nat :=
  let stop := fitting max_ops max_bytes 0 true plan in
  if (stop <? length plan)%nat && joins plan (Nat.pred stop) then
    let cut := cut_back plan stop in
    if (0 <? cut)%nat then cut else cut_forward (length plan) plan stop
  else stop.

Section commit.
Context `{Registry, EventRegistry, PropertyIter, Diagnostics, Digest, SdkProperties}.

(** [commit]: the session and the view it leaves, how many transactions committed
    and the outcome.  Every transaction takes an operation at least. *)
Fixpoint commit (fuel : nat) (s : SessionInner) (plan : list Planned) (max_ops : nat) (max_bytes : N) (p : Published)
    : SessionInner * Published * nat * result SessionError unit :=
  match plan, fuel with
  | [], _ => (s, p, 0, Ok tt)
  | _ :: _, O => (s, p, 0, Diverge)
  | _ :: _, S fuel =>
      let stop := chunk_end max_ops max_bytes plan in
      let chunk := take stop plan in
      match transaction_with_result s (λ ui _, ui_run ui (pl_op <$> chunk)) with
      | Ok (s', _) =>
          match record_committed (length chunk) chunk p with
          | Ok p' =>
              let '(s2, p2, committed, r) := commit fuel s' (drop stop plan) max_ops max_bytes p' in
              (s2, p2, S committed, r)
          | _ => (s', p, 1, Diverge)
          end
      | Err e => (s, p, 0, Err e)
      | Panic => (s, p, 0, Panic)
      | Diverge => (s, p, 0, Diverge)
      end
  end.
Definition commit_plan (s : SessionInner) (plan : list Planned) (max_ops : nat) (max_bytes : N) (p : Published)
    : SessionInner * Published * nat * result SessionError unit :=
  commit (length plan) s plan max_ops max_bytes p.

(** [mutation_limits] *)
Definition mutation_limits (s : SessionInner) : nat * nat :=
  let l := limits (store s) in
  (N.to_nat (N.min (N.max (max_items_per_model_operation l) 1) DEFAULT_MAX_ITEMS_PER_MODEL_OPERATION),
   N.to_nat (N.max (max_transaction_operations l) 1)).

(** ** The view *)

(** [struct ProcessView] as far as the rows depend on it: what is published, every
    row known, and the ceiling on rows. *)
Record ProcessView := mkView { vw_published : Published; vw_unfiltered : list Row; vw_limit : nat }.

(** What [apply], [commit_filter] and [set_sort] publish once the head of the plan
    and the target rows are chosen: the moves, then (except for a sort) the difference. *)
Definition row_plan (s : SessionInner) (rows target : list Row) (with_diff : bool) : result Empty_set (list Planned) :=
  let '(batch, max_ops) := mutation_limits s in
  moved ← plan_moves rows target batch max_ops MAX_TRANSACTION_PAYLOAD_BYTES;
  Ok (moved.2 ++ if with_diff then diff moved.1 target batch MAX_TRANSACTION_PAYLOAD_BYTES else []).
Definition publish (s : SessionInner) (p : Published) (head : list Planned) (target : list Row) (with_diff : bool)
    : SessionInner * Published * nat * result SessionError unit :=
  match row_plan s (pb_rows p) target with_diff with
  | Ok plan =>
      let '(s', p', committed, r) :=
        commit_plan s (head ++ plan) (mutation_limits s).2 MAX_TRANSACTION_PAYLOAD_BYTES p in
      (s', with_rows p' (refresh_sort_values (pb_rows p') target), committed, r)
  | Panic => (s, p, 0, Panic)
  | _ => (s, p, 0, Diverge)
  end.

(** [ProcessView::set_sort], for the filter that [matches] rows. *)
Definition sort_head (active : option SortOrder) (order : SortOrder) : list Planned :=
  match active with
  | Some previous =>
      if decide (so_field previous = so_field order) then []
      else [Planned_new (EffSortLabel (sort_button_of (so_field previous)) (sort_button_label (so_field previous) None) None)]
  | None => []
  end ++
  [Planned_new (EffSortLabel (sort_button_of (so_field order))
     (sort_button_label (so_field order) (Some (so_direction order))) (Some order))].
Definition set_sort (s : SessionInner) (v : ProcessView) (matches : Row → bool) (order : SortOrder)
    : SessionInner * ProcessView * nat * result SessionError unit :=
  let p := vw_published v in
  if decide (pb_sort p = Some order) then (s, v, 0, Ok tt)
  else
    let unfiltered := sort_by (compare order) (vw_unfiltered v) in
    let target := (project_visible_rows matches unfiltered (vw_limit v)).1.1 in
    let '(s', p', committed, r) := publish s p (sort_head (pb_sort p) order) target false in
    (s', mkView p' unfiltered (vw_limit v), committed, r).
Definition click_sort (s : SessionInner) (v : ProcessView) (matches : Row → bool) (field : ProcessField)
    : SessionInner * ProcessView * nat * result SessionError unit :=
  set_sort s v matches (resolve (pb_sort (vw_published v)) field).

(** [ProcessView::apply] from the rows a scan confirmed: [head] are the planned
    changes of the status, the filter status and the summary. *)
Definition apply_target (v : ProcessView) (confirmed : list Row) (retention : Retention) : list Row :=
  let merged := retain_unconfirmed (vw_unfiltered v) confirmed retention in
  let ordered := match pb_sort (vw_published v) with Some order => sort_by (compare order) merged | None => merged end in
  (evict_unconfirmed_beyond ordered (list_to_set (ids_of confirmed)) (vw_limit v)).1.
Definition apply_snapshot (s : SessionInner) (v : ProcessView) (matches : Row → bool) (head : list Planned)
    (confirmed : list Row) (retention : Retention) : SessionInner * ProcessView * nat * result SessionError unit :=
  if bool_decide (confirmed = []) && is_global retention then
    let '(s', p', committed, r) :=
      commit_plan s head (N.to_nat (N.max (max_transaction_operations (limits (store s))) 1))
        MAX_TRANSACTION_PAYLOAD_BYTES (vw_published v) in
    (s', mkView p' (vw_unfiltered v) (vw_limit v), committed, r)
  else
    let unfiltered := apply_target v confirmed retention in
    let target := (project_visible_rows matches unfiltered (vw_limit v)).1.1 in
    let '(s', p', committed, r) := publish s (vw_published v) head target true in
    (s', mkView p' unfiltered (vw_limit v), committed, r).
End commit.
