(* ===== verification/SrtopViewOps.v ===== *)
(** * srtop: the columns, the filter and the summary of a view

    Models the rest of [ProcessView] of [apps/srtop/src/refresh.rs] and
    [summary::changes]: a layout is published in place, a filter is staged under a
    generation and committed under the same one, and a summary is published as the
    properties that changed.  What a query is, which rows it matches and what the
    status lines say is [apps/srtop/src/filter.rs], an argument here. *)

From S2P Require Import Prelude.
From S2P Require Import Values.
From S2P Require Import Limits.
From S2P Require Import Models.
From S2P Require Import Store.
From S2P Require Import Transaction.
From S2P Require Import Wire.
From S2P Require Import Journal.
From S2P Require Import Event.
From S2P Require Import Resources.
From S2P Require Import Session.
From S2P Require Import SrtopData.
From S2P Require Import SrtopMetric.
From S2P Require Import SrtopCatalogue.
From S2P Require Import SrtopSort.
From S2P Require Import SrtopRefresh.
From S2P Require Import SrtopCommit.

(** ** The summary *)

(** The order of [(NodeId, PropertyRef)] *)
Definition change_compare (a b : Change) : comparison :=
  then_with (N.compare (NodeId_get (ch_node a)) (NodeId_get (ch_node b)))
    (then_with (N.compare (prop_namespace_id (ch_property a)) (prop_namespace_id (ch_property b)))
      (N.compare (prop_local_id (ch_property a)) (prop_local_id (ch_property b)))).

(** [summary::changes] *)
Definition property_set (published : Properties) (entry : (NodeId * PropertyRef) * Value) : bool :=
  negb (match published !! entry.1 with Some old => value_eqb old entry.2 | None => false end).
Definition set_changes (published target : Properties) : list Change :=
  (λ entry : (NodeId * PropertyRef) * Value, mkChange entry.1.1 entry.1.2 (Some entry.2)) <$>
    filter (λ entry, property_set published entry = true) (map_to_list target).
Definition clear_changes (published target : Properties) : list Change :=
  (λ entry : (NodeId * PropertyRef) * Value, mkChange entry.1.1 entry.1.2 None) <$>
    filter (λ entry : (NodeId * PropertyRef) * Value, target !! entry.1 = None) (map_to_list published).
Definition changes (published target : Properties) : list Change :=
  sort_by change_compare (set_changes published target ++ clear_changes published target).

(** What [filter.rs] gives the view: queries, the rows they match and the lines that
    report them. *)
Class FilterQueries := {
  FilterQuery : Type;
  query_parse : string → FilterQuery;
  query_raw : FilterQuery → string;
  query_is_empty : FilterQuery → bool;
  matches_row : FilterQuery → Row → bool;
  format_pending_status : FilterQuery → N → N → nat → nat → string;
  format_committed_status : FilterQuery → N → nat → nat → nat → string;
}.

(** [struct PendingFilter], and the filter's part of [struct ProcessView] *)
Record PendingFilter `{FilterQueries} := mkPending { pf_generation : N; pf_query : FilterQuery }.
Record FilterState `{FilterQueries} := mkFilter {
  committed_filter : FilterQuery;
  committed_generation : N;
  filter_generation : N;
  pending_filter : option PendingFilter;
}.

Section ops.
Context `{Registry, EventRegistry, PropertyIter, Diagnostics, Digest, SdkProperties}.

(** [summary_effects] *)
Definition summary_effects (published target : Properties) : list Planned :=
  (λ change, Planned_new (EffSummary change)) <$> changes published target.

(** ** The columns *)

(** The chooser buttons whose label or enablement a layout changes. *)
Definition chooser_change (old layout : ColumnLayout) (button : NodeId * ColumnAction) : list Planned :=
  let '(node, action) := button in
  (if bool_decide (column_action_label action layout = column_action_label action old) then []
   else [Planned_new (EffChooserLabel node (column_action_label action layout))]) ++
  (if Bool.eqb (column_action_enabled action layout) (column_action_enabled action old) then []
   else [Planned_new (EffChooserEnabled node (column_action_enabled action layout))]).
Definition chooser_ops (old layout : ColumnLayout) : list Planned :=
  concat (chooser_change old layout <$> COLUMN_CHOOSER_BUTTONS).
Definition layout_ops (old layout : ColumnLayout) (rows target : list Row) (batch : nat) : list Planned :=
  Planned_new (EffColumns layout) :: chooser_ops old layout ++ diff rows target batch MAX_TRANSACTION_PAYLOAD_BYTES.
(** The whole change in one transaction, when it fits one. *)
Definition layout_plan (old layout : ColumnLayout) (rows target : list Row) (batch max_ops : nat) : list Planned :=
  let plan := layout_ops old layout rows target batch in
  if (length plan <=? max_ops)%nat && (sum_bytes pl_bytes plan <=? MAX_TRANSACTION_PAYLOAD_BYTES)%N
  then imap (λ i planned, if (i + 1 <? length plan)%nat then joined planned else planned) plan
  else plan.

(** [ProcessView::publish_layout]; a row too short for the layout panics. *)
Definition publish_layout (s : SessionInner) (v : ProcessView) (layout : ColumnLayout)
    : SessionInner * ProcessView * nat * result SessionError unit :=
  let p := vw_published v in
  if decide (layout = pb_columns p) then (s, v, 0, Ok tt)
  else
    match mapM (λ row, laid_out row layout) (pb_rows p) with
    | Some target =>
        let '(batch, max_ops) := mutation_limits s in
        let '(s', p', committed, r) :=
          commit_plan s (layout_plan (pb_columns p) layout (pb_rows p) target batch max_ops) max_ops
            MAX_TRANSACTION_PAYLOAD_BYTES p in
        match mapM (λ row, laid_out row (pb_columns p')) (vw_unfiltered v) with
        | Some unfiltered => (s', mkView p' unfiltered (vw_limit v), committed, r)
        | None => (s', mkView p' (vw_unfiltered v) (vw_limit v), committed, Panic)
        end
    | None => (s, v, 0, Panic)
    end.

(** [ProcessView::click_column], [set_columns] and [restore_default_columns] *)
Definition click_column (s : SessionInner) (v : ProcessView) (action : ColumnAction)
    : SessionInner * ProcessView * nat * result SessionError unit :=
  match column_action_apply action (pb_columns (vw_published v)) with
  | Some layout => publish_layout s v layout
  | None => (s, v, 0, Panic)
  end.
Inductive ColumnsError := ColumnsLayout (e : LayoutError) | ColumnsSession (e : SessionError).
Definition set_columns (s : SessionInner) (v : ProcessView) (fields : list ProcessField)
    : SessionInner * ProcessView * nat * result ColumnsError unit :=
  match ColumnLayout_new fields with
  | Ok layout =>
      let '(s', v', committed, r) := publish_layout s v layout in (s', v', committed, map_err ColumnsSession r)
  | Err e => (s, v, 0, Err (ColumnsLayout e))
  | Panic => (s, v, 0, Panic)
  | Diverge => (s, v, 0, Diverge)
  end.
Definition restore_default_columns (s : SessionInner) (v : ProcessView)
    : SessionInner * ProcessView * nat * result SessionError unit := publish_layout s v layout_default.

(** ** The filter *)

Context `{FilterQueries}.

(** [ProcessView::stage_filter] *)
Definition stage_filter (s : SessionInner) (v : ProcessView) (f : FilterState) (query : string)
    : SessionInner * ProcessView * FilterState * result SessionError N :=
  let p := vw_published v in
  let next_gen := saturating_add64 (filter_generation f) 1 in
  let pending := mkPending _ next_gen (query_parse query) in
  let f' := mkFilter _ (committed_filter f) (committed_generation f) next_gen (Some pending) in
  let pending_status :=
    format_pending_status (pf_query pending) next_gen (committed_generation f) (length (pb_rows p)) (length (vw_unfiltered v)) in
  if bool_decide (pending_status = pb_filter_status p) then (s, v, f', Ok next_gen)
  else
    let '(s', p', _, r) :=
      commit_plan s [Planned_new (EffFilterStatus pending_status)]
        (N.to_nat (N.max (max_transaction_operations (limits (store s))) 1)) MAX_TRANSACTION_PAYLOAD_BYTES p in
    (s', mkView p' (vw_unfiltered v) (vw_limit v), f', r ≫= λ _, Ok next_gen).

(** The text the filter input holds. *)
Definition current_input (s : SessionInner) : string :=
  match nodes (store s) !! FILTER_INPUT ≫= λ n, get_property n PROP_VALUE with
  | Some (VString text) => text
  | _ => ""
  end.

(** The part of [commit_filter] once a query is taken; [summarize] is what the
    summary says for a count of matches. *)
Definition commit_query (s : SessionInner) (v : ProcessView) (summarize : option nat → Properties) (generation : N)
    (query : FilterQuery) : SessionInner * ProcessView * nat * result SessionError unit :=
  let p := vw_published v in
  let '(target, matched, _) := project_visible_rows (matches_row query) (vw_unfiltered v) (vw_limit v) in
  let summary := summarize (if query_is_empty query then None else Some matched) in
  let new_filter_status :=
    format_committed_status query generation (length target) matched (length (vw_unfiltered v)) in
  let head :=
    (if bool_decide (current_input s = query_raw query) then [] else [Planned_new (EffFilterValue (query_raw query))]) ++
    (if bool_decide (new_filter_status = pb_filter_status p) then [] else [Planned_new (EffFilterStatus new_filter_status)]) ++
    summary_effects (pb_summary p) summary in
  let '(s', p', committed, r) := publish s p head target true in
  (s', mkView p' (vw_unfiltered v) (vw_limit v), committed, r).

(** [ProcessView::commit_filter]: a generation that is not the pending one changes
    nothing. *)
Definition commit_filter (s : SessionInner) (v : ProcessView) (f : FilterState) (summarize : option nat → Properties)
    (generation : N) : SessionInner * ProcessView * FilterState * result SessionError unit :=
  if (generation <? committed_generation f)%N then (s, v, f, Ok tt)
  else
    match pending_filter f with
    | Some pending =>
        if (pf_generation pending =? generation)%N then
          let f' := mkFilter _ (pf_query pending) generation (filter_generation f) None in
          let '(s', v', _, r) := commit_query s v summarize generation (pf_query pending) in (s', v', f', r)
        else (s, v, f, Ok tt)
    | None => (s, v, f, Ok tt)
    end.

(** [ProcessView::set_filter], which [handle_client_text_edit] is *)
Definition set_filter (s : SessionInner) (v : ProcessView) (f : FilterState) (summarize : option nat → Properties)
    (query : string) : SessionInner * ProcessView * FilterState * result SessionError unit :=
  let '(s1, v1, f1, r) := stage_filter s v f query in
  match r with
  | Ok generation => commit_filter s1 v1 f1 summarize generation
  | Err e => (s1, v1, f1, Err e)
  | Panic => (s1, v1, f1, Panic)
  | Diverge => (s1, v1, f1, Diverge)
  end.
End ops.
