(* ===== verification/SrtopFilter.v ===== *)
(** * srtop: the queries of the filter

    Models [apps/srtop/src/filter.rs]: a query is bounded and made inert, split into
    terms, and matched without regard to case against the name and the command of a
    process.  [char::to_lowercase] is a table of the standard library and a
    parameter; a [String] a query works on is its characters. *)

From Stdlib Require Import Ascii String ZifyBool.
From S2P Require Import Prelude.
From S2P Require Import SrtopData.
From S2P Require Import SrtopSort.
From S2P Require Import SrtopViewOps.
From S2P Require Import SrtopText.

#[local] Open Scope N_scope.

(** What [char::to_lowercase] documents of the table: the ASCII letters. *)
Definition ascii_lowercase (c : N) : N := if within c 65 90 then c + 32 else c.
Class LowercaseTable := {
  to_lowercase : N → list N;
  to_lowercase_ascii c : c < 128 → to_lowercase c = [ascii_lowercase c];
}.

Definition MAX_FILTER_QUERY_BYTES : nat := 512.
Definition MAX_FILTER_TERMS : nat := 16.

(** [struct FilterTerm] and [struct FilterQuery] *)
Record FilterTerm := mkTerm { tm_display : list N; tm_folded : list N }.
Record Query := mkQuery {
  qu_raw : list N;
  qu_terms : list FilterTerm;
  qu_truncated_bytes : bool;
  qu_omitted_terms : nat;
}.

(** ** Parsing *)

(** [str::is_char_boundary], and the last boundary not after an index. *)
Definition is_char_boundary (bytes : list N) (i : nat) : bool :=
  (i =? 0)%nat || match bytes !! i with Some b => negb (continuation b) | None => (i =? length bytes)%nat end.
Fixpoint floor_boundary (bytes : list N) (i : nat) : nat :=
  match i with
  | O => O
  | S i' => if is_char_boundary bytes i then i else floor_boundary bytes i'
  end.

(** [sanitize_query] *)
Definition is_bar (c : N) : bool := c =? 124.
Definition inert (c : N) : N :=
  if is_bar c then 124 else if is_space_separator c || is_unsafe c || is_control c then 32 else c.
Definition sanitize_query (raw : list N) : list N * bool :=
  let truncated := (MAX_FILTER_QUERY_BYTES <? length raw)%nat in
  let stop := if truncated then floor_boundary raw MAX_FILTER_QUERY_BYTES else length raw in
  (inert <$> from_utf8_lossy (take stop raw), truncated).

(** [collapse_whitespace] *)
Fixpoint collapse_loop (in_whitespace : bool) (chars : list N) : list N :=
  match chars with
  | [] => []
  | c :: rest =>
      if is_whitespace c then if in_whitespace then collapse_loop true rest else 32 :: collapse_loop true rest
      else c :: collapse_loop false rest
  end.
Definition collapse_whitespace : list N → list N := collapse_loop false.

Section queries.
Context `{LowercaseTable}.

(** [fold_case] *)
Definition fold_case (chars : list N) : list N := chars ≫= to_lowercase.

(** One segment of [FilterQuery::parse], and the whole. *)
Definition parse_segment (st : list FilterTerm * nat) (segment : list N) : list FilterTerm * nat :=
  let '(terms, omitted) := st in
  match trim_chars segment with
  | [] => st
  | trimmed =>
      match collapse_whitespace trimmed with
      | [] => st
      | collapsed =>
          if (length terms <? MAX_FILTER_TERMS)%nat
          then (terms ++ [mkTerm collapsed (fold_case collapsed)], omitted)
          else (terms, S omitted)
      end
  end.
Definition FilterQuery_parse (raw : string) : Query :=
  let '(sanitized, truncated_bytes) := sanitize_query (bytes_of_string raw) in
  let '(terms, omitted_terms) := foldl parse_segment ([], 0%nat) (split_on is_bar sanitized) in
  mkQuery sanitized terms truncated_bytes omitted_terms.
Definition FilterQuery_is_empty (q : Query) : bool := bool_decide (length (qu_terms q) = 0%nat).

(** ** Matching *)

(** [str::contains] *)
Fixpoint starts_with (needle chars : list N) : bool :=
  match needle, chars with
  | [], _ => true
  | n :: needle, c :: chars => (n =? c) && starts_with needle chars
  | _ :: _, [] => false
  end.
Fixpoint contains (needle chars : list N) : bool :=
  starts_with needle chars || match chars with [] => false | _ :: chars => contains needle chars end.

(** [matches_name_and_command] and [matches_row] *)
Definition matches_name_and_command (q : Query) (name : string) (command : option string) : bool :=
  FilterQuery_is_empty q ||
  (let folded_name := fold_case (chars_of_string name) in
   let folded_cmd := (λ c, fold_case (chars_of_string c)) <$> command in
   existsb (λ term, contains (tm_folded term) folded_name ||
     match folded_cmd with Some cmd => contains (tm_folded term) cmd | None => false end) (qu_terms q)).
Definition query_matches_row (q : Query) (row : Row) : bool :=
  matches_name_and_command q (dn_text (row_display_name row)) (dn_command (row_display_name row)).

(** ** The status lines *)

Definition QUOTE : string := String (ascii_of_nat 34) EmptyString.
Definition quoted (term : FilterTerm) : string := QUOTE +:+ string_of_chars (tm_display term) +:+ QUOTE.
Definition terms_display (q : Query) : string := String.concat " | " (quoted <$> qu_terms q).
Definition pending_status (q : Query) (generation committed_generation : N) (shown total : nat) : string :=
  "Filter pending (gen " +:+ pretty generation +:+ "): " +:+
  (if FilterQuery_is_empty q then "none" else terms_display q) +:+
  " · showing committed gen " +:+ pretty committed_generation +:+ " (" +:+ pretty (N.of_nat shown) +:+ " of " +:+
  pretty (N.of_nat total) +:+ " rows)".
Definition committed_status (q : Query) (generation : N) (shown matched total : nat) : string :=
  if FilterQuery_is_empty q then
    if generation =? 0 then
      if (shown =? 0)%nat then "Filter: none · 0 rows"
      else "Filter: none · showing all " +:+ pretty (N.of_nat shown) +:+ " rows"
    else "Committed filter (gen " +:+ pretty generation +:+ "): none · showing all " +:+ pretty (N.of_nat shown) +:+ " rows"
  else
    "Committed filter (gen " +:+ pretty generation +:+ "): " +:+ terms_display q +:+ " · " +:+ pretty (N.of_nat matched) +:+
    " of " +:+ pretty (N.of_nat total) +:+ " rows matched" +:+
    (if (shown <? matched)%nat then " (" +:+ pretty (N.of_nat shown) +:+ " shown)" else "") +:+
    (if qu_truncated_bytes q || (0 <? qu_omitted_terms q)%nat then " · query bounded" else "").

#[export] Instance srtop_queries : FilterQueries := {|
  FilterQuery := Query; query_parse := FilterQuery_parse; query_raw q := string_of_chars (qu_raw q);
  query_is_empty := FilterQuery_is_empty; matches_row := query_matches_row;
  format_pending_status := pending_status; format_committed_status := committed_status |}.
End queries.

(** A table of the ASCII letters alone. *)
Definition ascii_table : LowercaseTable.
Proof. refine {| to_lowercase c := [ascii_lowercase c] |}. done. Defined.
Example parse_ex : let q := @FilterQuery_parse ascii_table " SSHD  -d |  | bash" in
  string_of_chars <$> (tm_folded <$> qu_terms q) = ["sshd -d"; "bash"]%string ∧
  @matches_name_and_command ascii_table q "Sshd" (Some "/usr/bin/sshd -D"%string) = true ∧
  committed_status q 2 1 1 3 = "Committed filter (gen 2): " +:+ QUOTE +:+ "SSHD -d" +:+ QUOTE +:+ " | " +:+ QUOTE +:+ "bash" +:+ QUOTE +:+ " · 1 of 3 rows matched".
Proof. vm_compute. split_and!; reflexivity. Qed.

(** ** A query is bounded *)

#[local] Ltac Zify.zify_post_hook ::= Z.to_euclidean_division_equations.

Lemma continuation_digit x : continuation (128 + x mod 64) = true.
Proof. unfold continuation, within. lia. Qed.
Lemma encode_cons c : ∃ b tl, encode_utf8 c = b :: tl ∧ continuation b = false ∧ Forall (λ b, continuation b = true) tl.
Proof.
  unfold encode_utf8. repeat case_match; eexists _, _; (split; [done|]);
    (split; [unfold continuation, within; lia|repeat constructor; apply continuation_digit]).
Qed.

(** Where the encoding of characters may be cut. *)
Lemma boundary_prefix chars i : (i ≤ length (encode_chars chars))%nat → is_char_boundary (encode_chars chars) i = true →
  ∃ k, take i (encode_chars chars) = encode_chars (take k chars).
Proof.
  unfold encode_chars. revert i. induction chars as [|c chars IH]; intros i Hi Hb.
  { exists 0%nat. by destruct i. }
  destruct (encode_cons c) as (b & tl & Hc & _ & Htl). cbn [fmap list_fmap concat] in *.
  destruct (decide (i < length (encode_utf8 c))%nat) as [Hlt|Hge].
  - destruct i as [|i]; [by exists 0%nat|exfalso]. unfold is_char_boundary in Hb. cbn [Nat.eqb orb] in Hb.
    rewrite lookup_app_l in Hb by done. rewrite Hc in Hlt, Hb. cbn in Hlt. cbn [lookup list_lookup] in Hb.
    destruct (lookup_lt_is_Some_2 tl i) as [b' Hb']; [lia|]. change (tl !! i) with (tl !! i) in Hb. rewrite Hb' in Hb.
    by rewrite (Forall_lookup_1 _ _ _ _ Htl Hb') in Hb.
  - rewrite length_app in Hi. destruct (IH (i - length (encode_utf8 c))%nat) as [k Hk]; [lia| |].
    + unfold is_char_boundary in Hb |- *. rewrite lookup_app_r in Hb by lia. rewrite length_app in Hb.
      destruct (decide (i = length (encode_utf8 c))) as [->|Hne]; [by rewrite Nat.sub_diag|].
      assert ((i =? 0)%nat = false) as Hz by lia. assert ((i - length (encode_utf8 c) =? 0)%nat = false) as Hz' by lia.
      rewrite Hz in Hb. rewrite Hz'. cbn [orb] in Hb |- *. destruct (_ !! _); [done|]. lia.
    + exists (S k). cbn [take fmap list_fmap concat]. rewrite take_app. rewrite take_ge by lia. by rewrite Hk.
Qed.
Lemma floor_boundary_spec bytes i : (i < length bytes)%nat → (floor_boundary bytes i ≤ i)%nat ∧ is_char_boundary bytes (floor_boundary bytes i) = true.
Proof.
  induction i as [|i IH]; intros Hi; cbn [floor_boundary]; [done|]. destruct (is_char_boundary bytes (S i)) eqn:Hb; [done|].
  destruct IH as [? ?]; [lia|]. split; [lia|done].
Qed.

Definition valid_text (chars : list N) : Prop := Forall (λ c, scalar c = true) chars.
Lemma inert_scalar c : scalar c = true → scalar (inert c) = true.
Proof. unfold inert. by repeat case_match. Qed.
Lemma inert_len c : len_utf8 (inert c) ≤ len_utf8 c.
Proof.
  assert (1 ≤ len_utf8 c) by (destruct (encode_cons c) as (b & tl & Hc & _); unfold len_utf8, len; rewrite Hc; cbn [length]; lia).
  unfold inert. repeat case_match; [by change (len_utf8 124) with 1|by change (len_utf8 32) with 1|done].
Qed.
Lemma inert_chars_len chars : len (encode_chars (inert <$> chars)) ≤ len (encode_chars chars).
Proof.
  unfold encode_chars. induction chars as [|c chars IH]; [done|]. cbn [fmap list_fmap concat]. rewrite !len_app.
  pose proof (inert_len c). unfold len_utf8 in *. lia.
Qed.
(** An inert character is safe, and stays what it is. *)
Lemma inert_safe c : scalar c = true → safe_char (inert c).
Proof.
  intros Hc. unfold inert. destruct (is_bar c); [by split_and!|]. pose proof (clean_safe c Hc) as Hs. unfold clean_char in Hs.
  destruct (is_space_separator c); [exact Hs|]. cbn [orb]. destruct (is_unsafe c); [by split_and!|]. cbn [orb].
  destruct (is_control c); [by split_and!|exact Hs].
Qed.
Lemma inert_id c : safe_char c → inert c = c.
Proof.
  intros Hs. pose proof (clean_id c Hs) as Hid. destruct Hs as (_ & Hu & _). rewrite <- is_unsafe_forbidden in Hu. unfold inert, is_bar. destruct (N.eqb_spec c 124) as [->|_]; [done|].
  assert (is_control c = false) as -> by (unfold is_unsafe in Hu; by apply orb_false_iff in Hu as [? _]).
  rewrite Hu. unfold clean_char in Hid. rewrite Hu in Hid. by destruct (is_space_separator c).
Qed.

Lemma sanitize_query_spec chars : valid_text chars →
  let '(sanitized, truncated) := sanitize_query (encode_chars chars) in
  Forall safe_char sanitized ∧ (length (encode_chars sanitized) ≤ MAX_FILTER_QUERY_BYTES)%nat ∧
  ∃ k, sanitized = inert <$> take k chars ∧ (truncated = false → take k chars = chars).
Proof.
  intros Hv. unfold sanitize_query.
  assert (∃ k, take (if (MAX_FILTER_QUERY_BYTES <? length (encode_chars chars))%nat then floor_boundary (encode_chars chars) MAX_FILTER_QUERY_BYTES
      else length (encode_chars chars)) (encode_chars chars) = encode_chars (take k chars) ∧
      (length (encode_chars (take k chars)) ≤ MAX_FILTER_QUERY_BYTES)%nat ∧
      ((MAX_FILTER_QUERY_BYTES <? length (encode_chars chars))%nat = false → take k chars = chars)) as (k & -> & Hlen & Hall).
  { destruct (Nat.ltb_spec MAX_FILTER_QUERY_BYTES (length (encode_chars chars))) as [Hlt|Hge].
    - destruct (floor_boundary_spec _ _ Hlt) as [Hle Hb]. destruct (boundary_prefix chars _ ltac:(etrans; [exact Hle|lia]) Hb) as [k Hk].
      exists k. split; [done|]. split; [|done]. rewrite <- Hk, length_take. lia.
    - exists (length chars). rewrite !take_ge by done. done. }
  rewrite from_utf8_lossy_encode by by apply Forall_take.
  split; [|split].
  - apply Forall_fmap. eapply Forall_impl; [apply Forall_take, Hv|]. intros c. apply inert_safe.
  - pose proof (inert_chars_len (take k chars)). unfold len in *. lia.
  - by exists k.
Qed.
Lemma sanitize_query_id chars : Forall safe_char chars → (length (encode_chars chars) ≤ MAX_FILTER_QUERY_BYTES)%nat →
  sanitize_query (encode_chars chars) = (chars, false).
Proof.
  intros Hs Hlen. unfold sanitize_query. rewrite (proj2 (Nat.ltb_ge _ _)) by done.
  rewrite take_ge, from_utf8_lossy_encode by (done || by apply safe_scalar). f_equal.
  clear Hlen. induction Hs as [|c chars Hc _ IH]; [done|]. cbn [fmap list_fmap]. by rewrite inert_id, IH.
Qed.

(** ** The terms of a query *)

(** The text of a segment. *)
Definition segment_text (segment : list N) : list N := collapse_whitespace (trim_chars segment).
Definition segment_texts (chars : list N) : list (list N) := filter (λ t, t ≠ []) (segment_text <$> split_on is_bar chars).

(** Blanks are single spaces, and none at the ends. *)
Fixpoint single_spaced (chars : list N) : bool :=
  match chars with
  | a :: (b :: _) as rest => negb (is_whitespace a && is_whitespace b) && single_spaced rest
  | _ => true
  end.

Lemma collapse_loop_single chars : ∀ w, single_spaced (collapse_loop w chars) = true ∧
  (w = true → ∀ c, head (collapse_loop w chars) = Some c → is_whitespace c = false).
Proof.
  induction chars as [|c chars IH]; intros w; cbn [collapse_loop]; [done|].
  assert (∀ w', single_spaced (collapse_loop w' chars) = true) as Hs by (intros; apply IH). destruct (IH true) as [_ Hh].
  destruct (is_whitespace c) eqn:Hc.
  - destruct w; [split; [apply Hs|by intros _; apply Hh]|]. split; [|done].
    specialize (Hs true). destruct (collapse_loop true chars) as [|d rest]; [done|]. change (negb (is_whitespace 32 && is_whitespace d) && single_spaced (d :: rest) = true). by rewrite (Hh eq_refl d eq_refl), Hs.
  - split; [|by intros _ c' [= <-]]. specialize (Hs false). destruct (collapse_loop false chars); [done|].
    change (negb (is_whitespace c && is_whitespace n) && single_spaced (n :: l) = true). by rewrite Hc, Hs.
Qed.
Lemma collapse_loop_safe chars : Forall safe_char chars → ∀ w, Forall safe_char (collapse_loop w chars).
Proof.
  induction 1 as [|c chars Hc _ IH]; intros w; cbn [collapse_loop]; [done|].
  destruct (is_whitespace c); [destruct w; [done|]|]; (apply Forall_cons_2; [|done]); [by split_and!|exact Hc].
Qed.
Lemma collapse_loop_no_bar chars : Forall (λ c, is_bar c = false) chars → ∀ w, Forall (λ c, is_bar c = false) (collapse_loop w chars).
Proof.
  induction 1 as [|c chars Hc _ IH]; intros w; cbn [collapse_loop]; [done|].
  destruct (is_whitespace c); [destruct w; [done|]|]; (apply Forall_cons_2; done).
Qed.
Lemma collapse_loop_snoc chars d : is_whitespace d = false → ∀ w, collapse_loop w (chars ++ [d]) = collapse_loop w chars ++ [d].
Proof.
  intros Hd. induction chars as [|c chars IH]; intros w; cbn [app collapse_loop]; [by rewrite Hd|].
  rewrite !IH. destruct (is_whitespace c); [by destruct w|done].
Qed.
Lemma collapse_tidy chars : tidy chars → chars ≠ [] → tidy (collapse_whitespace chars) ∧ collapse_whitespace chars ≠ [].
Proof.
  intros [Hh Hl] Hne. unfold collapse_whitespace. split; [split|].
  - destruct chars as [|c chars]; [done|]. cbn [collapse_loop]. rewrite (Hh c eq_refl). intros c' [= <-]. by apply Hh.
  - destruct chars as [|d chars _] using rev_ind; [done|]. rewrite last_snoc in Hl. rewrite collapse_loop_snoc by by apply Hl.
    intros c. rewrite last_snoc. apply Hl.
  - destruct chars as [|c chars]; [done|]. cbn [collapse_loop]. by rewrite (Hh c eq_refl).
Qed.

Section terms.
Context `{LowercaseTable}.

Definition make_term (text : list N) : FilterTerm := mkTerm text (fold_case text).
Lemma parse_segment_eq terms omitted segment : parse_segment (terms, omitted) segment =
  if decide (segment_text segment = []) then (terms, omitted)
  else if (length terms <? MAX_FILTER_TERMS)%nat then (terms ++ [make_term (segment_text segment)], omitted) else (terms, S omitted).
Proof.
  unfold parse_segment, segment_text. destruct (trim_chars segment) as [|c chars] eqn:Ht; [done|].
  by destruct (collapse_whitespace (c :: chars)).
Qed.
Lemma parse_segments segments : ∀ terms,
  foldl parse_segment (take MAX_FILTER_TERMS terms, length terms - MAX_FILTER_TERMS)%nat segments =
    let all := terms ++ (make_term <$> filter (λ t, t ≠ []) (segment_text <$> segments)) in
    (take MAX_FILTER_TERMS all, length all - MAX_FILTER_TERMS)%nat.
Proof.
  induction segments as [|segment segments IH]; intros terms; [cbn; by rewrite app_nil_r|]. cbn [foldl fmap list_fmap].
  rewrite parse_segment_eq. destruct (decide (segment_text segment = [])) as [Hnil|Hne].
  { rewrite filter_cons_False by auto. apply IH. }
  rewrite filter_cons_True by done. cbn [fmap list_fmap]. rewrite (cons_middle _ terms). rewrite (app_assoc terms [_]), <- IH. f_equal.
  rewrite length_take, length_app. cbn [length]. destruct (Nat.ltb_spec (MAX_FILTER_TERMS `min` length terms) MAX_FILTER_TERMS) as [Hlt|Hge].
  - rewrite (take_ge terms), take_ge by (rewrite ?length_app; cbn [length]; lia). f_equal. lia.
  - rewrite take_app_le by lia. f_equal. lia.
Qed.
Lemma parse_spec raw : let q := FilterQuery_parse raw in
  qu_raw q = (sanitize_query (bytes_of_string raw)).1 ∧
  qu_terms q = take MAX_FILTER_TERMS (make_term <$> segment_texts (qu_raw q)) ∧
  qu_omitted_terms q = (length (segment_texts (qu_raw q)) - MAX_FILTER_TERMS)%nat.
Proof.
  unfold FilterQuery_parse. destruct (sanitize_query (bytes_of_string raw)) as [sanitized truncated].
  pose proof (parse_segments (split_on is_bar sanitized) []) as Hp. cbn [take length Nat.sub app] in Hp. rewrite take_nil in Hp.
  change (0 - MAX_FILTER_TERMS)%nat with 0%nat in Hp.
  rewrite Hp. cbn [qu_raw qu_terms qu_omitted_terms fst]. by rewrite length_fmap.
Qed.

(** What every text between two bars is like. *)
Lemma segment_texts_spec chars text : Forall safe_char chars → text ∈ segment_texts chars →
  text ≠ [] ∧ tidy text ∧ single_spaced text = true ∧ Forall safe_char text ∧ Forall (λ c, is_bar c = false) text.
Proof.
  intros Hs [Hne (segment & -> & Hin)%list_elem_of_fmap]%list_elem_of_filter.
  assert (Forall safe_char segment) as Hseg.
  { apply Forall_forall. intros c Hc. rewrite Forall_forall in Hs. apply Hs. by eapply split_on_elem. }
  assert (Forall (λ c, is_bar c = false) segment) as Hbar by (pose proof (split_on_segments is_bar chars) as Hb; rewrite Forall_forall in Hb; by apply Hb).
  assert (Forall (λ c, is_bar c = false) (trim_chars segment)) as Hbar'.
  { destruct (trim_chars_infix segment) as (before & after & Heq). rewrite Heq in Hbar. apply Forall_app in Hbar as [_ Hbar]. by apply Forall_app in Hbar as [? _]. }
  unfold segment_text in *. assert (trim_chars segment ≠ []) as Ht by (intros Hn; rewrite Hn in Hne; done).
  split_and!; [done|by apply collapse_tidy; [apply trim_chars_tidy|]|by apply collapse_loop_single|by apply collapse_loop_safe, trimmed_safe|by apply collapse_loop_no_bar].
Qed.

(** ** What a query matches *)

Lemma starts_with_spec needle chars : starts_with needle chars = true ↔ ∃ after, chars = needle ++ after.
Proof.
  revert chars. induction needle as [|n needle IH]; intros chars; cbn [starts_with]; [split; [by exists chars|done]|].
  destruct chars as [|c chars]; [split; [done|by intros [? ?]]|]. rewrite andb_true_iff, N.eqb_eq, IH. split.
  - intros [-> [after ->]]. by exists after.
  - intros [after [= -> ->]]. split; [done|by exists after].
Qed.
Lemma contains_spec needle chars : contains needle chars = true ↔ ∃ before after, chars = before ++ needle ++ after.
Proof.
  induction chars as [|c chars IH]; cbn [contains]; rewrite orb_true_iff, starts_with_spec.
  - split; [intros [[after Ha]|]; [by exists [], after|done]|]. intros (before & after & Heq). left. destruct before; [|done]. by exists after.
  - rewrite IH. split.
    + intros [[after Ha]|(before & after & ->)]; [by exists [], after|by exists (c :: before), after].
    + intros ([|b before] & after & Heq); [left; by exists after|right]. injection Heq as _ ->. by exists before, after.
Qed.
End terms.

(** ** The case of ASCII letters *)

(** Texts that differ only in the case of ASCII letters. *)
Definition lowered (chars : list N) : list N := ascii_lowercase <$> chars.
Definition same_but_case (a b : string) : Prop := lowered (chars_of_string a) = lowered (chars_of_string b).

(** A character is its own lowercase, or a letter that nothing treats apart. *)
Lemma lowercase_cases c : ascii_lowercase c = c ∨ 65 ≤ c ≤ 90 ∧ ascii_lowercase c = c + 32.
Proof. unfold ascii_lowercase, within. case_match; [right|by left]. lia. Qed.
Lemma lowercase_whitespace c : is_whitespace (ascii_lowercase c) = is_whitespace c.
Proof.
  destruct (lowercase_cases c) as [->|[Hc ->]]; [done|].
  unfold is_whitespace, in_ranges, within. cbn [existsb fst snd]. lia.
Qed.
Lemma lowercase_bar c : is_bar (ascii_lowercase c) = is_bar c.
Proof. destruct (lowercase_cases c) as [->|[Hc ->]]; [done|]. unfold is_bar. lia. Qed.
Lemma letter_inert c : 65 ≤ c ≤ 122 → inert c = c.
Proof.
  intros Hc. apply inert_id. split; [unfold scalar; lia|]. split.
  - unfold in_ranges, FORBIDDEN, CONTROL, FORMAT, DEFAULT_IGNORABLE, LINE_SEPARATOR, EGYPTIAN_FORMAT_CONTROLS, BLANK_GLYPH, within.
    cbn [app existsb fst snd]. lia.
  - unfold is_whitespace, in_ranges, within. cbn [existsb fst snd]. lia.
Qed.
Lemma lowercase_inert c : inert (ascii_lowercase c) = ascii_lowercase (inert c).
Proof.
  destruct (lowercase_cases c) as [Heq|[Hc Heq]]; rewrite Heq.
  - unfold inert. repeat case_match; done.
  - rewrite !letter_inert by lia. by rewrite Heq.
Qed.
Lemma lowercase_encode c : continuation <$> encode_utf8 (ascii_lowercase c) = continuation <$> encode_utf8 c.
Proof.
  destruct (lowercase_cases c) as [->|[Hc ->]]; [done|]. unfold encode_utf8.
  rewrite (proj2 (N.ltb_lt (c + 32) 128)), (proj2 (N.ltb_lt c 128)) by lia. cbn. unfold continuation, within. f_equal. lia.
Qed.

(** So every step of parsing commutes with lowering. *)
Lemma lowered_trim_start chars : trim_start (lowered chars) = lowered (trim_start chars).
Proof.
  induction chars as [|c chars IH]; [done|]. cbn [lowered fmap list_fmap trim_start]. rewrite lowercase_whitespace.
  by destruct (is_whitespace c).
Qed.
Lemma lowered_reverse chars : reverse (lowered chars) = lowered (reverse chars).
Proof. unfold lowered. by rewrite fmap_reverse. Qed.
Lemma lowered_trim chars : trim_chars (lowered chars) = lowered (trim_chars chars).
Proof.
  unfold trim_chars, trim_end. by rewrite lowered_trim_start, lowered_reverse, lowered_trim_start, lowered_reverse.
Qed.
Lemma lowered_collapse chars : ∀ w, collapse_loop w (lowered chars) = lowered (collapse_loop w chars).
Proof.
  induction chars as [|c chars IH]; intros w; [done|]. cbn [lowered fmap list_fmap collapse_loop]. rewrite lowercase_whitespace.
  destruct (is_whitespace c); [destruct w|]; cbn [lowered fmap list_fmap]; by rewrite <- IH.
Qed.
Lemma lowered_split chars : split_on is_bar (lowered chars) = lowered <$> split_on is_bar chars.
Proof.
  induction chars as [|c chars IH]; [done|]. cbn [lowered fmap list_fmap split_on]. fold (lowered chars).
  rewrite IH, lowercase_bar. destruct (split_on is_bar chars) as [|segment segments]; cbn [fmap list_fmap]; [done|].
  by destruct (is_bar c).
Qed.
Lemma lowered_segments chars : segment_texts (lowered chars) = lowered <$> segment_texts chars.
Proof.
  unfold segment_texts. rewrite lowered_split. induction (split_on is_bar chars) as [|segment segments IH]; [done|].
  cbn [fmap list_fmap]. assert (segment_text (lowered segment) = lowered (segment_text segment)) as ->.
  { unfold segment_text, collapse_whitespace. by rewrite lowered_trim, lowered_collapse. }
  destruct (segment_text segment) as [|c text]; cbn [lowered fmap list_fmap].
  - by rewrite !filter_cons_False by auto.
  - rewrite !filter_cons_True by done. cbn [fmap list_fmap]. by rewrite IH.
Qed.

(** Cutting a query depends only on where its characters begin. *)
Lemma boundary_continuation bytes i : is_char_boundary bytes i =
  ((i =? 0)%nat || match (continuation <$> bytes) !! i with Some b => negb b | None => (i =? length (continuation <$> bytes))%nat end).
Proof. unfold is_char_boundary. rewrite list_lookup_fmap, length_fmap. by destruct (bytes !! i). Qed.
Lemma floor_continuation bytes bytes' i : continuation <$> bytes = continuation <$> bytes' →
  floor_boundary bytes i = floor_boundary bytes' i.
Proof.
  intros Heq. induction i as [|i IH]; [done|]. cbn [floor_boundary]. by rewrite !boundary_continuation, Heq, IH.
Qed.
Lemma lowered_encode chars : continuation <$> encode_chars (lowered chars) = continuation <$> encode_chars chars.
Proof.
  unfold encode_chars. induction chars as [|c chars IH]; [done|]. cbn [lowered fmap list_fmap concat].
  rewrite !fmap_app. by rewrite lowercase_encode, <- IH.
Qed.
Lemma lowered_encode_length chars : length (encode_chars (lowered chars)) = length (encode_chars chars).
Proof. rewrite <- (length_fmap continuation), lowered_encode. apply length_fmap. Qed.
Lemma lowered_valid chars : valid_text chars → valid_text (lowered chars).
Proof.
  intros Hv. apply Forall_fmap. eapply Forall_impl; [exact Hv|]. intros c Hc. cbn.
  destruct (lowercase_cases c) as [->|[? ->]]; [done|]. unfold scalar. lia.
Qed.

(** Where a query is cut, and that it is between two characters. *)
Definition query_stop (bytes : list N) : nat :=
  if (MAX_FILTER_QUERY_BYTES <? length bytes)%nat then floor_boundary bytes MAX_FILTER_QUERY_BYTES else length bytes.
Lemma query_stop_prefix chars : (query_stop (encode_chars chars) ≤ length (encode_chars chars))%nat ∧
  ∃ k, take (query_stop (encode_chars chars)) (encode_chars chars) = encode_chars (take k chars).
Proof.
  unfold query_stop. destruct (Nat.ltb_spec MAX_FILTER_QUERY_BYTES (length (encode_chars chars))) as [Hlt|Hge].
  - destruct (floor_boundary_spec _ _ Hlt) as [Hle Hb]. split; [lia|]. apply boundary_prefix; [lia|done].
  - split; [done|]. exists (length chars). by rewrite !take_ge by done.
Qed.
Lemma lowered_sanitize_query chars : valid_text chars →
  (sanitize_query (encode_chars (lowered chars))).1 = lowered (sanitize_query (encode_chars chars)).1.
Proof.
  intros Hv. destruct (query_stop_prefix chars) as [Hle [k Hk]].
  assert (query_stop (encode_chars (lowered chars)) = query_stop (encode_chars chars)) as Hstop.
  { unfold query_stop. rewrite lowered_encode_length. by rewrite (floor_continuation _ _ _ (lowered_encode chars)). }
  change (inert <$> from_utf8_lossy (take (query_stop (encode_chars (lowered chars))) (encode_chars (lowered chars))) =
    lowered (inert <$> from_utf8_lossy (take (query_stop (encode_chars chars)) (encode_chars chars)))).
  rewrite Hstop. assert (take (query_stop (encode_chars chars)) (encode_chars (lowered chars)) = encode_chars (lowered (take k chars))) as ->.
  { rewrite <- (take_drop k chars) at 2. unfold lowered. rewrite fmap_app, encode_chars_app. fold (lowered (take k chars)).
    apply take_app_length'. rewrite lowered_encode_length, <- Hk, length_take. lia. }
  rewrite Hk, !from_utf8_lossy_encode by (try apply lowered_valid; by apply Forall_take).
  unfold lowered. rewrite <- !list_fmap_compose. apply list_fmap_ext. intros _ c _. apply lowercase_inert.
Qed.

Section case.
Context `{LowercaseTable}.

Lemma fold_lowered chars : fold_case (lowered chars) = fold_case chars.
Proof.
  unfold fold_case. induction chars as [|c chars IH]; [done|]. cbn [lowered fmap list_fmap mbind list_bind].
  f_equal; [|exact IH]. destruct (lowercase_cases c) as [->|[Hc Heq]]; [done|]. rewrite Heq, !to_lowercase_ascii, Heq by lia.
  f_equal. unfold ascii_lowercase, within. case_match; [lia|done].
Qed.
Lemma fold_same_case a b : same_but_case a b → fold_case (chars_of_string a) = fold_case (chars_of_string b).
Proof. unfold same_but_case. intros Heq. by rewrite <- fold_lowered, Heq, fold_lowered. Qed.

(** The folded terms of a query are those of its lowered text. *)
Lemma folded_terms_lowered chars : valid_text chars →
  tm_folded <$> qu_terms (FilterQuery_parse (string_of_chars (lowered chars))) =
  tm_folded <$> qu_terms (FilterQuery_parse (string_of_chars chars)).
Proof.
  intros Hv. pose proof (lowered_valid _ Hv) as Hv'.
  destruct (parse_spec (string_of_chars chars)) as (Hraw & Hterms & _).
  destruct (parse_spec (string_of_chars (lowered chars))) as (Hraw' & Hterms' & _).
  unfold string_of_chars in Hraw at 2, Hraw' at 2. rewrite bytes_of_string_of_bytes in Hraw, Hraw' by by apply encode_chars_bytes.
  rewrite Hterms, Hterms', Hraw, Hraw', lowered_sanitize_query, lowered_segments by done.
  rewrite !fmap_take, <- !list_fmap_compose. f_equal. apply list_fmap_ext. intros _ text _. apply fold_lowered.
Qed.

(** What a query matches depends on the folded terms and the folded texts alone. *)
Lemma matches_folded q q' a b ca cb : tm_folded <$> qu_terms q = tm_folded <$> qu_terms q' →
  fold_case (chars_of_string a) = fold_case (chars_of_string b) →
  (λ c, fold_case (chars_of_string c)) <$> ca = (λ c, fold_case (chars_of_string c)) <$> cb →
  matches_name_and_command q a ca = matches_name_and_command q' b cb.
Proof.
  intros Ht Hn Hc. unfold matches_name_and_command, FilterQuery_is_empty. rewrite Hn, Hc.
  pose proof (f_equal length Ht) as Hlen. rewrite !length_fmap in Hlen. rewrite Hlen. f_equal.
  revert Ht. generalize (qu_terms q), (qu_terms q'). clear. intros l. induction l as [|t l IH]; intros [|t' l']; try done.
  intros [= Ht Hl]. cbn [existsb]. rewrite Ht. f_equal. by apply IH.
Qed.
End case.

(** C34: a filter is what was typed, bounded and made inert: at most 512 bytes and 16
    terms, each a non-empty text without bars, unsafe characters or repeated blanks,
    and every other text between bars is counted as omitted.  Parsing what the filter
    shows gives the same terms again.  It matches a process exactly if it has no term
    or one of its terms, folded, occurs in the folded name or command; and changing the
    case of ASCII letters — in the query, the name or the command, whatever other
    characters they have — changes no match. *)
Theorem filters_match_their_terms `{LowercaseTable} (chars : list N) (q := FilterQuery_parse (string_of_chars chars)) :
  valid_text chars →
  (length (encode_chars (qu_raw q)) ≤ 512 ∧ length (qu_terms q) ≤ 16)%nat ∧
  Forall (λ term, tm_display term ≠ [] ∧ tidy (tm_display term) ∧ single_spaced (tm_display term) = true ∧
    Forall safe_char (tm_display term) ∧ Forall (λ c, is_bar c = false) (tm_display term) ∧
    tm_folded term = fold_case (tm_display term)) (qu_terms q) ∧
  (length (qu_terms q) + qu_omitted_terms q)%nat = length (segment_texts (qu_raw q)) ∧
  (let again := FilterQuery_parse (string_of_chars (qu_raw q)) in
   qu_raw again = qu_raw q ∧ qu_terms again = qu_terms q ∧ qu_omitted_terms again = qu_omitted_terms q) ∧
  (∀ name command, matches_name_and_command q name command = true ↔
    qu_terms q = [] ∨ ∃ term text before after, term ∈ qu_terms q ∧ (text = name ∨ command = Some text) ∧
      fold_case (chars_of_string text) = before ++ tm_folded term ++ after) ∧
  (∀ chars' a b ca cb, valid_text chars' → lowered chars = lowered chars' → same_but_case a b → option_Forall2 same_but_case ca cb →
    matches_name_and_command q a ca = matches_name_and_command (FilterQuery_parse (string_of_chars chars')) b cb).
Proof.
  intros Hv. destruct (parse_spec (string_of_chars chars)) as (Hraw & Hterms & Homit). fold q in Hraw, Hterms, Homit.
  unfold string_of_chars in Hraw at 1. rewrite bytes_of_string_of_bytes in Hraw by by apply encode_chars_bytes.
  pose proof (sanitize_query_spec chars Hv) as Hspec. destruct (sanitize_query (encode_chars chars)) as [sanitized truncated].
  destruct Hspec as (Hs & Hlen & _). cbn [fst] in Hraw. rewrite <- Hraw in Hs, Hlen.
  split; [split; [exact Hlen|rewrite Hterms, length_take; apply Nat.le_min_l]|]. split.
  { rewrite Hterms. apply Forall_take, Forall_fmap, Forall_forall. intros text Hin.
    destruct (segment_texts_spec _ _ Hs Hin) as (? & ? & ? & ? & ?). by split_and!. }
  split; [rewrite Hterms, Homit, length_take, length_fmap; lia|]. split.
  { destruct (parse_spec (string_of_chars (qu_raw q))) as (Hraw' & Hterms' & Homit').
    unfold string_of_chars in Hraw' at 2. rewrite bytes_of_string_of_bytes, sanitize_query_id in Hraw' by auto using encode_chars_bytes, safe_scalar.
    cbn [fst] in Hraw'. cbv zeta. rewrite Hraw' in Hterms', Homit'. by rewrite Hterms', Homit', Hterms, Homit. }
  split.
  - intros name command. unfold matches_name_and_command, FilterQuery_is_empty. rewrite orb_true_iff, bool_decide_eq_true, existsb_exists.
    assert (length (qu_terms q) = 0%nat ↔ qu_terms q = []) as -> by (split; [apply nil_length_inv|by intros ->]). f_equiv. split.
    + intros (term & Hin & Hm). apply list_elem_of_In in Hin. apply orb_true_iff in Hm as [Hm|Hm].
      * apply contains_spec in Hm as (before & after & Heq). exists term, name, before, after. split_and!; auto.
      * destruct command as [c|]; [|done]. apply contains_spec in Hm as (before & after & Heq). exists term, c, before, after. split_and!; auto.
    + intros (term & text & before & after & Hin & Htext & Heq). exists term. split; [by apply list_elem_of_In|].
      apply orb_true_iff. destruct Htext as [->| ->]; [left|right]; apply contains_spec; by exists before, after.
  - intros chars' a b ca cb Hv' Hcase Hname Hcommand. apply matches_folded.
    + unfold q. by rewrite <- folded_terms_lowered, Hcase, folded_terms_lowered.
    + by apply fold_same_case.
    + destruct Hcommand as [x y Hxy|]; [|done]. cbn. f_equal. by apply fold_same_case.
Qed.

(** [Öl|SSH] and [Öl|ssh], on names and commands with letters that are not ASCII. *)
Lemma filters_match_their_terms_witness :
  let text query := string_of_chars (0xd6 :: bytes_of_string query) in
  let q := @FilterQuery_parse ascii_table (text "l|SSH"%string) in
  let q' := @FilterQuery_parse ascii_table (text "L|ssh"%string) in
  @matches_name_and_command ascii_table q (text "x"%string) (Some (text "/OpenSSHd"%string)) =
    @matches_name_and_command ascii_table q' (text "X"%string) (Some (text "/opensshd"%string)) ∧
  @matches_name_and_command ascii_table q (text "x"%string) (Some (text "/OpenSSHd"%string)) = true.
Proof.
  intros text q q'. split; [|vm_compute; reflexivity].
  assert (valid_text (0xd6 :: bytes_of_string "l|SSH") ∧ valid_text (0xd6 :: bytes_of_string "L|ssh")) as [Hv Hv'].
  { split; cbn; repeat (apply Forall_cons_2; [vm_compute; reflexivity|]); apply Forall_nil_2. }
  destruct (@filters_match_their_terms ascii_table _ Hv) as (_ & _ & _ & _ & _ & Hcase).
  apply (Hcase _ _ _ _ _ Hv'); [vm_compute; reflexivity|vm_compute; reflexivity|]. constructor. vm_compute. reflexivity.
Defined.
