(* ===== verification/SrtopRows.v ===== *)
(** * srtop: lists of rows, and what a plan does to them

    A longest increasing subsequence; rows by id and by position; and what comes
    before what in a list.  The effects of a plan on the published rows, one after
    another; that [record_committed], which merges runs of insertions, records just
    that; and where the transactions of a plan end. *)

From S2P Require Import Prelude.
From S2P Require Import Values.
From S2P Require Import Models.
From S2P Require Import SnapshotItems.
From S2P Require Import Event.
From S2P Require Import SrtopSort.
From S2P Require Import SrtopRefresh.
From S2P Require Import SrtopCommit.

Definition increasing (l : list nat) : Prop := StronglySorted lt l.

Lemma partition_point_spec {A} (pred : A → bool) l : let r := partition_point pred l in
  r ≤ length l ∧ (∀ j x, j < r → l !! j = Some x → pred x = true) ∧ (∀ x, l !! r = Some x → pred x = false).
Proof.
  induction l as [|x l IH]; cbn; [split_and!; [lia|lia|done]|].
  destruct (pred x) eqn:Hx; cbn; [|split_and!; [lia|lia|congruence]].
  destruct IH as (Hle & Hbelow & Hat). split_and!; [lia| |done].
  intros [|j] y Hj Hy; cbn in Hy; [congruence|]. apply (Hbelow j); [lia|done].
Qed.

Lemma increasing_snoc l v : increasing (l ++ [v]) ↔ increasing l ∧ ∀ x, x ∈ l → x < v.
Proof.
  unfold increasing. rewrite StronglySorted_app. split.
  - intros (Hlt & Hl & _). split; [done|]. intros x Hx. apply Hlt; [done|left].
  - intros [Hl Hlt]. split_and!; [|done|by repeat constructor]. by intros x y Hx ->%list_elem_of_singleton; apply Hlt.
Qed.

Lemma increasing_last l v w : increasing l → last l = Some v → v < w → increasing (l ++ [w]).
Proof.
  intros Hl [l' ->]%last_Some Hlt. apply increasing_snoc. split; [done|].
  apply increasing_snoc in Hl as [_ Hl]. intros x [Hx| ->%list_elem_of_singleton]%elem_of_app; [|done].
  apply Hl in Hx. lia.
Qed.

Section patience.
Variable sequence : list nat.

(** The values met on the way back from a position along [previous], in order. *)
Inductive chain (previous : list (option nat)) : nat → list nat → Prop :=
| chain_first i : previous !! i = Some None → chain previous i [sequence !!! i]
| chain_next i j l : previous !! i = Some (Some j) → j < i → chain previous j l →
    chain previous i (l ++ [sequence !!! i]).

Lemma chain_insert previous i l k o : chain previous i l → i < k → chain (<[k := o]> previous) i l.
Proof using Type.
  induction 1 as [i Hi|i j l Hi Hj Hl IH]; intros Hk.
  - constructor. by rewrite list_lookup_insert_ne by lia.
  - econstructor; [by rewrite list_lookup_insert_ne by lia|done|]. apply IH. lia.
Qed.

(** The walk marks the values of the chain. *)
Lemma mark_chain_spec previous i l : chain previous i l → ∀ fuel kept, length l ≤ fuel →
  Forall (λ v, v < length kept) l →
  ∃ kept', mark_chain fuel sequence previous (Some i) kept = Ok kept' ∧ length kept' = length kept ∧
    ∀ v, v < length kept → kept' !! v = Some (bool_decide (v ∈ l) || default false (kept !! v)).
Proof using Type.
  induction 1 as [i Hi|i j l Hi Hj Hl IH]; intros [|fuel] kept Hfuel Hin; try (rewrite ?length_app in Hfuel; cbn in Hfuel; lia).
  - apply Forall_cons in Hin as [Hin _]. cbn [mark_chain].
    rewrite (proj2 (Nat.ltb_lt _ _) Hin), (list_lookup_total_correct _ _ _ Hi).
    exists (<[sequence !!! i := true]> kept). split; [by destruct fuel|]. split; [apply length_insert|].
    intros v Hv. destruct (decide (v = sequence !!! i)) as [->|Hne].
    + rewrite list_lookup_insert_eq by done. by rewrite bool_decide_true by left.
    + rewrite list_lookup_insert_ne by done. rewrite bool_decide_false by by rewrite list_elem_of_singleton.
      destruct (lookup_lt_is_Some_2 kept v Hv) as [b ->]. done.
  - rewrite length_app in Hfuel. cbn in Hfuel. apply Forall_app in Hin as [Hinl [Hini _]%Forall_cons].
    cbn [mark_chain]. rewrite (proj2 (Nat.ltb_lt _ _) Hini), (list_lookup_total_correct _ _ _ Hi).
    destruct (IH fuel (<[sequence !!! i := true]> kept)) as (kept' & Hr & Hlen & Hk); [lia|by rewrite length_insert|].
    exists kept'. rewrite length_insert in Hlen, Hk. split_and!; [done|done|]. intros v Hv. rewrite (Hk v Hv). f_equal.
    destruct (decide (v = sequence !!! i)) as [->|Hne].
    + rewrite list_lookup_insert_eq by done. rewrite (bool_decide_true (_ ∈ l ++ _)); [by destruct (bool_decide _)|].
      apply elem_of_app. right. left.
    + rewrite list_lookup_insert_ne by done. f_equal. apply bool_decide_ext.
      rewrite elem_of_app, list_elem_of_singleton. tauto.
Qed.

(** The loop has done the first [k] positions. *)
Record patience_ok (k : nat) (st : patience) : Prop := {
  po_len : length (pt_previous st) = length sequence;
  po_fresh i : k ≤ i → i < length sequence → pt_previous st !! i = Some None;
  po_tails r i : pt_tails st !! r = Some i → i < k ∧
    ∃ l, chain (pt_previous st) i l ∧ length l = S r ∧ increasing l ∧ last l = Some (sequence !!! i) ∧
      l `sublist_of` take k sequence;
  po_sorted r r' i i' : r < r' → pt_tails st !! r = Some i → pt_tails st !! r' = Some i' →
    sequence !!! i < sequence !!! i';
  po_best l v : increasing (l ++ [v]) → l ++ [v] `sublist_of` take k sequence →
    ∃ i, pt_tails st !! length l = Some i ∧ sequence !!! i ≤ v;
}.

Lemma patience_start : patience_ok 0 (mkPatience [] (replicate (length sequence) None)).
Proof using Type.
  split; cbn.
  - by rewrite length_replicate.
  - intros i _ Hi. by apply lookup_replicate.
  - done.
  - done.
  - intros l v _ Hsub%sublist_nil_r. by destruct l.
Qed.

Section step.
Variables (k v : nat) (st : patience).
Hypothesis (Hok : patience_ok k st) (Hv : sequence !! k = Some v).
Let r := partition_point (λ tail, (sequence !!! tail <? v)%nat) (pt_tails st).
Let st' := patience_step sequence st (k, v).

#[local] Lemma tails_eq : pt_tails st' =
  if (r =? length (pt_tails st))%nat then pt_tails st ++ [k] else <[r := k]> (pt_tails st).
Proof using Type. reflexivity. Qed.
#[local] Lemma previous_eq : pt_previous st' =
  match r with O => pt_previous st | S n => <[k := Some (pt_tails st !!! n)]> (pt_previous st) end.
Proof using Type. reflexivity. Qed.
#[local] Lemma value_k : sequence !!! k = v.
Proof using Hv. by apply list_lookup_total_correct. Qed.
#[local] Lemma take_k : take (S k) sequence = take k sequence ++ [v].
Proof using Hv. by apply take_S_r. Qed.

#[local] Lemma rank_bounds : r ≤ length (pt_tails st) ∧
  (∀ j i, j < r → pt_tails st !! j = Some i → sequence !!! i < v) ∧
  (∀ i, pt_tails st !! r = Some i → v ≤ sequence !!! i).
Proof using Type.
  destruct (partition_point_spec (λ tail, (sequence !!! tail <? v)%nat) (pt_tails st)) as (Hle & Hlt & Hge).
  split_and!; [done| |].
  - intros j i Hj Hi. by apply Nat.ltb_lt, (Hlt j).
  - intros i Hi. by apply Nat.ltb_ge, Hge.
Qed.

#[local] Lemma step_tails j : pt_tails st' !! j = if decide (j = r) then Some k else pt_tails st !! j.
Proof using Type.
  destruct rank_bounds as (Hle & _ & _). rewrite tails_eq.
  destruct (Nat.eqb_spec r (length (pt_tails st))) as [Heq|Hne]; case_decide as Hj.
  - rewrite Hj, Heq. by apply list_lookup_middle.
  - destruct (Nat.lt_ge_cases j (length (pt_tails st))); [by apply lookup_app_l|].
    rewrite !lookup_ge_None_2; [done|lia|rewrite length_app; cbn; lia].
  - rewrite Hj. apply list_lookup_insert_eq. lia.
  - by apply list_lookup_insert_ne.
Qed.

#[local] Lemma step_previous : length (pt_previous st') = length (pt_previous st) ∧
  (∀ i l, i < k → chain (pt_previous st) i l → chain (pt_previous st') i l) ∧
  (∀ i, k < i → pt_previous st' !! i = pt_previous st !! i).
Proof using Type.
  rewrite previous_eq. destruct r as [|n]; [done|]. split_and!.
  - apply length_insert.
  - intros i l Hi Hl. by apply chain_insert.
  - intros i Hi. by rewrite list_lookup_insert_ne by lia.
Qed.

#[local] Lemma step_chain : ∃ l, chain (pt_previous st') k l ∧ length l = S r ∧ increasing l ∧ last l = Some v ∧
  l `sublist_of` take (S k) sequence.
Proof using Hok Hv.
  destruct rank_bounds as (Hle & Hlt & _). pose proof (lookup_lt_Some _ _ _ Hv) as Hk.
  pose proof value_k as Hval. rewrite take_k, previous_eq. clearbody r. destruct r as [|n].
  - exists [v]. split_and!; [|done|by repeat constructor|done|by apply sublist_inserts_l].
    rewrite <- Hval. constructor. by apply (po_fresh _ _ Hok).
  - destruct (lookup_lt_is_Some_2 (pt_tails st) n) as [i Hi]; [lia|].
    destruct (po_tails _ _ Hok _ _ Hi) as (Hik & l & Hl & Hlen & Hinc & Hlast & Hsub).
    rewrite (list_lookup_total_correct _ _ _ Hi). exists (l ++ [v]). split_and!.
    + rewrite <- Hval. econstructor; [|done|by apply chain_insert].
      apply list_lookup_insert_eq. by rewrite (po_len _ _ Hok).
    + rewrite length_app. cbn. lia.
    + eapply increasing_last; [done..|]. apply (Hlt n); [lia|done].
    + apply last_snoc.
    + by apply sublist_app.
Qed.

#[local] Lemma step_best l w : increasing (l ++ [w]) → l ++ [w] `sublist_of` take (S k) sequence →
  ∃ i, pt_tails st' !! length l = Some i ∧ sequence !!! i ≤ w.
Proof using Hok Hv.
  destruct rank_bounds as (Hle & Hlt & Hge). pose proof value_k as Hval. rewrite take_k.
  intros Hinc Hsub. rewrite step_tails.
  assert (l ++ [w] `sublist_of` take k sequence ∨ w = v ∧ l `sublist_of` take k sequence) as [Hold|[-> Hl]].
  { apply sublist_app_cons_r in Hsub as [Hsub|(l1 & l2 & Heq & Hl1 & Hl2)]; [left; by rewrite app_nil_r in Hsub|].
    right. apply sublist_nil_r in Hl2 as ->. apply app_inj_tail in Heq as [-> ->]. done. }
  - destruct (po_best _ _ Hok l w Hinc Hold) as (i & Hi & Hw). case_decide as Hr; [|by eexists].
    exists k. split; [done|]. rewrite Hval. rewrite Hr in Hi. apply Hge in Hi. lia.
  - case_decide as Hr; [by exists k; rewrite Hval|]. assert (length l < r) as Hlr.
    { destruct l as [|u l _] using rev_ind; [cbn in Hr |- *; lia|]. rewrite length_app in *. cbn in *.
      apply increasing_snoc in Hinc as [Hinc Hu]. destruct (po_best _ _ Hok l u Hinc Hl) as (i & Hi & Hiu).
      assert (u < v) as Huv by (apply Hu, elem_of_app; right; left). assert (length l < r); [|lia].
      apply Nat.nle_gt. intros Hrl. apply Nat.lt_eq_cases in Hrl as [Hrl|Hrl].
      - destruct (lookup_lt_is_Some_2 (pt_tails st) r) as [i' Hi']; [apply lookup_lt_Some in Hi; lia|].
        pose proof (po_sorted _ _ Hok r (length l) i' i Hrl Hi' Hi). apply Hge in Hi'. lia.
      - rewrite <- Hrl in Hi. apply Hge in Hi. lia. }
    destruct (lookup_lt_is_Some_2 (pt_tails st) (length l)) as [i Hi]; [lia|]. exists i. split; [done|].
    apply Nat.lt_le_incl. by apply (Hlt (length l)).
Qed.

Lemma patience_step_ok : patience_ok (S k) st'.
Proof using Hok Hv.
  destruct rank_bounds as (Hle & Hlt & Hge). destruct step_previous as (Hlen & Hframe & Hfresh).
  pose proof (lookup_lt_Some _ _ _ Hv) as Hk. split.
  - rewrite Hlen. apply (po_len _ _ Hok).
  - intros i Hi Hi'. rewrite Hfresh by lia. apply (po_fresh _ _ Hok); lia.
  - intros j i. rewrite step_tails. case_decide as Hj.
    + intros [= <-]. split; [lia|]. rewrite value_k, Hj. apply step_chain.
    + intros Hi. destruct (po_tails _ _ Hok _ _ Hi) as (Hik & l & Hl & Hll & Hinc & Hlast & Hsub). split; [lia|].
      exists l. split_and!; [by apply Hframe|done..|]. rewrite take_k. by apply sublist_inserts_r.
  - intros j j' i i' Hj. rewrite !step_tails. repeat case_decide; subst; [lia| | |apply (po_sorted _ _ Hok _ _ _ _ Hj)].
    + intros [= <-] Hi'. rewrite value_k. destruct (lookup_lt_is_Some_2 (pt_tails st) r) as [ir Hir];
        [apply lookup_lt_Some in Hi'; lia|].
      pose proof (po_sorted _ _ Hok _ _ _ _ Hj Hir Hi'). apply Hge in Hir. lia.
    + intros Hi [= <-]. rewrite value_k. by apply (Hlt j).
  - apply step_best.
Qed.
End step.

Lemma patience_loop l : ∀ k st, sequence = take k sequence ++ l → k + length l = length sequence → patience_ok k st →
  patience_ok (length sequence) (foldl (patience_step sequence) st (imap (λ i, pair (k + i)) l)).
Proof using Type.
  induction l as [|v l IH]; intros k st Heq Hlen Hok; cbn in *.
  - by replace (length sequence) with k by lia.
  - rewrite Nat.add_0_r.
    assert (sequence !! k = Some v) as Hv.
    { rewrite Heq. apply list_lookup_middle. rewrite length_take. lia. }
    rewrite (imap_ext _ (λ i, pair (S k + i)) l) by (intros; cbn; by rewrite Nat.add_succ_r).
    apply IH; [|lia|by apply patience_step_ok]. rewrite (take_S_r _ _ _ Hv), <- app_assoc. exact Heq.
Qed.
End patience.

(** What [longest_increasing] marks. *)
Lemma longest_increasing_spec sequence n : Forall (λ v, v < n) sequence →
  ∃ kept l, longest_increasing sequence n = Ok kept ∧ length kept = n ∧ l `sublist_of` sequence ∧ increasing l ∧
    (∀ v, v < n → kept !! v = Some (bool_decide (v ∈ l))) ∧
    ∀ l', l' `sublist_of` sequence → increasing l' → length l' ≤ length l.
Proof.
  intros Hn. unfold longest_increasing. pose proof (patience_loop sequence sequence 0 _ eq_refl eq_refl (patience_start sequence)) as Hok.
  cbn [Nat.add] in Hok. change (imap (λ i, pair i) sequence) with (imap pair sequence) in Hok.
  remember (foldl (patience_step sequence) _ (imap pair sequence)) as st eqn:Hst. clear Hst.
  assert (∀ l, increasing l → l `sublist_of` sequence → length l ≤ length (pt_tails st)) as Hmax.
  { intros l Hinc Hsub. destruct l as [|v l _] using rev_ind; [cbn; lia|].
    destruct (po_best _ _ _ Hok l v) as (i & Hi & _); [done|by rewrite take_ge by done|].
    apply lookup_lt_Some in Hi. rewrite length_app. cbn. lia. }
  destruct (last (pt_tails st)) as [i|] eqn:Hlast.
  - rewrite last_lookup in Hlast.
    destruct (po_tails _ _ _ Hok _ _ Hlast) as (_ & l & Hl & Hlen & Hinc & _ & Hsub).
    rewrite take_ge in Hsub by done. pose proof (lookup_lt_Some _ _ _ Hlast) as Hpos.
    destruct (mark_chain_spec _ _ _ _ Hl (length sequence) (replicate n false)) as (kept & Hr & Hlk & Hk).
    { by apply sublist_length. }
    { rewrite length_replicate. rewrite Forall_forall in Hn. apply Forall_forall. intros v Hv. apply Hn.
      by eapply elem_of_sublist. }
    rewrite length_replicate in *. exists kept, l. split_and!; [done..| |].
    + intros v Hv. rewrite (Hk v Hv). rewrite lookup_replicate_2 by done. by rewrite orb_false_r.
    + intros l' Hs Hi'. apply (Hmax l') in Hi'; [lia|done].
  - apply last_None in Hlast. rewrite Hlast in Hmax. exists (replicate n false), []. split_and!.
    + by destruct (length sequence).
    + apply length_replicate.
    + apply sublist_nil_l.
    + constructor.
    + intros v Hv. by rewrite lookup_replicate_2.
    + intros l' Hs Hi'. by apply Hmax.
Qed.

(** ** srtop: rows by their item ids

    The hash maps that [refresh.rs] builds over rows are searches here; on rows
    with distinct ids a search finds the row.  And what filters and sublists of
    such rows have in common. *)

(** ** Lists *)

Lemma filter_ext_in {A} (P Q : A → Prop) `{!∀ x, Decision (P x), !∀ x, Decision (Q x)} (l : list A) :
  (∀ x, x ∈ l → P x ↔ Q x) → filter P l = filter Q l.
Proof.
  induction l as [|x l IH]; intros Hl; [done|]. rewrite !filter_cons, IH by (intros y Hy; apply Hl; by right).
  pose proof (Hl x ltac:(left)). repeat case_decide; tauto.
Qed.

Lemma filter_none {A} (P : A → Prop) `{!∀ x, Decision (P x)} (l : list A) : (∀ x, x ∈ l → ¬ P x) → filter P l = [].
Proof.
  induction l as [|x l IH]; intros Hl; [done|]. rewrite filter_cons_False by (apply Hl; left).
  apply IH. intros y Hy. apply Hl. by right.
Qed.

Lemma filter_fmap {A B} (f : A → B) (P : B → Prop) `{!∀ x, Decision (P x)} (l : list A) :
  filter P (f <$> l) = f <$> filter (λ x, P (f x)) l.
Proof.
  induction l as [|x l IH]; [done|]. rewrite fmap_cons, !filter_cons, IH. by case_decide.
Qed.

Lemma fmap_inj_in {A B} (f : A → B) (l : list A) : ∀ k : list A, (∀ x y, x ∈ l → y ∈ k → f x = f y → x = y) → f <$> l = f <$> k → l = k.
Proof.
  induction l as [|x l IH]; intros [|y k] Hinj Heq; [done..|]. injection Heq as Hxy Heq. f_equal.
  - apply Hinj; [left|left|done].
  - apply IH; [|done]. intros a b Ha Hb. apply Hinj; by right.
Qed.

Lemma sublist_filter_eq {A} (P : A → Prop) `{!∀ x, Decision (P x)} (l k : list A) : l `sublist_of` k → NoDup k →
  (∀ x, x ∈ k → P x ↔ x ∈ l) → l = filter P k.
Proof.
  intros Hsub. induction Hsub as [|x l k Hsub IH|x l k Hsub IH]; intros [Hx Hnd]%NoDup_cons || intros _; intros Hiff.
  - done.
  - rewrite filter_cons_True by (apply Hiff; left). f_equal. apply IH; [done|]. intros y Hy.
    rewrite Hiff by by right. rewrite elem_of_cons. split; [|auto]. intros [->|?]; done.
  - rewrite filter_cons_False; [apply IH; [done|]; intros y Hy; apply Hiff; by right|].
    rewrite Hiff by left. intros Hin. apply Hx. by eapply elem_of_sublist.
Qed.

Lemma take_sublist_mono {A} (l : list A) i j : i ≤ j → take i l `sublist_of` take j l.
Proof. intros Hij. rewrite <- (Nat.min_l i j Hij), <- take_take. apply sublist_take. Qed.
Lemma sublist_fmap {A B} (f : A → B) (l k : list A) : l `sublist_of` k → f <$> l `sublist_of` f <$> k.
Proof. by induction 1; cbn; constructor. Qed.

Lemma sublist_same_length {A} (l k : list A) : l `sublist_of` k → length k ≤ length l → l = k.
Proof.
  induction 1 as [|x l k Hsub IH|x l k Hsub IH]; cbn [length]; intros Hlen; [done|f_equal; apply IH; lia|].
  apply sublist_length in Hsub. lia.
Qed.

Lemma concat_perm {A} (l k : list (list A)) : l ≡ₚ k → concat l ≡ₚ concat k.
Proof.
  induction 1 as [|x l k _ IH|x y l|l k m _ IH1 _ IH2]; cbn; [done|by rewrite IH| |by rewrite IH1].
  by rewrite Permutation_app_swap_app.
Qed.

(** A list without some of its elements, and those elements *)
Lemma filter_out_perm {A} `{!EqDecision A} (l m : list A) : NoDup l → NoDup m → (∀ x, x ∈ m → x ∈ l) →
  filter (λ x, x ∉ m) l ++ m ≡ₚ l.
Proof.
  intros Hl Hm Hsub. apply NoDup_Permutation; [|done|].
  - apply NoDup_app. split_and!; [by apply NoDup_filter| |done]. by intros x [? _]%list_elem_of_filter.
  - intros x. rewrite elem_of_app, list_elem_of_filter. destruct (decide (x ∈ m)); naive_solver.
Qed.

(** ** Rows by id *)

Lemma ids_elem rows row : row ∈ rows → row_item_id row ∈ ids_of rows.
Proof. apply list_elem_of_fmap_2. Qed.
Lemma ids_lookup rows i row : rows !! i = Some row → ids_of rows !! i = Some (row_item_id row).
Proof. intros Hi. unfold ids_of. by rewrite list_lookup_fmap, Hi. Qed.
Lemma ids_app rows rows' : ids_of (rows ++ rows') = ids_of rows ++ ids_of rows'.
Proof. apply fmap_app. Qed.
Lemma ids_filter (P : Row → Prop) (Q : ItemId → Prop) `{!∀ x, Decision (P x), !∀ x, Decision (Q x)} rows :
  (∀ row, P row ↔ Q (row_item_id row)) → ids_of (filter P rows) = filter Q (ids_of rows).
Proof. intros HPQ. unfold ids_of. rewrite filter_fmap. f_equal. by apply filter_ext_in. Qed.
Lemma elem_of_ids rows id : id ∈ ids_of rows ↔ ∃ row, row ∈ rows ∧ row_item_id row = id.
Proof. unfold ids_of. rewrite list_elem_of_fmap. naive_solver. Qed.

Lemma row_position_Some rows id i : row_position rows id = Some i → ids_of rows !! i = Some id.
Proof.
  unfold row_position. intros ([j row] & Hlast & ->)%fmap_Some. apply last_Some_elem_of in Hlast.
  apply list_elem_of_filter in Hlast as [Hid (j' & row' & [= -> ->] & Hj)%elem_of_lookup_imap_1].
  cbn in Hid |- *. apply ids_lookup in Hj. congruence.
Qed.
Lemma row_position_None rows id : row_position rows id = None ↔ id ∉ ids_of rows.
Proof.
  unfold row_position. split.
  - intros Hnil%fmap_None Hin. apply last_None in Hnil. apply elem_of_ids in Hin as (row & [i Hi]%list_elem_of_lookup_1 & Hid).
    refine (filter_nil_not_elem_of _ _ (i, row) Hnil Hid _). by apply (elem_of_lookup_imap_2 pair).
  - intros Hin. apply fmap_None, last_None, filter_none. intros [i row] (j & row' & [= -> ->] & Hj)%elem_of_lookup_imap_1 Hid. cbn in Hid.
    apply Hin. rewrite <- Hid. by eapply ids_elem, list_elem_of_lookup_2.
Qed.
Lemma row_position_iff rows id i : NoDup (ids_of rows) → row_position rows id = Some i ↔ ids_of rows !! i = Some id.
Proof.
  intros Hnd. split; [apply row_position_Some|]. intros Hi. destruct (row_position rows id) as [j|] eqn:Hj.
  - f_equal. apply row_position_Some in Hj. by eapply NoDup_lookup.
  - apply row_position_None in Hj. destruct Hj. by eapply list_elem_of_lookup_2.
Qed.

Lemma last_row_Some rows id row : last_row rows id = Some row → row ∈ rows ∧ row_item_id row = id.
Proof. unfold last_row. intros Hlast%last_Some_elem_of. by apply list_elem_of_filter in Hlast as [? ?]. Qed.
Lemma last_row_None rows id : last_row rows id = None ↔ id ∉ ids_of rows.
Proof.
  unfold last_row. split.
  - intros Hnil%last_None (row & Hin & Hid)%elem_of_ids. exact (filter_nil_not_elem_of _ _ row Hnil Hid Hin).
  - intros Hin. apply last_None, filter_none. intros row Hrow Hid. apply Hin. rewrite <- Hid. by apply ids_elem.
Qed.
Lemma last_row_app rows rows' id :
  last_row (rows ++ rows') id = match last_row rows' id with Some row => Some row | None => last_row rows id end.
Proof. unfold last_row. rewrite filter_app, last_app. done. Qed.
Lemma rows_by_id rows a b : NoDup (ids_of rows) → a ∈ rows → b ∈ rows → row_item_id a = row_item_id b → a = b.
Proof. apply NoDup_fmap_inj. Qed.
Lemma last_row_iff rows id row : NoDup (ids_of rows) → last_row rows id = Some row ↔ row ∈ rows ∧ row_item_id row = id.
Proof.
  intros Hnd. split; [apply last_row_Some|]. intros [Hin <-]. destruct (last_row rows (row_item_id row)) as [other|] eqn:Ho.
  - apply last_row_Some in Ho as [? ?]. f_equal. by eapply rows_by_id.
  - apply last_row_None in Ho. destruct Ho. by apply ids_elem.
Qed.

(** ** srtop: what comes before what

    The order of the elements of a list, as the moves of [refresh.rs] change it. *)

Section before.
Context {A : Type}.
Implicit Types (x y : A) (l : list A).

(** [x] occurs at a smaller index than [y]. *)
Definition before x y l : Prop := ∃ i j, i < j ∧ l !! i = Some x ∧ l !! j = Some y.

Lemma before_nil x y : ¬ before x y [].
Proof. by intros (i & j & _ & ? & _). Qed.

Lemma before_cons x y z l : before x y (z :: l) ↔ (x = z ∧ y ∈ l) ∨ before x y l.
Proof.
  split.
  - intros ([|i] & [|j] & Hij & Hi & Hj); cbn in Hi, Hj; [lia| |lia|].
    + left. split; [congruence|]. by eapply list_elem_of_lookup_2.
    + right. exists i, j. split; [lia|done].
  - intros [[-> [j Hj]%list_elem_of_lookup_1]|(i & j & Hij & Hi & Hj)].
    + exists 0, (S j). split; [lia|done].
    + exists (S i), (S j). split; [lia|done].
Qed.

Lemma before_elem x y l : before x y l → x ∈ l ∧ y ∈ l.
Proof. intros (i & j & _ & Hi & Hj). split; by eapply list_elem_of_lookup_2. Qed.

Lemma before_app x y l k : before x y (l ++ k) ↔ before x y l ∨ before x y k ∨ (x ∈ l ∧ y ∈ k).
Proof.
  induction l as [|z l IH]; cbn.
  - split; [by auto|]. intros [[]%before_nil|[?|[[]%elem_of_nil _]]]; done.
  - rewrite !before_cons, IH, elem_of_app, elem_of_cons. tauto.
Qed.

Lemma before_filter (P : A → Prop) `{!∀ x, Decision (P x)} x y l : P x → P y →
  before x y (filter P l) ↔ before x y l.
Proof.
  intros Hx Hy. induction l as [|z l IH]; [done|]. rewrite filter_cons, before_cons. case_decide as Hz.
  - rewrite before_cons, IH, list_elem_of_filter. tauto.
  - rewrite IH. split; [by right|]. intros [[-> _]|?]; done.
Qed.

Lemma before_sublist x y l k : l `sublist_of` k → before x y l → before x y k.
Proof.
  induction 1 as [|z l k Hsub IH|z l k Hsub IH]; [done| |].
  - rewrite !before_cons. intros [[-> Hy]|?]; [left; split; [done|by eapply elem_of_sublist]|right; auto].
  - rewrite before_cons. auto.
Qed.

Lemma before_lookup_lt x y l i j : NoDup l → before x y l → l !! i = Some x → l !! j = Some y → i < j.
Proof.
  intros Hnd (i' & j' & Hij & Hi & Hj) Hx Hy.
  by rewrite (NoDup_lookup l i i' x Hnd Hx Hi), (NoDup_lookup l j j' y Hnd Hy Hj).
Qed.

Lemma before_next x p m l : NoDup l → (∃ B C, l = B ++ p :: m :: C) → before x p l → before x m l.
Proof.
  intros Hnd (B & C & ->) Hb. apply before_app. right. right. split; [|right; left].
  apply before_app in Hb as [[_ Hp]%before_elem|[Hb|[? _]]]; [|exfalso|done].
  - apply NoDup_app in Hnd as (_ & Hd & _). destruct (Hd p Hp). left.
  - apply NoDup_app in Hnd as (_ & _ & [Hp _]%NoDup_cons).
    apply before_cons in Hb as [[_ ?]|[_ ?]%before_elem]; done.
Qed.

Lemma next_before p y m l : NoDup l → (∃ B C, l = B ++ p :: m :: C) → before p y l → y ≠ m → before m y l.
Proof.
  intros Hnd (B & C & ->) Hb Hne. apply before_app. right. left. apply before_cons. right. apply before_cons. left.
  split; [done|]. apply before_app in Hb as [[Hp _]%before_elem|[Hb|[Hp _]]].
  1,3: apply NoDup_app in Hnd as (_ & Hd & _); destruct (Hd p Hp); left.
  apply NoDup_app in Hnd as (_ & _ & [Hp _]%NoDup_cons).
  apply before_cons in Hb as [[_ Hy]|[? _]%before_elem]; [|done]. apply elem_of_cons in Hy as [?|?]; done.
Qed.

Lemma next_is_before p m l : (∃ B C, l = B ++ p :: m :: C) → before p m l.
Proof.
  intros (B & C & ->). apply before_app. right. left. apply before_cons. left. split; [done|left].
Qed.

(** A permutation that keeps what comes before what is the identity. *)
Lemma before_perm_eq k : ∀ l, l ≡ₚ k → NoDup k → (∀ x y, before x y k → before x y l) → l = k.
Proof.
  induction k as [|y k IH]; intros l Hperm Hnd Hb; [by apply Permutation_nil_r in Hperm|].
  destruct l as [|z l]; [by apply Permutation_nil_l in Hperm|]. apply NoDup_cons in Hnd as [Hy Hnd].
  assert (NoDup (z :: l)) as [Hz Hndl]%NoDup_cons by (rewrite Hperm; by constructor).
  assert (z = y) as ->.
  { assert (z ∈ y :: k) as Hin by (rewrite <- Hperm; left). apply elem_of_cons in Hin as [?|Hin]; [done|].
    assert (before y z (z :: l)) as Hb' by (apply Hb, before_cons; by left).
    apply before_cons in Hb' as [[? _]|[_ ?]%before_elem]; [done|done]. }
  f_equal. apply IH; [by apply Permutation_cons_inv in Hperm|done|]. intros x w Hw.
  assert (before x w (y :: l)) as Hb' by (apply Hb, before_cons; by right).
  apply before_cons in Hb' as [[-> _]|?]; [|done]. by apply before_elem in Hw as [? _].
Qed.
End before.

Lemma before_increasing l i j : increasing l → i ∈ l → j ∈ l → i < j → before i j l.
Proof.
  unfold increasing. induction 1 as [|x l Hl IH Hx]; [by intros []%elem_of_nil|].
  rewrite Forall_forall in Hx. intros [->|Hi]%elem_of_cons [->|Hj]%elem_of_cons Hij; [lia| | |].
  - apply before_cons. by left.
  - apply Hx in Hi. lia.
  - apply before_cons. right. auto.
Qed.

Lemma before_omap {A B} (f : A → option B) x y (l : list A) : before x y (omap f l) →
  ∃ a b, before a b l ∧ f a = Some x ∧ f b = Some y.
Proof.
  induction l as [|z l IH]; [by intros []%before_nil|]. cbn. destruct (f z) as [w|] eqn:Hz.
  - intros [[-> Hy]|Hb]%before_cons.
    + apply list_elem_of_omap in Hy as (b & Hb & Hf). exists z, b. split_and!; [|done|done].
      apply before_cons. by left.
    + destruct (IH Hb) as (a & b & ? & ? & ?). exists a, b. split_and!; [|done|done]. apply before_cons. by right.
  - intros Hb. destruct (IH Hb) as (a & b & ? & ? & ?). exists a, b. split_and!; [|done|done].
    apply before_cons. by right.
Qed.

Lemma before_fmap {A B} (f : A → B) x y (l : list A) : before x y l → before (f x) (f y) (f <$> l).
Proof. intros (i & j & Hij & Hi & Hj). exists i, j. by rewrite !list_lookup_fmap, Hi, Hj. Qed.

(** The elements of a list that an increasing concatenation splits. *)
Lemma increasing_concat ls j k (l l' : list nat) x y : increasing (concat ls) → j < k →
  ls !! j = Some l → ls !! k = Some l' → x ∈ l → y ∈ l' → x < y.
Proof.
  unfold increasing. revert j k. induction ls as [|l0 ls IH]; intros j k Hinc Hjk Hj Hk Hx Hy; [done|].
  cbn in Hinc. apply StronglySorted_app in Hinc as (Hlt & _ & Hinc).
  destruct k as [|k]; [lia|]. destruct j as [|j]; cbn in Hj, Hk.
  - injection Hj as ->. apply Hlt; [done|]. apply list_elem_of_In, in_concat. exists l'.
    split; apply list_elem_of_In; [by eapply list_elem_of_lookup_2|done].
  - eapply (IH j k); [done|lia|done..].
Qed.

(** ** srtop: what a plan does to the rows

    The effects of a plan on the published rows, one after another; that
    [record_committed], which merges runs of insertions, records just that; and
    where the transactions of a plan end. *)

(** The rows after the effects of a plan. *)
Definition rows_after (plan : list Planned) (rows : list Row) : list Row :=
  foldl (λ rows planned, record_rows (pl_effect planned) rows) rows plan.
Definition record_all (plan : list Planned) (p : Published) : Published :=
  foldl (λ p planned, record (pl_effect planned) p) p plan.

Lemma rows_after_cons planned plan rows :
  rows_after (planned :: plan) rows = rows_after plan (record_rows (pl_effect planned) rows).
Proof. done. Qed.
Lemma rows_after_app plan plan' rows : rows_after (plan ++ plan') rows = rows_after plan' (rows_after plan rows).
Proof. apply foldl_app. Qed.
Lemma record_all_app plan plan' p : record_all (plan ++ plan') p = record_all plan' (record_all plan p).
Proof. apply foldl_app. Qed.

Lemma record_rows_of e p : pb_rows (record e p) = record_rows e (pb_rows p).
Proof. by destruct e as [| |? ? []| | | | | | | |]. Qed.

Lemma record_all_rows plan : ∀ p, pb_rows (record_all plan p) = rows_after plan (pb_rows p).
Proof.
  induction plan as [|planned plan IH]; intros p; [done|]. cbn. rewrite <- record_rows_of. apply IH.
Qed.

(** Only the effects matter to the rows. *)
Lemma rows_after_effects plan rows : rows_after plan rows = foldl (λ rows e, record_rows e rows) rows (pl_effect <$> plan).
Proof. revert rows. induction plan as [|planned plan IH]; intros rows; [done|]. apply IH. Qed.

Lemma record_all_effects plan p : record_all plan p = foldl (λ p e, record e p) p (pl_effect <$> plan).
Proof. revert p. induction plan as [|planned plan IH]; intros p; [done|]. apply IH. Qed.

(** ** Runs of insertions *)

(** Every insertion starts past the rows the one before it inserted. *)
Fixpoint ascending (floor : N) (inserts : list (N * list Row)) : Prop :=
  match inserts with
  | [] => True
  | (index, inserted) :: inserts => (floor <= index)%N ∧ ascending (index + len inserted) inserts
  end.
Definition insert_all (inserts : list (N * list Row)) (rows : list Row) : list Row :=
  foldl (λ rows insert, record_rows (EffInsert insert.1 insert.2) rows) rows inserts.

Lemma insert_at_app (A B inserted : list Row) :
  record_rows (EffInsert (len A) inserted) (A ++ B) = A ++ inserted ++ B.
Proof.
  cbn. unfold len. rewrite Nat2N.id, Nat.min_l by (rewrite length_app; lia). by rewrite take_app_length, drop_app_length.
Qed.

Lemma insert_pass_spec inserts : ∀ floor merged remaining,
  ascending floor inserts → length merged ≤ N.to_nat floor →
  insert_pass inserts merged remaining = insert_all inserts (merged ++ remaining).
Proof.
  induction inserts as [|[index inserted] inserts IH]; intros floor merged remaining; [done|].
  intros [Hfloor Hasc] Hlen. cbn [insert_pass]. unfold insert_all. cbn [foldl fst snd].
  rewrite (IH (index + len inserted)%N); [|done|].
  - unfold insert_all. f_equal. cbn. rewrite length_app.
    destruct (Nat.le_gt_cases (N.to_nat index) (length merged + length remaining)) as [Hle|Hgt].
    + rewrite Nat.min_l by done. rewrite take_app_ge, drop_app_ge by lia. by rewrite <- !app_assoc.
    + rewrite Nat.min_r by lia. rewrite (take_ge remaining), (drop_ge remaining) by lia.
      rewrite take_ge, drop_ge by (rewrite length_app; lia). by rewrite !app_nil_r, app_assoc.
  - rewrite !length_app, length_take. unfold len. lia.
Qed.

Lemma insertion_run_spec chunk : ∀ floor, let '(run, rest) := insertion_run floor chunk in
  ascending floor run ∧ (∀ rows, rows_after chunk rows = rows_after rest (insert_all run rows)) ∧
  (∀ p, record_all chunk p = record_all rest (with_rows p (insert_all run (pb_rows p)))) ∧
  length rest ≤ length chunk ∧
  match chunk with
  | planned :: _ => match pl_effect planned with EffInsert i _ => (floor <= i)%N → length rest < length chunk | _ => True end
  | [] => True
  end.
Proof.
  assert (∀ p, with_rows p (pb_rows p) = p) as Hid by by intros [].
  induction chunk as [|planned chunk IH]; intros floor; cbn [insertion_run].
  { split_and!; try done. intros p. cbn. by rewrite Hid. }
  destruct (pl_effect planned) as [| | | | | | | | |index inserted|] eqn:He;
    try (split_and!; try done; intros p; cbn; by rewrite Hid).
  destruct (N.ltb_spec index floor) as [Hlt|Hge].
  { split_and!; try done; [intros p; cbn; by rewrite Hid|lia]. }
  specialize (IH (index + len inserted)%N). destruct (insertion_run _ chunk) as [run rest].
  destruct IH as (Hasc & Hrows & Hrec & Hlen & _). split_and!.
  - done.
  - intros rows. cbn [rows_after foldl insert_all fst snd]. rewrite He. apply Hrows.
  - intros p. cbn [record_all foldl insert_all fst snd]. rewrite He. apply Hrec.
  - cbn. lia.
  - intros _. cbn. lia.
Qed.

(** Merging changes nothing: the effects are recorded one after another. *)
Lemma record_committed_spec fuel : ∀ chunk p, length chunk ≤ fuel → record_committed fuel chunk p = Ok (record_all chunk p).
Proof.
  induction fuel as [|fuel IH]; intros [|planned chunk] p Hfuel; cbn in Hfuel; [done|lia|done|].
  cbn [record_committed]. destruct (pl_effect planned) as [| | | | | | | | |index inserted|] eqn:He;
    try (rewrite IH by lia; unfold record_all; cbn; by rewrite He).
  pose proof (insertion_run_spec (planned :: chunk) 0) as Hrun.
  destruct (insertion_run 0 (planned :: chunk)) as [run rest]. destruct Hrun as (Hasc & _ & Hrec & _ & Hlt).
  rewrite He in Hlt. cbn [length] in Hlt. rewrite IH by lia.
  rewrite Hrec. unfold insert_run. by rewrite (insert_pass_spec _ 0).
Qed.

(** ** Chunks of a list *)

Lemma chunks_go_concat {A} n (l : list A) : n ≠ 0 → ∀ fuel, length l ≤ fuel → concat (chunks_go fuel n l) = l.
Proof.
  intros Hn fuel. revert l. induction fuel as [|fuel IH]; intros [|x l] Hfuel; cbn in Hfuel; [done|lia|done|].
  cbn [chunks_go concat]. rewrite IH; [apply take_drop|]. rewrite length_drop. cbn. lia.
Qed.
Lemma chunks_concat {A} n (l : list A) : n ≠ 0 → concat (chunks n l) = l.
Proof. intros. by apply chunks_go_concat. Qed.

Lemma chunks_go_each {A} n (l : list A) : n ≠ 0 → ∀ fuel,
  Forall (λ c, c ≠ [] ∧ length c ≤ n) (chunks_go fuel n l).
Proof.
  intros Hn fuel. revert l. induction fuel as [|fuel IH]; intros [|x l]; [by constructor..|].
  cbn [chunks_go]. constructor; [|apply IH]. rewrite length_take. destruct n; [done|]. split; [done|lia].
Qed.
Lemma chunks_each {A} n (l : list A) : n ≠ 0 → Forall (λ c, c ≠ [] ∧ length c ≤ n) (chunks n l).
Proof. intros. by apply chunks_go_each. Qed.
Lemma chunks_nil {A} n (l : list A) : n ≠ 0 → chunks n l = [] ↔ l = [].
Proof. intros Hn. split; [|by intros ->]. intros Hc. by rewrite <- (chunks_concat n l), Hc. Qed.

Lemma length_chunks_go {A} n (l : list A) : n ≠ 0 → ∀ fuel, length l ≤ fuel →
  length (chunks_go fuel n l) = div_ceil (length l) n.
Proof.
  intros Hn fuel. revert l. unfold div_ceil. induction fuel as [|fuel IH]; intros [|x l] Hfuel; cbn in Hfuel.
  1,3: cbn; rewrite Nat.div_small by lia; done.
  - lia.
  - cbn [chunks_go]. cbn [length]. rewrite IH by (rewrite length_drop; cbn; lia). rewrite length_drop. cbn [length].
    replace (S (length l) + n - 1) with (length l + 1 * n) by lia. rewrite Nat.div_add by done.
    destruct (Nat.le_gt_cases n (S (length l))) as [Hle|Hgt].
    + replace (S (length l) - n + n - 1) with (length l) by lia. lia.
    + rewrite (Nat.div_small (length l)) by lia. replace (S (length l) - n + n - 1) with (n - 1) by lia.
      rewrite Nat.div_small by lia. lia.
Qed.
Lemma length_chunks {A} n (l : list A) : n ≠ 0 → length (chunks n l) = div_ceil (length l) n.
Proof. intros. by apply length_chunks_go. Qed.

Lemma delete_batch_ne batch max_bytes : delete_batch batch max_bytes ≠ 0.
Proof. unfold delete_batch. lia. Qed.

(** Deletions, whatever batches they come in *)
Lemma delete_all (mk : list ItemId → Planned) idss : (∀ ids, pl_effect (mk ids) = EffDelete ids) → ∀ rows,
  rows_after (mk <$> idss) rows = filter (λ row, row_item_id row ∉ concat idss) rows.
Proof.
  intros Hmk. induction idss as [|ids idss IH]; intros rows; cbn [fmap list_fmap concat].
  - cbn. symmetry. apply filter_all. intros x _. apply not_elem_of_nil.
  - rewrite rows_after_cons, Hmk, IH. cbn [record_rows].
    rewrite list_filter_filter. apply list_filter_iff. intros row. rewrite not_elem_of_app. tauto.
Qed.

(** ** Where transactions end *)

(** The plan may be cut after its first [k] operations: no unit is split. *)
Definition cut_ok (plan : list Planned) (k : nat) : Prop :=
  k = 0 ∨ length plan ≤ k ∨ joins plan (Nat.pred k) = false.

Lemma fitting_bounds max_ops max_bytes plan : ∀ bytes first,
  fitting max_ops max_bytes bytes first plan ≤ Nat.min max_ops (length plan).
Proof.
  revert plan. induction max_ops as [|max_ops IH]; intros [|planned plan] bytes first; cbn [fitting length]; [lia..|].
  destruct (_ && _); [lia|]. specialize (IH plan (bytes + pl_bytes planned)%N false). lia.
Qed.

Lemma fitting_first max_ops max_bytes plan : max_ops ≠ 0 → plan ≠ [] → 0 < fitting max_ops max_bytes 0 true plan.
Proof. destruct max_ops, plan; cbn; [done..|lia]. Qed.

Lemma cut_back_spec plan cut : cut_back plan cut ≤ cut ∧
  (cut_back plan cut = 0 ∨ joins plan (Nat.pred (cut_back plan cut)) = false).
Proof.
  induction cut as [|cut IH]; cbn [cut_back]; [by auto|].
  destruct (joins plan cut) eqn:Hj; [|cbn; auto]. destruct IH as [Hle Hor]. split; [lia|done].
Qed.

Lemma cut_forward_spec plan fuel : ∀ stop, length plan ≤ stop + fuel → stop ≤ length plan →
  let stop' := cut_forward fuel plan stop in
  stop ≤ stop' ≤ length plan ∧ (stop' = length plan ∨ joins plan (Nat.pred stop') = false).
Proof.
  induction fuel as [|fuel IH]; intros stop Hfuel Hle; cbn [cut_forward]; [split; [lia|left; lia]|].
  destruct (Nat.ltb_spec stop (length plan)) as [Hlt|Hge]; cbn [andb]; [|split; [lia|left; lia]].
  destruct (joins plan (Nat.pred stop)) eqn:Hj; [|split; [lia|by right]].
  destruct (IH (S stop)) as [? ?]; [lia..|]. split; [lia|done].
Qed.

(** A transaction takes an operation at least, and ends where no unit is split. *)
Lemma chunk_end_spec max_ops max_bytes plan : max_ops ≠ 0 → plan ≠ [] →
  0 < chunk_end max_ops max_bytes plan ≤ length plan ∧ cut_ok plan (chunk_end max_ops max_bytes plan).
Proof.
  intros Hops Hplan. unfold chunk_end, cut_ok. pose proof (fitting_first max_ops max_bytes plan Hops Hplan) as Hpos.
  pose proof (fitting_bounds max_ops max_bytes plan 0 true) as Hle. revert Hpos Hle.
  generalize (fitting max_ops max_bytes 0 true plan) as stop. intros stop Hpos Hle.
  destruct (Nat.ltb_spec stop (length plan)) as [Hlt|Hge]; cbn [andb]; [|split; [lia|right; left; lia]].
  destruct (joins plan (Nat.pred stop)) eqn:Hj; [|split; [lia|auto]].
  destruct (cut_back_spec plan stop) as [Hcut Hor].
  destruct (Nat.ltb_spec 0 (cut_back plan stop)) as [Hgt|Hz]; [split; [lia|destruct Hor; [lia|auto]]|].
  destruct (cut_forward_spec plan (length plan) stop) as [Hb Hend]; [lia..|]. split; [lia|].
  right. destruct Hend as [->|]; [left; lia|by right].
Qed.

Lemma joins_drop plan k i : joins (drop k plan) i = joins plan (k + i).
Proof. unfold joins. by rewrite lookup_drop. Qed.

Lemma cut_ok_drop plan k j : cut_ok plan k → cut_ok (drop k plan) j → cut_ok plan (k + j).
Proof.
  unfold cut_ok. rewrite length_drop, joins_drop. intros Hk Hj. destruct (decide (j = 0)) as [->|Hne].
  - by rewrite Nat.add_0_r.
  - replace (Nat.pred (k + j)) with (k + Nat.pred j) by lia. destruct Hj as [?|[?|?]]; [lia| |auto].
    right. left. lia.
Qed.

(** ** Plans made of units *)

(** A unit: its operations are joined, and it is no longer than a transaction. *)
Record unit_shape (max_ops : nat) (u : list Planned) : Prop := {
  us_some : u ≠ [];
  us_ops : length u ≤ max_ops;
  us_joins k : joins u k = true ↔ S k < length u;
}.
Definition whole_units (max_ops : nat) (plan : list Planned) : Prop :=
  ∃ us, plan = concat us ∧ Forall (unit_shape max_ops) us.

Lemma whole_units_app max_ops plan plan' : whole_units max_ops plan → whole_units max_ops plan' → whole_units max_ops (plan ++ plan').
Proof.
  intros (us & -> & Hus) (us' & -> & Hus'). exists (us ++ us'). by rewrite concat_app, Forall_app.
Qed.

Lemma whole_units_single max_ops plan : 1 ≤ max_ops → Forall (λ planned, pl_joins_next planned = false) plan →
  whole_units max_ops plan.
Proof.
  intros Hops Hplan. exists ((λ planned, [planned]) <$> plan). split.
  - clear. induction plan as [|planned plan IH]; [done|]. cbn. by rewrite <- IH.
  - apply Forall_fmap. eapply Forall_impl; [exact Hplan|]. intros planned Hj. split; [done|done|].
    intros [|k]; unfold joins; cbn; [rewrite Hj|]; split; (done || lia).
Qed.

Lemma joins_app_l u plan i : i < length u → joins (u ++ plan) i = joins u i.
Proof. intros Hi. unfold joins. by rewrite lookup_app_l. Qed.
Lemma joins_app_r u plan i : length u ≤ i → joins (u ++ plan) i = joins plan (i - length u).
Proof. intros Hi. unfold joins. by rewrite lookup_app_r. Qed.

(** A cut between units leaves units. *)
Lemma whole_units_drop max_ops plan k : whole_units max_ops plan → cut_ok plan k → whole_units max_ops (drop k plan).
Proof.
  intros (us & -> & Hus). revert k. induction Hus as [|u us Hu Hus IH]; intros k Hcut; cbn [concat].
  { exists []. by rewrite drop_nil. }
  destruct (decide (k = 0)) as [->|Hk]; [exists (u :: us); by rewrite drop_0; auto|].
  cbn [concat] in Hcut. destruct (Nat.lt_ge_cases k (length u)) as [Hlt|Hge].
  - exfalso. unfold cut_ok in Hcut. rewrite length_app, joins_app_l in Hcut by lia.
    destruct Hcut as [?|[?|Hj]]; [done|lia|]. assert (joins u (Nat.pred k) = true) as Hj' by (apply Hu; lia). congruence.
  - rewrite drop_app_ge by done. apply IH. unfold cut_ok in *. rewrite length_app in Hcut.
    destruct (decide (k = length u)) as [->|Hne]; [left; lia|]. rewrite joins_app_r in Hcut by lia.
    destruct Hcut as [?|[?|Hj]]; [done|right; left; lia|]. right. right.
    by replace (Nat.pred (k - length u)) with (Nat.pred k - length u) by lia.
Qed.

Lemma cut_back_none plan cut : cut_back plan cut = 0 → ∀ i, i < cut → joins plan i = true.
Proof.
  induction cut as [|cut IH]; [lia|]. cbn [cut_back]. destruct (joins plan cut) eqn:Hj; [|done].
  intros Hz i Hi. destruct (decide (i = cut)) as [->|]; [done|]. apply IH; [done|lia].
Qed.

Lemma cut_forward_le plan fuel b : joins plan (Nat.pred b) = false → ∀ stop, stop ≤ b → cut_forward fuel plan stop ≤ b.
Proof.
  intros Hb. induction fuel as [|fuel IH]; intros stop Hle; cbn [cut_forward]; [done|].
  destruct (_ && _) eqn:Hcond; [|done]. apply andb_true_iff in Hcond as [_ Hj]. apply IH.
  destruct (decide (stop = b)) as [->|]; [congruence|lia].
Qed.

(** A transaction of units is no longer than it may be. *)
Lemma chunk_end_bounded max_ops max_bytes plan : whole_units max_ops plan → chunk_end max_ops max_bytes plan ≤ max_ops.
Proof.
  intros (us & Hplan & Hus). unfold chunk_end. pose proof (fitting_bounds max_ops max_bytes plan 0 true) as Hle.
  revert Hle. generalize (fitting max_ops max_bytes 0 true plan) as stop. intros stop Hle.
  destruct (_ && _) eqn:Hcond; [|lia]. apply andb_true_iff in Hcond as [Hlt%Nat.ltb_lt Hj].
  destruct (cut_back_spec plan stop) as [Hcut _].
  destruct (Nat.ltb_spec 0 (cut_back plan stop)) as [_|Hz]; [lia|].
  destruct Hus as [|u us Hu Hus]; [subst plan; cbn in Hlt; lia|]. cbn [concat] in Hplan.
  assert (joins plan (Nat.pred (length u)) = false) as Hend.
  { rewrite Hplan. pose proof (us_some _ _ Hu) as Hne. rewrite joins_app_l by (destruct u; [done|cbn; lia]).
    apply not_true_iff_false. rewrite (us_joins _ _ Hu). lia. }
  etrans; [apply (cut_forward_le _ _ (length u)); [exact Hend|]|apply Hu].
  apply Nat.nlt_ge. intros Hgt. assert (joins plan (Nat.pred (length u)) = true); [|congruence].
  apply (cut_back_none plan stop); lia.
Qed.

(** ** Plans that can be executed *)

(** What an operation needs of the rows it finds: a deletion names rows that are
    there, each once. *)
Definition effect_ok (e : Effect) (rows : list Row) : Prop :=
  match e with EffDelete ids => NoDup ids ∧ ∀ id, id ∈ ids → id ∈ ids_of rows | _ => True end.
Fixpoint executable (effects : list Effect) (rows : list Row) : Prop :=
  match effects with
  | [] => True
  | e :: effects => effect_ok e rows ∧ executable effects (record_rows e rows)
  end.

Lemma executable_app effects effects' rows : executable effects rows →
  executable effects' (foldl (λ rows e, record_rows e rows) rows effects) → executable (effects ++ effects') rows.
Proof. revert rows. induction effects as [|e effects IH]; intros rows; cbn; [done|]. intros [? ?] ?. split; [done|auto]. Qed.

Lemma executable_split effects effects' : ∀ rows, executable (effects ++ effects') rows →
  executable effects rows ∧ executable effects' (foldl (λ rows e, record_rows e rows) rows effects).
Proof. induction effects as [|e effects IH]; intros rows; cbn; [done|]. intros [? ?%IH]. tauto. Qed.

Definition sends (e : Effect) : Prop := match e with EffDelete _ => False | _ => True end.
Lemma executable_sends effects : Forall sends effects → ∀ rows, executable effects rows.
Proof.
  induction 1 as [|e effects He _ IH]; intros rows; [done|]. split; [by destruct e|apply IH].
Qed.

Definition effect_rows (e : Effect) : list Row :=
  match e with EffInsert _ rows | EffUpdate rows => rows | _ => [] end.

Lemma executable_deletes idss : ∀ rows, NoDup (concat idss) → (∀ id, id ∈ concat idss → id ∈ ids_of rows) →
  executable (EffDelete <$> idss) rows.
Proof.
  induction idss as [|ids idss IH]; intros rows; cbn [fmap list_fmap concat executable]; [done|].
  intros (Hnd & Hdisj & Hnd')%NoDup_app Hin. split; [split; [done|intros id Hid; apply Hin, elem_of_app; by left]|].
  apply IH; [done|]. intros id Hid. cbn [record_rows]. rewrite (ids_filter _ (λ id, id ∉ ids)) by done.
  apply list_elem_of_filter. split; [by intros ?%Hdisj|]. apply Hin, elem_of_app. by right.
Qed.

Section honest.
Context `{EventRegistry, SdkProperties}.
(** A planned operation is the one its effect records, and what it carries are rows
    of the target. *)
Record honest (target : list Row) (planned : Planned) : Prop := {
  ho_op : pl_op planned = effect_op (pl_effect planned);
  ho_rows row : row ∈ effect_rows (pl_effect planned) → row ∈ target;
}.
Lemma honest_new target e : (∀ row, row ∈ effect_rows e → row ∈ target) → honest target (Planned_new e).
Proof. by split. Qed.
Lemma honest_in_move target e : (∀ row, row ∈ effect_rows e → row ∈ target) → honest target (in_move e).
Proof. by split. Qed.
Lemma honest_joined target planned : honest target (joined planned) ↔ honest target planned.
Proof. by split; intros []; split. Qed.
End honest.
