(* ===== verification/SrtopDiffFacts.v ===== *)
(** * srtop: the difference of two collections

    [diff] of [apps/srtop/src/refresh.rs] plans deletions, insertions and updates
    that turn the published rows into the target ones, item for item, each within
    the bounds on one operation. *)

From S2P Require Import Prelude.
From S2P Require Import Values.
From S2P Require Import Models.
From S2P Require Import Event.
From S2P Require Import SrtopSort.
From S2P Require Import SrtopRefresh.
From S2P Require Import SrtopCommit.
From S2P Require Import SrtopRows.

(** ** Bounds on one operation *)

(** How many items an effect carries. *)
Definition effect_items (e : Effect) : nat :=
  match e with
  | EffDelete ids => length ids
  | EffInsert _ rows | EffUpdate rows => length rows
  | _ => 0
  end.
(** An operation with [batch] items and [max_bytes] bytes at most, unless it
    carries a single item. *)
Definition within_batch (batch : nat) (max_bytes : N) (planned : Planned) : Prop :=
  1 ≤ effect_items (pl_effect planned) ≤ batch ∧
  (effect_items (pl_effect planned) = 1 ∨ (pl_bytes planned ≤ max_bytes)%N).

Lemma sum_bytes_app {A} (f : A → N) l k : sum_bytes f (l ++ k) = (sum_bytes f l + sum_bytes f k)%N.
Proof. unfold sum_bytes. induction l as [|x l IH]; cbn; [done|]. rewrite IH. lia. Qed.

Lemma sum_bytes_snoc {A} (f : A → N) l x : sum_bytes f (l ++ [x]) = (sum_bytes f l + f x)%N.
Proof. rewrite sum_bytes_app. unfold sum_bytes at 2. cbn. lia. Qed.

Lemma rows_positive rows : (len rows * 24 ≤ sum_bytes row_wire_bytes rows)%N.
Proof.
  induction rows as [|row rows IH]; [done|].
  change (len (row :: rows) * 24 ≤ row_wire_bytes row + sum_bytes row_wire_bytes rows)%N.
  assert (24 ≤ row_wire_bytes row)%N.
  { unfold row_wire_bytes, MODEL_ITEM_FRAMING_BYTES. assert (7 ≤ value_wire_bytes (row_value row))%N; [|lia].
    destruct (row_value row); cbn; unfold VALUE_FRAMING_BYTES; lia. }
  unfold len in *. cbn [length]. lia.
Qed.

Section diff.
Context `{EventRegistry, SdkProperties}.
Variables (published target : list Row) (batch : nat) (max_bytes : N).
Hypothesis (Hpub : NoDup (ids_of published)) (Htgt : NoDup (ids_of target)) (Hbatch : 1 ≤ batch).

(** ** What is retained *)

#[local] Abbreviation kept_upto hk := (match hk with None => 0 | Some h => S h end).
Record diff_inv (done_ : list Row) (st : list ItemId * gset ItemId * option nat) : Prop := {
  di_deleted : st.1.1 = ids_of (filter (λ row, row_item_id row ∉ st.1.2) done_);
  di_retained id : id ∈ st.1.2 → id ∈ ids_of done_;
  di_order : filter (λ id, id ∈ st.1.2) (ids_of done_) `sublist_of` take (kept_upto st.2) (ids_of target);
  di_highest h : st.2 = Some h → ∃ id, ids_of target !! h = Some id ∧ id ∈ st.1.2;
}.

Lemma diff_step_inv done_ row st : row_item_id row ∉ ids_of done_ → diff_inv done_ st →
  diff_inv (done_ ++ [row]) (diff_step target st row).
Proof using Hpub Htgt Hbatch.
  destruct st as [[deleted retained] highest]. intros Hnew [Hdel Hret Hord Hhigh]. cbn [fst snd] in *.
  assert (row_item_id row ∉ retained) as Hnr by by intros ?%Hret.
  assert (diff_inv (done_ ++ [row]) (deleted ++ [row_item_id row], retained, highest)) as Hdrop.
  { split; cbn [fst snd].
    - rewrite filter_app, ids_app, Hdel. f_equal. by rewrite filter_cons_True, filter_nil.
    - intros id Hid. rewrite ids_app, elem_of_app. left. by apply Hret.
    - rewrite ids_app, filter_app. change (ids_of [row]) with [row_item_id row]. rewrite filter_cons_False, filter_nil, app_nil_r by done. exact Hord.
    - exact Hhigh. }
  unfold diff_step. destruct (row_position target (row_item_id row)) as [position|] eqn:Hpos; [|exact Hdrop].
  apply row_position_Some in Hpos.
  destruct (match highest with Some kept => (position <? kept)%nat | None => false end) eqn:Hback; [exact Hdrop|].
  assert (kept_upto highest ≤ position) as Hle.
  { destruct highest as [h|]; [|lia]. apply Nat.ltb_ge in Hback. apply Nat.le_neq. split; [done|].
    intros <-. destruct (Hhigh h eq_refl) as (id & Hid & Hin). congruence. }
  split; cbn [fst snd].
  - rewrite filter_app, ids_app, Hdel. rewrite (filter_cons_False _ row) by set_solver.
    rewrite filter_nil, app_nil_r. f_equal. apply filter_ext_in. intros other Hother%ids_elem.
    assert (row_item_id other ≠ row_item_id row) by (by intros Heq; rewrite Heq in Hother). set_solver.
  - intros id. rewrite ids_app, elem_of_app. intros [->%elem_of_singleton|Hid]%elem_of_union; [right; left|left; auto].
  - rewrite ids_app, filter_app. change (ids_of [row]) with [row_item_id row]. rewrite filter_cons_True, filter_nil by set_solver.
    rewrite (take_S_r _ _ _ Hpos). apply sublist_app; [|done].
    rewrite (filter_ext_in _ (λ id, id ∈ retained)).
    + etrans; [exact Hord|]. apply take_sublist_mono. exact Hle.
    + intros id Hid. assert (id ≠ row_item_id row) by by intros ->. set_solver.
  - intros h [= <-]. exists (row_item_id row). split; [done|set_solver].
Qed.

Lemma diff_fold_inv : diff_inv published (foldl (diff_step target) ([], ∅, None) published).
Proof using Hpub Htgt Hbatch.
  assert (∀ rest done_ st, NoDup (ids_of (done_ ++ rest)) → diff_inv done_ st →
    diff_inv (done_ ++ rest) (foldl (diff_step target) st rest)) as Hloop.
  { induction rest as [|row rest IH]; intros done_ st Hnd Hst; [by rewrite app_nil_r|]. cbn [foldl].
    replace (done_ ++ row :: rest) with ((done_ ++ [row]) ++ rest) in * by by rewrite <- app_assoc.
    apply IH; [done|]. apply diff_step_inv; [|done]. rewrite !ids_app in Hnd.
    apply NoDup_app in Hnd as (Hnd & _ & _). apply NoDup_app in Hnd as (_ & Hdisj & _).
    intros Hin. by apply (Hdisj _ Hin); left. }
  apply (Hloop published [] ([], ∅, None)); [done|]. split; cbn; [done|set_solver|apply sublist_nil_l|done].
Qed.

Variable retained : gset ItemId.
Hypothesis (Hret : ∀ id, id ∈ retained → id ∈ ids_of published)
  (Hord : filter (λ id, id ∈ retained) (ids_of published) `sublist_of` ids_of target).

(** ** The rows before the updates: a retained row is still the published one. *)
Definition old_row (row : Row) : Row :=
  if decide (row_item_id row ∈ retained) then default row (last_row published (row_item_id row)) else row.
#[local] Abbreviation stays := (λ row, row_item_id row ∈ retained).

Lemma old_row_id row : row_item_id (old_row row) = row_item_id row.
Proof using Type.
  unfold old_row. case_decide; [|done]. destruct (last_row _ _) as [old|] eqn:Ho; [|done]. by apply last_row_Some in Ho as [_ ?].
Qed.
Lemma old_row_new row : row_item_id row ∉ retained → old_row row = row.
Proof using Type. intros. unfold old_row. by rewrite decide_False. Qed.

Lemma retained_rows_eq : filter stays published = filter stays (old_row <$> target).
Proof using Hpub Htgt Hret Hord.
  apply (fmap_inj_in row_item_id).
  - intros a b [Ha1 Ha]%list_elem_of_filter [Hb1 Hb]%list_elem_of_filter Hab.
    apply list_elem_of_fmap in Hb as (row & -> & Hrow). rewrite old_row_id in Hb1, Hab. unfold old_row in *.
    rewrite decide_True by done. symmetry.
    rewrite (proj2 (last_row_iff published (row_item_id row) a Hpub)); done.
  - fold (ids_of (filter stays published)) (ids_of (filter stays (old_row <$> target))).
    rewrite !(ids_filter _ (λ id, id ∈ retained)) by done.
    assert (ids_of (old_row <$> target) = ids_of target) as ->.
    { unfold ids_of. rewrite <- list_fmap_compose. apply list_fmap_ext. intros _ row _. apply old_row_id. }
    apply sublist_filter_eq; [done|done|]. intros id Hid. rewrite list_elem_of_filter. split; [|tauto]. auto.
Qed.

(** ** Insertions *)

#[local] Abbreviation budget := (item_budget max_bytes).
Definition run_fits (rows : list Row) : Prop :=
  length rows ≤ batch ∧ (length rows ≤ 1 ∨ (sum_bytes row_wire_bytes rows ≤ budget)%N).

Lemma run_within mk rows : (∀ r, effect_items (mk r) = length r) → (∀ r, payload_bytes (mk r) = sum_bytes row_wire_bytes r) →
  rows ≠ [] → run_fits rows → within_batch batch max_bytes (Planned_new (mk rows)).
Proof using Hbatch.
  intros Hi Hb Hne [Hlen Hfit]. unfold within_batch, Planned_new. cbn [pl_effect pl_bytes]. rewrite Hi, Hb.
  pose proof (rows_positive rows) as Hpos. destruct rows as [|row rows]; [done|]. unfold len in Hpos. cbn [length] in *.
  split; [lia|]. destruct Hfit as [?|Hfit]; [left; lia|]. unfold item_budget, operation_bytes in *. lia.
Qed.

Record insert_inv (D rest : list Row) (st : insert_run_state) : Prop := {
  ii_rows : rows_after (ir_plan st) published = (old_row <$> D) ++ filter stays (old_row <$> rest);
  ii_split : target = D ++ ir_rows st ++ rest;
  ii_start : ir_rows st ≠ [] → ir_start st = len D;
  ii_new : Forall (λ row, row_item_id row ∉ retained) (ir_rows st);
  ii_plan : Forall (within_batch batch max_bytes) (ir_plan st);
  ii_bytes : ir_bytes st = sum_bytes row_wire_bytes (ir_rows st);
  ii_fits : run_fits (ir_rows st);
}.

Lemma flush_inv D rest st : insert_inv D rest st →
  insert_inv (D ++ ir_rows st) rest (flush_insert st) ∧ ir_rows (flush_insert st) = [].
Proof using Hbatch.
  intros [Hrows Hsplit Hstart Hnew Hplan Hbytes Hfits]. unfold flush_insert.
  destruct (ir_rows st) as [|row rows] eqn:Hr.
  - split; [|done]. rewrite app_nil_r. by split.
  - split; [|done]. rewrite <- Hr in *. split; cbn [ir_plan ir_rows ir_start ir_bytes].
    + rewrite rows_after_app, Hrows. cbn [rows_after foldl pl_effect Planned_new]. rewrite Hstart by by rewrite Hr.
      replace (len D) with (len (old_row <$> D)) by (unfold len; by rewrite length_fmap).
      rewrite insert_at_app, fmap_app, <- app_assoc. f_equal. f_equal.
      rewrite (list_fmap_ext old_row id); [by rewrite list_fmap_id|].
      intros i x Hx. apply old_row_new. by eapply Forall_lookup_1 in Hnew.
    + by rewrite <- app_assoc.
    + done.
    + constructor.
    + apply Forall_app. split; [done|]. constructor; [|done]. apply (run_within (EffInsert (ir_start st))); [done..| |done].
      by rewrite Hr.
    + done.
    + split; cbn; lia.
Qed.

Lemma insert_step_inv D row rest st index : insert_inv D (row :: rest) st →
  index = length D + length (ir_rows st) → ∃ D', insert_inv D' rest (insert_step retained batch budget st (index, row)) ∧
    S index = length D' + length (ir_rows (insert_step retained batch budget st (index, row))).
Proof using Hbatch.
  intros Hst Hindex. unfold insert_step. destruct (flush_inv _ _ _ Hst) as [Hflush Hnil]. case_decide as Hin.
  - exists ((D ++ ir_rows st) ++ [row]). split; [|rewrite Hnil, !length_app; cbn; lia].
    destruct Hflush as [Hrows Hsplit Hstart Hnew Hplan Hbytes Hfits]. rewrite Hnil in *. split; rewrite ?Hnil; try done.
    + rewrite Hrows, fmap_cons, filter_cons_True by by rewrite old_row_id.
      rewrite (fmap_app _ (D ++ _)), <- app_assoc. done.
    + rewrite Hsplit. by rewrite <- !app_assoc.
  - assert (∀ D st, insert_inv D (row :: rest) st → index = length D + length (ir_rows st) →
      run_fits (ir_rows st ++ [row]) → ∃ D' : list Row,
        let st' := mkRun (ir_plan st) (match ir_rows st with [] => N.of_nat index | _ => ir_start st end)
          (ir_rows st ++ [row]) (ir_bytes st + row_wire_bytes row) in
        insert_inv D' rest st' ∧ S index = length D' + length (ir_rows st')) as Hpush.
    { clear Hst Hindex Hflush Hnil D st. intros D st [Hrows Hsplit Hstart Hnew Hplan Hbytes Hfits] Hindex Hfit.
      exists D. split; [|cbn; rewrite length_app; cbn; lia]. split; cbn [ir_plan ir_rows ir_start ir_bytes]; try done.
      - rewrite Hrows, fmap_cons, filter_cons_False; [done|]. by rewrite old_row_id.
      - rewrite Hsplit. by rewrite <- !app_assoc.
      - intros _. destruct (ir_rows st); [|by apply Hstart]. cbn in Hindex. unfold len. lia.
      - apply Forall_app. split; [done|]. by constructor.
      - rewrite Hbytes, sum_bytes_snoc. lia. }
    destruct (bool_decide_reflect (ir_rows st ≠ [])) as [Hne|Hnil2]; cbn [andb].
    + destruct (Nat.eqb_spec (length (ir_rows st)) batch) as [Hb|Hb]; cbn [orb];
        [|destruct (N.ltb_spec budget (ir_bytes st + row_wire_bytes row)) as [Hover|Hfit]].
      1,2: apply (Hpush _ _ Hflush); [rewrite Hnil, length_app; cbn; lia|rewrite Hnil; split; cbn; lia].
      apply (Hpush _ _ Hst); [done|]. destruct Hst as [_ _ _ _ _ Hbytes [Hlen _]]. split.
      * rewrite length_app. cbn. lia.
      * right. rewrite sum_bytes_snoc. rewrite <- Hbytes. lia.
    + apply (Hpush _ _ Hst); [done|]. apply dec_stable in Hnil2. rewrite Hnil2. split; cbn; lia.
Qed.

Lemma insert_loop rest : ∀ D st index, insert_inv D rest st → index = length D + length (ir_rows st) →
  let st' := flush_insert (foldl (insert_step retained batch budget) st (imap (λ i, pair (index + i)) rest)) in
  rows_after (ir_plan st') published = old_row <$> target ∧ Forall (within_batch batch max_bytes) (ir_plan st').
Proof using Hbatch.
  induction rest as [|row rest IH]; intros D st index Hst Hindex.
  - cbn [imap foldl]. destruct (flush_inv _ _ _ Hst) as [Hf Hnil]. split; [|by destruct Hf].
    destruct Hf as [Hrows Hsplit _ _ _ _ _]. rewrite Hnil in Hsplit. rewrite Hrows. cbn. rewrite Hsplit, !app_nil_r. done.
  - cbn [imap foldl]. rewrite Nat.add_0_r.
    destruct (insert_step_inv _ _ _ _ _ Hst Hindex) as (D' & Hst' & Hindex').
    rewrite (imap_ext _ (λ i, pair (S index + i)) rest) by (intros; cbn; by rewrite Nat.add_succ_r).
    by apply (IH D').
Qed.

(** ** Updates *)

Lemma updated_by_app u u' row : updated_by u' (updated_by u row) = updated_by (u ++ u') row.
Proof using Type.
  unfold updated_by. rewrite last_row_app. destruct (last_row u (row_item_id row)); cbn [row_item_id]; by destruct (last_row u' _).
Qed.

Record update_inv (start : list Row) (seen : list Row) (st : update_state) : Prop := {
  ui_rows : ∃ sent, rows_after (up_plan st) published = updated_by sent <$> start ∧ seen = sent ++ up_rows st;
  ui_plan : Forall (within_batch batch max_bytes) (up_plan st);
  ui_bytes : up_bytes st = sum_bytes row_wire_bytes (up_rows st);
  ui_fits : run_fits (up_rows st);
}.

Lemma send_updates start seen st : update_inv start seen st → up_rows st ≠ [] →
  update_inv start seen (mkUpdates (up_plan st ++ [Planned_new (EffUpdate (up_rows st))]) [] 0).
Proof using Hbatch.
  intros [(sent & Hrows & ->) Hplan Hbytes Hfits] Hne. split; cbn [up_plan up_rows up_bytes].
  - exists (sent ++ up_rows st). rewrite app_nil_r. split; [|done].
    rewrite rows_after_app, Hrows. cbn [rows_after foldl pl_effect Planned_new record_rows].
    rewrite <- list_fmap_compose. apply list_fmap_ext. intros _ row _. apply updated_by_app.
  - apply Forall_app. split; [done|]. constructor; [|done]. by apply (run_within EffUpdate).
  - done.
  - split; cbn; lia.
Qed.

Lemma update_step_inv start seen st row : update_inv start seen st →
  update_inv start (seen ++ [row]) (update_step batch budget st row).
Proof using Hbatch.
  intros Hst. unfold update_step.
  assert (∀ st, update_inv start seen st → run_fits (up_rows st ++ [row]) → update_inv start (seen ++ [row])
    (mkUpdates (up_plan st) (up_rows st ++ [row]) (up_bytes st + row_wire_bytes row))) as Hpush.
  { clear Hst st. intros st [(sent & Hrows & ->) Hplan Hbytes Hfits] Hfit. split; cbn [up_plan up_rows up_bytes]; try done.
    - exists sent. split; [done|]. by rewrite app_assoc.
    - rewrite Hbytes, sum_bytes_snoc. lia. }
  destruct (bool_decide_reflect (up_rows st ≠ [])) as [Hne|Hnil]; cbn [andb].
  - destruct (Nat.eqb_spec (length (up_rows st)) batch) as [Hb|Hb]; cbn [orb];
      [|destruct (N.ltb_spec budget (up_bytes st + row_wire_bytes row)) as [Hover|Hfit]].
    1,2: apply Hpush; [by apply send_updates|split; cbn; lia].
    apply Hpush; [done|]. destruct Hst as [_ _ Hbytes [Hlen _]]. split.
    + rewrite length_app. cbn. lia.
    + right. rewrite sum_bytes_snoc. rewrite <- Hbytes. lia.
  - apply Hpush; [done|]. apply dec_stable in Hnil. rewrite Hnil. split; cbn; lia.
Qed.

Lemma update_loop start rows : ∀ seen st, update_inv start seen st →
  let plan := finish_updates (foldl (update_step batch budget) st rows) in
  rows_after plan published = updated_by (seen ++ rows) <$> start ∧ Forall (within_batch batch max_bytes) plan.
Proof using Hbatch.
  induction rows as [|row rows IH]; intros seen st Hst; cbn [foldl].
  - rewrite app_nil_r. unfold finish_updates. destruct (up_rows st) eqn:Hu.
    + destruct Hst as [(sent & Hrows & ->) Hplan _ _]. rewrite Hu, app_nil_r. done.
    + rewrite <- Hu. assert (up_rows st ≠ []) as Hne by by rewrite Hu.
      destruct (send_updates _ _ _ Hst Hne) as [(sent & Hrows & Heq) Hplan _ _]. cbn in Heq. rewrite app_nil_r in Heq.
      subst. done.
  - replace (seen ++ row :: rows) with ((seen ++ [row]) ++ rows) by by rewrite <- app_assoc.
    apply IH. by apply update_step_inv.
Qed.

(** The item of a row the updates and the old rows leave is the target's. *)
Lemma updated_item row : row ∈ target →
  (∀ old, old ∈ published → cell_list (row_value old)) → cell_list (row_value row) →
  to_model_item (updated_by (filter (λ row, row_changed published retained row = true) target) (old_row row)) =
  to_model_item row.
Proof using Hpub Htgt Hret.
  intros Hrow Hpc Htc. set (changed := filter _ target). unfold updated_by. rewrite old_row_id.
  assert (NoDup (ids_of changed)) as Hnd.
  { unfold changed, ids_of. eapply sublist_NoDup; [exact Htgt|]. apply sublist_fmap, sublist_filter. }
  destruct (last_row changed (row_item_id row)) as [update|] eqn:Hu.
  - apply last_row_Some in Hu as [Hin Hid]. apply list_elem_of_filter in Hin as [_ Hin].
    by rewrite (rows_by_id target update row Htgt Hin Hrow Hid).
  - apply last_row_None in Hu. unfold old_row. case_decide as Hin; [|done].
    apply Hret in Hin as Hp. apply elem_of_ids in Hp as (old & Hold & Hid).
    assert (last_row published (row_item_id row) = Some old) as Hl by by apply last_row_iff.
    rewrite Hl. cbn [default]. unfold to_model_item. cbn [row_item_id row_value]. f_equal; [exact Hid|]. change (row_value old = row_value row).
    destruct (value_eqb (row_value old) (row_value row)) eqn:Heq; [by apply value_eqb_cells in Heq; auto|].
    destruct Hu. apply ids_elem, list_elem_of_filter. split; [|done]. unfold row_changed.
    by rewrite bool_decide_true, Hl, Heq.
Qed.
End diff.

(** ** The whole plan *)

Section diff_spec.
Context `{EventRegistry, SdkProperties}.

Lemma deletions_within batch max_bytes (ids : list ItemId) : 1 ≤ batch →
  Forall (within_batch batch max_bytes) ((λ c, Planned_new (EffDelete c)) <$> chunks (delete_batch batch max_bytes) ids).
Proof.
  intros Hbatch. apply Forall_fmap. eapply Forall_impl; [apply (chunks_each (delete_batch batch max_bytes)), delete_batch_ne|].
  intros c [Hne Hlen]. unfold within_batch, Planned_new. cbn [pl_effect pl_bytes effect_items payload_bytes compose].
  destruct c as [|id c]; [done|]. unfold delete_batch, len in *. cbn [length] in *.
  destruct (Nat.eq_dec (length c) 0) as [->|Hc]; [split; [lia|by left]|].
  assert (S (length c) ≤ N.to_nat (item_budget max_bytes / ITEM_ID_BYTES)) as Hle by lia.
  assert (N.of_nat (S (length c)) * ITEM_ID_BYTES ≤ item_budget max_bytes)%N as Hb.
  { etrans; [|apply N.Div0.mul_div_le]. rewrite N.mul_comm. apply N.mul_le_mono_l. lia. }
  unfold item_budget, operation_bytes, ITEM_ID_BYTES in *. split; [lia|right; lia].
Qed.

Lemma diff_spec published target batch max_bytes : 1 ≤ batch →
  NoDup (ids_of published) → NoDup (ids_of target) →
  Forall (within_batch batch max_bytes) (diff published target batch max_bytes) ∧
  (Forall (λ row, cell_list (row_value row)) published → Forall (λ row, cell_list (row_value row)) target →
   to_model_item <$> rows_after (diff published target batch max_bytes) published = to_model_item <$> target).
Proof.
  intros Hbatch Hpub Htgt. unfold diff. pose proof (diff_fold_inv published target batch Hpub Htgt Hbatch) as Hinv.
  destruct (foldl (diff_step target) ([], ∅, None) published) as [[deleted retained] highest].
  destruct Hinv as [Hdel Hret Hord _]. cbn [fst snd] in *.
  assert (filter (λ id, id ∈ retained) (ids_of published) `sublist_of` ids_of target) as Hord'.
  { etrans; [exact Hord|]. rewrite <- (take_drop (match highest with None => 0 | Some h => S h end) (ids_of target)) at 2.
    by apply sublist_inserts_r. }
  set (deletes := (λ ids, Planned_new (EffDelete ids)) <$> chunks (delete_batch batch max_bytes) deleted).
  assert (insert_inv published target batch max_bytes retained [] target (mkRun deletes 0 [] 0)) as Hstart.
  { split; cbn [ir_plan ir_rows ir_start ir_bytes]; try done.
    - unfold deletes. rewrite (delete_all (λ ids, Planned_new (EffDelete ids))) by done.
      rewrite chunks_concat by apply delete_batch_ne. rewrite app_nil_l, <- retained_rows_eq by done.
      apply filter_ext_in. intros row Hrow. rewrite Hdel, elem_of_ids. split.
      + intros Hno. apply dec_stable. intros Hnr. apply Hno. exists row. by rewrite list_elem_of_filter.
      + intros Hr (other & [Hor Hother]%list_elem_of_filter & Hid). by rewrite Hid in Hor.
    - by apply deletions_within.
    - split; cbn; lia. }
  apply insert_loop with (index := 0) in Hstart; [|done|done]. cbn [Nat.add] in Hstart.
  change (imap (λ i, pair i) target) with (imap pair target) in Hstart. cbv zeta in Hstart. destruct Hstart as [Hrows Hplan].
  match goal with |- context [finish_updates (foldl ?step (mkUpdates ?p ?r ?b) ?changed)] =>
    pose proof (update_loop published batch max_bytes Hbatch (old_row published retained <$> target) changed [] (mkUpdates p r b))
      as Hupd end.
  destruct Hupd as [Hupd Hall].
  { split; cbn [up_plan up_rows up_bytes]; try done; [|split; cbn; lia]. exists []. split; [|done]. rewrite Hrows.
    rewrite <- (list_fmap_id (old_row published retained <$> target)) at 1. apply list_fmap_ext. done. }
  rewrite Hupd. split; [exact Hall|]. intros Hpc Htc. rewrite <- !list_fmap_compose. apply list_fmap_ext.
  intros i row Hrow. cbn. rewrite Forall_forall in Hpc, Htc. apply list_elem_of_lookup_2 in Hrow.
  apply updated_item; auto.
Qed.
End diff_spec.

(** ** The shape of the plan: deletions, then what sends rows of the target *)

Section shape.
Context `{EventRegistry, SdkProperties}.
Variables (published target : list Row) (batch : nat) (max_bytes : N).

Definition sending (planned : Planned) : Prop :=
  ∃ e, planned = Planned_new e ∧ sends e ∧ ∀ row, row ∈ effect_rows e → row ∈ target.
Definition deleted_rows : list ItemId := (foldl (diff_step target) ([], ∅, None) published).1.1.

Lemma flush_shape deletes st : (∃ tail, ir_plan st = deletes ++ tail ∧ Forall sending tail) →
  (∀ row, row ∈ ir_rows st → row ∈ target) → ∃ tail, ir_plan (flush_insert st) = deletes ++ tail ∧ Forall sending tail.
Proof.
  intros (tail & Htail & Hsend) Hrows. unfold flush_insert. destruct (ir_rows st) as [|row rows] eqn:Hr; [by exists tail|].
  cbn [ir_plan]. rewrite Htail, <- app_assoc. eexists. split; [done|]. apply Forall_app. split; [done|].
  constructor; [|done]. by exists (EffInsert (ir_start st) (row :: rows)).
Qed.

Lemma flush_rows st : ir_rows (flush_insert st) = [].
Proof. unfold flush_insert. by destruct (ir_rows st). Qed.

Lemma inserts_shape retained deletes rest : ∀ st, (∀ index row, (index, row) ∈ rest → row ∈ target) →
  (∃ tail, ir_plan st = deletes ++ tail ∧ Forall sending tail) → (∀ row, row ∈ ir_rows st → row ∈ target) →
  ∃ tail, ir_plan (flush_insert (foldl (insert_step retained batch (item_budget max_bytes)) st rest)) = deletes ++ tail ∧
    Forall sending tail.
Proof.
  induction rest as [|[index row] rest IH]; intros st Hin Hplan Hrows; cbn [foldl]; [by apply flush_shape|].
  pose proof (flush_shape deletes st Hplan Hrows) as Hflush.
  assert (row ∈ target) as Hrow by (apply (Hin index); left).
  assert (∀ r, r ∈ ir_rows (flush_insert st) → r ∈ target) as Hnone by (rewrite flush_rows; by intros r ?%not_elem_of_nil).
  apply IH; [intros i r Hr; apply (Hin i); by right|..]; unfold insert_step; case_decide; try done.
  - cbn [ir_plan]. by case_match.
  - cbn [ir_rows]. intros r. case_match; rewrite elem_of_app, list_elem_of_singleton; intros [?| ->]; auto.
Qed.

Lemma updates_shape deletes rest : ∀ st, (∀ row, row ∈ rest → row ∈ target) →
  (∃ tail, up_plan st = deletes ++ tail ∧ Forall sending tail) → (∀ row, row ∈ up_rows st → row ∈ target) →
  ∃ tail, finish_updates (foldl (update_step batch (item_budget max_bytes)) st rest) = deletes ++ tail ∧ Forall sending tail.
Proof.
  assert (∀ st, (∃ tail, up_plan st = deletes ++ tail ∧ Forall sending tail) → (∀ row, row ∈ up_rows st → row ∈ target) →
    ∃ tail, up_plan st ++ [Planned_new (EffUpdate (up_rows st))] = deletes ++ tail ∧ Forall sending tail) as Hsend.
  { intros st (tail & -> & Htail) Hrows. rewrite <- app_assoc. eexists. split; [done|]. apply Forall_app. split; [done|].
    constructor; [|done]. by exists (EffUpdate (up_rows st)). }
  induction rest as [|row rest IH]; intros st Hin Hplan Hrows; cbn [foldl].
  { unfold finish_updates. destruct (up_rows st) eqn:Hu; [done|]. rewrite <- Hu in *. by apply Hsend. }
  assert (row ∈ target) as Hrow by (apply Hin; left).
  apply IH; [intros r Hr; apply Hin; by right|..]; unfold update_step; cbn [up_plan up_rows].
  - case_match; [by apply Hsend|done].
  - intros r. case_match; cbn [up_rows]; rewrite elem_of_app, list_elem_of_singleton; intros [Hr| ->]; try done; [|auto].
    by apply not_elem_of_nil in Hr.
Qed.

Lemma diff_shape : ∃ tail, diff published target batch max_bytes =
  ((λ ids, Planned_new (EffDelete ids)) <$> chunks (delete_batch batch max_bytes) deleted_rows) ++ tail ∧ Forall sending tail.
Proof.
  unfold diff, deleted_rows. destruct (foldl (diff_step target) _ published) as [[deleted retained] highest]. cbn [fst].
  apply updates_shape.
  - by intros row [_ ?]%list_elem_of_filter.
  - cbn [up_plan]. apply inserts_shape.
    + intros index row (i & y & [= -> ->] & Hi)%elem_of_lookup_imap. by eapply list_elem_of_lookup_2.
    + exists []. cbn [ir_plan]. by rewrite app_nil_r.
    + by intros row ?%not_elem_of_nil.
  - by intros row ?%not_elem_of_nil.
Qed.

Hypothesis (Hpub : NoDup (ids_of published)) (Htgt : NoDup (ids_of target)) (Hbatch : 1 ≤ batch).

Lemma deleted_published : NoDup deleted_rows ∧ ∀ id, id ∈ deleted_rows → id ∈ ids_of published.
Proof using Hpub Htgt Hbatch.
  unfold deleted_rows. rewrite (di_deleted _ _ _ (diff_fold_inv published target batch Hpub Htgt Hbatch)). split.
  - eapply sublist_NoDup; [exact Hpub|]. apply sublist_fmap, sublist_filter.
  - intros id Hid. eapply elem_of_sublist; [exact Hid|]. apply sublist_fmap, sublist_filter.
Qed.

Lemma diff_executable : executable (pl_effect <$> diff published target batch max_bytes) published.
Proof using Hpub Htgt Hbatch.
  destruct diff_shape as (tail & -> & Htail). rewrite fmap_app, <- list_fmap_compose. apply executable_app.
  - change (executable (EffDelete <$> chunks (delete_batch batch max_bytes) deleted_rows) published).
    destruct deleted_published. apply executable_deletes; by rewrite chunks_concat by apply delete_batch_ne.
  - apply executable_sends, Forall_fmap. eapply Forall_impl; [exact Htail|]. by intros planned (e & -> & He & _).
Qed.

Lemma diff_honest : Forall (honest target) (diff published target batch max_bytes).
Proof using Type.
  destruct diff_shape as (tail & -> & Htail). apply Forall_app. split.
  - apply Forall_fmap, Forall_true. intros c. apply honest_new. intros row []%not_elem_of_nil.
  - eapply Forall_impl; [exact Htail|]. intros planned (e & -> & _ & Hrows). by apply honest_new.
Qed.
End shape.
