(* ===== verification/SrtopMoveFacts.v ===== *)
(** * srtop: moves

    [flush_moves] and [place_runs] of [apps/srtop/src/refresh.rs]: every run of
    moved rows ends up right after its anchor, the other rows keep their order, and
    the insertions recorded rebuild just that.  [plan_moves]: one unit of moves puts
    its rows right after the rows that precede them in the target, and the units
    together put every shared row in the target's order; no unit ever leaves a row
    out. *)

From S2P Require Import Prelude.
From S2P Require Import Values.
From S2P Require Import Event.
From S2P Require Import SrtopSort.
From S2P Require Import SrtopRefresh.
From S2P Require Import SrtopCommit.
From S2P Require Import SrtopRows.
From S2P Require Import SrtopDiffFacts.

(** The id of the last of some rows, which anchors what is placed next. *)
Definition last_id (rows : list Row) : option ItemId := row_item_id <$> last rows.

Lemma last_id_app rows run : run ≠ [] → last_id (rows ++ run) = last_id run.
Proof.
  intros Hne. unfold last_id. rewrite last_app. destruct (last run) eqn:Hl; [done|]. by apply last_None in Hl.
Qed.

Lemma run_table_app l run : run_table (l ++ [run]) = <[mr_anchor run := mr_rows run]> (run_table l).
Proof. unfold run_table. by rewrite foldl_app. Qed.
Lemma run_table_anchor l anchor r : run_table l !! anchor = Some r → anchor ∈ mr_anchor <$> l.
Proof.
  revert anchor r. induction l as [|run l IH] using rev_ind; intros anchor r; [done|].
  rewrite run_table_app, fmap_app, elem_of_app.
  intros [[<- _]|[_ ?%IH]]%lookup_insert_Some; [right; left|by left].
Qed.

Section place.
Variables (runs : list MoveRun) (rows : list Row).
Hypothesis (Hanchors : NoDup (mr_anchor <$> runs)) (Hsome : Forall (λ run, mr_rows run ≠ []) runs).
Let moving : gset ItemId := list_to_set (ids_of (concat (mr_rows <$> runs))).
Let table : run_map := run_table runs.
#[local] Abbreviation stays := (λ row : Row, row_item_id row ∉ moving).

Lemma run_table_Some anchor r : table !! anchor = Some r ↔ ∃ run, run ∈ runs ∧ mr_anchor run = anchor ∧ mr_rows run = r.
Proof using Hanchors.
  unfold table. clear moving Hsome table. revert Hanchors. induction runs as [|run l IH] using rev_ind; intros Hnd.
  - split; [done|]. by intros (? & []%elem_of_nil & _).
  - rewrite run_table_app, lookup_insert_Some. rewrite fmap_app in Hnd. cbn in Hnd.
    apply NoDup_app in Hnd as (Hnd & Hdisj & _). rewrite IH by done. setoid_rewrite elem_of_app. split.
    + intros [[<- <-]|(_ & other & ? & ? & ?)]; [exists run|exists other]; split_and!; try done; [right; left|by left].
    + intros (other & [Hin| ->%list_elem_of_singleton] & <- & <-); [right|by left].
      split; [|eauto]. intros Heq. apply (Hdisj (mr_anchor other)); [by apply list_elem_of_fmap_2|]. rewrite <- Heq. left.
Qed.

Lemma run_table_runs : (map_to_list table).*2 ≡ₚ mr_rows <$> runs.
Proof using Hanchors.
  unfold table. clear moving Hsome table. revert Hanchors. induction runs as [|run l IH] using rev_ind; intros Hnd; [done|].
  rewrite run_table_app. rewrite !fmap_app in *. cbn in *.
  apply NoDup_app in Hnd as (Hnd & Hdisj & _). rewrite map_to_list_insert; cbn.
  - rewrite IH by done. apply Permutation_cons_append.
  - destruct (run_table l !! mr_anchor run) as [r|] eqn:Hr; [|done]. exfalso.
    apply run_table_anchor in Hr. apply (Hdisj _ Hr). left.
Qed.

Lemma run_ids_moving run row : run ∈ runs → row ∈ mr_rows run → row_item_id row ∈ moving.
Proof using Type.
  intros Hrun Hrow. unfold moving. apply elem_of_list_to_set, ids_elem, list_elem_of_In, in_concat.
  exists (mr_rows run). split; apply list_elem_of_In; [by apply list_elem_of_fmap_2|done].
Qed.

(** [base] is placed and the runs gone from [t] after it; only [hole] may still
    be an anchor some run waits for. *)
Record place_inv (t : run_map) (placed base : list Row) (inserts : list (N * list Row)) (hole : option (option ItemId)) : Prop := {
  pi_sub anchor r : t !! anchor = Some r → table !! anchor = Some r;
  pi_done anchor r : table !! anchor = Some r → t !! anchor = None →
    (∃ A B, placed = A ++ r ++ B ∧ last_id A = anchor) ∧ (t !! last_id r = None ∨ hole = Some (last_id r));
  pi_base anchor : anchor = None ∨ (∃ row, row ∈ base ∧ anchor = Some (row_item_id row)) → t !! anchor = None ∨ hole = Some anchor;
  pi_rows rest : insert_all inserts (base ++ rest) = placed ++ rest;
  pi_perm : placed ++ concat (map_to_list t).*2 ≡ₚ base ++ concat (map_to_list table).*2;
  pi_stays : filter stays placed = base;
  pi_hole anchor : hole = Some anchor → last_id placed = anchor;
  pi_taken : inserts.*2 ++ (map_to_list t).*2 ≡ₚ (map_to_list table).*2;
}.

Lemma place_runs_spec fuel : ∀ t placed base inserts anchor, size t ≤ fuel → place_inv t placed base inserts (Some anchor) →
  ∃ t' placed' inserts', place_runs fuel anchor t placed inserts = Ok (t', placed', inserts') ∧
    place_inv t' placed' base inserts' None.
Proof using Hanchors Hsome.
  induction fuel as [|fuel IH]; intros t placed base inserts anchor Hfuel Hinv;
    cbn [place_runs]; destruct (t !! anchor) as [run|] eqn:Hrun.
  - assert (size t ≠ 0) by (apply map_size_ne_0_lookup_2 with anchor; by exists run). lia.
  - do 3 eexists. split; [done|]. destruct Hinv as [Hsub Hdone Hbase Hrows Hperm Hstays Hhole Htaken]. split; try done.
    + intros a r Ha Hn. destruct (Hdone a r Ha Hn) as [? [?|[= ->]]]; split; auto.
    + intros a Ha. destruct (Hbase a Ha) as [?|[= ->]]; auto.
  - destruct Hinv as [Hsub Hdone Hbase Hrows Hperm Hstays Hhole Htaken].
    pose proof (Hsub _ _ Hrun) as Htab. apply run_table_Some in Htab as Hin. destruct Hin as (mr & Hmr & Hanc & Hmrr).
    assert (run ≠ []) as Hne by (rewrite Forall_forall in Hsome; rewrite <- Hmrr; auto).
    apply IH.
    { rewrite map_size_delete, Hrun. cbn. lia. }
    split.
    + intros a r [_ Ha]%lookup_delete_Some. auto.
    + intros a r Ha Hn. destruct (decide (anchor = a)) as [<-|Hna].
      * assert (r = run) as -> by congruence. split; [|by right]. exists placed, []. rewrite app_nil_r. auto.
      * rewrite lookup_delete_ne in Hn by done. destruct (Hdone a r Ha Hn) as [(A & B & -> & HA) Hor]. split.
        -- exists A, (B ++ run). by rewrite <- !app_assoc.
        -- left. destruct Hor as [Hnone|[= ->]]; [|apply lookup_delete_eq].
           apply lookup_delete_None. by right.
    + intros a Ha. left. apply lookup_delete_None. destruct (Hbase a Ha) as [?|[= ->]]; auto.
    + intros rest. unfold insert_all. rewrite foldl_app. fold (insert_all inserts (base ++ rest)). rewrite Hrows.
      cbn [foldl fst snd]. by rewrite insert_at_app, <- app_assoc.
    + rewrite <- Hperm, <- app_assoc. apply Permutation_app_head.
      rewrite <- (insert_delete_id t anchor run) at 2 by done. rewrite map_to_list_insert by apply lookup_delete_eq. done.
    + rewrite filter_app, Hstays, filter_none; [by rewrite app_nil_r|]. intros row Hrow Hno. apply Hno.
      rewrite <- Hmrr in Hrow. by apply (run_ids_moving mr).
    + intros a [= <-]. by rewrite last_id_app.
    + rewrite <- Htaken, fmap_app, <- app_assoc. apply Permutation_app_head.
      rewrite <- (insert_delete_id t anchor run) at 2 by done. rewrite map_to_list_insert by apply lookup_delete_eq. done.
  - do 3 eexists. split; [done|]. destruct Hinv as [Hsub Hdone Hbase Hrows Hperm Hstays Hhole Htaken]. split; try done.
    + intros a r Ha Hn. destruct (Hdone a r Ha Hn) as [? [?|[= ->]]]; split; auto.
    + intros a Ha. destruct (Hbase a Ha) as [?|[= ->]]; auto.
Qed.

Lemma place_start : place_inv table [] [] [] (Some None).
Proof using Type.
  split; try done.
  - intros anchor r Ha Hn. congruence.
  - intros anchor [->|(row & []%elem_of_nil & _)]. by right.
  - by intros anchor [= <-].
Qed.

Lemma place_row_inv t placed base inserts row : place_inv t placed base inserts None → row_item_id row ∉ moving →
  place_inv t (placed ++ [row]) (base ++ [row]) inserts (Some (Some (row_item_id row))).
Proof using Type.
  intros [Hsub Hdone Hbase Hrows Hperm Hstays Hhole Htaken] Hrow. split; try done.
  - intros a r Ha Hn. destruct (Hdone a r Ha Hn) as [(A & B & -> & HA) Hor]. split.
    + exists A, (B ++ [row]). by rewrite <- !app_assoc.
    + destruct Hor as [?|[=]]. by left.
  - intros a [->|(other & Hin & ->)]; [destruct (Hbase None) as [?|[=]]; auto|].
    apply elem_of_app in Hin as [Hin| ->%list_elem_of_singleton]; [|by right].
    destruct (Hbase (Some (row_item_id other))) as [?|[=]]; eauto.
  - intros rest. by rewrite <- !app_assoc, Hrows.
  - rewrite <- !app_assoc. cbn [app]. rewrite <- !Permutation_middle. by constructor.
  - rewrite filter_app, Hstays. f_equal. by rewrite filter_cons_True, filter_nil.
  - intros a [= <-]. unfold last_id. by rewrite last_snoc.
Qed.

Lemma place_rows_spec rest : ∀ t placed base inserts, place_inv t placed base inserts None →
  ∃ t' placed' inserts', try_fold (place_row moving) (t, placed, inserts) rest = Ok (t', placed', inserts') ∧
    place_inv t' placed' (base ++ filter stays rest) inserts' None.
Proof using Hanchors Hsome.
  induction rest as [|row rest IH]; intros t placed base inserts Hinv.
  - do 3 eexists. split; [done|]. by rewrite filter_nil, app_nil_r.
  - cbn [try_fold place_row]. destruct (decide (row_item_id row ∈ moving)) as [Hin|Hin].
    + rewrite filter_cons_False by auto. by apply IH.
    + rewrite filter_cons_True by done.
      destruct (place_runs_spec (size t) t (placed ++ [row]) (base ++ [row]) inserts (Some (row_item_id row)))
        as (t1 & placed1 & inserts1 & Heq & Hinv1); [done|by apply place_row_inv|].
      rewrite Heq. cbn [mbind result_bind].
      replace (base ++ row :: filter stays rest) with ((base ++ [row]) ++ filter stays rest) by by rewrite <- app_assoc.
      by apply IH.
Qed.

(** Every run follows a row that stays or the run before it. *)
Hypothesis (Hplaced : ∀ k run, runs !! k = Some run →
  mr_anchor run = None ∨ (∃ row, row ∈ filter stays rows ∧ mr_anchor run = Some (row_item_id row)) ∨
  ∃ j run', j < k ∧ runs !! j = Some run' ∧ mr_anchor run = last_id (mr_rows run')).

Lemma all_placed t placed inserts : place_inv t placed (filter stays rows) inserts None → t = ∅.
Proof using Hanchors Hplaced.
  intros Hinv. apply map_empty. intros anchor. destruct (t !! anchor) as [r|] eqn:Hr; [exfalso|done].
  assert (∀ k run, runs !! k = Some run → t !! mr_anchor run = None) as Hgone.
  { induction k as [k IH] using lt_wf_ind. intros run Hk.
    destruct (Hplaced k run Hk) as [Hnone|[(row & Hrow & Hanc)|(j & run' & Hj & Hrun' & Hanc)]].
    - destruct (pi_base _ _ _ _ _ Hinv (mr_anchor run)) as [?|[=]]; auto.
    - destruct (pi_base _ _ _ _ _ Hinv (mr_anchor run)) as [?|[=]]; eauto.
    - assert (table !! mr_anchor run' = Some (mr_rows run')) as Htab.
      { apply run_table_Some. exists run'. split; [|done]. by eapply list_elem_of_lookup_2. }
      destruct (pi_done _ _ _ _ _ Hinv _ _ Htab (IH j Hj _ Hrun')) as [_ [?|[=]]]. by rewrite Hanc. }
  pose proof (pi_sub _ _ _ _ _ Hinv _ _ Hr) as Hrun. apply run_table_Some in Hrun. destruct Hrun as (run & [k Hk]%list_elem_of_lookup_1 & Hanc & _).
  specialize (Hgone k run Hk). congruence.
Qed.

Lemma place_unit_spec : ∃ placed inserts, place_unit runs rows = Ok (placed, inserts) ∧
  filter stays placed = filter stays rows ∧
  placed ≡ₚ filter stays rows ++ concat (mr_rows <$> runs) ∧
  insert_all inserts (filter stays rows) = placed ∧
  (∀ run, run ∈ runs → ∃ A B, placed = A ++ mr_rows run ++ B ∧ last_id A = mr_anchor run) ∧
  inserts.*2 ≡ₚ mr_rows <$> runs.
Proof using Hanchors Hsome Hplaced.
  unfold place_unit. fold moving table.
  destruct (place_runs_spec (size table) table [] [] [] None) as (t1 & placed1 & inserts1 & Heq & Hinv1);
    [done|apply place_start|].
  rewrite Heq. cbn [mbind result_bind].
  destruct (place_rows_spec rows _ _ _ _ Hinv1) as (t & placed & inserts & Heq2 & Hinv). rewrite Heq2.
  cbn [mbind result_bind fst snd]. cbn [app] in Hinv. pose proof (all_placed _ _ _ Hinv) as ->.
  exists placed, inserts. split_and!; [done|by eapply pi_stays| | | |].
  - pose proof (pi_perm _ _ _ _ _ Hinv) as Hperm. rewrite map_to_list_empty, app_nil_r in Hperm.
    rewrite Hperm. apply Permutation_app_head, concat_perm, run_table_runs.
  - pose proof (pi_rows _ _ _ _ _ Hinv []) as Hrows. by rewrite !app_nil_r in Hrows.
  - intros run Hrun. destruct (pi_done _ _ _ _ _ Hinv (mr_anchor run) (mr_rows run)) as [? _]; [|done|done].
    apply run_table_Some. eauto.
  - pose proof (pi_taken _ _ _ _ _ Hinv) as Ht. rewrite map_to_list_empty, app_nil_r in Ht. by rewrite Ht, run_table_runs.
Qed.
End place.

(** ** srtop: moves

    [plan_moves] of [apps/srtop/src/refresh.rs]: one unit of moves puts its rows
    right after the rows that precede them in the target, and the units together
    put every shared row in the target's order; no unit ever leaves a row out. *)

#[export] Instance ItemId_inhabited : Inhabited ItemId := populate (mkItemId 0).

(** The ids a plan deletes, in its order. *)
Definition deleted_ids (plan : list Planned) : list ItemId :=
  concat ((λ planned, match pl_effect planned with EffDelete ids => ids | _ => [] end) <$> plan).
Lemma deleted_ids_app plan plan' : deleted_ids (plan ++ plan') = deleted_ids plan ++ deleted_ids plan'.
Proof. unfold deleted_ids. by rewrite fmap_app, concat_app. Qed.

(** Wherever the plan may be cut, no row is missing. *)
Definition never_lacks (rows : list Row) (plan : list Planned) : Prop :=
  ∀ k, cut_ok plan k → ids_of (rows_after (take k plan) rows) ≡ₚ ids_of rows.

Lemma never_lacks_app rows plan unit : never_lacks rows plan →
  ids_of (rows_after plan rows) ≡ₚ ids_of rows → ids_of (rows_after (plan ++ unit) rows) ≡ₚ ids_of rows →
  (∀ k, S k < length unit → joins unit k = true) → never_lacks rows (plan ++ unit).
Proof.
  intros Hplan Hbefore Hafter Hjoined k Hcut. destruct (Nat.lt_trichotomy k (length plan)) as [Hlt|[->|Hgt]].
  - rewrite take_app_le by lia. apply Hplan. unfold cut_ok in *. rewrite length_app in Hcut.
    destruct Hcut as [?|[?|Hj]]; [by left|lia|]. right. right. unfold joins in *. by rewrite lookup_app_l in Hj by lia.
  - by rewrite take_app_length.
  - destruct (Nat.le_gt_cases (length (plan ++ unit)) k) as [Hge|Hlt]; [by rewrite take_ge by done|].
    exfalso. rewrite length_app in Hlt. destruct Hcut as [?|[?|Hj]]; [lia|rewrite length_app in *; lia|].
    assert (joins unit (Nat.pred k - length plan) = true) as Ht by (apply Hjoined; lia).
    unfold joins in *. rewrite lookup_app_r in Hj by lia. congruence.
Qed.

Lemma seq_lookup f k j : j < k → seq f k !! j = Some (f + j).
Proof. apply lookup_seq_lt. Qed.

#[local] Set Default Proof Using "All".

(** ** Joining the operations of a unit *)

Definition join_all (plan : list Planned) : list Planned :=
  imap (λ i p, if (i + 1 <? length plan)%nat then joined p else p) plan.
Lemma join_all_fmap {A} (f : Planned → A) plan : (∀ p, f (joined p) = f p) → f <$> join_all plan = f <$> plan.
Proof.
  intros Hf. unfold join_all. generalize (length plan) as m. intros m. apply list_eq. intros i.
  rewrite !list_lookup_fmap, list_lookup_imap. destruct (plan !! i); cbn; [|done]. f_equal. by case_match.
Qed.
Lemma length_join_all plan : length (join_all plan) = length plan.
Proof. apply length_imap. Qed.
Lemma join_all_joins plan k : S k < length (join_all plan) → joins (join_all plan) k = true.
Proof.
  rewrite length_join_all. intros Hk. unfold joins, join_all. rewrite list_lookup_imap.
  destruct (lookup_lt_is_Some_2 plan k) as [p ->]; [lia|]. cbn [fmap option_fmap option_map]. rewrite (proj2 (Nat.ltb_lt _ _)) by lia. done.
Qed.
Lemma joins_plain plan k : Forall (λ planned, pl_joins_next planned = false) plan → joins plan k = false.
Proof. intros Hplan. unfold joins. destruct (plan !! k) eqn:Hl; [by eapply Forall_lookup_1 in Hplan|done]. Qed.
Lemma join_all_last plan : Forall (λ planned, pl_joins_next planned = false) plan →
  joins (join_all plan) (Nat.pred (length (join_all plan))) = false.
Proof.
  intros Hplan. rewrite length_join_all. unfold joins, join_all. rewrite list_lookup_imap.
  destruct (plan !! _) as [planned|] eqn:Hl; [|done]. cbn [fmap option_fmap option_map]. pose proof (lookup_lt_Some _ _ _ Hl) as Hlt.
  destruct (Nat.ltb_spec (Nat.pred (length plan) + 1) (length plan)); [lia|]. by eapply Forall_lookup_1 in Hplan.
Qed.
Lemma rows_after_joined plan rows : rows_after (join_all plan) rows = rows_after plan rows.
Proof. by rewrite !rows_after_effects, join_all_fmap. Qed.
Lemma deleted_ids_joined plan : deleted_ids (join_all plan) = deleted_ids plan.
Proof. unfold deleted_ids. by rewrite join_all_fmap. Qed.
Lemma Forall_joined (P : Planned → Prop) plan : (∀ p, P (joined p) ↔ P p) → Forall P (join_all plan) ↔ Forall P plan.
Proof.
  intros HP. unfold join_all. generalize (length plan) as m. intros m. rewrite !Forall_lookup. split; intros Hall i p Hi.
  - assert (imap (λ i p, if (i + 1 <? m)%nat then joined p else p) plan !! i =
      Some (if (i + 1 <? m)%nat then joined p else p)) as Hj by by rewrite list_lookup_imap, Hi.
    apply Hall in Hj. case_match; [by apply HP|done].
  - rewrite list_lookup_imap in Hi. apply fmap_Some in Hi as (q & Hq & ->). apply Hall in Hq. case_match; [by apply HP|done].
Qed.

Definition plan_bytes (plan : list Planned) : N := sum_bytes pl_bytes plan.
Lemma plan_bytes_fmap plan : plan_bytes plan = foldr N.add 0%N (pl_bytes <$> plan).
Proof. unfold plan_bytes, sum_bytes. by rewrite foldr_fmap. Qed.
Lemma plan_bytes_joined plan : plan_bytes (join_all plan) = plan_bytes plan.
Proof. by rewrite !plan_bytes_fmap, join_all_fmap. Qed.
Lemma sum_bytes_concat {A} (f : A → N) ls : sum_bytes f (concat ls) = sum_bytes (sum_bytes f) ls.
Proof. induction ls as [|l ls IH]; [done|]. cbn [concat]. by rewrite sum_bytes_app, IH. Qed.
Lemma sum_bytes_perm {A} (f : A → N) l k : l ≡ₚ k → sum_bytes f l = sum_bytes f k.
Proof. unfold sum_bytes. induction 1 as [|x l k _ IH|x y l|l k m _ IH1 _ IH2]; cbn; lia. Qed.

Section moves.
Context `{EventRegistry, SdkProperties}.
Variables (published target : list Row) (batch max_ops : nat) (max_bytes : N) (kept : list bool).
Hypothesis (Hpub : NoDup (ids_of published)) (Htgt : NoDup (ids_of target)) (Hbatch : 1 ≤ batch).

#[local] Abbreviation order := (shared_rows published target).
#[local] Abbreviation n := (length (shared_rows published target)).
(** The id of the row of a rank. *)
Definition rank_id (i : nat) : ItemId := ids_of (shared_rows published target) !!! i.
Definition is_kept (i : nat) : Prop := kept !! i = Some true.
#[export] Instance is_kept_dec i : Decision (is_kept i) := decide (kept !! i = Some true).

Hypothesis (Hkept : ∀ a b, a < b → b < n → is_kept a → is_kept b → before (rank_id a) (rank_id b) (ids_of published)).

Lemma order_nodup : NoDup (ids_of order).
Proof. eapply sublist_NoDup; [exact Htgt|]. apply sublist_fmap, sublist_filter. Qed.

Lemma rank_lookup i : i < n → ids_of order !! i = Some (rank_id i).
Proof.
  intros Hi. apply list_lookup_lookup_total_lt. unfold ids_of. by rewrite length_fmap.
Qed.
Lemma rank_row i row : order !! i = Some row → row_item_id row = rank_id i.
Proof.
  intros Hi. pose proof (lookup_lt_Some _ _ _ Hi) as Hlt. apply ids_lookup in Hi. rewrite rank_lookup in Hi by done. congruence.
Qed.
Lemma rank_inj i j : i < n → j < n → rank_id i = rank_id j → i = j.
Proof.
  intros Hi%rank_lookup Hj%rank_lookup Heq. rewrite Heq in Hi. eapply NoDup_lookup; [apply order_nodup|done..].
Qed.
Lemma rank_published i : i < n → rank_id i ∈ ids_of published.
Proof.
  intros [row Hrow]%lookup_lt_is_Some_2. rewrite <- (rank_row _ _ Hrow). apply list_elem_of_lookup_2 in Hrow.
  by apply list_elem_of_filter in Hrow as [? _].
Qed.

(** ** A unit *)

(** The ranks not kept from [lo] to [i]. *)
Definition pending (lo i : nat) : list nat := filter (λ r, ¬ is_kept r) (seq lo (i - lo)).
Lemma elem_of_pending lo i r : r ∈ pending lo i ↔ lo ≤ r < i ∧ ¬ is_kept r.
Proof. unfold pending. rewrite list_elem_of_filter, elem_of_seq. split; intros [? ?]; split; done || lia. Qed.
Lemma increasing_seq f k : increasing (seq f k).
Proof.
  revert f. induction k as [|k IH]; intros f; cbn; constructor; [apply IH|]. apply Forall_forall.
  intros x Hx%elem_of_seq. lia.
Qed.
Lemma pending_increasing lo i : increasing (pending lo i).
Proof.
  unfold pending. pose proof (increasing_seq lo (i - lo)) as Hs. revert Hs. generalize (seq lo (i - lo)). intros l.
  unfold increasing. induction 1 as [|x l Hl IH Hx]; [constructor|]. rewrite filter_cons. case_decide; [|done].
  constructor; [done|]. rewrite Forall_forall in *. intros y [_ Hy]%list_elem_of_filter. auto.
Qed.
Lemma pending_nil i : pending i i = [].
Proof. unfold pending. by rewrite Nat.sub_diag. Qed.
Lemma pending_kept lo i : lo ≤ i → is_kept i → pending lo (S i) = pending lo i.
Proof.
  intros Hle Hi. unfold pending. rewrite Nat.sub_succ_l, seq_S, filter_app by done.
  rewrite filter_cons_False, filter_nil, app_nil_r; [done|]. rewrite Nat.add_comm, Nat.sub_add by done. auto.
Qed.
Lemma pending_moved lo i : lo ≤ i → ¬ is_kept i → pending lo (S i) = pending lo i ++ [i].
Proof.
  intros Hle Hi. unfold pending. rewrite Nat.sub_succ_l, seq_S, filter_app by done.
  rewrite Nat.add_comm, Nat.sub_add by done. by rewrite filter_cons_True, filter_nil.
Qed.

(** What the run of the ranks from [s.1] to [s.2] looks like. *)
Definition rank_anchor (f : nat) : option ItemId := match f with O => None | S p => Some (rank_id p) end.
Definition ranks_of (s : nat * nat) : list nat := seq s.1 (S s.2 - s.1).
Record run_of (run : MoveRun) (s : nat * nat) : Prop := {
  ro_le : s.1 ≤ s.2;
  ro_lt : s.2 < n;
  ro_rows : mr_rows run = take (S s.2 - s.1) (drop s.1 order);
  ro_last : mr_last_rank run = s.2;
  ro_anchor : mr_anchor run = rank_anchor s.1;
  ro_bytes : mr_bytes run = sum_bytes row_wire_bytes (mr_rows run);
  ro_fits : run_fits batch max_bytes (mr_rows run);
}.
Definition unit_ops (moved runs : nat) : nat := div_ceil moved (delete_batch batch max_bytes) + runs.
Definition unit_bytes (moved runs : nat) (bytes : N) : N :=
  (N.of_nat (div_ceil moved (delete_batch batch max_bytes)) * operation_bytes + N.of_nat moved * ITEM_ID_BYTES +
   N.of_nat runs * operation_bytes + bytes)%N.
Record unit_ok (lo i : nat) (unit : MoveUnit) : Prop := {
  uo_runs : ∃ spans, Forall2 run_of (mu_runs unit) spans ∧ concat (ranks_of <$> spans) = pending lo i;
  uo_moved : mu_moved unit = length (pending lo i);
  uo_bytes : mu_row_bytes unit = sum_bytes row_wire_bytes (concat (mr_rows <$> mu_runs unit));
  uo_fits : 2 ≤ max_ops → mu_moved unit ≤ 1 ∨
    (unit_ops (mu_moved unit) (length (mu_runs unit)) ≤ max_ops ∧
     (unit_bytes (mu_moved unit) (length (mu_runs unit)) (mu_row_bytes unit) ≤ max_bytes)%N);
}.

Lemma ids_take_drop f k : f + k ≤ n → ids_of (take k (drop f order)) = rank_id <$> seq f k.
Proof.
  intros Hle. unfold ids_of. rewrite fmap_take, fmap_drop. fold (ids_of order). apply list_eq. intros j.
  destruct (Nat.lt_ge_cases j k) as [Hlt|Hge].
  - rewrite lookup_take_lt, lookup_drop, list_lookup_fmap, lookup_seq_lt by done. cbn. apply rank_lookup. lia.
  - rewrite lookup_take_ge, list_lookup_fmap, lookup_seq_ge by done. done.
Qed.

Lemma run_ids run s : run_of run s → ids_of (mr_rows run) = rank_id <$> ranks_of s.
Proof. intros [Hle Hlt -> _ _ _ _]. apply ids_take_drop. lia. Qed.
Lemma run_nonempty run s : run_of run s → mr_rows run ≠ [].
Proof.
  intros Hr Hnil. pose proof (run_ids _ _ Hr) as Hi. rewrite Hnil in Hi. destruct Hr as [Hle _ _ _ _ _ _].
  apply (f_equal length) in Hi. unfold ranks_of in Hi. rewrite length_fmap, length_seq in Hi. cbn in Hi. lia.
Qed.
Lemma run_last_id run s : run_of run s → last_id (mr_rows run) = Some (rank_id s.2).
Proof.
  intros Hr. pose proof (run_ids _ _ Hr) as Hi. destruct Hr as [Hle Hlt _ _ _ _ _]. unfold last_id.
  rewrite <- fmap_last. fold (ids_of (mr_rows run)). rewrite Hi, fmap_last. unfold ranks_of.
  replace (S s.2 - s.1) with (S (s.2 - s.1)) by lia. rewrite seq_S, last_snoc. cbn. do 2 f_equal. lia.
Qed.

Section flush.
Variables (lo i : nat) (unit : MoveUnit) (rows : list Row).
Hypothesis (Hunit : unit_ok lo i unit) (Hlo : lo ≤ i) (Hi : i ≤ n).
(** The rows before the unit: none is missing, and those settled are in order. *)
Definition settled (lo a : nat) : Prop := is_kept a ∨ a < lo.
Hypothesis (Hperm : ids_of rows ≡ₚ ids_of published)
  (Horder : ∀ a b, a < b → b < n → settled lo a → settled lo b → before (rank_id a) (rank_id b) (ids_of rows)).

#[local] Abbreviation ids := (ids_of (concat (mr_rows <$> mu_runs unit))).

Lemma unit_ids : ids = rank_id <$> pending lo i.
Proof.
  destruct (uo_runs _ _ _ Hunit) as (spans & Hspans & <-). 
  induction Hspans as [|run s runs spans Hr Hrs IH]; [done|]. cbn [fmap list_fmap concat].
  by rewrite ids_app, fmap_app, (run_ids _ _ Hr), IH.
Qed.

Lemma rank_moved r : r < n → rank_id r ∈ ids ↔ r ∈ pending lo i.
Proof.
  intros Hr. rewrite unit_ids, list_elem_of_fmap. split; [|eauto].
  intros (r' & Heq & Hr'). apply elem_of_pending in Hr' as Hb. apply rank_inj in Heq as ->; [done|done|lia].
Qed.

Lemma rank_in_rows r : r < n → rank_id r ∈ ids_of rows.
Proof. intros Hr. rewrite Hperm. by apply rank_published. Qed.

Section spans.
Variable spans : list (nat * nat).
Hypothesis (Hspans : Forall2 run_of (mu_runs unit) spans) (Hconcat : concat (ranks_of <$> spans) = pending lo i).

Lemma span_at k run : mu_runs unit !! k = Some run → ∃ s, spans !! k = Some s ∧ run_of run s.
Proof. intros Hk. by eapply Forall2_lookup_l in Hk. Qed.
Lemma span_run k s : spans !! k = Some s → ∃ run, mu_runs unit !! k = Some run ∧ run_of run s.
Proof. intros Hk. by eapply Forall2_lookup_r in Hk. Qed.
Lemma elem_of_ranks s r : r ∈ ranks_of s ↔ s.1 ≤ r ≤ s.2.
Proof. unfold ranks_of. rewrite elem_of_seq. split; intros [? ?]; split; lia. Qed.
Lemma span_pending k s r : spans !! k = Some s → s.1 ≤ r ≤ s.2 → r ∈ pending lo i.
Proof.
  intros Hk Hr. rewrite <- Hconcat. apply list_elem_of_In, in_concat. exists (ranks_of s).
  split; apply list_elem_of_In; [|by apply elem_of_ranks]. apply list_elem_of_fmap_2. by eapply list_elem_of_lookup_2.
Qed.
Lemma pending_span r : r ∈ pending lo i → ∃ k s, spans !! k = Some s ∧ s.1 ≤ r ≤ s.2.
Proof.
  rewrite <- Hconcat. intros (l & Hl & Hr)%list_elem_of_In%in_concat. apply list_elem_of_In in Hl, Hr.
  apply list_elem_of_fmap in Hl as (s & -> & [k Hk]%list_elem_of_lookup_1). exists k, s. by apply elem_of_ranks in Hr.
Qed.
Lemma span_before j k s s' : j < k → spans !! j = Some s → spans !! k = Some s' → s.2 < s'.1.
Proof.
  intros Hjk Hj Hk. destruct (span_run _ _ Hj) as (? & _ & [? _ _ _ _ _ _]).
  destruct (span_run _ _ Hk) as (? & _ & [? _ _ _ _ _ _]).
  eapply (increasing_concat (ranks_of <$> spans) j k); [rewrite Hconcat; apply pending_increasing|done| | |
    apply elem_of_ranks; split; done..]; by rewrite list_lookup_fmap, ?Hj, ?Hk.
Qed.

Lemma anchors_nodup : NoDup (mr_anchor <$> mu_runs unit).
Proof.
  assert (∀ j k run run', j < k → mu_runs unit !! j = Some run → mu_runs unit !! k = Some run' →
    mr_anchor run ≠ mr_anchor run') as Hne.
  { intros j k run run' Hjk (s & Hs & Hr)%span_at (s' & Hs' & Hr')%span_at. pose proof (span_before _ _ _ _ Hjk Hs Hs').
    destruct Hr as [? ? _ _ -> _ _], Hr' as [? ? _ _ -> _ _]. unfold rank_anchor.
    destruct (s'.1) as [|p]; [lia|]. destruct (s.1) as [|q]; [done|]. intros [= Heq].
    apply rank_inj in Heq; lia. }
  apply NoDup_alt. intros j k a Hj Hk. rewrite list_lookup_fmap in Hj, Hk.
  apply fmap_Some in Hj as (run & Hj & ->), Hk as (run' & Hk & Heq).
  destruct (Nat.lt_trichotomy j k) as [Hlt|[?|Hlt]]; [|done|].
  - by destruct (Hne _ _ _ _ Hlt Hj Hk).
  - by destruct (Hne _ _ _ _ Hlt Hk Hj).
Qed.

#[local] Abbreviation moving := (list_to_set (C := gset ItemId) ids).

Lemma runs_placed k run : mu_runs unit !! k = Some run →
  mr_anchor run = None ∨
  (∃ row, row ∈ filter (λ row, row_item_id row ∉ moving) rows ∧ mr_anchor run = Some (row_item_id row)) ∨
  ∃ j run', j < k ∧ mu_runs unit !! j = Some run' ∧ mr_anchor run = last_id (mr_rows run').
Proof.
  intros (s & Hs & Hr)%span_at. destruct Hr as [Hle Hlt _ _ Hanc _ _]. rewrite Hanc. unfold rank_anchor.
  destruct (s.1) as [|p] eqn:Hf; [by left|]. right.
  destruct (decide (p ∈ pending lo i)) as [Hp|Hp].
  - right. apply pending_span in Hp as (j & s' & Hs' & Hp). destruct (span_run _ _ Hs') as (run' & Hrun' & Hr').
    assert (j < k) as Hjk.
    { destruct (Nat.lt_trichotomy j k) as [?|[->|Hlt']]; [done| |].
      - assert (s' = s) as -> by congruence. lia.
      - pose proof (span_before _ _ _ _ Hlt' Hs Hs'). lia. }
    exists j, run'. split_and!; [done..|]. pose proof (span_before _ _ _ _ Hjk Hs' Hs).
    rewrite (run_last_id _ _ Hr'). do 2 f_equal. lia.
  - left. assert (p < n) as Hpn by lia. pose proof (rank_in_rows p Hpn) as Hin. apply elem_of_ids in Hin as (row & Hrow & Hid).
    exists row. split; [|by rewrite Hid]. apply list_elem_of_filter. split; [|done].
    rewrite elem_of_list_to_set, Hid, rank_moved by done. done.
Qed.

(** What follows what after the unit. *)
Definition follows_anchor (l : list ItemId) (r : nat) : Prop :=
  match r with
  | O => ∃ B, l = rank_id 0 :: B
  | S p => ∃ A B, l = A ++ rank_id p :: rank_id r :: B
  end.

Lemma run_follows placed r : (∀ run, run ∈ mu_runs unit → ∃ A B, placed = A ++ mr_rows run ++ B ∧ last_id A = mr_anchor run) →
  r ∈ pending lo i → follows_anchor (ids_of placed) r.
Proof.
  intros Hruns (k & s & Hs & Hr)%pending_span. destruct (span_run _ _ Hs) as (run & Hrun & Hro).
  destruct (Hruns run) as (A & B & -> & Hlast); [by eapply list_elem_of_lookup_2|].
  rewrite !ids_app, (run_ids _ _ Hro). destruct Hro as [Hle Hlt _ _ Hanc _ _]. rewrite Hanc in Hlast. unfold ranks_of.
  destruct (decide (r = s.1)) as [->|Hne].
  - replace (S s.2 - s.1) with (S (s.2 - s.1)) by lia. cbn [seq fmap list_fmap]. unfold follows_anchor.
    destruct (s.1) as [|p]; cbn [rank_anchor] in Hlast.
    + unfold last_id in Hlast. apply fmap_None, last_None in Hlast as ->. by eexists.
    + unfold last_id in Hlast. apply fmap_Some in Hlast as (row & [A' ->]%last_Some & Hid).
      rewrite ids_app. cbn. rewrite <- Hid, <- app_assoc. eexists _, _. done.
  - destruct r as [|p]; [lia|]. unfold follows_anchor.
    replace (S s.2 - s.1) with ((p - s.1) + S (S (s.2 - S p))) by lia. rewrite seq_app, fmap_app.
    replace (s.1 + (p - s.1)) with p by lia. cbn [seq fmap list_fmap]. rewrite <- app_assoc, (app_assoc (ids_of A)).
    eexists _, _. done.
Qed.
End spans.

(** ** What a unit leaves *)

Record unit_done (rows' : list Row) (u : list Planned) (join : bool) : Prop := {
  ud_rows : rows_after u rows = rows';
  ud_perm : ids_of rows' ≡ₚ ids_of published;
  ud_order a b : a < b → b < n → settled i a → settled i b → before (rank_id a) (rank_id b) (ids_of rows');
  ud_joined : join = true → ∀ k, S k < length u → joins u k = true;
  ud_within : Forall (within_batch batch max_bytes) u;
  ud_deleted : deleted_ids u = rank_id <$> pending lo i;
  ud_from row : row ∈ rows' → row ∈ rows ∨ row ∈ target;
  ud_ops : length u = unit_ops (mu_moved unit) (length (mu_runs unit));
  ud_bytes : plan_bytes u = unit_bytes (mu_moved unit) (length (mu_runs unit)) (mu_row_bytes unit);
  ud_exec : executable (pl_effect <$> u) rows;
  ud_honest : Forall (honest target) u;
  ud_last : joins u (Nat.pred (length u)) = false;
  ud_plain : join = false → Forall (λ planned, pl_joins_next planned = false) u;
}.

#[local] Abbreviation stays := (λ row : Row, row_item_id row ∉ list_to_set (C := gset ItemId) ids).

Lemma ids_stays l : ids_of (filter stays l) = filter (λ id, id ∉ ids) (ids_of l).
Proof. apply ids_filter. intros row. by rewrite elem_of_list_to_set. Qed.

Lemma unit_perm placed : placed ≡ₚ filter stays rows ++ concat (mr_rows <$> mu_runs unit) → ids_of placed ≡ₚ ids_of published.
Proof.
  intros Hplaced. rewrite <- Hperm. unfold ids_of at 1. rewrite Hplaced, fmap_app.
  change (ids_of (filter stays rows) ++ ids ≡ₚ ids_of rows). rewrite ids_stays. apply filter_out_perm.
  - by rewrite Hperm.
  - rewrite unit_ids. apply NoDup_fmap_2_strong.
    + intros r r' Hr%elem_of_pending Hr'%elem_of_pending. apply rank_inj; lia.
    + apply NoDup_filter, NoDup_seq.
  - rewrite unit_ids. intros id (r & -> & Hr%elem_of_pending)%list_elem_of_fmap. apply rank_in_rows. lia.
Qed.

Lemma unit_order placed : ids_of placed ≡ₚ ids_of published → filter stays placed = filter stays rows →
  (∀ r, r ∈ pending lo i → follows_anchor (ids_of placed) r) →
  ∀ b a, a < b → b < n → settled i a → settled i b → before (rank_id a) (rank_id b) (ids_of placed).
Proof.
  intros Hpp Hstay Hfollow.
  assert (NoDup (ids_of placed)) as Hnd by by rewrite Hpp.
  assert (∀ r, settled i r → r ∈ pending lo i ∨ settled lo r) as Hcase.
  { intros r [Hk|Hr]; [right; by left|]. destruct (decide (is_kept r)); [right; by left|].
    destruct (Nat.lt_ge_cases r lo); [right; by right|]. left. by apply elem_of_pending. }
  assert (∀ r, settled lo r → r ∉ pending lo i) as Hnot.
  { intros r Hr [? ?]%elem_of_pending. destruct Hr as [?|?]; [done|lia]. }
  assert (∀ a b, a < b → b < n → settled lo a → settled lo b → before (rank_id a) (rank_id b) (ids_of placed)) as Hold.
  { intros a b Hab Hb Ha' Hb'. apply (before_filter (λ id, id ∉ ids)).
    1,2: rewrite rank_moved by lia; by apply Hnot.
    rewrite <- ids_stays, Hstay, ids_stays. apply before_filter; [rewrite rank_moved by lia; by apply Hnot..|].
    by apply Horder. }
  induction b as [b IHb] using lt_wf_ind. intros a. induction a as [a IHa] using lt_wf_ind. intros Hab Hb Ha' Hb'.
  destruct (Hcase b Hb') as [Hbp|Hbo].
  - apply Hfollow in Hbp as Hnext. destruct b as [|p]; [lia|]. cbn [follows_anchor] in Hnext.
    apply elem_of_pending in Hbp as [Hbr _].
    destruct (decide (a = p)) as [->|Hne]; [by apply next_is_before|]. eapply before_next; [done..|].
    apply IHb; [lia|lia|lia|done|]. right. lia.
  - destruct (Hcase a Ha') as [Hap|Hao]; [|by apply Hold].
    apply Hfollow in Hap as Hnext. apply elem_of_pending in Hap as [Har _]. destruct a as [|p]; cbn [follows_anchor] in Hnext.
    + destruct Hnext as [B HB]. rewrite HB. apply before_cons. left. split; [done|].
      assert (rank_id b ∈ ids_of placed) as Hin by (rewrite Hpp; by apply rank_published).
      rewrite HB in Hin. apply elem_of_cons in Hin as [Heq|?]; [|done]. apply rank_inj in Heq; lia.
    + eapply next_before; [done..| |].
      * apply IHa; [lia|lia|done| |done]. right. lia.
      * intros Heq. apply rank_inj in Heq; lia.
Qed.

Definition insert_move (insert : N * list Row) : Planned := in_move (EffInsert insert.1 insert.2).
Definition unit_plan (inserts : list (N * list Row)) : list Planned :=
  ((λ chunk, in_move (EffDelete chunk)) <$> chunks (delete_batch batch max_bytes) ids) ++ (insert_move <$> inserts).

Lemma unit_plan_rows inserts : rows_after (unit_plan inserts) rows = insert_all inserts (filter stays rows).
Proof.
  unfold unit_plan. rewrite rows_after_app, (delete_all (λ chunk, in_move (EffDelete chunk))) by done.
  rewrite chunks_concat by apply delete_batch_ne.
  assert (filter (λ row, row_item_id row ∉ ids) rows = filter stays rows) as ->.
  { apply filter_ext_in. intros row _. by rewrite elem_of_list_to_set. }
  generalize (filter stays rows). induction inserts as [|insert inserts IH]; intros l; [done|]. apply IH.
Qed.

Lemma unit_plan_deleted inserts : deleted_ids (unit_plan inserts) = ids.
Proof.
  unfold unit_plan, deleted_ids. rewrite fmap_app, concat_app, <- !list_fmap_compose.
  rewrite (list_fmap_ext (_ ∘ insert_move) (λ _, [])) by done.
  assert (∀ l : list (N * list Row), concat ((λ _, []) <$> l) = @nil ItemId) as Hnil by (intros l; by induction l).
  rewrite Hnil, app_nil_r, (list_fmap_ext _ id) by done. rewrite list_fmap_id. apply chunks_concat, delete_batch_ne.
Qed.

Lemma unit_plan_within inserts : inserts.*2 ≡ₚ mr_rows <$> mu_runs unit → Forall (within_batch batch max_bytes) (unit_plan inserts).
Proof.
  intros Hins. unfold unit_plan. apply Forall_app. split.
  - pose proof (deletions_within batch max_bytes ids Hbatch) as Hd. rewrite Forall_fmap in *. exact Hd.
  - apply Forall_fmap, Forall_forall. intros [index run] Hin.
    assert (run ∈ mr_rows <$> mu_runs unit) as Hrun by (rewrite <- Hins; by apply (list_elem_of_fmap_2 snd _ (index, run))).
    apply list_elem_of_fmap in Hrun as (mr & -> & [k Hk]%list_elem_of_lookup_1).
    destruct (uo_runs _ _ _ Hunit) as (spans & Hspans & _). destruct (Forall2_lookup_l _ _ _ _ _ Hspans Hk) as (s & _ & Hro).
    apply (run_within batch max_bytes Hbatch (EffInsert index)); [done..|by eapply run_nonempty|by apply Hro].
Qed.

Lemma unit_plan_ops inserts : inserts.*2 ≡ₚ mr_rows <$> mu_runs unit →
  length (unit_plan inserts) = unit_ops (mu_moved unit) (length (mu_runs unit)).
Proof.
  intros Hins%Permutation_length. rewrite !length_fmap in Hins. unfold unit_plan, unit_ops.
  rewrite length_app, !length_fmap, length_chunks, unit_ids, length_fmap, Hins by apply delete_batch_ne.
  by rewrite (uo_moved _ _ _ Hunit).
Qed.

Lemma unit_plan_bytes inserts : inserts.*2 ≡ₚ mr_rows <$> mu_runs unit →
  plan_bytes (unit_plan inserts) = unit_bytes (mu_moved unit) (length (mu_runs unit)) (mu_row_bytes unit).
Proof.
  intros Hins. unfold plan_bytes, unit_plan, unit_bytes. rewrite sum_bytes_app.
  assert (∀ cs, sum_bytes pl_bytes ((λ chunk, in_move (EffDelete chunk)) <$> cs) =
    (N.of_nat (length cs) * operation_bytes + N.of_nat (length (concat cs)) * ITEM_ID_BYTES)%N) as ->.
  { induction cs as [|c cs IH]; [done|]. cbn [fmap list_fmap concat length].
    change (pl_bytes (in_move (EffDelete c)) + sum_bytes pl_bytes ((λ chunk, in_move (EffDelete chunk)) <$> cs) =
      N.of_nat (S (length cs)) * operation_bytes + N.of_nat (length (c ++ concat cs)) * ITEM_ID_BYTES)%N.
    rewrite IH, length_app. unfold in_move, Planned_new. cbn [pl_bytes payload_bytes]. unfold operation_bytes, ITEM_ID_BYTES, len. lia. }
  assert (∀ l, sum_bytes pl_bytes (insert_move <$> l) =
    (N.of_nat (length l) * operation_bytes + sum_bytes (sum_bytes row_wire_bytes) l.*2)%N) as ->.
  { induction l as [|[index run] l IH]; [done|]. cbn [fmap list_fmap length].
    change (pl_bytes (insert_move (index, run)) + sum_bytes pl_bytes (insert_move <$> l) =
      N.of_nat (S (length l)) * operation_bytes + (sum_bytes row_wire_bytes run + sum_bytes (sum_bytes row_wire_bytes) l.*2))%N.
    rewrite IH. unfold insert_move, in_move, Planned_new. cbn [pl_bytes payload_bytes fst snd]. unfold operation_bytes. lia. }
  rewrite (sum_bytes_perm _ _ _ Hins), <- sum_bytes_concat, <- (uo_bytes _ _ _ Hunit).
  rewrite chunks_concat, length_chunks by apply delete_batch_ne.
  apply Permutation_length in Hins. rewrite !length_fmap in Hins. rewrite unit_ids, length_fmap, Hins.
  rewrite (uo_moved _ _ _ Hunit). lia.
Qed.

(** The rows of a unit are rows of the target. *)
Lemma unit_rows_target row : row ∈ concat (mr_rows <$> mu_runs unit) → row ∈ target.
Proof.
  intros Hin. destruct (uo_runs _ _ _ Hunit) as (spans & Hspans & _).
  apply list_elem_of_In, in_concat in Hin as (l & Hl & Hin). apply list_elem_of_In in Hl, Hin.
  apply list_elem_of_fmap in Hl as (mr & -> & [k Hk]%list_elem_of_lookup_1).
  destruct (Forall2_lookup_l _ _ _ _ _ Hspans Hk) as (s & _ & Hro). rewrite (ro_rows _ _ Hro) in Hin.
  assert (row ∈ order) as Hrow.
  { eapply elem_of_sublist; [exact Hin|]. etrans; [apply sublist_take|apply sublist_drop]. }
  by apply list_elem_of_filter in Hrow as [_ ?].
Qed.

Lemma unit_plan_executable inserts : executable (pl_effect <$> unit_plan inserts) rows.
Proof.
  unfold unit_plan. rewrite fmap_app, <- !list_fmap_compose. apply executable_app; [|apply executable_sends, Forall_fmap, Forall_true; done].
  change (executable (EffDelete <$> chunks (delete_batch batch max_bytes) ids) rows).
  apply executable_deletes; rewrite chunks_concat by apply delete_batch_ne; rewrite unit_ids.
  - apply NoDup_fmap_2_strong; [|apply NoDup_filter, NoDup_seq].
    intros r r' Hr%elem_of_pending Hr'%elem_of_pending. apply rank_inj; lia.
  - intros id (r & -> & Hr%elem_of_pending)%list_elem_of_fmap. apply rank_in_rows. lia.
Qed.

Lemma unit_plan_plain inserts : Forall (λ planned, pl_joins_next planned = false) (unit_plan inserts).
Proof. unfold unit_plan. apply Forall_app. split; apply Forall_fmap, Forall_true; done. Qed.

Lemma unit_plan_honest inserts : inserts.*2 ≡ₚ mr_rows <$> mu_runs unit → Forall (honest target) (unit_plan inserts).
Proof.
  intros Hins. unfold unit_plan. apply Forall_app. split; apply Forall_fmap.
  - apply Forall_true. intros c. apply honest_in_move. intros row []%not_elem_of_nil.
  - apply Forall_forall. intros [index run] Hin. apply honest_in_move. intros row Hrow.
    apply unit_rows_target, list_elem_of_In, in_concat. exists run. rewrite <- !list_elem_of_In. split; [|done].
    rewrite <- Hins. by apply (list_elem_of_fmap_2 snd _ (index, run)).
Qed.

Lemma flush_spec join : ∃ rows' u, flush_moves unit rows (delete_batch batch max_bytes) join = Ok (rows', u) ∧ unit_done rows' u join.
Proof.
  destruct (uo_runs _ _ _ Hunit) as (spans & Hspans & Hconcat).
  assert (Forall (λ run, mr_rows run ≠ []) (mu_runs unit)) as Hsome.
  { apply Forall_lookup. intros k run Hk. destruct (Forall2_lookup_l _ _ _ _ _ Hspans Hk) as (s & _ & Hro). by eapply run_nonempty. }
  destruct (place_unit_spec (mu_runs unit) rows (anchors_nodup _ Hspans Hconcat) Hsome (runs_placed _ Hspans Hconcat))
    as (placed & inserts & Heq & Hstay & Hplaced & Hinserts & Hruns & Hins).
  pose proof (unit_perm _ Hplaced) as Hpp. unfold flush_moves. rewrite Heq. cbn [mbind result_bind fst snd].
  assert (∀ u, pl_effect <$> u = pl_effect <$> unit_plan inserts →
    (∀ (P : Planned → Prop), (∀ p, P (joined p) ↔ P p) → Forall P (unit_plan inserts) → Forall P u) →
    length u = length (unit_plan inserts) → plan_bytes u = plan_bytes (unit_plan inserts) →
    (join = true → ∀ k, S k < length u → joins u k = true) → joins u (Nat.pred (length u)) = false →
    (join = false → Forall (λ planned, pl_joins_next planned = false) u) → unit_done placed u join) as Hdone.
  { intros u Heff Hall Hlen Hbytes Hjoins Hlast Hplain. split; [| | |done| | | | | | | |exact Hlast|exact Hplain].
    - by rewrite rows_after_effects, Heff, <- rows_after_effects, unit_plan_rows.
    - exact Hpp.
    - intros a b Hab Hb. apply (unit_order placed Hpp Hstay); [|done..].
      intros r Hr. by apply (run_follows _ Hspans Hconcat).
    - apply Hall; [done|]. by apply unit_plan_within.
    - rewrite <- unit_ids, <- (unit_plan_deleted inserts). unfold deleted_ids.
      assert (∀ u : list Planned, (λ planned, match pl_effect planned with EffDelete ids => ids | _ => [] end) <$> u =
        (λ e, match e with EffDelete ids => ids | _ => [] end) <$> (pl_effect <$> u)) as Hfm.
      { intros v. by rewrite <- list_fmap_compose. }
      by rewrite !Hfm, Heff.
    - intros row. rewrite Hplaced, elem_of_app. intros [[_ ?]%list_elem_of_filter|Hin]; [by left|right].
      by apply unit_rows_target.
    - rewrite Hlen. by apply unit_plan_ops.
    - rewrite Hbytes. by apply unit_plan_bytes.
    - rewrite Heff. apply unit_plan_executable.
    - apply Hall; [apply honest_joined|]. by apply unit_plan_honest. }
  destruct join.
  - do 2 eexists. split; [done|]. rewrite (list_fmap_ext (λ '(index, run), in_move (EffInsert index run)) insert_move) by by intros ? [? ?] _.
    change (unit_done placed (join_all (unit_plan inserts)) true). apply Hdone.
    + by apply join_all_fmap.
    + intros P HP. by apply Forall_joined.
    + apply length_join_all.
    + apply plan_bytes_joined.
    + intros _ k. apply join_all_joins.
    + apply join_all_last, unit_plan_plain.
    + done.
  - do 2 eexists. split; [done|]. rewrite (list_fmap_ext (λ '(index, run), in_move (EffInsert index run)) insert_move) by by intros ? [? ?] _.
    apply Hdone; try done; [apply joins_plain, unit_plan_plain|intros _; apply unit_plan_plain].
Qed.
End flush.

(** ** Growing a unit *)

Lemma unit_ok_empty i : unit_ok i i MoveUnit_default.
Proof.
  split; cbn; [|by rewrite pending_nil|done|by left; lia]. exists []. split; [constructor|by rewrite pending_nil].
Qed.

Lemma extends_last_Some unit index cost : extends_last unit index batch (item_budget max_bytes) cost = true →
  ∃ runs run, mu_runs unit = runs ++ [run] ∧ S (mr_last_rank run) = index ∧ length (mr_rows run) < batch ∧
    (mr_bytes run + cost ≤ item_budget max_bytes)%N.
Proof.
  unfold extends_last. destruct (last (mu_runs unit)) as [run|] eqn:Hl; [|done]. apply last_Some in Hl as [runs Hruns].
  rewrite !andb_true_iff. intros [[[_ H1%Nat.eqb_eq] H2%Nat.ltb_lt] H3%N.leb_le]. eauto 10.
Qed.

Lemma run_of_single i row : order !! i = Some row →
  run_of (mkMoveRun (match i with O => None | S previous => row_item_id <$> order !! previous end) [row] (row_wire_bytes row) i) (i, i).
Proof.
  intros Hrow. pose proof (lookup_lt_Some _ _ _ Hrow) as Hlt. split; cbn [mr_rows mr_last_rank mr_anchor mr_bytes fst snd].
  - done.
  - done.
  - replace (S i - i) with 1 by lia. rewrite (drop_S _ _ _ Hrow). done.
  - done.
  - unfold rank_anchor. destruct i as [|p]; [done|]. destruct (lookup_lt_is_Some_2 order p) as [prow Hp]; [lia|].
    rewrite Hp. cbn. by rewrite (rank_row _ _ Hp).
  - cbn. lia.
  - split; cbn; lia.
Qed.

Lemma run_of_extend run f i row : order !! i = Some row → run_of run (f, Nat.pred i) → i ≠ 0 → length (mr_rows run) < batch →
  (mr_bytes run + row_wire_bytes row ≤ item_budget max_bytes)%N →
  run_of (mkMoveRun (mr_anchor run) (mr_rows run ++ [row]) (mr_bytes run + row_wire_bytes row) i) (f, i).
Proof.
  intros Hrow [Hle Hlt Hrows _ Hanc Hbytes _] Hne Hlen Hfit. pose proof (lookup_lt_Some _ _ _ Hrow) as Hin.
  cbn [fst snd] in *. split; cbn [mr_rows mr_last_rank mr_anchor mr_bytes fst snd].
  - lia.
  - done.
  - rewrite Hrows. replace (S i - f) with (S (S (Nat.pred i) - f)) by lia. symmetry. apply take_S_r.
    rewrite lookup_drop. by replace (f + (S (Nat.pred i) - f)) with i by lia.
  - done.
  - done.
  - rewrite sum_bytes_snoc. by rewrite Hbytes.
  - split; [rewrite length_app; cbn; lia|right]. rewrite sum_bytes_snoc. by rewrite <- Hbytes.
Qed.

Lemma unit_full_false unit extends cost : unit_full unit extends max_ops (delete_batch batch max_bytes) max_bytes cost = false →
  let runs := length (mu_runs unit) + (if extends then 0 else 1) in
  unit_ops (S (mu_moved unit)) runs ≤ max_ops ∧ (unit_bytes (S (mu_moved unit)) runs (mu_row_bytes unit + cost) ≤ max_bytes)%N.
Proof.
  unfold unit_full, unit_ops, unit_bytes. rewrite Nat.add_1_r. intros [Hops%Nat.ltb_ge Hbytes%N.ltb_ge]%orb_false_iff.
  split; [exact Hops|]. rewrite N.add_assoc. exact Hbytes.
Qed.

Lemma add_row_spec lo i unit row extends : lo ≤ i → ¬ is_kept i → order !! i = Some row → unit_ok lo i unit →
  (extends = true → extends_last unit i batch (item_budget max_bytes) (row_wire_bytes row) = true) →
  (2 ≤ max_ops → mu_moved unit = 0 ∨ unit_full unit extends max_ops (delete_batch batch max_bytes) max_bytes (row_wire_bytes row) = false) →
  ∃ unit', add_row unit order i row (row_wire_bytes row) extends = Ok unit' ∧ unit_ok lo (S i) unit'.
Proof.
  intros Hlo Hkept' Hrow [(spans & Hspans & Hconcat) Hmoved Hbytes Hfits] Hext Hroom. unfold add_row.
  assert (∀ (runs : list MoveRun) rbytes, rbytes = (mu_row_bytes unit + row_wire_bytes row)%N →
    length runs = length (mu_runs unit) + (if extends then 0 else 1) → 2 ≤ max_ops → S (mu_moved unit) ≤ 1 ∨
    (unit_ops (S (mu_moved unit)) (length runs) ≤ max_ops ∧
     (unit_bytes (S (mu_moved unit)) (length runs) rbytes ≤ max_bytes)%N)) as Hfits'.
  { intros runs rbytes -> Hlen Hops. destruct (Hroom Hops) as [->|Hfull]; [left; lia|]. right.
    apply unit_full_false in Hfull. by rewrite Hlen. }
  destruct extends.
  - destruct (extends_last_Some _ _ _ (Hext eq_refl)) as (runs & run & Hruns & Hlast & Hlen & Hfit).
    rewrite Hruns in *. rewrite last_snoc. eexists. split; [done|]. rewrite length_app. cbn [length].
    replace (Nat.pred (length runs + 1)) with (length runs) by lia. rewrite take_app_length.
    apply Forall2_app_inv_l in Hspans as (spans0 & tail & Hs0 & Hst & ->).
    apply Forall2_cons_inv_l in Hst as ([f l] & ? & Hro & ->%Forall2_nil_inv_l & ->).
    assert (l = Nat.pred i) as -> by (rewrite (ro_last _ _ Hro) in Hlast; cbn in Hlast; lia).
    pose proof (ro_le _ _ Hro) as Hfl. cbn [fst snd] in Hfl.
    split; cbn [mu_runs mu_moved mu_row_bytes].
    + exists (spans0 ++ [(f, i)]). split.
      * apply Forall2_app; [done|]. constructor; [|constructor]. apply run_of_extend; try done. lia.
      * rewrite pending_moved, <- Hconcat, !fmap_app, !concat_app, <- app_assoc by done. f_equal. cbn.
        rewrite !app_nil_r. unfold ranks_of. cbn [fst snd]. replace (S i - f) with (S (S (Nat.pred i) - f)) by lia.
        rewrite seq_S. do 2 f_equal. lia.
    + rewrite pending_moved, length_app by done. cbn. lia.
    + rewrite Hbytes, !fmap_app, !concat_app, !sum_bytes_app. cbn [fmap list_fmap concat mr_rows].
      rewrite !app_nil_r, sum_bytes_snoc. lia.
    + apply Hfits'; [done|]. rewrite !length_app. cbn. lia.
  - eexists. split; [done|]. split; cbn [mu_runs mu_moved mu_row_bytes].
    + exists (spans ++ [(i, i)]). split.
      * apply Forall2_app; [done|]. constructor; [|constructor]. by apply run_of_single.
      * rewrite pending_moved, <- Hconcat, !fmap_app, !concat_app by done. f_equal. unfold ranks_of. cbn [fmap list_fmap concat fst snd].
        by replace (S i - i) with 1 by lia.
    + rewrite pending_moved, length_app by done. cbn. lia.
    + rewrite Hbytes, !fmap_app, !concat_app, !sum_bytes_app. cbn [fmap list_fmap concat mr_rows app].
      f_equal. cbn. lia.
    + apply Hfits'; [done|]. rewrite length_app. cbn. lia.
Qed.

(** ** The loop over the shared rows *)

(** A unit as [commit] sees it: it fits one transaction and is never split. *)
Record unit_fits (u : list Planned) : Prop := {
  uf_ops : length u ≤ max_ops;
  uf_bytes : length (deleted_ids u) ≤ 1 ∨ (plan_bytes u ≤ max_bytes)%N;
  uf_shape : unit_shape max_ops u;
}.

Record moves_inv (lo i : nat) (st : moves_state) : Prop := {
  mi_le : lo ≤ i ≤ n;
  mi_unit : unit_ok lo i (mv_unit st);
  mi_rows : rows_after (mv_plan st) published = mv_rows st;
  mi_perm : ids_of (mv_rows st) ≡ₚ ids_of published;
  mi_order a b : a < b → b < n → settled lo a → settled lo b → before (rank_id a) (rank_id b) (ids_of (mv_rows st));
  mi_lacks : 2 ≤ max_ops → never_lacks published (mv_plan st);
  mi_fits : 2 ≤ max_ops → ∃ us, mv_plan st = concat us ∧ Forall unit_fits us;
  mi_within : Forall (within_batch batch max_bytes) (mv_plan st);
  mi_deleted : deleted_ids (mv_plan st) = rank_id <$> pending 0 lo;
  mi_from row : row ∈ mv_rows st → row ∈ published ∨ row ∈ target;
  mi_exec : executable (pl_effect <$> mv_plan st) published;
  mi_honest : Forall (honest target) (mv_plan st);
  mi_plain : max_ops < 2 → Forall (λ planned, pl_joins_next planned = false) (mv_plan st);
}.

Lemma pending_split lo i : lo ≤ i → pending 0 i = pending 0 lo ++ pending lo i.
Proof.
  intros Hle. unfold pending. rewrite <- filter_app. f_equal. rewrite !Nat.sub_0_r.
  rewrite <- (seq_app lo (i - lo) 0 : seq 0 (lo + (i - lo)) = seq 0 lo ++ seq lo (i - lo)). f_equal. lia.
Qed.

(** The pending unit flushed: everything up to [i] is settled. *)
Lemma flush_inv_moves lo i st : moves_inv lo i st → 0 < mu_moved (mv_unit st) →
  ∃ rows' u, flush_moves (mv_unit st) (mv_rows st) (delete_batch batch max_bytes) (2 <=? max_ops)%nat = Ok (rows', u) ∧
    ∀ unit', unit_ok i i unit' → moves_inv i i (mkMoves unit' rows' (mv_plan st ++ u)).
Proof.
  intros [[Hlo Hi] Hunit Hrows Hperm Horder Hlacks Hfits Hwithin Hdel Hfrom Hexec Hhonest Hplain] Hmoved.
  destruct (flush_spec lo i _ _ Hunit Hlo Hi Hperm Horder (2 <=? max_ops)%nat) as (rows' & u & Heq & Hu).
  exists rows', u. split; [exact Heq|]. intros unit' Hunit'.
  assert (rows_after (mv_plan st ++ u) published = rows') as Hafter by (rewrite rows_after_app, Hrows; apply Hu).
  split; cbn [mv_unit mv_rows mv_plan].
  - lia.
  - exact Hunit'.
  - exact Hafter.
  - apply Hu.
  - intros a b. apply (ud_order _ _ _ _ _ _ _ Hu).
  - intros Hops. apply never_lacks_app; [by apply Hlacks|by rewrite Hrows|by rewrite Hafter; apply (ud_perm _ _ _ _ _ _ _ Hu)|].
    apply (ud_joined _ _ _ _ _ _ _ Hu). by apply Nat.leb_le.
  - intros Hops. destruct (Hfits Hops) as (us & -> & Hus). exists (us ++ [u]). split.
    + rewrite concat_app. cbn. by rewrite app_nil_r.
    + apply Forall_app. split; [done|]. constructor; [|constructor].
      assert (length u ≤ max_ops) as Hshort; [|split; [exact Hshort| |]].
      * rewrite (ud_ops _ _ _ _ _ _ _ Hu). destruct (uo_fits _ _ _ Hunit Hops) as [Hone|[? _]]; [|done].
        assert (mu_moved (mv_unit st) = 1) as H1 by lia. rewrite H1. unfold unit_ops, div_ceil.
        destruct (uo_runs _ _ _ Hunit) as (spans & Hspans & Hconcat). pose proof (uo_moved _ _ _ Hunit) as Hm.
        rewrite H1, <- Hconcat in Hm. pose proof (delete_batch_ne batch max_bytes) as Hdb.
        replace (1 + delete_batch batch max_bytes - 1) with (delete_batch batch max_bytes) by lia. rewrite Nat.div_same by done.
        assert (length (mu_runs (mv_unit st)) ≤ 1); [|lia].
        destruct Hspans as [|r1 s1 runs1 spans1 Hr1 Hs1]; [cbn; lia|].
        destruct Hs1 as [|r2 s2 runs2 spans2 Hr2 Hs2]; [cbn; lia|exfalso].
        cbn [fmap list_fmap concat] in Hm. rewrite !length_app in Hm. unfold ranks_of in Hm. rewrite !length_seq in Hm.
        pose proof (ro_le _ _ Hr1). pose proof (ro_le _ _ Hr2). lia.
      * rewrite (ud_deleted _ _ _ _ _ _ _ Hu), (ud_bytes _ _ _ _ _ _ _ Hu), length_fmap, <- (uo_moved _ _ _ Hunit).
        destruct (uo_fits _ _ _ Hunit Hops) as [?|[_ ?]]; auto.
      * assert (joins u (Nat.pred (length u)) = false) as Hlast by apply Hu. split; [|done|].
        { intros ->. pose proof (ud_deleted _ _ _ _ _ _ _ Hu) as Hd. cbn in Hd. symmetry in Hd. apply fmap_nil_inv in Hd.
          rewrite (uo_moved _ _ _ Hunit), Hd in Hmoved. cbn in Hmoved. lia. }
        intros k. split; [|apply (ud_joined _ _ _ _ _ _ _ Hu); by apply Nat.leb_le]. intros Hj.
        assert (k < length u) as Hk by (unfold joins in Hj; destruct (u !! k) eqn:Hl; [by eapply lookup_lt_Some|done]).
        destruct (decide (S k = length u)) as [Heq'|]; [|lia]. rewrite <- Heq' in Hlast. cbn in Hlast. congruence.
  - apply Forall_app. split; [done|apply Hu].
  - rewrite deleted_ids_app, Hdel, (ud_deleted _ _ _ _ _ _ _ Hu), <- fmap_app. f_equal. symmetry. by apply pending_split.
  - intros row Hrow. apply (ud_from _ _ _ _ _ _ _ Hu) in Hrow as [Hrow|?]; auto.
  - rewrite fmap_app. apply executable_app; [done|]. rewrite <- rows_after_effects, Hrows. apply Hu.
  - apply Forall_app. split; [done|apply Hu].
  - intros Hops. apply Forall_app. split; [by apply Hplain|]. apply (ud_plain _ _ _ _ _ _ _ Hu), Nat.leb_gt. exact Hops.
Qed.

Lemma move_step_inv lo i st row : moves_inv lo i st → order !! i = Some row →
  ∃ lo' st', move_step order kept batch max_ops (delete_batch batch max_bytes) max_bytes st (i, row) = Ok st' ∧
    moves_inv lo' (S i) st'.
Proof.
  intros Hinv Hrow. pose proof (lookup_lt_Some _ _ _ Hrow) as Hin. unfold move_step.
  destruct (default false (kept !! i)) eqn:Hk.
  { assert (is_kept i) as Hki by (unfold is_kept; by destruct (kept !! i) as [[]|]). exists lo, st. split; [done|].
    destruct Hinv as [[Hlo Hi] Hunit Hrows Hperm Horder Hlacks Hfits Hwithin Hdel Hfrom Hexec Hhonest Hplain]. split; try done; [lia|].
    destruct Hunit as [Hruns Hmoved Hbytes Hf]. split; rewrite ?pending_kept by done; done. }
  assert (¬ is_kept i) as Hki by (unfold is_kept; intros Heq; by rewrite Heq in Hk).
  set (cost := row_wire_bytes row). set (extends := extends_last (mv_unit st) i batch (item_budget max_bytes) cost).
  destruct ((0 <? mu_moved (mv_unit st))%nat && (2 <=? max_ops)%nat &&
    unit_full (mv_unit st) extends max_ops (delete_batch batch max_bytes) max_bytes cost) eqn:Hcond.
  - apply andb_true_iff in Hcond as [[Hmoved%Nat.ltb_lt _]%andb_true_iff _].
    destruct (flush_inv_moves _ _ _ Hinv Hmoved) as (rows' & u & -> & Hflush). cbn [mbind result_bind fst snd].
    destruct (add_row_spec i i MoveUnit_default row false) as (unit' & Heq & Hunit');
      [done|done|done|apply unit_ok_empty|done|by left|].
    fold cost in Heq. rewrite Heq. cbn [mbind result_bind]. exists i. eexists. split; [done|].
    destruct (Hflush _ (unit_ok_empty i)) as [[? ?] _ Hrows Hperm Horder Hlacks Hfits Hwithin Hdel Hfrom Hexec Hhonest Hplain].
    split; try done. cbn. lia.
  - destruct (add_row_spec lo i (mv_unit st) row extends) as (unit' & Heq & Hunit');
      [apply Hinv|done|done|apply Hinv|done| |].
    { intros Hops. destruct (Nat.eq_dec (mu_moved (mv_unit st)) 0) as [?|Hne]; [by left|right].
      rewrite (proj2 (Nat.ltb_lt 0 _)), (proj2 (Nat.leb_le 2 _)) in Hcond by lia. exact Hcond. }
    fold cost in Heq. rewrite Heq. cbn [mbind result_bind]. exists lo. eexists. split; [done|].
    destruct Hinv as [[Hlo Hi] Hunit Hrows Hperm Horder Hlacks Hfits Hwithin Hdel Hfrom Hexec Hhonest Hplain]. split; try done; cbn; lia.
Qed.

Lemma move_loop rest : ∀ lo i st, moves_inv lo i st → order = take i order ++ rest → i + length rest = n →
  ∃ lo' st', try_fold (move_step order kept batch max_ops (delete_batch batch max_bytes) max_bytes) st
      (imap (λ j, pair (i + j)) rest) = Ok st' ∧ moves_inv lo' n st'.
Proof.
  induction rest as [|row rest IH]; intros lo i st Hinv Heq Hlen; cbn [imap try_fold].
  - exists lo, st. split; [done|]. cbn in Hlen. by replace n with i by lia.
  - rewrite Nat.add_0_r. cbn [length] in Hlen.
    assert (order !! i = Some row) as Hrow by (rewrite Heq; apply list_lookup_middle; rewrite length_take; lia).
    destruct (move_step_inv _ _ _ _ Hinv Hrow) as (lo1 & st1 & -> & Hinv1). cbn [mbind result_bind].
    rewrite (imap_ext _ (λ j, pair (S i + j)) rest) by (intros; cbn; by rewrite Nat.add_succ_r).
    apply (IH lo1); [done| |lia]. rewrite (take_S_r _ _ _ Hrow), <- app_assoc. exact Heq.
Qed.

Lemma settled_order rows : ids_of rows ≡ₚ ids_of published →
  (∀ a b, a < b → b < n → before (rank_id a) (rank_id b) (ids_of rows)) →
  filter (λ id, id ∈ ids_of target) (ids_of rows) = ids_of order.
Proof.
  intros Hperm Hall. apply before_perm_eq; [|apply order_nodup|].
  - apply NoDup_Permutation; [apply NoDup_filter; by rewrite Hperm|apply order_nodup|]. intros id.
    rewrite list_elem_of_filter, Hperm. unfold shared_rows. rewrite (ids_filter _ (λ id, id ∈ ids_of published)) by done.
    rewrite list_elem_of_filter. tauto.
  - intros x y Hxy. pose proof Hxy as (a & b & Hab & Ha & Hb).
    pose proof (lookup_lt_Some _ _ _ Hb) as Hbn. unfold ids_of in Hbn. rewrite length_fmap in Hbn.
    rewrite rank_lookup in Ha, Hb by lia. injection Ha as <-. injection Hb as <-.
    assert (∀ r, r < n → rank_id r ∈ ids_of target) as Ht.
    { intros r [row Hr]%lookup_lt_is_Some_2. rewrite <- (rank_row _ _ Hr). apply ids_elem.
      apply list_elem_of_lookup_2 in Hr. by apply list_elem_of_filter in Hr as [_ ?]. }
    apply before_filter; [apply Ht; lia..|]. by apply Hall.
Qed.

Record moves_spec (rows : list Row) (plan : list Planned) : Prop := {
  ms_rows : rows_after plan published = rows;
  ms_perm : ids_of rows ≡ₚ ids_of published;
  ms_order : filter (λ id, id ∈ ids_of target) (ids_of rows) = filter (λ id, id ∈ ids_of published) (ids_of target);
  ms_lacks : 2 ≤ max_ops → never_lacks published plan;
  ms_fits : 2 ≤ max_ops → ∃ us, plan = concat us ∧ Forall unit_fits us;
  ms_within : Forall (within_batch batch max_bytes) plan;
  ms_deleted : deleted_ids plan = rank_id <$> pending 0 n;
  ms_from row : row ∈ rows → row ∈ published ∨ row ∈ target;
  ms_exec : executable (pl_effect <$> plan) published;
  ms_honest : Forall (honest target) plan;
  ms_plain : max_ops < 2 → Forall (λ planned, pl_joins_next planned = false) plan;
}.

Lemma order_ids : ids_of order = filter (λ id, id ∈ ids_of published) (ids_of target).
Proof. unfold shared_rows. by apply ids_filter. Qed.

Lemma finished_moves st : moves_inv n n st → moves_spec (mv_rows st) (mv_plan st).
Proof.
  intros [_ _ Hrows Hperm Horder Hlacks Hfits Hwithin Hdel Hfrom Hexec Hhonest Hplain]. split; try done.
  rewrite <- order_ids. apply settled_order; [done|]. intros a b Hab Hb. apply Horder; [done|done|right; lia|right; lia].
Qed.

Lemma moves_plan_spec : ∃ rows plan,
  (st ← try_fold (move_step order kept batch max_ops (delete_batch batch max_bytes) max_bytes)
          (mkMoves MoveUnit_default published []) (imap pair order);
   if (0 <? mu_moved (mv_unit st))%nat then
     flushed ← flush_moves (mv_unit st) (mv_rows st) (delete_batch batch max_bytes) (2 <=? max_ops)%nat;
     Ok (flushed.1, mv_plan st ++ flushed.2)
   else Ok (mv_rows st, mv_plan st)) = Ok (rows, plan) ∧ moves_spec rows plan.
Proof.
  assert (moves_inv 0 0 (mkMoves MoveUnit_default published [])) as Hstart.
  { split; cbn [mv_unit mv_rows mv_plan]; try done.
    - lia.
    - apply unit_ok_empty.
    - intros a b Hab Hb [Ha|?] [Hb'|?]; [by apply Hkept|lia..].
    - intros _ k _. by rewrite take_nil.
    - intros _. by exists [].
    - auto. }
  destruct (move_loop order 0 0 _ Hstart eq_refl eq_refl) as (lo & st & Heq & Hinv). cbn [Nat.add] in Heq.
  change (imap (λ j, pair j) order) with (imap pair order) in Heq. rewrite Heq. cbn [mbind result_bind].
  destruct (Nat.ltb_spec 0 (mu_moved (mv_unit st))) as [Hmoved|Hnone].
  - destruct (flush_inv_moves _ _ _ Hinv Hmoved) as (rows' & u & -> & Hflush). cbn [mbind result_bind fst snd].
    do 2 eexists. split; [done|]. exact (finished_moves _ (Hflush _ (unit_ok_empty n))).
  - do 2 eexists. split; [done|]. apply (finished_moves (mkMoves MoveUnit_default (mv_rows st) (mv_plan st))).
    destruct Hinv as [[Hlo Hi] Hunit Hrows Hperm Horder Hlacks Hfits Hwithin Hdel Hfrom Hexec Hhonest Hplain].
    assert (pending lo n = []) as Hnil by (apply length_zero_iff_nil; rewrite <- (uo_moved _ _ _ Hunit); lia).
    assert (∀ a, a < n → settled n a → settled lo a) as Hset.
    { intros a Ha _. destruct (decide (is_kept a)) as [?|Hk]; [by left|right]. apply Nat.nle_gt. intros Hge.
      apply (not_elem_of_nil a). rewrite <- Hnil. by apply elem_of_pending. }
    split; cbn [mv_unit mv_rows mv_plan]; try done.
    + apply unit_ok_empty.
    + intros a b Hab Hb Ha Hb'. apply Horder; [done|done|apply Hset; [lia|done]|by apply Hset].
    + rewrite Hdel. f_equal. by rewrite (pending_split lo n), Hnil, app_nil_r by done.
Qed.
End moves.
