(* ===== verification/SrtopPlan.v ===== *)
(** * srtop: what a whole plan does

    What [plan_moves] plans: the shared rows in the target's order, as few moves as
    any plan could make, no row left out of any revision.  Then the plan that takes
    the published rows to the target, moves first and the difference after: where it
    leads, that it can be executed, and that it is made of units. *)

From S2P Require Import Prelude.
From S2P Require Import Values.
From S2P Require Import Limits.
From S2P Require Import Event.
From S2P Require Import Session.
From S2P Require Import SrtopSort.
From S2P Require Import SrtopRefresh.
From S2P Require Import SrtopCommit.
From S2P Require Import SrtopRows.
From S2P Require Import SrtopDiffFacts.
From S2P Require Import SrtopMoveFacts.

(** The positions of the elements of a sublist increase. *)
Lemma sublist_positions {A} (pos : A → option nat) (s o : list A) : s `sublist_of` o →
  (∀ x i, x ∈ o → pos x = Some i ↔ o !! i = Some x) → NoDup o →
  increasing (omap pos s) ∧ length (omap pos s) = length s.
Proof.
  intros Hsub Hpos Hnd.
  assert (∀ x, x ∈ s → ∃ i, pos x = Some i ∧ o !! i = Some x) as Hs.
  { intros x Hx. assert (x ∈ o) as [i Hi]%list_elem_of_lookup_1 by (by eapply elem_of_sublist).
    exists i. split; [|done]. apply Hpos; [|done]. by eapply list_elem_of_lookup_2. }
  assert (∀ x y, before x y s → ∀ i j, pos x = Some i → pos y = Some j → i < j) as Hb.
  { intros x y Hxy i j Hi Hj. apply before_elem in Hxy as Hin. destruct Hin as [Hx Hy].
    eapply before_lookup_lt; [exact Hnd|by eapply before_sublist| |]; apply Hpos; try done; by eapply elem_of_sublist. }
  clear Hsub. unfold increasing. induction s as [|x s IH]; [split; [constructor|done]|].
  destruct (Hs x ltac:(left)) as (i & Hi & _). cbn. rewrite Hi. destruct IH as [Hinc Hlen].
  - intros y Hy. apply Hs. by right.
  - intros y z Hyz. apply Hb, before_cons. by right.
  - split; [|cbn; by rewrite Hlen]. constructor; [done|]. apply Forall_forall.
    intros j (y & Hy & Hj)%list_elem_of_omap. eapply (Hb x y); [|done..]. apply before_cons. by left.
Qed.

Lemma sublist_omap {A B} (f : A → option B) (l k : list A) : l `sublist_of` k → omap f l `sublist_of` omap f k.
Proof.
  induction 1 as [|x l k _ IH|x l k _ IH]; [done| |]; cbn; destruct (f x); try done; by constructor.
Qed.

Lemma sublist_filter_mono {A} (P : A → Prop) `{!∀ x, Decision (P x)} (l k : list A) :
  l `sublist_of` k → filter P l `sublist_of` filter P k.
Proof.
  induction 1 as [|x l k _ IH|x l k _ IH]; [done| |].
  - rewrite !filter_cons. case_decide; [by constructor|done].
  - rewrite (filter_cons _ x k). case_decide; [by constructor|done].
Qed.

Lemma filter_split_length {A} (P : A → Prop) `{!∀ x, Decision (P x)} (l : list A) :
  length (filter P l) + length (filter (λ x, ¬ P x) l) = length l.
Proof. induction l as [|x l IH]; [done|]. rewrite !filter_cons. repeat case_decide; cbn; tauto || lia. Qed.

Section plan_moves.
Context `{EventRegistry, SdkProperties}.
Variables (published target : list Row) (batch max_ops : nat) (max_bytes : N).
Hypothesis (Hpub : NoDup (ids_of published)) (Htgt : NoDup (ids_of target)) (Hbatch : 1 ≤ batch).
#[local] Abbreviation order := (shared_rows published target).
#[local] Abbreviation position := (λ id, row_position order id).

Lemma position_iff id i : position id = Some i ↔ ids_of order !! i = Some id.
Proof using Htgt. apply row_position_iff. eapply sublist_NoDup; [exact Htgt|]. apply sublist_fmap, sublist_filter. Qed.

Definition ranks : list nat := omap (λ row, row_position (shared_rows published target) (row_item_id row)) published.
Lemma ranks_ids : ranks = omap position (ids_of published).
Proof using Type.
  unfold ranks. generalize order. intros rows. clear. induction published as [|row l IH]; [done|]. cbn. by rewrite IH.
Qed.
Lemma ranks_small : Forall (λ v, v < length order) ranks.
Proof using Htgt.
  apply Forall_forall. intros v (row & _ & Hv)%list_elem_of_omap. apply position_iff, lookup_lt_Some in Hv.
  unfold ids_of in Hv. by rewrite length_fmap in Hv.
Qed.

(** What can stay where it is while the rest moves is no more than what stays. *)
Lemma stay_bound kept l stay : (∀ v, v < length order → kept !! v = Some (bool_decide (v ∈ l))) → l `sublist_of` ranks →
  (∀ l', l' `sublist_of` ranks → increasing l' → length l' ≤ length l) → increasing l →
  stay `sublist_of` ids_of published → stay `sublist_of` ids_of target →
  length stay + length (pending kept 0 (length order)) ≤ length order.
Proof using Htgt Hpub Hbatch.
  intros Hkept Hl Hmax Hinc Hsp Hst.
  assert (stay `sublist_of` ids_of order) as Hso.
  { unfold shared_rows. rewrite (ids_filter _ (λ id, id ∈ ids_of published)) by done.
    assert (filter (λ id, id ∈ ids_of published) stay = stay) as <-
      by (apply filter_all; intros x Hx; by eapply elem_of_sublist).
    by apply sublist_filter_mono. }
  destruct (sublist_positions position stay (ids_of order) Hso) as [Hsinc Hslen].
  { intros x i _. apply position_iff. }
  { eapply sublist_NoDup; [exact Htgt|]. apply sublist_fmap, sublist_filter. }
  assert (length stay ≤ length l) as Hle.
  { rewrite <- Hslen. apply Hmax; [|done]. rewrite ranks_ids. by apply sublist_omap. }
  assert (length l ≤ length (filter (λ r, kept !! r = Some true) (seq 0 (length order)))) as Hk.
  { assert (NoDup l) as Hnd.
    { clear -Hinc. unfold increasing in Hinc. induction Hinc as [|x l Hl IH Hx]; constructor; [|done].
      rewrite Forall_forall in Hx. intros Hin. apply Hx in Hin. lia. }
    apply submseteq_length, NoDup_submseteq; [done|]. intros v Hv. apply list_elem_of_filter.
    assert (v < length order) as Hlt.
    { pose proof ranks_small as Hs. rewrite Forall_forall in Hs. apply Hs. by eapply elem_of_sublist. }
    split; [by rewrite Hkept, bool_decide_true|]. apply elem_of_seq. lia. }
  pose proof (filter_split_length (λ r, kept !! r = Some true) (seq 0 (length order))) as Hsplit.
  rewrite length_seq in Hsplit. unfold pending, is_kept. rewrite Nat.sub_0_r. lia.
Qed.

(** [plan_moves] plans moves that fit, and moves no row it need not. *)
Lemma plan_moves_spec : ∃ kept rows plan, plan_moves published target batch max_ops max_bytes = Ok (rows, plan) ∧
  moves_spec published target batch max_ops max_bytes kept rows plan ∧
  (∀ stay, stay `sublist_of` ids_of published → stay `sublist_of` ids_of target →
    length stay + length (deleted_ids plan) ≤ length order).
Proof using All.
  unfold plan_moves. fold ranks.
  destruct (longest_increasing_spec ranks (length order) ranks_small) as (kept & l & Hlis & Hlen & Hsub & Hinc & Hkept & Hmax).
  rewrite Hlis. cbn [mbind result_bind].
  assert (∀ a b, a < b → b < length order → is_kept kept a → is_kept kept b →
    before (rank_id published target a) (rank_id published target b) (ids_of published)) as Hord.
  { unfold is_kept. intros a b Hab Hb Ha Hb'. rewrite Hkept in Ha, Hb' by lia.
    apply Some_inj, bool_decide_eq_true in Ha, Hb'.
    assert (before a b ranks) as Hr by (eapply before_sublist; [done|]; by apply before_increasing).
    rewrite ranks_ids in Hr. apply before_omap in Hr as (x & y & Hxy & Hx & Hy).
    apply position_iff in Hx, Hy. unfold rank_id.
    by rewrite (list_lookup_total_correct _ _ _ Hx), (list_lookup_total_correct _ _ _ Hy). }
  exists kept. destruct (forallb id kept) eqn:Hall.
  - exists published, []. split; [done|].
    assert (∀ a, a < length order → is_kept kept a) as Hk.
    { intros a Ha. unfold is_kept. destruct (lookup_lt_is_Some_2 kept a) as [b Hb]; [lia|]. rewrite Hb. f_equal.
      rewrite forallb_forall in Hall. apply (Hall b). apply list_elem_of_In. by eapply list_elem_of_lookup_2. }
    assert (pending kept 0 (length order) = []) as Hnil.
    { apply filter_none. intros a Ha%elem_of_seq Hn. apply Hn, Hk. lia. }
    split.
    + apply (finished_moves published target batch max_ops max_bytes kept Hpub Htgt Hbatch Hord (mkMoves MoveUnit_default published [])).
      split; cbn [mv_unit mv_rows mv_plan]; try done.
      * by apply unit_ok_empty.
      * intros a b Hab Hb _ _. apply Hord; [done|done|apply Hk; lia|by apply Hk].
      * intros _ k _. by rewrite take_nil.
      * intros _. by exists [].
      * by rewrite Hnil.
      * auto.
    + intros stay Hsp Hst. pose proof (stay_bound kept l stay Hkept Hsub Hmax Hinc Hsp Hst) as Hb. rewrite Hnil in Hb. exact Hb.
  - destruct (moves_plan_spec published target batch max_ops max_bytes kept Hpub Htgt Hbatch Hord) as (rows & plan & Heq & Hspec).
    exists rows, plan. split; [exact Heq|]. split; [done|]. intros stay Hsp Hst.
    rewrite (ms_deleted _ _ _ _ _ _ _ _ Hspec), length_fmap. by apply (stay_bound kept l).
Qed.
End plan_moves.

(** ** srtop: what a whole plan does

    The plan that takes the published rows to the target, moves first and the
    difference after: where it leads, that it can be executed, that it is made of
    units, and that no row the two collections share is missing anywhere it may be
    cut. *)

(** ** What a plan leaves alone *)

Lemma updated_by_id updated row : row_item_id (updated_by updated row) = row_item_id row.
Proof. unfold updated_by. by destruct (last_row updated _). Qed.

Lemma updated_ids updated rows : ids_of (updated_by updated <$> rows) = ids_of rows.
Proof. unfold ids_of. rewrite <- list_fmap_compose. apply list_fmap_ext. intros _ row _. apply updated_by_id. Qed.

Lemma record_keeps e rows id : id ∈ ids_of rows → (∀ ids, e = EffDelete ids → id ∉ ids) → id ∈ ids_of (record_rows e rows).
Proof.
  intros Hid Hdel. destruct e as [| | | | | | | |ids|index inserted|updated]; try done; cbn [record_rows].
  - rewrite (ids_filter _ (λ x, x ∉ ids)) by done. apply list_elem_of_filter. split; [by apply Hdel|done].
  - rewrite <- (take_drop (Nat.min (N.to_nat index) (length rows)) rows) in Hid.
    rewrite !ids_app, !elem_of_app. rewrite ids_app, elem_of_app in Hid. tauto.
  - by rewrite updated_ids.
Qed.

(** What a plan does not delete stays. *)
Lemma plan_keeps plan id : ∀ rows, id ∈ ids_of rows → id ∉ deleted_ids plan → id ∈ ids_of (rows_after plan rows).
Proof.
  induction plan as [|planned plan IH]; intros rows Hid Hdel; [done|]. rewrite rows_after_cons.
  unfold deleted_ids in Hdel. cbn [fmap list_fmap concat] in Hdel. rewrite elem_of_app in Hdel.
  apply IH; [|by intros ?; apply Hdel; right]. apply record_keeps; [done|]. intros ids Heq Hin. apply Hdel. left. by rewrite Heq.
Qed.

Lemma deleted_take plan k id : id ∈ deleted_ids (take k plan) → id ∈ deleted_ids plan.
Proof. intros Hid. rewrite <- (take_drop k plan), deleted_ids_app. apply elem_of_app. by left. Qed.

Lemma cut_ok_app_l plan plan' k : k ≤ length plan → cut_ok (plan ++ plan') k → cut_ok plan k.
Proof.
  unfold cut_ok. rewrite length_app. intros Hk [->|[Hge|Hj]]; [by left|right; left; lia|].
  destruct (decide (k = 0)) as [->|Hne]; [by left|]. rewrite joins_app_l in Hj by lia. auto.
Qed.

Section diff.
Context `{EventRegistry, SdkProperties}.
Variables (published target : list Row) (batch : nat) (max_bytes : N).
Hypothesis (Hpub : NoDup (ids_of published)) (Htgt : NoDup (ids_of target)) (Hbatch : 1 ≤ batch).

Lemma diff_deleted : deleted_ids (diff published target batch max_bytes) = deleted_rows published target.
Proof using Type.
  destruct (diff_shape published target batch max_bytes) as (tail & -> & Htail). rewrite deleted_ids_app.
  assert (deleted_ids tail = []) as ->.
  { unfold deleted_ids. induction Htail as [|planned tail (e & -> & He & _) _ IH]; [done|]. cbn [fmap list_fmap concat]. rewrite IH.
    by destruct e. }
  rewrite app_nil_r. unfold deleted_ids. rewrite <- list_fmap_compose, (list_fmap_ext _ id) by done.
  rewrite list_fmap_id. apply chunks_concat, delete_batch_ne.
Qed.

Lemma diff_plain : Forall (λ planned, pl_joins_next planned = false) (diff published target batch max_bytes).
Proof using Type.
  destruct (diff_shape published target batch max_bytes) as (tail & -> & Htail). apply Forall_app. split.
  - by apply Forall_fmap, Forall_true.
  - eapply Forall_impl; [exact Htail|]. by intros planned (e & -> & _).
Qed.

(** Rows that are in the target's order already are retained. *)
Hypothesis Hshared : filter (λ id, id ∈ ids_of target) (ids_of published) `sublist_of` ids_of target.

Lemma spares_step done_ row rest st : published = done_ ++ row :: rest → diff_inv target done_ st →
  (∀ id, id ∈ st.1.1 → id ∉ ids_of target) → ∀ id, id ∈ (diff_step target st row).1.1 → id ∉ ids_of target.
Proof using Hpub Htgt Hbatch Hshared.
  destruct st as [[deleted retained] highest]. intros Hsplit Hinv Hst id. cbn [fst snd] in *. unfold diff_step.
  destruct (row_position target (row_item_id row)) as [position|] eqn:Hpos.
  2: { apply row_position_None in Hpos. cbn [fst]. rewrite elem_of_app, list_elem_of_singleton. intros [?| ->]; auto. }
  apply row_position_Some in Hpos. destruct highest as [h|]; [|by auto].
  destruct (Nat.ltb_spec position h) as [Hback|_]; [exfalso|by auto].
  destruct (di_highest _ _ _ Hinv h eq_refl) as (kept & Hkept & Hin). apply (di_retained _ _ _ Hinv) in Hin.
  assert (before kept (row_item_id row) (ids_of published)) as Hb.
  { rewrite Hsplit, ids_app. apply before_app. right. right. split; [done|]. left. }
  assert (before kept (row_item_id row) (ids_of target)) as Ht.
  { eapply before_sublist; [exact Hshared|]. apply before_filter; [by eapply list_elem_of_lookup_2..|done]. }
  pose proof (before_lookup_lt _ _ _ _ _ Htgt Ht Hkept Hpos). lia.
Qed.

Lemma diff_spares id : id ∈ deleted_rows published target → id ∉ ids_of target.
Proof using Hpub Htgt Hbatch Hshared.
  unfold deleted_rows. enough (∀ rest done_ st, published = done_ ++ rest → diff_inv target done_ st →
    (∀ id, id ∈ st.1.1 → id ∉ ids_of target) → ∀ id, id ∈ (foldl (diff_step target) st rest).1.1 → id ∉ ids_of target) as Hloop.
  { apply (Hloop published []); [done| |by intros ? ?%not_elem_of_nil]. split; cbn; [done|set_solver|apply sublist_nil_l|done]. }
  induction rest as [|row rest IH]; intros done_ st Hsplit Hinv Hst; [done|]. cbn [foldl].
  apply (IH (done_ ++ [row])); [by rewrite <- app_assoc| |by eapply spares_step].
  apply (diff_step_inv published target batch); [done..| |done].
  rewrite Hsplit, ids_app in Hpub. apply NoDup_app in Hpub as (_ & Hdisj & _). intros Hin. apply (Hdisj _ Hin). left.
Qed.
End diff.

(** ** The whole plan *)

Section row_plan.
Context `{EventRegistry, SdkProperties}.
Variable s : SessionInner.
#[local] Abbreviation batch := ((mutation_limits s).1).
#[local] Abbreviation max_ops := ((mutation_limits s).2).

Lemma mutation_limits_positive : 1 ≤ batch ∧ 1 ≤ max_ops.
Proof. unfold mutation_limits. cbn [fst snd]. unfold DEFAULT_MAX_ITEMS_PER_MODEL_OPERATION. lia. Qed.

Record row_plan_spec (rows target : list Row) (with_diff : bool) (plan : list Planned) : Prop := {
  rp_items : with_diff = true →
    Forall (λ row, cell_list (row_value row)) rows → Forall (λ row, cell_list (row_value row)) target →
    to_model_item <$> rows_after plan rows = to_model_item <$> target;
  rp_perm : with_diff = false → ids_of (rows_after plan rows) ≡ₚ ids_of rows ∧
    filter (λ id, id ∈ ids_of target) (ids_of (rows_after plan rows)) = filter (λ id, id ∈ ids_of rows) (ids_of target);
  rp_exec : executable (pl_effect <$> plan) rows;
  rp_honest : Forall (honest target) plan;
  rp_units : whole_units max_ops plan;
  rp_within : Forall (within_batch batch MAX_TRANSACTION_PAYLOAD_BYTES) plan;
  rp_lacks k id : 2 ≤ max_ops → cut_ok plan k → id ∈ ids_of rows → id ∈ ids_of target →
    id ∈ ids_of (rows_after (take k plan) rows);
}.

Lemma moves_units rows target kept rows' moves : moves_spec rows target batch max_ops MAX_TRANSACTION_PAYLOAD_BYTES kept rows' moves →
  whole_units max_ops moves.
Proof.
  intros Hm. destruct (Nat.lt_ge_cases max_ops 2) as [Hlt|Hge].
  - apply whole_units_single; [apply mutation_limits_positive|]. by apply Hm.
  - destruct (ms_fits _ _ _ _ _ _ _ _ Hm Hge) as (us & -> & Hus). exists us. split; [done|].
    eapply Forall_impl; [exact Hus|]. by intros u [].
Qed.

Lemma row_plan_correct rows target with_diff : NoDup (ids_of rows) → NoDup (ids_of target) →
  ∃ plan, row_plan s rows target with_diff = Ok plan ∧ row_plan_spec rows target with_diff plan.
Proof.
  intros Hrows Htgt. destruct mutation_limits_positive as [Hbatch Hops].
  destruct (plan_moves_spec rows target batch max_ops MAX_TRANSACTION_PAYLOAD_BYTES Hrows Htgt Hbatch)
    as (kept & rows' & moves & Heq & Hm & _).
  assert (NoDup (ids_of rows')) as Hrows' by (rewrite (ms_perm _ _ _ _ _ _ _ _ Hm); done).
  unfold row_plan. rewrite (surjective_pairing (mutation_limits s)), Heq. cbn [mbind result_bind fst snd].
  eexists. split; [done|]. destruct with_diff.
  - set (difference := diff rows' target _ _).
    assert (filter (λ id, id ∈ ids_of target) (ids_of rows') `sublist_of` ids_of target) as Hshared.
    { rewrite (ms_order _ _ _ _ _ _ _ _ Hm). apply sublist_filter. }
    split.
    + intros _ Hpc Htc. rewrite rows_after_app, (ms_rows _ _ _ _ _ _ _ _ Hm). apply diff_spec; try done; [].
      rewrite Forall_forall in *. intros row [?|?]%(ms_from _ _ _ _ _ _ _ _ Hm); auto.
    + done.
    + rewrite fmap_app. apply executable_app; [apply Hm|]. rewrite <- rows_after_effects, (ms_rows _ _ _ _ _ _ _ _ Hm).
      by apply diff_executable.
    + apply Forall_app. split; [apply Hm|apply diff_honest].
    + apply whole_units_app; [by eapply moves_units|]. apply whole_units_single, diff_plain. done.
    + apply Forall_app. split; [apply Hm|]. by apply diff_spec.
    + intros k id Htwo Hcut Hid Hin. destruct (Nat.le_gt_cases k (length moves)) as [Hle|Hgt].
      * rewrite take_app_le by done. apply cut_ok_app_l in Hcut; [|done].
        by rewrite (ms_lacks _ _ _ _ _ _ _ _ Hm Htwo k Hcut).
      * rewrite take_app_ge, rows_after_app, (ms_rows _ _ _ _ _ _ _ _ Hm) by lia.
        apply plan_keeps; [by rewrite (ms_perm _ _ _ _ _ _ _ _ Hm)|]. intros Hdel%deleted_take.
        unfold difference in Hdel. rewrite diff_deleted in Hdel. revert Hin. by apply (diff_spares rows' target batch).
  - rewrite app_nil_r. split.
    + done.
    + intros _. rewrite (ms_rows _ _ _ _ _ _ _ _ Hm). split; apply Hm.
    + apply Hm.
    + apply Hm.
    + by eapply moves_units.
    + apply Hm.
    + intros k id Htwo Hcut Hid _. by rewrite (ms_lacks _ _ _ _ _ _ _ _ Hm Htwo k Hcut).
Qed.
End row_plan.
