(* ===== verification/SrtopView.v ===== *)
(** * srtop: which rows a view publishes

    The rows a scan leaves uncertain survive it, bounded by the ceiling on published
    rows; and what is published fits a snapshot, whatever its columns. *)

From S2P Require Import Prelude.
From S2P Require Import Values.
From S2P Require Import Limits.
From S2P Require Import Models.
From S2P Require Import Snapshot.
From S2P Require Import Event.
From S2P Require Import SrtopData.
From S2P Require Import SrtopCatalogue.
From S2P Require Import SrtopSort.
From S2P Require Import SrtopRefresh.
From S2P Require Import SrtopRows.
From S2P Require Import SrtopDiffFacts.
From S2P Require Import SrtopMoveFacts.

(** ** Retaining unconfirmed rows *)

Section retain.
Variables (confirmed : list Row) (retention : Retention).

(** A row the scan neither confirmed nor proved gone. *)
Definition uncertain (row : Row) : Prop :=
  row_item_id row ∉ ids_of confirmed ∧ keeps retention (row_key row) = true.
#[export] Instance uncertain_dec row : Decision (uncertain row).
Proof using Type. unfold uncertain. apply _. Defined.

Definition gathered (m : gmap nat (list Row)) (n : nat) : list Row := concat ((λ i, default [] (m !! i)) <$> seq 0 n).

Lemma gathered_S m n : gathered m (S n) = gathered m n ++ default [] (m !! n).
Proof using Type. unfold gathered. rewrite seq_S, fmap_app, concat_app. cbn. by rewrite app_nil_r. Qed.

Lemma gathered_ext m m' n : (∀ i, i < n → m !! i = m' !! i) → gathered m n = gathered m' n.
Proof using Type.
  induction n as [|n IH]; intros Heq; [done|]. rewrite !gathered_S, IH by (intros i Hi; apply Heq; lia). by rewrite Heq by lia.
Qed.

Lemma gathered_insert m n index row : index < n →
  gathered (<[index := default [] (m !! index) ++ [row]]> m) n ≡ₚ row :: gathered m n.
Proof using Type.
  induction n as [|n IH]; intros Hlt; [lia|]. rewrite !gathered_S. destruct (decide (index = n)) as [->|Hne].
  - rewrite lookup_insert_eq. cbn [from_option]. unfold id. rewrite (gathered_ext _ m) by (intros i Hi; apply lookup_insert_ne; lia).
    rewrite app_assoc. symmetry. apply Permutation_cons_append.
  - rewrite lookup_insert_ne by done. rewrite IH by lia. done.
Qed.

Definition held (st : retained_rows) : list Row := gathered (rt_before st) (length confirmed) ++ rt_tail st.

Lemma retain_step_held row st : (∀ i, rt_anchor st = Some i → i < length confirmed) →
  held (retain_step confirmed retention row st) ≡ₚ filter uncertain [row] ++ held st ∧
  (∀ i, rt_anchor (retain_step confirmed retention row st) = Some i → i < length confirmed).
Proof using Type.
  intros Hanchor. unfold retain_step, held. destruct (row_position confirmed (row_item_id row)) as [index|] eqn:Hpos.
  - assert (row_item_id row ∈ ids_of confirmed) as Hin by (eapply list_elem_of_lookup_2; by apply row_position_Some).
    rewrite filter_cons_False by by intros []. split; [done|]. cbn [rt_anchor]. intros i [= <-].
    apply row_position_Some, lookup_lt_Some in Hpos. unfold ids_of in Hpos. by rewrite length_fmap in Hpos.
  - apply row_position_None in Hpos. destruct (keeps retention (row_key row)) eqn:Hkeep.
    + rewrite filter_cons_True, filter_nil by done. destruct (rt_anchor st) as [index|] eqn:Ha; cbn [rt_before rt_tail rt_anchor].
      * split; [|done]. rewrite gathered_insert by by apply Hanchor. done.
      * split; [|done]. rewrite app_assoc. symmetry. apply Permutation_cons_append.
    + rewrite filter_cons_False; [done|]. intros [_ ?]. congruence.
Qed.

Lemma retain_loop published st : (∀ i, rt_anchor st = Some i → i < length confirmed) →
  held (foldr (retain_step confirmed retention) st published) ≡ₚ filter uncertain published ++ held st ∧
  (∀ i, rt_anchor (foldr (retain_step confirmed retention) st published) = Some i → i < length confirmed).
Proof using Type.
  intros Hst. induction published as [|row published [IHp IHa]]; cbn [foldr]; [done|].
  destruct (retain_step_held row _ IHa) as [Hp Ha]. split; [|done]. rewrite Hp, IHp, app_assoc.
  by rewrite <- filter_app.
Qed.

Lemma merged_rows (m : gmap nat (list Row)) (rows : list Row) :
  let merged := concat (imap (λ index row, reverse (default [] (m !! index)) ++ [row]) rows) in
  merged ≡ₚ rows ++ gathered m (length rows) ∧ rows `sublist_of` merged.
Proof using Type.
  induction rows as [|row rows [IHp IHs]] using rev_ind; cbn zeta in *; [done|].
  rewrite imap_app, concat_app, length_app, Nat.add_1_r, gathered_S. cbn [imap concat]. rewrite Nat.add_0_r, app_nil_r. split.
  - rewrite IHp, reverse_Permutation, <- !app_assoc. apply Permutation_app_head. rewrite !app_assoc.
    rewrite (Permutation_app_comm _ [row]). by rewrite <- !app_assoc.
  - apply sublist_app; [done|]. by apply sublist_inserts_l.
Qed.

Lemma uncertain_existsb row :
  bool_decide (row_position confirmed (row_item_id row) = None) && keeps retention (row_key row) = true ↔ uncertain row.
Proof using Type. rewrite andb_true_iff, bool_decide_eq_true, row_position_None. done. Qed.

(** The rows a scan confirmed, in its order, and those it is uncertain of. *)
Lemma retain_unconfirmed_spec published :
  retain_unconfirmed published confirmed retention ≡ₚ confirmed ++ filter uncertain published ∧
  confirmed `sublist_of` retain_unconfirmed published confirmed retention.
Proof using Type.
  unfold retain_unconfirmed. destruct (existsb _ published) eqn:Hex; cbn [negb].
  - destruct (retain_loop published (mkRetained ∅ [] None)) as [Hheld _]; [done|].
    set (st := foldr _ _ published) in *. destruct (merged_rows (rt_before st) confirmed) as [Hm Hs]. split.
    + rewrite Hm, reverse_Permutation, <- app_assoc. apply Permutation_app_head. unfold held in Hheld. rewrite Hheld.
      unfold held. cbn [rt_before rt_tail]. assert (gathered ∅ (length confirmed) = []) as ->; [|by rewrite !app_nil_r].
      generalize (length confirmed). intros n. induction n as [|n IH]; [done|]. by rewrite gathered_S, IH.
    + by apply sublist_inserts_r.
  - rewrite filter_none; [by rewrite app_nil_r|]. intros row Hrow Hu%uncertain_existsb.
    apply not_true_iff_false in Hex. apply Hex, existsb_exists. exists row. split; [by apply list_elem_of_In|done].
Qed.

Lemma retain_unconfirmed_nodup published : NoDup (ids_of published) → NoDup (ids_of confirmed) →
  NoDup (ids_of (retain_unconfirmed published confirmed retention)).
Proof using Type.
  intros Hp Hc. destruct (retain_unconfirmed_spec published) as [Hperm _]. unfold ids_of. rewrite Hperm, fmap_app.
  apply NoDup_app. split_and!; [done| |].
  - intros id Hid (row & -> & [[Hno _] _]%list_elem_of_filter)%list_elem_of_fmap. done.
  - eapply sublist_NoDup; [exact Hp|]. apply sublist_fmap, sublist_filter.
Qed.
End retain.

(** ** Eviction *)

Section evict.
Variable confirmed : gset ItemId.

Lemma evictions_spec rows : ∀ excess, NoDup (ids_of rows) →
  evictions excess confirmed rows ⊆ list_to_set (ids_of rows) ∧
  (∀ id, id ∈ evictions excess confirmed rows → id ∉ confirmed) ∧
  size (evictions excess confirmed rows) = Nat.min excess (length (filter (λ row, row_item_id row ∉ confirmed) rows)).
Proof using Type.
  induction rows as [|row rows IH]; intros excess Hnd; [by destruct excess; cbn; rewrite ?size_empty; split_and!; (set_solver || lia)|].
  apply NoDup_cons in Hnd as [Hno Hnd]. destruct excess as [|excess]; [cbn; rewrite size_empty; split_and!; (set_solver || lia)|].
  cbn [evictions]. rewrite filter_cons. case_decide as Hc.
  - rewrite decide_False by tauto. destruct (IH (S excess) Hnd) as (Hs & Hu & ->). split_and!; [|done|done].
    cbn [ids_of fmap list_fmap list_to_set]. set_solver.
  - rewrite decide_True by done. destruct (IH excess Hnd) as (Hs & Hu & Hsize). cbn [ids_of fmap list_fmap list_to_set]. split_and!.
    + set_solver.
    + set_solver.
    + rewrite size_union, size_singleton, Hsize by (apply disjoint_singleton_l; intros Hin%Hs%elem_of_list_to_set; done).
      cbn [length]. lia.
Qed.

Lemma filter_out_length (E : gset ItemId) rows : NoDup (ids_of rows) → E ⊆ list_to_set (ids_of rows) →
  length (filter (λ row, row_item_id row ∉ E) rows) + size E = length rows.
Proof using Type.
  intros Hnd Hsub. assert (ids_of (filter (λ row, row_item_id row ∉ E) rows) = filter (λ id, id ∉ E) (ids_of rows)) as Hids
    by by apply ids_filter.
  apply (f_equal length) in Hids. unfold ids_of in Hids at 1. rewrite length_fmap in Hids. rewrite Hids.
  assert (E = list_to_set (filter (λ id, id ∈ E) (ids_of rows))) as HE.
  { apply set_eq. intros id. rewrite elem_of_list_to_set, list_elem_of_filter. split; [|tauto]. intros Hin. split; [done|].
    apply Hsub in Hin. by apply elem_of_list_to_set in Hin. }
  assert (size E = length (filter (λ id, id ∈ E) (ids_of rows))) as ->
    by (rewrite <- (size_list_to_set (C := gset ItemId)) by (by apply NoDup_filter); by rewrite <- HE).
  assert (length (ids_of rows) = length rows) as <- by (unfold ids_of; by rewrite length_fmap).
  clear. induction (ids_of rows) as [|id ids IH]; [done|]. rewrite !filter_cons. repeat case_decide; cbn [length]; tauto || lia.
Qed.

(** What is kept: every confirmed row, in the order it was in, and no more rows than
    the ceiling allows unless the confirmed rows alone exceed it. *)
Lemma evict_unconfirmed_spec rows limit : NoDup (ids_of rows) → let kept := (evict_unconfirmed_beyond rows confirmed limit).1 in
  kept `sublist_of` rows ∧ (∀ row, row ∈ rows → row_item_id row ∈ confirmed → row ∈ kept) ∧
  length kept = Nat.min (length rows) (Nat.max limit (length (filter (λ row, row_item_id row ∈ confirmed) rows))) ∧
  length kept + (evict_unconfirmed_beyond rows confirmed limit).2 = length rows.
Proof using Type.
  intros Hnd. unfold evict_unconfirmed_beyond.
  assert (length (filter (λ row, row_item_id row ∈ confirmed) rows) +
    length (filter (λ row, row_item_id row ∉ confirmed) rows) = length rows) as Hsplit.
  { clear. induction rows as [|row rows IH]; [done|]. rewrite !filter_cons. repeat case_decide; cbn [length]; tauto || lia. }
  destruct (Nat.leb_spec (length rows) limit) as [Hle|Hgt].
  { cbn. split_and!; [done|done|lia|lia]. }
  assert (NoDup (ids_of (reverse rows))) as Hndr by (unfold ids_of; by rewrite reverse_Permutation).
  destruct (evictions_spec (reverse rows) (length rows - limit) Hndr) as (Hsub & Hun & Hsize).
  assert (evictions (length rows - limit) confirmed (reverse rows) ⊆ list_to_set (ids_of rows)) as Hsub'.
  { etrans; [exact Hsub|]. intros id. unfold ids_of. rewrite !elem_of_list_to_set. by rewrite reverse_Permutation. }
  assert (length (filter (λ row, row_item_id row ∉ confirmed) (reverse rows)) =
    length (filter (λ row, row_item_id row ∉ confirmed) rows)) as Hrev by by rewrite reverse_Permutation.
  rewrite Hrev in Hsize. set (E := evictions _ _ _) in *. pose proof (filter_out_length E rows Hnd Hsub') as Hlen.
  case_bool_decide as HE; cbn [fst snd].
  - rewrite HE, size_empty in Hsize. split_and!; [done|done|lia|lia].
  - split_and!; [apply sublist_filter| |lia|lia]. intros row Hrow Hc. apply list_elem_of_filter. split; [|done].
    by intros ?%Hun.
Qed.
End evict.

(** ** The bytes of a snapshot *)

(** What a row may cost a snapshot, whatever columns it shows. *)
Definition row_cost (row : Row) : N := (MODEL_ITEM_FRAMING_BYTES + VALUE_FRAMING_BYTES + sum_bytes value_wire_bytes (row_cells row))%N.
(** A collection as a snapshot carries it: its rows, and a header for every range
    of [DEFAULT_MAX_ITEMS_PER_MODEL_OPERATION]. *)
Definition ranges (n : nat) : N := N.of_nat (div_ceil n (N.to_nat DEFAULT_MAX_ITEMS_PER_MODEL_OPERATION)).
Definition collection_bytes (rows : list Row) : N := (sum_bytes row_cost rows + ranges (length rows) * SNAPSHOT_RANGE_BYTES)%N.

Lemma ranges_S n : ranges (S n) = (ranges n + if N.of_nat n mod DEFAULT_MAX_ITEMS_PER_MODEL_OPERATION =? 0 then 1 else 0)%N.
Proof.
  unfold ranges, div_ceil. set (b := N.to_nat DEFAULT_MAX_ITEMS_PER_MODEL_OPERATION).
  assert (b ≠ 0) as Hb by (unfold b, DEFAULT_MAX_ITEMS_PER_MODEL_OPERATION; lia).
  replace DEFAULT_MAX_ITEMS_PER_MODEL_OPERATION with (N.of_nat b) by (unfold b; by rewrite N2Nat.id).
  rewrite <- Nat2N.inj_mod. clearbody b. pose proof (Nat.div_mod n b Hb) as Hdiv. pose proof (Nat.mod_upper_bound n b Hb) as Hmod.
  destruct (N.eqb_spec (N.of_nat (n mod b)) 0) as [Hz|Hnz].
  - assert (n mod b = 0) as Hz' by lia. replace (S n + b - 1) with (b * (n / b) + b) by lia. replace (n + b - 1) with (b * (n / b) + (b - 1)) by lia.
    rewrite !(Nat.mul_comm b). rewrite !Nat.div_add_l by done. rewrite Nat.div_same, (Nat.div_small (b - 1)) by lia. lia.
  - replace (S n + b - 1) with (b * (n / b) + (n mod b + b)) by lia.
    replace (n + b - 1) with (b * (n / b) + (n mod b - 1 + b)) by lia. rewrite !(Nat.mul_comm b). rewrite !Nat.div_add_l by done.
    assert (∀ k, k < b → (k + b) / b = 1) as Hone.
    { intros k Hk. symmetry. apply (Nat.div_unique _ _ _ k); lia. }
    rewrite !Hone by lia. lia.
Qed.

Lemma collection_bytes_snoc rows row : collection_bytes (rows ++ [row]) =
  (collection_bytes rows + (row_cost row +
    if (N.of_nat (length rows) mod DEFAULT_MAX_ITEMS_PER_MODEL_OPERATION =? 0)%N then SNAPSHOT_RANGE_BYTES else 0))%N.
Proof.
  unfold collection_bytes. rewrite sum_bytes_snoc, length_app, Nat.add_1_r, ranges_S. case_match; lia.
Qed.

(** As many rows as the ceiling and the budget allow, from the first. *)
Lemma publishable_spec budget limit rest : ∀ done_, length done_ ≤ limit → (collection_bytes done_ ≤ budget)%N →
  let kept := publishable budget limit (length done_) (collection_bytes done_) rest in
  length done_ ≤ kept ≤ Nat.min limit (length (done_ ++ rest)) ∧
  (collection_bytes (take kept (done_ ++ rest)) ≤ budget)%N ∧
  (kept = length (done_ ++ rest) ∨ kept = limit ∨ (budget < collection_bytes (take (S kept) (done_ ++ rest)))%N).
Proof.
  induction rest as [|row rest IH]; intros done_ Hlim Hfit; cbn [publishable].
  { cbv zeta. rewrite app_nil_r, take_ge by done. split; [lia|]. split; [done|by left]. }
  destruct (Nat.eqb_spec (length done_) limit) as [Heq|Hne].
  { cbv zeta. rewrite length_app, take_app_length. cbn [length]. split; [lia|]. split; [done|auto]. }
  change (MODEL_ITEM_FRAMING_BYTES + VALUE_FRAMING_BYTES + sum_bytes value_wire_bytes (row_cells row))%N with (row_cost row).
  pose proof (collection_bytes_snoc done_ row) as Hsnoc. rewrite <- Hsnoc.
  assert (done_ ++ row :: rest = (done_ ++ [row]) ++ rest) as Hassoc by by rewrite <- app_assoc.
  destruct (N.ltb_spec budget (collection_bytes (done_ ++ [row]))) as [Hover|Hroom]; cbv zeta.
  - rewrite take_app_length. split; [rewrite length_app; cbn; lia|]. split; [done|]. right. right. rewrite Hassoc.
    replace (S (length done_)) with (length (done_ ++ [row])) by (rewrite length_app; cbn; lia). by rewrite take_app_length.
  - assert (length (done_ ++ [row]) = S (length done_)) as Hlen by (rewrite length_app; cbn; lia).
    rewrite Hassoc. destruct (IH (done_ ++ [row])) as (Hk & Hb & Hend); [lia|done|]. rewrite Hlen in Hk, Hb, Hend.
    split; [lia|]. split; done.
Qed.

Lemma bound_to_publishable_spec rows limit : let '(kept, dropped) := bound_to_publishable_collection rows limit in
  kept = take (length kept) rows ∧ length kept + dropped = length rows ∧ length kept ≤ limit ∧
  (collection_bytes kept ≤ publishable_budget)%N ∧
  (dropped = 0 ∨ length kept = limit ∨ (publishable_budget < collection_bytes (take (S (length kept)) rows))%N).
Proof.
  unfold bound_to_publishable_collection. destruct (publishable_spec publishable_budget limit rows []) as (Hk & Hb & Hend).
  { cbn. lia. }
  { vm_compute. discriminate. }
  change (collection_bytes []) with 0%N in *. change (length (@nil Row)) with 0 in *.
  set (kept := publishable _ _ _ _ _) in *. rewrite app_nil_l in *. cbv zeta beta iota in *.
  rewrite length_take, Nat.min_l by lia. split_and!; [done|lia|lia|done|]. destruct Hend as [?|[?|?]]; [left; lia|auto|auto].
Qed.

Lemma pick_submseteq {A} (l : list A) idxs vs : NoDup idxs → Forall2 (λ i x, l !! i = Some x) idxs vs → vs ⊆+ l.
Proof.
  intros Hnd Hall. destruct l as [|x0 l0] eqn:Heq.
  { destruct Hall; [done|]. by simplify_eq. }
  rewrite <- Heq in *. clear Heq l0. pose proof (populate x0) as Hinh. assert (vs = (λ i, l !!! i) <$> idxs) as ->.
  { clear Hnd. induction Hall as [|i x idxs vs Hi _ IH]; [done|]. cbn. rewrite <- IH. f_equal. symmetry.
    by apply list_lookup_total_correct. }
  assert (l = (λ i, l !!! i) <$> seq 0 (length l)) as Hl.
  { apply list_eq. intros i. rewrite list_lookup_fmap. destruct (decide (i < length l)) as [Hlt|Hge].
    - rewrite lookup_seq_lt by done. cbn. by apply list_lookup_lookup_total_lt.
    - rewrite lookup_seq_ge, lookup_ge_None_2 by lia. done. }
  enough (((λ i, l !!! i) <$> idxs) ⊆+ ((λ i, l !!! i) <$> seq 0 (length l))) as Hg by (by rewrite <- Hl in Hg).
  apply fmap_submseteq, NoDup_submseteq; [done|]. intros i Hi.
  apply list_elem_of_lookup_1 in Hi as [k Hk]. destruct (Forall2_lookup_l _ _ _ _ _ Hall Hk) as (x & _ & Hx).
  apply elem_of_seq. apply lookup_lt_Some in Hx. lia.
Qed.

(** A row costs no more than that, whatever columns it shows. *)
Lemma laid_out_bytes row layout shown : NoDup layout → laid_out row layout = Some shown → (row_wire_bytes shown ≤ row_cost row)%N.
Proof.
  intros Hnd Heq. unfold laid_out, lay_out in Heq. apply bind_Some in Heq as (v & (vs & Hvs & ->)%fmap_Some & [= <-]).
  unfold row_wire_bytes, row_cost. cbn [row_value].
  assert (∀ vs, value_wire_bytes (VList vs) = VALUE_FRAMING_BYTES + sum_bytes value_wire_bytes vs)%N as ->.
  { done. }
  enough (sum_bytes value_wire_bytes vs ≤ sum_bytes value_wire_bytes (row_cells row))%N by lia.
  assert (vs ⊆+ row_cells row) as [rest Hperm]%submseteq_Permutation.
  { apply (pick_submseteq _ (field_index <$> layout)).
    - apply NoDup_fmap_2; [|done]. intros f f'. by destruct f, f'.
    - apply Forall2_fmap_l. by apply mapM_Some_1. }
  rewrite (sum_bytes_perm _ _ _ Hperm), sum_bytes_app. lia.
Qed.
