(* ===== verification/SrtopCommitFacts.v ===== *)
(** * srtop: committing a plan

    The effect a planned operation records on the view's rows is what the operation
    does to the session's model; so whatever a commit comes to, and after each of its
    transactions, the rows the view has recorded are the items of the model. *)

From S2P Require Import Prelude.
From S2P Require Import Values.
From S2P Require Import Limits.
From S2P Require Import Models.
From S2P Require Import ModelFacts.
From S2P Require Import Store.
From S2P Require Import StoreInv.
From S2P Require Import Transaction.
From S2P Require Import TransactionFacts.
From S2P Require Import Wire.
From S2P Require Import WireFacts.
From S2P Require Import Journal.
From S2P Require Import Event.
From S2P Require Import Resources.
From S2P Require Import Session.
From S2P Require Import SessionFacts.
From S2P Require Import Replication.
From S2P Require Import HandshakeFacts.
From S2P Require Import SessionEvents.
From S2P Require Import ModelRangeFacts.
From S2P Require Import ModelRangeInbox.
From S2P Require Import SrtopSort.
From S2P Require Import SrtopRefresh.
From S2P Require Import SrtopCommit.
From S2P Require Import SrtopRows.
From S2P Require Import SrtopDiffFacts.
From S2P Require Import SrtopMoveFacts.
From S2P Require Import SrtopPlan.

(** The model caches just the items of the rows, in their order. *)
Record mirrors (m : Model) (rows : list Row) : Prop := {
  mi_represents : represents m (ids_of rows);
  mi_full i row : rows !! i = Some row → items m !! N.of_nat i = Some (to_model_item row);
}.

Section mirrors.
Variables (m : Model) (rows : list Row).
Hypothesis Hm : mirrors m rows.

Lemma mirrors_slot j it : items m !! j = Some it ↔ ∃ row, rows !! N.to_nat j = Some row ∧ it = to_model_item row.
Proof using Hm.
  split.
  - intros Hj. pose proof (rep_slots _ _ (mi_represents _ _ Hm) _ _ Hj) as Hid. unfold ids_of in Hid.
    rewrite list_lookup_fmap in Hid. apply fmap_Some in Hid as (row & Hrow & _). exists row. split; [done|].
    apply (mi_full _ _ Hm) in Hrow. rewrite N2Nat.id in Hrow. congruence.
  - intros (row & Hrow & ->). apply (mi_full _ _ Hm) in Hrow. by rewrite N2Nat.id in Hrow.
Qed.

Lemma mirrors_count : item_count m = len rows.
Proof using Hm. rewrite (rep_count _ _ (mi_represents _ _ Hm)). unfold len, ids_of. by rewrite length_fmap. Qed.

Lemma mirrors_index row i : rows !! i = Some row → id_to_index m !! row_item_id row = Some (N.of_nat i).
Proof using Hm.
  intros Hrow. apply (mi_full _ _ Hm) in Hrow as Hi. by apply (cache_wf_slot m _ _ (rep_wf _ _ (mi_represents _ _ Hm))) in Hi.
Qed.

Lemma mirrors_contains id : id ∈ ids_of rows → contains_item m id = true.
Proof using Hm.
  intros (row & [i Hi]%list_elem_of_lookup_1 & <-)%elem_of_ids. unfold contains_item.
  rewrite (mirrors_index _ _ Hi). by apply bool_decide_eq_true.
Qed.

Lemma mirrors_cached : len rows = cached_item_count m.
Proof using Hm.
  unfold cached_item_count, map_len, len. f_equal. rewrite <- size_dom.
  assert (dom (items m) = list_to_set (N.of_nat <$> seq 0 (length rows))) as ->.
  { apply set_eq. intros j. rewrite elem_of_dom, elem_of_list_to_set, list_elem_of_fmap. split.
    - intros [it (row & Hrow%lookup_lt_Some & _)%mirrors_slot]. exists (N.to_nat j). split; [lia|]. apply elem_of_seq. lia.
    - intros (i & -> & Hi%elem_of_seq). destruct (lookup_lt_is_Some_2 rows i) as [row Hrow]; [lia|].
      apply (mi_full _ _ Hm) in Hrow. by eexists. }
  rewrite size_list_to_set, length_fmap, length_seq; [done|]. apply NoDup_fmap_2; [|apply NoDup_seq]. intros x y. lia.
Qed.
End mirrors.

(** ** Insertion *)

Lemma insert_mirrors m rows index inserted m' : mirrors m rows → (len rows + len inserted ≤ u64_max)%N →
  insert_items m index (to_model_item <$> inserted) = Ok m' → mirrors m' (record_rows (EffInsert index inserted) rows).
Proof.
  intros Hm Hfit Heq. pose proof (mirrors_count _ _ Hm) as Hcount.
  assert (len (to_model_item <$> inserted) = len inserted) as Hlen by (unfold len; by rewrite length_fmap).
  assert (fits m (len (to_model_item <$> inserted))) as Hfits.
  { unfold fits. rewrite Hlen. split; [lia|]. intros k [it (row & Hrow%lookup_lt_Some & _)%(mirrors_slot _ _ Hm)]. unfold len in *. lia. }
  pose proof (insert_items_effect m index _ m' (rep_wf _ _ (mi_represents _ _ Hm)) Hfits) as Heff.
  rewrite Hlen, Hcount in Heff. destruct (Heff Hfit Heq) as (Hle & Hnd & Hfresh & Hwf' & Hc & Hslots).
  unfold len in Hle. cbn [record_rows]. rewrite Nat.min_l by lia. split.
  - assert (ids_of (take (N.to_nat index) rows ++ inserted ++ drop (N.to_nat index) rows) =
      splice (N.to_nat index) (N.to_nat index) (item_id <$> (to_model_item <$> inserted)) (ids_of rows)) as ->.
    { unfold splice, ids_of. by rewrite !fmap_app, fmap_take, fmap_drop, <- list_fmap_compose. }
    eapply insert_items_represents; [apply Hm|rewrite Hcount, Hlen; exact Hfit| |exact Heq].
    intros it Hit Hin. apply (mirrors_contains _ _ Hm) in Hin. unfold contains_item in Hin.
    apply bool_decide_eq_true in Hin as [j Hj]. rewrite Hfresh in Hj by done. done.
  - intros i row Hi. apply Hslots. unfold len.
    rewrite lookup_app_Some, length_take, Nat.min_l in Hi by lia. destruct Hi as [Hi|[Hge Hi]].
    + right. left. apply lookup_lt_Some in Hi as Hlt. rewrite length_take in Hlt. rewrite lookup_take_lt in Hi by lia.
      split; [lia|]. by apply (mi_full _ _ Hm).
    + apply lookup_app_Some in Hi as [Hi|[Hge2 Hi]].
      * left. apply lookup_lt_Some in Hi as Hlt. split; [lia|]. rewrite list_lookup_fmap.
        replace (N.to_nat (N.of_nat i - index)) with (i - N.to_nat index) by lia. by rewrite Hi.
      * right. right. split; [lia|]. rewrite lookup_drop in Hi.
        replace (N.of_nat i - N.of_nat (length inserted))%N with (N.of_nat (N.to_nat index + (i - N.to_nat index - length inserted))) by lia.
        by apply (mi_full _ _ Hm).
Qed.

(** ** Deletion *)

Lemma filter_delete rows i row : NoDup (ids_of rows) → rows !! i = Some row →
  filter (λ r, row_item_id r ≠ row_item_id row) rows = take i rows ++ drop (S i) rows.
Proof.
  intros Hnd Hi. pose proof (take_drop_middle _ _ _ Hi) as Hsplit. rewrite <- Hsplit in Hnd |- * at 1.
  rewrite ids_app in Hnd. apply NoDup_app in Hnd as (_ & Hdisj & [Hno _]%NoDup_cons).
  rewrite filter_app, (filter_cons_False _ row) by auto. f_equal; apply filter_all; intros r Hr%ids_elem Heq; rewrite Heq in Hr.
  - apply (Hdisj _ Hr). left.
  - by apply Hno.
Qed.

Lemma delete_one_mirrors m rows id : mirrors m rows → (len rows ≤ u64_max)%N → id ∈ ids_of rows →
  mirrors (delete_one m id) (filter (λ row, row_item_id row ≠ id) rows).
Proof.
  intros Hm Hfit Hid. pose proof (mirrors_count _ _ Hm) as Hcount. pose proof (mi_represents _ _ Hm) as Hrep.
  pose proof (mirrors_contains _ _ Hm _ Hid) as Hc.
  assert (represents (delete_one m id) (filter (λ x, x ≠ id) (ids_of rows))) as Hrep'
    by (apply delete_one_represents; [done|by rewrite Hcount|done]).
  split; [by rewrite (ids_filter _ (λ x, x ≠ id))|].
  apply elem_of_ids in Hid as (row & [i Hi]%list_elem_of_lookup_1 & <-).
  destruct (delete_one_effect m (row_item_id row) (N.of_nat i)) as (_ & _ & Hslots);
    [apply Hrep| |by apply (mirrors_index _ _ Hm)| |].
  { intros k [it (r & Hr%lookup_lt_Some & _)%(mirrors_slot _ _ Hm)]. unfold len in Hfit. lia. }
  { apply lookup_lt_Some in Hi. unfold len in Hfit. lia. }
  rewrite (filter_delete _ _ _ (rep_nodup _ _ Hrep) Hi). apply lookup_lt_Some in Hi as Hlt.
  intros j r Hj. apply Hslots. rewrite lookup_app_Some, length_take, Nat.min_l in Hj by lia. destruct Hj as [Hj|[Hge Hj]].
  - left. apply lookup_lt_Some in Hj as Hjl. rewrite length_take in Hjl. rewrite lookup_take_lt in Hj by lia.
    split; [lia|]. by apply (mi_full _ _ Hm).
  - right. split; [lia|]. rewrite lookup_drop in Hj.
    replace (N.of_nat j + 1)%N with (N.of_nat (S i + (j - i))) by lia. by apply (mi_full _ _ Hm).
Qed.

Lemma delete_mirrors ids : ∀ m rows, mirrors m rows → (len rows ≤ u64_max)%N → NoDup ids → (∀ id, id ∈ ids → id ∈ ids_of rows) →
  mirrors (foldl delete_one m ids) (filter (λ row, row_item_id row ∉ ids) rows).
Proof.
  induction ids as [|id ids IH]; intros m rows Hm Hfit Hnd Hin; cbn [foldl].
  { rewrite filter_all; [done|]. intros row _. apply not_elem_of_nil. }
  apply NoDup_cons in Hnd as [Hno Hnd].
  rewrite (filter_ext_in _ (λ row, row_item_id row ∉ ids ∧ row_item_id row ≠ id)) by (intros row _; rewrite not_elem_of_cons; tauto).
  rewrite <- list_filter_filter. apply IH; [apply delete_one_mirrors; [done|done|apply Hin; left]| |done|].
  - pose proof (length_filter (λ row, row_item_id row ≠ id) rows). unfold len in *. lia.
  - intros x Hx. rewrite (ids_filter _ (λ y, y ≠ id)) by done. apply list_elem_of_filter. split; [by intros ->|].
    apply Hin. by right.
Qed.

(** ** Updates *)

Lemma update_one_mirrors m rows i u m' : mirrors m rows → update_one None m (i, to_model_item u) = (m', Ok tt) →
  mirrors m' (updated_by [u] <$> rows).
Proof.
  intros Hm Heq. pose proof (mi_represents _ _ Hm) as Hrep.
  apply update_one_by_id_effect in Heq as (idx & Hidx & Hwf' & Hc & Hitems & _); [|apply Hrep].
  assert (∀ row, row_item_id (updated_by [u] row) = row_item_id row) as Hids.
  { intros row. unfold updated_by. by destruct (last_row [u] _). }
  assert (ids_of (updated_by [u] <$> rows) = ids_of rows) as Hids'.
  { unfold ids_of. rewrite <- list_fmap_compose. apply list_fmap_ext. intros ? row _. apply Hids. }
  assert (∃ old, rows !! N.to_nat idx = Some old ∧ row_item_id old = row_item_id u) as (old & Hold & Hoid).
  { apply (rep_wf _ _ Hrep) in Hidx as (it & (old & Hold & ->)%(mirrors_slot _ _ Hm) & Hid). eauto. }
  assert (∀ row, to_model_item (updated_by [u] row) = if decide (row_item_id row = row_item_id u) then to_model_item u else to_model_item row) as Hitem.
  { intros row. unfold updated_by, last_row. destruct (decide (row_item_id row = row_item_id u)) as [He|Hne].
    - rewrite filter_cons_True, filter_nil by done. cbn [last]. unfold to_model_item. cbn [row_item_id row_value]. by rewrite He.
    - by rewrite filter_cons_False, filter_nil by done. }
  assert (∀ i row, rows !! i = Some row → items m' !! N.of_nat i = Some (to_model_item (updated_by [u] row))) as Hfull.
  { intros j row Hj. rewrite Hitems, Hitem. case_decide as Hr.
    - assert (j = N.to_nat idx) as ->.
      { eapply NoDup_lookup; [apply Hrep|by apply ids_lookup|]. apply ids_lookup in Hold. congruence. }
      rewrite N2Nat.id. apply lookup_insert_eq.
    - rewrite lookup_insert_ne; [by apply (mi_full _ _ Hm)|]. intros ->. rewrite Nat2N.id in Hold. congruence. }
  split.
  - rewrite Hids'. split; [done|by rewrite Hc; apply Hrep|apply Hrep|].
    intros j it Hj. rewrite Hitems in Hj. apply lookup_insert_Some in Hj as [[<- <-]|[_ Hj]]; [|by apply Hrep].
    apply ids_lookup in Hold. rewrite Hold. cbn. by rewrite Hoid.
  - intros j row Hj. rewrite list_lookup_fmap in Hj. apply fmap_Some in Hj as (r & Hr & ->). by apply Hfull.
Qed.

Lemma update_mirrors us : ∀ m rows k m', mirrors m rows →
  run_loop (update_one None) m (enumerate_from k (to_model_item <$> us)) = (m', Ok tt) →
  mirrors m' (updated_by us <$> rows).
Proof.
  induction us as [|u us IH]; intros m rows k m' Hm; cbn [fmap list_fmap enumerate_from run_loop].
  - intros [= <-]. assert (updated_by [] <$> rows = rows) as ->; [|done].
    rewrite <- (list_fmap_id rows) at 2. apply list_fmap_ext. done.
  - destruct (update_one None m _) as [m1 [[]|e| |]] eqn:Hone; [|done..]. intros Hrest.
    apply update_one_mirrors with (rows := rows) in Hone; [|done].
    assert (updated_by (u :: us) <$> rows = updated_by us <$> (updated_by [u] <$> rows)) as ->.
    { rewrite <- list_fmap_compose. apply list_fmap_ext. intros ? row _. symmetry. apply (updated_by_app [u] us). }
    by eapply IH.
Qed.

(** ** srtop: committing a plan

    Whatever a commit comes to, and after each of its transactions, the rows the view
    has recorded are the items of the session's model. *)

(** The store holds the view's rows. *)
Definition store_mirrors (s : SemanticStore) (rows : list Row) : Prop :=
  ∃ m, models s !! MODEL = Some m ∧ mirrors m rows ∧ (len rows ≤ u64_max)%N.

Section commit.
Context `{Registry, EventRegistry, PropertyIter, Diagnostics, Digest, SdkProperties}.

(** ** One operation *)

Lemma all_Ok {S E} (s s' : S) (r : result E S) : all_or_nothing s r = (s', Ok tt) → r = Ok s'.
Proof. destruct r; cbn; congruence. Qed.

Lemma set_keeps_models s id p v s' old : set_property s id p v = Ok (s', old) → models s' = models s.
Proof. unfold set_property. intros Heq. inv_ok. by injection Heq as <- _. Qed.

Lemma clear_keeps_models s id p s' old : clear_property s id p = Ok (s', old) → models s' = models s.
Proof. unfold clear_property. intros Heq. inv_ok. by injection Heq as <- _. Qed.

Lemma models_kept s s' rows : models s' = models s → store_mirrors s rows → store_mirrors s' rows.
Proof. intros Heq (m & Hm & ?). exists m. by rewrite Heq. Qed.

Lemma delete_store_mirrors s ids s' rows : store_mirrors s rows → effect_ok (EffDelete ids) rows →
  model_delete s MODEL None None ids = Ok s' → store_mirrors s' (record_rows (EffDelete ids) rows).
Proof.
  intros (m & Hm & Hmirror & Hlen) [Hnd Hin] Heq. unfold model_delete in Heq. rewrite Hm in Heq. inv_ok.
  injection Heq1 as <-. subst s'. rename Heq2 into Hdel.
  assert (foldl delete_one m ids = r1) as <-.
  { unfold delete_items in Hdel. cbn in Hdel. case_bool_decide as Hne; inv_ok; [done|]. by subst. }
  exists (foldl delete_one m ids). cbn [models with_models]. split; [apply lookup_insert_eq|]. cbn [record_rows].
  split; [by apply delete_mirrors|]. pose proof (length_filter (λ row, row_item_id row ∉ ids) rows). unfold len in *. lia.
Qed.

Lemma insert_store_mirrors s index inserted s' rows : (max_cached_items_per_model (limits s) ≤ u64_max)%N →
  store_mirrors s rows → model_insert s MODEL index (to_model_item <$> inserted) = Ok s' →
  store_mirrors s' (record_rows (EffInsert index inserted) rows).
Proof.
  intros Hmax (m & Hm & Hmirror & Hlen) Heq. unfold model_insert in Heq. rewrite Hm in Heq. inv_ok.
  match goal with He : Some m = Some _ |- _ => injection He as <- end. subst s'.
  match goal with He : (_ <? _)%N = false |- _ => apply N.ltb_ge in He; rename He into Hroom end.
  match goal with He : insert_items _ _ _ = Ok _ |- _ => rename He into Hins end.
  rewrite <- (mirrors_cached _ _ Hmirror) in Hroom. unfold len in Hroom at 2. rewrite length_fmap in Hroom.
  fold (len inserted) in Hroom. eexists. cbn [models with_models]. split; [apply lookup_insert_eq|].
  split; [eapply insert_mirrors; [exact Hmirror|lia|exact Hins]|].
  cbn [record_rows]. unfold len in *. rewrite !length_app, length_take, length_drop. lia.
Qed.

Lemma update_store_mirrors s updated s' rows : store_mirrors s rows →
  model_update s MODEL None (to_model_item <$> updated) = (s', Ok tt) →
  store_mirrors s' (record_rows (EffUpdate updated) rows).
Proof.
  intros (m & Hm & Hmirror & Hlen) Heq. unfold model_update in Heq. rewrite Hm in Heq.
  destruct (validate_model_items_batch _ _); cbn in Heq; [|done..].
  destruct (validate_items _ _); cbn in Heq; [|done..]. unfold on_model in Heq.
  destruct (update_items m None _) as [m' r] eqn:Hup. injection Heq as <- ->. exists m'. cbn [models with_models].
  split; [apply lookup_insert_eq|]. cbn [record_rows]. split; [by eapply update_mirrors|].
  unfold len in *. by rewrite length_fmap.
Qed.

(** An operation does to the store's model what its effect does to the rows. *)
Lemma effect_mirrors s e s' rows : (max_cached_items_per_model (limits s) ≤ u64_max)%N → store_mirrors s rows →
  effect_ok e rows → apply s (effect_op e) = (s', Ok tt) → store_mirrors s' (record_rows e rows).
Proof.
  intros Hmax Hs Hok Heq.
  assert (models s' = models s → store_mirrors s' rows) as Hkept by (intros ?; by eapply models_kept).
  destruct e as [|[node prop [v|]]| | | | | | |ids|index inserted|updated]; cbn [effect_op apply record_rows ch_node ch_property ch_value] in *;
    try (apply all_Ok, drop_value_Ok in Heq as [old Heq]; (apply set_keeps_models in Heq || apply clear_keeps_models in Heq);
      by apply Hkept).
  - apply all_Ok in Heq. by eapply delete_store_mirrors.
  - apply all_Ok in Heq. by eapply insert_store_mirrors.
  - by eapply update_store_mirrors.
Qed.

(** ** One transaction *)

Lemma chunk_mirrors chunk : ∀ ui ui' rows, store_wf (ui_staged ui) →
  (max_cached_items_per_model (limits (ui_staged ui)) ≤ u64_max)%N →
  Forall (λ planned, pl_op planned = effect_op (pl_effect planned)) chunk → executable (pl_effect <$> chunk) rows →
  store_mirrors (ui_staged ui) rows → ui_run ui (pl_op <$> chunk) = (ui', Ok tt) →
  store_mirrors (ui_staged ui') (rows_after chunk rows).
Proof.
  induction chunk as [|planned chunk IH]; intros ui ui' rows Hwf Hmax Hhonest Hexec Hs; cbn [fmap list_fmap ui_run].
  { by intros [= <-]. }
  apply Forall_cons in Hhonest as [Hop Hhonest]. cbn in Hexec. destruct Hexec as [Hok Hexec].
  destruct (ui_apply_op ui (pl_op planned)) as [ui1 [[]|e| |]] eqn:Ha; [|done..]. intros Hrun.
  apply ui_apply_one_Ok in Ha. rewrite Hop in Ha. rewrite rows_after_cons.
  pose proof (apply_wf _ (effect_op (pl_effect planned)) Hwf) as Hwf1.
  pose proof (apply_framed _ (effect_op (pl_effect planned)) Hwf) as Hf1. rewrite Ha in Hwf1, Hf1. cbn [fst] in *.
  eapply IH; [exact Hwf1| |exact Hhonest|exact Hexec| |exact Hrun].
  - by rewrite (fr_limits _ _ Hf1).
  - by eapply effect_mirrors.
Qed.

Lemma effect_op_bounded e : op_bounded (effect_op e).
Proof. by destruct e as [|[? ? []]| | | | | | | | |]. Qed.

(** A committed chunk: the session steps once, and holds the rows after it. *)
Lemma chunk_committed s chunk rows s' tx : session_wf s → (max_cached_items_per_model (limits (store s)) ≤ u64_max)%N →
  Forall (λ planned, pl_op planned = effect_op (pl_effect planned)) chunk → Forall (λ planned, op_canonical (pl_op planned)) chunk →
  executable (pl_effect <$> chunk) rows → store_mirrors (store s) rows →
  transaction_with_result s (λ ui _, ui_run ui (pl_op <$> chunk)) = Ok (s', (tt, tx)) →
  session_wf s' ∧ session_step Careful s None [tx] s' ∧ store_mirrors (store s') (rows_after chunk rows) ∧
  limits (store s') = limits (store s) ∧ length (Msg.operations tx) = length chunk.
Proof.
  intros Hs Hmax Hhonest Hcan Hexec Hm Heq.
  assert (clean_closure (λ ui (_ : N * N), ui_run ui (pl_op <$> chunk))) as Hclean
    by (apply ops_closure_clean; by apply Forall_fmap).
  destruct (closure_step_ok _ _ _ _ _ Hs (proj1 (clean_closure_methods _ Hclean)) Heq) as (Hwf & _ & _). split; [done|].
  split; [eapply step_closure; [exact Hclean|exact Heq]|].
  apply transaction_with_result_Ok in Heq as (ui' & Hrun & _ & -> & ->); [|done].
  split_and!; [|done|].
  - apply (models_kept (ui_staged ui')); [done|]. refine (chunk_mirrors chunk (UiTransaction_new (store s) (max_transaction_operations (limits (store s)))) ui' rows _ Hmax Hhonest Hexec Hm Hrun). apply Hs.
  - apply ui_run_clean in Hrun as [_ Hops]. cbn. by rewrite length_map, Hops, length_app, length_fmap.
Qed.

Lemma chunk_returns s chunk : session_wf s → Forall (λ planned, pl_op planned = effect_op (pl_effect planned)) chunk →
  returns (transaction_with_result s (λ ui _, ui_run ui (pl_op <$> chunk))).
Proof.
  intros Hs Hhonest. unfold transaction_with_result. apply returns_bind; [apply returns_ok_or|intros rev _].
  rewrite clone_staging_id. pose proof (ui_run_returns (UiTransaction_new (store s) (max_transaction_operations (limits (store s)))) (pl_op <$> chunk)) as Hr.
  destruct (ui_run _ _) as [ui' [[]|e| |]]; cbn in Hr |- *; try done.
  - rewrite (prepare_lockstep s (Transaction_new (revision (store s)) (ui_operations ui')) Hs eq_refl). done.
  - destruct Hr; [apply Hs|]. apply Forall_fmap. eapply Forall_impl; [exact Hhonest|]. intros planned Hop. cbn.
    rewrite Hop. apply effect_op_bounded.
Qed.

(** ** The whole commit *)

(** What a commit of [plan] leaves, however far it went. *)
Record commit_spec (s : SessionInner) (plan : list Planned) (max_ops : nat) (p : Published)
    (s' : SessionInner) (p' : Published) (committed : nat) (r : result SessionError unit) : Prop := {
  cs_prefix : ∃ k, k ≤ length plan ∧ cut_ok plan k ∧ p' = record_all (take k plan) p ∧ (r = Ok tt → k = length plan);
  cs_mirrors : store_mirrors (store s') (pb_rows p');
  cs_wf : session_wf s';
  cs_limits : limits (store s') = limits (store s);
  cs_run : ∃ txs, session_run Careful s txs s' ∧ length txs = committed ∧ Forall (λ tx, length (Msg.operations tx) ≤ max_ops) txs;
}.

Lemma commit_stays s plan max_ops p r : session_wf s → store_mirrors (store s) (pb_rows p) → (r = Ok tt → plan = []) →
  commit_spec s plan max_ops p s p 0 r.
Proof.
  intros Hs Hm Hr. split; try done.
  - exists 0. split_and!; [lia|by left|done|]. by intros ->%Hr.
  - exists []. split_and!; [apply run_nil|done|constructor].
Qed.

Lemma commit_correct fuel : ∀ s plan max_ops max_bytes p s' p' committed r, session_wf s →
  (max_cached_items_per_model (limits (store s)) ≤ u64_max)%N → max_ops ≠ 0 → whole_units max_ops plan →
  Forall (λ planned, pl_op planned = effect_op (pl_effect planned)) plan → Forall (λ planned, op_canonical (pl_op planned)) plan →
  executable (pl_effect <$> plan) (pb_rows p) → store_mirrors (store s) (pb_rows p) →
  commit fuel s plan max_ops max_bytes p = (s', p', committed, r) →
  commit_spec s plan max_ops p s' p' committed r ∧ (length plan ≤ fuel → returns r).
Proof.
  induction fuel as [|fuel IH]; intros s plan max_ops max_bytes p s' p' committed r Hs Hmax Hops Hunits Hhonest Hcan Hexec Hm.
  { destruct plan; cbn [commit]; intros [= <- <- <- <-]; (split; [by apply commit_stays|cbn; done || lia]). }
  destruct (decide (plan = [])) as [->|Hne].
  { cbn [commit]. intros [= <- <- <- <-]. split; [by apply commit_stays|done]. }
  destruct (chunk_end_spec max_ops max_bytes plan Hops Hne) as [Hstop Hcut].
  pose proof (chunk_end_bounded max_ops max_bytes plan Hunits) as Hbound.
  assert (commit (S fuel) s plan max_ops max_bytes p =
    let stop := chunk_end max_ops max_bytes plan in let chunk := take stop plan in
    match transaction_with_result s (λ ui _, ui_run ui (pl_op <$> chunk)) with
    | Ok (s', _) =>
        match record_committed (length chunk) chunk p with
        | Ok p' =>
            let '(s2, p2, committed, r) := commit fuel s' (drop stop plan) max_ops max_bytes p' in
            (s2, p2, S committed, r)
        | _ => (s', p, 1, Diverge)
        end
    | Err e => (s, p, 0, Err e)
    | Panic => (s, p, 0, Panic)
    | Diverge => (s, p, 0, Diverge)
    end) as -> by (by destruct plan).
  cbv zeta. revert Hstop Hcut Hbound. generalize (chunk_end max_ops max_bytes plan). intros stop Hstop Hcut Hbound.
  set (chunk := take stop plan).
  assert (length chunk = stop) as Hlen by (unfold chunk; rewrite length_take; lia).
  assert (plan = chunk ++ drop stop plan) as Hsplit by (symmetry; apply take_drop).
  rewrite Hsplit in Hhonest, Hcan. apply Forall_app in Hhonest as [Hhc Hhr], Hcan as [Hcc Hcr].
  pose proof (chunk_returns s chunk Hs Hhc) as Hret.
  destruct (transaction_with_result _ _) as [[s1 [[] tx]]|e| |] eqn:Htx; try done.
  2: { intros [= <- <- <- <-]. split; [by apply commit_stays|done]. }
  rewrite record_committed_spec by done. rewrite Hsplit, fmap_app in Hexec.
  assert (executable (pl_effect <$> chunk) (pb_rows p) ∧
    executable (pl_effect <$> drop stop plan) (pb_rows (record_all chunk p))) as [Hec Her].
  { rewrite record_all_rows, rows_after_effects. by apply executable_split. }
  destruct (chunk_committed s chunk (pb_rows p) s1 tx Hs Hmax Hhc Hcc Hec Hm Htx) as (Hs1 & Hstep & Hm1 & Hl1 & Hops1).
  rewrite <- record_all_rows in Hm1.
  destruct (commit fuel s1 _ _ _ _) as [[[s2 p2] n] r2] eqn:Hrest. intros [= <- <- <- <-].
  assert (whole_units max_ops (drop stop plan)) as Hu1 by by apply whole_units_drop.
  destruct (IH s1 (drop stop plan) max_ops max_bytes (record_all chunk p) s2 p2 n r2) as
    [[(k & Hk & Hcutk & -> & Hend) Hm2 Hs2 Hl2 (txs & Hrun & Htxs & Hall)] Hret2]; try done; [by rewrite Hl1|].
  split; [split|].
  - exists (stop + k). rewrite length_drop in Hk, Hend. split_and!; [lia|by apply cut_ok_drop| |intros ?%Hend; lia].
    rewrite <- take_take_drop, record_all_app. done.
  - done.
  - done.
  - by rewrite Hl2.
  - exists ([tx] ++ txs). split_and!; [|cbn; by rewrite Htxs|constructor; [by rewrite Hops1, Hlen|done]].
    eapply session_run_trans; [by eapply session_run_one|done].
  - intros Hfuel. apply Hret2. rewrite length_drop. lia.
Qed.
End commit.
