(* ===== verification/SrtopInvariant.v ===== *)
(** * srtop: every operation of a view keeps it and its session together

    What publishing leaves whatever it comes to; the invariant that ties a view to
    the session it publishes through; that each operation keeps it, and is a run of
    the session. *)

From S2P Require Import Prelude.
From S2P Require Import Values.
From S2P Require Import Limits.
From S2P Require Import Models.
From S2P Require Import ModelFacts.
From S2P Require Import Store.
From S2P Require Import Transaction.
From S2P Require Import Wire.
From S2P Require Import WireFacts.
From S2P Require Import Journal.
From S2P Require Import Event.
From S2P Require Import Resources.
From S2P Require Import Session.
From S2P Require Import SessionFacts.
From S2P Require Import Replication.
From S2P Require Import SrtopData.
From S2P Require Import SrtopMetric.
From S2P Require Import SrtopCatalogue.
From S2P Require Import SrtopSort.
From S2P Require Import SrtopRefresh.
From S2P Require Import SrtopCommit.
From S2P Require Import SrtopViewOps.
From S2P Require Import SrtopRows.
From S2P Require Import SrtopDiffFacts.
From S2P Require Import SrtopMoveFacts.
From S2P Require Import SrtopPlan.
From S2P Require Import SrtopView.
From S2P Require Import SrtopCommitFacts.

(** Rows as [project] makes them: a cell for every field, and the value a list of
    numbers and texts. *)
Record cell_row (row : Row) : Prop := {
  cr_value : cell_list (row_value row);
  cr_cells : Forall cell_value (row_cells row);
  cr_fields : length (row_cells row) = length PROCESS_LIST;
}.
Definition cell_rows (rows : list Row) : Prop := Forall cell_row rows.
Lemma cell_rows_values rows : cell_rows rows → Forall (λ row, cell_list (row_value row)) rows.
Proof. intros Hr. eapply Forall_impl; [exact Hr|]. by intros row []. Qed.
Lemma cell_rows_in rows row : cell_rows rows → row ∈ rows → cell_row row.
Proof. unfold cell_rows. rewrite Forall_forall. auto. Qed.
Lemma cell_rows_sub rows rows' : cell_rows rows → (∀ row, row ∈ rows' → row ∈ rows) → cell_rows rows'.
Proof. intros Hr Hsub. apply Forall_forall. intros row Hrow. eapply cell_rows_in; [exact Hr|by apply Hsub]. Qed.

(** ** Rows with the same items *)

Lemma same_items_ids rows rows' : to_model_item <$> rows = to_model_item <$> rows' → ids_of rows = ids_of rows'.
Proof.
  intros Heq. assert (∀ l, ids_of l = item_id <$> (to_model_item <$> l)) as Hids.
  { intros l. unfold ids_of. by rewrite <- list_fmap_compose. }
  by rewrite !Hids, Heq.
Qed.

Lemma mirrors_items m rows rows' : to_model_item <$> rows = to_model_item <$> rows' → mirrors m rows → mirrors m rows'.
Proof.
  intros Heq [Hrep Hfull]. split; [by rewrite <- (same_items_ids _ _ Heq)|]. intros i row Hi.
  apply (f_equal (lookup i)) in Heq. rewrite !list_lookup_fmap, Hi in Heq. apply fmap_Some in Heq as (old & Hold & ->).
  by apply Hfull.
Qed.

Lemma store_mirrors_items s rows rows' : to_model_item <$> rows = to_model_item <$> rows' →
  store_mirrors s rows → store_mirrors s rows'.
Proof.
  intros Heq (m & Hm & Hmir & Hlen). exists m. split; [done|]. split; [by eapply mirrors_items|].
  apply (f_equal length) in Heq. rewrite !length_fmap in Heq. unfold len in *. by rewrite <- Heq.
Qed.

Lemma refresh_items rows target : to_model_item <$> refresh_sort_values rows target = to_model_item <$> rows.
Proof.
  unfold refresh_sort_values. rewrite <- list_fmap_compose. apply list_fmap_ext. intros _ row _. cbn. by case_match.
Qed.

Lemma refresh_ids rows target : ids_of (refresh_sort_values rows target) = ids_of rows.
Proof. apply same_items_ids, refresh_items. Qed.

Lemma refresh_cells rows target : cell_rows rows → cell_rows target → cell_rows (refresh_sort_values rows target).
Proof.
  intros Hr Ht. apply Forall_fmap. eapply Forall_impl; [exact Hr|]. intros row [Hv Hc Hf]. cbn.
  destruct (last_row target _) as [latest|] eqn:Hl; [|done]. apply last_row_Some in Hl as [Hin _].
  pose proof (cell_rows_in _ _ Ht Hin) as [_ ? ?]. done.
Qed.

(** ** What effects keep *)

Lemma record_cells e rows : cell_rows rows → cell_rows (effect_rows e) → cell_rows (record_rows e rows).
Proof.
  intros Hrows He. destruct e as [| | | | | | | |ids|index inserted|updated]; try done; cbn [record_rows effect_rows] in *.
  - eapply cell_rows_sub; [exact Hrows|]. by intros row [_ ?]%list_elem_of_filter.
  - unfold cell_rows in *. rewrite <- (take_drop (Nat.min (N.to_nat index) (length rows)) rows) in Hrows.
    rewrite !Forall_app in *. tauto.
  - apply Forall_fmap, Forall_forall. intros row Hrow. cbn [compose]. unfold updated_by.
    destruct (last_row updated _) as [update|] eqn:Hu; [|exact (cell_rows_in _ _ Hrows Hrow)].
    apply last_row_Some in Hu as [Hin _]. pose proof (cell_rows_in _ _ He Hin) as []. by split.
Qed.

Lemma rows_after_cells plan : ∀ rows, cell_rows rows → Forall (λ planned, cell_rows (effect_rows (pl_effect planned))) plan →
  cell_rows (rows_after plan rows).
Proof.
  induction plan as [|planned plan IH]; intros rows Hrows Hplan; [done|]. apply Forall_cons in Hplan as [? ?].
  rewrite rows_after_cons. apply IH; [by apply record_cells|done].
Qed.

(** ** The head of a plan *)

Definition plain_effect (e : Effect) : Prop :=
  match e with EffDelete _ | EffInsert _ _ | EffUpdate _ => False | EffColumns layout => layout_ok layout | _ => True end.

Section view.
Context `{Registry, EventRegistry, PropertyIter, Diagnostics, Digest, SdkProperties}.

(** A change of a label, a status or the summary, with a value any client can be
    sent. *)
Definition head_op (planned : Planned) : Prop :=
  ∃ e, planned = Planned_new e ∧ plain_effect e ∧ op_canonical (effect_op e).

Lemma head_rows head : Forall head_op head → ∀ rows, rows_after head rows = rows.
Proof using Type.
  induction 1 as [|planned head (e & -> & He & _) _ IH]; intros rows; [done|]. rewrite rows_after_cons, IH. by destruct e.
Qed.

Lemma head_executable head rows : Forall head_op head → executable (pl_effect <$> head) rows.
Proof using Type.
  intros Hhead. apply executable_sends, Forall_fmap. eapply Forall_impl; [exact Hhead|].
  intros planned (e & -> & He & _). by destruct e.
Qed.

Lemma head_plain head : Forall head_op head → Forall (λ planned, pl_joins_next planned = false) head.
Proof using Type. intros Hh. eapply Forall_impl; [exact Hh|]. by intros planned (e & -> & _). Qed.

Lemma cell_list_sized v : cell_list v → sized v.
Proof using Type.
  intros Hv h Hm. destruct v; try done. cbn in Hv. rewrite Forall_forall in Hv. inversion Hm as [|xs w Hin Hw|]; subst.
  apply Hv in Hin. destruct w; (done || inversion Hw).
Qed.

Lemma rows_sized rows : cell_rows rows → Forall sized_item (to_model_item <$> rows).
Proof using Type.
  intros Hrows. apply Forall_fmap. eapply Forall_impl; [exact Hrows|]. intros row [Hv _ _]. split; [by apply cell_list_sized|].
  intros p v Hp. cbn in Hp. by rewrite lookup_empty in Hp.
Qed.

(** An effect that carries items. *)
Definition row_effect (e : Effect) : Prop := match e with EffDelete _ | EffInsert _ _ | EffUpdate _ => True | _ => False end.

Lemma row_effect_canonical e : row_effect e → cell_rows (effect_rows e) → op_canonical (effect_op e).
Proof using Type.
  destruct e as [| | | | | | | |ids|index inserted|updated]; cbn; try done.
  - intros _. by apply rows_sized.
  - intros _ ?. split; [done|by apply rows_sized].
Qed.

Lemma within_row_effect batch max_bytes planned : within_batch batch max_bytes planned → row_effect (pl_effect planned).
Proof using Type. intros [[Hpos _] _]. destruct (pl_effect planned); cbn in *; done || lia. Qed.

(** Operations on items leave the order in force alone. *)
Lemma rows_keep_sort plan : ∀ p, Forall (λ planned, row_effect (pl_effect planned)) plan →
  pb_sort (record_all plan p) = pb_sort p.
Proof using Type.
  induction plan as [|planned plan IH]; intros p Hp; [done|]. apply Forall_cons in Hp as [He Hp]. unfold record_all. cbn [foldl].
  fold (record_all plan (record (pl_effect planned) p)). rewrite IH by done. by destruct (pl_effect planned).
Qed.

(** ** Plans that are sound for a view *)

Definition keeps_layout (e : Effect) : Prop := match e with EffColumns layout => layout_ok layout | _ => True end.

Record sound_plan (max_ops : nat) (rows : list Row) (plan : list Planned) : Prop := {
  so_units : whole_units max_ops plan;
  so_honest : Forall (λ planned, pl_op planned = effect_op (pl_effect planned)) plan;
  so_canonical : Forall (λ planned, op_canonical (pl_op planned)) plan;
  so_exec : executable (pl_effect <$> plan) rows;
  so_cells : Forall (λ planned, cell_rows (effect_rows (pl_effect planned))) plan;
  so_layouts : Forall (λ planned, keeps_layout (pl_effect planned)) plan;
}.

Lemma record_layout plan : ∀ p, layout_ok (pb_columns p) → Forall (λ planned, keeps_layout (pl_effect planned)) plan →
  layout_ok (pb_columns (record_all plan p)).
Proof using Type.
  induction plan as [|planned plan IH]; intros p Hp Hplan; [done|]. apply Forall_cons in Hplan as [Hk Hplan].
  unfold record_all. cbn [foldl]. apply IH; [|done]. by destruct (pl_effect planned) as [| |? ? []| | | | | | | |].
Qed.

Lemma head_sound max_ops head rows : 1 ≤ max_ops → Forall head_op head → sound_plan max_ops rows head.
Proof using Type.
  intros Hops Hhead. split.
  - apply whole_units_single; [done|by apply head_plain].
  - eapply Forall_impl; [exact Hhead|]. by intros planned (e & -> & _).
  - eapply Forall_impl; [exact Hhead|]. by intros planned (e & -> & _ & ?).
  - by apply head_executable.
  - eapply Forall_impl; [exact Hhead|]. intros planned (e & -> & He & _). destruct e; (done || constructor).
  - eapply Forall_impl; [exact Hhead|]. intros planned (e & -> & He & _). by destruct e.
Qed.

(** A plan of row operations that carries rows of a collection of cells *)
Lemma rows_sound max_ops rows target batch max_bytes plan : cell_rows target → whole_units max_ops plan →
  Forall (honest target) plan → Forall (within_batch batch max_bytes) plan → executable (pl_effect <$> plan) rows →
  sound_plan max_ops rows plan.
Proof using Type.
  intros Ht Hunits Hh Hw Hexec.
  assert (Forall (λ planned, cell_rows (effect_rows (pl_effect planned))) plan) as Hcells.
  { eapply Forall_impl; [exact Hh|]. intros planned [_ Hin]. by apply (cell_rows_sub target). }
  split; try done.
  - eapply Forall_impl; [exact Hh|]. by intros planned [].
  - rewrite Forall_forall in Hh, Hw, Hcells |- *. intros planned Hin. rewrite (ho_op _ _ (Hh _ Hin)).
    apply row_effect_canonical; [eapply within_row_effect; by apply Hw|by apply Hcells].
  - eapply Forall_impl; [exact Hw|]. intros planned Hr%within_row_effect. by destruct (pl_effect planned).
Qed.

Lemma sound_app max_ops rows plan plan' : sound_plan max_ops rows plan → sound_plan max_ops (rows_after plan rows) plan' →
  sound_plan max_ops rows (plan ++ plan').
Proof using Type.
  intros [] []. split; try (by apply Forall_app).
  - by apply whole_units_app.
  - rewrite fmap_app. apply executable_app; [done|]. by rewrite <- rows_after_effects.
Qed.

(** ** Committing a sound plan *)

Lemma commit_sound fuel s plan max_ops max_bytes p s' p' committed r : session_wf s →
  (max_cached_items_per_model (limits (store s)) ≤ u64_max)%N → max_ops ≠ 0 → store_mirrors (store s) (pb_rows p) →
  cell_rows (pb_rows p) → layout_ok (pb_columns p) → sound_plan max_ops (pb_rows p) plan →
  commit fuel s plan max_ops max_bytes p = (s', p', committed, r) →
  commit_spec s plan max_ops p s' p' committed r ∧ (length plan ≤ fuel → returns r) ∧
  cell_rows (pb_rows p') ∧ layout_ok (pb_columns p').
Proof using Type.
  intros Hs Hmax Hops Hm Hcells Hlay [] Heq. apply commit_correct in Heq as [Hc Hret]; [|done..].
  split; [done|]. split; [done|]. destruct (cs_prefix _ _ _ _ _ _ _ _ Hc) as (k & _ & _ & -> & _). split.
  - rewrite record_all_rows. apply rows_after_cells; [done|]. by apply Forall_take.
  - apply record_layout; [done|]. by apply Forall_take.
Qed.
End view.

(** ** srtop: every operation of a view keeps it and its session together

    The invariant of a view, that each operation keeps it whatever its commits come
    to, and that each operation is a run of the session. *)

Section invariant.
Context `{Registry, EventRegistry, PropertyIter, Diagnostics, Digest, SdkProperties}.

(** A view of a session: the session's model holds just the rows the view has
    published, and the rows known are one for each process. *)
Record view_ok (s : SessionInner) (v : ProcessView) : Prop := {
  vo_session : session_wf s;
  vo_limit : (max_cached_items_per_model (limits (store s)) ≤ u64_max)%N;
  vo_mirrors : store_mirrors (store s) (pb_rows (vw_published v));
  vo_cells : cell_rows (pb_rows (vw_published v));
  vo_layout : layout_ok (pb_columns (vw_published v));
  vo_known : NoDup (ids_of (vw_unfiltered v));
  vo_known_cells : cell_rows (vw_unfiltered v);
}.

(** What an operation comes to: the view and its session agree, the outcome is a
    value, and what committed is a run of the session, in transactions no longer
    than the session allows. *)
Record op_result (s s' : SessionInner) (v' : ProcessView) (committed : nat) (r : result SessionError unit) : Prop := {
  or_view : view_ok s' v';
  or_returns : returns r;
  or_run : ∃ txs, session_run Careful s txs s' ∧ length txs = committed ∧
    Forall (λ tx, length (Msg.operations tx) ≤ N.to_nat (N.max (max_transaction_operations (limits (store s))) 1)) txs;
}.

Lemma view_nodup s v : view_ok s v → NoDup (ids_of (pb_rows (vw_published v))).
Proof using Type. intros Hv. destruct (vo_mirrors _ _ Hv) as (m & _ & Hm & _). apply (rep_nodup _ _ (mi_represents _ _ Hm)). Qed.

Lemma op_unchanged s v : view_ok s v → op_result s s v 0 (Ok tt).
Proof using Type. intros Hv. split; [done|done|]. exists []. split_and!; [apply run_nil|done|constructor]. Qed.

(** ** Committing a sound plan *)

Lemma commit_view s v plan max_bytes s' p' committed r unfiltered : view_ok s v →
  sound_plan (mutation_limits s).2 (pb_rows (vw_published v)) plan →
  commit_plan s plan (mutation_limits s).2 max_bytes (vw_published v) = (s', p', committed, r) →
  NoDup (ids_of unfiltered) → cell_rows unfiltered → op_result s s' (mkView p' unfiltered (vw_limit v)) committed r.
Proof using Type.
  intros Hv Hplan Heq Hnd Hcells. destruct Hv. apply commit_sound in Heq as ([] & Hret & Hc & Hl); try done.
  - split; [|by apply Hret|].
    + split; cbn [vw_published vw_unfiltered]; try done. by rewrite cs_limits.
    + exact cs_run.
  - destruct (mutation_limits_positive s). lia.
Qed.

Lemma publication_sound s v head target with_diff plan : Forall head_op head → cell_rows target →
  row_plan_spec s (pb_rows (vw_published v)) target with_diff plan →
  sound_plan (mutation_limits s).2 (pb_rows (vw_published v)) (head ++ plan).
Proof using All.
  intros Hhead Htc Hspec. destruct (mutation_limits_positive s). apply sound_app; [by apply head_sound|]. rewrite head_rows by done.
  eapply rows_sound; [exact Htc|apply Hspec..].
Qed.

Lemma publish_view s v head target with_diff s' p' committed r unfiltered : view_ok s v → Forall head_op head →
  NoDup (ids_of target) → cell_rows target → publish s (vw_published v) head target with_diff = (s', p', committed, r) →
  NoDup (ids_of unfiltered) → cell_rows unfiltered → op_result s s' (mkView p' unfiltered (vw_limit v)) committed r ∧
  (r = Ok tt → with_diff = true → to_model_item <$> pb_rows p' = to_model_item <$> target).
Proof using Type.
  intros Hv Hhead Htnd Htc Heq Hnd Hcells. pose proof (view_nodup s v Hv) as Hpnd.
  destruct (row_plan_correct s (pb_rows (vw_published v)) target with_diff Hpnd Htnd) as (plan & Hplan & Hspec).
  pose proof (publication_sound s v head target with_diff plan Hhead Htc Hspec) as Hsound.
  unfold publish in Heq. rewrite Hplan in Heq.
  destruct (commit_plan _ _ _ _ _) as [[[s1 p1] n] r1] eqn:Hc. injection Heq as <- <- <- <-.
  pose proof (commit_view _ _ _ _ _ _ _ _ unfiltered Hv Hsound Hc Hnd Hcells) as [Hv1 Hret Hrun]. split.
  - split; [|done|done]. destruct Hv1. split; cbn [vw_published vw_unfiltered with_rows pb_rows pb_columns] in *; try done.
    + by eapply store_mirrors_items; [symmetry; apply refresh_items|].
    + by apply refresh_cells.
  - intros -> ->. cbn [pb_rows with_rows]. rewrite refresh_items. destruct Hv. apply commit_sound in Hc as (Hc & _); try done;
      [|destruct (mutation_limits_positive s); lia].
    destruct (cs_prefix _ _ _ _ _ _ _ _ Hc) as (k & _ & _ & -> & Hend).
    rewrite (Hend eq_refl), take_ge, record_all_rows, rows_after_app, (head_rows head) by done.
    apply Hspec; [done|by apply cell_rows_values..].
Qed.

(** Where a publication that succeeds leads: to the whole plan's effects. *)
Lemma publish_exactly s v head target with_diff : view_ok s v → Forall head_op head → NoDup (ids_of target) → cell_rows target →
  ∃ plan, row_plan_spec s (pb_rows (vw_published v)) target with_diff plan ∧
    let '(s', p', committed, r) := publish s (vw_published v) head target with_diff in
    r = Ok tt → p' = with_rows (record_all (head ++ plan) (vw_published v))
      (refresh_sort_values (pb_rows (record_all (head ++ plan) (vw_published v))) target).
Proof using All.
  intros Hv Hhead Htnd Htc. pose proof (view_nodup s v Hv) as Hpnd.
  destruct (row_plan_correct s (pb_rows (vw_published v)) target with_diff Hpnd Htnd) as (plan & Hplan & Hspec).
  assert (sound_plan (mutation_limits s).2 (pb_rows (vw_published v)) (head ++ plan)) as Hsound
    by by eapply publication_sound.
  exists plan. split; [done|]. unfold publish. rewrite Hplan.
  destruct (commit_plan _ _ _ _ _) as [[[s1 p1] n] r1] eqn:Hc. intros ->. destruct Hv.
  apply commit_sound in Hc as (Hc & _); try done; [|destruct (mutation_limits_positive s); lia].
  destruct (cs_prefix _ _ _ _ _ _ _ _ Hc) as (k & _ & _ & -> & Hend). by rewrite (Hend eq_refl), take_ge by done.
Qed.

(** ** The rows to publish *)

Lemma project_sublist matches unfiltered limit : (project_visible_rows matches unfiltered limit).1.1 `sublist_of` unfiltered.
Proof using Type.
  unfold project_visible_rows. pose proof (bound_to_publishable_spec (filter (λ r, matches r = true) unfiltered) limit) as Hb.
  destruct (bound_to_publishable_collection _ _) as [rows truncated]. destruct Hb as (-> & _). cbn [fst].
  etrans; [apply sublist_take|apply sublist_filter].
Qed.

Lemma project_ok matches unfiltered limit : NoDup (ids_of unfiltered) → cell_rows unfiltered →
  NoDup (ids_of (project_visible_rows matches unfiltered limit).1.1) ∧ cell_rows (project_visible_rows matches unfiltered limit).1.1.
Proof using Type.
  intros Hnd Hc. pose proof (project_sublist matches unfiltered limit) as Hsub. split.
  - eapply sublist_NoDup; [exact Hnd|by apply sublist_fmap].
  - eapply cell_rows_sub; [exact Hc|]. intros row Hrow. by eapply elem_of_sublist.
Qed.

Lemma perm_rows_ok rows rows' : rows' ≡ₚ rows → NoDup (ids_of rows) → cell_rows rows → NoDup (ids_of rows') ∧ cell_rows rows'.
Proof using Type. intros Hp Hnd Hc. unfold ids_of, cell_rows. by rewrite Hp. Qed.

Lemma apply_target_ok v confirmed retention : NoDup (ids_of (vw_unfiltered v)) → cell_rows (vw_unfiltered v) →
  NoDup (ids_of confirmed) → cell_rows confirmed →
  NoDup (ids_of (apply_target v confirmed retention)) ∧ cell_rows (apply_target v confirmed retention).
Proof using Type.
  intros Hnd Hc Hcnd Hcc. unfold apply_target.
  pose proof (retain_unconfirmed_nodup confirmed retention _ Hnd Hcnd) as Hmnd.
  destruct (retain_unconfirmed_spec confirmed retention (vw_unfiltered v)) as [Hperm _].
  assert (cell_rows (retain_unconfirmed (vw_unfiltered v) confirmed retention)) as Hmc.
  { eapply cell_rows_sub; [apply Forall_app; split; [exact Hcc|exact Hc]|]. intros row. rewrite Hperm, !elem_of_app.
    intros [?|[_ ?]%list_elem_of_filter]; auto. }
  set (ordered := match pb_sort _ with Some _ => _ | None => _ end).
  assert (NoDup (ids_of ordered) ∧ cell_rows ordered) as [Hond Hoc].
  { unfold ordered. destruct (pb_sort _); [|done]. apply (perm_rows_ok (retain_unconfirmed (vw_unfiltered v) confirmed retention)); [apply sort_by_perm|done..]. }
  destruct (evict_unconfirmed_spec (list_to_set (ids_of confirmed)) ordered (vw_limit v) Hond) as (Hsub & _). split.
  - eapply sublist_NoDup; [exact Hond|by apply sublist_fmap].
  - eapply cell_rows_sub; [exact Hoc|]. intros row Hrow. by eapply elem_of_sublist.
Qed.

(** ** Sorting and refreshing *)

Lemma text_sized text : sized (VString text).
Proof using Type. intros h Hm. inversion Hm. Qed.

Lemma sort_head_ok active order : Forall head_op (sort_head active order).
Proof using Type.
  assert (∀ node label activates, head_op (Planned_new (EffSortLabel node label activates))) as Hl.
  { intros node label activates. eexists. split_and!; [done|done|apply text_sized]. }
  unfold sort_head. apply Forall_app. split; [|by repeat constructor]. destruct active; [|constructor]. case_decide; by repeat constructor.
Qed.

Lemma set_sort_ok s v matches order s' v' committed r : view_ok s v →
  set_sort s v matches order = (s', v', committed, r) → op_result s s' v' committed r.
Proof using Type.
  intros Hv. unfold set_sort. case_decide; [intros [= <- <- <- <-]; by apply op_unchanged|].
  destruct (perm_rows_ok (vw_unfiltered v) (sort_by (compare order) (vw_unfiltered v))) as [Hnd Hc];
    [apply sort_by_perm|apply Hv|apply Hv|].
  destruct (project_ok matches _ (vw_limit v) Hnd Hc) as [Htnd Htc].
  destruct (publish _ _ _ _ _) as [[[s1 p1] n] r1] eqn:Hp. intros [= <- <- <- <-].
  by eapply publish_view in Hp as [Hr _]; [exact Hr|exact Hv|apply sort_head_ok|..].
Qed.

Lemma apply_snapshot_ok s v matches head confirmed retention s' v' committed r : view_ok s v → Forall head_op head →
  NoDup (ids_of confirmed) → cell_rows confirmed →
  apply_snapshot s v matches head confirmed retention = (s', v', committed, r) → op_result s s' v' committed r.
Proof using Type.
  intros Hv Hhead Hnd Hc. unfold apply_snapshot. destruct (_ && _).
  - destruct (commit_plan _ _ _ _ _) as [[[s1 p1] n] r1] eqn:Hp. intros [= <- <- <- <-].
    eapply (commit_view s v head); [done| |exact Hp|apply Hv|apply Hv]. apply head_sound; [apply mutation_limits_positive|done].
  - destruct (publish _ _ _ _ _) as [[[s1 p1] n] r1] eqn:Hp. intros [= <- <- <- <-].
    destruct (apply_target_ok v confirmed retention) as [Hund Huc]; [apply Hv|apply Hv|done|done|].
    destruct (project_ok matches _ (vw_limit v) Hund Huc) as [Htnd Htc].
    by eapply publish_view in Hp as [Hr _]; [exact Hr|exact Hv|..].
Qed.
End invariant.
