(* ===== verification/SrtopOpsFacts.v ===== *)
(** * srtop: publishing a layout, a summary and a filter

    A layout is published in place, in one transaction when it fits one; the changes
    of a summary lead to it; a filter commits only under the newest generation
    staged; and all of them keep the view and its session together. *)

From S2P Require Import Prelude.
From S2P Require Import Values.
From S2P Require Import Limits.
From S2P Require Import Models.
From S2P Require Import ModelFacts.
From S2P Require Import Store.
From S2P Require Import Transaction.
From S2P Require Import Wire.
From S2P Require Import WireFacts.
From S2P Require Import Journal.
From S2P Require Import Event.
From S2P Require Import Resources.
From S2P Require Import Session.
From S2P Require Import SessionFacts.
From S2P Require Import Replication.
From S2P Require Import SrtopData.
From S2P Require Import SrtopMetric.
From S2P Require Import SrtopCatalogue.
From S2P Require Import SrtopSort.
From S2P Require Import SrtopRefresh.
From S2P Require Import SrtopCommit.
From S2P Require Import SrtopViewOps.
From S2P Require Import SrtopRows.
From S2P Require Import SrtopDiffFacts.
From S2P Require Import SrtopMoveFacts.
From S2P Require Import SrtopPlan.
From S2P Require Import SrtopView.
From S2P Require Import SrtopCommitFacts.
From S2P Require Import SrtopInvariant.

(** ** Rows in another layout *)

Lemma laid_out_Some row layout : cell_row row → ∃ row', laid_out row layout = Some row' ∧
  row_item_id row' = row_item_id row ∧ row_cells row' = row_cells row ∧ cell_row row'.
Proof.
  intros [_ Hc Hf]. unfold laid_out, lay_out.
  assert (∀ f, ∃ v, row_cells row !! field_index f = Some v ∧ cell_value v) as Hcell.
  { intros f. destruct (lookup_lt_is_Some_2 (row_cells row) (field_index f)) as [v Hv].
    - rewrite Hf. destruct f; cbn; lia.
    - exists v. split; [done|]. by eapply Forall_lookup_1 in Hc. }
  destruct (mapM_is_Some_2 (λ f, row_cells row !! field_index f) layout) as [vs Hvs].
  { apply Forall_true. intros f. destruct (Hcell f) as (v & Hv & _). by exists v. }
  rewrite Hvs. cbn. eexists. split; [done|]. split_and!; [done|done|]. split; [|done|done]. cbn.
  apply mapM_Some_1 in Hvs. induction Hvs as [|f v layout vs Hv _ IH]; constructor; [|done].
  destruct (Hcell f) as (w & Hw & ?). congruence.
Qed.

Lemma rows_laid_out rows layout : cell_rows rows → ∃ target, mapM (λ row, laid_out row layout) rows = Some target ∧
  ids_of target = ids_of rows ∧ cell_rows target.
Proof.
  induction 1 as [|row rows Hrow _ (target & Heq & Hids & Hc)]; [exists []; split_and!; [done|done|constructor]|].
  destruct (laid_out_Some row layout Hrow) as (row' & Hrow' & Hid & _ & Hc'). exists (row' :: target). cbn.
  rewrite Hrow'. cbn. rewrite Heq. cbn. split; [done|]. split; [|by constructor].
  change (row_item_id row' :: ids_of target = row_item_id row :: ids_of rows). by rewrite Hid, Hids.
Qed.

Section columns.
Context `{Registry, EventRegistry, PropertyIter, Diagnostics, Digest, SdkProperties}.

(** ** A difference of rows in the same places *)

Lemma inserts_nothing retained batch budget rest : ∀ st, (∀ index row, (index, row) ∈ rest → row_item_id row ∈ retained) →
  ir_rows st = [] → ir_plan (flush_insert (foldl (insert_step retained batch budget) st rest)) = ir_plan st.
Proof using Type.
  induction rest as [|[index row] rest IH]; intros st Hin Hnil; cbn [foldl].
  - unfold flush_insert. by rewrite Hnil.
  - assert (insert_step retained batch budget st (index, row) = flush_insert st) as ->.
    { unfold insert_step. rewrite decide_True; [done|]. apply (Hin index). left. }
    rewrite IH; [|by intros i r Hr; apply (Hin i); right|apply flush_rows]. unfold flush_insert. by rewrite Hnil.
Qed.

Definition update_op (planned : Planned) : Prop := ∃ rows, planned = Planned_new (EffUpdate rows).

Lemma updates_only batch budget rest : ∀ st, Forall update_op (up_plan st) →
  Forall update_op (finish_updates (foldl (update_step batch budget) st rest)).
Proof using Type.
  assert (∀ plan rows, Forall update_op plan → Forall update_op (plan ++ [Planned_new (EffUpdate rows)])) as Hsnoc.
  { intros plan rows Hp. apply Forall_app. split; [done|]. constructor; [by exists rows|constructor]. }
  induction rest as [|row rest IH]; intros st Hst; cbn [foldl].
  - unfold finish_updates. destruct (up_rows st); [done|by apply Hsnoc].
  - apply IH. unfold update_step. cbn [up_plan]. case_match; [by apply Hsnoc|done].
Qed.

Lemma diff_in_place rows target batch max_bytes : ids_of target = ids_of rows → NoDup (ids_of rows) → 1 ≤ batch →
  Forall update_op (diff rows target batch max_bytes).
Proof using Type.
  intros Hids Hnd Hbatch.
  assert (NoDup (ids_of target)) as Htnd by by rewrite Hids.
  pose proof (diff_fold_inv rows target batch Hnd Htnd Hbatch) as Hinv.
  assert (deleted_rows rows target = []) as Hnil.
  { destruct (deleted_rows rows target) as [|id ids] eqn:Hd; [done|exfalso].
    destruct (deleted_published rows target batch Hnd Htnd Hbatch) as [_ Hin].
    assert (id ∈ deleted_rows rows target) as Hid by (rewrite Hd; left).
    eapply (diff_spares rows target batch); [done|done|done| |exact Hid|rewrite Hids; by apply Hin].
    rewrite Hids. apply sublist_filter. }
  unfold deleted_rows in Hnil. unfold diff.
  destruct (foldl (diff_step target) ([], ∅, None) rows) as [[deleted retained] highest]. cbn [fst] in Hnil. subst deleted.
  apply updates_only. cbn [up_plan]. rewrite inserts_nothing; [constructor| |done].
  intros index row (i & y & [= -> ->] & Hi)%elem_of_lookup_imap. apply list_elem_of_lookup_2, ids_elem in Hi. rewrite Hids in Hi.
  destruct (decide (row_item_id y ∈ retained)) as [|Hno]; [done|exfalso].
  apply elem_of_ids in Hi as (old & Hold & Hid). pose proof (di_deleted _ _ _ Hinv) as Hdel. cbn [fst snd] in Hdel.
  apply (not_elem_of_nil (row_item_id old)). rewrite Hdel. apply ids_elem, list_elem_of_filter. by rewrite Hid.
Qed.

(** ** The plan of a layout *)

Lemma columns_head_op layout : layout_ok layout → head_op (Planned_new (EffColumns layout)).
Proof using Type.
  intros Hl. eexists. split_and!; [done|done|]. cbn. apply cell_list_sized. cbn. unfold column_headings. by apply Forall_fmap, Forall_true.
Qed.

Lemma chooser_head old layout : Forall head_op (chooser_ops old layout).
Proof using Type.
  unfold chooser_ops. apply Forall_forall. intros planned Hin. apply list_elem_of_In, in_concat in Hin as (l & Hl & Hin).
  apply list_elem_of_In in Hl, Hin. apply list_elem_of_fmap in Hl as ([node action] & -> & _). unfold chooser_change in Hin.
  apply elem_of_app in Hin as [Hin|Hin]; case_match; try by apply not_elem_of_nil in Hin.
  - apply list_elem_of_singleton in Hin as ->. eexists. split_and!; [done|done|apply text_sized].
  - apply list_elem_of_singleton in Hin as ->. eexists. split_and!; [done|done|]. intros h Hm. inversion Hm.
Qed.

Lemma layout_ops_sound max_ops old layout rows target batch : layout_ok layout → 1 ≤ batch → 1 ≤ max_ops →
  NoDup (ids_of rows) → ids_of target = ids_of rows → cell_rows target →
  sound_plan max_ops rows (layout_ops old layout rows target batch).
Proof using Type.
  intros Hl Hbatch Hops Hnd Hids Hc. unfold layout_ops. change (?x :: ?l ++ ?k) with ((x :: l) ++ k).
  assert (Forall head_op (Planned_new (EffColumns layout) :: chooser_ops old layout)) as Hhead
    by (constructor; [by apply columns_head_op|apply chooser_head]).
  apply sound_app; [by apply head_sound|]. rewrite head_rows by done.
  eapply (rows_sound max_ops rows target batch MAX_TRANSACTION_PAYLOAD_BYTES); [done| | | |].
  - apply whole_units_single, diff_plain. done.
  - apply diff_honest.
  - apply diff_spec; [done|done|by rewrite Hids].
  - apply diff_executable; [done|by rewrite Hids|done].
Qed.

Lemma layout_ops_plain old layout rows target batch :
  Forall (λ planned, pl_joins_next planned = false) (layout_ops old layout rows target batch).
Proof using Type.
  unfold layout_ops. constructor; [done|]. apply Forall_app. split; [apply head_plain, chooser_head|apply diff_plain].
Qed.

(** Joining a plan into one unit keeps it sound. *)
Lemma joined_sound max_ops rows plan : plan ≠ [] → length plan ≤ max_ops →
  Forall (λ planned, pl_joins_next planned = false) plan → sound_plan max_ops rows plan → sound_plan max_ops rows (join_all plan).
Proof using Type.
  intros Hne Hlen Hplain []. split; try (by apply Forall_joined).
  - exists [join_all plan]. cbn. rewrite app_nil_r. split; [done|]. constructor; [|constructor]. split.
    + intros Hnil. apply (f_equal length) in Hnil. rewrite length_join_all in Hnil. by destruct plan.
    + by rewrite length_join_all.
    + intros k. split; [|apply join_all_joins]. intros Hj. pose proof (join_all_last plan Hplain) as Hlast.
      assert (k < length (join_all plan)) as Hk by (unfold joins in Hj; destruct (join_all plan !! k) eqn:Hl; [by eapply lookup_lt_Some|done]).
      destruct (decide (S k = length (join_all plan))) as [Heq|]; [|lia]. rewrite <- Heq in Hlast. cbn in Hlast. congruence.
  - by rewrite join_all_fmap.
Qed.

Lemma layout_plan_sound max_ops old layout rows target batch : layout_ok layout → 1 ≤ batch → 1 ≤ max_ops →
  NoDup (ids_of rows) → ids_of target = ids_of rows → cell_rows target →
  sound_plan max_ops rows (layout_plan old layout rows target batch max_ops).
Proof using Type.
  intros Hl Hbatch Hops Hnd Hids Hc. unfold layout_plan. pose proof (layout_ops_sound max_ops old layout rows target batch Hl Hbatch Hops Hnd Hids Hc) as Hs.
  destruct (_ && _) eqn:Hfit; [|done]. apply andb_true_iff in Hfit as [Hlen%Nat.leb_le _].
  apply joined_sound; [done|done|apply layout_ops_plain|done].
Qed.

Lemma publish_layout_ok s v layout s' v' committed r : view_ok s v → layout_ok layout →
  publish_layout s v layout = (s', v', committed, r) → op_result s s' v' committed r.
Proof using Type.
  intros Hv Hl. unfold publish_layout. case_decide; [intros [= <- <- <- <-]; by apply op_unchanged|].
  destruct (rows_laid_out (pb_rows (vw_published v)) layout (vo_cells _ _ Hv)) as (target & -> & Hids & Hc).
  destruct (mutation_limits_positive s) as [Hbatch Hops].
  pose proof (layout_plan_sound (mutation_limits s).2 (pb_columns (vw_published v)) layout _ target (mutation_limits s).1 Hl Hbatch Hops
    (view_nodup s v Hv) Hids Hc) as Hsound.
  rewrite (surjective_pairing (mutation_limits s)).
  destruct (commit_plan _ _ _ _ _) as [[[s1 p1] n] r1] eqn:Hp.
  destruct (rows_laid_out (vw_unfiltered v) (pb_columns p1) (vo_known_cells _ _ Hv)) as (unfiltered & -> & Huids & Huc).
  intros [= <- <- <- <-]. eapply commit_view; [exact Hv|exact Hsound|exact Hp| |done]. rewrite Huids. apply Hv.
Qed.
(** ** In place, and at once when it fits *)

Definition in_place (e : Effect) : Prop := match e with EffDelete _ | EffInsert _ _ => False | _ => True end.

Lemma in_place_ids plan : ∀ rows, Forall (λ planned, in_place (pl_effect planned)) plan → ids_of (rows_after plan rows) = ids_of rows.
Proof using Type.
  induction plan as [|planned plan IH]; intros rows Hp; [done|]. apply Forall_cons in Hp as [He Hp].
  rewrite rows_after_cons, IH by done. destruct (pl_effect planned); try done. cbn [record_rows]. apply updated_ids.
Qed.

Definition other_effect (e : Effect) : Prop := match e with EffColumns _ => False | _ => True end.

Lemma columns_kept plan : ∀ p, Forall (λ planned, other_effect (pl_effect planned)) plan → pb_columns (record_all plan p) = pb_columns p.
Proof using Type.
  induction plan as [|planned plan IH]; intros p Hp; [done|]. apply Forall_cons in Hp as [He Hp]. unfold record_all. cbn [foldl].
  fold (record_all plan (record (pl_effect planned) p)). rewrite IH by done. by destruct (pl_effect planned) as [| |? ? []| | | | | | | |].
Qed.

Lemma chooser_effects old layout : Forall (λ planned, in_place (pl_effect planned) ∧ other_effect (pl_effect planned)) (chooser_ops old layout).
Proof using Type.
  unfold chooser_ops. apply Forall_forall. intros planned Hin. apply list_elem_of_In, in_concat in Hin as (l & Hl & Hin).
  apply list_elem_of_In in Hl, Hin. apply list_elem_of_fmap in Hl as ([node action] & -> & _). unfold chooser_change in Hin.
  apply elem_of_app in Hin as [Hin|Hin]; case_match; try (by apply not_elem_of_nil in Hin); by apply list_elem_of_singleton in Hin as ->.
Qed.

Lemma layout_effects old layout rows target batch : ids_of target = ids_of rows → NoDup (ids_of rows) → 1 ≤ batch →
  Forall (λ planned, in_place (pl_effect planned)) (layout_ops old layout rows target batch) ∧
  ∀ p, pb_columns (record_all (layout_ops old layout rows target batch) p) = layout.
Proof using Type.
  intros Hids Hnd Hbatch. pose proof (diff_in_place rows target batch MAX_TRANSACTION_PAYLOAD_BYTES Hids Hnd Hbatch) as Hdiff.
  pose proof (chooser_effects old layout) as Hch. unfold layout_ops. split.
  - constructor; [done|]. apply Forall_app. split.
    + eapply Forall_impl; [exact Hch|]. by intros planned [].
    + eapply Forall_impl; [exact Hdiff|]. by intros planned [u ->].
  - intros p. unfold record_all. cbn [foldl]. fold (record_all (chooser_ops old layout ++ diff rows target batch MAX_TRANSACTION_PAYLOAD_BYTES)).
    etrans; [apply columns_kept|done]. apply Forall_app. split.
    + eapply Forall_impl; [exact Hch|]. by intros planned [].
    + eapply Forall_impl; [exact Hdiff|]. by intros planned [u ->].
Qed.

(** A plan that is one unit commits whole or not at all. *)
Lemma commit_unit fuel s plan max_ops max_bytes p s' p' n r : max_ops ≠ 0 → (∀ k, S k < length plan → joins plan k = true) →
  commit fuel s plan max_ops max_bytes p = (s', p', n, r) →
  n = 0 ∧ p' = p ∨ n = 1 ∧ p' = record_all plan p ∧ r = Ok tt.
Proof using Type.
  intros Hops Hjoins. destruct plan as [|planned plan]; [destruct fuel; intros [= <- <- <- <-]; by left|].
  destruct fuel as [|fuel]; [intros [= <- <- <- <-]; by left|].
  destruct (chunk_end_spec max_ops max_bytes (planned :: plan) Hops) as [Hstop Hcut]; [done|].
  assert (chunk_end max_ops max_bytes (planned :: plan) = length (planned :: plan)) as Hend.
  { destruct Hcut as [?|[?|Hj]]; [lia|lia|]. destruct (decide (chunk_end max_ops max_bytes (planned :: plan) = length (planned :: plan))); [done|].
    rewrite Hjoins in Hj by lia. done. }
  cbn [commit]. rewrite Hend, take_ge, drop_ge by done.
  destruct (transaction_with_result _ _) as [[s1 []]|e| |]; [|intros [= <- <- <- <-]; by left..].
  rewrite record_committed_spec by done. destruct fuel; cbn [commit]; intros [= <- <- <- <-]; by right.
Qed.
End columns.

(** ** srtop: the summary and the filter

    The changes of a summary lead to it; a filter commits only under the newest
    generation staged; and staging and committing keep the view and its session
    together. *)

(** ** The changes of a summary *)

Definition change_of (c : Change) : NodeId * PropertyRef := (ch_node c, ch_property c).
Definition change_summary (m : Properties) (c : Change) : Properties :=
  match ch_value c with Some v => <[change_of c := v]> m | None => delete (change_of c) m end.

Lemma change_summary_lookup l : ∀ m key, NoDup (change_of <$> l) →
  (∀ c, c ∈ l → change_of c = key → foldl change_summary m l !! key = ch_value c) ∧
  (key ∉ change_of <$> l → foldl change_summary m l !! key = m !! key).
Proof.
  induction l as [|c l IH]; intros m key Hnd; [by split; [intros ? ?%not_elem_of_nil|]|].
  cbn [fmap list_fmap] in Hnd |- *. apply NoDup_cons in Hnd as [Hno Hnd]. cbn [foldl].
  destruct (IH (change_summary m c) key Hnd) as [Hin Hout]. split.
  - intros d [->|Hd]%elem_of_cons Hkey; [|by apply Hin]. rewrite Hout by by rewrite <- Hkey.
    unfold change_summary. rewrite Hkey. destruct (ch_value c); [apply lookup_insert_eq|apply lookup_delete_eq].
  - rewrite not_elem_of_cons. intros [Hne Hk]. rewrite Hout by done. unfold change_summary.
    destruct (ch_value c); [by apply lookup_insert_ne|by apply lookup_delete_ne].
Qed.

Lemma changes_elem published target c : c ∈ changes published target ↔
  match ch_value c with
  | Some v => target !! change_of c = Some v ∧ property_set published (change_of c, v) = true
  | None => is_Some (published !! change_of c) ∧ target !! change_of c = None
  end.
Proof.
  unfold changes. rewrite sort_by_perm, elem_of_app. unfold set_changes, clear_changes, change_of.
  rewrite !list_elem_of_fmap. split.
  - intros [([[node prop] v] & -> & [Hp Hin%elem_of_map_to_list]%list_elem_of_filter)|
      ([[node prop] v] & -> & [Hp Hin%elem_of_map_to_list]%list_elem_of_filter)]; cbn in *; [done|]. split; [by exists v|done].
  - destruct c as [node prop [v|]]; cbn.
    + intros [Hin Hp]. left. exists ((node, prop), v). split; [done|]. apply list_elem_of_filter. split; [done|]. by apply elem_of_map_to_list.
    + intros [[v Hin] Hp]. right. exists ((node, prop), v). split; [done|]. apply list_elem_of_filter. split; [done|]. by apply elem_of_map_to_list.
Qed.

Lemma changes_nodup published target : NoDup (change_of <$> changes published target).
Proof.
  unfold changes. rewrite sort_by_perm, fmap_app.
  assert (∀ (P : (NodeId * PropertyRef) * Value → Prop) `{!∀ x, Decision (P x)} (f : (NodeId * PropertyRef) * Value → option Value) (m : Properties),
    change_of <$> ((λ entry, mkChange entry.1.1 entry.1.2 (f entry)) <$> filter P (map_to_list m)) = (filter P (map_to_list m)).*1) as Hkeys.
  { intros P ? f m. rewrite <- list_fmap_compose. apply list_fmap_ext. by intros _ [[] ?] _. }
  assert (∀ (P : (NodeId * PropertyRef) * Value → Prop) `{!∀ x, Decision (P x)} (m : Properties), NoDup ((filter P (map_to_list m)).*1)) as Hnd.
  { intros P ? m. eapply sublist_NoDup; [apply (NoDup_fst_map_to_list m)|]. apply sublist_fmap, sublist_filter. }
  unfold set_changes, clear_changes. rewrite (Hkeys _ _ (λ entry, Some entry.2)), (Hkeys _ _ (λ _, None)).
  apply NoDup_app. split_and!; [apply Hnd| |apply Hnd].
  intros key ([? v] & -> & [_ Hin%elem_of_map_to_list]%list_elem_of_filter)%list_elem_of_fmap
    ([? w] & Heq & [Hnone _]%list_elem_of_filter)%list_elem_of_fmap. cbn in *. subst. pose proof (eq_trans (eq_sym Hin) Hnone) as Hbad. discriminate Hbad.
Qed.

(** The summary the changes lead to is the target. *)
Lemma changes_reach published target : (∀ key v, published !! key = Some v → cell_value v) →
  (∀ key v, target !! key = Some v → cell_value v) → foldl change_summary published (changes published target) = target.
Proof.
  intros Hp Ht. apply map_eq. intros key.
  destruct (change_summary_lookup (changes published target) published key (changes_nodup published target)) as [Hin Hout].
  destruct (decide (key ∈ change_of <$> changes published target)) as [(c & -> & Hc)%list_elem_of_fmap|Hno].
  - etrans; [exact (Hin c Hc eq_refl)|]. apply changes_elem in Hc. destruct (ch_value c); destruct Hc as [Hc Hc']; by symmetry.
  - etrans; [exact (Hout Hno)|].
    assert (∀ value, mkChange key.1 key.2 value ∉ changes published target) as Hnot.
    { intros value Hc. apply Hno, list_elem_of_fmap. exists (mkChange key.1 key.2 value). split; [by destruct key|done]. }
    destruct (target !! key) as [v|] eqn:Hv.
    + specialize (Hnot (Some v)). rewrite changes_elem in Hnot. cbn in Hnot. unfold change_of in Hnot. cbn in Hnot.
      rewrite <- surjective_pairing in Hnot. unfold property_set in Hnot. cbn in Hnot.
      destruct (published !! key) as [old|] eqn:Ho; [|by destruct Hnot].
      destruct (value_eqb old v) eqn:Heq; [|by destruct Hnot]. apply value_eqb_cell in Heq as ->; [done|by eapply Hp|by eapply Ht].
    + specialize (Hnot None). rewrite changes_elem in Hnot. cbn in Hnot. unfold change_of in Hnot. cbn in Hnot.
      rewrite <- surjective_pairing in Hnot. destruct (published !! key); [|done]. by destruct Hnot.
Qed.

Section filter.
Context `{Registry, EventRegistry, PropertyIter, Diagnostics, Digest, SdkProperties, FilterQueries}.

Lemma summary_recorded l : ∀ p, pb_summary (record_all ((λ c, Planned_new (EffSummary c)) <$> l) p) = foldl change_summary (pb_summary p) l.
Proof using Type.
  induction l as [|c l IH]; intros p; [done|]. cbn [fmap list_fmap]. unfold record_all. cbn [foldl]. fold (record_all ((λ c, Planned_new (EffSummary c)) <$> l)).
  unfold record_all in IH. by rewrite IH.
Qed.

(** A summary any client can be sent *)
Definition summary_ok (summary : Properties) : Prop := ∀ key v, summary !! key = Some v → cell_value v.

Lemma summary_head published target : summary_ok target → Forall head_op (summary_effects published target).
Proof using Type.
  intros Ht. apply Forall_fmap, Forall_forall. intros c Hc%changes_elem. eexists. split_and!; [done|done|].
  cbn. destruct (ch_value c) as [v|]; [|done]. destruct Hc as [Hc _]. apply Ht in Hc. intros h Hm. destruct v; (done || inversion Hm).
Qed.

Lemma text_head e text : effect_op e = SetProperty FILTER_STATUS PROP_TEXT (VString text) ∨
  effect_op e = SetProperty FILTER_INPUT PROP_VALUE (VString text) → plain_effect e → head_op (Planned_new e).
Proof using Type. intros Hop He. exists e. split_and!; [done|done|]. destruct Hop as [-> | ->]; apply text_sized. Qed.

Lemma stage_filter_ok s v f query s' v' f' r : view_ok s v → stage_filter s v f query = (s', v', f', r) →
  view_ok s' v' ∧ returns r ∧ ∃ txs, session_run Careful s txs s'.
Proof using Type.
  intros Hv. unfold stage_filter. case_bool_decide.
  - intros [= <- <- <- <-]. split_and!; [done|done|]. exists []. apply run_nil.
  - destruct (commit_plan _ _ _ _ _) as [[[s1 p1] n] r1] eqn:Hc. intros [= <- <- <- <-].
    eapply (commit_view s v _ _ _ _ _ _ (vw_unfiltered v)) in Hc as [Hv1 Hret (txs & Hrun & _)]; [|exact Hv| |apply Hv|apply Hv].
    + split_and!; [done| |by exists txs]. by destruct r1.
    + apply head_sound; [apply mutation_limits_positive|]. apply Forall_singleton. eapply text_head; [by left|done].
Qed.

Lemma commit_query_ok s v summarize generation query s' v' committed r : view_ok s v → (∀ n, summary_ok (summarize n)) →
  commit_query s v summarize generation query = (s', v', committed, r) → op_result s s' v' committed r.
Proof using Type.
  intros Hv Hsum. unfold commit_query.
  destruct (project_ok (matches_row query) (vw_unfiltered v) (vw_limit v)) as [Htnd Htc]; [apply Hv|apply Hv|].
  destruct (project_visible_rows _ _ _) as [[target matched] truncated]. cbn [fst] in Htnd, Htc.
  destruct (publish _ _ _ _ _) as [[[s1 p1] n] r1] eqn:Hp. intros [= <- <- <- <-].
  eapply publish_view in Hp as [Hr _]; [exact Hr|exact Hv| |done|done|apply Hv|apply Hv].
  clear Hp. apply Forall_app. split; [|apply Forall_app; split; [|by apply summary_head]].
  - case_bool_decide; [constructor|]. apply Forall_singleton. eapply text_head; [by right|done].
  - case_bool_decide; [constructor|]. apply Forall_singleton. eapply text_head; [by left|done].
Qed.

Lemma commit_filter_ok s v f summarize generation s' v' f' r : view_ok s v → (∀ n, summary_ok (summarize n)) →
  commit_filter s v f summarize generation = (s', v', f', r) →
  view_ok s' v' ∧ returns r ∧ ∃ txs, session_run Careful s txs s'.
Proof using Type.
  intros Hv Hsum. unfold commit_filter.
  assert (view_ok s v ∧ returns (Ok (E := SessionError) tt) ∧ ∃ txs, session_run Careful s txs s) as Hsame
    by (split_and!; [done|done|exists []; apply run_nil]).
  destruct (_ <? _)%N; [by intros [= <- <- <- <-]|].
  destruct (pending_filter f) as [pending|]; [|by intros [= <- <- <- <-]].
  destruct (_ =? _)%N; [|by intros [= <- <- <- <-]].
  destruct (commit_query _ _ _ _ _) as [[[s1 v1] n] r1] eqn:Hq. intros [= <- <- <- <-].
  apply commit_query_ok in Hq as [Hv1 Hret (txs & Hrun & _)]; [|done..]. split_and!; [done|done|by exists txs].
Qed.

(** ** Generations *)

(** A pending query is the newest one staged, and none committed is newer. *)
Record filter_ok (f : FilterState) : Prop := {
  fo_committed : (committed_generation f ≤ filter_generation f)%N;
  fo_pending pending : pending_filter f = Some pending → pf_generation pending = filter_generation f;
}.

Lemma stage_filter_state s v f query s' v' f' r : filter_ok f → (filter_generation f < u64_max)%N →
  stage_filter s v f query = (s', v', f', r) → filter_ok f' ∧ committed_filter f' = committed_filter f ∧
  committed_generation f' = committed_generation f ∧ filter_generation f' = (filter_generation f + 1)%N ∧
  pending_filter f' = Some (mkPending _ (filter_generation f + 1)%N (query_parse query)) ∧
  (∀ generation, r = Ok generation → generation = filter_generation f').
Proof using Type.
  intros [Hc Hp] Hmax Heq.
  assert (saturating_add64 (filter_generation f) 1 = (filter_generation f + 1)%N) as Hnext by (unfold saturating_add64; lia).
  assert (f' = mkFilter _ (committed_filter f) (committed_generation f) (filter_generation f + 1)%N
    (Some (mkPending _ (filter_generation f + 1)%N (query_parse query))) ∧
    (∀ generation, r = Ok generation → generation = (filter_generation f + 1)%N)) as [-> Hr].
  { unfold stage_filter in Heq. rewrite Hnext in Heq. case_bool_decide; [injection Heq as <- <- <- <-; split; [done|by intros ? [= <-]]|].
    destruct (commit_plan _ _ _ _ _) as [[[s1 p1] n] r1]. injection Heq as <- <- <- <-. split; [done|].
    by destruct r1; intros ? [= <-]. }
  split_and!; try done. split; cbn; [lia|by intros ? [= <-]].
Qed.

(** Only the newest generation staged commits; committing anything else changes
    nothing. *)
Lemma commit_filter_state s v f summarize generation s' v' f' r : filter_ok f →
  commit_filter s v f summarize generation = (s', v', f', r) →
  filter_ok f' ∧ (committed_generation f ≤ committed_generation f')%N ∧ filter_generation f' = filter_generation f ∧
  (match pending_filter f with
   | Some pending =>
       if decide (generation = filter_generation f)
       then committed_filter f' = pf_query pending ∧ committed_generation f' = generation ∧ pending_filter f' = None
       else (s', v', f', r) = (s, v, f, Ok tt)
   | None => (s', v', f', r) = (s, v, f, Ok tt)
   end).
Proof using Type.
  intros [Hc Hp] Heq. unfold commit_filter in Heq.
  assert ((s', v', f', r) = (s, v, f, Ok tt) → filter_ok f' ∧ (committed_generation f ≤ committed_generation f')%N ∧
    filter_generation f' = filter_generation f) as Hsame by (by intros [= -> -> -> ->]).
  destruct (N.ltb_spec generation (committed_generation f)) as [Hlt|Hge].
  { symmetry in Heq. destruct (Hsame Heq) as (? & ? & ?). split_and!; try done. destruct (pending_filter f); [|done].
    rewrite decide_False by lia. done. }
  destruct (pending_filter f) as [pending|] eqn:Hpend.
  - specialize (Hp pending eq_refl). destruct (N.eqb_spec (pf_generation pending) generation) as [Hg|Hg].
    + destruct (commit_query _ _ _ _ _) as [[[s1 v1] n] r1]. injection Heq as <- <- <- <-. cbn.
      rewrite decide_True by congruence. split_and!; try done. split; cbn; [lia|done].
    + symmetry in Heq. destruct (Hsame Heq) as (? & ? & ?). rewrite decide_False by congruence. done.
  - symmetry in Heq. destruct (Hsame Heq) as (? & ? & ?). done.
Qed.
End filter.
