(* ===== verification/SrtopIds.v ===== *)
(** * srtop: item ids of process instances

    Models the allocator of [apps/srtop/src/projection.rs] ([SessionIdentity],
    [SessionItemIds]) and the whole of [ProcessView::apply] with it: a scan is
    projected to rows, the rows are published, and the identities no row has are
    forgotten.  Then what the allocator promises. *)

From S2P Require Import Prelude.
From S2P Require Import Values.
From S2P Require Import Limits.
From S2P Require Import Models.
From S2P Require Import Store.
From S2P Require Import Transaction.
From S2P Require Import Wire.
From S2P Require Import Journal.
From S2P Require Import Event.
From S2P Require Import Resources.
From S2P Require Import Session.
From S2P Require Import SessionFacts.
From S2P Require Import Replication.
From S2P Require Import SrtopData.
From S2P Require Import SrtopMetric.
From S2P Require Import SrtopCatalogue.
From S2P Require Import SrtopSort.
From S2P Require Import SrtopRefresh.
From S2P Require Import SrtopCommit.
From S2P Require Import SrtopViewOps.
From S2P Require Import SrtopRows.
From S2P Require Import SrtopView.
From S2P Require Import SrtopInvariant.
From S2P Require Import SrtopOpsFacts.

(** ** The identity of the scanned source *)

(** [struct SessionIdentity], [anchor_component] and [anchor] *)
Record SessionIdentity := mkIdentity { si_host : option string; si_boot : option string; si_pid_namespace : option N }.
Definition anchor_component {A} (remembered : option A) (observed : Observed A) : option A * Observed A :=
  match observed with
  | Known value => (Some value, observed)
  | Missing _ => (remembered, match remembered with Some known => Known known | None => observed end)
  end.
Definition anchor (identity : SessionIdentity) (key : ProcessKey) : SessionIdentity * ProcessKey :=
  let '(host, key_host) := anchor_component (si_host identity) (pk_host key) in
  let '(boot, key_boot) := anchor_component (si_boot identity) (pk_boot key) in
  let '(namespace, key_namespace) := anchor_component (si_pid_namespace identity) (pk_pid_namespace key) in
  (mkIdentity host boot namespace, mkKey (pk_source key) key_host key_boot key_namespace (pk_pid key) (pk_creation key)).
Fixpoint anchor_all (identity : SessionIdentity) (records : list ProcessRecord) : SessionIdentity * list ProcessKey :=
  match records with
  | [] => (identity, [])
  | record :: records =>
      let '(identity, key) := anchor identity (pr_key record) in
      let '(identity, keys) := anchor_all identity records in (identity, key :: keys)
  end.

(** ** The allocator *)

(** [struct SessionItemIds], [retain] and the errors of [project] *)
Record SessionItemIds := mkIds { ii_assigned : gmap ProcessKey ItemId; ii_identity : SessionIdentity; ii_last : N }.
Definition SessionItemIds_default : SessionItemIds := mkIds ∅ (mkIdentity None None None) 0.
Definition retain_ids (ids : SessionItemIds) (published : list Row) : SessionItemIds :=
  if (size (ii_assigned ids) =? length published)%nat then ids
  else
    let live : gset ProcessKey := list_to_set (row_key <$> published) in
    mkIds (filter (λ entry : ProcessKey * ItemId, entry.1 ∈ live) (ii_assigned ids)) (ii_identity ids) (ii_last ids).
Inductive ProjectError := DuplicateIdentity | IdsExhausted.

(** Whether a key is not new to the set of keys seen. *)
Fixpoint any_seen (seen : gset ProcessKey) (keys : list ProcessKey) : bool :=
  match keys with
  | [] => false
  | key :: keys => bool_decide (key ∈ seen) || any_seen ({[key]} ∪ seen) keys
  end.

(** The id of a key, and its row; a field without a cell panics. *)
Definition assign (ids : SessionItemIds) (key : ProcessKey) : SessionItemIds * result ProjectError ItemId :=
  match ii_assigned ids !! key with
  | Some id => (ids, Ok id)
  | None =>
      match checked_add64 (ii_last ids) 1 with
      | Some last => (mkIds (<[key := mkItemId last]> (ii_assigned ids)) (ii_identity ids) last, Ok (mkItemId last))
      | None => (ids, Err IdsExhausted)
      end
  end.
Definition project_row (layout : ColumnLayout) (record : ProcessRecord) (key : ProcessKey) (id : ItemId) : result ProjectError Row :=
  let cells := (λ field, cell field key record) <$> PROCESS_LIST in
  value ← expect (lay_out cells layout);
  Ok (mkRow key id cells value (of_record key record) (pr_display_name record)).
Fixpoint project_rows (layout : ColumnLayout) (ids : SessionItemIds) (l : list (ProcessRecord * ProcessKey))
    : SessionItemIds * result ProjectError (list Row) :=
  match l with
  | [] => (ids, Ok [])
  | (record, key) :: l =>
      let '(ids, r) := assign ids key in
      match r ≫= project_row layout record key with
      | Ok row => let '(ids, rows) := project_rows layout ids l in (ids, rs ← rows; Ok (row :: rs))
      | Err e => (ids, Err e)
      | Panic => (ids, Panic)
      | Diverge => (ids, Diverge)
      end
  end.

(** [SessionItemIds::project] *)
Definition project (ids : SessionItemIds) (snapshot : ProcessSnapshot) (layout : ColumnLayout)
    : SessionItemIds * result ProjectError (list Row) :=
  let '(identity, keys) := anchor_all (ii_identity ids) (ps_records snapshot) in
  if any_seen ∅ keys then (ids, Err DuplicateIdentity)
  else project_rows layout (mkIds (ii_assigned ids) identity (ii_last ids)) (zip (ps_records snapshot) keys).

Section scan.
Context `{Registry, EventRegistry, PropertyIter, Diagnostics, Digest, SdkProperties}.

(** [ProcessView::apply]: [head] is the planned change of the status lines and the
    summary, for what the scan came to. *)
Definition scanned_rows (r : result ProjectError (list Row)) : list Row := match r with Ok rows => rows | _ => [] end.
Definition apply_scan (s : SessionInner) (v : ProcessView) (ids : SessionItemIds) (matches : Row → bool)
    (head : result ProjectError (list Row) → list Planned) (snapshot : ProcessSnapshot)
    : SessionInner * ProcessView * SessionItemIds * nat * result SessionError unit :=
  let '(ids, r) := project ids snapshot (pb_columns (vw_published v)) in
  match r with
  | Panic => (s, v, ids, 0, Panic)
  | Diverge => (s, v, ids, 0, Diverge)
  | _ =>
      let ret := if is_ok r then retention snapshot else Unenumerable in
      let '(s, v, n, outcome) := apply_snapshot s v matches (head r) (scanned_rows r) ret in
      (s, v, retain_ids ids (vw_unfiltered v), n, outcome)
  end.
End scan.

(** ** Anchoring *)

Lemma any_seen_NoDup keys : ∀ seen, any_seen seen keys = false ↔ NoDup keys ∧ ∀ key, key ∈ keys → key ∉ seen.
Proof.
  induction keys as [|key keys IH]; intros seen; cbn [any_seen].
  - split; [intros _; split; [constructor|by intros ? ?%elem_of_nil]|done].
  - rewrite orb_false_iff, bool_decide_eq_false, IH, NoDup_cons. split.
    + intros (Hk & Hnd & Hall). split_and!; [|done|].
      * intros Hin. apply (Hall key Hin). set_solver.
      * intros k [->|Hin]%elem_of_cons; [done|]. specialize (Hall k Hin). set_solver.
    + intros ((Hk & Hnd) & Hall). split_and!; [apply Hall; by left|done|].
      intros k Hin. specialize (Hall k). rewrite not_elem_of_union, not_elem_of_singleton. split; [by intros ->|]. apply Hall. by right.
Qed.
Lemma anchor_all_length identity records : length (anchor_all identity records).2 = length records.
Proof.
  revert identity. induction records as [|record records IH]; intros identity; cbn [anchor_all]; [done|].
  destruct (anchor identity (pr_key record)) as [i key]. specialize (IH i). destruct (anchor_all i records) as [i' keys]. cbn in *. lia.
Qed.

(** ** Assigning ids *)

(** Ids are positive, no greater than the last, and of one key each. *)
Record ids_wf (ids : SessionItemIds) : Prop := {
  iw_range : ∀ key id, ii_assigned ids !! key = Some id → (1 ≤ ItemId_get id ≤ ii_last ids)%N;
  iw_inj : ∀ key1 key2 id, ii_assigned ids !! key1 = Some id → ii_assigned ids !! key2 = Some id → key1 = key2;
  iw_last : (ii_last ids ≤ u64_max)%N;
}.
Lemma ids_default_wf : ids_wf SessionItemIds_default.
Proof. split; done. Qed.

(** [ids'] assigns what [ids] did, and to the keys of [fresh] ids it never gave. *)
Record grown (ids ids' : SessionItemIds) (fresh : list ProcessKey) : Prop := {
  gr_wf : ids_wf ids';
  gr_last : (ii_last ids ≤ ii_last ids')%N;
  gr_kept : ∀ key id, ii_assigned ids !! key = Some id → ii_assigned ids' !! key = Some id;
  gr_new : ∀ key id, ii_assigned ids' !! key = Some id →
    ii_assigned ids !! key = Some id ∨ ii_assigned ids !! key = None ∧ key ∈ fresh ∧ (ii_last ids < ItemId_get id)%N;
  gr_identity : ii_identity ids' = ii_identity ids;
}.
Lemma grown_refl ids fresh : ids_wf ids → grown ids ids fresh.
Proof. by split; auto. Qed.
Lemma grown_trans ids1 ids2 ids3 k1 k2 : grown ids1 ids2 k1 → grown ids2 ids3 k2 → grown ids1 ids3 (k1 ++ k2).
Proof.
  intros [W1 L1 K1 N1 I1] [W2 L2 K2 N2 I2]. split; [done|lia|auto| |congruence].
  intros key id Hk. rewrite elem_of_app. destruct (N2 key id Hk) as [H2|(H2 & Hf & Hlt)].
  - destruct (N1 key id H2) as [?|(? & ? & ?)]; auto.
  - right. split; [|split; [by right|lia]]. destruct (ii_assigned ids1 !! key) as [id1|] eqn:H1; [|done]. rewrite (K1 _ _ H1) in H2. done.
Qed.

Lemma assign_grown ids key ids' r : ids_wf ids → assign ids key = (ids', r) → grown ids ids' [key] ∧
  match r with
  | Ok id => ii_assigned ids' !! key = Some id ∧ (ii_assigned ids !! key = None → ii_last ids < ItemId_get id)%N
  | Err e => e = IdsExhausted ∧ ii_last ids = u64_max
  | _ => False
  end.
Proof.
  intros Hw. unfold assign. destruct (ii_assigned ids !! key) as [id|] eqn:Hk.
  { intros [= <- <-]. split; [by apply grown_refl|done]. }
  destruct (checked_add64 (ii_last ids) 1) as [last|] eqn:Hlast.
  - apply checked_add64_Some in Hlast as [-> Hmax]. intros [= <- <-]. destruct Hw as [Hr Hi Hl]. split.
    + split; cbn [ii_assigned ii_last ii_identity]; [split; cbn [ii_assigned ii_last]|lia| | |done].
      * intros k id [[<- <-]|[_ Hk']]%lookup_insert_Some; [cbn; lia|]. specialize (Hr k id Hk'). lia.
      * intros k1 k2 id H1 H2. apply lookup_insert_Some in H1 as [[<- <-]|[Hn1 H1]], H2 as [[<- H2]|[Hn2 H2]]; [done| | |by eapply Hi].
        -- specialize (Hr _ _ H2). cbn in Hr. lia.
        -- subst. specialize (Hr _ _ H1). cbn in Hr. lia.
      * lia.
      * intros k id Hk'. rewrite lookup_insert_ne; [done|]. intros <-. congruence.
      * intros k id [[<- <-]|[_ Hk']]%lookup_insert_Some; [right|by left]. split_and!; [done|by apply list_elem_of_singleton|cbn; lia].
    + cbn. rewrite lookup_insert_eq. split; [done|lia].
  - apply checked_add64_None in Hlast. intros [= <- <-]. split; [by apply grown_refl|]. split; [done|]. destruct Hw. lia.
Qed.

(** A row made of a record under a key. *)
Record row_of (layout : ColumnLayout) (record : ProcessRecord) (key : ProcessKey) (row : Row) : Prop := {
  rf_key : row_key row = key;
  rf_cells : row_cells row = (λ field, cell field key record) <$> PROCESS_LIST;
  rf_value : lay_out (row_cells row) layout = Some (row_value row);
  rf_sort : row_sort row = of_record key record;
  rf_name : row_display_name row = pr_display_name record;
  rf_cell_row : cell_row row;
}.
Lemma cell_is_value field key record : cell_value (cell field key record).
Proof. destruct field; cbn; try done. by destruct (pk_pid key). Qed.
Lemma project_row_Ok layout record key id : ∃ row, project_row layout record key id = Ok row ∧ row_of layout record key row ∧ row_item_id row = id.
Proof.
  unfold project_row. set (cells := (λ field, cell field key record) <$> PROCESS_LIST).
  assert (Forall cell_value cells) as Hc by (apply Forall_fmap, Forall_true; intros f; apply cell_is_value).
  destruct (laid_out_Some (mkRow key id cells (VList []) (of_record key record) (pr_display_name record)) layout) as (row & Hrow & _ & _ & Hcr).
  { by split; cbn; [constructor| |]. }
  unfold laid_out in Hrow. cbn [row_cells row_key row_item_id row_sort row_display_name] in Hrow.
  destruct (lay_out cells layout) as [value|] eqn:Hv; [|done]. cbn in Hrow. injection Hrow as <-.
  eexists. split; [done|]. split; [|done]. by split.
Qed.

Lemma project_rows_spec layout l : ∀ ids ids' r, ids_wf ids → project_rows layout ids l = (ids', r) →
  grown ids ids' l.*2 ∧
  match r with
  | Ok rows => Forall2 (λ row entry, row_of layout entry.1 entry.2 row ∧ ii_assigned ids' !! row_key row = Some (row_item_id row)) rows l
  | Err e => e = IdsExhausted ∧ ii_last ids' = u64_max
  | _ => False
  end.
Proof.
  induction l as [|[record key] l IH]; intros ids ids' r Hw; cbn [project_rows].
  { intros [= <- <-]. split; [by apply grown_refl|constructor]. }
  destruct (assign ids key) as [ids1 r1] eqn:Ha. destruct (assign_grown ids key ids1 r1 Hw Ha) as [Hg Hr1].
  destruct r1 as [id|e| |]; cbn [mbind result_bind]; [|intros [= <- <-]|done..].
  - destruct (project_row_Ok layout record key id) as (row & -> & Hrow & Hid).
    destruct (project_rows layout ids1 l) as [ids2 rows] eqn:Hp. intros [= <- <-].
    destruct (IH ids1 ids2 rows (gr_wf _ _ _ Hg) Hp) as [Hg2 Hrows]. pose proof (grown_trans _ _ _ _ _ Hg Hg2) as Hg3.
    split; [done|]. destruct rows as [rows|e| |]; cbn; [|done..]. constructor; [|done]. split; [done|]. cbn [fst snd].
    rewrite (rf_key _ _ _ _ Hrow), Hid. apply Hg2, Hr1.
  - split; [|destruct Hr1 as [-> Hmax]; split; [done|]; pose proof (gr_last _ _ _ Hg); pose proof (iw_last _ (gr_wf _ _ _ Hg)); lia].
    destruct Hg. split; try done. intros k i Hk. destruct (gr_new0 k i Hk) as [?|(? & Hin & ?)]; [by left|right].
    split_and!; [done| |done]. apply list_elem_of_singleton in Hin as ->. by left.
Qed.

(** What a projection comes to. *)
Lemma NoDup_zip_snd {A B} (l : list A) (k : list B) : length k = length l → (zip l k).*2 = k.
Proof. intros Hl. rewrite snd_zip; [done|lia]. Qed.
Lemma project_spec ids snapshot layout ids' r : ids_wf ids → project ids snapshot layout = (ids', r) →
  let keys := (anchor_all (ii_identity ids) (ps_records snapshot)).2 in
  match r with
  | Ok rows => NoDup keys ∧ row_key <$> rows = keys ∧ NoDup (ids_of rows) ∧ cell_rows rows ∧
      Forall2 (λ row entry, row_of layout entry.1 entry.2 row) rows (zip (ps_records snapshot) keys) ∧
      (∀ row, row ∈ rows → ii_assigned ids' !! row_key row = Some (row_item_id row))
  | Err DuplicateIdentity => ids' = ids ∧ ¬ NoDup keys
  | Err IdsExhausted => NoDup keys ∧ ii_last ids' = u64_max
  | _ => False
  end ∧
  grown (mkIds (ii_assigned ids) (ii_identity ids') (ii_last ids)) ids' keys ∧
  ii_identity ids' = (if any_seen ∅ keys then ii_identity ids else (anchor_all (ii_identity ids) (ps_records snapshot)).1).
Proof.
  intros Hw Hp keys. unfold project in Hp. unfold keys. pose proof (anchor_all_length (ii_identity ids) (ps_records snapshot)) as Hlen.
  destruct (anchor_all (ii_identity ids) (ps_records snapshot)) as [identity ks] eqn:Ha. cbn [fst snd] in *. clear keys.
  destruct (any_seen ∅ ks) eqn:Hseen.
  { injection Hp as <- <-. split; [split; [done|]|split; [destruct ids; by apply grown_refl|done]].
    intros Hnd. assert (any_seen ∅ ks = false); [|congruence]. apply any_seen_NoDup. split; [done|]. intros k _. apply not_elem_of_empty. }
  apply any_seen_NoDup in Hseen as [Hnd _].
  destruct (project_rows_spec layout (zip (ps_records snapshot) ks) _ _ _ (Build_ids_wf (mkIds (ii_assigned ids) identity (ii_last ids))
    (iw_range _ Hw) (iw_inj _ Hw) (iw_last _ Hw)) Hp) as [Hg Hr].
  rewrite NoDup_zip_snd in Hg by done. pose proof (gr_identity _ _ _ Hg) as Hi. cbn in Hi. rewrite Hi. split; [|by split].
  destruct r as [rows|e| |]; [|destruct Hr as [-> ?]; done|done..].
  assert (row_key <$> rows = ks) as Hkeys.
  { rewrite <- (NoDup_zip_snd (ps_records snapshot) ks) by done. clear -Hr. induction Hr as [|row entry rows l [Hrow _] _ IH]; [done|].
    rewrite !fmap_cons, IH, (rf_key _ _ _ _ Hrow). done. }
  assert (∀ row, row ∈ rows → ii_assigned ids' !! row_key row = Some (row_item_id row)) as Hass.
  { intros row Hrow. apply list_elem_of_lookup in Hrow as [i Hi']. by destruct (Forall2_lookup_l _ _ _ _ _ Hr Hi') as (entry & _ & _ & ?). }
  split_and!; [done|done| | | |done].
  - assert (NoDup (row_key <$> rows)) as Hndk by by rewrite Hkeys.
    pose proof (iw_inj _ (gr_wf _ _ _ Hg)) as Hinj. clear -Hndk Hass Hinj. unfold ids_of.
    induction rows as [|row rows IH]; [constructor|]. rewrite !fmap_cons in *. apply NoDup_cons in Hndk as [Hn Hndk].
    constructor; [|apply IH; try done; intros row' Hin; apply Hass; by right].
    intros (row' & Heq & Hin)%list_elem_of_fmap. apply Hn. assert (row_key row = row_key row') as ->; [|by apply list_elem_of_fmap_2].
    apply (Hinj _ _ (row_item_id row)); [apply Hass; by left|rewrite Heq; apply Hass; by right].
  - clear -Hr. induction Hr as [|row entry rows l [Hrow _] _ IH]; constructor; [apply Hrow|exact IH].
  - eapply Forall2_impl; [exact Hr|]. by intros row entry [? _].
Qed.

(** Forgetting identities no row has. *)
Lemma retain_ids_sub ids published key id : ii_assigned (retain_ids ids published) !! key = Some id → ii_assigned ids !! key = Some id.
Proof. unfold retain_ids. destruct (_ =? _)%nat; [done|]. cbn. by intros [? _]%map_lookup_filter_Some. Qed.
Lemma retain_ids_wf ids published : ids_wf ids → ids_wf (retain_ids ids published).
Proof.
  intros [Hr Hi Hl]. assert (ii_last (retain_ids ids published) = ii_last ids) as Hlast by (unfold retain_ids; by destruct (_ =? _)%nat).
  split; rewrite ?Hlast; [|intros k1 k2 id H1 H2|done].
  - intros key id Hk. eapply Hr. by eapply retain_ids_sub.
  - apply retain_ids_sub in H1, H2. by eapply Hi.
Qed.
Lemma retain_ids_kept ids published row : row ∈ published → ii_assigned ids !! row_key row = Some (row_item_id row) →
  ii_assigned (retain_ids ids published) !! row_key row = Some (row_item_id row).
Proof.
  intros Hin Hk. unfold retain_ids. destruct (_ =? _)%nat; [done|]. cbn. apply map_lookup_filter_Some. split; [done|].
  cbn. rewrite elem_of_list_to_set. by apply list_elem_of_fmap_2.
Qed.
Lemma retain_ids_size ids published : size (ii_assigned (retain_ids ids published)) ≤ length published.
Proof.
  unfold retain_ids. destruct (Nat.eqb_spec (size (ii_assigned ids)) (length published)) as [->|_]; [done|]. cbn.
  rewrite <- size_dom. etrans; [apply (subseteq_size _ (list_to_set (C := gset ProcessKey) (row_key <$> published)))|].
  - intros key [id Hk]%elem_of_dom. by apply map_lookup_filter_Some in Hk as [_ ?].
  - rewrite <- (length_fmap row_key published). induction (row_key <$> published) as [|k l IH]; cbn; [by rewrite size_empty|].
    rewrite size_union_alt. pose proof (subseteq_size (list_to_set l ∖ {[k]}) (list_to_set (C := gset ProcessKey) l)) as Hs.
    rewrite size_singleton. specialize (Hs ltac:(set_solver)). lia.
Qed.

(** ** The allocator of a view *)

Record view_ids (ids : SessionItemIds) (rows : list Row) : Prop := {
  vi_wf : ids_wf ids;
  vi_rows : ∀ row, row ∈ rows → ii_assigned ids !! row_key row = Some (row_item_id row);
}.
(** Rows of the same process instance, and only those, have the same id. *)
Definition same_identity (rows rows' : list Row) : Prop :=
  ∀ row row', row ∈ rows → row' ∈ rows' → row_key row = row_key row' ↔ row_item_id row = row_item_id row'.
Lemma view_ids_same ids rows rows' : view_ids ids rows → (∀ row, row ∈ rows' → ii_assigned ids !! row_key row = Some (row_item_id row)) →
  same_identity rows rows'.
Proof.
  intros [Hw Hr] Hr' row row' Hin Hin'. specialize (Hr row Hin). specialize (Hr' row' Hin'). split.
  - intros Heq. rewrite Heq, Hr' in Hr. by injection Hr.
  - intros Heq. rewrite <- Heq in Hr'. by eapply iw_inj.
Qed.
Lemma view_ids_retain ids rows : view_ids ids rows → view_ids (retain_ids ids rows) rows.
Proof. intros [Hw Hr]. split; [by apply retain_ids_wf|]. intros row Hin. apply retain_ids_kept; auto. Qed.

Lemma project_view_ids ids snapshot layout ids' rows : ids_wf ids → project ids snapshot layout = (ids', Ok rows) → view_ids ids' rows.
Proof. intros Hw Hp. destruct (project_spec _ _ _ _ _ Hw Hp) as ((_ & _ & _ & _ & _ & Hass) & Hg & _). split; [apply Hg|done]. Qed.

Lemma apply_target_in v confirmed retention row : NoDup (ids_of (vw_unfiltered v)) → NoDup (ids_of confirmed) →
  row ∈ apply_target v confirmed retention → row ∈ confirmed ∨ row ∈ vw_unfiltered v.
Proof.
  intros Hnd Hcnd Hin. unfold apply_target in Hin.
  destruct (retain_unconfirmed_spec confirmed retention (vw_unfiltered v)) as [Hperm _].
  pose proof (retain_unconfirmed_nodup confirmed retention _ Hnd Hcnd) as Hmnd.
  set (merged := retain_unconfirmed _ _ _) in *. set (ordered := match pb_sort _ with Some _ => _ | None => _ end) in *.
  assert (ordered ≡ₚ merged) as Hord by (unfold ordered; destruct (pb_sort _); [apply sort_by_perm|done]).
  assert (NoDup (ids_of ordered)) as Hond by (unfold ids_of; by rewrite Hord).
  destruct (evict_unconfirmed_spec (list_to_set (ids_of confirmed)) ordered (vw_limit v) Hond) as (Hsub & _).
  eapply elem_of_sublist in Hin; [|exact Hsub]. rewrite Hord, Hperm in Hin.
  apply elem_of_app in Hin as [?|[_ ?]%list_elem_of_filter]; auto.
Qed.

(** The rows a view knows after a scan, and after the operations that only reorder
    them or lay them out. *)

(** Rows that are others laid out or reordered have their identities. *)
Definition rows_from (rows rows' : list Row) : Prop :=
  ∀ row', row' ∈ rows' → ∃ row, row ∈ rows ∧ row_key row = row_key row' ∧ row_item_id row = row_item_id row'.
Lemma rows_from_refl rows : rows_from rows rows.
Proof. intros row Hin. by exists row. Qed.
Lemma view_ids_from ids rows rows' : view_ids ids rows → rows_from rows rows' → view_ids ids rows'.
Proof. intros [Hw Hr] Hf. split; [done|]. intros row' Hin. destruct (Hf row' Hin) as (row & ? & <- & <-). auto. Qed.

Section views.
Context `{Registry, EventRegistry, PropertyIter, Diagnostics, Digest, SdkProperties}.

Lemma apply_snapshot_rows s v matches head confirmed retention s' v' n r :
  apply_snapshot s v matches head confirmed retention = (s', v', n, r) →
  vw_unfiltered v' = vw_unfiltered v ∨ vw_unfiltered v' = apply_target v confirmed retention.
Proof using Type.
  unfold apply_snapshot. destruct (_ && _).
  - destruct (commit_plan _ _ _ _ _) as [[[s1 p1] m] r1]. intros [= <- <- <- <-]. by left.
  - destruct (publish _ _ _ _ _) as [[[s1 p1] m] r1]. intros [= <- <- <- <-]. by right.
Qed.
Lemma set_sort_rows s v matches order s' v' n r : set_sort s v matches order = (s', v', n, r) →
  rows_from (vw_unfiltered v) (vw_unfiltered v').
Proof using Type.
  unfold set_sort. case_decide; [intros [= <- <- <- <-]; apply rows_from_refl|].
  destruct (publish _ _ _ _ _) as [[[s1 p1] m] r1]. intros [= <- <- <- <-] row Hin. cbn in Hin. rewrite sort_by_perm in Hin. by exists row.
Qed.
Lemma laid_out_from rows layout rows' : mapM (λ row, laid_out row layout) rows = Some rows' → rows_from rows rows'.
Proof using Type.
  intros Hm row' Hin. apply mapM_Some_1 in Hm. apply list_elem_of_lookup in Hin as [i Hi].
  destruct (Forall2_lookup_r _ _ _ _ _ Hm Hi) as (row & Hrow & Hl). exists row. split; [by eapply list_elem_of_lookup_2|].
  unfold laid_out in Hl. apply bind_Some in Hl as (value & _ & [= <-]). done.
Qed.
Lemma publish_layout_rows s v layout s' v' n r : publish_layout s v layout = (s', v', n, r) →
  rows_from (vw_unfiltered v) (vw_unfiltered v').
Proof using Type.
  unfold publish_layout. case_decide; [intros [= <- <- <- <-]; apply rows_from_refl|].
  destruct (mapM _ (pb_rows _)) as [target|]; [|intros [= <- <- <- <-]; apply rows_from_refl].
  destruct (mutation_limits s) as [batch max_ops]. destruct (commit_plan _ _ _ _ _) as [[[s1 p1] m] r1].
  destruct (mapM _ (vw_unfiltered v)) as [unfiltered|] eqn:Hu; intros [= <- <- <- <-]; [by eapply laid_out_from|apply rows_from_refl].
Qed.
Lemma click_column_rows s v action s' v' n r : click_column s v action = (s', v', n, r) →
  rows_from (vw_unfiltered v) (vw_unfiltered v').
Proof using Type.
  unfold click_column. destruct (column_action_apply _ _); [apply publish_layout_rows|]. intros [= <- <- <- <-]. apply rows_from_refl.
Qed.
Context `{FilterQueries}.
Lemma stage_filter_rows s v f query s' v' f' r : stage_filter s v f query = (s', v', f', r) → vw_unfiltered v' = vw_unfiltered v.
Proof using Type.
  unfold stage_filter. case_bool_decide; [by intros [= <- <- <- <-]|].
  destruct (commit_plan _ _ _ _ _) as [[[s1 p1] m] r1]. by intros [= <- <- <- <-].
Qed.
Lemma commit_filter_rows s v f summarize generation s' v' f' r : commit_filter s v f summarize generation = (s', v', f', r) →
  vw_unfiltered v' = vw_unfiltered v.
Proof using Type.
  unfold commit_filter. destruct (_ <? _)%N; [by intros [= <- <- <- <-]|].
  destruct (pending_filter f) as [p|]; [|by intros [= <- <- <- <-]]. destruct (_ =? _)%N; [|by intros [= <- <- <- <-]].
  unfold commit_query. destruct (project_visible_rows _ _ _) as [[target matched] truncated].
  destruct (publish _ _ _ _ _) as [[[s1 p1] m] r1]. by intros [= <- <- <- <-].
Qed.

Lemma apply_scan_ok s v ids matches head snapshot s' v' ids' n r : view_ok s v → view_ids ids (vw_unfiltered v) →
  (∀ r, Forall head_op (head r)) → apply_scan s v ids matches head snapshot = (s', v', ids', n, r) →
  op_result s s' v' n r ∧ view_ids ids' (vw_unfiltered v') ∧ size (ii_assigned ids') ≤ length (vw_unfiltered v') ∧
  same_identity (vw_unfiltered v) (vw_unfiltered v').
Proof using Type.
  intros Hv Hids Hhead Heq. unfold apply_scan in Heq.
  destruct (project ids snapshot (pb_columns (vw_published v))) as [ids1 r1] eqn:Hp.
  destruct (project_spec _ _ _ _ _ (vi_wf _ _ Hids) Hp) as (Hr & Hg & _).
  assert (view_ids ids1 (vw_unfiltered v)) as Hids1.
  { split; [apply Hg|]. intros row Hin. apply (gr_kept _ _ _ Hg). by apply Hids. }
  assert (NoDup (ids_of (scanned_rows r1)) ∧ cell_rows (scanned_rows r1) ∧
    ∀ row, row ∈ scanned_rows r1 → ii_assigned ids1 !! row_key row = Some (row_item_id row)) as (Hnd & Hc & Hrows).
  { destruct r1 as [rows|[]| |]; cbn; [by destruct Hr as (_ & _ & ? & ? & _ & ?)|split_and!; [constructor|constructor|by intros ? ?%elem_of_nil]..]. }
  destruct (apply_snapshot s v matches (head r1) (scanned_rows r1) _) as [[[s1 v1] m] outcome] eqn:Hsnap.
  assert ((s1, v1, retain_ids ids1 (vw_unfiltered v1), m, outcome) = (s', v', ids', n, r)) as Heq'.
  { destruct r1 as [rows|[]| |]; [exact Heq|exact Heq|exact Heq|destruct Hr|destruct Hr]. }
  injection Heq' as <- <- <- <- <-.
  pose proof (apply_snapshot_ok _ _ _ _ _ _ _ _ _ _ Hv (Hhead r1) Hnd Hc Hsnap) as Hop.
  assert (∀ row, row ∈ vw_unfiltered v1 → ii_assigned ids1 !! row_key row = Some (row_item_id row)) as Hknown.
  { intros row Hin. destruct (apply_snapshot_rows _ _ _ _ _ _ _ _ _ _ Hsnap) as [Hu|Hu]; rewrite Hu in Hin; [by apply Hids1|].
    apply apply_target_in in Hin as [?|?]; [auto|by apply Hids1|apply Hv|done]. }
  split; [exact Hop|]. split; [|split; [apply retain_ids_size|by eapply view_ids_same]].
  apply view_ids_retain. split; [apply Hids1|exact Hknown].
Qed.
End views.

(** ** A scan that lost sight of the source *)

Definition restored (host boot : string) (namespace : N) (key : ProcessKey) : ProcessKey :=
  mkKey (pk_source key) (Known host) (Known boot) (Known namespace) (pk_pid key) (pk_creation key).
(** The scan read each global component, or read it or lost it. *)
Definition globals_known (host boot : string) (namespace : N) (record : ProcessRecord) : Prop :=
  pk_host (pr_key record) = Known host ∧ pk_boot (pr_key record) = Known boot ∧ pk_pid_namespace (pr_key record) = Known namespace.
Definition read_or_lost {A} (value : A) (observed : Observed A) : Prop := observed = Known value ∨ ∃ reason, observed = Missing reason.
Definition globals_lost (host boot : string) (namespace : N) (record : ProcessRecord) : Prop :=
  read_or_lost host (pk_host (pr_key record)) ∧ read_or_lost boot (pk_boot (pr_key record)) ∧
  read_or_lost namespace (pk_pid_namespace (pr_key record)).
(** Two records of one process instance of one source. *)
Definition same_process (a b : ProcessRecord) : Prop :=
  pk_source (pr_key a) = pk_source (pr_key b) ∧ pk_pid (pr_key a) = pk_pid (pr_key b) ∧ pk_creation (pr_key a) = pk_creation (pr_key b).

Lemma anchor_lost host boot namespace record : globals_lost host boot namespace record →
  anchor (mkIdentity (Some host) (Some boot) (Some namespace)) (pr_key record) =
    (mkIdentity (Some host) (Some boot) (Some namespace), restored host boot namespace (pr_key record)).
Proof.
  intros (Hh & Hb & Hn). unfold anchor, anchor_component, restored. cbn [si_host si_boot si_pid_namespace].
  destruct Hh as [->|[r ->]], Hb as [->|[r' ->]], Hn as [->|[r'' ->]]; reflexivity.
Qed.
Lemma anchor_all_lost host boot namespace records : Forall (globals_lost host boot namespace) records →
  anchor_all (mkIdentity (Some host) (Some boot) (Some namespace)) records =
    (mkIdentity (Some host) (Some boot) (Some namespace), (λ record, restored host boot namespace (pr_key record)) <$> records).
Proof. induction 1 as [|record records Hr _ IH]; cbn [anchor_all]; [done|]. by rewrite (anchor_lost _ _ _ _ Hr), IH. Qed.
Lemma anchor_all_known identity host boot namespace records : records ≠ [] → Forall (globals_known host boot namespace) records →
  anchor_all identity records =
    (mkIdentity (Some host) (Some boot) (Some namespace), (λ record, restored host boot namespace (pr_key record)) <$> records).
Proof.
  intros Hne Hall. destruct Hall as [|record records Hr Hall]; [done|]. cbn [anchor_all].
  assert (anchor identity (pr_key record) =
    (mkIdentity (Some host) (Some boot) (Some namespace), restored host boot namespace (pr_key record))) as ->.
  { destruct Hr as (Hh & Hb & Hn). unfold anchor, restored. by rewrite Hh, Hb, Hn. }
  rewrite anchor_all_lost; [done|]. eapply Forall_impl; [exact Hall|].
  intros r (H1 & H2 & H3). unfold globals_lost. rewrite H1, H2, H3. split_and!; by left.
Qed.
Lemma restored_same host boot namespace a b :
  restored host boot namespace (pr_key a) = restored host boot namespace (pr_key b) ↔ same_process a b.
Proof. unfold restored, same_process. split; [by intros [= -> -> ->]|by intros (-> & -> & ->)]. Qed.

(** ** The life of an allocator *)

(** [given] are the keys and ids of all the rows projected so far. *)
Definition given_by (r : result ProjectError (list Row)) : list (ProcessKey * ItemId) :=
  (λ row, (row_key row, row_item_id row)) <$> scanned_rows r.
Inductive ids_run : list (ProcessKey * ItemId) → SessionItemIds → Prop :=
| ids_start : ids_run [] SessionItemIds_default
| ids_project given ids snapshot layout ids' r : ids_run given ids → project ids snapshot layout = (ids', r) →
    ids_run (given ++ given_by r) ids'
| ids_retain given ids published : ids_run given ids → ids_run given (retain_ids ids published).

Record given_ok (given : list (ProcessKey * ItemId)) (ids : SessionItemIds) : Prop := {
  go_wf : ids_wf ids;
  go_last : ∀ key id, (key, id) ∈ given → (ItemId_get id ≤ ii_last ids)%N;
  go_once : ∀ key1 key2 id, (key1, id) ∈ given → (key2, id) ∈ given → key1 = key2;
  go_assigned : ∀ key1 key2 id, (key1, id) ∈ given → ii_assigned ids !! key2 = Some id → key1 = key2;
}.
Lemma given_ok_project given ids snapshot layout ids' r : given_ok given ids → project ids snapshot layout = (ids', r) →
  given_ok (given ++ given_by r) ids'.
Proof.
  intros [Hw Hl Ho Ha] Hp. destruct (project_spec _ _ _ _ _ Hw Hp) as (Hr & [Gw Gl Gk Gn _] & _). cbn [ii_assigned ii_last] in *.
  assert (∀ key id, (key, id) ∈ given_by r → ii_assigned ids' !! key = Some id) as Hgiven.
  { intros key id (row & [= -> ->] & Hin)%list_elem_of_fmap. destruct r as [rows|e| |]; cbn in Hin; [|by apply elem_of_nil in Hin..].
    destruct Hr as (_ & _ & _ & _ & _ & Hass). auto. }
  assert (∀ key1 key2 id, (key1, id) ∈ given → ii_assigned ids' !! key2 = Some id → key1 = key2) as Hold.
  { intros key1 key2 id H1 H2. destruct (Gn key2 id H2) as [?|(_ & _ & Hlt)]; [by eapply Ha|]. specialize (Hl _ _ H1). lia. }
  split; [done| | |].
  - intros key id [Hin|Hin]%elem_of_app; [specialize (Hl _ _ Hin); lia|]. apply Hgiven in Hin. by apply (iw_range _ Gw) in Hin as [_ ?].
  - intros key1 key2 id [H1|H1]%elem_of_app [H2|H2]%elem_of_app; [by eapply Ho|..].
    + eapply Hold; [exact H1|by apply Hgiven].
    + symmetry. eapply Hold; [exact H2|by apply Hgiven].
    + apply Hgiven in H1, H2. by eapply (iw_inj _ Gw).
  - intros key1 key2 id [H1|H1]%elem_of_app H2; [by eapply Hold|]. apply Hgiven in H1. by eapply (iw_inj _ Gw).
Qed.
Lemma ids_run_ok given ids : ids_run given ids → given_ok given ids.
Proof.
  induction 1 as [|given ids snapshot layout ids' r _ IH Hp|given ids published _ [Hw Hl Ho Ha]].
  - split; [apply ids_default_wf|set_solver..].
  - by eapply given_ok_project.
  - split; [by apply retain_ids_wf| |done|].
    + intros key id Hin. unfold retain_ids. destruct (_ =? _)%nat; by apply (Hl key).
    + intros key1 key2 id H1 H2%retain_ids_sub. by eapply Ha.
Qed.
