(* ===== verification/SrtopDemo.v ===== *)
(** * A session that shows processes

    A small session with the view's nodes and model, and a view of it, that the
    witnesses of srtop's theorems evaluate on. *)

From S2P Require Import Prelude.
From S2P Require Import Values.
From S2P Require Import Limits.
From S2P Require Import Models.
From S2P Require Import ModelFacts.
From S2P Require Import Store.
From S2P Require Import StoreInv.
From S2P Require Import Transaction.
From S2P Require Import TransactionFacts.
From S2P Require Import Wire.
From S2P Require Import Journal.
From S2P Require Import Dedupe.
From S2P Require Import Event.
From S2P Require Import TextTracker.
From S2P Require Import Resources.
From S2P Require Import Session.
From S2P Require Import SessionFacts.
From S2P Require Import Demo.
From S2P Require Import SrtopData.
From S2P Require Import SrtopMetric.
From S2P Require Import SrtopCatalogue.
From S2P Require Import SrtopSort.
From S2P Require Import SrtopTheorems.
From S2P Require Import SrtopRefresh.
From S2P Require Import SrtopCommit.
From S2P Require Import SrtopViewOps.
From S2P Require Import SrtopRows.
From S2P Require Import SrtopCommitFacts.
From S2P Require Import SrtopInvariant.
From S2P Require Import SrtopIds.

#[export] Existing Instance standard_sdk.

(** A query is a name, which a row matches if it has it. *)
#[export] Instance demo_queries : FilterQueries := {|
  FilterQuery := string; query_parse := id; query_raw := id; query_is_empty q := bool_decide (q = "");
  matches_row q row := bool_decide (q = "" ∨ dn_text (row_display_name row) = q);
  format_pending_status _ _ _ _ _ := "pending"; format_committed_status _ _ _ _ _ := "committed" |}.

Definition table_type : TypeRef := TypeRef_standard 16.
Definition srtop_nodes : list N := [4; 5; 21; 22; 23; 24; 26; 27; 29; 30; 31; 32; 33; 34; 35; 36; 37; 38; 39; 40; 41]%N.
Definition srtop_ops : list Operation :=
  [CreateModel MODEL list_type 0; ModelInsert MODEL 0 (to_model_item <$> demo_rows); CreateNode (nid 1) window_type None None []] ++
  ((λ n, CreateNode (nid n) text_type (Some (nid 1)) None []) <$> srtop_nodes).
Definition srtop_store : SemanticStore := ok_store (apply_ops 0 (with_limits demo_limits) srtop_ops).
Lemma srtop_store_ok : apply_ops 0 (with_limits demo_limits) srtop_ops = Ok srtop_store.
Proof. vm_compute. reflexivity. Qed.

Definition srtop_session : SessionInner :=
  mkSession Attached 1 srtop_store (Journal_new 2) Dedupe_default Tracker_default [].
Definition srtop_view : ProcessView := mkView (mkPublished demo_rows "" ∅ None "" PROCESS_LIST) demo_rows 100.
Definition srtop_filter : FilterState := mkFilter _ "" 0 0 None.

Lemma demo_rows_cells : cell_rows demo_rows.
Proof. repeat constructor. Qed.

Lemma demo_rows_nodup : NoDup (ids_of demo_rows).
Proof. decide_now. Qed.

Lemma mirrors_empty id t : mirrors (Model_new id t 0) [].
Proof. split; [apply (represents_new id t []); constructor|]. by intros i row Hi. Qed.

Lemma srtop_mirrors : store_mirrors srtop_store demo_rows.
Proof.
  destruct (insert_items (Model_new MODEL list_type 0) 0 (to_model_item <$> demo_rows)) as [m| | |] eqn:Hins;
    [|vm_compute in Hins; discriminate..].
  exists m. split; [|split; [|vm_compute; discriminate]].
  - assert (models srtop_store !! MODEL = match insert_items (Model_new MODEL list_type 0) 0 (to_model_item <$> demo_rows) with Ok m => Some m | _ => None end)
      as -> by (vm_compute; reflexivity). by rewrite Hins.
  - exact (insert_mirrors _ [] 0 demo_rows m (mirrors_empty MODEL list_type) ltac:(vm_compute; discriminate) Hins).
Qed.

Lemma srtop_session_wf : session_wf srtop_session.
Proof.
  split; [|apply (with_initial_revision_wf 2 0)|vm_compute; reflexivity].
  apply (apply_ops_wf 0 (with_limits demo_limits) srtop_ops); [apply store_wf_empty|apply srtop_store_ok].
Qed.

Lemma srtop_view_ok : view_ok srtop_session srtop_view.
Proof.
  split.
  - exact srtop_session_wf.
  - vm_compute. discriminate.
  - exact srtop_mirrors.
  - exact demo_rows_cells.
  - split; [discriminate|]. decide_now.
  - exact demo_rows_nodup.
  - exact demo_rows_cells.
Qed.

(** The next scan: one process ended, one started, one grew. *)
Definition demo_scan : list Row :=
  [demo_row 3 (demo_record 9 3 "cat" (Known 4096%N)); demo_row 1 (demo_record 7 1 "init" (Known 9%N));
   demo_row 4 (demo_record 10 4 "vi" (Known 100%N))].
Lemma demo_scan_cells : cell_rows demo_scan.
Proof. repeat constructor. Qed.
Lemma demo_scan_nodup : NoDup (ids_of demo_scan).
Proof. decide_now. Qed.

(** The same scans as snapshots, and the allocator after the first. *)
Definition snapshot_of (records : list ProcessRecord) : ProcessSnapshot := mkSnapshot "fake" records 0 ledger_none Complete.
Definition demo_snapshot0 : ProcessSnapshot := snapshot_of
  [demo_record 7 1 "init" (Known 9%N); demo_record 8 2 "sh" (Missing ReasonDenied); demo_record 9 3 "cat" (Known 2048%N)].
Definition demo_snapshot : ProcessSnapshot := snapshot_of
  [demo_record 9 3 "cat" (Known 4096%N); demo_record 7 1 "init" (Known 9%N); demo_record 10 4 "vi" (Known 100%N)].
Definition srtop_ids : SessionItemIds := (project SessionItemIds_default demo_snapshot0 PROCESS_LIST).1.
Lemma srtop_ids_rows : (project SessionItemIds_default demo_snapshot0 PROCESS_LIST).2 = Ok demo_rows.
Proof. vm_compute. reflexivity. Qed.
Lemma srtop_ids_ok : view_ids srtop_ids (vw_unfiltered srtop_view).
Proof.
  change (vw_unfiltered srtop_view) with demo_rows. pose proof srtop_ids_rows as Hrows.
  unfold srtop_ids. revert Hrows. generalize demo_snapshot0, demo_rows. intros snapshot rows Hrows.
  destruct (project SessionItemIds_default snapshot PROCESS_LIST) as [ids r] eqn:Hp. cbn [fst snd] in *. subst r.
  by apply (project_view_ids _ _ _ _ _ ids_default_wf Hp).
Qed.

Definition demo_head : list Planned := [Planned_new (EffStatus "3 processes")].
Lemma demo_head_ok : Forall head_op demo_head.
Proof. apply Forall_singleton. eexists. split_and!; [done|done|apply text_sized]. Qed.

Definition srtop_refreshed : SessionInner * ProcessView * nat * result SessionError unit :=
  apply_snapshot srtop_session srtop_view (λ _, true) demo_head demo_scan (Skipped ∅).
Lemma surjective_4 {A B C D} (x : A * B * C * D) : x = (x.1.1.1, x.1.1.2, x.1.2, x.2).
Proof. by destruct x as [[[]]]. Qed.
Lemma refreshed_outcome : srtop_refreshed = (srtop_refreshed.1.1.1, srtop_refreshed.1.1.2, 1, Ok tt).
Proof.
  assert ((srtop_refreshed.1.2, srtop_refreshed.2) = (1, Ok tt)) as Heq by (vm_compute; reflexivity).
  revert Heq. generalize srtop_refreshed. intros [[[s v] n] r]. cbn. by intros [= -> ->].
Qed.
