(* ===== verification/SrtopRefreshTheorems.v ===== *)
(** * Theorems: what srtop publishes

    A view and the session it publishes through hold the same rows after every
    commit; a refresh publishes its target; moves are few, ordered and never lose a
    row on the way; and what is published is bounded. *)

From S2P Require Import Prelude.
From S2P Require Import Values.
From S2P Require Import Limits.
From S2P Require Import Models.
From S2P Require Import ModelFacts.
From S2P Require Import Store.
From S2P Require Import Transaction.
From S2P Require Import Wire.
From S2P Require Import Journal.
From S2P Require Import Event.
From S2P Require Import Resources.
From S2P Require Import Session.
From S2P Require Import SessionFacts.
From S2P Require Import Replication.
From S2P Require Import HandshakeFacts.
From S2P Require Import Demo.
From S2P Require Import SrtopData.
From S2P Require Import SrtopMetric.
From S2P Require Import SrtopCatalogue.
From S2P Require Import SrtopSort.
From S2P Require Import SrtopTheorems.
From S2P Require Import SrtopRefresh.
From S2P Require Import SrtopCommit.
From S2P Require Import SrtopViewOps.
From S2P Require Import SrtopRows.
From S2P Require Import SrtopDiffFacts.
From S2P Require Import SrtopMoveFacts.
From S2P Require Import SrtopPlan.
From S2P Require Import SrtopView.
From S2P Require Import SrtopCommitFacts.
From S2P Require Import SrtopInvariant.
From S2P Require Import SrtopOpsFacts.
From S2P Require Import SrtopIds.
From S2P Require Import SrtopDemo.

Section steps.
Context `{Registry, EventRegistry, PropertyIter, Diagnostics, Digest, SdkProperties, FilterQueries}.

(** ** The operations of a view *)

(** One operation of a view, whatever its commits come to, or a run of the session
    that leaves the view's model alone, with an application that conducts itself
    as [q] says. *)
Inductive view_step (q : conduct) : SessionInner * ProcessView * FilterState * SessionItemIds →
    SessionInner * ProcessView * FilterState * SessionItemIds → Prop :=
| step_sort s v f ids matches field s' v' n r :
    click_sort s v matches field = (s', v', n, r) → view_step q (s, v, f, ids) (s', v', f, retain_ids ids (vw_unfiltered v'))
| step_scan s v f ids matches head snapshot s' v' ids' n r :
    (∀ r, Forall head_op (head r)) → apply_scan s v ids matches head snapshot = (s', v', ids', n, r) →
    view_step q (s, v, f, ids) (s', v', f, ids')
| step_column s v f ids action s' v' n r :
    click_column s v action = (s', v', n, r) → view_step q (s, v, f, ids) (s', v', f, retain_ids ids (vw_unfiltered v'))
| step_stage s v f ids query s' v' f' r :
    (filter_generation f < u64_max)%N → stage_filter s v f query = (s', v', f', r) → view_step q (s, v, f, ids) (s', v', f', ids)
| step_filter s v f ids summarize generation s' v' f' r :
    (∀ n, summary_ok (summarize n)) → commit_filter s v f summarize generation = (s', v', f', r) →
    view_step q (s, v, f, ids) (s', v', f', retain_ids ids (vw_unfiltered v'))
| step_elsewhere s v f ids txs s' :
    session_run q s txs s' → models (store s') !! MODEL = models (store s) !! MODEL →
    view_step q (s, v, f, ids) (s', v, f, ids).

Definition steps_ok (st : SessionInner * ProcessView * FilterState * SessionItemIds) : Prop :=
  view_ok st.1.1.1 st.1.1.2 ∧ filter_ok st.1.2 ∧ view_ids st.2 (vw_unfiltered st.1.1.2).

Lemma click_column_ok s v action s' v' n r : view_ok s v → click_column s v action = (s', v', n, r) → op_result s s' v' n r.
Proof using Type.
  intros Hv. unfold click_column. destruct (column_action_spec action _ (vo_layout _ _ Hv)) as (layout & -> & Hl & _).
  intros Heq. by eapply publish_layout_ok.
Qed.

Lemma view_ids_kept ids rows rows' : view_ids ids rows → rows_from rows rows' → view_ids (retain_ids ids rows') rows'.
Proof using Type. intros Hi Hf. apply view_ids_retain. by eapply view_ids_from. Qed.

Lemma view_step_ok q st st' : q ≠ AnyConduct → steps_ok st → view_step q st st' →
  steps_ok st' ∧ ∃ txs, session_run q st.1.1.1 txs st'.1.1.1.
Proof using Type.
  intros Hq (Hv & Hf & Hi) Hstep.
  enough (steps_ok st' ∧ ∃ txs, session_run q st.1.1.1 txs st'.1.1.1 ∨ session_run Careful st.1.1.1 txs st'.1.1.1)
    as (Hok & txs & Hrun).
  { split; [done|]. exists txs. destruct Hrun as [Hrun|Hrun]; [done|].
    eapply session_run_weaken; [|exact Hrun]. destruct q; cbn; lia. } destruct Hstep as [s v f ids matches field s' v' n r Heq|s v f ids matches head snapshot s' v' ids' n r Hh Heq|
    s v f ids action s' v' n r Heq|s v f ids query s' v' f' r Hmax Heq|s v f ids summarize generation s' v' f' r Hsum Heq|s v f ids txs s' Hrun Hm];
    cbn [fst snd] in *.
  - pose proof (view_ids_kept _ _ _ Hi (set_sort_rows _ _ _ _ _ _ _ _ Heq)) as Hi'.
    apply set_sort_ok in Heq as [Hv' _ (txs & Hrun & _)]; [|done]. split; [by split|exists txs; by right].
  - apply apply_scan_ok in Heq as ([Hv' _ (txs & Hrun & _)] & Hi' & _); [|done..]. split; [by split|exists txs; by right].
  - pose proof (view_ids_kept _ _ _ Hi (click_column_rows _ _ _ _ _ _ _ Heq)) as Hi'.
    apply click_column_ok in Heq as [Hv' _ (txs & Hrun & _)]; [|done]. split; [by split|exists txs; by right].
  - pose proof (stage_filter_rows _ _ _ _ _ _ _ _ Heq) as Hrows.
    pose proof (stage_filter_state _ _ _ _ _ _ _ _ Hf Hmax Heq) as (Hf' & _).
    apply stage_filter_ok in Heq as (Hv' & _ & txs & Hrun); [|done]. split; [|exists txs; by right]. split_and!; [done..|]. cbn. by rewrite Hrows.
  - pose proof (commit_filter_rows _ _ _ _ _ _ _ _ _ Heq) as Hrows.
    pose proof (commit_filter_state _ _ _ _ _ _ _ _ _ Hf Heq) as (Hf' & _).
    apply commit_filter_ok in Heq as (Hv' & _ & txs & Hrun); [|done..]. split; [|exists txs; by right]. split_and!; [done..|]. cbn.
    apply (view_ids_kept _ (vw_unfiltered v)); [done|]. rewrite Hrows. apply rows_from_refl.
  - split; [|exists txs; by left]. split_and!; [|done..]. destruct Hv.
    destruct (session_run_ok _ _ _ _ Hq vo_session Hrun) as [Hwf _ _ Hl]. split; cbn [fst snd] in *; try done.
    + by rewrite Hl.
    + destruct vo_mirrors as (m & Hmod & ?). exists m. by rewrite Hm.
Qed.
Lemma view_steps_ok q st st' : q ≠ AnyConduct → steps_ok st → rtc (view_step q) st st' →
  steps_ok st' ∧ ∃ txs, session_run q st.1.1.1 txs st'.1.1.1.
Proof using Type.
  intros Hq Hok Hrtc. induction Hrtc as [st|st1 st2 st3 Hstep _ IH]; [split; [done|exists []; apply run_nil]|].
  destruct (view_step_ok _ _ _ Hq Hok Hstep) as [Hok2 (txs1 & Hr1)]. destruct (IH Hok2) as [Hok3 (txs2 & Hr2)].
  split; [done|]. exists (txs1 ++ txs2). by eapply session_run_trans.
Qed.
End steps.

(** C5: a view tells the truth: whatever clicks on columns and sort buttons,
    filters typed and scans applied a view goes through, interleaved with anything
    the session does elsewhere that leaves the view's model alone (closures that
    ignore the errors of their operations included; but no text edit is decided
    at the last revision), and whether their transactions commit or fail on the
    way, the rows the view has recorded are, item for item and in order, the
    items of the session's model; the filter's generations stay ordered; and every
    row the view knows has the item id its process instance holds. Where what the
    session does elsewhere is careful too — its closures return [Ok] only where
    every call they made did and record only operations that the wire carries
    unchanged — a replica that follows the transactions the session published
    holds the same rows. *)
Theorem the_view_is_what_the_model_holds `{Registry, EventRegistry, PropertyIter, Diagnostics, Digest, SdkProperties, FilterQueries}
    (s : SessionInner) (v : ProcessView) (f : FilterState) (ids : SessionItemIds)
    (s' : SessionInner) (v' : ProcessView) (f' : FilterState) (ids' : SessionItemIds) :
  view_ok s v → filter_ok f → view_ids ids (vw_unfiltered v) →
  (rtc (view_step InRange) (s, v, f, ids) (s', v', f', ids') →
     view_ok s' v' ∧ filter_ok f' ∧ view_ids ids' (vw_unfiltered v')) ∧
  (rtc (view_step Careful) (s, v, f, ids) (s', v', f', ids') →
     ∃ txs st, session_run Careful s txs s' ∧ follow (store s) txs = Some st ∧
       store_mirrors st (pb_rows (vw_published v'))).
Proof.
  intros Hv Hf Hi. assert (steps_ok (s, v, f, ids)) as Hok by done. split; intros Hrtc.
  - by destruct (view_steps_ok InRange _ _ ltac:(done) Hok Hrtc) as [Hok' _].
  - destruct (view_steps_ok Careful _ _ ltac:(done) Hok Hrtc) as [(Hv' & _) (txs & Hrun)]. cbn [fst] in Hrun.
    destruct (session_run_follow _ _ _ (vo_session _ _ Hv) Hrun) as (_ & Hfollow).
    exists txs, (store s'). split; [done|]. split; [done|]. apply Hv'.
Qed.

(** A scan of the view's processes: one ended, one started, one grew. *)
Definition srtop_scanned : SessionInner * ProcessView * SessionItemIds * nat * result SessionError unit :=
  apply_scan srtop_session srtop_view srtop_ids (λ _, true) (λ _, demo_head) demo_snapshot.
Lemma surjective_5 {A B C D E} (x : A * B * C * D * E) : x = (x.1.1.1.1, x.1.1.1.2, x.1.1.2, x.1.2, x.2).
Proof. by destruct x as [[[[]]]]. Qed.

Lemma srtop_scan_step q : rtc (view_step q) (srtop_session, srtop_view, srtop_filter, srtop_ids)
  (srtop_scanned.1.1.1.1, srtop_scanned.1.1.1.2, srtop_filter, srtop_scanned.1.1.2).
Proof.
  apply rtc_once. apply (step_scan _ srtop_session srtop_view srtop_filter srtop_ids (λ _, true) (λ _, demo_head) demo_snapshot _ _ _
    srtop_scanned.1.2 srtop_scanned.2); [intros _; exact demo_head_ok|]. exact (surjective_5 srtop_scanned).
Qed.
Lemma srtop_filter_ok : filter_ok srtop_filter.
Proof. split; [vm_compute; discriminate|discriminate]. Qed.

Lemma the_view_is_what_the_model_holds_witness :
  view_ok srtop_scanned.1.1.1.1 srtop_scanned.1.1.1.2 ∧
  ids_of (pb_rows (vw_published srtop_scanned.1.1.1.2)) = [iid 3; iid 1; iid 4] ∧
  ∃ txs st, follow (store srtop_session) txs = Some st ∧ store_mirrors st (pb_rows (vw_published srtop_scanned.1.1.1.2)).
Proof.
  destruct (the_view_is_what_the_model_holds srtop_session srtop_view srtop_filter srtop_ids
    srtop_scanned.1.1.1.1 srtop_scanned.1.1.1.2 srtop_filter srtop_scanned.1.1.2 srtop_view_ok srtop_filter_ok srtop_ids_ok) as [Hok Hfollow].
  split; [exact (proj1 (Hok (srtop_scan_step _)))|]. split; [vm_compute; reflexivity|].
  destruct (Hfollow (srtop_scan_step _)) as (txs & st & _ & Hf & Hm). exact (ex_intro _ txs (ex_intro _ st (conj Hf Hm))).
Defined.

(** C11: a refresh that succeeds publishes its target: the session's model then
    holds exactly the rows of the target, each at its place, and the view has
    recorded them. *)
Theorem refresh_publishes_the_target `{Registry, EventRegistry, PropertyIter, Diagnostics, Digest, SdkProperties}
    (s : SessionInner) (v : ProcessView) (matches : Row → bool) (head : list Planned) (confirmed : list Row) (retention : Retention)
    (s' : SessionInner) (v' : ProcessView) (n : nat) :
  view_ok s v → Forall head_op head → NoDup (ids_of confirmed) → cell_rows confirmed →
  bool_decide (confirmed = []) && is_global retention = false →
  apply_snapshot s v matches head confirmed retention = (s', v', n, Ok tt) →
  let target := (project_visible_rows matches (apply_target v confirmed retention) (vw_limit v)).1.1 in
  to_model_item <$> pb_rows (vw_published v') = to_model_item <$> target ∧
  ∃ m, models (store s') !! MODEL = Some m ∧ item_count m = len target ∧
    ∀ i it, items m !! N.of_nat i = Some it ↔ ∃ row, target !! i = Some row ∧ it = to_model_item row.
Proof.
  intros Hv Hhead Hnd Hc Hrows Heq target. unfold apply_snapshot in Heq. rewrite Hrows in Heq.
  destruct (publish _ _ _ _ _) as [[[s1 p1] n1] r1] eqn:Hp. injection Heq as <- <- <- ->.
  destruct (apply_target_ok v confirmed retention) as [Hund Huc]; [apply Hv|apply Hv|done|done|].
  destruct (project_ok matches _ (vw_limit v) Hund Huc) as [Htnd Htc]. fold target in Hp, Htnd, Htc.
  eapply publish_view in Hp as [[Hv1 _ _] Hitems]; [|exact Hv|exact Hhead|exact Htnd|exact Htc|exact Hund|exact Huc].
  specialize (Hitems eq_refl eq_refl). split; [exact Hitems|].
  destruct (store_mirrors_items _ _ _ Hitems (vo_mirrors _ _ Hv1)) as (m & Hm & Hmir & _). exists m. split; [exact Hm|].
  split; [by apply mirrors_count|]. intros i it. rewrite (mirrors_slot _ _ Hmir). by rewrite Nat2N.id.
Qed.

Lemma refresh_publishes_the_target_witness :
  to_model_item <$> pb_rows (vw_published srtop_refreshed.1.1.2) = to_model_item <$> demo_scan.
Proof.
  destruct (refresh_publishes_the_target srtop_session srtop_view (λ _, true) demo_head demo_scan (Skipped ∅)
    srtop_refreshed.1.1.1 srtop_refreshed.1.1.2 1 srtop_view_ok demo_head_ok demo_scan_nodup demo_scan_cells eq_refl) as [Hitems _].
  - apply refreshed_outcome.
  - rewrite Hitems. vm_compute. reflexivity.
Defined.

(** ** Moves *)

(** C12: no row is ever missing on the way: while a plan commits, transaction by
    transaction, and wherever it stops or fails, every row that is both published
    and in the target is in the session's model after each transaction, whatever
    its place changes to.  [fuel] transactions have committed, or the commit ended
    before; the session allows two operations in a transaction at least. *)
Theorem no_revision_lacks_a_row `{Registry, EventRegistry, PropertyIter, Diagnostics, Digest, SdkProperties}
    (fuel : nat) (s : SessionInner) (v : ProcessView) (head : list Planned) (target : list Row) (with_diff : bool)
    (plan : list Planned) (s' : SessionInner) (p' : Published) (n : nat) (r : result SessionError unit) :
  view_ok s v → Forall head_op head → NoDup (ids_of target) → cell_rows target → 2 ≤ (mutation_limits s).2 →
  row_plan s (pb_rows (vw_published v)) target with_diff = Ok plan →
  commit fuel s (head ++ plan) (mutation_limits s).2 MAX_TRANSACTION_PAYLOAD_BYTES (vw_published v) = (s', p', n, r) →
  ∀ id, id ∈ ids_of (pb_rows (vw_published v)) → id ∈ ids_of target →
  ∃ m, models (store s') !! MODEL = Some m ∧ contains_item m id = true.
Proof.
  intros Hv Hhead Htnd Htc Htwo Hplan Heq id Hid Ht.
  destruct (row_plan_correct s (pb_rows (vw_published v)) target with_diff (view_nodup _ _ Hv) Htnd) as (plan' & Hplan' & Hspec).
  assert (plan' = plan) as -> by congruence.
  pose proof (publication_sound s v head target with_diff plan Hhead Htc Hspec) as Hsound.
  destruct Hv. apply commit_sound in Heq as ([(k & Hk & Hcut & -> & _) (m & Hm & Hmir & _) _ _ _] & _); try done;
    [|destruct (mutation_limits_positive s); lia].
  exists m. split; [done|]. apply (mirrors_contains _ _ Hmir). rewrite record_all_rows.
  destruct (Nat.le_gt_cases k (length head)) as [Hle|Hgt].
  - rewrite take_app_le, head_rows by (done || by apply Forall_take). done.
  - rewrite take_app_ge, rows_after_app, (head_rows head) by (done || lia). apply Hspec; [done| |done|done].
    unfold cut_ok in *. rewrite length_app in Hk, Hcut. destruct Hcut as [?|[?|Hj]]; [lia|right; left; lia|]. right. right.
    rewrite joins_app_r in Hj by lia. by replace (Nat.pred (k - length head)) with (Nat.pred k - length head) by lia.
Qed.

(** The rows of [demo_scan] in another order *)
Definition demo_plan : list Planned :=
  match row_plan srtop_session demo_rows demo_scan true with Ok plan => plan | _ => [] end.
Lemma demo_plan_ok : row_plan srtop_session demo_rows demo_scan true = Ok demo_plan.
Proof. vm_compute. reflexivity. Qed.
Definition demo_committed : SessionInner * Published * nat * result SessionError unit :=
  commit 1 srtop_session (demo_head ++ demo_plan) (mutation_limits srtop_session).2 MAX_TRANSACTION_PAYLOAD_BYTES (vw_published srtop_view).

Lemma no_revision_lacks_a_row_witness :
  ∃ m, models (store demo_committed.1.1.1) !! MODEL = Some m ∧ contains_item m (iid 1) = true.
Proof.
  apply (no_revision_lacks_a_row 1 srtop_session srtop_view demo_head demo_scan true demo_plan
    demo_committed.1.1.1 demo_committed.1.1.2 demo_committed.1.2 demo_committed.2 srtop_view_ok demo_head_ok demo_scan_nodup demo_scan_cells).
  - apply Nat.leb_le. vm_compute. reflexivity.
  - exact demo_plan_ok.
  - exact (surjective_4 demo_committed).
  - decide_now.
  - decide_now.
Defined.

(** C29: a change of order moves as few rows as any could: planning never fails, and
    what it plans leads, by the operations' effects, to the rows published before in
    an order in which those the target shares come as in the target; no operation
    carries more items than a batch or, unless it carries one, more bytes than a
    transaction; and the rows deleted and inserted again are as few as possible:
    leaving a longer sequence of shared rows in place is only possible by giving up
    the target's order. *)
Theorem moves_are_fewest_and_complete `{EventRegistry, SdkProperties} (published target : list Row) (batch max_ops : nat) (max_bytes : N) :
  NoDup (ids_of published) → NoDup (ids_of target) → 1 ≤ batch →
  ∃ rows plan, plan_moves published target batch max_ops max_bytes = Ok (rows, plan) ∧
    rows = rows_after plan published ∧ ids_of rows ≡ₚ ids_of published ∧
    filter (λ id, id ∈ ids_of target) (ids_of rows) = filter (λ id, id ∈ ids_of published) (ids_of target) ∧
    Forall (within_batch batch max_bytes) plan ∧
    (∀ stay, stay `sublist_of` ids_of published → stay `sublist_of` ids_of target →
       length stay + length (deleted_ids plan) ≤ length (shared_rows published target)).
Proof.
  intros Hpub Htgt Hbatch. destruct (plan_moves_spec published target batch max_ops max_bytes Hpub Htgt Hbatch)
    as (kept & rows & plan & Heq & Hm & Hmin).
  exists rows, plan. split; [exact Heq|]. split; [by rewrite (ms_rows _ _ _ _ _ _ _ _ Hm)|]. split_and!; try apply Hm. exact Hmin.
Qed.

Lemma moves_are_fewest_and_complete_witness :
  match plan_moves demo_rows (reverse demo_rows) 10 10 1000 with
  | Ok (_, plan) => 1 + length (deleted_ids plan) ≤ 3
  | _ => False
  end.
Proof.
  destruct (moves_are_fewest_and_complete demo_rows (reverse demo_rows) 10 10 1000) as (rows & plan & Heq & _ & _ & _ & _ & Hmin).
  - exact demo_rows_nodup.
  - decide_now.
  - lia.
  - rewrite Heq. apply (Hmin [iid 1]).
    + assert ([iid 1] = filter (λ id, id = iid 1) (ids_of demo_rows)) as -> by (vm_compute; reflexivity). apply sublist_filter.
    + assert ([iid 1] = filter (λ id, id = iid 1) (ids_of (reverse demo_rows))) as -> by (vm_compute; reflexivity). apply sublist_filter.
Defined.

(** A click always asks for another order. *)
Lemma resolve_changes active field : active ≠ Some (resolve active field).
Proof.
  destruct active as [[g d]|]; [|done]. unfold resolve. cbn [so_field so_direction]. case_decide as Hf; intros Hs.
  - assert (d = opposite d) as Hd by congruence. by destruct d.
  - assert (g = field) by congruence. done.
Qed.

(** A sort reorders what is published and nothing else: when a click on a
    column's button succeeds the rows published are those published before, the
    ones among the first rows of the new order come in that order, and the view
    keeps every row it knows. *)
Theorem sorting_only_reorders `{Registry, EventRegistry, PropertyIter, Diagnostics, Digest, SdkProperties}
    (s : SessionInner) (v : ProcessView) (matches : Row → bool) (field : ProcessField) (s' : SessionInner) (v' : ProcessView) (n : nat) :
  view_ok s v → click_sort s v matches field = (s', v', n, Ok tt) →
  let order := resolve (pb_sort (vw_published v)) field in
  let target := (project_visible_rows matches (sort_by (compare order) (vw_unfiltered v)) (vw_limit v)).1.1 in
  ids_of (pb_rows (vw_published v')) ≡ₚ ids_of (pb_rows (vw_published v)) ∧
  filter (λ id, id ∈ ids_of target) (ids_of (pb_rows (vw_published v'))) =
    filter (λ id, id ∈ ids_of (pb_rows (vw_published v))) (ids_of target) ∧
  vw_unfiltered v' ≡ₚ vw_unfiltered v ∧ pb_sort (vw_published v') = Some order.
Proof.
  intros Hv Heq order target. unfold click_sort, set_sort in Heq. fold order in Heq.
  pose proof (resolve_changes (pb_sort (vw_published v)) field : _ ≠ Some order) as Hne.
  rewrite decide_False in Heq by done. fold target in Heq.
  destruct (perm_rows_ok (vw_unfiltered v) (sort_by (compare order) (vw_unfiltered v))) as [Hnd Hc];
    [apply sort_by_perm|apply Hv|apply Hv|].
  destruct (project_ok matches _ (vw_limit v) Hnd Hc) as [Htnd Htc]. fold target in Htnd, Htc.
  destruct (publish_exactly s v (sort_head (pb_sort (vw_published v)) order) target false Hv (sort_head_ok _ _) Htnd Htc)
    as (plan & Hspec & Hpub).
  destruct (publish _ _ _ _ _) as [[[s1 p1] n1] r1]. injection Heq as <- <- <- ->. cbn [vw_published vw_unfiltered].
  specialize (Hpub eq_refl). rewrite Hpub. cbn [pb_rows with_rows]. rewrite refresh_ids, record_all_rows, rows_after_app, (head_rows (sort_head _ order)) by apply sort_head_ok.
  destruct (rp_perm _ _ _ _ _ Hspec eq_refl) as [Hperm Hfilter]. split_and!; [done|done|apply sort_by_perm|].
  cbn [pb_sort with_rows]. rewrite record_all_app, rows_keep_sort; [unfold sort_head; by rewrite record_all_app|].
  eapply Forall_impl; [apply (rp_within _ _ _ _ _ Hspec)|]. intros planned Hw. by eapply within_row_effect.
Qed.

Definition srtop_sorted : SessionInner * ProcessView * nat * result SessionError unit :=
  click_sort srtop_session srtop_view (λ _, true) FieldResident.
Lemma sorted_outcome : srtop_sorted = (srtop_sorted.1.1.1, srtop_sorted.1.1.2, 1, Ok tt).
Proof.
  assert ((srtop_sorted.1.2, srtop_sorted.2) = (1, Ok tt)) as Heq by (vm_compute; reflexivity).
  revert Heq. generalize srtop_sorted. intros [[[s v] n] r]. cbn. by intros [= -> ->].
Qed.

Lemma sorting_only_reorders_witness :
  ids_of (pb_rows (vw_published srtop_sorted.1.1.2)) ≡ₚ ids_of demo_rows ∧
  ids_of (pb_rows (vw_published srtop_sorted.1.1.2)) = [iid 3; iid 1; iid 2].
Proof.
  split; [|vm_compute; reflexivity].
  apply (sorting_only_reorders srtop_session srtop_view (λ _, true) FieldResident
    srtop_sorted.1.1.1 srtop_sorted.1.1.2 1 srtop_view_ok sorted_outcome).
Defined.
