(* ===== verification/SrtopViewTheorems.v ===== *)
(** * Theorems: what a view keeps, shows and may say

    Rows a scan is uncertain of survive it within the ceiling; what is published
    fits a snapshot; a layout is published in place; only the newest filter
    commits; the summary's changes lead to it; and item ids are never reused. *)

From S2P Require Import Prelude.
From S2P Require Import Values.
From S2P Require Import Limits.
From S2P Require Import Models.
From S2P Require Import ModelFacts.
From S2P Require Import Store.
From S2P Require Import Transaction.
From S2P Require Import Wire.
From S2P Require Import Journal.
From S2P Require Import Event.
From S2P Require Import Resources.
From S2P Require Import Session.
From S2P Require Import SessionFacts.
From S2P Require Import Replication.
From S2P Require Import Demo.
From S2P Require Import SrtopData.
From S2P Require Import SrtopMetric.
From S2P Require Import SrtopCatalogue.
From S2P Require Import SrtopSort.
From S2P Require Import SrtopTheorems.
From S2P Require Import SrtopRefresh.
From S2P Require Import SrtopCommit.
From S2P Require Import SrtopViewOps.
From S2P Require Import SrtopRows.
From S2P Require Import SrtopDiffFacts.
From S2P Require Import SrtopMoveFacts.
From S2P Require Import SrtopPlan.
From S2P Require Import SrtopView.
From S2P Require Import SrtopCommitFacts.
From S2P Require Import SrtopInvariant.
From S2P Require Import SrtopOpsFacts.
From S2P Require Import SrtopIds.
From S2P Require Import SrtopDemo.

(** A scan that could not see a process does not end it: the rows a view knows
    after a scan are those the scan confirmed, all of them, and rows it knew before
    that the scan neither confirmed nor proved gone, each once; they are no more
    than the ceiling allows unless the confirmed rows alone are; and while there is
    room none of the uncertain rows is dropped. *)
Theorem uncertain_rows_survive (v : ProcessView) (confirmed : list Row) (retention : Retention) :
  NoDup (ids_of (vw_unfiltered v)) → NoDup (ids_of confirmed) →
  let known := apply_target v confirmed retention in
  NoDup (ids_of known) ∧ (∀ row, row ∈ confirmed → row ∈ known) ∧
  (∀ row, row ∈ known → row ∈ confirmed ∨ row ∈ vw_unfiltered v ∧ uncertain confirmed retention row) ∧
  length known ≤ Nat.max (vw_limit v) (length confirmed) ∧
  (length confirmed + length (filter (uncertain confirmed retention) (vw_unfiltered v)) ≤ vw_limit v →
   known ≡ₚ confirmed ++ filter (uncertain confirmed retention) (vw_unfiltered v)).
Proof.
  intros Hnd Hcnd known. unfold known, apply_target.
  destruct (retain_unconfirmed_spec confirmed retention (vw_unfiltered v)) as [Hperm _].
  pose proof (retain_unconfirmed_nodup confirmed retention _ Hnd Hcnd) as Hmnd.
  set (merged := retain_unconfirmed _ _ _) in *. set (ordered := match pb_sort _ with Some _ => _ | None => _ end).
  assert (ordered ≡ₚ merged) as Hord by (unfold ordered; destruct (pb_sort _); [apply sort_by_perm|done]).
  assert (NoDup (ids_of ordered)) as Hond by (unfold ids_of; by rewrite Hord).
  destruct (evict_unconfirmed_spec (list_to_set (ids_of confirmed)) ordered (vw_limit v) Hond) as (Hsub & Hkeep & Hlen & Hsum).
  set (kept := (evict_unconfirmed_beyond _ _ _).1) in *.
  assert (filter (λ row, row_item_id row ∈ list_to_set (C := gset ItemId) (ids_of confirmed)) ordered ≡ₚ confirmed) as Hconf.
  { rewrite Hord, Hperm, filter_app, filter_all, filter_none; [by rewrite app_nil_r| |].
    - intros row [[Hno _] _]%list_elem_of_filter. by rewrite elem_of_list_to_set.
    - intros row Hrow. apply elem_of_list_to_set. by apply ids_elem. }
  rewrite Hconf in Hlen. assert (length ordered = length merged) as Hol by by rewrite Hord.
  assert (length merged = length confirmed + length (filter (uncertain confirmed retention) (vw_unfiltered v))) as Hml
    by by rewrite Hperm, length_app.
  split_and!.
  - eapply sublist_NoDup; [exact Hond|by apply sublist_fmap].
  - intros row Hrow. apply Hkeep; [|apply elem_of_list_to_set; by apply ids_elem]. rewrite Hord, Hperm. apply elem_of_app. by left.
  - intros row Hrow. assert (row ∈ ordered) as Hin by by eapply elem_of_sublist. rewrite Hord, Hperm in Hin.
    apply elem_of_app in Hin as [?|[? ?]%list_elem_of_filter]; auto.
  - lia.
  - intros Hroom. assert (kept = ordered) as ->; [|by rewrite Hord].
    apply sublist_same_length; [done|lia].
Qed.

Definition uncertain_scan : list Row := [demo_row 3 (demo_record 9 3 "cat" (Known 1%N))].
Lemma uncertain_rows_survive_witness :
  ids_of (apply_target srtop_view uncertain_scan (Skipped {[7%N]})) = [iid 1; iid 3] ∧
  ∀ row, row ∈ uncertain_scan → row ∈ apply_target srtop_view uncertain_scan (Skipped {[7%N]}).
Proof.
  split; [vm_compute; reflexivity|].
  apply (uncertain_rows_survive srtop_view uncertain_scan (Skipped {[7%N]}) demo_rows_nodup). decide_now.
Defined.

(** C38: what is published fits: the rows a view publishes are the first of the rows
    that match, as many as the ceiling and the bytes of one snapshot allow and no
    fewer, and whichever columns they are shown with, the items of the collection
    and the headers of its ranges stay within the part of a snapshot that is left
    once the shell, the status lines and the summary have their reserves. *)
Theorem published_rows_fit_a_snapshot (matches : Row → bool) (unfiltered : list Row) (limit : nat) :
  let '(rows, matched, truncated) := project_visible_rows matches unfiltered limit in
  rows = take (length rows) (filter (λ r, matches r = true) unfiltered) ∧
  matched = length (filter (λ r, matches r = true) unfiltered) ∧ length rows + truncated = matched ∧ length rows ≤ limit ∧
  (∀ layout shown, NoDup layout → mapM (λ row, laid_out row layout) rows = Some shown →
     sum_bytes row_wire_bytes shown + ranges (length shown) * SNAPSHOT_RANGE_BYTES + SNAPSHOT_SHELL_BYTES +
       STATUS_RESERVE_BYTES + SUMMARY_RESERVE_BYTES + FILTER_RESERVE_BYTES ≤ MAX_TRANSACTION_PAYLOAD_BYTES)%N ∧
  (truncated = 0 ∨ length rows = limit ∨
   (publishable_budget < collection_bytes (take (S (length rows)) (filter (λ r, matches r = true) unfiltered)))%N).
Proof.
  unfold project_visible_rows. pose proof (bound_to_publishable_spec (filter (λ r, matches r = true) unfiltered) limit) as Hb.
  destruct (bound_to_publishable_collection _ _) as [rows truncated]. destruct Hb as (Hrows & Hsum & Hlimit & Hfit & Hmax).
  split; [exact Hrows|]. split; [done|]. split; [exact Hsum|]. split; [exact Hlimit|]. split; [|exact Hmax].
  intros layout shown Hnd Hshown.
  assert (sum_bytes row_wire_bytes shown ≤ sum_bytes row_cost rows ∧ length shown = length rows)%N as [Hle Hlen].
  { apply mapM_Some_1 in Hshown. clear Hrows Hsum Hlimit Hfit Hmax. induction Hshown as [|row row' rows shown Hrow _ [IH Hlen]]; [done|].
    split; [|cbn [length]; by rewrite Hlen]. apply (laid_out_bytes _ _ _ Hnd) in Hrow. unfold sum_bytes in *. cbn [foldr]. lia. }
  rewrite Hlen. unfold collection_bytes, publishable_budget in Hfit.
  assert (SNAPSHOT_SHELL_BYTES + STATUS_RESERVE_BYTES + SUMMARY_RESERVE_BYTES + FILTER_RESERVE_BYTES ≤ MAX_TRANSACTION_PAYLOAD_BYTES)%N as Hroom
    by (vm_compute; discriminate).
  lia.
Qed.

Lemma published_rows_fit_a_snapshot_witness :
  ∃ shown, mapM (λ row, laid_out row [FieldCpu; FieldName]) demo_rows = Some shown ∧
    (sum_bytes row_wire_bytes shown < MAX_TRANSACTION_PAYLOAD_BYTES)%N.
Proof.
  pose proof (published_rows_fit_a_snapshot (λ _, true) demo_rows 100) as Hfit.
  assert (project_visible_rows (λ _, true) demo_rows 100 = (demo_rows, 3, 0)) as Heq by (vm_compute; reflexivity).
  rewrite Heq in Hfit. destruct Hfit as (_ & _ & _ & _ & Hfit & _).
  destruct (rows_laid_out demo_rows [FieldCpu; FieldName] demo_rows_cells) as (shown & Hshown & _).
  exists shown. split; [exact Hshown|]. specialize (Hfit [FieldCpu; FieldName] shown ltac:(decide_now) Hshown).
  unfold SNAPSHOT_SHELL_BYTES, STATUS_RESERVE_BYTES in Hfit. lia.
Defined.

(** Columns change in place: whatever layout is published, and after each of its
    transactions, the published rows are the rows published before, under the same
    item ids and in the same order; once it has committed every row shows the cells
    of the new layout; and when the change fits one transaction it commits whole or
    not at all, so headings and cells never disagree. *)
Theorem layouts_are_published_in_place `{Registry, EventRegistry, PropertyIter, Diagnostics, Digest, SdkProperties}
    (fuel : nat) (s : SessionInner) (v : ProcessView) (layout : ColumnLayout) (target : list Row)
    (s' : SessionInner) (p' : Published) (n : nat) (r : result SessionError unit) :
  view_ok s v → layout_ok layout →
  mapM (λ row, laid_out row layout) (pb_rows (vw_published v)) = Some target →
  let p := vw_published v in
  let batch := (mutation_limits s).1 in
  let max_ops := (mutation_limits s).2 in
  commit fuel s (layout_plan (pb_columns p) layout (pb_rows p) target batch max_ops) max_ops MAX_TRANSACTION_PAYLOAD_BYTES p = (s', p', n, r) →
  store_mirrors (store s') (pb_rows p') ∧ ids_of (pb_rows p') = ids_of (pb_rows p) ∧
  (r = Ok tt → to_model_item <$> pb_rows p' = to_model_item <$> target ∧ pb_columns p' = layout) ∧
  (length (layout_ops (pb_columns p) layout (pb_rows p) target batch) ≤ max_ops →
   (sum_bytes pl_bytes (layout_ops (pb_columns p) layout (pb_rows p) target batch) ≤ MAX_TRANSACTION_PAYLOAD_BYTES)%N →
   n = 0 ∧ p' = p ∨ n = 1 ∧ to_model_item <$> pb_rows p' = to_model_item <$> target ∧ pb_columns p' = layout).
Proof.
  intros Hv Hl Htarget p batch max_ops. destruct (mutation_limits_positive s) as [Hbatch Hops]. fold batch max_ops in Hbatch, Hops.
  destruct (rows_laid_out (pb_rows p) layout (vo_cells _ _ Hv)) as (target' & Htarget' & Hids & Hc).
  assert (target' = target) as -> by (apply Some_inj; rewrite <- Htarget', <- Htarget; done).
  pose proof (view_nodup s v Hv) as Hnd. fold p in Hnd.
  destruct (layout_effects (pb_columns p) layout (pb_rows p) target batch Hids Hnd Hbatch) as [Hplace Hcols].
  set (ops := layout_ops (pb_columns p) layout (pb_rows p) target batch) in *.
  pose proof (layout_plan_sound max_ops (pb_columns p) layout (pb_rows p) target batch Hl Hbatch Hops Hnd Hids Hc) as Hsound.
  assert (pl_effect <$> layout_plan (pb_columns p) layout (pb_rows p) target batch max_ops = pl_effect <$> ops) as Heff.
  { unfold layout_plan. fold ops. destruct (_ && _); [|done]. by apply (join_all_fmap pl_effect). }
  assert (∀ q, record_all (layout_plan (pb_columns p) layout (pb_rows p) target batch max_ops) q = record_all ops q) as Hrec
    by (intros q; by rewrite !record_all_effects, Heff).
  assert (to_model_item <$> rows_after ops (pb_rows p) = to_model_item <$> target) as Hitems.
  { unfold ops, layout_ops. change (?x :: ?l ++ ?k) with ((x :: l) ++ k). rewrite rows_after_app, (head_rows (_ :: _))
      by (constructor; [by apply columns_head_op|apply chooser_head]).
    apply diff_spec; [done|done|by rewrite Hids|apply cell_rows_values, Hv|by apply cell_rows_values]. }
  intros Heq. pose proof Heq as Hcommit. destruct Hv. apply commit_sound in Heq as ([(k & Hk & _ & -> & Hend) Hmir _ _ _] & _); try done; [|lia].
  split; [exact Hmir|]. split; [|split].
  - rewrite record_all_rows. apply in_place_ids, Forall_take. assert (Forall in_place (pl_effect <$> ops)) as Hp by by apply Forall_fmap.
    rewrite <- Heff in Hp. rewrite Forall_fmap in Hp. exact Hp.
  - intros ->. rewrite (Hend eq_refl), take_ge, Hrec by done. split; [|apply Hcols]. by rewrite record_all_rows.
  - intros Hlen Hbytes. assert (layout_plan (pb_columns p) layout (pb_rows p) target batch max_ops = join_all ops) as Hjoin.
    { unfold layout_plan. fold ops. by rewrite (proj2 (Nat.leb_le _ _) Hlen), (proj2 (N.leb_le _ _) Hbytes). }
    apply commit_unit in Hcommit; [|lia|rewrite Hjoin; intros j; apply join_all_joins].
    destruct Hcommit as [[-> Hp']|(-> & Hp' & _)]; [by left|right]. rewrite Hp', Hrec. split; [done|].
    split; [by rewrite record_all_rows|apply Hcols].
Qed.

Definition demo_layout : ColumnLayout := [FieldCpu; FieldName].
Definition demo_laid_out : list Row := default [] (mapM (λ row, laid_out row demo_layout) demo_rows).
Definition demo_layout_commit : SessionInner * Published * nat * result SessionError unit :=
  commit 9 srtop_session
    (layout_plan (pb_columns (vw_published srtop_view)) demo_layout (pb_rows (vw_published srtop_view)) demo_laid_out
      (mutation_limits srtop_session).1 (mutation_limits srtop_session).2)
    (mutation_limits srtop_session).2 MAX_TRANSACTION_PAYLOAD_BYTES (vw_published srtop_view).
Lemma layouts_are_published_in_place_witness :
  ids_of (pb_rows demo_layout_commit.1.1.2) = ids_of demo_rows ∧ demo_layout_commit.1.2 = 1.
Proof.
  split; [|vm_compute; reflexivity].
  pose proof (layouts_are_published_in_place 9 srtop_session srtop_view demo_layout demo_laid_out
    demo_layout_commit.1.1.1 demo_layout_commit.1.1.2 demo_layout_commit.1.2 demo_layout_commit.2 srtop_view_ok) as Hl.
  apply Hl; [split; [discriminate|decide_now]|vm_compute; reflexivity|exact (surjective_4 demo_layout_commit)].
Defined.

(** Only the newest filter commits: staging a query gives it a generation of
    its own and changes no committed filter; committing a generation that is not the
    newest staged, or that was committed already, changes nothing at all; and
    committing the newest installs the query staged under it, so generations never
    go back.  A query set in one call is the one committed. *)
Theorem only_the_newest_filter_commits `{Registry, EventRegistry, PropertyIter, Diagnostics, Digest, SdkProperties, FilterQueries}
    (s : SessionInner) (v : ProcessView) (f : FilterState) (query : string) (summarize : option nat → Properties) (generation : N) :
  filter_ok f → (filter_generation f < u64_max)%N →
  let '(s1, v1, f1, r1) := stage_filter s v f query in
  let '(s2, v2, f2, r2) := commit_filter s v f summarize generation in
  let '(_, _, f3, _) := set_filter s v f summarize query in
  filter_ok f1 ∧ committed_filter f1 = committed_filter f ∧ filter_generation f1 = (filter_generation f + 1)%N ∧
  (∀ g, r1 = Ok g → g = filter_generation f1) ∧
  filter_ok f2 ∧ (committed_generation f ≤ committed_generation f2)%N ∧
  (match pending_filter f with
   | Some pending =>
       if decide (generation = filter_generation f)
       then committed_filter f2 = pf_query pending ∧ committed_generation f2 = generation ∧ pending_filter f2 = None
       else (s2, v2, f2, r2) = (s, v, f, Ok tt)
   | None => (s2, v2, f2, r2) = (s, v, f, Ok tt)
   end) ∧
  filter_ok f3 ∧ (is_ok r1 = true → committed_filter f3 = query_parse query ∧ committed_generation f3 = (filter_generation f + 1)%N).
Proof.
  intros Hf Hmax.
  destruct (stage_filter s v f query) as [[[s1 v1] f1] r1] eqn:Hstage.
  destruct (commit_filter s v f summarize generation) as [[[s2 v2] f2] r2] eqn:Hcommit.
  destruct (set_filter s v f summarize query) as [[[s3 v3] f3] r3] eqn:Hset.
  destruct (stage_filter_state _ _ _ _ _ _ _ _ Hf Hmax Hstage) as (Hf1 & Hc1 & Hg1 & Hn1 & Hp1 & Hr1).
  destruct (commit_filter_state _ _ _ _ _ _ _ _ _ Hf Hcommit) as (Hf2 & Hg2 & _ & Hout).
  unfold set_filter in Hset. rewrite Hstage in Hset. split; [exact Hf1|]. split; [exact Hc1|]. split; [exact Hn1|]. split; [exact Hr1|].
  split; [exact Hf2|]. split; [exact Hg2|]. split; [exact Hout|].
  destruct r1 as [g|e| |]; [|injection Hset as _ _ <- _; by split..].
  pose proof (commit_filter_state _ _ _ _ _ _ _ _ _ Hf1 Hset) as (Hf3 & _ & _ & Hout3).
  split; [exact Hf3|]. intros _. rewrite Hp1 in Hout3. rewrite decide_True in Hout3 by by apply Hr1.
  destruct Hout3 as (Hq & Hg & _). split; [exact Hq|]. rewrite Hg, <- Hn1. by apply Hr1.
Qed.

Definition srtop_filtered : SessionInner * ProcessView * FilterState * result SessionError unit :=
  set_filter srtop_session srtop_view srtop_filter (λ _, ∅) "sh".
Lemma only_the_newest_filter_commits_witness :
  committed_filter srtop_filtered.1.2 = "sh" ∧ ids_of (pb_rows (vw_published srtop_filtered.1.1.2)) = [iid 2].
Proof.
  split; [|vm_compute; reflexivity].
  pose proof (only_the_newest_filter_commits srtop_session srtop_view srtop_filter "sh" (λ _, ∅) 0) as Hf.
  assert (is_ok (stage_filter srtop_session srtop_view srtop_filter "sh").2 = true) as Hok by (vm_compute; reflexivity).
  unfold srtop_filtered. revert Hf Hok.
  generalize (stage_filter srtop_session srtop_view srtop_filter "sh") (commit_filter srtop_session srtop_view srtop_filter (λ _, ∅) 0)
    (set_filter srtop_session srtop_view srtop_filter (λ _, ∅) "sh").
  intros [[[s1 v1] f1] r1] [[[s2 v2] f2] r2] [[[s3 v3] f3] r3] Hf Hok.
  apply Hf; [split; [vm_compute; discriminate|discriminate]|vm_compute; reflexivity|exact Hok].
Defined.

(** A summary is published as what changed: setting and clearing the properties
    that differ, each once and in the order of nodes and properties, leaves exactly
    the summary wanted, and no change is planned for a summary that is already
    published. *)
Theorem summary_changes_reach_the_target `{EventRegistry, SdkProperties} (p : Published) (target : Properties) :
  (∀ key v, pb_summary p !! key = Some v → cell_value v) → (∀ key v, target !! key = Some v → cell_value v) →
  pb_summary (record_all (summary_effects (pb_summary p) target) p) = target ∧
  NoDup (change_of <$> changes (pb_summary p) target) ∧
  (summary_effects (pb_summary p) target = [] ↔ pb_summary p = target).
Proof.
  intros Hp Ht.
  assert (pb_summary (record_all (summary_effects (pb_summary p) target) p) = target) as Hreach.
  { unfold summary_effects. rewrite summary_recorded. by apply changes_reach. }
  split; [exact Hreach|]. split; [apply changes_nodup|]. split.
  - intros Hnil. rewrite Hnil in Hreach. exact Hreach.
  - intros Heq. unfold summary_effects. destruct (changes (pb_summary p) target) as [|c l] eqn:Hc; [done|exfalso].
    assert (c ∈ changes (pb_summary p) target) as Hin by (rewrite Hc; left). apply changes_elem in Hin. rewrite Heq in Hin.
    destruct (ch_value c) as [v|].
    + destruct Hin as [Hv Hset]. unfold property_set in Hset. cbn [fst snd] in Hset. rewrite Hv in Hset.
      assert (value_eqb v v = true) as Hvv by (apply value_eqb_cell; [by eapply Ht|by eapply Ht|done]). by rewrite Hvv in Hset.
    + destruct Hin as [[v Hv] Hno]. rewrite Hno in Hv. discriminate.
Qed.

Definition demo_summary (text : string) : Properties := {[(nid 9, PROP_TEXT) := VString text; (nid 10, PROP_TEXT) := VUnsignedInt 3]}.
Lemma demo_summary_cells text key v : demo_summary text !! key = Some v → cell_value v.
Proof. unfold demo_summary. intros [[_ <-]|[_ [_ <-]%lookup_singleton_Some]]%lookup_insert_Some; exact I. Qed.
Lemma summary_changes_reach_the_target_witness :
  let p := mkPublished [] "" (demo_summary "a") None "" PROCESS_LIST in
  pb_summary (record_all (summary_effects (demo_summary "a") (demo_summary "b")) p) = demo_summary "b" ∧
  length (summary_effects (demo_summary "a") (demo_summary "b")) = 1.
Proof.
  intros p. split; [|vm_compute; reflexivity].
  apply (summary_changes_reach_the_target p (demo_summary "b") (demo_summary_cells "a") (demo_summary_cells "b")).
Defined.

(** ** Identities *)

(** C14: an item id belongs to one process for good: over the life of an allocator,
    whatever scans are projected, accepted or refused, and whatever is forgotten in
    between, no id is ever given to two processes.  An accepted scan has one row for
    each of its records, under distinct ids, and a process whose id is still
    remembered gets that id again; a scan with a process twice is refused and
    changes nothing, and a scan is refused otherwise only when all 2^64 - 1 ids are
    used up. *)
Theorem item_ids_are_never_reused (given : list (ProcessKey * ItemId)) (ids : SessionItemIds) (snapshot : ProcessSnapshot)
    (layout : ColumnLayout) (ids' : SessionItemIds) (r : result ProjectError (list Row)) :
  ids_run given ids → project ids snapshot layout = (ids', r) →
  (∀ key1 key2 id, (key1, id) ∈ given ++ given_by r → (key2, id) ∈ given ++ given_by r → key1 = key2) ∧
  match r with
  | Ok rows => length rows = length (ps_records snapshot) ∧ NoDup (row_key <$> rows) ∧ NoDup (ids_of rows) ∧
      ∀ row id, row ∈ rows → ii_assigned ids !! row_key row = Some id → row_item_id row = id
  | Err DuplicateIdentity => ids' = ids ∧ ¬ NoDup (anchor_all (ii_identity ids) (ps_records snapshot)).2
  | Err IdsExhausted => ii_last ids' = u64_max
  | _ => False
  end.
Proof.
  intros Hrun Hp. pose proof (ids_run_ok _ _ Hrun) as Hok. split; [by apply (go_once _ _ (given_ok_project _ _ _ _ _ _ Hok Hp))|].
  destruct (project_spec _ _ _ _ _ (go_wf _ _ Hok) Hp) as (Hr & Hg & _).
  destruct r as [rows|[]| |]; [|exact Hr|by destruct Hr|destruct Hr..].
  destruct Hr as (Hnd & Hkeys & Hndi & _ & _ & Hass). split_and!; [|by rewrite Hkeys|done|].
  - rewrite <- (length_fmap row_key rows), Hkeys. apply anchor_all_length.
  - intros row id Hin Hk. apply (gr_kept _ _ _ Hg) in Hk. rewrite (Hass row Hin) in Hk. by injection Hk.
Qed.

Lemma srtop_ids_run : ∃ given, ids_run given srtop_ids.
Proof.
  unfold srtop_ids. generalize demo_snapshot0. intros snapshot. destruct (project SessionItemIds_default snapshot PROCESS_LIST) as [ids r] eqn:Hp.
  eexists. exact (ids_project _ _ _ _ _ _ ids_start Hp).
Qed.
Lemma item_ids_are_never_reused_witness :
  ids_of (scanned_rows (project srtop_ids demo_snapshot PROCESS_LIST).2) = [iid 3; iid 1; iid 4] ∧
  ∀ row, row ∈ scanned_rows (project srtop_ids demo_snapshot PROCESS_LIST).2 → row_key row = demo_key 9 3 → row_item_id row = iid 3.
Proof.
  split; [vm_compute; reflexivity|].
  assert (ii_assigned srtop_ids !! demo_key 9 3 = Some (iid 3)) as Hkept by (vm_compute; reflexivity).
  destruct srtop_ids_run as [given Hrun]. revert Hkept Hrun. generalize srtop_ids, demo_snapshot. intros ids snapshot Hkept Hrun.
  destruct (project ids snapshot PROCESS_LIST) as [ids' r] eqn:Hp.
  destruct (item_ids_are_never_reused given ids snapshot PROCESS_LIST ids' r Hrun Hp) as [_ H].
  destruct r as [rows|e| |]; cbn [snd scanned_rows]; [|intros row Hin; by apply elem_of_nil in Hin..].
  destruct H as (_ & _ & _ & Hkeep). intros row Hin Hk. apply Hkeep; [exact Hin|]. by rewrite Hk.
Defined.

(** Losing sight of the source changes no row's identity: when a scan has read
    the source's host, boot and namespace, and a later scan of the same source reads
    each of them again or loses it for whatever reason, records of both have the same
    item id exactly if they are of one process of that source, as long as the view
    kept the rows of the first. *)
Theorem lost_identity_rekeys_nothing (ids ids1 ids2 : SessionItemIds) (snap1 snap2 : ProcessSnapshot) (layout1 layout2 : ColumnLayout)
    (known rows1 rows2 : list Row) (host boot : string) (namespace : N) :
  ids_wf ids → ps_records snap1 ≠ [] →
  Forall (globals_known host boot namespace) (ps_records snap1) → Forall (globals_lost host boot namespace) (ps_records snap2) →
  project ids snap1 layout1 = (ids1, Ok rows1) → (∀ row, row ∈ rows1 → row ∈ known) →
  project (retain_ids ids1 known) snap2 layout2 = (ids2, Ok rows2) →
  ∀ i j a b row1 row2, ps_records snap1 !! i = Some a → ps_records snap2 !! j = Some b →
    rows1 !! i = Some row1 → rows2 !! j = Some row2 → same_process a b ↔ row_item_id row1 = row_item_id row2.
Proof.
  intros Hw Hne Hknown Hlost Hp1 Hkeep Hp2 i j a b row1 row2 Ha Hb Hr1 Hr2.
  destruct (project_spec _ _ _ _ _ Hw Hp1) as ((Hnd1 & Hk1 & _ & _ & _ & Hass1) & Hg1 & Hi1).
  rewrite (anchor_all_known _ _ _ _ _ Hne Hknown) in Hnd1, Hk1, Hi1. cbn [fst snd] in *.
  assert (any_seen ∅ ((λ record, restored host boot namespace (pr_key record)) <$> ps_records snap1) = false) as Hseen.
  { apply any_seen_NoDup. split; [done|]. intros k _. apply not_elem_of_empty. }
  rewrite Hseen in Hi1.
  assert (ii_identity (retain_ids ids1 known) = mkIdentity (Some host) (Some boot) (Some namespace)) as Hid
    by (unfold retain_ids; by destruct (_ =? _)%nat).
  destruct (project_spec _ _ _ _ _ (retain_ids_wf _ known (gr_wf _ _ _ Hg1)) Hp2) as ((_ & Hk2 & _ & _ & _ & Hass2) & Hg2 & _).
  rewrite Hid, (anchor_all_lost _ _ _ _ Hlost) in Hk2. cbn [snd] in Hk2.
  assert (row_key row1 = restored host boot namespace (pr_key a)) as Hka.
  { apply (f_equal (λ l, l !! i)) in Hk1. rewrite !list_lookup_fmap, Hr1, Ha in Hk1. by injection Hk1. }
  assert (row_key row2 = restored host boot namespace (pr_key b)) as Hkb.
  { apply (f_equal (λ l, l !! j)) in Hk2. rewrite !list_lookup_fmap, Hr2, Hb in Hk2. by injection Hk2. }
  rewrite <- (restored_same host boot namespace), <- Hka, <- Hkb.
  apply list_elem_of_lookup_2 in Hr1, Hr2.
  assert (view_ids ids2 rows1) as Hv.
  { split; [apply Hg2|]. intros row Hin. apply (gr_kept _ _ _ Hg2). apply (retain_ids_kept ids1); auto. }
  apply (view_ids_same _ _ _ Hv Hass2); done.
Qed.

(** The second scan could read neither the host nor the boot. *)
Definition lost_record (pid ticks : N) (name : string) : ProcessRecord :=
  mkRecord (mkKey "fake" (Missing ReasonDenied) (Missing ReasonUnavailable) (Known 1%N) (Known pid) (LinuxBootTicks ticks))
    (mkDisplayName name None) (Known 9%N) WarmingUp.
Definition lost_snapshot : ProcessSnapshot := snapshot_of [lost_record 9 3 "cat"; lost_record 7 1 "init"].
Lemma demo_globals_known : Forall (globals_known "host" "boot" 1) (ps_records demo_snapshot0).
Proof.
  unfold demo_snapshot0, snapshot_of. cbn [ps_records].
  apply Forall_cons_2; [|apply Forall_cons_2; [|apply Forall_cons_2; [|apply Forall_nil_2]]]; (split; [|split]); reflexivity.
Qed.
Lemma lost_globals_lost : Forall (globals_lost "host" "boot" 1) (ps_records lost_snapshot).
Proof.
  unfold lost_snapshot, snapshot_of. cbn [ps_records].
  apply Forall_cons_2; [|apply Forall_cons_2; [|apply Forall_nil_2]];
    (split; [right; by eexists|split; [right; by eexists|left; reflexivity]]).
Qed.
Lemma lost_identity_rekeys_nothing_witness :
  let first := project SessionItemIds_default demo_snapshot0 PROCESS_LIST in
  let second := project (retain_ids first.1 (scanned_rows first.2)) lost_snapshot PROCESS_LIST in
  is_ok first.2 = true ∧ is_ok second.2 = true ∧
  ∀ row1 row2, scanned_rows first.2 !! 2 = Some row1 → scanned_rows second.2 !! 0 = Some row2 → row_item_id row1 = row_item_id row2.
Proof.
  intros first second.
  assert (is_ok first.2 = true) as Hok1 by (vm_compute; reflexivity).
  assert (is_ok second.2 = true) as Hok2 by (vm_compute; reflexivity).
  split; [exact Hok1|]. split; [exact Hok2|].
  pose proof (lost_identity_rekeys_nothing SessionItemIds_default first.1 second.1 demo_snapshot0 lost_snapshot PROCESS_LIST PROCESS_LIST
    (scanned_rows first.2)) as Hlost.
  unfold second in *. clear second. revert Hok1 Hok2 Hlost.
  assert (first = project SessionItemIds_default demo_snapshot0 PROCESS_LIST) as Hfirst by reflexivity. clearbody first.
  destruct first as [ids1 r1]. cbn [fst snd].
  destruct (project (retain_ids ids1 (scanned_rows r1)) lost_snapshot PROCESS_LIST) as [ids2 r2]. cbn [fst snd].
  intros Hok1 Hok2 Hlost row1 row2. destruct r1 as [rows1| | |]; [|discriminate Hok1..]. destruct r2 as [rows2| | |]; [|discriminate Hok2..].
  intros H1 H2.
  apply (Hlost rows1 rows2 "host" "boot" 1%N ids_default_wf ltac:(discriminate) demo_globals_known lost_globals_lost (eq_sym Hfirst) (λ _ H, H) eq_refl
    2 0 (demo_record 9 3 "cat" (Known 2048%N)) (lost_record 9 3 "cat") row1 row2 ltac:(reflexivity) ltac:(reflexivity) H1 H2).
  split_and!; reflexivity.
Defined.

(** A component that was never read is a different one when it cannot be read for
    another reason: the process gets another id. *)
Example unread_identities_rekey :
  let scan reason := snapshot_of [mkRecord (mkKey "fake" (Missing reason) (Known "boot") (Known 1%N) (Known 7%N) (LinuxBootTicks 1))
    (mkDisplayName "init" None) (Known 9%N) WarmingUp] in
  let first := project SessionItemIds_default (scan ReasonUnavailable) PROCESS_LIST in
  let second := project (retain_ids first.1 (scanned_rows first.2)) (scan ReasonDenied) PROCESS_LIST in
  ids_of (scanned_rows first.2) = [iid 1] ∧ ids_of (scanned_rows second.2) = [iid 2].
Proof. vm_compute. split; reflexivity. Qed.
